(* ===== verification/_CoqProject ===== *)
-Q . S2P
Prelude.v
Errors.v
Text.v
Values.v
Steps.v
Definitions.v
Graph.v
Analysis.v
Interventions.v
Instance.v
Equality.v
Budget.v
Authorization.v
AuditLog.v
Delivery.v
DeliveryLedger.v
Integrators.v
Fold.v
Rules.v
Decide.v
DecideTable.v
DecideLineage.v
Engine.v
EventStore.v
SessionStream.v
UseCases.v
Differences.v
Succession.v
Children.v
Cursors.v
Deliberation.v
Deliberate.v
Scheduler.v
Execution.v
Scenario.v
Sessions.v
Machine.v
Invariants.v
Journal.v
Claims.v
Moves.v
Publication.v
Adoption.v
Cycles.v
Lifecycle.v
Deadlines.v
Conversation.v
Reasons.v
Retries.v
Families.v
Dispatch.v
Ledger.v
Delegation.v
Tamper.v
ReadBack.v
Streams.v
Interleaving.v
Concurrency.v
GlobalOrder.v
Progress.v
Openings.v
Spawning.v
Handover.v
Kinship.v
Feed.v
Consumers.v
Draining.v
Ranking.v
Consensus.v
Batches.v
Fairness.v
Executions.v
Settlement.v
Deliveries.v
Offers.v
Seats.v
DeliveryDefects.v
Defects.v
AdoptionDefects.v
StreamDefects.v
