(* ===== verification/Prelude.v ===== *)
(** * A verification of the ceremony engine of MADE

    MADE runs ceremonies: declared state machines whose steps are claimed and
    worked by agents and people.  The heart of the program is the event-sourced
    aggregate [CeremonyInstance] of crates/made-core: a command is _decided_
    against the current session and its definition and yields events, and the
    events are _folded_ into the session.  Every other crate loads a session by
    folding its journal, decides one command, appends the events with
    optimistic concurrency and renders the outcome.  Around it stand the
    analysis that decides whether a definition may be published, the ledger
    that sells budget to operations, the policy that grants and delegates
    permission, the audit journal that seals every event into a chain of
    digests, and the ledger that delivers work to hosts with the bindings of the
    hosts that drive a ceremony.  Above them the event store, the session stream
    and the use cases of made-app let many callers drive many sessions at once;
    a step may be worked by a council of agents that deliberate and rank their
    proposals, or by an external operation whose outcome is kept as a receipt;
    and a scheduler shares the workers between ceremonies.
    This library models these completely (data, fold, rules, all commands) and
    proves what the rest of the program relies on.

    ** Files

    The model, in dependency order (paths under src/crates/made-core/src):
    - Prelude: the result monad ([Ok], [Err] for a [DomainError], [Panic] for
      a failed [expect]), iteration in BTreeMap order, record update, machine
      integer bounds, the lemmas and tactics the other files share.
    - Errors, Text, Values: error.rs; the identifier constructors of
      value_objects/ceremony (trimming and control characters on UTF-8 bytes);
      attributes.rs, ceremony_context.rs, context_patch.rs, context_writes.rs.
    - Steps: attempts, iterations, visits, results, leases, execution records,
      claim fences, deadlines, retry policy and the lifecycle value.
    - Definitions: entities/ceremony_definition.rs and its guards and
      collections, with the states, steps, roles, guards and transitions.
    - Graph, Analysis: entities/ceremony_definition_analysis.rs with its
      directory and ceremony_definition_draft.rs: reachability, components,
      the structural checks in their order, the report, publication.
    - Interventions: entities/ceremony_intervention.rs, targets, responses,
      acknowledgements and reasons.
    - Instance: the fields of the aggregate, its events
      (entities/ceremony_events), commands (entities/ceremony_commands) and
      read queries.
    - Budget: entities/budget_ledger.rs and value_objects/budget: limits,
      estimates, reservations, measurements, balance, decide and apply.
    - Authorization: entities/authorization_policy.rs with its directory and
      value_objects/authorization: grants, chains, separation rules, decisions,
      accepted work, decide and apply.
    - AuditLog: entities/audit_record.rs, audit_chain.rs, audit_fact.rs,
      ceremony_event_reader.rs and value_objects/audit: the digest of a record,
      sealing, verification, the stored form and its reader.
    - Delivery, DeliveryLedger, Integrators: value_objects/delivery, the filters
      and outcomes under ports, and, in the crates made-adapters and made-app,
      src/delivery, src/memory/host_delivery_ledger.rs,
      src/memory/integrator_bindings.rs, src/services/attention/
      binding_deliveries.rs and the binding and acknowledging use cases of
      src/usecases/integrator.
    - Fold: entities/ceremony_instance/fold, one definition per event; [apply],
      [apply_all], [rehydrate].
    - Rules: invariants.rs, role_resolution.rs, step_claims.rs, transitions.rs
      and children.rs of entities/ceremony_instance.
    - Decide, DecideTable, DecideLineage: entities/ceremony_instance/decisions,
      one definition per [decide_*] function, the openings included.
    - Engine: [decide], the mutators, and [session], the streams and states
      reachable by opening a ceremony and deciding commands.
    - Equality: decidable equality of events and sessions.
    - EventStore: ports/ceremony_event_store.rs, ports/append_outcome.rs and, in
      made-adapters, src/memory/ceremony_event_store.rs: streams, the global
      log, snapshots, appends against an expected version.
    - SessionStream: src/services of made-app (session_facts.rs,
      session_stream.rs with its directory, conflict_policy.rs) and the paged
      reads of src/usecases.
    - UseCases: fifteen use cases of made-app/src/usecases that open and drive a
      session, with the replay of an accepted completion.
    - Differences: value_objects/ceremony/ceremony_definition_diff.rs and the use
      case of made-app that compares two definitions.
    - Succession: services/succession_evidence.rs and
      usecases/start_ceremony_successor_use_case.rs of made-app with its support,
      the handover of a ceremony to one of another definition.
    - Children: usecases/prepare_ceremony_children_use_case.rs with its support and
      accept_child_completion_use_case.rs of made-app, and the constructors of child
      identifiers, lineages and spawn plans.
    - Cursors: the cursors of src/memory/ceremony_event_cursor.rs of made-adapters
      with their leases, attempts and quarantine, and the use cases of made-app that
      publish the global log to a transport, pull it and recover children from it.
    - Deliberation, Deliberate: entities/deliberation.rs, council.rs, the events
      and value objects of proposals, critiques, revisions, scores and outcomes,
      and, in made-app, the use cases of src/usecases that deliberate, orchestrate
      and keep councils.
    - Scheduler: src/workers/ceremony_worker_scheduler.rs of made-app with its
      requests, policy, queues and decisions.
    - Execution: value_objects/execution and value_objects/artifact, the receipt
      store of made-adapters (src/memory) and the use cases of made-app/src/workers
      that execute, recover and reconcile an external operation.

    The proofs:
    - Scenario: a concrete ceremony and runs of it, used by the witnesses.
    - Sessions: what events touch, what commands emit, the shape of every
      accepted claim, result, move and renewal, replay of a session's stream.
    - Machine: an abstract transition system on the work of a session (claims,
      renewals, results, repetitions, passes, moves, expiries) and the
      refinement of the aggregate to it.
    - Invariants: invariants of the machine, proved once per rule and valid for
      every session through the refinement.
    - Journal: replay, refinement, keys, totality of the fold.
    - Claims: fences, sequential and concurrent claiming, bounds of attempts
      and iterations, superseded claims.
    - Moves: paths of declared transitions and budgets, acceptance of a move,
      completion.
    - Publication: publishing raises the first error of the report; what a
      published definition guarantees.
    - Adoption: the comparison is empty exactly for definitions that are alike; a
      session that no change strands keeps its moves under the new definition.
    - Cycles: the analysis finds exactly the cycles; sessions of a published
      definition make a bounded number of moves.
    - Lifecycle: paused, ended and superseded sessions.
    - Deadlines: lease renewal and deadline enforcement.
    - Conversation, Reasons: agenda items, answers, closing; reasons.
    - Retries: commands that may be delivered twice.
    - Families: depth of child ceremonies, joins, succession and the evidence
      it carries.
    - Dispatch: the offered work is the accepted work, in a session that runs.
    - Ledger: the budget is never oversold, an operation is charged once, the
      balance is the sum of the charges, decided events fold.
    - Delegation: a permission is a live chain of grants, revocation is final,
      every admission was backed when it was recorded, decided events fold.
    - Tamper: sealed journals verify; the last digest determines the journal.
    - ReadBack: when the journal of a session, sealed, stored and read back, comes
      back as it was; it then folds to the live session.
    - Deliveries: what every call does to every entry of the delivery ledger and
      the invariant of an entry; Offers: exclusion by leases, no stranded work,
      final ends, bounded attempts, the sweep, replaced destinations, paging.
    - Seats: one integrator per scope, only the bound host acts, a replaced host
      is shut out.
    - Streams: the invariant of the store (every stream is the sealed journal of
      a session, the log lists every record, every snapshot is the fold of a
      prefix) and what one append does.
    - Interleaving: a rely-guarantee calculus for programs over the store whose
      calls interleave with those of other callers, and the triples of load,
      open, commit and the retry loop.
    - Concurrency: any number of the fifteen use cases in any interleaving keep every
      stream a session's journal; no update is lost; loading is up to date.  Its module
      Repository is src/memory/ceremony_definition_repository.rs of made-adapters, with
      what saving a definition does to the sessions that resolve theirs.
    - GlobalOrder: the global log lists every record once and in order.
    - Progress: a command nobody disturbs lands, if its facts can be appended.
    - Openings: whole journals as the services read them, and the comparison of an
      opening with the one that was meant.
    - Spawning: what planning, opening, completing and reporting children does to
      the store; Handover: with any number of handovers and children among the
      callers every successor was planned by its predecessor, which has no other,
      and an answered handover happened; Kinship: every child was planned by its
      parent, families are at most sixteen generations deep in the store, the guard
      that joins children counts children that ended, an answered preparation
      happened.
    - Feed: the record of leases, deliveries, recoveries, failures and pulls, the
      invariant of every cursor and a calculus for programs that follow the global log
      among all the others; Consumers: no position is passed over in silence, three
      failed attempts stand behind a quarantine, what recovery acknowledged is
      recovered, and a pull under the name of recovery can skip it;
      Draining: a publisher alone on its cursor drains the log, and its loop ends.
    - Ranking: the ordering of scores and the ranking of a deliberation;
      Consensus: a deliberation elects its best proposal, an orchestration
      executes the elected one, the council's decision on a step is honest.
    - Batches: the loop of the scheduler ends, and a batch holds what fits, once
      and in the order of its root; Fairness: the turns the loop gives as an observer
      sees them, and no root with work is passed over for ever.
    - Executions: the calls an execution makes, with crashes and lost answers
      anywhere between them; Settlement: work that cannot be asked about runs at
      most once, receipts are final, an unknown effect is settled.
    - Defects, DeliveryDefects, AdoptionDefects, StreamDefects: concrete runs the code does not mean to allow.

    ** Parameters

    Code outside the sources is a class the model takes as a parameter:
    [Sha256] (the digest, hex encoded), [Clock] (adding a duration to an
    instant, which can overflow), [EvidenceSerde] (the JSON value of an
    evidence pack), [DecisionSerde] (the canonical JSON of an authorization
    decision) and [AuditSerde] (the digest in bytes, RFC 3339 text, and the
    JSON of events and authorization evidence), [JsonFloats] (a JSON number as
    a binary64 number), [ErrorDisplay] (the text of an error) and
    [RequestSerde] (the JSON of an operation's request).  Few theorems assume anything
    of them: the one on superseded claims assumes that the digest does not
    collide on the two claims in question, and those on verified journals assume
    [AuditSerdeLaws], that different values are rendered as different texts and texts
    are of representable length.  That the JSON of an event is parsed back as that
    event is assumed nowhere: ReadBack says what follows where it is.  Scenario, Delegation, Tamper and Offers
    instantiate the classes by concrete functions.  The identifiers of new
    delivery leases are drawn from a generator that is an argument of the
    operation that leases.  The repository and the catalogue of definitions, the
    digest of a definition and the memory a session opens with are the record
    [Ports] of UseCases, and [PortsLaws] of Concurrency says that a definition
    they answer with is found under its own name and version and has a digest.
    They do not change while the use cases run; the in-memory repository of the
    sources, which overwrites, is a module of Concurrency, with what keeps the
    definition of a session the same and a run in which it does not stay so.
    Agents, validators, executors, connectors, transports, the artifact service, the
    audit, the service that admits a successor's definition and the one that mints
    evidence for recovered work are asked questions: a program that asks one has a branch for every
    answer, and the theorems hold for all answers.

    ** Modelling choices

    Instants are nanoseconds in [Z]; counters are [Z] with the bounds and the
    saturating or checked arithmetic of their Rust type written out.  BTreeMaps
    are stdpp [gmap]s read in key order through [btree_entries]; the removal of
    a record by [take_step_record] is not modelled because every caller inserts
    it again.  A service of made-app awaits the store between calls, so it is a
    program, a tree of calls of the ports ([prog]); [run] plays one alone and
    Concurrency plays any number of them in any order, one atomic call of the
    store at a time.  An operation of the delivery ledger returns the ledger next to its
    outcome, because a loop that stops at an error has written part of its work.
    The loops of the aggregate are folds over lists and take no
    fuel.  Fuel appears in six places: the two worklists of the analysis run
    for as many rounds as there are transitions and two more, which Graph
    proves to be enough; and the chain of a grant is followed for 256 grants, which is
    enough because a delegation has less depth left than its parent and depth
    is a byte (Delegation); and the paged read of a stream takes as many rounds as
    there are versions to read, which Interleaving proves to be enough; and the
    scheduler may give every root, for every request it selects, as many turns as
    a request may cost, which Batches proves to be enough; and automatic publication
    takes four turns for each position of its limit and three more, which Draining
    proves to be enough.  The identifiers of cursor leases are arbitrary and never
    drawn twice ([possible]); publishers, pulls and recoveries share the names of
    consumers freely ([feed_caller]).  What a lease was used for is written down in
    the model next to the calls ([FeedOp]), so that theorems can speak of it.  A score is a binary64
    number of [SpecFloat] with the proof that it is in the unit interval.  The
    theorems on the store assume that its log is shorter than the largest [u64]
    ([fits]), beyond which positions saturate.  A [session] only takes commands
    whose step result was built by one of its constructors
    ([command_valid]); the other payloads are arbitrary.

    ** Not modelled

    Sessions that open by importing an older snapshot are folded ([rehydrate])
    but are not part of [session].  The canonical digest of a published
    definition and the key ring of the authorization evidence are left out.  So are
    the other scoring and validation adapters, agentic systems, evidence bundles and
    memory, the SQL stores, the projection of attention events, the service that
    renews the authorization of an append (an argument of the session stream), the
    paged listing of stream identifiers, the report on what stands in the way of a
    resumption or a handover, the use cases for runs, the loops of a worker host
    around the scheduler and the executions, and the other crates around
    made-core, which are input and output, transport and wiring. *)

From Stdlib Require Export Ascii ZArith.
From stdpp Require Export base tactics option list gmap strings sorting pretty.

#[global] Open Scope Z_scope.

(** ** Outcomes of fallible code

    A Rust function that returns [Result<A, E>] and may also panic (through
    [expect], an index out of range, ...) is a function into [result E A]:
    the two constructors of [Result] and one for the panic. *)

Inductive result (E A : Type) : Type :=
| Ok (a : A)
| Err (e : E)
| Panic.

Arguments Ok {E A} a.
Arguments Err {E A} e.
Arguments Panic {E A}.

#[export] Instance result_ret {E} : MRet (result E) := λ A a, Ok a.
#[export] Instance result_bind {E} : MBind (result E) := λ A B f r,
  match r with Ok a => f a | Err e => Err e | Panic => Panic end.
#[export] Instance result_fmap {E} : FMap (result E) := λ A B f r,
  match r with Ok a => Ok (f a) | Err e => Err e | Panic => Panic end.

(** [Option::ok_or]. *)
Definition ok_or {E A} (o : option A) (e : E) : result E A :=
  match o with Some a => Ok a | None => Err e end.

(** [if !b { return Err(e) }]. *)
Definition ensure {E} (b : bool) (e : E) : result E unit :=
  if b then Ok tt else Err e.

(** [Option::expect]. *)
Definition expect {E A} (o : option A) : result E A :=
  match o with Some a => Ok a | None => Panic end.

(** [Result::expect]: an error becomes a panic. *)
Definition expect_ok {E A} (r : result E A) : result E A :=
  match r with Ok a => Ok a | _ => Panic end.

Definition is_ok {E A} (r : result E A) : bool :=
  match r with Ok _ => true | _ => false end.

(** [iter.map(f).collect::<Result<Vec<_>, _>>()]. *)
Fixpoint try_map {E A B} (f : A → result E B) (l : list A) : result E (list B) :=
  match l with
  | [] => Ok []
  | x :: l => y ← f x; ys ← try_map f l; Ok (y :: ys)
  end.

(** [for x in l { f(x)?; }]. *)
Fixpoint try_for_each {E A} (f : A → result E unit) (l : list A) : result E unit :=
  match l with
  | [] => Ok tt
  | x :: l => f x ;; try_for_each f l
  end.

(** [option.map(f).transpose()?]. *)
Definition try_option {E A B} (f : A → result E B) (o : option A) : result E (option B) :=
  match o with
  | None => Ok None
  | Some a => b ← f a; Ok (Some b)
  end.

Definition is_some {A} (o : option A) : bool :=
  match o with Some _ => true | None => false end.

Definition is_some_and {A} (o : option A) (f : A → bool) : bool :=
  match o with Some a => f a | None => false end.

Definition is_none_or {A} (o : option A) (f : A → bool) : bool :=
  match o with Some a => f a | None => true end.

(** [Option::filter] with a boolean predicate. *)
Definition option_keep {A} (f : A → bool) (o : option A) : option A :=
  match o with Some a => if f a then Some a else None | None => None end.

(** An option as an iterator of at most one element. *)
Definition option_list {A} (o : option A) : list A :=
  match o with Some a => [a] | None => [] end.

(** ** Ordered maps and sets

    A [BTreeMap<String, V>] is a [gmap string V]; iterating it visits the
    entries in key order, which [btree_entries] makes explicit. *)

Definition key_le {V} (x y : string * V) : Prop := String.le x.1 y.1.

#[export] Instance key_le_dec {V} : RelDecision (@key_le V).
Proof. intros x y. unfold key_le. apply _. Defined.

#[export] Instance key_le_total {V} : Total (@key_le V).
Proof. intros x y. unfold key_le. apply (total String.le). Qed.

#[export] Instance key_le_trans {V} : Transitive (@key_le V).
Proof. intros x y z. unfold key_le. apply transitivity. Qed.

Definition btree_entries {V} (m : gmap string V) : list (string * V) :=
  merge_sort key_le (map_to_list m).
Definition btree_keys {V} (m : gmap string V) : list string := (btree_entries m).*1.
Definition btree_values {V} (m : gmap string V) : list V := (btree_entries m).*2.
Definition btree_elements (s : gset string) : list string :=
  merge_sort String.le (elements s).

(** ** Record update

    [r <| f := v |>] replaces the field [f] of [r].  A record type opts in by
    giving its eta expansion as an instance of [Eta]. *)

Class Eta (R : Type) := eta : R → R.

Class Setter {R T} (get : R → T) := set_field : (T → T) → R → R.
Arguments set_field {R T} get {_} f r.

Ltac derive_setter :=
  match goal with
  | |- @Setter ?R ?T ?get =>
      let f := fresh "f" in
      let r := fresh "r" in
      unfold Setter; intros f r;
      let e := eval cbv beta delta [eta] in (@eta R _ r) in
      let e := eval hnf in e in
      match eval pattern (get r) in e with
      | ?g _ => exact (g (f (get r)))
      end
  end.

#[export] Hint Extern 1 (Setter _) => derive_setter : typeclass_instances.

Notation "r <| f := v |>" := (set_field f (λ _, v) r)
  (at level 1, left associativity, format "r  <| f  :=  v |>").
Notation "r <| f ::= g |>" := (set_field f g r)
  (at level 1, left associativity, format "r  <| f  ::=  g |>").

(** ** Machine integers *)

Definition u8_max : Z := 255.
Definition u16_max : Z := 65535.
Definition u32_max : Z := 4294967295.
Definition u64_max : Z := 18446744073709551615.
Definition i64_max : Z := 9223372036854775807.

(** [u32::saturating_add]. *)
Definition u32_saturating_add (a b : Z) : Z := Z.min u32_max (a + b).

(** [u32::checked_add]. *)
Definition u32_checked_add (a b : Z) : option Z :=
  if a + b <=? u32_max then Some (a + b) else None.

(** [u64::checked_add] and [u64::checked_sub]. *)
Definition u64_checked_add (a b : Z) : option Z :=
  if a + b <=? u64_max then Some (a + b) else None.
Definition u64_checked_sub (a b : Z) : option Z :=
  if b <=? a then Some (a - b) else None.

(** ** Boolean iteration over lists *)

Definition any {A} (f : A → bool) (l : list A) : bool := existsb f l.
Definition all {A} (f : A → bool) (l : list A) : bool := forallb f l.
Definition count {A} (f : A → bool) (l : list A) : nat := length (List.filter f l).

(** The boolean equality of a decidable type. *)
Definition eqb {A} `{EqDecision A} (x y : A) : bool := bool_decide (x = y).

Declare Scope made_scope.
Delimit Scope made_scope with made.
Notation "x == y" := (eqb x y) (at level 70, no associativity) : made_scope.
Notation "x != y" := (negb (eqb x y)) (at level 70, no associativity) : made_scope.
#[global] Open Scope made_scope.

(** ** Automation *)

Create HintDb made discriminated.

Lemma bind_Ok {E A B} (x : result E A) (f : A → result E B) b :
  x ≫= f = Ok b ↔ ∃ a, x = Ok a ∧ f a = Ok b.
Proof. destruct x; cbn; naive_solver. Qed.

Lemma fmap_Ok {E A B} (x : result E A) (f : A → B) b :
  f <$> x = Ok b ↔ ∃ a, x = Ok a ∧ b = f a.
Proof. destruct x; cbn; naive_solver. Qed.

Lemma ensure_Ok {E} b (e : E) u : ensure b e = Ok u ↔ b = true.
Proof. destruct b, u; cbn; naive_solver. Qed.

Lemma ok_or_Ok {E A} (o : option A) (e : E) a : ok_or o e = Ok a ↔ o = Some a.
Proof. destruct o; cbn; naive_solver. Qed.

Lemma try_option_Ok {E A B} (f : A → result E B) o r :
  try_option f o = Ok r ↔
    match o with None => r = None | Some a => ∃ b, f a = Ok b ∧ r = Some b end.
Proof. destruct o as [a|]; cbn; [destruct (f a); cbn|]; naive_solver. Qed.

Lemma try_for_each_Ok {E A} (f : A → result E unit) l u :
  try_for_each f l = Ok u ↔ ∀ x, x ∈ l → f x = Ok tt.
Proof.
  destruct u. induction l as [|x l IH]; cbn.
  - split; [intros _ ? []%elem_of_nil | done].
  - rewrite bind_Ok. split.
    + intros ([] & ? & Hl) y [->|Hy]%elem_of_cons; [done|]. by apply IH.
    + intros Hl. exists tt. split; [apply Hl; left|].
      apply IH. intros y Hy. apply Hl. by right.
Qed.

Lemma eqb_true {A} `{EqDecision A} (x y : A) : (x == y) = true ↔ x = y.
Proof. unfold eqb. apply bool_decide_eq_true. Qed.

Lemma eqb_true_1 {A} `{EqDecision A} (x y : A) : (x == y) = true → x = y.
Proof. apply eqb_true. Qed.

Lemma eqb_false {A} `{EqDecision A} (x y : A) : (x == y) = false ↔ x ≠ y.
Proof. unfold eqb. apply bool_decide_eq_false. Qed.

Lemma eqb_refl {A} `{EqDecision A} (x : A) : (x == x) = true.
Proof. by apply eqb_true. Qed.

Lemma all_true {A} (f : A → bool) l : all f l = true ↔ ∀ x, x ∈ l → f x = true.
Proof.
  unfold all. rewrite forallb_forall.
  by setoid_rewrite list_elem_of_In.
Qed.

Lemma any_true {A} (f : A → bool) l : any f l = true ↔ ∃ x, x ∈ l ∧ f x = true.
Proof.
  unfold any. rewrite existsb_exists.
  by setoid_rewrite list_elem_of_In.
Qed.

Lemma any_false {A} (f : A → bool) l : any f l = false ↔ ∀ x, x ∈ l → f x = false.
Proof.
  rewrite <-not_true_iff_false, any_true. setoid_rewrite <-not_true_iff_false.
  naive_solver.
Qed.

Lemma is_some_and_true {A} (o : option A) f :
  is_some_and o f = true ↔ ∃ a, o = Some a ∧ f a = true.
Proof. destruct o; cbn; naive_solver. Qed.

Lemma is_some_true {A} (o : option A) : is_some o = true ↔ is_Some o.
Proof. destruct o; cbn; [|naive_solver]. split; eauto. Qed.

Lemma is_some_false {A} (o : option A) : is_some o = false ↔ o = None.
Proof. destruct o; cbn; naive_solver. Qed.

Lemma option_keep_Some {A} (f : A → bool) o a :
  option_keep f o = Some a ↔ o = Some a ∧ f a = true.
Proof.
  destruct o as [x|]; cbn; [|naive_solver].
  destruct (f x) eqn:E; split.
  - intros [= <-]. done.
  - intros [[= <-] _]. done.
  - done.
  - intros [[= <-] ?]. congruence.
Qed.

#[export] Hint Rewrite @bind_Ok @fmap_Ok @ensure_Ok @ok_or_Ok @try_for_each_Ok
  @eqb_true @eqb_false @eqb_refl @is_some_and_true @is_some_true @is_some_false
  @option_keep_Some andb_true_iff orb_true_iff negb_true_iff negb_false_iff
  andb_false_iff orb_false_iff
  Z.leb_le Z.ltb_lt Z.leb_gt Z.ltb_ge Z.eqb_eq Z.eqb_neq : made.

(** [invert_ok H] takes an accepted computation [H : c = Ok r] apart: every
    bind is split into its steps, every guard into the condition it imposes. *)
Ltac invert_ok H :=
  repeat first
    [ progress simplify_eq
    | match type of H with
      | _ ≫= _ = Ok _ =>
          let a := fresh "a" in let Ha := fresh "H" in
          apply bind_Ok in H; destruct H as (a & Ha & H); invert_ok Ha
      | ensure _ _ = Ok _ => apply ensure_Ok in H
      | ok_or _ _ = Ok _ => apply ok_or_Ok in H
      | _ <$> _ = Ok _ =>
          let a := fresh "a" in let Ha := fresh "H" in
          apply fmap_Ok in H; destruct H as (a & Ha & H); invert_ok Ha
      | (if ?b then _ else _) = Ok _ => destruct b eqn:?
      | (match ?x with _ => _ end) = Ok _ => destruct x eqn:?
      end ].

(** Case analysis on the scrutinees of the goal and hypotheses. *)
Ltac destruct_match :=
  match goal with
  | |- context [match ?x with _ => _ end] => destruct x eqn:?
  | H : context [match ?x with _ => _ end] |- _ => destruct x eqn:?
  end.

(** ** Lemmas on lists *)

(** What [find] returns, by position. *)
Lemma find_lookup {A} (f : A → bool) l x :
  List.find f l = Some x →
  ∃ k, l !! k = Some x ∧ f x = true ∧ ∀ j y, (j < k)%nat → l !! j = Some y → f y = false.
Proof.
  induction l as [|y l IH]; simpl; [done|]. destruct (f y) eqn:Hy.
  - intros [= ->]. exists 0%nat. split_and!; [done|done|]. intros; lia.
  - intros (k & Hk & Hx & Hbefore)%IH. exists (S k). split_and!; [done|done|].
    intros [|j] z Hj Hz; [by simplify_eq/=|]. apply (Hbefore j z); [lia|done].
Qed.

(** Predicates that agree away from one key differ by at most one. *)
Lemma count_update_one {A} (key : A → string) (f g : A → bool) k l :
  NoDup (key <$> l) → (∀ x, key x ≠ k → f x = g x) → (count f l ≤ S (count g l))%nat.
Proof.
  unfold count. intros Hnd Hfg. induction l as [|x l IH]; simpl; [lia|].
  simpl in Hnd. apply NoDup_cons in Hnd as [Hx Hnd]. specialize (IH Hnd).
  destruct (base.decide (key x = k)) as [Hk|Hk].
  - assert (List.filter f l = List.filter g l) as ->.
    { apply List.filter_ext_in. intros y Hy. apply Hfg. intros Hky. apply Hx.
      rewrite Hk, <-Hky. apply list_elem_of_fmap_2. by apply list_elem_of_In. }
    destruct (f x), (g x); simpl; lia.
  - rewrite (Hfg x Hk). destruct (g x); simpl; lia.
Qed.

(** ** Lemmas on ordered maps *)

Lemma btree_entries_perm {V} (m : gmap string V) : btree_entries m ≡ₚ map_to_list m.
Proof. apply merge_sort_Permutation. Qed.

Lemma elem_of_btree_entries {V} (m : gmap string V) k v :
  (k, v) ∈ btree_entries m ↔ m !! k = Some v.
Proof. rewrite btree_entries_perm. apply elem_of_map_to_list. Qed.

Lemma elem_of_btree_keys {V} (m : gmap string V) k :
  k ∈ btree_keys m ↔ is_Some (m !! k).
Proof.
  unfold btree_keys. rewrite list_elem_of_fmap. split.
  - intros ([k' v] & -> & ?%elem_of_btree_entries). by exists v.
  - intros [v ?%elem_of_btree_entries]. by exists (k, v).
Qed.

Lemma elem_of_btree_values {V} (m : gmap string V) v :
  v ∈ btree_values m ↔ ∃ k, m !! k = Some v.
Proof.
  unfold btree_values. rewrite list_elem_of_fmap. split.
  - intros ([k v'] & -> & ?%elem_of_btree_entries). by exists k.
  - intros [k ?%elem_of_btree_entries]. by exists (k, v).
Qed.

Lemma btree_keys_NoDup {V} (m : gmap string V) : NoDup (btree_keys m).
Proof.
  unfold btree_keys. rewrite btree_entries_perm. apply NoDup_fst_map_to_list.
Qed.

Lemma btree_entries_sorted {V} (m : gmap string V) :
  StronglySorted key_le (btree_entries m).
Proof. apply StronglySorted_merge_sort; apply _. Qed.

Lemma elem_of_btree_elements (s : gset string) x : x ∈ btree_elements s ↔ x ∈ s.
Proof. unfold btree_elements. rewrite merge_sort_Permutation. apply elem_of_elements. Qed.

#[export] Hint Rewrite @elem_of_btree_entries @elem_of_btree_keys @elem_of_btree_values
  @elem_of_btree_elements : made.
