(* ===== verification/Errors.v ===== *)
(** * Typed domain errors (made-core/src/error.rs)

    The error every aggregate returns.  The [f64] payload of [OutOfRange] is
    kept as the integer the source converts to [f64], or, for a score, as the
    binary64 number itself. *)

From Stdlib Require Import SpecFloat.
From S2P Require Import Prelude.

#[export] Instance spec_float_eq_dec : EqDecision spec_float.
Proof. solve_decision. Defined.

Inductive CeremonyLifecyclePhase := Running | Paused | Ended.

#[export] Instance CeremonyLifecyclePhase_eq_dec : EqDecision CeremonyLifecyclePhase.
Proof. solve_decision. Defined.

Inductive DomainError :=
| LifecycleRefused (operation : string) (phase : CeremonyLifecyclePhase)
| EmptyField (field : string)
| FieldTooLong (field : string) (actual max : Z)
| InvalidCharacters (field : string)
| OutOfRange (field : string) (value min max : Z)
| OutOfRangeF64 (field : string) (value min max : spec_float)
| MustBeNonZero (field : string)
| EmptyCollection (field : string)
| InvalidTransition (from to : string)
| InvariantViolated (reason : string)
| NotFound (what : string)
| InvalidDocument (reason : string)
| AlreadyExists (what : string)
| Conflict (what : string)
| NoValidProposal (contract_id : string)
| UnreadableCeremonyEvent (event_type : string) (version : Z) (reason : string).

#[export] Instance DomainError_eq_dec : EqDecision DomainError.
Proof. solve_decision. Defined.

(** The outcome of a domain function. *)
Notation outcome := (result DomainError).
