(* ===== verification/Text.v ===== *)
(** * Text: UTF-8 strings, canonical identifiers and framed digests

    A Rust [String] is the list of its UTF-8 bytes.  [trim] and [is_control]
    are the standard library's, written on the encoded bytes; the identifier
    newtypes are the strings their constructors accept.  The second half is
    the length-delimited framing the content digests are computed over. *)

From S2P Require Import Prelude Errors.

Definition byte_code (c : ascii) : Z := Z.of_N (N_of_ascii c).

(** The UTF-8 encodings of the code points with the White_Space property. *)
Definition whitespace1 (b : Z) : bool := ((9 <=? b) && (b <=? 13)) || (b =? 32)%Z.
Definition whitespace2 (b1 b2 : Z) : bool :=
  (b1 =? 194)%Z && ((b2 =? 133)%Z || (b2 =? 160)%Z).
Definition whitespace3 (b1 b2 b3 : Z) : bool :=
  ((b1 =? 225)%Z && (b2 =? 154)%Z && (b3 =? 128)%Z) ||
  ((b1 =? 226)%Z && (b2 =? 128)%Z &&
    (((128 <=? b3) && (b3 <=? 138)) || (b3 =? 168)%Z || (b3 =? 169)%Z || (b3 =? 175)%Z)) ||
  ((b1 =? 226)%Z && (b2 =? 129)%Z && (b3 =? 159)%Z) ||
  ((b1 =? 227)%Z && (b2 =? 128)%Z && (b3 =? 128)%Z).

(** The tail after one leading whitespace character, if there is one. *)
Definition strip_front (l : list ascii) : option (list ascii) :=
  match l with
  | a :: l1 =>
      if whitespace1 (byte_code a) then Some l1 else
      match l1 with
      | b :: l2 =>
          if whitespace2 (byte_code a) (byte_code b) then Some l2 else
          match l2 with
          | c :: l3 =>
              if whitespace3 (byte_code a) (byte_code b) (byte_code c) then Some l3 else None
          | [] => None
          end
      | [] => None
      end
  | [] => None
  end.

(** The same on a reversed byte list: one trailing whitespace character. *)
Definition strip_back (l : list ascii) : option (list ascii) :=
  match l with
  | a :: l1 =>
      if whitespace1 (byte_code a) then Some l1 else
      match l1 with
      | b :: l2 =>
          if whitespace2 (byte_code b) (byte_code a) then Some l2 else
          match l2 with
          | c :: l3 =>
              if whitespace3 (byte_code c) (byte_code b) (byte_code a) then Some l3 else None
          | [] => None
          end
      | [] => None
      end
  | [] => None
  end.

(** Strip while a whitespace character is found; every step consumes a byte,
    so the length of the list is enough fuel. *)
Fixpoint strip_all (strip : list ascii → option (list ascii)) (fuel : nat) (l : list ascii)
    : list ascii :=
  match fuel with
  | O => l
  | S fuel => match strip l with Some l' => strip_all strip fuel l' | None => l end
  end.

Definition trim_start (l : list ascii) : list ascii := strip_all strip_front (length l) l.
Definition trim_end (l : list ascii) : list ascii :=
  rev (strip_all strip_back (length l) (rev l)).

(** [str::trim]. *)
Definition str_trim (s : string) : string :=
  String.string_of_list_ascii (trim_end (trim_start (String.list_ascii_of_string s))).

(** [s.chars().any(char::is_control)]: U+0000-001F, U+007F-009F. *)
Fixpoint has_control (l : list ascii) : bool :=
  match l with
  | [] => false
  | a :: l' =>
      (byte_code a <? 32) || (byte_code a =? 127)%Z ||
      match l' with
      | b :: _ => (byte_code a =? 194)%Z && (128 <=? byte_code b) && (byte_code b <=? 159)
      | [] => false
      end || has_control l'
  end.

(** The same, with [\n], [\r] and [\t] allowed. *)
Definition text_ws (a : ascii) : bool :=
  (byte_code a =? 9)%Z || (byte_code a =? 10)%Z || (byte_code a =? 13)%Z.
Definition has_control_text (l : list ascii) : bool :=
  has_control (List.filter (λ a, negb (text_ws a)) l).

(** [s.chars().count()]: the bytes that are not UTF-8 continuation bytes. *)
Definition char_count (s : string) : Z :=
  Z.of_nat (count (λ a, negb ((128 <=? byte_code a) && (byte_code a <=? 191)))
    (String.list_ascii_of_string s)).

(** [ch.is_ascii_lowercase() || ch.is_ascii_digit() || ch == '_'], bytewise. *)
Definition slug_char (a : ascii) : bool :=
  let b := byte_code a in
  ((97 <=? b) && (b <=? 122)) || ((48 <=? b) && (b <=? 57)) || (b =? 95)%Z.

Definition str_has_control (s : string) : bool := has_control (String.list_ascii_of_string s).
Definition str_is_slug (s : string) : bool := all slug_char (String.list_ascii_of_string s).

(** The constructor shared by the free-text identifiers: trimmed, non-empty,
    without control characters. *)
Definition text_id_new (field raw : string) : outcome string :=
  let trimmed := str_trim raw in
  ensure (trimmed != "") (EmptyField field);;
  ensure (negb (str_has_control trimmed)) (InvalidCharacters field);;
  Ok trimmed.

(** The same with a bound on the trimmed length, checked before the
    characters. *)
Definition bounded_text_new (field : string) (max : Z) (raw : string) : outcome string :=
  let trimmed := str_trim raw in
  ensure (trimmed != "") (EmptyField field);;
  ensure (Z.of_nat (String.length trimmed) <=? max)
    (FieldTooLong field (Z.of_nat (String.length trimmed)) max);;
  ensure (negb (str_has_control trimmed)) (InvalidCharacters field);;
  Ok trimmed.

(** The same again, for prose: line breaks and tabs are allowed. *)
Definition prose_new (field : string) (max : Z) (raw : string) : outcome string :=
  let trimmed := str_trim raw in
  ensure (trimmed != "") (EmptyField field);;
  ensure (Z.of_nat (String.length trimmed) <=? max)
    (FieldTooLong field (Z.of_nat (String.length trimmed)) max);;
  ensure (negb (has_control_text (String.list_ascii_of_string trimmed)))
    (InvalidCharacters field);;
  Ok trimmed.

(** The constructor shared by the slug identifiers. *)
Definition slug_id_new (field raw : string) : outcome string :=
  let trimmed := str_trim raw in
  ensure (trimmed != "") (EmptyField field);;
  ensure (str_is_slug trimmed) (InvalidCharacters field);;
  Ok trimmed.

Notation RoleId := string (only parsing).
Notation StateId := string (only parsing).
Notation StepId := string (only parsing).
Notation GuardName := string (only parsing).
Notation CeremonyId := string (only parsing).

Definition RoleId_new : string → outcome string := text_id_new "role_id".
Definition CeremonyId_new : string → outcome string := bounded_text_new "ceremony_id" 256.
Definition StepErrorMessage_new : string → outcome string :=
  bounded_text_new "step_error_message" 2048.
Definition StateId_new : string → outcome string := text_id_new "state_id".
Definition StepId_new : string → outcome string := slug_id_new "step_id".
Definition GuardName_new : string → outcome string := slug_id_new "guard_name".
Definition TransitionTrigger_new : string → outcome string := text_id_new "transition_trigger".
Definition LeaseOwnerId_new : string → outcome string := text_id_new "lease_owner_id".
Definition IdempotencyKey_new : string → outcome string := text_id_new "idempotency_key".
Definition InputName_new : string → outcome string := text_id_new "input_name".
Definition ContextKey_new : string → outcome string := text_id_new "context_key".
Definition StepOutputField_new : string → outcome string := text_id_new "step_output_field".

(** ** Digest framing *)

(** [to_be_bytes] of a [k]-byte unsigned integer. *)
Fixpoint be_bytes (k : nat) (n : N) : string :=
  match k with
  | O => ""
  | S k => be_bytes k (n / 256) +:+ String (ascii_of_N (n mod 256)) ""
  end.

(** [(part.len() as u64).to_be_bytes()] followed by the part. *)
Definition frame (part : string) : string :=
  be_bytes 8 (N.of_nat (String.length part)) +:+ part.

Definition frames (parts : list string) : string :=
  foldr (λ p s, frame p +:+ s) "" parts.

(** [u32::to_string] and [i128::to_string]. *)
Definition decimal (z : Z) : string := pretty z.

(** The digest function of the [sha2] crate, printed in lowercase hex. *)
Class Sha256 := sha256_hex : string → string.

(** ** Canonical identifiers *)

Lemma strip_front_app l r l' :
  strip_front l = Some l' → strip_front (l ++ r) = Some (l' ++ r).
Proof.
  destruct l as [|a [|b [|c l]]]; cbn; intros H; repeat case_match; by simplify_eq/=.
Qed.

Lemma strip_back_app l r l' :
  strip_back l = Some l' → strip_back (l ++ r) = Some (l' ++ r).
Proof.
  destruct l as [|a [|b [|c l]]]; cbn; intros H; repeat case_match; by simplify_eq/=.
Qed.

Lemma strip_front_suffix l l' : strip_front l = Some l' → (length l' < length l)%nat ∧ l' `suffix_of` l.
Proof.
  destruct l as [|a [|b [|c l]]]; cbn; intros H; repeat case_match; simplify_eq/=;
    (split; [lia|]); solve
    [ by exists [a] | by exists [a; b] | by exists [a; b; c] ].
Qed.

Lemma strip_back_suffix l l' : strip_back l = Some l' → (length l' < length l)%nat ∧ l' `suffix_of` l.
Proof.
  destruct l as [|a [|b [|c l]]]; cbn; intros H; repeat case_match; simplify_eq/=;
    (split; [lia|]); solve
    [ by exists [a] | by exists [a; b] | by exists [a; b; c] ].
Qed.

Section strip_all.
Context (strip : list ascii → option (list ascii)).
Context (Hshrink : ∀ l l', strip l = Some l' → (length l' < length l)%nat ∧ l' `suffix_of` l).

Lemma strip_all_done fuel l : (length l ≤ fuel)%nat → strip (strip_all strip fuel l) = None.
Proof.
  revert l. induction fuel as [|fuel IH]; intros l Hl; cbn.
  - destruct l; [|cbn in Hl; lia].
    destruct (strip []) as [l'|] eqn:E; [|done].
    apply Hshrink in E as [??]. cbn in *. lia.
  - destruct (strip l) as [l'|] eqn:E; [|done].
    apply IH. apply Hshrink in E as [??]. lia.
Qed.

Lemma strip_all_id fuel l : strip l = None → strip_all strip fuel l = l.
Proof. intros E. destruct fuel; cbn; [done|]. by rewrite E. Qed.

Lemma strip_all_suffix fuel l : strip_all strip fuel l `suffix_of` l.
Proof.
  revert l. induction fuel as [|fuel IH]; intros l; cbn; [done|].
  destruct (strip l) as [l'|] eqn:E; [|done].
  etrans; [apply IH|]. by apply Hshrink in E as [_ ?].
Qed.
End strip_all.

Lemma trim_fixed l :
  strip_front l = None → strip_back (rev l) = None → trim_end (trim_start l) = l.
Proof.
  intros Hf Hb. unfold trim_start. rewrite strip_all_id by done.
  unfold trim_end. rewrite strip_all_id by done. apply rev_involutive.
Qed.

Lemma trim_clean l :
  strip_front (trim_end (trim_start l)) = None ∧
  strip_back (rev (trim_end (trim_start l))) = None.
Proof.
  set (m := trim_start l).
  assert (Hm : strip_front m = None).
  { apply strip_all_done; [apply strip_front_suffix | done]. }
  assert (Hback : strip_back (rev (trim_end m)) = None).
  { unfold trim_end. rewrite rev_involutive.
    apply strip_all_done; [apply strip_back_suffix|]. by rewrite length_rev. }
  split; [|done].
  destruct (strip_front (trim_end m)) as [l'|] eqn:E; [|done].
  destruct (strip_all_suffix strip_back strip_back_suffix (length m) (rev m)) as [r Hr].
  assert (Hmr : m = trim_end m ++ rev r).
  { unfold trim_end. rewrite <-rev_app_distr, <-Hr, rev_involutive. done. }
  apply (strip_front_app _ (rev r)) in E. rewrite <-Hmr in E. congruence.
Qed.

Lemma str_trim_idemp s : str_trim (str_trim s) = str_trim s.
Proof.
  unfold str_trim. rewrite String.list_ascii_of_string_of_list_ascii.
  f_equal. destruct (trim_clean (String.list_ascii_of_string s)). by apply trim_fixed.
Qed.

Lemma text_id_new_canonical field raw id :
  text_id_new field raw = Ok id → text_id_new field id = Ok id ∧ id ≠ "".
Proof.
  unfold text_id_new. intros H. invert_ok H.
  rewrite str_trim_idemp. rewrite H0, H1. cbn. split; [done|].
  by apply negb_true_iff, eqb_false in H0.
Qed.

Lemma slug_id_new_canonical field raw id :
  slug_id_new field raw = Ok id → slug_id_new field id = Ok id ∧ id ≠ "".
Proof.
  unfold slug_id_new. intros H. invert_ok H.
  rewrite str_trim_idemp. rewrite H0, H1. cbn. split; [done|].
  by apply negb_true_iff, eqb_false in H0.
Qed.

(** ** Framing is unambiguous *)

Lemma string_app_length s1 s2 :
  String.length (s1 +:+ s2) = (String.length s1 + String.length s2)%nat.
Proof. induction s1 as [|a s1 IH]; [done|]. simpl. by rewrite IH. Qed.

Lemma string_app_assoc s1 s2 s3 : (s1 +:+ s2) +:+ s3 = s1 +:+ s2 +:+ s3.
Proof. induction s1 as [|a s1 IH]; [done|]. apply (f_equal (String a) IH). Qed.

Lemma string_app_inj_length s1 s2 t1 t2 :
  String.length s1 = String.length s2 → s1 +:+ t1 = s2 +:+ t2 → s1 = s2 ∧ t1 = t2.
Proof.
  revert s2. induction s1 as [|a s1 IH]; intros [|b s2]; cbn; intros Hl H; simplify_eq; auto.
  destruct (IH s2) as [-> ->]; auto.
Qed.

Lemma string_app_inv_head s t1 t2 : s +:+ t1 = s +:+ t2 → t1 = t2.
Proof. intros H. by apply string_app_inj_length in H as [_ ?]. Qed.

Lemma be_bytes_length k n : String.length (be_bytes k n) = k.
Proof. revert n. induction k; intros n; cbn; [done|]. rewrite string_app_length, IHk. cbn. lia. Qed.

Lemma be_bytes_inj k n m :
  (n < 256 ^ N.of_nat k)%N → (m < 256 ^ N.of_nat k)%N → be_bytes k n = be_bytes k m → n = m.
Proof.
  revert n m. induction k as [|k IH]; intros n m Hn Hm H.
  - cbn in *. lia.
  - cbn [be_bytes] in H. apply string_app_inj_length in H as [H1 H2];
      [|by rewrite !be_bytes_length].
    injection H2 as H2.
    assert (n mod 256 = m mod 256)%N as Hmod.
    { rewrite <-(N_ascii_embedding (n mod 256)), <-(N_ascii_embedding (m mod 256)), H2;
        [done|apply N.mod_lt; lia..]. }
    rewrite Nat2N.inj_succ, N.pow_succ_r' in Hn, Hm.
    apply IH in H1; [|apply N.Div0.div_lt_upper_bound; lia..].
    rewrite (N.div_mod n 256), (N.div_mod m 256) by lia. congruence.
Qed.

(** A part whose length fits the [u64] prefix. *)
Definition frameable (s : string) : Prop := (N.of_nat (String.length s) < 256 ^ 8)%N.

Lemma frame_inj s1 s2 t1 t2 :
  frameable s1 → frameable s2 → frame s1 +:+ t1 = frame s2 +:+ t2 → s1 = s2 ∧ t1 = t2.
Proof.
  unfold frame, frameable. intros H1 H2 H. rewrite !string_app_assoc in H.
  apply string_app_inj_length in H as [Hlen H]; [|by rewrite !be_bytes_length].
  apply be_bytes_inj in Hlen; [|done..]. apply string_app_inj_length in H; [done|lia].
Qed.

Lemma frames_inj l1 l2 :
  Forall frameable l1 → Forall frameable l2 → length l1 = length l2 →
  frames l1 = frames l2 → l1 = l2.
Proof.
  intros H1. revert l2. induction H1 as [|s1 l1 Hs1 H1 IH]; intros [|s2 l2] H2 Hlen H; try done.
  apply Forall_cons in H2 as [Hs2 H2]. cbn in H, Hlen.
  apply frame_inj in H as [-> H]; [|done..]. f_equal. apply IH; [done|lia|done].
Qed.
