(* ===== verification/Values.v ===== *)
(** * Structured values, attribute bags and ceremony context

    JSON values as [serde_json] holds them, the bounded attribute bag of
    made-core/src/value_objects/attributes.rs and what the ceremony layer
    builds on it: the context a session is evaluated against, the patches a
    step writes into it, and step outputs. *)

From S2P Require Import Prelude Errors Text.

(** A finite [f64] is [m * 2^e] in lowest terms, so that structural equality
    is numeric equality. *)
Inductive Number := PosInt (n : Z) | NegInt (n : Z) | Float (m e : Z).

#[export] Instance Number_eq_dec : EqDecision Number.
Proof. solve_decision. Defined.

Inductive Value :=
| VNull
| VBool (b : bool)
| VNumber (n : Number)
| VString (s : string)
| VArray (l : list Value)
| VObject (fields : list (string * Value)).

#[export] Instance Value_eq_dec : EqDecision Value.
Proof.
  unfold EqDecision. fix go 1.
  intros [|b|n|s|l|l] [|b'|n'|s'|l'|l']; try (right; discriminate).
  - left. reflexivity.
  - destruct (decide (b = b')) as [->|]; [left; reflexivity | right; congruence].
  - destruct (decide (n = n')) as [->|]; [left; reflexivity | right; congruence].
  - destruct (decide (s = s')) as [->|]; [left; reflexivity | right; congruence].
  - assert (Decision (l = l')) as [->|]; [|left; reflexivity | right; congruence].
    revert l'. induction l as [|x l IH]; intros [|y l']; try (right; discriminate).
    + left. reflexivity.
    + destruct (go x y) as [->|]; [|right; congruence].
      destruct (IH l') as [->|]; [left; reflexivity | right; congruence].
  - assert (Decision (l = l')) as [->|]; [|left; reflexivity | right; congruence].
    revert l'. induction l as [|[k x] l IH]; intros [|[k' y] l']; try (right; discriminate).
    + left. reflexivity.
    + destruct (decide (k = k')) as [->|]; [|right; congruence].
      destruct (go x y) as [->|]; [|right; congruence].
      destruct (IH l') as [->|]; [left; reflexivity | right; congruence].
Defined.

(** [Value::as_str] and [Value::as_bool]. *)
Definition as_str (v : Value) : option string :=
  match v with VString s => Some s | _ => None end.
Definition as_bool (v : Value) : option bool :=
  match v with VBool b => Some b | _ => None end.

Definition MAX_ATTRIBUTES_KEYS : Z := 1024.

Notation Attributes := (gmap string Value).

Definition Attributes_new (entries : gmap string Value) : outcome (gmap string Value) :=
  ensure (Z.of_nat (size entries) <=? MAX_ATTRIBUTES_KEYS)
    (OutOfRange "attributes.keys" (Z.of_nat (size entries)) 0 MAX_ATTRIBUTES_KEYS);;
  ensure (all (λ key, str_trim key != "") (btree_keys entries))
    (EmptyField "attributes.key");;
  Ok entries.

(** The output of a step: an attribute bag. *)
Notation StepOutput := (gmap string Value).

(** ** Context *)

Notation CeremonyContext := (gmap string Value).
Notation ContextPatch := (gmap string Value).
Notation ContextWrites := (gmap string string).

Definition with_guard_approval (context : CeremonyContext) (guard_name : GuardName)
    : outcome CeremonyContext :=
  Attributes_new (<[guard_name := VBool true]> context).

Definition with_patch (context : CeremonyContext) (patch : ContextPatch)
    : outcome CeremonyContext :=
  Attributes_new
    (foldl (λ entries '(key, value), <[key := value]> entries) context (btree_entries patch)).

Definition context_get (context : CeremonyContext) (key : string) : option Value :=
  context !! key.

Definition is_guard_approved (context : CeremonyContext) (guard_name : GuardName) : bool :=
  default false (context !! guard_name ≫= as_bool).

Definition ContextPatch_new (entries : gmap string Value) : outcome ContextPatch :=
  ensure (negb (size entries =? 0)%nat) (EmptyCollection "context_patch.entries");;
  Ok entries.

(** [ContextWrites::resolve]: each declared destination receives the output
    field it names; a missing field refuses the result. *)
Definition context_writes_resolve (writes : ContextWrites) (output : StepOutput)
    : outcome (option ContextPatch) :=
  if (size writes =? 0)%nat then Ok None else
  let fix go (entries : list (string * string)) (patch : gmap string Value)
      : outcome (gmap string Value) :=
    match entries with
    | [] => Ok patch
    | (destination, source) :: entries =>
        value ← ok_or (output !! source)
                  (NotFound "ceremony_step.context_write.output_field");
        go entries (<[destination := value]> patch)
    end in
  entries ← go (btree_entries writes) ∅;
  patch ← ContextPatch_new entries;
  Ok (Some patch).
