(* ===== verification/Steps.v ===== *)
(** * Step execution: counters, leases, results, records, fences, deadlines

    The value objects of made-core/src/value_objects/ceremony that carry the
    runtime state of one step: its attempt, iteration and visit coordinates,
    the lease a worker holds on it, the fence that names exactly one accepted
    claim, the result that closes the claim, the absolute deadlines, and the
    lifecycle of the whole session.  Instants are nanoseconds since the epoch,
    which is what [OffsetDateTime] compares by. *)

From S2P Require Import Prelude Errors Text Values.

Notation Instant := Z (only parsing).

(** [OffsetDateTime::checked_add(Duration::milliseconds(_))] of the [time]
    crate: the shifted instant, or nothing outside its calendar. *)
Class Clock := checked_add_ms : Instant → Z → option Instant.

(** ** Counters *)

Definition StepAttempt_new (value : Z) : outcome Z :=
  ensure (negb (value =? 0)) (MustBeNonZero "step_attempt");; Ok value.
Definition StepAttempt_FIRST : Z := 1.
Definition StepAttempt_next (a : Z) : outcome Z := StepAttempt_new (u32_saturating_add a 1).

Definition MAX_STEP_ITERATIONS : Z := 1000.
Definition StepIteration_FIRST : Z := 1.
Definition StepIteration_new (value : Z) : outcome Z :=
  ensure (negb (value =? 0)) (MustBeNonZero "step_iteration");;
  ensure (value <=? MAX_STEP_ITERATIONS)
    (OutOfRange "step_iteration" value 1 MAX_STEP_ITERATIONS);;
  Ok value.
Definition StepIteration_next (i : Z) : outcome Z := StepIteration_new (u32_saturating_add i 1).

Definition MAX_STATE_ITERATIONS : Z := 1000.
Definition StateIteration_FIRST : Z := 1.
Definition StateIteration_new (value : Z) : outcome Z :=
  ensure (negb (value =? 0)) (MustBeNonZero "state_iteration");;
  ensure (value <=? MAX_STATE_ITERATIONS)
    (OutOfRange "state_iteration" value 1 MAX_STATE_ITERATIONS);;
  Ok value.
Definition StateIteration_next (i : Z) : outcome Z :=
  StateIteration_new (u32_saturating_add i 1).

Definition StateVisit_FIRST : Z := 1.
Definition StateVisit_next (v : Z) : outcome Z :=
  ok_or (u32_checked_add v 1) (InvariantViolated "state visit coordinate exhausted").

(** ** Status and result of a step *)

Inductive StepStatus :=
  Pending | InProgress | Completed | Failed | WaitingForHuman | Cancelled.

#[export] Instance StepStatus_eq_dec : EqDecision StepStatus.
Proof. solve_decision. Defined.

Definition status_is_executable (s : StepStatus) : bool :=
  match s with Pending | Failed | WaitingForHuman => true | _ => false end.
Definition status_is_success (s : StepStatus) : bool := s == Completed.

Inductive StepFailureKind := FailureNoValidProposal | FailureTimeout.

#[export] Instance StepFailureKind_eq_dec : EqDecision StepFailureKind.
Proof. solve_decision. Defined.

Record StepResult := MkStepResult {
  res_status : StepStatus;
  res_output : StepOutput;
  res_error_message : option string;
  res_failure_kind : option StepFailureKind;
}.

#[export] Instance StepResult_eq_dec : EqDecision StepResult.
Proof. solve_decision. Defined.
#[export] Instance StepResult_eta : Eta StepResult := λ r,
  MkStepResult (res_status r) (res_output r) (res_error_message r) (res_failure_kind r).

Definition StepResult_new (status : StepStatus) (output : StepOutput)
    (error_message : option string) : outcome StepResult :=
  ensure (negb ((status == Pending) || (status == InProgress)))
    (InvariantViolated "step result status must be observable");;
  ensure (negb ((status == Failed) && negb (is_some error_message)))
    (EmptyField "step_result.error_message");;
  ensure (negb ((status != Failed) && is_some error_message))
    (InvariantViolated "only failed step results may carry an error message");;
  Ok (MkStepResult status output error_message None).

(** The values the constructors build: a result says how a step ended, and only
    a failure is classified. *)
Definition StepResult_valid (r : StepResult) : bool :=
  is_ok (StepResult_new (res_status r) (res_output r) (res_error_message r))
  && (negb (is_some (res_failure_kind r)) || (res_status r == Failed)).

Definition StepResult_completed (output : StepOutput) : outcome StepResult :=
  StepResult_new Completed output None.
Definition StepResult_waiting_for_human (output : StepOutput) : outcome StepResult :=
  StepResult_new WaitingForHuman output None.
Definition StepResult_failed (error_message : string) : outcome StepResult :=
  StepResult_new Failed ∅ (Some error_message).

Definition StepResult_timed_out : outcome StepResult :=
  message ← StepErrorMessage_new "step deadline exceeded";
  result ← StepResult_failed message;
  Ok (result <| res_failure_kind := Some FailureTimeout |>).

Definition result_is_success (r : StepResult) : bool := status_is_success (res_status r).

(** ** Leases *)

Inductive ExecutionProfileFallbackPolicy := FallbackReject | FallbackFallback.
Inductive ExecutionProfileInheritance :=
  InheritRoleDefault | InheritStepDefault | InheritCeremonyDefault | InheritHostDefault
| InheritCheckpoint.

#[export] Instance ExecutionProfileFallbackPolicy_eq_dec :
  EqDecision ExecutionProfileFallbackPolicy.
Proof. solve_decision. Defined.
#[export] Instance ExecutionProfileInheritance_eq_dec : EqDecision ExecutionProfileInheritance.
Proof. solve_decision. Defined.

(** What the host said it would run the step with; the aggregate stores it
    and never looks inside. *)
Record ExecutionProfile := MkExecutionProfile {
  ep_requested_model : string;
  ep_requested_reasoning_effort : string;
  ep_required_capabilities : list string;
  ep_fallback_policy : ExecutionProfileFallbackPolicy;
  ep_fallback_model : option string;
  ep_fallback_reasoning_effort : option string;
  ep_actual_model : string;
  ep_actual_reasoning_effort : string;
  ep_actual_capabilities : list string;
  ep_host_agent_id : string;
  ep_host_agent_incarnation : string;
  ep_inherited_from : option ExecutionProfileInheritance;
  ep_checkpoint_id : option string;
  ep_handoff_from : option string;
}.

#[export] Instance ExecutionProfile_eq_dec : EqDecision ExecutionProfile.
Proof. solve_decision. Defined.

Record StepLease := MkStepLease {
  lease_owner_id : string;
  lease_idempotency_key : string;
  lease_acquired_at : Instant;
  lease_expires_at : Instant;
  lease_execution_profile : option ExecutionProfile;
}.

#[export] Instance StepLease_eq_dec : EqDecision StepLease.
Proof. solve_decision. Defined.

Definition StepLease_new (owner_id idempotency_key : string) (acquired_at expires_at : Instant)
    : outcome StepLease :=
  ensure (negb (expires_at <=? acquired_at))
    (InvariantViolated "step lease must expire after it is acquired");;
  Ok (MkStepLease owner_id idempotency_key acquired_at expires_at None).

(** A lease that expires [ttl] milliseconds after it is acquired. *)
Definition StepLease_acquire `{Clock} (owner_id idempotency_key : string)
    (acquired_at : Instant) (ttl : Z) : outcome StepLease :=
  ensure (ttl <=? i64_max) (OutOfRange "step_lease.ttl_ms" ttl 0 i64_max);;
  expires_at ← ok_or (checked_add_ms acquired_at ttl)
                 (OutOfRange "step_lease.expires_at" ttl 0 i64_max);
  StepLease_new owner_id idempotency_key acquired_at expires_at.

(** ** Execution records *)

Record SourceRecordRef := MkSourceRecordRef {
  src_ceremony_id : CeremonyId;
  src_step_id : StepId;
  src_event_id : string;
  src_record_hash : string;
  src_state_visit : Z;
  src_attempt : Z;
}.

#[export] Instance SourceRecordRef_eq_dec : EqDecision SourceRecordRef.
Proof. solve_decision. Defined.

Record StepExecutionRecord := MkStepExecutionRecord {
  rec_status : StepStatus;
  rec_state_iteration : Z;
  rec_state_visit : Z;
  rec_iteration : Z;
  rec_attempt : Z;
  rec_lease : option StepLease;
  rec_renewed_expires_at : option Instant;
  rec_output : StepOutput;
  rec_error_message : option string;
  rec_claimed_role : option RoleId;
  rec_budget_reservation_id : option string;
  rec_carried_from : option SourceRecordRef;
}.

#[export] Instance StepExecutionRecord_eq_dec : EqDecision StepExecutionRecord.
Proof. solve_decision. Defined.
#[export] Instance StepExecutionRecord_eta : Eta StepExecutionRecord := λ r,
  MkStepExecutionRecord (rec_status r) (rec_state_iteration r) (rec_state_visit r)
    (rec_iteration r) (rec_attempt r) (rec_lease r) (rec_renewed_expires_at r)
    (rec_output r) (rec_error_message r) (rec_claimed_role r)
    (rec_budget_reservation_id r) (rec_carried_from r).

Definition record_pending : StepExecutionRecord := {|
  rec_status := Pending;
  rec_state_iteration := StateIteration_FIRST;
  rec_state_visit := StateVisit_FIRST;
  rec_iteration := StepIteration_FIRST;
  rec_attempt := StepAttempt_FIRST;
  rec_lease := None;
  rec_renewed_expires_at := None;
  rec_output := ∅;
  rec_error_message := None;
  rec_claimed_role := None;
  rec_budget_reservation_id := None;
  rec_carried_from := None;
|}.

Definition record_pending_state_iteration (state_iteration : Z) : StepExecutionRecord :=
  record_pending <| rec_state_iteration := state_iteration |>.
Definition record_pending_coordinates (state_iteration iteration : Z) : StepExecutionRecord :=
  record_pending <| rec_state_iteration := state_iteration |> <| rec_iteration := iteration |>.
Definition record_with_state_visit (r : StepExecutionRecord) (visit : Z) : StepExecutionRecord :=
  r <| rec_state_visit := visit |>.

(** The attempt a new claim of this record would start. *)
Definition record_next_start_attempt (r : StepExecutionRecord) : outcome Z :=
  match rec_status r with
  | Failed | InProgress => StepAttempt_next (rec_attempt r)
  | _ => Ok (rec_attempt r)
  end.

Definition record_effective_lease_expires_at (r : StepExecutionRecord) : option Instant :=
  match rec_renewed_expires_at r with
  | Some at_ => Some at_
  | None => lease_expires_at <$> rec_lease r
  end.

Definition record_renew_lease_until (r : StepExecutionRecord) (expires_at : Instant)
    : StepExecutionRecord :=
  r <| rec_renewed_expires_at := Some expires_at |>.

Definition record_can_be_started_at (r : StepExecutionRecord) (now : Instant) : bool :=
  status_is_executable (rec_status r) ||
  ((rec_status r == InProgress) &&
    is_some_and (record_effective_lease_expires_at r) (λ expiry, expiry <=? now)).

Definition record_has_live_lease_at (r : StepExecutionRecord) (now : Instant) : bool :=
  (rec_status r == InProgress) &&
    is_some_and (record_effective_lease_expires_at r) (λ expiry, now <? expiry).

Definition record_with_started (r : StepExecutionRecord) (lease : StepLease) (attempt : Z)
    (claimed_role : option RoleId) : StepExecutionRecord := {|
  rec_status := InProgress;
  rec_state_iteration := rec_state_iteration r;
  rec_state_visit := rec_state_visit r;
  rec_iteration := rec_iteration r;
  rec_attempt := attempt;
  rec_lease := Some lease;
  rec_renewed_expires_at := None;
  rec_output := rec_output r;
  rec_error_message := None;
  rec_claimed_role := claimed_role;
  rec_budget_reservation_id := rec_budget_reservation_id r;
  rec_carried_from := rec_carried_from r;
|}.

Definition record_with_budget_reservation (r : StepExecutionRecord)
    (reservation_id : option string) : StepExecutionRecord :=
  r <| rec_budget_reservation_id := reservation_id |>.

Definition record_with_result (r : StepExecutionRecord) (result : StepResult)
    : StepExecutionRecord := {|
  rec_status := res_status result;
  rec_state_iteration := rec_state_iteration r;
  rec_state_visit := rec_state_visit r;
  rec_iteration := rec_iteration r;
  rec_attempt := rec_attempt r;
  rec_lease := None;
  rec_renewed_expires_at := None;
  rec_output := res_output result;
  rec_error_message := res_error_message result;
  rec_claimed_role := rec_claimed_role r;
  rec_budget_reservation_id := rec_budget_reservation_id r;
  rec_carried_from := rec_carried_from r;
|}.

(** A completed record whose work was done in another instance. *)
Definition record_carried (output : StepOutput) (source : SourceRecordRef)
    (state_iteration state_visit : Z) : StepExecutionRecord :=
  record_pending <| rec_status := Completed |>
    <| rec_state_iteration := state_iteration |> <| rec_state_visit := state_visit |>
    <| rec_output := output |> <| rec_carried_from := Some source |>.

(** ** The fence of an accepted claim *)

Notation StepClaimFence := string (only parsing).

Definition NUL : string := String (ascii_of_N 0) "".

(** The fields one claim is identified by. *)
Definition fence_parts (instance_id : CeremonyId) (step_id : StepId)
    (r : StepExecutionRecord) (lease : StepLease) : list string :=
  [ instance_id; step_id;
    decimal (rec_state_visit r); decimal (rec_state_iteration r);
    decimal (rec_iteration r); decimal (rec_attempt r);
    lease_owner_id lease; lease_idempotency_key lease;
    decimal (lease_acquired_at lease); decimal (lease_expires_at lease) ].

(** The bytes a claim's fence is the digest of. *)
Definition fence_preimage (instance_id : CeremonyId) (step_id : StepId)
    (r : StepExecutionRecord) (lease : StepLease) : string :=
  "made.step-claim-fence.v1" +:+ NUL +:+ frames (fence_parts instance_id step_id r lease).

Definition fence_for_record `{Sha256} (instance_id : CeremonyId) (step_id : StepId)
    (r : StepExecutionRecord) : outcome StepClaimFence :=
  lease ← ok_or (rec_lease r) (InvariantViolated "claim fence requires a step lease");
  Ok (sha256_hex (fence_preimage instance_id step_id r lease)).

(** ** Deadlines *)

Record StepDeadline := MkStepDeadline {
  sd_step_id : StepId;
  sd_state_visit : Z;
  sd_state_iteration : Z;
  sd_step_iteration : Z;
  sd_attempt : Z;
  sd_claim_fence : StepClaimFence;
  sd_finished_by : RoleId;
  sd_at : Instant;
}.

#[export] Instance StepDeadline_eq_dec : EqDecision StepDeadline.
Proof. solve_decision. Defined.

Record StateDeadline := MkStateDeadline {
  std_state_id : StateId;
  std_state_visit : Z;
  std_at : Instant;
}.

#[export] Instance StateDeadline_eq_dec : EqDecision StateDeadline.
Proof. solve_decision. Defined.

(** [checked_deadline]: [duration] milliseconds after [now], refused when it
    does not fit a signed 64-bit count or the calendar. *)
Definition checked_deadline `{Clock} (now : Instant) (duration : Z) (field : string)
    : outcome Instant :=
  ensure (duration <=? i64_max) (OutOfRange field duration 0 i64_max);;
  ok_or (checked_add_ms now duration) (OutOfRange field duration 0 i64_max).

Record LateStepResult := MkLateStepResult {
  late_step_id : StepId;
  late_state_visit : Z;
  late_state_iteration : Z;
  late_step_iteration : Z;
  late_attempt : Z;
  late_claim_fence : StepClaimFence;
  late_result : StepResult;
  late_finished_by : RoleId;
}.

#[export] Instance LateStepResult_eq_dec : EqDecision LateStepResult.
Proof. solve_decision. Defined.

(** ** Lifecycle of a session *)

Inductive CeremonyEndReason :=
  EndCompleted | EndCancelled | EndCeremonyDeadline | EndStateDeadline.

#[export] Instance CeremonyEndReason_eq_dec : EqDecision CeremonyEndReason.
Proof. solve_decision. Defined.

Record CeremonyLifecycle := MkCeremonyLifecycle {
  lc_phase : CeremonyLifecyclePhase;
  lc_end_reason : option CeremonyEndReason;
  lc_reason : option string;
  lc_changed_at : option Instant;
}.

#[export] Instance CeremonyLifecycle_eq_dec : EqDecision CeremonyLifecycle.
Proof. solve_decision. Defined.

Definition lifecycle_default : CeremonyLifecycle := MkCeremonyLifecycle Running None None None.
Definition lifecycle_completed (at_ : Instant) : CeremonyLifecycle :=
  MkCeremonyLifecycle Ended (Some EndCompleted) None (Some at_).
Definition lifecycle_is_explicit (l : CeremonyLifecycle) : bool := is_some (lc_changed_at l).
Definition lifecycle_admits_new_work (l : CeremonyLifecycle) : bool := lc_phase l == Running.
Definition lifecycle_is_paused (l : CeremonyLifecycle) : bool := lc_phase l == Paused.
Definition lifecycle_is_ended (l : CeremonyLifecycle) : bool := lc_phase l == Ended.
Definition lifecycle_pause (l : CeremonyLifecycle) (reason : string) (at_ : Instant)
    : CeremonyLifecycle :=
  MkCeremonyLifecycle Paused (lc_end_reason l) (Some reason) (Some at_).
Definition lifecycle_resume (l : CeremonyLifecycle) (at_ : Instant) : CeremonyLifecycle :=
  MkCeremonyLifecycle Running (lc_end_reason l) None (Some at_).
Definition lifecycle_end (l : CeremonyLifecycle) (end_reason : CeremonyEndReason)
    (reason : option string) (at_ : Instant) : CeremonyLifecycle :=
  MkCeremonyLifecycle Ended (Some end_reason) reason (Some at_).

(** ** Lemmas *)

Lemma StepAttempt_next_Ok a b :
  0 ≤ a ≤ u32_max → StepAttempt_next a = Ok b → a < u32_max → b = a + 1.
Proof.
  unfold StepAttempt_next, StepAttempt_new, u32_saturating_add.
  intros Ha H Hlt. invert_ok H. lia.
Qed.

Lemma StepIteration_next_Ok i j :
  0 ≤ i → StepIteration_next i = Ok j → j = i + 1 ∧ j ≤ MAX_STEP_ITERATIONS.
Proof.
  unfold StepIteration_next, StepIteration_new, u32_saturating_add, u32_max, MAX_STEP_ITERATIONS.
  intros Hi H. invert_ok H. apply Z.leb_le in H1. lia.
Qed.

Lemma StateIteration_next_Ok i j :
  0 ≤ i → StateIteration_next i = Ok j → j = i + 1 ∧ j ≤ MAX_STATE_ITERATIONS.
Proof.
  unfold StateIteration_next, StateIteration_new, u32_saturating_add, u32_max, MAX_STATE_ITERATIONS.
  intros Hi H. invert_ok H. apply Z.leb_le in H1. lia.
Qed.

Lemma StateVisit_next_Ok v w : StateVisit_next v = Ok w → w = v + 1 ∧ w ≤ u32_max.
Proof.
  unfold StateVisit_next, u32_checked_add. intros H%ok_or_Ok.
  destruct (v + 1 <=? u32_max) eqn:E; simplify_eq. apply Z.leb_le in E. lia.
Qed.

Lemma StepResult_valid_observable r :
  StepResult_valid r = true → rec_status (record_with_result record_pending r) ≠ Pending ∧
    rec_status (record_with_result record_pending r) ≠ InProgress.
Proof.
  unfold StepResult_valid, StepResult_new. intros [H _]%andb_true_iff. revert H. simpl.
  by destruct (res_status r).
Qed.

(** A live lease and a startable record exclude each other. *)
Lemma live_lease_not_startable r now :
  record_has_live_lease_at r now = true → record_can_be_started_at r now = false.
Proof.
  unfold record_has_live_lease_at, record_can_be_started_at.
  destruct (rec_status r); cbn; try done.
  destruct (record_effective_lease_expires_at r); cbn; [|done]. intros ?%Z.ltb_lt.
  apply Z.leb_gt. lia.
Qed.

(** Two records with the same fence are the same claim, when the digest does
    not collide on them. *)
Lemma fence_identifies `{Sha256} id1 id2 s1 s2 r1 r2 l1 l2 f :
  (sha256_hex (fence_preimage id1 s1 r1 l1) = sha256_hex (fence_preimage id2 s2 r2 l2) →
   fence_preimage id1 s1 r1 l1 = fence_preimage id2 s2 r2 l2) →
  rec_lease r1 = Some l1 → rec_lease r2 = Some l2 →
  Forall frameable (fence_parts id1 s1 r1 l1) →
  Forall frameable (fence_parts id2 s2 r2 l2) →
  fence_for_record id1 s1 r1 = Ok f → fence_for_record id2 s2 r2 = Ok f →
  fence_parts id1 s1 r1 l1 = fence_parts id2 s2 r2 l2.
Proof.
  unfold fence_for_record. intros Hinj -> -> HF1 HF2 H1 H2.
  injection H1 as H1. injection H2 as H2. rewrite <-H2 in H1. apply Hinj in H1.
  unfold fence_preimage in H1. do 2 apply string_app_inv_head in H1.
  exact (frames_inj _ _ HF1 HF2 eq_refl H1).
Qed.

Lemma fence_parts_inj id1 id2 s1 s2 r1 r2 l1 l2 :
  fence_parts id1 s1 r1 l1 = fence_parts id2 s2 r2 l2 →
  id1 = id2 ∧ s1 = s2 ∧ rec_state_visit r1 = rec_state_visit r2 ∧
  rec_state_iteration r1 = rec_state_iteration r2 ∧ rec_iteration r1 = rec_iteration r2 ∧
  rec_attempt r1 = rec_attempt r2 ∧ lease_owner_id l1 = lease_owner_id l2 ∧
  lease_idempotency_key l1 = lease_idempotency_key l2 ∧
  lease_acquired_at l1 = lease_acquired_at l2 ∧ lease_expires_at l1 = lease_expires_at l2.
Proof.
  unfold fence_parts, decimal. intros H. injection H as ? ? H3 H4 H5 H6 ? ? H9 H10.
  apply (inj pretty) in H3, H4, H5, H6, H9, H10. auto 20.
Qed.
