(* ===== verification/Definitions.v ===== *)
(** * The declarative state machine of a ceremony

    made-core/src/entities/ceremony_definition.rs with its guard evaluation
    and collections, and the value objects a definition is made of: states,
    steps, transitions, guards, roles, repeat and retry policies. *)

From S2P Require Import Prelude Errors Text Values Steps.

(** ** Parts of a definition *)

(** [MaxParallel]: between 1 and 8. *)
Definition MaxParallel_DEFAULT : Z := 3.
Definition MaxParallel_SERVER_MAX : Z := 8.
Definition MaxParallel_new (value : Z) : outcome Z :=
  ensure ((1 <=? value) && (value <=? 8)) (OutOfRange "max_parallel" value 1 8);; Ok value.
Definition MaxParallel_effective_with (self ceiling : Z) : Z :=
  if self <? ceiling then self else ceiling.

Inductive ChildJoin := JoinAll | JoinAny | JoinQuorum (count : Z).

#[export] Instance ChildJoin_eq_dec : EqDecision ChildJoin.
Proof. solve_decision. Defined.

Definition child_join_is_satisfied (join : ChildJoin) (completed total : nat) : bool :=
  match join with
  | JoinAll => (0 <? total)%nat && (completed =? total)%nat
  | JoinAny => (0 <? completed)%nat
  | JoinQuorum count => count <=? Z.of_nat completed
  end.

Inductive GuardCondition :=
| Always
| AllStepsCompleted
| AnyStepCompleted
| StepsCompleted (count : Z)
| StepStatusIs (step_id : StepId) (status : StepStatus)
| OutputField (step_id : StepId) (output_field : string) (expected : Value)
| StepRepeatExhausted (step_id : StepId)
| ChildrenCompleted (step_id : StepId) (join : ChildJoin)
| HumanApproval
| StateRepeatExhausted (state_id : StateId).

#[export] Instance GuardCondition_eq_dec : EqDecision GuardCondition.
Proof. solve_decision. Defined.

Definition referenced_step_id (c : GuardCondition) : option StepId :=
  match c with
  | StepStatusIs s _ | OutputField s _ _ | StepRepeatExhausted s | ChildrenCompleted s _ => Some s
  | _ => None
  end.

Record CeremonyGuard := MkCeremonyGuard {
  guard_name : GuardName;
  guard_condition : GuardCondition;
}.

#[export] Instance CeremonyGuard_eq_dec : EqDecision CeremonyGuard.
Proof. solve_decision. Defined.

(** [OutputFieldGuardCondition::is_satisfied]. *)
Definition output_field_is_satisfied (field : string) (expected : Value)
    (r : StepExecutionRecord) : bool :=
  status_is_success (rec_status r) && (rec_output r !! field == Some expected).

(** [CeremonyGuard::is_satisfied]: what records and context alone decide. *)
Definition guard_is_satisfied (g : CeremonyGuard)
    (records : gmap string StepExecutionRecord) (context : CeremonyContext) : bool :=
  match guard_condition g with
  | Always => true
  | AllStepsCompleted =>
      negb (size records =? 0)%nat &&
      all (λ r, status_is_success (rec_status r)) (btree_values records)
  | AnyStepCompleted => any (λ r, status_is_success (rec_status r)) (btree_values records)
  | StepsCompleted required =>
      required <=? Z.of_nat (count (λ r, status_is_success (rec_status r)) (btree_values records))
  | StepStatusIs step_id status =>
      is_some_and (records !! step_id) (λ r, rec_status r == status)
  | OutputField step_id field expected =>
      is_some_and (records !! step_id) (output_field_is_satisfied field expected)
  | StepRepeatExhausted _ | ChildrenCompleted _ _ | StateRepeatExhausted _ => false
  | HumanApproval => is_guard_approved context (guard_name g)
  end.

Inductive RepeatUntilCondition := OutputFieldEquals (field : string) (expected : Value).

#[export] Instance RepeatUntilCondition_eq_dec : EqDecision RepeatUntilCondition.
Proof. solve_decision. Defined.

Record StepRepeatPolicy := MkStepRepeatPolicy {
  srp_until : RepeatUntilCondition;
  srp_max_iterations : Z;
}.

#[export] Instance StepRepeatPolicy_eq_dec : EqDecision StepRepeatPolicy.
Proof. solve_decision. Defined.

Definition repeat_is_satisfied (p : StepRepeatPolicy) (output : StepOutput) : bool :=
  match srp_until p with OutputFieldEquals field expected => output !! field == Some expected end.
Definition repeat_permits_another_iteration (p : StepRepeatPolicy) (current : Z) : bool :=
  current <? srp_max_iterations p.

Record StateRepeatPolicy := MkStateRepeatPolicy {
  strp_max_iterations : Z;
  strp_step_id : StepId;
  strp_output_field : string;
  strp_equals : Value;
}.

#[export] Instance StateRepeatPolicy_eq_dec : EqDecision StateRepeatPolicy.
Proof. solve_decision. Defined.

Definition state_repeat_is_satisfied (p : StateRepeatPolicy) (r : StepExecutionRecord) : bool :=
  status_is_success (rec_status r) && (rec_output r !! strp_output_field p == Some (strp_equals p)).
Definition state_repeat_permits_another_iteration (p : StateRepeatPolicy) (current : Z) : bool :=
  current <? strp_max_iterations p.

Record RetryPolicy := MkRetryPolicy { retry_max_attempts : Z; retry_backoff : Z }.

#[export] Instance RetryPolicy_eq_dec : EqDecision RetryPolicy.
Proof. solve_decision. Defined.

Definition retry_allows_attempt (p : RetryPolicy) (attempt : Z) : bool :=
  attempt <=? retry_max_attempts p.

Record DynamicRoleBinding := MkDynamicRoleBinding {
  drb_context_key : string;
  drb_allowed_roles : gset string;
}.

#[export] Instance DynamicRoleBinding_eq_dec : EqDecision DynamicRoleBinding.
Proof. solve_decision. Defined.

Definition DynamicRoleBinding_new (context_key : string) (supplied : list RoleId)
    : outcome DynamicRoleBinding :=
  ensure (negb (length supplied =? 0)%nat)
    (EmptyCollection "dynamic_role_binding.allowed_roles");;
  let canonical : gset string := list_to_set supplied in
  ensure (size canonical =? length supplied)%nat
    (AlreadyExists "dynamic_role_binding.allowed_role");;
  Ok (MkDynamicRoleBinding context_key canonical).

Definition binding_allows (b : DynamicRoleBinding) (role : RoleId) : bool :=
  bool_decide (role ∈ drb_allowed_roles b).

Record CeremonyChildSpec := MkCeremonyChildSpec {
  spec_ceremony : string;
  spec_version : string;
  spec_inputs : gmap string string;
}.

#[export] Instance CeremonyChildSpec_eq_dec : EqDecision CeremonyChildSpec.
Proof. solve_decision. Defined.

Record CeremonyChildSpawn := MkCeremonyChildSpawn {
  spawn_children : list CeremonyChildSpec;
  spawn_max_children : Z;
  spawn_max_depth : Z;
}.

#[export] Instance CeremonyChildSpawn_eq_dec : EqDecision CeremonyChildSpawn.
Proof. solve_decision. Defined.

Inductive CeremonyStepAggregation := Synthesize | Vote (output_field : string).

#[export] Instance CeremonyStepAggregation_eq_dec : EqDecision CeremonyStepAggregation.
Proof. solve_decision. Defined.

Record CeremonyStep := MkCeremonyStep {
  step_id : StepId;
  step_state_id : StateId;
  step_handler_kind : string;
  step_handler_config : Attributes;
  step_retry_policy : RetryPolicy;
  step_timeout : option Z;
  step_repeat_policy : option StepRepeatPolicy;
  step_dynamic_role_binding : option DynamicRoleBinding;
  step_context_writes : ContextWrites;
  step_spawn : option CeremonyChildSpawn;
  step_aggregation : option CeremonyStepAggregation;
}.

#[export] Instance CeremonyStep_eq_dec : EqDecision CeremonyStep.
Proof. solve_decision. Defined.
#[export] Instance CeremonyStep_eta : Eta CeremonyStep := λ s,
  MkCeremonyStep (step_id s) (step_state_id s) (step_handler_kind s) (step_handler_config s)
    (step_retry_policy s) (step_timeout s) (step_repeat_policy s) (step_dynamic_role_binding s)
    (step_context_writes s) (step_spawn s) (step_aggregation s).

Definition CeremonyStep_new (id : StepId) (state_id : StateId) (handler_kind : string)
    (handler_config : Attributes) (retry_policy : RetryPolicy) (timeout : option Z)
    : CeremonyStep :=
  MkCeremonyStep id state_id handler_kind handler_config retry_policy timeout None None ∅ None None.

Inductive CeremonyStateKind := Initial | Intermediate | Terminal.
Inductive StateExecution := Sequential | Concurrent.

#[export] Instance CeremonyStateKind_eq_dec : EqDecision CeremonyStateKind.
Proof. solve_decision. Defined.
#[export] Instance StateExecution_eq_dec : EqDecision StateExecution.
Proof. solve_decision. Defined.

Record CeremonyState := MkCeremonyState {
  state_id : StateId;
  state_kind : CeremonyStateKind;
  state_execution : StateExecution;
  state_repeat : option StateRepeatPolicy;
  state_annotations : Attributes;
}.

#[export] Instance CeremonyState_eq_dec : EqDecision CeremonyState.
Proof. solve_decision. Defined.

Definition state_is_initial (s : CeremonyState) : bool := state_kind s == Initial.
Definition state_is_terminal (s : CeremonyState) : bool := state_kind s == Terminal.

Record CeremonyTransition := MkCeremonyTransition {
  tr_from : StateId;
  tr_to : StateId;
  tr_trigger : string;
  tr_required_guards : gset string;
}.

#[export] Instance CeremonyTransition_eq_dec : EqDecision CeremonyTransition.
Proof. solve_decision. Defined.

Inductive RoleAction :=
| ActStep (step_id : StepId)
| ActTransition (trigger : string)
| ActRequestIntervention
| ActRespondToIntervention.

#[export] Instance RoleAction_eq_dec : EqDecision RoleAction.
Proof. solve_decision. Defined.
#[export] Instance RoleAction_countable : Countable RoleAction.
Proof.
  refine (inj_countable'
    (λ a, match a with
          | ActStep s => inl (inl s) | ActTransition t => inl (inr t)
          | ActRequestIntervention => inr true | ActRespondToIntervention => inr false end)
    (λ x, match x with
          | inl (inl s) => ActStep s | inl (inr t) => ActTransition t
          | inr true => ActRequestIntervention | inr false => ActRespondToIntervention end) _).
  by intros [].
Defined.

Record CeremonyRole := MkCeremonyRole {
  role_id : RoleId;
  role_allowed_actions : gset RoleAction;
}.

#[export] Instance CeremonyRole_eq_dec : EqDecision CeremonyRole.
Proof. solve_decision. Defined.

Definition CeremonyRole_new (id : RoleId) (actions : list RoleAction) : outcome CeremonyRole :=
  let allowed : gset RoleAction := list_to_set actions in
  ensure (negb (size allowed =? 0)%nat) (EmptyCollection "ceremony_role.allowed_actions");;
  Ok (MkCeremonyRole id allowed).

Definition role_allows_action (r : CeremonyRole) (a : RoleAction) : bool :=
  bool_decide (a ∈ role_allowed_actions r).

Inductive InputRequirement := Required | Optional.

#[export] Instance InputRequirement_eq_dec : EqDecision InputRequirement.
Proof. solve_decision. Defined.

Record CeremonyInputDefinition := MkCeremonyInputDefinition {
  input_name : string;
  input_requirement : InputRequirement;
}.

#[export] Instance CeremonyInputDefinition_eq_dec : EqDecision CeremonyInputDefinition.
Proof. solve_decision. Defined.

(** The element of a definition a finding or a change points at. *)
Inductive CeremonyValidationLocus :=
| LocusDefinition
| LocusInput (input : string)
| LocusOutput (output : string)
| LocusState (state : StateId)
| LocusTransition (from : StateId) (trigger : string)
| LocusStep (step : StepId)
| LocusGuard (guard : GuardName)
| LocusRole (role : RoleId).

#[export] Instance CeremonyValidationLocus_eq_dec : EqDecision CeremonyValidationLocus.
Proof. solve_decision. Defined.

(** ** The definition *)

Record CeremonyDefinition := MkCeremonyDefinition {
  def_name : string;
  def_version : string;
  def_description : option string;
  def_inputs : gmap string CeremonyInputDefinition;
  def_outputs : gmap string string;
  def_states : gmap string CeremonyState;
  def_transitions : list CeremonyTransition;
  def_steps : gmap string CeremonyStep;
  def_step_order : list StepId;
  def_guards : gmap string CeremonyGuard;
  def_roles : gmap string CeremonyRole;
  def_max_parallel : Z;
  def_max_transitions : option Z;
  def_max_bounces : option Z;
  def_ceremony_timeout : option Z;
  def_state_timeout : option Z;
}.

#[export] Instance CeremonyDefinition_eq_dec : EqDecision CeremonyDefinition.
Proof. solve_decision. Defined.

(** The [collect_*] functions: index by name, refusing a second entry. *)
Definition collect_by {V} (key : V → string) (what : string) (items : list V)
    : outcome (gmap string V) :=
  let fix go (items : list V) (m : gmap string V) : outcome (gmap string V) :=
    match items with
    | [] => Ok m
    | item :: items =>
        if is_some (m !! key item) then Err (AlreadyExists what)
        else go items (<[key item := item]> m)
    end in
  go items ∅.

Definition collect_inputs := collect_by input_name "ceremony_input".
Definition collect_outputs := collect_by (λ name : string, name) "ceremony_output".
Definition collect_states := collect_by state_id "ceremony_state".
Definition collect_guards := collect_by guard_name "ceremony_guard".
Definition collect_roles := collect_by role_id "ceremony_role".

(** Steps are also kept in the order they were declared. *)
Definition collect_steps (steps : list CeremonyStep)
    : outcome (gmap string CeremonyStep * list StepId) :=
  m ← collect_by step_id "ceremony_step" steps;
  Ok (m, step_id <$> steps).

Section definition_queries.
Context (d : CeremonyDefinition).

(** The steps in declaration order.  Every identifier of the order is
    indexed ([collect_steps_indexed]), so the source's [expect] is not
    reached. *)
Definition steps_in_declaration_order : list CeremonyStep :=
  omap (λ id, def_steps d !! id) (def_step_order d).

Definition initial_state_id : outcome StateId :=
  state_id <$> expect (List.find state_is_initial (btree_values (def_states d))).

Definition def_state (id : StateId) : option CeremonyState := def_states d !! id.
Definition def_step (id : StepId) : option CeremonyStep := def_steps d !! id.
Definition def_role (id : RoleId) : option CeremonyRole := def_roles d !! id.

Definition steps_for_state (id : StateId) : list CeremonyStep :=
  List.filter (λ s, step_state_id s == id) steps_in_declaration_order.

Definition is_terminal_state (id : StateId) : bool :=
  is_some_and (def_states d !! id) state_is_terminal.

Definition transition_for_trigger (id : StateId) (trigger : string) : option CeremonyTransition :=
  List.find (λ t, (tr_from t == id) && (tr_trigger t == trigger)) (def_transitions d).

Definition available_transitions (id : StateId) : list CeremonyTransition :=
  List.filter (λ t, tr_from t == id) (def_transitions d).

Definition role_allows (role : RoleId) (action : RoleAction) : bool :=
  is_some_and (def_roles d !! role) (λ r, role_allows_action r action).

Definition role_for_action (action : RoleAction) : option CeremonyRole :=
  List.find (λ r, role_allows_action r action) (btree_values (def_roles d)).

Definition role_id_for_step (id : StepId) : outcome RoleId :=
  ok_or (role_id <$> role_for_action (ActStep id))
    (InvariantViolated "no ceremony role can execute step").

Definition role_id_for_transition (trigger : string) : outcome RoleId :=
  ok_or (role_id <$> role_for_action (ActTransition trigger))
    (InvariantViolated "no ceremony role can apply transition").

(** ** Guards *)

Definition step_repeat_is_exhausted_on_transition (t : CeremonyTransition) (id : StepId)
    (records : gmap string StepExecutionRecord) : bool :=
  match def_step id with
  | None => false
  | Some step =>
      if step_state_id step != tr_from t then false else
      match step_repeat_policy step with
      | None => false
      | Some policy =>
          is_some_and (records !! id) (λ r,
            status_is_success (rec_status r) &&
            negb (repeat_is_satisfied policy (rec_output r)) &&
            negb (repeat_permits_another_iteration policy (rec_iteration r)))
      end
  end.

Definition repeat_requirement_is_satisfied (id : StepId)
    (records : gmap string StepExecutionRecord) : bool :=
  match def_step id ≫= step_repeat_policy with
  | None => true
  | Some policy =>
      is_some_and (records !! id) (λ r,
        status_is_success (rec_status r) && repeat_is_satisfied policy (rec_output r))
  end.

Definition transition_waives_exhausted_repeat (t : CeremonyTransition) (id : StepId)
    (records : gmap string StepExecutionRecord) : bool :=
  any (λ name, is_some_and (def_guards d !! name) (λ g,
         match guard_condition g with
         | StepRepeatExhausted sid =>
             (sid == id) && step_repeat_is_exhausted_on_transition t id records
         | _ => false
         end))
    (btree_elements (tr_required_guards t)).

Definition repeat_requirement_is_satisfied_or_waived (t : CeremonyTransition) (id : StepId)
    (records : gmap string StepExecutionRecord) : bool :=
  repeat_requirement_is_satisfied id records || transition_waives_exhausted_repeat t id records.

Definition repeat_requirements_are_satisfied (state : StateId)
    (records : gmap string StepExecutionRecord) : bool :=
  all (λ s, repeat_requirement_is_satisfied (step_id s) records) (steps_for_state state).

Definition repeat_requirements_are_satisfied_for_transition (t : CeremonyTransition)
    (records : gmap string StepExecutionRecord) : bool :=
  all (λ s, repeat_requirement_is_satisfied_or_waived t (step_id s) records)
    (steps_for_state (tr_from t)).

Definition transition_routes_state_repeat_exhaustion (t : CeremonyTransition) : bool :=
  any (λ name, is_some_and (def_guards d !! name) (λ g,
         match guard_condition g with
         | StateRepeatExhausted sid => sid == tr_from t
         | _ => false
         end))
    (btree_elements (tr_required_guards t)).

(** Whether a step of the transition's source state has completed. *)
Definition source_step_completed (records : gmap string StepExecutionRecord) (s : CeremonyStep)
    : bool :=
  is_some_and (records !! step_id s) (λ r, status_is_success (rec_status r)).

(** One guard with the definition's repetition rules. *)
Definition def_guard_is_satisfied_for_transition (g : CeremonyGuard) (t : CeremonyTransition)
    (records : gmap string StepExecutionRecord) (context : CeremonyContext) : bool :=
  match guard_condition g with
  | StepRepeatExhausted sid => step_repeat_is_exhausted_on_transition t sid records
  | StepStatusIs sid status =>
      guard_is_satisfied g records context &&
      (negb (status_is_success status) || repeat_requirement_is_satisfied_or_waived t sid records)
  | AllStepsCompleted =>
      guard_is_satisfied g records context &&
      all (λ id, repeat_requirement_is_satisfied_or_waived t id records) (btree_keys (def_steps d))
  | AnyStepCompleted => any (source_step_completed records) (steps_for_state (tr_from t))
  | StepsCompleted required =>
      required <=? Z.of_nat (count (source_step_completed records) (steps_for_state (tr_from t)))
  | _ => guard_is_satisfied g records context
  end.

(** [CeremonyDefinition::guards_are_satisfied]. *)
Definition def_guards_are_satisfied (t : CeremonyTransition)
    (records : gmap string StepExecutionRecord) (context : CeremonyContext) : bool :=
  repeat_requirements_are_satisfied_for_transition t records &&
  all (λ name, is_some_and (def_guards d !! name) (λ g,
         def_guard_is_satisfied_for_transition g t records context))
    (btree_elements (tr_required_guards t)).

Definition next_satisfied_transition (id : StateId)
    (records : gmap string StepExecutionRecord) (context : CeremonyContext)
    : option CeremonyTransition :=
  List.find (λ t, def_guards_are_satisfied t records context) (available_transitions id).
End definition_queries.

(** ** Lemmas on collections *)

Section collect_by.
Context {V : Type} (key : V → string) (what : string).

Definition keyed (m : gmap string V) (items : list V) : Prop :=
  (∀ k v, m !! k = Some v → key v = k ∧ v ∈ items) ∧
  (∀ v, v ∈ items → m !! key v = Some v) ∧ NoDup (key <$> items).

Lemma collect_by_keyed items m : collect_by key what items = Ok m → keyed m items.
Proof.
  unfold collect_by. set (go := fix go (l : list V) (m : gmap string V) := _).
  cut (∀ items acc done_, keyed acc done_ → go items acc = Ok m → keyed m (done_ ++ items)).
  { intros Hgo H. apply (Hgo items ∅ [] ); [|done].
    split_and!; [by intros ?? ? | by intros ? ?%elem_of_nil | constructor]. }
  clear items. intros items. induction items as [|x items IH]; intros acc done_ Hacc H; cbn in H.
  - simplify_eq. by rewrite app_nil_r.
  - destruct (acc !! key x) as [y|] eqn:E; cbn in H; [done|].
    rewrite cons_middle, app_assoc. eapply IH; [|done].
    destruct Hacc as (H1 & H2 & H3). split_and!.
    + intros k v [[<- <-]|[Hne Hv]]%lookup_insert_Some.
      * split; [done|]. apply elem_of_app. right. by left.
      * destruct (H1 _ _ Hv). split; [done|]. apply elem_of_app. by left.
    + intros v [Hv| ->%list_elem_of_singleton]%elem_of_app.
      * rewrite lookup_insert_ne; [by apply H2|]. intros Heq.
        rewrite Heq, (H2 _ Hv) in E. done.
      * apply lookup_insert_eq.
    + rewrite fmap_app. apply NoDup_app. split_and!; [done| |repeat constructor; set_solver].
      intros k (v & -> & Hv)%list_elem_of_fmap Hk%list_elem_of_singleton.
      rewrite <-Hk, (H2 _ Hv) in E. done.
Qed.
End collect_by.

(** Every declared step is found again in the index, in order, so reading
    the declaration order never panics. *)
Lemma collect_steps_indexed steps m order :
  collect_steps steps = Ok (m, order) →
  omap (λ id, m !! id) order = steps ∧ NoDup order.
Proof.
  unfold collect_steps. intros H. invert_ok H.
  apply collect_by_keyed in H0 as (_ & Hm & Hnd). split; [|done].
  clear Hnd. induction steps as [|s steps IH]; [done|]. simpl.
  rewrite (Hm s) by (by left). f_equal. apply IH. intros v Hv. apply Hm. by right.
Qed.

Lemma elem_of_steps_for_state d s st :
  s ∈ steps_for_state d st ↔ s ∈ steps_in_declaration_order d ∧ step_state_id s = st.
Proof.
  unfold steps_for_state. rewrite !list_elem_of_In, filter_In.
  by rewrite eqb_true.
Qed.

(** A definition whose steps are indexed under their own identifier. *)
Definition steps_indexed (d : CeremonyDefinition) : Prop :=
  (∀ id s, def_steps d !! id = Some s → step_id s = id) ∧
  (∀ id, id ∈ def_step_order d ↔ is_Some (def_steps d !! id)) ∧ NoDup (def_step_order d).

Lemma steps_for_state_lookup d s st :
  steps_indexed d → s ∈ steps_for_state d st →
  def_step d (step_id s) = Some s ∧ step_state_id s = st.
Proof.
  intros (Hid & _) [Hs Hst]%elem_of_steps_for_state. split; [|done].
  unfold steps_in_declaration_order in Hs. apply list_elem_of_omap in Hs as (id & _ & Hs).
  unfold def_step. by rewrite (Hid _ _ Hs).
Qed.

Lemma steps_for_state_step d s :
  steps_indexed d → def_step d (step_id s) = Some s → s ∈ steps_for_state d (step_state_id s).
Proof.
  intros (Hid & Hord & _) Hs. apply elem_of_steps_for_state. split; [|done].
  unfold steps_in_declaration_order. apply list_elem_of_omap.
  exists (step_id s). split; [apply Hord; by eexists|done].
Qed.

Lemma steps_in_declaration_order_ids d :
  steps_indexed d → step_id <$> steps_in_declaration_order d = def_step_order d.
Proof.
  intros (Hid & Hord & _). unfold steps_in_declaration_order.
  assert (∀ id, id ∈ def_step_order d → is_Some (def_steps d !! id)) as Hin
    by (intros id; apply Hord).
  revert Hin. generalize (def_step_order d). intros l.
  induction l as [|id l IH]; intros Hin; [done|]. simpl.
  destruct (Hin id) as [s Hs]; [by left|]. rewrite Hs. simpl.
  rewrite (Hid _ _ Hs). f_equal. apply IH. intros x Hx. apply Hin. by right.
Qed.

(** The steps of a state are distinct. *)
Lemma steps_for_state_NoDup d st : steps_indexed d → NoDup (step_id <$> steps_for_state d st).
Proof.
  intros Hd. pose proof (steps_in_declaration_order_ids d Hd) as Hids.
  destruct Hd as (_ & _ & Hnd). rewrite <-Hids in Hnd. unfold steps_for_state.
  revert Hnd. generalize (steps_in_declaration_order d). intros l.
  induction l as [|s l IH]; simpl; [done|]. intros [Hs Hl]%NoDup_cons.
  destruct (_ == _); simpl; [|by apply IH]. apply NoDup_cons. split; [|by apply IH].
  contradict Hs. apply list_elem_of_fmap in Hs as (x & -> & Hx). apply list_elem_of_fmap_2.
  apply list_elem_of_In. apply list_elem_of_In in Hx. by apply filter_In in Hx as [? _].
Qed.
