(* ===== verification/Graph.v ===== *)
(** * Walking the transition graph

    The loops of entities/ceremony_definition_analysis (cycles.rs,
    reachability.rs, global_completion.rs): a worklist that expands every
    state once, and the pass that grows a set until it is stable.  The source
    loops until nothing is pending; here the loops take fuel, and the bounds
    that are always enough are proved with the sets they compute. *)

From S2P Require Import Prelude.

(** An edge list; the nodes an edge leads to, in list order. *)
Definition edge_targets (edges : list (string * string)) (node : string) : list string :=
  List.map snd (List.filter (λ e, e.1 == node) edges).

Definition edge_in (edges : list (string * string)) (x y : string) : Prop := (x, y) ∈ edges.

(** [while let Some(current) = pending.pop()]: the top of the stack is the
    head of [pending]; [extend] pushes in order. *)
Fixpoint worklist (edges : list (string * string)) (fuel : nat) (reached : gset string)
    (pending : list string) : option (gset string) :=
  match fuel with
  | O => None
  | S fuel =>
      match pending with
      | [] => Some reached
      | current :: pending =>
          if bool_decide (current ∈ reached) then worklist edges fuel reached pending
          else worklist edges fuel ({[current]} ∪ reached)
                 (rev (edge_targets edges current) ++ pending)
      end
  end.

(** One pop per edge and one for the start, and the last test of the loop. *)
Definition worklist_fuel (edges : list (string * string)) : nat := length edges + 2.

Definition reachable_nodes (edges : list (string * string)) (start : string) : gset string :=
  default ∅ (worklist edges (worklist_fuel edges) ∅ [start]).

(** One pass of the [while grew] loop: the set and whether it grew. *)
Definition finish_edge (acc : gset string * bool) (e : string * string) : gset string * bool :=
  if bool_decide (e.2 ∈ acc.1) && negb (bool_decide (e.1 ∈ acc.1))
  then ({[e.1]} ∪ acc.1, true) else acc.

Definition finish_pass (edges : list (string * string)) (set_ : gset string)
    : gset string * bool :=
  foldl finish_edge (set_, false) edges.

Fixpoint finish_loop (edges : list (string * string)) (fuel : nat) (set_ : gset string)
    : option (gset string) :=
  match fuel with
  | O => None
  | S fuel =>
      let next := finish_pass edges set_ in
      if next.2 then finish_loop edges fuel next.1 else Some next.1
  end.

Definition nodes_reaching (edges : list (string * string)) (targets : gset string) : gset string :=
  default ∅ (finish_loop edges (length edges + 1) targets).

(** ** The worklist *)

Lemma elem_of_reverse_list (x : string) l : x ∈ rev l ↔ x ∈ l.
Proof. by rewrite !list_elem_of_In, <-in_rev. Qed.

Lemma elem_of_edge_targets edges x y : y ∈ edge_targets edges x ↔ edge_in edges x y.
Proof.
  unfold edge_targets, edge_in. rewrite list_elem_of_In, in_map_iff. split.
  - intros ([a b] & <- & [Hin Ha%eqb_true_1]%filter_In). simpl in *. subst. by apply list_elem_of_In.
  - intros Hin. exists (x, y). split; [done|]. apply filter_In.
    split; [by apply list_elem_of_In|by apply eqb_true].
Qed.

(** Edges not yet expanded. *)
Definition edges_left (edges : list (string * string)) (reached : gset string) : nat :=
  count (λ e, negb (bool_decide (e.1 ∈ reached))) edges.

Lemma edges_left_le edges reached : (edges_left edges reached ≤ length edges)%nat.
Proof. apply List.filter_length_le. Qed.

Lemma edges_left_expand edges reached x :
  x ∉ reached →
  (edges_left edges ({[x]} ∪ reached) + length (edge_targets edges x) = edges_left edges reached)%nat.
Proof.
  intros Hx. unfold edges_left, edge_targets, count. rewrite length_map.
  induction edges as [|[a b] edges IH]; [done|]. simpl.
  destruct (a == x) eqn:Ha.
  - apply eqb_true_1 in Ha as ->. rewrite (bool_decide_eq_true_2 (x ∈ {[x]} ∪ reached)) by set_solver.
    rewrite (bool_decide_eq_false_2 (x ∈ reached)) by done. simpl. lia.
  - apply eqb_false in Ha.
    replace (bool_decide (a ∈ {[x]} ∪ reached)) with (bool_decide (a ∈ reached))
      by (apply bool_decide_ext; set_solver).
    destruct (bool_decide (a ∈ reached)); simpl; lia.
Qed.

Lemma edges_left_lt edges small large e :
  small ⊆ large → e ∈ edges → e.1 ∈ large → e.1 ∉ small →
  (edges_left edges large < edges_left edges small)%nat.
Proof.
  intros Hsub He Hl Hs. unfold edges_left, count.
  assert (∀ l, (length (List.filter (λ e, negb (bool_decide (e.1 ∈ large))) l)
    ≤ length (List.filter (λ e : string * string, negb (bool_decide (e.1 ∈ small))) l))%nat) as Hle.
  { intros l. induction l as [|a l IH]; simpl; [lia|].
    destruct (bool_decide_reflect (a.1 ∈ large)), (bool_decide_reflect (a.1 ∈ small)); simpl;
      [lia|lia|set_solver|lia]. }
  induction edges as [|a edges IH]; [by apply elem_of_nil in He|]. simpl.
  apply elem_of_cons in He as [->|He].
  - rewrite (bool_decide_eq_true_2 (a.1 ∈ large)), (bool_decide_eq_false_2 (a.1 ∈ small)) by done.
    simpl. specialize (Hle edges). lia.
  - specialize (IH He).
    destruct (bool_decide_reflect (a.1 ∈ large)), (bool_decide_reflect (a.1 ∈ small)); simpl;
      [lia|lia|set_solver|lia].
Qed.

(** Every pop pays for itself: the loop ends within its measure. *)
Lemma worklist_terminates edges fuel reached pending :
  (length pending + edges_left edges reached < fuel)%nat →
  is_Some (worklist edges fuel reached pending).
Proof.
  revert reached pending. induction fuel as [|fuel IH]; intros reached pending Hf; [lia|]. simpl.
  destruct pending as [|x pending]; [by eexists|]. simpl in Hf.
  case_bool_decide as Hx; apply IH; [lia|].
  pose proof (edges_left_expand edges reached x Hx). rewrite length_app, length_rev. lia.
Qed.

(** What the loop keeps: everything reached or pending is reachable, and the
    targets of what was reached are reached or pending. *)
Lemma worklist_spec edges fuel reached pending result start :
  worklist edges fuel reached pending = Some result →
  (∀ x, x ∈ reached ∨ x ∈ pending → rtc (edge_in edges) start x) →
  (∀ x y, x ∈ reached → edge_in edges x y → y ∈ reached ∨ y ∈ pending) →
  reached ⊆ result ∧ (∀ x, x ∈ pending → x ∈ result) ∧
  (∀ x, x ∈ result → rtc (edge_in edges) start x) ∧
  (∀ x y, x ∈ result → edge_in edges x y → y ∈ result).
Proof.
  revert reached pending. induction fuel as [|fuel IH]; intros reached pending; simpl; [done|].
  destruct pending as [|x pending].
  { intros [= <-] Hr Hc. split_and!; [done| |by eauto|].
    - by intros x ?%elem_of_nil.
    - intros x y Hx Hxy. destruct (Hc _ _ Hx Hxy) as [?|?%elem_of_nil]; done. }
  case_bool_decide as Hx; intros Hw Hr Hc.
  - destruct (IH _ _ Hw) as (H1 & H2 & H3 & H4).
    + intros y Hy. apply Hr. set_solver.
    + intros a b Ha Hab. destruct (Hc _ _ Ha Hab); set_solver.
    + split_and!; [done| |done|done]. intros y [->|Hy]%elem_of_cons; [by apply H1|by apply H2].
  - destruct (IH _ _ Hw) as (H1 & H2 & H3 & H4).
    + intros y. rewrite elem_of_union, elem_of_singleton, elem_of_app, elem_of_reverse_list,
        elem_of_edge_targets. intros [[->|?]|[?|?]].
      * apply Hr. set_solver.
      * apply Hr. by left.
      * eapply rtc_r; [|done]. apply Hr. set_solver.
      * apply Hr. set_solver.
    + intros a b Ha Hab. rewrite elem_of_app, elem_of_reverse_list, elem_of_edge_targets.
      apply elem_of_union in Ha as [->%elem_of_singleton|Ha]; [by right; left|].
      destruct (Hc _ _ Ha Hab) as [?|[->|?]%elem_of_cons]; set_solver.
    + split_and!; [set_solver| |done|done].
      intros y [->|Hy]%elem_of_cons; [apply H1; set_solver|apply H2; set_solver].
Qed.

Lemma elem_of_reachable_nodes edges start x :
  x ∈ reachable_nodes edges start ↔ rtc (edge_in edges) start x.
Proof.
  unfold reachable_nodes.
  destruct (worklist_terminates edges (worklist_fuel edges) ∅ [start]) as [result Hw].
  { unfold worklist_fuel. pose proof (edges_left_le edges ∅). cbn [length]. lia. }
  rewrite Hw. simpl.
  destruct (worklist_spec edges _ _ _ _ start Hw) as (_ & Hstart & Hsound & Hclosed).
  - intros y [?| ->%list_elem_of_singleton]; [set_solver|constructor].
  - set_solver.
  - split; [by apply Hsound|]. intros Hr.
    assert (start ∈ result) as Hs by (apply Hstart; by left).
    clear Hw Hstart Hsound. induction Hr as [|a b c Hab _ IH]; [done|]. eauto.
Qed.

(** ** Growing a set backwards along the edges *)

Section pass.
Context (edges : list (string * string)) (set_ : gset string).

(** After the edges [seen] of a pass over [edges] that began with [set_]: the
    set only grew, by nodes with a path into [set_], and growth was recorded
    exactly when a node was added. *)
Definition pass_inv (seen : list (string * string)) (acc : gset string * bool) : Prop :=
  set_ ⊆ acc.1 ∧
  (∀ x, x ∈ acc.1 → ∃ y, y ∈ set_ ∧ rtc (edge_in edges) x y) ∧
  (if acc.2 then ∃ e, e ∈ edges ∧ e.1 ∈ acc.1 ∧ e.1 ∉ set_
   else acc.1 = set_ ∧ ∀ x y, (x, y) ∈ seen → y ∈ set_ → x ∈ set_).

Lemma pass_inv_edge seen e acc :
  e ∈ edges → pass_inv seen acc → pass_inv (seen ++ [e]) (finish_edge acc e).
Proof.
  intros He (Hsub & Hr & Hg). unfold finish_edge.
  destruct (bool_decide (e.2 ∈ acc.1) && negb (bool_decide (e.1 ∈ acc.1))) eqn:E.
  - apply andb_true_iff in E as [E2%bool_decide_eq_true E1%negb_true_iff%bool_decide_eq_false].
    split_and!; cbn [fst snd]; [set_solver| |exists e; split_and!; set_solver].
    intros x [->%elem_of_singleton|Hx]%elem_of_union; [|by apply Hr].
    destruct (Hr _ E2) as (y & Hy & Hp). exists y. split; [done|].
    eapply rtc_l; [|done]. by destruct e.
  - split_and!; [done|done|]. destruct acc as [acc []]; cbn [fst snd] in *; [done|].
    destruct Hg as [-> Hg]. split; [done|].
    intros x y [Hin|Hin%list_elem_of_singleton]%elem_of_app Hy; [by eapply Hg|].
    subst e. simpl in E. rewrite (bool_decide_eq_true_2 (y ∈ set_)) in E by done. simpl in E.
    by apply negb_false_iff, bool_decide_eq_true in E.
Qed.

Lemma pass_inv_edges seen todo acc :
  edges = seen ++ todo → pass_inv seen acc → pass_inv edges (foldl finish_edge acc todo).
Proof.
  revert seen acc. induction todo as [|e todo IH]; intros seen acc He Hi; simpl.
  { by rewrite app_nil_r in He; subst seen. }
  apply (IH (seen ++ [e])); [by rewrite <-app_assoc|].
  apply pass_inv_edge; [|done]. rewrite He. set_solver.
Qed.

Lemma finish_pass_inv : pass_inv edges (finish_pass edges set_).
Proof.
  apply (pass_inv_edges []); [done|]. split_and!; [done| |split; [done|]].
  - intros x Hx. exists x. split; [done|constructor].
  - by intros x y ?%elem_of_nil.
Qed.

End pass.

(** Every growing pass uses up the edges of a source: at most one pass per
    edge grows, and the last one finds nothing to add. *)
Lemma finish_loop_spec edges fuel set_ :
  (edges_left edges set_ < fuel)%nat →
  ∃ result, finish_loop edges fuel set_ = Some result ∧
    ∀ x, x ∈ result ↔ ∃ y, y ∈ set_ ∧ rtc (edge_in edges) x y.
Proof.
  revert set_. induction fuel as [|fuel IH]; intros set_ Hf; [lia|]. simpl.
  destruct (finish_pass_inv edges set_) as (Hsub & Hr & Hg).
  destruct (finish_pass edges set_) as [next grew]. cbn [fst snd] in *. destruct grew.
  - destruct Hg as (e & He & Hnew & Hold). destruct (IH next) as (result & -> & Hres).
    { apply (Nat.lt_le_trans _ (edges_left edges set_)); [|lia].
      by apply (edges_left_lt edges set_ next e). }
    exists result. split; [done|]. intros x. rewrite Hres. split.
    + intros (y & Hy & Hxy). destruct (Hr _ Hy) as (z & Hz & Hyz). exists z.
      split; [done|]. by transitivity y.
    + intros (y & Hy & Hxy). exists y. split; [by apply Hsub|done].
  - destruct Hg as [-> Hclosed]. exists set_. split; [done|]. intros x. split.
    + intros Hx. exists x. split; [done|constructor].
    + intros (y & Hy & Hxy). induction Hxy as [|a b c Hab _ IHp]; [done|]. eauto.
Qed.

Lemma elem_of_nodes_reaching edges targets x :
  x ∈ nodes_reaching edges targets ↔ ∃ y, y ∈ targets ∧ rtc (edge_in edges) x y.
Proof.
  unfold nodes_reaching.
  destruct (finish_loop_spec edges (length edges + 1) targets) as (result & -> & Hres).
  { pose proof (edges_left_le edges targets). lia. }
  apply Hres.
Qed.
