(* ===== verification/Analysis.v ===== *)
(** * Structural analysis and construction of a definition

    made-core/src/entities/ceremony_definition_analysis.rs and its submodules:
    the checks that decide whether a state machine may be constructed, each
    defect as a finding with its severity and place; the constructors of
    ceremony_definition.rs that run them, and the draft of
    ceremony_definition_draft.rs that reports all of them at once. *)

From S2P Require Import Prelude Errors Text Values Steps Definitions Graph.

(** ** Findings *)

Inductive CeremonyValidationSeverity := SeverityError | SeverityWarning.

Record CeremonyValidationFinding := MkFinding {
  finding_severity : CeremonyValidationSeverity;
  finding_locus : CeremonyValidationLocus;
  finding_defect : DomainError;
}.

Definition finding_error (locus : CeremonyValidationLocus) (defect : DomainError)
    : CeremonyValidationFinding := MkFinding SeverityError locus defect.
Definition finding_warning (locus : CeremonyValidationLocus) (defect : DomainError)
    : CeremonyValidationFinding := MkFinding SeverityWarning locus defect.

Definition is_blocking (f : CeremonyValidationFinding) : bool :=
  match finding_severity f with SeverityError => true | SeverityWarning => false end.

Record CeremonyValidationReport := MkReport { findings : list CeremonyValidationFinding }.

Definition report_errors (r : CeremonyValidationReport) : list CeremonyValidationFinding :=
  List.filter is_blocking (findings r).
Definition report_warnings (r : CeremonyValidationReport) : list CeremonyValidationFinding :=
  List.filter (λ f, negb (is_blocking f)) (findings r).
Definition first_error (r : CeremonyValidationReport) : option CeremonyValidationFinding :=
  List.find is_blocking (findings r).
Definition report_is_valid (r : CeremonyValidationReport) : bool := negb (is_some (first_error r)).

(** Push one finding when a condition holds. *)
Definition push_if (b : bool) (f : CeremonyValidationFinding) : list CeremonyValidationFinding :=
  if b then [f] else [].

(** ** The parts of a state machine *)

Record CeremonyDefinitionParts := MkParts {
  parts_states : gmap string CeremonyState;
  parts_transitions : list CeremonyTransition;
  parts_steps : gmap string CeremonyStep;
  parts_step_order : list StepId;
  parts_guards : gmap string CeremonyGuard;
  parts_roles : gmap string CeremonyRole;
  parts_max_transitions : option Z;
  parts_max_bounces : option Z;
}.

(** The order [BTreeSet<RoleAction>] iterates in: the derived [Ord] compares
    the variant first, then its name. *)
Definition action_rank (a : RoleAction) : nat * string :=
  match a with
  | ActStep s => (0%nat, s)
  | ActTransition t => (1%nat, t)
  | ActRequestIntervention => (2%nat, "")
  | ActRespondToIntervention => (3%nat, "")
  end.

Definition action_le (a b : RoleAction) : Prop :=
  ((action_rank a).1 < (action_rank b).1)%nat ∨
  ((action_rank a).1 = (action_rank b).1 ∧ String.le (action_rank a).2 (action_rank b).2).

#[export] Instance action_le_dec : RelDecision action_le.
Proof. intros a b. unfold action_le. apply _. Defined.

Definition actions_in_order (r : CeremonyRole) : list RoleAction :=
  merge_sort action_le (elements (role_allowed_actions r)).

(** An edge of the graph, forwards and backwards. *)
Definition edge_of (t : CeremonyTransition) : string * string := (tr_from t, tr_to t).
Definition back_edge_of (t : CeremonyTransition) : string * string := (tr_to t, tr_from t).

(** ** Cycles (cycles.rs) *)

Definition reachable_from (initial : StateId) (ts : list CeremonyTransition) : gset string :=
  reachable_nodes (edge_of <$> ts) initial.

Definition component_of (id : StateId) (ts : list CeremonyTransition) : gset string :=
  filter (λ candidate, id ∈ reachable_from candidate ts) (reachable_from id ts).

Definition component_is_cyclic (id : StateId) (component : gset string)
    (ts : list CeremonyTransition) : bool :=
  (1 <? size component)%nat ||
  ((size component =? 1)%nat && any (λ t, (tr_from t == id) && (tr_to t == id)) ts).

Definition component_step (ts : list CeremonyTransition) (acc : gset string * list (gset string))
    (id : StateId) : gset string * list (gset string) :=
  if bool_decide (id ∈ acc.1) then acc
  else
    let component := component_of id ts in
    (acc.1 ∪ component,
     if component_is_cyclic id component ts then acc.2 ++ [component] else acc.2).

Definition cyclic_components (states : gmap string CeremonyState) (ts : list CeremonyTransition)
    : list (gset string) :=
  (foldl (component_step ts) (∅, []) (btree_keys states)).2.

Section analysis.
Context (p : CeremonyDefinitionParts).

Definition guards_of (t : CeremonyTransition) : list GuardName :=
  btree_elements (tr_required_guards t).

Definition requires_guard_such_that (t : CeremonyTransition) (f : GuardCondition → bool) : bool :=
  any (λ name, is_some_and (parts_guards p !! name) (λ g, f (guard_condition g))) (guards_of t).

(** The guards a transition names that are declared, in name order. *)
Definition required_guards_declared (t : CeremonyTransition) : list CeremonyGuard :=
  omap (λ name, parts_guards p !! name) (guards_of t).

(** ** Walks (reachability.rs, global_completion.rs) *)

Definition sole_initial_state_id : option StateId :=
  match List.filter (λ e, state_is_initial e.2) (btree_entries (parts_states p)) with
  | [(id, _)] => Some id
  | _ => None
  end.

Definition transition_endpoints_resolve : bool :=
  all (λ t, is_some (parts_states p !! tr_from t) && is_some (parts_states p !! tr_to t))
    (parts_transitions p).

Definition transition_guards_resolve : bool :=
  all (λ t, all (λ name, is_some (parts_guards p !! name)) (guards_of t)) (parts_transitions p).

Definition states_reachable_from (initial : StateId) : gset string :=
  reachable_nodes (edge_of <$> parts_transitions p) initial.

Definition states_that_reach_a_terminal : gset string :=
  nodes_reaching (edge_of <$> parts_transitions p)
    (list_to_set (List.filter (λ e, state_is_terminal e.2) (btree_entries (parts_states p))).*1).

Definition is_all_steps_completed (c : GuardCondition) : bool :=
  match c with AllStepsCompleted => true | _ => false end.

Definition requires_global_completion (t : CeremonyTransition) : bool :=
  requires_guard_such_that t is_all_steps_completed.

Definition states_leading_to (destination : StateId) : gset string :=
  reachable_nodes (back_edge_of <$> parts_transitions p) destination.

Definition states_before_global_completion (initial : StateId) : gset string :=
  reachable_nodes
    (edge_of <$> List.filter (λ t, negb (requires_global_completion t)) (parts_transitions p))
    initial.

(** ** The checks, in the order they run *)

Definition collect_initial_state_findings : list CeremonyValidationFinding :=
  if (size (parts_states p) =? 0)%nat
  then [finding_error LocusDefinition (EmptyCollection "ceremony_definition.states")]
  else push_if (negb (count state_is_initial (btree_values (parts_states p)) =? 1)%nat)
    (finding_error LocusDefinition
       (InvariantViolated "ceremony definition must have exactly one initial state")).

Definition transition_locus (t : CeremonyTransition) : CeremonyValidationLocus :=
  LocusTransition (tr_from t) (tr_trigger t).

Definition transition_guard_findings (t : CeremonyTransition) (name : GuardName)
    : list CeremonyValidationFinding :=
  match parts_guards p !! name with
  | None => [finding_error (transition_locus t) (NotFound "ceremony_transition.guard")]
  | Some guard =>
      match guard_condition guard with
      | StepRepeatExhausted step_id =>
          match parts_steps p !! step_id with
          | None => []
          | Some step => push_if (step_state_id step != tr_from t)
              (finding_error (transition_locus t) (InvariantViolated
                "exhausted-repeat guard must reference a step in the transition source state"))
          end
      | _ => []
      end
  end.

Fixpoint transition_findings (pairs : gset (string * string)) (ts : list CeremonyTransition)
    : list CeremonyValidationFinding :=
  match ts with
  | [] => []
  | t :: ts =>
      match parts_states p !! tr_from t with
      | None =>
          finding_error (transition_locus t) (NotFound "ceremony_transition.from_state")
            :: transition_findings pairs ts
      | Some from =>
          if negb (is_some (parts_states p !! tr_to t)) then
            finding_error (transition_locus t) (NotFound "ceremony_transition.to_state")
              :: transition_findings pairs ts
          else if state_is_terminal from then
            finding_error (transition_locus t)
              (InvariantViolated "terminal ceremony states cannot have outgoing transitions")
              :: transition_findings pairs ts
          else if bool_decide ((tr_from t, tr_trigger t) ∈ pairs) then
            finding_error (transition_locus t) (AlreadyExists "ceremony_transition.state_trigger")
              :: transition_findings pairs ts
          else
            flat_map (transition_guard_findings t) (guards_of t)
              ++ transition_findings ({[(tr_from t, tr_trigger t)]} ∪ pairs) ts
      end
  end.

Definition collect_transition_graph_findings : list CeremonyValidationFinding :=
  transition_findings ∅ (parts_transitions p).

Definition names_human_approval (c : GuardCondition) : bool :=
  match c with HumanApproval => true | _ => false end.

Definition component_has_human_control (component : gset string) : bool :=
  any (λ t, bool_decide (tr_from t ∈ component) && requires_guard_such_that t names_human_approval)
    (parts_transitions p).

(** [component.first().expect(..)]: a component holds the state it was built
    from, so the warning always has a place. *)
Definition component_warning (component : gset string) : list CeremonyValidationFinding :=
  if component_has_human_control component then []
  else match btree_elements component with
       | [] => []
       | first :: _ => [finding_warning (LocusState first)
           (InvariantViolated "cyclic ceremony component has no human-controlled state")]
       end.

Definition collect_cycle_findings : list CeremonyValidationFinding :=
  if negb transition_endpoints_resolve then [] else
  match cyclic_components (parts_states p) (parts_transitions p) with
  | [] => []
  | components =>
      push_if (negb (is_some (parts_max_transitions p)) && negb (is_some (parts_max_bounces p)))
        (finding_error LocusDefinition (InvariantViolated
          "cyclic ceremony definition requires max_transitions or max_bounces"))
      ++ (if negb transition_guards_resolve then [] else flat_map component_warning components)
  end.

Definition dynamic_role_findings (id : StepId) (role : RoleId) : list CeremonyValidationFinding :=
  match parts_roles p !! role with
  | None => [finding_error (LocusStep id) (NotFound "ceremony_step.dynamic_role")]
  | Some r => push_if (negb (role_allows_action r (ActStep id)))
      (finding_error (LocusStep id)
         (InvariantViolated "dynamic role must be authorised for the ceremony step"))
  end.

Definition step_findings (id : StepId) (step : CeremonyStep) : list CeremonyValidationFinding :=
  match parts_states p !! step_state_id step with
  | None => [finding_error (LocusStep id) (NotFound "ceremony_step.state")]
  | Some state =>
      push_if (state_is_terminal state) (finding_error (LocusStep id)
        (InvariantViolated "terminal ceremony states cannot own executable steps"))
      ++ push_if (is_some (step_spawn step) && is_some (step_repeat_policy step))
        (finding_error (LocusStep id)
           (InvariantViolated "child-spawning ceremony steps cannot repeat"))
      ++ push_if (is_some (step_spawn step) && is_some (step_aggregation step))
        (finding_error (LocusStep id) (InvariantViolated
          "a ceremony step cannot both spawn children and aggregate a prior state"))
      ++ match step_dynamic_role_binding step with
         | None => []
         | Some binding =>
             push_if (size (drb_allowed_roles binding) =? 0)%nat
               (finding_error (LocusStep id)
                  (EmptyCollection "dynamic_role_binding.allowed_roles"))
             ++ flat_map (dynamic_role_findings id) (btree_elements (drb_allowed_roles binding))
         end
  end.

Definition collect_step_findings : list CeremonyValidationFinding :=
  flat_map (λ e, step_findings e.1 e.2) (btree_entries (parts_steps p)).

(** ** Aggregating steps (aggregation.rs) *)

Definition is_success_of (id : StepId) (g : CeremonyGuard) : bool :=
  match guard_condition g with
  | StepStatusIs step_id status => (step_id == id) && status_is_success status
  | _ => false
  end.

(** Some guard demands success of each of the steps. *)
Definition every_step_required (required : list CeremonyGuard) (steps : list CeremonyStep) : bool :=
  all (λ s, any (is_success_of (step_id s)) required) steps.

Definition requires_every_sibling (t : CeremonyTransition) (steps : list CeremonyStep) : bool :=
  let required := required_guards_declared t in
  any (λ g, match guard_condition g with
            | StepsCompleted n => n =? Z.of_nat (length steps)
            | _ => false
            end) required
  || every_step_required required steps.

(** The steps indexed under a state, in identifier order. *)
Definition steps_of_state (id : StateId) : list CeremonyStep :=
  List.filter (λ s, step_state_id s == id) (btree_values (parts_steps p)).

Definition aggregation_predecessor_findings (step : CeremonyStep)
    : list CeremonyValidationFinding :=
  let error reason := finding_error (LocusStep (step_id step)) (InvariantViolated reason) in
  match List.filter (λ t, tr_to t == step_state_id step) (parts_transitions p) with
  | [t] =>
      if tr_from t == tr_to t then
        [error "aggregate step predecessor must differ from its destination"]
      else
        match parts_states p !! tr_from t with
        | None => []
        | Some predecessor =>
            if state_execution predecessor != Concurrent then
              [error "aggregate step requires a concurrent predecessor state"]
            else push_if (negb (requires_every_sibling t (steps_of_state (state_id predecessor))))
              (error "aggregate step requires an all-siblings predecessor join")
        end
  | _ => [error "aggregate step requires exactly one predecessor state"]
  end.

Definition aggregation_findings (step : CeremonyStep) : list CeremonyValidationFinding :=
  let error reason := finding_error (LocusStep (step_id step)) (InvariantViolated reason) in
  match parts_states p !! step_state_id step with
  | None => []
  | Some destination =>
      push_if (state_is_initial destination)
        (error "aggregate step cannot belong to the initial state")
      ++ push_if (state_execution destination != Sequential)
        (error "aggregate step destination state must be sequential")
      ++ push_if
        (List.find (λ candidate, is_some_and (parts_steps p !! candidate)
                      (λ c, step_state_id c == step_state_id step)) (parts_step_order p)
         != Some (step_id step))
        (error "aggregate step must be first in its destination state")
      ++ push_if ((step_handler_config step !! "see_prior" ≫= as_bool) != Some true)
        (error "aggregate step requires see_prior: true")
      ++ aggregation_predecessor_findings step
  end.

Definition collect_aggregation_findings : list CeremonyValidationFinding :=
  flat_map aggregation_findings
    (List.filter (λ s, is_some (step_aggregation s)) (btree_values (parts_steps p))).

(** ** Repeating states *)

Definition state_repeat_findings (state : CeremonyState) : list CeremonyValidationFinding :=
  match state_repeat state with
  | None => []
  | Some policy =>
      match parts_steps p !! strp_step_id policy with
      | None => [finding_error (LocusState (state_id state))
                   (NotFound "ceremony_state.repeat.until.step")]
      | Some step => push_if (step_state_id step != state_id state)
          (finding_error (LocusState (state_id state))
             (InvariantViolated "state repeat condition must reference a step in that state"))
      end
  end.

Definition collect_state_repeat_findings : list CeremonyValidationFinding :=
  flat_map state_repeat_findings (btree_values (parts_states p)).

(** ** Guards *)

Definition children_guard_findings (name : GuardName) (step : CeremonyStep) (join : ChildJoin)
    : list CeremonyValidationFinding :=
  match step_spawn step with
  | None => [finding_error (LocusGuard name)
               (InvariantViolated "children_completed guard must reference a child-spawning step")]
  | Some spawn =>
      match join with
      | JoinQuorum n =>
          push_if (Z.of_nat (length (spawn_children spawn)) <? n)
            (finding_error (LocusGuard name)
               (OutOfRange "child_quorum" n 1 (Z.of_nat (length (spawn_children spawn)))))
      | _ => []
      end
  end.

Definition guard_findings (name : GuardName) (guard : CeremonyGuard)
    : list CeremonyValidationFinding :=
  match referenced_step_id (guard_condition guard) with
  | None => []
  | Some id =>
      match parts_steps p !! id with
      | None => [finding_error (LocusGuard name) (NotFound "ceremony_guard.step")]
      | Some step =>
          match guard_condition guard with
          | StepRepeatExhausted _ => push_if (negb (is_some (step_repeat_policy step)))
              (finding_error (LocusGuard name)
                 (InvariantViolated "exhausted-repeat guard must reference a repeating step"))
          | ChildrenCompleted _ join => children_guard_findings name step join
          | _ => []
          end
      end
  end.

Definition collect_guard_findings : list CeremonyValidationFinding :=
  flat_map (λ e, guard_findings e.1 e.2) (btree_entries (parts_guards p)).

(** ** Exhausted state repeats (state_repeat_exhaustion.rs) *)

Definition exhaustion_guard_findings (name : GuardName) (guard : CeremonyGuard)
    : list CeremonyValidationFinding :=
  match guard_condition guard with
  | StateRepeatExhausted id =>
      match parts_states p !! id with
      | None => [finding_error (LocusGuard name) (NotFound "ceremony_guard.state")]
      | Some state => push_if (negb (is_some (state_repeat state)))
          (finding_error (LocusGuard name)
             (InvariantViolated "exhausted-state-repeat guard must reference a repeating state"))
      end
  | _ => []
  end.

Definition exhausts_state (f : StateId → bool) (c : GuardCondition) : bool :=
  match c with StateRepeatExhausted id => f id | _ => false end.

Definition exhaustion_exit_findings (state : CeremonyState) : list CeremonyValidationFinding :=
  push_if (is_some (state_repeat state) &&
    negb (any (λ t, (tr_from t == state_id state) &&
                    requires_guard_such_that t (exhausts_state (λ id, id == state_id state)))
            (parts_transitions p)))
    (finding_warning (LocusState (state_id state)) (InvariantViolated
      "repeating state has no state_repeat_exhausted exit; exhausting its iterations stops the ceremony there")).

Definition exhaustion_source_findings (t : CeremonyTransition) : list CeremonyValidationFinding :=
  push_if (requires_guard_such_that t (exhausts_state (λ id, id != tr_from t)))
    (finding_error (transition_locus t) (InvariantViolated
      "exhausted-state-repeat guard must reference the transition source state")).

Definition collect_exhaustion_findings : list CeremonyValidationFinding :=
  flat_map (λ e, exhaustion_guard_findings e.1 e.2) (btree_entries (parts_guards p))
  ++ flat_map exhaustion_exit_findings (btree_values (parts_states p))
  ++ flat_map exhaustion_source_findings (parts_transitions p).

(** ** Roles *)

Definition action_findings (id : RoleId) (action : RoleAction) : list CeremonyValidationFinding :=
  match action with
  | ActStep step => push_if (negb (is_some (parts_steps p !! step)))
      (finding_error (LocusRole id) (NotFound "ceremony_role.step_action"))
  | ActTransition trigger => push_if (negb (any (λ t, tr_trigger t == trigger) (parts_transitions p)))
      (finding_error (LocusRole id) (NotFound "ceremony_role.transition_action"))
  | _ => []
  end.

Definition collect_role_findings : list CeremonyValidationFinding :=
  flat_map (λ e, flat_map (action_findings e.1) (actions_in_order e.2))
    (btree_entries (parts_roles p)).

(** ** Concurrent states *)

(** The loop over the steps of a concurrent state: the roles that own one
    statically, every role that may run one, and whether an owner came twice. *)
Record Owners := MkOwners {
  static_owners : gset string;
  possible_roles : gset string;
  duplicate_owner : bool;
}.

Definition note_owner (acc : Owners) (step : CeremonyStep) : Owners :=
  match step_dynamic_role_binding step with
  | Some binding =>
      MkOwners (static_owners acc) (possible_roles acc ∪ drb_allowed_roles binding)
        (duplicate_owner acc)
  | None =>
      match List.find (λ r, role_allows_action r (ActStep (step_id step)))
              (btree_values (parts_roles p)) with
      | None => acc
      | Some owner =>
          MkOwners ({[role_id owner]} ∪ static_owners acc) ({[role_id owner]} ∪ possible_roles acc)
            (duplicate_owner acc || bool_decide (role_id owner ∈ static_owners acc))
      end
  end.

Definition owners_of (steps : list CeremonyStep) : Owners :=
  foldl note_owner (MkOwners ∅ ∅ false) steps.

Definition is_join (c : GuardCondition) : bool :=
  match c with AllStepsCompleted | AnyStepCompleted | StepsCompleted _ => true | _ => false end.

Definition transition_has_join (t : CeremonyTransition) (steps : list CeremonyStep) : bool :=
  let required := required_guards_declared t in
  any (λ g, is_join (guard_condition g)) required || every_step_required required steps.

Definition join_count_findings (steps : list CeremonyStep) (name : GuardName)
    : list CeremonyValidationFinding :=
  match parts_guards p !! name with
  | None => []
  | Some guard =>
      match guard_condition guard with
      | StepsCompleted n => push_if (Z.of_nat (length steps) <? n)
          (finding_error (LocusGuard name)
             (OutOfRange "join_step_count" n 1 (Z.of_nat (length steps))))
      | _ => []
      end
  end.

Definition concurrent_state_findings (state : CeremonyState) : list CeremonyValidationFinding :=
  let steps := steps_of_state (state_id state) in
  let owners := owners_of steps in
  let outgoing := List.filter (λ t, tr_from t == state_id state) (parts_transitions p) in
  push_if (duplicate_owner owners)
    (finding_error (LocusState (state_id state))
       (InvariantViolated "concurrent ceremony steps must have distinct role owners"))
  ++ push_if (3 <? size (possible_roles owners))%nat
    (finding_warning (LocusState (state_id state))
       (InvariantViolated "concurrent ceremony state has more than three role owners"))
  ++ push_if (negb (any (λ t, transition_has_join t steps) outgoing))
    (finding_error (LocusState (state_id state))
       (InvariantViolated "concurrent ceremony state requires an outgoing join guard"))
  ++ flat_map (λ t, flat_map (join_count_findings steps) (guards_of t)) outgoing.

Definition collect_concurrent_state_findings : list CeremonyValidationFinding :=
  flat_map concurrent_state_findings
    (List.filter (λ s, state_execution s == Concurrent) (btree_values (parts_states p))).

(** ** Reachability (reachability.rs) *)

Definition reachability_findings (reachable can_finish : gset string) (id : StateId)
    : list CeremonyValidationFinding :=
  if negb (bool_decide (id ∈ reachable)) then
    [finding_warning (LocusState id)
       (InvariantViolated "ceremony state is unreachable from the initial state")]
  else push_if (negb (bool_decide (id ∈ can_finish)))
    (finding_warning (LocusState id)
       (InvariantViolated "no terminal state is reachable from this ceremony state")).

Definition collect_reachability_findings : list CeremonyValidationFinding :=
  match sole_initial_state_id with
  | None => []
  | Some initial =>
      if negb transition_endpoints_resolve then []
      else if negb (any state_is_terminal (btree_values (parts_states p))) then
        [finding_warning LocusDefinition
           (InvariantViolated "ceremony definition has no terminal state")]
      else flat_map
        (reachability_findings (states_reachable_from initial) states_that_reach_a_terminal)
        (btree_keys (parts_states p))
  end.

(** ** Global completion barriers (global_completion.rs) *)

Definition global_completion_findings (before_barrier : gset string) (t : CeremonyTransition)
    : list CeremonyValidationFinding :=
  if negb (bool_decide (tr_from t ∈ before_barrier)) || negb (requires_global_completion t) then []
  else
    let downstream := states_reachable_from (tr_to t) in
    let can_reach_source := states_leading_to (tr_from t) in
    push_if (any (λ s, bool_decide (step_state_id s ∈ downstream) &&
                       negb (bool_decide (step_state_id s ∈ before_barrier) &&
                             bool_decide (step_state_id s ∈ can_reach_source)))
               (btree_values (parts_steps p)))
      (finding_warning (transition_locus t) (InvariantViolated
        "all_steps_completed is global and waits for downstream steps; use explicit source step_status guards or a state-scoped steps_completed join")).

Definition collect_global_completion_findings : list CeremonyValidationFinding :=
  match sole_initial_state_id with
  | None => []
  | Some initial =>
      if negb transition_endpoints_resolve || negb transition_guards_resolve then []
      else flat_map (global_completion_findings (states_before_global_completion initial))
             (parts_transitions p)
  end.

(** ** All of them *)

Definition collect_findings : list CeremonyValidationFinding :=
  collect_initial_state_findings
  ++ collect_transition_graph_findings
  ++ collect_cycle_findings
  ++ collect_step_findings
  ++ collect_aggregation_findings
  ++ collect_state_repeat_findings
  ++ collect_guard_findings
  ++ collect_exhaustion_findings
  ++ collect_role_findings
  ++ collect_concurrent_state_findings
  ++ collect_reachability_findings
  ++ collect_global_completion_findings.

End analysis.

(** ** Construction (ceremony_definition.rs) *)

Definition parts (d : CeremonyDefinition) : CeremonyDefinitionParts :=
  MkParts (def_states d) (def_transitions d) (def_steps d) (def_step_order d) (def_guards d)
    (def_roles d) (def_max_transitions d) (def_max_bounces d).

Definition analyze (d : CeremonyDefinition) : CeremonyValidationReport :=
  MkReport (collect_findings (parts d)).

Definition validate (d : CeremonyDefinition) : outcome unit :=
  match first_error (analyze d) with
  | Some finding => Err (finding_defect finding)
  | None => Ok tt
  end.

Definition CeremonyDefinition_new_with_transition_budgets (name version : string)
    (description : option string) (inputs : list CeremonyInputDefinition) (outputs : list string)
    (states : list CeremonyState) (transitions : list CeremonyTransition)
    (steps : list CeremonyStep) (guards : list CeremonyGuard) (roles : list CeremonyRole)
    (max_transitions max_bounces : option Z) : outcome CeremonyDefinition :=
  inputs ← collect_inputs inputs;
  outputs ← collect_outputs outputs;
  states ← collect_states states;
  indexed ← collect_steps steps;
  guards ← collect_guards guards;
  roles ← collect_roles roles;
  let definition := {|
    def_name := name; def_version := version; def_description := description;
    def_inputs := inputs; def_outputs := outputs; def_states := states;
    def_transitions := transitions; def_steps := indexed.1; def_step_order := indexed.2;
    def_guards := guards; def_roles := roles; def_max_parallel := MaxParallel_DEFAULT;
    def_max_transitions := max_transitions; def_max_bounces := max_bounces;
    def_ceremony_timeout := None; def_state_timeout := None |} in
  validate definition;;
  Ok definition.

Definition CeremonyDefinition_new (name version : string)
    (description : option string) (inputs : list CeremonyInputDefinition) (outputs : list string)
    (states : list CeremonyState) (transitions : list CeremonyTransition)
    (steps : list CeremonyStep) (guards : list CeremonyGuard) (roles : list CeremonyRole)
    : outcome CeremonyDefinition :=
  CeremonyDefinition_new_with_transition_budgets name version description inputs outputs states
    transitions steps guards roles None None.

#[export] Instance CeremonyDefinition_eta : Eta CeremonyDefinition := λ d,
  MkCeremonyDefinition (def_name d) (def_version d) (def_description d) (def_inputs d)
    (def_outputs d) (def_states d) (def_transitions d) (def_steps d) (def_step_order d)
    (def_guards d) (def_roles d) (def_max_parallel d) (def_max_transitions d) (def_max_bounces d)
    (def_ceremony_timeout d) (def_state_timeout d).

Definition with_max_parallel (d : CeremonyDefinition) (n : Z) : CeremonyDefinition :=
  d <| def_max_parallel := n |>.
Definition with_ceremony_timeout (d : CeremonyDefinition) (timeout : Z) : CeremonyDefinition :=
  d <| def_ceremony_timeout := Some timeout |>.
Definition with_state_timeout (d : CeremonyDefinition) (timeout : Z) : CeremonyDefinition :=
  d <| def_state_timeout := Some timeout |>.

(** ** A definition under authoring (ceremony_definition_draft.rs) *)

Record CeremonyDefinitionDraft := MkDraft {
  draft_name : string;
  draft_version : string;
  draft_description : option string;
  draft_inputs : list CeremonyInputDefinition;
  draft_outputs : list string;
  draft_states : list CeremonyState;
  draft_transitions : list CeremonyTransition;
  draft_steps : list CeremonyStep;
  draft_guards : list CeremonyGuard;
  draft_roles : list CeremonyRole;
  draft_max_parallel : Z;
  draft_max_transitions : option Z;
  draft_max_bounces : option Z;
  draft_ceremony_timeout : option Z;
  draft_state_timeout : option Z;
}.

(** Keep the first occurrence of every key, report every later one. *)
Definition index_item {V} (key : V → string) (acc : gmap string V * list string) (item : V)
    : gmap string V * list string :=
  if is_some (acc.1 !! key item) then (acc.1, acc.2 ++ [key item])
  else (<[key item := item]> acc.1, acc.2).

Definition index {V} (key : V → string) (items : list V) : gmap string V * list string :=
  foldl (index_item key) (∅, []) items.

Definition push_duplicates (duplicates : list string) (what : string)
    (locus : string → CeremonyValidationLocus) : list CeremonyValidationFinding :=
  (λ key, finding_error (locus key) (AlreadyExists what)) <$> duplicates.

Section draft.
Context (draft : CeremonyDefinitionDraft).

Definition draft_parts : CeremonyDefinitionParts :=
  MkParts (index state_id (draft_states draft)).1 (draft_transitions draft)
    (index step_id (draft_steps draft)).1 (step_id <$> draft_steps draft)
    (index guard_name (draft_guards draft)).1 (index role_id (draft_roles draft)).1
    (draft_max_transitions draft) (draft_max_bounces draft).

Definition draft_duplicates : list CeremonyValidationFinding :=
  push_duplicates (index input_name (draft_inputs draft)).2 "ceremony_input" LocusInput
  ++ push_duplicates (index (λ name, name) (draft_outputs draft)).2 "ceremony_output" LocusOutput
  ++ push_duplicates (index state_id (draft_states draft)).2 "ceremony_state" LocusState
  ++ push_duplicates (index step_id (draft_steps draft)).2 "ceremony_step" LocusStep
  ++ push_duplicates (index guard_name (draft_guards draft)).2 "ceremony_guard" LocusGuard
  ++ push_duplicates (index role_id (draft_roles draft)).2 "ceremony_role" LocusRole.

Definition draft_analyze : CeremonyValidationReport :=
  MkReport (draft_duplicates ++ collect_findings draft_parts).

Definition publish : outcome CeremonyDefinition :=
  d ← CeremonyDefinition_new_with_transition_budgets (draft_name draft) (draft_version draft)
        (draft_description draft) (draft_inputs draft) (draft_outputs draft) (draft_states draft)
        (draft_transitions draft) (draft_steps draft) (draft_guards draft) (draft_roles draft)
        (draft_max_transitions draft) (draft_max_bounces draft);
  let d := with_max_parallel d (draft_max_parallel draft) in
  let d := match draft_ceremony_timeout draft with
           | Some timeout => with_ceremony_timeout d timeout | None => d end in
  let d := match draft_state_timeout draft with
           | Some timeout => with_state_timeout d timeout | None => d end in
  Ok d.

End draft.
