(* ===== verification/Interventions.v ===== *)
(** * Interventions and reasons

    made-core/src/entities/ceremony_intervention.rs: the questions a session
    holds while it runs, who may answer each, the acknowledgements of the
    hosts they were offered to; and the reasons that link one record of a
    session to another (made-core/src/value_objects/ceremony/ceremony_reason.rs). *)

From S2P Require Import Prelude Errors Text Values Steps Definitions.

(** ** Who a question is put to *)

Record DeliveryRecipient := MkDeliveryRecipient {
  dr_agent_execution_id : string;
  dr_incarnation : string;
  dr_role_id : RoleId;
}.

#[export] Instance DeliveryRecipient_eq_dec : EqDecision DeliveryRecipient.
Proof. solve_decision. Defined.

Definition is_same_incarnation_as (a b : DeliveryRecipient) : bool :=
  (dr_agent_execution_id a == dr_agent_execution_id b) && (dr_incarnation a == dr_incarnation b).

Definition InterventionRoleIds_MAX_ITEMS : nat := 100.
Definition target_role_ids_field : string := "ceremony_intervention.target_role_ids".

(** [InterventionRoleIds::new]. *)
Definition InterventionRoleIds_new (role_ids : list string) : outcome (gset string) :=
  let fix go (role_ids : list string) (roles : gset string) : outcome (gset string) :=
    match role_ids with
    | [] =>
        ensure (negb (size roles =? 0)%nat) (EmptyCollection target_role_ids_field);; Ok roles
    | raw :: role_ids =>
        role ← RoleId_new raw;
        ensure (negb (bool_decide (role ∈ roles)))
          (InvalidDocument ("collection `" +:+ target_role_ids_field +:+
                            "` contains duplicate roles"));;
        let roles := {[role]} ∪ roles in
        ensure (size roles <=? InterventionRoleIds_MAX_ITEMS)%nat
          (OutOfRange target_role_ids_field (Z.of_nat (size roles)) 1
             (Z.of_nat InterventionRoleIds_MAX_ITEMS));;
        go role_ids roles
    end in
  go role_ids ∅.

Inductive CeremonyInterventionTarget :=
| TargetTable
| TargetRoles (role_ids : gset string)
| TargetAgentExecution (recipient : DeliveryRecipient).

#[export] Instance CeremonyInterventionTarget_eq_dec : EqDecision CeremonyInterventionTarget.
Proof. solve_decision. Defined.

Definition target_validate (t : CeremonyInterventionTarget) : outcome unit :=
  match t with
  | TargetTable | TargetAgentExecution _ => Ok tt
  | TargetRoles role_ids => InterventionRoleIds_new (btree_elements role_ids);; Ok tt
  end.

Definition target_accepts (t : CeremonyInterventionTarget) (role : RoleId) : bool :=
  match t with
  | TargetTable => true
  | TargetRoles role_ids => bool_decide (role ∈ role_ids)
  | TargetAgentExecution recipient => dr_role_id recipient == role
  end.

Definition target_admits_recipient (t : CeremonyInterventionTarget) (r : DeliveryRecipient)
    : bool :=
  match t with
  | TargetAgentExecution addressed => is_same_incarnation_as addressed r
  | TargetTable | TargetRoles _ => target_accepts t (dr_role_id r)
  end.

(** ** Contents and answers *)

Record CeremonyInterventionContent := MkCeremonyInterventionContent {
  ic_message : string;
  ic_details : Attributes;
}.

#[export] Instance CeremonyInterventionContent_eq_dec : EqDecision CeremonyInterventionContent.
Proof. solve_decision. Defined.

Definition CeremonyInterventionContent_new (message : string) (details : Attributes)
    : outcome CeremonyInterventionContent :=
  trimmed ← prose_new "ceremony_intervention.message" 16384 message;
  Ok (MkCeremonyInterventionContent trimmed details).

(** Evidence collected from a named source.  The aggregate reads the text of
    the bundle's summary; the rest of the bundle is carried along. *)
Record CeremonyEvidencePack := MkCeremonyEvidencePack {
  ev_source_id : string;
  ev_summary : option string;
  ev_bundle : Value;
  ev_collected_at : Instant;
}.

#[export] Instance CeremonyEvidencePack_eq_dec : EqDecision CeremonyEvidencePack.
Proof. solve_decision. Defined.

(** [serde_json::to_value] on a pack; [None] when it cannot be represented. *)
Class EvidenceSerde := pack_to_value : CeremonyEvidencePack → option Value.

Definition intervention_content `{EvidenceSerde} (pack : CeremonyEvidencePack)
    : outcome CeremonyInterventionContent :=
  summary ← ok_or (ev_summary pack)
    (InvariantViolated "ceremony evidence pack must retain its summary");
  serialized ← ok_or (pack_to_value pack)
    (InvariantViolated "ceremony evidence pack could not be represented as attributes");
  details ← Attributes_new {["evidence_pack" := serialized]};
  CeremonyInterventionContent_new summary details.

Record CeremonyInterventionResponse := MkCeremonyInterventionResponse {
  resp_role_id : RoleId;
  resp_content : CeremonyInterventionContent;
  resp_evidence_pack : option CeremonyEvidencePack;
  resp_responded_at : Instant;
  resp_executor : option DeliveryRecipient;
  resp_delivery_id : option string;
}.

#[export] Instance CeremonyInterventionResponse_eq_dec : EqDecision CeremonyInterventionResponse.
Proof. solve_decision. Defined.

Definition response_new (role : RoleId) (content : CeremonyInterventionContent) (at_ : Instant)
    : CeremonyInterventionResponse :=
  MkCeremonyInterventionResponse role content None at_ None None.

Definition response_answering_delivery (r : CeremonyInterventionResponse)
    (executor : DeliveryRecipient) (delivery_id : string) : CeremonyInterventionResponse :=
  MkCeremonyInterventionResponse (resp_role_id r) (resp_content r) (resp_evidence_pack r)
    (resp_responded_at r) (Some executor) (Some delivery_id).

Definition response_from_evidence `{EvidenceSerde} (role : RoleId) (pack : CeremonyEvidencePack)
    (at_ : Instant) : outcome CeremonyInterventionResponse :=
  content ← intervention_content pack;
  Ok (MkCeremonyInterventionResponse role content (Some pack) at_ None None).

(** ** Delivery acknowledgements *)

Inductive HostDeliveryObservationKind :=
  ObsReceived | ObsRefused | ObsIncapable | ObsBusy | ObsTimeout.

#[export] Instance HostDeliveryObservationKind_eq_dec : EqDecision HostDeliveryObservationKind.
Proof. solve_decision. Defined.

Record HostDeliveryObservation := MkHostDeliveryObservation {
  hdo_kind : HostDeliveryObservationKind;
  hdo_observed_at : Instant;
  hdo_evidence : option string;
  hdo_note : string;
}.

#[export] Instance HostDeliveryObservation_eq_dec : EqDecision HostDeliveryObservation.
Proof. solve_decision. Defined.

Record InterventionDeliveryAck := MkInterventionDeliveryAck {
  ack_delivery_id : string;
  ack_recipient : DeliveryRecipient;
  ack_observation : HostDeliveryObservation;
  ack_acknowledged_at : Instant;
}.

#[export] Instance InterventionDeliveryAck_eq_dec : EqDecision InterventionDeliveryAck.
Proof. solve_decision. Defined.

Definition ack_agrees_with (a b : InterventionDeliveryAck) : bool :=
  (ack_delivery_id a == ack_delivery_id b) && (ack_recipient a == ack_recipient b) &&
  (ack_observation a == ack_observation b).

Inductive HostDeliveryMode := PullLease | Activation.
Inductive FollowReplacement := Stay | Follow.

#[export] Instance HostDeliveryMode_eq_dec : EqDecision HostDeliveryMode.
Proof. solve_decision. Defined.
#[export] Instance FollowReplacement_eq_dec : EqDecision FollowReplacement.
Proof. solve_decision. Defined.

Record HostDeliveryPolicy := MkHostDeliveryPolicy {
  hdp_mode : HostDeliveryMode;
  hdp_lease_duration : Z;
  hdp_ack_timeout : option Z;
  hdp_max_attempts : Z;
  hdp_follow_replacement : FollowReplacement;
}.

#[export] Instance HostDeliveryPolicy_eq_dec : EqDecision HostDeliveryPolicy.
Proof. solve_decision. Defined.

(** ** The intervention *)

Inductive CeremonyInterventionKind := Opinion | Investigation | Action.
Inductive CeremonyInterventionStatus := Open | Closed.
Inductive CeremonyInterventionIntent := Question | Feedback | Constraint | Checkpoint.

#[export] Instance CeremonyInterventionKind_eq_dec : EqDecision CeremonyInterventionKind.
Proof. solve_decision. Defined.
#[export] Instance CeremonyInterventionStatus_eq_dec : EqDecision CeremonyInterventionStatus.
Proof. solve_decision. Defined.
#[export] Instance CeremonyInterventionIntent_eq_dec : EqDecision CeremonyInterventionIntent.
Proof. solve_decision. Defined.

Record CeremonyInterventionProvenance := MkCeremonyInterventionProvenance {
  prov_source_intervention : string;
  prov_source_response_role : RoleId;
  prov_selected_role : RoleId;
}.

#[export] Instance CeremonyInterventionProvenance_eq_dec :
  EqDecision CeremonyInterventionProvenance.
Proof. solve_decision. Defined.

Record SupervisorPrincipal := MkSupervisorPrincipal {
  sup_principal_id : string;
  sup_display : string;
}.

#[export] Instance SupervisorPrincipal_eq_dec : EqDecision SupervisorPrincipal.
Proof. solve_decision. Defined.

(** The seat a supervisor asks under, derived from its own principal. *)
Definition requesting_role (s : SupervisorPrincipal) : outcome RoleId :=
  RoleId_new ("supervisor:" +:+ sup_principal_id s).

Record CeremonyIntervention := MkCeremonyIntervention {
  iv_id : string;
  iv_kind : CeremonyInterventionKind;
  iv_requested_by : RoleId;
  iv_target : CeremonyInterventionTarget;
  iv_request : CeremonyInterventionContent;
  iv_provenance : option CeremonyInterventionProvenance;
  iv_responses : list CeremonyInterventionResponse;
  iv_status : CeremonyInterventionStatus;
  iv_created_at : Instant;
  iv_updated_at : Instant;
  iv_closed_at : option Instant;
  iv_intent : option CeremonyInterventionIntent;
  iv_delivery : option HostDeliveryPolicy;
  iv_supervisor : option SupervisorPrincipal;
  iv_deliveries : list InterventionDeliveryAck;
}.

#[export] Instance CeremonyIntervention_eq_dec : EqDecision CeremonyIntervention.
Proof. solve_decision. Defined.
#[export] Instance CeremonyIntervention_eta : Eta CeremonyIntervention := λ i,
  MkCeremonyIntervention (iv_id i) (iv_kind i) (iv_requested_by i) (iv_target i) (iv_request i)
    (iv_provenance i) (iv_responses i) (iv_status i) (iv_created_at i) (iv_updated_at i)
    (iv_closed_at i) (iv_intent i) (iv_delivery i) (iv_supervisor i) (iv_deliveries i).

Definition open_with_provenance (id : string) (kind : CeremonyInterventionKind)
    (requested_by : RoleId) (target : CeremonyInterventionTarget)
    (request : CeremonyInterventionContent)
    (provenance : option CeremonyInterventionProvenance) (now : Instant)
    : CeremonyIntervention := {|
  iv_id := id; iv_kind := kind; iv_requested_by := requested_by; iv_target := target;
  iv_request := request; iv_provenance := provenance; iv_responses := []; iv_status := Open;
  iv_created_at := now; iv_updated_at := now; iv_closed_at := None; iv_intent := None;
  iv_delivery := None; iv_supervisor := None; iv_deliveries := [];
|}.

Definition iv_is_open (i : CeremonyIntervention) : bool := iv_status i == Open.

Definition delivery_ack (i : CeremonyIntervention) (delivery_id : string)
    : option InterventionDeliveryAck :=
  List.find (λ a, ack_delivery_id a == delivery_id) (iv_deliveries i).

Definition was_acknowledged_by (i : CeremonyIntervention) (r : DeliveryRecipient) : bool :=
  any (λ a, ack_recipient a == r) (iv_deliveries i).

Definition acknowledge_delivery (i : CeremonyIntervention) (ack : InterventionDeliveryAck)
    : outcome CeremonyIntervention :=
  match delivery_ack i (ack_delivery_id ack) with
  | Some existing =>
      if ack_agrees_with existing ack then Ok i
      else Err (Conflict "ceremony_intervention.delivery_acknowledgement")
  | None =>
      Ok (i <| iv_updated_at := ack_acknowledged_at ack |> <| iv_deliveries ::= λ l, l ++ [ack] |>)
  end.

Definition ensure_can_respond (i : CeremonyIntervention) (role : RoleId) : outcome unit :=
  ensure (iv_is_open i)
    (InvariantViolated "closed ceremony interventions cannot receive responses");;
  ensure (target_accepts (iv_target i) role)
    (InvariantViolated "ceremony intervention does not target responding role");;
  ensure (negb (any (λ r, resp_role_id r == role) (iv_responses i)))
    (AlreadyExists "ceremony_intervention.response_role").

Definition accept_response (i : CeremonyIntervention) (r : CeremonyInterventionResponse)
    : outcome CeremonyIntervention :=
  ensure_can_respond i (resp_role_id r);;
  Ok (i <| iv_updated_at := resp_responded_at r |> <| iv_responses ::= λ l, l ++ [r] |>).

Definition close (i : CeremonyIntervention) (role : RoleId) (now : Instant)
    : outcome CeremonyIntervention :=
  ensure (iv_is_open i) (InvariantViolated "ceremony intervention is already closed");;
  ensure (role == iv_requested_by i)
    (InvariantViolated "only the requesting role can close a ceremony intervention");;
  Ok (i <| iv_status := Closed |> <| iv_updated_at := now |> <| iv_closed_at := Some now |>).

(** ** Reasons *)

Inductive CeremonyRecordRef :=
| RefStep (step_id : StepId)
| RefAgendaItem (agenda_item : string)
| RefContribution (agenda_item : string) (ordinal : Z)
| RefGuardDecision (guard_name : GuardName)
| RefTransition (ordinal : Z).

#[export] Instance CeremonyRecordRef_eq_dec : EqDecision CeremonyRecordRef.
Proof. solve_decision. Defined.

Inductive CeremonyReasonKind :=
| Answers | ChosenBecause | Authorizes | AchievedBy | FollowsFrom
| SatisfiesConstraint | ViolatesConstraint | Supersedes | Contradicts.

#[export] Instance CeremonyReasonKind_eq_dec : EqDecision CeremonyReasonKind.
Proof. solve_decision. Defined.

Inductive ReasonAsserter := TheEngine | ItsAuthor | AnySeat.

Definition asserter (k : CeremonyReasonKind) : ReasonAsserter :=
  match k with
  | Answers => TheEngine
  | Authorizes | ChosenBecause | AchievedBy => ItsAuthor
  | FollowsFrom | SatisfiesConstraint | ViolatesConstraint | Supersedes | Contradicts => AnySeat
  end.

Inductive MemoryConfidence := ConfidenceHigh | ConfidenceMedium | ConfidenceLow.

#[export] Instance MemoryConfidence_eq_dec : EqDecision MemoryConfidence.
Proof. solve_decision. Defined.

Record CeremonyReason := MkCeremonyReason {
  reason_from : CeremonyRecordRef;
  reason_to : CeremonyRecordRef;
  reason_kind : CeremonyReasonKind;
  reason_why : string;
  reason_confidence : MemoryConfidence;
  reason_asserted_by : option RoleId;
  reason_asserted_at : Instant;
}.

#[export] Instance CeremonyReason_eq_dec : EqDecision CeremonyReason.
Proof. solve_decision. Defined.

Definition MAX_WHY : Z := 512.

Definition CeremonyReason_new (from to : CeremonyRecordRef) (kind : CeremonyReasonKind)
    (why : string) (confidence : MemoryConfidence) (asserted_by : option RoleId)
    (asserted_at : Instant) : outcome CeremonyReason :=
  ensure (from != to) (InvariantViolated "nothing in a session explains itself");;
  let trimmed := str_trim why in
  ensure (trimmed != "") (EmptyField "ceremony_reason.why");;
  ensure (char_count trimmed <=? MAX_WHY)
    (FieldTooLong "ceremony_reason.why" (char_count trimmed) MAX_WHY);;
  Ok (MkCeremonyReason from to kind trimmed confidence asserted_by asserted_at).
