(* ===== verification/Instance.v ===== *)
(** * The ceremony instance: its state, its commands and its events

    The aggregate of made-core/src/entities/ceremony_instance.rs, the events
    it is folded from (entities/ceremony_events) and the commands it decides
    (entities/ceremony_commands), with the value objects of child spawning,
    succession and execution receipts. *)

From S2P Require Import Prelude Errors Text Values Steps Definitions Interventions.

(** ** Derived identities *)

(** [ExecutionOperationId::for_step]. *)
Definition operation_for_step `{Sha256} (ceremony_id : CeremonyId) (sid : StepId)
    (state_visit state_iteration step_iteration : Z) : string :=
  sha256_hex ("made.execution-operation.v1" +:+ NUL +:+
    frames [ceremony_id; sid; be_bytes 4 (Z.to_N state_visit);
            be_bytes 4 (Z.to_N state_iteration); be_bytes 4 (Z.to_N step_iteration)]).

(** [ExecutionReceiptId::for_operation]. *)
Definition receipt_for_operation `{Sha256} (operation_id : string) : string :=
  sha256_hex ("made.execution-receipt.v1" +:+ NUL +:+ frame operation_id).

(** [BudgetOperationId::for_execution] and [BudgetReservationId::for_operation]. *)
Definition budget_operation_for_execution (operation_id : string) : string := operation_id.
Definition reservation_for_operation `{Sha256} (account operation : string) : string :=
  sha256_hex ("made:budget-reservation:v1" +:+ NUL +:+ account +:+ NUL +:+ operation).

(** ** Children *)

Record ChildSpawnCoordinates := MkChildSpawnCoordinates {
  coord_step_id : StepId;
  coord_state_visit : Z;
  coord_state_iteration : Z;
  coord_step_iteration : Z;
}.

#[export] Instance ChildSpawnCoordinates_eq_dec : EqDecision ChildSpawnCoordinates.
Proof. solve_decision. Defined.

Definition child_group_derive `{Sha256} (parent_id : CeremonyId) (c : ChildSpawnCoordinates)
    : string :=
  sha256_hex ("made.child-group.v1" +:+ NUL +:+
    frames [parent_id; coord_step_id c; decimal (coord_state_visit c);
            decimal (coord_state_iteration c); decimal (coord_step_iteration c)]).

Definition MaxChildDepth_SERVER_MAX : Z := 16.

Definition ChildDepth_FIRST : Z := 1.
Definition ChildDepth_next (d : Z) : outcome Z :=
  if d + 1 <=? u16_max then Ok (d + 1)
  else Err (InvariantViolated "child ceremony depth exhausted").

Definition ChildDepthBudget_new (value : Z) : outcome Z :=
  ensure (value <=? MaxChildDepth_SERVER_MAX)
    (OutOfRange "child_depth_budget" value 0 MaxChildDepth_SERVER_MAX);;
  Ok value.
Definition ChildDepthBudget_for_child (budget local : Z) : outcome Z :=
  let effective := Z.min budget local in
  ensure (negb (effective =? 0))
    (InvariantViolated "child ceremony depth budget is exhausted");;
  ChildDepthBudget_new (effective - 1).

Record CeremonyLineage := MkCeremonyLineage {
  lin_root_id : CeremonyId;
  lin_parent_id : CeremonyId;
  lin_group_id : string;
  lin_position : Z;
  lin_depth : Z;
  lin_remaining_depth : Z;
}.

#[export] Instance CeremonyLineage_eq_dec : EqDecision CeremonyLineage.
Proof. solve_decision. Defined.

(** What earlier sessions decided, as this session was told. *)
Record SessionRecollection := MkSessionRecollection {
  rcl_scope : Value;
  rcl_entries : list Value;
  rcl_whole : bool;
}.

#[export] Instance SessionRecollection_eq_dec : EqDecision SessionRecollection.
Proof. solve_decision. Defined.

Definition recollection_is_empty (r : SessionRecollection) : bool :=
  (length (rcl_entries r) =? 0)%nat.

Record PlannedChild := MkPlannedChild {
  pc_child_id : CeremonyId;
  pc_position : Z;
  pc_ceremony : string;
  pc_version : string;
  pc_digest : string;
  pc_context : CeremonyContext;
  pc_lineage : CeremonyLineage;
  pc_recollection : option SessionRecollection;
  pc_budget_account_id : option string;
  pc_opened_at : Instant;
}.

#[export] Instance PlannedChild_eq_dec : EqDecision PlannedChild.
Proof. solve_decision. Defined.

Record ChildSpawnPlan := MkChildSpawnPlan {
  plan_group_id : string;
  plan_coordinates : ChildSpawnCoordinates;
  plan_active_claim_fence : StepClaimFence;
  plan_children : list PlannedChild;
  plan_max_children : Z;
  plan_max_depth : Z;
}.

#[export] Instance ChildSpawnPlan_eq_dec : EqDecision ChildSpawnPlan.
Proof. solve_decision. Defined.

Record ChildCompletionRef := MkChildCompletionRef {
  cc_group_id : string;
  cc_child_id : CeremonyId;
  cc_terminal_event_id : string;
  cc_terminal_record_hash : string;
}.

#[export] Instance ChildCompletionRef_eq_dec : EqDecision ChildCompletionRef.
Proof. solve_decision. Defined.

Record ChildGroupState := MkChildGroupState {
  cg_plan : ChildSpawnPlan;
  cg_adopted_claim_fence : StepClaimFence;
  cg_completions : gmap string ChildCompletionRef;
}.

#[export] Instance ChildGroupState_eta : Eta ChildGroupState := λ g,
  MkChildGroupState (cg_plan g) (cg_adopted_claim_fence g) (cg_completions g).

Definition child_group_new (plan : ChildSpawnPlan) : ChildGroupState :=
  MkChildGroupState plan (plan_active_claim_fence plan) ∅.
Definition child_group_adopt (g : ChildGroupState) (fence : StepClaimFence) : ChildGroupState :=
  g <| cg_adopted_claim_fence := fence |>.
Definition child_group_accept (g : ChildGroupState) (c : ChildCompletionRef) : ChildGroupState :=
  g <| cg_completions ::= <[cc_child_id c := c]> |>.

(** ** Execution receipts *)

Inductive ExecutionReceiptLinkKind := LinkDirect | LinkAdopted.

#[export] Instance ExecutionReceiptLinkKind_eq_dec : EqDecision ExecutionReceiptLinkKind.
Proof. solve_decision. Defined.

Record ExecutionReceiptLink := MkExecutionReceiptLink {
  link_receipt_id : string;
  link_operation_id : string;
  link_producer_claim_fence : StepClaimFence;
  link_applied_claim_fence : StepClaimFence;
  link_kind : ExecutionReceiptLinkKind;
}.

#[export] Instance ExecutionReceiptLink_eq_dec : EqDecision ExecutionReceiptLink.
Proof. solve_decision. Defined.

Definition link_validate `{Sha256} (l : ExecutionReceiptLink) : outcome unit :=
  ensure (link_receipt_id l == receipt_for_operation (link_operation_id l))
    (InvariantViolated "execution receipt link id does not match its operation");;
  let same := link_producer_claim_fence l == link_applied_claim_fence l in
  ensure (Bool.eqb same (link_kind l == LinkDirect))
    (InvariantViolated "execution receipt link kind does not match its claim fences").

(** ** Succession *)

Inductive CeremonyDefinitionDigestScheme := MadeV1 | ChoreographerV1.

Record DefinitionPin := MkDefinitionPin {
  pin_name : string; pin_version : string; pin_digest : string;
}.

#[export] Instance DefinitionPin_eq_dec : EqDecision DefinitionPin.
Proof. solve_decision. Defined.

Record PublishedCeremonyDefinition := MkPublishedCeremonyDefinition {
  pub_definition : CeremonyDefinition;
  pub_digest : string;
  pub_scheme : CeremonyDefinitionDigestScheme;
}.

Record CarriedEvidence := MkCarriedEvidence {
  carried_successor_step_id : StepId;
  carried_source : SourceRecordRef;
  carried_output : StepOutput;
}.

#[export] Instance CarriedEvidence_eq_dec : EqDecision CarriedEvidence.
Proof. solve_decision. Defined.

Inductive ClaimDispositionKind :=
| AbandonNoExternalEffect
| AbandonEffectReconciled (evidence : string)
| CarryReceipt (receipt_id : string)
| RetryInSuccessor.

#[export] Instance ClaimDispositionKind_eq_dec : EqDecision ClaimDispositionKind.
Proof. solve_decision. Defined.

Record ClaimDisposition := MkClaimDisposition {
  disp_step_id : StepId;
  disp_claim_fence : StepClaimFence;
  disp_kind : ClaimDispositionKind;
}.

#[export] Instance ClaimDisposition_eq_dec : EqDecision ClaimDisposition.
Proof. solve_decision. Defined.

Inductive BudgetDisposition := BudgetFresh | TransferRemaining.

#[export] Instance BudgetDisposition_eq_dec : EqDecision BudgetDisposition.
Proof. solve_decision. Defined.

Record SuccessionPlan := MkSuccessionPlan {
  sp_plan_id : string;
  sp_successor_id : CeremonyId;
  sp_successor_definition : DefinitionPin;
  sp_carried : list CarriedEvidence;
  sp_dispositions : list ClaimDisposition;
  sp_budget : BudgetDisposition;
  sp_planned_by : string;
  sp_planned_at : Instant;
}.

#[export] Instance SuccessionPlan_eq_dec : EqDecision SuccessionPlan.
Proof. solve_decision. Defined.

Definition disposition_for (p : SuccessionPlan) (id : StepId) : option ClaimDisposition :=
  List.find (λ x, disp_step_id x == id) (sp_dispositions p).

Record CeremonySuccession := MkCeremonySuccession {
  succ_predecessor_id : CeremonyId;
  succ_predecessor_head : string;
  succ_predecessor_version : Z;
  succ_predecessor_definition : DefinitionPin;
  succ_successor_definition : DefinitionPin;
  succ_plan_id : string;
}.

(** The first sixteen hex digits of the digest, appended to the predecessor. *)
Definition successor_derive `{Sha256} (predecessor : CeremonyId) (plan_id : string)
    : outcome CeremonyId :=
  let digest := sha256_hex ("made.ceremony-successor.v1" +:+ NUL +:+
                            frames [predecessor; plan_id]) in
  CeremonyId_new (predecessor +:+ ".s." +:+ String.substring 0 16 digest).

Inductive CeremonyChangeImpact := Carries | Strands.
Inductive CeremonyChangeKind := ChangeAdded | ChangeRemoved | ChangeAltered.

#[export] Instance CeremonyChangeImpact_eq_dec : EqDecision CeremonyChangeImpact.
Proof. solve_decision. Defined.

Record CeremonyDefinitionChange := MkCeremonyDefinitionChange {
  chg_kind : CeremonyChangeKind;
  chg_locus : CeremonyValidationLocus;
  chg_impact : CeremonyChangeImpact;
  chg_detail : string;
}.

(** ** Decisions, bindings and moves a session keeps *)

Inductive AuditActorKind := ActorHuman | ActorAgent | ActorService | ActorEngine.

#[export] Instance AuditActorKind_eq_dec : EqDecision AuditActorKind.
Proof. solve_decision. Defined.

Record CeremonyGuardApproval := MkCeremonyGuardApproval {
  appr_guard_name : GuardName;
  appr_approved_by : RoleId;
  appr_approved_by_kind : AuditActorKind;
  appr_approved_at : Instant;
}.

Record CeremonyGuardDeferralContent := MkCeremonyGuardDeferralContent {
  dfc_statement : string;
  dfc_reason : string;
  dfc_reconsider_when : list string;
}.

Record CeremonyGuardDeferral := MkCeremonyGuardDeferral {
  dfr_guard_name : GuardName;
  dfr_deferred_by : RoleId;
  dfr_deferred_by_kind : AuditActorKind;
  dfr_content : CeremonyGuardDeferralContent;
  dfr_deferred_at : Instant;
}.

Definition reconsider_field : string := "ceremony_guard_deferral.reconsider_when".

(** [ReconsiderationConditions::new]. *)
Definition ReconsiderationConditions_new (conditions : list string) : outcome (list string) :=
  ensure (negb (length conditions =? 0)%nat) (EmptyCollection reconsider_field);;
  ensure (length conditions <=? 100)%nat
    (OutOfRange reconsider_field (Z.of_nat (length conditions)) 1 100);;
  let fix go (conditions : list string) (seen : gset string) : outcome (list string) :=
    match conditions with
    | [] => Ok []
    | condition :: conditions =>
        trimmed ← prose_new reconsider_field 1024 condition;
        ensure (negb (bool_decide (trimmed ∈ seen)))
          (InvalidDocument ("collection `" +:+ reconsider_field +:+
                            "` contains duplicate conditions"));;
        rest ← go conditions ({[trimmed]} ∪ seen);
        Ok (trimmed :: rest)
    end in
  go conditions ∅.

Record CeremonyParticipantBinding := MkCeremonyParticipantBinding {
  pb_role_id : RoleId;
  pb_specialty : string;
  pb_bound_at : Instant;
}.

Record CeremonyTransitionRecord := MkCeremonyTransitionRecord {
  trec_trigger : string;
  trec_from_state : StateId;
  trec_state_iteration : option Z;
  trec_state_visit : option Z;
  trec_to_state : StateId;
  trec_applied_by : option RoleId;
  trec_applied_at : Instant;
}.

Record StepLeaseRenewalRequest := MkStepLeaseRenewalRequest {
  renewal_id : string;
  renewal_ttl : Z;
}.

#[export] Instance StepLeaseRenewalRequest_eq_dec : EqDecision StepLeaseRenewalRequest.
Proof. solve_decision. Defined.

Inductive HostWorkState := HandoffRequested | HandoffAcknowledged | Quiesced | Lost.

#[export] Instance HostWorkState_eq_dec : EqDecision HostWorkState.
Proof. solve_decision. Defined.

Record HostHandoffDeclaration := MkHostHandoffDeclaration {
  hh_id : string;
  hh_step_id : StepId;
  hh_claim_fence : StepClaimFence;
  hh_owner : string;
  hh_incarnation : string;
  hh_state : HostWorkState;
  hh_observed_at : Instant;
  hh_evidence : string;
}.

#[export] Instance HostHandoffDeclaration_eq_dec : EqDecision HostHandoffDeclaration.
Proof. solve_decision. Defined.

Definition handoff_field_validate (field value : string) (max : Z) : outcome unit :=
  ensure (str_trim value != "") (EmptyField field);;
  ensure (char_count value <=? max) (FieldTooLong field (char_count value) max);;
  ensure (negb (str_has_control value)) (InvalidCharacters field).

Definition handoff_validate (h : HostHandoffDeclaration) : outcome unit :=
  handoff_field_validate "host_handoff.id" (hh_id h) 256;;
  handoff_field_validate "host_handoff.owner" (hh_owner h) 256;;
  handoff_field_validate "host_handoff.evidence" (hh_evidence h) 2048.

(** ** Events (entities/ceremony_events) *)

Record StepLeaseRenewed := MkStepLeaseRenewed {
  slr_request : option StepLeaseRenewalRequest;
  slr_step_id : StepId;
  slr_claim_fence : StepClaimFence;
  slr_lease_owner_id : string;
  slr_previous_expires_at : Instant;
  slr_expires_at : Instant;
  slr_renewed_at : Instant;
}.

#[export] Instance StepLeaseRenewed_eq_dec : EqDecision StepLeaseRenewed.
Proof. solve_decision. Defined.

Record HostHandoffRecorded := MkHostHandoffRecorded {
  hhr_declaration : HostHandoffDeclaration;
  hhr_recorded_at : Instant;
}.

Record CeremonyInstanceStarted := MkCeremonyInstanceStarted {
  cis_ceremony_id : CeremonyId;
  cis_definition_name : string;
  cis_definition_version : string;
  cis_initial_state : StateId;
  cis_step_ids : gset string;
  cis_context : CeremonyContext;
  cis_bound_definition : option string;
  cis_lineage : option CeremonyLineage;
  cis_succession : option CeremonySuccession;
  cis_budget_account_id : option string;
  cis_ceremony_deadline : option Instant;
  cis_state_deadline : option StateDeadline;
  cis_created_at : Instant;
}.

#[export] Instance CeremonyInstanceStarted_eta : Eta CeremonyInstanceStarted := λ e,
  MkCeremonyInstanceStarted (cis_ceremony_id e) (cis_definition_name e)
    (cis_definition_version e) (cis_initial_state e) (cis_step_ids e) (cis_context e)
    (cis_bound_definition e) (cis_lineage e) (cis_succession e) (cis_budget_account_id e)
    (cis_ceremony_deadline e) (cis_state_deadline e) (cis_created_at e).

Record StepStarted := MkStepStarted {
  ss_step_id : StepId;
  ss_state_visit : option Z;
  ss_state_iteration : option Z;
  ss_iteration : Z;
  ss_attempt : Z;
  ss_lease : StepLease;
  ss_started_by : RoleId;
  ss_role_from : option string;
  ss_sealed_role : option RoleId;
  ss_deadline : option StepDeadline;
  ss_budget_reservation_id : option string;
  ss_started_at : Instant;
}.

#[export] Instance StepStarted_eta : Eta StepStarted := λ e,
  MkStepStarted (ss_step_id e) (ss_state_visit e) (ss_state_iteration e) (ss_iteration e)
    (ss_attempt e) (ss_lease e) (ss_started_by e) (ss_role_from e) (ss_sealed_role e)
    (ss_deadline e) (ss_budget_reservation_id e) (ss_started_at e).

(** The role an accepted claim is sealed to, when the event seals one. *)
Definition started_claimed_role (e : StepStarted) : option RoleId :=
  match ss_role_from e with
  | Some _ => Some (ss_started_by e)
  | None => ss_sealed_role e
  end.

(** [StepStarted::claim_fence]: the fence rebuilt from the event alone. *)
Definition started_claim_fence `{Sha256} (e : StepStarted) (ceremony_id : CeremonyId)
    : outcome StepClaimFence :=
  let record :=
    record_with_started
      (record_with_state_visit
         (record_pending_coordinates
            (default StateIteration_FIRST (ss_state_iteration e)) (ss_iteration e))
         (default StateVisit_FIRST (ss_state_visit e)))
      (ss_lease e) (ss_attempt e) (started_claimed_role e) in
  fence_for_record ceremony_id (ss_step_id e) record.

Record StepCompleted := MkStepCompleted {
  sc_step_id : StepId;
  sc_state_visit : option Z;
  sc_state_iteration : option Z;
  sc_iteration : Z;
  sc_attempt : Z;
  sc_result : StepResult;
  sc_next_iteration : option Z;
  sc_finished_by : RoleId;
  sc_finished_at : Instant;
}.

Record StepFailed := MkStepFailed {
  sf_step_id : StepId;
  sf_state_visit : option Z;
  sf_state_iteration : option Z;
  sf_iteration : Z;
  sf_attempt : Z;
  sf_result : StepResult;
  sf_finished_by : RoleId;
  sf_finished_at : Instant;
}.

Record ContextWritten := MkContextWritten {
  cw_step_id : StepId;
  cw_state_visit : option Z;
  cw_state_iteration : Z;
  cw_iteration : Z;
  cw_attempt : Z;
  cw_patch : ContextPatch;
  cw_written_at : Instant;
}.

Record StateIterationStarted := MkStateIterationStarted {
  sis_state_id : StateId;
  sis_state_visit : option Z;
  sis_state_iteration : Z;
  sis_step_ids : list StepId;
  sis_started_at : Instant;
}.

Record StateVisitEntry := MkStateVisitEntry {
  sve_state_visit : Z;
  sve_step_ids : list StepId;
  sve_deadline : option StateDeadline;
}.

Record TransitionApplied := MkTransitionApplied {
  ta_transition : CeremonyTransitionRecord;
  ta_destination : option StateVisitEntry;
}.

Record EvidenceCollected := MkEvidenceCollected {
  ec_intervention_id : string;
  ec_source_id : string;
  ec_collected_by : RoleId;
  ec_evidence_pack : CeremonyEvidencePack;
  ec_collected_at : Instant;
}.

(** ** The instance *)

Record CeremonyInstance := MkCeremonyInstance {
  lease_renewals : gmap string StepLeaseRenewed;
  host_handoffs : gmap string HostHandoffRecorded;
  instance_id : CeremonyId;
  definition_name : string;
  definition_version : string;
  current_state : StateId;
  current_state_iteration : Z;
  current_state_visit : Z;
  step_records : gmap string StepExecutionRecord;
  step_record_history : gmap string (list StepExecutionRecord);
  interventions : list CeremonyIntervention;
  guard_deferrals : list CeremonyGuardDeferral;
  guard_approvals : list CeremonyGuardApproval;
  transitions : list CeremonyTransitionRecord;
  reasons : list CeremonyReason;
  participant_bindings : gmap string CeremonyParticipantBinding;
  context : CeremonyContext;
  recollection : option SessionRecollection;
  idempotency_keys : gset string;
  created_at : Instant;
  updated_at : Instant;
  completed_at : option Instant;
  bound_definition : option string;
  lineage : option CeremonyLineage;
  budget_account_id : option string;
  child_groups : gmap string ChildGroupState;
  lifecycle_field : CeremonyLifecycle;
  ceremony_deadline : option Instant;
  state_deadline : option StateDeadline;
  step_deadlines : gmap string StepDeadline;
  retired_deadline_claims : gmap string StepDeadline;
  late_step_results : gmap string LateStepResult;
  execution_receipt_links : gmap string ExecutionReceiptLink;
  execution_receipt_adoptions : gmap string (gmap string ExecutionReceiptLink);
  succession : option CeremonySuccession;
  successor_plan : option SuccessionPlan;
}.

#[export] Instance CeremonyInstance_eta : Eta CeremonyInstance := λ i,
  MkCeremonyInstance (lease_renewals i) (host_handoffs i) (instance_id i) (definition_name i)
    (definition_version i) (current_state i) (current_state_iteration i)
    (current_state_visit i) (step_records i) (step_record_history i) (interventions i)
    (guard_deferrals i) (guard_approvals i) (transitions i) (reasons i)
    (participant_bindings i) (context i) (recollection i) (idempotency_keys i)
    (created_at i) (updated_at i) (completed_at i) (bound_definition i) (lineage i)
    (budget_account_id i) (child_groups i) (lifecycle_field i) (ceremony_deadline i)
    (state_deadline i) (step_deadlines i) (retired_deadline_claims i) (late_step_results i)
    (execution_receipt_links i) (execution_receipt_adoptions i) (succession i)
    (successor_plan i).

Record InstanceImported := MkInstanceImported {
  imp_ceremony_id : CeremonyId;
  imp_definition_name : string;
  imp_definition_version : string;
  imp_snapshot : CeremonyInstance;
  imp_legacy_journal_head_hash : option string;
  imp_legacy_revision : Z;
  imp_imported_at : Instant;
}.

Inductive CeremonyEvent :=
| EvHostHandoffRecorded (e : HostHandoffRecorded)
| EvCeremonyInstanceStarted (e : CeremonyInstanceStarted)
| EvParticipantsBound (bindings : list CeremonyParticipantBinding)
| EvStepStarted (e : StepStarted)
| EvStepLeaseRenewed (e : StepLeaseRenewed)
| EvStepCompleted (e : StepCompleted)
| EvStepFailed (e : StepFailed)
| EvContextWritten (e : ContextWritten)
| EvStateIterationStarted (e : StateIterationStarted)
| EvTransitionApplied (e : TransitionApplied)
| EvInterventionRequested (intervention : CeremonyIntervention)
| EvInterventionResponded (intervention_id : string) (response : CeremonyInterventionResponse)
| EvInterventionClosed (intervention_id : string) (closed_by : RoleId) (closed_at : Instant)
| EvInterventionDeliveryAcknowledged (intervention_id : string) (ack : InterventionDeliveryAck)
| EvEvidenceCollected (e : EvidenceCollected)
| EvReasonAsserted (reason : CeremonyReason)
| EvHumanApprovalRecorded (approval : CeremonyGuardApproval)
| EvHumanDeferralRecorded (deferral : CeremonyGuardDeferral)
| EvCeremonyCompleted (final_state : StateId) (completed_at : Instant)
| EvInstanceImported (e : InstanceImported)
| EvMemoryRecalled (recollection : SessionRecollection) (recalled_at : Instant)
| EvChildSpawnPlanned (plan : ChildSpawnPlan) (planned_at : Instant)
| EvChildSpawnPlanAdopted (group_id : string) (claim_fence : StepClaimFence) (adopted_at : Instant)
| EvChildCompletionAccepted (completion : ChildCompletionRef) (accepted_at : Instant)
| EvCeremonyPaused (reason : string) (paused_at : Instant)
| EvCeremonyResumed (resumed_at : Instant)
| EvCeremonyCancelled (reason : string) (cancelled_at : Instant)
| EvCeremonyDeadlineExceeded (deadline observed_at : Instant)
| EvStateDeadlineExceeded (deadline : StateDeadline) (observed_at : Instant)
| EvStepDeadlineExceeded (deadline : StepDeadline) (result : StepResult) (observed_at : Instant)
| EvLateStepResultObserved (result : LateStepResult) (observed_at : Instant)
| EvExecutionReceiptLinked (step_id : StepId) (link : ExecutionReceiptLink) (linked_at : Instant)
| EvSuccessorPlanned (plan : SuccessionPlan)
| EvSuccessionCarried (carried : list CarriedEvidence) (carried_at : Instant).

(** ** Commands (entities/ceremony_commands) *)

Record StartStep := MkStartStep {
  cmd_start_role_id : option RoleId;
  cmd_start_step_id : StepId;
  cmd_start_lease : StepLease;
  cmd_start_now : Instant;
  cmd_start_max_parallel_ceiling : Z;
  cmd_start_budget_reservation_id : option string;
}.

Record RenewStepLease := MkRenewStepLease {
  cmd_renew_request : option StepLeaseRenewalRequest;
  cmd_renew_step_id : StepId;
  cmd_renew_claim_fence : StepClaimFence;
  cmd_renew_lease_owner_id : string;
  cmd_renew_expected_expires_at : Instant;
  cmd_renew_expires_at : Instant;
  cmd_renew_now : Instant;
}.

Record ApplyStepResult := MkApplyStepResult {
  cmd_result_step_id : StepId;
  cmd_result_claim_fence : StepClaimFence;
  cmd_result_result : StepResult;
  cmd_result_now : Instant;
}.

Record ApplyExecutionReceiptResult := MkApplyExecutionReceiptResult {
  cmd_receipt_step_id : StepId;
  cmd_receipt_claim_fence : StepClaimFence;
  cmd_receipt_link : ExecutionReceiptLink;
  cmd_receipt_result : StepResult;
  cmd_receipt_now : Instant;
}.

Record ApplyTransition := MkApplyTransition {
  cmd_transition_role_id : option RoleId;
  cmd_transition_trigger : string;
  cmd_transition_now : Instant;
}.

Record ApproveGuard := MkApproveGuard {
  cmd_approve_guard_name : GuardName;
  cmd_approve_by : RoleId;
  cmd_approve_by_kind : AuditActorKind;
  cmd_approve_now : Instant;
}.

Record DeferGuard := MkDeferGuard {
  cmd_defer_guard_name : GuardName;
  cmd_defer_content : CeremonyGuardDeferralContent;
  cmd_defer_by : RoleId;
  cmd_defer_by_kind : AuditActorKind;
  cmd_defer_now : Instant;
}.

Record RequestIntervention := MkRequestIntervention {
  cmd_request_intervention_id : string;
  cmd_request_role_id : RoleId;
  cmd_request_kind : CeremonyInterventionKind;
  cmd_request_target : CeremonyInterventionTarget;
  cmd_request_content : CeremonyInterventionContent;
  cmd_request_provenance : option CeremonyInterventionProvenance;
  cmd_request_intent : option CeremonyInterventionIntent;
  cmd_request_delivery : option HostDeliveryPolicy;
  cmd_request_supervisor : option SupervisorPrincipal;
  cmd_request_now : Instant;
}.

Record RespondToIntervention := MkRespondToIntervention {
  cmd_respond_intervention_id : string;
  cmd_respond_role_id : RoleId;
  cmd_respond_content : CeremonyInterventionContent;
  cmd_respond_executor : option DeliveryRecipient;
  cmd_respond_delivery_id : option string;
  cmd_respond_now : Instant;
}.

Record PlanSuccessor := MkPlanSuccessor {
  cmd_succ_plan : SuccessionPlan;
  cmd_succ_successor : PublishedCeremonyDefinition;
  cmd_succ_diff : list CeremonyDefinitionChange;
  cmd_succ_now : Instant;
}.

Inductive CeremonyCommand :=
| CmdRecordHostHandoff (declaration : HostHandoffDeclaration) (now : Instant)
| CmdBindParticipant (role_id : RoleId) (specialty : string) (now : Instant)
| CmdStartStep (c : StartStep)
| CmdRenewStepLease (c : RenewStepLease)
| CmdApplyStepResult (c : ApplyStepResult)
| CmdApplyExecutionReceiptResult (c : ApplyExecutionReceiptResult)
| CmdApplyTransition (c : ApplyTransition)
| CmdApproveGuard (c : ApproveGuard)
| CmdDeferGuard (c : DeferGuard)
| CmdRequestIntervention (c : RequestIntervention)
| CmdRespondToIntervention (c : RespondToIntervention)
| CmdRespondToInterventionWithEvidence (intervention_id : string) (role_id : RoleId)
    (evidence_pack : CeremonyEvidencePack) (now : Instant)
| CmdAcknowledgeInterventionDelivery (intervention_id : string)
    (ack : InterventionDeliveryAck) (now : Instant)
| CmdAssertReason (reason : CeremonyReason)
| CmdCloseIntervention (intervention_id : string) (role_id : RoleId) (now : Instant)
| CmdPlanCeremonyChildren (plan : ChildSpawnPlan) (now : Instant)
| CmdPlanSuccessor (c : PlanSuccessor)
| CmdAdoptChildSpawnPlan (group_id : string) (claim_fence : StepClaimFence) (now : Instant)
| CmdAcceptChildCompletion (completion : ChildCompletionRef) (now : Instant)
| CmdPauseCeremony (reason : string) (now : Instant)
| CmdResumeCeremony (now : Instant)
| CmdCancelCeremony (reason : string) (now : Instant)
| CmdEnforceCeremonyDeadlines (now : Instant).

(** ** Queries *)

Section queries.
Context (i : CeremonyInstance).

(** [CeremonyInstance::lifecycle]: a completion implies the end of a session
    whose lifecycle was never written explicitly. *)
Definition lifecycle : CeremonyLifecycle :=
  match completed_at i with
  | Some at_ =>
      if lifecycle_is_explicit (lifecycle_field i) then lifecycle_field i
      else lifecycle_completed at_
  | None => lifecycle_field i
  end.

Definition is_paused : bool := lifecycle_is_paused lifecycle.
Definition is_ended : bool := lifecycle_is_ended lifecycle.
Definition admits_new_work : bool :=
  negb is_ended && lifecycle_admits_new_work (lifecycle_field i).
Definition is_superseded : bool := is_some (successor_plan i).

Definition intervention (id : string) : option CeremonyIntervention :=
  List.find (λ x, iv_id x == id) (interventions i).

Definition execution_receipt_adoption (operation_id : string) (fence : StepClaimFence)
    : option ExecutionReceiptLink :=
  execution_receipt_adoptions i !! operation_id ≫= λ adoptions, adoptions !! fence.

Definition step_history (id : StepId) : list StepExecutionRecord :=
  default [] (step_record_history i !! id).

Section with_definition.
Context (d : CeremonyDefinition).

Definition matches_definition : bool :=
  (definition_name i == def_name d) && (definition_version i == def_version d).

Definition state_repeat_policy : option StateRepeatPolicy :=
  def_state d (current_state i) ≫= state_repeat.

Definition state_work_is_complete : bool :=
  all (source_step_completed (step_records i)) (steps_for_state d (current_state i)) &&
  repeat_requirements_are_satisfied d (current_state i) (step_records i).

Definition state_repeat_condition_is_satisfied : bool :=
  match state_repeat_policy with
  | None => true
  | Some policy =>
      is_some_and (step_records i !! strp_step_id policy) (state_repeat_is_satisfied policy)
  end.

Definition state_repeat_permits_transition : bool :=
  negb (is_some state_repeat_policy) ||
  (state_work_is_complete && state_repeat_condition_is_satisfied).

Definition state_repeat_limit_reached : bool :=
  match state_repeat_policy with
  | None => false
  | Some policy =>
      state_work_is_complete && negb state_repeat_condition_is_satisfied &&
      negb (state_repeat_permits_another_iteration policy (current_state_iteration i))
  end.

Definition step_repeat_limit_reached (id : StepId) : bool :=
  match def_step d id ≫= step_repeat_policy, step_records i !! id with
  | Some policy, Some r =>
      status_is_success (rec_status r) && negb (repeat_is_satisfied policy (rec_output r)) &&
      negb (repeat_permits_another_iteration policy (rec_iteration r))
  | _, _ => false
  end.

Definition is_terminal : bool := matches_definition && is_terminal_state d (current_state i).
Definition is_completed : bool := is_terminal && is_some (completed_at i).
End with_definition.
End queries.
