(* ===== verification/Equality.v ===== *)
(** * Equality of events

    The [PartialEq] the event types derive, as decidable equality. *)

From S2P Require Import Prelude Errors Text Values Steps Definitions Interventions Instance.

#[export] Instance CeremonyLineage_eq_dec : EqDecision CeremonyLineage.
Proof. solve_decision. Defined.
#[export] Instance CeremonySuccession_eq_dec : EqDecision CeremonySuccession.
Proof. solve_decision. Defined.
#[export] Instance StateDeadline_eq_dec : EqDecision StateDeadline.
Proof. solve_decision. Defined.
#[export] Instance CeremonyInstanceStarted_eq_dec : EqDecision CeremonyInstanceStarted.
Proof. solve_decision. Defined.
#[export] Instance StateVisitEntry_eq_dec : EqDecision StateVisitEntry.
Proof. solve_decision. Defined.
#[export] Instance CeremonyTransitionRecord_eq_dec : EqDecision CeremonyTransitionRecord.
Proof. solve_decision. Defined.
#[export] Instance TransitionApplied_eq_dec : EqDecision TransitionApplied.
Proof. solve_decision. Defined.
#[export] Instance StepStarted_eq_dec : EqDecision StepStarted.
Proof. solve_decision. Defined.
#[export] Instance StepCompleted_eq_dec : EqDecision StepCompleted.
Proof. solve_decision. Defined.
#[export] Instance StepFailed_eq_dec : EqDecision StepFailed.
Proof. solve_decision. Defined.
#[export] Instance ContextWritten_eq_dec : EqDecision ContextWritten.
Proof. solve_decision. Defined.
#[export] Instance StateIterationStarted_eq_dec : EqDecision StateIterationStarted.
Proof. solve_decision. Defined.
#[export] Instance EvidenceCollected_eq_dec : EqDecision EvidenceCollected.
Proof. solve_decision. Defined.
#[export] Instance HostHandoffRecorded_eq_dec : EqDecision HostHandoffRecorded.
Proof. solve_decision. Defined.
#[export] Instance CeremonyParticipantBinding_eq_dec : EqDecision CeremonyParticipantBinding.
Proof. solve_decision. Defined.
#[export] Instance CeremonyGuardApproval_eq_dec : EqDecision CeremonyGuardApproval.
Proof. solve_decision. Defined.
#[export] Instance CeremonyGuardDeferralContent_eq_dec : EqDecision CeremonyGuardDeferralContent.
Proof. solve_decision. Defined.
#[export] Instance CeremonyGuardDeferral_eq_dec : EqDecision CeremonyGuardDeferral.
Proof. solve_decision. Defined.
#[export] Instance ChildGroupState_eq_dec : EqDecision ChildGroupState.
Proof. solve_decision. Defined.
#[export] Instance CeremonyInstance_eq_dec : EqDecision CeremonyInstance.
Proof. solve_decision. Defined.
#[export] Instance InstanceImported_eq_dec : EqDecision InstanceImported.
Proof. solve_decision. Defined.
#[export] Instance CeremonyEvent_eq_dec : EqDecision CeremonyEvent.
Proof. solve_decision. Defined.
