(* ===== verification/Budget.v ===== *)
(** * The budget ledger

    made-core/src/entities/budget_ledger.rs with its value objects: an account
    is opened with limits in four dimensions, operations reserve capacity
    before they run and are reconciled with what was measured.  The ledger is
    event sourced: [ledger_decide_*] answers with the event to append,
    [ledger_apply] folds it. *)

From S2P Require Import Prelude Errors Text Values Steps Definitions Interventions Instance.

(** ** Amounts *)

Inductive BudgetDimension := DimDuration | DimTokens | DimCost | DimToolCalls.

#[export] Instance BudgetDimension_eq_dec : EqDecision BudgetDimension.
Proof. solve_decision. Defined.

Inductive BudgetError :=
| Exhausted (account_id : string) (dimension : BudgetDimension)
| LedgerNotOpen
| ReservationNotFound (id : string)
| ReservationConflict (id : string)
| ReconciliationConflict (id : string)
| MissingReservationEstimate (dimension : BudgetDimension)
| Persistence (e : DomainError).

#[export] Instance BudgetError_eq_dec : EqDecision BudgetError.
Proof. solve_decision. Defined.

Notation budget_outcome := (result BudgetError).

(** Micros of time, tokens, micros of cost and tool calls, each a [u64]. *)
Record BudgetQuantities := MkQuantities {
  bq_duration : Z;
  bq_tokens : Z;
  bq_cost : Z;
  bq_tool_calls : Z;
}.

#[export] Instance BudgetQuantities_eq_dec : EqDecision BudgetQuantities.
Proof. solve_decision. Defined.

Definition quantities_is_zero (q : BudgetQuantities) : bool :=
  (bq_duration q =? 0) && (bq_tokens q =? 0) && (bq_cost q =? 0) && (bq_tool_calls q =? 0).

Inductive BudgetMeasurement := Observed (amount : Z) | Estimated (amount : Z) | Unknown.

#[export] Instance BudgetMeasurement_eq_dec : EqDecision BudgetMeasurement.
Proof. solve_decision. Defined.

Record MeasuredBudgetQuantities := MkMeasured {
  mq_duration : BudgetMeasurement;
  mq_tokens : BudgetMeasurement;
  mq_cost : BudgetMeasurement;
  mq_tool_calls : BudgetMeasurement;
}.

#[export] Instance MeasuredBudgetQuantities_eq_dec : EqDecision MeasuredBudgetQuantities.
Proof. solve_decision. Defined.

Definition quality (m : BudgetMeasurement) : Z :=
  match m with Unknown => 0 | Estimated _ => 1 | Observed _ => 2 end.

Definition measurements (m : MeasuredBudgetQuantities) : list BudgetMeasurement :=
  [mq_duration m; mq_tokens m; mq_cost m; mq_tool_calls m].

(** No dimension is measured worse than before and one is measured better. *)
Definition advances (self previous : MeasuredBudgetQuantities) : bool :=
  let comparisons :=
    zip_with (λ a b, (quality a ?= quality b)%Z) (measurements self) (measurements previous) in
  all (λ order, match order with Lt => false | _ => true end) comparisons &&
  any (λ order, match order with Gt => true | _ => false end) comparisons.

Definition CurrencyCode_new (value : string) : outcome string :=
  ensure ((String.length value =? 3)%nat &&
          all (λ c, (65 <=? N_of_ascii c)%N && (N_of_ascii c <=? 90)%N) (String.list_ascii_of_string value))
    (InvalidCharacters "currency_code");;
  Ok value.

Record BudgetLimits := MkLimits {
  bl_duration : option Z;
  bl_tokens : option Z;
  bl_cost : option Z;
  bl_tool_calls : option Z;
  bl_currency : option string;
}.

#[export] Instance BudgetLimits_eq_dec : EqDecision BudgetLimits.
Proof. solve_decision. Defined.

(** A ceiling of zero means the dimension has none. *)
Definition positive (amount : Z) : option Z := if 0 <? amount then Some amount else None.

Definition BudgetLimits_new (maximum : BudgetQuantities) (currency : option string)
    : outcome BudgetLimits :=
  ensure (negb (quantities_is_zero maximum)) (EmptyCollection "budget_limits");;
  ensure ((0 <? bq_cost maximum) == is_some currency)
    (InvariantViolated "a cost budget and its currency must be declared together");;
  Ok (MkLimits (positive (bq_duration maximum)) (positive (bq_tokens maximum))
        (positive (bq_cost maximum)) (positive (bq_tool_calls maximum)) currency).

Definition BudgetLimits_from_optional (duration tokens cost tool_calls : option Z)
    (currency : option string) : outcome BudgetLimits :=
  try_for_each (λ '(field, amount), ensure (amount != Some 0) (MustBeNonZero field))
    [("budget_limits.duration_micros", duration); ("budget_limits.tokens", tokens);
     ("budget_limits.cost_micros", cost); ("budget_limits.tool_calls", tool_calls)];;
  BudgetLimits_new
    (MkQuantities (default 0 duration) (default 0 tokens) (default 0 cost) (default 0 tool_calls))
    currency.

(** ** Reservations *)

Notation BudgetReservationEstimate := MeasuredBudgetQuantities.

(** [duration], [tokens], [cost] and [tool_calls] of the estimate: a bound is
    needed where the account is limited. *)
Definition estimate_amount (dimension : BudgetDimension) (value : BudgetMeasurement)
    (limited : bool) : budget_outcome Z :=
  match value with
  | Observed amount | Estimated amount => Ok amount
  | Unknown => if negb limited then Ok 0 else Err (MissingReservationEstimate dimension)
  end.

Definition estimate_quantities (e : BudgetReservationEstimate) (limits : BudgetLimits)
    : budget_outcome BudgetQuantities :=
  duration ← estimate_amount DimDuration (mq_duration e) (is_some (bl_duration limits));
  tokens ← estimate_amount DimTokens (mq_tokens e) (is_some (bl_tokens limits));
  cost ← estimate_amount DimCost (mq_cost e) (is_some (bl_cost limits));
  tool_calls ← estimate_amount DimToolCalls (mq_tool_calls e) (is_some (bl_tool_calls limits));
  Ok (MkQuantities duration tokens cost tool_calls).

Record BudgetReservation := MkReservation {
  br_id : string;
  br_operation_id : string;
  br_quantities : BudgetQuantities;
  br_estimate : BudgetReservationEstimate;
  br_reserved_at : Instant;
  br_reconciliation : option (string * MeasuredBudgetQuantities);
}.

#[export] Instance BudgetReservation_eq_dec : EqDecision BudgetReservation.
Proof. solve_decision. Defined.

#[export] Instance BudgetReservation_eta : Eta BudgetReservation := λ r,
  MkReservation (br_id r) (br_operation_id r) (br_quantities r) (br_estimate r)
    (br_reserved_at r) (br_reconciliation r).

Definition reservation_new (id operation_id : string) (q : BudgetQuantities)
    (e : BudgetReservationEstimate) (reserved_at : Instant) : BudgetReservation :=
  MkReservation id operation_id q e reserved_at None.

Definition reservation_reconcile (r : BudgetReservation) (id : string)
    (measured : MeasuredBudgetQuantities) : BudgetReservation :=
  r <| br_reconciliation := Some (id, measured) |>.

(** A host's estimation policy: ceilings on what one operation may reserve. *)
Record BudgetReservationPolicy := MkReservationPolicy {
  brp_version : Z;
  brp_ceilings : BudgetQuantities;
}.

Definition policy_estimate (p : BudgetReservationPolicy) (version : Z) (q : BudgetQuantities)
    : outcome BudgetReservationEstimate :=
  ensure (version == brp_version p) (Conflict "worker_budget_policy_version");;
  try_for_each (λ '(field, value, maximum), ensure (value <=? maximum) (OutOfRange field value 0 maximum))
    [("estimated_duration_micros", bq_duration q, bq_duration (brp_ceilings p));
     ("estimated_tokens", bq_tokens q, bq_tokens (brp_ceilings p));
     ("estimated_cost_micros", bq_cost q, bq_cost (brp_ceilings p));
     ("estimated_tool_calls", bq_tool_calls q, bq_tool_calls (brp_ceilings p))];;
  Ok (MkMeasured (Estimated (bq_duration q)) (Estimated (bq_tokens q)) (Estimated (bq_cost q))
        (Estimated (bq_tool_calls q))).

(** ** The ledger *)

Inductive BudgetLedgerEvent :=
| LedgerOpened (account_id : string) (limits : BudgetLimits) (opened_at : Instant)
| LedgerReserved (account_id reservation_id operation_id : string) (q : BudgetQuantities)
    (estimate : BudgetReservationEstimate) (reserved_at : Instant)
| LedgerReconciled (account_id reservation_id reconciliation_id : string)
    (measured : MeasuredBudgetQuantities) (reconciled_at : Instant).

Definition ledger_event_account (e : BudgetLedgerEvent) : string :=
  match e with
  | LedgerOpened a _ _ | LedgerReserved a _ _ _ _ _ | LedgerReconciled a _ _ _ _ => a
  end.

Record BudgetLedger := MkLedger {
  ledger_account : option string;
  ledger_limits : option BudgetLimits;
  ledger_version : Z;
  ledger_reservations : gmap string BudgetReservation;
}.

#[export] Instance BudgetLedger_eta : Eta BudgetLedger := λ l,
  MkLedger (ledger_account l) (ledger_limits l) (ledger_version l) (ledger_reservations l).

Definition ledger_empty : BudgetLedger := MkLedger None None 0 ∅.

(** [BudgetLedgerVersion::next]: a [u64] that wraps in a release build. *)
Definition ledger_version_next (v : Z) : Z := (v + 1) mod 2 ^ 64.

(** [[u64; 4]]: the dimensions in order. *)
Notation Amounts := (list Z).

Definition values (q : BudgetQuantities) : Amounts :=
  [bq_duration q; bq_tokens q; bq_cost q; bq_tool_calls q].

Definition limit_values (limits : BudgetLimits) : Amounts :=
  [default u64_max (bl_duration limits); default u64_max (bl_tokens limits);
   default u64_max (bl_cost limits); default u64_max (bl_tool_calls limits)].

Definition quantities (v : Amounts) : BudgetQuantities :=
  MkQuantities (nth 0 v 0) (nth 1 v 0) (nth 2 v 0) (nth 3 v 0).

Definition budget_overflow : BudgetError :=
  Persistence (InvariantViolated "budget total overflow").

(** [target[index] += value], checked. *)
Definition add_at (target : Amounts) (index : nat) (value : Z) : budget_outcome Amounts :=
  total ← ok_or (u64_checked_add (nth index target 0) value) budget_overflow;
  Ok (<[index := total]> target).

Definition add (target value : Amounts) : budget_outcome Amounts :=
  target ← add_at target 0 (nth 0 value 0);
  target ← add_at target 1 (nth 1 value 0);
  target ← add_at target 2 (nth 2 value 0);
  add_at target 3 (nth 3 value 0).

Definition zeros : Amounts := [0; 0; 0; 0].

Fixpoint sums_from (result : Amounts) (values : list Amounts) : budget_outcome Amounts :=
  match values with
  | [] => Ok result
  | value :: values => result ← add result value; sums_from result values
  end.

Definition sums (values : list Amounts) : budget_outcome Amounts := sums_from zeros values.

(** [u64::saturating_sub]. *)
Definition u64_saturating_sub (a b : Z) : Z := Z.max 0 (a - b).

(** What a balance adds up, reservation by reservation. *)
Record Charges := MkCharges {
  ch_reserved : Amounts;
  ch_observed : Amounts;
  ch_estimated : Amounts;
  ch_unknown : Amounts;
}.

Definition classify_one (c : Charges) (index : nat) (requested : Z) (m : BudgetMeasurement)
    : budget_outcome Charges :=
  match m with
  | Observed value =>
      observed ← add_at (ch_observed c) index value;
      Ok (MkCharges (ch_reserved c) observed (ch_estimated c) (ch_unknown c))
  | Estimated value =>
      estimated ← add_at (ch_estimated c) index value;
      Ok (MkCharges (ch_reserved c) (ch_observed c) estimated (ch_unknown c))
  | Unknown =>
      unknown ← add_at (ch_unknown c) index requested;
      Ok (MkCharges (ch_reserved c) (ch_observed c) (ch_estimated c) unknown)
  end.

Definition classify (c : Charges) (requested : Amounts) (m : MeasuredBudgetQuantities)
    : budget_outcome Charges :=
  c ← classify_one c 0 (nth 0 requested 0) (mq_duration m);
  c ← classify_one c 1 (nth 1 requested 0) (mq_tokens m);
  c ← classify_one c 2 (nth 2 requested 0) (mq_cost m);
  classify_one c 3 (nth 3 requested 0) (mq_tool_calls m).

Definition charge_reservation (c : Charges) (r : BudgetReservation) : budget_outcome Charges :=
  match br_reconciliation r with
  | None =>
      reserved ← add (ch_reserved c) (values (br_quantities r));
      Ok (MkCharges reserved (ch_observed c) (ch_estimated c) (ch_unknown c))
  | Some (_, measured) => classify c (values (br_quantities r)) measured
  end.

Fixpoint charge_all (c : Charges) (rs : list BudgetReservation) : budget_outcome Charges :=
  match rs with
  | [] => Ok c
  | r :: rs => c ← charge_reservation c r; charge_all c rs
  end.

Record BudgetBalance := MkBalance {
  bal_limits : BudgetLimits;
  bal_reserved : BudgetQuantities;
  bal_observed : BudgetQuantities;
  bal_estimated : BudgetQuantities;
  bal_unconfirmed : BudgetQuantities;
  bal_overrun : BudgetQuantities;
  bal_available : BudgetQuantities;
}.

Definition ledger_balance (l : BudgetLedger) : budget_outcome BudgetBalance :=
  limits ← ok_or (ledger_limits l) LedgerNotOpen;
  c ← charge_all (MkCharges zeros zeros zeros zeros) (btree_values (ledger_reservations l));
  let maximum := limit_values limits in
  charged ← sums [ch_reserved c; ch_observed c; ch_estimated c; ch_unknown c];
  let available := zip_with u64_saturating_sub maximum charged in
  let overrun := zip_with u64_saturating_sub charged maximum in
  Ok (MkBalance limits (quantities (ch_reserved c)) (quantities (ch_observed c))
        (quantities (ch_estimated c)) (quantities (ch_unknown c)) (quantities overrun)
        (quantities available)).

Definition budget_dimensions : list BudgetDimension :=
  [DimDuration; DimTokens; DimCost; DimToolCalls].

Definition ensure_capacity (l : BudgetLedger) (request : BudgetQuantities) : budget_outcome unit :=
  account ← ok_or (ledger_account l) LedgerNotOpen;
  balance ← ledger_balance l;
  match List.find (λ e, 0 <? e.2) (zip budget_dimensions (values (bal_overrun balance))) with
  | Some (dimension, _) => Err (Exhausted account dimension)
  | None =>
      try_for_each
        (λ '(dimension, wanted, available),
           ensure (negb (available <? wanted)) (Exhausted account dimension))
        (zip (zip budget_dimensions (values request)) (values (bal_available balance)))
  end.

Section ledger.
Context {Hsha : Sha256}.

Definition ledger_decide_open (l : BudgetLedger) (account : string) (limits : BudgetLimits)
    (opened_at : Instant) : budget_outcome (option BudgetLedgerEvent) :=
  match ledger_account l, ledger_limits l with
  | None, None => Ok (Some (LedgerOpened account limits opened_at))
  | Some stored_id, Some stored_limits =>
      if (stored_id == account) && (stored_limits == limits) then Ok None
      else Err (Persistence (Conflict "budget_ledger"))
  | _, _ => Err (Persistence (Conflict "budget_ledger"))
  end.

Definition ledger_decide_reserve (l : BudgetLedger) (operation : string)
    (estimate : BudgetReservationEstimate) (reserved_at : Instant)
    : budget_outcome (option BudgetLedgerEvent) :=
  account ← ok_or (ledger_account l) LedgerNotOpen;
  let id := reservation_for_operation account operation in
  limits ← ok_or (ledger_limits l) LedgerNotOpen;
  q ← estimate_quantities estimate limits;
  match ledger_reservations l !! id with
  | Some existing =>
      if (br_operation_id existing == operation) && (br_quantities existing == q)
         && (br_estimate existing == estimate)
      then Ok None else Err (ReservationConflict id)
  | None =>
      ensure_capacity l q;;
      Ok (Some (LedgerReserved account id operation q estimate reserved_at))
  end.

Definition ledger_decide_reconcile (l : BudgetLedger) (id reconciliation : string)
    (measured : MeasuredBudgetQuantities) (reconciled_at : Instant)
    : budget_outcome (option BudgetLedgerEvent) :=
  account ← ok_or (ledger_account l) LedgerNotOpen;
  r ← ok_or (ledger_reservations l !! id) (ReservationNotFound id);
  let event := LedgerReconciled account id reconciliation measured reconciled_at in
  match br_reconciliation r with
  | Some (stored_id, stored) =>
      if stored_id != reconciliation then Err (ReconciliationConflict reconciliation)
      else if stored == measured then Ok None
      else if negb (advances measured stored) then Err (ReconciliationConflict reconciliation)
      else Ok (Some event)
  | None => Ok (Some event)
  end.

Definition ledger_apply_reserved (l : BudgetLedger) (id operation : string) (q : BudgetQuantities)
    (estimate : BudgetReservationEstimate) (reserved_at : Instant) : budget_outcome BudgetLedger :=
  account ← ok_or (ledger_account l) LedgerNotOpen;
  ensure (id == reservation_for_operation account operation) (ReservationConflict id);;
  ensure (negb (is_some (ledger_reservations l !! id)))
    (Persistence (AlreadyExists "budget_reservation"));;
  ensure_capacity l q;;
  limits ← ok_or (ledger_limits l) LedgerNotOpen;
  expected ← estimate_quantities estimate limits;
  ensure (q == expected) (ReservationConflict id);;
  Ok (l <| ledger_reservations := <[id := reservation_new id operation q estimate reserved_at]>
                                    (ledger_reservations l) |>).

Definition ledger_apply_reconciled (l : BudgetLedger) (id reconciliation : string)
    (measured : MeasuredBudgetQuantities) : budget_outcome BudgetLedger :=
  r ← ok_or (ledger_reservations l !! id) (ReservationNotFound id);
  ensure (match br_reconciliation r with
          | Some (stored_id, stored) => (stored_id == reconciliation) && advances measured stored
          | None => true
          end) (ReconciliationConflict reconciliation);;
  Ok (l <| ledger_reservations := <[id := reservation_reconcile r reconciliation measured]>
                                    (ledger_reservations l) |>).

Definition ledger_apply (l : BudgetLedger) (event : BudgetLedgerEvent)
    : budget_outcome BudgetLedger :=
  ensure (is_none_or (ledger_account l) (λ account, ledger_event_account event == account))
    (Persistence (InvariantViolated "budget event belongs to another account"));;
  l ← match event with
      | LedgerOpened account limits _ =>
          ensure (negb (is_some (ledger_account l))) (Persistence (AlreadyExists "budget_ledger"));;
          Ok (l <| ledger_account := Some account |> <| ledger_limits := Some limits |>)
      | LedgerReserved _ id operation q estimate reserved_at =>
          ledger_apply_reserved l id operation q estimate reserved_at
      | LedgerReconciled _ id reconciliation measured _ =>
          ledger_apply_reconciled l id reconciliation measured
      end;
  Ok (l <| ledger_version := ledger_version_next (ledger_version l) |>).

Fixpoint ledger_fold (l : BudgetLedger) (events : list BudgetLedgerEvent)
    : budget_outcome BudgetLedger :=
  match events with
  | [] => Ok l
  | event :: events => l ← ledger_apply l event; ledger_fold l events
  end.

Definition ledger_rehydrate (events : list BudgetLedgerEvent) : budget_outcome BudgetLedger :=
  ledger_fold ledger_empty events.

End ledger.
