(* ===== verification/Authorization.v ===== *)
(** * The authorization policy

    made-core/src/entities/authorization_policy.rs with its submodules and value
    objects: an owner opens a policy and issues grants, grantees delegate parts
    of theirs, requests are decided against the live grants and the rules that
    separate approval from execution, and every decision is recorded.  The
    policy is event sourced like the ledger.

    The canonical JSON a decision is identified by is a parameter
    ([DecisionSerde]). *)

From S2P Require Import Prelude Errors Text Values Steps.

(** ** Actions *)

Inductive AuthorizationAction :=
  | AA_InspectCeremonyResume | AA_PlanCeremonySuccessor | AA_RecordCeremonyHostHandoff
  | AA_StartCeremonySuccessor | AA_GetCeremonyInstance | AA_ListCeremonyInstances
  | AA_SearchCeremonyInstances | AA_GenerateCeremonyReport | AA_ReadCeremonyEvents
  | AA_StreamCeremony | AA_PullCeremonyEvents | AA_VerifyCeremonyJournal
  | AA_GetCeremonyTranscript | AA_GetCeremonyDefinition | AA_ListCeremonyDefinitions
  | AA_MountDefinition | AA_ValidateCeremonyDraft | AA_ExplainCeremonyDraft | AA_DesignCeremony
  | AA_DiffCeremonyDefinitions | AA_PublishCeremonyDefinition | AA_RunCeremony | AA_StartCeremony
  | AA_StartPublishedCeremony | AA_RunCeremonyStep | AA_ClaimCeremonyStep
  | AA_RenewCeremonyStepLease | AA_CompleteCeremonyStep | AA_ListCeremonyAgents
  | AA_GetCeremonyAgent | AA_ReportCeremonyAgentStatus | AA_GetExecutionReceipt
  | AA_InspectExecutionRecovery | AA_CompleteExecutionReceipt | AA_ReconcileExecutionOperation
  | AA_AdoptExecutionReceipt | AA_PrepareCeremonyChildren | AA_AcceptChildCompletion
  | AA_RecoverCeremonyChildren | AA_ApplyCeremonyTransition | AA_EnforceCeremonyDeadlines
  | AA_BindCeremonyParticipants | AA_PauseCeremony | AA_ResumeCeremony | AA_CancelCeremony
  | AA_ApproveCeremonyGuard | AA_DeferCeremonyGuard | AA_RequestCeremonyIntervention
  | AA_RespondToCeremonyIntervention | AA_CloseCeremonyIntervention
  | AA_PullCeremonyAgentInterventions | AA_AcknowledgeCeremonyAgentIntervention
  | AA_GetCeremonyIntervention | AA_ListCeremonyInterventions | AA_BindCeremonyIntegrator
  | AA_GetCeremonyIntegratorBinding | AA_AwaitIntegratorAttention
  | AA_AcknowledgeIntegratorAttention | AA_ListAttentionDeliveries | AA_CollectCeremonyEvidence
  | AA_AssertCeremonyReason | AA_BeginArtifactUpload | AA_PutArtifactChunk
  | AA_CommitArtifactUpload | AA_AbortArtifactUpload | AA_GetArtifact | AA_ListArtifacts
  | AA_ReadArtifactChunk | AA_TombstoneArtifact | AA_BackupStore | AA_RestoreStore
  | AA_GarbageCollectArtifacts | AA_ReleaseArtifactProtection | AA_ReserveBudget
  | AA_ReconcileBudget | AA_ReadBudget | AA_Deliberate | AA_StreamDeliberation
  | AA_GetDeliberationResult | AA_Orchestrate | AA_ProcessTriggerEvent | AA_RunCouncilDecision
  | AA_CreateCouncil | AA_ListCouncils | AA_DeleteCouncil | AA_RegisterAgent | AA_UnregisterAgent
  | AA_RegisterContract | AA_ListContracts | AA_DeleteContract | AA_ReadCouncilEvents
  | AA_GetCouncilEventCursor | AA_LeaseCouncilEvents | AA_AcknowledgeCouncilEvents
  | AA_ReleaseCouncilEvents | AA_GetStatus | AA_GetMetrics | AA_ReadAuthorizationPolicy
  | AA_IssueAuthorizationGrant | AA_RevokeAuthorizationGrant | AA_ReadAuthorizationDecisions
  | AA_DesignAgenticSystem | AA_GetAgenticSystem | AA_ListAgenticSystems
  | AA_ValidateAgenticSystem | AA_PublishAgenticSystem | AA_InstantiateAgenticSystem
  | AA_AdvanceAgenticSystemExecution | AA_GetAgenticSystemExecution
  | AA_RenderAgenticSystemDiagram.

(** The actions in declaration order, and their positions. *)
Definition all_actions : list AuthorizationAction :=
  [ AA_InspectCeremonyResume; AA_PlanCeremonySuccessor; AA_RecordCeremonyHostHandoff;
  AA_StartCeremonySuccessor; AA_GetCeremonyInstance; AA_ListCeremonyInstances;
  AA_SearchCeremonyInstances; AA_GenerateCeremonyReport; AA_ReadCeremonyEvents;
  AA_StreamCeremony; AA_PullCeremonyEvents; AA_VerifyCeremonyJournal; AA_GetCeremonyTranscript;
  AA_GetCeremonyDefinition; AA_ListCeremonyDefinitions; AA_MountDefinition;
  AA_ValidateCeremonyDraft; AA_ExplainCeremonyDraft; AA_DesignCeremony;
  AA_DiffCeremonyDefinitions; AA_PublishCeremonyDefinition; AA_RunCeremony; AA_StartCeremony;
  AA_StartPublishedCeremony; AA_RunCeremonyStep; AA_ClaimCeremonyStep; AA_RenewCeremonyStepLease;
  AA_CompleteCeremonyStep; AA_ListCeremonyAgents; AA_GetCeremonyAgent;
  AA_ReportCeremonyAgentStatus; AA_GetExecutionReceipt; AA_InspectExecutionRecovery;
  AA_CompleteExecutionReceipt; AA_ReconcileExecutionOperation; AA_AdoptExecutionReceipt;
  AA_PrepareCeremonyChildren; AA_AcceptChildCompletion; AA_RecoverCeremonyChildren;
  AA_ApplyCeremonyTransition; AA_EnforceCeremonyDeadlines; AA_BindCeremonyParticipants;
  AA_PauseCeremony; AA_ResumeCeremony; AA_CancelCeremony; AA_ApproveCeremonyGuard;
  AA_DeferCeremonyGuard; AA_RequestCeremonyIntervention; AA_RespondToCeremonyIntervention;
  AA_CloseCeremonyIntervention; AA_PullCeremonyAgentInterventions;
  AA_AcknowledgeCeremonyAgentIntervention; AA_GetCeremonyIntervention;
  AA_ListCeremonyInterventions; AA_BindCeremonyIntegrator; AA_GetCeremonyIntegratorBinding;
  AA_AwaitIntegratorAttention; AA_AcknowledgeIntegratorAttention; AA_ListAttentionDeliveries;
  AA_CollectCeremonyEvidence; AA_AssertCeremonyReason; AA_BeginArtifactUpload;
  AA_PutArtifactChunk; AA_CommitArtifactUpload; AA_AbortArtifactUpload; AA_GetArtifact;
  AA_ListArtifacts; AA_ReadArtifactChunk; AA_TombstoneArtifact; AA_BackupStore; AA_RestoreStore;
  AA_GarbageCollectArtifacts; AA_ReleaseArtifactProtection; AA_ReserveBudget; AA_ReconcileBudget;
  AA_ReadBudget; AA_Deliberate; AA_StreamDeliberation; AA_GetDeliberationResult; AA_Orchestrate;
  AA_ProcessTriggerEvent; AA_RunCouncilDecision; AA_CreateCouncil; AA_ListCouncils;
  AA_DeleteCouncil; AA_RegisterAgent; AA_UnregisterAgent; AA_RegisterContract; AA_ListContracts;
  AA_DeleteContract; AA_ReadCouncilEvents; AA_GetCouncilEventCursor; AA_LeaseCouncilEvents;
  AA_AcknowledgeCouncilEvents; AA_ReleaseCouncilEvents; AA_GetStatus; AA_GetMetrics;
  AA_ReadAuthorizationPolicy; AA_IssueAuthorizationGrant; AA_RevokeAuthorizationGrant;
  AA_ReadAuthorizationDecisions; AA_DesignAgenticSystem; AA_GetAgenticSystem;
  AA_ListAgenticSystems; AA_ValidateAgenticSystem; AA_PublishAgenticSystem;
  AA_InstantiateAgenticSystem; AA_AdvanceAgenticSystemExecution; AA_GetAgenticSystemExecution;
  AA_RenderAgenticSystemDiagram ].

Definition action_index (a : AuthorizationAction) : N :=
  match a with
  | AA_InspectCeremonyResume => 0 | AA_PlanCeremonySuccessor => 1
  | AA_RecordCeremonyHostHandoff => 2 | AA_StartCeremonySuccessor => 3
  | AA_GetCeremonyInstance => 4 | AA_ListCeremonyInstances => 5 | AA_SearchCeremonyInstances => 6
  | AA_GenerateCeremonyReport => 7 | AA_ReadCeremonyEvents => 8 | AA_StreamCeremony => 9
  | AA_PullCeremonyEvents => 10 | AA_VerifyCeremonyJournal => 11 | AA_GetCeremonyTranscript => 12
  | AA_GetCeremonyDefinition => 13 | AA_ListCeremonyDefinitions => 14 | AA_MountDefinition => 15
  | AA_ValidateCeremonyDraft => 16 | AA_ExplainCeremonyDraft => 17 | AA_DesignCeremony => 18
  | AA_DiffCeremonyDefinitions => 19 | AA_PublishCeremonyDefinition => 20 | AA_RunCeremony => 21
  | AA_StartCeremony => 22 | AA_StartPublishedCeremony => 23 | AA_RunCeremonyStep => 24
  | AA_ClaimCeremonyStep => 25 | AA_RenewCeremonyStepLease => 26 | AA_CompleteCeremonyStep => 27
  | AA_ListCeremonyAgents => 28 | AA_GetCeremonyAgent => 29 | AA_ReportCeremonyAgentStatus => 30
  | AA_GetExecutionReceipt => 31 | AA_InspectExecutionRecovery => 32
  | AA_CompleteExecutionReceipt => 33 | AA_ReconcileExecutionOperation => 34
  | AA_AdoptExecutionReceipt => 35 | AA_PrepareCeremonyChildren => 36
  | AA_AcceptChildCompletion => 37 | AA_RecoverCeremonyChildren => 38
  | AA_ApplyCeremonyTransition => 39 | AA_EnforceCeremonyDeadlines => 40
  | AA_BindCeremonyParticipants => 41 | AA_PauseCeremony => 42 | AA_ResumeCeremony => 43
  | AA_CancelCeremony => 44 | AA_ApproveCeremonyGuard => 45 | AA_DeferCeremonyGuard => 46
  | AA_RequestCeremonyIntervention => 47 | AA_RespondToCeremonyIntervention => 48
  | AA_CloseCeremonyIntervention => 49 | AA_PullCeremonyAgentInterventions => 50
  | AA_AcknowledgeCeremonyAgentIntervention => 51 | AA_GetCeremonyIntervention => 52
  | AA_ListCeremonyInterventions => 53 | AA_BindCeremonyIntegrator => 54
  | AA_GetCeremonyIntegratorBinding => 55 | AA_AwaitIntegratorAttention => 56
  | AA_AcknowledgeIntegratorAttention => 57 | AA_ListAttentionDeliveries => 58
  | AA_CollectCeremonyEvidence => 59 | AA_AssertCeremonyReason => 60
  | AA_BeginArtifactUpload => 61 | AA_PutArtifactChunk => 62 | AA_CommitArtifactUpload => 63
  | AA_AbortArtifactUpload => 64 | AA_GetArtifact => 65 | AA_ListArtifacts => 66
  | AA_ReadArtifactChunk => 67 | AA_TombstoneArtifact => 68 | AA_BackupStore => 69
  | AA_RestoreStore => 70 | AA_GarbageCollectArtifacts => 71 | AA_ReleaseArtifactProtection => 72
  | AA_ReserveBudget => 73 | AA_ReconcileBudget => 74 | AA_ReadBudget => 75 | AA_Deliberate => 76
  | AA_StreamDeliberation => 77 | AA_GetDeliberationResult => 78 | AA_Orchestrate => 79
  | AA_ProcessTriggerEvent => 80 | AA_RunCouncilDecision => 81 | AA_CreateCouncil => 82
  | AA_ListCouncils => 83 | AA_DeleteCouncil => 84 | AA_RegisterAgent => 85
  | AA_UnregisterAgent => 86 | AA_RegisterContract => 87 | AA_ListContracts => 88
  | AA_DeleteContract => 89 | AA_ReadCouncilEvents => 90 | AA_GetCouncilEventCursor => 91
  | AA_LeaseCouncilEvents => 92 | AA_AcknowledgeCouncilEvents => 93
  | AA_ReleaseCouncilEvents => 94 | AA_GetStatus => 95 | AA_GetMetrics => 96
  | AA_ReadAuthorizationPolicy => 97 | AA_IssueAuthorizationGrant => 98
  | AA_RevokeAuthorizationGrant => 99 | AA_ReadAuthorizationDecisions => 100
  | AA_DesignAgenticSystem => 101 | AA_GetAgenticSystem => 102 | AA_ListAgenticSystems => 103
  | AA_ValidateAgenticSystem => 104 | AA_PublishAgenticSystem => 105
  | AA_InstantiateAgenticSystem => 106 | AA_AdvanceAgenticSystemExecution => 107
  | AA_GetAgenticSystemExecution => 108 | AA_RenderAgenticSystemDiagram => 109
  end%N.

Lemma action_index_inv a :
  nth (N.to_nat (action_index a)) all_actions AA_InspectCeremonyResume = a.
Proof. by destruct a. Qed.

#[export] Instance action_index_inj : Inj (=) (=) action_index.
Proof. intros a b H. rewrite <-(action_index_inv a), <-(action_index_inv b). by rewrite H. Qed.

#[export] Instance AuthorizationAction_eq_dec : EqDecision AuthorizationAction.
Proof.
  refine (λ a b, cast_if (base.decide (action_index a = action_index b)));
    [by apply (inj action_index)|congruence].
Defined.

#[export] Instance AuthorizationAction_countable : Countable AuthorizationAction.
Proof.
  refine (inj_countable' action_index
    (λ n, nth (N.to_nat n) all_actions AA_InspectCeremonyResume) action_index_inv).
Defined.

(** ** Principals, scopes and grants *)

Inductive PrincipalKind := Human | Service | Worker | TrustedHost.
Inductive AuthenticationMethod := MutualTls | TrustedTransportMetadata | LocalHostPolicy.

#[export] Instance PrincipalKind_eq_dec : EqDecision PrincipalKind.
Proof. solve_decision. Defined.
#[export] Instance AuthenticationMethod_eq_dec : EqDecision AuthenticationMethod.
Proof. solve_decision. Defined.

Definition bounded_printable_new (max : Z) (reason raw : string) : outcome string :=
  let trimmed := str_trim raw in
  ensure (negb (trimmed == "") && (Z.of_nat (String.length trimmed) <=? max)
          && negb (str_has_control trimmed)) (InvariantViolated reason);;
  Ok trimmed.

Definition AuthorizationGrantId_new : string → outcome string :=
  bounded_printable_new 256 "authorization grant id must be non-empty, bounded and printable".
Definition AuthorizationRequestId_new : string → outcome string :=
  bounded_printable_new 256 "authorization request id must be non-empty, bounded and printable".
Definition AuthorizationPolicyId_new : string → outcome string :=
  bounded_printable_new 128 "authorization policy id must be non-empty, bounded and printable".
Definition AuthorizationRevocationReason_new : string → outcome string :=
  bounded_printable_new 512
    "authorization revocation reason must be non-empty, bounded and printable".

Definition PrincipalId_new (raw : string) : outcome string :=
  let trimmed := str_trim raw in
  ensure (negb (trimmed == "")) (EmptyField "principal_id");;
  ensure (Z.of_nat (String.length trimmed) <=? 256)
    (FieldTooLong "principal_id" (Z.of_nat (String.length trimmed)) 256);;
  ensure (negb (str_has_control trimmed))
    (InvariantViolated "principal id cannot contain control characters");;
  Ok trimmed.

Record AuthenticatedPrincipal := MkPrincipal {
  principal_id : string;
  principal_kind : PrincipalKind;
  principal_method : AuthenticationMethod;
}.

#[export] Instance AuthenticatedPrincipal_eq_dec : EqDecision AuthenticatedPrincipal.
Proof. solve_decision. Defined.

Definition principal_validate (p : AuthenticatedPrincipal) : outcome unit :=
  let trusted_host := principal_kind p == TrustedHost in
  let local_policy := principal_method p == LocalHostPolicy in
  ensure (negb (local_policy && negb trusted_host))
    (InvariantViolated "local host policy authenticates only trusted-host principals").

Definition AuthenticatedPrincipal_new (id : string) (kind : PrincipalKind)
    (method : AuthenticationMethod) : outcome AuthenticatedPrincipal :=
  let principal := MkPrincipal id kind method in
  principal_validate principal;; Ok principal.

Inductive AuthorizationScope :=
| ScopeGlobal
| ScopeCeremony (ceremony_id : CeremonyId)
| ScopeCeremonyTree (root_id : CeremonyId)
| ScopeResolvedCeremony (ceremony_id root_id : CeremonyId)
| ScopeDefinition (name : string) (version : option string)
| ScopeArtifact (artifact_id : string)
| ScopeCouncil (council_id : string)
| ScopeBudget (account_id : string).

#[export] Instance AuthorizationScope_eq_dec : EqDecision AuthorizationScope.
Proof. solve_decision. Defined.

Definition scope_covers (self requested : AuthorizationScope) : bool :=
  match self, requested with
  | ScopeGlobal, _ => true
  | ScopeCeremony a, ScopeCeremony b => a == b
  | ScopeCeremonyTree a, ScopeCeremonyTree b => a == b
  | ScopeCeremonyTree root, ScopeCeremony ceremony => root == ceremony
  | ScopeCeremony granted, ScopeResolvedCeremony ceremony _ => granted == ceremony
  | ScopeCeremonyTree granted, ScopeResolvedCeremony _ root => granted == root
  | ScopeDefinition left_name left_version, ScopeDefinition right_name right_version =>
      (left_name == right_name) &&
      (negb (is_some left_version) || (left_version == right_version))
  | ScopeArtifact a, ScopeArtifact b => a == b
  | ScopeCouncil a, ScopeCouncil b => a == b
  | ScopeBudget a, ScopeBudget b => a == b
  | _, _ => false
  end.

Definition is_resolved_request_scope (s : AuthorizationScope) : bool :=
  match s with ScopeResolvedCeremony _ _ => true | _ => false end.

(** [DelegationDepth]: a [u8]; its constructor admits at most 8. *)
Definition DelegationDepth_new (value : Z) : outcome Z :=
  ensure (value <=? 8) (OutOfRange "delegation_depth" value 0 8);; Ok value.
Definition DelegationDepth_delegated (depth : Z) : outcome Z :=
  if 1 <=? depth then Ok (depth - 1)
  else Err (InvariantViolated "authorization grant is not delegable").

Record AuthorizationGrantIssuer := MkGrantIssuer {
  issuer_principal : AuthenticatedPrincipal;
  issuer_parent_grant_id : option string;
}.

#[export] Instance AuthorizationGrantIssuer_eq_dec : EqDecision AuthorizationGrantIssuer.
Proof. solve_decision. Defined.

Record AuthorizationGrant := MkGrant {
  grant_id : string;
  grant_grantee : string;
  grant_actions : gset AuthorizationAction;
  grant_scope : AuthorizationScope;
  grant_valid_from : Instant;
  grant_valid_until : option Instant;
  grant_delegation_depth : Z;
  grant_issuer : AuthorizationGrantIssuer;
}.

#[export] Instance AuthorizationGrant_eq_dec : EqDecision AuthorizationGrant.
Proof. solve_decision. Defined.

Definition grant_issued_by (g : AuthorizationGrant) : AuthenticatedPrincipal :=
  issuer_principal (grant_issuer g).
Definition grant_parent_id (g : AuthorizationGrant) : option string :=
  issuer_parent_grant_id (grant_issuer g).

Definition grant_is_active_at (g : AuthorizationGrant) (now : Instant) : bool :=
  (grant_valid_from g <=? now) && is_none_or (grant_valid_until g) (λ until, now <? until).

Definition grant_permits (g : AuthorizationGrant) (action : AuthorizationAction)
    (scope : AuthorizationScope) (now : Instant) : bool :=
  grant_is_active_at g now && bool_decide (action ∈ grant_actions g) &&
  scope_covers (grant_scope g) scope.

Definition grant_validate (g : AuthorizationGrant) : outcome unit :=
  principal_validate (grant_issued_by g);;
  ensure (negb (is_resolved_request_scope (grant_scope g))) (InvariantViolated
    "resolved ceremony lineage is an authorization request scope, not a grant scope");;
  ensure (negb (size (grant_actions g) =? 0)%nat) (EmptyCollection "authorization_grant.actions");;
  ensure (negb (is_some_and (grant_valid_until g) (λ until, until <=? grant_valid_from g)))
    (InvariantViolated "authorization grant expiry must follow its validity start").

Record AuthorizationRevocation := MkRevocation {
  revocation_grant_id : string;
  revocation_by : AuthenticatedPrincipal;
  revocation_reason : string;
  revocation_at : Instant;
}.

(** [SeparationRule]: who executes an action is not who approved it. *)
Record SeparationRule := MkSeparationRule {
  rule_approval_action : AuthorizationAction;
  rule_execution_action : AuthorizationAction;
}.

#[export] Instance SeparationRule_eq_dec : EqDecision SeparationRule.
Proof. solve_decision. Defined.

Definition SeparationRule_new (approval execution : AuthorizationAction) : outcome SeparationRule :=
  ensure (approval != execution) (InvariantViolated "authorization separation actions must differ");;
  Ok (MkSeparationRule approval execution).

(** ** Requests and decisions *)

Record AuthorizationRequest := MkRequest {
  request_id : string;
  request_principal : AuthenticatedPrincipal;
  request_action : AuthorizationAction;
  request_scope : AuthorizationScope;
  request_target_digest : string;
  request_approval_decision_id : option string;
  request_accepted_work_decision_id : option string;
  request_approved_action : option AuthorizationAction;
}.

#[export] Instance AuthorizationRequest_eq_dec : EqDecision AuthorizationRequest.
Proof. solve_decision. Defined.

Inductive AuthorizationDecisionKind := Allow | Deny.
Inductive AuthorizationDenialReason :=
  NoMatchingGrant | ApprovalRequired | ApprovalInvalid | ApprovalIntentInvalid.

#[export] Instance AuthorizationDecisionKind_eq_dec : EqDecision AuthorizationDecisionKind.
Proof. solve_decision. Defined.
#[export] Instance AuthorizationDenialReason_eq_dec : EqDecision AuthorizationDenialReason.
Proof. solve_decision. Defined.

Record AuthorizationDecision := MkDecision {
  decision_id : string;
  decision_request : AuthorizationRequest;
  decision_policy_version : Z;
  decision_kind : AuthorizationDecisionKind;
  decision_grant_id : option string;
  decision_denial_reason : option AuthorizationDenialReason;
  decision_decided_at : Instant;
  decision_valid_until : Instant;
}.

#[export] Instance AuthorizationDecision_eq_dec : EqDecision AuthorizationDecision.
Proof. solve_decision. Defined.

(** [serde_json::to_vec] of what a decision is identified by. *)
Class DecisionSerde := decision_canonical :
  AuthorizationRequest → Z → AuthorizationDecisionKind → option string →
  option AuthorizationDenialReason → Instant → Instant → option string.

(** [AuthorizationDecisionTtl]: between 1 and 300 seconds. *)
Definition AuthorizationDecisionTtl_from_seconds (seconds : Z) : outcome Z :=
  ensure (negb (seconds =? 0) && (seconds <=? 300))
    (OutOfRange "authorization_decision_ttl_seconds" seconds 1 300);;
  Ok seconds.

(** [AuthorizationPolicyVersion::next]. *)
Definition policy_version_next (v : Z) : Z := Z.min u64_max (v + 1).

Record AuthorizationEvidence := MkEvidence {
  evidence_decision_id : string;
  evidence_request_id : string;
  evidence_principal_id : string;
  evidence_action : AuthorizationAction;
  evidence_scope : AuthorizationScope;
  evidence_target_digest : string;
  evidence_policy_version : Z;
  evidence_admitted_at : Instant;
  evidence_valid_until : Instant;
}.

#[export] Instance AuthorizationEvidence_eq_dec : EqDecision AuthorizationEvidence.
Proof. solve_decision. Defined.

Definition evidence_from_decision (d : AuthorizationDecision) : AuthorizationEvidence :=
  let request := decision_request d in
  MkEvidence (decision_id d) (request_id request) (principal_id (request_principal request))
    (request_action request) (request_scope request) (request_target_digest request)
    (decision_policy_version d) (decision_decided_at d) (decision_valid_until d).

Definition decision_is_live_at (d : AuthorizationDecision) (now : Instant) : bool :=
  now <? decision_valid_until d.

Definition decision_evidence (d : AuthorizationDecision) (now : Instant)
    : outcome AuthorizationEvidence :=
  ensure (decision_kind d == Allow)
    (InvariantViolated "denied authorization decision has no admission evidence");;
  ensure (decision_is_live_at d now)
    (InvariantViolated "authorization admission evidence has expired");;
  Ok (evidence_from_decision d).

(** [AuthorizedOperation::new]. *)
Definition AuthorizedOperation_new (principal : AuthenticatedPrincipal)
    (evidence : AuthorizationEvidence) : outcome (AuthenticatedPrincipal * AuthorizationEvidence) :=
  ensure (principal_id principal == evidence_principal_id evidence) (InvariantViolated
    "authorization evidence principal must match the authenticated principal");;
  Ok (principal, evidence).

Section decisions.
Context {Hsha : Sha256} {Hclk : Clock} {Hdec : DecisionSerde}.

Definition decision_build (request : AuthorizationRequest) (version : Z)
    (kind : AuthorizationDecisionKind) (grant : option string)
    (denial : option AuthorizationDenialReason) (decided_at valid_until : Instant)
    : outcome AuthorizationDecision :=
  let shape_is_valid := match kind with
                        | Allow => negb (is_some denial)
                        | Deny => negb (is_some grant) && is_some denial
                        end in
  ensure shape_is_valid
    (InvariantViolated "authorization decision fields contradict its outcome");;
  ensure (negb (valid_until <=? decided_at))
    (InvariantViolated "authorization decision expiry must follow admission");;
  canonical ← ok_or (decision_canonical request version kind grant denial decided_at valid_until)
    (InvariantViolated "authorization decision cannot be canonicalized");
  Ok (MkDecision (sha256_hex canonical) request version kind grant denial decided_at valid_until).

Definition decision_allow (request : AuthorizationRequest) (version : Z) (grant : option string)
    (decided_at valid_until : Instant) : outcome AuthorizationDecision :=
  decision_build request version Allow grant None decided_at valid_until.

Definition decision_deny (request : AuthorizationRequest) (version : Z)
    (reason : AuthorizationDenialReason) (decided_at valid_until : Instant)
    : outcome AuthorizationDecision :=
  decision_build request version Deny None (Some reason) decided_at valid_until.

Definition decision_validate (d : AuthorizationDecision) : outcome unit :=
  principal_validate (request_principal (decision_request d));;
  rebuilt ← decision_build (decision_request d) (decision_policy_version d) (decision_kind d)
    (decision_grant_id d) (decision_denial_reason d) (decision_decided_at d)
    (decision_valid_until d);
  ensure (decision_id rebuilt == decision_id d)
    (InvariantViolated "authorization decision id does not seal its contents").

End decisions.

(** ** The policy *)

Inductive AuthorizationPolicyEvent :=
| PolicyOpened (policy_id : string) (owner : AuthenticatedPrincipal)
    (separation_rules : list SeparationRule) (opened_at : Instant)
| PolicyGrantIssued (policy_id : string) (grant : AuthorizationGrant) (issued_at : Instant)
| PolicyGrantRevoked (policy_id : string) (revocation : AuthorizationRevocation)
| PolicyDecisionRecorded (policy_id : string) (decision : AuthorizationDecision).

Definition policy_event_id (e : AuthorizationPolicyEvent) : string :=
  match e with
  | PolicyOpened id _ _ _ | PolicyGrantIssued id _ _ | PolicyGrantRevoked id _
  | PolicyDecisionRecorded id _ => id
  end.

Record AuthorizationPolicy := MkPolicy {
  policy_id : option string;
  policy_owner : option AuthenticatedPrincipal;
  policy_version : Z;
  policy_grants : gmap string AuthorizationGrant;
  policy_revoked : gset string;
  policy_separation_rules : gmap AuthorizationAction SeparationRule;
  policy_decisions_by_request : gmap string AuthorizationDecision;
  policy_decisions_by_id : gmap string AuthorizationDecision;
}.

#[export] Instance AuthorizationPolicy_eta : Eta AuthorizationPolicy := λ p,
  MkPolicy (policy_id p) (policy_owner p) (policy_version p) (policy_grants p) (policy_revoked p)
    (policy_separation_rules p) (policy_decisions_by_request p) (policy_decisions_by_id p).

Definition policy_empty : AuthorizationPolicy := MkPolicy None None 0 ∅ ∅ ∅ ∅ ∅.

Definition validity_contains (parent child : option Instant) : bool :=
  match parent, child with
  | None, _ => true
  | Some _, None => false
  | Some parent, Some child => child <=? parent
  end.

Definition owner_permits (action : AuthorizationAction) : bool :=
  match action with
  | AA_ReadAuthorizationPolicy | AA_IssueAuthorizationGrant | AA_RevokeAuthorizationGrant
  | AA_ReadAuthorizationDecisions => true
  | _ => false
  end.

Definition separation_rule_map (rules : list SeparationRule)
    : outcome (gmap AuthorizationAction SeparationRule) :=
  let mapped : gmap AuthorizationAction SeparationRule :=
    foldl (λ m rule, <[rule_execution_action rule := rule]> m) ∅ rules in
  ensure (size mapped =? length rules)%nat (Conflict "authorization_separation_rule");;
  Ok mapped.

Section policy.
Context (p : AuthorizationPolicy).

Definition is_owner (principal : AuthenticatedPrincipal) : bool :=
  policy_owner p == Some principal.

(** The source recurses to the parent until it finds none.  A parent has a
    greater delegation depth than its child and the depth is a [u8], so the
    256 levels allowed here are never used up. *)
Fixpoint chain_is_live (fuel : nat) (g : AuthorizationGrant) (now : Instant) : bool :=
  match fuel with
  | O => false
  | S fuel =>
      if bool_decide (grant_id g ∈ policy_revoked p) || negb (grant_is_active_at g now) then false
      else match grant_parent_id g with
           | None => is_owner (grant_issued_by g)
           | Some parent_id =>
               is_some_and (policy_grants p !! parent_id) (λ parent,
                 (grant_grantee parent == principal_id (grant_issued_by g)) &&
                 chain_is_live fuel parent now)
           end
  end.

Definition grant_chain_fuel : nat := 256.

Definition grant_chain_is_live (g : AuthorizationGrant) (now : Instant) : bool :=
  chain_is_live grant_chain_fuel g now.

Definition policy_permits (principal : AuthenticatedPrincipal) (action : AuthorizationAction)
    (scope : AuthorizationScope) (now : Instant) : bool :=
  (is_owner principal && owner_permits action) ||
  any (λ g, (grant_grantee g == principal_id principal) && grant_permits g action scope now &&
            grant_chain_is_live g now) (btree_values (policy_grants p)).

Definition may_delegate (issuer : AuthenticatedPrincipal) (child : AuthorizationGrant)
    (now : Instant) : bool :=
  match grant_parent_id child with
  | None => false
  | Some parent_id =>
      is_some_and (policy_grants p !! parent_id) (λ parent,
        (grant_grantee parent == principal_id issuer)
        && grant_chain_is_live parent now
        && bool_decide (AA_IssueAuthorizationGrant ∈ grant_actions parent)
        && bool_decide (grant_actions child ⊆ grant_actions parent)
        && scope_covers (grant_scope parent) (grant_scope child)
        && (grant_valid_from parent <=? grant_valid_from child)
        && validity_contains (grant_valid_until parent) (grant_valid_until child)
        && (grant_delegation_depth child <? grant_delegation_depth parent))
  end.

Definition matching_grant (request : AuthorizationRequest) (now : Instant)
    : option AuthorizationGrant :=
  List.find (λ g, (grant_grantee g == principal_id (request_principal request)) &&
                  grant_permits g (request_action request) (request_scope request) now &&
                  grant_chain_is_live g now) (btree_values (policy_grants p)).

Definition decision_grant_is_live (d : AuthorizationDecision) (now : Instant) : bool :=
  match decision_grant_id d with
  | Some id => is_some_and (policy_grants p !! id) (λ g, grant_chain_is_live g now)
  | None => is_owner (request_principal (decision_request d)) &&
            owner_permits (request_action (decision_request d))
  end.

(** ** Separation of approval and execution (separation.rs) *)

Definition approval_is_valid (rule : SeparationRule) (request : AuthorizationRequest)
    (approval : AuthorizationDecision) (now : Instant) : bool :=
  (decision_kind approval == Allow)
  && decision_is_live_at approval now
  && decision_grant_is_live approval now
  && (request_action (decision_request approval) == rule_approval_action rule)
  && (request_approved_action (decision_request approval) == Some (request_action request))
  && (principal_id (request_principal (decision_request approval))
      != principal_id (request_principal request))
  && scope_covers (request_scope (decision_request approval)) (request_scope request)
  && (request_target_digest (decision_request approval) == request_target_digest request).

Definition separation_denial (request : AuthorizationRequest)
    (approval : option AuthorizationDecision) (now : Instant) : option AuthorizationDenialReason :=
  match policy_separation_rules p !! request_action request with
  | None => None
  | Some rule =>
      match request_approval_decision_id request with
      | None => Some ApprovalRequired
      | Some approval_id =>
          let valid := is_some_and (option_keep (λ a, decision_id a == approval_id) approval)
                         (λ a, approval_is_valid rule request a now) in
          if negb valid then Some ApprovalInvalid else None
      end
  end.

Definition approval_intent_denial (request : AuthorizationRequest)
    : option AuthorizationDenialReason :=
  match request_approved_action request with
  | None => None
  | Some execution_action =>
      let valid := is_some_and (policy_separation_rules p !! execution_action)
                     (λ rule, rule_approval_action rule == request_action request) in
      if negb valid then Some ApprovalIntentInvalid else None
  end.

(** [a.or_else(|| b)] of the two. *)
Definition request_denial (request : AuthorizationRequest)
    (approval : option AuthorizationDecision) (now : Instant) : option AuthorizationDenialReason :=
  match approval_intent_denial request with
  | Some reason => Some reason
  | None => separation_denial request approval now
  end.

(** ** Work that was already admitted (accepted_work.rs) *)

Definition authority_is_valid (request : AuthorizationRequest) (accepted : AuthorizationDecision)
    : bool :=
  let admitted := request_action (decision_request accepted) in
  (request_accepted_work_decision_id request == Some (decision_id accepted))
  && (decision_kind accepted == Allow)
  && (request_principal (decision_request accepted) == request_principal request)
  && (request_scope (decision_request accepted) == request_scope request)
  && match request_action request with
     | AA_RecoverCeremonyChildren =>
         match admitted with
         | AA_RunCeremony | AA_RunCeremonyStep | AA_PrepareCeremonyChildren
         | AA_ApplyCeremonyTransition | AA_RecoverCeremonyChildren => true
         | _ => false
         end
     | AA_CompleteCeremonyStep | AA_RenewCeremonyStepLease =>
         match admitted with
         | AA_ClaimCeremonyStep | AA_RunCeremonyStep | AA_RunCeremony => true
         | _ => false
         end
     | _ => false
     end.

(** ** What a recorded decision must be backed by *)

Definition decision_is_granted (d : AuthorizationDecision) : bool :=
  let request := decision_request d in
  let now := decision_decided_at d in
  let owner := is_owner (request_principal request) && owner_permits (request_action request) in
  (owner && negb (is_some (decision_grant_id d))) ||
  is_some_and (decision_grant_id d ≫= λ id, policy_grants p !! id) (λ g,
    (grant_grantee g == principal_id (request_principal request)) &&
    grant_permits g (request_action request) (request_scope request) now &&
    grant_chain_is_live g now &&
    is_none_or (grant_valid_until g) (λ until, decision_valid_until d <=? until)).

Definition decision_authority_is_valid_with_authorities (d : AuthorizationDecision)
    (approval accepted : option AuthorizationDecision) : bool :=
  let request := decision_request d in
  let now := decision_decided_at d in
  if 300 * 1000000000 <? decision_valid_until d - now then false else
  let continuation := is_some_and accepted (authority_is_valid request) in
  let owner := is_owner (request_principal request) && owner_permits (request_action request) in
  let denial := request_denial request approval now in
  match decision_kind d with
  | Allow => continuation || (decision_is_granted d && negb (is_some denial))
  | Deny =>
      let expected := if negb owner && negb (is_some (matching_grant request now))
                      then Some NoMatchingGrant else denial in
      negb (is_some (decision_grant_id d)) && (decision_denial_reason d == expected)
  end.

Definition decision_authority_is_valid (d : AuthorizationDecision) : bool :=
  let request := decision_request d in
  decision_authority_is_valid_with_authorities d
    (request_approval_decision_id request ≫= λ id, policy_decisions_by_id p !! id)
    (request_accepted_work_decision_id request ≫= λ id, policy_decisions_by_id p !! id).

End policy.

(** ** Deciding *)

Section deciding.
Context {Hsha : Sha256} {Hclk : Clock} {Hdec : DecisionSerde}.
Context (p : AuthorizationPolicy).

Definition policy_decide_open (id : string) (owner : AuthenticatedPrincipal)
    (rules : list SeparationRule) (opened_at : Instant)
    : outcome (option AuthorizationPolicyEvent) :=
  principal_validate owner;;
  ensure (principal_kind owner == TrustedHost)
    (InvariantViolated "authorization policy owner must be an explicit trusted host");;
  proposed ← separation_rule_map rules;
  match policy_id p, policy_owner p with
  | None, None => Ok (Some (PolicyOpened id owner rules opened_at))
  | Some stored, Some stored_owner =>
      if (stored == id) && (stored_owner == owner)
         && bool_decide (policy_separation_rules p = proposed)
      then Ok None else Err (Conflict "authorization_policy")
  | _, _ => Err (Conflict "authorization_policy")
  end.

(** An [AuthorizationDecisionPlan]: the decision and the event to append. *)
Notation DecisionPlan := (AuthorizationDecision * option AuthorizationPolicyEvent)%type.

Definition ttl_expiry (now : Instant) (ttl : Z) : outcome Instant :=
  ok_or (checked_add_ms now (ttl * 1000))
    (InvariantViolated "authorization decision expiry exceeds supported time range").

Definition decide_authorize_with_decisions (request : AuthorizationRequest)
    (existing approval : option AuthorizationDecision) (now : Instant) (ttl : Z)
    : outcome DecisionPlan :=
  id ← ok_or (policy_id p) (NotFound "authorization_policy");
  match existing with
  | Some existing =>
      if decision_request existing == request then Ok (existing, None)
      else Err (Conflict "authorization_request")
  | None =>
      let grant := matching_grant p request now in
      let owner := is_owner p (request_principal request) && owner_permits (request_action request) in
      let denial := if negb owner && negb (is_some grant) then Some NoMatchingGrant
                    else request_denial p request approval now in
      requested_until ← ttl_expiry now ttl;
      let valid_until := match grant ≫= grant_valid_until with
                         | Some until => Z.min until requested_until
                         | None => requested_until
                         end in
      decision ← match denial with
                 | Some reason =>
                     decision_deny request (policy_version_next (policy_version p)) reason now
                       requested_until
                 | None =>
                     decision_allow request (policy_version_next (policy_version p))
                       (grant_id <$> grant) now valid_until
                 end;
      Ok (decision, Some (PolicyDecisionRecorded id decision))
  end.

Definition decide_authorize (request : AuthorizationRequest) (now : Instant) (ttl : Z)
    : outcome DecisionPlan :=
  decide_authorize_with_decisions request
    (policy_decisions_by_request p !! request_id request)
    (request_approval_decision_id request ≫= λ id, policy_decisions_by_id p !! id) now ttl.

Definition decide_accepted_work (request : AuthorizationRequest)
    (existing : option AuthorizationDecision) (accepted : AuthorizationDecision)
    (now : Instant) (ttl : Z) : outcome DecisionPlan :=
  id ← ok_or (policy_id p) (NotFound "authorization_policy");
  match existing with
  | Some existing =>
      if decision_request existing == request then Ok (existing, None)
      else Err (Conflict "authorization_request")
  | None =>
      ensure (authority_is_valid request accepted) (InvariantViolated
        "accepted-work authorization does not match its sealed admission");;
      valid_until ← ttl_expiry now ttl;
      decision ← decision_allow request (policy_version_next (policy_version p)) None now valid_until;
      Ok (decision, Some (PolicyDecisionRecorded id decision))
  end.

Definition grant_authority_is_valid (issuer : AuthenticatedPrincipal) (g : AuthorizationGrant)
    (now : Instant) : bool :=
  if is_owner p issuer then negb (is_some (grant_parent_id g)) else may_delegate p issuer g now.

Definition decide_issue (issuer : AuthenticatedPrincipal) (g : AuthorizationGrant) (now : Instant)
    : outcome (option AuthorizationPolicyEvent) :=
  grant_validate g;;
  id ← ok_or (policy_id p) (NotFound "authorization_policy");
  principal_validate issuer;;
  ensure (grant_issued_by g == issuer) (InvariantViolated
    "authorization grant issuer must be the authenticated principal");;
  match policy_grants p !! grant_id g with
  | Some existing => if existing == g then Ok None else Err (Conflict "authorization_grant")
  | None =>
      ensure (grant_authority_is_valid issuer g now) (InvariantViolated
        "principal cannot delegate the requested authorization grant");;
      Ok (Some (PolicyGrantIssued id g now))
  end.

Definition revocation_is_allowed (issuer : AuthenticatedPrincipal) (g : AuthorizationGrant)
    (now : Instant) : bool :=
  is_owner p issuer || (grant_issued_by g == issuer)
  || policy_permits p issuer AA_RevokeAuthorizationGrant (grant_scope g) now.

Definition decide_revoke (issuer : AuthenticatedPrincipal) (id_ reason : string) (now : Instant)
    : outcome (option AuthorizationPolicyEvent) :=
  id ← ok_or (policy_id p) (NotFound "authorization_policy");
  g ← ok_or (policy_grants p !! id_) (NotFound "authorization_grant");
  if bool_decide (id_ ∈ policy_revoked p) then Ok None else
  principal_validate issuer;;
  ensure (revocation_is_allowed issuer g now)
    (InvariantViolated "principal cannot revoke the authorization grant");;
  Ok (Some (PolicyGrantRevoked id (MkRevocation id_ issuer reason now))).

(** ** Folding *)

Definition apply_opened (id : string) (owner : AuthenticatedPrincipal) (rules : list SeparationRule)
    : outcome AuthorizationPolicy :=
  ensure (negb (is_some (policy_id p))) (AlreadyExists "authorization_policy");;
  principal_validate owner;;
  ensure (principal_kind owner == TrustedHost)
    (InvariantViolated "authorization policy owner must be an explicit trusted host");;
  mapped ← separation_rule_map rules;
  Ok (p <| policy_id := Some id |> <| policy_owner := Some owner |>
        <| policy_separation_rules := mapped |>).

Definition apply_grant (g : AuthorizationGrant) (issued_at : Instant)
    : outcome AuthorizationPolicy :=
  ensure (is_some (policy_id p)) (NotFound "authorization_policy");;
  ensure (negb (is_some (policy_grants p !! grant_id g))) (AlreadyExists "authorization_grant");;
  grant_validate g;;
  ensure (grant_authority_is_valid (grant_issued_by g) g issued_at) (InvariantViolated
    "stored authorization grant has invalid delegation authority");;
  Ok (p <| policy_grants := <[grant_id g := g]> (policy_grants p) |>).

Definition apply_revocation (r : AuthorizationRevocation) : outcome AuthorizationPolicy :=
  principal_validate (revocation_by r);;
  g ← ok_or (policy_grants p !! revocation_grant_id r) (NotFound "authorization_grant");
  ensure (negb (bool_decide (revocation_grant_id r ∈ policy_revoked p)))
    (AlreadyExists "authorization_revocation");;
  ensure (revocation_is_allowed (revocation_by r) g (revocation_at r))
    (InvariantViolated "stored authorization revocation has invalid authority");;
  Ok (p <| policy_revoked := {[revocation_grant_id r]} ∪ policy_revoked p |>).

Definition apply_decision (d : AuthorizationDecision) : outcome AuthorizationPolicy :=
  decision_validate d;;
  ensure (decision_policy_version d == policy_version_next (policy_version p))
    (InvariantViolated "authorization decision carries the wrong policy version");;
  ensure (negb (is_some (policy_decisions_by_request p !! request_id (decision_request d))
                || is_some (policy_decisions_by_id p !! decision_id d)))
    (AlreadyExists "authorization_decision");;
  ensure (decision_authority_is_valid p d)
    (InvariantViolated "stored authorization decision contradicts the active policy");;
  Ok (p <| policy_decisions_by_request :=
             <[request_id (decision_request d) := d]> (policy_decisions_by_request p) |>
        <| policy_decisions_by_id := <[decision_id d := d]> (policy_decisions_by_id p) |>).

Definition policy_apply (event : AuthorizationPolicyEvent) : outcome AuthorizationPolicy :=
  ensure (is_none_or (policy_id p) (λ id, policy_event_id event == id))
    (InvariantViolated "authorization event belongs to another policy");;
  next ← match event with
         | PolicyOpened id owner rules _ => apply_opened id owner rules
         | PolicyGrantIssued _ g issued_at => apply_grant g issued_at
         | PolicyGrantRevoked _ r => apply_revocation r
         | PolicyDecisionRecorded _ d => apply_decision d
         end;
  Ok (next <| policy_version := policy_version_next (policy_version next) |>).

(** The fold of a projection that keeps no decisions: the authorities a
    decision names are supplied. *)
Definition apply_projected_with_authorities (event : AuthorizationPolicyEvent)
    (approval accepted : option AuthorizationDecision) : outcome AuthorizationPolicy :=
  match event with
  | PolicyDecisionRecorded id d =>
      ensure (policy_id p == Some id)
        (InvariantViolated "authorization event belongs to another policy");;
      decision_validate d;;
      ensure (decision_policy_version d == policy_version_next (policy_version p))
        (InvariantViolated "authorization decision carries the wrong policy version");;
      ensure (decision_authority_is_valid_with_authorities p d approval accepted)
        (InvariantViolated "stored authorization decision contradicts the active policy");;
      Ok (p <| policy_version := policy_version_next (policy_version p) |>)
  | _ => policy_apply event
  end.

Definition apply_projected (event : AuthorizationPolicyEvent)
    (approval : option AuthorizationDecision) : outcome AuthorizationPolicy :=
  apply_projected_with_authorities event approval None.

Definition restore_version (version : Z) : outcome AuthorizationPolicy :=
  ensure (negb (version <? policy_version p))
    (InvariantViolated "authorization projection version precedes its state");;
  Ok (p <| policy_version := version |>).

End deciding.

Section rehydration.
Context {Hsha : Sha256} {Hclk : Clock} {Hdec : DecisionSerde}.

Fixpoint policy_fold (p : AuthorizationPolicy) (events : list AuthorizationPolicyEvent)
    : outcome AuthorizationPolicy :=
  match events with
  | [] => Ok p
  | event :: events => p ← policy_apply p event; policy_fold p events
  end.

Definition policy_rehydrate (events : list AuthorizationPolicyEvent) : outcome AuthorizationPolicy :=
  policy_fold policy_empty events.

End rehydration.
