(* ===== verification/AuditLog.v ===== *)
(** * The audit journal

    made-core/src/entities/audit_record.rs with its wire form, audit_chain.rs,
    audit_fact.rs, authorized_audit_fact.rs, ceremony_event_reader.rs and the
    value objects under value_objects/audit: how a ceremony event is sealed as
    the next record of its ceremony's journal, how a stored record is read back,
    and how a journal is verified.

    The SHA-256 digest in bytes, the RFC 3339 rendering of a timestamp and the
    JSON form of events and of authorization evidence are parameters
    ([AuditSerde]). *)

From S2P Require Import Prelude Errors Text Values Steps Definitions Interventions Instance.
From S2P Require Import Authorization.

(** ** What a record names *)

Inductive AuditEventType :=
  | AT_HostHandoffRecorded | AT_CeremonyDefinitionValidated | AT_CeremonyDefinitionPublished
  | AT_CeremonyInstanceStarted | AT_StepStarted | AT_StepLeaseRenewed | AT_StepCompleted
  | AT_StepFailed | AT_ContextWritten | AT_StateIterationStarted | AT_TransitionApplied
  | AT_InterventionRequested | AT_InterventionResponded | AT_InterventionClosed
  | AT_InterventionDeliveryAcknowledged | AT_EvidenceCollected | AT_ParticipantsBound
  | AT_ReasonAsserted | AT_HumanApprovalRecorded | AT_HumanDeferralRecorded
  | AT_ChildSpawnPlanned | AT_ChildSpawnPlanAdopted | AT_ChildCompletionAccepted
  | AT_CeremonyCompleted | AT_CeremonyFailed | AT_InstanceImported | AT_MemoryRecalled
  | AT_CeremonyPaused | AT_CeremonyResumed | AT_CeremonyCancelled | AT_CeremonyDeadlineExceeded
  | AT_StateDeadlineExceeded | AT_StepDeadlineExceeded | AT_LateStepResultObserved
  | AT_ExecutionReceiptLinked | AT_SuccessorPlanned | AT_SuccessionCarried.

#[export] Instance AuditEventType_eq_dec : EqDecision AuditEventType.
Proof. solve_decision. Defined.

Definition AuditEventType_as_str (t : AuditEventType) : string :=
  match t with
  | AT_HostHandoffRecorded => "host_handoff_recorded"
  | AT_CeremonyDefinitionValidated => "ceremony_definition_validated"
  | AT_CeremonyDefinitionPublished => "ceremony_definition_published"
  | AT_CeremonyInstanceStarted => "ceremony_instance_started"
  | AT_StepStarted => "step_started"
  | AT_StepLeaseRenewed => "step_lease_renewed"
  | AT_StepCompleted => "step_completed"
  | AT_StepFailed => "step_failed"
  | AT_ContextWritten => "context_written"
  | AT_StateIterationStarted => "state_iteration_started"
  | AT_TransitionApplied => "transition_applied"
  | AT_InterventionRequested => "intervention_requested"
  | AT_InterventionResponded => "intervention_responded"
  | AT_InterventionClosed => "intervention_closed"
  | AT_InterventionDeliveryAcknowledged => "intervention_delivery_acknowledged"
  | AT_EvidenceCollected => "evidence_collected"
  | AT_ParticipantsBound => "participants_bound"
  | AT_ReasonAsserted => "reason_asserted"
  | AT_HumanApprovalRecorded => "human_approval_recorded"
  | AT_HumanDeferralRecorded => "human_deferral_recorded"
  | AT_ChildSpawnPlanned => "child_spawn_planned"
  | AT_ChildSpawnPlanAdopted => "child_spawn_plan_adopted"
  | AT_ChildCompletionAccepted => "child_completion_accepted"
  | AT_CeremonyCompleted => "ceremony_completed"
  | AT_CeremonyFailed => "ceremony_failed"
  | AT_InstanceImported => "instance_imported"
  | AT_MemoryRecalled => "memory_recalled"
  | AT_CeremonyPaused => "ceremony_paused"
  | AT_CeremonyResumed => "ceremony_resumed"
  | AT_CeremonyCancelled => "ceremony_cancelled"
  | AT_CeremonyDeadlineExceeded => "ceremony_deadline_exceeded"
  | AT_StateDeadlineExceeded => "state_deadline_exceeded"
  | AT_StepDeadlineExceeded => "step_deadline_exceeded"
  | AT_LateStepResultObserved => "late_step_result_observed"
  | AT_ExecutionReceiptLinked => "execution_receipt_linked"
  | AT_SuccessorPlanned => "successor_planned"
  | AT_SuccessionCarried => "succession_carried"
  end.

Definition AuditEventType_is_terminal (t : AuditEventType) : bool :=
  match t with
  | AT_CeremonyCompleted | AT_CeremonyFailed | AT_CeremonyCancelled | AT_CeremonyDeadlineExceeded
  | AT_StateDeadlineExceeded => true
  | _ => false
  end.

Definition records_human_authority (t : AuditEventType) : bool :=
  match t with AT_HumanApprovalRecorded | AT_HumanDeferralRecorded => true | _ => false end.

(** [CeremonyEvent::event_type]. *)
Definition event_type (e : CeremonyEvent) : AuditEventType :=
  match e with
  | EvHostHandoffRecorded _ => AT_HostHandoffRecorded
  | EvCeremonyInstanceStarted _ => AT_CeremonyInstanceStarted
  | EvParticipantsBound _ => AT_ParticipantsBound
  | EvStepStarted _ => AT_StepStarted
  | EvStepLeaseRenewed _ => AT_StepLeaseRenewed
  | EvStepCompleted _ => AT_StepCompleted
  | EvStepFailed _ => AT_StepFailed
  | EvContextWritten _ => AT_ContextWritten
  | EvStateIterationStarted _ => AT_StateIterationStarted
  | EvTransitionApplied _ => AT_TransitionApplied
  | EvInterventionRequested _ => AT_InterventionRequested
  | EvInterventionResponded _ _ => AT_InterventionResponded
  | EvInterventionClosed _ _ _ => AT_InterventionClosed
  | EvInterventionDeliveryAcknowledged _ _ => AT_InterventionDeliveryAcknowledged
  | EvEvidenceCollected _ => AT_EvidenceCollected
  | EvReasonAsserted _ => AT_ReasonAsserted
  | EvHumanApprovalRecorded _ => AT_HumanApprovalRecorded
  | EvHumanDeferralRecorded _ => AT_HumanDeferralRecorded
  | EvCeremonyCompleted _ _ => AT_CeremonyCompleted
  | EvInstanceImported _ => AT_InstanceImported
  | EvMemoryRecalled _ _ => AT_MemoryRecalled
  | EvChildSpawnPlanned _ _ => AT_ChildSpawnPlanned
  | EvChildSpawnPlanAdopted _ _ _ => AT_ChildSpawnPlanAdopted
  | EvChildCompletionAccepted _ _ => AT_ChildCompletionAccepted
  | EvCeremonyPaused _ _ => AT_CeremonyPaused
  | EvCeremonyResumed _ => AT_CeremonyResumed
  | EvCeremonyCancelled _ _ => AT_CeremonyCancelled
  | EvCeremonyDeadlineExceeded _ _ => AT_CeremonyDeadlineExceeded
  | EvStateDeadlineExceeded _ _ => AT_StateDeadlineExceeded
  | EvStepDeadlineExceeded _ _ _ => AT_StepDeadlineExceeded
  | EvLateStepResultObserved _ _ => AT_LateStepResultObserved
  | EvExecutionReceiptLinked _ _ _ => AT_ExecutionReceiptLinked
  | EvSuccessorPlanned _ => AT_SuccessorPlanned
  | EvSuccessionCarried _ _ => AT_SuccessionCarried
  end.

(** [CeremonyEvent::schema_version]: the version its payload is written in. *)
Definition schema_version (e : CeremonyEvent) : Z :=
  match e with
  | EvStepStarted e =>
      if is_some (ss_budget_reservation_id e) then 6
      else if is_some (ss_deadline e) then 5
      else if is_some (ss_state_visit e) then 4
      else if is_some (ss_role_from e) || is_some (ss_sealed_role e) then 3
      else if is_some (ss_state_iteration e) then 2 else 1
  | EvStepCompleted e =>
      if is_some (sc_state_visit e) then 3 else if is_some (sc_state_iteration e) then 2 else 1
  | EvStepFailed e =>
      if is_some (res_failure_kind (sf_result e)) then 4
      else if is_some (sf_state_visit e) then 3
      else if is_some (sf_state_iteration e) then 2 else 1
  | EvTransitionApplied e =>
      if is_some_and (ta_destination e) (λ destination, is_some (sve_deadline destination)) then 4
      else if is_some (ta_destination e) || is_some (trec_state_visit (ta_transition e)) then 3
      else if is_some (trec_state_iteration (ta_transition e)) then 2 else 1
  | EvStateIterationStarted e => if is_some (sis_state_visit e) then 2 else 1
  | EvContextWritten e => if is_some (cw_state_visit e) then 2 else 1
  | EvCeremonyInstanceStarted e =>
      if is_some (cis_budget_account_id e) then 4
      else if is_some (cis_ceremony_deadline e) || is_some (cis_state_deadline e) then 3
      else if is_some (cis_lineage e) then 2 else 1
  | EvStepLeaseRenewed e => if is_some (slr_request e) then 2 else 1
  | _ => 1
  end.

Definition EventSchemaVersion_new (value : Z) : outcome Z :=
  ensure (negb (value =? 0)) (MustBeNonZero "event_schema_version");; Ok value.

(** ** Actors and positions *)

Definition AuditActorKind_as_str (k : AuditActorKind) : string :=
  match k with
  | ActorHuman => "human" | ActorAgent => "agent" | ActorService => "service" | ActorEngine => "engine"
  end.

Record AuditActor := MkAuditActor {
  actor_id : string;
  actor_kind : AuditActorKind;
  actor_role_id : option RoleId;
}.

#[export] Instance AuditActor_eq_dec : EqDecision AuditActor.
Proof. solve_decision. Defined.

Definition AuditActor_new (id : string) (kind : AuditActorKind) (role : option RoleId)
    : outcome AuditActor :=
  let trimmed := str_trim id in
  ensure (trimmed != "") (EmptyField "audit_actor.actor_id");;
  ensure (Z.of_nat (String.length trimmed) <=? 256)
    (FieldTooLong "audit_actor.actor_id" (Z.of_nat (String.length trimmed)) 256);;
  Ok (MkAuditActor trimmed kind role).

Definition AuditActor_engine (id : string) : outcome AuditActor :=
  AuditActor_new id ActorEngine None.

(** [AuditSequence]: a [u64] that saturates. *)
Definition AuditSequence_FIRST : Z := 1.
Definition AuditSequence_new (value : Z) : outcome Z :=
  ensure (negb (value =? 0)) (MustBeNonZero "audit_sequence");; Ok value.
Definition sequence_next (s : Z) : Z := Z.min u64_max (s + 1).
Definition sequence_follows (s previous : Z) : bool := s =? Z.min u64_max (previous + 1).
Definition sequence_is_first (s : Z) : bool := s =? AuditSequence_FIRST.

(** ** Digests in hexadecimal (audit_record_hash.rs)

    A digest is the string of its 32 bytes. *)

Definition hex_digit (n : Z) : ascii :=
  ascii_of_N (Z.to_N (if n <? 10 then 48 + n else 87 + n)).

Fixpoint hash_to_hex (bytes : string) : string :=
  match bytes with
  | "" => ""
  | String byte rest =>
      String (hex_digit (byte_code byte / 16)) (String (hex_digit (byte_code byte mod 16))
        (hash_to_hex rest))
  end%string.

(** [char::to_digit(16)] of a byte. *)
Definition hex_value (c : ascii) : option Z :=
  let b := byte_code c in
  if (48 <=? b) && (b <=? 57) then Some (b - 48)
  else if (97 <=? b) && (b <=? 102) then Some (b - 87)
  else if (65 <=? b) && (b <=? 70) then Some (b - 55)
  else None.

(** [u8::from_str_radix(_, 16)] of two bytes: a leading plus sign is skipped. *)
Definition from_str_radix_2 (a b : ascii) : option Z :=
  if byte_code a =? 43 then hex_value b
  else high ← hex_value a; low ← hex_value b; Some (high * 16 + low).

Definition continuation_byte (c : ascii) : bool :=
  (128 <=? byte_code c) && (byte_code c <=? 191).

(** The loop over the 32 positions.  Slicing a [str] in the middle of a
    character panics. *)
Fixpoint parse_hex_pairs (s : string) : outcome string :=
  match s with
  | String a (String b rest) =>
      (if continuation_byte a
          || match rest with String c _ => continuation_byte c | _ => false end
       then Panic else Ok tt);;
      byte ← ok_or (from_str_radix_2 a b) (InvalidCharacters "audit_record_hash");
      bytes ← parse_hex_pairs rest;
      Ok (String (ascii_of_N (Z.to_N byte)) bytes)
  | _ => Ok ""%string
  end.

Definition parse_hex (value : string) : outcome string :=
  let value := str_trim value in
  ensure (Nat.eqb (String.length value) 64) (InvalidCharacters "audit_record_hash");;
  parse_hex_pairs value.

(** ** Facts and records *)

(** [TraceContext]: the three fields of a W3C traceparent. *)
Record TraceContext := MkTraceContext { trace_trace_id : string; trace_span_id : string; trace_flags : string }.

Record AuditFact := MkAuditFact {
  fact_event_id : string;
  fact_event : CeremonyEvent;
  fact_ceremony_id : CeremonyId;
  fact_definition_name : string;
  fact_definition_version : string;
  fact_occurred_at : Instant;
  fact_actor : AuditActor;
  fact_correlation_id : option string;
  fact_causation_id : option string;
  fact_trace : option TraceContext;
}.

(** [AuthorizedAuditFact], built by [AuditFact::authorized]. *)
Definition AuthorizedAuditFact : Type := AuditFact * AuthorizationEvidence.
Definition fact_authorized (fact : AuditFact) (evidence : AuthorizationEvidence)
    : AuthorizedAuditFact := (fact, evidence).

Record AuditRecord := MkAuditRecord {
  ar_event_id : string;
  ar_event_type : AuditEventType;
  ar_schema_version : Z;
  ar_ceremony_id : CeremonyId;
  ar_definition_name : string;
  ar_definition_version : string;
  ar_sequence : Z;
  ar_occurred_at : Instant;
  ar_actor : AuditActor;
  ar_correlation_id : option string;
  ar_causation_id : option string;
  ar_trace_id : option string;
  ar_event_schema_version : option Z;
  ar_event : option CeremonyEvent;
  ar_authorization_evidence : option AuthorizationEvidence;
  ar_previous_record_hash : option string;
  ar_record_hash : string;
}.

#[export] Instance AuditRecord_eta : Eta AuditRecord := λ r,
  MkAuditRecord (ar_event_id r) (ar_event_type r) (ar_schema_version r) (ar_ceremony_id r)
    (ar_definition_name r) (ar_definition_version r) (ar_sequence r) (ar_occurred_at r)
    (ar_actor r) (ar_correlation_id r) (ar_causation_id r) (ar_trace_id r)
    (ar_event_schema_version r) (ar_event r) (ar_authorization_evidence r)
    (ar_previous_record_hash r) (ar_record_hash r).

(** What the code calls and does not define: the digest as bytes, the RFC 3339
    text of a timestamp, and [serde_json] on events and evidence. *)
Class AuditSerde := {
  sha256_digest : string → string;
  rfc3339 : Instant → option string;
  event_json : CeremonyEvent → option string;
  event_of_json : string → option CeremonyEvent;
  authorization_json : AuthorizationEvidence → option string;
}.

Definition LEGACY_SCHEMA_VERSION : Z := 1.
Definition EVENT_BEARING_SCHEMA_VERSION : Z := 2.
Definition AUTHORIZED_SCHEMA_VERSION : Z := 3.

Definition canonical_scheme (schema_version : Z) : option string :=
  if schema_version =? LEGACY_SCHEMA_VERSION then Some "underpass.made.audit-record.v1"
  else if schema_version =? EVENT_BEARING_SCHEMA_VERSION then Some "underpass.made.audit-record.v2"
  else if schema_version =? AUTHORIZED_SCHEMA_VERSION then Some "underpass.made.audit-record.v3"
  else None.

(** [write_field] is [frame]. *)
Definition write_optional (value : option string) : string :=
  match value with
  | None => String (ascii_of_N 0) ""
  | Some value => String (ascii_of_N 1) (frame value)
  end.

Definition u32_bytes (n : Z) : string := be_bytes 4 (Z.to_N n).
Definition u64_bytes (n : Z) : string := be_bytes 8 (Z.to_N n).

Section records.
Context {Haud : AuditSerde}.

(** The payload part of the preimage, under versions 2 and 3. *)
Definition canonical_payload (r : AuditRecord) : outcome string :=
  if (ar_schema_version r =? EVENT_BEARING_SCHEMA_VERSION)
     || (ar_schema_version r =? AUTHORIZED_SCHEMA_VERSION)
  then
    match ar_event_schema_version r, ar_event r with
    | Some version, Some event =>
        payload ← ok_or (event_json event)
          (InvariantViolated "ceremony event cannot be rendered canonically");
        Ok (u32_bytes version +:+ frame payload)
    | _, _ => Err (InvariantViolated "a version-2 audit record must carry its event")
    end
  else Ok ""%string.

(** The authorization part, under version 3. *)
Definition canonical_authorization (r : AuditRecord) : outcome string :=
  if ar_schema_version r =? AUTHORIZED_SCHEMA_VERSION then
    evidence ← ok_or (ar_authorization_evidence r)
      (InvariantViolated "a version-3 audit record must carry authorization evidence");
    authorization ← ok_or (authorization_json evidence)
      (InvariantViolated "authorization evidence cannot be rendered canonically");
    Ok (frame authorization)
  else Ok ""%string.

(** The bytes [compute_hash] digests. *)
Definition preimage (r : AuditRecord) : outcome string :=
  occurred_at ← ok_or (rfc3339 (ar_occurred_at r))
    (InvariantViolated "audit record timestamp cannot be rendered canonically");
  scheme ← ok_or (canonical_scheme (ar_schema_version r))
    (InvariantViolated "audit record schema version has no canonical form");
  payload ← canonical_payload r;
  authorization ← canonical_authorization r;
  Ok (scheme +:+ u32_bytes (ar_schema_version r)
      +:+ frame (ar_event_id r)
      +:+ frame (AuditEventType_as_str (ar_event_type r))
      +:+ frame (ar_ceremony_id r)
      +:+ frame (ar_definition_name r)
      +:+ frame (ar_definition_version r)
      +:+ u64_bytes (ar_sequence r)
      +:+ frame occurred_at
      +:+ frame (actor_id (ar_actor r))
      +:+ frame (AuditActorKind_as_str (actor_kind (ar_actor r)))
      +:+ write_optional (actor_role_id (ar_actor r))
      +:+ write_optional (ar_correlation_id r)
      +:+ write_optional (ar_causation_id r)
      +:+ write_optional (ar_trace_id r)
      +:+ write_optional (ar_previous_record_hash r)
      +:+ payload +:+ authorization)%string.

Definition compute_hash (r : AuditRecord) : outcome string :=
  canonical ← preimage r; Ok (sha256_digest canonical).

Definition has_canonical_shape (r : AuditRecord) : bool :=
  let event := is_some (ar_event r) in
  let version := is_some (ar_event_schema_version r) in
  let evidence := is_some (ar_authorization_evidence r) in
  if ar_schema_version r =? LEGACY_SCHEMA_VERSION then negb event && negb version && negb evidence
  else if ar_schema_version r =? EVENT_BEARING_SCHEMA_VERSION then event && version && negb evidence
  else if ar_schema_version r =? AUTHORIZED_SCHEMA_VERSION then event && version && evidence
  else false.

Definition digest_is_intact (r : AuditRecord) : outcome bool :=
  if negb (has_canonical_shape r) then Ok false else
  hash ← compute_hash r;
  Ok (hash == ar_record_hash r).

Definition validate_predecessor (previous : AuditRecord) : outcome unit :=
  intact ← digest_is_intact previous;
  ensure intact (InvariantViolated
    "an audit record cannot follow an unsupported or altered predecessor").

Definition validate_authorization_evidence (evidence : AuthorizationEvidence) (occurred_at : Instant)
    : outcome unit :=
  ensure (negb (evidence_valid_until evidence <=? evidence_admitted_at evidence))
    (InvariantViolated "audit authorization evidence expiry must follow admission");;
  ensure (negb ((occurred_at <? evidence_admitted_at evidence)
                || (evidence_valid_until evidence <=? occurred_at)))
    (InvariantViolated "audit fact must occur while its authorization evidence is live").

Definition zero_hash : string := String.string_of_list_ascii (replicate 32 (ascii_of_N 0)).

Definition unsealed (fact : AuditFact) (evidence : option AuthorizationEvidence)
    (version sequence : Z) (previous : option string) : AuditRecord :=
  MkAuditRecord (fact_event_id fact) (event_type (fact_event fact)) version (fact_ceremony_id fact)
    (fact_definition_name fact) (fact_definition_version fact) sequence (fact_occurred_at fact)
    (fact_actor fact) (fact_correlation_id fact) (fact_causation_id fact)
    (trace_trace_id <$> fact_trace fact) (Some (schema_version (fact_event fact)))
    (Some (fact_event fact)) evidence previous zero_hash.

Definition seal (fact : AuditFact) (evidence : option AuthorizationEvidence) (version sequence : Z)
    (previous : option string) : outcome AuditRecord :=
  match evidence with
  | Some evidence => validate_authorization_evidence evidence (fact_occurred_at fact)
  | None => Ok tt
  end;;
  let record := unsealed fact evidence version sequence previous in
  hash ← compute_hash record;
  Ok (record <| ar_record_hash := hash |>).

Definition record_first (fact : AuditFact) : outcome AuditRecord :=
  seal fact None EVENT_BEARING_SCHEMA_VERSION AuditSequence_FIRST None.

Definition record_first_authorized (fact : AuthorizedAuditFact) : outcome AuditRecord :=
  seal fact.1 (Some fact.2) AUTHORIZED_SCHEMA_VERSION AuditSequence_FIRST None.

Definition record_following (fact : AuditFact) (previous : AuditRecord) : outcome AuditRecord :=
  validate_predecessor previous;;
  ensure (fact_ceremony_id fact == ar_ceremony_id previous) (InvariantViolated
    "an audit record must belong to the same ceremony as its predecessor");;
  seal fact None EVENT_BEARING_SCHEMA_VERSION (sequence_next (ar_sequence previous))
    (Some (ar_record_hash previous)).

Definition record_following_authorized (fact : AuthorizedAuditFact) (previous : AuditRecord)
    : outcome AuditRecord :=
  validate_predecessor previous;;
  ensure (fact_ceremony_id fact.1 == ar_ceremony_id previous) (InvariantViolated
    "an audit record must belong to the same ceremony as its predecessor");;
  seal fact.1 (Some fact.2) AUTHORIZED_SCHEMA_VERSION (sequence_next (ar_sequence previous))
    (Some (ar_record_hash previous)).

Definition record_continues (r previous : AuditRecord) : bool :=
  (ar_ceremony_id r == ar_ceremony_id previous)
  && sequence_follows (ar_sequence r) (ar_sequence previous)
  && (ar_previous_record_hash r == Some (ar_record_hash previous)).

(** ** Verifying a journal (audit_chain.rs) *)

Inductive AuditChainDefect :=
| DoesNotStartAtTheBeginning (found : Z)
| DigestAltered (at_ : Z)
| UnexpectedRoot (at_ : Z)
| SequenceBroken (expected found : Z)
| LinkBroken (at_ : Z)
| ForeignCeremony (at_ : Z).

Inductive AuditChainVerdict := Intact | Broken (defect : AuditChainDefect).

Definition defect_at (d : AuditChainDefect) : Z :=
  match d with
  | DoesNotStartAtTheBeginning found | SequenceBroken _ found => found
  | DigestAltered at_ | UnexpectedRoot at_ | LinkBroken at_ | ForeignCeremony at_ => at_
  end.

Definition digest_defect (r : AuditRecord) : option AuditChainVerdict :=
  match digest_is_intact r with
  | Ok true => None
  | _ => Some (Broken (DigestAltered (ar_sequence r)))
  end.

Fixpoint verify_rest (previous : AuditRecord) (rest : list AuditRecord) : AuditChainVerdict :=
  match rest with
  | [] => Intact
  | record :: rest =>
      if ar_ceremony_id record != ar_ceremony_id previous
      then Broken (ForeignCeremony (ar_sequence record))
      else if negb (sequence_follows (ar_sequence record) (ar_sequence previous))
      then Broken (SequenceBroken (sequence_next (ar_sequence previous)) (ar_sequence record))
      else match ar_previous_record_hash record with
           | None => Broken (UnexpectedRoot (ar_sequence record))
           | Some hash =>
               if hash != ar_record_hash previous then Broken (LinkBroken (ar_sequence record))
               else match digest_defect record with
                    | Some verdict => verdict
                    | None => verify_rest record rest
                    end
           end
  end.

Definition verify (records : list AuditRecord) : AuditChainVerdict :=
  match records with
  | [] => Intact
  | first :: rest =>
      if negb (sequence_is_first (ar_sequence first))
      then Broken (DoesNotStartAtTheBeginning (ar_sequence first))
      else if is_some (ar_previous_record_hash first)
      then Broken (UnexpectedRoot (ar_sequence first))
      else match digest_defect first with
           | Some verdict => verdict
           | None => verify_rest first rest
           end
  end.

Definition next_sequence (records : list AuditRecord) : Z :=
  match last records with
  | None => AuditSequence_FIRST
  | Some record => sequence_next (ar_sequence record)
  end.

(** ** Reading a stored event (ceremony_event_reader.rs) *)

Definition version_supported (t : AuditEventType) (version : Z) : bool :=
  if version =? 1 then true
  else if version =? 2 then
    match t with
    | AT_CeremonyInstanceStarted | AT_StepLeaseRenewed | AT_StepStarted | AT_StepCompleted
    | AT_StepFailed | AT_TransitionApplied | AT_ContextWritten | AT_StateIterationStarted => true
    | _ => false
    end
  else if version =? 3 then
    match t with
    | AT_CeremonyInstanceStarted | AT_StepStarted | AT_StepCompleted | AT_StepFailed
    | AT_TransitionApplied => true
    | _ => false
    end
  else if version =? 4 then
    match t with
    | AT_CeremonyInstanceStarted | AT_StepStarted | AT_StepFailed => true
    | _ => false
    end
  else if (version =? 5) || (version =? 6) then t == AT_StepStarted
  else false.

Definition unreadable (t : AuditEventType) (version : Z) (reason : string) : DomainError :=
  UnreadableCeremonyEvent (AuditEventType_as_str t) version reason.

Context {Hsha : Sha256}.

Definition validate_seals (e : CeremonyEvent) (t : AuditEventType) (version : Z) : outcome unit :=
  match e with
  | EvStepCompleted completed =>
      ensure (negb (is_some (res_failure_kind (sc_result completed))))
        (unreadable t version "step completion cannot carry a failure kind")
  | EvStepFailed failed =>
      ensure (negb (is_some (res_failure_kind (sf_result failed))
                    && (res_status (sf_result failed) != Failed)))
        (unreadable t version "only failed results carry a failure kind")
  | EvStepStarted started =>
      ensure (negb (is_some (ss_role_from started) && is_some (ss_sealed_role started)))
        (unreadable t version "a step start cannot carry both dynamic and static role seals");;
      ensure (negb (is_some_and (ss_sealed_role started) (λ sealed, sealed != ss_started_by started)))
        (unreadable t version "the sealed static role differs from started_by")
  | EvExecutionReceiptLinked _ link _ =>
      match link_validate link with
      | Ok _ => Ok tt
      | _ => Err (unreadable t version "execution receipt link is invalid")
      end
  | _ => Ok tt
  end.

Definition coordinates_valid (e : CeremonyEvent) : bool :=
  match e with
  | EvStepStarted e => negb (is_some (ss_state_visit e)) || is_some (ss_state_iteration e)
  | EvStepCompleted e => negb (is_some (sc_state_visit e)) || is_some (sc_state_iteration e)
  | EvStepFailed e => negb (is_some (sf_state_visit e)) || is_some (sf_state_iteration e)
  | EvTransitionApplied e =>
      match ta_destination e with
      | Some destination =>
          is_some (trec_state_visit (ta_transition e))
          && is_some (trec_state_iteration (ta_transition e))
          && match StateVisit_next (default StateVisit_FIRST (trec_state_visit (ta_transition e))) with
             | Ok next => next =? sve_state_visit destination
             | _ => false
             end
          && (size (list_to_set (sve_step_ids destination) : gset string)
              =? length (sve_step_ids destination))%nat
      | None => negb (is_some (trec_state_visit (ta_transition e)))
      end
  | _ => true
  end.

Definition reader_read (t : AuditEventType) (version : Z) (raw : string) : outcome CeremonyEvent :=
  ensure (version_supported t version)
    (unreadable t version "no reader exists for this schema version");;
  event ← ok_or (event_of_json raw)
    (unreadable t version "the payload does not deserialize as a ceremony event");
  ensure (event_type event == t)
    (unreadable t version "the payload's tag names a different event type");;
  validate_seals event t version;;
  ensure (coordinates_valid event)
    (unreadable t version "inconsistent state visit coordinates or destination reset");;
  ensure (schema_version event =? version)
    (unreadable t version "the payload shape does not match its schema version");;
  Ok event.

(** ** The stored form (audit_record_serde.rs, audit_record_wire.rs)

    What serde makes of a record: the fields of either shape, the event as
    JSON.  A body that is not an object of the right shape is [None]. *)

Record FlatRecord := MkFlatRecord {
  fw_event_id : string;
  fw_event_type : AuditEventType;
  fw_schema_version : Z;
  fw_ceremony_id : CeremonyId;
  fw_definition_name : string;
  fw_definition_version : string;
  fw_sequence : Z;
  fw_occurred_at : Instant;
  fw_actor : AuditActor;
  fw_correlation_id : option string;
  fw_causation_id : option string;
  fw_trace_id : option string;
  fw_event_schema_version : option Z;
  fw_event : option string;
  fw_previous_record_hash : option string;
  fw_record_hash : string;
}.

Record AuthorizedRecordBody := MkAuthorizedRecordBody {
  aw_event_id : string;
  aw_event_type : AuditEventType;
  aw_ceremony_id : CeremonyId;
  aw_definition_name : string;
  aw_definition_version : string;
  aw_sequence : Z;
  aw_occurred_at : Instant;
  aw_actor : AuditActor;
  aw_correlation_id : option string;
  aw_causation_id : option string;
  aw_trace_id : option string;
  aw_event_schema_version : Z;
  aw_event : string;
  aw_previous_record_hash : option string;
  aw_record_hash : string;
}.

Inductive AuditRecordWire :=
| WireFlat (record : FlatRecord)
| WireAuthorized (schema_version : Z) (record : option AuthorizedRecordBody)
    (authorization : AuthorizationEvidence).

(** Serialization fails when a field's does ([None]). *)
Definition serialize_flat (r : AuditRecord) : option AuditRecordWire :=
  event ← match ar_event r with
          | None => Some None
          | Some event => raw ← event_json event; Some (Some raw)
          end;
  Some (WireFlat (MkFlatRecord (ar_event_id r) (ar_event_type r) (ar_schema_version r)
    (ar_ceremony_id r) (ar_definition_name r) (ar_definition_version r) (ar_sequence r)
    (ar_occurred_at r) (ar_actor r) (ar_correlation_id r) (ar_causation_id r) (ar_trace_id r)
    (ar_event_schema_version r) event (ar_previous_record_hash r) (ar_record_hash r))).

Definition serialize_authorized (r : AuditRecord) : option AuditRecordWire :=
  match ar_event_schema_version r, ar_event r, ar_authorization_evidence r with
  | Some version, Some event, Some authorization =>
      raw ← event_json event;
      Some (WireAuthorized AUTHORIZED_SCHEMA_VERSION (Some (MkAuthorizedRecordBody (ar_event_id r)
        (ar_event_type r) (ar_ceremony_id r) (ar_definition_name r) (ar_definition_version r)
        (ar_sequence r) (ar_occurred_at r) (ar_actor r) (ar_correlation_id r) (ar_causation_id r)
        (ar_trace_id r) version raw (ar_previous_record_hash r) (ar_record_hash r))) authorization)
  | _, _, _ => None
  end.

Definition record_serialize (r : AuditRecord) : option AuditRecordWire :=
  if (ar_schema_version r =? LEGACY_SCHEMA_VERSION)
     || (ar_schema_version r =? EVENT_BEARING_SCHEMA_VERSION) then serialize_flat r
  else if ar_schema_version r =? AUTHORIZED_SCHEMA_VERSION then serialize_authorized r
  else None.

Definition unsupported_schema : DomainError :=
  InvariantViolated "audit record schema version is unsupported".

Definition from_flat_wire (w : FlatRecord) : outcome AuditRecord :=
  ensure ((fw_schema_version w =? LEGACY_SCHEMA_VERSION)
          || (fw_schema_version w =? EVENT_BEARING_SCHEMA_VERSION)) unsupported_schema;;
  event ← match fw_event w, fw_event_schema_version w with
          | Some raw, Some version =>
              event ← reader_read (fw_event_type w) version raw; Ok (Some event)
          | Some _, None => Err (InvariantViolated
              "an audit record carrying an event must name its payload schema version")
          | None, _ => Ok None
          end;
  Ok (MkAuditRecord (fw_event_id w) (fw_event_type w) (fw_schema_version w) (fw_ceremony_id w)
    (fw_definition_name w) (fw_definition_version w) (fw_sequence w) (fw_occurred_at w)
    (fw_actor w) (fw_correlation_id w) (fw_causation_id w) (fw_trace_id w)
    (fw_event_schema_version w) event None (fw_previous_record_hash w) (fw_record_hash w)).

Definition from_authorized_wire (version : Z) (record : option AuthorizedRecordBody)
    (authorization : AuthorizationEvidence) : outcome AuditRecord :=
  ensure (version =? AUTHORIZED_SCHEMA_VERSION) unsupported_schema;;
  w ← ok_or record (InvariantViolated "version-3 audit record body is malformed");
  validate_authorization_evidence authorization (aw_occurred_at w);;
  event ← reader_read (aw_event_type w) (aw_event_schema_version w) (aw_event w);
  Ok (MkAuditRecord (aw_event_id w) (aw_event_type w) version (aw_ceremony_id w)
    (aw_definition_name w) (aw_definition_version w) (aw_sequence w) (aw_occurred_at w)
    (aw_actor w) (aw_correlation_id w) (aw_causation_id w) (aw_trace_id w)
    (Some (aw_event_schema_version w)) (Some event) (Some authorization)
    (aw_previous_record_hash w) (aw_record_hash w)).

Definition record_try_from (w : AuditRecordWire) : outcome AuditRecord :=
  match w with
  | WireFlat record => from_flat_wire record
  | WireAuthorized version record authorization => from_authorized_wire version record authorization
  end.

End records.
