(* ===== verification/Delivery.v ===== *)
(** * Host deliveries

    made-core/src/value_objects/delivery (the record of one item offered to one
    host destination, its states, leases, observations and terms), the filters
    and outcomes of the ledger port under made-core/src/ports, and the decisions
    every store shares: made-adapters/src/delivery/stored_host_delivery.rs and
    stored_integrator_binding.rs.

    Adding a duration to an instant panics outside the calendar of the [time]
    crate; the operations that do so return an [outcome].  The terms of a delivery
    and what a host observed are those of Interventions. *)

From S2P Require Import Prelude Errors Text Values Steps Definitions Interventions.

(** ** Texts *)

(** Prose in which only line feeds and tabs are allowed among the control
    characters. *)
Definition note_ws (a : ascii) : bool := (byte_code a =? 9)%Z || (byte_code a =? 10)%Z.

Definition note_text_new (field : string) (max : Z) (raw : string) : outcome string :=
  let trimmed := str_trim raw in
  ensure (trimmed != "") (EmptyField field);;
  ensure (Z.of_nat (String.length trimmed) <=? max)
    (FieldTooLong field (Z.of_nat (String.length trimmed)) max);;
  ensure (negb (has_control (List.filter (λ a, negb (note_ws a))
                               (String.list_ascii_of_string trimmed))))
    (InvalidCharacters field);;
  Ok trimmed.

Definition DeliveryNote_new : string → outcome string := note_text_new "delivery_note" 2000.
Definition DeliveryFailureReason_new : string → outcome string :=
  note_text_new "delivery_failure_reason" 1000.
Definition HostDeliveryLeaseId_new : string → outcome string :=
  note_text_new "host_delivery_lease_id" 256.
Definition IntegratorBindingId_new : string → outcome string :=
  note_text_new "integrator_binding_id" 256.
Definition HostDeliveryId_new : string → outcome string := bounded_text_new "host_delivery_id" 512.
Definition AttentionEventId_new : string → outcome string :=
  bounded_text_new "attention_event_id" 512.
Definition HostAgentIncarnation_new : string → outcome string :=
  bounded_text_new "host_agent_incarnation" 256.
Definition CeremonyAgentExecutionId_new : string → outcome string :=
  bounded_text_new "ceremony_agent_execution_id" 256.

(** ** Counters and terms *)

Definition DeliveryAttempt_NONE : Z := 0.
Definition DeliveryAttempt_next (a : Z) : Z := u32_saturating_add a 1.

Definition DeliveryAttemptLimit_new (value : Z) : outcome Z :=
  ensure ((1 <=? value) && (value <=? 100)) (OutOfRange "delivery_attempt_limit" value 1 100);;
  Ok value.
Definition DeliveryAttemptLimit_default : Z := 3.

Definition is_exhausted_by (limit attempt : Z) : bool := limit <=? attempt.

Definition IntegratorFence_FIRST : Z := 0.
Definition IntegratorFence_next (f : Z) : Z := Z.min u64_max (f + 1).

Definition follows (f : FollowReplacement) : bool :=
  match f with Follow => true | Stay => false end.

Definition HostDeliveryPolicy_new (mode : HostDeliveryMode) (lease_duration : Z)
    (ack_timeout : option Z) (max_attempts : Z) (follow : FollowReplacement)
    : outcome HostDeliveryPolicy :=
  ensure ((1 <=? lease_duration) && (lease_duration <=? 3600000))
    (OutOfRange "host_delivery_lease_duration" lease_duration 1 3600000);;
  ensure (negb (is_some_and ack_timeout (λ timeout, timeout =? 0)))
    (MustBeNonZero "host_delivery_ack_timeout");;
  Ok (MkHostDeliveryPolicy mode lease_duration ack_timeout max_attempts follow).

Definition HostDeliveryPolicy_pull : HostDeliveryPolicy :=
  MkHostDeliveryPolicy PullLease 60000 None DeliveryAttemptLimit_default Stay.

(** ** What is delivered, and where *)

Inductive HostDeliveryItemKind := ItemIntervention | ItemAttention.

#[export] Instance HostDeliveryItemKind_eq_dec : EqDecision HostDeliveryItemKind.
Proof. solve_decision. Defined.

Definition HostDeliveryItemKind_as_str (k : HostDeliveryItemKind) : string :=
  match k with ItemIntervention => "intervention" | ItemAttention => "attention" end.

Inductive HostDeliveryItem :=
  | DeliverIntervention (ceremony_id : CeremonyId) (intervention_id : string)
  | DeliverAttention (ceremony_id : CeremonyId) (attention_id : string).

#[export] Instance HostDeliveryItem_eq_dec : EqDecision HostDeliveryItem.
Proof. solve_decision. Defined.

Definition item_ceremony_id (i : HostDeliveryItem) : CeremonyId :=
  match i with DeliverIntervention c _ | DeliverAttention c _ => c end.
Definition item_kind (i : HostDeliveryItem) : HostDeliveryItemKind :=
  match i with DeliverIntervention _ _ => ItemIntervention | DeliverAttention _ _ => ItemAttention end.
Definition item_id (i : HostDeliveryItem) : string :=
  match i with DeliverIntervention _ id | DeliverAttention _ id => id end.

Inductive HostDeliveryTarget :=
  | TargetAgentExecution (agent_execution_id incarnation : string)
  | TargetRole (role_id : RoleId)
  | TargetIntegratorBinding (binding_id : string).

#[export] Instance HostDeliveryTarget_eq_dec : EqDecision HostDeliveryTarget.
Proof. solve_decision. Defined.

Definition target_key (t : HostDeliveryTarget) : string :=
  match t with
  | TargetAgentExecution id incarnation => "agent:" +:+ id +:+ ":" +:+ incarnation
  | TargetRole id => "role:" +:+ id
  | TargetIntegratorBinding id => "binding:" +:+ id
  end.

Definition HostDeliveryId_derive (ceremony_id : CeremonyId) (kind : HostDeliveryItemKind)
    (item_id target_key : string) : outcome string :=
  HostDeliveryId_new (ceremony_id +:+ ":" +:+ HostDeliveryItemKind_as_str kind +:+ ":" +:+ item_id
                      +:+ ":" +:+ target_key).

Definition item_delivery_id (i : HostDeliveryItem) (t : HostDeliveryTarget) : outcome string :=
  HostDeliveryId_derive (item_ceremony_id i) (item_kind i) (item_id i) (target_key t).

(** ** States *)

Record HostDeliveryLease := MkHostDeliveryLease {
  hl_delivery_id : string;
  hl_lease_id : string;
  hl_owner : string;
  hl_leased_until : Instant;
}.

Definition hl_is_live_at (l : HostDeliveryLease) (now : Instant) : bool := now <? hl_leased_until l.

Inductive HostActivationAdapterKind := AdapterNone | AdapterCommand.

Record HostActivationReceipt := MkHostActivationReceipt {
  rcpt_adapter : HostActivationAdapterKind;
  rcpt_at : Instant;
  rcpt_transport_ref : option string;
}.

Inductive ProcessedActionKind :=
  | Responded | Delegated | Integrated | CorrectionRequested | TransitionProposed
  | EscalatedToUser | NoAction.

Record ProcessedActionRef := MkProcessedActionRef {
  act_kind : ProcessedActionKind;
  act_idempotency_key : option string;
}.

Inductive DeliveryExpiryCause := CauseTimeout | CauseCeremonyEnded | CauseTargetRevoked
  | CauseQueueOverflow.

#[export] Instance ProcessedActionRef_eq_dec : EqDecision ProcessedActionRef.
Proof. assert (EqDecision ProcessedActionKind) by solve_decision. solve_decision. Defined.

Inductive HostDeliveryStateKind :=
  | KindQueued | KindLeased | KindDeliveredToHost | KindAcknowledged | KindProcessed | KindFailed
  | KindExpired | KindSuperseded.

#[export] Instance HostDeliveryStateKind_eq_dec : EqDecision HostDeliveryStateKind.
Proof. solve_decision. Defined.

Definition HostDeliveryStateKind_is_terminal (k : HostDeliveryStateKind) : bool :=
  match k with
  | KindProcessed | KindFailed | KindExpired | KindSuperseded => true
  | _ => false
  end.

Inductive HostDeliveryState :=
  | DeliveryQueued
  | DeliveryLeased (lease : HostDeliveryLease)
  | DeliveredToHost (receipt : HostActivationReceipt)
  | DeliveryAcknowledged (observation : HostDeliveryObservation)
  | DeliveryProcessed (at_ : Instant) (action : ProcessedActionRef)
  | DeliveryFailed (reason : string) (attempt : Z)
  | DeliveryExpired (at_ : Instant) (cause : DeliveryExpiryCause)
  | DeliverySuperseded (by_ : option string).

Definition state_kind (s : HostDeliveryState) : HostDeliveryStateKind :=
  match s with
  | DeliveryQueued => KindQueued
  | DeliveryLeased _ => KindLeased
  | DeliveredToHost _ => KindDeliveredToHost
  | DeliveryAcknowledged _ => KindAcknowledged
  | DeliveryProcessed _ _ => KindProcessed
  | DeliveryFailed _ _ => KindFailed
  | DeliveryExpired _ _ => KindExpired
  | DeliverySuperseded _ => KindSuperseded
  end.

Definition HostDeliveryState_is_terminal (s : HostDeliveryState) : bool :=
  HostDeliveryStateKind_is_terminal (state_kind s).

Definition state_lease (s : HostDeliveryState) : option HostDeliveryLease :=
  match s with DeliveryLeased lease => Some lease | _ => None end.

(** ** The history of a delivery *)

Record DeliveryHistoryEntry := MkDeliveryHistoryEntry {
  he_state_kind : HostDeliveryStateKind;
  he_at : Instant;
}.

Definition history_capacity : nat := 32.

Definition history_recording (h : list DeliveryHistoryEntry) (entry : DeliveryHistoryEntry)
    : list DeliveryHistoryEntry :=
  (if Nat.eqb (length h) history_capacity then drop 1 h else h) ++ [entry].

(** ** The record *)

Record HostDeliveryRecord := MkHostDeliveryRecord {
  dr_id : string;
  dr_item : HostDeliveryItem;
  dr_target : HostDeliveryTarget;
  dr_policy : HostDeliveryPolicy;
  dr_state : HostDeliveryState;
  dr_attempt : Z;
  dr_created_at : Instant;
  dr_updated_at : Instant;
  dr_history : list DeliveryHistoryEntry;
}.

#[export] Instance HostDeliveryRecord_eta : Eta HostDeliveryRecord := λ r,
  MkHostDeliveryRecord (dr_id r) (dr_item r) (dr_target r) (dr_policy r) (dr_state r)
    (dr_attempt r) (dr_created_at r) (dr_updated_at r) (dr_history r).

Definition record_queued (item : HostDeliveryItem) (target : HostDeliveryTarget)
    (policy : HostDeliveryPolicy) (created_at : Instant) : outcome HostDeliveryRecord :=
  id ← item_delivery_id item target;
  Ok (MkHostDeliveryRecord id item target policy DeliveryQueued DeliveryAttempt_NONE created_at
        created_at (history_recording [] (MkDeliveryHistoryEntry KindQueued created_at))).

Definition record_is_offerable_at (r : HostDeliveryRecord) (now : Instant) : bool :=
  match dr_state r with
  | DeliveryQueued | DeliveredToHost _ => true
  | DeliveryLeased lease => negb (hl_is_live_at lease now)
  | _ => false
  end.

Definition record_live_lease_at (r : HostDeliveryRecord) (now : Instant) : option HostDeliveryLease :=
  option_keep (λ lease, hl_is_live_at lease now) (state_lease (dr_state r)).

Definition record_transitioned (r : HostDeliveryRecord) (state : HostDeliveryState) (now : Instant)
    : HostDeliveryRecord :=
  r <| dr_state := state |> <| dr_updated_at := now |>
    <| dr_history := history_recording (dr_history r)
                       (MkDeliveryHistoryEntry (state_kind state) now) |>.

Definition record_leased r lease now := record_transitioned r (DeliveryLeased lease) now.
Definition record_delivered r receipt now := record_transitioned r (DeliveredToHost receipt) now.
Definition record_acknowledged r observation now :=
  record_transitioned r (DeliveryAcknowledged observation) now.
Definition record_processed r action now := record_transitioned r (DeliveryProcessed now action) now.

Definition record_failed (r : HostDeliveryRecord) (reason : string) (now : Instant)
    : HostDeliveryRecord :=
  let attempt := DeliveryAttempt_next (dr_attempt r) in
  (record_transitioned r (DeliveryFailed reason attempt) now) <| dr_attempt := attempt |>.

Definition record_requeued (r : HostDeliveryRecord) (now : Instant) : HostDeliveryRecord :=
  (record_transitioned r DeliveryQueued now) <| dr_attempt := DeliveryAttempt_next (dr_attempt r) |>.

Definition record_released r now := record_transitioned r DeliveryQueued now.
Definition record_expired r cause now := record_transitioned r (DeliveryExpired now cause) now.
Definition record_superseded r by_ now := record_transitioned r (DeliverySuperseded by_) now.

Definition record_re_addressed (r : HostDeliveryRecord) (target : HostDeliveryTarget) (now : Instant)
    : outcome HostDeliveryRecord :=
  record_queued (dr_item r) target (dr_policy r) now.

(** ** What a store holds (stored_host_delivery.rs) *)

Record StoredHostDelivery := MkStoredHostDelivery {
  sd_record : HostDeliveryRecord;
  sd_owner : option string;
  sd_fence : option Z;
}.

#[export] Instance StoredHostDelivery_eta : Eta StoredHostDelivery := λ s,
  MkStoredHostDelivery (sd_record s) (sd_owner s) (sd_fence s).

Inductive AckOutcome :=
  | Acknowledged (record : HostDeliveryRecord)
  | AlreadyAcknowledged (record : HostDeliveryRecord)
  | AckConflict (existing : HostDeliveryObservation)
  | AckLeaseNotOwned.

Inductive ProcessedOutcome :=
  | Processed (record : HostDeliveryRecord)
  | AlreadyProcessed (record : HostDeliveryRecord)
  | ProcessedConflict (existing : ProcessedActionRef)
  | NotAcknowledged (state : HostDeliveryStateKind)
  | FenceRejected (current : Z)
  | ProcessedLeaseNotOwned.

Inductive DeliveryFailureOutcome :=
  | FailureRequeued (record : HostDeliveryRecord)
  | FailureExhausted (record : HostDeliveryRecord)
  | FailureLeaseNotOwned.

Inductive HostActivationOutcome :=
  | ActivationAccepted (receipt : HostActivationReceipt)
  | ActivationUnsupported
  | ActivationFailed (reason : string).

Inductive RecordedActivation :=
  | ActivationDelivered (record : HostDeliveryRecord)
  | ActivationNotAttempted (record : HostDeliveryRecord)
  | ActivationRequeued (record : HostDeliveryRecord)
  | ActivationExhausted (record : HostDeliveryRecord)
  | ActivationAlreadyEnded (record : HostDeliveryRecord)
  | ActivationUnknown.

Definition stored_new (r : HostDeliveryRecord) : StoredHostDelivery := MkStoredHostDelivery r None None.

Definition with_record (s : StoredHostDelivery) (r : HostDeliveryRecord) : StoredHostDelivery :=
  s <| sd_record := r |>.

Definition stored_holds (s : StoredHostDelivery) (lease : HostDeliveryLease) (now : Instant) : bool :=
  is_some_and (record_live_lease_at (sd_record s) now)
    (λ held, hl_lease_id held == hl_lease_id lease).

Section stored.
Context {Hclk : Clock}.

(** [at + millis(duration)], which panics when the sum leaves the calendar. *)
Definition add_millis (at_ : Instant) (duration : Z) : outcome Instant :=
  expect (checked_add_ms at_ (Z.min i64_max duration)).

Definition stored_leased (s : StoredHostDelivery) (lease_id owner : string) (now : Instant)
    (duration : Z) : outcome (StoredHostDelivery * HostDeliveryLease) :=
  until ← add_millis now duration;
  let lease := MkHostDeliveryLease (dr_id (sd_record s)) lease_id owner until in
  Ok (MkStoredHostDelivery (record_leased (sd_record s) lease now) (Some owner) (sd_fence s), lease).

Definition stored_acknowledged (s : StoredHostDelivery) (lease : HostDeliveryLease)
    (observation : HostDeliveryObservation) (now : Instant)
    : option StoredHostDelivery * AckOutcome :=
  match dr_state (sd_record s) with
  | DeliveryAcknowledged held =>
      if held == observation then (None, AlreadyAcknowledged (sd_record s))
      else (None, AckConflict held)
  | _ =>
      if negb (stored_holds s lease now) then (None, AckLeaseNotOwned) else
      let next := with_record s (record_acknowledged (sd_record s) observation now) in
      (Some next, Acknowledged (sd_record next))
  end.

Definition stored_processed (s : StoredHostDelivery) (owner : string) (fence : option Z)
    (action : ProcessedActionRef) (now : Instant) : option StoredHostDelivery * ProcessedOutcome :=
  let decided :=
    match dr_state (sd_record s) with
    | DeliveryProcessed _ held =>
        if held == action then (None, AlreadyProcessed (sd_record s))
        else (None, ProcessedConflict held)
    | _ =>
        let state := state_kind (dr_state (sd_record s)) in
        if state != KindAcknowledged then (None, NotAcknowledged state)
        else if is_some_and (sd_owner s) (λ held, held != owner) then (None, ProcessedLeaseNotOwned)
        else
          let next := MkStoredHostDelivery (record_processed (sd_record s) action now) (sd_owner s)
                        (match fence with Some _ => fence | None => sd_fence s end) in
          (Some next, Processed (sd_record next))
    end in
  match fence, sd_fence s with
  | Some offered, Some current =>
      if offered <? current then (None, FenceRejected current) else decided
  | _, _ => decided
  end.

(** What an activation adapter did with a delivery. *)
Definition stored_activated (s : StoredHostDelivery) (outcome_ : HostActivationOutcome)
    (now : Instant) : option StoredHostDelivery * RecordedActivation :=
  if HostDeliveryState_is_terminal (dr_state (sd_record s)) then (None, ActivationAlreadyEnded (sd_record s)) else
  match outcome_ with
  | ActivationUnsupported => (None, ActivationNotAttempted (sd_record s))
  | ActivationAccepted receipt =>
      let next := with_record s (record_delivered (sd_record s) receipt now) in
      (Some next, ActivationDelivered (sd_record next))
  | ActivationFailed reason =>
      let attempted := DeliveryAttempt_next (dr_attempt (sd_record s)) in
      if is_exhausted_by (hdp_max_attempts (dr_policy (sd_record s))) attempted then
        let next := with_record s (record_failed (sd_record s) reason now) in
        (Some next, ActivationExhausted (sd_record next))
      else
        let next := with_record s (record_requeued (sd_record s) now) in
        (Some next, ActivationRequeued (sd_record next))
  end.

Definition stored_failed (s : StoredHostDelivery) (lease : HostDeliveryLease) (reason : string)
    (now : Instant) : option StoredHostDelivery * DeliveryFailureOutcome :=
  if negb (stored_holds s lease now) then (None, FailureLeaseNotOwned) else
  let attempted := DeliveryAttempt_next (dr_attempt (sd_record s)) in
  if is_exhausted_by (hdp_max_attempts (dr_policy (sd_record s))) attempted then
    let next := with_record s (record_failed (sd_record s) reason now) in
    (Some next, FailureExhausted (sd_record next))
  else
    let next := with_record s (record_requeued (sd_record s) now) in
    (Some next, FailureRequeued (sd_record next)).

Definition stored_released (s : StoredHostDelivery) (lease : HostDeliveryLease) (now : Instant)
    : option StoredHostDelivery :=
  if stored_holds s lease now then Some (with_record s (record_released (sd_record s) now)) else None.

Definition stored_expired (s : StoredHostDelivery) (now : Instant)
    : outcome (option StoredHostDelivery) :=
  match dr_state (sd_record s) with
  | DeliveryLeased lease =>
      Ok (if negb (hl_is_live_at lease now)
          then Some (with_record s (record_released (sd_record s) now)) else None)
  | DeliveryAcknowledged observation =>
      match hdp_ack_timeout (dr_policy (sd_record s)) with
      | None => Ok None
      | Some timeout =>
          until ← add_millis (hdo_observed_at observation) timeout;
          Ok (if until <=? now
              then Some (with_record s (record_expired (sd_record s) CauseTimeout now)) else None)
      end
  | _ => Ok None
  end.

Definition stored_abandoned (s : StoredHostDelivery) (cause : DeliveryExpiryCause) (now : Instant)
    : option StoredHostDelivery :=
  if negb (HostDeliveryState_is_terminal (dr_state (sd_record s)))
  then Some (with_record s (record_expired (sd_record s) cause now)) else None.

Definition stored_superseded (s : StoredHostDelivery) (by_ : option string) (now : Instant)
    : StoredHostDelivery :=
  with_record s (record_superseded (sd_record s) by_ now).

Definition stored_re_addressed (s : StoredHostDelivery) (target : HostDeliveryTarget) (now : Instant)
    : outcome StoredHostDelivery :=
  stored_new <$> record_re_addressed (sd_record s) target now.

End stored.
