(* ===== verification/DeliveryLedger.v ===== *)
(** * The ledger of host deliveries

    made-adapters/src/memory/host_delivery_ledger.rs: the operations of
    [HostDeliveryLedgerPort] on the map from delivery identities to stored
    deliveries, with the filters, queries and pages of made-core/src/ports.

    An operation takes the ledger and returns it with its outcome: a loop that
    stops at an error leaves behind what it wrote before.  The identifiers of
    new leases come from a generator of UUIDs, an argument of [ledger_lease];
    the k-th delivery of one call draws the k-th of them. *)

From S2P Require Import Prelude Errors Text Values Steps Definitions Interventions Delivery.

Notation DeliveryLedger := (gmap string StoredHostDelivery) (only parsing).

(** ** Filters and queries *)

Inductive HostDeliveryTargetFilter := AnyTarget | AnyOf (targets : list HostDeliveryTarget).

Definition target_filter_any_of (targets : list HostDeliveryTarget) : outcome HostDeliveryTargetFilter :=
  match targets with
  | [] => Err (EmptyCollection "host_delivery_target_filter")
  | _ => Ok (AnyOf targets)
  end.

Definition target_filter_admits (f : HostDeliveryTargetFilter) (t : HostDeliveryTarget) : bool :=
  match f with
  | AnyTarget => true
  | AnyOf targets => any (λ t', t' == t) targets
  end.

Record HostDeliveryFilter := MkHostDeliveryFilter {
  flt_ceremony_id : option CeremonyId;
  flt_target : HostDeliveryTargetFilter;
  flt_item_kind : option HostDeliveryItemKind;
}.

Definition filter_admits (f : HostDeliveryFilter) (r : HostDeliveryRecord) : bool :=
  if is_some_and (flt_ceremony_id f) (λ c, item_ceremony_id (dr_item r) != c) then false
  else if is_some_and (flt_item_kind f) (λ k, item_kind (dr_item r) != k) then false
  else target_filter_admits (flt_target f) (dr_target r).

Definition HostDeliveryPageLimit_new (value : Z) : outcome Z :=
  ensure ((1 <=? value) && (value <=? 100)) (OutOfRange "host_delivery_page_limit" value 1 100);;
  Ok value.

Record HostDeliveryQuery := MkHostDeliveryQuery {
  qry_ceremony_id : option CeremonyId;
  qry_state : option HostDeliveryStateKind;
  qry_target : HostDeliveryTargetFilter;
  qry_limit : Z;
  qry_cursor : option string;
}.

#[export] Instance HostDeliveryQuery_eta : Eta HostDeliveryQuery := λ q,
  MkHostDeliveryQuery (qry_ceremony_id q) (qry_state q) (qry_target q) (qry_limit q) (qry_cursor q).

Definition query_admits (q : HostDeliveryQuery) (r : HostDeliveryRecord) : bool :=
  if is_some_and (qry_ceremony_id q) (λ c, item_ceremony_id (dr_item r) != c) then false
  else if is_some_and (qry_state q) (λ k, state_kind (dr_state r) != k) then false
  else target_filter_admits (qry_target q) (dr_target r).

Definition query_after (q : HostDeliveryQuery) (cursor : string) : HostDeliveryQuery :=
  q <| qry_cursor := Some cursor |>.

Record HostDeliveryPage := MkHostDeliveryPage {
  page_records : list HostDeliveryRecord;
  page_next_cursor : option string;
}.

Inductive EnqueueOutcome :=
  | Enqueued (record : HostDeliveryRecord)
  | AlreadyQueued (record : HostDeliveryRecord).

Record LeasedDelivery := MkLeasedDelivery {
  ld_lease : HostDeliveryLease;
  ld_record : HostDeliveryRecord;
}.

Record SupersessionOutcome := MkSupersessionOutcome {
  so_superseded : list string;
  so_replacements : list HostDeliveryRecord;
}.

(** [str] ordering: identities compare byte by byte. *)
Definition str_ltb (a b : string) : bool := bool_decide (String.le a b) && (a != b).

(** ** Operations *)

Definition write_stored (l : DeliveryLedger) (id : string) (next : option StoredHostDelivery)
    : DeliveryLedger :=
  match next with Some next => <[id := next]> l | None => l end.

Definition write_all (l : DeliveryLedger) (changed : list (string * StoredHostDelivery))
    : DeliveryLedger :=
  foldl (λ l '(id, next), <[id := next]> l) l changed.

Definition ledger_enqueue (l : DeliveryLedger) (record : HostDeliveryRecord)
    : DeliveryLedger * outcome EnqueueOutcome :=
  match l !! dr_id record with
  | Some existing => (l, Ok (AlreadyQueued (sd_record existing)))
  | None =>
      let accepted := stored_new record in
      (<[dr_id record := accepted]> l, Ok (Enqueued (sd_record accepted)))
  end.

Section operations.
Context {Hclk : Clock}.

Definition offerable_ids (l : DeliveryLedger) (filter : HostDeliveryFilter) (now : Instant)
    (limit : Z) : list string :=
  (λ stored, dr_id (sd_record stored)) <$>
    take (Z.to_nat limit)
      (List.filter (λ stored, record_is_offerable_at (sd_record stored) now
                              && filter_admits filter (sd_record stored)) (btree_values l)).

Fixpoint lease_each (uuid : nat → string) (owner : string) (now : Instant) (duration : Z)
    (ids : list string) (drawn : nat) (l : DeliveryLedger)
    : DeliveryLedger * outcome (list LeasedDelivery) :=
  match ids with
  | [] => (l, Ok [])
  | id :: ids =>
      match l !! id with
      | None => lease_each uuid owner now duration ids drawn l
      | Some stored =>
          match (lease_id ← HostDeliveryLeaseId_new (uuid drawn);
                 stored_leased stored lease_id owner now duration) with
          | Ok (next, lease) =>
              let rest := lease_each uuid owner now duration ids (S drawn) (<[id := next]> l) in
              (rest.1, cons (MkLeasedDelivery lease (sd_record next)) <$> rest.2)
          | Err e => (l, Err e)
          | Panic => (l, Panic)
          end
      end
  end.

Definition ledger_lease (uuid : nat → string) (l : DeliveryLedger) (filter : HostDeliveryFilter)
    (owner : string) (now : Instant) (duration limit : Z)
    : DeliveryLedger * outcome (list LeasedDelivery) :=
  lease_each uuid owner now duration (offerable_ids l filter now limit) 0 l.

Definition ledger_acknowledge (l : DeliveryLedger) (lease : HostDeliveryLease)
    (observation : HostDeliveryObservation) (now : Instant) : DeliveryLedger * outcome AckOutcome :=
  match l !! hl_delivery_id lease with
  | None => (l, Ok AckLeaseNotOwned)
  | Some stored =>
      let decided := stored_acknowledged stored lease observation now in
      (write_stored l (hl_delivery_id lease) decided.1, Ok decided.2)
  end.

Definition ledger_mark_processed (l : DeliveryLedger) (delivery_id owner : string)
    (fence : option Z) (action : ProcessedActionRef) (now : Instant)
    : DeliveryLedger * outcome ProcessedOutcome :=
  match l !! delivery_id with
  | None => (l, Err (NotFound "host_delivery"))
  | Some stored =>
      let decided := stored_processed stored owner fence action now in
      (write_stored l delivery_id decided.1, Ok decided.2)
  end.

Definition ledger_record_activation (l : DeliveryLedger) (delivery_id : string)
    (outcome_ : HostActivationOutcome) (now : Instant)
    : DeliveryLedger * outcome RecordedActivation :=
  match l !! delivery_id with
  | None => (l, Ok ActivationUnknown)
  | Some stored =>
      let decided := stored_activated stored outcome_ now in
      (write_stored l delivery_id decided.1, Ok decided.2)
  end.

Definition ledger_mark_failed (l : DeliveryLedger) (lease : HostDeliveryLease) (reason : string)
    (now : Instant) : DeliveryLedger * outcome DeliveryFailureOutcome :=
  match l !! hl_delivery_id lease with
  | None => (l, Ok FailureLeaseNotOwned)
  | Some stored =>
      let decided := stored_failed stored lease reason now in
      (write_stored l (hl_delivery_id lease) decided.1, Ok decided.2)
  end.

Definition ledger_release (l : DeliveryLedger) (lease : HostDeliveryLease) (now : Instant)
    : DeliveryLedger * outcome unit :=
  (write_stored l (hl_delivery_id lease)
     (l !! hl_delivery_id lease ≫= λ stored, stored_released stored lease now), Ok tt).

(** The deliveries that ran out of time, with what becomes of them. *)
Fixpoint collect_expired (now : Instant) (stored : list StoredHostDelivery)
    : outcome (list (string * StoredHostDelivery)) :=
  match stored with
  | [] => Ok []
  | s :: stored =>
      next ← stored_expired s now;
      rest ← collect_expired now stored;
      Ok (match next with Some next => (dr_id (sd_record s), next) :: rest | None => rest end)
  end.

Definition ledger_expire (l : DeliveryLedger) (now : Instant) : DeliveryLedger * outcome (list string) :=
  match collect_expired now (btree_values l) with
  | Ok expired => (write_all l expired, Ok expired.*1)
  | Err e => (l, Err e)
  | Panic => (l, Panic)
  end.

Definition ledger_abandon (l : DeliveryLedger) (delivery_id : string) (cause : DeliveryExpiryCause)
    (now : Instant) : DeliveryLedger * outcome (option HostDeliveryRecord) :=
  match l !! delivery_id ≫= λ stored, stored_abandoned stored cause now with
  | None => (l, Ok None)
  | Some next => (<[delivery_id := next]> l, Ok (Some (sd_record next)))
  end.

Definition abandoned_of (ceremony_id : CeremonyId) (cause : DeliveryExpiryCause) (now : Instant)
    (l : DeliveryLedger) : list (string * StoredHostDelivery) :=
  omap (λ s, (λ next, (dr_id (sd_record s), next)) <$> stored_abandoned s cause now)
    (List.filter (λ s, item_ceremony_id (dr_item (sd_record s)) == ceremony_id) (btree_values l)).

Definition ledger_expire_ceremony (l : DeliveryLedger) (ceremony_id : CeremonyId)
    (cause : DeliveryExpiryCause) (now : Instant) : DeliveryLedger * outcome (list string) :=
  let abandoned := abandoned_of ceremony_id cause now l in
  (write_all l abandoned, Ok abandoned.*1).

Definition is_affected (previous : HostDeliveryTarget) (s : StoredHostDelivery) : bool :=
  (dr_target (sd_record s) == previous) && negb (HostDeliveryState_is_terminal (dr_state (sd_record s))).

Definition affected_by (l : DeliveryLedger) (previous : HostDeliveryTarget) : list StoredHostDelivery :=
  List.filter (is_affected previous) (btree_values l).

Fixpoint supersede_each (replacement : HostDeliveryTarget) (follow : FollowReplacement)
    (now : Instant) (affected : list StoredHostDelivery) (l : DeliveryLedger)
    : DeliveryLedger * outcome SupersessionOutcome :=
  match affected with
  | [] => (l, Ok (MkSupersessionOutcome [] []))
  | stored :: affected =>
      let id := dr_id (sd_record stored) in
      let go (opened : option string) (replaced : list HostDeliveryRecord) (l : DeliveryLedger) :=
        let rest := supersede_each replacement follow now affected
                      (<[id := stored_superseded stored opened now]> l) in
        (rest.1, (λ o, MkSupersessionOutcome (id :: so_superseded o) (replaced ++ so_replacements o))
                   <$> rest.2) in
      if follows follow then
        match stored_re_addressed stored replacement now with
        | Ok candidate =>
            let opened := dr_id (sd_record candidate) in
            if is_some (l !! opened) then go (Some opened) [] l
            else go (Some opened) [sd_record candidate] (<[opened := candidate]> l)
        | Err e => (l, Err e)
        | Panic => (l, Panic)
        end
      else go None [] l
  end.

Definition ledger_supersede (l : DeliveryLedger) (previous replacement : HostDeliveryTarget)
    (follow : FollowReplacement) (now : Instant) : DeliveryLedger * outcome SupersessionOutcome :=
  supersede_each replacement follow now (affected_by l previous) l.

Definition ledger_get (l : DeliveryLedger) (id : string) : option HostDeliveryRecord :=
  sd_record <$> l !! id.

Definition matching_records (l : DeliveryLedger) (q : HostDeliveryQuery) : list HostDeliveryRecord :=
  sd_record <$>
    List.filter (λ s, is_none_or (qry_cursor q) (λ after, str_ltb after (dr_id (sd_record s))))
      (List.filter (λ s, query_admits q (sd_record s)) (btree_values l)).

Definition ledger_list (l : DeliveryLedger) (q : HostDeliveryQuery) : HostDeliveryPage :=
  let matching := matching_records l q in
  let records := take (Z.to_nat (qry_limit q)) matching in
  let more := is_some (head (drop (Z.to_nat (qry_limit q)) matching)) in
  MkHostDeliveryPage records (if more then dr_id <$> last records else None).

(** The loop of made-app/src/services/attention/binding_deliveries.rs: at most
    [pages] pages, each after the cursor of the one before. *)
Fixpoint read_pages (pages : nat) (l : DeliveryLedger) (q : HostDeliveryQuery) : list HostDeliveryRecord :=
  match pages with
  | O => []
  | S pages =>
      let page := ledger_list l q in
      page_records page ++
      match page_next_cursor page with
      | Some cursor => read_pages pages l (query_after q cursor)
      | None => []
      end
  end.

Definition MAX_PAGES : nat := 20.

(** Every delivery addressed to one target, a bounded number of pages of it. *)
Definition binding_deliveries (l : DeliveryLedger) (target : HostDeliveryTarget)
    : outcome (list HostDeliveryRecord) :=
  filter ← target_filter_any_of [target];
  Ok (read_pages MAX_PAGES l (MkHostDeliveryQuery None None filter 100 None)).

(** ** Runs *)

(** One call of the port. *)
Inductive DeliveryCall :=
  | CallEnqueue (record : HostDeliveryRecord)
  | CallLease (uuid : nat → string) (filter : HostDeliveryFilter) (owner : string) (now : Instant)
      (duration limit : Z)
  | CallAcknowledge (lease : HostDeliveryLease) (observation : HostDeliveryObservation) (now : Instant)
  | CallMarkProcessed (delivery_id owner : string) (fence : option Z) (action : ProcessedActionRef)
      (now : Instant)
  | CallRecordActivation (delivery_id : string) (outcome_ : HostActivationOutcome) (now : Instant)
  | CallMarkFailed (lease : HostDeliveryLease) (reason : string) (now : Instant)
  | CallRelease (lease : HostDeliveryLease) (now : Instant)
  | CallExpire (now : Instant)
  | CallAbandon (delivery_id : string) (cause : DeliveryExpiryCause) (now : Instant)
  | CallExpireCeremony (ceremony_id : CeremonyId) (cause : DeliveryExpiryCause) (now : Instant)
  | CallSupersede (previous replacement : HostDeliveryTarget) (follow : FollowReplacement)
      (now : Instant).

(** The ledger a call leaves behind, whatever it answers. *)
Definition deliver (l : DeliveryLedger) (c : DeliveryCall) : DeliveryLedger :=
  match c with
  | CallEnqueue record => (ledger_enqueue l record).1
  | CallLease uuid filter owner now duration limit =>
      (ledger_lease uuid l filter owner now duration limit).1
  | CallAcknowledge lease observation now => (ledger_acknowledge l lease observation now).1
  | CallMarkProcessed id owner fence action now => (ledger_mark_processed l id owner fence action now).1
  | CallRecordActivation id outcome_ now => (ledger_record_activation l id outcome_ now).1
  | CallMarkFailed lease reason now => (ledger_mark_failed l lease reason now).1
  | CallRelease lease now => (ledger_release l lease now).1
  | CallExpire now => (ledger_expire l now).1
  | CallAbandon id cause now => (ledger_abandon l id cause now).1
  | CallExpireCeremony id cause now => (ledger_expire_ceremony l id cause now).1
  | CallSupersede previous replacement follow now =>
      (ledger_supersede l previous replacement follow now).1
  end.

Definition ledger_run (l : DeliveryLedger) (cs : list DeliveryCall) : DeliveryLedger :=
  foldl deliver l cs.

End operations.
