(* ===== verification/Integrators.v ===== *)
(** * Integrators: who drives a scope

    The bindings of hosts to scopes: integrator_binding.rs, integrator_scope.rs
    and loop_progress_mark.rs of made-core/src/value_objects/delivery, the rows of
    made-adapters/src/delivery/stored_integrator_binding.rs, the store of
    made-adapters/src/memory/integrator_bindings.rs, and the use cases of
    made-app/src/usecases/integrator that bind a host and take its
    acknowledgements, composed from the bindings and the delivery ledger. *)

From S2P Require Import Prelude Errors Text Values Steps Definitions Interventions Delivery DeliveryLedger.

(** ** Bindings *)

Inductive IntegratorScope :=
  | ScopeCeremony (ceremony_id : CeremonyId)
  | ScopeSystemExecution (system_execution_id : string).

#[export] Instance IntegratorScope_eq_dec : EqDecision IntegratorScope.
Proof. solve_decision. Defined.

Definition scope_key (s : IntegratorScope) : string :=
  match s with
  | ScopeCeremony id => "ceremony:" +:+ id
  | ScopeSystemExecution id => "system_execution:" +:+ id
  end.

Inductive Owed := OwedNothing | OwedSomething.

Record LoopProgressMark := MkLoopProgressMark {
  lpm_head : option Z;
  lpm_closed : Z;
  lpm_rounds : Z;
  lpm_stuck : Z;
}.

#[export] Instance LoopProgressMark_eq_dec : EqDecision LoopProgressMark.
Proof. solve_decision. Defined.

Definition LoopProgressMark_start : LoopProgressMark := MkLoopProgressMark None 0 0 0.

Definition mark_observing (m : LoopProgressMark) (head : option Z) (closed : Z) (owed : Owed)
    : LoopProgressMark :=
  let moved := (head != lpm_head m) || (closed != lpm_closed m) in
  let idle := match owed with OwedNothing => true | OwedSomething => false end in
  MkLoopProgressMark head closed (u32_saturating_add (lpm_rounds m) 1)
    (if moved || idle then 0 else u32_saturating_add (lpm_stuck m) 1).

Definition mark_differs_from (m previous : LoopProgressMark) : bool :=
  (lpm_head m != lpm_head previous) || (lpm_closed m != lpm_closed previous)
  || (lpm_stuck m != lpm_stuck previous).

Inductive HostActivationMode := HostModeNone | HostModeCommand.

Record HostDestination := MkHostDestination {
  dest_host_kind : string;
  dest_address : string;
  dest_activation : HostActivationMode;
}.

#[export] Instance HostDestination_eq_dec : EqDecision HostDestination.
Proof. assert (EqDecision HostActivationMode) by solve_decision. solve_decision. Defined.

Record IntegratorBinding := MkIntegratorBinding {
  ib_id : string;
  ib_scope : IntegratorScope;
  ib_role_id : RoleId;
  ib_destination : HostDestination;
  ib_incarnation : string;
  ib_fence : Z;
  ib_bound_at : Instant;
  ib_revoked_at : option Instant;
  ib_progress : LoopProgressMark;
}.

#[export] Instance IntegratorBinding_eq_dec : EqDecision IntegratorBinding.
Proof. solve_decision. Defined.

#[export] Instance IntegratorBinding_eta : Eta IntegratorBinding := λ b,
  MkIntegratorBinding (ib_id b) (ib_scope b) (ib_role_id b) (ib_destination b) (ib_incarnation b)
    (ib_fence b) (ib_bound_at b) (ib_revoked_at b) (ib_progress b).

Definition IntegratorBinding_new (id : string) (scope : IntegratorScope) (role_id : RoleId)
    (destination : HostDestination) (incarnation : string) (bound_at : Instant) : IntegratorBinding :=
  MkIntegratorBinding id scope role_id destination incarnation IntegratorFence_FIRST bound_at None
    LoopProgressMark_start.

Definition ib_is_live (b : IntegratorBinding) : bool := negb (is_some (ib_revoked_at b)).

Definition ib_admits (b : IntegratorBinding) (incarnation : string) (fence : Z) : bool :=
  ib_is_live b && (ib_incarnation b == incarnation) && (ib_fence b =? fence).

Definition ib_delivery_target (b : IntegratorBinding) : HostDeliveryTarget :=
  TargetIntegratorBinding (ib_id b).

Definition ib_observing (b : IntegratorBinding) (progress : LoopProgressMark) : IntegratorBinding :=
  b <| ib_progress := progress |>.

Definition ib_revoked (b : IntegratorBinding) (at_ : Instant) : IntegratorBinding :=
  b <| ib_revoked_at := Some at_ |>.

(** The binding that takes the place of [b], one fence higher. *)
Definition ib_replacing (b replacement : IntegratorBinding) : IntegratorBinding :=
  replacement <| ib_fence := IntegratorFence_next (ib_fence b) |> <| ib_revoked_at := None |>
    <| ib_progress := LoopProgressMark_start |>.

(** ** The row of a scope *)

Inductive BindReplacement := Refuse | Replace.
Definition replaces (r : BindReplacement) : bool :=
  match r with Replace => true | Refuse => false end.

Inductive BindOutcome :=
  | Bound (binding : IntegratorBinding)
  | AlreadyBound (binding : IntegratorBinding)
  | Replaced (previous current : IntegratorBinding)
  | BindAlreadyExists (existing : IntegratorBinding).

Definition row_current (row : list IntegratorBinding) : option IntegratorBinding :=
  List.find ib_is_live (rev row).

Definition row_retire (row : list IntegratorBinding) (id : string) (at_ : Instant)
    : list IntegratorBinding :=
  (λ b, if (ib_id b == id) && ib_is_live b then ib_revoked b at_ else b) <$> row.

Definition row_bind (row : list IntegratorBinding) (offered : IntegratorBinding)
    (replacement : BindReplacement) : option (list IntegratorBinding) * BindOutcome :=
  match row_current row with
  | None => (Some (row ++ [offered]), Bound offered)
  | Some incumbent =>
      if (ib_id incumbent == ib_id offered) && (ib_incarnation incumbent == ib_incarnation offered)
      then (None, AlreadyBound incumbent)
      else if negb (replaces replacement) then (None, BindAlreadyExists incumbent)
      else
        let current := ib_replacing incumbent offered in
        (Some (row_retire row (ib_id incumbent) (ib_bound_at current) ++ [current]),
         Replaced incumbent current)
  end.

(** Replace the first element [f] accepts, with the replacement. *)
Fixpoint update_first {A} (f : A → bool) (g : A → A) (l : list A) : option (list A * A) :=
  match l with
  | [] => None
  | x :: l =>
      if f x then Some (g x :: l, g x)
      else match update_first f g l with Some (l', y) => Some (x :: l', y) | None => None end
  end.

Definition row_revoke (row : list IntegratorBinding) (id : string) (now : Instant)
    : option (list IntegratorBinding) * option IntegratorBinding :=
  match update_first (λ b, (ib_id b == id) && ib_is_live b) (λ b, ib_revoked b now) row with
  | None => (None, List.find (λ b, ib_id b == id) row)
  | Some (next, revoked) => (Some next, Some revoked)
  end.

Definition row_observing (row : list IntegratorBinding) (id : string) (progress : LoopProgressMark)
    : option (list IntegratorBinding) * option IntegratorBinding :=
  match update_first (λ b, (ib_id b == id) && ib_is_live b) (λ b, ib_observing b progress) row with
  | None => (None, None)
  | Some (next, observed) => (Some next, Some observed)
  end.

(** ** The store *)

Notation Bindings := (gmap string (list IntegratorBinding)) (only parsing).

Definition write_row (s : Bindings) (key : string) (next : option (list IntegratorBinding)) : Bindings :=
  match next with Some next => <[key := next]> s | None => s end.

Definition bindings_bind (s : Bindings) (binding : IntegratorBinding) (replacement : BindReplacement)
    : Bindings * BindOutcome :=
  let key := scope_key (ib_scope binding) in
  let decided := row_bind (default [] (s !! key)) binding replacement in
  (write_row s key decided.1, decided.2).

Definition bindings_current (s : Bindings) (scope : IntegratorScope) : option IntegratorBinding :=
  s !! scope_key scope ≫= row_current.

Definition bindings_revoke (s : Bindings) (id : string) (now : Instant)
    : Bindings * option IntegratorBinding :=
  match List.find (λ e, any (λ b, ib_id b == id) e.2) (btree_entries s) with
  | None => (s, None)
  | Some (key, row) =>
      let decided := row_revoke row id now in
      (write_row s key decided.1, decided.2)
  end.

Definition bindings_record_progress (s : Bindings) (binding : IntegratorBinding)
    (progress : LoopProgressMark) : Bindings * option IntegratorBinding :=
  let key := scope_key (ib_scope binding) in
  match s !! key with
  | None => (s, None)
  | Some row =>
      let decided := row_observing row (ib_id binding) progress in
      (write_row s key decided.1, decided.2)
  end.

Definition bindings_list (s : Bindings) (scope : option IntegratorScope) : list IntegratorBinding :=
  match scope with
  | None => concat (btree_values s)
  | Some scope => default [] (s !! scope_key scope)
  end.

(** ** Binding a host (bind_ceremony_integrator_use_case.rs) *)

Record BindCeremonyIntegratorInput := MkBindCeremonyIntegratorInput {
  bind_binding_id : string;
  bind_scope : IntegratorScope;
  bind_role_id : RoleId;
  bind_destination : HostDestination;
  bind_incarnation : string;
  bind_replacement : BindReplacement;
  bind_follow : FollowReplacement;
}.

(** [bound_at] and [moved_at] are the two readings of the clock.  A failure to
    move the work is logged and the binding stands. *)
Definition bind_ceremony_integrator (s : Bindings) (l : DeliveryLedger)
    (input : BindCeremonyIntegratorInput) (bound_at moved_at : Instant)
    : Bindings * DeliveryLedger * outcome BindOutcome :=
  let binding := IntegratorBinding_new (bind_binding_id input) (bind_scope input)
                   (bind_role_id input) (bind_destination input) (bind_incarnation input) bound_at in
  let bound := bindings_bind s binding (bind_replacement input) in
  match bound.2 with
  | Replaced previous current =>
      let moved := ledger_supersede l (ib_delivery_target previous) (ib_delivery_target current)
                     (bind_follow input) moved_at in
      (bound.1, moved.1, match moved.2 with Panic => Panic | _ => Ok bound.2 end)
  | _ => (bound.1, l, Ok bound.2)
  end.

(** ** Acknowledging work (acknowledge_integrator_attention_use_case.rs) *)

Inductive IntegratorAcknowledgement :=
  | SaysIntent (action : ProcessedActionRef) (note : string) (evidence : option string)
  | SaysProcessed (action : ProcessedActionRef)
  | SaysFailed (reason : string).

Record AcknowledgeIntegratorAttentionInput := MkAcknowledgeIntegratorAttentionInput {
  aia_binding_id : string;
  aia_incarnation : string;
  aia_fence : Z;
  aia_delivery_id : string;
  aia_lease : HostDeliveryLease;
  aia_outcome : IntegratorAcknowledgement;
}.

Inductive IntegratorAttentionAcknowledged :=
  | IntentTaken (outcome_ : AckOutcome) (action : ProcessedActionRef)
  | ProcessedTaken (outcome_ : ProcessedOutcome)
  | FailedTaken (outcome_ : DeliveryFailureOutcome).

Definition still_this_host (s : Bindings) (binding_id incarnation : string) (fence : Z) : outcome unit :=
  binding ← ok_or (List.find (λ b, ib_id b == binding_id) (bindings_list s None))
              (NotFound "integrator_binding");
  ensure (negb (negb (ib_is_live binding) || negb (ib_admits binding incarnation fence)))
    (Conflict "integrator_fence").

Definition acknowledge_integrator_attention (s : Bindings) (l : DeliveryLedger)
    (input : AcknowledgeIntegratorAttentionInput) (now : Instant)
    : DeliveryLedger * outcome IntegratorAttentionAcknowledged :=
  match still_this_host s (aia_binding_id input) (aia_incarnation input) (aia_fence input) with
  | Err e => (l, Err e)
  | Panic => (l, Panic)
  | Ok _ =>
      match aia_outcome input with
      | SaysIntent action note evidence =>
          let done := ledger_acknowledge l (aia_lease input)
                        (MkHostDeliveryObservation ObsReceived now evidence note) now in
          (done.1, (λ o, IntentTaken o action) <$> done.2)
      | SaysProcessed action =>
          let done := ledger_mark_processed l (aia_delivery_id input) (aia_incarnation input)
                        (Some (aia_fence input)) action now in
          (done.1, ProcessedTaken <$> done.2)
      | SaysFailed reason =>
          let done := ledger_mark_failed l (aia_lease input) reason now in
          (done.1, FailedTaken <$> done.2)
      end
  end.
