(* ===== verification/Fold.v ===== *)
(** * Folding the events of a session back into its state

    made-core/src/entities/ceremony_instance/fold: [apply] writes one event,
    [rehydrate] folds a whole stream from its opening event.  Only the
    context patch can panic ([expect] in fold/context.rs), which is why
    [apply] is a function into [outcome]. *)

From S2P Require Import Prelude Errors Text Values Steps Definitions Interventions Instance.

(** ** Opening *)

Definition from_started (started : CeremonyInstanceStarted) : CeremonyInstance := {|
  lease_renewals := ∅;
  host_handoffs := ∅;
  instance_id := cis_ceremony_id started;
  definition_name := cis_definition_name started;
  definition_version := cis_definition_version started;
  current_state := cis_initial_state started;
  current_state_iteration := StateIteration_FIRST;
  current_state_visit := StateVisit_FIRST;
  step_records := gset_to_gmap record_pending (cis_step_ids started);
  step_record_history := ∅;
  interventions := [];
  guard_deferrals := [];
  guard_approvals := [];
  transitions := [];
  reasons := [];
  participant_bindings := ∅;
  context := cis_context started;
  recollection := None;
  idempotency_keys := ∅;
  created_at := cis_created_at started;
  updated_at := cis_created_at started;
  completed_at := None;
  bound_definition := cis_bound_definition started;
  lineage := cis_lineage started;
  budget_account_id := cis_budget_account_id started;
  child_groups := ∅;
  lifecycle_field := lifecycle_default;
  ceremony_deadline := cis_ceremony_deadline started;
  state_deadline := cis_state_deadline started;
  step_deadlines := ∅;
  retired_deadline_claims := ∅;
  late_step_results := ∅;
  execution_receipt_links := ∅;
  execution_receipt_adoptions := ∅;
  succession := cis_succession started;
  successor_plan := None;
|}.

Definition from_imported (imported : InstanceImported) : CeremonyInstance := imp_snapshot imported.

(** ** Steps *)

(** [take_step_record]: the record a step event is applied to.  The caller
    always inserts the step again, so the removal is not observable. *)
Definition take_step_record (i : CeremonyInstance) (id : StepId) : StepExecutionRecord :=
  default record_pending (step_records i !! id).

Definition put_step_record (id : StepId) (r : StepExecutionRecord) (i : CeremonyInstance)
    : CeremonyInstance :=
  i <| step_records ::= <[id := r]> |>.

(** [step_record_history.entry(id).or_default().push(record)]. *)
Definition archive_step_record (id : StepId) (r : StepExecutionRecord) (i : CeremonyInstance)
    : CeremonyInstance :=
  i <| step_record_history ::= <[id := step_history i id ++ [r]]> |>.

Definition apply_step_started (i : CeremonyInstance) (started : StepStarted) : CeremonyInstance :=
  let id := ss_step_id started in
  let record :=
    record_with_budget_reservation
      (record_with_started (take_step_record i id) (ss_lease started) (ss_attempt started)
         (started_claimed_role started))
      (ss_budget_reservation_id started) in
  let i := i <| idempotency_keys ::= λ keys, {[lease_idempotency_key (ss_lease started)]} ∪ keys |> in
  let i := put_step_record id record i in
  let i := match ss_deadline started with
           | Some deadline => i <| step_deadlines ::= <[id := deadline]> |>
           | None => i <| step_deadlines ::= delete id |>
           end in
  i <| updated_at := ss_started_at started |>.

Definition apply_step_lease_renewed (i : CeremonyInstance) (renewed : StepLeaseRenewed)
    : CeremonyInstance :=
  let i := match slr_request renewed with
           | Some request => i <| lease_renewals ::= <[renewal_id request := renewed]> |>
           | None => i
           end in
  let i := match step_records i !! slr_step_id renewed with
           | Some record =>
               put_step_record (slr_step_id renewed)
                 (record_renew_lease_until record (slr_expires_at renewed)) i
           | None => i
           end in
  i <| updated_at := slr_renewed_at renewed |>.

Definition apply_step_completed (i : CeremonyInstance) (completed : StepCompleted)
    : CeremonyInstance :=
  let id := sc_step_id completed in
  let i := i <| step_deadlines ::= delete id |> in
  let finished := record_with_result (take_step_record i id) (sc_result completed) in
  let i := match sc_next_iteration completed with
           | Some next_iteration =>
               put_step_record id
                 (record_with_state_visit
                    (record_pending_coordinates (rec_state_iteration finished) next_iteration)
                    (rec_state_visit finished))
                 (archive_step_record id finished i)
           | None => put_step_record id finished i
           end in
  i <| updated_at := sc_finished_at completed |>.

Definition apply_step_failed (i : CeremonyInstance) (failed : StepFailed) : CeremonyInstance :=
  let id := sf_step_id failed in
  let i := i <| step_deadlines ::= delete id |> in
  let finished := record_with_result (take_step_record i id) (sf_result failed) in
  (put_step_record id finished i) <| updated_at := sf_finished_at failed |>.

(** One step of a state reopened for another pass. *)
Definition reopen_iterated_step (started : StateIterationStarted) (i : CeremonyInstance)
    (id : StepId) : CeremonyInstance :=
  put_step_record id
    (record_with_state_visit
       (record_pending_state_iteration (sis_state_iteration started))
       (default StateVisit_FIRST (sis_state_visit started)))
    (archive_step_record id (take_step_record i id) i).

Definition apply_state_iteration_started (i : CeremonyInstance) (started : StateIterationStarted)
    : CeremonyInstance :=
  let i := i <| current_state_iteration := sis_state_iteration started |> in
  let i := foldl (reopen_iterated_step started) i (sis_step_ids started) in
  i <| updated_at := sis_started_at started |>.

Definition apply_context_written (i : CeremonyInstance) (written : ContextWritten)
    : outcome CeremonyInstance :=
  patched ← expect_ok (with_patch (context i) (cw_patch written));
  Ok (i <| context := patched |> <| updated_at := cw_written_at written |>).

(** ** Transitions *)

(** One step of the destination state reset on entry; executed work is kept. *)
Definition reset_entered_step (visit : Z) (i : CeremonyInstance) (id : StepId)
    : CeremonyInstance :=
  let archived := match step_records i !! id with
                  | Some previous =>
                      if rec_status previous != Pending
                      then archive_step_record id previous i else i
                  | None => i
                  end in
  put_step_record id (record_with_state_visit record_pending visit) archived.

Definition apply_transition_applied (i : CeremonyInstance) (applied : TransitionApplied)
    : CeremonyInstance :=
  let i := match ta_destination applied with
           | Some destination =>
               let i := i <| current_state_visit := sve_state_visit destination |>
                          <| state_deadline := sve_deadline destination |> in
               foldl (reset_entered_step (sve_state_visit destination)) i
                 (sve_step_ids destination)
           | None => i
           end in
  i <| current_state := trec_to_state (ta_transition applied) |>
    <| current_state_iteration := StateIteration_FIRST |>
    <| transitions ::= λ l, l ++ [ta_transition applied] |>
    <| updated_at := trec_applied_at (ta_transition applied) |>.

Definition apply_ceremony_completed (i : CeremonyInstance) (at_ : Instant) : CeremonyInstance :=
  i <| completed_at := Some at_ |> <| updated_at := at_ |>.

(** ** Interventions and reasons *)

(** [intervention_mut]: the first item with the identifier is updated. *)
Fixpoint update_intervention (id : string) (f : CeremonyIntervention → CeremonyIntervention)
    (l : list CeremonyIntervention) : list CeremonyIntervention :=
  match l with
  | [] => []
  | x :: l => if iv_id x == id then f x :: l else x :: update_intervention id f l
  end.

(** A refused change leaves the item as it was. *)
Definition unless_refused (f : CeremonyIntervention → outcome CeremonyIntervention)
    (x : CeremonyIntervention) : CeremonyIntervention :=
  match f x with Ok x' => x' | _ => x end.

Definition apply_intervention_requested (i : CeremonyInstance) (x : CeremonyIntervention)
    : CeremonyInstance :=
  i <| updated_at := iv_created_at x |> <| interventions ::= λ l, l ++ [x] |>.

(** The reason the engine records by itself: a contribution answers the item
    it was made against. *)
Definition record_that_it_answers (i : CeremonyInstance) (agenda_item : string) (now : Instant)
    : CeremonyInstance :=
  match intervention i agenda_item with
  | None => i
  | Some item =>
      let count := Z.of_nat (length (iv_responses item)) in
      if (count =? 0) || (u32_max <? count - 1) then i else
      match CeremonyReason_new (RefContribution agenda_item (count - 1))
              (RefAgendaItem agenda_item) Answers
              "a contribution made against this agenda item" ConfidenceHigh None now with
      | Ok reason => i <| reasons ::= λ l, l ++ [reason] |>
      | _ => i
      end
  end.

Definition apply_intervention_responded (i : CeremonyInstance) (id : string)
    (response : CeremonyInterventionResponse) : CeremonyInstance :=
  match intervention i id with
  | None => i
  | Some x =>
      let appended := i <| interventions ::=
        update_intervention id (unless_refused (λ y, accept_response y response)) |> in
      let i := if is_ok (accept_response x response)
               then record_that_it_answers appended id (resp_responded_at response)
               else appended in
      i <| updated_at := resp_responded_at response |>
  end.

Definition apply_intervention_delivery_acknowledged (i : CeremonyInstance) (id : string)
    (ack : InterventionDeliveryAck) : CeremonyInstance :=
  i <| interventions ::= update_intervention id (unless_refused (λ x, acknowledge_delivery x ack)) |>
    <| updated_at := ack_acknowledged_at ack |>.

Definition apply_intervention_closed (i : CeremonyInstance) (id : string) (closed_by : RoleId)
    (closed_at : Instant) : CeremonyInstance :=
  i <| interventions ::= update_intervention id (unless_refused (λ x, close x closed_by closed_at)) |>
    <| updated_at := closed_at |>.

Definition apply_reason_asserted (i : CeremonyInstance) (reason : CeremonyReason)
    : CeremonyInstance :=
  i <| updated_at := reason_asserted_at reason |> <| reasons ::= λ l, l ++ [reason] |>.

(** ** Guard decisions, seats, memory *)

Definition apply_human_approval_recorded (i : CeremonyInstance) (approval : CeremonyGuardApproval)
    : CeremonyInstance :=
  let i := match with_guard_approval (context i) (appr_guard_name approval) with
           | Ok approved => i <| context := approved |>
           | _ => i
           end in
  i <| guard_approvals ::= λ l, l ++ [approval] |>
    <| updated_at := appr_approved_at approval |>.

Definition apply_human_deferral_recorded (i : CeremonyInstance) (deferral : CeremonyGuardDeferral)
    : CeremonyInstance :=
  i <| guard_deferrals ::= λ l, l ++ [deferral] |> <| updated_at := dfr_deferred_at deferral |>.

Definition apply_participants_bound (i : CeremonyInstance)
    (bindings : list CeremonyParticipantBinding) : CeremonyInstance :=
  foldl (λ i binding,
    i <| participant_bindings ::= <[pb_role_id binding := binding]> |>
      <| updated_at := pb_bound_at binding |>) i bindings.

Definition apply_memory_recalled (i : CeremonyInstance) (r : SessionRecollection) (at_ : Instant)
    : CeremonyInstance :=
  i <| updated_at := at_ |> <| recollection := Some r |>.

(** ** Children, receipts, succession *)

Definition apply_child_spawn_planned (i : CeremonyInstance) (plan : ChildSpawnPlan)
    (at_ : Instant) : CeremonyInstance :=
  let i := match child_groups i !! plan_group_id plan with
           | Some _ => i
           | None => i <| child_groups ::= <[plan_group_id plan := child_group_new plan]> |>
           end in
  i <| updated_at := at_ |>.

Definition apply_child_spawn_plan_adopted (i : CeremonyInstance) (group_id : string)
    (fence : StepClaimFence) (at_ : Instant) : CeremonyInstance :=
  match child_groups i !! group_id with
  | Some group =>
      i <| child_groups ::= <[group_id := child_group_adopt group fence]> |>
        <| updated_at := at_ |>
  | None => i
  end.

Definition apply_child_completion_accepted (i : CeremonyInstance) (completion : ChildCompletionRef)
    (at_ : Instant) : CeremonyInstance :=
  match child_groups i !! cc_group_id completion with
  | Some group =>
      i <| child_groups ::= <[cc_group_id completion := child_group_accept group completion]> |>
        <| updated_at := at_ |>
  | None => i
  end.

Definition apply_execution_receipt_linked (i : CeremonyInstance) (link : ExecutionReceiptLink)
    (at_ : Instant) : CeremonyInstance :=
  let operation := link_operation_id link in
  let i :=
    if is_some (execution_receipt_links i !! operation) && (link_kind link == LinkAdopted) then
      let adoptions := default ∅ (execution_receipt_adoptions i !! operation) in
      let adoptions := match adoptions !! link_applied_claim_fence link with
                       | Some _ => adoptions
                       | None => <[link_applied_claim_fence link := link]> adoptions
                       end in
      i <| execution_receipt_adoptions ::= <[operation := adoptions]> |>
    else match execution_receipt_links i !! operation with
         | Some _ => i
         | None => i <| execution_receipt_links ::= <[operation := link]> |>
         end in
  i <| updated_at := at_ |>.

Definition apply_successor_planned (i : CeremonyInstance) (plan : SuccessionPlan)
    : CeremonyInstance :=
  i <| updated_at := sp_planned_at plan |> <| successor_plan := Some plan |>.

Definition apply_succession_carried (i : CeremonyInstance) (carried : list CarriedEvidence)
    (at_ : Instant) : CeremonyInstance :=
  let state_iteration := current_state_iteration i in
  let state_visit := current_state_visit i in
  let i := foldl (λ i evidence,
    let id := carried_successor_step_id evidence in
    if negb (is_some (step_records i !! id)) then i
    else put_step_record id
           (record_carried (carried_output evidence) (carried_source evidence)
              state_iteration state_visit) i) i carried in
  i <| updated_at := at_ |>.

(** ** Lifecycle *)

Definition apply_ceremony_paused (i : CeremonyInstance) (reason : string) (at_ : Instant)
    : CeremonyInstance :=
  i <| lifecycle_field ::= λ l, lifecycle_pause l reason at_ |> <| updated_at := at_ |>.

Definition apply_ceremony_resumed (i : CeremonyInstance) (at_ : Instant) : CeremonyInstance :=
  i <| lifecycle_field ::= λ l, lifecycle_resume l at_ |> <| updated_at := at_ |>.

Definition apply_ceremony_cancelled (i : CeremonyInstance) (reason : string) (at_ : Instant)
    : CeremonyInstance :=
  i <| lifecycle_field ::= λ l, lifecycle_end l EndCancelled (Some reason) at_ |>
    <| updated_at := at_ |>.

Definition apply_ceremony_deadline_exceeded (i : CeremonyInstance) (at_ : Instant)
    : CeremonyInstance :=
  i <| lifecycle_field ::= λ l, lifecycle_end l EndCeremonyDeadline None at_ |>
    <| updated_at := at_ |>.

Definition apply_state_deadline_exceeded (i : CeremonyInstance) (at_ : Instant)
    : CeremonyInstance :=
  i <| lifecycle_field ::= λ l, lifecycle_end l EndStateDeadline None at_ |>
    <| updated_at := at_ |>.

Definition apply_step_deadline_exceeded (i : CeremonyInstance) (deadline : StepDeadline)
    (result : StepResult) (at_ : Instant) : CeremonyInstance :=
  let id := sd_step_id deadline in
  let i := match step_records i !! id with
           | Some record => put_step_record id (record_with_result record result) i
           | None => i
           end in
  i <| step_deadlines ::= delete id |>
    <| retired_deadline_claims ::= <[sd_claim_fence deadline := deadline]> |>
    <| updated_at := at_ |>.

Definition apply_late_step_result_observed (i : CeremonyInstance) (late : LateStepResult)
    (at_ : Instant) : CeremonyInstance :=
  i <| late_step_results ::= <[late_claim_fence late := late]> |> <| updated_at := at_ |>.

Definition apply_host_handoff_recorded (i : CeremonyInstance) (recorded : HostHandoffRecorded)
    : CeremonyInstance :=
  i <| host_handoffs ::= <[hh_id (hhr_declaration recorded) := recorded]> |>
    <| updated_at := hhr_recorded_at recorded |>.

(** ** The fold *)

Definition apply (i : CeremonyInstance) (event : CeremonyEvent) : outcome CeremonyInstance :=
  match event with
  | EvHostHandoffRecorded recorded => Ok (apply_host_handoff_recorded i recorded)
  | EvCeremonyInstanceStarted _ => Ok i
  | EvParticipantsBound bindings => Ok (apply_participants_bound i bindings)
  | EvStepStarted started => Ok (apply_step_started i started)
  | EvStepLeaseRenewed renewed => Ok (apply_step_lease_renewed i renewed)
  | EvStepCompleted completed => Ok (apply_step_completed i completed)
  | EvStepFailed failed => Ok (apply_step_failed i failed)
  | EvContextWritten written => apply_context_written i written
  | EvStateIterationStarted started => Ok (apply_state_iteration_started i started)
  | EvTransitionApplied applied => Ok (apply_transition_applied i applied)
  | EvInterventionRequested x => Ok (apply_intervention_requested i x)
  | EvInterventionResponded id response => Ok (apply_intervention_responded i id response)
  | EvInterventionClosed id by_ at_ => Ok (apply_intervention_closed i id by_ at_)
  | EvInterventionDeliveryAcknowledged id ack =>
      Ok (apply_intervention_delivery_acknowledged i id ack)
  | EvEvidenceCollected collected => Ok (i <| updated_at := ec_collected_at collected |>)
  | EvReasonAsserted reason => Ok (apply_reason_asserted i reason)
  | EvHumanApprovalRecorded approval => Ok (apply_human_approval_recorded i approval)
  | EvHumanDeferralRecorded deferral => Ok (apply_human_deferral_recorded i deferral)
  | EvCeremonyCompleted _ at_ => Ok (apply_ceremony_completed i at_)
  | EvInstanceImported imported => Ok (from_imported imported)
  | EvMemoryRecalled r at_ => Ok (apply_memory_recalled i r at_)
  | EvChildSpawnPlanned plan at_ => Ok (apply_child_spawn_planned i plan at_)
  | EvChildSpawnPlanAdopted group_id fence at_ =>
      Ok (apply_child_spawn_plan_adopted i group_id fence at_)
  | EvChildCompletionAccepted completion at_ =>
      Ok (apply_child_completion_accepted i completion at_)
  | EvCeremonyPaused reason at_ => Ok (apply_ceremony_paused i reason at_)
  | EvCeremonyResumed at_ => Ok (apply_ceremony_resumed i at_)
  | EvCeremonyCancelled reason at_ => Ok (apply_ceremony_cancelled i reason at_)
  | EvCeremonyDeadlineExceeded _ at_ => Ok (apply_ceremony_deadline_exceeded i at_)
  | EvStateDeadlineExceeded _ at_ => Ok (apply_state_deadline_exceeded i at_)
  | EvStepDeadlineExceeded deadline result at_ =>
      Ok (apply_step_deadline_exceeded i deadline result at_)
  | EvLateStepResultObserved late at_ => Ok (apply_late_step_result_observed i late at_)
  | EvExecutionReceiptLinked _ link at_ => Ok (apply_execution_receipt_linked i link at_)
  | EvSuccessorPlanned plan => Ok (apply_successor_planned i plan)
  | EvSuccessionCarried carried at_ => Ok (apply_succession_carried i carried at_)
  end.

Fixpoint apply_all (i : CeremonyInstance) (events : list CeremonyEvent)
    : outcome CeremonyInstance :=
  match events with
  | [] => Ok i
  | event :: events => i ← apply i event; apply_all i events
  end.

Definition is_import (event : CeremonyEvent) : bool :=
  match event with EvInstanceImported _ => true | _ => false end.

(** The loop of [rehydrate]: an import after the opening is refused. *)
Fixpoint fold_tail (i : CeremonyInstance) (events : list CeremonyEvent)
    : outcome CeremonyInstance :=
  match events with
  | [] => Ok i
  | event :: events =>
      ensure (negb (is_import event))
        (InvariantViolated "a ceremony stream carries an import only as its first event");;
      i ← apply i event;
      fold_tail i events
  end.

Definition rehydrate (events : list CeremonyEvent) : outcome CeremonyInstance :=
  match events with
  | EvCeremonyInstanceStarted started :: events => fold_tail (from_started started) events
  | EvInstanceImported imported :: events => fold_tail (from_imported imported) events
  | _ => Err (InvariantViolated "a ceremony stream opens with its start or with its import")
  end.
