(* ===== verification/Rules.v ===== *)
(** * The rules commands are checked against

    made-core/src/entities/ceremony_instance: invariants.rs,
    role_resolution.rs, step_claims.rs, transitions.rs, children.rs and the
    claim fences of step_execution.rs.  Everything here reads the session and
    its definition and writes nothing. *)

From S2P Require Import Prelude Errors Text Values Steps Definitions Interventions Instance.

Section rules.
Context `{Sha256}.
Context (i : CeremonyInstance) (d : CeremonyDefinition).

(** ** Standing checks (invariants.rs) *)

Definition require_definition : outcome unit :=
  ensure (matches_definition i d) (InvariantViolated "ceremony instance definition mismatch").

Definition require_active (terminal_reason : string) : outcome unit :=
  require_definition;;
  ensure (negb (is_terminal i d || is_ended i)) (InvariantViolated terminal_reason).

Definition require_admits_new_work (operation : string) : outcome unit :=
  ensure (admits_new_work i) (LifecycleRefused operation (lc_phase (lifecycle i))).

Definition require_answering_role (role : RoleId) : outcome unit :=
  ensure (is_some (def_role d role)) (NotFound "ceremony_intervention.target_role");;
  ensure (role_allows d role ActRespondToIntervention)
    (InvariantViolated "target role cannot respond to ceremony interventions").

Definition require_intervention_target (target : CeremonyInterventionTarget) : outcome unit :=
  match target with
  | TargetAgentExecution recipient => require_answering_role (dr_role_id recipient)
  | TargetTable => Ok tt
  | TargetRoles role_ids => try_for_each require_answering_role (btree_elements role_ids)
  end.

Definition require_intervention_provenance (requested_by : RoleId)
    (target : CeremonyInterventionTarget) (provenance : CeremonyInterventionProvenance)
    : outcome unit :=
  source ← ok_or (intervention i (prov_source_intervention provenance))
             (NotFound "ceremony_intervention.provenance_source");
  ensure (iv_requested_by source == requested_by)
    (InvariantViolated "only the source requester can select an intervention response");;
  ensure (any (λ r, resp_role_id r == prov_source_response_role provenance) (iv_responses source))
    (NotFound "ceremony_intervention.provenance_response");;
  ensure (is_some (def_role d (prov_selected_role provenance)))
    (NotFound "ceremony_intervention.provenance_selected_role");;
  ensure (role_allows d (prov_selected_role provenance) ActRespondToIntervention)
    (InvariantViolated "selected intervention role cannot respond");;
  ensure (target_accepts target (prov_selected_role provenance))
    (InvariantViolated "intervention target does not include the selected role").

Definition require_declared_role (role : RoleId) : outcome unit :=
  require_definition;;
  ensure (is_some (def_role d role)) (NotFound "ceremony_role").

Definition require_role (role : RoleId) (action : RoleAction) : outcome unit :=
  require_definition;;
  ensure (role_allows d role action)
    (InvariantViolated "ceremony role is not allowed to perform action").

(** ** Claim fences (step_execution.rs) *)

Definition step_claim_fence (id : StepId) : outcome StepClaimFence :=
  record ← ok_or (step_records i !! id) (NotFound "ceremony_instance.step_record");
  fence_for_record (instance_id i) id record.

Definition require_step_claim_fence (id : StepId) (fence : StepClaimFence) : outcome unit :=
  current ← step_claim_fence id;
  ensure (current == fence)
    (InvariantViolated "step completion claim fence does not match the current claim").

(** ** Role resolution (role_resolution.rs) *)

Definition state_is_concurrent : bool :=
  is_some_and (def_state d (current_state i)) (λ s, state_execution s == Concurrent).

(** The role a record keeps from the other steps of its pass. *)
Definition reserved_role (id : StepId) (record : StepExecutionRecord) : outcome (option RoleId) :=
  match rec_claimed_role record with
  | Some role => Ok (Some role)
  | None =>
      let static_non_pending :=
        (rec_status record != Pending) &&
        is_some_and (def_step d id) (λ s, negb (is_some (step_dynamic_role_binding s))) in
      if static_non_pending then Some <$> role_id_for_step d id else Ok None
  end.

(** Whether a record belongs to the current pass of the current state. *)
Definition record_is_of_current_pass (id : StepId) (record : StepExecutionRecord) : bool :=
  (rec_state_iteration record =? current_state_iteration i) &&
  (rec_state_visit record =? current_state_visit i) &&
  is_some_and (def_step d id) (λ s, step_state_id s == current_state i).

(** Every other step's records, current ones first, then the archived. *)
Definition other_step_records (id : StepId) : list (StepId * StepExecutionRecord) :=
  List.filter (λ x, x.1 != id) (btree_entries (step_records i)) ++
  concat (List.map (λ x, List.map (pair x.1) x.2)
    (List.filter (λ x, x.1 != id) (btree_entries (step_record_history i)))).

Definition roles_assigned_to_other_steps (id : StepId) : outcome (list RoleId) :=
  roles ← try_map (B := option RoleId) (λ x, reserved_role x.1 x.2)
            (List.filter (λ x, record_is_of_current_pass x.1 x.2) (other_step_records id));
  Ok (concat (List.map option_list roles)).

Definition require_role_is_available (id : StepId) (role : RoleId) : outcome unit :=
  if state_is_concurrent then
    roles ← roles_assigned_to_other_steps id;
    ensure (negb (bool_decide (role ∈ roles)))
      (InvariantViolated "role is already assigned to another step in this state iteration")
  else Ok tt.

(** The role a step runs as, and whether it was read from the context. *)
Definition resolve_step_role (id : StepId) (requested : option RoleId) : outcome (RoleId * bool) :=
  step ← ok_or (def_step d id) (NotFound "ceremony_instance.step");
  match step_dynamic_role_binding step with
  | None =>
      role ← match requested with Some r => Ok r | None => role_id_for_step d id end;
      require_role role (ActStep id);;
      require_role_is_available id role;;
      Ok (role, false)
  | Some binding =>
      value ← ok_or (context_get (context i) (drb_context_key binding))
                (NotFound "ceremony_step.role_from.context_key");
      raw ← ok_or (as_str value)
              (InvariantViolated "dynamic role context value must be a string");
      resolved ← RoleId_new raw;
      ensure (binding_allows binding resolved)
        (InvariantViolated "dynamic role is outside the step allow-list");;
      ensure (is_none_or requested (λ r, r == resolved))
        (InvariantViolated "requested step role differs from the dynamic role");;
      require_role resolved (ActStep id);;
      require_role_is_available id resolved;;
      Ok (resolved, true)
  end.

Definition resolved_step_role (id : StepId) : outcome RoleId :=
  fst <$> resolve_step_role id None.

(** ** Claims (step_claims.rs) *)

Definition step_has_live_lease (now : Instant) (s : CeremonyStep) : bool :=
  is_some_and (step_records i !! step_id s) (λ r, record_has_live_lease_at r now).

Definition step_is_unfinished (s : CeremonyStep) : bool :=
  is_some_and (step_records i !! step_id s) (λ r, negb (status_is_success (rec_status r))).

Definition live_leases (now : Instant) : Z :=
  Z.of_nat (count (step_has_live_lease now) (steps_for_state d (current_state i))).

Definition has_live_step_leases_at (now : Instant) : bool :=
  any (step_has_live_lease now) (steps_for_state d (current_state i)).

Definition claim_capacity (host_ceiling : Z) : Z :=
  MaxParallel_effective_with (def_max_parallel d) host_ceiling.

Definition step_is_ready_without_role_at (id : StepId) (now : Instant) : outcome bool :=
  step ← ok_or (def_step d id) (NotFound "ceremony_instance.step");
  record ← ok_or (step_records i !! id) (NotFound "ceremony_instance.step_record");
  if negb (record_can_be_started_at record now) then Ok false else
  attempt ← record_next_start_attempt record;
  Ok (retry_allows_attempt (step_retry_policy step) attempt).

Definition resolved_step_is_claimable_at (id : StepId) (now : Instant) (host_ceiling : Z)
    : outcome bool :=
  require_definition;;
  state ← ok_or (def_state d (current_state i)) (NotFound "ceremony_instance.current_state");
  let steps := steps_for_state d (current_state i) in
  if state_execution state == Sequential then
    match List.find step_is_unfinished steps with
    | Some first =>
        if step_id first != id then Ok false else step_is_ready_without_role_at id now
    | None => Ok false
    end
  else if claim_capacity host_ceiling <=? live_leases now then Ok false
  else step_is_ready_without_role_at id now.

Definition step_is_claimable_at (id : StepId) (now : Instant) : outcome bool :=
  match resolve_step_role id None with
  | Err _ => Ok false
  | Panic => Panic
  | Ok _ => step_is_ready_without_role_at id now
  end.

(** [filter_map] with the first error surfacing. *)
Fixpoint claimable_among (steps : list CeremonyStep) (now : Instant) : outcome (list StepId) :=
  match steps with
  | [] => Ok []
  | s :: steps =>
      claimable ← step_is_claimable_at (step_id s) now;
      rest ← claimable_among steps now;
      Ok (if (claimable : bool) then step_id s :: rest else rest)
  end.

Definition claimable_step_ids_at (now : Instant) (host_ceiling : Z) : outcome (list StepId) :=
  require_definition;;
  state ← ok_or (def_state d (current_state i)) (NotFound "ceremony_instance.current_state");
  let steps := steps_for_state d (current_state i) in
  if state_execution state == Sequential then
    match List.find step_is_unfinished steps with
    | None => Ok []
    | Some step =>
        claimable ← step_is_claimable_at (step_id step) now;
        Ok (if (claimable : bool) then [step_id step] else [])
    end
  else if claim_capacity host_ceiling <=? live_leases now then Ok []
  else claimable_among steps now.

(** ** Transitions (transitions.rs, children.rs) *)

Definition children_completed_guard_is_satisfied (id : StepId) (join : ChildJoin) : bool :=
  match step_records i !! id with
  | None => false
  | Some record =>
      let coordinates := MkChildSpawnCoordinates id (current_state_visit i)
                           (current_state_iteration i) (rec_iteration record) in
      is_some_and (child_groups i !! child_group_derive (instance_id i) coordinates) (λ group,
        (plan_coordinates (cg_plan group) == coordinates) &&
        child_join_is_satisfied join (size (cg_completions group))
          (length (plan_children (cg_plan group))))
  end.

Definition guard_is_satisfied_for_transition (t : CeremonyTransition) (g : CeremonyGuard) : bool :=
  match guard_condition g with
  | ChildrenCompleted id join =>
      is_some_and (def_step d id) (λ s, step_state_id s == tr_from t) &&
      children_completed_guard_is_satisfied id join
  | StateRepeatExhausted id =>
      (id == tr_from t) && (tr_from t == current_state i) && state_repeat_limit_reached i d
  | _ => def_guard_is_satisfied_for_transition d g t (step_records i) (context i)
  end.

Definition guards_are_satisfied (t : CeremonyTransition) : bool :=
  repeat_requirements_are_satisfied_for_transition d t (step_records i) &&
  all (λ name, is_some_and (def_guards d !! name) (guard_is_satisfied_for_transition t))
    (btree_elements (tr_required_guards t)).

Definition is_exact_edge (t : CeremonyTransition) (r : CeremonyTransitionRecord) : bool :=
  (trec_from_state r == tr_from t) && (trec_trigger r == tr_trigger t) &&
  (trec_to_state r == tr_to t).

Definition exact_edge_count (t : CeremonyTransition) : nat :=
  count (is_exact_edge t) (transitions i).

Definition require_transition_budget (t : CeremonyTransition) : outcome unit :=
  ensure (negb (is_some_and (def_max_transitions d)
                  (λ limit, limit <=? Z.of_nat (length (transitions i)))))
    (InvariantViolated "ceremony transition limit exhausted");;
  ensure (negb (is_some_and (def_max_bounces d)
                  (λ limit, limit <=? Z.of_nat (exact_edge_count t))))
    (InvariantViolated "ceremony transition bounce limit exhausted").

Definition require_interventions_resolved_before_entering (state : StateId) : outcome unit :=
  ensure (negb (is_terminal_state d state && any iv_is_open (interventions i)))
    (InvariantViolated "ceremony cannot enter a terminal state with open interventions").

Definition state_repeat_permits (t : CeremonyTransition) : bool :=
  state_repeat_permits_transition i d ||
  (state_repeat_limit_reached i d && transition_routes_state_repeat_exhaustion d t).

Definition state_repeat_exhaustion_is_unrouted : bool :=
  state_repeat_limit_reached i d &&
  negb (any (transition_routes_state_repeat_exhaustion d)
          (available_transitions d (current_state i))).

Definition transition_requirements_are_satisfied (t : CeremonyTransition) : bool :=
  state_repeat_permits t && guards_are_satisfied t &&
  is_ok (require_interventions_resolved_before_entering (tr_to t)).

Definition transition_is_enabled (t : CeremonyTransition) : bool :=
  is_ok (require_transition_budget t) && transition_requirements_are_satisfied t.

Definition transition_is_enabled_at (t : CeremonyTransition) (now : Instant) : bool :=
  negb (has_live_step_leases_at now) && transition_is_enabled t.
End rules.
