(* ===== verification/Decide.v ===== *)
(** * Deciding: what a command would do to a session, as events

    made-core/src/entities/ceremony_instance/decisions: one definition per
    [decide_*] function and [decide] itself, and the constructors that open a
    session (decisions/start.rs).  A refused command is an [Err] with the
    source's error; an accepted one the list of events to append. *)

From S2P Require Import Prelude Errors Text Values Steps Definitions Interventions Instance.
From S2P Require Import Fold Rules.

(** ** Opening a session (decisions/start.rs) *)

Section opening.
Context `{Clock}.

Definition missing_inputs (d : CeremonyDefinition) (context : CeremonyContext) : list string :=
  List.map input_name
    (List.filter (λ input, (input_requirement input == Required) &&
                           negb (is_some (context !! input_name input)))
       (btree_values (def_inputs d))).

Definition opening (id : CeremonyId) (d : CeremonyDefinition) (context : CeremonyContext)
    (now : Instant) (bound_definition : option string) (lineage : option CeremonyLineage)
    (budget_account_id : option string) : outcome CeremonyInstanceStarted :=
  let missing := missing_inputs d context in
  ensure (length missing =? 0)%nat
    (InvalidDocument ("missing required ceremony inputs: " +:+ String.concat ", " missing));;
  ceremony_deadline ← try_option (λ timeout, checked_deadline now timeout "ceremony_deadline")
                        (def_ceremony_timeout d);
  state_deadline_at ← try_option (λ timeout, checked_deadline now timeout "state_deadline")
                        (def_state_timeout d);
  initial ← initial_state_id d;
  Ok {|
    cis_ceremony_id := id;
    cis_definition_name := def_name d;
    cis_definition_version := def_version d;
    cis_initial_state := initial;
    cis_step_ids := dom (def_steps d);
    cis_context := context;
    cis_bound_definition := bound_definition;
    cis_lineage := lineage;
    cis_succession := None;
    cis_budget_account_id := budget_account_id;
    cis_ceremony_deadline := ceremony_deadline;
    cis_state_deadline := MkStateDeadline initial StateVisit_FIRST <$> state_deadline_at;
    cis_created_at := now;
  |}.

Definition opening_batch (started : CeremonyInstanceStarted)
    (recollection : option SessionRecollection) (now : Instant) : list CeremonyEvent :=
  EvCeremonyInstanceStarted started ::
  match option_keep (λ r, negb (recollection_is_empty r)) recollection with
  | Some r => [EvMemoryRecalled r now]
  | None => []
  end.

Definition decide_start (id : CeremonyId) (d : CeremonyDefinition) (context : CeremonyContext)
    (recollection : option SessionRecollection) (now : Instant) : outcome (list CeremonyEvent) :=
  started ← opening id d context now None None None;
  Ok (opening_batch started recollection now).

Definition decide_start_bound (id : CeremonyId) (published : PublishedCeremonyDefinition)
    (context : CeremonyContext) (recollection : option SessionRecollection) (now : Instant)
    : outcome (list CeremonyEvent) :=
  started ← opening id (pub_definition published) context now
              (Some (pub_digest published)) None None;
  Ok (opening_batch started recollection now).

Definition decide_start_bound_child (id : CeremonyId) (published : PublishedCeremonyDefinition)
    (context : CeremonyContext) (lineage : CeremonyLineage)
    (recollection : option SessionRecollection) (now : Instant) : outcome (list CeremonyEvent) :=
  started ← opening id (pub_definition published) context now
              (Some (pub_digest published)) (Some lineage) None;
  Ok (opening_batch started recollection now).

Definition decide_start_bound_budgeted (id : CeremonyId) (published : PublishedCeremonyDefinition)
    (context : CeremonyContext) (budget_account_id : string)
    (recollection : option SessionRecollection) (now : Instant) : outcome (list CeremonyEvent) :=
  started ← opening id (pub_definition published) context now
              (Some (pub_digest published)) None (Some budget_account_id);
  Ok (opening_batch started recollection now).

Definition decide_start_bound_budgeted_child (id : CeremonyId)
    (published : PublishedCeremonyDefinition) (context : CeremonyContext)
    (lineage : CeremonyLineage) (budget_account_id : string)
    (recollection : option SessionRecollection) (now : Instant) : outcome (list CeremonyEvent) :=
  started ← opening id (pub_definition published) context now
              (Some (pub_digest published)) (Some lineage) (Some budget_account_id);
  Ok (opening_batch started recollection now).

Definition decide_start_successor (id : CeremonyId) (published : PublishedCeremonyDefinition)
    (context : CeremonyContext) (succession : CeremonySuccession) (plan : SuccessionPlan)
    (now : Instant) : outcome (list CeremonyEvent) :=
  started ← opening id (pub_definition published) context now
              (Some (pub_digest published)) None None;
  Ok (EvCeremonyInstanceStarted (started <| cis_succession := Some succession |>) ::
      (if (length (sp_carried plan) =? 0)%nat then []
       else [EvSuccessionCarried (sp_carried plan) now])).

(** [CeremonyInstance::start] and [start_bound]. *)
Definition start (id : CeremonyId) (d : CeremonyDefinition) (context : CeremonyContext)
    (now : Instant) : outcome CeremonyInstance :=
  from_started <$> opening id d context now None None None.

Definition start_bound (id : CeremonyId) (published : PublishedCeremonyDefinition)
    (context : CeremonyContext) (now : Instant) : outcome CeremonyInstance :=
  from_started <$> opening id (pub_definition published) context now
                     (Some (pub_digest published)) None None.
End opening.

Section decisions.
Context `{Sha256} `{Clock} `{EvidenceSerde}.
Context (i : CeremonyInstance) (d : CeremonyDefinition).

(** ** Starting a step (decisions/step_execution.rs, budget_admission.rs) *)

Definition require_new_step_idempotency_key (c : StartStep) : outcome unit :=
  ensure (negb (bool_decide (lease_idempotency_key (cmd_start_lease c) ∈ idempotency_keys i)))
    (AlreadyExists "ceremony_instance.idempotency_key").

Definition require_budget_reservation (id : StepId) (record : StepExecutionRecord) (c : StartStep)
    : outcome unit :=
  match budget_account_id i, cmd_start_budget_reservation_id c with
  | None, None => Ok tt
  | Some account, Some reservation =>
      let operation := operation_for_step (instance_id i) id (current_state_visit i)
                         (current_state_iteration i) (rec_iteration record) in
      let expected := reservation_for_operation account (budget_operation_for_execution operation) in
      ensure (reservation == expected)
        (InvariantViolated "step claim budget reservation does not match its execution identity")
  | Some _, None =>
      Err (InvariantViolated "budgeted ceremony steps require an admitted reservation")
  | None, Some _ =>
      Err (InvariantViolated "unbudgeted ceremony steps cannot name a budget reservation")
  end.

(** The earlier of an optional instant and another. *)
Definition earliest (at_ : option Instant) (other : option Instant) : option Instant :=
  match other with
  | None => at_
  | Some o => Some (match at_ with Some a => Z.min a o | None => o end)
  end.

Definition step_deadline (c : StartStep) (record : StepExecutionRecord) (attempt : Z)
    (fence : StepClaimFence) (started_by : RoleId) (timeout : option Z)
    : outcome (option StepDeadline) :=
  at_ ← try_option (λ t, checked_deadline (cmd_start_now c) t "step_deadline") timeout;
  let at_ := earliest (earliest at_ (std_at <$> state_deadline i)) (ceremony_deadline i) in
  Ok (MkStepDeadline (cmd_start_step_id c) (current_state_visit i) (current_state_iteration i)
        (rec_iteration record) attempt fence started_by <$> at_).

Definition decide_start_step (c : StartStep) : outcome (list CeremonyEvent) :=
  let id := cmd_start_step_id c in
  let now := cmd_start_now c in
  require_definition i d;;
  require_admits_new_work i "start_step";;
  ensure (negb (is_terminal i d || is_ended i))
    (InvariantViolated "terminal ceremony instances cannot start steps");;
  step ← ok_or (def_step d id) (NotFound "ceremony_instance.step");
  ensure (step_state_id step == current_state i)
    (InvalidTransition "ceremony_instance.current_state" "ceremony_step.state");;
  record ← ok_or (step_records i !! id) (NotFound "ceremony_instance.step_record");
  ensure (record_can_be_started_at record now) (InvariantViolated "step lease is still active");;
  attempt ← record_next_start_attempt record;
  ensure (retry_allows_attempt (step_retry_policy step) attempt)
    (InvariantViolated "step retry policy exhausted");;
  role ← resolve_step_role i d id (cmd_start_role_id c);
  let started_by := role.1 in
  let dynamic := role.2 in
  let concurrent_state := state_is_concurrent i d in
  let mixed_concurrent_state :=
    concurrent_state && any (λ s, is_some (step_dynamic_role_binding s))
                          (steps_for_state d (current_state i)) in
  alternate_static_role ←
    (if negb dynamic && concurrent_state
     then canonical ← role_id_for_step d id; Ok (canonical != started_by) else Ok false);
  let sealed_role :=
    if negb dynamic && (mixed_concurrent_state || alternate_static_role)
    then Some started_by else None in
  claimable ← resolved_step_is_claimable_at i d id now (cmd_start_max_parallel_ceiling c);
  ensure claimable
    (InvariantViolated "ceremony step is not claimable at the observed time and capacity");;
  require_new_step_idempotency_key c;;
  let claimed_role := if dynamic then Some started_by else sealed_role in
  let claimed_record :=
    record_with_budget_reservation
      (record_with_started record (cmd_start_lease c) attempt claimed_role)
      (cmd_start_budget_reservation_id c) in
  require_budget_reservation id record c;;
  fence ← fence_for_record (instance_id i) id claimed_record;
  deadline ← step_deadline c record attempt fence started_by (step_timeout step);
  role_from ← (if dynamic
               then b ← expect (step_dynamic_role_binding step); Ok (Some (drb_context_key b))
               else Ok None);
  Ok [EvStepStarted {|
    ss_step_id := id;
    ss_state_visit := Some (current_state_visit i);
    ss_state_iteration := Some (current_state_iteration i);
    ss_iteration := rec_iteration record;
    ss_attempt := attempt;
    ss_lease := cmd_start_lease c;
    ss_started_by := started_by;
    ss_role_from := role_from;
    ss_sealed_role := sealed_role;
    ss_deadline := deadline;
    ss_budget_reservation_id := cmd_start_budget_reservation_id c;
    ss_started_at := now;
  |}].

(** ** Filing a result (decisions/step_execution.rs) *)

Definition finishing_role (id : StepId) (record : StepExecutionRecord) : outcome RoleId :=
  match rec_claimed_role record with
  | Some role => Ok role
  | None => role_id_for_step d id
  end.

(** A result for a claim a deadline retired, or for a session that ended, is
    kept as an observation; [None] when the result is not late. *)
Definition decide_late_step_result (c : ApplyStepResult) : outcome (option (list CeremonyEvent)) :=
  let id := cmd_result_step_id c in
  let fence := cmd_result_claim_fence c in
  match late_step_results i !! fence with
  | Some existing =>
      if (late_step_id existing == id) && (late_result existing == cmd_result_result c)
      then Ok (Some [])
      else Err (InvariantViolated
                  "late step claim already has a different step or observed result")
  | None =>
      let retired := option_keep (λ deadline, sd_step_id deadline == id)
                       (retired_deadline_claims i !! fence) in
      if negb (is_ended i) && negb (is_some retired) then Ok None else
      record ← ok_or (step_records i !! id) (NotFound "ceremony_instance.step_record");
      let live_matches :=
        (rec_status record == InProgress) &&
        match step_claim_fence i id with Ok current => current == fence | _ => false end in
      ensure (live_matches || is_some retired)
        (InvariantViolated "step result claim fence is not current or retired by a deadline");;
      match retired with
      | Some deadline =>
          Ok (Some [EvLateStepResultObserved
            (MkLateStepResult id (sd_state_visit deadline) (sd_state_iteration deadline)
               (sd_step_iteration deadline) (sd_attempt deadline) fence
               (cmd_result_result c) (sd_finished_by deadline)) (cmd_result_now c)])
      | None =>
          finished_by ← finishing_role id record;
          Ok (Some [EvLateStepResultObserved
            (MkLateStepResult id (rec_state_visit record) (rec_state_iteration record)
               (rec_iteration record) (rec_attempt record) fence
               (cmd_result_result c) finished_by) (cmd_result_now c)])
      end
  end.
End decisions.

(** Whether the finished pass of a repeating state opens another one. *)
Definition decide_state_iteration (i : CeremonyInstance) (d : CeremonyDefinition) (now : Instant)
    : outcome (list CeremonyEvent) :=
  match state_repeat_policy i d with
  | None => Ok []
  | Some policy =>
      if negb (state_work_is_complete i d) || state_repeat_condition_is_satisfied i d ||
         negb (state_repeat_permits_another_iteration policy (current_state_iteration i))
      then Ok []
      else next ← StateIteration_next (current_state_iteration i);
           Ok [EvStateIterationStarted {|
             sis_state_id := current_state i;
             sis_state_visit := Some (current_state_visit i);
             sis_state_iteration := next;
             sis_step_ids := List.map step_id (steps_for_state d (current_state i));
             sis_started_at := now;
           |}]
  end.

Section results.
Context `{Sha256} `{Clock} `{EvidenceSerde}.
Context (i : CeremonyInstance) (d : CeremonyDefinition).

Definition decide_apply_step_result (c : ApplyStepResult) : outcome (list CeremonyEvent) :=
  let id := cmd_result_step_id c in
  let result := cmd_result_result c in
  require_definition i d;;
  ensure (negb (is_some (res_failure_kind result) && (res_status result != Failed)))
    (InvariantViolated "only failed step results may carry a failure kind");;
  step ← ok_or (def_step d id) (NotFound "ceremony_instance.step");
  late ← decide_late_step_result i d c;
  match late with
  | Some events => Ok events
  | None =>
      ensure (step_state_id step == current_state i)
        (InvalidTransition "ceremony_instance.current_state" "ceremony_step.state");;
      record ← ok_or (step_records i !! id) (NotFound "ceremony_instance.step_record");
      ensure (rec_status record == InProgress)
        (InvariantViolated "step result requires an in-progress step");;
      require_step_claim_fence i id (cmd_result_claim_fence c);;
      let iteration := rec_iteration record in
      if negb (result_is_success result) then
        finished_by ← finishing_role d id record;
        Ok [EvStepFailed {|
          sf_step_id := id;
          sf_state_visit := Some (current_state_visit i);
          sf_state_iteration := Some (current_state_iteration i);
          sf_iteration := iteration;
          sf_attempt := rec_attempt record;
          sf_result := result;
          sf_finished_by := finished_by;
          sf_finished_at := cmd_result_now c;
        |}]
      else
        next_iteration ← try_option (λ _ : StepRepeatPolicy, StepIteration_next iteration)
          (option_keep (λ policy, repeat_permits_another_iteration policy iteration)
             (option_keep (λ policy, negb (repeat_is_satisfied policy (res_output result)))
                (step_repeat_policy step)));
        finished_by ← finishing_role d id record;
        patch ← context_writes_resolve (step_context_writes step) (res_output result);
        let completed := EvStepCompleted {|
          sc_step_id := id;
          sc_state_visit := Some (current_state_visit i);
          sc_state_iteration := Some (current_state_iteration i);
          sc_iteration := iteration;
          sc_attempt := rec_attempt record;
          sc_result := result;
          sc_next_iteration := next_iteration;
          sc_finished_by := finished_by;
          sc_finished_at := cmd_result_now c;
        |} in
        let written := match patch with
                       | None => []
                       | Some patch => [EvContextWritten {|
                           cw_step_id := id;
                           cw_state_visit := Some (current_state_visit i);
                           cw_state_iteration := current_state_iteration i;
                           cw_iteration := iteration;
                           cw_attempt := rec_attempt record;
                           cw_patch := patch;
                           cw_written_at := cmd_result_now c;
                         |}]
                       end in
        let events := completed :: written in
        projected ← apply_all i events;
        more ← decide_state_iteration projected d (cmd_result_now c);
        Ok (events ++ more)
  end.

(** ** Execution receipts (decisions/execution_receipts.rs) *)

Definition require_same_receipt (original adoption : ExecutionReceiptLink) : outcome unit :=
  ensure ((link_receipt_id original == link_receipt_id adoption) &&
          (link_operation_id original == link_operation_id adoption) &&
          (link_producer_claim_fence original == link_producer_claim_fence adoption))
    (Conflict "execution_receipt_adoption").

(** The checks an adopted receipt passes before its result is filed;
    [true] when the same adoption is already recorded. *)
Definition check_adoption (link : ExecutionReceiptLink) (original : option ExecutionReceiptLink)
    : outcome bool :=
  match execution_receipt_adoption i (link_operation_id link) (link_applied_claim_fence link) with
  | Some stored => if stored == link then Ok true else Err (Conflict "execution_receipt_adoption")
  | None =>
      require_admits_new_work i "adopt_execution_receipt";;
      match original with
      | Some original => require_same_receipt original link;; Ok false
      | None => Ok false
      end
  end.

Definition decide_apply_execution_receipt_result (c : ApplyExecutionReceiptResult)
    : outcome (list CeremonyEvent) :=
  let id := cmd_receipt_step_id c in
  let link := cmd_receipt_link c in
  let fence := cmd_receipt_claim_fence c in
  link_validate link;;
  ensure (link_applied_claim_fence link == fence)
    (InvariantViolated "execution receipt link does not target the completing claim fence");;
  let original := execution_receipt_links i !! link_operation_id link in
  if original == Some link then Ok [] else
  ensure (negb ((link_kind link == LinkDirect) && is_some original))
    (Conflict "execution_receipt_link");;
  replayed ← (if link_kind link == LinkAdopted then check_adoption link original else Ok false);
  if replayed : bool then Ok [] else
  record ← ok_or (step_records i !! id) (NotFound "ceremony_instance.step_record");
  let retired := option_keep (λ deadline, sd_step_id deadline == id)
                   (retired_deadline_claims i !! fence) in
  let expected_operation :=
    match retired with
    | Some deadline =>
        operation_for_step (instance_id i) id (sd_state_visit deadline)
          (sd_state_iteration deadline) (sd_step_iteration deadline)
    | None =>
        operation_for_step (instance_id i) id (rec_state_visit record)
          (rec_state_iteration record) (rec_iteration record)
    end in
  ensure (link_operation_id link == expected_operation)
    (InvariantViolated "execution receipt operation does not match the step coordinates");;
  result_events ← decide_apply_step_result
    (MkApplyStepResult id fence (cmd_receipt_result c) (cmd_receipt_now c));
  Ok (EvExecutionReceiptLinked id link (cmd_receipt_now c) :: result_events).
End results.

Section more_decisions.
Context `{Sha256} `{Clock} `{EvidenceSerde}.
Context (i : CeremonyInstance) (d : CeremonyDefinition).

(** ** Transitions (decisions/transitions.rs) *)

Definition decide_apply_transition (c : ApplyTransition) : outcome (list CeremonyEvent) :=
  let now := cmd_transition_now c in
  match cmd_transition_role_id c with
  | Some role => require_role i d role (ActTransition (cmd_transition_trigger c))
  | None => Ok tt
  end;;
  require_definition i d;;
  require_admits_new_work i "apply_transition";;
  ensure (negb (is_terminal i d || is_ended i))
    (InvariantViolated "terminal ceremony instances cannot transition");;
  t ← ok_or (transition_for_trigger d (current_state i) (cmd_transition_trigger c))
        (InvalidTransition "ceremony_instance.current_state" "transition_trigger");
  require_transition_budget i d t;;
  ensure (negb (has_live_step_leases_at i d now))
    (InvariantViolated "ceremony cannot transition while a step lease is active");;
  ensure (state_repeat_permits i d t)
    (InvariantViolated "ceremony state repeat condition is not satisfied");;
  ensure (guards_are_satisfied i d t)
    (InvariantViolated "ceremony transition guards are not satisfied");;
  next_visit ← StateVisit_next (current_state_visit i);
  deadline_at ← try_option (λ timeout, checked_deadline now timeout "state_deadline")
                  (def_state_timeout d);
  require_interventions_resolved_before_entering i d (tr_to t);;
  Ok (EvTransitionApplied {|
        ta_destination := Some {|
          sve_state_visit := next_visit;
          sve_step_ids := List.map step_id (steps_for_state d (tr_to t));
          sve_deadline := MkStateDeadline (tr_to t) next_visit <$> deadline_at;
        |};
        ta_transition := {|
          trec_trigger := cmd_transition_trigger c;
          trec_from_state := current_state i;
          trec_state_iteration := Some (current_state_iteration i);
          trec_state_visit := Some (current_state_visit i);
          trec_to_state := tr_to t;
          trec_applied_by := cmd_transition_role_id c;
          trec_applied_at := now;
        |};
      |} :: (if is_terminal_state d (tr_to t) then [EvCeremonyCompleted (tr_to t) now] else [])).

(** ** Lease renewal (decisions/lease_renewal.rs) *)

Definition renewal_is_replay (c : RenewStepLease) (request : StepLeaseRenewalRequest)
    (accepted : StepLeaseRenewed) : bool :=
  (slr_request accepted == Some request) && (slr_step_id accepted == cmd_renew_step_id c) &&
  (slr_claim_fence accepted == cmd_renew_claim_fence c) &&
  (slr_lease_owner_id accepted == cmd_renew_lease_owner_id c).

(** The earliest of the step's, the state's and the ceremony's deadlines. *)
Definition absolute_deadline (id : StepId) : option Instant :=
  earliest (earliest (sd_at <$> step_deadlines i !! id) (std_at <$> state_deadline i))
    (ceremony_deadline i).

Definition decide_new_renewal (c : RenewStepLease) : outcome (list CeremonyEvent) :=
  let id := cmd_renew_step_id c in
  let now := cmd_renew_now c in
  ensure (negb (is_ended i || is_terminal i d))
    (InvariantViolated "ended ceremony cannot renew a lease");;
  require_step_claim_fence i id (cmd_renew_claim_fence c);;
  record ← ok_or (step_records i !! id) (NotFound "ceremony_step");
  lease ← ok_or (rec_lease record) (NotFound "step_lease");
  ensure ((lease_owner_id lease == cmd_renew_lease_owner_id c) &&
          record_has_live_lease_at record now)
    (InvariantViolated "only the live lease owner may renew");;
  ensure (record_effective_lease_expires_at record == Some (cmd_renew_expected_expires_at c))
    (Conflict "step_lease_expiry");;
  ensure (negb ((cmd_renew_expires_at c <? cmd_renew_expected_expires_at c) ||
                (cmd_renew_expires_at c <=? now)))
    (InvariantViolated "renewal cannot shorten the effective lease expiry");;
  ensure (negb (is_some_and (absolute_deadline id)
                  (λ at_, (at_ <=? now) || (at_ <? cmd_renew_expires_at c))))
    (InvariantViolated "renewal cannot exceed the absolute deadline");;
  if (cmd_renew_expires_at c =? cmd_renew_expected_expires_at c) &&
     negb (is_some (cmd_renew_request c)) then Ok [] else
  Ok [EvStepLeaseRenewed {|
    slr_request := cmd_renew_request c;
    slr_step_id := id;
    slr_claim_fence := cmd_renew_claim_fence c;
    slr_lease_owner_id := cmd_renew_lease_owner_id c;
    slr_previous_expires_at := cmd_renew_expected_expires_at c;
    slr_expires_at := cmd_renew_expires_at c;
    slr_renewed_at := now;
  |}].

Definition decide_renew_step_lease (c : RenewStepLease) : outcome (list CeremonyEvent) :=
  require_definition i d;;
  match cmd_renew_request c with
  | None => decide_new_renewal c
  | Some request =>
      match lease_renewals i !! renewal_id request with
      | Some accepted =>
          if renewal_is_replay c request accepted then Ok []
          else Err (Conflict "step_lease_renewal_request")
      | None => decide_new_renewal c
      end
  end.

(** ** Lifecycle (decisions/lifecycle.rs) *)

Definition decide_pause (reason : string) (now : Instant) : outcome (list CeremonyEvent) :=
  require_definition i d;;
  ensure (negb (is_ended i)) (LifecycleRefused "pause" Ended);;
  match lc_phase (lifecycle_field i) with
  | Running => Ok [EvCeremonyPaused reason now]
  | Paused => Ok []
  | Ended => Err (LifecycleRefused "pause" Ended)
  end.

Definition decide_resume (now : Instant) : outcome (list CeremonyEvent) :=
  require_definition i d;;
  ensure (negb (is_ended i)) (LifecycleRefused "resume" Ended);;
  ensure (negb (is_superseded i))
    (LifecycleRefused "superseded_by_successor" (lc_phase (lifecycle_field i)));;
  match lc_phase (lifecycle_field i) with
  | Paused => Ok [EvCeremonyResumed now]
  | Running => Ok []
  | Ended => Err (LifecycleRefused "resume" Ended)
  end.

Definition decide_cancel (reason : string) (now : Instant) : outcome (list CeremonyEvent) :=
  require_definition i d;;
  if lc_end_reason (lifecycle_field i) == Some EndCancelled then Ok [] else
  ensure (negb (is_ended i)) (LifecycleRefused "cancel" Ended);;
  Ok [EvCeremonyCancelled reason now].

(** Deadlines in the order they fell due, ties by step. *)
Definition deadline_le (a b : StepDeadline) : Prop :=
  sd_at a < sd_at b ∨ (sd_at a = sd_at b ∧ String.le (sd_step_id a) (sd_step_id b)).

#[export] Instance deadline_le_dec : RelDecision deadline_le.
Proof. intros a b. unfold deadline_le. apply _. Defined.

Definition due_step_deadlines (now : Instant) (terminal_at : option Instant) : list StepDeadline :=
  merge_sort deadline_le
    (List.filter (λ deadline, (sd_at deadline <=? now) &&
                              is_none_or terminal_at (λ at_, sd_at deadline <? at_))
       (btree_values (step_deadlines i))).

Definition decide_enforce_deadlines (now : Instant) : outcome (list CeremonyEvent) :=
  require_definition i d;;
  if is_ended i then Ok [] else
  let ceremony := option_keep (λ at_, at_ <=? now) (ceremony_deadline i) in
  let state := option_keep (λ deadline, std_at deadline <=? now) (state_deadline i) in
  let terminal_at := earliest ceremony (std_at <$> state) in
  step_events ← try_map (λ deadline,
      result ← StepResult_timed_out;
      Ok (EvStepDeadlineExceeded deadline result now))
    (due_step_deadlines now terminal_at);
  let terminal :=
    match ceremony, state with
    | Some ceremony, Some state =>
        if ceremony <=? std_at state then [EvCeremonyDeadlineExceeded ceremony now]
        else [EvStateDeadlineExceeded state now]
    | None, Some state => [EvStateDeadlineExceeded state now]
    | Some ceremony, None => [EvCeremonyDeadlineExceeded ceremony now]
    | None, None => []
    end in
  Ok (step_events ++ terminal).

(** ** Guard decisions and seats *)

Definition is_human_approval (g : CeremonyGuard) : bool := guard_condition g == HumanApproval.

Definition decide_approve_guard (c : ApproveGuard) : outcome (list CeremonyEvent) :=
  require_active i d "terminal ceremony instances cannot approve guards";;
  guard ← ok_or (def_guards d !! cmd_approve_guard_name c) (NotFound "ceremony_guard");
  ensure (is_human_approval guard)
    (InvariantViolated "only human approval guards can be approved");;
  require_declared_role i d (cmd_approve_by c);;
  with_guard_approval (context i) (cmd_approve_guard_name c);;
  Ok [EvHumanApprovalRecorded (MkCeremonyGuardApproval (cmd_approve_guard_name c)
        (cmd_approve_by c) (cmd_approve_by_kind c) (cmd_approve_now c))].

Definition decide_defer_guard (c : DeferGuard) : outcome (list CeremonyEvent) :=
  ReconsiderationConditions_new (dfc_reconsider_when (cmd_defer_content c));;
  require_active i d "terminal ceremony instances cannot defer guard decisions";;
  guard ← ok_or (def_guards d !! cmd_defer_guard_name c) (NotFound "ceremony_guard");
  ensure (is_human_approval guard)
    (InvariantViolated "only human approval guards can be deferred");;
  ensure (negb (is_guard_approved (context i) (cmd_defer_guard_name c)))
    (InvariantViolated "approved human guards cannot be deferred");;
  ensure (any (λ t, bool_decide (cmd_defer_guard_name c ∈ tr_required_guards t))
            (available_transitions d (current_state i)))
    (InvariantViolated "human guard is not required from the current state");;
  require_declared_role i d (cmd_defer_by c);;
  Ok [EvHumanDeferralRecorded (MkCeremonyGuardDeferral (cmd_defer_guard_name c)
        (cmd_defer_by c) (cmd_defer_by_kind c) (cmd_defer_content c) (cmd_defer_now c))].

Definition decide_bind_participant (role : RoleId) (specialty : string) (now : Instant)
    : outcome (list CeremonyEvent) :=
  require_active i d "terminal ceremony instances cannot be re-seated";;
  ensure (is_some (def_role d role)) (NotFound "ceremony_role");;
  Ok [EvParticipantsBound [MkCeremonyParticipantBinding role specialty now]].

(** ** Host handoffs (decisions/host_handoff.rs) *)

Definition decide_record_host_handoff (declaration : HostHandoffDeclaration) (now : Instant)
    : outcome (list CeremonyEvent) :=
  require_definition i d;;
  handoff_validate declaration;;
  match host_handoffs i !! hh_id declaration with
  | Some accepted =>
      if hhr_declaration accepted == declaration then Ok []
      else Err (Conflict "host_handoff_identity")
  | None =>
      require_step_claim_fence i (hh_step_id declaration) (hh_claim_fence declaration);;
      lease ← ok_or (step_records i !! hh_step_id declaration ≫= rec_lease)
                (NotFound "accepted_step_lease");
      ensure (negb ((lease_owner_id lease != hh_owner declaration) ||
                    (hh_observed_at declaration <? lease_acquired_at lease) ||
                    (now <? hh_observed_at declaration)))
        (InvariantViolated
           "host handoff must name its accepted owner and a valid observation time");;
      ensure (negb (any (λ accepted,
                 let other := hhr_declaration accepted in
                 (hh_claim_fence other == hh_claim_fence declaration) &&
                 ((hh_incarnation other != hh_incarnation declaration) ||
                  (hh_observed_at declaration <=? hh_observed_at other)))
               (btree_values (host_handoffs i))))
        (Conflict "host_handoff_incarnation_or_order");;
      Ok [EvHostHandoffRecorded (MkHostHandoffRecorded declaration now)]
  end.
End more_decisions.
