(* ===== verification/DecideTable.v ===== *)
(** * Deciding on the conversation of a session

    made-core/src/entities/ceremony_instance/decisions/interventions.rs and
    reasons.rs: who may ask, answer, acknowledge and close, and which reasons
    a seat may assert about the records of the session. *)

From S2P Require Import Prelude Errors Text Values Steps Definitions Interventions Instance.
From S2P Require Import Fold Rules.

Section table.
Context `{EvidenceSerde}.
Context (i : CeremonyInstance) (d : CeremonyDefinition).

Definition require_open_intervention (id : string) : outcome CeremonyIntervention :=
  ok_or (intervention i id) (NotFound "ceremony_intervention").

(** A supervisor asks under the seat derived from its own principal; anyone
    else needs the capability to ask. *)
Definition require_may_ask (c : RequestIntervention) : outcome unit :=
  match cmd_request_supervisor c with
  | Some supervisor =>
      derived ← requesting_role supervisor;
      ensure (cmd_request_role_id c == derived)
        (InvariantViolated "supervisor intervention must be asked under its derived role")
  | None => require_role i d (cmd_request_role_id c) ActRequestIntervention
  end.

Definition decide_request_intervention (c : RequestIntervention) : outcome (list CeremonyEvent) :=
  target_validate (cmd_request_target c);;
  require_active i d "terminal ceremony instances cannot accept interventions";;
  require_may_ask c;;
  require_intervention_target d (cmd_request_target c);;
  match cmd_request_provenance c with
  | Some provenance =>
      require_intervention_provenance i d (cmd_request_role_id c) (cmd_request_target c) provenance
  | None => Ok tt
  end;;
  ensure (negb (is_some (intervention i (cmd_request_intervention_id c))))
    (AlreadyExists "ceremony_intervention");;
  let opened := open_with_provenance (cmd_request_intervention_id c) (cmd_request_kind c)
                  (cmd_request_role_id c) (cmd_request_target c) (cmd_request_content c)
                  (cmd_request_provenance c) (cmd_request_now c) in
  Ok [EvInterventionRequested
        (opened <| iv_intent := cmd_request_intent c |>
                <| iv_delivery := cmd_request_delivery c |>
                <| iv_supervisor := cmd_request_supervisor c |>)].

Definition require_answering_executor (x : CeremonyIntervention) (role : RoleId)
    (executor : DeliveryRecipient) : outcome unit :=
  ensure (dr_role_id executor == role)
    (InvariantViolated "answering executor does not hold the responding role");;
  ensure (target_admits_recipient (iv_target x) executor)
    (InvariantViolated "answering executor is not the one this intervention was put to").

Definition decide_respond_to_intervention (c : RespondToIntervention)
    : outcome (list CeremonyEvent) :=
  let role := cmd_respond_role_id c in
  require_active i d "terminal ceremony instances cannot receive intervention responses";;
  require_role i d role ActRespondToIntervention;;
  x ← require_open_intervention (cmd_respond_intervention_id c);
  ensure_can_respond x role;;
  let plain := response_new role (cmd_respond_content c) (cmd_respond_now c) in
  response ←
    match cmd_respond_executor c with
    | None => Ok plain
    | Some executor =>
        require_answering_executor x role executor;;
        delivery_id ← ok_or (cmd_respond_delivery_id c)
          (InvariantViolated "an answer naming its executor must name the delivery it answers");
        Ok (response_answering_delivery plain executor delivery_id)
    end;
  Ok [EvInterventionResponded (cmd_respond_intervention_id c) response].

Definition decide_respond_to_intervention_with_evidence (id : string) (role : RoleId)
    (pack : CeremonyEvidencePack) (now : Instant) : outcome (list CeremonyEvent) :=
  require_active i d "terminal ceremony instances cannot receive intervention evidence";;
  require_role i d role ActRespondToIntervention;;
  x ← require_open_intervention id;
  ensure_can_respond x role;;
  response ← response_from_evidence role pack now;
  Ok [EvEvidenceCollected (MkEvidenceCollected id (ev_source_id pack) role pack now);
      EvInterventionResponded id response].

Definition decide_close_intervention (id : string) (role : RoleId) (now : Instant)
    : outcome (list CeremonyEvent) :=
  require_active i d "terminal ceremony instances cannot close interventions";;
  require_role i d role ActRequestIntervention;;
  x ← require_open_intervention id;
  close x role now;;
  Ok [EvInterventionClosed id role now].

Definition decide_acknowledge_intervention_delivery (id : string) (ack : InterventionDeliveryAck)
    : outcome (list CeremonyEvent) :=
  require_active i d "terminal ceremony instances cannot record intervention deliveries";;
  x ← require_open_intervention id;
  ensure (target_admits_recipient (iv_target x) (ack_recipient ack))
    (InvariantViolated "ceremony intervention was not delivered to this recipient");;
  match delivery_ack x (ack_delivery_id ack) with
  | Some existing =>
      if ack_agrees_with existing ack then Ok []
      else Err (Conflict "ceremony_intervention.delivery_acknowledgement")
  | None => Ok [EvInterventionDeliveryAcknowledged id ack]
  end.

(** ** Reasons *)

(** Who produced a record, where anyone did. *)
Definition author_of (r : CeremonyRecordRef) : option RoleId :=
  match r with
  | RefStep _ => None
  | RefAgendaItem item => iv_requested_by <$> intervention i item
  | RefContribution item ordinal =>
      intervention i item ≫= λ x, resp_role_id <$> iv_responses x !! Z.to_nat ordinal
  | RefGuardDecision name =>
      match List.find (λ a, appr_guard_name a == name) (guard_approvals i) with
      | Some a => Some (appr_approved_by a)
      | None => dfr_deferred_by <$> List.find (λ x, dfr_guard_name x == name) (guard_deferrals i)
      end
  | RefTransition ordinal =>
      transitions i !! Z.to_nat (Z.max 0 (ordinal - 1)) ≫= trec_applied_by
  end.

(** Whether the session really produced the record. *)
Definition record_exists (r : CeremonyRecordRef) : bool :=
  match r with
  | RefStep id => is_some (step_records i !! id)
  | RefAgendaItem item => is_some (intervention i item)
  | RefContribution item ordinal =>
      is_some_and (intervention i item) (λ x, ordinal <? Z.of_nat (length (iv_responses x)))
  | RefGuardDecision name =>
      any (λ a, appr_guard_name a == name) (guard_approvals i) ||
      any (λ x, dfr_guard_name x == name) (guard_deferrals i)
  | RefTransition ordinal => (1 <=? ordinal) && (ordinal <=? Z.of_nat (length (transitions i)))
  end.

Definition require_record (r : CeremonyRecordRef) : outcome unit :=
  ensure (record_exists r) (NotFound "ceremony_record").

Definition decide_assert_reason (reason : CeremonyReason) : outcome (list CeremonyEvent) :=
  role ← ok_or (reason_asserted_by reason)
    (InvariantViolated "a reason is asserted by a seat; the engine records its own unasked");
  require_declared_role i d role;;
  require_record (reason_from reason);;
  require_record (reason_to reason);;
  match asserter (reason_kind reason) with
  | TheEngine =>
      Err (InvariantViolated
        "this kind of reason states the shape of the session, not a judgement, and only the engine may assert it")
  | ItsAuthor =>
      ensure (author_of (reason_from reason) == Some role)
        (InvariantViolated
          "only whoever produced something may say why they decided it or how they did it")
  | AnySeat => Ok tt
  end;;
  Ok [EvReasonAsserted reason].
End table.
