(* ===== verification/DecideLineage.v ===== *)
(** * Deciding on children and successors

    made-core/src/entities/ceremony_instance/decisions/children.rs and
    succession.rs: the sealed plan of the child ceremonies a step spawns, its
    adoption by a later claim, the completions accepted from the children, and
    the handoff of a paused session to a successor. *)

From S2P Require Import Prelude Errors Text Values Steps Definitions Interventions Instance.
From S2P Require Import Fold Rules.

Section lineage.
Context `{Sha256}.
Context (i : CeremonyInstance) (d : CeremonyDefinition).

(** ** Children *)

(** One planned child against the specification it was planned from. *)
Definition require_planned_child (plan : ChildSpawnPlan)
    (expected_root : CeremonyId) (expected_depth expected_remaining : Z)
    (pair_ : PlannedChild * CeremonyChildSpec) : outcome unit :=
  let child := pair_.1 in
  let spec := pair_.2 in
  let l := pc_lineage child in
  ensure ((pc_ceremony child == spec_ceremony spec) && (pc_version child == spec_version spec))
    (InvariantViolated "planned child binding differs from the ceremony definition");;
  ensure ((lin_parent_id l == instance_id i) && (lin_group_id l == plan_group_id plan) &&
          (lin_position l =? pc_position child) && (lin_root_id l == expected_root) &&
          (lin_depth l =? expected_depth) && (lin_remaining_depth l =? expected_remaining))
    (InvariantViolated "planned child lineage does not match its parent plan").

Definition decide_new_child_plan (plan : ChildSpawnPlan) (now : Instant)
    : outcome (list CeremonyEvent) :=
  let c := plan_coordinates plan in
  require_admits_new_work i "plan_children";;
  ensure ((coord_state_visit c =? current_state_visit i) &&
          (coord_state_iteration c =? current_state_iteration i))
    (InvariantViolated "child spawn plan coordinates are not current");;
  step ← ok_or (def_step d (coord_step_id c)) (NotFound "ceremony_child_spawn.step");
  ensure (step_state_id step == current_state i)
    (InvariantViolated "child-spawning step does not belong to the current state");;
  spawn ← ok_or (step_spawn step)
            (InvariantViolated "child spawn plan requires a child-spawning step");
  record ← ok_or (step_records i !! coord_step_id c)
             (NotFound "ceremony_child_spawn.step_record");
  ensure ((rec_state_visit record =? coord_state_visit c) &&
          (rec_state_iteration record =? coord_state_iteration c) &&
          (rec_iteration record =? coord_step_iteration c))
    (InvariantViolated "child spawn plan step iteration is not current");;
  ensure (plan_group_id plan == child_group_derive (instance_id i) c)
    (InvariantViolated "child spawn group identity does not match parent and coordinates");;
  ensure ((length (spawn_children spawn) =? length (plan_children plan))%nat &&
          (spawn_max_children spawn =? plan_max_children plan) &&
          (spawn_max_depth spawn =? plan_max_depth plan))
    (InvariantViolated "child spawn plan differs from the ceremony definition");;
  let inherited_budget :=
    match lineage i with Some l => lin_remaining_depth l | None => MaxChildDepth_SERVER_MAX end in
  expected_remaining ← ChildDepthBudget_for_child inherited_budget (spawn_max_depth spawn);
  expected_depth ← match lineage i with
                   | Some l => ChildDepth_next (lin_depth l)
                   | None => Ok ChildDepth_FIRST
                   end;
  let expected_root := match lineage i with Some l => lin_root_id l | None => instance_id i end in
  try_for_each (require_planned_child plan expected_root expected_depth expected_remaining)
    (zip (plan_children plan) (spawn_children spawn));;
  require_step_claim_fence i (coord_step_id c) (plan_active_claim_fence plan);;
  Ok [EvChildSpawnPlanned plan now].

Definition decide_plan_children (plan : ChildSpawnPlan) (now : Instant)
    : outcome (list CeremonyEvent) :=
  require_definition i d;;
  match child_groups i !! plan_group_id plan with
  | Some existing =>
      if cg_plan existing == plan then Ok [] else Err (AlreadyExists "child_spawn_group")
  | None => decide_new_child_plan plan now
  end.

Definition decide_adopt_child_plan (group_id : string) (fence : StepClaimFence) (now : Instant)
    : outcome (list CeremonyEvent) :=
  require_definition i d;;
  group ← ok_or (child_groups i !! group_id) (NotFound "child_spawn_group");
  if cg_adopted_claim_fence group == fence then Ok [] else
  let c := plan_coordinates (cg_plan group) in
  record ← ok_or (step_records i !! coord_step_id c)
             (NotFound "ceremony_child_spawn.step_record");
  ensure ((coord_state_visit c =? current_state_visit i) &&
          (coord_state_iteration c =? current_state_iteration i) &&
          (coord_state_visit c =? rec_state_visit record) &&
          (coord_state_iteration c =? rec_state_iteration record) &&
          (coord_step_iteration c =? rec_iteration record))
    (InvariantViolated "cannot adopt a child spawn plan from another visit or iteration");;
  require_step_claim_fence i (coord_step_id c) fence;;
  Ok [EvChildSpawnPlanAdopted group_id fence now].

Definition decide_accept_child_completion (completion : ChildCompletionRef) (now : Instant)
    : outcome (list CeremonyEvent) :=
  require_definition i d;;
  group ← ok_or (child_groups i !! cc_group_id completion) (NotFound "child_spawn_group");
  ensure (any (λ child, pc_child_id child == cc_child_id completion)
            (plan_children (cg_plan group)))
    (InvariantViolated "child completion does not belong to the sealed spawn plan");;
  match cg_completions group !! cc_child_id completion with
  | Some existing =>
      if existing == completion then Ok []
      else Err (InvariantViolated "child ceremony already has a different accepted terminal")
  | None => Ok [EvChildCompletionAccepted completion now]
  end.

(** ** Succession *)

Inductive CeremonyClaimPhase :=
| ClaimLive | ClaimExpired | ClaimRetired | ClaimCompleted | ClaimFailed.

Definition is_outstanding (p : CeremonyClaimPhase) : bool :=
  match p with ClaimLive | ClaimExpired => true | _ => false end.

Definition claim_phase (record : StepExecutionRecord) (now : Instant)
    : option CeremonyClaimPhase :=
  match rec_status record with
  | InProgress =>
      if record_has_live_lease_at record now then Some ClaimLive else Some ClaimExpired
  | Completed => Some ClaimCompleted
  | Failed => Some ClaimFailed
  | _ => None
  end.

Definition has_outstanding_claim (now : Instant) (record : StepExecutionRecord) : bool :=
  is_some_and (claim_phase record now) is_outstanding.

Definition quoted (s : string) : string := "`" +:+ s +:+ "`".

Definition require_disposed (plan : SuccessionPlan) (now : Instant)
    (entry : StepId * StepExecutionRecord) : outcome unit :=
  if negb (has_outstanding_claim now entry.2) then Ok tt else
  disposition ← ok_or (disposition_for plan entry.1)
    (InvalidDocument ("step " +:+ quoted entry.1 +:+
                      " holds an outstanding claim with no disposition"));
  require_step_claim_fence i entry.1 (disp_claim_fence disposition).

Definition require_disposition_is_outstanding (now : Instant) (disposition : ClaimDisposition)
    : outcome unit :=
  ensure (is_some_and (step_records i !! disp_step_id disposition) (has_outstanding_claim now))
    (InvalidDocument ("step " +:+ quoted (disp_step_id disposition) +:+
                      " holds no outstanding claim to dispose of")).

Definition require_every_outstanding_claim_is_disposed (plan : SuccessionPlan) (now : Instant)
    : outcome unit :=
  try_for_each (require_disposed plan now) (btree_entries (step_records i));;
  try_for_each (require_disposition_is_outstanding now) (sp_dispositions plan).

Definition require_successor_declares (successor : PublishedCeremonyDefinition) (id : StepId)
    : outcome unit :=
  ensure (is_some (def_step (pub_definition successor) id))
    (InvalidDocument ("the successor's definition declares no step " +:+ quoted id)).

Definition require_step_carries (diff : list CeremonyDefinitionChange) (id : StepId)
    : outcome unit :=
  ensure (negb (any (λ change, (chg_locus change == LocusStep id) &&
                               (chg_impact change == Strands)) diff))
    (InvalidDocument ("step " +:+ quoted id +:+
       " is stranded by the successor's definition and cannot carry evidence")).

Definition require_carried_evidence_is_sound (c : PlanSuccessor) (evidence : CarriedEvidence)
    : outcome unit :=
  let source := carried_source evidence in
  let landing := carried_successor_step_id evidence in
  let from := src_step_id source in
  ensure (src_ceremony_id source == instance_id i)
    (InvalidDocument ("carried evidence for step " +:+ quoted landing +:+
                      " names another ceremony as its source"));;
  record ← ok_or (step_records i !! from)
    (InvalidDocument ("carried evidence names step " +:+ quoted from +:+
                      ", which this ceremony has no record of"));
  ensure (rec_status record == Completed)
    (InvalidDocument ("carried evidence names step " +:+ quoted from +:+
                      ", which this ceremony did not complete"));;
  ensure ((rec_state_visit record =? src_state_visit source) &&
          (rec_attempt record =? src_attempt source))
    (InvalidDocument ("carried evidence for step " +:+ quoted from +:+
                      " names a visit or attempt this ceremony did not seal"));;
  ensure (rec_output record == carried_output evidence)
    (InvalidDocument ("carried evidence for step " +:+ quoted from +:+
                      " differs from the output this ceremony sealed"));;
  require_successor_declares (cmd_succ_successor c) landing;;
  require_step_carries (cmd_succ_diff c) landing.

Definition require_pinned_successor (plan : SuccessionPlan)
    (successor : PublishedCeremonyDefinition) : outcome unit :=
  let pin := sp_successor_definition plan in
  ensure ((pin_name pin == def_name (pub_definition successor)) &&
          (pin_version pin == def_version (pub_definition successor)) &&
          (pin_digest pin == pub_digest successor))
    (InvariantViolated "the sealed successor publication is not the one this plan pinned").

Definition require_derived_successor_id (plan : SuccessionPlan) : outcome unit :=
  derived ← successor_derive (instance_id i) (sp_plan_id plan);
  ensure (derived == sp_successor_id plan)
    (InvariantViolated "successor id is not the one this plan derives").

Definition decide_plan_successor (c : PlanSuccessor) : outcome (list CeremonyEvent) :=
  let plan := cmd_succ_plan c in
  require_definition i d;;
  match successor_plan i with
  | Some existing =>
      if existing == plan then Ok [] else Err (Conflict "successor_already_planned")
  | None =>
      ensure (lc_phase (lifecycle_field i) == Paused)
        (LifecycleRefused "plan_successor" (lc_phase (lifecycle_field i)));;
      ensure (sp_budget plan != TransferRemaining)
        (InvariantViolated "budget transfer is not supported in this release");;
      require_pinned_successor plan (cmd_succ_successor c);;
      require_derived_successor_id plan;;
      require_every_outstanding_claim_is_disposed plan (cmd_succ_now c);;
      try_for_each (require_carried_evidence_is_sound c) (sp_carried plan);;
      Ok [EvSuccessorPlanned plan]
  end.
End lineage.
