(* ===== verification/Engine.v ===== *)
(** * The aggregate: decide, apply, and the sessions they reach

    [decide] of made-core/src/entities/ceremony_instance/decisions/mod.rs and
    the mutators of the aggregate, each of which decides one command and folds
    its events.  [session] is the transition system they generate. *)

From S2P Require Import Prelude Errors Text Values Steps Definitions Interventions Instance.
From S2P Require Import Fold Rules Decide DecideTable DecideLineage.

Section engine.
Context `{Sha256} `{Clock} `{EvidenceSerde}.

Definition decide (i : CeremonyInstance) (command : CeremonyCommand) (d : CeremonyDefinition)
    : outcome (list CeremonyEvent) :=
  match command with
  | CmdRecordHostHandoff declaration now => decide_record_host_handoff i d declaration now
  | CmdBindParticipant role specialty now => decide_bind_participant i d role specialty now
  | CmdStartStep c => decide_start_step i d c
  | CmdRenewStepLease c => decide_renew_step_lease i d c
  | CmdApplyStepResult c => decide_apply_step_result i d c
  | CmdApplyExecutionReceiptResult c => decide_apply_execution_receipt_result i d c
  | CmdApplyTransition c => decide_apply_transition i d c
  | CmdApproveGuard c => decide_approve_guard i d c
  | CmdDeferGuard c => decide_defer_guard i d c
  | CmdRequestIntervention c => decide_request_intervention i d c
  | CmdRespondToIntervention c => decide_respond_to_intervention i d c
  | CmdRespondToInterventionWithEvidence id role pack now =>
      decide_respond_to_intervention_with_evidence i d id role pack now
  | CmdAcknowledgeInterventionDelivery id ack _ =>
      decide_acknowledge_intervention_delivery i d id ack
  | CmdAssertReason reason => decide_assert_reason i d reason
  | CmdCloseIntervention id role now => decide_close_intervention i d id role now
  | CmdPlanCeremonyChildren plan now => decide_plan_children i d plan now
  | CmdPlanSuccessor c => decide_plan_successor i d c
  | CmdAdoptChildSpawnPlan group_id fence now => decide_adopt_child_plan i d group_id fence now
  | CmdAcceptChildCompletion completion now => decide_accept_child_completion i d completion now
  | CmdPauseCeremony reason now => decide_pause i d reason now
  | CmdResumeCeremony now => decide_resume i d now
  | CmdCancelCeremony reason now => decide_cancel i d reason now
  | CmdEnforceCeremonyDeadlines now => decide_enforce_deadlines i d now
  end.

(** What every mutator does: decide the command, fold its events. *)
Definition execute (i : CeremonyInstance) (command : CeremonyCommand) (d : CeremonyDefinition)
    : outcome CeremonyInstance :=
  events ← decide i command d;
  apply_all i events.

(** The first event of a kind among those a command decided ([find_map]). *)
Fixpoint find_map {A B} (f : A → option B) (l : list A) : option B :=
  match l with
  | [] => None
  | x :: l => match f x with Some b => Some b | None => find_map f l end
  end.

Definition started_attempt (e : CeremonyEvent) : option Z :=
  match e with EvStepStarted started => Some (ss_attempt started) | _ => None end.

Definition moved_to (e : CeremonyEvent) : option StateId :=
  match e with EvTransitionApplied applied => Some (trec_to_state (ta_transition applied)) | _ => None end.

(** [start_step_with], [start_step_as] and [start_step]: the session after the
    claim and the attempt it was given. *)
Definition start_step_with (i : CeremonyInstance) (d : CeremonyDefinition)
    (role : option RoleId) (id : StepId) (lease : StepLease) (now : Instant) (ceiling : Z)
    : outcome (CeremonyInstance * Z) :=
  events ← decide i (CmdStartStep (MkStartStep role id lease now ceiling None)) d;
  attempt ← ok_or (find_map started_attempt events)
              (InvariantViolated "starting a step decides a step start");
  i ← apply_all i events;
  Ok (i, attempt).

Definition start_step_as (i : CeremonyInstance) (d : CeremonyDefinition) (role : RoleId)
    (id : StepId) (lease : StepLease) (now : Instant) : outcome (CeremonyInstance * Z) :=
  start_step_with i d (Some role) id lease now MaxParallel_SERVER_MAX.

Definition start_step (i : CeremonyInstance) (d : CeremonyDefinition)
    (id : StepId) (lease : StepLease) (now : Instant) : outcome (CeremonyInstance * Z) :=
  start_step_with i d None id lease now MaxParallel_SERVER_MAX.

Definition apply_step_result (i : CeremonyInstance) (d : CeremonyDefinition) (id : StepId)
    (fence : StepClaimFence) (result : StepResult) (now : Instant) : outcome CeremonyInstance :=
  execute i (CmdApplyStepResult (MkApplyStepResult id fence result now)) d.

(** [move_on], [apply_transition_as] and [apply_transition]. *)
Definition move_on (i : CeremonyInstance) (d : CeremonyDefinition) (trigger : string)
    (applied_by : option RoleId) (now : Instant) : outcome (CeremonyInstance * StateId) :=
  events ← decide i (CmdApplyTransition (MkApplyTransition applied_by trigger now)) d;
  to_state ← ok_or (find_map moved_to events)
               (InvariantViolated "moving decides a transition");
  i ← apply_all i events;
  Ok (i, to_state).

Definition apply_transition_as (i : CeremonyInstance) (d : CeremonyDefinition) (role : RoleId)
    (trigger : string) (now : Instant) : outcome (CeremonyInstance * StateId) :=
  move_on i d trigger (Some role) now.

Definition apply_transition (i : CeremonyInstance) (d : CeremonyDefinition)
    (trigger : string) (now : Instant) : outcome (CeremonyInstance * StateId) :=
  move_on i d trigger None now.

Definition approve_guard (i : CeremonyInstance) (d : CeremonyDefinition) (name : GuardName)
    (by_ : RoleId) (kind : AuditActorKind) (now : Instant) : outcome CeremonyInstance :=
  execute i (CmdApproveGuard (MkApproveGuard name by_ kind now)) d.

Definition defer_guard (i : CeremonyInstance) (d : CeremonyDefinition) (name : GuardName)
    (content : CeremonyGuardDeferralContent) (by_ : RoleId) (kind : AuditActorKind)
    (now : Instant) : outcome CeremonyInstance :=
  execute i (CmdDeferGuard (MkDeferGuard name content by_ kind now)) d.

Definition bind_participant (i : CeremonyInstance) (d : CeremonyDefinition) (role : RoleId)
    (specialty : string) (now : Instant) : outcome CeremonyInstance :=
  execute i (CmdBindParticipant role specialty now) d.

Definition request_intervention_with_provenance_as (i : CeremonyInstance)
    (d : CeremonyDefinition) (id : string) (role : RoleId) (kind : CeremonyInterventionKind)
    (target : CeremonyInterventionTarget) (content : CeremonyInterventionContent)
    (provenance : option CeremonyInterventionProvenance) (now : Instant)
    : outcome CeremonyInstance :=
  execute i (CmdRequestIntervention
    (MkRequestIntervention id role kind target content provenance None None None now)) d.

Definition respond_to_intervention_as (i : CeremonyInstance) (d : CeremonyDefinition)
    (id : string) (role : RoleId) (content : CeremonyInterventionContent) (now : Instant)
    : outcome CeremonyInstance :=
  execute i (CmdRespondToIntervention (MkRespondToIntervention id role content None None now)) d.

Definition respond_to_intervention_with_evidence_as (i : CeremonyInstance)
    (d : CeremonyDefinition) (id : string) (role : RoleId) (pack : CeremonyEvidencePack)
    (now : Instant) : outcome CeremonyInstance :=
  execute i (CmdRespondToInterventionWithEvidence id role pack now) d.

Definition close_intervention_as (i : CeremonyInstance) (d : CeremonyDefinition)
    (id : string) (role : RoleId) (now : Instant) : outcome CeremonyInstance :=
  execute i (CmdCloseIntervention id role now) d.

(** [assert_reason_as]: the reason is built, and may be refused, first. *)
Definition assert_reason_as (i : CeremonyInstance) (d : CeremonyDefinition) (role : RoleId)
    (from to : CeremonyRecordRef) (kind : CeremonyReasonKind) (why : string)
    (confidence : MemoryConfidence) (now : Instant) : outcome CeremonyInstance :=
  reason ← CeremonyReason_new from to kind why confidence (Some role) now;
  execute i (CmdAssertReason reason) d.

Fixpoint execute_all (i : CeremonyInstance) (commands : list CeremonyCommand)
    (d : CeremonyDefinition) : outcome CeremonyInstance :=
  match commands with
  | [] => Ok i
  | c :: commands => i ← execute i c d; execute_all i commands d
  end.

(** The values a command can carry: its result was built by a constructor. *)
Definition command_valid (c : CeremonyCommand) : bool :=
  match c with
  | CmdApplyStepResult c => StepResult_valid (cmd_result_result c)
  | CmdApplyExecutionReceiptResult c => StepResult_valid (cmd_receipt_result c)
  | _ => true
  end.

(** ** Sessions

    [session d es i]: the stream [es] was produced by opening a session on
    [d] and deciding commands one after the other, and [i] is the state the
    aggregate holds after folding each decision. *)

Inductive session (d : CeremonyDefinition) : list CeremonyEvent → CeremonyInstance → Prop :=
| session_started id context bound lineage account recollection now started i :
    opening id d context now bound lineage account = Ok started →
    apply_all (from_started started) (tail (opening_batch started recollection now)) = Ok i →
    session d (opening_batch started recollection now) i
| session_succeeds id published context succession plan now es started i :
    d = pub_definition published →
    decide_start_successor id published context succession plan now = Ok es →
    head es = Some (EvCeremonyInstanceStarted started) →
    apply_all (from_started started) (tail es) = Ok i →
    session d es i
| session_decides es i command es' i' :
    session d es i →
    command_valid command = true →
    decide i command d = Ok es' →
    apply_all i es' = Ok i' →
    session d (es ++ es') i'.
End engine.
