(* ===== verification/EventStore.v ===== *)
(** * The event store

    made-core/src/ports/ceremony_event_store.rs ([seal_continuation]),
    append_outcome.rs and positioned_record.rs, the positions of
    value_objects/audit, and the store in memory of
    made-adapters/src/memory/ceremony_event_store.rs: one stream of sealed
    records per ceremony, the global order of all records, and snapshots.

    An operation that holds the write lock takes the state and returns it next
    to its outcome; one that holds the read lock takes the state only. *)

From S2P Require Import Prelude Errors Text Values Steps Definitions Interventions Instance.
From S2P Require Import Authorization AuditLog.

(** ** Versions, positions and page sizes *)

(** [StreamVersion]: a [u64]. *)
Definition StreamVersion_EMPTY : Z := 0.
Definition StreamVersion_from_sequence (sequence : Z) : Z := sequence.
Definition StreamVersion_next (v : Z) : Z := Z.min u64_max (v + 1).
Definition StreamVersion_is_empty (v : Z) : bool := v =? StreamVersion_EMPTY.

(** [GlobalPosition]: a [u64] that is never zero. *)
Definition GlobalPosition_FIRST : Z := 1.
Definition GlobalPosition_new (value : Z) : outcome Z :=
  ensure (negb (value =? 0)) (MustBeNonZero "global_position");; Ok value.
Definition GlobalPosition_next (p : Z) : Z := Z.min u64_max (p + 1).

Definition CeremonyEventPageLimit_DEFAULT : Z := 200.
Definition CeremonyEventPageLimit_MAX : Z := 1000.
Definition CeremonyEventPageLimit_new (value : Z) : outcome Z :=
  ensure (negb ((value =? 0) || (CeremonyEventPageLimit_MAX <? value)))
    (OutOfRange "ceremony_event_page_limit" value 1 CeremonyEventPageLimit_MAX);;
  Ok value.

(** ** What an append did *)

Record PositionedRecord := MkPositionedRecord { pr_position : Z; pr_record : AuditRecord }.

Inductive AppendOutcome :=
| Appended (version : Z) (records : list AuditRecord) (first_position : Z)
| AppendConflict (expected actual : Z).

Definition is_conflict (o : AppendOutcome) : bool :=
  match o with AppendConflict _ _ => true | _ => false end.
Definition outcome_records (o : AppendOutcome) : list AuditRecord :=
  match o with Appended _ records _ => records | _ => [] end.
Definition appended_version (o : AppendOutcome) : option Z :=
  match o with Appended version _ _ => Some version | _ => None end.

(** The records from a position on, each with its place. *)
Fixpoint position_from (position : Z) (records : list AuditRecord) : list PositionedRecord :=
  match records with
  | [] => []
  | record :: records =>
      MkPositionedRecord position record :: position_from (GlobalPosition_next position) records
  end.

Definition positioned (o : AppendOutcome) : list PositionedRecord :=
  match o with
  | Appended _ records first_position => position_from first_position records
  | AppendConflict _ _ => []
  end.

(** ** Sealing a batch *)

(** The loop that refuses an event id seen before. *)
Fixpoint repeats_an_id (seen : gset string) (facts : list AuditFact) : bool :=
  match facts with
  | [] => false
  | fact :: facts =>
      if bool_decide (fact_event_id fact ∈ seen) then true
      else repeats_an_id ({[fact_event_id fact]} ∪ seen) facts
  end.

Section sealing.
Context {Haud : AuditSerde}.

(** The loop that seals each fact against the record before it. *)
Fixpoint seal_facts (head : option AuditRecord) (facts : list AuditFact)
    (authorization : option AuthorizationEvidence) : outcome (list AuditRecord) :=
  match facts with
  | [] => Ok []
  | fact :: facts =>
      record ← match head, authorization with
               | Some previous, Some evidence =>
                   record_following_authorized (fact_authorized fact evidence) previous
               | None, Some evidence => record_first_authorized (fact_authorized fact evidence)
               | Some previous, None => record_following fact previous
               | None, None => record_first fact
               end;
      sealed ← seal_facts (Some record) facts authorization;
      Ok (record :: sealed)
  end.

Definition seal_continuation (stream : CeremonyId) (existing : list AuditRecord)
    (facts : list AuditFact) (authorization : option AuthorizationEvidence)
    : outcome (list AuditRecord) :=
  ensure (negb (Nat.eqb (length facts) 0)) (EmptyCollection "event_store_facts");;
  ensure (negb (any (λ fact, fact_ceremony_id fact != stream) facts)) (InvariantViolated
    "an event store append only takes facts of the stream it targets");;
  ensure (negb (repeats_an_id (list_to_set (List.map ar_event_id existing)) facts))
    (AlreadyExists "ceremony_event");;
  seal_facts (last existing) facts authorization.
End sealing.

(** ** The store in memory *)

Record EventStoreState := MkEventStoreState {
  es_streams : gmap string (list AuditRecord);
  es_log : list (Z * CeremonyId * Z);
  es_snapshots : gmap string (gmap Z CeremonyInstance);
}.

#[export] Instance EventStoreState_eta : Eta EventStoreState := λ s,
  MkEventStoreState (es_streams s) (es_log s) (es_snapshots s).

Record CeremonySnapshot := MkCeremonySnapshot {
  snapshot_version : Z;
  snapshot_instance : CeremonyInstance;
}.

(** [InMemoryCeremonyEventStore::new]. *)
Definition EventStoreState_default : EventStoreState := MkEventStoreState ∅ [] ∅.

Definition store_stream (s : EventStoreState) (stream : CeremonyId) : list AuditRecord :=
  default [] (es_streams s !! stream).

Definition next_position (s : EventStoreState) : Z :=
  match last (es_log s) with
  | None => GlobalPosition_FIRST
  | Some (position, _, _) => GlobalPosition_next position
  end.

Definition record_at (s : EventStoreState) (entry : Z * CeremonyId * Z) : outcome PositionedRecord :=
  let '(position, stream, sequence) := entry in
  record ← ok_or (store_stream s stream !! Z.to_nat (Z.max 0 (sequence - 1))) (InvariantViolated
    "in-memory event store: the global log points at a missing record");
  Ok (MkPositionedRecord position record).

Definition version_of (records : list AuditRecord) : Z :=
  match last records with
  | None => StreamVersion_EMPTY
  | Some record => StreamVersion_from_sequence (ar_sequence record)
  end.

(** The entries an append adds to the global log. *)
Fixpoint log_entries (stream : CeremonyId) (position : Z) (sealed : list AuditRecord)
    : list (Z * CeremonyId * Z) :=
  match sealed with
  | [] => []
  | record :: sealed =>
      (position, stream, ar_sequence record)
        :: log_entries stream (GlobalPosition_next position) sealed
  end.

Section store.
Context {Haud : AuditSerde}.

Definition append_with_authorization (s : EventStoreState) (stream : CeremonyId) (expected : Z)
    (facts : list AuditFact) (authorization : option AuthorizationEvidence)
    : outcome AppendOutcome * EventStoreState :=
  let existing := store_stream s stream in
  let actual := version_of existing in
  if actual != expected then (Ok (AppendConflict expected actual), s) else
  match seal_continuation stream existing facts authorization with
  | Err e => (Err e, s)
  | Panic => (Panic, s)
  | Ok sealed =>
      let first_position := next_position s in
      let records := existing ++ sealed in
      (Ok (Appended (version_of records) sealed first_position),
       s <| es_log := es_log s ++ log_entries stream first_position sealed |>
         <| es_streams := <[stream := records]> (es_streams s) |>)
  end.

Definition store_append (s : EventStoreState) (stream : CeremonyId) (expected : Z)
    (facts : list AuditFact) : outcome AppendOutcome * EventStoreState :=
  append_with_authorization s stream expected facts None.

Definition store_append_authorized (s : EventStoreState) (stream : CeremonyId) (expected : Z)
    (facts : list AuditFact) (authorization : AuthorizationEvidence)
    : outcome AppendOutcome * EventStoreState :=
  append_with_authorization s stream expected facts (Some authorization).
End store.

Definition store_read (s : EventStoreState) (stream : CeremonyId) (after limit : Z)
    : outcome (list AuditRecord) :=
  Ok (take (Z.to_nat limit) (drop (Z.to_nat after) (store_stream s stream))).

Definition store_read_all (s : EventStoreState) (from limit : Z) : outcome (list PositionedRecord) :=
  let skipped := Z.to_nat (Z.max 0 (from - 1)) in
  try_map (record_at s) (take (Z.to_nat limit) (drop skipped (es_log s))).

Definition store_head (s : EventStoreState) (stream : CeremonyId) : outcome Z :=
  Ok (version_of (store_stream s stream)).

Definition store_streams (s : EventStoreState) : outcome (list CeremonyId) :=
  Ok (btree_keys (es_streams s)).

Definition store_save (s : EventStoreState) (snapshot : CeremonySnapshot)
    : outcome unit * EventStoreState :=
  let id := instance_id (snapshot_instance snapshot) in
  let versions := default ∅ (es_snapshots s !! id) in
  (Ok tt, s <| es_snapshots :=
     <[id := <[snapshot_version snapshot := snapshot_instance snapshot]> versions]> (es_snapshots s) |>).

(** [BTreeMap::last_key_value]. *)
Definition last_key_value {A} (m : gmap Z A) : option (Z * A) :=
  foldr (λ entry last,
           match last with
           | Some other => if other.1 <? entry.1 then Some entry else Some other
           | None => Some entry
           end) None (map_to_list m).

Definition store_latest (s : EventStoreState) (stream : CeremonyId)
    : outcome (option CeremonySnapshot) :=
  Ok (versions ← es_snapshots s !! stream;
      '(version, instance) ← last_key_value versions;
      Some (MkCeremonySnapshot version instance)).

Definition store_forget (s : EventStoreState) (stream : CeremonyId) : outcome unit * EventStoreState :=
  (Ok tt, s <| es_snapshots := delete stream (es_snapshots s) |>).
