(* ===== verification/SessionStream.v ===== *)
(** * Sessions as streams

    made-app/src/services: session_facts.rs with its directory (which fact an
    event becomes and the identifier derived for it), loaded_session.rs,
    conflict_policy.rs, retry_attempts.rs, session_stream.rs with its directory
    (loading the fold of a stream, opening one, appending a decision with
    optimistic concurrency) and, of src/usecases, read_ceremony_events_use_case.rs
    and read_whole_ceremony_events_use_case.rs.

    The services await the store between calls, and other callers use the store
    meanwhile.  A service is therefore a program: a tree of calls of the ports,
    each answered in some state of the world.  What is local to the task that
    runs it, its authorized operation and its trace, is an argument ([TaskScope]). *)

From S2P Require Import Prelude Errors Text Values Steps Definitions Interventions Instance.
From S2P Require Import Authorization AuditLog Fold EventStore.

(** ** Programs over the ports *)

Inductive StoreOp : Type → Type :=
| OpAppend (stream : CeremonyId) (expected : Z) (facts : list AuditFact)
    (authorization : option AuthorizationEvidence) : StoreOp (outcome AppendOutcome)
| OpRead (stream : CeremonyId) (after limit : Z) : StoreOp (outcome (list AuditRecord))
| OpReadAll (from limit : Z) : StoreOp (outcome (list PositionedRecord))
| OpHead (stream : CeremonyId) : StoreOp (outcome Z)
| OpStreams : StoreOp (outcome (list CeremonyId))
| OpSave (snapshot : CeremonySnapshot) : StoreOp (outcome unit)
| OpLatest (stream : CeremonyId) : StoreOp (outcome (option CeremonySnapshot))
| OpForget (stream : CeremonyId) : StoreOp (outcome unit)
| OpObserve (records : list PositionedRecord) : StoreOp unit.

(** The stores in memory and what the subscriber was told, in order. *)
Record World := MkWorld { w_store : EventStoreState; w_observed : list PositionedRecord }.

#[export] Instance World_eta : Eta World := λ w, MkWorld (w_store w) (w_observed w).

Definition World_default : World := MkWorld EventStoreState_default [].

(** One call, atomic under the lock of the store. *)
Definition run_op {Haud : AuditSerde} {A} (op : StoreOp A) (w : World) : A * World :=
  let store := w_store w in
  match op with
  | OpAppend stream expected facts authorization =>
      let '(answer, store) := append_with_authorization store stream expected facts authorization in
      (answer, w <| w_store := store |>)
  | OpRead stream after limit => (store_read store stream after limit, w)
  | OpReadAll from limit => (store_read_all store from limit, w)
  | OpHead stream => (store_head store stream, w)
  | OpStreams => (store_streams store, w)
  | OpSave snapshot =>
      let '(answer, store) := store_save store snapshot in (answer, w <| w_store := store |>)
  | OpLatest stream => (store_latest store stream, w)
  | OpForget stream =>
      let '(answer, store) := store_forget store stream in (answer, w <| w_store := store |>)
  | OpObserve records => (tt, w <| w_observed := w_observed w ++ records |>)
  end.

Inductive prog (A : Type) : Type :=
| Ret (a : A)
| Vis {B : Type} (op : StoreOp B) (k : B → prog A).

Arguments Ret {A} a.
Arguments Vis {A B} op k.

Fixpoint prog_bind {A B} (p : prog A) (f : A → prog B) : prog B :=
  match p with
  | Ret a => f a
  | Vis op k => Vis op (λ b, prog_bind (k b) f)
  end.

(** A program that may fail. *)
Definition io (A : Type) : Type := prog (outcome A).

#[export] Instance io_ret : MRet io := λ A a, Ret (Ok a).
#[export] Instance io_bind : MBind io := λ A B f p,
  prog_bind p (λ r, match r with Ok a => f a | Err e => Ret (Err e) | Panic => Ret Panic end).

Definition lift {A} (r : outcome A) : io A := Ret r.
Definition call {A} (op : StoreOp (outcome A)) : io A := Vis op Ret.
Definition tell (records : list PositionedRecord) : io unit :=
  Vis (OpObserve records) (λ _, Ret (Ok tt)).

(** A program run with nobody else using the store. *)
Fixpoint run {Haud : AuditSerde} {A} (p : prog A) (w : World) : A * World :=
  match p with
  | Ret a => (a, w)
  | Vis op k => let '(b, w) := run_op op w in run (k b) w
  end.

(** ** Facts (session_facts.rs) *)

Definition EventId_new : string → outcome string := bounded_text_new "event_id" 256.

Definition event_id (id : CeremonyId) (t : AuditEventType) (about : string) : outcome string :=
  EventId_new (id +:+ ":" +:+ AuditEventType_as_str t +:+ ":" +:+ about).

Definition opening_event_id (id : CeremonyId) : outcome string :=
  event_id id AT_CeremonyInstanceStarted "session".

Definition seat (role : RoleId) (kind : AuditActorKind) : outcome AuditActor :=
  AuditActor_new role kind (Some role).

Definition party (id : string) (kind : AuditActorKind) : outcome AuditActor :=
  AuditActor_new id kind None.

Fixpoint find_seat (role : CeremonyEvent → option RoleId) (events : list CeremonyEvent)
    : option RoleId :=
  match events with
  | [] => None
  | e :: events => match role e with Some r => Some r | None => find_seat role events end
  end.

Definition step_result_seat (events : list CeremonyEvent) (kind : AuditActorKind)
    : outcome AuditActor :=
  role ← ok_or (find_seat (λ e, match e with
                                | EvStepCompleted e => Some (sc_finished_by e)
                                | EvStepFailed e => Some (sf_finished_by e)
                                | EvLateStepResultObserved result _ => Some (late_finished_by result)
                                | _ => None
                                end) events)
           (InvariantViolated "a step result decision emits a completed or failed event");
  seat role kind.

Definition step_started_seat (events : list CeremonyEvent) (kind : AuditActorKind)
    : outcome AuditActor :=
  role ← ok_or (find_seat (λ e, match e with EvStepStarted e => Some (ss_started_by e) | _ => None end)
                 events)
           (InvariantViolated "a step start decision emits a started event");
  seat role kind.

Definition visit_about (visit : option Z) : string :=
  match visit with Some visit => ":visit:" +:+ decimal visit | None => "" end.

Definition step_about (step : StepId) (visit : option Z) (state_iteration iteration attempt : Z)
    : string :=
  "step:" +:+ step +:+ visit_about visit +:+ ":state_iteration:" +:+ decimal state_iteration
    +:+ ":iteration:" +:+ decimal iteration +:+ ":attempt:" +:+ decimal attempt.

Definition step_execution_about (e : CeremonyEvent) : string :=
  match e with
  | EvStepStarted e =>
      step_about (ss_step_id e) (ss_state_visit e)
        (default StateIteration_FIRST (ss_state_iteration e)) (ss_iteration e) (ss_attempt e)
  | EvStepLeaseRenewed e =>
      match slr_request e with
      | Some request => "renewal:" +:+ renewal_id request
      | None => "step:" +:+ slr_step_id e +:+ ":claim:" +:+ slr_claim_fence e
                  +:+ ":expiry:" +:+ decimal (slr_expires_at e)
      end
  | EvStepCompleted e =>
      step_about (sc_step_id e) (sc_state_visit e)
        (default StateIteration_FIRST (sc_state_iteration e)) (sc_iteration e) (sc_attempt e)
  | EvStepFailed e =>
      step_about (sf_step_id e) (sf_state_visit e)
        (default StateIteration_FIRST (sf_state_iteration e)) (sf_iteration e) (sf_attempt e)
  | EvContextWritten e =>
      step_about (cw_step_id e) (cw_state_visit e) (cw_state_iteration e) (cw_iteration e) (cw_attempt e)
  | EvStateIterationStarted e =>
      "state:" +:+ sis_state_id e +:+ visit_about (sis_state_visit e)
        +:+ ":iteration:" +:+ decimal (sis_state_iteration e)
  | _ => ""
  end.

Definition execution_receipt_about (link : ExecutionReceiptLink) : string :=
  match link_kind link with
  | LinkDirect => "execution_receipt:" +:+ link_receipt_id link
  | LinkAdopted => "execution_receipt_adoption:" +:+ link_receipt_id link
                 +:+ ":" +:+ link_applied_claim_fence link
  end.

Definition child_about (e : CeremonyEvent) : string :=
  match e with
  | EvChildSpawnPlanned plan _ => "child_group:" +:+ plan_group_id plan
  | EvChildSpawnPlanAdopted group_id fence _ => "child_group:" +:+ group_id +:+ ":fence:" +:+ fence
  | EvChildCompletionAccepted completion _ =>
      "child_group:" +:+ cc_group_id completion +:+ ":child:" +:+ cc_child_id completion
  | _ => ""
  end.

Definition lifecycle_about (e : CeremonyEvent) : string :=
  match e with
  | EvCeremonyPaused _ at_ => "pause:" +:+ decimal at_
  | EvCeremonyResumed at_ => "resume:" +:+ decimal at_
  | EvCeremonyCancelled _ _ => "cancel"
  | EvCeremonyDeadlineExceeded _ _ => "ceremony_deadline"
  | EvStateDeadlineExceeded deadline _ =>
      "state:" +:+ std_state_id deadline +:+ ":visit:" +:+ decimal (std_state_visit deadline)
  | EvStepDeadlineExceeded deadline _ _ => "step_deadline:" +:+ sd_claim_fence deadline
  | EvLateStepResultObserved result _ => "late_step_result:" +:+ late_claim_fence result
  | _ => ""
  end.

Definition succession_about (e : CeremonyEvent) : string :=
  match e with
  | EvSuccessorPlanned plan => "succession:" +:+ sp_plan_id plan
  | EvSuccessionCarried _ _ => "succession:carried"
  | _ => ""
  end.

Section facts.
Context {Hsha : Sha256}.

Definition short_digest (value : string) : string := String.substring 0 16 (sha256_hex value).

Definition intervention_about (e : CeremonyEvent) : string :=
  match e with
  | EvInterventionRequested intervention => "intervention:" +:+ iv_id intervention
  | EvInterventionResponded id response => "intervention:" +:+ id +:+ ":" +:+ resp_role_id response
  | EvInterventionClosed id _ _ => "intervention:" +:+ id
  | EvInterventionDeliveryAcknowledged id ack =>
      "intervention:" +:+ id +:+ ":delivery:" +:+ short_digest (ack_delivery_id ack)
  | EvEvidenceCollected e =>
      "intervention:" +:+ ec_intervention_id e +:+ ":source:" +:+ ec_source_id e
  | _ => ""
  end.

(** What an event is about; the functions it delegates to are total only on the
    events delegated to them. *)
Definition about (i : CeremonyInstance) (e : CeremonyEvent) : string :=
  match e with
  | EvHostHandoffRecorded recorded => "host-handoff:" +:+ hh_id (hhr_declaration recorded)
  | EvCeremonyInstanceStarted _ | EvInstanceImported _ => "session"
  | EvMemoryRecalled _ _ => "recollection"
  | EvParticipantsBound bindings =>
      "seating:" +:+ String.concat "," (List.map (λ b, pb_role_id b +:+ "=" +:+ pb_specialty b) bindings)
  | EvStepStarted _ | EvStepLeaseRenewed _ | EvStepCompleted _ | EvStepFailed _ | EvContextWritten _
  | EvStateIterationStarted _ => step_execution_about e
  | EvTransitionApplied _ | EvCeremonyCompleted _ _ =>
      "transition:" +:+ decimal (Z.of_nat (length (transitions i)) + 1)
  | EvInterventionRequested _ | EvInterventionResponded _ _ | EvInterventionClosed _ _ _
  | EvInterventionDeliveryAcknowledged _ _ | EvEvidenceCollected _ => intervention_about e
  | EvReasonAsserted _ => "reason:" +:+ decimal (Z.of_nat (length (reasons i)) + 1)
  | EvHumanApprovalRecorded approval => "guard:" +:+ appr_guard_name approval
  | EvHumanDeferralRecorded deferral => "guard:" +:+ dfr_guard_name deferral
  | EvChildSpawnPlanned _ _ | EvChildSpawnPlanAdopted _ _ _ | EvChildCompletionAccepted _ _ =>
      child_about e
  | EvCeremonyPaused _ _ | EvCeremonyResumed _ | EvCeremonyCancelled _ _
  | EvCeremonyDeadlineExceeded _ _ | EvStateDeadlineExceeded _ _ | EvStepDeadlineExceeded _ _ _
  | EvLateStepResultObserved _ _ => lifecycle_about e
  | EvExecutionReceiptLinked _ link _ => execution_receipt_about link
  | EvSuccessorPlanned _ | EvSuccessionCarried _ _ => succession_about e
  end.

Definition fact (i : CeremonyInstance) (e : CeremonyEvent) (actor : AuditActor)
    (occurred_at : Instant) : outcome AuditFact :=
  id ← event_id (instance_id i) (event_type e) (about i e);
  Ok (MkAuditFact id e (instance_id i) (definition_name i) (definition_version i) occurred_at actor
        None None None).

Definition facts (i : CeremonyInstance) (events : list CeremonyEvent) (actor : AuditActor)
    (occurred_at : Instant) : outcome (list AuditFact) :=
  try_map (λ e, fact i e actor occurred_at) events.
End facts.

#[export] Instance AuditFact_eta : Eta AuditFact := λ f,
  MkAuditFact (fact_event_id f) (fact_event f) (fact_ceremony_id f) (fact_definition_name f)
    (fact_definition_version f) (fact_occurred_at f) (fact_actor f) (fact_correlation_id f)
    (fact_causation_id f) (fact_trace f).

(** ** Conflicts (conflict_policy.rs, retry_attempts.rs) *)

Definition RetryAttempts_DEFAULT : Z := 3.
Definition RetryAttempts_new (attempts : Z) : outcome Z :=
  ensure (negb (attempts =? 0)) (MustBeNonZero "retry_attempts");; Ok attempts.

Inductive ConflictPolicy := FailFast | Retry (attempts : Z).

Definition ConflictPolicy_retry : ConflictPolicy := Retry RetryAttempts_DEFAULT.

Definition policy_attempts (p : ConflictPolicy) : Z :=
  match p with FailFast => 1 | Retry attempts => attempts end.

(** ** Reading a stream *)

Record CeremonyEventPage := MkCeremonyEventPage {
  page_records : list AuditRecord;
  page_next_version : Z;
  page_head_version : Z;
}.

Definition page_has_more (p : CeremonyEventPage) : bool := page_next_version p <? page_head_version p.

(** [ReadCeremonyEventsUseCase::execute]: the page, then the head. *)
Definition read_ceremony_events (id : CeremonyId) (from limit : Z) : io CeremonyEventPage :=
  records ← call (OpRead id from limit);
  head ← call (OpHead id);
  if StreamVersion_is_empty head then lift (Err (NotFound "ceremony_instance")) else
  let next := match last records with
              | None => head
              | Some record => StreamVersion_from_sequence (ar_sequence record)
              end in
  mret (MkCeremonyEventPage records next head).

(** The loop of [execute_from], which advances at every page: [fuel] versions
    are left at most. *)
Fixpoint read_to_head (fuel : nat) (id : CeremonyId) (through from : Z) : io (list AuditRecord) :=
  if negb (from <? through) then mret [] else
  match fuel with
  | O => lift Panic
  | S fuel =>
      limit ← lift (CeremonyEventPageLimit_new
                      (Z.min (through - from) CeremonyEventPageLimit_DEFAULT));
      page ← read_ceremony_events id from limit;
      if Nat.eqb (length (page_records page)) 0 || (page_next_version page <=? from)
      then lift (Err (InvariantViolated "ceremony event page did not advance to the captured head"))
      else
        rest ← read_to_head fuel id through (page_next_version page);
        mret (page_records page ++ rest)
  end.

(** [ReadWholeCeremonyEventsUseCase::execute_from] and [execute]. *)
Definition read_whole_from (id : CeremonyId) (from : Z) : io (list AuditRecord) :=
  through ← call (OpHead id);
  if StreamVersion_is_empty through then lift (Err (NotFound "ceremony_instance")) else
  read_to_head (Z.to_nat (through - from)) id through from.

Definition stream_records (id : CeremonyId) : io (list AuditRecord) :=
  read_whole_from id StreamVersion_EMPTY.

(** ** Folding a stream *)

Record LoadedSession := MkLoadedSession {
  ls_instance : CeremonyInstance;
  ls_version : Z;
  ls_head : option string;
}.

(** The event of a record, which a record sealed under version 1 has not. *)
Definition foldable_event (r : AuditRecord) : outcome CeremonyEvent :=
  ok_or (ar_event r) (UnreadableCeremonyEvent (AuditEventType_as_str (ar_event_type r))
    (ar_schema_version r)
    "the record carries no event to fold; a schema version 1 journal needs the migration command").

(** The first event opens the session, the others are applied. *)
Definition fold_event (instance : option CeremonyInstance) (e : CeremonyEvent)
    : outcome CeremonyInstance :=
  match instance, e with
  | None, EvCeremonyInstanceStarted started => Ok (from_started started)
  | None, EvInstanceImported imported => Ok (from_imported imported)
  | None, _ =>
      Err (InvariantViolated "a ceremony stream opens with its start or with its import")
  | Some i, e => apply i e
  end.

(** The loop of [load] over the records from one before the snapshot on: those
    the snapshot covers only say what the head is. *)
Fixpoint fold_after (instance : option CeremonyInstance) (version : Z) (head : option string)
    (records : list AuditRecord) : outcome (option CeremonyInstance * Z * option string) :=
  match records with
  | [] => Ok (instance, version, head)
  | record :: records =>
      let sequence := StreamVersion_from_sequence (ar_sequence record) in
      e ← foldable_event record;
      '(instance, version) ←
        (if version <? sequence
         then i ← fold_event instance e; Ok (Some i, sequence)
         else Ok (instance, version));
      fold_after instance version (Some (ar_event_id record)) records
  end.

Definition loaded (folded : option CeremonyInstance * Z * option string) : outcome LoadedSession :=
  let '(instance, version, head) := folded in
  i ← ok_or instance (NotFound "ceremony_instance");
  Ok (MkLoadedSession i version head).

(** [SessionStream::fold_records]. *)
Fixpoint fold_each (instance : option CeremonyInstance) (version : Z) (head : option string)
    (records : list AuditRecord) : outcome (option CeremonyInstance * Z * option string) :=
  match records with
  | [] => Ok (instance, version, head)
  | record :: records =>
      e ← foldable_event record;
      i ← fold_event instance e;
      fold_each (Some i) (StreamVersion_from_sequence (ar_sequence record))
        (Some (ar_event_id record)) records
  end.

Definition fold_records (records : list AuditRecord) : outcome LoadedSession :=
  folded ← fold_each None StreamVersion_EMPTY None records; loaded folded.

(** [SessionStream::load]. *)
Definition load (id : CeremonyId) : io LoadedSession :=
  snapshot ← call (OpLatest id);
  let instance := snapshot_instance <$> snapshot in
  let version := default StreamVersion_EMPTY (snapshot_version <$> snapshot) in
  records ← read_whole_from id (Z.max 0 (version - 1));
  lift (folded ← fold_after instance version None records; loaded folded).

(** ** Appending *)

(** What the running task carries: the operation it was admitted for and the
    trace of each of its appends, the [k]-th from the last one. *)
Record TaskScope := MkTaskScope {
  task_operation : option (AuthenticatedPrincipal * AuthorizationEvidence);
  task_trace : nat → TraceContext;
}.

(** The stream's own fields.  The service installed by [authorize_appends] is
    another service, which answers with the operation to append under. *)
Record SessionStream := MkSessionStream {
  authorization_required : bool;
  append_authorization : option (CeremonyId → Z → list AuditFact →
    (AuthenticatedPrincipal * AuthorizationEvidence) → io (AuthenticatedPrincipal * AuthorizationEvidence));
}.

Definition active_authorization (required : bool)
    (operation : option (AuthenticatedPrincipal * AuthorizationEvidence))
    : outcome (option (AuthenticatedPrincipal * AuthorizationEvidence)) :=
  ensure (negb (required && negb (is_some operation)))
    (InvariantViolated "protected ceremony append has no active authorization");;
  Ok operation.

Definition admit_at (evidence : AuthorizationEvidence) (f : AuditFact) : AuditFact :=
  f <| fact_occurred_at := Z.max (fact_occurred_at f) (evidence_admitted_at evidence) |>.

(** [SessionStream::append] of session_stream/authorization.rs. *)
Definition stream_append (st : SessionStream) (t : TaskScope) (id : CeremonyId) (version : Z)
    (fs : list AuditFact) : io AppendOutcome :=
  operation ← lift (active_authorization (authorization_required st) (task_operation t));
  match operation with
  | None => call (OpAppend id version fs None)
  | Some operation =>
      operation ← match append_authorization st with
                  | Some authorize => authorize id version fs operation
                  | None => mret operation
                  end;
      call (OpAppend id version (List.map (admit_at operation.2) fs) (Some operation.2))
  end.

(** The loop of [open] and [commit]: correlation, causation and trace are filled
    in, and every event is folded. *)
Fixpoint complete_facts (correlation : option string) (trace : TraceContext)
    (causation : option string) (i : CeremonyInstance) (fs : list AuditFact)
    : outcome (list AuditFact * CeremonyInstance * option string) :=
  match fs with
  | [] => Ok ([], i, causation)
  | f :: fs =>
      let correlation := default (fact_event_id f) correlation in
      i ← apply i (fact_event f);
      '(rest, i, head) ←
        complete_facts (Some correlation) trace (Some (fact_event_id f)) i fs;
      Ok (f <| fact_correlation_id := Some correlation |>
            <| fact_causation_id := causation |>
            <| fact_trace := Some trace |> :: rest, i, head)
  end.

(** [snapshot]: a failure is logged and swallowed; and [observe]. *)
Definition stream_snapshot (i : CeremonyInstance) (version : Z) : io unit :=
  Vis (OpSave (MkCeremonySnapshot version i)) (λ _, Ret (Ok tt)).

Definition stream_observe (o : AppendOutcome) : io unit := tell (positioned o).

Section stream.
Context {Hsha : Sha256}.

(** [SessionStream::open]. *)
Definition open (st : SessionStream) (t : TaskScope) (opening : list CeremonyEvent) (actor : AuditActor)
    (occurred_at : Instant) : io LoadedSession :=
  match opening with
  | EvCeremonyInstanceStarted started :: _ =>
      let i := from_started started in
      fs ← lift (facts i opening actor occurred_at);
      '(fs, i, head) ← lift (complete_facts None (task_trace t 0) None i fs);
      outcome ← stream_append st t (instance_id i) StreamVersion_EMPTY fs;
      match outcome with
      | Appended _ _ _ =>
          let version := default (StreamVersion_next StreamVersion_EMPTY) (appended_version outcome) in
          _ ← stream_snapshot i version;
          _ ← stream_observe outcome;
          mret (MkLoadedSession i version head)
      | AppendConflict _ _ => lift (Err (AlreadyExists "ceremony_instance"))
      end
  | _ => lift (Err (InvariantViolated "a session opens with its start event"))
  end.

(** [SessionStream::commit], with the trace drawn for it. *)
Definition commit (st : SessionStream) (t : TaskScope) (trace : TraceContext) (session : LoadedSession)
    (fs : list AuditFact) : io LoadedSession :=
  correlation ← lift (opening_event_id (instance_id (ls_instance session)));
  '(fs, i, causation) ← lift (complete_facts (Some correlation) trace (ls_head session)
                                (ls_instance session) fs);
  outcome ← stream_append st t (instance_id i) (ls_version session) fs;
  match outcome with
  | Appended _ _ _ =>
      let version := default (ls_version session) (appended_version outcome) in
      _ ← stream_snapshot i version;
      _ ← stream_observe outcome;
      mret (MkLoadedSession i version causation)
  | AppendConflict _ _ => lift (Err (Conflict "ceremony_instance"))
  end.

(** The loop of [SessionStream::execute]: [retries] more attempts after this
    one. *)
Fixpoint execute_loop (st : SessionStream) (t : TaskScope) (retries : nat) (id : CeremonyId)
    (decide : LoadedSession → outcome (list AuditFact)) (session : LoadedSession)
    : io LoadedSession :=
  fs ← lift (decide session);
  if Nat.eqb (length fs) 0 then mret session else
  prog_bind (commit st t (task_trace t retries) session fs) (λ answer,
    match answer, retries with
    | Err (Conflict _), S retries =>
        session ← load id;
        execute_loop st t retries id decide session
    | _, _ => Ret answer
    end).

Definition stream_execute (st : SessionStream) (t : TaskScope) (session : LoadedSession)
    (policy : ConflictPolicy) (decide : LoadedSession → outcome (list AuditFact))
    : io LoadedSession :=
  execute_loop st t (Z.to_nat (policy_attempts policy - 1)) (instance_id (ls_instance session))
    decide session.
End stream.
