(* ===== verification/UseCases.v ===== *)
(** * The use cases that drive a ceremony

    made-app/src/usecases: starting a ceremony, starting and completing a step,
    moving, approving and deferring a guard, seating the table, asking, closing
    and reasoning, pausing, resuming, cancelling and enforcing deadlines.  Each
    loads the session, resolves its definition, decides a command against the
    fold and appends what it decided.

    The repository of definitions, the published catalogue, the digest of a
    definition and the memory a session opens with are ports ([Ports]); the time
    the clock gives is an argument.  A port is a function of the question alone: the
    use cases run while no definition they resolve is overwritten.  The repository in
    the sources does overwrite; Concurrency ([Repository]) says what that does to a
    session. *)

From S2P Require Import Prelude Errors Text Values Steps Definitions Interventions Instance.
From S2P Require Import Authorization AuditLog Fold Rules Decide DecideTable DecideLineage Engine.
From S2P Require Import Equality EventStore SessionStream.

Record Ports := MkPorts {
  definitions_get : string → string → outcome CeremonyDefinition;
  publications_published : string → string → outcome (option PublishedCeremonyDefinition);
  definition_digest : CeremonyDefinition → outcome string;
  recall_for : CeremonyContext → CeremonyId → outcome (option SessionRecollection);
}.

Section usecases.
Context {Hsha : Sha256} {Hclk : Clock} {Hser : EvidenceSerde}.
Context (ports : Ports) (st : SessionStream) (t : TaskScope).

(** [ResolveCeremonyDefinitionUseCase::execute_pinned] and [execute]. *)
Definition resolve_definition_pinned (i : CeremonyInstance)
    : outcome (CeremonyDefinition * DefinitionPin) :=
  match bound_definition i with
  | None =>
      d ← definitions_get ports (definition_name i) (definition_version i);
      digest ← definition_digest ports d;
      Ok (d, MkDefinitionPin (def_name d) (def_version d) digest)
  | Some digest =>
      found ← publications_published ports (definition_name i) (definition_version i);
      published ← ok_or found (NotFound "published_ceremony_definition");
      ensure (negb (pub_digest published != digest)) (InvariantViolated
        "the published definition no longer matches the digest this instance ran");;
      Ok (pub_definition published,
          MkDefinitionPin (def_name (pub_definition published)) (def_version (pub_definition published))
            (pub_digest published))
  end.

Definition resolve_definition (i : CeremonyInstance) : outcome CeremonyDefinition :=
  fst <$> resolve_definition_pinned i.

(** The closure most use cases hand to [execute]. *)
Definition decided (d : CeremonyDefinition) (command : CeremonyCommand) (actor : AuditActor)
    (now : Instant) (session : LoadedSession) : outcome (list AuditFact) :=
  events ← decide (ls_instance session) command d;
  facts (ls_instance session) events actor now.

(** ** Opening *)

Definition start_ceremony (id : CeremonyId) (name version : string) (context : CeremonyContext)
    (actor_id : string) (actor_kind : AuditActorKind) (now : Instant) : io CeremonyInstance :=
  d ← lift (definitions_get ports name version);
  actor ← lift (party actor_id actor_kind);
  recalled ← lift (recall_for ports context id);
  opening ← lift (decide_start id d context recalled now);
  session ← open st t opening actor now;
  mret (ls_instance session).

Definition start_published_ceremony (id : CeremonyId) (name version : string)
    (context : CeremonyContext) (actor_id : string) (actor_kind : AuditActorKind) (now : Instant)
    : io CeremonyInstance :=
  found ← lift (publications_published ports name version);
  published ← lift (ok_or found (NotFound "published_ceremony_definition"));
  actor ← lift (party actor_id actor_kind);
  recalled ← lift (recall_for ports context id);
  opening ← lift (decide_start_bound id published context recalled now);
  session ← open st t opening actor now;
  mret (ls_instance session).

(** ** Steps *)

Definition lease_with_execution_profile (l : StepLease) (profile : ExecutionProfile) : StepLease :=
  MkStepLease (lease_owner_id l) (lease_idempotency_key l) (lease_acquired_at l) (lease_expires_at l)
    (Some profile).

Inductive StepRoleResolution := Explicit | Automatic.

Definition requested_role_id (r : StepRoleResolution) (role : RoleId) : option RoleId :=
  match r with Explicit => Some role | Automatic => None end.

Record StartCeremonyStepOutput := MkStartCeremonyStepOutput {
  sso_instance : CeremonyInstance;
  sso_attempt : Z;
  sso_claim_fence : StepClaimFence;
  sso_version : Z;
}.

Definition start_ceremony_step (id : CeremonyId) (role : RoleId) (role_kind : AuditActorKind)
    (step : StepId) (owner key : string) (ttl : Z) (profile : option ExecutionProfile)
    (resolution : StepRoleResolution) (ceiling : Z) (now : Instant) : io StartCeremonyStepOutput :=
  session ← load id;
  d ← lift (resolve_definition (ls_instance session));
  lease ← lift (StepLease_acquire owner key now ttl);
  let lease := match profile with
               | Some profile => lease_with_execution_profile lease profile
               | None => lease
               end in
  let command := CmdStartStep
    (MkStartStep (requested_role_id resolution role) step lease now ceiling None) in
  session ← stream_execute st t session ConflictPolicy_retry (λ session,
    events ← decide (ls_instance session) command d;
    actor ← step_started_seat events role_kind;
    facts (ls_instance session) events actor now);
  record ← lift (ok_or (step_records (ls_instance session) !! step) (NotFound "ceremony_step"));
  fence ← lift (step_claim_fence (ls_instance session) step);
  mret (MkStartCeremonyStepOutput (ls_instance session) (rec_attempt record) fence (ls_version session)).

(** [replay_step_completion]: the reply to a completion that was accepted
    before, recovered from the records. *)
Definition completion_of (r : AuditRecord) : option (StepId * StepResult * Instant) :=
  match ar_event r with
  | Some (EvStepCompleted e) => Some (sc_step_id e, sc_result e, sc_finished_at e)
  | Some (EvStepFailed e) => Some (sf_step_id e, sf_result e, sf_finished_at e)
  | _ => None
  end.

Definition has_claim_fence (i : CeremonyInstance) (step : StepId) (fence : StepClaimFence) : bool :=
  match step_claim_fence i step with Ok current => current == fence | _ => false end.

(** The body of the loop at [records[index]]: [None] is [continue]. *)
Definition replay_at (records : list AuditRecord) (step : StepId) (fence : StepClaimFence)
    (result : StepResult) (actor_kind : AuditActorKind) (d : CeremonyDefinition) (index : nat)
    (record : AuditRecord) : outcome (option CeremonyInstance) :=
  match completion_of record with
  | None => Ok None
  | Some (ended, ended_result, finished_at) =>
      if ended != step then Ok None else
      before ← fold_records (take index records);
      if negb (has_claim_fence (ls_instance before) step fence) then Ok None else
      ensure (negb ((ended_result != result) || ((AuditLog.actor_kind (ar_actor record)) != actor_kind)))
        (InvariantViolated "completed step claim already has a different result or actor kind");;
      ensure (is_none_or (ar_authorization_evidence record) (λ evidence,
                is_some_and (task_operation t) (λ operation,
                  evidence_principal_id operation.2 == evidence_principal_id evidence)))
        (InvariantViolated "completion retry requires the original authenticated principal");;
      expected ← decide (ls_instance before)
                   (CmdApplyStepResult (MkApplyStepResult step fence result finished_at)) d;
      let end_ := (index + length expected)%nat in
      ensure (negb ((length records <? end_)%nat
                || any (λ '(event, actual), ar_event actual != Some event)
                     (zip expected (drop index records))))
        (InvariantViolated "accepted step completion does not match its sealed event batch");;
      session ← fold_records (take end_ records);
      Ok (Some (ls_instance session))
  end.

Fixpoint replay_from (records : list AuditRecord) (step : StepId) (fence : StepClaimFence)
    (result : StepResult) (actor_kind : AuditActorKind) (d : CeremonyDefinition) (index : nat)
    (rest : list AuditRecord) : outcome (option CeremonyInstance) :=
  match rest with
  | [] => Ok None
  | record :: rest =>
      found ← replay_at records step fence result actor_kind d index record;
      match found with
      | Some i => Ok (Some i)
      | None => replay_from records step fence result actor_kind d (S index) rest
      end
  end.

Definition replay_step_completion (id : CeremonyId) (step : StepId) (fence : StepClaimFence)
    (result : StepResult) (actor_kind : AuditActorKind) (d : CeremonyDefinition)
    : io (option CeremonyInstance) :=
  records ← stream_records id;
  lift (replay_from records step fence result actor_kind d 0 records).

Definition complete_ceremony_step (id : CeremonyId) (step : StepId) (fence : StepClaimFence)
    (result : StepResult) (actor_kind : AuditActorKind) (now : Instant) : io CeremonyInstance :=
  session ← load id;
  d ← lift (resolve_definition (ls_instance session));
  accepted ← (if negb (has_claim_fence (ls_instance session) step fence)
              then replay_step_completion id step fence result actor_kind d
              else mret None);
  match accepted with
  | Some accepted => mret accepted
  | None =>
      let command := CmdApplyStepResult (MkApplyStepResult step fence result now) in
      prog_bind (stream_execute st t session ConflictPolicy_retry (λ session,
        events ← decide (ls_instance session) command d;
        if Nat.eqb (length events) 0 then Ok [] else
        actor ← step_result_seat events actor_kind;
        facts (ls_instance session) events actor now))
      (λ answer,
        match answer with
        | Ok session => lift (Ok (ls_instance session))
        | Err error =>
            accepted ← replay_step_completion id step fence result actor_kind d;
            lift (ok_or accepted error)
        | Panic => lift Panic
        end)
  end.

(** ** Moving and guards *)

Definition apply_ceremony_transition (id : CeremonyId) (role : RoleId) (role_kind : AuditActorKind)
    (trigger : string) (now : Instant) : io CeremonyInstance :=
  session ← load id;
  d ← lift (resolve_definition (ls_instance session));
  actor ← lift (seat role role_kind);
  let command := CmdApplyTransition (MkApplyTransition (Some role) trigger now) in
  session ← stream_execute st t session FailFast (decided d command actor now);
  mret (ls_instance session).

Definition approve_ceremony_guard (id : CeremonyId) (guard : GuardName) (role : RoleId)
    (role_kind : AuditActorKind) (now : Instant) : io CeremonyInstance :=
  session ← load id;
  d ← lift (resolve_definition (ls_instance session));
  actor ← lift (seat role role_kind);
  let command := CmdApproveGuard (MkApproveGuard guard role role_kind now) in
  session ← stream_execute st t session ConflictPolicy_retry (decided d command actor now);
  mret (ls_instance session).

Definition defer_ceremony_guard (id : CeremonyId) (guard : GuardName)
    (content : CeremonyGuardDeferralContent) (role : RoleId) (role_kind : AuditActorKind)
    (now : Instant) : io CeremonyInstance :=
  session ← load id;
  d ← lift (resolve_definition (ls_instance session));
  actor ← lift (seat role role_kind);
  let command := CmdDeferGuard (MkDeferGuard guard content role role_kind now) in
  session ← stream_execute st t session ConflictPolicy_retry (decided d command actor now);
  mret (ls_instance session).

(** ** The table *)

(** The closure of [BindCeremonyParticipantsUseCase]: each seat is decided
    against the seating so far. *)
Fixpoint decide_seats (d : CeremonyDefinition) (i : CeremonyInstance)
    (commands : list CeremonyCommand) : outcome (list CeremonyEvent) :=
  match commands with
  | [] => Ok []
  | command :: commands =>
      events ← decide i command d;
      i ← apply_all i events;
      rest ← decide_seats d i commands;
      Ok (events ++ rest)
  end.

Definition bind_ceremony_participants (id : CeremonyId) (seating : gmap string string)
    (actor_id : string) (actor_kind : AuditActorKind) (now : Instant) : io CeremonyInstance :=
  session ← load id;
  d ← lift (resolve_definition (ls_instance session));
  actor ← lift (party actor_id actor_kind);
  let commands := List.map (λ '(role, specialty), CmdBindParticipant role specialty now)
                    (btree_entries seating) in
  session ← stream_execute st t session ConflictPolicy_retry (λ session,
    events ← decide_seats d (ls_instance session) commands;
    facts (ls_instance session) events actor now);
  mret (ls_instance session).

Definition request_ceremony_intervention (id : CeremonyId) (intervention : string) (role : RoleId)
    (role_kind : AuditActorKind) (kind : CeremonyInterventionKind)
    (target : CeremonyInterventionTarget) (content : CeremonyInterventionContent)
    (provenance : option CeremonyInterventionProvenance) (intent : option CeremonyInterventionIntent)
    (delivery : option HostDeliveryPolicy) (supervisor : option SupervisorPrincipal) (now : Instant)
    : io CeremonyInstance :=
  session ← load id;
  d ← lift (resolve_definition (ls_instance session));
  actor ← lift (seat role role_kind);
  let command := CmdRequestIntervention (MkRequestIntervention intervention role kind target content
                   provenance intent delivery supervisor now) in
  session ← stream_execute st t session ConflictPolicy_retry (decided d command actor now);
  mret (ls_instance session).

Definition close_ceremony_intervention (id : CeremonyId) (intervention : string) (role : RoleId)
    (role_kind : AuditActorKind) (now : Instant) : io CeremonyInstance :=
  session ← load id;
  d ← lift (resolve_definition (ls_instance session));
  actor ← lift (seat role role_kind);
  let command := CmdCloseIntervention intervention role now in
  session ← stream_execute st t session ConflictPolicy_retry (decided d command actor now);
  mret (ls_instance session).

Definition assert_ceremony_reason (id : CeremonyId) (role : RoleId) (role_kind : AuditActorKind)
    (from to : CeremonyRecordRef) (kind : CeremonyReasonKind) (why : string)
    (confidence : MemoryConfidence) (now : Instant) : io CeremonyInstance :=
  session ← load id;
  d ← lift (resolve_definition (ls_instance session));
  actor ← lift (seat role role_kind);
  reason ← lift (CeremonyReason_new from to kind why confidence (Some role) now);
  session ← stream_execute st t session ConflictPolicy_retry
              (decided d (CmdAssertReason reason) actor now);
  mret (ls_instance session).

(** ** Lifecycle *)

Definition pause_ceremony (id : CeremonyId) (actor_id : string) (actor_kind : AuditActorKind)
    (reason : string) (now : Instant) : io CeremonyInstance :=
  session ← load id;
  d ← lift (resolve_definition (ls_instance session));
  actor ← lift (party actor_id actor_kind);
  session ← stream_execute st t session ConflictPolicy_retry
              (decided d (CmdPauseCeremony reason now) actor now);
  mret (ls_instance session).

Definition resume_ceremony (id : CeremonyId) (actor_id : string) (actor_kind : AuditActorKind)
    (now : Instant) : io CeremonyInstance :=
  session ← load id;
  d ← lift (resolve_definition (ls_instance session));
  actor ← lift (party actor_id actor_kind);
  session ← stream_execute st t session ConflictPolicy_retry
              (decided d (CmdResumeCeremony now) actor now);
  mret (ls_instance session).

Definition cancel_ceremony (id : CeremonyId) (actor_id : string) (actor_kind : AuditActorKind)
    (reason : string) (now : Instant) : io CeremonyInstance :=
  session ← load id;
  d ← lift (resolve_definition (ls_instance session));
  actor ← lift (party actor_id actor_kind);
  session ← stream_execute st t session ConflictPolicy_retry
              (decided d (CmdCancelCeremony reason now) actor now);
  mret (ls_instance session).

Definition enforce_ceremony_deadlines (id : CeremonyId) (now : Instant) : io CeremonyInstance :=
  session ← load id;
  d ← lift (resolve_definition (ls_instance session));
  actor ← lift (party "made.lifecycle.deadline" ActorEngine);
  session ← stream_execute st t session ConflictPolicy_retry
              (decided d (CmdEnforceCeremonyDeadlines now) actor now);
  mret (ls_instance session).
End usecases.
