(* ===== verification/Differences.v ===== *)
(** * The differences between two definitions

    made-core/src/value_objects/ceremony: ceremony_definition_diff.rs with
    ceremony_definition_change.rs and ceremony_change_impact.rs; and, in
    made-app/src/usecases, diff_ceremony_definitions_use_case.rs with
    ceremony_definition_source.rs.

    A function of the source that pushes changes to a list is a function that
    returns the changes it pushes, in their order.  The kinds and impacts of a
    change are in Instance, because a succession command carries them. *)

From S2P Require Import Prelude Errors Text Values Steps Definitions Interventions Instance.

#[export] Instance CeremonyChangeKind_eq_dec : EqDecision CeremonyChangeKind.
Proof. solve_decision. Defined.
#[export] Instance CeremonyDefinitionChange_eq_dec : EqDecision CeremonyDefinitionChange.
Proof. solve_decision. Defined.

Definition impact_strands (impact : CeremonyChangeImpact) : bool :=
  match impact with Strands => true | Carries => false end.

Definition CeremonyDefinitionDiff := list CeremonyDefinitionChange.

Definition is_required (input : CeremonyInputDefinition) : bool :=
  match input_requirement input with Required => true | Optional => false end.

(** [record], and the same under an [if]. *)
Definition record_change (kind : CeremonyChangeKind) (locus : CeremonyValidationLocus)
    (impact : CeremonyChangeImpact) (detail : string) : CeremonyDefinitionDiff :=
  [MkCeremonyDefinitionChange kind locus impact detail].

Definition record_if (changed : bool) (kind : CeremonyChangeKind) (locus : CeremonyValidationLocus)
    (impact : CeremonyChangeImpact) (detail : string) : CeremonyDefinitionDiff :=
  if changed then record_change kind locus impact detail else [].

(** ** The differences of each part *)

Section between.
Context (before after : CeremonyDefinition).

Definition diff_transition_budget (old new : option Z) (detail : string) : CeremonyDefinitionDiff :=
  let impact :=
    match old, new with
    | None, Some _ => Strands
    | Some old, Some new => if new <? old then Strands else Carries
    | _, None => Carries
    end in
  record_if (old != new) ChangeAltered LocusDefinition impact detail.

Definition diff_transition_budgets : CeremonyDefinitionDiff :=
  diff_transition_budget (def_max_transitions before) (def_max_transitions after)
    "the total number of transitions a running session may apply"
  ++ diff_transition_budget (def_max_bounces before) (def_max_bounces after)
    "the number of times a running session may apply one exact edge".

Definition diff_max_parallel : CeremonyDefinitionDiff :=
  record_if (def_max_parallel before != def_max_parallel after) ChangeAltered LocusDefinition
    (if def_max_parallel after <? def_max_parallel before then Strands else Carries)
    "how many steps may be claimed concurrently".

(** The keys of [new] that [old] does not have, each an addition. *)
Definition added_keys {V W} (old : gmap string V) (new : gmap string W)
    (locus : string → CeremonyValidationLocus) (impact : CeremonyChangeImpact) (detail : string)
    : CeremonyDefinitionDiff :=
  flat_map (λ id, record_if (negb (is_some (old !! id))) ChangeAdded (locus id) impact detail)
    (btree_keys new).

Definition diff_state (id : StateId) (state : CeremonyState) : CeremonyDefinitionDiff :=
  match def_states after !! id with
  | None => record_change ChangeRemoved (LocusState id) Strands
              "a session in this state would have nowhere to be"
  | Some now =>
      record_if (state_kind now != state_kind state) ChangeAltered (LocusState id) Strands
        "whether the session may start or finish here"
      ++ record_if (state_execution now != state_execution state) ChangeAltered (LocusState id) Strands
        "whether work in this state runs sequentially or concurrently"
      ++ record_if (state_repeat now != state_repeat state) ChangeAltered (LocusState id) Strands
        "when and how often this state repeats"
  end.

Definition diff_states : CeremonyDefinitionDiff :=
  flat_map (λ '(id, state), diff_state id state) (btree_entries (def_states before))
  ++ added_keys (def_states before) (def_states after) LocusState Carries
       "a state no running session is in yet".

Definition transition_key (t : CeremonyTransition) : string * string := (tr_from t, tr_trigger t).

Definition diff_transition (old : CeremonyTransition) : CeremonyDefinitionDiff :=
  let locus := LocusTransition (tr_from old) (tr_trigger old) in
  match List.find (λ t, transition_key t == transition_key old) (def_transitions after) with
  | None => record_change ChangeRemoved locus Strands "a way out of the state it leaves"
  | Some now =>
      if tr_to now != tr_to old then record_change ChangeAltered locus Strands "where it leads"
      else record_if (tr_required_guards now != tr_required_guards old) ChangeAltered locus
             (if bool_decide (tr_required_guards old ⊆ tr_required_guards now) then Strands else Carries)
             "what has to hold before it can fire"
  end.

Definition diff_transitions : CeremonyDefinitionDiff :=
  flat_map diff_transition (def_transitions before)
  ++ flat_map (λ now,
       record_if (negb (any (λ t, transition_key t == transition_key now) (def_transitions before)))
         ChangeAdded (LocusTransition (tr_from now) (tr_trigger now)) Carries
         "another way out of a state") (def_transitions after).

Definition dynamic_role_binding_impact (old new : option DynamicRoleBinding) : CeremonyChangeImpact :=
  match old, new with
  | _, None => Carries
  | Some old, Some new =>
      if (drb_context_key old == drb_context_key new)
         && bool_decide (drb_allowed_roles old ⊆ drb_allowed_roles new)
      then Carries else Strands
  | None, Some _ => Strands
  end.

Definition context_writes_impact (old new : ContextWrites) : CeremonyChangeImpact := Strands.

Definition diff_step (id : StepId) (old : CeremonyStep) : CeremonyDefinitionDiff :=
  let locus := LocusStep id in
  match def_steps after !! id with
  | None => record_change ChangeRemoved locus Strands "work a session may not have done yet"
  | Some now =>
      record_if (step_state_id now != step_state_id old) ChangeAltered locus Strands
        "the state it belongs to"
      ++ record_if (step_handler_kind now != step_handler_kind old) ChangeAltered locus Carries
        "who does the work"
      ++ record_if (step_handler_config now != step_handler_config old) ChangeAltered locus Carries
        "how the work is asked for"
      ++ record_if (step_dynamic_role_binding now != step_dynamic_role_binding old) ChangeAltered locus
        (dynamic_role_binding_impact (step_dynamic_role_binding old) (step_dynamic_role_binding now))
        "how the role that may claim the step is resolved"
      ++ record_if (step_context_writes now != step_context_writes old) ChangeAltered locus
        (context_writes_impact (step_context_writes old) (step_context_writes now))
        "which successful output fields update ceremony context"
      ++ record_if (step_aggregation now != step_aggregation old) ChangeAltered locus Carries
        "how predecessor sibling outputs are aggregated"
      ++ record_if ((step_retry_policy now != step_retry_policy old)
                    || (step_timeout now != step_timeout old)
                    || (step_repeat_policy now != step_repeat_policy old)) ChangeAltered locus Carries
        "how long it may take, how often it may be retried, or when repetition stops"
  end.

Definition diff_steps : CeremonyDefinitionDiff :=
  flat_map (λ '(id, old), diff_step id old) (btree_entries (def_steps before))
  ++ added_keys (def_steps before) (def_steps after) LocusStep Strands
       "work a session may already have moved past".

Definition diff_guard (name : GuardName) (old : CeremonyGuard) : CeremonyDefinitionDiff :=
  match def_guards after !! name with
  | None => record_change ChangeRemoved (LocusGuard name) Carries "a condition no longer asked for"
  | Some now => record_if (guard_condition now != guard_condition old) ChangeAltered (LocusGuard name)
                  Strands "what satisfies it"
  end.

Definition diff_guards : CeremonyDefinitionDiff :=
  flat_map (λ '(name, old), diff_guard name old) (btree_entries (def_guards before))
  ++ added_keys (def_guards before) (def_guards after) LocusGuard Carries
       "a condition that only matters where a transition asks for it".

Definition diff_role (id : RoleId) (old : CeremonyRole) : CeremonyDefinitionDiff :=
  match def_roles after !! id with
  | None => record_change ChangeRemoved (LocusRole id) Strands
              "whoever was acting as this role can no longer act"
  | Some now =>
      record_if (role_allowed_actions now != role_allowed_actions old) ChangeAltered (LocusRole id)
        (if bool_decide (role_allowed_actions old ⊆ role_allowed_actions now) then Carries else Strands)
        "what this role is allowed to do"
  end.

Definition diff_roles : CeremonyDefinitionDiff :=
  flat_map (λ '(id, old), diff_role id old) (btree_entries (def_roles before))
  ++ added_keys (def_roles before) (def_roles after) LocusRole Carries "another role at the table".

Definition input_impact (now : CeremonyInputDefinition) : CeremonyChangeImpact :=
  if is_required now then Strands else Carries.

Definition diff_input (name : string) (now : CeremonyInputDefinition) : CeremonyDefinitionDiff :=
  match def_inputs before !! name with
  | None => record_change ChangeAdded (LocusInput name) (input_impact now)
              "an input the ceremony now asks for"
  | Some was => record_if (is_required was != is_required now) ChangeAltered (LocusInput name)
                  (input_impact now) "whether it has to be supplied"
  end.

(** The keys of [old] that [new] does not have, each a removal that carries. *)
Definition removed_keys {V W} (old : gmap string V) (new : gmap string W)
    (locus : string → CeremonyValidationLocus) (detail : string) : CeremonyDefinitionDiff :=
  flat_map (λ id, record_if (negb (is_some (new !! id))) ChangeRemoved (locus id) Carries detail)
    (btree_keys old).

Definition diff_shape : CeremonyDefinitionDiff :=
  removed_keys (def_inputs before) (def_inputs after) LocusInput "an input no longer asked for"
  ++ flat_map (λ '(name, now), diff_input name now) (btree_entries (def_inputs after))
  ++ removed_keys (def_outputs before) (def_outputs after) LocusOutput "an output no longer produced"
  ++ added_keys (def_outputs before) (def_outputs after) LocusOutput Carries
       "an output not produced before"
  ++ record_if (def_description before != def_description after) ChangeAltered LocusDefinition Carries
       "what the ceremony says it is for".

(** [CeremonyDefinitionDiff::between]. *)
Definition between : CeremonyDefinitionDiff :=
  diff_states ++ diff_transitions ++ diff_steps ++ diff_guards ++ diff_roles
  ++ diff_max_parallel ++ diff_transition_budgets ++ diff_shape.
End between.

Definition is_identical (diff : CeremonyDefinitionDiff) : bool := Nat.eqb (length diff) 0.

Definition strands_running_sessions (diff : CeremonyDefinitionDiff) : bool :=
  any (λ change, impact_strands (chg_impact change)) diff.

Definition strand_count (diff : CeremonyDefinitionDiff) : nat :=
  count (λ change, impact_strands (chg_impact change)) diff.

(** ** Comparing what is published or supplied

    [DiffCeremonyDefinitionsUseCase]: the catalogue is the argument
    [published]. *)

Inductive CeremonyDefinitionSource :=
| SourcePublished (name version : string)
| SourceSupplied (definition : CeremonyDefinition).

Section diff_use_case.
Context (published : string → string → outcome (option PublishedCeremonyDefinition)).

Definition resolve_source (source : CeremonyDefinitionSource) : outcome CeremonyDefinition :=
  match source with
  | SourceSupplied definition => Ok definition
  | SourcePublished name version =>
      found ← published name version;
      ok_or (pub_definition <$> found) (NotFound "published_ceremony_definition")
  end.

Definition diff_ceremony_definitions (before after : CeremonyDefinitionSource)
    : outcome CeremonyDefinitionDiff :=
  before ← resolve_source before;
  after ← resolve_source after;
  Ok (between before after).
End diff_use_case.
