(* ===== verification/Succession.v ===== *)
(** * Handing a ceremony over to a successor

    made-app/src: usecases/start_ceremony_successor_use_case.rs with its support
    and services/succession_evidence.rs.

    A handover appends to two streams: the plan is sealed in the predecessor's,
    then the successor's is opened from what the plan says.  The service that
    admits the successor's definition is another use case, which answers. *)

From S2P Require Import Prelude Errors Text Values Steps Definitions Interventions Instance.
From S2P Require Import Authorization AuditLog Fold Rules Decide DecideTable DecideLineage Engine.
From S2P Require Import Equality EventStore SessionStream UseCases Differences.

Inductive AuthorizationGateOutcome :=
| GateAllowed (decision : AuthorizationDecision) (evidence : AuthorizationEvidence)
| GateDenied (decision : AuthorizationDecision)
| GateExpired (decision : AuthorizationDecision).

Record StartCeremonySuccessorInput := MkStartCeremonySuccessorInput {
  sci_instance_id : CeremonyId;
  sci_plan_id : string;
  sci_definition_name : string;
  sci_definition_version : string;
  sci_carried : list StepId;
  sci_dispositions : list ClaimDisposition;
  sci_budget : BudgetDisposition;
  sci_context_overrides : option CeremonyContext;
  sci_actor_id : string;
  sci_actor_kind : AuditActorKind;
}.

Record CeremonySuccessorOutcome := MkCeremonySuccessorOutcome {
  cso_successor : CeremonyInstance;
  cso_plan : SuccessionPlan;
}.

(** ** The predecessor's sealed work (succession_evidence.rs) *)

Definition completes (step : StepId) (record : StepExecutionRecord) (audit : AuditRecord) : bool :=
  match ar_event audit with
  | Some (EvStepCompleted done) =>
      (sc_step_id done == step)
      && (default StateVisit_FIRST (sc_state_visit done) =? rec_state_visit record)
      && (sc_attempt done =? rec_attempt record)
      && (sc_iteration done =? rec_iteration record)
  | _ => false
  end.

Definition completed_source (i : CeremonyInstance) (records : list AuditRecord) (step : StepId)
    : outcome (option SourceRecordRef) :=
  match step_records i !! step with
  | None => Ok None
  | Some record =>
      if rec_status record != Completed then Ok None else
      match List.find (completes step record) (rev records) with
      | None => Err (InvalidDocument ("step " +:+ quoted step +:+
                       " is completed but its completion is not in the journal"))
      | Some sealed =>
          Ok (Some (MkSourceRecordRef (instance_id i) step (ar_event_id sealed) (ar_record_hash sealed)
                      (rec_state_visit record) (rec_attempt record)))
      end
  end.

(** ** The plan (support.rs) *)

Definition sealed_plan (i : CeremonyInstance) (plan_id : string) : option SuccessionPlan :=
  option_keep (λ sealed, sp_plan_id sealed == plan_id) (successor_plan i).

Definition carry_step (i : CeremonyInstance) (records : list AuditRecord) (step : StepId)
    : outcome CarriedEvidence :=
  found ← completed_source i records step;
  source ← ok_or found (InvalidDocument ("step " +:+ quoted step +:+
             " cannot be carried: this ceremony has not completed it"));
  record ← ok_or (step_records i !! step) (NotFound "ceremony_step_record");
  Ok (MkCarriedEvidence step source (rec_output record)).

Definition carried_evidence (i : CeremonyInstance) (records : list AuditRecord) (carried : list StepId)
    : outcome (list CarriedEvidence) :=
  try_map (carry_step i records) carried.

Definition seals (plan_id : string) (r : AuditRecord) : bool :=
  match ar_event r with
  | Some (EvSuccessorPlanned plan) => sp_plan_id plan == plan_id
  | _ => false
  end.

Definition predecessor_cut (records : list AuditRecord) (plan_id : string) : outcome (string * Z) :=
  r ← ok_or (List.find (seals plan_id) records)
        (InvariantViolated "the sealed handoff is not in the predecessor's journal");
  Ok (ar_record_hash r, StreamVersion_from_sequence (ar_sequence r)).

(** The events of the first records are the expected ones. *)
Fixpoint opens_with (records : list AuditRecord) (expected : list CeremonyEvent) : bool :=
  match records, expected with
  | r :: records, e :: expected => (ar_event r == Some e) && opens_with records expected
  | _, _ => true
  end.

Definition verify_existing_opening `{AuditSerde} (records : list AuditRecord)
    (expected : list CeremonyEvent) : outcome unit :=
  ensure (match verify records with Intact => true | Broken _ => false end)
    (InvariantViolated "the successor's journal is not intact");;
  ensure (negb ((length records <? length expected)%nat || negb (opens_with records expected)))
    (AlreadyExists "foreign_successor_ceremony").

Definition pin_of (p : PublishedCeremonyDefinition) : DefinitionPin :=
  MkDefinitionPin (def_name (pub_definition p)) (def_version (pub_definition p)) (pub_digest p).

(** ** Sealing the handover and opening the successor *)

Definition OPENER : string := "made-successor-opener".

Section start_successor.
Context {Hsha : Sha256} {Hclk : Clock} {Hser : EvidenceSerde} {Haud : AuditSerde}.
Context (ports : Ports) (st : SessionStream) (t : TaskScope).
Context (reauthorize : option (AuthorizationRequest → io AuthorizationGateOutcome)).

Definition require_definition_admitted (name version : string) : io unit :=
  match reauthorize, task_operation t with
  | Some authorize, Some operation =>
      let target := name +:+ "@" +:+ version in
      id ← lift (AuthorizationRequestId_new ("successor-definition:" +:+ target));
      answer ← authorize (MkRequest id operation.1 AA_StartPublishedCeremony
                 (ScopeDefinition name (Some version)) (sha256_hex target) None None None);
      match answer with
      | GateAllowed _ _ => mret tt
      | GateDenied _ | GateExpired _ => lift (Err (InvariantViolated
          "current authorization does not admit the successor's definition"))
      end
  | _, _ => mret tt
  end.

Definition successor_publication (name version : string) : outcome PublishedCeremonyDefinition :=
  found ← publications_published ports name version;
  ok_or found (NotFound "published_ceremony_definition").

(** [StartCeremonySuccessorUseCase::plan]. *)
Definition successor_plan_of (input : StartCeremonySuccessorInput) (i : CeremonyInstance)
    (records : list AuditRecord) (successor : PublishedCeremonyDefinition) (now : Instant)
    : outcome SuccessionPlan :=
  successor_id ← successor_derive (instance_id i) (sci_plan_id input);
  let planned_at := match sealed_plan i (sci_plan_id input) with
                    | Some sealed => sp_planned_at sealed
                    | None => now
                    end in
  carried ← carried_evidence i records (sci_carried input);
  Ok (MkSuccessionPlan (sci_plan_id input) successor_id (pin_of successor) carried
        (sci_dispositions input) (sci_budget input) (sci_actor_id input) planned_at).

(** [StartCeremonySuccessorUseCase::succession]. *)
Definition succession_of (input : StartCeremonySuccessorInput) (plan : SuccessionPlan)
    (predecessor : DefinitionPin) (successor : PublishedCeremonyDefinition) : io CeremonySuccession :=
  records ← stream_records (sci_instance_id input);
  '(head, version) ← lift (predecessor_cut records (sp_plan_id plan));
  mret (MkCeremonySuccession (sci_instance_id input) head version predecessor (pin_of successor)
          (sp_plan_id plan)).

(** [open_or_verify], with the trace drawn for the opening. *)
Definition open_or_verify (trace : TraceContext) (successor_id : CeremonyId) (plan : SuccessionPlan)
    (opening : list CeremonyEvent) : io CeremonyInstance :=
  actor ← lift (party OPENER ActorService);
  prog_bind (open st (MkTaskScope (task_operation t) (λ _, trace)) opening actor (sp_planned_at plan))
    (λ answer,
       match answer with
       | Ok session => Ret (Ok (ls_instance session))
       | Err (AlreadyExists _) =>
           records ← stream_records successor_id;
           _ ← lift (verify_existing_opening records opening);
           session ← lift (fold_records records);
           mret (ls_instance session)
       | Err e => lift (Err e)
       | Panic => lift Panic
       end).

(** [StartCeremonySuccessorUseCase::execute] at the time [now]. *)
Definition start_ceremony_successor (trace : TraceContext) (input : StartCeremonySuccessorInput)
    (now : Instant) : io CeremonySuccessorOutcome :=
  records ← stream_records (sci_instance_id input);
  session ← lift (fold_records records);
  '(d, predecessor) ← lift (resolve_definition_pinned ports (ls_instance session));
  _ ← require_definition_admitted (sci_definition_name input) (sci_definition_version input);
  successor ← lift (successor_publication (sci_definition_name input) (sci_definition_version input));
  plan ← lift (successor_plan_of input (ls_instance session) records successor now);
  let command := CmdPlanSuccessor (MkPlanSuccessor plan successor
                   (between d (pub_definition successor)) (sp_planned_at plan)) in
  actor ← lift (party (sci_actor_id input) (sci_actor_kind input));
  sealed ← stream_execute st t session ConflictPolicy_retry
             (decided d command actor (sp_planned_at plan));
  succession ← succession_of input plan predecessor successor;
  let context := default (context (ls_instance sealed)) (sci_context_overrides input) in
  opening ← lift (decide_start_successor (sp_successor_id plan) successor context succession plan
                    (sp_planned_at plan));
  instance ← open_or_verify trace (sp_successor_id plan) plan opening;
  mret (MkCeremonySuccessorOutcome instance plan).
End start_successor.
