(* ===== verification/Children.v ===== *)
(** * The children of a ceremony

    made-app/src/usecases: prepare_ceremony_children_use_case.rs with its support,
    accept_child_completion_use_case.rs, and, in made-core, the constructors of
    child identifiers, lineages and spawn plans
    (value_objects/ceremony/child_ceremony_id.rs, ceremony_lineage.rs and
    child_spawn_plan.rs).

    A step that spawns children seals a plan in the stream of its ceremony, opens
    the stream of every planned child from it, and completes; a child that ends is
    reported back to the stream of its parent.  The [n]-th reading of the clock is
    [clock n], the traces of the [n]-th call that appends are [traces n]. *)

From S2P Require Import Prelude Errors Text Values Steps Definitions Interventions Instance.
From S2P Require Import Authorization AuditLog Fold Rules Decide DecideTable DecideLineage Engine.
From S2P Require Import Equality EventStore SessionStream UseCases Succession.

(** ** Identities, lineages and plans *)

Definition child_derive `{Sha256} (group : string) (position : Z) : outcome CeremonyId :=
  CeremonyId_new ("child-" +:+
    sha256_hex ("made.child-ceremony.v1" +:+ NUL +:+ frames [group; decimal position])).

(** The depths are added in [u16], which wraps. *)
Definition lineage_validate (l : CeremonyLineage) : outcome unit :=
  ensure (Bool.eqb (lin_depth l =? ChildDepth_FIRST) (lin_root_id l == lin_parent_id l))
    (InvalidDocument "child lineage root and parent are inconsistent with depth");;
  ensure (negb (MaxChildDepth_SERVER_MAX <? (lin_depth l + lin_remaining_depth l) mod 2 ^ 16))
    (InvalidDocument "child lineage exceeds the server depth ceiling").

Definition CeremonyLineage_new (root parent : CeremonyId) (group : string)
    (position depth remaining : Z) : outcome CeremonyLineage :=
  let l := MkCeremonyLineage root parent group position depth remaining in
  lineage_validate l;; Ok l.

(** The children stand at the positions from [k] on. *)
Fixpoint positions_from (k : Z) (children : list PlannedChild) : bool :=
  match children with
  | [] => true
  | child :: children => (pc_position child =? k) && positions_from (k + 1) children
  end.

Definition planned_child_is_consistent `{Sha256} (group : string) (first : CeremonyLineage)
    (child : PlannedChild) : outcome unit :=
  expected ← child_derive group (pc_position child);
  let l := pc_lineage child in
  ensure ((pc_child_id child == expected) && (lin_group_id l == group)
          && (lin_position l =? pc_position child) && (lin_root_id l == lin_root_id first)
          && (lin_parent_id l == lin_parent_id first) && (lin_depth l =? lin_depth first)
          && (lin_remaining_depth l =? lin_remaining_depth first))
    (InvalidDocument "planned child identity or lineage is inconsistent").

Definition ChildSpawnPlan_new `{Sha256} (group : string) (coordinates : ChildSpawnCoordinates)
    (fence : StepClaimFence) (children : list PlannedChild) (max_children max_depth : Z)
    : outcome ChildSpawnPlan :=
  match children with
  | [] => Err (InvalidDocument "child spawn plan width is invalid")
  | first :: _ =>
      ensure (negb (max_children <? Z.of_nat (length children)))
        (InvalidDocument "child spawn plan width is invalid");;
      ensure (positions_from 0 children)
        (InvalidDocument "child spawn plan positions must be contiguous declaration indexes");;
      ensure (group == child_group_derive (lin_parent_id (pc_lineage first)) coordinates)
        (InvalidDocument "child spawn group id does not match its parent and coordinates");;
      try_for_each (planned_child_is_consistent group (pc_lineage first)) children;;
      Ok (MkChildSpawnPlan group coordinates fence children max_children max_depth)
  end.

(** ** The plan of a step (support.rs) *)

Definition child_group_of (i : CeremonyInstance) (group : string) : option ChildGroupState :=
  child_groups i !! group.

Definition same_spawn_request_is_sealed `{Sha256} (i : CeremonyInstance) (candidate : ChildSpawnPlan)
    (step : StepId) (fence : StepClaimFence) : outcome bool :=
  let coordinates := plan_coordinates candidate in
  ensure ((coord_step_id coordinates == step) && (plan_active_claim_fence candidate == fence)
          && (plan_group_id candidate == child_group_derive (instance_id i) coordinates))
    (InvariantViolated "child spawn request identity, coordinates, or fence are inconsistent");;
  match child_group_of i (plan_group_id candidate) with
  | None => Ok false
  | Some group =>
      let sealed := cg_plan group in
      ensure ((plan_group_id sealed == plan_group_id candidate)
              && (plan_coordinates sealed == coordinates) && (plan_active_claim_fence sealed == fence))
        (InvariantViolated "existing child spawn plan belongs to another request");;
      Ok true
  end.

Fixpoint project_inputs (parent : CeremonyContext) (inputs : list (string * string))
    (projected : gmap string Value) : outcome (gmap string Value) :=
  match inputs with
  | [] => Ok projected
  | (input, source) :: inputs =>
      value ← ok_or (context_get parent source)
                (InvalidDocument ("missing parent context input: " +:+ source));
      project_inputs parent inputs (<[input := value]> projected)
  end.

Definition project_context (parent : CeremonyContext) (inputs : gmap string string)
    : outcome CeremonyContext :=
  projected ← project_inputs parent (btree_entries inputs) ∅;
  Attributes_new projected.

Definition spawn_result (group : string) (child_ids : list CeremonyId) : outcome StepResult :=
  output ← Attributes_new {[ "child_group_id" := VString group;
                             "child_ids" := VArray (VString <$> child_ids) ]};
  StepResult_completed output.

Definition of_coordinates (c : ChildSpawnCoordinates) (record : StepExecutionRecord) : bool :=
  (rec_state_visit record =? coord_state_visit c)
  && (rec_state_iteration record =? coord_state_iteration c)
  && (rec_iteration record =? coord_step_iteration c).

Definition completed_spawn_is_same `{Sha256} (i : CeremonyInstance) (plan : ChildSpawnPlan)
    (step : StepId) (result : StepResult) : outcome bool :=
  let coordinates := plan_coordinates plan in
  ensure ((coord_step_id coordinates == step)
          && (plan_group_id plan == child_group_derive (instance_id i) coordinates))
    (InvariantViolated "child spawn plan identity differs from its parent coordinates");;
  group ← ok_or (child_group_of i (plan_group_id plan)) (NotFound "child_spawn_group");
  ensure (cg_plan group == plan)
    (InvariantViolated "child spawn group differs from its sealed plan");;
  record ← ok_or (List.find (of_coordinates coordinates)
                    (option_list (step_records i !! step) ++ step_history i step))
             (NotFound "ceremony_step_record");
  if rec_status record != Completed then Ok false else
  ensure (rec_output record == res_output result)
    (InvariantViolated "completed child spawn output differs from its sealed plan");;
  Ok true.

Definition verify_chain `{AuditSerde} (records : list AuditRecord) : outcome unit :=
  ensure (match verify records with Intact => true | Broken _ => false end)
    (InvariantViolated "child ceremony journal is not intact").

(** ** Opening and working *)

Record PrepareCeremonyChildrenInput := MkPrepareCeremonyChildrenInput {
  pci_instance_id : CeremonyId;
  pci_step_id : StepId;
  pci_claim_fence : StepClaimFence;
  pci_actor_kind : AuditActorKind;
}.

Record PrepareCeremonyChildrenOutput := MkPrepareCeremonyChildrenOutput {
  pco_instance : CeremonyInstance;
  pco_group_id : string;
  pco_child_ids : list CeremonyId;
  pco_result : StepResult;
}.

Record AcceptChildCompletionInput := MkAcceptChildCompletionInput {
  aci_child_id : CeremonyId;
  aci_terminal_event_id : string;
}.

Record AcceptChildCompletionOutput := MkAcceptChildCompletionOutput {
  aco_parent : CeremonyInstance;
  aco_completion : ChildCompletionRef;
}.

Definition child_opening `{Clock} (child_id : CeremonyId) (published : PublishedCeremonyDefinition)
    (context : CeremonyContext) (lineage : CeremonyLineage) (account_id : option string)
    (recollection : option SessionRecollection) (opened_at : Instant) : outcome (list CeremonyEvent) :=
  match account_id with
  | Some account_id =>
      decide_start_bound_budgeted_child child_id published context lineage account_id recollection opened_at
  | None => decide_start_bound_child child_id published context lineage recollection opened_at
  end.

(** The coordinates of the step in its current pass. *)
Definition spawn_coordinates (i : CeremonyInstance) (step : StepId) (record : StepExecutionRecord)
    : ChildSpawnCoordinates :=
  MkChildSpawnCoordinates step (current_state_visit i) (current_state_iteration i) (rec_iteration record).

Definition current_plan `{Sha256} (i : CeremonyInstance) (step : StepId) : option ChildSpawnPlan :=
  record ← step_records i !! step;
  cg_plan <$> child_group_of i (child_group_derive (instance_id i) (spawn_coordinates i step record)).

Definition step_actor_for_kind (i : CeremonyInstance) (d : CeremonyDefinition) (step : StepId)
    (kind : AuditActorKind) : outcome AuditActor :=
  record ← ok_or (step_records i !! step) (NotFound "ceremony_step_record");
  role ← match rec_claimed_role record with Some role => Ok role | None => role_id_for_step d step end;
  seat role kind.

Definition child_ids_of (plan : ChildSpawnPlan) : list CeremonyId := pc_child_id <$> plan_children plan.

Section children.
Context {Hsha : Sha256} {Hclk : Clock} {Hser : EvidenceSerde} {Haud : AuditSerde}.
Context (ports : Ports) (st : SessionStream) (t : TaskScope).
Context (clock : nat → Instant) (traces : nat → nat → TraceContext).

Definition scope_at (n : nat) : TaskScope := MkTaskScope (task_operation t) (traces n).

Definition child_publication (name version : string) : outcome PublishedCeremonyDefinition :=
  found ← publications_published ports name version;
  ok_or found (NotFound "published_ceremony_definition").

(** ** Planning *)

(** The loop of [build_plan] from a position on. *)
Fixpoint plan_from (parent : CeremonyInstance) (group : string) (root : CeremonyId) (depth remaining : Z)
    (now : Instant) (position : Z) (specs : list CeremonyChildSpec) : outcome (list PlannedChild) :=
  match specs with
  | [] => Ok []
  | spec :: specs =>
      ensure (position <=? u16_max)
        (InvariantViolated "child position exceeds its bounded representation");;
      child_id ← child_derive group position;
      published ← child_publication (spec_ceremony spec) (spec_version spec);
      context ← project_context (context parent) (spec_inputs spec);
      lineage ← CeremonyLineage_new root (instance_id parent) group position depth remaining;
      recollection ← recall_for ports context child_id;
      _ ← child_opening child_id published context lineage (budget_account_id parent) recollection now;
      children ← plan_from parent group root depth remaining now (position + 1) specs;
      Ok (MkPlannedChild child_id position (spec_ceremony spec) (spec_version spec) (pub_digest published)
            context lineage recollection (budget_account_id parent) now :: children)
  end.

Definition build_plan (parent : CeremonyInstance) (d : CeremonyDefinition)
    (input : PrepareCeremonyChildrenInput) (now : Instant) : outcome ChildSpawnPlan :=
  step ← ok_or (def_step d (pci_step_id input)) (NotFound "ceremony_step");
  spawn ← ok_or (step_spawn step)
            (InvariantViolated "prepare children requires a child-spawning step");
  current ← step_claim_fence parent (pci_step_id input);
  ensure (current == pci_claim_fence input)
    (InvariantViolated "child spawn preparation requires the current claim fence");;
  record ← ok_or (step_records parent !! pci_step_id input) (NotFound "ceremony_step_record");
  let coordinates := spawn_coordinates parent (pci_step_id input) record in
  let group := child_group_derive (instance_id parent) coordinates in
  let inherited :=
    match lineage parent with Some l => lin_remaining_depth l | None => MaxChildDepth_SERVER_MAX end in
  remaining ← ChildDepthBudget_for_child inherited (spawn_max_depth spawn);
  depth ← match lineage parent with Some l => ChildDepth_next (lin_depth l) | None => Ok ChildDepth_FIRST end;
  let root := match lineage parent with Some l => lin_root_id l | None => instance_id parent end in
  children ← plan_from parent group root depth remaining now 0 (spawn_children spawn);
  ChildSpawnPlan_new group coordinates (pci_claim_fence input) children (spawn_max_children spawn)
    (spawn_max_depth spawn).

(** Sealing the plan, unless another caller sealed it for the same claim. *)
Definition seal_plan (loaded : LoadedSession) (d : CeremonyDefinition)
    (input : PrepareCeremonyChildrenInput) (actor : AuditActor) (planned_at : Instant)
    : io (LoadedSession * ChildSpawnPlan) :=
  candidate ← lift (build_plan (ls_instance loaded) d input (clock 1));
  planned ← stream_execute st (scope_at 0) loaded ConflictPolicy_retry (λ session,
    sealed ← same_spawn_request_is_sealed (ls_instance session) candidate (pci_step_id input)
               (pci_claim_fence input);
    if (sealed : bool) then Ok [] else
    decided d (CmdPlanCeremonyChildren candidate planned_at) actor planned_at session);
  group ← lift (ok_or (child_group_of (ls_instance planned) (plan_group_id candidate))
                  (NotFound "child_spawn_group"));
  mret (planned, cg_plan group).

(** Deciding a command unless the step is already completed with the result the
    plan gives it. *)
Definition unless_completed (plan : ChildSpawnPlan) (step : StepId) (result : StepResult)
    (d : CeremonyDefinition) (command : CeremonyCommand) (actor : AuditActor) (now : Instant)
    (session : LoadedSession) : outcome (list AuditFact) :=
  same ← completed_spawn_is_same (ls_instance session) plan step result;
  if (same : bool) then Ok [] else decided d command actor now session.

Definition adopt_if_needed (session : LoadedSession) (d : CeremonyDefinition)
    (input : PrepareCeremonyChildrenInput) (plan : ChildSpawnPlan) (actor : AuditActor)
    : io LoadedSession :=
  record ← lift (ok_or (step_records (ls_instance session) !! pci_step_id input)
                   (NotFound "ceremony_step_record"));
  let group := child_group_derive (instance_id (ls_instance session))
                 (spawn_coordinates (ls_instance session) (pci_step_id input) record) in
  let command := CmdAdoptChildSpawnPlan group (pci_claim_fence input) (clock 2) in
  stream_execute st (scope_at 1) session ConflictPolicy_retry (λ current,
    result ← spawn_result (plan_group_id plan) (child_ids_of plan);
    unless_completed plan (pci_step_id input) result d command actor (clock 2) current).

(** ** Opening the children *)

Definition planned_opening (child : PlannedChild) : outcome (list CeremonyEvent) :=
  published ← child_publication (pc_ceremony child) (pc_version child);
  ensure (pub_digest published == pc_digest child)
    (InvariantViolated "sealed child publication digest changed");;
  child_opening (pc_child_id child) published (pc_context child) (pc_lineage child)
    (pc_budget_account_id child) (pc_recollection child) (pc_opened_at child).

Definition verify_existing_child (child_id : CeremonyId) (expected : list CeremonyEvent) : io unit :=
  records ← stream_records child_id;
  _ ← lift (verify_chain records);
  lift (ensure (negb ((length records <? length expected)%nat || negb (opens_with records expected)))
          (AlreadyExists "foreign_child_ceremony")).

Definition open_or_verify_child (n : nat) (child : PlannedChild) : io unit :=
  expected ← lift (planned_opening child);
  actor ← lift (party "made-child-spawner" ActorService);
  prog_bind (open st (scope_at n) expected actor (pc_opened_at child)) (λ answer,
    match answer with
    | Ok _ => lift (Ok tt)
    | Err (AlreadyExists _) => verify_existing_child (pc_child_id child) expected
    | Err e => lift (Err e)
    | Panic => lift Panic
    end).

Fixpoint open_children (n : nat) (children : list PlannedChild) : io unit :=
  match children with
  | [] => mret tt
  | child :: children => _ ← open_or_verify_child n child; open_children (S n) children
  end.

(** ** Completing the step *)

Definition complete_spawn_step (d : CeremonyDefinition) (input : PrepareCeremonyChildrenInput)
    (plan : ChildSpawnPlan) : io PrepareCeremonyChildrenOutput :=
  result ← lift (spawn_result (plan_group_id plan) (child_ids_of plan));
  session ← load (pci_instance_id input);
  same ← lift (completed_spawn_is_same (ls_instance session) plan (pci_step_id input) result);
  if (same : bool)
  then mret (MkPrepareCeremonyChildrenOutput (ls_instance session) (plan_group_id plan)
               (child_ids_of plan) result)
  else
    actor ← lift (step_actor_for_kind (ls_instance session) d (pci_step_id input) (pci_actor_kind input));
    let command := CmdApplyStepResult
      (MkApplyStepResult (pci_step_id input) (pci_claim_fence input) result (clock 3)) in
    completed ← stream_execute st (scope_at 2) session ConflictPolicy_retry
                  (unless_completed plan (pci_step_id input) result d command actor (clock 3));
    mret (MkPrepareCeremonyChildrenOutput (ls_instance completed) (plan_group_id plan)
            (child_ids_of plan) result).

Definition verify_completed_spawn (i : CeremonyInstance) (plan : ChildSpawnPlan) (step : StepId)
    : io PrepareCeremonyChildrenOutput :=
  _ ← open_children 3 (plan_children plan);
  result ← lift (spawn_result (plan_group_id plan) (child_ids_of plan));
  same ← lift (completed_spawn_is_same i plan step result);
  _ ← lift (ensure same (InvariantViolated "completed child spawn is not the sealed plan result"));
  mret (MkPrepareCeremonyChildrenOutput i (plan_group_id plan) (child_ids_of plan) result).

(** [PrepareCeremonyChildrenUseCase::execute]. *)
Definition prepare_ceremony_children (input : PrepareCeremonyChildrenInput)
    : io PrepareCeremonyChildrenOutput :=
  loaded ← load (pci_instance_id input);
  d ← lift (resolve_definition ports (ls_instance loaded));
  let existing := current_plan (ls_instance loaded) (pci_step_id input) in
  let completed := is_some_and (step_records (ls_instance loaded) !! pci_step_id input)
                     (λ record, rec_status record == Completed) in
  match existing, completed with
  | Some plan, true => verify_completed_spawn (ls_instance loaded) plan (pci_step_id input)
  | _, _ =>
      actor ← lift (step_actor_for_kind (ls_instance loaded) d (pci_step_id input) (pci_actor_kind input));
      '(planned, plan) ← match existing with
                         | Some plan => mret (loaded, plan)
                         | None => seal_plan loaded d input actor (clock 0)
                         end;
      adopted ← adopt_if_needed planned d input plan actor;
      group ← lift (ok_or (child_group_of (ls_instance adopted) (plan_group_id plan))
                      (NotFound "child_spawn_group"));
      _ ← open_children 3 (plan_children (cg_plan group));
      complete_spawn_step d input (cg_plan group)
  end.

(** [recover_group]: what is left to do for a sealed group, without a claim. *)
Definition recover_group (parent_id : CeremonyId) (group_id : string)
    : io (option PrepareCeremonyChildrenOutput) :=
  loaded ← load parent_id;
  d ← lift (resolve_definition ports (ls_instance loaded));
  group ← lift (ok_or (child_group_of (ls_instance loaded) group_id) (NotFound "child_spawn_group"));
  let plan := cg_plan group in
  _ ← open_children 3 (plan_children plan);
  current ← load parent_id;
  group ← lift (ok_or (child_group_of (ls_instance current) group_id) (NotFound "child_spawn_group"));
  let step := coord_step_id (plan_coordinates (cg_plan group)) in
  match step_records (ls_instance current) !! step with
  | None => mret None
  | Some record =>
      let current_group := child_group_derive (instance_id (ls_instance current))
                             (spawn_coordinates (ls_instance current) step record) in
      if current_group != group_id then mret None else
      if rec_status record == Completed
      then out ← verify_completed_spawn (ls_instance current) plan step; mret (Some out) else
      if rec_status record != InProgress then mret None else
      fence ← lift (step_claim_fence (ls_instance current) step);
      if cg_adopted_claim_fence group != fence then mret None else
      actor ← lift (step_actor_for_kind (ls_instance current) d step ActorEngine);
      result ← lift (spawn_result group_id (child_ids_of plan));
      let command := CmdApplyStepResult (MkApplyStepResult step fence result (clock 0)) in
      completed ← stream_execute st (scope_at 2) current ConflictPolicy_retry
                    (unless_completed plan step result d command actor (clock 0));
      mret (Some (MkPrepareCeremonyChildrenOutput (ls_instance completed) group_id (child_ids_of plan)
                    result))
  end.

(** ** Reporting a child that ended *)

Definition is_completion (r : AuditRecord) : bool :=
  match ar_event r with Some (EvCeremonyCompleted _ _) => true | _ => false end.

Definition verify_planned_child (planned : PlannedChild) (records : list AuditRecord) : outcome unit :=
  expected ← planned_opening planned;
  ensure (negb ((length records <? length expected)%nat || negb (opens_with records expected)))
    (InvariantViolated "child opening differs from its parent's sealed spawn plan").

(** [AcceptChildCompletionUseCase::execute]. *)
Definition accept_child_completion (input : AcceptChildCompletionInput)
    : io AcceptChildCompletionOutput :=
  records ← stream_records (aci_child_id input);
  _ ← lift (verify_chain records);
  terminal ← lift (ok_or (List.find (λ r, ar_event_id r == aci_terminal_event_id input) records)
                     (NotFound "child_ceremony_terminal"));
  _ ← lift (ensure (is_completion terminal)
              (InvariantViolated "the located child record is not its completed terminal"));
  folded ← lift (fold_records records);
  let child := ls_instance folded in
  child_definition ← lift (resolve_definition ports child);
  _ ← lift (ensure (is_completed child child_definition)
              (InvariantViolated "the child journal does not fold to a terminal ceremony"));
  lineage ← lift (ok_or (lineage child)
                    (InvariantViolated "a child completion requires sealed ceremony lineage"));
  _ ← lift (ensure (instance_id child == aci_child_id input)
              (InvariantViolated "the child journal identity differs from its locator"));
  parent ← load (lin_parent_id lineage);
  d ← lift (resolve_definition ports (ls_instance parent));
  group ← lift (ok_or (child_group_of (ls_instance parent) (lin_group_id lineage))
                  (NotFound "child_spawn_group"));
  planned ← lift (ok_or (List.find (λ planned, pc_child_id planned == aci_child_id input)
                           (plan_children (cg_plan group)))
                    (InvariantViolated "the child is not present in its parent's sealed spawn plan"));
  _ ← lift (verify_planned_child planned records);
  let completion := MkChildCompletionRef (lin_group_id lineage) (aci_child_id input)
                      (aci_terminal_event_id input) (ar_record_hash terminal) in
  actor ← lift (party "made-child-completion" ActorEngine);
  accepted ← stream_execute st (scope_at 0) parent ConflictPolicy_retry
               (decided d (CmdAcceptChildCompletion completion (clock 0)) actor (clock 0));
  mret (MkAcceptChildCompletionOutput (ls_instance accepted) completion).
End children.
