(* ===== verification/Cursors.v ===== *)
(** * The global feed and its consumers

    made-adapters/src/memory/ceremony_event_cursor.rs and the use cases of made-app
    that follow the order all streams share: publishing to a transport, pulling a
    page, and recovering children.  A consumer is a name with a cursor: the last
    position it acknowledged, the failures recorded at the next one, the lease of
    the worker at it and the positions it gave up on.

    A program calls the event store, the cursors, the clock, the source of lease
    identifiers and the transport ([FeedOp]); each call is atomic under the lock of
    what it calls.  What the outside answers, the time, an identifier and whether a
    delivery was accepted, is an [Env] for each call. *)

From S2P Require Import Prelude Errors Text Values Steps Definitions Interventions Instance.
From S2P Require Import Authorization AuditLog Fold Rules Decide DecideTable DecideLineage Engine.
From S2P Require Import EventStore SessionStream UseCases Children.

(** ** Values *)

Definition feed_name_char (a : ascii) : bool :=
  let b := byte_code a in
  ((97 <=? b) && (b <=? 122)) || ((65 <=? b) && (b <=? 90)) || ((48 <=? b) && (b <=? 57))
  || ((b =? 45) || (b =? 95) || (b =? 46) || (b =? 58) || (b =? 47))%Z.

Definition CeremonyEventConsumer_new (value : string) : outcome string :=
  let value := str_trim value in
  ensure (value != "") (EmptyField "ceremony_event_consumer");;
  ensure (Z.of_nat (String.length value) <=? 128)
    (FieldTooLong "ceremony_event_consumer" (Z.of_nat (String.length value)) 128);;
  ensure (all feed_name_char (String.list_ascii_of_string value))
    (InvalidCharacters "ceremony_event_consumer");;
  Ok value.

(** Trimmed, not empty and bounded, of any characters. *)
Definition short_text_new (field : string) (max : Z) (value : string) : outcome string :=
  let value := str_trim value in
  ensure (value != "") (EmptyField field);;
  ensure (Z.of_nat (String.length value) <=? max)
    (FieldTooLong field (Z.of_nat (String.length value)) max);;
  Ok value.

Definition CeremonyEventCursorLeaseId_new : string → outcome string :=
  short_text_new "ceremony_event_cursor_lease_id" 128.
Definition CeremonyEventQuarantineReason_new : string → outcome string :=
  short_text_new "ceremony_event_quarantine_reason" 512.

Definition CursorAttempt_NONE : Z := 0.
Definition CursorAttempt_next (a : Z) : Z := u32_saturating_add a 1.
Definition CursorAttempt_is_exhausted (a max_attempts : Z) : bool := max_attempts <=? a.

Record CeremonyEventCursorLease := MkCeremonyEventCursorLease {
  cl_consumer : string;
  cl_lease_id : string;
  cl_acknowledged_through : option Z;
  cl_attempt : Z;
  cl_leased_until : Instant;
}.

#[export] Instance CeremonyEventCursorLease_eq_dec : EqDecision CeremonyEventCursorLease.
Proof. solve_decision. Defined.

(** The position after the acknowledged ones. *)
Definition following (acknowledged : option Z) : Z :=
  match acknowledged with Some position => GlobalPosition_next position | None => GlobalPosition_FIRST end.

Definition lease_next_position (l : CeremonyEventCursorLease) : Z := following (cl_acknowledged_through l).

Record QuarantinedCeremonyEvent := MkQuarantinedCeremonyEvent {
  qe_consumer : string;
  qe_position : Z;
  qe_attempts : Z;
  qe_reason : string;
  qe_quarantined_at : Instant;
}.

(** ** The cursors in memory *)

Record CursorState := MkCursorState {
  cs_acknowledged_through : option Z;
  cs_attempt : Z;
  cs_lease : option CeremonyEventCursorLease;
  cs_quarantined : list QuarantinedCeremonyEvent;
}.

#[export] Instance CursorState_eta : Eta CursorState := λ s,
  MkCursorState (cs_acknowledged_through s) (cs_attempt s) (cs_lease s) (cs_quarantined s).

Definition CursorState_default : CursorState := MkCursorState None CursorAttempt_NONE None [].

Notation Cursors := (gmap string CursorState) (only parsing).

(** [cursors.entry(consumer).or_default()]. *)
Definition cursor_of (cs : Cursors) (consumer : string) : CursorState :=
  default CursorState_default (cs !! consumer).

Definition cursor_conflict : DomainError := Conflict "ceremony_event_cursor".

Definition holds_lease (s : CursorState) (lease : CeremonyEventCursorLease) : bool :=
  is_some_and (cs_lease s) (λ stored, cl_lease_id stored == cl_lease_id lease).

Definition require_lease (s : CursorState) (lease : CeremonyEventCursorLease) (position : Z)
    : outcome unit :=
  ensure (negb (negb (holds_lease s lease) || negb (position =? lease_next_position lease)))
    cursor_conflict.

Definition cursor_position (cs : Cursors) (consumer : string) : outcome (option Z) :=
  Ok (state ← cs !! consumer; cs_acknowledged_through state).

Definition cursor_lease {Hclk : Clock} (cs : Cursors) (consumer lease_id : string) (now : Instant)
    (duration : Z) : outcome (option CeremonyEventCursorLease) * Cursors :=
  let state := cursor_of cs consumer in
  if is_some_and (cs_lease state) (λ lease, now <? cl_leased_until lease)
  then (Ok None, <[consumer := state]> cs) else
  match checked_add_ms now duration with
  | None => (Panic, <[consumer := state]> cs)
  | Some until =>
      let lease := MkCeremonyEventCursorLease consumer lease_id (cs_acknowledged_through state)
                     (cs_attempt state) until in
      (Ok (Some lease), <[consumer := state <| cs_lease := Some lease |>]> cs)
  end.

Definition cursor_acknowledge (cs : Cursors) (consumer : string) (through : Z)
    : outcome unit * Cursors :=
  let state := cursor_of cs consumer in
  if is_some_and (cs_acknowledged_through state) (λ current, through <=? current)
  then (Ok tt, <[consumer := state]> cs)
  else if is_some (cs_lease state) then (Err cursor_conflict, <[consumer := state]> cs)
  else (Ok tt, <[consumer := state <| cs_acknowledged_through := Some through |>
                                   <| cs_attempt := CursorAttempt_NONE |>]> cs).

(** What the holder of a lease does to its cursor, given the lease and position
    are right. *)
Definition with_lease (cs : Cursors) (lease : CeremonyEventCursorLease) (position : Z)
    (change : CursorState → CursorState) : outcome unit * Cursors :=
  let state := cursor_of cs (cl_consumer lease) in
  match require_lease state lease position with
  | Ok _ => (Ok tt, <[cl_consumer lease := change state]> cs)
  | Err e => (Err e, <[cl_consumer lease := state]> cs)
  | Panic => (Panic, <[cl_consumer lease := state]> cs)
  end.

Definition acknowledge_state (through : Z) (s : CursorState) : CursorState :=
  s <| cs_acknowledged_through := Some through |> <| cs_attempt := CursorAttempt_NONE |>
    <| cs_lease := None |>.

Definition cursor_acknowledge_lease (cs : Cursors) (lease : CeremonyEventCursorLease) (through : Z)
    : outcome unit * Cursors :=
  with_lease cs lease through (acknowledge_state through).

Definition fail_state (s : CursorState) : CursorState :=
  s <| cs_attempt := CursorAttempt_next (cs_attempt s) |> <| cs_lease := None |>.

Definition cursor_mark_failed (cs : Cursors) (lease : CeremonyEventCursorLease) (position : Z)
    : outcome unit * Cursors :=
  with_lease cs lease position fail_state.

Definition quarantine_state (consumer : string) (position : Z) (reason : string) (now : Instant)
    (s : CursorState) : CursorState :=
  acknowledge_state position (s <| cs_quarantined := cs_quarantined s
    ++ [MkQuarantinedCeremonyEvent consumer position (cs_attempt s) reason now] |>).

Definition cursor_quarantine (cs : Cursors) (lease : CeremonyEventCursorLease) (position : Z)
    (reason : string) (now : Instant) : outcome unit * Cursors :=
  with_lease cs lease position (quarantine_state (cl_consumer lease) position reason now).

Definition cursor_release (cs : Cursors) (lease : CeremonyEventCursorLease) : outcome unit * Cursors :=
  let state := cursor_of cs (cl_consumer lease) in
  if holds_lease state lease
  then (Ok tt, <[cl_consumer lease := state <| cs_lease := None |>]> cs)
  else (Err cursor_conflict, <[cl_consumer lease := state]> cs).

Definition cursor_quarantined (cs : Cursors) (consumer : string) : outcome (list QuarantinedCeremonyEvent) :=
  Ok (match cs !! consumer with Some state => cs_quarantined state | None => [] end).

(** ** Programs *)

(** The calls of a program that follows the feed.  A delivery names the lease it
    is made under, which the transport is not told; an acknowledgement names the
    record that was recovered and a failure the error of the recovery, which the
    cursor is not told, and [None] says that the record was given to the transport. *)
Inductive FeedOp : Type → Type :=
| FeedStore {A} (op : StoreOp A) : FeedOp A
| FeedNow : FeedOp Instant
| FeedUuid : FeedOp string
| FeedSleep (millis : Z) : FeedOp unit
| FeedDeliver (lease : CeremonyEventCursorLease) (record : PositionedRecord) : FeedOp (outcome unit)
| CurPosition (consumer : string) : FeedOp (outcome (option Z))
| CurLease (consumer lease_id : string) (now : Instant) (duration : Z)
    : FeedOp (outcome (option CeremonyEventCursorLease))
| CurAcknowledge (consumer : string) (through : Z) : FeedOp (outcome unit)
| CurAcknowledgeLease (lease : CeremonyEventCursorLease) (through : Z) (recovered : option PositionedRecord)
    : FeedOp (outcome unit)
| CurMarkFailed (lease : CeremonyEventCursorLease) (position : Z) (recovery_error : option DomainError)
    : FeedOp (outcome unit)
| CurQuarantine (lease : CeremonyEventCursorLease) (position : Z) (reason : string) (now : Instant)
    : FeedOp (outcome unit)
| CurRelease (lease : CeremonyEventCursorLease) : FeedOp (outcome unit)
| CurQuarantined (consumer : string) : FeedOp (outcome (list QuarantinedCeremonyEvent)).

Inductive fprog (A : Type) : Type :=
| FRet (a : A)
| FVis {B : Type} (op : FeedOp B) (k : B → fprog A).

Arguments FRet {A} a.
Arguments FVis {A B} op k.

Fixpoint fprog_bind {A B} (p : fprog A) (f : A → fprog B) : fprog B :=
  match p with
  | FRet a => f a
  | FVis op k => FVis op (λ b, fprog_bind (k b) f)
  end.

Definition fio (A : Type) : Type := fprog (outcome A).

#[export] Instance fio_ret : MRet fio := λ A a, FRet (Ok a).
#[export] Instance fio_bind : MBind fio := λ A B f p,
  fprog_bind p (λ r, match r with Ok a => f a | Err e => FRet (Err e) | Panic => FRet Panic end).

Definition flift {A} (r : outcome A) : fio A := FRet r.
Definition fcall {A} (op : FeedOp (outcome A)) : fio A := FVis op FRet.
Definition fask {A} (op : FeedOp A) : fio A := FVis op (λ a, FRet (Ok a)).

(** A program of the session services among them. *)
Fixpoint embed {A} (p : prog A) : fprog A :=
  match p with
  | Ret a => FRet a
  | Vis op k => FVis (FeedStore op) (λ b, embed (k b))
  end.

(** ** Publishing (publish_ceremony_events_use_case.rs) *)

Definition LEASE_DURATION : Z := 30000.
Definition MAX_ATTEMPTS : Z := 3.
Definition RETRY_BACKOFF_MILLIS : Z := 100.
Definition MAX_RETRY_BACKOFF_MILLIS : Z := 400.

Record PublishCeremonyEventsRound := MkPublishCeremonyEventsRound {
  pub_delivered : Z;
  pub_retried : Z;
  pub_failed : Z;
  pub_quarantined : Z;
  pub_busy : bool;
}.

#[export] Instance PublishCeremonyEventsRound_eta : Eta PublishCeremonyEventsRound := λ r,
  MkPublishCeremonyEventsRound (pub_delivered r) (pub_retried r) (pub_failed r) (pub_quarantined r)
    (pub_busy r).

Definition PublishCeremonyEventsRound_default : PublishCeremonyEventsRound :=
  MkPublishCeremonyEventsRound 0 0 0 0 false.

Definition pub_confirmed (r : PublishCeremonyEventsRound) : Z := pub_delivered r + pub_quarantined r.

(** The loop of [execute] with [n] positions left. *)
Fixpoint publish_loop (n : nat) (consumer : string) (one : Z) (round : PublishCeremonyEventsRound)
    : fio PublishCeremonyEventsRound :=
  match n with
  | O => mret round
  | S n =>
      uuid ← fask FeedUuid;
      lease_id ← flift (CeremonyEventCursorLeaseId_new uuid);
      now ← fask FeedNow;
      taken ← fcall (CurLease consumer lease_id now LEASE_DURATION);
      match taken with
      | None => mret (round <| pub_busy := true |>)
      | Some lease =>
          page ← fcall (FeedStore (OpReadAll (lease_next_position lease) one));
          match head page with
          | None => _ ← fcall (CurRelease lease); mret round
          | Some positioned =>
              let position := pr_position positioned in
              if CursorAttempt_is_exhausted (cl_attempt lease) MAX_ATTEMPTS then
                reason ← flift (CeremonyEventQuarantineReason_new "delivery failed three times");
                at_ ← fask FeedNow;
                _ ← fcall (CurQuarantine lease position reason at_);
                publish_loop n consumer one (round <| pub_quarantined := pub_quarantined round + 1 |>)
              else
                FVis (FeedDeliver lease positioned) (λ answer,
                  match answer with
                  | Ok _ =>
                      _ ← fcall (CurAcknowledgeLease lease position None);
                      publish_loop n consumer one (round <| pub_delivered := pub_delivered round + 1 |>)
                  | Err _ =>
                      _ ← fcall (CurMarkFailed lease position None);
                      mret (round <| pub_failed := pub_failed round + 1 |>)
                  | Panic => FRet Panic
                  end)
          end
      end
  end.

Definition publish_ceremony_events (consumer : string) (limit : Z) : fio PublishCeremonyEventsRound :=
  one ← flift (CeremonyEventPageLimit_new 1);
  publish_loop (Z.to_nat limit) consumer one PublishCeremonyEventsRound_default.

Definition retry_backoff (attempt : Z) : Z :=
  let shift := Z.min (Z.max 0 (attempt - 1)) 2 in
  Z.min (Z.min u64_max (RETRY_BACKOFF_MILLIS * Z.shiftl 1 shift)) MAX_RETRY_BACKOFF_MILLIS.

(** The [while] loop of [execute_automatically]; [None] when the fuel runs out. *)
Fixpoint publish_automatically (fuel : nat) (consumer : string) (limit : Z)
    (summary : PublishCeremonyEventsRound) (failures_without_progress : Z)
    : fprog (option (outcome PublishCeremonyEventsRound)) :=
  if negb (pub_confirmed summary <? limit) then FRet (Some (Ok summary)) else
  match fuel with
  | O => FRet None
  | S fuel =>
      match CeremonyEventPageLimit_new (limit - pub_confirmed summary) with
      | Err e => FRet (Some (Err e))
      | Panic => FRet (Some Panic)
      | Ok remaining =>
          fprog_bind (publish_ceremony_events consumer remaining) (λ answer,
            match answer with
            | Err e => FRet (Some (Err e))
            | Panic => FRet (Some Panic)
            | Ok round =>
                let summary := summary <| pub_delivered := pub_delivered summary + pub_delivered round |>
                  <| pub_quarantined := pub_quarantined summary + pub_quarantined round |>
                  <| pub_busy := pub_busy summary || pub_busy round |> in
                let failures :=
                  if 0 <? pub_confirmed round then 0 else failures_without_progress in
                if 0 <? pub_failed round then
                  let summary := summary <| pub_retried := pub_retried summary + pub_failed round |> in
                  let failures := u32_saturating_add failures 1 in
                  if MAX_ATTEMPTS <? failures then
                    FRet (Some (Err (InvariantViolated
                      "automatic ceremony event publication made no retry progress")))
                  else FVis (FeedSleep (retry_backoff failures)) (λ _,
                    publish_automatically fuel consumer limit summary failures)
                else if pub_busy round || (pub_confirmed round <? remaining) then FRet (Some (Ok summary))
                else publish_automatically fuel consumer limit summary failures
            end)
      end
  end.

(** Every turn of the loop confirms a position or counts a failure, of which
    there are at most three in a row. *)
Definition automatic_turns (limit : Z) : nat := Z.to_nat (4 * limit + 3).

Definition execute_automatically (consumer : string) (limit : Z) : fio PublishCeremonyEventsRound :=
  fprog_bind (publish_automatically (automatic_turns limit) consumer limit
                PublishCeremonyEventsRound_default 0) (λ answer, FRet (default Panic answer)).

(** ** Pulling (pull_ceremony_events_use_case.rs) *)

Record PullCeremonyEventsInput := MkPullCeremonyEventsInput {
  pull_consumer : string;
  pull_limit : Z;
  pull_acknowledge_through : option Z;
}.

Record PullCeremonyEventsOutput := MkPullCeremonyEventsOutput {
  pulled_records : list PositionedRecord;
  pulled_acknowledged_through : option Z;
}.

Definition require_existing_position (through : Z) : fio unit :=
  one ← flift (CeremonyEventPageLimit_new 1);
  page ← fcall (FeedStore (OpReadAll through one));
  flift (ensure (is_some_and (head page) (λ record, pr_position record =? through))
           (NotFound "ceremony_event_global_position")).

Definition pull_ceremony_events (input : PullCeremonyEventsInput) : fio PullCeremonyEventsOutput :=
  _ ← match pull_acknowledge_through input with
      | Some through =>
          _ ← require_existing_position through;
          fcall (CurAcknowledge (pull_consumer input) through)
      | None => mret tt
      end;
  acknowledged ← fcall (CurPosition (pull_consumer input));
  records ← fcall (FeedStore (OpReadAll (following acknowledged) (pull_limit input)));
  mret (MkPullCeremonyEventsOutput records acknowledged).

(** ** Recovering children (recover_ceremony_children_use_case.rs) *)

Inductive RecoveryEffect := PlanRecovered | CompletionAccepted | Skipped.

Record RecoverCeremonyChildrenRound := MkRecoverCeremonyChildrenRound {
  rec_recovered_plans : Z;
  rec_accepted_completions : Z;
  rec_skipped : Z;
  rec_failed : Z;
  rec_busy : bool;
}.

#[export] Instance RecoverCeremonyChildrenRound_eta : Eta RecoverCeremonyChildrenRound := λ r,
  MkRecoverCeremonyChildrenRound (rec_recovered_plans r) (rec_accepted_completions r) (rec_skipped r)
    (rec_failed r) (rec_busy r).

Definition RecoverCeremonyChildrenRound_default : RecoverCeremonyChildrenRound :=
  MkRecoverCeremonyChildrenRound 0 0 0 0 false.

Definition rec_acknowledged (r : RecoverCeremonyChildrenRound) : Z :=
  rec_recovered_plans r + rec_accepted_completions r + rec_skipped r.

Definition count_effect (effect : RecoveryEffect) (r : RecoverCeremonyChildrenRound)
    : RecoverCeremonyChildrenRound :=
  match effect with
  | PlanRecovered => r <| rec_recovered_plans := rec_recovered_plans r + 1 |>
  | CompletionAccepted => r <| rec_accepted_completions := rec_accepted_completions r + 1 |>
  | Skipped => r <| rec_skipped := rec_skipped r + 1 |>
  end.

Definition recovery_requires_authorization (record : AuditRecord) : bool :=
  match ar_event record with
  | Some (EvChildSpawnPlanned _ _) | Some (EvChildSpawnPlanAdopted _ _ _) | Some (EvCeremonyCompleted _ _) =>
      true
  | _ => false
  end.

(** What the service is wired to.  The continuation, which mints the evidence a
    recovery works under, is another service; the clock and the traces of its
    [n]-th position are arguments, as elsewhere. *)
Record Recovery := MkRecovery {
  rv_consumer : string;
  rv_task : TaskScope;
  rv_clock : nat → nat → Instant;
  rv_traces : nat → nat → nat → TraceContext;
  rv_continuation : option (AuditRecord → string → io (AuthenticatedPrincipal * AuthorizationEvidence));
}.

Section recovery.
Context {Hsha : Sha256} {Hclk : Clock} {Hser : EvidenceSerde} {Haud : AuditSerde}.
Context (ports : Ports) (st : SessionStream) (rv : Recovery).

Definition process_authorized (t : TaskScope) (n : nat) (record : AuditRecord) : io RecoveryEffect :=
  match ar_event record with
  | Some (EvChildSpawnPlanned plan _) =>
      _ ← recover_group ports st t (rv_clock rv n) (rv_traces rv n) (ar_ceremony_id record)
            (plan_group_id plan);
      mret PlanRecovered
  | Some (EvChildSpawnPlanAdopted group _ _) =>
      _ ← recover_group ports st t (rv_clock rv n) (rv_traces rv n) (ar_ceremony_id record) group;
      mret PlanRecovered
  | Some (EvCeremonyCompleted _ _) =>
      child ← load (ar_ceremony_id record);
      if negb (is_some (lineage (ls_instance child))) then mret Skipped else
      _ ← accept_child_completion ports st t (rv_clock rv n) (rv_traces rv n)
            (MkAcceptChildCompletionInput (ar_ceremony_id record) (ar_event_id record));
      mret CompletionAccepted
  | _ => mret Skipped
  end.

(** A completed ceremony that nobody spawned. *)
Definition completed_root (record : AuditRecord) : io bool :=
  match ar_event record with
  | Some (EvCeremonyCompleted _ _) =>
      loaded ← load (ar_ceremony_id record);
      mret (negb (is_some (lineage (ls_instance loaded))))
  | _ => mret false
  end.

Definition process_record (n : nat) (record : AuditRecord) (lease_id : string) : io RecoveryEffect :=
  root ← completed_root record;
  if (root : bool) then mret Skipped else
  match rv_continuation rv with
  | Some continuation =>
      if negb (is_some (task_operation (rv_task rv))) && recovery_requires_authorization record then
        request_id ← lift (AuthorizationRequestId_new
          ("ceremony-recovery:" +:+ ar_event_id record +:+ ":" +:+ lease_id));
        operation ← continuation record request_id;
        process_authorized (MkTaskScope (Some operation) (task_trace (rv_task rv))) n record
      else process_authorized (rv_task rv) n record
  | None => process_authorized (rv_task rv) n record
  end.

(** An error is only logged. *)
Definition release_after_error (lease : CeremonyEventCursorLease) (answer : outcome RecoverCeremonyChildrenRound)
    : fio RecoverCeremonyChildrenRound :=
  FVis (CurRelease lease) (λ released, match released with Panic => FRet Panic | _ => FRet answer end).

(** The loop of [execute] with [n] positions left. *)
Fixpoint recover_loop (n : nat) (one : Z) (round : RecoverCeremonyChildrenRound)
    : fio RecoverCeremonyChildrenRound :=
  match n with
  | O => mret round
  | S n =>
      uuid ← fask FeedUuid;
      lease_id ← flift (CeremonyEventCursorLeaseId_new uuid);
      now ← fask FeedNow;
      taken ← fcall (CurLease (rv_consumer rv) lease_id now LEASE_DURATION);
      match taken with
      | None => mret (round <| rec_busy := true |>)
      | Some lease =>
          FVis (FeedStore (OpReadAll (lease_next_position lease) one)) (λ answer,
            match answer with
            | Panic => FRet Panic
            | Err e => release_after_error lease (Err e)
            | Ok page =>
                match head page with
                | None => _ ← fcall (CurRelease lease); mret round
                | Some positioned =>
                    fprog_bind (embed (process_record n (pr_record positioned) (cl_lease_id lease))) (λ effect,
                      match effect with
                      | Panic => FRet Panic
                      | Err e =>
                          FVis (CurMarkFailed lease (pr_position positioned) (Some e)) (λ marked,
                            match marked with
                            | Panic => FRet Panic
                            | Err e => release_after_error lease (Err e)
                            | Ok _ => mret (M := fio) (round <| rec_failed := rec_failed round + 1 |>)
                            end)
                      | Ok effect =>
                          FVis (CurAcknowledgeLease lease (pr_position positioned) (Some positioned)) (λ acknowledged,
                            match acknowledged with
                            | Panic => FRet Panic
                            | Err e => release_after_error lease (Err e)
                            | Ok _ => recover_loop n one (count_effect effect round)
                            end)
                      end)
                end
            end)
      end
  end.

Definition recover_ceremony_children (limit : Z) : fio RecoverCeremonyChildrenRound :=
  one ← flift (CeremonyEventPageLimit_new 1);
  recover_loop (Z.to_nat limit) one RecoverCeremonyChildrenRound_default.
End recovery.
