(* ===== verification/Deliberation.v ===== *)
(** * Deliberations and councils

    made-core/src: entities/deliberation.rs with its phases, proposals,
    validation outcomes and ranked outcomes; entities/council.rs; the task with
    its constraints, metadata and external context; the values score, rounds,
    number of agents, duration and output contract; and the scoring policies of
    made-adapters/src/scoring with winner_selection.rs of made-app.

    A score is a binary64 number in the unit interval: the private field of
    [Score] can only hold what [Score::new] accepted, so the record carries the
    proof.  The numbers are those of [SpecFloat]. *)

From Stdlib Require Import SpecFloat Eqdep_dec.
From S2P Require Import Prelude Errors Text Values Steps.

(** ** Numbers *)

(** [f64] with its order, [usize as f64] and division. *)
Definition f64_zero : spec_float := S754_zero false.
Definition f64_one : spec_float := S754_finite false 4503599627370496 (-52).
Definition is_finite (v : spec_float) : bool :=
  match v with S754_zero _ | S754_finite _ _ _ => true | _ => false end.
Definition f64_of_usize (n : Z) : spec_float := binary_normalize 53 1024 n 0 false.
Definition f64_div (a b : spec_float) : spec_float := SFdiv 53 1024 a b.

(** [f64::clamp(0.0, 1.0)]: a NaN stays. *)
Definition f64_clamp_unit (v : spec_float) : spec_float :=
  let v := if SFltb v f64_zero then f64_zero else v in
  if SFltb f64_one v then f64_one else v.

Definition in_unit (v : spec_float) : bool :=
  is_finite v && SFleb f64_zero v && SFleb v f64_one.

Record Score := MkScore { score_get : spec_float; score_in_unit : in_unit score_get = true }.

#[export] Instance Score_eq_dec : EqDecision Score.
Proof.
  refine (λ a b, cast_if (base.decide (score_get a = score_get b))).
  - abstract (destruct a as [v H], b as [v' H']; cbn in *; subst;
              f_equal; apply UIP_dec; intros x y; destruct (Bool.bool_dec x y); auto).
  - abstract (congruence).
Defined.

Definition Score_MIN : Score := MkScore f64_zero eq_refl.
Definition Score_MAX : Score := MkScore f64_one eq_refl.

Definition Score_new (value : spec_float) : outcome Score :=
  match in_unit value as b return in_unit value = b → outcome Score with
  | true => λ H, Ok (MkScore value H)
  | false => λ _, Err (OutOfRangeF64 "score" value f64_zero f64_one)
  end eq_refl.

(** [Ord for Score]. *)
Definition Score_cmp (a b : Score) : comparison :=
  default Eq (SFcompare (score_get a) (score_get b)).

(** [Rounds], [NumAgents], [DurationMs]. *)
Definition MAX_ROUNDS : Z := 16.
Definition Rounds_new (value : Z) : outcome Z :=
  ensure (value <=? MAX_ROUNDS) (OutOfRange "rounds" value 0 MAX_ROUNDS);; Ok value.
Definition Rounds_default : Z := 1.

Definition MAX_NUM_AGENTS : Z := 64.
Definition NumAgents_new (value : Z) : outcome Z :=
  ensure (value <=? MAX_NUM_AGENTS) (OutOfRange "num_agents" value 1 MAX_NUM_AGENTS);;
  ensure (negb (value =? 0)) (MustBeNonZero "num_agents");;
  Ok value.

Definition DurationMs_saturating_add (a b : Z) : Z := Z.min u64_max (a + b).

(** ** Identifiers *)

Notation TaskId := string (only parsing).
Notation ProposalId := string (only parsing).
Notation AgentId := string (only parsing).
Notation CouncilId := string (only parsing).
Notation Specialty := string (only parsing).

Definition TaskId_new : string → outcome string := bounded_text_new "task_id" 256.
Definition ProposalId_new : string → outcome string := bounded_text_new "proposal_id" 256.

(** ** Tasks *)

(** [validate_text] of the contract and of the external context. *)
Definition validate_text (value field : string) (max_len : Z) : outcome string :=
  let trimmed := str_trim value in
  ensure (trimmed != "") (EmptyField field);;
  ensure (Z.of_nat (String.length trimmed) <=? max_len)
    (FieldTooLong field (Z.of_nat (String.length trimmed)) max_len);;
  Ok trimmed.

Record OutputFieldRule := MkOutputFieldRule {
  rule_required : bool;
  rule_allowed_string_values : gset string;
}.

Record SemanticSupportRule := MkSemanticSupportRule {
  support_min_confidence : Z;
  support_bodies : gmap string string;
}.

Record EvidenceGroundingRule := MkEvidenceGroundingRule {
  grounding_claims_field : string;
  grounding_refs_field : string;
  grounding_allowed_refs : gset string;
  grounding_semantic_support : option SemanticSupportRule;
}.

Inductive OutputFormat := JsonObject.

Record OutputContract := MkOutputContract {
  oc_contract_id : string;
  oc_format : OutputFormat;
  oc_fields : gmap string OutputFieldRule;
  oc_json_schema : string;
  oc_evidence_grounding : option EvidenceGroundingRule;
}.

Record TaskConstraints := MkTaskConstraints {
  tc_rubric : gmap string Value;
  tc_rounds : Z;
  tc_num_agents : option Z;
  tc_deadline : option Z;
  tc_output_contract : option OutputContract;
}.

#[export] Instance TaskConstraints_eta : Eta TaskConstraints := λ c,
  MkTaskConstraints (tc_rubric c) (tc_rounds c) (tc_num_agents c) (tc_deadline c)
    (tc_output_contract c).

Definition TaskConstraints_default : TaskConstraints :=
  MkTaskConstraints ∅ Rounds_default None None None.

Definition with_output_contract (c : TaskConstraints) (contract : OutputContract) : TaskConstraints :=
  c <| tc_output_contract := Some contract |>.

Record ContextSummary := MkContextSummary { cs_text : string; cs_attributes : Attributes }.

Record ContextItem := MkContextItem {
  ci_item_id : string;
  ci_kind : string;
  ci_title : string;
  ci_narrative : option string;
  ci_attributes : Attributes;
  ci_reference_ids : list string;
}.

Record ContextReference := MkContextReference {
  cr_reference_id : string;
  cr_uri : string;
  cr_title : option string;
  cr_media_type : option string;
  cr_attributes : Attributes;
}.

Record ExternalContextBundle := MkExternalContextBundle {
  xb_bundle_id : string;
  xb_schema_version : string;
  xb_summary : option ContextSummary;
  xb_items : list ContextItem;
  xb_references : list ContextReference;
  xb_metadata : Attributes;
}.

Record TaskMetadata := MkTaskMetadata {
  tm_source_event_id : option string;
  tm_causation_id : option string;
  tm_correlation_id : option string;
  tm_council_contract_id : option string;
  tm_output_contract_id : option string;
  tm_execution_profile : Attributes;
}.

Record Task := MkTask {
  task_id : TaskId;
  task_specialty : Specialty;
  task_description : string;
  task_constraints : TaskConstraints;
  task_attributes : Attributes;
  task_external_context : option ExternalContextBundle;
  task_metadata : TaskMetadata;
}.

(** ** Proposals and their validation *)

Record Proposal := MkProposal {
  proposal_id : ProposalId;
  proposal_author : AgentId;
  proposal_specialty : Specialty;
  proposal_content : string;
  proposal_attributes : Attributes;
  proposal_created_at : Instant;
  proposal_updated_at : Instant;
  proposal_revision_count : Z;
}.

#[export] Instance Proposal_eta : Eta Proposal := λ p,
  MkProposal (proposal_id p) (proposal_author p) (proposal_specialty p) (proposal_content p)
    (proposal_attributes p) (proposal_created_at p) (proposal_updated_at p)
    (proposal_revision_count p).

Definition Proposal_new (id : ProposalId) (author : AgentId) (specialty : Specialty)
    (content : string) (attributes : Attributes) (now : Instant) : outcome Proposal :=
  ensure (str_trim content != "") (EmptyField "proposal.content");;
  Ok (MkProposal id author specialty content attributes now now 0).

Definition proposal_revise (p : Proposal) (content : string) (now : Instant) : outcome Proposal :=
  ensure (str_trim content != "") (EmptyField "proposal.content");;
  Ok (p <| proposal_content := content |> <| proposal_updated_at := now |>
        <| proposal_revision_count := u32_saturating_add (proposal_revision_count p) 1 |>).

Record ValidatorReport := MkValidatorReport {
  report_kind : string;
  report_passed : bool;
  report_summary : string;
  report_details : Attributes;
}.

Definition ValidatorReport_new (kind : string) (passed : bool) (summary : string)
    (details : Attributes) : outcome ValidatorReport :=
  ensure (str_trim kind != "") (EmptyField "validator_report.kind");;
  Ok (MkValidatorReport kind passed summary details).

Record ValidationOutcome := MkValidationOutcome {
  vo_score : Score;
  vo_reports : list ValidatorReport;
}.

Definition all_passed (o : ValidationOutcome) : bool := all report_passed (vo_reports o).
Definition failures (o : ValidationOutcome) : Z :=
  Z.of_nat (count (λ r, negb (report_passed r)) (vo_reports o)).

Record RankedOutcome := MkRankedOutcome {
  ro_proposal : Proposal;
  ro_outcome : ValidationOutcome;
  ro_rank : Z;
}.

(** ** The deliberation *)

Inductive DeliberationPhase := Proposing | Revising | Validating | Scoring | Completed.

#[export] Instance DeliberationPhase_eq_dec : EqDecision DeliberationPhase.
Proof. solve_decision. Defined.

Definition phase_name (p : DeliberationPhase) : string :=
  match p with
  | Proposing => "Proposing"
  | Revising => "Revising"
  | Validating => "Validating"
  | Scoring => "Scoring"
  | Completed => "Completed"
  end.

Definition phase_next (p : DeliberationPhase) : option DeliberationPhase :=
  match p with
  | Proposing => Some Revising
  | Revising => Some Validating
  | Validating => Some Scoring
  | Scoring => Some Completed
  | Completed => None
  end.

Record Deliberation := MkDeliberation {
  dl_task_id : TaskId;
  dl_specialty : Specialty;
  dl_rounds_budget : Z;
  dl_phase : DeliberationPhase;
  dl_proposals : gmap string Proposal;
  dl_outcomes : gmap string ValidationOutcome;
  dl_ranking : list ProposalId;
  dl_started_at : Instant;
  dl_completed_at : option Instant;
}.

#[export] Instance Deliberation_eta : Eta Deliberation := λ d,
  MkDeliberation (dl_task_id d) (dl_specialty d) (dl_rounds_budget d) (dl_phase d) (dl_proposals d)
    (dl_outcomes d) (dl_ranking d) (dl_started_at d) (dl_completed_at d).

Definition Deliberation_start (task : TaskId) (specialty : Specialty) (rounds_budget : Z)
    (now : Instant) : Deliberation :=
  MkDeliberation task specialty rounds_budget Proposing ∅ ∅ [] now None.

Definition require_phase (d : Deliberation) (expected : DeliberationPhase) : outcome unit :=
  ensure (dl_phase d == expected) (InvalidTransition (phase_name (dl_phase d)) (phase_name expected)).

Definition add_proposal (d : Deliberation) (p : Proposal) : outcome Deliberation :=
  require_phase d Proposing;;
  ensure (negb (is_some (dl_proposals d !! proposal_id p))) (AlreadyExists "deliberation.proposal");;
  Ok (d <| dl_proposals := <[proposal_id p := p]> (dl_proposals d) |>).

Definition revise_proposal (d : Deliberation) (id : ProposalId) (content : string) (now : Instant)
    : outcome Deliberation :=
  require_phase d Revising;;
  p ← ok_or (dl_proposals d !! id) (NotFound "deliberation.proposal");
  p ← proposal_revise p content now;
  Ok (d <| dl_proposals := <[id := p]> (dl_proposals d) |>).

Definition attach_outcome (d : Deliberation) (id : ProposalId) (o : ValidationOutcome)
    : outcome Deliberation :=
  require_phase d Validating;;
  ensure (is_some (dl_proposals d !! id)) (NotFound "deliberation.proposal");;
  ensure (negb (is_some (dl_outcomes d !! id))) (AlreadyExists "deliberation.outcome");;
  Ok (d <| dl_outcomes := <[id := o]> (dl_outcomes d) |>).

Definition advance (d : Deliberation) : outcome Deliberation :=
  next ← ok_or (phase_next (dl_phase d)) (InvalidTransition "Completed" "Completed");
  match dl_phase d, next with
  | Proposing, Revising =>
      ensure (negb (Nat.eqb (size (dl_proposals d)) 0))
        (InvariantViolated "cannot leave Proposing without proposals")
  | Validating, Scoring =>
      ensure (Nat.eqb (size (dl_outcomes d)) (size (dl_proposals d)))
        (InvariantViolated "every proposal must have an outcome before Scoring")
  | _, _ => Ok tt
  end;;
  Ok (d <| dl_phase := next |>).

Definition RankedTuple : Type := ProposalId * Proposal * ValidationOutcome.

Definition materialize_ranked_tuples (d : Deliberation) (ranking : list ProposalId)
    : outcome (list RankedTuple) :=
  try_map (λ id,
    p ← ok_or (dl_proposals d !! id) (InvariantViolated "missing proposal in ranking");
    o ← ok_or (dl_outcomes d !! id) (InvariantViolated "missing outcome at Scoring");
    Ok (id, p, o)) ranking.

(** The comparator of [complete]: the higher score first, then the lower id. *)
Definition rank_cmp (a b : RankedTuple) : comparison :=
  match Score_cmp (vo_score b.2) (vo_score a.2) with
  | Eq => String.compare a.1.1 b.1.1
  | c => c
  end.

Definition rank_le (a b : RankedTuple) : Prop := rank_cmp a b ≠ Gt.

#[export] Instance rank_le_dec : RelDecision rank_le.
Proof. intros a b. unfold rank_le. solve_decision. Defined.

(** [.enumerate().map(RankedOutcome::new)]. *)
Fixpoint ranked_from (i : Z) (l : list RankedTuple) : list RankedOutcome :=
  match l with
  | [] => []
  | (_, p, o) :: l => MkRankedOutcome p o (Z.min u32_max i) :: ranked_from (i + 1) l
  end.

Definition complete (d : Deliberation) (now : Instant) : outcome (list RankedOutcome * Deliberation) :=
  require_phase d Scoring;;
  ranked ← materialize_ranked_tuples d (btree_keys (dl_proposals d));
  let ranked := merge_sort rank_le ranked in
  Ok (ranked_from 0 ranked,
      d <| dl_ranking := ranked.*1.*1 |> <| dl_phase := Completed |> <| dl_completed_at := Some now |>).

Definition reprioritize (d : Deliberation) (ranking : list ProposalId)
    : outcome (list RankedOutcome * Deliberation) :=
  require_phase d Completed;;
  ensure (Nat.eqb (length ranking) (length (dl_ranking d))
          && bool_decide (list_to_set (dl_ranking d) = (list_to_set ranking : gset string)))
    (InvariantViolated "reprioritized ranking must contain every completed proposal exactly once");;
  ranked ← materialize_ranked_tuples d ranking;
  Ok (ranked_from 0 ranked, d <| dl_ranking := ranking |>).

Definition ranked_outcomes (d : Deliberation) : outcome (list RankedOutcome) :=
  require_phase d Completed;;
  ranked ← materialize_ranked_tuples d (dl_ranking d);
  Ok (ranked_from 0 ranked).

(** The milliseconds between start and completion; zero when negative or too
    many for a [u64]. *)
Definition deliberation_duration (d : Deliberation) : option Z :=
  (λ end_, let millis := Z.quot (end_ - dl_started_at d) 1000000 in
           if (0 <=? millis) && (millis <=? u64_max) then millis else 0)
  <$> dl_completed_at d.

(** ** Winner selection (winner_selection.rs) *)

Definition prioritize_valid_outputs (d : Deliberation) (ranked : list RankedOutcome)
    : outcome (list RankedOutcome * Deliberation) :=
  let valid := List.filter (λ c, all_passed (ro_outcome c)) ranked in
  let invalid := List.filter (λ c, negb (all_passed (ro_outcome c))) ranked in
  reprioritize d (List.map (λ c, proposal_id (ro_proposal c)) (valid ++ invalid)).

Definition pick_winner (ranked : list RankedOutcome) (constraints : TaskConstraints)
    : outcome RankedOutcome :=
  match tc_output_contract constraints with
  | Some contract =>
      ok_or (List.find (λ c, all_passed (ro_outcome c)) ranked) (NoValidProposal (oc_contract_id contract))
  | None => ok_or (head ranked) (EmptyCollection "deliberation.ranked")
  end.

(** ** Scoring policies *)

(** The fraction of the reports that passed. *)
Definition uniform_score (reports : list ValidatorReport) : outcome Score :=
  match reports with
  | [] => Ok Score_MIN
  | _ =>
      let passed := Z.of_nat (length (List.filter report_passed reports)) in
      Score_new (f64_div (f64_of_usize passed) (f64_of_usize (Z.of_nat (length reports))))
  end.

Definition JUDGE_SCORE_DETAIL_KEY : string := "judge.score".

(** [Value::as_f64] of serde_json. *)
Class JsonFloats := json_as_f64 : Value → option spec_float.

Definition is_judge_report (r : ValidatorReport) : bool :=
  is_some (report_details r !! JUDGE_SCORE_DETAIL_KEY).

Definition judge_verdict (reports : list ValidatorReport) : option Value :=
  head (omap (λ r, report_details r !! JUDGE_SCORE_DETAIL_KEY) reports).

Definition judge_aware_score {Hjson : JsonFloats} (reports : list ValidatorReport) : outcome Score :=
  match judge_verdict reports ≫= json_as_f64 with
  | Some verdict => Score_new (f64_clamp_unit verdict)
  | None => uniform_score reports
  end.

(** ** Councils *)

Record Council := MkCouncil {
  council_id : CouncilId;
  council_specialty : Specialty;
  council_agents : gset string;
  council_created_at : Instant;
}.

#[export] Instance Council_eta : Eta Council := λ c,
  MkCouncil (council_id c) (council_specialty c) (council_agents c) (council_created_at c).

Definition Council_new (id : CouncilId) (specialty : Specialty) (agents : list AgentId) (now : Instant)
    : outcome Council :=
  let agents : gset string := list_to_set agents in
  ensure (negb (bool_decide (agents = ∅))) (EmptyCollection "council.agents");;
  Ok (MkCouncil id specialty agents now).

Definition add_agent (c : Council) (agent : AgentId) : Council :=
  c <| council_agents := {[agent]} ∪ council_agents c |>.

Definition remove_agent (c : Council) (agent : AgentId) : outcome Council :=
  ensure (negb ((size (council_agents c) <=? 1)%nat && bool_decide (agent ∈ council_agents c)))
    (InvariantViolated "council must retain at least one agent");;
  ensure (bool_decide (agent ∈ council_agents c)) (NotFound "council.agent");;
  Ok (c <| council_agents := council_agents c ∖ {[agent]} |>).
