(* ===== verification/Deliberate.v ===== *)
(** * The use cases around a deliberation

    made-app/src/usecases: deliberate.rs with its proposal scheduler (the peer
    deliberation algorithm), orchestrate.rs (deliberate, then execute the winner),
    run_council_decision.rs, create_council.rs, and the events of
    made-core/src/events they publish; the registry and the repository they use
    in memory are at the end.

    Agents, validators, scoring, executor and stores are behind ports, and most of
    them are language models: the same question may be answered differently every
    time.  A use case is therefore a conversation: a tree of questions to the
    ports, with one branch for every answer.  Metrics and tracing answer nothing
    and are left out.  The drafts of the parallel scheduler are asked for in
    agent order; the scheduler overlaps the calls and collects the answers in that
    order. *)

From S2P Require Import Prelude Errors Text Values Steps Authorization Deliberation.

(** ** Events *)

Record EventEnvelope := MkEventEnvelope {
  env_event_id : string;
  env_emitted_at : Instant;
  env_source : string;
  env_correlation_id : option string;
  env_causation_id : option string;
}.

Definition EventEnvelope_new_with_causation (id : string) (emitted_at : Instant) (source : string)
    (correlation causation : option string) : outcome EventEnvelope :=
  let trimmed := str_trim source in
  ensure (trimmed != "") (EmptyField "event.source");;
  ensure (Z.of_nat (String.length trimmed) <=? 256)
    (FieldTooLong "event.source" (Z.of_nat (String.length trimmed)) 256);;
  Ok (MkEventEnvelope id emitted_at trimmed correlation causation).

Record DeliberationCompletedEvent := MkDeliberationCompletedEvent {
  dc_envelope : EventEnvelope;
  dc_task_id : TaskId;
  dc_specialty : Specialty;
  dc_winner_proposal_id : ProposalId;
  dc_winner_score : Score;
  dc_num_candidates : Z;
  dc_duration : Z;
  dc_external_context_bundle_id : option string;
}.

Record TaskDispatchedEvent := MkTaskDispatchedEvent {
  td_envelope : EventEnvelope;
  td_task_id : TaskId;
  td_specialty : Specialty;
  td_trigger_event_id : option string;
}.

Record TaskCompletedEvent := MkTaskCompletedEvent {
  tk_envelope : EventEnvelope;
  tk_task_id : TaskId;
  tk_specialty : Specialty;
  tk_agent_id : option AgentId;
  tk_duration : Z;
}.

Record TaskFailedEvent := MkTaskFailedEvent {
  tf_envelope : EventEnvelope;
  tf_task_id : TaskId;
  tf_specialty : Specialty;
  tf_error_kind : string;
  tf_error_reason : string;
}.

Definition TaskFailedEvent_new (envelope : EventEnvelope) (task : TaskId) (specialty : Specialty)
    (kind reason : string) : outcome TaskFailedEvent :=
  ensure (str_trim kind != "") (EmptyField "task_failed.error_kind");;
  ensure (Z.of_nat (String.length reason) <=? 4096)
    (FieldTooLong "task_failed.error_reason" (Z.of_nat (String.length reason)) 4096);;
  Ok (MkTaskFailedEvent envelope task specialty kind reason).

(** ** Conversations with the ports *)

Inductive DiversityPreference := Standard | Diverse.

Record DraftRequest := MkDraftRequest {
  dr_task : string;
  dr_constraints : TaskConstraints;
  dr_diversity : DiversityPreference;
  dr_external_context : option ExternalContextBundle;
}.

Inductive ExecutionStatus := ExecutionSucceeded | ExecutionFailed.

Definition execution_is_success (s : ExecutionStatus) : bool :=
  match s with ExecutionSucceeded => true | ExecutionFailed => false end.

Record ExecutionOutcome := MkExecutionOutcome {
  xo_id : string;
  xo_status : ExecutionStatus;
  xo_duration : Z;
  xo_output : Attributes;
}.

(** An agent is known to the use cases by its own identifier. *)
Inductive Question : Type → Type :=
| Now : Question Instant
| NewUuid : Question string
| GetCouncil (specialty : Specialty) : Question (outcome Council)
| ListCouncils : Question (outcome (list Council))
| RegisterCouncil (c : Council) (evidence : option AuthorizationEvidence) : Question (outcome unit)
| ResolveAll (ids : list AgentId) : Question (outcome (list AgentId))
| Generate (agent : AgentId) (request : DraftRequest) : Question (outcome string)
| Critique (agent : AgentId) (content : string) (constraints : TaskConstraints)
    : Question (outcome string)
| Revise (agent : AgentId) (content critique : string) : Question (outcome string)
| Validate (validator : nat) (content : string) (constraints : TaskConstraints)
    : Question (outcome ValidatorReport)
| ScoreReports (reports : list ValidatorReport) : Question (outcome Score)
| PhaseChanged (task : TaskId) (phase : DeliberationPhase) (emitted_at : Instant) : Question unit
| SaveDeliberation (d : Deliberation) (evidence : option AuthorizationEvidence)
    : Question (outcome unit)
| GetDeliberation (task : TaskId) : Question (outcome Deliberation)
| RecordDeliberation (specialty : Specialty) (duration : Z)
    (evidence : option AuthorizationEvidence) : Question (outcome unit)
| RecordOrchestration (duration : Z) (evidence : option AuthorizationEvidence)
    : Question (outcome unit)
| PublishDeliberationCompleted (e : DeliberationCompletedEvent) : Question (outcome unit)
| PublishTaskDispatched (e : TaskDispatchedEvent) : Question (outcome unit)
| PublishTaskCompleted (e : TaskCompletedEvent) : Question (outcome unit)
| PublishTaskFailed (e : TaskFailedEvent) : Question (outcome unit)
| GetContract (id : string) : Question (outcome OutputContract)
| ExecuteProposal (p : Proposal) (options : Attributes) : Question (outcome ExecutionOutcome).

Inductive talk (A : Type) : Type :=
| Done (a : A)
| Ask {B : Type} (q : Question B) (k : B → talk A).

Arguments Done {A} a.
Arguments Ask {A B} q k.

Fixpoint talk_bind {A B} (p : talk A) (f : A → talk B) : talk B :=
  match p with
  | Done a => f a
  | Ask q k => Ask q (λ b, talk_bind (k b) f)
  end.

(** A conversation that may fail. *)
Definition chat (A : Type) : Type := talk (outcome A).

#[export] Instance chat_ret : MRet chat := λ A a, Done (Ok a).
#[export] Instance chat_bind : MBind chat := λ A B f p,
  talk_bind p (λ r, match r with Ok a => f a | Err e => Done (Err e) | Panic => Done Panic end).

Definition reply {A} (r : outcome A) : chat A := Done r.
Definition ask {A} (q : Question (outcome A)) : chat A := Ask q Done.
Definition query {A} (q : Question A) : chat A := Ask q (λ a, Done (Ok a)).

(** A question with its answer, and the conversations a use case can have: the
    calls it made, in order, and what it returned. *)
Inductive Call :=
| MkCall {B : Type} (q : Question B) (answer : B).

Inductive talks {A} : talk A → list Call → A → Prop :=
| talks_done a : talks (Done a) [] a
| talks_ask {B} (q : Question B) k b calls a :
    talks (k b) calls a → talks (Ask q k) (MkCall q b :: calls) a.

(** ** Deliberating (deliberate.rs) *)

Record DeliberateOutput := MkDeliberateOutput {
  out_deliberation : Deliberation;
  out_winner_proposal_id : ProposalId;
}.

Definition draft_request (t : Task) : DraftRequest :=
  MkDraftRequest (task_description t) (task_constraints t) Diverse (task_external_context t).

Definition new_proposal_id : chat ProposalId := uuid ← query NewUuid; reply (ProposalId_new uuid).
Definition new_event_id : chat string := uuid ← query NewUuid; reply (bounded_text_new "event_id" 256 uuid).

Section deliberate.
(** The validators the use case was composed with, whether it was given a
    proposal scheduler, the source of its events and the evidence of the
    operation that runs it. *)
Context (validators : nat) (parallel : bool) (source : string)
  (authorization : option AuthorizationEvidence).

Definition deliberate_envelope (emitted_at : Instant) (m : TaskMetadata) : chat EventEnvelope :=
  id ← new_event_id;
  reply (EventEnvelope_new_with_causation id emitted_at source (tm_correlation_id m) (tm_causation_id m)).

Definition advance_with_observer (d : Deliberation) : chat Deliberation :=
  d ← reply (advance d);
  now ← query Now;
  _ ← query (PhaseChanged (dl_task_id d) (dl_phase d) now);
  mret d.

Definition resolve_agents (c : Council) (constraints : TaskConstraints) : chat (list AgentId) :=
  let ids := btree_elements (council_agents c) in
  let ids := match tc_num_agents constraints with
             | Some n => if Z.of_nat (length ids) >? n then take (Z.to_nat n) ids else ids
             | None => ids
             end in
  ask (ResolveAll ids).

(** [ProposalScheduler::generate]: every answer is waited for, failures too. *)
Fixpoint generate_all (agents : list AgentId) (t : Task) : talk (list (outcome string)) :=
  match agents with
  | [] => Done []
  | agent :: agents =>
      Ask (Generate agent (draft_request t)) (λ draft,
        talk_bind (generate_all agents t) (λ drafts, Done (draft :: drafts)))
  end.

(** The next draft of the loop, and what is left of the scheduled ones. *)
Definition next_draft (drafts : option (list (outcome string))) (agent : AgentId) (t : Task)
    : chat (string * option (list (outcome string))) :=
  match drafts with
  | Some (draft :: drafts) => content ← reply draft; mret (content, Some drafts)
  | Some [] => reply (Err (InvariantViolated "proposal result count must match agent count"))
  | None => content ← ask (Generate agent (draft_request t)); mret (content, None)
  end.

Fixpoint seed_each (now : Instant) (t : Task) (drafts : option (list (outcome string)))
    (agents : list AgentId) (d : Deliberation) : chat (list ProposalId * Deliberation) :=
  match agents with
  | [] => mret ([], d)
  | agent :: agents =>
      '(content, drafts) ← next_draft drafts agent t;
      id ← new_proposal_id;
      p ← reply (Proposal_new id agent (task_specialty t) content (task_attributes t) now);
      d ← reply (add_proposal d p);
      '(ids, d) ← seed_each now t drafts agents d;
      mret (id :: ids, d)
  end.

Definition seed_proposals (d : Deliberation) (agents : list AgentId) (t : Task)
    : chat (list ProposalId * Deliberation) :=
  now ← query Now;
  drafts ← (if parallel
            then talk_bind (generate_all agents t) (λ drafts, Done (Ok (Some drafts)))
            else mret None);
  seed_each now t drafts agents d.

(** One round: agent [i] critiques and revises the proposal of agent
    [(i + 1) % n]. *)
Fixpoint review_round (n : nat) (ids : list ProposalId) (constraints : TaskConstraints) (i : nat)
    (agents : list AgentId) (d : Deliberation) : chat Deliberation :=
  match agents with
  | [] => mret d
  | agent :: agents =>
      peer ← reply (expect (ids !! ((i + 1) mod n)%nat));
      content ← reply (ok_or (proposal_content <$> dl_proposals d !! peer)
                         (NotFound "deliberation.proposal"));
      critique ← ask (Critique agent content constraints);
      revision ← ask (Revise agent content critique);
      now ← query Now;
      d ← reply (revise_proposal d peer revision now);
      review_round n ids constraints (S i) agents d
  end.

Fixpoint review_rounds (rounds : nat) (agents : list AgentId) (ids : list ProposalId)
    (constraints : TaskConstraints) (d : Deliberation) : chat Deliberation :=
  match rounds with
  | O => mret d
  | S rounds =>
      d ← review_round (length agents) ids constraints 0 agents d;
      review_rounds rounds agents ids constraints d
  end.

Definition run_peer_review_rounds (d : Deliberation) (agents : list AgentId) (ids : list ProposalId)
    (constraints : TaskConstraints) : chat Deliberation :=
  let rounds := tc_rounds constraints in
  if (rounds =? 0) || (length agents <? 2)%nat then mret d else
  if negb (Nat.eqb (length ids) (length agents))
  then reply (Err (InvariantViolated "proposal count must match agent count before peer review"))
  else review_rounds (Z.to_nat rounds) agents ids constraints d.

Fixpoint run_validators (todo : list nat) (content : string) (constraints : TaskConstraints)
    : chat (list ValidatorReport) :=
  match todo with
  | [] => mret []
  | validator :: todo =>
      report ← ask (Validate validator content constraints);
      reports ← run_validators todo content constraints;
      mret (report :: reports)
  end.

Fixpoint attach_each (ids : list ProposalId) (constraints : TaskConstraints) (d : Deliberation)
    : chat Deliberation :=
  match ids with
  | [] => mret d
  | id :: ids =>
      content ← reply (ok_or (proposal_content <$> dl_proposals d !! id)
                         (NotFound "deliberation.proposal"));
      reports ← run_validators (seq 0 validators) content constraints;
      score ← ask (ScoreReports reports);
      d ← reply (attach_outcome d id (MkValidationOutcome score reports));
      attach_each ids constraints d
  end.

Definition attach_validations (d : Deliberation) (constraints : TaskConstraints)
    : chat Deliberation :=
  attach_each (btree_keys (dl_proposals d)) constraints d.

Definition finalize (d : Deliberation) (ranked : list RankedOutcome) (t : Task)
    (completed_at : Instant) : chat DeliberateOutput :=
  _ ← ask (SaveDeliberation d authorization);
  let duration := default 0 (deliberation_duration d) in
  _ ← ask (RecordDeliberation (dl_specialty d) duration authorization);
  winner ← reply (pick_winner ranked (task_constraints t));
  envelope ← deliberate_envelope completed_at (task_metadata t);
  let e := MkDeliberationCompletedEvent envelope (dl_task_id d) (dl_specialty d)
             (proposal_id (ro_proposal winner)) (vo_score (ro_outcome winner))
             (Z.min u32_max (Z.of_nat (length ranked))) duration
             (xb_bundle_id <$> task_external_context t) in
  _ ← ask (PublishDeliberationCompleted e);
  mret (MkDeliberateOutput d (proposal_id (ro_proposal winner))).

(** [DeliberateUseCase::execute_with_observer]. *)
Definition deliberate (t : Task) : chat DeliberateOutput :=
  started_at ← query Now;
  council ← ask (GetCouncil (task_specialty t));
  agents ← resolve_agents council (task_constraints t);
  reply (ensure (negb (Nat.eqb (length agents) 0)) (EmptyCollection "deliberation.agents"));;
  let d := Deliberation_start (task_id t) (task_specialty t) (tc_rounds (task_constraints t)) started_at in
  _ ← query (PhaseChanged (dl_task_id d) (dl_phase d) started_at);
  '(ids, d) ← seed_proposals d agents t;
  d ← advance_with_observer d;
  d ← run_peer_review_rounds d agents ids (task_constraints t);
  d ← advance_with_observer d;
  d ← attach_validations d (task_constraints t);
  d ← advance_with_observer d;
  completed_at ← query Now;
  '(ranked, d) ← reply (complete d completed_at);
  _ ← query (PhaseChanged (dl_task_id d) (dl_phase d) completed_at);
  '(ranked, d) ← reply (match tc_output_contract (task_constraints t) with
                        | Some _ => prioritize_valid_outputs d ranked
                        | None => Ok (ranked, d)
                        end);
  finalize d ranked t completed_at.
End deliberate.

(** ** Deliberating, then executing (orchestrate.rs) *)

(** [Display for DomainError]. *)
Class ErrorDisplay := error_to_string : DomainError → string.

Record OrchestrateOutput := MkOrchestrateOutput {
  orch_deliberation : Deliberation;
  orch_winner : Proposal;
  orch_execution : ExecutionOutcome;
}.

Definition deliberation_error_kind (e : DomainError) : string :=
  match e with
  | NoValidProposal _ => "deliberation.no_valid_proposal"
  | _ => "deliberation.error"
  end.

(** [BTreeMap::extend]: an explicit option replaces the profile's. *)
Definition merge_execution_options (profile explicit : Attributes) : outcome Attributes :=
  Attributes_new (explicit ∪ profile).

Section orchestrate.
Context {Hdisp : ErrorDisplay}.
Context (validators : nat) (parallel : bool) (source : string)
  (authorization : option AuthorizationEvidence).

Definition orchestrate_envelope (m : TaskMetadata) : chat EventEnvelope :=
  now ← query Now;
  id ← new_event_id;
  reply (EventEnvelope_new_with_causation id now source (tm_correlation_id m) (tm_causation_id m)).

Definition publish_task_failed (t : Task) (kind reason : string) : chat unit :=
  envelope ← orchestrate_envelope (task_metadata t);
  e ← reply (TaskFailedEvent_new envelope (task_id t) (task_specialty t) kind reason);
  ask (PublishTaskFailed e).

(** What happens to an execution the executor reported. *)
Definition conclude_execution (t : Task) (winner : Proposal) (x : ExecutionOutcome) : chat unit :=
  _ ← ask (RecordOrchestration (xo_duration x) authorization);
  if execution_is_success (xo_status x) then
    envelope ← orchestrate_envelope (task_metadata t);
    ask (PublishTaskCompleted (MkTaskCompletedEvent envelope (task_id t) (task_specialty t)
           (Some (proposal_author winner)) (xo_duration x)))
  else publish_task_failed t "executor.unsuccessful" "executor reported unsuccessful outcome".

(** [OrchestrateUseCase::execute]. *)
Definition orchestrate (t : Task) (execution_options : Attributes) : chat OrchestrateOutput :=
  talk_bind (deliberate validators parallel source authorization t) (λ deliberated,
  match deliberated with
  | Panic => reply Panic
  | Err e =>
      _ ← publish_task_failed t (deliberation_error_kind e) (error_to_string e);
      reply (Err e)
  | Ok out =>
      winner ← reply (ok_or (dl_proposals (out_deliberation out) !! out_winner_proposal_id out)
                        (NotFound "winner proposal"));
      envelope ← orchestrate_envelope (task_metadata t);
      _ ← ask (PublishTaskDispatched (MkTaskDispatchedEvent envelope (task_id t) (task_specialty t)
                 (tm_source_event_id (task_metadata t))));
      options ← reply (merge_execution_options (tm_execution_profile (task_metadata t)) execution_options);
      talk_bind (ask (ExecuteProposal winner options)) (λ executed,
      match executed with
      | Panic => reply Panic
      | Err e =>
          _ ← publish_task_failed t "executor.error" (error_to_string e);
          reply (Err e)
      | Ok x =>
          _ ← conclude_execution t winner x;
          mret (MkOrchestrateOutput (out_deliberation out) winner x)
      end)
  end).
End orchestrate.

(** ** A validated council decision (run_council_decision.rs) *)

Inductive CouncilSelector := ById (id : CouncilId) | BySpecialty (specialty : Specialty).
Inductive ValidationMode := Strict | Warn.

#[export] Instance ValidationMode_eq_dec : EqDecision ValidationMode.
Proof. solve_decision. Defined.

Record RunCouncilDecisionInput := MkRunCouncilDecisionInput {
  rci_council_selector : CouncilSelector;
  rci_contract_id : string;
  rci_task_description : string;
  rci_external_context : option ExternalContextBundle;
  rci_validation_mode : ValidationMode;
  rci_metadata : TaskMetadata;
}.

(** The measured wall-clock duration is left out. *)
Record RunCouncilDecisionOutput := MkRunCouncilDecisionOutput {
  rco_task_id : TaskId;
  rco_winner : RankedOutcome;
  rco_candidates : list RankedOutcome;
  rco_validation_mode : ValidationMode;
  rco_passed : bool;
}.

Definition resolve_specialty (selector : CouncilSelector) : chat Specialty :=
  match selector with
  | BySpecialty specialty => mret specialty
  | ById id =>
      councils ← ask ListCouncils;
      reply (ok_or (council_specialty <$> List.find (λ c, council_id c == id) councils)
               (NotFound "council"))
  end.

Definition run_council_decision (validators : nat) (parallel : bool) (source : string)
    (authorization : option AuthorizationEvidence) (input : RunCouncilDecisionInput)
    : chat RunCouncilDecisionOutput :=
  specialty ← resolve_specialty (rci_council_selector input);
  contract ← ask (GetContract (rci_contract_id input));
  uuid ← query NewUuid;
  id ← reply (match TaskId_new uuid with
              | Ok id => Ok id
              | _ => Err (InvariantViolated "generated task id failed validation")
              end);
  let t := MkTask id specialty (rci_task_description input)
             (with_output_contract TaskConstraints_default contract) ∅ (rci_external_context input)
             (rci_metadata input) in
  talk_bind (deliberate validators parallel source authorization t) (λ deliberated,
  match deliberated with
  | Ok out =>
      candidates ← reply (ranked_outcomes (out_deliberation out));
      winner ← reply (ok_or (List.find (λ c, proposal_id (ro_proposal c) == out_winner_proposal_id out)
                               candidates)
                        (InvariantViolated "winner proposal id not found in ranked outcomes"));
      mret (MkRunCouncilDecisionOutput id winner candidates (rci_validation_mode input) true)
  | Err (NoValidProposal contract_id) =>
      if rci_validation_mode input == Warn then
        d ← ask (GetDeliberation id);
        candidates ← reply (ranked_outcomes d);
        winner ← reply (ok_or (head candidates) (EmptyCollection "deliberation.ranked"));
        mret (MkRunCouncilDecisionOutput id winner candidates (rci_validation_mode input) false)
      else reply (Err (NoValidProposal contract_id))
  | Err e => reply (Err e)
  | Panic => reply Panic
  end).

(** ** Councils (create_council.rs and the registry in memory) *)

Definition create_council (authorization : option AuthorizationEvidence) (id : CouncilId)
    (specialty : Specialty) (agents : list AgentId) : chat Council :=
  _ ← ask (ResolveAll agents);
  now ← query Now;
  council ← reply (Council_new id specialty agents now);
  _ ← ask (RegisterCouncil council authorization);
  mret council.

Record CouncilRegistryState := MkCouncilRegistryState {
  reg_councils : gmap string Council;
  reg_evidence : list AuthorizationEvidence;
}.

#[export] Instance CouncilRegistryState_eta : Eta CouncilRegistryState := λ s,
  MkCouncilRegistryState (reg_councils s) (reg_evidence s).

Definition put_council (s : CouncilRegistryState) (c : Council)
    (evidence : option AuthorizationEvidence) : CouncilRegistryState :=
  s <| reg_councils := <[council_specialty c := c]> (reg_councils s) |>
    <| reg_evidence := reg_evidence s ++ option_list evidence |>.

Definition registry_register (s : CouncilRegistryState) (c : Council)
    (evidence : option AuthorizationEvidence) : outcome CouncilRegistryState :=
  ensure (negb (is_some (reg_councils s !! council_specialty c))) (AlreadyExists "council");;
  Ok (put_council s c evidence).

Definition registry_replace (s : CouncilRegistryState) (c : Council)
    (evidence : option AuthorizationEvidence) : outcome CouncilRegistryState :=
  ensure (is_some (reg_councils s !! council_specialty c)) (NotFound "council");;
  Ok (put_council s c evidence).

Definition registry_get (s : CouncilRegistryState) (specialty : Specialty) : outcome Council :=
  ok_or (reg_councils s !! specialty) (NotFound "council").

Definition registry_list (s : CouncilRegistryState) : list Council := btree_values (reg_councils s).

Definition registry_delete (s : CouncilRegistryState) (specialty : Specialty)
    (evidence : option AuthorizationEvidence) : outcome CouncilRegistryState :=
  ensure (is_some (reg_councils s !! specialty)) (NotFound "council");;
  Ok (s <| reg_councils := delete specialty (reg_councils s) |>
        <| reg_evidence := reg_evidence s ++ option_list evidence |>).
