(* ===== verification/Scheduler.v ===== *)
(** * The worker scheduler

    made-app/src/workers: ceremony_worker_scheduler.rs with its queue, request,
    decision, policy and value types: a weighted deficit round-robin scheduler
    over the roots of ceremonies.  A root is given turns in the order of its
    priority raised by the turns it waited; a turn adds the weight of the root to
    its deficit, which pays for the cost of the requests it admits.

    The observer, which answers nothing, is left out.  [dispatch] is a loop that
    ends when a batch is full or nothing fits; its fuel is proved to be enough
    (Batches). *)

From S2P Require Import Prelude Errors Text Values Steps Definitions.

(** ** Values *)

Definition CeremonyWorkerCost_MAX : Z := 100000.
Definition CeremonyWorkerCost_new (value : Z) : outcome Z :=
  ensure (negb (value =? 0)) (MustBeNonZero "worker_cost");;
  ensure (value <=? CeremonyWorkerCost_MAX) (OutOfRange "worker_cost" value 1 CeremonyWorkerCost_MAX);;
  Ok value.

Definition CeremonyWorkerWeight_MAX : Z := 1000.
Definition CeremonyWorkerWeight_new (value : Z) : outcome Z :=
  ensure (negb (value =? 0)) (MustBeNonZero "worker_weight");;
  ensure (value <=? CeremonyWorkerWeight_MAX)
    (OutOfRange "worker_weight" value 1 CeremonyWorkerWeight_MAX);;
  Ok value.

Definition CeremonyWorkerPriority_DEFAULT : Z := 0.
Definition CeremonyWorkerPriority_MAX : Z := 1000.
Definition CeremonyWorkerPriority_new (value : Z) : outcome Z :=
  ensure (value <=? CeremonyWorkerPriority_MAX)
    (OutOfRange "worker_priority" value 0 CeremonyWorkerPriority_MAX);;
  Ok value.

Definition CeremonyWorkerCapacity_MAX : Z := 100000.
Definition CeremonyWorkerCapacity_new (value : Z) : outcome Z :=
  ensure (negb (value =? 0)) (MustBeNonZero "worker_capacity");;
  ensure (value <=? CeremonyWorkerCapacity_MAX)
    (OutOfRange "worker_capacity" value 1 CeremonyWorkerCapacity_MAX);;
  Ok value.

(** ** Requests and decisions *)

Inductive CeremonyWorkerEligibility := Ready | BudgetUnavailable | PermissionDenied.

(** [AdmittedNow] is [Admitted] of the code. *)
Inductive CeremonyWorkerAdmissionReason :=
| AdmittedNow | Backpressure | Capacity | Budget | Permission | Draining.

Record CeremonyWorkerScheduleRequest := MkRequest {
  rq_root_id : CeremonyId;
  rq_operation_id : string;
  rq_priority : Z;
  rq_weight : Z;
  rq_cost : Z;
  rq_requested_capacity : Z;
  rq_eligibility : CeremonyWorkerEligibility;
}.

Record CeremonyWorkerAdmissionDecision := MkAdmissionDecision {
  ad_request : CeremonyWorkerScheduleRequest;
  ad_reason : CeremonyWorkerAdmissionReason;
  ad_policy_version : Z;
  ad_sequence : Z;
}.

Record CeremonyWorkerSchedulerPolicy := MkSchedulerPolicy {
  sp_max_parallel : Z;
  sp_capacity : Z;
  sp_version : Z;
}.

Record CeremonyWorkerSchedule := MkSchedule {
  sch_admitted : list CeremonyWorkerAdmissionDecision;
  sch_deferred : list CeremonyWorkerAdmissionDecision;
}.

(** ** The queue of a root *)

Notation PendingRequest := (Z * CeremonyWorkerScheduleRequest)%type (only parsing).

Record CeremonyWorkerRootQueue := MkQueue {
  q_weight : Z;
  q_priority : Z;
  q_deficit : Z;
  q_waiting_turns : Z;
  q_pending : list PendingRequest;
}.

#[export] Instance CeremonyWorkerRootQueue_eta : Eta CeremonyWorkerRootQueue := λ q,
  MkQueue (q_weight q) (q_priority q) (q_deficit q) (q_waiting_turns q) (q_pending q).

Definition RootQueue_new (weight priority : Z) : CeremonyWorkerRootQueue :=
  MkQueue weight priority 0 0 [].

Definition u64_saturating_add (a b : Z) : Z := Z.min u64_max (a + b).

Definition effective_priority (q : CeremonyWorkerRootQueue) : Z :=
  u64_saturating_add (q_priority q) (q_waiting_turns q).

(** ** The scheduler *)

Record CeremonyWorkerScheduler := MkScheduler {
  sc_policy : CeremonyWorkerSchedulerPolicy;
  sc_draining : bool;
  sc_active_root : option CeremonyId;
  sc_next_root : option CeremonyId;
  sc_ordinal : Z;
  sc_decision_sequence : Z;
  sc_roots : gmap string CeremonyWorkerRootQueue;
}.

#[export] Instance CeremonyWorkerScheduler_eta : Eta CeremonyWorkerScheduler := λ s,
  MkScheduler (sc_policy s) (sc_draining s) (sc_active_root s) (sc_next_root s) (sc_ordinal s)
    (sc_decision_sequence s) (sc_roots s).

Definition Scheduler_new (policy : CeremonyWorkerSchedulerPolicy) : CeremonyWorkerScheduler :=
  MkScheduler policy false None None 0 0 ∅.

Definition set_draining (s : CeremonyWorkerScheduler) (draining : bool) : CeremonyWorkerScheduler :=
  s <| sc_draining := draining |>.

Definition decision (s : CeremonyWorkerScheduler) (request : CeremonyWorkerScheduleRequest)
    (reason : CeremonyWorkerAdmissionReason) : CeremonyWorkerAdmissionDecision * CeremonyWorkerScheduler :=
  let sequence := u64_saturating_add (sc_decision_sequence s) 1 in
  (MkAdmissionDecision request reason (sp_version (sc_policy s)) sequence,
   s <| sc_decision_sequence := sequence |>).

(** ** Dispatching *)

Definition fits_capacity (remaining : Z) (p : PendingRequest) : bool :=
  rq_requested_capacity p.2 <=? remaining.

Definition queue_fits (remaining : Z) (q : CeremonyWorkerRootQueue) : bool :=
  any (fits_capacity remaining) (q_pending q).

Definition any_fits_capacity (s : CeremonyWorkerScheduler) (remaining : Z) : bool :=
  any (queue_fits remaining) (btree_values (sc_roots s)).

(** The index of the first key that is not before [root]. *)
Fixpoint position_of (f : CeremonyId → bool) (keys : list CeremonyId) : option nat :=
  match keys with
  | [] => None
  | key :: keys => if f key then Some 0%nat else S <$> position_of f keys
  end.

(** The scan of [start_turn]: the best root in the order of the turns, the first
    one on a tie. *)
Fixpoint choose (s : CeremonyWorkerScheduler) (remaining : Z)
    (chosen : option (CeremonyId * Z)) (order : list CeremonyId) : option (option (CeremonyId * Z)) :=
  match order with
  | [] => Some chosen
  | key :: order =>
      queue ← sc_roots s !! key;
      let better := is_none_or chosen (λ c, c.2 <? effective_priority queue) in
      choose s remaining
        (if queue_fits remaining queue && better then Some (key, effective_priority queue) else chosen)
        order
  end.

(** The keys from [start] on, around. *)
Definition turn_order (start : nat) (keys : list CeremonyId) : list CeremonyId :=
  drop start keys ++ take start keys.

Definition wait_a_turn (root key : CeremonyId) (q : CeremonyWorkerRootQueue) : CeremonyWorkerRootQueue :=
  if (key != root) && negb (Nat.eqb (length (q_pending q)) 0)
  then q <| q_waiting_turns := u64_saturating_add (q_waiting_turns q) 1 |> else q.

Definition start_turn (s : CeremonyWorkerScheduler) (keys : list CeremonyId) (remaining : Z)
    : option (CeremonyId * CeremonyWorkerScheduler) :=
  let start := default 0%nat (root ← sc_next_root s;
                              position_of (λ key, String.leb root key) keys) in
  chosen ← choose s remaining None (turn_order start keys);
  '(root, _) ← chosen;
  queue ← sc_roots s !! root;
  let queue := queue <| q_deficit := u64_saturating_add (q_deficit queue) (q_weight queue) |>
                     <| q_waiting_turns := 0 |> in
  Some (root, s <| sc_roots := map_imap (λ key q, Some (wait_a_turn root key q))
                                 (<[root := queue]> (sc_roots s)) |>).

Definition finish_turn (s : CeremonyWorkerScheduler) (root : CeremonyId) (keys : list CeremonyId)
    : CeremonyWorkerScheduler :=
  s <| sc_active_root := None |>
    <| sc_next_root :=
         index ← position_of (λ key, key == root) keys;
         candidate ← keys !! ((index + 1) mod length keys)%nat;
         if is_some (sc_roots s !! candidate) then Some candidate else None |>.

(** The first pending request that the deficit pays for and that fits, and the
    others. *)
Fixpoint take_affordable (deficit remaining : Z) (pending : list PendingRequest)
    : option (PendingRequest * list PendingRequest) :=
  match pending with
  | [] => None
  | p :: pending =>
      if (rq_cost p.2 <=? deficit) && fits_capacity remaining p then Some (p, pending)
      else '(found, rest) ← take_affordable deficit remaining pending; Some (found, p :: rest)
  end.

(** One round of the loop of [dispatch] after its guards: the request selected,
    if any. *)
Definition dispatch_root (s : CeremonyWorkerScheduler) (root : CeremonyId) (keys : list CeremonyId)
    (remaining : Z) : outcome (option PendingRequest * CeremonyWorkerScheduler) :=
  queue ← expect (sc_roots s !! root);
  match take_affordable (q_deficit queue) remaining (q_pending queue) with
  | None => Ok (None, finish_turn s root keys)
  | Some (pending, rest) =>
      let queue := queue <| q_pending := rest |>
                         <| q_deficit := Z.max 0 (q_deficit queue - rq_cost pending.2) |> in
      let s := s <| sc_roots := <[root := queue]> (sc_roots s) |> in
      let can_continue := any (λ p, rq_cost p.2 <=? q_deficit queue) rest in
      Ok (Some pending,
          if Nat.eqb (length rest) 0
          then finish_turn (s <| sc_roots := delete root (sc_roots s) |>) root keys
          else if negb can_continue then finish_turn s root keys else s)
  end.

(** The loop.  [slots] requests may still be selected and [used] of the capacity
    is taken. *)
Fixpoint dispatch_loop (fuel : nat) (s : CeremonyWorkerScheduler) (slots : nat) (used : Z)
    : outcome (list PendingRequest * CeremonyWorkerScheduler) :=
  match slots, fuel with
  | O, _ => Ok ([], s)
  | _, O => Panic
  | S slots', S fuel =>
      let remaining := Z.max 0 (sp_capacity (sc_policy s) - used) in
      let keys := btree_keys (sc_roots s) in
      if Nat.eqb (length keys) 0 || negb (any_fits_capacity s remaining) then Ok ([], s) else
      match match sc_active_root s with
            | Some root => Some (root, s)
            | None => '(root, s) ← start_turn s keys remaining; Some (root, s <| sc_active_root := Some root |>)
            end with
      | None => Ok ([], s)
      | Some (root, s) =>
          '(selected, s) ← dispatch_root s root keys remaining;
          match selected with
          | None => dispatch_loop fuel s slots used
          | Some p =>
              '(rest, s) ← dispatch_loop fuel s slots' (u32_saturating_add used (rq_requested_capacity p.2));
              Ok (p :: rest, s)
          end
      end
  end.

(** Between two selections every root may be given as many turns as a request
    may cost. *)
Definition dispatch_fuel (s : CeremonyWorkerScheduler) : nat :=
  ((Z.to_nat (sp_max_parallel (sc_policy s)) + 1)
   * (size (sc_roots s) * Z.to_nat CeremonyWorkerCost_MAX + 3))%nat.

Definition dispatch (s : CeremonyWorkerScheduler)
    : outcome (list PendingRequest * CeremonyWorkerScheduler) :=
  dispatch_loop (dispatch_fuel s) s (Z.to_nat (sp_max_parallel (sc_policy s))) 0.

(** ** Scheduling *)

Definition refusal (s : CeremonyWorkerScheduler) (request : CeremonyWorkerScheduleRequest)
    : option CeremonyWorkerAdmissionReason :=
  if sc_draining s then Some Draining else
  match rq_eligibility request with
  | Ready => None
  | BudgetUnavailable => Some Budget
  | PermissionDenied => Some Permission
  end.

(** One request of the batch: deferred with a reason, or queued. *)
Definition submit_request (s : CeremonyWorkerScheduler) (request : CeremonyWorkerScheduleRequest)
    : option CeremonyWorkerAdmissionDecision * CeremonyWorkerScheduler :=
  let defer reason := let '(d, s) := decision s request reason in (Some d, s) in
  match refusal s request with
  | Some reason => defer reason
  | None =>
      if (sp_capacity (sc_policy s) <? rq_cost request)
         || (sp_capacity (sc_policy s) <? rq_requested_capacity request)
      then defer Backpressure else
      let queue := default (RootQueue_new (rq_weight request) (rq_priority request))
                     (sc_roots s !! rq_root_id request) in
      if negb (q_weight queue =? rq_weight request) || negb (q_priority queue =? rq_priority request)
      then defer Backpressure else
      let ordinal := u64_saturating_add (sc_ordinal s) 1 in
      let queue := queue <| q_pending := q_pending queue ++ [(ordinal, request)] |> in
      (None, s <| sc_ordinal := ordinal |>
               <| sc_roots := <[rq_root_id request := queue]> (sc_roots s) |>)
  end.

Fixpoint submit_all (s : CeremonyWorkerScheduler) (requests : list CeremonyWorkerScheduleRequest)
    : list CeremonyWorkerAdmissionDecision * list CeremonyWorkerScheduleRequest
      * CeremonyWorkerScheduler :=
  match requests with
  | [] => ([], [], s)
  | request :: requests =>
      let '(refused, s) := submit_request s request in
      let '(deferred, queued, s) := submit_all s requests in
      match refused with
      | Some d => (d :: deferred, queued, s)
      | None => (deferred, request :: queued, s)
      end
  end.

(** Higher priority first, then the order of submission. *)
Definition pending_le (a b : PendingRequest) : Prop :=
  rq_priority b.2 < rq_priority a.2 ∨ rq_priority b.2 = rq_priority a.2 ∧ a.1 ≤ b.1.

#[export] Instance pending_le_dec : RelDecision pending_le.
Proof. intros a b. unfold pending_le. apply _. Defined.

Definition sort_queues (s : CeremonyWorkerScheduler) : CeremonyWorkerScheduler :=
  s <| sc_roots := (λ q, q <| q_pending := merge_sort pending_le (q_pending q) |>) <$> sc_roots s |>.

Fixpoint decide_each (s : CeremonyWorkerScheduler) (requests : list CeremonyWorkerScheduleRequest)
    (reason : CeremonyWorkerAdmissionReason)
    : list CeremonyWorkerAdmissionDecision * CeremonyWorkerScheduler :=
  match requests with
  | [] => ([], s)
  | request :: requests =>
      let '(d, s) := decision s request reason in
      let '(ds, s) := decide_each s requests reason in (d :: ds, s)
  end.

Definition schedule (s : CeremonyWorkerScheduler) (requests : list CeremonyWorkerScheduleRequest)
    : outcome (CeremonyWorkerSchedule * CeremonyWorkerScheduler) :=
  let '(deferred, queued, s) := submit_all s requests in
  let s := sort_queues s in
  '(selected, s) ← (if sc_draining s then Ok ([], s) else dispatch s);
  let selected_ids : gset string := list_to_set (List.map (λ p, rq_operation_id p.2) selected) in
  let '(admitted, s) := decide_each s (List.map snd selected) AdmittedNow in
  let waiting := List.filter (λ r, negb (bool_decide (rq_operation_id r ∈ selected_ids))) queued in
  let '(delayed, s) := decide_each s waiting Backpressure in
  Ok (MkSchedule admitted (deferred ++ delayed), s).

Definition refresh (s : CeremonyWorkerScheduler) (requests : list CeremonyWorkerScheduleRequest)
    : outcome (CeremonyWorkerSchedule * CeremonyWorkerScheduler) :=
  let observed : gset string := list_to_set (List.map rq_root_id requests) in
  let roots := filter (λ e, e.1 ∈ observed)
                 ((λ q, q <| q_pending := [] |>) <$> sc_roots s) in
  let active := option_keep (λ root, is_some (roots !! root)) (sc_active_root s) in
  schedule (s <| sc_roots := roots |> <| sc_active_root := active |>) requests.
