(* ===== verification/Execution.v ===== *)
(** * Executing external operations

    made-core/src/value_objects/execution and artifact: operations, intents,
    reconciliation requirements and receipts; the receipt store in memory of
    made-adapters; and the use cases of made-app/src/workers that run an
    operation, recover an intent and reconcile an ambiguous effect.

    A use case is a routine: a tree of actions on the receipt store and on the
    outside (the connector that runs the work, the artifact service, the audit and
    the clock), with one branch for every answer.  Encoding a request as JSON is a
    parameter. *)

From S2P Require Import Prelude Errors Text Values Steps Definitions Interventions Instance.
From S2P Require Import Budget Authorization.

(** ** Artifacts *)

Inductive ArtifactSourceKind := ExternalExecution | Fixture | SourceNoOp | GeneratedReport | Imported.

#[export] Instance ArtifactSourceKind_eq_dec : EqDecision ArtifactSourceKind.
Proof. solve_decision. Defined.

Definition is_execution_source (k : ArtifactSourceKind) : bool :=
  match k with ExternalExecution | Fixture | SourceNoOp => true | _ => false end.

Record ArtifactProvenance := MkArtifactProvenance {
  prov_source_kind : ArtifactSourceKind;
  prov_execution_receipt_id : option string;
  prov_operation_id : option string;
  prov_accepted_claim_fence : option StepClaimFence;
  prov_observed_at : Instant;
  prov_import_ref : option string;
}.

#[export] Instance ArtifactProvenance_eq_dec : EqDecision ArtifactProvenance.
Proof. solve_decision. Defined.

Definition provenance_validate (p : ArtifactProvenance) : outcome unit :=
  let has_execution := is_some (prov_execution_receipt_id p) && is_some (prov_operation_id p)
                       && is_some (prov_accepted_claim_fence p) in
  let has_partial_execution := is_some (prov_execution_receipt_id p) || is_some (prov_operation_id p)
                               || is_some (prov_accepted_claim_fence p) in
  let imported := is_some (prov_import_ref p) in
  ensure (match prov_source_kind p with
          | ExternalExecution | Fixture | SourceNoOp => has_execution && negb imported
          | GeneratedReport => negb has_partial_execution && negb imported
          | Imported => negb has_partial_execution && imported
          end) (InvariantViolated "artifact provenance fields do not match its source kind").

Record ArtifactRef := MkArtifactRef {
  art_artifact_id : string;
  art_digest : string;
  art_size_bytes : Z;
  art_media_type : string;
  art_provenance : ArtifactProvenance;
}.

#[export] Instance ArtifactRef_eq_dec : EqDecision ArtifactRef.
Proof. solve_decision. Defined.

(** ** Requests *)

Definition MAX_REQUEST_BYTES : Z := 1048576.

Definition ExecutionRequestBytes_new (bytes : string) : outcome string :=
  ensure (bytes != "") (EmptyField "execution_request_bytes");;
  ensure (Z.of_nat (String.length bytes) <=? MAX_REQUEST_BYTES)
    (FieldTooLong "execution_request_bytes" (Z.of_nat (String.length bytes)) MAX_REQUEST_BYTES);;
  Ok bytes.

Record CeremonyStepContribution := MkCeremonyStepContribution {
  contrib_step_id : StepId;
  contrib_state_iteration : Z;
  contrib_state_visit : Z;
  contrib_role_id : RoleId;
  contrib_output : StepOutput;
}.

(** What the semantic request holds: everything but the attempt. *)
Record SemanticRequest := MkSemanticRequest {
  sr_instance_id : CeremonyId;
  sr_definition_name : string;
  sr_definition_version : string;
  sr_current_state : StateId;
  sr_step_id : StepId;
  sr_handler_kind : string;
  sr_handler_config : Attributes;
  sr_context : CeremonyContext;
  sr_transcript : list CeremonyStepContribution;
  sr_interventions : list CeremonyIntervention;
  sr_role_id : option RoleId;
  sr_bound_specialty : option string;
}.

Record CeremonyStepHandlerRequest := MkHandlerRequest {
  hr_semantic : SemanticRequest;
  hr_attempt : Z;
}.

(** [serde_json::to_vec] of the request. *)
Class RequestSerde := request_json : SemanticRequest → option string.

(** ** Operations, intents and receipts *)

Inductive ExecutionRecoveryCapability :=
| IdempotentByOperationId | QueryableByOperationId | ReconciliationRequired.

#[export] Instance ExecutionRecoveryCapability_eq_dec : EqDecision ExecutionRecoveryCapability.
Proof. solve_decision. Defined.

Definition supports_automatic_recovery (c : ExecutionRecoveryCapability) : bool :=
  match c with ReconciliationRequired => false | _ => true end.

Record ExecutionOperation := MkExecutionOperation {
  eo_operation_id : string;
  eo_ceremony_id : CeremonyId;
  eo_step_id : StepId;
  eo_state_visit : Z;
  eo_state_iteration : Z;
  eo_step_iteration : Z;
  eo_request : string;
  eo_request_digest : string;
}.

#[export] Instance ExecutionOperation_eq_dec : EqDecision ExecutionOperation.
Proof. solve_decision. Defined.

Record ExecutionIntent := MkExecutionIntent {
  ei_operation : ExecutionOperation;
  ei_claim_fence : StepClaimFence;
  ei_connector_id : string;
  ei_recovery_capability : ExecutionRecoveryCapability;
  ei_source_kind : ArtifactSourceKind;
  ei_actor_kind : AuditActorKind;
  ei_recorded_at : Instant;
}.

#[export] Instance ExecutionIntent_eq_dec : EqDecision ExecutionIntent.
Proof. solve_decision. Defined.

Definition ei_operation_id (i : ExecutionIntent) : string := eo_operation_id (ei_operation i).

Definition ExecutionIntent_new (operation : ExecutionOperation) (fence : StepClaimFence)
    (connector : string) (capability : ExecutionRecoveryCapability) (source : ArtifactSourceKind)
    (actor : AuditActorKind) (recorded_at : Instant) : outcome ExecutionIntent :=
  ensure (is_execution_source source)
    (InvariantViolated "execution intent requires an execution source kind");;
  Ok (MkExecutionIntent operation fence connector capability source actor recorded_at).

Record ExecutionReconciliationRequirement := MkRequirement {
  er_operation_id : string;
  er_request_digest : string;
  er_producer_claim_fence : StepClaimFence;
  er_connector_id : string;
}.

#[export] Instance ExecutionReconciliationRequirement_eq_dec :
  EqDecision ExecutionReconciliationRequirement.
Proof. solve_decision. Defined.

Definition requirement_from_intent (i : ExecutionIntent) : ExecutionReconciliationRequirement :=
  MkRequirement (ei_operation_id i) (eo_request_digest (ei_operation i)) (ei_claim_fence i)
    (ei_connector_id i).

Definition matches_intent (r : ExecutionReconciliationRequirement) (i : ExecutionIntent) : bool :=
  r == requirement_from_intent i.

Definition MAX_EXECUTION_ARTIFACTS : Z := 100.

Record ExecutionReceipt := MkExecutionReceipt {
  xr_receipt_id : string;
  xr_operation_id : string;
  xr_request_digest : string;
  xr_producer_claim_fence : StepClaimFence;
  xr_connector_id : string;
  xr_external_operation_id : option string;
  xr_recovery_capability : ExecutionRecoveryCapability;
  xr_source_kind : ArtifactSourceKind;
  xr_result : StepResult;
  xr_artifacts : list ArtifactRef;
  xr_budget_measurement : MeasuredBudgetQuantities;
  xr_observed_at : Instant;
}.

#[export] Instance ExecutionReceipt_eq_dec : EqDecision ExecutionReceipt.
Proof. solve_decision. Defined.

#[export] Instance ExecutionReceipt_eta : Eta ExecutionReceipt := λ r,
  MkExecutionReceipt (xr_receipt_id r) (xr_operation_id r) (xr_request_digest r)
    (xr_producer_claim_fence r) (xr_connector_id r) (xr_external_operation_id r)
    (xr_recovery_capability r) (xr_source_kind r) (xr_result r) (xr_artifacts r)
    (xr_budget_measurement r) (xr_observed_at r).

Definition unmeasured : MeasuredBudgetQuantities := MkMeasured Unknown Unknown Unknown Unknown.

Definition measurement_is_unknown (m : MeasuredBudgetQuantities) : bool :=
  all (λ x, x == Unknown) (measurements m).

Definition with_budget_measurement (r : ExecutionReceipt) (measured : MeasuredBudgetQuantities)
    : ExecutionReceipt := r <| xr_budget_measurement := measured |>.

Section receipts.
Context {Hsha : Sha256} {Hreq : RequestSerde}.

Definition request_digest (bytes : string) : string :=
  sha256_hex ("made.execution-request.v1" +:+ NUL +:+ frame bytes).

Definition semantic_request_bytes (r : CeremonyStepHandlerRequest) : outcome string :=
  bytes ← ok_or (request_json (hr_semantic r))
            (InvariantViolated "ceremony step semantic request cannot be encoded");
  ExecutionRequestBytes_new bytes.

Definition ExecutionOperation_new (ceremony : CeremonyId) (step : StepId)
    (state_visit state_iteration step_iteration : Z) (request : string) : ExecutionOperation :=
  MkExecutionOperation (operation_for_step ceremony step state_visit state_iteration step_iteration)
    ceremony step state_visit state_iteration step_iteration request (request_digest request).

Definition operation_validate (o : ExecutionOperation) : outcome unit :=
  ensure ((eo_operation_id o == operation_for_step (eo_ceremony_id o) (eo_step_id o) (eo_state_visit o)
                                  (eo_state_iteration o) (eo_step_iteration o))
          && (eo_request_digest o == request_digest (eo_request o)))
    (InvariantViolated "execution operation derived fields do not match its semantic input").

Definition intent_validate (i : ExecutionIntent) : outcome unit :=
  operation_validate (ei_operation i);;
  ensure (is_execution_source (ei_source_kind i))
    (InvariantViolated "execution intent requires an execution source kind").

(** Whether an artifact was made by the execution a receipt is about. *)
Definition provenance_matches (receipt_id operation_id : string) (fence : StepClaimFence)
    (source : ArtifactSourceKind) (a : ArtifactRef) : bool :=
  let p := art_provenance a in
  (prov_execution_receipt_id p == Some receipt_id) && (prov_operation_id p == Some operation_id)
  && (prov_accepted_claim_fence p == Some fence) && (prov_source_kind p == source).

Definition check_artifact_count (artifacts : list ArtifactRef) : outcome unit :=
  ensure (Z.of_nat (length artifacts) <=? MAX_EXECUTION_ARTIFACTS)
    (OutOfRange "execution_receipt.artifacts" (Z.of_nat (length artifacts)) 0 MAX_EXECUTION_ARTIFACTS).

Definition ExecutionReceipt_new (operation_id digest : string) (fence : StepClaimFence)
    (connector : string) (external : option string) (capability : ExecutionRecoveryCapability)
    (source : ArtifactSourceKind) (result : StepResult) (artifacts : list ArtifactRef)
    (observed_at : Instant) : outcome ExecutionReceipt :=
  ensure (is_execution_source source)
    (InvariantViolated "execution receipt requires an execution source kind");;
  check_artifact_count artifacts;;
  let receipt_id := receipt_for_operation operation_id in
  ensure (all (provenance_matches receipt_id operation_id fence source) artifacts)
    (InvariantViolated "execution receipt artifact provenance does not match its execution");;
  Ok (MkExecutionReceipt receipt_id operation_id digest fence connector external capability source
        result artifacts unmeasured observed_at).

Definition receipt_validate (r : ExecutionReceipt) : outcome unit :=
  ensure (xr_receipt_id r == receipt_for_operation (xr_operation_id r))
    (InvariantViolated "execution receipt id does not match its operation");;
  ensure (is_execution_source (xr_source_kind r))
    (InvariantViolated "execution receipt requires an execution source kind");;
  check_artifact_count (xr_artifacts r);;
  try_for_each (λ a,
    provenance_validate (art_provenance a);;
    ensure (provenance_matches (xr_receipt_id r) (xr_operation_id r) (xr_producer_claim_fence r)
              (xr_source_kind r) a)
      (InvariantViolated "execution receipt artifact provenance does not match its execution"))
    (xr_artifacts r).
End receipts.

(** ** The receipt store *)

Inductive RecordExecutionIntentOutcome := RecordedFirst | RecordedAdditional | IntentAlreadyRecorded.
Inductive RecordExecutionReceiptOutcome := Recorded | ReceiptAlreadyRecorded.

#[export] Instance RecordExecutionIntentOutcome_eq_dec : EqDecision RecordExecutionIntentOutcome.
Proof. solve_decision. Defined.

Record ExecutionReceiptStoreState := MkReceiptStore {
  rs_operations : gmap string ExecutionOperation;
  rs_intents : gmap (string * string) ExecutionIntent;
  rs_requirements : gmap (string * string) ExecutionReconciliationRequirement;
  rs_receipts : gmap string ExecutionReceipt;
}.

#[export] Instance ExecutionReceiptStoreState_eta : Eta ExecutionReceiptStoreState := λ s,
  MkReceiptStore (rs_operations s) (rs_intents s) (rs_requirements s) (rs_receipts s).

Definition receipt_store_empty : ExecutionReceiptStoreState := MkReceiptStore ∅ ∅ ∅ ∅.

Section store.
Context {Hsha : Sha256}.

Definition record_intent (s : ExecutionReceiptStoreState) (i : ExecutionIntent)
    : outcome RecordExecutionIntentOutcome * ExecutionReceiptStoreState :=
  let id := ei_operation_id i in
  let key := (id, ei_claim_fence i) in
  let put s := s <| rs_intents := <[key := i]> (rs_intents s) |> in
  match intent_validate i with
  | Err e => (Err e, s)
  | Panic => (Panic, s)
  | Ok _ =>
      match rs_intents s !! key with
      | Some stored =>
          if stored == i then (Ok IntentAlreadyRecorded, s)
          else (Err (Conflict "execution_intent"), s)
      | None =>
          match rs_operations s !! id with
          | Some stored =>
              if stored != ei_operation i then (Err (Conflict "execution_operation"), s)
              else (Ok RecordedAdditional, put s)
          | None =>
              (Ok RecordedFirst,
               put (s <| rs_operations := <[id := ei_operation i]> (rs_operations s) |>))
          end
      end
  end.

Definition record_requirement (s : ExecutionReceiptStoreState) (r : ExecutionReconciliationRequirement)
    : outcome unit * ExecutionReceiptStoreState :=
  let key := (er_operation_id r, er_producer_claim_fence r) in
  match rs_intents s !! key with
  | None => (Err (NotFound "execution_intent"), s)
  | Some i =>
      if negb (matches_intent r i) then (Err (Conflict "execution_reconciliation_requirement"), s) else
      match rs_requirements s !! key with
      | Some stored =>
          if stored == r then (Ok tt, s) else (Err (Conflict "execution_reconciliation_requirement"), s)
      | None => (Ok tt, s <| rs_requirements := <[key := r]> (rs_requirements s) |>)
      end
  end.

(** The intents of an operation, by fence. *)
Definition intents_of (s : ExecutionReceiptStoreState) (id : string) : list ExecutionIntent :=
  btree_values (default ∅ (map_curry (M1 := gmap string) (M2 := gmap string) (rs_intents s) !! id)).

Definition record_receipt (s : ExecutionReceiptStoreState) (r : ExecutionReceipt)
    : outcome RecordExecutionReceiptOutcome * ExecutionReceiptStoreState :=
  let id := xr_operation_id r in
  let result :=
    receipt_validate r;;
    operation ← ok_or (rs_operations s !! id) (NotFound "execution_operation");
    producer ← ok_or (rs_intents s !! (id, xr_producer_claim_fence r))
                 (InvariantViolated "execution receipt does not match a recorded intent");
    ensure ((eo_request_digest operation == xr_request_digest r)
            && (ei_connector_id producer == xr_connector_id r)
            && (ei_recovery_capability producer == xr_recovery_capability r)
            && (ei_source_kind producer == xr_source_kind r))
      (InvariantViolated "execution receipt does not match its producer intent contract");;
    match rs_receipts s !! id with
    | Some stored => if stored == r then Ok ReceiptAlreadyRecorded else Err (Conflict "execution_receipt")
    | None => Ok Recorded
    end in
  (result, match result with
           | Ok Recorded => s <| rs_receipts := <[id := r]> (rs_receipts s) |>
           | _ => s
           end).

Definition ExecutionRecoveryCursor_new (raw : string) : outcome string :=
  ensure (raw != "") (EmptyField "execution_recovery_cursor");;
  ensure (Z.of_nat (String.length raw) <=? 256)
    (FieldTooLong "execution_recovery_cursor" (Z.of_nat (String.length raw)) 256);;
  ensure (negb (str_has_control raw)) (InvalidCharacters "execution_recovery_cursor");;
  Ok raw.

Definition ExecutionRecoveryPageLimit_MAX : Z := 1000.
Definition ExecutionRecoveryPageLimit_new (value : Z) : outcome Z :=
  ensure (negb (value =? 0)) (MustBeNonZero "execution_recovery_page_limit");;
  ensure (value <=? ExecutionRecoveryPageLimit_MAX)
    (OutOfRange "execution_recovery_page_limit" value 1 ExecutionRecoveryPageLimit_MAX);;
  Ok value.

Record ExecutionRecoveryPage := MkExecutionRecoveryPage {
  rp_operations : list ExecutionOperation;
  rp_next_cursor : option string;
}.

Definition recoverable (s : ExecutionReceiptStoreState) (after : option string) (limit : nat)
    : outcome ExecutionRecoveryPage :=
  let past (o : ExecutionOperation) :=
    is_none_or after (λ cursor, String.ltb cursor (eo_operation_id o)) in
  let matching := take (limit + 1) (List.filter past (btree_values (rs_operations s))) in
  let has_more := (limit <? length matching)%nat in
  let page := take limit matching in
  next ← try_option (λ o, ExecutionRecoveryCursor_new (eo_operation_id o))
           (if has_more then last page else None);
  Ok (MkExecutionRecoveryPage page next).
End store.

(** ** Routines *)

Record Connector := MkConnector {
  cn_connector_id : string;
  cn_recovery_capability : ExecutionRecoveryCapability;
  cn_source_kind : ArtifactSourceKind;
}.

Record CeremonyExecutionRequest := MkExecutionRequest {
  xq_intent : ExecutionIntent;
  xq_handler_request : CeremonyStepHandlerRequest;
}.

Record CeremonyExecutionObservation := MkObservation {
  ob_producer_claim_fence : StepClaimFence;
  ob_external_operation_id : option string;
  ob_result : StepResult;
  ob_artifacts : list ArtifactRef;
  ob_budget_measurement : MeasuredBudgetQuantities;
  ob_observed_at : Instant;
}.

Inductive CeremonyExecutionConnectorOutcome :=
| ConnectorObserved (o : CeremonyExecutionObservation)
| ConnectorAmbiguous (operation_id : string).

Record ExecutionReconciliationAuditRecord := MkReconciliationAudit {
  ra_artifact : ArtifactRef;
  ra_protection_key : string;
}.

(** Every call on a port may fail; the clock and the cancellation signal do not. *)
Inductive Action : Type → Type :=
| GetOperation (id : string) : Action (option ExecutionOperation)
| GetReceipt (id : string) : Action (option ExecutionReceipt)
| GetIntent (id : string) (fence : StepClaimFence) : Action (option ExecutionIntent)
| GetIntents (id : string) : Action (list ExecutionIntent)
| GetRequirement (id : string) (fence : StepClaimFence)
    : Action (option ExecutionReconciliationRequirement)
| PutIntent (i : ExecutionIntent) : Action RecordExecutionIntentOutcome
| PutRequirement (r : ExecutionReconciliationRequirement) : Action unit
| PutReceipt (r : ExecutionReceipt) : Action RecordExecutionReceiptOutcome
| ClockNow : Action Instant
| IsCancelled : Action bool
| Execute (c : Connector) (r : CeremonyExecutionRequest) : Action CeremonyExecutionConnectorOutcome
| RecoverIntent (c : Connector) (i : ExecutionIntent) : Action CeremonyExecutionConnectorOutcome
| ProtectReceipt (r : ExecutionReceipt) : Action unit
| RecordAttempt (by_ : AuthenticatedPrincipal * AuthorizationEvidence) (r : ExecutionReceipt)
    : Action ExecutionReconciliationAuditRecord
| ProtectAttempt (a : ExecutionReconciliationAuditRecord) : Action unit.

Inductive job (A : Type) : Type :=
| Finish (a : A)
| Do {X : Type} (a : Action X) (k : outcome X → job A).

Arguments Finish {A} a.
Arguments Do {A X} a k.

Fixpoint job_bind {A B} (p : job A) (f : A → job B) : job B :=
  match p with
  | Finish a => f a
  | Do a k => Do a (λ x, job_bind (k x) f)
  end.

Definition routine (A : Type) : Type := job (outcome A).

#[export] Instance routine_ret : MRet routine := λ A a, Finish (Ok a).
#[export] Instance routine_bind : MBind routine := λ A B f p,
  job_bind p (λ r, match r with Ok a => f a | Err e => Finish (Err e) | Panic => Finish Panic end).

Definition settle {A} (r : outcome A) : routine A := Finish r.
Definition perform {A} (a : Action A) : routine A := Do a Finish.

(** What a store action does to the store in memory; [None] for the others. *)
Definition store_action {Hsha : Sha256} {X} (a : Action X) (s : ExecutionReceiptStoreState)
    : option (outcome X * ExecutionReceiptStoreState) :=
  match a with
  | GetOperation id => Some (Ok (rs_operations s !! id), s)
  | GetReceipt id => Some (Ok (rs_receipts s !! id), s)
  | GetIntent id fence => Some (Ok (rs_intents s !! (id, fence)), s)
  | GetIntents id => Some (Ok (intents_of s id), s)
  | GetRequirement id fence => Some (Ok (rs_requirements s !! (id, fence)), s)
  | PutIntent i => Some (record_intent s i)
  | PutRequirement r => Some (record_requirement s r)
  | PutReceipt r => Some (record_receipt s r)
  | _ => None
  end.

(** ** Executing (execute_ceremony_operation_use_case.rs) *)

Record ExecuteCeremonyOperationInput := MkExecuteInput {
  xi_handler_request : CeremonyStepHandlerRequest;
  xi_state_visit : Z;
  xi_state_iteration : Z;
  xi_step_iteration : Z;
  xi_claim_fence : StepClaimFence;
  xi_actor_kind : AuditActorKind;
}.

Inductive ExecuteCeremonyOperationOutcome :=
| OutcomeReceipt (r : ExecutionReceipt)
| OutcomeReconciliation (operation_id : string).

Section execute.
Context {Hsha : Sha256} {Hreq : RequestSerde}.
(** The connector of the use case and whether it has an artifact service. *)
Context (connector : Connector) (artifacts : bool).

(** [verify_receipt_artifacts]. *)
Definition verify_receipt_artifacts (r : ExecutionReceipt) : routine unit :=
  if Nat.eqb (length (xr_artifacts r)) 0 then mret tt else
  settle (ensure artifacts (InvariantViolated
    "execution receipt carries artifacts but no artifact store is configured"));;
  perform (ProtectReceipt r).

Definition ensure_authority : routine unit :=
  cancelled ← perform IsCancelled;
  settle (ensure (negb cancelled) (InvariantViolated "execution authority was cancelled")).

(** [CeremonyExecutionRequest::new]. *)
Definition sealed_request (i : ExecutionIntent) (r : CeremonyStepHandlerRequest)
    : outcome CeremonyExecutionRequest :=
  bytes ← semantic_request_bytes r;
  ensure (eo_request (ei_operation i) == bytes)
    (InvariantViolated "handler request does not match the sealed execution request");;
  Ok (MkExecutionRequest i r).

Definition operation_of (input : ExecuteCeremonyOperationInput) : routine ExecutionOperation :=
  let r := xi_handler_request input in
  bytes ← settle (semantic_request_bytes r);
  let candidate := ExecutionOperation_new (sr_instance_id (hr_semantic r)) (sr_step_id (hr_semantic r))
                     (xi_state_visit input) (xi_state_iteration input) (xi_step_iteration input) bytes in
  stored ← perform (GetOperation (eo_operation_id candidate));
  settle (match stored with
          | Some stored => ensure (stored == candidate) (Conflict "execution_operation");; Ok stored
          | None => Ok candidate
          end).

Definition existing_receipt (id : string) : routine (option ExecutionReceipt) :=
  receipt ← perform (GetReceipt id);
  match receipt with
  | None => mret None
  | Some r => verify_receipt_artifacts r;; mret (Some r)
  end.

Definition reconciliation_required (i : ExecutionIntent) : routine bool :=
  requirement ← perform (GetRequirement (ei_operation_id i) (ei_claim_fence i));
  match requirement with
  | None => mret false
  | Some r =>
      settle (ensure (matches_intent r i) (InvariantViolated
        "execution reconciliation requirement does not match its intent"));;
      mret true
  end.

(** The connector that recorded an intent is the one of the use case. *)
Definition same_contract (i : ExecutionIntent) : bool :=
  (ei_connector_id i == cn_connector_id connector)
  && (ei_recovery_capability i == cn_recovery_capability connector)
  && (ei_source_kind i == cn_source_kind connector).

Definition ensure_connector_contract (i : ExecutionIntent) : outcome unit :=
  ensure (same_contract i) (Conflict "execution_connector_contract").

Definition record_reconciliation_required (i : ExecutionIntent) (id : string) : routine unit :=
  settle (ensure (id == ei_operation_id i) (Conflict "execution_reconciliation_requirement"));;
  perform (PutRequirement (requirement_from_intent i)).

(** Every prior intent is recorded as ambiguous. *)
Fixpoint record_ambiguous (id : ExecutionIntent → string) (l : list ExecutionIntent) : routine unit :=
  match l with
  | [] => mret tt
  | i :: l =>
      settle (ensure_connector_contract i);;
      record_reconciliation_required i (id i);;
      record_ambiguous id l
  end.

Definition record_prior_non_queryable_ambiguity (id : string) : routine bool :=
  if cn_recovery_capability connector != ReconciliationRequired then mret false else
  prior ← perform (GetIntents id);
  record_ambiguous (λ _, id) prior;;
  mret (negb (Nat.eqb (length prior) 0)).

Definition record_retry_ambiguity (i : ExecutionIntent) (recorded : RecordExecutionIntentOutcome)
    : routine unit :=
  if recorded == IntentAlreadyRecorded then record_reconciliation_required i (ei_operation_id i) else
  prior ← perform (GetIntents (ei_operation_id i));
  let ambiguous := List.filter (λ p, ei_claim_fence p != ei_claim_fence i) prior in
  settle (ensure (negb (Nat.eqb (length ambiguous) 0))
    (InvariantViolated "additional execution intent has no prior producer intent"));;
  record_ambiguous ei_operation_id ambiguous.

(** [execution_receipt_from_observation]. *)
Definition execution_receipt_from_observation (i : ExecutionIntent) (o : CeremonyExecutionObservation)
    : routine ExecutionReceipt :=
  stored ← perform (GetIntent (ei_operation_id i) (ob_producer_claim_fence o));
  producer ← settle (ok_or stored
    (InvariantViolated "execution observation names an unknown producer claim fence"));
  settle (ensure (same_contract producer)
    (InvariantViolated "execution observation does not match the producer connector contract"));;
  receipt ← settle (ExecutionReceipt_new (ei_operation_id i) (eo_request_digest (ei_operation i))
    (ei_claim_fence producer) (ei_connector_id producer) (ob_external_operation_id o)
    (ei_recovery_capability producer) (ei_source_kind producer) (ob_result o) (ob_artifacts o)
    (ob_observed_at o));
  mret (with_budget_measurement receipt (ob_budget_measurement o)).

(** The intent of this claim: the one already recorded, or a new one. *)
Definition intend (input : ExecuteCeremonyOperationInput) (operation : ExecutionOperation)
    (existing : option ExecutionIntent) : routine (ExecutionIntent * RecordExecutionIntentOutcome) :=
  match existing with
  | Some i =>
      settle (ensure ((ei_operation i == operation) && same_contract i
                      && (ei_actor_kind i == xi_actor_kind input)) (Conflict "execution_intent"));;
      mret (i, IntentAlreadyRecorded)
  | None =>
      now ← perform ClockNow;
      i ← settle (ExecutionIntent_new operation (xi_claim_fence input) (cn_connector_id connector)
                    (cn_recovery_capability connector) (cn_source_kind connector) (xi_actor_kind input)
                    now);
      recorded ← perform (PutIntent i);
      mret (i, recorded)
  end.

(** What the connector observed becomes the receipt. *)
Definition conclude_observation (i : ExecutionIntent) (observed : CeremonyExecutionConnectorOutcome)
    : routine ExecuteCeremonyOperationOutcome :=
  match observed with
  | ConnectorAmbiguous id =>
      record_reconciliation_required i id;; mret (OutcomeReconciliation id)
  | ConnectorObserved o =>
      receipt ← execution_receipt_from_observation i o;
      verify_receipt_artifacts receipt;;
      _ ← perform (PutReceipt receipt);
      mret (OutcomeReceipt receipt)
  end.

(** The attempt once its intent is recorded. *)
Definition attempt (input : ExecuteCeremonyOperationInput) (i : ExecutionIntent)
    (recorded : RecordExecutionIntentOutcome) : routine ExecuteCeremonyOperationOutcome :=
  receipt ← existing_receipt (ei_operation_id i);
  match receipt with
  | Some r => mret (OutcomeReceipt r)
  | None =>
      required ← reconciliation_required i;
      if required : bool then mret (OutcomeReconciliation (ei_operation_id i)) else
      if (recorded != RecordedFirst) && (cn_recovery_capability connector == ReconciliationRequired)
      then record_retry_ambiguity i recorded;; mret (OutcomeReconciliation (ei_operation_id i))
      else
        request ← settle (sealed_request i (xi_handler_request input));
        observed ← perform (Execute connector request);
        conclude_observation i observed
  end.

(** [ExecuteCeremonyOperationUseCase::execute_cancellable]. *)
Definition execute_operation (input : ExecuteCeremonyOperationInput)
    : routine ExecuteCeremonyOperationOutcome :=
  ensure_authority;;
  operation ← operation_of input;
  let id := eo_operation_id operation in
  receipt ← existing_receipt id;
  match receipt with
  | Some r => mret (OutcomeReceipt r)
  | None =>
      existing ← perform (GetIntent id (xi_claim_fence input));
      ambiguous ← (if is_some existing then mret false else record_prior_non_queryable_ambiguity id);
      if ambiguous : bool then
        receipt ← existing_receipt id;
        match receipt with
        | Some r => mret (OutcomeReceipt r)
        | None => mret (OutcomeReconciliation id)
        end
      else
        '(i, recorded) ← intend input operation existing;
        attempt input i recorded
  end.

(** ** Recovering (recover_execution_intent_use_case.rs) *)

Definition recover_intent (i : ExecutionIntent) : routine ExecuteCeremonyOperationOutcome :=
  receipt ← existing_receipt (ei_operation_id i);
  match receipt with
  | Some r => mret (OutcomeReceipt r)
  | None =>
      settle (ensure_connector_contract i);;
      required ← reconciliation_required i;
      if required : bool then mret (OutcomeReconciliation (ei_operation_id i)) else
      if ei_recovery_capability i == ReconciliationRequired
      then perform (PutRequirement (requirement_from_intent i));;
           mret (OutcomeReconciliation (ei_operation_id i))
      else
        observed ← perform (RecoverIntent connector i);
        conclude_observation i observed
  end.
End execute.

(** ** Reconciling (reconcile_execution_operation_use_case.rs) *)

Inductive ReconcileExecutionOperationOutcome :=
| Reconciled (r : ExecutionReceipt) (audit : ArtifactRef)
| AlreadyReconciled (r : ExecutionReceipt) (audit : ArtifactRef).

Section reconcile.
Context {Hsha : Sha256}.

(** What the evidence of the operator must agree on with the intent. *)
Definition evidence_matches (i : ExecutionIntent) (r : ExecutionReceipt) : bool :=
  (ei_operation_id i == xr_operation_id r)
  && (eo_request_digest (ei_operation i) == xr_request_digest r)
  && (ei_claim_fence i == xr_producer_claim_fence r)
  && (ei_connector_id i == xr_connector_id r)
  && (ei_source_kind i == xr_source_kind r)
  && (ei_recovery_capability i == xr_recovery_capability r)
  && measurement_is_unknown (xr_budget_measurement r).

Definition requirement_matches (q : ExecutionReconciliationRequirement) (i : ExecutionIntent)
    (r : ExecutionReceipt) : bool :=
  matches_intent q i && (er_operation_id q == xr_operation_id r)
  && (er_request_digest q == xr_request_digest r)
  && (er_producer_claim_fence q == xr_producer_claim_fence r)
  && (er_connector_id q == xr_connector_id r).

Definition reconcile_operation (by_ : AuthenticatedPrincipal * AuthorizationEvidence)
    (r : ExecutionReceipt) : routine ReconcileExecutionOperationOutcome :=
  settle (ensure (evidence_action by_.2 == AA_ReconcileExecutionOperation)
    (InvariantViolated "execution reconciliation requires its dedicated authorization action"));;
  settle (receipt_validate r);;
  settle (ensure (negb (Nat.eqb (length (xr_artifacts r)) 0))
    (EmptyField "execution_reconciliation.evidence"));;
  stored ← perform (GetIntent (xr_operation_id r) (xr_producer_claim_fence r));
  i ← settle (ok_or stored (NotFound "execution_intent"));
  settle (ensure (evidence_matches i r) (Conflict "execution_reconciliation"));;
  stored ← perform (GetRequirement (xr_operation_id r) (xr_producer_claim_fence r));
  q ← settle (ok_or stored (Conflict "execution_reconciliation_requirement"));
  settle (ensure (requirement_matches q i r) (Conflict "execution_reconciliation_requirement"));;
  audit ← perform (RecordAttempt by_ r);
  perform (ProtectAttempt audit);;
  existing ← perform (GetReceipt (xr_operation_id r));
  match existing with
  | Some stored =>
      settle (ensure (stored == r) (Conflict "execution_receipt"));;
      perform (ProtectReceipt stored);;
      mret (AlreadyReconciled stored (ra_artifact audit))
  | None =>
      perform (ProtectReceipt r);;
      recorded ← perform (PutReceipt r);
      match recorded with
      | Recorded => mret (Reconciled r (ra_artifact audit))
      | ReceiptAlreadyRecorded =>
          existing ← perform (GetReceipt (xr_operation_id r));
          stored ← settle (ok_or existing (InvariantViolated "recorded execution receipt is unavailable"));
          settle (ensure (stored == r) (Conflict "execution_receipt"));;
          mret (AlreadyReconciled stored (ra_artifact audit))
      end
  end.
End reconcile.
