(* ===== verification/Scenario.v ===== *)
(** * A concrete ceremony the general theorems are exercised on

    A drafting state worked one step at a time, a review state worked in
    parallel, a human sign-off and a way back.  The digest, the clock and the
    evidence encoder are concrete functions here, so that every definition of
    the library evaluates on it. *)

From S2P Require Import Prelude Errors Text Values Steps Definitions Interventions Instance.
From S2P Require Import Fold Rules Decide DecideTable DecideLineage Engine.

(** The identity is a collision-free stand-in for the digest. *)
#[export] Instance demo_sha : Sha256 := λ s, s.
#[export] Instance demo_clock : Clock := λ at_ ms, Some (at_ + ms * 1000000).
#[export] Instance demo_serde : EvidenceSerde := λ pack, Some (VString (ev_source_id pack)).

Definition demo_retry : RetryPolicy := MkRetryPolicy 2 0.

Definition demo_step (id : StepId) (state : StateId) (timeout : option Z) : CeremonyStep :=
  CeremonyStep_new id state "multiagent_round" ∅ demo_retry timeout.

Definition demo_plan : CeremonyStep := demo_step "plan" "drafting" (Some 60000).
Definition demo_check : CeremonyStep := demo_step "check" "drafting" None.
Definition demo_left : CeremonyStep := demo_step "left" "review" None.
Definition demo_right : CeremonyStep := demo_step "right" "review" None.
Definition demo_third : CeremonyStep := demo_step "third" "review" None.

Definition demo_state (id : StateId) (kind : CeremonyStateKind) (execution : StateExecution)
    : CeremonyState :=
  MkCeremonyState id kind execution None ∅.

Definition demo : CeremonyDefinition := {|
  def_name := "planning";
  def_version := "1.0";
  def_description := None;
  def_inputs := ∅;
  def_outputs := ∅;
  def_states := {[ "drafting" := demo_state "drafting" Initial Sequential;
                   "review" := demo_state "review" Intermediate Concurrent;
                   "done" := demo_state "done" Terminal Sequential ]};
  def_transitions :=
    [ MkCeremonyTransition "drafting" "review" "submit" {["checked"]};
      MkCeremonyTransition "review" "drafting" "rework" ∅;
      MkCeremonyTransition "review" "done" "approve" {["reviewed"; "sign_off"]} ];
  def_steps := {[ "plan" := demo_plan; "check" := demo_check; "left" := demo_left;
                  "right" := demo_right; "third" := demo_third ]};
  def_step_order := ["plan"; "check"; "left"; "right"; "third"];
  def_guards := {[ "checked" := MkCeremonyGuard "checked" (StepStatusIs "check" Completed);
                   "reviewed" := MkCeremonyGuard "reviewed" (StepsCompleted 2);
                   "sign_off" := MkCeremonyGuard "sign_off" HumanApproval ]};
  def_roles := {[ "lead" := MkCeremonyRole "lead"
                    {[ ActStep "plan"; ActStep "check"; ActStep "left"; ActTransition "submit";
                       ActTransition "rework"; ActTransition "approve"; ActRequestIntervention ]};
                  "peer" := MkCeremonyRole "peer"
                    {[ ActStep "right"; ActRespondToIntervention ]};
                  "third" := MkCeremonyRole "third"
                    {[ ActStep "third"; ActRespondToIntervention ]} ]};
  def_max_parallel := 2;
  def_max_transitions := Some 4;
  def_max_bounces := Some 2;
  def_ceremony_timeout := None;
  def_state_timeout := None;
|}.

(** One minute, in nanoseconds. *)
Definition minute : Z := 60000000000.

(** The stream the opening of a session appends. *)
Definition demo_opening : list CeremonyEvent :=
  match decide_start "ceremony-1" demo ∅ None 0 with Ok es => es | _ => [] end.

Definition demo_started : CeremonyInstanceStarted :=
  match demo_opening with EvCeremonyInstanceStarted e :: _ => e | _ => MkCeremonyInstanceStarted
    "" "" "" "" ∅ ∅ None None None None None None 0 end.

Definition demo_start : CeremonyInstance := from_started demo_started.

Definition lease_of (owner key : string) (from until : Instant) : StepLease :=
  MkStepLease owner key from until None.

Definition claim_cmd (id : StepId) (key : string) (now : Instant) : CeremonyCommand :=
  CmdStartStep (MkStartStep None id (lease_of "worker" key now (now + minute)) now
                  MaxParallel_SERVER_MAX None).

(** The fence of the claim a session holds on a step. *)
Definition fence_of (i : CeremonyInstance) (id : StepId) : StepClaimFence :=
  match step_claim_fence i id with Ok fence => fence | _ => "" end.

Definition demo_success : StepResult := MkStepResult Completed ∅ None None.

Definition finish_cmd (i : CeremonyInstance) (id : StepId) (now : Instant) : CeremonyCommand :=
  CmdApplyStepResult (MkApplyStepResult id (fence_of i id) demo_success now).

Definition move_cmd (trigger : string) (now : Instant) : CeremonyCommand :=
  CmdApplyTransition (MkApplyTransition None trigger now).

(** The session after a command, or the same session when it is refused. *)
Definition after_in (d : CeremonyDefinition) (i : CeremonyInstance) (c : CeremonyCommand)
    : CeremonyInstance :=
  match execute i c d with Ok i' => i' | _ => i end.

Definition events_in (d : CeremonyDefinition) (i : CeremonyInstance) (c : CeremonyCommand)
    : list CeremonyEvent :=
  match decide i c d with Ok es => es | _ => [] end.

Definition after := after_in demo.
Definition events_of := events_in demo.

Definition record_of (i : CeremonyInstance) (id : StepId) : StepExecutionRecord :=
  default record_pending (step_records i !! id).

(** ** A run of the ceremony *)

Definition planning := after demo_start (claim_cmd "plan" "key-1" 0).
Definition planned := after planning (finish_cmd planning "plan" minute).
Definition checking := after planned (claim_cmd "check" "key-2" minute).
Definition checked := after checking (finish_cmd checking "check" (2 * minute)).
Definition reviewing := after checked (move_cmd "submit" (2 * minute)).
Definition left_taken := after reviewing (claim_cmd "left" "key-3" (2 * minute)).
Definition both_taken := after left_taken (claim_cmd "right" "key-4" (2 * minute)).

Definition first_claim : StepStarted :=
  match events_of demo_start (claim_cmd "plan" "key-1" 0) with
  | [EvStepStarted e] => e
  | _ => MkStepStarted "" None None 0 0 (lease_of "" "" 0 0) "" None None None None 0
  end.

Definition demo_stream : list CeremonyEvent :=
  demo_opening ++ events_of demo_start (claim_cmd "plan" "key-1" 0)
    ++ events_of planning (finish_cmd planning "plan" minute)
    ++ events_of planned (claim_cmd "check" "key-2" minute)
    ++ events_of checking (finish_cmd checking "check" (2 * minute))
    ++ events_of checked (move_cmd "submit" (2 * minute))
    ++ events_of reviewing (claim_cmd "left" "key-3" (2 * minute))
    ++ events_of left_taken (claim_cmd "right" "key-4" (2 * minute)).

Lemma demo_session_start : session demo demo_opening demo_start.
Proof.
  apply (session_started demo "ceremony-1" ∅ None None None None 0 demo_started demo_start);
    vm_compute; reflexivity.
Qed.

(** One more command of a session, when it is accepted. *)
Lemma session_after_in d es i c :
  session d es i → is_ok (execute i c d) && command_valid c = true →
  session d (es ++ events_in d i c) (after_in d i c).
Proof.
  intros Hs [Hok Hv]%andb_true_iff. unfold after_in, events_in. unfold execute in *.
  destruct (decide i c d) as [es'| |] eqn:Hd; try done. simpl in *.
  destruct (apply_all i es') as [i'| |] eqn:Ha; try done.
  by eapply session_decides.
Qed.

Lemma session_after es i c :
  session demo es i → is_ok (execute i c demo) && command_valid c = true →
  session demo (es ++ events_of i c) (after i c).
Proof. apply session_after_in. Qed.

Lemma planning_session :
  session demo (demo_opening ++ events_of demo_start (claim_cmd "plan" "key-1" 0)) planning.
Proof. apply session_after; [apply demo_session_start|vm_compute; reflexivity]. Qed.

Lemma demo_session : session demo demo_stream both_taken.
Proof.
  unfold demo_stream. rewrite !app_assoc.
  repeat (apply session_after; [|vm_compute; reflexivity]).
  apply demo_session_start.
Qed.

(** ** Pausing, ending and handing over *)

Definition paused := after planning (CmdPauseCeremony "lunch" 1).
Definition cancelled := after planning (CmdCancelCeremony "out of scope" 1).

Definition demo_published : PublishedCeremonyDefinition :=
  MkPublishedCeremonyDefinition demo "digest-2" MadeV1.

(** A plan that hands the paused session over and abandons its open claim. *)
Definition demo_succession : SuccessionPlan := {|
  sp_plan_id := "plan-1";
  sp_successor_id := match successor_derive (instance_id paused) "plan-1" with
                     | Ok id => id | _ => "" end;
  sp_successor_definition := MkDefinitionPin "planning" "1.0" "digest-2";
  sp_carried := [];
  sp_dispositions := [MkClaimDisposition "plan" (fence_of paused "plan") RetryInSuccessor];
  sp_budget := BudgetFresh;
  sp_planned_by := "operator";
  sp_planned_at := 2;
|}.

Definition handover : PlanSuccessor := MkPlanSuccessor demo_succession demo_published [] 2.
Definition superseded := after paused (CmdPlanSuccessor handover).

Definition superseded_stream : list CeremonyEvent :=
  demo_opening ++ events_of demo_start (claim_cmd "plan" "key-1" 0)
    ++ events_of planning (CmdPauseCeremony "lunch" 1)
    ++ events_of paused (CmdPlanSuccessor handover).

Lemma superseded_session : session demo superseded_stream superseded.
Proof.
  unfold superseded_stream. rewrite !app_assoc.
  do 2 (apply session_after; [|vm_compute; reflexivity]). apply planning_session.
Qed.

(** ** A parent ceremony

    The same ceremony with a planning step that spawns one child. *)

Definition parent_demo : CeremonyDefinition := {|
  def_name := def_name demo; def_version := def_version demo;
  def_description := def_description demo; def_inputs := def_inputs demo;
  def_outputs := def_outputs demo; def_states := def_states demo;
  def_transitions := def_transitions demo;
  def_steps := <["plan" := demo_plan <| step_spawn := Some
    (MkCeremonyChildSpawn [MkCeremonyChildSpec "review" "1.0" ∅] 1 3) |>]> (def_steps demo);
  def_step_order := def_step_order demo; def_guards := def_guards demo;
  def_roles := def_roles demo; def_max_parallel := def_max_parallel demo;
  def_max_transitions := def_max_transitions demo; def_max_bounces := def_max_bounces demo;
  def_ceremony_timeout := None; def_state_timeout := None;
|}.

Definition parent := after_in parent_demo demo_start (claim_cmd "plan" "key-1" 0).

Definition child_coordinates : ChildSpawnCoordinates := MkChildSpawnCoordinates "plan" 1 1 1.
Definition child_group : string := child_group_derive (instance_id parent) child_coordinates.

Definition demo_child : PlannedChild := {|
  pc_child_id := "child-1"; pc_position := 1; pc_ceremony := "review"; pc_version := "1.0";
  pc_digest := "digest-3"; pc_context := ∅;
  pc_lineage := MkCeremonyLineage (instance_id parent) (instance_id parent) child_group 1 1 2;
  pc_recollection := None; pc_budget_account_id := None; pc_opened_at := 1;
|}.

Definition child_plan : ChildSpawnPlan :=
  MkChildSpawnPlan child_group child_coordinates (fence_of parent "plan") [demo_child] 1 3.

Definition plan_cmd : CeremonyCommand := CmdPlanCeremonyChildren child_plan 1.
Definition joined_cmd : CeremonyCommand :=
  CmdAcceptChildCompletion (MkChildCompletionRef child_group "child-1" "event-9" "hash-9") 2.

Definition spawned := after_in parent_demo parent plan_cmd.
Definition joined := after_in parent_demo spawned joined_cmd.
Definition joined_stream : list CeremonyEvent :=
  demo_opening ++ events_in parent_demo demo_start (claim_cmd "plan" "key-1" 0)
    ++ events_in parent_demo parent plan_cmd ++ events_in parent_demo spawned joined_cmd.

Lemma joined_session : session parent_demo joined_stream joined.
Proof.
  unfold joined_stream. rewrite !app_assoc.
  do 3 (apply session_after_in; [|vm_compute; reflexivity]).
  apply (session_started parent_demo "ceremony-1" ∅ None None None None 0 demo_started demo_start);
    vm_compute; reflexivity.
Qed.

(** The definition indexes its steps as [collect_steps] does. *)
Lemma demo_indexed : steps_indexed demo.
Proof.
  split_and!.
  - assert (map_Forall (λ id s, step_id s = id) (def_steps demo)) as Hall
      by (apply (bool_decide_eq_true_1 _); vm_compute; reflexivity). exact Hall.
  - intros id. rewrite <-elem_of_dom.
    assert (dom (def_steps demo) = list_to_set (def_step_order demo)) as ->
      by (apply (bool_decide_eq_true_1 _); vm_compute; reflexivity).
    by rewrite elem_of_list_to_set.
  - apply (bool_decide_eq_true_1 _). vm_compute. reflexivity.
Qed.
