(* ===== verification/Sessions.v ===== *)
(** * Streams and sessions: what replaying a journal gives back

    Facts about the fold alone (fold/mod.rs) and about every session the
    aggregate can reach: which events a command emits, which part of the state
    an event leaves alone, and that folding the journal of a session from its
    opening gives exactly the state the live aggregate holds. *)

From S2P Require Import Prelude Errors Text Values Steps Definitions Interventions Instance.
From S2P Require Import Fold Rules Decide DecideTable DecideLineage Engine.

(** ** Folding streams *)

Lemma apply_all_app i es es' :
  apply_all i (es ++ es') = i' ← apply_all i es; apply_all i' es'.
Proof.
  revert i. induction es as [|e es IH]; intros i; [done|].
  simpl. destruct (apply i e); [apply IH|done|done].
Qed.

Lemma fold_tail_app i es es' :
  fold_tail i (es ++ es') = i' ← fold_tail i es; fold_tail i' es'.
Proof.
  revert i. induction es as [|e es IH]; intros i; [done|].
  simpl. destruct (is_import e); [done|]. simpl.
  destruct (apply i e); [apply IH|done|done].
Qed.

(** Without an import the loop of [rehydrate] is [apply_all]. *)
Lemma fold_tail_apply_all i es :
  any is_import es = false → fold_tail i es = apply_all i es.
Proof.
  revert i. induction es as [|e es IH]; intros i; [done|]. simpl.
  intros [He Hes]%orb_false_iff. rewrite He. simpl.
  destruct (apply i e); [by apply IH|done|done].
Qed.

Lemma rehydrate_app e es es' :
  rehydrate ((e :: es) ++ es') = i ← rehydrate (e :: es); fold_tail i es'.
Proof. destruct e; try done; simpl; apply fold_tail_app. Qed.

(** [apply] never refuses: it writes the event or panics. *)
Lemma apply_never_Err i e err : apply i e ≠ Err err.
Proof.
  destruct e; try done. simpl. unfold apply_context_written.
  by destruct (with_patch _ _).
Qed.

Lemma apply_Panic i e :
  apply i e = Panic ↔
  ∃ w, e = EvContextWritten w ∧ is_ok (with_patch (context i) (cw_patch w)) = false.
Proof.
  split.
  - destruct e as [| | | | | | |w| | | | | | | | | | | | | | | | | | | | | | | | | |]; try done.
    simpl. unfold apply_context_written. intros Hp. exists w. split; [done|].
    by destruct (with_patch _ _).
  - intros (w & -> & Hw). simpl. unfold apply_context_written. by destruct (with_patch _ _).
Qed.

(** ** What an event leaves alone *)

(** The identity of a session, fixed by its opening. *)
Definition identity (i : CeremonyInstance) :=
  (instance_id i, definition_name i, definition_version i, created_at i, bound_definition i,
   lineage i, budget_account_id i, ceremony_deadline i, succession i).

(** The work of a session: where it stands, its records, its moves, the keys
    it has accepted and the deadlines of its claims. *)
Record Work := MkWork {
  w_state : StateId;
  w_pass : Z;
  w_visit : Z;
  w_records : gmap string StepExecutionRecord;
  w_history : gmap string (list StepExecutionRecord);
  w_moves : list CeremonyTransitionRecord;
  w_keys : gset string;
  w_deadlines : gmap string StepDeadline;
}.

#[export] Instance Work_eta : Eta Work := λ w,
  MkWork (w_state w) (w_pass w) (w_visit w) (w_records w) (w_history w) (w_moves w) (w_keys w)
    (w_deadlines w).

Definition work (i : CeremonyInstance) : Work :=
  MkWork (current_state i) (current_state_iteration i) (current_state_visit i) (step_records i)
    (step_record_history i) (transitions i) (idempotency_keys i) (step_deadlines i).

Definition work_event (e : CeremonyEvent) : bool :=
  match e with
  | EvStepStarted _ | EvStepLeaseRenewed _ | EvStepCompleted _ | EvStepFailed _
  | EvStateIterationStarted _ | EvTransitionApplied _ | EvStepDeadlineExceeded _ _ _
  | EvSuccessionCarried _ _ | EvInstanceImported _ => true
  | _ => false
  end.

Section frames.
Context {T : Type} (f : CeremonyInstance → T).

(** A loop whose body keeps [f] keeps [f]. *)
Lemma foldl_keeps {A} (g : CeremonyInstance → A → CeremonyInstance) l i :
  (∀ i x, f (g i x) = f i) → f (foldl g i l) = f i.
Proof.
  intros Hg. revert i. induction l as [|x l IH]; intros i; [done|]. simpl. by rewrite IH.
Qed.
End frames.

(** Unfold one application of an event to its effect on the state. *)
Ltac unfold_apply :=
  unfold apply_host_handoff_recorded, apply_participants_bound, apply_step_started,
    apply_step_lease_renewed, apply_step_completed, apply_step_failed,
    apply_state_iteration_started, apply_transition_applied, apply_intervention_requested,
    apply_intervention_responded, apply_intervention_closed,
    apply_intervention_delivery_acknowledged, apply_reason_asserted,
    apply_human_approval_recorded, apply_human_deferral_recorded, apply_ceremony_completed,
    apply_memory_recalled, apply_child_spawn_planned, apply_child_spawn_plan_adopted,
    apply_child_completion_accepted, apply_ceremony_paused, apply_ceremony_resumed,
    apply_ceremony_cancelled, apply_ceremony_deadline_exceeded, apply_state_deadline_exceeded,
    apply_step_deadline_exceeded, apply_late_step_result_observed,
    apply_execution_receipt_linked, apply_successor_planned, apply_succession_carried,
    record_that_it_answers.

(** Prove that an event keeps a projection: every branch of the event's
    effect is an update of other fields, and loops keep the projection. *)
Ltac frame_event :=
  unfold_apply;
  repeat first
    [ reflexivity
    | match goal with
      | |- ?f ?X = _ =>
          match X with
          | context [foldl ?g ?j ?l] =>
              transitivity (f (foldl g j l)); [reflexivity|];
              rewrite (foldl_keeps f)
                by (intros; unfold reopen_iterated_step, reset_entered_step;
                    repeat destruct_match; reflexivity)
          end
      end
    | progress cbv zeta
    | destruct_match ].

Lemma apply_ok_cases i e i' :
  apply i e = Ok i' →
  (∃ w p, e = EvContextWritten w ∧ with_patch (context i) (cw_patch w) = Ok p ∧
          i' = i <| context := p |> <| updated_at := cw_written_at w |>) ∨
  (∀ w, e ≠ EvContextWritten w).
Proof.
  destruct e; simpl; intros He; try (right; done). left.
  unfold apply_context_written in He. destruct (with_patch _ _) eqn:Hp; simplify_eq/=. eauto 10.
Qed.

Lemma apply_identity i e i' : apply i e = Ok i' → is_import e = false → identity i' = identity i.
Proof.
  intros He Hi. destruct (apply_ok_cases _ _ _ He) as [(w & p & -> & _ & ->)|Hw]; [done|].
  destruct e; try done; try (by destruct (Hw e)); injection He as <-; clear Hw Hi; frame_event.
Qed.

Lemma apply_work_frame i e i' : apply i e = Ok i' → work_event e = false → work i' = work i.
Proof.
  intros He Hi. destruct (apply_ok_cases _ _ _ He) as [(w & p & -> & _ & ->)|Hw]; [done|].
  destruct e; try done; try (by destruct (Hw e)); injection He as <-; clear Hw Hi; frame_event.
Qed.

(** Fields only a few kinds of event write. *)
Definition completion_event (e : CeremonyEvent) : bool :=
  match e with EvCeremonyCompleted _ _ | EvInstanceImported _ => true | _ => false end.

Lemma apply_completion_frame i e i' :
  apply i e = Ok i' → completion_event e = false → completed_at i' = completed_at i.
Proof.
  intros He Hi. destruct (apply_ok_cases _ _ _ He) as [(w & p & -> & _ & ->)|Hw]; [done|].
  destruct e; try done; try (by destruct (Hw e)); injection He as <-; clear Hw Hi; frame_event.
Qed.

Definition lifecycle_event (e : CeremonyEvent) : bool :=
  match e with
  | EvCeremonyPaused _ _ | EvCeremonyResumed _ | EvCeremonyCancelled _ _
  | EvCeremonyDeadlineExceeded _ _ | EvStateDeadlineExceeded _ _ | EvInstanceImported _ => true
  | _ => false
  end.

Lemma apply_lifecycle_frame i e i' :
  apply i e = Ok i' → lifecycle_event e = false → lifecycle_field i' = lifecycle_field i.
Proof.
  intros He Hi. destruct (apply_ok_cases _ _ _ He) as [(w & p & -> & _ & ->)|Hw]; [done|].
  destruct e; try done; try (by destruct (Hw e)); injection He as <-; clear Hw Hi; frame_event.
Qed.

Definition table_event (e : CeremonyEvent) : bool :=
  match e with
  | EvInterventionRequested _ | EvInterventionResponded _ _ | EvInterventionClosed _ _ _
  | EvInterventionDeliveryAcknowledged _ _ | EvInstanceImported _ => true
  | _ => false
  end.

Lemma apply_table_frame i e i' :
  apply i e = Ok i' → table_event e = false → interventions i' = interventions i.
Proof.
  intros He Hi. destruct (apply_ok_cases _ _ _ He) as [(w & p & -> & _ & ->)|Hw]; [done|].
  destruct e; try done; try (by destruct (Hw e)); injection He as <-; clear Hw Hi; frame_event.
Qed.

Definition succession_event (e : CeremonyEvent) : bool :=
  match e with EvSuccessorPlanned _ | EvInstanceImported _ => true | _ => false end.

Lemma apply_succession_frame i e i' :
  apply i e = Ok i' → succession_event e = false → successor_plan i' = successor_plan i.
Proof.
  intros He Hi. destruct (apply_ok_cases _ _ _ He) as [(w & p & -> & _ & ->)|Hw]; [done|].
  destruct e; try done; try (by destruct (Hw e)); injection He as <-; clear Hw Hi; frame_event.
Qed.

(** A batch that touches nothing of a projection keeps it. *)
Lemma apply_all_frame {T} (f : CeremonyInstance → T) (touches : CeremonyEvent → bool) i es i' :
  (∀ i e i', apply i e = Ok i' → touches e = false → f i' = f i) →
  apply_all i es = Ok i' → any touches es = false → f i' = f i.
Proof.
  intros Hf. revert i. induction es as [|e es IH]; intros i Hes; simpl in *; [by simplify_eq|].
  intros [He Hno]%orb_false_iff. invert_ok Hes.
  erewrite IH by done. by eapply Hf.
Qed.

Lemma apply_all_identity i es i' :
  apply_all i es = Ok i' → any is_import es = false → identity i' = identity i.
Proof. apply apply_all_frame. apply apply_identity. Qed.

Lemma apply_all_work_frame i es i' :
  apply_all i es = Ok i' → any work_event es = false → work i' = work i.
Proof. apply apply_all_frame. apply apply_work_frame. Qed.

(** ** What a command emits *)

(** The kinds of event each command may decide. *)
Definition emits (c : CeremonyCommand) (e : CeremonyEvent) : bool :=
  match c, e with
  | CmdRecordHostHandoff _ _, EvHostHandoffRecorded _
  | CmdBindParticipant _ _ _, EvParticipantsBound _
  | CmdStartStep _, EvStepStarted _
  | CmdRenewStepLease _, EvStepLeaseRenewed _
  | CmdApplyStepResult _, (EvStepCompleted _ | EvStepFailed _ | EvContextWritten _
      | EvStateIterationStarted _ | EvLateStepResultObserved _ _)
  | CmdApplyExecutionReceiptResult _, (EvExecutionReceiptLinked _ _ _ | EvStepCompleted _
      | EvStepFailed _ | EvContextWritten _ | EvStateIterationStarted _
      | EvLateStepResultObserved _ _)
  | CmdApplyTransition _, (EvTransitionApplied _ | EvCeremonyCompleted _ _)
  | CmdApproveGuard _, EvHumanApprovalRecorded _
  | CmdDeferGuard _, EvHumanDeferralRecorded _
  | CmdRequestIntervention _, EvInterventionRequested _
  | CmdRespondToIntervention _, EvInterventionResponded _ _
  | CmdRespondToInterventionWithEvidence _ _ _ _,
      (EvEvidenceCollected _ | EvInterventionResponded _ _)
  | CmdAcknowledgeInterventionDelivery _ _ _, EvInterventionDeliveryAcknowledged _ _
  | CmdAssertReason _, EvReasonAsserted _
  | CmdCloseIntervention _ _ _, EvInterventionClosed _ _ _
  | CmdPlanCeremonyChildren _ _, EvChildSpawnPlanned _ _
  | CmdPlanSuccessor _, EvSuccessorPlanned _
  | CmdAdoptChildSpawnPlan _ _ _, EvChildSpawnPlanAdopted _ _ _
  | CmdAcceptChildCompletion _ _, EvChildCompletionAccepted _ _
  | CmdPauseCeremony _ _, EvCeremonyPaused _ _
  | CmdResumeCeremony _, EvCeremonyResumed _
  | CmdCancelCeremony _ _, EvCeremonyCancelled _ _
  | CmdEnforceCeremonyDeadlines _, (EvCeremonyDeadlineExceeded _ _
      | EvStateDeadlineExceeded _ _ | EvStepDeadlineExceeded _ _ _) => true
  | _, _ => false
  end.

Section emits.
Context `{Hsha : Sha256} `{Hclk : Clock} `{Hser : EvidenceSerde}.

Lemma decide_state_iteration_shape i d now es :
  decide_state_iteration i d now = Ok es →
  es = [] ∨ ∃ n, es = [EvStateIterationStarted n] ∧
    sis_state_visit n = Some (current_state_visit i) ∧
    StateIteration_next (current_state_iteration i) = Ok (sis_state_iteration n) ∧
    sis_step_ids n = List.map step_id (steps_for_state d (current_state i)) ∧
    is_some_and (state_repeat_policy i d) (λ p,
      state_repeat_permits_another_iteration p (current_state_iteration i)) = true ∧
    state_work_is_complete i d = true.
Proof.
  unfold decide_state_iteration. intros Hd.
  destruct (state_repeat_policy i d) as [p|] eqn:Hp; [|simplify_eq; by left].
  destruct (_ || _ || _) eqn:Hc in Hd; [simplify_eq; by left|].
  apply orb_false_iff in Hc as [[Hc1 _]%orb_false_iff Hc3].
  apply negb_false_iff in Hc1, Hc3.
  invert_ok Hd. right. eexists. by split_and!.
Qed.

Lemma decide_late_shape i d c r :
  decide_late_step_result i d c = Ok r →
  r = None ∨ r = Some [] ∨ ∃ late, r = Some [EvLateStepResultObserved late (cmd_result_now c)] ∧
    late_step_id late = cmd_result_step_id c ∧ late_claim_fence late = cmd_result_claim_fence c ∧
    late_result late = cmd_result_result c.
Proof. unfold decide_late_step_result. intros Hd. invert_ok Hd; naive_solver. Qed.

(** What holds when a result is filed against a live claim. *)
Record filed (i : CeremonyInstance) (d : CeremonyDefinition) (c : ApplyStepResult)
    (step : CeremonyStep) (record : StepExecutionRecord) : Prop := {
  filed_definition : matches_definition i d = true;
  filed_step : def_step d (cmd_result_step_id c) = Some step;
  filed_state : step_state_id step = current_state i;
  filed_record : step_records i !! cmd_result_step_id c = Some record;
  filed_in_progress : rec_status record = InProgress;
  filed_fence : step_claim_fence i (cmd_result_step_id c) = Ok (cmd_result_claim_fence c);
  filed_on_time : decide_late_step_result i d c = Ok None;
}.

(** The events a filed success decides before the state is looked at. *)
Record completed_with (i : CeremonyInstance) (d : CeremonyDefinition) (c : ApplyStepResult)
    (step : CeremonyStep) (record : StepExecutionRecord) (completed : StepCompleted)
    (written : list CeremonyEvent) : Prop := {
  cwith_success : result_is_success (cmd_result_result c) = true;
  cwith_step : sc_step_id completed = cmd_result_step_id c;
  cwith_result : sc_result completed = cmd_result_result c;
  cwith_iteration : sc_iteration completed = rec_iteration record;
  cwith_pass : is_some (sc_state_iteration completed) = true;
  cwith_next : ∀ n, sc_next_iteration completed = Some n →
    StepIteration_next (rec_iteration record) = Ok n ∧
    ∃ p, step_repeat_policy step = Some p ∧
         repeat_permits_another_iteration p (rec_iteration record) = true;
  cwith_written : written = [] ∨ ∃ w, written = [EvContextWritten w] ∧
    context_writes_resolve (step_context_writes step) (res_output (cmd_result_result c))
      = Ok (Some (cw_patch w));
}.

(** Every way a filed result can be accepted. *)
Lemma result_cases i d c es :
  decide_apply_step_result i d c = Ok es →
  es = [] ∨
  (∃ late, es = [EvLateStepResultObserved late (cmd_result_now c)] ∧
     late_claim_fence late = cmd_result_claim_fence c) ∨
  ∃ step record, filed i d c step record ∧
    ((∃ failed, es = [EvStepFailed failed] ∧ sf_step_id failed = cmd_result_step_id c ∧
        sf_result failed = cmd_result_result c ∧ is_some (sf_state_iteration failed) = true ∧
        result_is_success (cmd_result_result c) = false) ∨
     (∃ completed written projected more,
        es = (EvStepCompleted completed :: written) ++ more ∧
        completed_with i d c step record completed written ∧
        apply_all i (EvStepCompleted completed :: written) = Ok projected ∧
        decide_state_iteration projected d (cmd_result_now c) = Ok more)).
Proof.
  unfold decide_apply_step_result. intros Hd.
  apply bind_Ok in Hd as ([] & Hdef%ensure_Ok & Hd).
  apply bind_Ok in Hd as ([] & _ & Hd).
  apply bind_Ok in Hd as (step & Hstep%ok_or_Ok & Hd).
  apply bind_Ok in Hd as (late & Hlate & Hd). destruct late as [es'|].
  { simplify_eq. apply decide_late_shape in Hlate as [?|[?|(late & ? & ? & ? & ?)]]; simplify_eq.
    - by left.
    - right. left. eauto. }
  right. right.
  apply bind_Ok in Hd as ([] & Hstate%ensure_Ok%eqb_true_1 & Hd).
  apply bind_Ok in Hd as (record & Hrec%ok_or_Ok & Hd).
  apply bind_Ok in Hd as ([] & Hprog%ensure_Ok%eqb_true_1 & Hd).
  apply bind_Ok in Hd as ([] & Hfence & Hd).
  exists step, record. split.
  { unfold require_step_claim_fence in Hfence.
    apply bind_Ok in Hfence as (fence & Hf & ->%ensure_Ok%eqb_true_1). by constructor. }
  destruct (negb (result_is_success _)) eqn:Hs.
  - invert_ok Hd. left. eexists. split_and!; [done..|]. by apply negb_true_iff.
  - right. apply negb_false_iff in Hs.
    apply bind_Ok in Hd as (next & Hnext & Hd).
    apply bind_Ok in Hd as (by_ & _ & Hd).
    apply bind_Ok in Hd as (patch & Hpatch & Hd).
    apply bind_Ok in Hd as (projected & Hproj & Hd).
    apply bind_Ok in Hd as (more & Hmore & Hd). simplify_eq.
    do 4 eexists. split_and!; [reflexivity| |exact Hproj|exact Hmore].
    constructor; try done; simpl.
    + intros n ->. apply try_option_Ok in Hnext.
      destruct (option_keep _ (option_keep _ _)) eqn:Heqo in Hnext; [|done].
      destruct Hnext as (m & Hm & [= ->]).
      apply option_keep_Some in Heqo as [[Ho _]%option_keep_Some Hp]. eauto.
    + destruct patch as [patch|]; [right; eauto|by left].
Qed.

Lemma emits_result i d c es :
  decide_apply_step_result i d c = Ok es →
  all (emits (CmdApplyStepResult c)) es = true.
Proof.
  intros [->|[(late & -> & _)|(step & record & _ & [(f & -> & _)|
    (comp & written & proj & more & -> & Hw & _ & Hm)])]]%result_cases; try done.
  apply cwith_written in Hw.
  apply decide_state_iteration_shape in Hm as [->|(n & -> & _)];
    destruct Hw as [->|(w & -> & _)]; done.
Qed.

(** What holds when a claim is accepted, and the event it is sealed as. *)
Record claimed (i : CeremonyInstance) (d : CeremonyDefinition) (c : StartStep)
    (step : CeremonyStep) (record : StepExecutionRecord) (e : StepStarted) : Prop := {
  claimed_definition : matches_definition i d = true;
  claimed_running : admits_new_work i = true;
  claimed_not_terminal : is_terminal i d = false;
  claimed_step : def_step d (cmd_start_step_id c) = Some step;
  claimed_state : step_state_id step = current_state i;
  claimed_record : step_records i !! cmd_start_step_id c = Some record;
  claimed_free : record_can_be_started_at record (cmd_start_now c) = true;
  claimed_attempt : record_next_start_attempt record = Ok (ss_attempt e);
  claimed_retry : retry_allows_attempt (step_retry_policy step) (ss_attempt e) = true;
  claimed_role : ∃ dynamic,
    resolve_step_role i d (cmd_start_step_id c) (cmd_start_role_id c)
      = Ok (ss_started_by e, dynamic) ∧ is_some (ss_role_from e) = dynamic;
  claimed_turn : resolved_step_is_claimable_at i d (cmd_start_step_id c) (cmd_start_now c)
    (cmd_start_max_parallel_ceiling c) = Ok true;
  claimed_key : lease_idempotency_key (cmd_start_lease c) ∉ idempotency_keys i;
  claimed_budget : require_budget_reservation i (cmd_start_step_id c) record c = Ok tt;
  claimed_fence : ∃ fence,
    fence_for_record (instance_id i) (cmd_start_step_id c)
      (record_with_budget_reservation
         (record_with_started record (cmd_start_lease c) (ss_attempt e) (started_claimed_role e))
         (cmd_start_budget_reservation_id c)) = Ok fence ∧
    step_deadline i c record (ss_attempt e) fence (ss_started_by e) (step_timeout step)
      = Ok (ss_deadline e);
  claimed_event : ss_step_id e = cmd_start_step_id c ∧ ss_lease e = cmd_start_lease c ∧
    ss_started_at e = cmd_start_now c ∧ ss_iteration e = rec_iteration record ∧
    ss_state_visit e = Some (current_state_visit i) ∧
    ss_state_iteration e = Some (current_state_iteration i) ∧
    ss_budget_reservation_id e = cmd_start_budget_reservation_id c;
  claimed_seals : (is_some (ss_role_from e) && is_some (ss_sealed_role e)) = false ∧
    ∀ role, ss_sealed_role e = Some role → role = ss_started_by e;
}.

Lemma start_cases i d c es :
  decide_start_step i d c = Ok es →
  ∃ step record e, es = [EvStepStarted e] ∧ claimed i d c step record e.
Proof.
  unfold decide_start_step. intros Hd.
  apply bind_Ok in Hd as ([] & Hdef%ensure_Ok & Hd).
  apply bind_Ok in Hd as ([] & Hrun%ensure_Ok & Hd).
  apply bind_Ok in Hd as ([] & [Hterm _]%ensure_Ok%negb_true_iff%orb_false_iff & Hd).
  apply bind_Ok in Hd as (step & Hstep%ok_or_Ok & Hd).
  apply bind_Ok in Hd as ([] & Hstate%ensure_Ok%eqb_true_1 & Hd).
  apply bind_Ok in Hd as (record & Hrec%ok_or_Ok & Hd).
  apply bind_Ok in Hd as ([] & Hfree%ensure_Ok & Hd).
  apply bind_Ok in Hd as (attempt & Hatt & Hd).
  apply bind_Ok in Hd as ([] & Hretry%ensure_Ok & Hd).
  apply bind_Ok in Hd as ([role dynamic] & Hrole & Hd).
  apply bind_Ok in Hd as (alternate & _ & Hd).
  apply bind_Ok in Hd as (claimable & Hturn & Hd).
  apply bind_Ok in Hd as ([] & ->%ensure_Ok & Hd).
  apply bind_Ok in Hd as ([] & Hkey%ensure_Ok & Hd).
  apply negb_true_iff, bool_decide_eq_false in Hkey.
  apply bind_Ok in Hd as ([] & Hbudget & Hd).
  apply bind_Ok in Hd as (fence & Hfence & Hd).
  apply bind_Ok in Hd as (deadline & Hdeadline & Hd).
  apply bind_Ok in Hd as (role_from & Hfrom & Hd). simplify_eq.
  exists step, record. eexists. split; [reflexivity|].
  assert (is_some role_from = dynamic) as Hdyn.
  { simpl in Hfrom. destruct dynamic; invert_ok Hfrom; done. }
  constructor; try done; simpl.
  - by exists dynamic.
  - exists fence. split; [|done].
    rewrite <-Hfence. unfold started_claimed_role. simpl. by destruct role_from, dynamic.
  - split; [by destruct role_from, dynamic|]. intros r Hr. by destruct (_ && _) in Hr; simplify_eq.
Qed.

(** What holds when a move is accepted, and the events it is sealed as. *)
Record moved (i : CeremonyInstance) (d : CeremonyDefinition) (c : ApplyTransition)
    (t : CeremonyTransition) (e : TransitionApplied) (visit : Z) : Prop := {
  moved_definition : matches_definition i d = true;
  moved_running : admits_new_work i = true;
  moved_not_terminal : is_terminal i d = false;
  moved_role : ∀ role, cmd_transition_role_id c = Some role →
    role_allows d role (ActTransition (cmd_transition_trigger c)) = true;
  moved_edge : transition_for_trigger d (current_state i) (cmd_transition_trigger c) = Some t;
  moved_enabled : transition_is_enabled_at i d t (cmd_transition_now c) = true;
  moved_visit : StateVisit_next (current_state_visit i) = Ok visit;
  moved_destination : ∃ deadline, ta_destination e =
    Some (MkStateVisitEntry visit (List.map step_id (steps_for_state d (tr_to t))) deadline);
  moved_record : trec_from_state (ta_transition e) = current_state i ∧
    trec_to_state (ta_transition e) = tr_to t ∧
    trec_trigger (ta_transition e) = cmd_transition_trigger c ∧
    trec_applied_by (ta_transition e) = cmd_transition_role_id c ∧
    trec_state_visit (ta_transition e) = Some (current_state_visit i);
  moved_pass : trec_state_iteration (ta_transition e) = Some (current_state_iteration i);
}.

Lemma move_cases i d c es :
  decide_apply_transition i d c = Ok es →
  ∃ t e visit, moved i d c t e visit ∧
    es = EvTransitionApplied e ::
         (if is_terminal_state d (tr_to t)
          then [EvCeremonyCompleted (tr_to t) (cmd_transition_now c)] else []).
Proof.
  unfold decide_apply_transition. intros Hd.
  apply bind_Ok in Hd as ([] & Hrole & Hd).
  apply bind_Ok in Hd as ([] & Hdef%ensure_Ok & Hd).
  apply bind_Ok in Hd as ([] & Hrun%ensure_Ok & Hd).
  apply bind_Ok in Hd as ([] & [Hterm _]%ensure_Ok%negb_true_iff%orb_false_iff & Hd).
  apply bind_Ok in Hd as (t & Ht%ok_or_Ok & Hd).
  apply bind_Ok in Hd as ([] & Hbudget & Hd).
  apply bind_Ok in Hd as ([] & Hlive%ensure_Ok & Hd).
  apply bind_Ok in Hd as ([] & Hrep%ensure_Ok & Hd).
  apply bind_Ok in Hd as ([] & Hguards%ensure_Ok & Hd).
  apply bind_Ok in Hd as (visit & Hvisit & Hd).
  apply bind_Ok in Hd as (deadline & _ & Hd).
  apply bind_Ok in Hd as ([] & Hopen & Hd). simplify_eq.
  exists t. eexists. exists visit. split; [|reflexivity].
  constructor; try done; simpl.
  - intros role Hr. rewrite Hr in Hrole. unfold require_role in Hrole. by invert_ok Hrole.
  - unfold transition_is_enabled_at, transition_is_enabled, transition_requirements_are_satisfied.
    by rewrite Hlive, Hbudget, Hrep, Hguards, Hopen.
  - eauto.
Qed.

(** What holds when a lease is renewed. *)
Record renewed (i : CeremonyInstance) (d : CeremonyDefinition) (c : RenewStepLease)
    (record : StepExecutionRecord) : Prop := {
  renewed_ended : is_ended i = false;
  renewed_not_terminal : is_terminal i d = false;
  renewed_fence : step_claim_fence i (cmd_renew_step_id c) = Ok (cmd_renew_claim_fence c);
  renewed_record : step_records i !! cmd_renew_step_id c = Some record;
  renewed_owner : ∃ lease, rec_lease record = Some lease ∧
    lease_owner_id lease = cmd_renew_lease_owner_id c;
  renewed_live : record_has_live_lease_at record (cmd_renew_now c) = true;
  renewed_expected : record_effective_lease_expires_at record
    = Some (cmd_renew_expected_expires_at c);
  renewed_not_shorter : cmd_renew_expected_expires_at c ≤ cmd_renew_expires_at c ∧
    cmd_renew_now c < cmd_renew_expires_at c;
  renewed_within : ∀ at_, absolute_deadline i (cmd_renew_step_id c) = Some at_ →
    cmd_renew_now c < at_ ∧ cmd_renew_expires_at c ≤ at_;
}.

Lemma new_renewal_cases i d c es :
  decide_new_renewal i d c = Ok es →
  ∃ record, renewed i d c record ∧
    (es = [] ∨ es = [EvStepLeaseRenewed {|
      slr_request := cmd_renew_request c; slr_step_id := cmd_renew_step_id c;
      slr_claim_fence := cmd_renew_claim_fence c;
      slr_lease_owner_id := cmd_renew_lease_owner_id c;
      slr_previous_expires_at := cmd_renew_expected_expires_at c;
      slr_expires_at := cmd_renew_expires_at c; slr_renewed_at := cmd_renew_now c |}]).
Proof.
  unfold decide_new_renewal. intros Hd.
  apply bind_Ok in Hd as ([] & [Hend Hterm]%ensure_Ok%negb_true_iff%orb_false_iff & Hd).
  apply bind_Ok in Hd as ([] & Hfence & Hd).
  apply bind_Ok in Hd as (record & Hrec%ok_or_Ok & Hd).
  apply bind_Ok in Hd as (lease & Hlease%ok_or_Ok & Hd).
  apply bind_Ok in Hd as ([] & [Howner%eqb_true_1 Hlive]%ensure_Ok%andb_true_iff & Hd).
  apply bind_Ok in Hd as ([] & Hexp%ensure_Ok%eqb_true_1 & Hd).
  apply bind_Ok in Hd as ([] & [Hs1 Hs2]%ensure_Ok%negb_true_iff%orb_false_iff & Hd).
  apply bind_Ok in Hd as ([] & Hdl%ensure_Ok%negb_true_iff & Hd).
  exists record. split.
  - constructor; try done; eauto.
    + unfold require_step_claim_fence in Hfence.
      by apply bind_Ok in Hfence as (fence & Hf & ->%ensure_Ok%eqb_true_1).
    + lia.
    + intros at_ Hat. rewrite Hat in Hdl. simpl in Hdl. lia.
  - destruct (_ && _); simplify_eq; [by left|by right].
Qed.

Lemma emits_enforce i d now es :
  decide_enforce_deadlines i d now = Ok es →
  all (emits (CmdEnforceCeremonyDeadlines now)) es = true.
Proof.
  unfold decide_enforce_deadlines. intros Hd. invert_ok Hd; [done|].
  assert (all (emits (CmdEnforceCeremonyDeadlines now)) a0 = true) as Ha0.
  { match goal with Ht : try_map _ ?l = Ok _ |- _ => revert a0 Ht; generalize l end.
    clear. intros l. induction l as [|x l IH]; intros es; simpl; intros He; invert_ok He; [done|].
    simpl. by apply IH. }
  unfold all in *. rewrite forallb_app, Ha0. simpl.
  repeat destruct_match; done.
Qed.

(** A receipt is replayed, or linked in front of the result it observed. *)
Lemma receipt_cases i d c es :
  decide_apply_execution_receipt_result i d c = Ok es →
  es = [] ∨ ∃ link es', es = EvExecutionReceiptLinked (cmd_receipt_step_id c) link (cmd_receipt_now c) :: es' ∧
    link_validate link = Ok tt ∧
    decide_apply_step_result i d
      (MkApplyStepResult (cmd_receipt_step_id c) (cmd_receipt_claim_fence c)
         (cmd_receipt_result c) (cmd_receipt_now c)) = Ok es'.
Proof.
  unfold decide_apply_execution_receipt_result. intros Hd.
  apply bind_Ok in Hd as ([] & Hlink & Hd). invert_ok Hd; eauto 10.
Qed.

(** A command emits only events of its own kinds. *)
Lemma decide_emits i c d es : decide i c d = Ok es → all (emits c) es = true.
Proof.
  destruct c; simpl; intros Hd.
  all: try (by eapply emits_result).
  all: try (by eapply emits_enforce).
  all: try (unfold decide_record_host_handoff, decide_bind_participant, decide_start_step,
    decide_renew_step_lease, decide_new_renewal, decide_apply_transition, decide_approve_guard,
    decide_defer_guard, decide_request_intervention, decide_respond_to_intervention,
    decide_respond_to_intervention_with_evidence, decide_acknowledge_intervention_delivery,
    decide_assert_reason, decide_close_intervention, decide_plan_children,
    decide_new_child_plan, decide_plan_successor, decide_adopt_child_plan,
    decide_accept_child_completion, decide_pause, decide_resume, decide_cancel in Hd;
    invert_ok Hd; simpl; done).
  - apply receipt_cases in Hd as [->|(link & es' & -> & _ & Hr%emits_result)]; [done|].
    simpl. apply all_true. intros e He. apply (proj1 (all_true _ _)) with (x := e) in Hr; [|done].
    by destruct e.
  - unfold decide_apply_transition in Hd. invert_ok Hd; by destruct (is_terminal_state _ _).
Qed.

(** A command that emits nothing touching a projection keeps it. *)
Lemma decide_any i c d es (touches : CeremonyEvent → bool) :
  decide i c d = Ok es → (∀ e, emits c e = true → touches e = false) → any touches es = false.
Proof.
  intros Hd%decide_emits Ht. apply any_false. intros e He.
  apply (proj1 (all_true _ _)) with (x := e) in Hd; [|done]. by apply Ht.
Qed.

Lemma decide_no_import i c d es : decide i c d = Ok es → any is_import es = false.
Proof.
  intros Hd%decide_emits. apply any_false. intros e He.
  apply (proj1 (all_true _ _)) with (x := e) in Hd; [|done]. by destruct e, c.
Qed.
End emits.

(** ** Replaying a session *)

Section replay.
Context `{Hsha : Sha256} `{Hclk : Clock} `{Hser : EvidenceSerde}.

(** Every session opens with its start event. *)
Lemma session_opens d es i :
  session d es i → ∃ started es', es = EvCeremonyInstanceStarted started :: es'.
Proof.
  induction 1 as [| ? ? ? ? ? ? ? ? ? ? ? Hh |? ? ? ? ? _ (started & es' & ->) _].
  - by do 2 eexists.
  - destruct es; [done|]. injection Hh as ->. eauto.
  - by do 2 eexists.
Qed.

Lemma session_replays d es i : session d es i → rehydrate es = Ok i.
Proof.
  induction 1 as [id context bound lin account rcl now started i Ho Ht
    |id pub context succ plan now es started i -> Hs Hh Ht
    |es i command es' i' Hsess IH _ Hd Ha].
  - unfold opening_batch in *. simpl in *.
    rewrite fold_tail_apply_all; [done|]. by destruct (option_keep _ _).
  - destruct es as [|e es]; [done|]. injection Hh as ->. simpl in *.
    unfold decide_start_successor in Hs. invert_ok Hs.
    rewrite fold_tail_apply_all; [done|]. by destruct (_ =? _)%nat.
  - destruct (session_opens _ _ _ Hsess) as (started & rest & ->).
    rewrite rehydrate_app, IH. simpl.
    rewrite fold_tail_apply_all; [done|]. by eapply decide_no_import.
Qed.
End replay.
