(* ===== verification/Machine.v ===== *)
(** * The abstract machine of a session's work

    What the ceremony promises about steps and moves, without roles, fences,
    budgets, children or conversation: a transition system on [Work] with one
    rule per kind of progress.  [session_runs] shows that every session of
    the aggregate is a run of this machine; the invariants of the machine are
    therefore invariants of the aggregate. *)

From S2P Require Import Prelude Errors Text Values Steps Definitions Interventions Instance.
From S2P Require Import Fold Rules Decide DecideTable DecideLineage Engine Sessions.

(** ** The machine *)

Section machine.
Context (d : CeremonyDefinition).

Definition w_unfinished (w : Work) (s : CeremonyStep) : bool :=
  is_some_and (w_records w !! step_id s) (λ r, negb (status_is_success (rec_status r))).

Definition w_live (w : Work) (now : Instant) (s : CeremonyStep) : bool :=
  is_some_and (w_records w !! step_id s) (λ r, record_has_live_lease_at r now).

Definition w_steps (w : Work) : list CeremonyStep := steps_for_state d (w_state w).

(** Whose turn it is: the first unfinished step of a sequential state; any
    step of a concurrent one while fewer claims are live than it may run. *)
Definition turn (w : Work) (id : StepId) (now : Instant) (ceiling : Z) : Prop :=
  match state_execution <$> def_state d (w_state w) with
  | Some Sequential => step_id <$> List.find (w_unfinished w) (w_steps w) = Some id
  | Some Concurrent =>
      Z.of_nat (count (w_live w now) (w_steps w)) <
        MaxParallel_effective_with (def_max_parallel d) ceiling
  | None => False
  end.

(** One step reopened by another pass of its state. *)
Definition w_reopen (pass visit : Z) (w : Work) (id : StepId) : Work :=
  w <| w_history ::= <[id := default [] (w_history w !! id) ++
                             [default record_pending (w_records w !! id)]]> |>
    <| w_records ::= <[id := record_with_state_visit (record_pending_state_iteration pass)
                               visit]> |>.

(** One step of the destination of a move: executed work is archived. *)
Definition w_enter (visit : Z) (w : Work) (id : StepId) : Work :=
  let w := match w_records w !! id with
           | Some r => if rec_status r != Pending
                       then w <| w_history ::= <[id := default [] (w_history w !! id) ++ [r]]> |>
                       else w
           | None => w
           end in
  w <| w_records ::= <[id := record_with_state_visit record_pending visit]> |>.

Inductive progress : Work → Work → Prop :=
| claims w id s r now ceiling lease attempt role reservation deadline :
    def_step d id = Some s → step_state_id s = w_state w →
    is_terminal_state d (w_state w) = false →
    w_records w !! id = Some r →
    record_can_be_started_at r now = true →
    record_next_start_attempt r = Ok attempt →
    retry_allows_attempt (step_retry_policy s) attempt = true →
    turn w id now ceiling →
    lease_idempotency_key lease ∉ w_keys w →
    is_none_or deadline (λ dl, sd_step_id dl == id) = true →
    progress w
      (w <| w_records ::= <[id := record_with_budget_reservation
                                    (record_with_started r lease attempt role) reservation]> |>
         <| w_keys ::= λ keys, {[lease_idempotency_key lease]} ∪ keys |>
         <| w_deadlines ::= partial_alter (λ _, deadline) id |>)
| renews w id r now expiry expires_at :
    w_records w !! id = Some r →
    record_has_live_lease_at r now = true →
    record_effective_lease_expires_at r = Some expiry → expiry ≤ expires_at →
    progress w (w <| w_records ::= <[id := record_renew_lease_until r expires_at]> |>)
| fails w id s r result :
    def_step d id = Some s → step_state_id s = w_state w →
    w_records w !! id = Some r → rec_status r = InProgress →
    result_is_success result = false → StepResult_valid result = true →
    progress w (w <| w_records ::= <[id := record_with_result r result]> |>
                  <| w_deadlines ::= delete id |>)
| completes w id s r result :
    def_step d id = Some s → step_state_id s = w_state w →
    w_records w !! id = Some r → rec_status r = InProgress →
    result_is_success result = true →
    progress w (w <| w_records ::= <[id := record_with_result r result]> |>
                  <| w_deadlines ::= delete id |>)
| repeats w id s r result policy next :
    def_step d id = Some s → step_state_id s = w_state w →
    w_records w !! id = Some r → rec_status r = InProgress →
    result_is_success result = true →
    step_repeat_policy s = Some policy →
    repeat_permits_another_iteration policy (rec_iteration r) = true →
    StepIteration_next (rec_iteration r) = Ok next →
    progress w
      (w <| w_records ::= <[id := record_with_state_visit
              (record_pending_coordinates (rec_state_iteration r) next) (rec_state_visit r)]> |>
         <| w_history ::= <[id := default [] (w_history w !! id) ++
                                  [record_with_result r result]]> |>
         <| w_deadlines ::= delete id |>)
| passes w state policy next :
    def_state d (w_state w) = Some state → state_repeat state = Some policy →
    state_repeat_permits_another_iteration policy (w_pass w) = true →
    StateIteration_next (w_pass w) = Ok next →
    (∀ s, s ∈ w_steps w → ∃ r, w_records w !! step_id s = Some r ∧ rec_status r = Completed) →
    progress w (foldl (w_reopen next (w_visit w)) (w <| w_pass := next |>)
                  (List.map step_id (w_steps w)))
| moves w t now move next :
    t ∈ def_transitions d → tr_from t = w_state w →
    is_terminal_state d (w_state w) = false →
    is_none_or (def_max_transitions d) (λ limit, Z.of_nat (length (w_moves w)) <? limit) = true →
    is_none_or (def_max_bounces d)
      (λ limit, Z.of_nat (count (is_exact_edge t) (w_moves w)) <? limit) = true →
    any (w_live w now) (w_steps w) = false →
    is_exact_edge t move = true →
    StateVisit_next (w_visit w) = Ok next →
    progress w
      ((foldl (w_enter next) (w <| w_visit := next |>)
          (List.map step_id (steps_for_state d (tr_to t))))
         <| w_state := tr_to t |> <| w_pass := StateIteration_FIRST |>
         <| w_moves ::= λ l, l ++ [move] |>)
| expires w id r deadline result :
    w_deadlines w !! id = Some deadline →
    w_records w !! id = Some r →
    rec_status (record_with_result r result) = Failed →
    progress w (w <| w_records ::= <[id := record_with_result r result]> |>
                  <| w_deadlines ::= delete id |>)
| expires_unknown w id deadline :
    w_deadlines w !! id = Some deadline →
    w_records w !! id = None →
    progress w (w <| w_deadlines ::= delete id |>).

(** A run of the machine from an opened session. *)
Definition runs : Work → Work → Prop := rtc progress.

(** What a session starts from: the initial state, a pending record per step,
    except that a successor may begin with completed work it was given. *)
Record opened (w : Work) : Prop := {
  opened_initial : initial_state_id d = Ok (w_state w);
  opened_pass : w_pass w = StateIteration_FIRST;
  opened_visit : w_visit w = StateVisit_FIRST;
  opened_dom : dom (w_records w) = dom (def_steps d);
  opened_records : ∀ id r, w_records w !! id = Some r →
    r = record_pending ∨ ∃ output source,
      r = record_carried output source StateIteration_FIRST StateVisit_FIRST;
  opened_history : w_history w = ∅;
  opened_moves : w_moves w = [];
  opened_keys : w_keys w = ∅;
  opened_deadlines : w_deadlines w = ∅;
}.

(** Everything a loop over the steps of a state leaves alone. *)
Definition w_frame (w : Work) := (w_state w, w_pass w, w_visit w, w_moves w, w_keys w, w_deadlines w).

Lemma w_reopen_all_frame pass visit w ids :
  w_frame (foldl (w_reopen pass visit) w ids) = w_frame w.
Proof. revert w. induction ids as [|id ids IH]; intros w; [done|]. simpl. by rewrite IH. Qed.

Lemma w_enter_all_frame visit w ids : w_frame (foldl (w_enter visit) w ids) = w_frame w.
Proof.
  revert w. induction ids as [|id ids IH]; intros w; [done|]. simpl. rewrite IH.
  unfold w_enter. by repeat destruct_match.
Qed.

Lemma w_reopen_all_keys pass visit w ids :
  w_keys (foldl (w_reopen pass visit) w ids) = w_keys w.
Proof. by pose proof (w_reopen_all_frame pass visit w ids) as [= _ _ _ _ -> _]. Qed.

Lemma w_enter_all_keys visit w ids : w_keys (foldl (w_enter visit) w ids) = w_keys w.
Proof. by pose proof (w_enter_all_frame visit w ids) as [= _ _ _ _ -> _]. Qed.

Lemma w_reopen_all_records pass visit w ids id :
  w_records (foldl (w_reopen pass visit) w ids) !! id =
    if bool_decide (id ∈ ids)
    then Some (record_with_state_visit (record_pending_state_iteration pass) visit)
    else w_records w !! id.
Proof.
  revert w. induction ids as [|x ids IH]; intros w; [done|]. simpl. rewrite IH. simpl.
  destruct (base.decide (id = x)) as [->|Hne].
  - rewrite (bool_decide_eq_true_2 (x ∈ x :: ids)) by (by left).
    rewrite lookup_insert_eq. by destruct (bool_decide _).
  - rewrite lookup_insert_ne by done.
    by rewrite (bool_decide_ext (id ∈ x :: ids) (id ∈ ids)) by (rewrite elem_of_cons; naive_solver).
Qed.

Lemma w_enter_all_records visit w ids id :
  w_records (foldl (w_enter visit) w ids) !! id =
    if bool_decide (id ∈ ids) then Some (record_with_state_visit record_pending visit)
    else w_records w !! id.
Proof.
  revert w. induction ids as [|x ids IH]; intros w; [done|]. simpl. rewrite IH.
  assert (w_records (w_enter visit w x) =
          <[x := record_with_state_visit record_pending visit]> (w_records w)) as ->.
  { unfold w_enter. by repeat destruct_match. }
  destruct (base.decide (id = x)) as [->|Hne].
  - rewrite (bool_decide_eq_true_2 (x ∈ x :: ids)) by (by left).
    rewrite lookup_insert_eq. by destruct (bool_decide _).
  - rewrite lookup_insert_ne by done.
    by rewrite (bool_decide_ext (id ∈ x :: ids) (id ∈ ids)) by (rewrite elem_of_cons; naive_solver).
Qed.

(** An invariant of the machine holds along its runs. *)
Lemma runs_invariant (P : Work → Prop) w w' :
  (∀ w w', P w → progress w w' → P w') → P w → runs w w' → P w'.
Proof. intros Hstep Hw Hr. induction Hr; eauto. Qed.
End machine.

(** ** The fold on the machine's view *)

Lemma work_reset_entered_step v i id :
  work (reset_entered_step v i id) = w_enter v (work i) id.
Proof.
  unfold reset_entered_step, w_enter. simpl.
  destruct (step_records i !! id) as [r|]; [|done]. by destruct (rec_status r != Pending).
Qed.

Lemma work_reset_entered_steps v i ids :
  work (foldl (reset_entered_step v) i ids) = foldl (w_enter v) (work i) ids.
Proof.
  revert i. induction ids as [|id ids IH]; intros i; [done|]. simpl.
  by rewrite IH, work_reset_entered_step.
Qed.

Lemma work_reopen_iterated_steps n i ids :
  work (foldl (reopen_iterated_step n) i ids)
  = foldl (w_reopen (sis_state_iteration n) (default StateVisit_FIRST (sis_state_visit n)))
      (work i) ids.
Proof. revert i. induction ids as [|id ids IH]; intros i; [done|]. simpl. by rewrite IH. Qed.

(** The effect of an event on the work, as a function of the work alone. *)
Definition w_apply (w : Work) (e : CeremonyEvent) : Work :=
  let take id := default record_pending (w_records w !! id) in
  match e with
  | EvStepStarted e =>
      let id := ss_step_id e in
      w <| w_records ::= <[id := record_with_budget_reservation
             (record_with_started (take id) (ss_lease e) (ss_attempt e) (started_claimed_role e))
             (ss_budget_reservation_id e)]> |>
        <| w_keys ::= λ keys, {[lease_idempotency_key (ss_lease e)]} ∪ keys |>
        <| w_deadlines ::= partial_alter (λ _, ss_deadline e) id |>
  | EvStepLeaseRenewed e =>
      match w_records w !! slr_step_id e with
      | Some r => w <| w_records ::= <[slr_step_id e :=
                         record_renew_lease_until r (slr_expires_at e)]> |>
      | None => w
      end
  | EvStepCompleted e =>
      let id := sc_step_id e in
      let finished := record_with_result (take id) (sc_result e) in
      match sc_next_iteration e with
      | Some n =>
          w <| w_records ::= <[id := record_with_state_visit
                 (record_pending_coordinates (rec_state_iteration finished) n)
                 (rec_state_visit finished)]> |>
            <| w_history ::= <[id := default [] (w_history w !! id) ++ [finished]]> |>
            <| w_deadlines ::= delete id |>
      | None => w <| w_records ::= <[id := finished]> |> <| w_deadlines ::= delete id |>
      end
  | EvStepFailed e =>
      let id := sf_step_id e in
      w <| w_records ::= <[id := record_with_result (take id) (sf_result e)]> |>
        <| w_deadlines ::= delete id |>
  | EvStateIterationStarted n =>
      foldl (w_reopen (sis_state_iteration n) (default StateVisit_FIRST (sis_state_visit n)))
        (w <| w_pass := sis_state_iteration n |>) (sis_step_ids n)
  | EvTransitionApplied e =>
      let w := match ta_destination e with
               | Some entry => foldl (w_enter (sve_state_visit entry))
                                 (w <| w_visit := sve_state_visit entry |>) (sve_step_ids entry)
               | None => w
               end in
      w <| w_state := trec_to_state (ta_transition e) |> <| w_pass := StateIteration_FIRST |>
        <| w_moves ::= λ l, l ++ [ta_transition e] |>
  | EvStepDeadlineExceeded deadline result _ =>
      let id := sd_step_id deadline in
      (match w_records w !! id with
       | Some r => w <| w_records ::= <[id := record_with_result r result]> |>
       | None => w
       end) <| w_deadlines ::= delete id |>
  | EvSuccessionCarried carried _ =>
      foldl (λ w' evidence,
        let id := carried_successor_step_id evidence in
        if negb (is_some (w_records w' !! id)) then w'
        else w' <| w_records ::= <[id := record_carried (carried_output evidence)
                     (carried_source evidence) (w_pass w) (w_visit w)]> |>) w carried
  | EvInstanceImported e => work (imp_snapshot e)
  | _ => w
  end.

Lemma apply_work i e i' : apply i e = Ok i' → work i' = w_apply (work i) e.
Proof.
  intros He. destruct (work_event e) eqn:Hw.
  2: { rewrite (apply_work_frame _ _ _ He Hw). by destruct e. }
  destruct e; try done; injection He as <-; simpl.
  - unfold apply_step_started. by destruct (ss_deadline e).
  - unfold apply_step_lease_renewed. destruct (slr_request e); simpl; by destruct (_ !! _).
  - unfold apply_step_completed. by destruct (sc_next_iteration e).
  - done.
  - unfold apply_state_iteration_started. exact (work_reopen_iterated_steps _ _ _).
  - unfold apply_transition_applied. destruct (ta_destination e) as [entry|]; [|done].
    pose proof (work_reset_entered_steps (sve_state_visit entry)
      (i <| current_state_visit := sve_state_visit entry |>
         <| state_deadline := sve_deadline entry |>) (sve_step_ids entry)) as Hloop.
    change (work (i <| current_state_visit := _ |> <| state_deadline := _ |>))
      with ((work i) <| w_visit := sve_state_visit entry |>) in Hloop.
    by rewrite <-Hloop.
  - done.
  - unfold apply_step_deadline_exceeded. by destruct (_ !! _).
  - unfold apply_succession_carried.
    change (work (_ <| updated_at := _ |>)) with (work (foldl (λ i0 evidence,
      if negb (is_some (step_records i0 !! carried_successor_step_id evidence)) then i0
      else put_step_record (carried_successor_step_id evidence)
        (record_carried (carried_output evidence) (carried_source evidence)
           (current_state_iteration i) (current_state_visit i)) i0) i carried)).
    generalize (current_state_iteration i), (current_state_visit i). intros pass visit.
    clear Hw. revert i. induction carried as [|x l IH]; intros i; [done|]. simpl. rewrite IH.
    by destruct (is_some _).
Qed.

Lemma apply_all_work i es i' : apply_all i es = Ok i' → work i' = foldl w_apply (work i) es.
Proof.
  revert i. induction es as [|e es IH]; intros i Hes; simpl in *; [by simplify_eq|].
  invert_ok Hes. erewrite IH by done. by erewrite apply_work by done.
Qed.

(** ** Refinement *)

Section refinement.
Context `{Hsha : Sha256} `{Hclk : Clock} `{Hser : EvidenceSerde}.
Context (d : CeremonyDefinition).

(** Deadlines are filed under the step they are for. *)
Definition deadlines_keyed (w : Work) : Prop :=
  ∀ id deadline, w_deadlines w !! id = Some deadline → sd_step_id deadline = id.

Lemma progress_deadlines_keyed w w' :
  deadlines_keyed w → progress d w w' → deadlines_keyed w'.
Proof.
  intros Hk Hp id' dl. destruct Hp; simpl; try apply Hk.
  - destruct (base.decide (id' = id)) as [->|Hne];
      [rewrite lookup_partial_alter_eq|rewrite lookup_partial_alter_ne by done; apply Hk].
    intros ->. by apply eqb_true.
  - intros [_ ?]%lookup_delete_Some. by apply Hk.
  - intros [_ ?]%lookup_delete_Some. by apply Hk.
  - intros [_ ?]%lookup_delete_Some. by apply Hk.
  - pose proof (w_reopen_all_frame next (w_visit w) (w <| w_pass := next |>)
      (List.map step_id (w_steps d w))) as [= _ _ _ _ _ ->]. apply Hk.
  - pose proof (w_enter_all_frame next (w <| w_visit := next |>)
      (List.map step_id (steps_for_state d (tr_to t)))) as [= _ _ _ _ _ ->]. apply Hk.
  - intros [_ ?]%lookup_delete_Some. by apply Hk.
  - intros [_ ?]%lookup_delete_Some. by apply Hk.
Qed.

Lemma is_terminal_current i :
  matches_definition i d = true → is_terminal i d = is_terminal_state d (current_state i).
Proof. intros Hm. unfold is_terminal. by rewrite Hm. Qed.

Lemma claimable_turn i id now ceiling :
  resolved_step_is_claimable_at i d id now ceiling = Ok true → turn d (work i) id now ceiling.
Proof.
  unfold resolved_step_is_claimable_at, turn. intros Hc.
  apply bind_Ok in Hc as ([] & _ & Hc).
  apply bind_Ok in Hc as (state & Hstate%ok_or_Ok & Hc). simpl. rewrite Hstate. simpl.
  destruct (state_execution state); simpl in Hc.
  - change (w_unfinished (work i)) with (step_is_unfinished i). unfold w_steps. simpl.
    destruct (List.find _ _) as [first|] eqn:Hf; [|done].
    destruct (step_id first != id) eqn:Hne; [done|].
    apply negb_false_iff, eqb_true_1 in Hne. simpl. by rewrite Hne.
  - destruct (_ <=? _) eqn:Hcap in Hc; [done|]. apply Z.leb_gt in Hcap. exact Hcap.
Qed.

Lemma step_deadline_keyed i c r attempt fence by_ timeout dl :
  step_deadline i c r attempt fence by_ timeout = Ok dl →
  is_none_or dl (λ x, sd_step_id x == cmd_start_step_id c) = true.
Proof.
  unfold step_deadline. intros Hd. apply bind_Ok in Hd as (at_ & _ & Hd). simplify_eq.
  destruct (earliest _ _); simpl; [apply eqb_refl|done].
Qed.

Lemma start_refines i c es i' :
  decide_start_step i d c = Ok es → apply_all i es = Ok i' → progress d (work i) (work i').
Proof.
  intros (step & record & e & -> & Hc)%start_cases [= <-].
  destruct Hc. destruct claimed_event as (Hid & Hlease & Hat & Hit & Hv & Hsi & Hres).
  destruct claimed_fence as (fence & Hfence & Hdl).
  pose proof (claims d (work i) (cmd_start_step_id c) step record (cmd_start_now c)
    (cmd_start_max_parallel_ceiling c) (cmd_start_lease c) (ss_attempt e)
    (started_claimed_role e) (ss_budget_reservation_id e) (ss_deadline e)) as Hp.
  replace (work (apply_step_started i e)) with
    ((work i) <| w_records ::= <[cmd_start_step_id c := record_with_budget_reservation
       (record_with_started record (cmd_start_lease c) (ss_attempt e) (started_claimed_role e))
       (ss_budget_reservation_id e)]> |>
       <| w_keys ::= λ keys, {[lease_idempotency_key (cmd_start_lease c)]} ∪ keys |>
       <| w_deadlines ::= partial_alter (λ _, ss_deadline e) (cmd_start_step_id c) |>).
  - apply Hp; try done.
    + simpl. by rewrite <-is_terminal_current.
    + by apply claimable_turn.
    + by eapply step_deadline_keyed.
  - unfold apply_step_started, take_step_record. rewrite Hid, Hlease, claimed_record. simpl.
    by destruct (ss_deadline e).
Qed.

Lemma renew_refines i c es i' :
  decide_renew_step_lease i d c = Ok es → apply_all i es = Ok i' → runs d (work i) (work i').
Proof.
  intros Hd Ha. unfold decide_renew_step_lease in Hd. apply bind_Ok in Hd as ([] & _ & Hd).
  assert (es = [] ∨ decide_new_renewal i d c = Ok es) as [->|Hn].
  { destruct (cmd_renew_request c); [|by right]. destruct (lease_renewals i !! _); [|by right].
    destruct (renewal_is_replay _ _ _); simplify_eq. by left. }
  { simplify_eq/=. constructor. }
  apply new_renewal_cases in Hn as (record & Hr & [->| ->]); simplify_eq/=; [constructor|].
  destruct Hr. apply rtc_once.
  replace (work (apply_step_lease_renewed i _)) with
    ((work i) <| w_records ::= <[cmd_renew_step_id c :=
       record_renew_lease_until record (cmd_renew_expires_at c)]> |>).
  - eapply renews; [done..|]. lia.
  - unfold apply_step_lease_renewed. simpl.
    destruct (cmd_renew_request c); simpl; by rewrite renewed_record.
Qed.

Lemma below_limit (o : option Z) n :
  negb (is_some_and o (λ limit, limit <=? n)) = is_none_or o (λ limit, n <? limit).
Proof. destruct o as [l|]; simpl; [by rewrite Z.ltb_antisym|done]. Qed.

Lemma budget_within i t :
  is_ok (require_transition_budget i d t) = true →
  is_none_or (def_max_transitions d) (λ limit, Z.of_nat (length (transitions i)) <? limit) = true ∧
  is_none_or (def_max_bounces d) (λ limit, Z.of_nat (exact_edge_count i t) <? limit) = true.
Proof.
  unfold require_transition_budget. rewrite !below_limit.
  destruct (is_none_or (def_max_transitions d) _), (is_none_or (def_max_bounces d) _); done.
Qed.

Lemma move_refines i c es i' :
  decide_apply_transition i d c = Ok es → apply_all i es = Ok i' → progress d (work i) (work i').
Proof.
  intros (t & e & visit & Hm & ->)%move_cases Ha.
  assert (work i' = work (apply_transition_applied i e)) as ->.
  { simpl in Ha. destruct (is_terminal_state _ _); simplify_eq/=; done. }
  destruct Hm. destruct moved_destination as (deadline & Hdest).
  destruct moved_record as (Hfrom & Hto & Htrig & _).
  unfold transition_for_trigger in moved_edge.
  apply find_some in moved_edge as [Hin [Hf%eqb_true_1 Ht%eqb_true_1]%andb_true_iff].
  unfold transition_is_enabled_at, transition_is_enabled in moved_enabled.
  apply andb_true_iff in moved_enabled as [Hlive [Hbudget _]%andb_true_iff].
  apply budget_within in Hbudget as [Hb1 Hb2].
  replace (work (apply_transition_applied i e)) with
    ((foldl (w_enter visit) ((work i) <| w_visit := visit |>)
          (List.map step_id (steps_for_state d (tr_to t))))
         <| w_state := tr_to t |> <| w_pass := StateIteration_FIRST |>
         <| w_moves ::= λ l, l ++ [ta_transition e] |>).
  - eapply (moves d _ t (cmd_transition_now c)); try done.
    + by apply list_elem_of_In.
    + simpl. by rewrite <-is_terminal_current.
    + apply negb_true_iff in Hlive. exact Hlive.
    + unfold is_exact_edge. by rewrite Hfrom, Hto, Htrig, Hf, Ht, !eqb_refl.
  - unfold apply_transition_applied. rewrite Hdest. simpl.
    change ((work i) <| w_visit := visit |>) with
      (work (i <| current_state_visit := visit |> <| state_deadline := deadline |>)).
    rewrite <-work_reset_entered_steps. by rewrite <-Hto.
Qed.

Lemma work_step_completed i c step record completed written projected :
  filed i d c step record →
  completed_with i d c step record completed written →
  apply_all i (EvStepCompleted completed :: written) = Ok projected →
  progress d (work i) (work projected).
Proof.
  intros Hf Hc Ha. destruct Hf, Hc.
  assert (work projected = work (apply_step_completed i completed)) as ->.
  { simpl in Ha. destruct cwith_written as [->|(w & -> & _)]; [by simplify_eq/=|].
    eapply (apply_all_work_frame _ [EvContextWritten w]); done. }
  unfold apply_step_completed, take_step_record. rewrite cwith_step, cwith_result. simpl.
  rewrite filed_record. simpl. destruct (sc_next_iteration completed) as [n|] eqn:Hn.
  - destruct (cwith_next n eq_refl) as (Hnext & p & Hp & Hperm).
    by eapply (repeats d (work i) _ step record (cmd_result_result c) p n).
  - by eapply (completes d (work i) _ step record (cmd_result_result c)).
Qed.

Lemma state_iteration_refines i now es i' :
  decide_state_iteration i d now = Ok es → apply_all i es = Ok i' → runs d (work i) (work i').
Proof.
  intros [->|(n & -> & Hv & Hnext & Hids & Hpol & Hcomp)]%decide_state_iteration_shape Ha;
    simplify_eq/=; [constructor|].
  apply rtc_once. unfold apply_state_iteration_started, state_repeat_policy in *.
  destruct (def_state d (current_state i)) as [state|] eqn:Hstate; [|done]. simpl in Hpol.
  destruct (state_repeat state) as [policy|] eqn:Hrep; [|done]. simpl in Hpol.
  rewrite Hids.
  change (work (_ <| updated_at := _ |>)) with
    (work (foldl (reopen_iterated_step n)
       i <| current_state_iteration := sis_state_iteration n |>
       (List.map step_id (steps_for_state d (current_state i))))).
  rewrite work_reopen_iterated_steps, Hv.
  change (work (i <| current_state_iteration := sis_state_iteration n |>))
    with ((work i) <| w_pass := sis_state_iteration n |>).
  apply (passes d (work i) state policy (sis_state_iteration n)); try done.
  unfold state_work_is_complete in Hcomp. apply andb_true_iff in Hcomp as [Hcomp _].
  intros st Hst. apply (proj1 (all_true _ _)) with (x := st) in Hcomp; [|done].
  unfold source_step_completed in Hcomp. apply is_some_and_true in Hcomp as (r & Hr & Hs).
  exists r. split; [done|]. by apply eqb_true_1.
Qed.

Lemma result_refines i c es i' :
  StepResult_valid (cmd_result_result c) = true →
  decide_apply_step_result i d c = Ok es → apply_all i es = Ok i' → runs d (work i) (work i').
Proof.
  intros Hv [->|[(late & -> & _)|(step & record & Hf & [(f & -> & Hid & Hres & _ & Hs)|
    (comp & written & proj & more & -> & Hw & Hproj & Hm)])]]%result_cases Ha.
  - simplify_eq/=. constructor.
  - simplify_eq/=. constructor.
  - simplify_eq/=. apply rtc_once. destruct Hf.
    unfold apply_step_failed, take_step_record. rewrite Hid, Hres. simpl. rewrite filed_record.
    by eapply (fails d (work i) _ step record).
  - rewrite apply_all_app, Hproj in Ha. simpl in Ha.
    eapply rtc_l; [by eapply work_step_completed|]. by eapply state_iteration_refines.
Qed.

(** An accepted result can be folded: deciding it already projected it. *)
Lemma result_applies i c es :
  decide_apply_step_result i d c = Ok es → ∃ i', apply_all i es = Ok i'.
Proof.
  intros [->|[(late & -> & _)|(step & record & Hf & [(f & -> & _)|
    (comp & written & proj & more & -> & Hw & Hproj & Hm)])]]%result_cases; try (by eexists).
  rewrite apply_all_app, Hproj. simpl.
  apply decide_state_iteration_shape in Hm as [->|(n & -> & _)]; by eexists.
Qed.

Lemma receipt_refines i c es i' :
  StepResult_valid (cmd_receipt_result c) = true →
  decide_apply_execution_receipt_result i d c = Ok es → apply_all i es = Ok i' →
  runs d (work i) (work i').
Proof.
  intros Hv [->|(link & es' & -> & _ & Hr)]%receipt_cases Ha; [simplify_eq/=; constructor|].
  apply apply_all_work in Ha as ->. simpl.
  destruct (result_applies _ _ _ Hr) as [i'' Hi''].
  rewrite <-(apply_all_work _ _ _ Hi''). eapply result_refines; [|exact Hr|exact Hi'']. exact Hv.
Qed.

(** Step deadlines falling due, one after the other. *)
Lemma deadlines_refine now result l w :
  res_status result = Failed →
  NoDup (sd_step_id <$> l) → (∀ dl, dl ∈ l → w_deadlines w !! sd_step_id dl = Some dl) →
  runs d w (foldl w_apply w ((λ dl, EvStepDeadlineExceeded dl result now) <$> l)).
Proof.
  intros Hres. revert w. induction l as [|dl l IH]; intros w Hnd Hin; [constructor|].
  simpl in Hnd. apply NoDup_cons in Hnd as [Hnotin Hnd]. simpl.
  eapply rtc_l; [|apply IH; [done|]].
  - destruct (w_records w !! sd_step_id dl) as [r|] eqn:Hr.
    + eapply expires; [apply Hin; by left|done|done].
    + eapply expires_unknown; [apply Hin; by left|done].
  - intros dl' Hdl'. assert (sd_step_id dl ≠ sd_step_id dl').
    { intros Heq. apply Hnotin. rewrite Heq. by apply list_elem_of_fmap_2. }
    destruct (w_records w !! sd_step_id dl); simpl; rewrite lookup_delete_ne by done;
      apply Hin; by right.
Qed.

Lemma due_step_deadlines_ok i now at_ :
  deadlines_keyed (work i) →
  NoDup (sd_step_id <$> due_step_deadlines i now at_) ∧
  ∀ dl, dl ∈ due_step_deadlines i now at_ → step_deadlines i !! sd_step_id dl = Some dl.
Proof.
  intros Hk. unfold due_step_deadlines. set (f := λ deadline, _ && _).
  assert (∀ dl, dl ∈ btree_values (step_deadlines i) →
                step_deadlines i !! sd_step_id dl = Some dl) as Hin.
  { intros dl (id & Hid)%elem_of_btree_values. by rewrite (Hk _ _ Hid). }
  split.
  - rewrite merge_sort_Permutation.
    assert (NoDup (sd_step_id <$> btree_values (step_deadlines i))) as Hnd.
    { replace (sd_step_id <$> btree_values (step_deadlines i))
        with (btree_keys (step_deadlines i)); [apply btree_keys_NoDup|].
      unfold btree_keys, btree_values. rewrite <-list_fmap_compose.
      apply list_fmap_ext. intros j [id dl] Hj. simpl.
      apply list_elem_of_lookup_2, elem_of_btree_entries in Hj. symmetry. by apply Hk. }
    revert Hnd. generalize (btree_values (step_deadlines i)). clear. intros l.
    induction l as [|x l IH]; [done|]. simpl. intros [Hx Hl]%NoDup_cons.
    destruct (f x); simpl; [|by apply IH]. apply NoDup_cons. split; [|by apply IH].
    contradict Hx. apply list_elem_of_fmap in Hx as (y & -> & Hy).
    apply list_elem_of_fmap_2. apply list_elem_of_In. apply list_elem_of_In in Hy.
    by apply filter_In in Hy as [? _].
  - intros dl. rewrite merge_sort_Permutation. rewrite list_elem_of_In.
    intros [Hdl _]%filter_In. apply Hin. by apply list_elem_of_In.
Qed.

Lemma timed_out_result : ∃ result, StepResult_timed_out = Ok result ∧ res_status result = Failed.
Proof. eexists. split; [vm_compute; reflexivity|reflexivity]. Qed.

(** Deadline enforcement is a list of step expiries, then at most one end. *)
Lemma enforce_cases i now es :
  decide_enforce_deadlines i d now = Ok es →
  (is_ended i = true ∧ es = []) ∨
  (is_ended i = false ∧ ∃ result terminal,
    let ceremony := option_keep (λ at_, at_ <=? now) (ceremony_deadline i) in
    let state := option_keep (λ deadline, std_at deadline <=? now) (state_deadline i) in
    StepResult_timed_out = Ok result ∧ res_status result = Failed ∧
    es = ((λ dl, EvStepDeadlineExceeded dl result now) <$>
            due_step_deadlines i now (earliest ceremony (std_at <$> state))) ++ terminal ∧
    terminal = match ceremony, state with
      | Some ceremony, Some state =>
          if ceremony <=? std_at state then [EvCeremonyDeadlineExceeded ceremony now]
          else [EvStateDeadlineExceeded state now]
      | None, Some state => [EvStateDeadlineExceeded state now]
      | Some ceremony, None => [EvCeremonyDeadlineExceeded ceremony now]
      | None, None => []
      end).
Proof.
  unfold decide_enforce_deadlines. intros Hd.
  apply bind_Ok in Hd as ([] & _ & Hd). destruct (is_ended i); [left; by simplify_eq|].
  right. split; [done|]. apply bind_Ok in Hd as (step_events & Hs & Hd).
  destruct timed_out_result as (result & Hres & Hf). exists result. eexists.
  injection Hd as <-. split_and!; [done|done|f_equal|reflexivity].
  rewrite Hres in Hs. revert Hs. generalize (due_step_deadlines i now (earliest
    (option_keep (λ at_, at_ <=? now) (ceremony_deadline i))
    (std_at <$> option_keep (λ deadline, std_at deadline <=? now) (state_deadline i)))).
  intros l. revert step_events.
  induction l as [|x l IH]; intros evs Hs; cbn in Hs; [by simplify_eq|].
  apply bind_Ok in Hs as (ys & Hys & Hs).
  simplify_eq. simpl. by rewrite (IH _ Hys).
Qed.

Lemma enforce_refines i now es i' :
  deadlines_keyed (work i) →
  decide_enforce_deadlines i d now = Ok es → apply_all i es = Ok i' → runs d (work i) (work i').
Proof.
  intros Hk [[_ ->]|(_ & result & terminal & _ & Hres & -> & ->)]%enforce_cases Ha;
    [simplify_eq/=; constructor|].
  apply apply_all_work in Ha as ->. rewrite foldl_app.
  destruct (due_step_deadlines_ok i now (earliest
    (option_keep (λ at_, at_ <=? now) (ceremony_deadline i))
    (std_at <$> option_keep (λ deadline, std_at deadline <=? now) (state_deadline i))) Hk)
    as [Hnd Hin].
  pose proof (deadlines_refine now result _ (work i) Hres Hnd Hin) as Hr.
  repeat destruct_match; exact Hr.
Qed.

(** Every accepted command is a run of the machine. *)
Lemma decide_refines i c es i' :
  deadlines_keyed (work i) → command_valid c = true →
  decide i c d = Ok es → apply_all i es = Ok i' → runs d (work i) (work i').
Proof.
  intros Hk Hv Hd Ha. pose proof (decide_emits _ _ _ _ Hd) as Hem.
  destruct c; simpl in Hd.
  all: try (by apply rtc_once; eapply start_refines).
  all: try (by apply rtc_once; eapply move_refines).
  all: try (by eapply renew_refines). all: try (by eapply result_refines).
  all: try (by eapply receipt_refines). all: try (by eapply enforce_refines).
  all: rewrite (apply_all_work_frame _ _ _ Ha); [constructor|].
  all: apply any_false; intros e He; apply (proj1 (all_true _ _)) with (x := e) in Hem;
    [by destruct e|done].
Qed.

(** ** Opening *)

Lemma opening_initial id ctx now bound lin account started :
  opening id d ctx now bound lin account = Ok started →
  initial_state_id d = Ok (cis_initial_state started) ∧ cis_step_ids started = dom (def_steps d) ∧
  cis_definition_name started = def_name d ∧ cis_definition_version started = def_version d.
Proof. unfold opening. intros Ho. by invert_ok Ho. Qed.

Lemma from_started_opened started :
  initial_state_id d = Ok (cis_initial_state started) →
  cis_step_ids started = dom (def_steps d) →
  opened d (work (from_started started)).
Proof.
  intros Hinit Hids. constructor; try done; simpl; rewrite Hids.
  - by rewrite dom_gset_to_gmap.
  - intros id r [_ <-]%lookup_gset_to_gmap_Some. by left.
Qed.

Lemma carried_opened w carried at_ :
  opened d w → opened d (w_apply w (EvSuccessionCarried carried at_)).
Proof.
  simpl. intros Hw. rewrite (opened_pass _ _ Hw), (opened_visit _ _ Hw). revert w Hw.
  induction carried as [|x l IH]; intros w Hw; [done|]. simpl. apply IH.
  destruct (w_records w !! _) as [r|] eqn:Hr; simpl; [|done].
  destruct Hw. constructor; try done; simpl.
  - by rewrite dom_insert_lookup_L.
  - intros id r' [[_ <-]|[_ ?]]%lookup_insert_Some; [right; eauto|eauto].
Qed.

Lemma session_runs es i :
  session d es i →
  deadlines_keyed (work i) ∧ ∃ w, opened d w ∧ runs d w (work i).
Proof.
  induction 1 as [id ctx bound lin account rcl now started i Ho Ht
    |id pub ctx succ plan now es started i Hpub Hs Hh Ht
    |es i command es' i' _ [Hk (w & Hw & Hr)] Hv Hd Ha].
  - apply opening_initial in Ho as (Hinit & Hids & _).
    assert (work i = work (from_started started)) as ->.
    { eapply apply_all_work_frame; [done|]. unfold opening_batch. simpl.
      by destruct (option_keep _ _). }
    split; [done|]. eexists. split; [by apply from_started_opened|constructor].
  - unfold decide_start_successor in Hs. apply bind_Ok in Hs as (started' & Ho & Hs).
    rewrite <-Hpub in Ho. apply opening_initial in Ho as (Hinit & Hids & _). injection Hs as <-.
    simpl in Hh. injection Hh as <-. apply apply_all_work in Ht. simpl in Ht.
    assert (opened d (work i)) as Hop.
    { rewrite Ht. destruct (_ =? _)%nat; [|apply carried_opened]; by apply from_started_opened. }
    split; [|eexists; split; [exact Hop|constructor]].
    intros x dl. by rewrite (opened_deadlines _ _ Hop).
  - pose proof (decide_refines _ _ _ _ Hk Hv Hd Ha) as Hr'. split.
    + eapply runs_invariant; [|exact Hk|exact Hr'].
      intros ? ?. apply progress_deadlines_keyed.
    + exists w. split; [done|]. by etrans.
Qed.

(** The rule every invariant of the aggregate's work is proved by. *)
Lemma session_work_invariant (P : Work → Prop) es i :
  (∀ w, opened d w → P w) → (∀ w w', P w → progress d w w' → P w') →
  session d es i → P (work i).
Proof.
  intros Hopen Hstep (_ & w & Hw & Hr)%session_runs. eapply runs_invariant; eauto.
Qed.

(** Sessions keep the identity they opened with, and run their definition. *)
Lemma session_matches es i : session d es i → matches_definition i d = true.
Proof.
  induction 1 as [id ctx bound lin account rcl now started i Ho Ht
    |id pub ctx succ plan now es started i Hpub Hs Hh Ht
    |es i command es' i' _ IH _ Hd Ha].
  - apply opening_initial in Ho as (_ & _ & Hn & Hv). unfold matches_definition.
    apply apply_all_identity in Ht as [= _ -> -> _ _ _ _ _ _].
    + simpl. by rewrite Hn, Hv, !eqb_refl.
    + unfold opening_batch. simpl. by destruct (option_keep _ _).
  - unfold decide_start_successor in Hs. apply bind_Ok in Hs as (started' & Ho & Hs).
    rewrite <-Hpub in Ho. apply opening_initial in Ho as (_ & _ & Hn & Hv). injection Hs as <-.
    simpl in Hh. injection Hh as <-. unfold matches_definition.
    apply apply_all_identity in Ht as [= _ -> -> _ _ _ _ _ _].
    + simpl. by rewrite Hn, Hv, !eqb_refl.
    + simpl. by destruct (_ =? _)%nat.
  - unfold matches_definition in *.
    apply apply_all_identity in Ha as [= _ -> -> _ _ _ _ _ _]; [done|].
    by eapply decide_no_import.
Qed.
End refinement.
