(* ===== verification/Invariants.v ===== *)
(** * Invariants of the work of a session

    Proved on the abstract machine of Machine.v by induction on its runs, and
    with that for every session of the aggregate: coordinates of the current
    pass, leases and idempotency keys, attempt and iteration bounds, the
    single claim of a sequential state, transition budgets and the path the
    moves describe. *)

From S2P Require Import Prelude Errors Text Values Steps Definitions Interventions Instance.
From S2P Require Import Fold Rules Decide DecideTable DecideLineage Engine Sessions Machine.

Section invariants.
Context (d : CeremonyDefinition) (Hd : steps_indexed d).

(** The steps of a state, as identifiers. *)
Lemma elem_of_state_step_ids id state :
  id ∈ List.map step_id (steps_for_state d state) ↔
  ∃ s, def_step d id = Some s ∧ step_state_id s = state.
Proof.
  rewrite list_elem_of_In, in_map_iff. split.
  - intros (s & <- & Hs%list_elem_of_In). exists s. by apply steps_for_state_lookup.
  - intros (s & Hs & <-). exists s. pose proof (proj1 Hd _ _ Hs) as Hid. split; [done|].
    apply list_elem_of_In, steps_for_state_step; [done|]. by rewrite Hid.
Qed.

(** The records a claim, a result or an expiry replaces. *)
Lemma lookup_put {A} (m : gmap string A) id x id' y :
  <[id := x]> m !! id' = Some y → (id' = id ∧ y = x) ∨ (id' ≠ id ∧ m !! id' = Some y).
Proof. intros [[-> ->]|[? ?]]%lookup_insert_Some; auto. Qed.

(** The shape of every rule: which step's record is replaced, and how. *)
Lemma progress_passes_frame w pass ids :
  w_frame (foldl (w_reopen pass (w_visit w)) (w <| w_pass := pass |>) ids)
  = w_frame (w <| w_pass := pass |>).
Proof. apply w_reopen_all_frame. Qed.

(** ** Every declared step has a record *)

Definition covers (w : Work) : Prop := dom (w_records w) = dom (def_steps d).

Lemma covers_lookup w id s : covers w → def_step d id = Some s → is_Some (w_records w !! id).
Proof. intros Hc Hs. apply elem_of_dom. rewrite Hc. apply elem_of_dom. by eexists. Qed.

Lemma covers_invariant w w' : covers w → progress d w w' → covers w'.
Proof.
  unfold covers. intros Hc Hp. destruct Hp; simpl; try (by rewrite dom_insert_lookup_L).
  - apply set_eq. intros id. rewrite <-Hc, !elem_of_dom, w_reopen_all_records. simpl.
    case_bool_decide as Hin; [|done]. split; [intros _|by eauto].
    apply elem_of_state_step_ids in Hin as (s & Hs & _). by eapply covers_lookup.
  - apply set_eq. intros id. rewrite <-Hc, !elem_of_dom, w_enter_all_records. simpl.
    case_bool_decide as Hin; [|done]. split; [intros _|by eauto].
    apply elem_of_state_step_ids in Hin as (s & Hs & _). by eapply covers_lookup.
  - done.
Qed.

(** ** Coordinates of the current pass *)

Definition current_pass (w : Work) : Prop := ∀ id s r,
  def_step d id = Some s → step_state_id s = w_state w → w_records w !! id = Some r →
  rec_state_visit r = w_visit w ∧ rec_state_iteration r = w_pass w.

Lemma current_pass_invariant w w' : current_pass w → progress d w w' → current_pass w'.
Proof.
  intros Hc Hp id' s' r' Hs' Hst'. destruct Hp; simpl in *.
  1-5, 8: intros [[-> ->]|[_ ?]]%lookup_put; [simpl|by eapply Hc]; by eapply Hc.
  - pose proof (progress_passes_frame w next (List.map step_id (w_steps d w))) as Hf.
    injection Hf as Hf1 Hf2 Hf3 _ _ _. rewrite Hf1 in Hst'. rewrite Hf2, Hf3.
    rewrite w_reopen_all_records, bool_decide_eq_true_2.
    + by intros [= <-].
    + apply elem_of_state_step_ids. eauto.
  - pose proof (w_enter_all_frame next (w <| w_visit := next |>)
      (List.map step_id (steps_for_state d (tr_to t)))) as Hf.
    injection Hf as _ _ Hf3 _ _ _. rewrite Hf3.
    rewrite w_enter_all_records, bool_decide_eq_true_2.
    + by intros [= <-].
    + apply elem_of_state_step_ids. eauto.
  - intros ?. by eapply Hc.
Qed.

(** ** Leases and idempotency keys *)

Definition leases_keyed (w : Work) : Prop := ∀ id r,
  w_records w !! id = Some r → rec_status r = InProgress →
  ∃ lease, rec_lease r = Some lease ∧ lease_idempotency_key lease ∈ w_keys w.

Lemma leases_keyed_invariant w w' : leases_keyed w → progress d w w' → leases_keyed w'.
Proof using d.
  clear Hd.
  intros Hk Hp id' r'. destruct Hp; simpl in *.
  - intros [[-> ->]|[_ Hr]]%lookup_put Hst; [simpl; eexists; split; [done|set_solver]|].
    destruct (Hk _ _ Hr Hst) as (l & ? & ?). exists l. set_solver.
  - intros [[-> ->]|[_ ?]]%lookup_put Hst; [simpl in *; by eapply Hk|by eapply Hk].
  - intros [[-> ->]|[_ ?]]%lookup_put Hst; [|by eapply Hk].
    by destruct (StepResult_valid_observable result) as [_ []].
  - intros [[-> ->]|[_ ?]]%lookup_put Hst; [|by eapply Hk]. simpl in Hst.
    unfold result_is_success in *. by rewrite Hst in *.
  - intros [[-> ->]|[_ ?]]%lookup_put Hst; [done|by eapply Hk].
  - pose proof (progress_passes_frame w next (List.map step_id (w_steps d w))) as Hf.
    injection Hf as _ _ _ _ -> _. rewrite w_reopen_all_records. simpl.
    case_bool_decide; [by intros [= <-]|apply Hk].
  - pose proof (w_enter_all_frame next (w <| w_visit := next |>)
      (List.map step_id (steps_for_state d (tr_to t)))) as Hf.
    injection Hf as _ _ _ _ -> _. rewrite w_enter_all_records. simpl.
    case_bool_decide; [by intros [= <-]|apply Hk].
  - intros [[-> ->]|[_ ?]]%lookup_put Hst; [|by eapply Hk]. simpl in *. by rewrite Hst in *.
  - apply Hk.
Qed.

(** ** Attempts, iterations and passes are bounded *)

Definition attempt_limit (s : CeremonyStep) : Z := Z.max 1 (retry_max_attempts (step_retry_policy s)).
Definition iteration_limit (s : CeremonyStep) : Z :=
  match step_repeat_policy s with Some p => Z.max 1 (srp_max_iterations p) | None => 1 end.
Definition pass_limit (state : StateId) : Z :=
  match def_state d state ≫= state_repeat with
  | Some p => Z.max 1 (strp_max_iterations p) | None => 1 end.

Definition record_within (s : CeremonyStep) (r : StepExecutionRecord) : Prop :=
  1 ≤ rec_attempt r ≤ attempt_limit s ∧ 1 ≤ rec_iteration r ≤ iteration_limit s.

Definition counters_within (w : Work) : Prop :=
  (∀ id s r, def_step d id = Some s → w_records w !! id = Some r → record_within s r) ∧
  1 ≤ w_pass w ≤ pass_limit (w_state w).

Lemma fresh_record_within s r :
  rec_attempt r = 1 → rec_iteration r = 1 → record_within s r.
Proof.
  intros Ha Hi. unfold record_within, attempt_limit, iteration_limit. rewrite Ha, Hi.
  destruct (step_repeat_policy s); lia.
Qed.

Lemma next_start_attempt_within s r attempt :
  record_within s r → record_next_start_attempt r = Ok attempt →
  retry_allows_attempt (step_retry_policy s) attempt = true → 1 ≤ attempt ≤ attempt_limit s.
Proof.
  unfold record_within, attempt_limit, record_next_start_attempt, retry_allows_attempt,
    StepAttempt_next, StepAttempt_new, u32_saturating_add, u32_max.
  intros [Ha _] Hn Hr%Z.leb_le.
  destruct (rec_status r); simplify_eq; try lia; invert_ok Hn; lia.
Qed.

Lemma counters_within_invariant w w' :
  counters_within w → progress d w w' → counters_within w'.
Proof using d.
  clear Hd.
  intros [Hr Hpass] Hp. destruct Hp; unfold counters_within; simpl in *.
  - split; [|done]. intros id' s' r' Hs' [[-> ->]|[_ ?]]%lookup_put; [|by eapply Hr].
    pose proof (Hr _ _ _ Hs' H2) as Hw. simplify_eq.
    split; [by eapply next_start_attempt_within|apply Hw].
  - split; [|done]. intros id' s' r' Hs' [[-> ->]|[_ ?]]%lookup_put; [|by eapply Hr].
    exact (Hr _ _ _ Hs' H).
  - split; [|done]. intros id' s' r' Hs' [[-> ->]|[_ ?]]%lookup_put; [|by eapply Hr].
    exact (Hr _ _ _ Hs' H1).
  - split; [|done]. intros id' s' r' Hs' [[-> ->]|[_ ?]]%lookup_put; [|by eapply Hr].
    exact (Hr _ _ _ Hs' H1).
  - split; [|done]. intros id' s' r' Hs' [[-> ->]|[_ ?]]%lookup_put; [|by eapply Hr].
    destruct (Hr _ _ _ Hs' H1) as [Ha Hi]. simplify_eq. unfold record_within, iteration_limit in *. simpl.
    rewrite H4 in *. unfold repeat_permits_another_iteration in *.
    apply StepIteration_next_Ok in H6 as [-> _]; [|lia].
    unfold attempt_limit. unfold StepAttempt_FIRST. lia.
  - pose proof (progress_passes_frame w next (List.map step_id (w_steps d w))) as Hf.
    injection Hf as Hf1 Hf2 _ _ _ _. rewrite Hf1, Hf2. split.
    + intros id' s' r' Hs'. rewrite w_reopen_all_records. simpl.
      case_bool_decide; [|by apply Hr]. intros [= <-]. by apply fresh_record_within.
    + unfold pass_limit in *. rewrite H in *. simpl in *. rewrite H0 in *.
      unfold state_repeat_permits_another_iteration in *.
      apply StateIteration_next_Ok in H2 as [-> _]; lia.
  - split.
    + intros id' s' r' Hs'. rewrite w_enter_all_records. simpl.
      case_bool_decide; [|by apply Hr]. intros [= <-]. by apply fresh_record_within.
    + unfold pass_limit, StateIteration_FIRST. destruct (_ ≫= _); lia.
  - split; [|done]. intros id' s' r' Hs' [[-> ->]|[_ ?]]%lookup_put; [|by eapply Hr].
    exact (Hr _ _ _ Hs' H0).
  - done.
Qed.

(** ** A deadline is kept only for an open record *)

Definition deadlines_open (w : Work) : Prop := ∀ id dl r,
  w_deadlines w !! id = Some dl → w_records w !! id = Some r →
  rec_status r = InProgress ∨ rec_status r = Pending.

Lemma deadlines_open_invariant w w' : deadlines_open w → progress d w w' → deadlines_open w'.
Proof using d.
  clear Hd.
  intros Hk Hp id' dl r'. destruct Hp; simpl in *.
  - intros Hdl [[-> ->]|[Hne ?]]%lookup_put; [by left|].
    rewrite lookup_partial_alter_ne in Hdl by done. by eapply Hk.
  - intros Hdl [[-> ->]|[_ ?]]%lookup_put; [simpl|]; by eapply Hk.
  - intros [Hne ?]%lookup_delete_Some [[-> ->]|[_ ?]]%lookup_put; [done|by eapply Hk].
  - intros [Hne ?]%lookup_delete_Some [[-> ->]|[_ ?]]%lookup_put; [done|by eapply Hk].
  - intros [Hne ?]%lookup_delete_Some [[-> ->]|[_ ?]]%lookup_put; [done|by eapply Hk].
  - pose proof (progress_passes_frame w next (List.map step_id (w_steps d w))) as Hf.
    injection Hf as _ _ _ _ _ ->. rewrite w_reopen_all_records. simpl.
    case_bool_decide; [intros _ [= <-]; by right|apply Hk].
  - pose proof (w_enter_all_frame next (w <| w_visit := next |>)
      (List.map step_id (steps_for_state d (tr_to t)))) as Hf.
    injection Hf as _ _ _ _ _ ->. rewrite w_enter_all_records. simpl.
    case_bool_decide; [intros _ [= <-]; by right|apply Hk].
  - intros [Hne ?]%lookup_delete_Some [[-> ->]|[_ ?]]%lookup_put; [done|by eapply Hk].
  - intros [Hne ?]%lookup_delete_Some. by eapply Hk.
Qed.

(** ** A sequential state is worked one step at a time *)

(** A step in progress has every earlier step of its state completed. *)
Definition in_turn (steps : list CeremonyStep) (records : gmap string StepExecutionRecord)
    : Prop := ∀ j k s s' r r', (j < k)%nat → steps !! j = Some s → steps !! k = Some s' →
  records !! step_id s = Some r → records !! step_id s' = Some r' →
  rec_status r' = InProgress → rec_status r = Completed.

(** An open record may change, as long as it does not become in progress. *)
Lemma in_turn_update steps records id r r1 :
  in_turn steps records → records !! id = Some r → rec_status r ≠ Completed →
  (rec_status r1 = InProgress → rec_status r = InProgress) →
  in_turn steps (<[id := r1]> records).
Proof.
  intros Ht Hr Hopen Hprog j k s s' x x' Hjk Hs Hs' Hx Hx' Hst.
  assert (∃ y', records !! step_id s' = Some y' ∧ rec_status y' = InProgress) as (y' & Hy' & Hsty).
  { apply lookup_put in Hx' as [[-> ->]|[_ ?]]; eauto. }
  apply lookup_put in Hx as [[<- ->]|[_ Hx]]; [|by eapply Ht].
  by rewrite (Ht j k s s' r y') in Hopen.
Qed.

Lemma in_turn_claim steps records id r r1 first :
  NoDup (step_id <$> steps) → in_turn steps records →
  List.find (λ s, is_some_and (records !! step_id s)
                    (λ r, negb (status_is_success (rec_status r)))) steps = Some first →
  step_id first = id → records !! id = Some r →
  in_turn steps (<[id := r1]> records).
Proof.
  intros Hnd Ht (n & Hn & Hf & Hbefore)%find_lookup <- Hr j k s s' x x' Hjk Hs Hs' Hx Hx' Hst.
  rewrite Hr in Hf. simpl in Hf. apply negb_true_iff, eqb_false in Hf.
  assert (∀ m t, steps !! m = Some t → step_id t = step_id first → m = n) as Huniq.
  { intros m t Hm Heq. eapply (NoDup_lookup (step_id <$> steps)); [done| |].
    - by rewrite list_lookup_fmap, Hm.
    - rewrite list_lookup_fmap, Hn. simpl. by rewrite <-Heq. }
  apply lookup_put in Hx as [[Heq ->]|[_ Hx]].
  - apply (Huniq j s Hs) in Heq as ->.
    apply lookup_put in Hx' as [[Heq ->]|[_ Hx']]; [apply (Huniq k s' Hs') in Heq; lia|].
    replace s with first in * by congruence.
    destruct Hf. by eapply Ht.
  - apply lookup_put in Hx' as [[Heq ->]|[_ Hx']]; [|by eapply Ht].
    apply (Huniq k s' Hs') in Heq as ->. specialize (Hbefore j s Hjk Hs).
    rewrite Hx in Hbefore. simpl in Hbefore. by apply negb_false_iff, eqb_true_1 in Hbefore.
Qed.

Definition worked_in_turn (w : Work) : Prop :=
  state_execution <$> def_state d (w_state w) = Some Sequential →
  in_turn (w_steps d w) (w_records w).

Lemma worked_in_turn_invariant w w' :
  deadlines_open w → worked_in_turn w → progress d w w' → worked_in_turn w'.
Proof.
  intros Hdl Ht Hp Hseq. destruct Hp; unfold w_steps in *; simpl in *.
  - pose proof H6 as Hturn. unfold turn in Hturn. rewrite Hseq in Hturn.
    destruct (List.find _ _) as [first|] eqn:Hfind; [|done]. injection Hturn as Hid.
    eapply in_turn_claim; [by apply steps_for_state_NoDup|by apply Ht|exact Hfind|done|done].
  - unfold record_has_live_lease_at in H0. apply andb_true_iff in H0 as [Hst%eqb_true_1 _].
    eapply in_turn_update; [by apply Ht|done|by rewrite Hst|done].
  - eapply in_turn_update; [by apply Ht|done|by rewrite H2|done].
  - eapply in_turn_update; [by apply Ht|done|by rewrite H2|done].
  - eapply in_turn_update; [by apply Ht|done|by rewrite H2|done].
  - pose proof (progress_passes_frame w next (List.map step_id (steps_for_state d (w_state w))))
      as Hf. injection Hf as -> _ _ _ _ _.
    intros j k s s' r r' _ _ Hs' _. rewrite w_reopen_all_records, bool_decide_eq_true_2.
    + by intros [= <-].
    + apply list_elem_of_In, in_map, list_elem_of_In. by eapply list_elem_of_lookup_2.
  - intros j k s s' r r' _ _ Hs' _. rewrite w_enter_all_records, bool_decide_eq_true_2.
    + by intros [= <-].
    + apply list_elem_of_In, in_map, list_elem_of_In. by eapply list_elem_of_lookup_2.
  - eapply in_turn_update; [by apply Ht|done| |simpl; by rewrite H1].
    by destruct (Hdl _ _ _ H H0) as [-> | ->].
  - by apply Ht.
Qed.

(** ** Moves *)

(** The moves of a session are a path of declared transitions. *)
Fixpoint path (from : StateId) (ms : list CeremonyTransitionRecord) (to : StateId) : Prop :=
  match ms with
  | [] => from = to
  | m :: ms =>
      trec_from_state m = from ∧
      (∃ t, t ∈ def_transitions d ∧ is_exact_edge t m = true) ∧
      is_terminal_state d from = false ∧
      path (trec_to_state m) ms to
  end.

Lemma path_snoc from ms to m t :
  path from ms to → trec_from_state m = to → t ∈ def_transitions d →
  is_exact_edge t m = true → is_terminal_state d to = false →
  path from (ms ++ [m]) (trec_to_state m).
Proof.
  revert from. induction ms as [|x ms IH]; intros from; simpl.
  - intros ->. eauto 10.
  - intros (? & ? & ? & ?). eauto 10.
Qed.

Record moves_ok (w : Work) : Prop := {
  moves_visit : w_visit w = 1 + Z.of_nat (length (w_moves w));
  moves_path : ∃ from, initial_state_id d = Ok from ∧ path from (w_moves w) (w_state w);
  moves_limit : ∀ limit, def_max_transitions d = Some limit →
    Z.of_nat (length (w_moves w)) ≤ Z.max 0 limit;
  moves_bounces : ∀ limit t, def_max_bounces d = Some limit →
    Z.of_nat (count (is_exact_edge t) (w_moves w)) ≤ Z.max 0 limit;
}.

(** Two transitions recorded as the same edge have the same count. *)
Lemma exact_edge_same t t' m l :
  is_exact_edge t m = true → is_exact_edge t' m = true →
  count (is_exact_edge t) l = count (is_exact_edge t') l.
Proof.
  unfold is_exact_edge. rewrite !andb_true_iff.
  intros [[H1%eqb_true_1 H2%eqb_true_1] H3%eqb_true_1]
         [[H1'%eqb_true_1 H2'%eqb_true_1] H3'%eqb_true_1].
  unfold count. f_equal. apply List.filter_ext. intros x. by rewrite <-H1, <-H1', <-H2, <-H2', <-H3, <-H3'.
Qed.

Lemma count_snoc {A} (f : A → bool) l x : count f (l ++ [x]) = (count f l + (if f x then 1 else 0))%nat.
Proof. unfold count. rewrite List.filter_app, length_app. simpl. by destruct (f x). Qed.

Lemma moves_ok_invariant w w' : moves_ok w → progress d w w' → moves_ok w'.
Proof using d.
  clear Hd.
  intros Hw Hp. destruct Hp; try (by destruct Hw; constructor).
  - pose proof (progress_passes_frame w next (List.map step_id (w_steps d w))) as Hf.
    injection Hf as Hf1 _ Hf3 Hf4 _ _. destruct Hw. constructor; by rewrite ?Hf1, ?Hf3, ?Hf4.
  - pose proof (w_enter_all_frame next (w <| w_visit := next |>)
      (List.map step_id (steps_for_state d (tr_to t)))) as Hf.
    injection Hf as _ _ Hf3 Hf4 _ _.
    pose proof H5 as Hedge. unfold is_exact_edge in Hedge.
    rewrite !andb_true_iff in Hedge. destruct Hedge as [[Hfr%eqb_true_1 _] Hto%eqb_true_1].
    destruct Hw as [Hv Hpath Hlim Hbounce]. constructor; simpl; rewrite ?Hf3, ?Hf4; rewrite ?length_app; simpl.
    + apply StateVisit_next_Ok in H6 as [-> _]. lia.
    + destruct Hpath as (from & Hinit & Hpath). exists from. split; [done|].
      rewrite <-Hto. eapply path_snoc; try done. by rewrite Hfr.
    + intros limit Hl. rewrite Hl in H2. simpl in H2. lia.
    + intros limit t' Hl. rewrite Hl in H3. simpl in H3. rewrite count_snoc.
      specialize (Hbounce limit t' Hl). destruct (is_exact_edge t' move) eqn:Ht'; [|lia].
      rewrite (exact_edge_same t' t move) by done. lia.
Qed.
End invariants.
