(* ===== verification/Journal.v ===== *)
(** * The journal is the session

    The contract of event sourcing, as the aggregate keeps it: folding the
    stream of a session from its opening gives the state the live aggregate
    holds, a snapshot and the rest of the stream give the same state as the
    whole stream, what [decide] accepts can be folded, and no idempotency key
    is accepted twice. *)

From S2P Require Import Prelude Errors Text Values Steps Definitions Interventions Instance.
From S2P Require Import Fold Rules Decide DecideTable DecideLineage Engine Scenario.
From S2P Require Import Sessions Machine Invariants.

(** ** What folding depends on *)

(** Whether an event can be folded, and the context it leaves, depend on the
    context alone. *)
Lemma apply_context i j e i' :
  apply i e = Ok i' → is_import e = false → context j = context i →
  ∃ j', apply j e = Ok j' ∧ context j' = context i'.
Proof.
  intros He Hi Hc. destruct (apply_ok_cases _ _ _ He) as [(w & p & -> & Hp & ->)|Hw].
  { simpl. unfold apply_context_written. rewrite Hc, Hp. by eexists. }
  destruct e; try done; try (by destruct (Hw e)); injection He as <-; clear Hw Hi;
    (eexists; split; [reflexivity|]).
  all: try solve [transitivity (context j); [frame_event|rewrite Hc; symmetry; frame_event]].
  unfold apply_human_approval_recorded. rewrite Hc.
  destruct (with_guard_approval _ _); [done|exact Hc|exact Hc].
Qed.

Lemma apply_all_context i j es i' :
  apply_all i es = Ok i' → any is_import es = false → context j = context i →
  ∃ j', apply_all j es = Ok j' ∧ context j' = context i'.
Proof.
  revert i j. induction es as [|e es IH]; intros i j Ha Hi Hc; simpl in *.
  - simplify_eq. by eexists.
  - apply orb_false_iff in Hi as [Hi Hi']. apply bind_Ok in Ha as (i1 & H1 & Ha).
    destruct (apply_context _ _ _ _ H1 Hi Hc) as (j1 & -> & Hc1). by eapply IH.
Qed.

(** Events that never touch the fallible part of the fold. *)
Lemma apply_all_total i es :
  (∀ e, e ∈ es → match e with EvContextWritten _ => False | _ => True end) →
  ∃ i', apply_all i es = Ok i'.
Proof.
  revert i. induction es as [|e es IH]; intros i Hes; [by eexists|]. simpl.
  assert (∃ i1, apply i e = Ok i1) as [i1 ->].
  { assert (match e with EvContextWritten _ => False | _ => True end) as He
      by (apply Hes; by left).
    destruct e; first [by destruct He | by eexists]. }
  simpl. apply IH. intros x Hx. apply Hes. by right.
Qed.

Section journal.
Context `{Hsha : Sha256} `{Hclk : Clock} `{Hser : EvidenceSerde}.

Lemma decide_applies i c d es : decide i c d = Ok es → ∃ i', apply_all i es = Ok i'.
Proof.
  intros Hd. pose proof (decide_emits _ _ _ _ Hd) as Hem.
  destruct c; simpl in Hd.
  all: try (by eapply result_applies).
  all: try (apply apply_all_total; intros e He;
    apply (proj1 (all_true _ _)) with (x := e) in Hem; [by destruct e|done]).
  apply receipt_cases in Hd as [->|(link & es' & -> & _ & Hr)]; [by eexists|].
  destruct (result_applies _ _ _ _ Hr) as [i' Hi']. simpl.
  destruct (apply_all_context i (apply_execution_receipt_linked i link (cmd_receipt_now c)) _ _ Hi')
    as (j' & Hj' & _); [|frame_event|by eexists].
  eapply (decide_no_import i (CmdApplyStepResult _)). exact Hr.
Qed.

(** The idempotency keys the claims of a stream were accepted under. *)
Definition started_keys (es : list CeremonyEvent) : list string :=
  concat (List.map (λ e, match e with
                         | EvStepStarted e => [lease_idempotency_key (ss_lease e)]
                         | _ => []
                         end) es).

Lemma started_keys_app es es' : started_keys (es ++ es') = started_keys es ++ started_keys es'.
Proof. unfold started_keys. by rewrite map_app, concat_app. Qed.

(** The keys a fold adds are those its claims were accepted under. *)
Lemma apply_keys i e i' :
  apply i e = Ok i' → is_import e = false →
  idempotency_keys i' = list_to_set (started_keys [e]) ∪ idempotency_keys i.
Proof.
  intros He Hi. pose proof (apply_work _ _ _ He) as Hw. apply (f_equal w_keys) in Hw.
  simpl in Hw. rewrite Hw. unfold started_keys. simpl.
  destruct e; try done; simpl; rewrite ?union_empty_l_L; try done.
  - set_solver.
  - by repeat destruct_match.
  - by destruct (sc_next_iteration e).
  - by rewrite w_reopen_all_keys.
  - destruct (ta_destination e) as [entry|]; [|done]. simpl.
    by rewrite w_enter_all_keys.
  - by destruct (step_records i !! _).
  - generalize (current_state_iteration i), (current_state_visit i).
    change (idempotency_keys i) with (w_keys (work i)). generalize (work i). clear.
    induction carried as [|x l IH]; intros w p v; [done|]. simpl. rewrite IH.
    by destruct (is_some _).
Qed.

Lemma apply_all_keys i es i' :
  apply_all i es = Ok i' → any is_import es = false →
  idempotency_keys i' = list_to_set (started_keys es) ∪ idempotency_keys i.
Proof.
  revert i. induction es as [|e es IH]; intros i Ha Hi; simpl in *.
  - simplify_eq. by rewrite union_empty_l_L.
  - apply orb_false_iff in Hi as [Hi Hi']. apply bind_Ok in Ha as (i1 & H1 & Ha).
    rewrite (IH _ Ha Hi'), (apply_keys _ _ _ H1 Hi).
    change (started_keys (e :: es)) with (started_keys ([e] ++ es)).
    rewrite started_keys_app, list_to_set_app_L. set_solver.
Qed.

(** Only a claim decides a claim, and under a key that is new. *)
Lemma decide_keys i c d es :
  decide i c d = Ok es →
  NoDup (started_keys es) ∧ ∀ k, k ∈ started_keys es → k ∉ idempotency_keys i.
Proof.
  intros Hd. assert (started_keys es = [] ∨ ∃ sc, c = CmdStartStep sc) as [->|[sc ->]].
  { pose proof (decide_emits _ _ _ _ Hd) as Hem.
    destruct c; try (right; by eexists); left; clear Hd.
    all: induction es as [|e es IH]; [done|]; simpl in Hem;
      apply andb_true_iff in Hem as [He Hem];
      unfold started_keys in *; simpl; rewrite IH by done; by destruct e. }
  - split; [constructor|]. by intros k ?%elem_of_nil.
  - apply start_cases in Hd as (step & record & e & -> & Hc). destruct Hc.
    destruct claimed_event as (_ & Hl & _). unfold started_keys. simpl. rewrite Hl. split.
    + apply NoDup_singleton.
    + by intros k ->%list_elem_of_singleton.
Qed.

Lemma session_keys d es i :
  session d es i →
  NoDup (started_keys es) ∧ idempotency_keys i = list_to_set (started_keys es).
Proof.
  induction 1 as [id ctx bound lin account rcl now started i Ho Ht
    |id pub ctx succ plan now es started i Hpub Hs Hh Ht
    |es i command es' i' Hsess [Hnd Hkeys] Hv Hd Ha].
  - unfold opening_batch in *. simpl in *. apply apply_all_keys in Ht; [|by destruct_match].
    rewrite Ht. destruct (option_keep _ _); (split; [constructor|set_solver]).
  - unfold decide_start_successor in Hs. apply bind_Ok in Hs as (started' & Ho & Hs).
    injection Hs as <-. simpl in *. injection Hh as <-.
    apply apply_all_keys in Ht; [|by destruct_match].
    rewrite Ht. destruct (_ =? _)%nat; (split; [constructor|set_solver]).
  - destruct (decide_keys _ _ _ _ Hd) as [Hnd' Hnew]. rewrite started_keys_app. split.
    + apply NoDup_app. split_and!; [done| |done].
      intros k Hk Hk'. apply (Hnew k Hk'). rewrite Hkeys. by apply elem_of_list_to_set.
    + rewrite (apply_all_keys _ _ _ Ha) by (by eapply decide_no_import).
      rewrite Hkeys, list_to_set_app_L. set_solver.
Qed.

(** ** Properties *)

(** C1: replaying the journal of a session, from its opening event, gives
    exactly the state the live aggregate reached by deciding and folding one
    command at a time; in particular the journal is accepted by [rehydrate]. *)
Theorem journal_replays_to_the_live_session d es i : session d es i → rehydrate es = Ok i.
Proof. apply session_replays. Qed.

(** C2: every session refines the abstract machine of its work: from an opened
    work state, a run of claims, renewals, results, passes, moves and
    expiries reaches the work the aggregate holds. *)
Theorem session_refines_machine d es i :
  session d es i → ∃ w, opened d w ∧ runs d w (work i).
Proof. intros [_ Hr]%session_runs. exact Hr. Qed.

(** C3: an idempotency key is accepted at most once in the life of a session:
    the keys of the claims in its journal are distinct, and they are exactly
    the keys the aggregate remembers. *)
Theorem idempotency_key_accepted_once d es i :
  session d es i →
  NoDup (started_keys es) ∧ ∀ k, k ∈ idempotency_keys i ↔ k ∈ started_keys es.
Proof.
  intros [Hnd Hk]%session_keys. split; [done|]. intros k. rewrite Hk. apply elem_of_list_to_set.
Qed.

(** C4: what [decide] accepts can be folded: an accepted decision never
    leaves the aggregate without a next state. *)
Theorem accepted_decisions_fold i c d es :
  decide i c d = Ok es → ∃ i', execute i c d = Ok i'.
Proof.
  intros Hd. destruct (decide_applies _ _ _ _ Hd) as [i' Hi'].
  exists i'. unfold execute. by rewrite Hd.
Qed.
End journal.

(** A snapshot and the rest of the stream rehydrate to the same session,
    and to the same refusal, as the whole stream. *)
Theorem replay_from_a_snapshot e es es' :
  rehydrate ((e :: es) ++ es') = i ← rehydrate (e :: es); fold_tail i es'.
Proof. apply rehydrate_app. Qed.

(** The fold has one failure: an event panics exactly when it is a context
    patch the patched context does not admit; it never refuses an event. *)
Theorem fold_panics_only_on_context_patches i e :
  (apply i e = Panic ↔
    ∃ w, e = EvContextWritten w ∧ is_ok (with_patch (context i) (cw_patch w)) = false) ∧
  ∀ err, apply i e ≠ Err err.
Proof. split; [apply apply_Panic|]. intros err. apply apply_never_Err. Qed.

Lemma journal_replays_to_the_live_session_witness : rehydrate demo_stream = Ok both_taken.
Proof. apply (journal_replays_to_the_live_session demo), demo_session. Defined.

Lemma session_refines_machine_witness : ∃ w, opened demo w ∧ runs demo w (work both_taken).
Proof. apply (session_refines_machine demo demo_stream), demo_session. Defined.

Lemma idempotency_key_accepted_once_witness :
  started_keys demo_stream = ["key-1"; "key-2"; "key-3"; "key-4"] ∧
  NoDup (started_keys demo_stream) ∧
  ∀ k, k ∈ idempotency_keys both_taken ↔ k ∈ started_keys demo_stream.
Proof.
  split; [vm_compute; reflexivity|].
  apply (idempotency_key_accepted_once demo), demo_session.
Defined.

Lemma accepted_decisions_fold_witness :
  ∃ i', execute planning (finish_cmd planning "plan" minute) demo = Ok i'.
Proof.
  apply (accepted_decisions_fold planning (finish_cmd planning "plan" minute) demo
    (events_of planning (finish_cmd planning "plan" minute))).
  vm_compute. reflexivity.
Defined.
