(* ===== verification/Claims.v ===== *)
(** * Claims: who works on a step, and whose result counts

    The promises of the step leases: fences name exactly one accepted claim,
    a sequential state is worked one step at a time and a concurrent one
    within its capacity, retries and repetitions stay within the definition,
    and a worker that lost its claim cannot file a result. *)

From S2P Require Import Prelude Errors Text Values Steps Definitions Interventions Instance.
From S2P Require Import Fold Rules Decide DecideTable DecideLineage Engine Scenario.
From S2P Require Import Sessions Machine Invariants.

Section claims.
Context `{Hsha : Sha256} `{Hclk : Clock} `{Hser : EvidenceSerde}.
Context (d : CeremonyDefinition).

(** ** The invariants, on sessions *)

Lemma opened_pending_or_completed w id r :
  opened d w → w_records w !! id = Some r →
  (rec_status r = Pending ∨ rec_status r = Completed) ∧
  rec_attempt r = 1 ∧ rec_iteration r = 1 ∧ rec_state_visit r = 1 ∧ rec_state_iteration r = 1.
Proof.
  intros Hw Hr. destruct (opened_records _ _ Hw _ _ Hr) as [->|(output & source & ->)]; simpl; auto 10.
Qed.

Lemma session_current_pass es i :
  steps_indexed d → session d es i → current_pass d (work i).
Proof.
  intros Hd. apply session_work_invariant.
  - intros w Hw id s r _ _ Hr.
    destruct (opened_pending_or_completed _ _ _ Hw Hr) as (_ & _ & _ & Hv & Hi).
    by rewrite (opened_visit _ _ Hw), (opened_pass _ _ Hw).
  - intros w w'. by apply current_pass_invariant.
Qed.

Lemma session_leases_keyed es i : session d es i → leases_keyed (work i).
Proof.
  apply session_work_invariant.
  - intros w Hw id r Hr Hst. destruct (opened_pending_or_completed _ _ _ Hw Hr) as ([?|?] & _);
      congruence.
  - intros w w'. apply leases_keyed_invariant.
Qed.

Lemma session_counters es i : session d es i → counters_within d (work i).
Proof.
  apply session_work_invariant.
  - intros w Hw. split.
    + intros id s r _ Hr. destruct (opened_pending_or_completed _ _ _ Hw Hr) as (_ & Ha & Hi & _).
      by apply fresh_record_within.
    + rewrite (opened_pass _ _ Hw). unfold pass_limit, StateIteration_FIRST.
      destruct (_ ≫= _); lia.
  - intros w w'. apply counters_within_invariant.
Qed.

Lemma session_in_turn es i :
  steps_indexed d → session d es i → deadlines_open (work i) ∧ worked_in_turn d (work i).
Proof.
  intros Hd. apply (session_work_invariant d (λ w, deadlines_open w ∧ worked_in_turn d w)).
  - intros w Hw. split.
    + intros id dl r Hdl. by rewrite (opened_deadlines _ _ Hw) in Hdl.
    + intros _ j k s s' r r' _ _ _ _ Hr' Hst.
      destruct (opened_pending_or_completed _ _ _ Hw Hr') as ([?|?] & _); congruence.
  - intros w w' [Hdl Ht] Hp. split; [by eapply deadlines_open_invariant|].
    by eapply worked_in_turn_invariant.
Qed.

(** ** Fences *)

(** The claim of a step is one fence, whatever the record says besides. *)
Lemma fence_depends_on_claim id1 id2 s r1 r2 :
  id1 = id2 → rec_lease r1 = rec_lease r2 → rec_state_visit r1 = rec_state_visit r2 →
  rec_state_iteration r1 = rec_state_iteration r2 → rec_iteration r1 = rec_iteration r2 →
  rec_attempt r1 = rec_attempt r2 →
  fence_for_record id1 s r1 = fence_for_record id2 s r2.
Proof.
  intros -> Hl Hv Hi Hit Ha. unfold fence_for_record, fence_preimage, fence_parts.
  rewrite Hl, Hv, Hi, Hit, Ha. done.
Qed.

(** The session a claim leaves behind holds the claimed record. *)
Lemma started_record i e :
  step_records (apply_step_started i e) !! ss_step_id e =
  Some (record_with_budget_reservation
          (record_with_started (take_step_record i (ss_step_id e)) (ss_lease e) (ss_attempt e)
             (started_claimed_role e)) (ss_budget_reservation_id e)).
Proof.
  unfold apply_step_started. destruct (ss_deadline e); simpl; apply lookup_insert_eq.
Qed.

(** ** Properties *)

(** The fence rebuilt from a claim's event alone is the fence the session
    requires of that claim's result: what a worker reads from the journal is
    what the aggregate will accept. *)
Theorem claim_fence_of_the_event es i c e i' :
  steps_indexed d → session d es i →
  decide_start_step i d c = Ok [EvStepStarted e] → apply i (EvStepStarted e) = Ok i' →
  step_claim_fence i' (ss_step_id e) = started_claim_fence e (instance_id i).
Proof.
  intros Hd Hs (step & record & e' & He & Hc)%start_cases [= <-]. injection He as <-.
  destruct Hc. destruct claimed_event as (Hid & Hl & _ & Hit & Hv & Hsi & _).
  unfold step_claim_fence. rewrite started_record. simpl.
  unfold started_claim_fence, take_step_record. rewrite Hid, claimed_record, Hv, Hsi, Hit. simpl.
  destruct (session_current_pass _ _ Hd Hs _ _ _ claimed_step claimed_state claimed_record)
    as [Hrv Hri].
  apply fence_depends_on_claim; try done.
  unfold apply_step_started. by destruct (ss_deadline e).
Qed.

(** C32: a sequential state is worked one step at a time: two of its steps are
    never in progress together. *)
Theorem sequential_state_has_one_claim es i s s' r r' :
  steps_indexed d → session d es i →
  state_execution <$> def_state d (current_state i) = Some Sequential →
  s ∈ steps_for_state d (current_state i) → s' ∈ steps_for_state d (current_state i) →
  step_records i !! step_id s = Some r → rec_status r = InProgress →
  step_records i !! step_id s' = Some r' → rec_status r' = InProgress →
  s = s'.
Proof.
  intros Hd Hs Hseq Hin Hin' Hr Hst Hr' Hst'.
  destruct (session_in_turn _ _ Hd Hs) as [_ Ht]. specialize (Ht Hseq).
  apply list_elem_of_lookup in Hin as [j Hj]. apply list_elem_of_lookup in Hin' as [k Hk].
  destruct (Nat.lt_trichotomy j k) as [Hlt|[->|Hlt]].
  - rewrite (Ht j k s s' r r') in Hst; done.
  - congruence.
  - rewrite (Ht k j s' s r' r) in Hst'; done.
Qed.

(** A concurrent state never runs more live claims than its capacity,
    counted at the instant of the claim. *)
Theorem claims_stay_within_capacity i c i' :
  steps_indexed d →
  state_execution <$> def_state d (current_state i) = Some Concurrent →
  execute i (CmdStartStep c) d = Ok i' →
  live_leases i' d (cmd_start_now c) ≤ claim_capacity d (cmd_start_max_parallel_ceiling c).
Proof.
  intros Hd Hconc Hx. unfold execute in Hx. apply bind_Ok in Hx as (es & Hdec & Ha).
  apply start_cases in Hdec as (step & record & e & -> & Hc). injection Ha as <-.
  destruct Hc. destruct claimed_event as (Hid & _).
  apply claimable_turn in claimed_turn. unfold turn in claimed_turn. simpl in claimed_turn.
  rewrite Hconc in claimed_turn.
  unfold live_leases, claim_capacity.
  pose proof (apply_work i (EvStepStarted e) _ eq_refl) as Hw. simpl in Hw.
  assert (current_state (apply_step_started i e) = current_state i) as ->
    by (exact (f_equal w_state Hw)).
  pose proof (count_update_one step_id (step_has_live_lease (apply_step_started i e) (cmd_start_now c))
    (step_has_live_lease i (cmd_start_now c)) (ss_step_id e)
    (steps_for_state d (current_state i)) (steps_for_state_NoDup _ _ Hd)) as Hcount.
  unfold w_steps in claimed_turn. simpl in claimed_turn.
  change (w_live (work i) (cmd_start_now c)) with (step_has_live_lease i (cmd_start_now c))
    in claimed_turn.
  assert (∀ x, step_id x ≠ ss_step_id e →
    step_has_live_lease (apply_step_started i e) (cmd_start_now c) x
    = step_has_live_lease i (cmd_start_now c) x) as Hsame.
  { intros x Hx. unfold step_has_live_lease.
    change (step_records (apply_step_started i e)) with (w_records (work (apply_step_started i e))).
    rewrite Hw. simpl. by rewrite lookup_insert_ne. }
  specialize (Hcount Hsame). lia.
Qed.

(** Attempts, iterations and passes stay within the definition's retry,
    repeat and state-repeat limits, in every session. *)
Theorem work_counters_are_bounded es i id s r :
  session d es i → def_step d id = Some s → step_records i !! id = Some r →
  1 ≤ rec_attempt r ≤ attempt_limit s ∧ 1 ≤ rec_iteration r ≤ iteration_limit s ∧
  1 ≤ current_state_iteration i ≤ pass_limit d (current_state i).
Proof.
  intros Hs Hstep Hr. destruct (session_counters _ _ Hs) as [Hrec Hpass].
  destruct (Hrec _ _ _ Hstep Hr). done.
Qed.

(** Work in progress is leased work: the record of every step in progress
    holds a lease, and that lease's key is among the accepted ones. *)
Theorem work_in_progress_is_leased es i id r :
  session d es i → step_records i !! id = Some r → rec_status r = InProgress →
  ∃ lease, rec_lease r = Some lease ∧ lease_idempotency_key lease ∈ idempotency_keys i.
Proof. intros Hs. apply (session_leases_keyed _ _ Hs). Qed.

(** The result of a superseded claim changes no work.  A worker that
    still holds the fence of an earlier claim of a step (another attempt or
    another key) can at most have its result observed as late, as long as the
    digest does not collide on the two claims. *)
Theorem superseded_claim_cannot_file i c i' r l r0 l0 :
  step_records i !! cmd_result_step_id c = Some r → rec_lease r = Some l →
  rec_lease r0 = Some l0 →
  (rec_attempt r0, lease_idempotency_key l0) ≠ (rec_attempt r, lease_idempotency_key l) →
  Forall frameable (fence_parts (instance_id i) (cmd_result_step_id c) r l) →
  Forall frameable (fence_parts (instance_id i) (cmd_result_step_id c) r0 l0) →
  (let p := fence_preimage (instance_id i) (cmd_result_step_id c) in
   sha256_hex (p r l) = sha256_hex (p r0 l0) → p r l = p r0 l0) →
  fence_for_record (instance_id i) (cmd_result_step_id c) r0 = Ok (cmd_result_claim_fence c) →
  execute i (CmdApplyStepResult c) d = Ok i' →
  work i' = work i.
Proof.
  intros Hr Hl Hl0 Hne HF HF0 Hinj Hf Hx. unfold execute in Hx.
  apply bind_Ok in Hx as (es & Hdec & Ha).
  apply result_cases in Hdec as [->|[(late & -> & _)|(step & record & Hfiled & _)]];
    [by simplify_eq/=|by simplify_eq/=|].
  exfalso. destruct Hfiled. unfold step_claim_fence in filed_fence. rewrite Hr in filed_fence.
  simpl in filed_fence.
  pose proof (fence_identifies _ _ _ _ r r0 l l0 _ Hinj Hl Hl0 HF HF0 filed_fence Hf) as Hparts.
  apply fence_parts_inj in Hparts as (_ & _ & _ & _ & _ & Ha' & _ & Hk & _). congruence.
Qed.
End claims.

(** ** The properties on the demonstration ceremony *)

Lemma claim_fence_of_the_event_witness :
  step_claim_fence planning (ss_step_id first_claim)
  = started_claim_fence first_claim (instance_id demo_start).
Proof.
  apply (claim_fence_of_the_event demo demo_opening demo_start
    (MkStartStep None "plan" (lease_of "worker" "key-1" 0 minute) 0 MaxParallel_SERVER_MAX None)
    first_claim planning demo_indexed demo_session_start); vm_compute; reflexivity.
Defined.

Lemma sequential_state_has_one_claim_witness :
  rec_status (record_of planning "plan") = InProgress ∧
  ∀ s r, s ∈ steps_for_state demo (current_state planning) →
    step_records planning !! step_id s = Some r → rec_status r = InProgress → demo_plan = s.
Proof.
  split; [vm_compute; reflexivity|]. intros s r Hs Hr Hst.
  refine (sequential_state_has_one_claim demo _ planning demo_plan s
    (record_of planning "plan") r demo_indexed planning_session
    _ _ Hs _ _ Hr Hst); try (vm_compute; reflexivity).
  apply list_elem_of_In. vm_compute. auto.
Defined.

(** The second claim of the review state. *)
Definition right_claim : StartStep :=
  MkStartStep None "right" (lease_of "worker" "key-4" (2 * minute) (3 * minute)) (2 * minute)
    MaxParallel_SERVER_MAX None.

Lemma claims_stay_within_capacity_witness :
  live_leases both_taken demo (cmd_start_now right_claim)
    ≤ claim_capacity demo (cmd_start_max_parallel_ceiling right_claim) ∧
  live_leases both_taken demo (cmd_start_now right_claim) = 2.
Proof.
  assert (execute left_taken (CmdStartStep right_claim) demo = Ok both_taken) as Hx
    by (vm_compute; reflexivity).
  split; [|vm_compute; reflexivity].
  refine (claims_stay_within_capacity demo left_taken right_claim both_taken demo_indexed _ Hx).
  vm_compute; reflexivity.
Defined.

Lemma work_counters_are_bounded_witness :
  1 ≤ rec_attempt (record_of both_taken "plan") ≤ attempt_limit demo_plan ∧
  1 ≤ rec_iteration (record_of both_taken "plan") ≤ iteration_limit demo_plan ∧
  1 ≤ current_state_iteration both_taken ≤ pass_limit demo (current_state both_taken).
Proof.
  refine (work_counters_are_bounded demo demo_stream both_taken "plan" demo_plan
    (record_of both_taken "plan") demo_session _ _); vm_compute; reflexivity.
Defined.

Lemma work_in_progress_is_leased_witness :
  ∃ lease, rec_lease (record_of both_taken "left") = Some lease ∧
    lease_idempotency_key lease ∈ idempotency_keys both_taken.
Proof.
  refine (work_in_progress_is_leased demo demo_stream both_taken "left"
    (record_of both_taken "left") demo_session _ _); vm_compute; reflexivity.
Defined.

(** The worker of the first attempt comes back after its lease expired and a
    second worker claimed the step. *)
Definition retaken := after planning (claim_cmd "plan" "key-9" (2 * minute)).

Definition stale_result : ApplyStepResult :=
  MkApplyStepResult "plan" (fence_of planning "plan") demo_success (2 * minute).

Lemma superseded_claim_cannot_file_witness :
  is_ok (execute retaken (CmdApplyStepResult stale_result) demo) = false ∧
  ∀ i', execute retaken (CmdApplyStepResult stale_result) demo = Ok i' →
        work i' = work retaken.
Proof.
  split; [vm_compute; reflexivity|]. intros i'.
  refine (superseded_claim_cannot_file demo retaken stale_result i' (record_of retaken "plan")
    (lease_of "worker" "key-9" (2 * minute) (3 * minute)) (record_of planning "plan")
    (lease_of "worker" "key-1" 0 minute) _ _ _ _ _ _ _ _).
  - vm_compute; reflexivity.
  - vm_compute; reflexivity.
  - vm_compute; reflexivity.
  - vm_compute; discriminate.
  - repeat constructor; vm_compute; reflexivity.
  - repeat constructor; vm_compute; reflexivity.
  - intros p Hp. exact Hp.
  - vm_compute; reflexivity.
Defined.
