(* ===== verification/Moves.v ===== *)
(** * Moves between states

    Which moves a session may take: the stream of moves is a path of declared
    transitions within the declared budgets, a move is accepted exactly when
    the transition is enabled, and a session is completed exactly when it
    stands in a terminal state, with nothing left open on its table. *)

From S2P Require Import Prelude Errors Text Values Steps Definitions Interventions Instance.
From S2P Require Import Fold Rules Decide DecideTable DecideLineage Engine Sessions Machine.
From S2P Require Import Invariants Scenario.

(** The states are indexed under their own identifier ([collect_states]). *)
Definition states_indexed (d : CeremonyDefinition) : Prop :=
  ∀ id s, def_states d !! id = Some s → state_id s = id.

(** Nothing is open on the table of a session. *)
Definition table_closed (i : CeremonyInstance) : bool := negb (any iv_is_open (interventions i)).

Section moves.
Context {Hsha : Sha256} {Hclk : Clock} {Hser : EvidenceSerde}.
Context (d : CeremonyDefinition).

Lemma opened_moves_ok w : opened d w → moves_ok d w.
Proof.
  intros []. constructor; rewrite ?opened_moves; simpl; try (intros; lia).
  - by rewrite opened_visit.
  - eauto.
  - intros. unfold count. simpl. lia.
Qed.

Lemma session_moves_ok es i : session d es i → moves_ok d (work i).
Proof. apply session_work_invariant; [apply opened_moves_ok|apply moves_ok_invariant]. Qed.

(** The moves a session has made lead from the initial state of its
    definition to the state it stands in, along declared transitions and never
    out of a terminal state; the visit counter is their number plus one, and
    neither the number of moves nor the number of times any one edge was taken
    exceeds the limit the definition declares. *)
Theorem session_follows_declared_moves es i :
  session d es i →
  (∃ from, initial_state_id d = Ok from ∧ path d from (transitions i) (current_state i)) ∧
  current_state_visit i = 1 + Z.of_nat (length (transitions i)) ∧
  (∀ limit, def_max_transitions d = Some limit →
     Z.of_nat (length (transitions i)) ≤ Z.max 0 limit) ∧
  (∀ limit t, def_max_bounces d = Some limit →
     Z.of_nat (exact_edge_count i t) ≤ Z.max 0 limit).
Proof. intros [Hvisit Hpath Hlimit Hbounces]%session_moves_ok. done. Qed.

(** A running session accepts a move by its host exactly when the trigger
    names a transition out of the current state that is enabled at that
    instant, provided the visit counter and the clock do not overflow. *)
Theorem move_accepted_iff_enabled i c visit deadline :
  matches_definition i d = true → admits_new_work i = true → is_terminal i d = false →
  cmd_transition_role_id c = None →
  StateVisit_next (current_state_visit i) = Ok visit →
  try_option (λ timeout, checked_deadline (cmd_transition_now c) timeout "state_deadline")
    (def_state_timeout d) = Ok deadline →
  is_ok (decide i (CmdApplyTransition c) d) = true ↔
  ∃ t, transition_for_trigger d (current_state i) (cmd_transition_trigger c) = Some t ∧
       transition_is_enabled_at i d t (cmd_transition_now c) = true.
Proof.
  intros Hdef Hrun Hterm Hrole Hvisit Hdl. split.
  - destruct (decide i _ d) as [es| |] eqn:Hd; try done. intros _.
    apply move_cases in Hd as (t & e & v & [] & _). eauto.
  - intros (t & Ht & Hen). simpl. unfold decide_apply_transition, require_definition,
      require_admits_new_work. rewrite Hrole, Hdef, Hrun, Hterm.
    unfold admits_new_work in Hrun. apply andb_true_iff in Hrun as [Hend%negb_true_iff _].
    rewrite Hend, Ht. simpl.
    unfold transition_is_enabled_at, transition_is_enabled,
      transition_requirements_are_satisfied in Hen.
    rewrite !andb_true_iff in Hen. destruct Hen as (Hlive & Hbudget & [Hrep Hguards] & Hopen).
    destruct (require_transition_budget i d t) as [[]| |]; try done. simpl.
    rewrite Hlive, Hrep, Hguards, Hvisit. simpl. rewrite Hdl. simpl.
    by destruct (require_interventions_resolved_before_entering i d (tr_to t)).
Qed.

(** ** Completion *)

Lemma initial_not_terminal from :
  states_indexed d → initial_state_id d = Ok from → is_terminal_state d from = false.
Proof.
  unfold initial_state_id. intros Hidx Hi.
  destruct (List.find _ _) as [s|] eqn:Hf; [|done]. injection Hi as <-.
  apply find_some in Hf as [(id & Hs)%list_elem_of_In%elem_of_btree_values Hk%eqb_true_1].
  unfold is_terminal_state. rewrite (Hidx _ _ Hs), Hs. simpl. unfold state_is_terminal.
  by rewrite Hk.
Qed.

(** A session stands in a terminal state exactly when it was completed, and
    then nothing is open on its table. *)
Definition completes_at_the_end (i : CeremonyInstance) : Prop :=
  is_some (completed_at i) = is_terminal_state d (current_state i) ∧
  (is_terminal_state d (current_state i) = true → table_closed i = true).

(** Work inside a state keeps the state. *)
Definition move_event (e : CeremonyEvent) : bool :=
  match e with EvTransitionApplied _ | EvInstanceImported _ => true | _ => false end.

Lemma apply_state_frame i e i' :
  apply i e = Ok i' → move_event e = false → current_state i' = current_state i.
Proof using.
  intros He Hi. destruct (apply_ok_cases _ _ _ He) as [(w & p & -> & _ & ->)|Hw]; [done|].
  destruct e; try done; try (by destruct (Hw e)); injection He as <-; clear Hw Hi; frame_event.
Qed.

Definition table_command (c : CeremonyCommand) : bool :=
  match c with
  | CmdRequestIntervention _ | CmdRespondToIntervention _
  | CmdRespondToInterventionWithEvidence _ _ _ _ | CmdAcknowledgeInterventionDelivery _ _ _
  | CmdCloseIntervention _ _ _ => true
  | _ => false
  end.

Lemma require_active_Ok i reason u :
  require_active i d reason = Ok u →
  matches_definition i d = true ∧ is_terminal_state d (current_state i) = false ∧
  is_ended i = false.
Proof using.
  unfold require_active, require_definition. intros H. invert_ok H.
  match goal with H : negb _ = true |- _ =>
    apply negb_true_iff, orb_false_iff in H as [Ht ?] end.
  split_and!; [done| |done]. unfold is_terminal in Ht. by destruct (matches_definition i d).
Qed.

(** The table of a session in a terminal state takes no command. *)
Lemma table_command_active i c es :
  table_command c = true → decide i c d = Ok es →
  is_terminal_state d (current_state i) = false ∧ is_ended i = false.
Proof using.
  intros Hc Hd. assert (∃ reason u, require_active i d reason = Ok u) as (reason & u & Hr).
  { destruct c; try done; simpl in Hd;
      unfold decide_request_intervention, decide_respond_to_intervention,
        decide_respond_to_intervention_with_evidence, decide_acknowledge_intervention_delivery,
        decide_close_intervention in Hd;
      repeat (apply bind_Ok in Hd as (? & ? & Hd)); eauto. }
  by destruct (require_active_Ok _ _ _ Hr) as (_ & ? & ?).
Qed.

(** A move that enters a terminal state completes the session. *)
Lemma completes_move i c es i' :
  completes_at_the_end i → decide_apply_transition i d c = Ok es → apply_all i es = Ok i' →
  completes_at_the_end i'.
Proof.
  intros [Hc _] (t & e & v & [] & ->)%move_cases Ha.
  unfold completes_at_the_end, table_closed.
  rewrite (apply_all_frame interventions table_event i _ i' apply_table_frame Ha)
    by (clear; by destruct (is_terminal_state d (tr_to t))).
  destruct moved_record as (_ & Hto & _).
  assert (current_state i' = tr_to t) as ->.
  { destruct (is_terminal_state d (tr_to t)); injection Ha as <-; done. }
  unfold is_terminal in moved_not_terminal. rewrite moved_definition in moved_not_terminal.
  destruct (is_terminal_state d (tr_to t)) eqn:Hterm; simpl in Ha.
  - injection Ha as <-. split; [done|intros _].
    unfold transition_is_enabled_at, transition_is_enabled, transition_requirements_are_satisfied,
      require_interventions_resolved_before_entering in moved_enabled.
    rewrite !andb_true_iff, Hterm in moved_enabled.
    destruct moved_enabled as (_ & _ & _ & Hopen). by destruct (any iv_is_open _).
  - rewrite (apply_all_frame completed_at completion_event i [EvTransitionApplied e] i'
      apply_completion_frame Ha eq_refl). simpl in moved_not_terminal. by rewrite Hc.
Qed.

Lemma completes_step i c es i' :
  completes_at_the_end i → decide i c d = Ok es → apply_all i es = Ok i' →
  completes_at_the_end i'.
Proof.
  intros Hi Hd Ha.
  destruct (base.decide (is_Some (match c with CmdApplyTransition t => Some t | _ => None end)))
    as [[t Ht]|Hno].
  { destruct c; simplify_eq/=. by eapply completes_move. }
  destruct Hi as [Hc Ht].
  assert (current_state i' = current_state i) as Hst.
  { refine (apply_all_frame current_state move_event i es i' apply_state_frame Ha _).
    eapply decide_any; [exact Hd|]. intros e. destruct c, e; try done. by destruct Hno. }
  assert (completed_at i' = completed_at i) as Hcm.
  { refine (apply_all_frame completed_at completion_event i es i' apply_completion_frame Ha _).
    eapply decide_any; [exact Hd|]. intros e. destruct c, e; try done. by destruct Hno. }
  unfold completes_at_the_end. rewrite Hst, Hcm. split; [done|]. intros Hterm.
  destruct (table_command c) eqn:Htab.
  { destruct (table_command_active _ _ _ Htab Hd). congruence. }
  unfold table_closed. rewrite (apply_all_frame interventions table_event i es i'
    apply_table_frame Ha); [by apply Ht|].
  eapply decide_any; [exact Hd|]. intros e. by destruct c, e.
Qed.

Lemma completes_opening started es i :
  states_indexed d → initial_state_id d = Ok (cis_initial_state started) →
  any (λ e, move_event e || completion_event e) es = false →
  apply_all (from_started started) es = Ok i → completes_at_the_end i.
Proof using.
  intros Hidx Hinit Hany Ha. rewrite any_false in Hany. unfold completes_at_the_end.
  rewrite (apply_all_frame current_state move_event _ _ _ apply_state_frame Ha),
    (apply_all_frame completed_at completion_event _ _ _ apply_completion_frame Ha).
  - simpl. by rewrite initial_not_terminal.
  - apply any_false. intros e He. by apply Hany, orb_false_iff in He as [_ ?].
  - apply any_false. intros e He. by apply Hany, orb_false_iff in He as [? _].
Qed.

Lemma session_completes es i :
  states_indexed d → session d es i → completes_at_the_end i.
Proof.
  intros Hidx. induction 1 as [id ctx bound lin account rcl now started i Ho Ha
    |id pub ctx succ plan now es started i Hpub Hs Hh Ha
    |es i command es' i' _ IH _ Hd Ha]; [| |by eapply completes_step].
  - apply opening_initial in Ho as (Hinit & _). eapply completes_opening; [done..| |exact Ha].
    unfold opening_batch. simpl. by destruct (option_keep _ _).
  - unfold decide_start_successor in Hs. apply bind_Ok in Hs as (started' & Ho & Hs).
    rewrite <-Hpub in Ho. apply opening_initial in Ho as (Hinit & _). injection Hs as <-.
    simpl in Hh. injection Hh as <-. refine (completes_opening _ _ _ Hidx _ _ Ha); [exact Hinit|].
    simpl. by destruct (_ =? _)%nat.
Qed.

(** A session is completed exactly when it stands in a terminal state of
    its definition, and a session that stands there has no open item left on
    its table. *)
Theorem completed_iff_terminal es i :
  states_indexed d → session d es i →
  is_completed i d = is_some (completed_at i) ∧
  is_some (completed_at i) = is_terminal i d ∧
  (is_terminal i d = true → table_closed i = true).
Proof.
  intros Hidx Hs. pose proof (session_matches _ _ _ Hs) as Hm.
  destruct (session_completes _ _ Hidx Hs) as [Hc Ht].
  unfold is_completed, is_terminal. rewrite Hm, Hc. simpl.
  split_and!; [by destruct (is_terminal_state _ _)|done|done].
Qed.
End moves.

(** ** The properties on the demonstration ceremony *)

Lemma demo_states_indexed : states_indexed demo.
Proof.
  assert (map_Forall (λ id s, state_id s = id) (def_states demo)) as Hall
    by (apply (bool_decide_eq_true_1 _); vm_compute; reflexivity). exact Hall.
Qed.

Lemma session_follows_declared_moves_witness :
  (∃ from, initial_state_id demo = Ok from ∧
     path demo from (transitions both_taken) (current_state both_taken)) ∧
  current_state_visit both_taken = 1 + Z.of_nat (length (transitions both_taken)) ∧
  (∀ limit, def_max_transitions demo = Some limit →
     Z.of_nat (length (transitions both_taken)) ≤ Z.max 0 limit) ∧
  (∀ limit t, def_max_bounces demo = Some limit →
     Z.of_nat (exact_edge_count both_taken t) ≤ Z.max 0 limit).
Proof. exact (session_follows_declared_moves demo demo_stream both_taken demo_session). Defined.

Definition submit : ApplyTransition := MkApplyTransition None "submit" (2 * minute).

Lemma move_accepted_iff_enabled_witness :
  is_ok (decide checked (CmdApplyTransition submit) demo) = true ↔
  ∃ t, transition_for_trigger demo (current_state checked) (cmd_transition_trigger submit) = Some t ∧
       transition_is_enabled_at checked demo t (cmd_transition_now submit) = true.
Proof.
  refine (move_accepted_iff_enabled demo checked submit 2 None _ _ _ _ _ _);
    vm_compute; reflexivity.
Defined.

(** The demonstration taken to its end: both reviews filed, the guard approved. *)
Definition left_done := after both_taken (finish_cmd both_taken "left" (2 * minute)).
Definition right_done := after left_done (finish_cmd left_done "right" (2 * minute)).
Definition approval : CeremonyCommand :=
  CmdApproveGuard (MkApproveGuard "sign_off" "lead" ActorHuman (2 * minute)).
Definition approved := after right_done approval.
Definition finished := after approved (move_cmd "approve" (3 * minute)).

Definition finished_stream : list CeremonyEvent :=
  demo_stream ++ events_of both_taken (finish_cmd both_taken "left" (2 * minute))
    ++ events_of left_done (finish_cmd left_done "right" (2 * minute))
    ++ events_of right_done approval
    ++ events_of approved (move_cmd "approve" (3 * minute)).

Lemma finished_session : session demo finished_stream finished.
Proof.
  unfold finished_stream. rewrite !app_assoc.
  do 4 (apply session_after; [|vm_compute; reflexivity]).
  apply demo_session.
Qed.

Lemma completed_iff_terminal_witness :
  completed_at finished = Some (3 * minute) ∧
  is_completed finished demo = is_some (completed_at finished) ∧
  is_some (completed_at finished) = is_terminal finished demo ∧
  (is_terminal finished demo = true → table_closed finished = true).
Proof.
  split; [vm_compute; reflexivity|].
  exact (completed_iff_terminal demo finished_stream finished demo_states_indexed finished_session).
Defined.
