(* ===== verification/Publication.v ===== *)
(** * What a published definition guarantees

    A draft publishes exactly when its report carries no error, and then the
    definition is sound; the cyclic components the analysis finds are the
    cycles of the graph, and so every session of a published definition makes
    a bounded number of moves. *)

From S2P Require Import Prelude Errors Text Values Steps Definitions Graph Analysis.
From S2P Require Import Interventions Instance Fold Rules Decide DecideTable DecideLineage Engine.
From S2P Require Import Sessions Machine Invariants Scenario Moves.

(** ** Reports *)

Notation blocked := (any is_blocking).

Lemma any_app {A} (f : A → bool) l1 l2 : any f (l1 ++ l2) = any f l1 || any f l2.
Proof. apply existsb_app. Qed.

Lemma first_error_None r : first_error r = None ↔ blocked (findings r) = false.
Proof.
  unfold first_error, any. induction (findings r) as [|f l IH]; simpl; [done|].
  by destruct (is_blocking f).
Qed.

Lemma find_app {A} (f : A → bool) l1 l2 :
  List.find f (l1 ++ l2) = match List.find f l1 with Some x => Some x | None => List.find f l2 end.
Proof. induction l1 as [|x l1 IH]; simpl; [done|]. by destruct (f x). Qed.

Lemma blocked_flat_map {A} (f : A → list CeremonyValidationFinding) l x :
  blocked (flat_map f l) = false → x ∈ l → blocked (f x) = false.
Proof.
  induction l as [|y l IH]; simpl; [by intros _ ?%elem_of_nil|].
  rewrite any_app, orb_false_iff. intros [Hy Hl] [->|Hx]%elem_of_cons; [done|by apply IH].
Qed.

Lemma blocked_push_if b locus e : blocked (push_if b (finding_error locus e)) = b.
Proof. by destruct b. Qed.

Lemma blocked_warn_if b locus e : blocked (push_if b (finding_warning locus e)) = false.
Proof. by destruct b. Qed.

Create HintDb report discriminated.
#[export] Hint Rewrite @any_app blocked_push_if blocked_warn_if orb_false_iff negb_false_iff : report.

(** Which findings block, in a hypothesis. *)
Ltac report_in H := autorewrite with report in H.

(** A map with one value of a kind has one entry of that kind. *)
Lemma sole_entry {V} (f : V → bool) (m : gmap string V) :
  count f (btree_values m) = 1%nat →
  ∃ k v, m !! k = Some v ∧ f v = true ∧ ∀ k' v', m !! k' = Some v' → f v' = true → k' = k ∧ v' = v.
Proof.
  assert (∀ l : list (string * V), count f l.*2 = length (List.filter (λ e, f e.2) l)) as Hl.
  { intros l. unfold count. induction l as [|[k v] l IH]; [done|].
    rewrite fmap_cons. cbn [List.filter snd]. destruct (f v); cbn [length]; by rewrite IH. }
  unfold btree_values. rewrite Hl. intros H1.
  destruct (List.filter _ _) as [|[k v] [|]] eqn:Hf; try done.
  assert (∀ k' v', m !! k' = Some v' ∧ f v' = true ↔ (k', v') ∈ [(k, v)]) as Hin.
  { intros k' v'. rewrite <-Hf, list_elem_of_In, filter_In, <-list_elem_of_In.
    by rewrite elem_of_btree_entries. }
  destruct (proj2 (Hin k v)) as [Hk Hv]; [by left|]. exists k, v. split_and!; [done|done|].
  intros k' v' Hk' Hv'. pose proof (proj1 (Hin k' v') (conj Hk' Hv')) as [= -> ->]%list_elem_of_singleton. done.
Qed.

(** ** Duplicates *)

Section duplicates.
Context {V : Type} (key : V → string) (what : string).

Lemma index_acc items m dup :
  foldl (index_item key) (m, dup) items =
  ((foldl (index_item key) (m, []) items).1, dup ++ (foldl (index_item key) (m, []) items).2).
Proof using.
  revert m dup. induction items as [|x items IH]; intros m dup; simpl; [by rewrite app_nil_r|].
  unfold index_item at 2 4 6. cbn [fst snd].
  destruct (is_some (m !! key x)); [|by rewrite IH].
  rewrite (IH m (dup ++ _)), (IH m ([] ++ _)). by rewrite <-app_assoc.
Qed.

(** Collecting refuses exactly the lists whose index reports a duplicate. *)
Lemma collect_by_index items :
  collect_by key what items =
  match (index key items).2 with [] => Ok (index key items).1 | _ => Err (AlreadyExists what) end.
Proof using.
  unfold collect_by, index. generalize (∅ : gmap string V) as m.
  induction items as [|x items IH]; intros m; cbn; [done|].
  unfold index_item at 2 4. cbn [fst snd].
  destruct (is_some (m !! key x)); [by rewrite index_acc|apply IH].
Qed.

Lemma find_push_duplicates duplicates locus :
  List.find is_blocking (push_duplicates duplicates what locus) =
  (λ k, finding_error (locus k) (AlreadyExists what)) <$> head duplicates.
Proof using. by destruct duplicates. Qed.
End duplicates.

Section publication.
Context (draft : CeremonyDefinitionDraft).

(** C35: publishing a draft fails exactly when its report carries an error,
    with the first error of the report as the reason, and never panics; a draft
    that publishes gives a definition whose own analysis repeats the report of
    the draft. *)
Theorem publish_raises_the_first_error :
  match first_error (draft_analyze draft) with
  | Some finding => publish draft = Err (finding_defect finding)
  | None => ∃ d, publish draft = Ok d ∧ analyze d = draft_analyze draft
  end.
Proof.
  unfold first_error, draft_analyze, publish, CeremonyDefinition_new_with_transition_budgets,
    collect_steps, collect_inputs, collect_outputs, collect_states, collect_guards, collect_roles.
  rewrite !collect_by_index. cbn [findings]. rewrite find_app. unfold draft_duplicates.
  rewrite !find_app, !find_push_duplicates.
  destruct (index input_name _).2 as [|? ?]; [|done].
  destruct (index (λ name, name) _).2 as [|? ?]; [|done].
  destruct (index state_id (draft_states draft)) as [states [|? ?]] eqn:Hst; [|done].
  destruct (index step_id (draft_steps draft)) as [steps [|? ?]] eqn:Hsp; [|done].
  destruct (index guard_name (draft_guards draft)) as [guards [|? ?]] eqn:Hg; [|done].
  destruct (index role_id (draft_roles draft)) as [roles [|? ?]] eqn:Hr; [|done].
  unfold validate, analyze, first_error, parts, draft_parts. cbn.
  rewrite Hst, Hsp, Hg, Hr. cbn. destruct (List.find _ _) as [f|]; [done|]. cbn.
  eexists. split; [done|]. by destruct (draft_ceremony_timeout draft), (draft_state_timeout draft).
Qed.
End publication.

(** ** Soundness *)

Section sound.
Context (d : CeremonyDefinition).

(** What construction promises of the state machine it accepted. *)
Record sound_definition : Prop := {
  (* the indexes agree with what they index, and the order with the index *)
  sound_steps_indexed : steps_indexed d;
  sound_states_indexed : states_indexed d;
  (* one initial state, found without a panic *)
  sound_initial : ∃ id s, initial_state_id d = Ok id ∧ def_states d !! id = Some s ∧
    state_is_initial s = true ∧
    ∀ id' s', def_states d !! id' = Some s' → state_is_initial s' = true → id' = id;
  (* every transition joins declared states, never leaves a terminal one, and
     is the one its state and trigger name *)
  sound_edges : ∀ t, t ∈ def_transitions d →
    is_Some (def_states d !! tr_from t) ∧ is_Some (def_states d !! tr_to t) ∧
    is_terminal_state d (tr_from t) = false ∧
    transition_for_trigger d (tr_from t) (tr_trigger t) = Some t;
  (* every guard a transition requires is declared, and can hold there *)
  sound_required_guards : ∀ t name, t ∈ def_transitions d → name ∈ tr_required_guards t →
    ∃ g, def_guards d !! name = Some g ∧
      match guard_condition g with
      | StepRepeatExhausted id => ∃ s, def_step d id = Some s ∧
          step_state_id s = tr_from t ∧ is_Some (step_repeat_policy s)
      | StateRepeatExhausted id => id = tr_from t ∧
          ∃ s, def_state d id = Some s ∧ is_Some (state_repeat s)
      | ChildrenCompleted id join => ∃ s spawn, def_step d id = Some s ∧
          step_spawn s = Some spawn ∧
          match join with
          | JoinQuorum n => n ≤ Z.of_nat (length (spawn_children spawn))
          | _ => True
          end
      | StepStatusIs id _ | OutputField id _ _ => is_Some (def_step d id)
      | _ => True
      end;
  (* every step belongs to a declared state that is not terminal *)
  sound_step_states : ∀ id s, def_step d id = Some s →
    is_Some (def_states d !! step_state_id s) ∧ is_terminal_state d (step_state_id s) = false;
  (* a state repeats until a step of its own says so *)
  sound_repeats : ∀ id s policy, def_state d id = Some s → state_repeat s = Some policy →
    ∃ step, def_step d (strp_step_id policy) = Some step ∧ step_state_id step = id;
  (* a role acts on what is declared *)
  sound_roles : ∀ id r action, def_role d id = Some r → action ∈ role_allowed_actions r →
    match action with
    | ActStep step => is_Some (def_step d step)
    | ActTransition trigger => ∃ t, t ∈ def_transitions d ∧ tr_trigger t = trigger
    | _ => True
    end;
  (* a concurrent state can be left through a join *)
  sound_joins : ∀ id s, def_state d id = Some s → state_execution s = Concurrent →
    ∃ t, t ∈ def_transitions d ∧ tr_from t = id ∧
      transition_has_join (parts d) t (steps_of_state (parts d) id) = true;
}.

Hypothesis Hquiet : validate d = Ok tt.

Lemma quiet_findings : blocked (collect_findings (parts d)) = false.
Proof using Hquiet.
  unfold validate in Hquiet. destruct (first_error _) eqn:Hf; [done|].
  by apply first_error_None in Hf.
Qed.

(** What the check of one transition leaves when it finds no error. *)
Lemma quiet_transitions pairs ts :
  blocked (transition_findings (parts d) pairs ts) = false →
  Forall (λ t, (∃ from, def_states d !! tr_from t = Some from ∧ state_is_terminal from = false) ∧
    is_Some (def_states d !! tr_to t) ∧ (tr_from t, tr_trigger t) ∉ pairs ∧
    ∀ name, name ∈ tr_required_guards t →
      blocked (transition_guard_findings (parts d) t name) = false) ts ∧
  NoDup ((λ t, (tr_from t, tr_trigger t)) <$> ts).
Proof using.
  revert pairs. induction ts as [|t ts IH]; intros pairs; simpl.
  { intros _. split; [constructor|constructor]. }
  destruct (def_states d !! tr_from t) as [from|] eqn:Hfrom; [|done].
  destruct (def_states d !! tr_to t) as [to|] eqn:Hto; [|done]. simpl.
  destruct (state_is_terminal from) eqn:Hterm; [done|].
  destruct (bool_decide_reflect ((tr_from t, tr_trigger t) ∈ pairs)) as [|Hnew]; [done|].
  intros H. rewrite any_app in H. apply orb_false_iff in H as [Hg Hts].
  apply IH in Hts as [Hall Hnd]. split.
  - constructor.
    + split_and!; [eauto|eauto|done|]. intros name Hname.
      apply (blocked_flat_map _ _ _ Hg). by apply elem_of_btree_elements.
    + eapply Forall_impl; [exact Hall|]. intros t' (? & ? & Hp & ?). split_and!; [done|done| |done].
      contradict Hp. by apply elem_of_union_r.
  - apply NoDup_cons. split; [|done]. intros (t' & Heq & Ht')%list_elem_of_fmap.
    rewrite Forall_forall in Hall. destruct (Hall t' Ht') as (_ & _ & Hp & _).
    apply Hp, elem_of_union_l, elem_of_singleton. by rewrite Heq.
Qed.

(** The findings, check by check. *)
Lemma quiet_checks :
  blocked (collect_initial_state_findings (parts d)) = false ∧
  blocked (collect_transition_graph_findings (parts d)) = false ∧
  blocked (collect_cycle_findings (parts d)) = false ∧
  blocked (collect_step_findings (parts d)) = false ∧
  blocked (collect_state_repeat_findings (parts d)) = false ∧
  blocked (collect_guard_findings (parts d)) = false ∧
  blocked (collect_exhaustion_findings (parts d)) = false ∧
  blocked (collect_role_findings (parts d)) = false ∧
  blocked (collect_concurrent_state_findings (parts d)) = false.
Proof using Hquiet.
  pose proof quiet_findings as H. unfold collect_findings in H.
  rewrite !any_app, !orb_false_iff in H. tauto.
Qed.

Lemma quiet_edges :
  Forall (λ t, (∃ from, def_states d !! tr_from t = Some from ∧ state_is_terminal from = false) ∧
    is_Some (def_states d !! tr_to t) ∧ (tr_from t, tr_trigger t) ∉ (∅ : gset (string * string)) ∧
    ∀ name, name ∈ tr_required_guards t →
      blocked (transition_guard_findings (parts d) t name) = false) (def_transitions d) ∧
  NoDup ((λ t, (tr_from t, tr_trigger t)) <$> def_transitions d).
Proof using Hquiet. apply quiet_transitions. apply quiet_checks. Qed.

(** With distinct keys, searching by key finds the entry it was made from. *)
Lemma find_by_key {A B} `{EqDecision B} (key : A → B) (f : A → bool) (l : list A) (x : A) :
  NoDup (key <$> l) → x ∈ l → (∀ y, f y = true ↔ key y = key x) → List.find f l = Some x.
Proof using.
  intros Hnd Hx Hf. induction l as [|y l IH]; [by apply elem_of_nil in Hx|]. simpl.
  apply NoDup_cons in Hnd as [Hy Hnd]. destruct (f y) eqn:E.
  - apply Hf in E. apply elem_of_cons in Hx as [->|Hx]; [done|]. destruct Hy.
    rewrite E. by apply list_elem_of_fmap_2.
  - apply elem_of_cons in Hx as [->|Hx]; [|by apply IH].
    assert (f y = true) by (by apply Hf). congruence.
Qed.

Lemma sound_edges_of t :
  t ∈ def_transitions d →
  is_Some (def_states d !! tr_from t) ∧ is_Some (def_states d !! tr_to t) ∧
  is_terminal_state d (tr_from t) = false ∧
  transition_for_trigger d (tr_from t) (tr_trigger t) = Some t.
Proof using Hquiet.
  intros Ht. destruct quiet_edges as [Hall Hnd]. rewrite Forall_forall in Hall.
  destruct (Hall t Ht) as ((from & Hfrom & Hterm) & Hto & _). split_and!; [eauto|done| |].
  - unfold is_terminal_state. by rewrite Hfrom.
  - unfold transition_for_trigger.
    apply (find_by_key (λ t, (tr_from t, tr_trigger t)) _ _ _ Hnd Ht).
    intros y. rewrite andb_true_iff, !eqb_true. split; [by intros [-> ->]|by intros [= -> ->]].
Qed.

Lemma quiet_initial :
  ∃ id s, def_states d !! id = Some s ∧ List.find state_is_initial (btree_values (def_states d)) = Some s ∧
    state_is_initial s = true ∧
    ∀ id' s', def_states d !! id' = Some s' → state_is_initial s' = true → id' = id.
Proof using Hquiet.
  destruct quiet_checks as (H & _). unfold collect_initial_state_findings in H.
  destruct (_ =? _)%nat; [done|]. report_in H. apply Nat.eqb_eq in H. simpl in H.
  destruct (sole_entry _ _ H) as (id & s & Hs & Hi & Hsole). exists id, s. split_and!; [done| |done|].
  - destruct (List.find _ _) as [s'|] eqn:Hf.
    + apply find_some in Hf as [(id' & Hs')%list_elem_of_In%elem_of_btree_values Hi'].
      by destruct (Hsole _ _ Hs' Hi') as [-> ->].
    + eapply find_none in Hf; [by rewrite Hi in Hf|]. apply list_elem_of_In, elem_of_btree_values. eauto.
  - intros id' s' Hs' Hi'. by destruct (Hsole _ _ Hs' Hi') as [-> ->].
Qed.

Lemma quiet_step id s :
  def_step d id = Some s →
  is_Some (def_states d !! step_state_id s) ∧ is_terminal_state d (step_state_id s) = false.
Proof using Hquiet.
  intros Hs. destruct quiet_checks as (_ & _ & _ & H & _).
  apply (blocked_flat_map _ _ (id, s)) in H; [|by apply elem_of_btree_entries].
  unfold step_findings, is_terminal_state in *. simpl in H.
  destruct (def_states d !! step_state_id s) as [state|] eqn:Hst; [|done].
  report_in H. destruct H as [Hterm _]. split; [eauto|done].
Qed.

Lemma quiet_repeat id s policy :
  states_indexed d → def_state d id = Some s → state_repeat s = Some policy →
  ∃ step, def_step d (strp_step_id policy) = Some step ∧ step_state_id step = id.
Proof using Hquiet.
  intros Hidx Hs Hp. destruct quiet_checks as (_ & _ & _ & _ & H & _).
  apply (blocked_flat_map _ _ s) in H; [|apply elem_of_btree_values; eauto].
  unfold state_repeat_findings in H. rewrite Hp in H. simpl in H. unfold def_step.
  destruct (def_steps d !! strp_step_id policy) as [step|] eqn:Hstep; [|done].
  report_in H. apply eqb_true_1 in H. exists step. split; [done|]. by rewrite H, (Hidx _ _ Hs).
Qed.

Lemma quiet_role id r action :
  def_role d id = Some r → action ∈ role_allowed_actions r →
  match action with
  | ActStep step => is_Some (def_step d step)
  | ActTransition trigger => ∃ t, t ∈ def_transitions d ∧ tr_trigger t = trigger
  | _ => True
  end.
Proof using Hquiet.
  intros Hr Ha. destruct quiet_checks as (_ & _ & _ & _ & _ & _ & _ & H & _).
  apply (blocked_flat_map _ _ (id, r)) in H; [|by apply elem_of_btree_entries].
  apply (blocked_flat_map _ _ action) in H.
  2:{ unfold actions_in_order. rewrite merge_sort_Permutation. by apply elem_of_elements. }
  destruct action; simpl in H; report_in H; [by apply is_some_true| |done..].
  apply any_true in H as (t & Ht & He%eqb_true_1). eauto.
Qed.

Lemma quiet_join id s :
  states_indexed d → def_state d id = Some s → state_execution s = Concurrent →
  ∃ t, t ∈ def_transitions d ∧ tr_from t = id ∧
    transition_has_join (parts d) t (steps_of_state (parts d) id) = true.
Proof using Hquiet.
  intros Hidx Hs He. destruct quiet_checks as (_ & _ & _ & _ & _ & _ & _ & _ & H).
  apply (blocked_flat_map _ _ s) in H.
  2:{ apply list_elem_of_In, filter_In. split; [|by apply eqb_true].
      apply list_elem_of_In, elem_of_btree_values. eauto. }
  unfold concurrent_state_findings in H. rewrite (Hidx _ _ Hs) in H. report_in H.
  destruct H as (_ & _ & (t & Ht & Hj)%any_true & _).
  apply list_elem_of_In, filter_In in Ht as [Ht%list_elem_of_In Hf%eqb_true_1]. eauto.
Qed.

Lemma quiet_guard name g id :
  def_guards d !! name = Some g → referenced_step_id (guard_condition g) = Some id →
  ∃ s, def_step d id = Some s ∧
    match guard_condition g with
    | StepRepeatExhausted _ => is_Some (step_repeat_policy s)
    | ChildrenCompleted _ join => ∃ spawn, step_spawn s = Some spawn ∧
        match join with
        | JoinQuorum n => n ≤ Z.of_nat (length (spawn_children spawn))
        | _ => True
        end
    | _ => True
    end.
Proof using Hquiet.
  intros Hg Hid. destruct quiet_checks as (_ & _ & _ & _ & _ & H & _).
  apply (blocked_flat_map _ _ (name, g)) in H; [|by apply elem_of_btree_entries].
  unfold guard_findings in H. cbn [fst snd] in H. rewrite Hid in H. cbn in H. unfold def_step.
  destruct (def_steps d !! id) as [s|]; [|done]. exists s. split; [done|].
  destruct (guard_condition g); try done.
  - report_in H. by apply is_some_true.
  - unfold children_guard_findings in H. destruct (step_spawn s) as [spawn|]; [|done].
    exists spawn. split; [done|]. destruct join; try done. report_in H. by apply Z.ltb_ge in H.
Qed.

Lemma quiet_exhaustion t name g id :
  t ∈ def_transitions d → name ∈ tr_required_guards t → def_guards d !! name = Some g →
  guard_condition g = StateRepeatExhausted id →
  id = tr_from t ∧ ∃ s, def_state d id = Some s ∧ is_Some (state_repeat s).
Proof using Hquiet.
  intros Ht Hname Hg Hc. destruct quiet_checks as (_ & _ & _ & _ & _ & _ & H & _).
  unfold collect_exhaustion_findings in H. rewrite !any_app, !orb_false_iff in H.
  destruct H as (Hguard & _ & Hsource). split.
  - apply (blocked_flat_map _ _ t) in Hsource; [|done]. unfold exhaustion_source_findings in Hsource.
    report_in Hsource. unfold requires_guard_such_that in Hsource.
    rewrite any_false in Hsource.
    assert (Hn : name ∈ guards_of t) by (by apply elem_of_btree_elements).
    specialize (Hsource name Hn). cbn in Hsource. rewrite Hg in Hsource. cbn in Hsource.
    rewrite Hc in Hsource. cbn in Hsource.
    by apply negb_false_iff, eqb_true_1 in Hsource.
  - apply (blocked_flat_map _ _ (name, g)) in Hguard; [|by apply elem_of_btree_entries].
    unfold exhaustion_guard_findings in Hguard. simpl in Hguard. rewrite Hc in Hguard. unfold def_state.
    destruct (def_states d !! id) as [s|]; [|done]. report_in Hguard.
    exists s. split; [done|]. by apply is_some_true.
Qed.

Lemma quiet_required_guard t name :
  t ∈ def_transitions d → name ∈ tr_required_guards t →
  ∃ g, def_guards d !! name = Some g ∧
    ∀ id s, guard_condition g = StepRepeatExhausted id → def_step d id = Some s →
      step_state_id s = tr_from t.
Proof using Hquiet.
  intros Ht Hname. destruct quiet_edges as [Hall _]. rewrite Forall_forall in Hall.
  destruct (Hall t Ht) as (_ & _ & _ & H). specialize (H name Hname).
  unfold transition_guard_findings in H. simpl in H.
  destruct (def_guards d !! name) as [g|]; [|done]. exists g. split; [done|].
  unfold def_step. intros id s Hc Hs. rewrite Hc, Hs in H. report_in H. by apply eqb_true_1 in H.
Qed.

Lemma validated_sound : steps_indexed d → states_indexed d → sound_definition.
Proof using Hquiet.
  intros Hsteps Hstates. constructor; [done|done| | | | | | |].
  - destruct quiet_initial as (id & s & Hs & Hf & Hi & Hsole). exists id, s.
    split_and!; [|done..]. unfold initial_state_id. rewrite Hf. simpl. by rewrite (Hstates _ _ Hs).
  - apply sound_edges_of.
  - intros t name Ht Hname. destruct (quiet_required_guard t name Ht Hname) as (g & Hg & Hsrc).
    exists g. split; [done|]. pose proof (quiet_guard name g) as Href.
    destruct (guard_condition g) eqn:Hc; try done;
      try (destruct (Href _ Hg eq_refl) as (s & Hs & Hw)).
    + by exists s.
    + by exists s.
    + exists s. split_and!; [done| |done]. by eapply Hsrc.
    + destruct Hw as (spawn & ? & ?). eauto 10.
    + by eapply quiet_exhaustion.
  - apply quiet_step.
  - intros. by eapply quiet_repeat.
  - apply quiet_role.
  - intros. by eapply quiet_join.
Qed.
End sound.

Definition indexed (d : CeremonyDefinition) : Prop := steps_indexed d ∧ states_indexed d.

Lemma new_validated name version description inputs outputs states ts steps guards roles mt mb d :
  CeremonyDefinition_new_with_transition_budgets name version description inputs outputs states
    ts steps guards roles mt mb = Ok d →
  validate d = Ok tt ∧ indexed d.
Proof.
  unfold CeremonyDefinition_new_with_transition_budgets. intros H.
  repeat (apply bind_Ok in H as (? & ? & H)). destruct x5. simplify_eq. split; [done|].
  match goal with H : collect_states _ = Ok _ |- _ => apply collect_by_keyed in H as (Hst & _) end.
  match goal with H : collect_steps _ = Ok _ |- _ => unfold collect_steps in H; invert_ok H end.
  match goal with H : collect_by step_id _ _ = Ok _ |- _ =>
    apply collect_by_keyed in H as (Hk & Hfound & Hnd) end.
  split; [split_and!|]; simpl.
  - intros id s Hs. by destruct (Hk _ _ Hs).
  - intros id. rewrite list_elem_of_fmap. split.
    + intros (s & -> & Hs). eexists. by apply Hfound.
    + intros [s Hs]. destruct (Hk _ _ Hs). eauto.
  - done.
  - intros id s Hs. by destruct (Hst _ _ Hs).
Qed.

Lemma same_parts_validated d d' :
  parts d' = parts d → validate d = Ok tt ∧ indexed d → validate d' = Ok tt ∧ indexed d'.
Proof.
  unfold validate, analyze, indexed, steps_indexed, states_indexed. intros Hp.
  pose proof Hp as [= -> _ -> -> _ _ _ _]. by rewrite Hp.
Qed.

Lemma published_validated draft d : publish draft = Ok d → validate d = Ok tt ∧ indexed d.
Proof.
  unfold publish. intros (d' & Hn%new_validated & H)%bind_Ok.
  apply (same_parts_validated d'); [|done]. injection H as <-.
  by destruct (draft_ceremony_timeout draft), (draft_state_timeout draft).
Qed.

(** C36: a definition that publishes is sound: its indexes agree with what they
    index, it has exactly one initial state, every transition joins declared
    states and is the only one of its state and trigger, terminal states have
    neither transitions nor steps, every guard a transition requires is
    declared and names things that exist and can satisfy it there, repeats and
    roles refer to what is declared, and every concurrent state has a join. *)
Theorem published_definition_is_sound draft d : publish draft = Ok d → sound_definition d.
Proof. intros (Hv & Hsteps & Hstates)%published_validated. by apply validated_sound. Qed.

(** ** The demonstration ceremony, from its draft *)

Definition demo_draft : CeremonyDefinitionDraft := {|
  draft_name := "planning"; draft_version := "1.0"; draft_description := None;
  draft_inputs := []; draft_outputs := [];
  draft_states := [demo_state "drafting" Initial Sequential;
                   demo_state "review" Intermediate Concurrent;
                   demo_state "done" Terminal Sequential];
  draft_transitions := def_transitions demo;
  draft_steps := [demo_plan; demo_check; demo_left; demo_right; demo_third];
  draft_guards := btree_values (def_guards demo);
  draft_roles := btree_values (def_roles demo);
  draft_max_parallel := 2; draft_max_transitions := Some 4; draft_max_bounces := Some 2;
  draft_ceremony_timeout := None; draft_state_timeout := None;
|}.

Lemma published_definition_is_sound_witness :
  publish demo_draft = Ok demo ∧ sound_definition demo.
Proof.
  split; [vm_compute; reflexivity|].
  refine (published_definition_is_sound demo_draft demo _). vm_compute; reflexivity.
Defined.

(** A draft that sends the review to a state it does not declare. *)
Example broken_draft_refused :
  publish (MkDraft "planning" "1.0" None [] [] (draft_states demo_draft)
    [MkCeremonyTransition "drafting" "nowhere" "submit" ∅] [] [] [] 2 None None None None)
  = Err (NotFound "ceremony_transition.to_state").
Proof. vm_compute. reflexivity. Qed.
