(* ===== verification/Adoption.v ===== *)
(** * Adopting another version of a definition

    What the differences of two published definitions say: they are empty
    exactly for definitions that agree on everything the comparison looks at,
    and where none strands a running session, the session keeps its moves and
    its roles, as long as no guard and no repetition it relies on is taken away
    (AdoptionDefects shows by runs that these conditions are needed). *)

From S2P Require Import Prelude Errors Text Values Steps Definitions Graph Analysis Interventions Instance.
From S2P Require Import Fold Rules Decide DecideTable DecideLineage Engine Scenario Publication Differences.

(** ** Lists of changes *)


Lemma strands_Forall diff :
  strands_running_sessions diff = false ↔ Forall (λ c, chg_impact c = Carries) diff.
Proof.
  unfold strands_running_sessions. rewrite any_false, Forall_forall.
  split; intros H c Hc; specialize (H c Hc); by destruct (chg_impact c).
Qed.

Lemma neqb_true {A} `{EqDecision A} (x y : A) : (x != y) = true ↔ x ≠ y.
Proof. rewrite negb_true_iff. apply eqb_false. Qed.

Lemma eq_by_contradiction {A} `{EqDecision A} (x y : A) : (x ≠ y → False) ↔ x = y.
Proof. split; [|naive_solver]. intros H. by destruct (base.decide (x = y)). Qed.

Section every_change.
Context (P : CeremonyDefinitionChange → Prop).

Lemma Forall_flat_map {A} (f : A → CeremonyDefinitionDiff) l :
  Forall P (flat_map f l) ↔ ∀ x, x ∈ l → Forall P (f x).
Proof using.
  induction l as [|x l IH]; cbn; [by split; [intros _ ? ?%elem_of_nil|]|].
  rewrite Forall_app, IH. setoid_rewrite elem_of_cons. naive_solver.
Qed.

Lemma Forall_record kind locus impact detail :
  Forall P (record_change kind locus impact detail) ↔
  P (MkCeremonyDefinitionChange kind locus impact detail).
Proof using. unfold record_change. rewrite Forall_singleton. done. Qed.

Lemma Forall_record_if changed kind locus impact detail :
  Forall P (record_if changed kind locus impact detail) ↔
  (changed = true → P (MkCeremonyDefinitionChange kind locus impact detail)).
Proof using.
  destruct changed; cbn; [rewrite Forall_record|rewrite Forall_nil]; split; auto; done.
Qed.

Lemma Forall_entries {V} (m : gmap string V) (f : string → V → CeremonyDefinitionDiff) :
  Forall P (flat_map (λ '(k, v), f k v) (btree_entries m)) ↔
  ∀ k v, m !! k = Some v → Forall P (f k v).
Proof using.
  rewrite Forall_flat_map. split.
  - intros H k v Hk. by apply (H (k, v)), elem_of_btree_entries.
  - intros H [k v] Hk%elem_of_btree_entries. by apply H.
Qed.

Lemma Forall_added {V W} (old : gmap string V) (new : gmap string W) locus impact detail :
  Forall P (added_keys old new locus impact detail) ↔
  ∀ k w, new !! k = Some w → old !! k = None →
    P (MkCeremonyDefinitionChange ChangeAdded (locus k) impact detail).
Proof using.
  unfold added_keys. rewrite Forall_flat_map. setoid_rewrite elem_of_btree_keys.
  setoid_rewrite Forall_record_if. setoid_rewrite negb_true_iff. setoid_rewrite is_some_false.
  unfold is_Some. naive_solver.
Qed.

End every_change.

(** ** Definitions the comparison cannot tell apart *)

Definition state_face (s : CeremonyState) := (state_kind s, state_execution s, state_repeat s).
Definition transition_face (t : CeremonyTransition) := (tr_to t, tr_required_guards t).
Definition step_face (s : CeremonyStep) :=
  (step_state_id s, step_handler_kind s, step_handler_config s, step_dynamic_role_binding s,
   step_context_writes s, step_aggregation s,
   (step_retry_policy s, step_timeout s, step_repeat_policy s)).

Record alike (before after : CeremonyDefinition) : Prop := {
  alike_states : ∀ id, state_face <$> def_states before !! id = state_face <$> def_states after !! id;
  alike_transitions : ∀ from trigger,
    transition_face <$> transition_for_trigger before from trigger =
    transition_face <$> transition_for_trigger after from trigger;
  alike_steps : ∀ id, step_face <$> def_steps before !! id = step_face <$> def_steps after !! id;
  alike_guards : ∀ name,
    guard_condition <$> def_guards before !! name = guard_condition <$> def_guards after !! name;
  alike_roles : ∀ id,
    role_allowed_actions <$> def_roles before !! id = role_allowed_actions <$> def_roles after !! id;
  alike_capacity : def_max_parallel before = def_max_parallel after;
  alike_budgets : def_max_transitions before = def_max_transitions after ∧
    def_max_bounces before = def_max_bounces after;
  alike_inputs : ∀ name,
    is_required <$> def_inputs before !! name = is_required <$> def_inputs after !! name;
  alike_outputs : ∀ name, is_Some (def_outputs before !! name) ↔ is_Some (def_outputs after !! name);
  alike_description : def_description before = def_description after;
}.

#[export] Instance alike_equivalence : Equivalence alike.
Proof.
  split.
  - intros d. by split.
  - intros d1 d2 []. split; naive_solver.
  - intros d1 d2 d3 [] []. split; intros; try congruence; [|naive_solver].
    naive_solver congruence.
Qed.


Lemma find_transition_key d t :
  List.find (λ x, transition_key x == transition_key t) (def_transitions d) =
  transition_for_trigger d (tr_from t) (tr_trigger t).
Proof.
  unfold transition_for_trigger. induction (def_transitions d) as [|x l IH]; cbn; [done|]. rewrite IH.
  assert ((transition_key x == transition_key t) =
          (tr_from x == tr_from t) && (tr_trigger x == tr_trigger t)) as ->; [|done].
  apply eq_true_iff_eq. rewrite andb_true_iff, !eqb_true. unfold transition_key.
  split; [by intros [= -> ->]|by intros [-> ->]].
Qed.

Lemma transition_for_trigger_Some d from trigger t :
  transition_for_trigger d from trigger = Some t →
  t ∈ def_transitions d ∧ tr_from t = from ∧ tr_trigger t = trigger.
Proof.
  unfold transition_for_trigger. intros [Hin H]%find_some.
  rewrite andb_true_iff, !eqb_true in H. split; [by apply list_elem_of_In|done].
Qed.


(** Agreement on the image of every key, from one side and from the other. *)
Lemma faces_agree {V W} (face : V → W) (m1 m2 : gmap string V) :
  (∀ k, face <$> m1 !! k = face <$> m2 !! k) ↔
  (∀ k v, m1 !! k = Some v → ∃ w, m2 !! k = Some w ∧ face w = face v) ∧
  (∀ k w, m2 !! k = Some w → m1 !! k = None → False).
Proof.
  split.
  - intros H. split.
    + intros k v Hk. specialize (H k). rewrite Hk in H. destruct (m2 !! k) as [w|]; [|done].
      injection H as H. by exists w.
    + intros k w Hk Hn. specialize (H k). rewrite Hk, Hn in H. done.
  - intros [H1 H2] k. destruct (m1 !! k) as [v|] eqn:Hk.
    + destruct (H1 _ _ Hk) as (w & -> & Hf). cbn. by rewrite Hf.
    + destruct (m2 !! k) as [w|] eqn:Hw; [|done]. by destruct (H2 _ _ Hw Hk).
Qed.

Section compared.
Context (P : CeremonyDefinitionChange → Prop) (before after : CeremonyDefinition).

Definition every_difference : Prop := Forall P (between before after).

(** The differences part by part. *)
Lemma Forall_between :
  every_difference ↔
  ((∀ id s, def_states before !! id = Some s → Forall P (diff_state after id s)) ∧
   Forall P (added_keys (def_states before) (def_states after) LocusState Carries
               "a state no running session is in yet")) ∧
  Forall P (diff_transitions before after) ∧
  ((∀ id s, def_steps before !! id = Some s → Forall P (diff_step after id s)) ∧
   Forall P (added_keys (def_steps before) (def_steps after) LocusStep Strands
               "work a session may already have moved past")) ∧
  ((∀ name g, def_guards before !! name = Some g → Forall P (diff_guard after name g)) ∧
   Forall P (added_keys (def_guards before) (def_guards after) LocusGuard Carries
               "a condition that only matters where a transition asks for it")) ∧
  ((∀ id r, def_roles before !! id = Some r → Forall P (diff_role after id r)) ∧
   Forall P (added_keys (def_roles before) (def_roles after) LocusRole Carries
               "another role at the table")) ∧
  Forall P (diff_max_parallel before after) ∧ Forall P (diff_transition_budgets before after) ∧
  Forall P (diff_shape before after).
Proof using.
  unfold every_difference, between, diff_states, diff_steps, diff_guards, diff_roles.
  by rewrite !Forall_app, !Forall_entries.
Qed.
End compared.

(** The two readings of a list of changes, on the records of the comparison. *)
Ltac changes :=
  rewrite ?Forall_app, ?Forall_record_if, ?Forall_record, ?neqb_true, ?eq_by_contradiction; cbn [chg_impact].

Section identical.
Context (before after : CeremonyDefinition).
Local Notation none := (λ _ : CeremonyDefinitionChange, False).








End identical.


(** ** Definitions a running session survives *)

(** A limit that is kept, raised or lifted. *)
Definition limit_kept (old new : option Z) : Prop :=
  ∀ n, new = Some n → ∃ o, old = Some o ∧ o ≤ n.

(** What two definitions have in common when nothing strands. *)
Record carried_over (before after : CeremonyDefinition) : Prop := {
  over_states : ∀ id s, def_states before !! id = Some s →
    ∃ s', def_states after !! id = Some s' ∧ state_face s' = state_face s;
  over_transitions : ∀ t, t ∈ def_transitions before →
    ∃ t', transition_for_trigger after (tr_from t) (tr_trigger t) = Some t' ∧ tr_to t' = tr_to t;
  over_steps : ∀ id, step_state_id <$> def_steps before !! id = step_state_id <$> def_steps after !! id;
  over_writes : ∀ id,
    step_context_writes <$> def_steps before !! id = step_context_writes <$> def_steps after !! id;
  over_guards : ∀ name g g', def_guards before !! name = Some g → def_guards after !! name = Some g' →
    guard_condition g' = guard_condition g;
  over_roles : ∀ id r, def_roles before !! id = Some r →
    ∃ r', def_roles after !! id = Some r' ∧ role_allowed_actions r ⊆ role_allowed_actions r';
  over_budgets : limit_kept (def_max_transitions before) (def_max_transitions after) ∧
    limit_kept (def_max_bounces before) (def_max_bounces after);
}.

Lemma strand_free {A} `{EqDecision A} (x y : A) : (x ≠ y → Strands = Carries) → x = y.
Proof. intros H. apply eq_by_contradiction. intros Hne. by specialize (H Hne). Qed.

Section carries.
Context (before after : CeremonyDefinition).
Local Notation carries := (λ c, chg_impact c = Carries).

Lemma carried_step id s : Forall carries (diff_step after id s) →
  ∃ s', def_steps after !! id = Some s' ∧ step_state_id s' = step_state_id s ∧
    step_context_writes s' = step_context_writes s.
Proof using.
  unfold diff_step. destruct (def_steps after !! id) as [s'|]; changes; [|done].
  intros (H1%strand_free & _ & _ & _ & H2%strand_free & _). by exists s'.
Qed.

Lemma carried_state id s : Forall carries (diff_state after id s) →
  ∃ s', def_states after !! id = Some s' ∧ state_face s' = state_face s.
Proof using.
  unfold diff_state, state_face. destruct (def_states after !! id) as [s'|]; changes; [|done].
  intros (H1%strand_free & H2%strand_free & H3%strand_free). exists s'. split; [done|congruence].
Qed.

Lemma carried_transition t : Forall carries (diff_transition after t) →
  ∃ t', transition_for_trigger after (tr_from t) (tr_trigger t) = Some t' ∧ tr_to t' = tr_to t.
Proof using.
  unfold diff_transition. rewrite find_transition_key.
  destruct (transition_for_trigger after _ _) as [t'|]; changes; [|done]. intros H. exists t'. split; [done|].
  destruct (tr_to t' != tr_to t) eqn:Hto; [by apply Forall_record in H|].
  by rewrite negb_false_iff, eqb_true in Hto.
Qed.

Lemma carried_role id r : Forall carries (diff_role after id r) →
  ∃ r', def_roles after !! id = Some r' ∧ role_allowed_actions r ⊆ role_allowed_actions r'.
Proof using.
  unfold diff_role. destruct (def_roles after !! id) as [r'|]; changes; [|done]. intros H. exists r'.
  split; [done|]. destruct (base.decide (role_allowed_actions r' = role_allowed_actions r)) as [->|Hne]; [done|].
  specialize (H Hne). by case_bool_decide.
Qed.

Lemma carried_budget old new detail :
  Forall carries (diff_transition_budget old new detail) → limit_kept old new.
Proof using.
  unfold diff_transition_budget, limit_kept. changes. intros H n ->.
  destruct (base.decide (old = Some n)) as [->|Hne]; [by exists n|]. specialize (H Hne).
  destruct old as [o|]; [|done]. exists o. destruct (Z.ltb_spec n o); [done|]. split; [done|lia].
Qed.

Lemma carried_over_intro :
  strands_running_sessions (between before after) = false → carried_over before after.
Proof using.
  rewrite strands_Forall. fold (every_difference carries before after).
  rewrite Forall_between. intros ((Hst & _) & Htr & (Hsp & Hnew) & (Hg & _) & (Hr & _) & _ & Hb & _).
  rewrite Forall_added in Hnew. split.
  - intros id s Hs. by apply carried_state, Hst.
  - intros t Ht. unfold diff_transitions in Htr. apply Forall_app in Htr as [Htr _].
    rewrite Forall_flat_map in Htr. by apply carried_transition, Htr.
  - apply faces_agree. split; [|by intros k w Hk Hn; specialize (Hnew k w Hk Hn)].
    intros id s Hs. destruct (carried_step id s) as (s' & ? & ? & ?); eauto.
  - apply faces_agree. split; [|by intros k w Hk Hn; specialize (Hnew k w Hk Hn)].
    intros id s Hs. destruct (carried_step id s) as (s' & ? & ? & ?); eauto.
  - intros name g g' Hk Hk'. specialize (Hg _ _ Hk). unfold diff_guard in Hg. rewrite Hk' in Hg. revert Hg.
    changes. apply strand_free.
  - intros id r Hid. by apply carried_role, Hr.
  - unfold diff_transition_budgets in Hb. apply Forall_app in Hb as [H1 H2].
    split; by eapply carried_budget.
Qed.
End carries.

(** ** The moves of a session under the other definition *)

Definition is_exhaustion (c : GuardCondition) : bool :=
  match c with StepRepeatExhausted _ | StateRepeatExhausted _ => true | _ => false end.

(** The steps repeat as they did. *)
Definition same_repetitions (before after : CeremonyDefinition) : Prop :=
  ∀ id s s', def_steps before !! id = Some s → def_steps after !! id = Some s' →
    step_repeat_policy s' = step_repeat_policy s.

(** No transition gains a guard, and none loses one that lets it leave an
    exhausted repetition. *)
Definition guards_only_dropped (before after : CeremonyDefinition) : Prop :=
  ∀ t t', t ∈ def_transitions before →
    transition_for_trigger after (tr_from t) (tr_trigger t) = Some t' →
    tr_required_guards t' ⊆ tr_required_guards t ∧
    ∀ name g, name ∈ tr_required_guards t → def_guards before !! name = Some g →
      is_exhaustion (guard_condition g) = true → name ∈ tr_required_guards t'.

Definition guards_indexed (d : CeremonyDefinition) : Prop :=
  ∀ name g, def_guards d !! name = Some g → guard_name g = name.

Lemma published_guards_indexed draft d : publish draft = Ok d → guards_indexed d.
Proof.
  unfold publish, CeremonyDefinition_new_with_transition_budgets. intros H. invert_ok H.
  match goal with H : collect_guards _ = Ok _ |- _ => apply collect_by_keyed in H as (Hg & _) end.
  intros name g Hn. destruct (Hg name g) as [? _]; [|done].
  by destruct (draft_ceremony_timeout draft), (draft_state_timeout draft).
Qed.

Lemma all_ext {A} (p q : A → bool) l : (∀ x, x ∈ l → p x = q x) → all p l = all q l.
Proof.
  intros H. apply eq_true_iff_eq. rewrite !all_true.
  split; intros Hp x Hx; [rewrite <-H by done|rewrite H by done]; by apply Hp.
Qed.

Lemma all_fmap {A B} (f : A → B) (p : B → bool) l : all (λ x, p (f x)) l = all p (f <$> l).
Proof. unfold all. induction l as [|x l IH]; cbn; [done|]. by rewrite IH. Qed.

Lemma all_perm {A} (p : A → bool) l1 l2 : l1 ≡ₚ l2 → all p l1 = all p l2.
Proof.
  intros H. apply eq_true_iff_eq. rewrite !all_true. by setoid_rewrite H.
Qed.

Lemma count_fmap {A B} (f : A → B) (p : B → bool) l : count (λ x, p (f x)) l = count p (f <$> l).
Proof. unfold count. induction l as [|x l IH]; cbn; [done|]. destruct (p (f x)); cbn; by rewrite IH. Qed.

Lemma count_perm {A} (p : A → bool) l1 l2 : l1 ≡ₚ l2 → count p l1 = count p l2.
Proof.
  unfold count. induction 1; cbn; try done; repeat (destruct (p _); cbn); try congruence.
Qed.

Section moves.
Context {Hsha : Sha256}.
Context (before after : CeremonyDefinition) (i : CeremonyInstance).
Context (Hover : carried_over before after) (Hrep : same_repetitions before after).
Context (Hib : steps_indexed before) (Hia : steps_indexed after).

Lemma step_fields_same id s : def_steps before !! id = Some s →
  ∃ s', def_steps after !! id = Some s' ∧ step_state_id s' = step_state_id s ∧
    step_repeat_policy s' = step_repeat_policy s.
Proof using Hover Hrep.
  intros Hs. pose proof (over_steps _ _ Hover id) as H. rewrite Hs in H.
  destruct (def_steps after !! id) as [s'|] eqn:Hs'; [|done]. injection H as H.
  exists s'. split_and!; [done|done|by eapply Hrep].
Qed.

Lemma step_missing_same id : def_steps before !! id = None → def_steps after !! id = None.
Proof using Hover.
  intros Hs. pose proof (over_steps _ _ Hover id) as H. rewrite Hs in H.
  by destruct (def_steps after !! id).
Qed.

Lemma repeat_requirement_same id records :
  repeat_requirement_is_satisfied before id records = repeat_requirement_is_satisfied after id records.
Proof using Hover Hrep.
  unfold repeat_requirement_is_satisfied, def_step. destruct (def_steps before !! id) as [s|] eqn:Hs.
  - destruct (step_fields_same id s Hs) as (s' & -> & _ & He). cbn. by rewrite He.
  - by rewrite (step_missing_same id Hs).
Qed.

Lemma step_ids_same id : step_id <$> steps_for_state before id ≡ₚ step_id <$> steps_for_state after id.
Proof using Hover Hrep Hib Hia.
  apply NoDup_Permutation; [by apply steps_for_state_NoDup..|]. intros sid.
  rewrite !list_elem_of_fmap. split; intros (s & -> & Hs).
  - apply steps_for_state_lookup in Hs as [Hs <-]; [|done].
    destruct (step_fields_same _ _ Hs) as (s' & Hs' & <- & _). pose proof Hia as (Hid & _).
    rewrite <-(Hid _ _ Hs'). exists s'. split; [done|]. apply steps_for_state_step; [done|].
    unfold def_step. by rewrite (Hid _ _ Hs').
  - apply steps_for_state_lookup in Hs as [Hs <-]; [|done]. unfold def_step in Hs.
    destruct (def_steps before !! step_id s) as [s0|] eqn:Hs0; [|by rewrite (step_missing_same _ Hs0) in Hs].
    destruct (step_fields_same _ _ Hs0) as (s' & Hs' & He & _). simplify_eq. rewrite He. pose proof Hib as (Hid & _).
    rewrite <-(Hid _ _ Hs0). exists s0. split; [done|]. apply steps_for_state_step; [done|].
    unfold def_step. by rewrite (Hid _ _ Hs0).
Qed.

Lemma steps_all_same (p : StepId → bool) id :
  all (λ s, p (step_id s)) (steps_for_state before id) = all (λ s, p (step_id s)) (steps_for_state after id).
Proof using Hover Hrep Hib Hia. rewrite !(all_fmap step_id p). apply all_perm, step_ids_same. Qed.

Lemma steps_count_same (p : StepId → bool) id :
  count (λ s, p (step_id s)) (steps_for_state before id) =
  count (λ s, p (step_id s)) (steps_for_state after id).
Proof using Hover Hrep Hib Hia. rewrite !(count_fmap step_id p). apply count_perm, step_ids_same. Qed.

Lemma repeat_policy_same : is_Some (def_states before !! current_state i) →
  state_repeat_policy i before = state_repeat_policy i after.
Proof using Hover.
  unfold state_repeat_policy, def_state. intros [s Hs].
  destruct (over_states _ _ Hover _ _ Hs) as (s' & Hs' & [= _ _ He]).
  rewrite Hs, Hs'. cbn. by rewrite He.
Qed.

Lemma work_complete_same : state_work_is_complete i before = state_work_is_complete i after.
Proof using Hover Hrep Hib Hia.
  unfold state_work_is_complete, repeat_requirements_are_satisfied, source_step_completed. f_equal.
  - apply (steps_all_same (λ id, is_some_and (step_records i !! id) (λ r, status_is_success (rec_status r)))).
  - rewrite (steps_all_same (λ id, repeat_requirement_is_satisfied before id (step_records i))).
    apply all_ext. intros s _. apply repeat_requirement_same.
Qed.

Lemma limit_reached_same : is_Some (def_states before !! current_state i) →
  state_repeat_limit_reached i before = state_repeat_limit_reached i after.
Proof using Hover Hrep Hib Hia.
  intros Hs. unfold state_repeat_limit_reached, state_repeat_condition_is_satisfied.
  by rewrite (repeat_policy_same Hs), work_complete_same.
Qed.

Lemma repeat_permits_same : is_Some (def_states before !! current_state i) →
  state_repeat_permits_transition i before = state_repeat_permits_transition i after.
Proof using Hover Hrep Hib Hia.
  intros Hs. unfold state_repeat_permits_transition, state_repeat_condition_is_satisfied.
  by rewrite (repeat_policy_same Hs), work_complete_same.
Qed.

(** A transition and what became of it. *)
Context (Hgb : guards_indexed before) (Hga : guards_indexed after).
Context (t t' : CeremonyTransition).
Context (Hfrom : tr_from t' = tr_from t) (Hto : tr_to t' = tr_to t).
Context (Htrigger : tr_trigger t' = tr_trigger t).
Context (Hless : tr_required_guards t' ⊆ tr_required_guards t).
Context (Hkept : ∀ name g, name ∈ tr_required_guards t → def_guards before !! name = Some g →
  is_exhaustion (guard_condition g) = true → name ∈ tr_required_guards t').
Context (Hdeclared : ∀ name, name ∈ tr_required_guards t → is_Some (def_guards before !! name)).
Context (Hdeclared' : ∀ name, name ∈ tr_required_guards t' → is_Some (def_guards after !! name)).

Lemma exhausted_same id records :
  step_repeat_is_exhausted_on_transition before t id records =
  step_repeat_is_exhausted_on_transition after t' id records.
Proof using Hover Hrep Hfrom.
  unfold step_repeat_is_exhausted_on_transition, def_step. destruct (def_steps before !! id) as [s|] eqn:Hs.
  - destruct (step_fields_same id s Hs) as (s' & -> & -> & ->). by rewrite Hfrom.
  - by rewrite (step_missing_same id Hs).
Qed.

(** A search of the required guards for one that says an exhaustion. *)
Lemma exhaustion_search_same (p p' : GuardCondition → bool) :
  (∀ c, p c = true → is_exhaustion c = true) → (∀ c, p c = p' c) →
  any (λ name, is_some_and (def_guards before !! name) (λ g, p (guard_condition g)))
    (btree_elements (tr_required_guards t)) =
  any (λ name, is_some_and (def_guards after !! name) (λ g, p' (guard_condition g)))
    (btree_elements (tr_required_guards t')).
Proof using Hover Hless Hkept Hdeclared Hdeclared'.
  intros Hp Hpp. apply eq_true_iff_eq. rewrite !any_true. setoid_rewrite elem_of_btree_elements.
  setoid_rewrite is_some_and_true. split.
  - intros (name & Hin & g & Hg & Hc). assert (name ∈ tr_required_guards t') as Hin' by eauto.
    destruct (Hdeclared' _ Hin') as [g' Hg']. exists name. split; [done|]. exists g'. split; [done|].
    by rewrite (over_guards _ _ Hover _ _ _ Hg Hg'), <-Hpp.
  - intros (name & Hin & g' & Hg' & Hc). apply Hless in Hin. destruct (Hdeclared _ Hin) as [g Hg].
    exists name. split; [done|]. exists g. split; [done|].
    by rewrite Hpp, <-(over_guards _ _ Hover _ _ _ Hg Hg').
Qed.

Lemma waives_same id records :
  transition_waives_exhausted_repeat before t id records =
  transition_waives_exhausted_repeat after t' id records.
Proof using Hover Hrep Hfrom Hless Hkept Hdeclared Hdeclared'.
  unfold transition_waives_exhausted_repeat.
  apply (exhaustion_search_same
    (λ c, match c with
          | StepRepeatExhausted sid => (sid == id) && step_repeat_is_exhausted_on_transition before t id records
          | _ => false end)
    (λ c, match c with
          | StepRepeatExhausted sid => (sid == id) && step_repeat_is_exhausted_on_transition after t' id records
          | _ => false end)); intros []; try done. by rewrite exhausted_same.
Qed.

Lemma routes_same :
  transition_routes_state_repeat_exhaustion before t = transition_routes_state_repeat_exhaustion after t'.
Proof using Hover Hfrom Hless Hkept Hdeclared Hdeclared'.
  unfold transition_routes_state_repeat_exhaustion. rewrite Hfrom.
  apply (exhaustion_search_same
    (λ c, match c with StateRepeatExhausted sid => sid == tr_from t | _ => false end)
    (λ c, match c with StateRepeatExhausted sid => sid == tr_from t | _ => false end)); by intros [].
Qed.

Lemma requirement_same id records :
  repeat_requirement_is_satisfied_or_waived before t id records =
  repeat_requirement_is_satisfied_or_waived after t' id records.
Proof using Hover Hrep Hfrom Hless Hkept Hdeclared Hdeclared'.
  unfold repeat_requirement_is_satisfied_or_waived. by rewrite repeat_requirement_same, waives_same.
Qed.

Lemma keys_all_same (p : StepId → bool) :
  all p (btree_keys (def_steps before)) = all p (btree_keys (def_steps after)).
Proof using Hover.
  apply eq_true_iff_eq. rewrite !all_true. setoid_rewrite elem_of_btree_keys.
  assert (∀ id, is_Some (def_steps before !! id) ↔ is_Some (def_steps after !! id)) as He.
  { intros id. rewrite <-!(fmap_is_Some step_state_id). by rewrite (over_steps _ _ Hover id). }
  by setoid_rewrite He.
Qed.

Lemma guard_same (name : GuardName) g g' :
  def_guards before !! name = Some g → def_guards after !! name = Some g' →
  is_Some (def_states before !! current_state i) →
  guard_is_satisfied_for_transition i before t g = true →
  guard_is_satisfied_for_transition i after t' g' = true.
Proof using Hsha Hover Hrep Hib Hia Hgb Hga Hfrom Hless Hkept Hdeclared Hdeclared'.
  intros Hg Hg' Hs. pose proof (over_guards _ _ Hover _ _ _ Hg Hg') as Hc.
  assert (guard_is_satisfied g' (step_records i) (context i) =
          guard_is_satisfied g (step_records i) (context i)) as He.
  { unfold guard_is_satisfied. by rewrite Hc, (Hgb _ _ Hg), (Hga _ _ Hg'). }
  unfold guard_is_satisfied_for_transition, def_guard_is_satisfied_for_transition. rewrite Hc, He, Hfrom.
  destruct (guard_condition g) as [| | | | | |sid|sid join| |]; try done.
  - rewrite keys_all_same, (all_ext _ (λ id, repeat_requirement_is_satisfied_or_waived after t' id (step_records i)));
      [done|]. intros id _. apply requirement_same.
  - rewrite !any_true. intros (s & Hin & Hd).
    assert (step_id s ∈ step_id <$> steps_for_state after (tr_from t)) as Hin'
      by (rewrite <-step_ids_same; by apply list_elem_of_fmap_2).
    apply list_elem_of_fmap in Hin' as (s' & Hid & Hin'). exists s'. split; [done|].
    unfold source_step_completed in *. by rewrite <-Hid.
  - unfold source_step_completed.
    by rewrite (steps_count_same (λ id, is_some_and (step_records i !! id) (λ r, status_is_success (rec_status r)))).
  - by rewrite requirement_same.
  - by rewrite exhausted_same.
  - unfold def_step. destruct (def_steps before !! sid) as [s|] eqn:Hsid; [|done].
    destruct (step_fields_same sid s Hsid) as (s' & -> & He' & _). cbn [is_some_and]. by rewrite He'.
  - by rewrite limit_reached_same.
Qed.

Lemma guards_satisfied_same :
  is_Some (def_states before !! current_state i) →
  guards_are_satisfied i before t = true → guards_are_satisfied i after t' = true.
Proof using Hsha Hover Hrep Hib Hia Hgb Hga Hfrom Hless Hkept Hdeclared Hdeclared'.
  intros Hs. unfold guards_are_satisfied, repeat_requirements_are_satisfied_for_transition.
  rewrite !andb_true_iff. intros [Hr Hall]. split.
  - rewrite Hfrom, <-(steps_all_same (λ id, repeat_requirement_is_satisfied_or_waived after t' id (step_records i))).
    erewrite all_ext; [exact Hr|]. intros s _. symmetry. apply requirement_same.
  - rewrite all_true in Hall |- *. setoid_rewrite elem_of_btree_elements in Hall.
    intros name Hin%elem_of_btree_elements. destruct (Hdeclared' _ Hin) as [g' Hg'].
    pose proof (Hless _ Hin) as Hin0. destruct (Hdeclared _ Hin0) as [g Hg].
    specialize (Hall _ Hin0). rewrite Hg in Hall. rewrite Hg'. cbn. by eapply guard_same.
Qed.

Lemma budget_same :
  is_ok (require_transition_budget i before t) = true → is_ok (require_transition_budget i after t') = true.
Proof using Hsha Hover Hfrom Hto Htrigger.
  destruct (over_budgets _ _ Hover) as [H1 H2].
  assert (exact_edge_count i t' = exact_edge_count i t) as He.
  { unfold exact_edge_count, is_exact_edge. by rewrite Hfrom, Hto, Htrigger. }
  assert (∀ old new x, limit_kept old new → negb (is_some_and old (λ l, l <=? x)) = true →
    negb (is_some_and new (λ l, l <=? x)) = true) as Hl.
  { intros old [n|] x Hl Hx; [|done]. destruct (Hl n eq_refl) as (o & -> & Ho). cbn in *.
    apply negb_true_iff, Z.leb_gt in Hx. apply negb_true_iff, Z.leb_gt. lia. }
  unfold require_transition_budget. rewrite He. cbn [mbind result_bind].
  destruct (negb (is_some_and (def_max_transitions before) _)) eqn:E1; [|done].
  rewrite (Hl _ _ _ H1 E1). cbn.
  destruct (negb (is_some_and (def_max_bounces before) _)) eqn:E2; [|done].
  by rewrite (Hl _ _ _ H2 E2).
Qed.

Lemma terminal_same id : is_Some (def_states before !! id) →
  is_terminal_state before id = is_terminal_state after id.
Proof using Hsha Hover.
  intros [s Hs]. destruct (over_states _ _ Hover _ _ Hs) as (s' & Hs' & [= He _ _]).
  unfold is_terminal_state, state_is_terminal. rewrite Hs, Hs'. cbn. by rewrite He.
Qed.

Lemma live_leases_same now : has_live_step_leases_at i before now = has_live_step_leases_at i after now.
Proof using Hover Hrep Hib Hia.
  unfold has_live_step_leases_at, step_has_live_lease.
  apply eq_true_iff_eq. rewrite !any_true.
  pose proof (step_ids_same (current_state i)) as Hids. split; intros (s & Hin & Hl).
  all: apply (list_elem_of_fmap_2 step_id) in Hin; first [rewrite Hids in Hin|rewrite <-Hids in Hin];
    apply list_elem_of_fmap in Hin as (s' & Hid & Hin); exists s'; by rewrite <-Hid.
Qed.

Lemma enabled_same now :
  is_Some (def_states before !! current_state i) → is_Some (def_states before !! tr_to t) →
  transition_is_enabled_at i before t now = true → transition_is_enabled_at i after t' now = true.
Proof using Hsha Hover Hrep Hib Hia Hgb Hga Hfrom Hto Htrigger Hless Hkept Hdeclared Hdeclared'.
  intros Hs Hs'. unfold transition_is_enabled_at, transition_is_enabled,
    transition_requirements_are_satisfied, state_repeat_permits, require_interventions_resolved_before_entering.
  rewrite !andb_true_iff. intros (Hlive & Hbud & (Hrp & Hg) & Hiv). split_and!.
  - by rewrite <-live_leases_same.
  - by apply budget_same.
  - by rewrite <-repeat_permits_same, <-limit_reached_same, <-routes_same.
  - by apply guards_satisfied_same.
  - by rewrite Hto, <-terminal_same.
Qed.
End moves.

(** ** Adoption *)

(** C37: where the differences of two published definitions strand nothing, no
    repetition changed and guards were only dropped, but none that leads out of
    an exhausted repetition, every move a session could make under the first
    definition it can make under the second, to the same state, and every role
    keeps its permissions. *)
Theorem carried_session_keeps_its_moves {Hsha : Sha256} draft1 draft2 before after i trigger t now :
  publish draft1 = Ok before → publish draft2 = Ok after →
  strands_running_sessions (between before after) = false →
  same_repetitions before after → guards_only_dropped before after →
  transition_for_trigger before (current_state i) trigger = Some t →
  transition_is_enabled_at i before t now = true →
  (∃ t', transition_for_trigger after (current_state i) trigger = Some t' ∧ tr_to t' = tr_to t ∧
     transition_is_enabled_at i after t' now = true) ∧
  ∀ role action, role_allows before role action = true → role_allows after role action = true.
Proof.
  intros Hb Ha Hover%carried_over_intro Hrep Hdrop Ht Hen.
  pose proof (published_guards_indexed _ _ Hb) as Hgb. pose proof (published_guards_indexed _ _ Ha) as Hga.
  apply published_validated in Hb as (Hvb & Hsb & Hstb), Ha as (Hva & Hsa & Hsta).
  pose proof (validated_sound _ Hvb Hsb Hstb) as Sb. pose proof (validated_sound _ Hva Hsa Hsta) as Sa.
  split.
  - apply transition_for_trigger_Some in Ht as (Hin & Hfrom & <-).
    destruct (over_transitions _ _ Hover _ Hin) as (t' & Ht' & Hto). rewrite <-Hfrom. exists t'.
    split_and!; [done|done|]. destruct (Hdrop _ _ Hin Ht') as [Hless Hkept].
    apply transition_for_trigger_Some in Ht' as (Hin' & Hf' & Htr').
    destruct (sound_edges _ Sb _ Hin) as (Hsf & Hst & _).
    apply (enabled_same before after i Hover Hrep Hsb Hsa Hgb Hga t t'); try done; [| |by rewrite <-Hfrom].
    + intros name Hn. destruct (sound_required_guards _ Sb _ _ Hin Hn) as (g & Hg & _). eauto.
    + intros name Hn. destruct (sound_required_guards _ Sa _ _ Hin' Hn) as (g & Hg & _). eauto.
  - intros role action. unfold role_allows, role_allows_action.
    rewrite !is_some_and_true. intros (r & Hr & Hac).
    destruct (over_roles _ _ Hover _ _ Hr) as (r' & Hr' & Hle). exists r'. split; [done|].
    apply bool_decide_eq_true in Hac. apply bool_decide_eq_true. by apply Hle.
Qed.

(** ** Versions of the demonstration *)

#[export] Instance Draft_eta : Eta CeremonyDefinitionDraft := λ d,
  MkDraft (draft_name d) (draft_version d) (draft_description d) (draft_inputs d) (draft_outputs d)
    (draft_states d) (draft_transitions d) (draft_steps d) (draft_guards d) (draft_roles d)
    (draft_max_parallel d) (draft_max_transitions d) (draft_max_bounces d)
    (draft_ceremony_timeout d) (draft_state_timeout d).

Definition published (draft : CeremonyDefinitionDraft) : CeremonyDefinition :=
  match publish draft with Ok d => d | _ => demo end.

(** A later version without the sign-off, with more moves and a reason. *)
Definition lighter_draft : CeremonyDefinitionDraft :=
  demo_draft <| draft_version := "1.1" |> <| draft_description := Some "without the sign-off" |>
    <| draft_max_transitions := Some 6 |>
    <| draft_transitions :=
         [ MkCeremonyTransition "drafting" "review" "submit" {["checked"]};
           MkCeremonyTransition "review" "drafting" "rework" ∅;
           MkCeremonyTransition "review" "done" "approve" {["reviewed"]} ] |>.

Definition lighter : CeremonyDefinition := published lighter_draft.
Definition submit_edge : CeremonyTransition := MkCeremonyTransition "drafting" "review" "submit" {["checked"]}.

(** The conditions, evaluated. *)
Definition same_repetitionsb (before after : CeremonyDefinition) : bool :=
  all (λ '(id, s), is_none_or (def_steps after !! id) (λ s', step_repeat_policy s' == step_repeat_policy s))
    (btree_entries (def_steps before)).

Lemma same_repetitionsb_spec before after :
  same_repetitionsb before after = true → same_repetitions before after.
Proof.
  unfold same_repetitionsb. rewrite all_true. intros H id s s' Hs Hs'.
  specialize (H (id, s) (proj2 (elem_of_btree_entries _ _ _) Hs)). cbn in H. rewrite Hs' in H.
  by apply eqb_true.
Qed.

Definition guards_only_droppedb (before after : CeremonyDefinition) : bool :=
  all (λ t, is_none_or (transition_for_trigger after (tr_from t) (tr_trigger t)) (λ t',
         bool_decide (tr_required_guards t' ⊆ tr_required_guards t) &&
         all (λ name, is_none_or (def_guards before !! name) (λ g,
                negb (is_exhaustion (guard_condition g)) || bool_decide (name ∈ tr_required_guards t')))
           (btree_elements (tr_required_guards t))))
    (def_transitions before).

Lemma guards_only_droppedb_spec before after :
  guards_only_droppedb before after = true → guards_only_dropped before after.
Proof.
  unfold guards_only_droppedb. rewrite all_true. intros H t t' Ht Ht'. specialize (H t Ht).
  rewrite Ht' in H. cbn in H. rewrite andb_true_iff, bool_decide_eq_true, all_true in H.
  destruct H as [Hless H]. split; [done|]. intros name g Hn Hg He.
  specialize (H name (proj2 (elem_of_btree_elements _ _) Hn)). rewrite Hg in H. cbn in H.
  rewrite He in H. by apply (bool_decide_eq_true_1 _) in H.
Qed.


Lemma carried_session_keeps_its_moves_witness :
  transition_is_enabled_at checked demo submit_edge (2 * minute) = true ∧
  (∃ t', transition_for_trigger lighter (current_state checked) "submit" = Some t' ∧ tr_to t' = "review" ∧
     transition_is_enabled_at checked lighter t' (2 * minute) = true) ∧
  ∀ role action, role_allows demo role action = true → role_allows lighter role action = true.
Proof.
  split; [vm_compute; reflexivity|].
  refine (carried_session_keeps_its_moves demo_draft lighter_draft demo lighter checked "submit"
    submit_edge (2 * minute) _ _ _ _ _ _ _).
  1-3: vm_compute; reflexivity.
  - apply same_repetitionsb_spec. vm_compute. reflexivity.
  - apply guards_only_droppedb_spec. vm_compute. reflexivity.
  - vm_compute; reflexivity.
  - vm_compute; reflexivity.
Defined.
