(* ===== verification/Cycles.v ===== *)
(** * Cycles and the number of moves

    The cyclic components the analysis finds are the cycles of the transition
    graph; a published definition with a cycle declares a budget, so no session
    moves for ever. *)

From S2P Require Import Prelude Errors Text Values Steps Definitions Graph Analysis.
From S2P Require Import Interventions Instance Fold Rules Decide DecideTable DecideLineage Engine.
From S2P Require Import Sessions Machine Invariants Scenario Moves Publication.

(** ** Components *)

Section components.
Context (ts : list CeremonyTransition).

(** One transition leads from [x] to [y]; some number of them does. *)
Definition leads (x y : StateId) : Prop := edge_in (edge_of <$> ts) x y.

Lemma leads_edge x y : leads x y ↔ ∃ t, t ∈ ts ∧ tr_from t = x ∧ tr_to t = y.
Proof.
  unfold leads, edge_in. rewrite list_elem_of_fmap. unfold edge_of. split.
  - intros (t & [= -> ->] & Ht). eauto.
  - intros (t & Ht & <- & <-). eauto.
Qed.

Lemma elem_of_component x y : y ∈ component_of x ts ↔ rtc leads x y ∧ rtc leads y x.
Proof.
  unfold component_of, reachable_from. rewrite elem_of_filter, !elem_of_reachable_nodes. tauto.
Qed.

Lemma component_self x : x ∈ component_of x ts.
Proof. apply elem_of_component. split; constructor. Qed.

(** Components partition the states. *)
Lemma component_shared x y : y ∈ component_of x ts → component_of y ts = component_of x ts.
Proof.
  intros [Hxy Hyx]%elem_of_component. apply set_eq. intros z. rewrite !elem_of_component.
  split; intros [? ?]; split; etrans; eassumption.
Qed.

(** A component is cyclic exactly when its states lie on a cycle. *)
Lemma component_is_cyclic_iff x :
  component_is_cyclic x (component_of x ts) ts = true ↔ tc leads x x.
Proof.
  unfold component_is_cyclic. rewrite orb_true_iff, andb_true_iff, Nat.ltb_lt, Nat.eqb_eq, any_true.
  pose proof (component_self x) as Hself. split.
  - intros [Hsize|[_ (t & Ht & Hloop)]].
    + destruct (size_pos_elem_of (component_of x ts ∖ {[x]})) as (y & [Hy Hne]%elem_of_difference).
      { rewrite size_difference, size_singleton; [lia|set_solver]. }
      apply elem_of_component in Hy as [Hxy Hyx].
      apply rtc_tc in Hxy as [->|Hxy]; [set_solver|]. by eapply tc_rtc_r.
    + apply andb_true_iff in Hloop as [Hf%eqb_true_1 Hto%eqb_true_1].
      apply tc_once, leads_edge. eauto.
  - intros Hcycle.
    assert (∃ y, leads x y ∧ rtc leads y x) as (y & Hxy & Hyx).
    { inversion Hcycle; subst; [eexists; split; [done|constructor]|].
      eexists. split; [done|]. by apply tc_rtc. }
    destruct (base.decide (y = x)) as [->|Hne].
    + destruct (base.decide (1 < size (component_of x ts))%nat); [by left|right]. split.
      * assert (size (component_of x ts) ≠ 0%nat); [|lia]. rewrite size_non_empty_iff. set_solver.
      * apply leads_edge in Hxy as (t & Ht & Hf & Hto). exists t.
        split; [done|]. by rewrite andb_true_iff, !eqb_true.
    + left. assert ({[x; y]} ⊆ component_of x ts) as Hsub.
      { intros z [->%elem_of_singleton| ->%elem_of_singleton]%elem_of_union; [done|].
        apply elem_of_component. split; [by apply rtc_once|done]. }
      apply subseteq_size in Hsub. rewrite size_union, !size_singleton in Hsub by set_solver. lia.
Qed.

Lemma cycle_shared x y : y ∈ component_of x ts → tc leads y y → tc leads x x.
Proof.
  intros [Hxy Hyx]%elem_of_component Hy. eapply tc_rtc_l; [exact Hxy|]. by eapply tc_rtc_r.
Qed.

(** The scan: the states seen so far are assigned, and the components listed
    are those of the cyclic states among them, each once. *)
Definition scan_inv (seen : list StateId) (acc : gset string * list (gset string)) : Prop :=
  (∀ y, y ∈ acc.1 ↔ ∃ x, x ∈ seen ∧ y ∈ component_of x ts) ∧
  (∀ c, c ∈ acc.2 ↔ ∃ x, x ∈ seen ∧ tc leads x x ∧ c = component_of x ts) ∧ NoDup acc.2.

Lemma elem_of_snoc {A} (l : list A) x y : y ∈ l ++ [x] ↔ y ∈ l ∨ y = x.
Proof using. by rewrite elem_of_app, list_elem_of_singleton. Qed.

Lemma scan_inv_known seen acc x :
  scan_inv seen acc → x ∈ acc.1 → scan_inv (seen ++ [x]) acc.
Proof.
  intros (Hassigned & Hlisted & Hnd) Hx.
  pose proof (proj1 (Hassigned x) Hx) as (x' & Hseen & Hin).
  pose proof (component_shared _ _ Hin) as Hc. split_and!; [| |done].
  - intros y. rewrite Hassigned. setoid_rewrite elem_of_snoc.
    split; [naive_solver|]. intros (z & [?| ->] & Hy); [eauto|]. rewrite Hc in Hy. eauto.
  - intros c. rewrite Hlisted. setoid_rewrite elem_of_snoc.
    split; [naive_solver|]. intros (z & [?| ->] & Hz & ->); [eauto|].
    exists x'. split_and!; [done|by eapply cycle_shared|done].
Qed.

Lemma scan_inv_new seen acc x :
  scan_inv seen acc → x ∉ acc.1 →
  scan_inv (seen ++ [x]) (acc.1 ∪ component_of x ts,
    if component_is_cyclic x (component_of x ts) ts then acc.2 ++ [component_of x ts] else acc.2).
Proof.
  intros (Hassigned & Hlisted & Hnd) Hx.
  assert (component_of x ts ∉ acc.2) as Hfresh.
  { intros (x' & Hseen & _ & Heq)%Hlisted. apply Hx, Hassigned. exists x'.
    split; [done|]. rewrite <-Heq. apply component_self. }
  pose proof (component_is_cyclic_iff x) as Hcyc. split_and!; cbn [fst snd].
  - intros y. rewrite elem_of_union, Hassigned. setoid_rewrite elem_of_snoc. naive_solver.
  - intros c. setoid_rewrite elem_of_snoc.
    destruct (component_is_cyclic x (component_of x ts) ts); rewrite ?elem_of_snoc, Hlisted.
    + naive_solver.
    + split; [naive_solver|]. intros (z & [?| ->] & Hz & ->); [eauto|]. by apply Hcyc in Hz.
  - destruct (component_is_cyclic x (component_of x ts) ts); [|done].
    apply NoDup_app. split_and!; [done| |apply NoDup_singleton].
    by intros c Hc ->%list_elem_of_singleton.
Qed.

Lemma scan_inv_all seen todo acc :
  scan_inv seen acc → scan_inv (seen ++ todo) (foldl (component_step ts) acc todo).
Proof.
  revert seen acc. induction todo as [|x todo IH]; intros seen acc Hi; simpl.
  { by rewrite app_nil_r. }
  rewrite cons_middle, app_assoc. apply IH. unfold component_step.
  case_bool_decide; [by apply scan_inv_known|by apply scan_inv_new].
Qed.

Lemma cyclic_components_scan (states : gmap string CeremonyState) :
  scan_inv (btree_keys states) (foldl (component_step ts) (∅, []) (btree_keys states)).
Proof.
  apply (scan_inv_all []). split_and!; [| |constructor].
  - intros y. split; [set_solver|by intros (x & ?%elem_of_nil & _)].
  - intros c. split; [by intros ?%elem_of_nil|by intros (x & ?%elem_of_nil & _)].
Qed.

Lemma elem_of_cyclic_components (states : gmap string CeremonyState) c :
  c ∈ cyclic_components states ts ↔
  ∃ x, is_Some (states !! x) ∧ tc leads x x ∧ c = component_of x ts.
Proof.
  destruct (cyclic_components_scan states) as (_ & Hlisted & _).
  unfold cyclic_components. rewrite Hlisted. by setoid_rewrite elem_of_btree_keys.
Qed.

(** C39: the cyclic components of a definition are its cycles: each is the set
    of states mutually reachable with a state that can leave and come back, in
    one move or many, every such state is in one of them, and none is listed
    twice. *)
Theorem cyclic_components_are_the_cycles (states : gmap string CeremonyState) :
  (∀ c, c ∈ cyclic_components states ts ↔
     ∃ x, is_Some (states !! x) ∧ tc leads x x ∧
          ∀ y, y ∈ c ↔ rtc leads x y ∧ rtc leads y x) ∧
  NoDup (cyclic_components states ts).
Proof.
  split; [|apply cyclic_components_scan]. intros c. rewrite elem_of_cyclic_components.
  apply exist_proper. intros x.
  assert (c = component_of x ts ↔ ∀ y, y ∈ c ↔ rtc leads x y ∧ rtc leads y x) as ->; [|done].
  rewrite set_eq. by setoid_rewrite elem_of_component.
Qed.

Lemma leads_into x y : tc leads x y → ∃ t, t ∈ ts ∧ tr_to t = y.
Proof. induction 1 as [x y (t & ? & _ & ?)%leads_edge|]; eauto. Qed.

End components.

(** ** A bound on the moves of a session *)

Section bound.
Context (d : CeremonyDefinition).

(** How many moves a session can make: the budget of the definition, or as
    many as there are states when there is no cycle. *)
Definition move_bound : nat :=
  match def_max_transitions d with
  | Some limit => Z.to_nat limit
  | None =>
      match def_max_bounces d with
      | Some limit => length (def_transitions d) * Z.to_nat limit
      | None => size (def_states d)
      end
  end.

Lemma path_leads from ms to x :
  path d from ms to → x ∈ trec_to_state <$> ms → tc (leads (def_transitions d)) from x.
Proof.
  revert from. induction ms as [|m ms IH]; intros from; simpl; [by intros _ ?%elem_of_nil|].
  intros (Hf & (t & Ht & Hedge) & _ & Hp) Hx.
  unfold is_exact_edge in Hedge. rewrite !andb_true_iff in Hedge.
  destruct Hedge as [[Hfr%eqb_true_1 _] Hto%eqb_true_1].
  assert (leads (def_transitions d) from (trec_to_state m)) as Hstep.
  { apply leads_edge. exists t. split_and!; [done|congruence|done]. }
  apply elem_of_cons in Hx as [->|Hx]; [by apply tc_once|].
  eapply tc_l; [exact Hstep|]. by eapply IH.
Qed.

(** Without a cycle no state is visited twice. *)
Lemma acyclic_path_NoDup from ms to :
  (∀ x, ¬ tc (leads (def_transitions d)) x x) → path d from ms to →
  NoDup (from :: (trec_to_state <$> ms)).
Proof.
  intros Hac. revert from. induction ms as [|m ms IH]; intros from Hp.
  { apply NoDup_singleton. }
  apply NoDup_cons. split; [|destruct Hp as (_ & _ & _ & Hp); by apply IH].
  intros Hin. by eapply Hac, path_leads.
Qed.

Lemma path_declared from ms to x :
  (∀ t, t ∈ def_transitions d → is_Some (def_states d !! tr_to t)) →
  path d from ms to → x ∈ trec_to_state <$> ms → is_Some (def_states d !! x).
Proof.
  intros Hd Hp Hx. apply (path_leads _ _ _ _ Hp) in Hx.
  apply leads_into in Hx as (t & Ht & <-). by apply Hd.
Qed.

(** Every move is one of the declared edges. *)
Lemma moves_per_edge (ms : list CeremonyTransitionRecord) (ts : list CeremonyTransition) limit :
  Forall (λ m, ∃ t, t ∈ ts ∧ is_exact_edge t m = true) ms →
  (∀ t, count (is_exact_edge t) ms ≤ limit)%nat → (length ms ≤ length ts * limit)%nat.
Proof.
  intros Hall Hlimit. revert ms Hall Hlimit. induction ts as [|t ts IH]; intros ms Hall Hlimit.
  { destruct Hall as [|m ms (t & ?%elem_of_nil & _)]; [simpl; lia|done]. }
  pose proof (List.filter_length (is_exact_edge t) ms) as Hsplit.
  specialize (Hlimit t) as Ht. unfold count in Ht.
  assert (length (List.filter (λ m, negb (is_exact_edge t m)) ms) ≤ length ts * limit)%nat; [|simpl; lia].
  apply IH.
  - apply Forall_forall. intros m [Hm%list_elem_of_In Hne%negb_true_iff]%list_elem_of_In%filter_In.
    rewrite Forall_forall in Hall. destruct (Hall m Hm) as (t' & [->|Ht']%elem_of_cons & He); [congruence|eauto].
  - intros t'. etrans; [|apply (Hlimit t')]. unfold count. clear.
    induction ms as [|m ms IH]; simpl; [lia|].
    destruct (is_exact_edge t m), (is_exact_edge t' m) eqn:E; simpl; rewrite ?E; simpl; lia.
Qed.

Lemma path_edges from ms to :
  path d from ms to → Forall (λ m, ∃ t, t ∈ def_transitions d ∧ is_exact_edge t m = true) ms.
Proof.
  revert from. induction ms as [|m ms IH]; intros from Hp; constructor;
    destruct Hp as (_ & Hedge & _ & Hp); [done|by eapply IH].
Qed.

(** An accepted definition without a budget has no cycle. *)
Lemma unbudgeted_acyclic x :
  validate d = Ok tt → sound_definition d →
  def_max_transitions d = None → def_max_bounces d = None →
  ¬ tc (leads (def_transitions d)) x x.
Proof.
  intros Hv Hs Hmt Hmb Hx. destruct (quiet_checks d Hv) as (_ & _ & H & _).
  assert (is_Some (def_states d !! x)) as Hdecl.
  { apply leads_into in Hx as (t & Ht & <-). by apply Hs. }
  unfold collect_cycle_findings in H.
  assert (transition_endpoints_resolve (parts d) = true) as Hres.
  { apply all_true. intros t Ht. destruct (sound_edges d Hs t Ht) as (? & ? & _).
    apply andb_true_iff. split; by apply is_some_true. }
  rewrite Hres in H. simpl in H. rewrite Hmt, Hmb in H.
  destruct (cyclic_components _ _) eqn:Hc; [|done].
  assert (component_of x (def_transitions d) ∈ cyclic_components (def_states d) (def_transitions d))
    as Hin by (apply elem_of_cyclic_components; eauto).
  rewrite Hc in Hin. by apply elem_of_nil in Hin.
Qed.

Lemma acyclic_length from ms to :
  (∀ x, ¬ tc (leads (def_transitions d)) x x) →
  (∀ t, t ∈ def_transitions d → is_Some (def_states d !! tr_to t)) →
  path d from ms to → (length ms ≤ size (def_states d))%nat.
Proof.
  intros Hac Hd Hp.
  pose proof (acyclic_path_NoDup _ _ _ Hac Hp) as [_ Hnd]%NoDup_cons.
  rewrite <-(length_fmap trec_to_state), <-size_dom.
  rewrite <-(size_list_to_set (C := gset string)) by done. apply subseteq_size.
  intros x Hx%elem_of_list_to_set. apply elem_of_dom. by eapply path_declared.
Qed.
End bound.

Section bounded.
Context {Hsha : Sha256} {Hclk : Clock} {Hser : EvidenceSerde}.

(** C40: every session of a published definition makes a bounded number of
    moves, whatever commands it is given: no more than the declared budget of
    moves, or the budget per edge times the number of edges, and a definition
    that was published without a budget has no cycle, so its sessions make no
    more moves than it has states. *)
Theorem session_moves_are_bounded draft d es i :
  publish draft = Ok d → session d es i → (length (transitions i) ≤ move_bound d)%nat.
Proof.
  intros (Hv & Hsteps & Hstates)%published_validated Hs.
  pose proof (validated_sound d Hv Hsteps Hstates) as Hd.
  destruct (session_moves_ok d _ _ Hs) as [_ (from & _ & Hpath) Hlimit Hbounce].
  change (w_moves (work i)) with (transitions i) in *. unfold move_bound.
  destruct (def_max_transitions d) as [limit|] eqn:Hmt; [specialize (Hlimit _ eq_refl); lia|].
  destruct (def_max_bounces d) as [limit|] eqn:Hmb.
  - apply moves_per_edge; [by eapply path_edges|].
    intros t. specialize (Hbounce limit t eq_refl). lia.
  - eapply acyclic_length; [|by intros t Ht; apply Hd|done].
    intros x. by apply unbudgeted_acyclic.
Qed.
End bounded.

(** ** The demonstration ceremony, published *)

Lemma session_moves_are_bounded_witness :
  publish demo_draft = Ok demo ∧ session demo demo_stream both_taken ∧
  (length (transitions both_taken) ≤ move_bound demo)%nat.
Proof.
  split; [vm_compute; reflexivity|]. split; [exact demo_session|].
  refine (session_moves_are_bounded demo_draft demo demo_stream both_taken _ demo_session).
  vm_compute; reflexivity.
Defined.
