(* ===== verification/Lifecycle.v ===== *)
(** * Pausing, ending and superseding a session

    What the lifecycle phase of a session allows: a paused session takes no
    new work until it is resumed, an ended one never changes its work again,
    and one that planned a successor never runs again. *)

From S2P Require Import Prelude Errors Text Values Steps Definitions Interventions Instance.
From S2P Require Import Fold Rules Decide DecideTable DecideLineage Engine Sessions Machine.
From S2P Require Import Scenario.

(** What only new work moves: the state, its visit, the moves and the keys. *)
Definition frontier (i : CeremonyInstance) :=
  (current_state i, current_state_visit i, transitions i, idempotency_keys i).

Definition new_work_event (e : CeremonyEvent) : bool :=
  match e with
  | EvStepStarted _ | EvTransitionApplied _ | EvChildSpawnPlanned _ _ | EvInstanceImported _ => true
  | _ => false
  end.

Lemma apply_frontier_frame i e i' :
  apply i e = Ok i' → new_work_event e = false → frontier i' = frontier i.
Proof.
  intros He Hi. destruct (apply_ok_cases _ _ _ He) as [(w & p & -> & _ & ->)|Hw]; [done|].
  destruct e; try done; try (by destruct (Hw e)); injection He as <-; clear Hw Hi; frame_event.
Qed.

Definition child_event (e : CeremonyEvent) : bool :=
  match e with
  | EvChildSpawnPlanned _ _ | EvChildSpawnPlanAdopted _ _ _ | EvChildCompletionAccepted _ _
  | EvInstanceImported _ => true
  | _ => false
  end.

(** The phase that refuses work, and the events that end a session. *)
Definition refuses_work (i : CeremonyInstance) : Prop :=
  lc_phase (lifecycle_field i) ≠ Running.

Definition resume_event (e : CeremonyEvent) : bool :=
  match e with EvCeremonyResumed _ | EvInstanceImported _ => true | _ => false end.

Lemma apply_refuses i e i' :
  apply i e = Ok i' → resume_event e = false → refuses_work i → refuses_work i'.
Proof.
  unfold refuses_work. intros He Hi Hr.
  destruct (lifecycle_event e) eqn:Hl.
  - destruct e; try done; injection He as <-; done.
  - by rewrite (apply_lifecycle_frame _ _ _ He Hl).
Qed.

Lemma apply_all_refuses i es i' :
  apply_all i es = Ok i' → any resume_event es = false → refuses_work i → refuses_work i'.
Proof.
  revert i. induction es as [|e es IH]; intros i Hes; simpl in *; [by simplify_eq|].
  intros [He Hno]%orb_false_iff Hr. invert_ok Hes. eapply IH; eauto using apply_refuses.
Qed.

Lemma refuses_admits i : refuses_work i → admits_new_work i = false.
Proof.
  unfold refuses_work, admits_new_work, lifecycle_admits_new_work. intros Hr.
  destruct (lc_phase (lifecycle_field i)); rewrite ?andb_false_r; done.
Qed.

Section lifecycle.
Context {Hsha : Sha256} {Hclk : Clock} {Hser : EvidenceSerde}.
Context (d : CeremonyDefinition).

(** A session that admits no new work decides no event of new work. *)
Lemma decide_without_new_work i c es :
  admits_new_work i = false → decide i c d = Ok es → any new_work_event es = false.
Proof.
  intros Hadm Hd. destruct c; try (eapply decide_any; [exact Hd|by intros []]).
  - apply start_cases in Hd as (? & ? & ? & -> & []). congruence.
  - apply move_cases in Hd as (? & ? & ? & [] & ->). congruence.
  - simpl in Hd. unfold decide_plan_children, decide_new_child_plan, require_admits_new_work in Hd.
    rewrite Hadm in Hd. invert_ok Hd; done.
Qed.

(** A paused session takes no new work.  Whatever command it accepts
    before it is resumed, no step is claimed, no move is made, no child is
    planned, and it still admits no new work afterwards. *)
Theorem paused_session_takes_no_new_work i c i' :
  lc_phase (lifecycle_field i) = Paused →
  (∀ now, c ≠ CmdResumeCeremony now) →
  execute i c d = Ok i' →
  frontier i' = frontier i ∧ dom (child_groups i') = dom (child_groups i) ∧
  admits_new_work i' = false.
Proof.
  intros Hp Hc Hx. unfold execute in Hx. apply bind_Ok in Hx as (es & Hd & Ha).
  assert (refuses_work i) as Hr by (unfold refuses_work; by rewrite Hp).
  pose proof (decide_without_new_work _ _ _ (refuses_admits _ Hr) Hd) as Hnew.
  split_and!.
  - by eapply apply_all_frame; [apply apply_frontier_frame| |].
  - refine (apply_all_frame (λ i, dom (child_groups i)) new_work_event i es i' _ Ha Hnew).
    clear. intros i e i' He Hi.
    destruct (apply_ok_cases _ _ _ He) as [(w & p & -> & _ & ->)|Hw]; [done|].
    destruct (child_event e) eqn:Hch.
    + destruct e; try done; injection He as <-; unfold_apply;
        destruct (child_groups i !! _) eqn:Hl; try done; simpl; by rewrite dom_insert_lookup_L.
    + f_equal. destruct e; try done; try (by destruct (Hw e)); injection He as <-;
        clear Hw Hi Hch; frame_event.
  - apply refuses_admits. eapply apply_all_refuses; [exact Ha| |exact Hr].
    eapply decide_any; [exact Hd|]. intros e. destruct c, e; try done. by destruct (Hc now).
Qed.

(** ** An ended session *)

Lemma ended_work_events i c es :
  is_ended i = true → decide i c d = Ok es →
  any (λ e, work_event e || lifecycle_event e || completion_event e) es = false.
Proof.
  intros He Hd.
  assert (∀ c es, decide_apply_step_result i d c = Ok es → 
    any (λ e, work_event e || lifecycle_event e || completion_event e) es = false) as Hres.
  { intros c' es' [->|[(late & -> & _)|(? & ? & [] & _)]]%result_cases; try done.
    unfold decide_late_step_result in filed_on_time. rewrite He in filed_on_time. simpl in *.
    destruct (late_step_results i !! _); by invert_ok filed_on_time. }
  assert (admits_new_work i = false) as Hadm by (unfold admits_new_work; by rewrite He).
  destruct c; try (eapply decide_any; [exact Hd|by intros []]); simpl in Hd.
  - apply start_cases in Hd as (? & ? & ? & -> & []). congruence.
  - unfold decide_renew_step_lease, decide_new_renewal in Hd. rewrite He in Hd. by invert_ok Hd.
  - by eapply Hres.
  - apply receipt_cases in Hd as [->|(link & es' & -> & _ & Hr)]; [done|]. simpl. by eapply Hres.
  - apply move_cases in Hd as (? & ? & ? & [] & ->). congruence.
  - unfold decide_pause in Hd. rewrite He in Hd. by invert_ok Hd.
  - unfold decide_resume in Hd. rewrite He in Hd. by invert_ok Hd.
  - unfold decide_cancel in Hd. rewrite He in Hd. by invert_ok Hd.
  - unfold decide_enforce_deadlines in Hd. rewrite He in Hd. by invert_ok Hd.
Qed.

(** C33: an ended session is final.  Whatever command it still accepts, the
    state it stood in, its records, moves, keys and deadlines stay as they
    were, and it stays ended for the same reason. *)
Theorem ended_session_is_final i c i' :
  is_ended i = true → execute i c d = Ok i' →
  work i' = work i ∧ lifecycle i' = lifecycle i ∧ is_ended i' = true.
Proof.
  intros He Hx. unfold execute in Hx. apply bind_Ok in Hx as (es & Hd & Ha).
  pose proof (ended_work_events _ _ _ He Hd) as Hev. rewrite any_false in Hev.
  assert (work i' = work i) as Hw.
  { eapply apply_all_work_frame; [exact Ha|]. apply any_false. intros e Hin.
    by apply Hev, orb_false_iff in Hin as [[? ?]%orb_false_iff _]. }
  assert (lifecycle i' = lifecycle i) as Hl.
  { unfold lifecycle.
    rewrite (apply_all_frame lifecycle_field lifecycle_event i es i' apply_lifecycle_frame Ha),
      (apply_all_frame completed_at completion_event i es i' apply_completion_frame Ha); [done|..];
      apply any_false; intros e Hin;
      by apply Hev, orb_false_iff in Hin as [[? ?]%orb_false_iff ?]. }
  split_and!; [done|done|]. unfold is_ended. by rewrite Hl.
Qed.

(** ** A superseded session *)

Definition superseded_refuses (i : CeremonyInstance) : Prop :=
  is_superseded i = true → refuses_work i.

Lemma superseded_step i c es i' :
  superseded_refuses i → decide i c d = Ok es → apply_all i es = Ok i' → superseded_refuses i'.
Proof.
  unfold superseded_refuses, is_superseded. intros Hi Hd Ha.
  destruct (any succession_event es) eqn:Hsucc.
  - intros _. assert (∃ p, c = CmdPlanSuccessor p) as [p ->].
    { apply existsb_exists in Hsucc as (e & Hin%list_elem_of_In & He).
      pose proof (decide_emits _ _ _ _ Hd) as Hem.
      apply (proj1 (all_true _ _)) with (x := e) in Hem; [|done]. destruct c, e; try done; eauto. }
    simpl in Hd. unfold decide_plan_successor in Hd. invert_ok Hd.
    injection Ha as <-. unfold refuses_work. simpl.
    match goal with H : (lc_phase _ == Paused) = true |- _ => apply eqb_true_1 in H; by rewrite H end.
  - rewrite (apply_all_frame successor_plan succession_event i es i' apply_succession_frame Ha Hsucc).
    intros Hs. specialize (Hi Hs). eapply apply_all_refuses; [exact Ha| |exact Hi].
    destruct c; try (eapply decide_any; [exact Hd|by intros []]).
    simpl in Hd. unfold decide_resume, is_superseded in Hd. rewrite Hs in Hd. by invert_ok Hd.
Qed.

(** A session that planned its successor never runs again: it admits no
    new work in any later state, its plan stays the one it accepted, and a
    resume is refused. *)
Theorem superseded_session_never_runs_again es i plan :
  session d es i → successor_plan i = Some plan →
  admits_new_work i = false ∧
  (∀ now, is_ok (decide i (CmdResumeCeremony now) d) = false) ∧
  (∀ c i', execute i c d = Ok i' → successor_plan i' = Some plan).
Proof.
  intros Hs Hplan.
  assert (superseded_refuses i) as Hi.
  { clear Hplan. induction Hs as [id ctx bound lin account rcl now started i Ho Ha
      |id pub ctx succ plan' now es started i Hpub Hs Hh Ha
      |es i command es' i' _ IH _ Hd Ha]; [| |by eapply superseded_step].
    - unfold superseded_refuses, is_superseded.
      rewrite (apply_all_frame successor_plan succession_event _ _ _ apply_succession_frame Ha);
        [done|]. unfold opening_batch. simpl. by destruct (option_keep _ _).
    - unfold decide_start_successor in Hs. apply bind_Ok in Hs as (started' & Ho & Hs).
      injection Hs as <-. unfold superseded_refuses, is_superseded.
      rewrite (apply_all_frame successor_plan succession_event _ _ _ apply_succession_frame Ha);
        [done|]. simpl. by destruct (_ =? _)%nat. }
  assert (is_superseded i = true) as Hsup by (unfold is_superseded; by rewrite Hplan).
  split_and!; [by apply refuses_admits, Hi| |].
  - intros now. simpl. unfold decide_resume. rewrite Hsup.
    destruct (require_definition i d); [|done..]. simpl. by destruct (is_ended i).
  - intros c i' Hx. unfold execute in Hx. apply bind_Ok in Hx as (es' & Hd & Ha).
    rewrite (apply_all_frame successor_plan succession_event i es' i' apply_succession_frame Ha);
      [done|]. destruct c; try (eapply decide_any; [exact Hd|by intros []]).
    simpl in Hd. unfold decide_plan_successor in Hd. rewrite Hplan in Hd. by invert_ok Hd.
Qed.
End lifecycle.

(** ** The properties on the demonstration ceremony *)

(** The worker of a paused session may still file the result it was claimed for. *)
Lemma paused_session_takes_no_new_work_witness :
  ∃ i', execute paused (finish_cmd paused "plan" 2) demo = Ok i' ∧
    frontier i' = frontier paused ∧ dom (child_groups i') = dom (child_groups paused) ∧
    admits_new_work i' = false.
Proof.
  exists (after paused (finish_cmd paused "plan" 2)).
  assert (execute paused (finish_cmd paused "plan" 2) demo
          = Ok (after paused (finish_cmd paused "plan" 2))) as Hx by (vm_compute; reflexivity).
  split; [exact Hx|].
  refine (paused_session_takes_no_new_work demo paused _ _ _ _ Hx); [vm_compute; reflexivity|].
  discriminate.
Defined.

Lemma ended_session_is_final_witness :
  ∃ i', execute cancelled (finish_cmd cancelled "plan" 2) demo = Ok i' ∧
    size (late_step_results i') = 1%nat ∧
    work i' = work cancelled ∧ lifecycle i' = lifecycle cancelled ∧ is_ended i' = true.
Proof.
  exists (after cancelled (finish_cmd cancelled "plan" 2)).
  assert (execute cancelled (finish_cmd cancelled "plan" 2) demo
          = Ok (after cancelled (finish_cmd cancelled "plan" 2))) as Hx by (vm_compute; reflexivity).
  split; [exact Hx|]. split; [vm_compute; reflexivity|].
  refine (ended_session_is_final demo cancelled _ _ _ Hx). vm_compute. reflexivity.
Defined.

Lemma superseded_session_never_runs_again_witness :
  admits_new_work superseded = false ∧
  (∀ now, is_ok (decide superseded (CmdResumeCeremony now) demo) = false) ∧
  (∀ c i', execute superseded c demo = Ok i' → successor_plan i' = Some demo_succession).
Proof.
  refine (superseded_session_never_runs_again demo superseded_stream superseded demo_succession
    superseded_session _). vm_compute. reflexivity.
Defined.
