(* ===== verification/Deadlines.v ===== *)
(** * Leases and deadlines

    Renewing a lease never shortens it and never takes it past a deadline;
    enforcing the deadlines fails every overdue claim in the order they fell
    due, ends the session exactly when a deadline of the state or of the
    ceremony passed, and leaves nothing overdue behind. *)

From S2P Require Import Prelude Errors Text Values Steps Definitions Interventions Instance.
From S2P Require Import Fold Rules Decide DecideTable DecideLineage Engine Sessions Machine.
From S2P Require Import Scenario.

Lemma option_keep_narrow {A} (f g : A → bool) (o : option A) :
  option_keep f o = None → (∀ x, g x = true → f x = true) → option_keep g o = None.
Proof.
  destruct o as [x|]; [|done]. simpl. intros Hf Hg. destruct (g x) eqn:Hx; [|done].
  by rewrite (Hg x Hx) in Hf.
Qed.

(** ** Expiring a list of claims *)

Section expiry.
Context (result : StepResult) (now : Instant).

Definition expire (i : CeremonyInstance) (dl : StepDeadline) : CeremonyInstance :=
  apply_step_deadline_exceeded i dl result now.

Lemma apply_all_expire i dls :
  apply_all i ((λ dl, EvStepDeadlineExceeded dl result now) <$> dls) = Ok (foldl expire i dls).
Proof. revert i. induction dls as [|dl dls IH]; intros i; [done|]. apply IH. Qed.

Lemma expire_all_deadlines i dls id :
  step_deadlines (foldl expire i dls) !! id
  = if bool_decide (id ∈ sd_step_id <$> dls) then None else step_deadlines i !! id.
Proof.
  revert i. induction dls as [|dl dls IH]; intros i; [done|]. simpl. rewrite IH.
  unfold expire, apply_step_deadline_exceeded. repeat case_bool_decide; try set_solver.
  - destruct (base.decide (id = sd_step_id dl)) as [->|]; [|set_solver].
    destruct (step_records i !! _); simpl; by rewrite lookup_delete_eq.
  - destruct (step_records i !! _); simpl; rewrite lookup_delete_ne; set_solver.
Qed.

Lemma expire_record i dl id r :
  step_records i !! id = Some r →
  step_records (expire i dl) !! id
  = Some (if sd_step_id dl == id then record_with_result r result else r).
Proof.
  intros Hr. unfold expire, apply_step_deadline_exceeded. simpl.
  destruct (_ == _) eqn:Heq.
  - apply eqb_true_1 in Heq as <-. rewrite Hr. simpl. by rewrite lookup_insert_eq.
  - apply eqb_false in Heq. destruct (step_records i !! sd_step_id dl); simpl; [|done].
    by rewrite lookup_insert_ne.
Qed.

(** A claim in the list ends up with the expiry's result; the others keep
    their record. *)
Lemma expire_all_record i dls id r :
  step_records i !! id = Some r →
  ∃ r', step_records (foldl expire i dls) !! id = Some r' ∧
    (id ∉ sd_step_id <$> dls → r' = r) ∧
    (id ∈ sd_step_id <$> dls → rec_status r' = res_status result ∧ rec_lease r' = None).
Proof.
  revert i r. induction dls as [|dl dls IH]; intros i r Hr.
  { exists r. split_and!; [done..|]. by intros ?%elem_of_nil. }
  simpl. pose proof (expire_record i dl id r Hr) as Hr1.
  destruct (IH _ _ Hr1) as (r' & Hr' & Hnot & Hin). exists r'. split; [done|].
  destruct (_ == _) eqn:Heq.
  - apply eqb_true_1 in Heq as <-. split; [set_solver|]. intros _.
    destruct (base.decide (sd_step_id dl ∈ sd_step_id <$> dls)); [by apply Hin|].
    by rewrite Hnot.
  - apply eqb_false in Heq. split; [set_solver|]. intros [->|?]%elem_of_cons; [done|by apply Hin].
Qed.

Lemma expire_all_retired i dls fence :
  fence ∈ sd_claim_fence <$> dls → is_Some (retired_deadline_claims (foldl expire i dls) !! fence).
Proof.
  assert (∀ dls i, is_Some (retired_deadline_claims i !! fence) →
                   is_Some (retired_deadline_claims (foldl expire i dls) !! fence)) as Hkeep.
  { clear. intros dls. induction dls as [|dl dls IH]; intros i Hi; [done|]. simpl. apply IH.
    unfold expire, apply_step_deadline_exceeded. simpl.
    rewrite lookup_insert_is_Some'. right. by destruct (step_records i !! _). }
  revert i. induction dls as [|dl dls IH]; intros i; [by intros ?%elem_of_nil|].
  simpl. intros [->|Hin]%elem_of_cons; [|by apply IH].
  apply Hkeep. unfold expire, apply_step_deadline_exceeded. simpl. rewrite lookup_insert_eq. eauto.
Qed.

(** What expiry leaves alone. *)
Lemma expire_all_frame i dls :
  let i' := foldl expire i dls in
  identity i' = identity i ∧ lifecycle_field i' = lifecycle_field i ∧
  completed_at i' = completed_at i ∧ state_deadline i' = state_deadline i ∧
  current_state i' = current_state i.
Proof.
  simpl. split_and!;
    match goal with |- ?f _ = _ => apply (foldl_keeps f) end;
    intros j x; unfold expire, apply_step_deadline_exceeded; by destruct (_ !! _).
Qed.

Lemma expire_all_ended i dls : is_ended (foldl expire i dls) = is_ended i.
Proof.
  destruct (expire_all_frame i dls) as (_ & Hl & Hc & _). unfold is_ended, lifecycle.
  by rewrite Hl, Hc.
Qed.
End expiry.

Lemma ceremony_exceeded_ended i now : is_ended (apply_ceremony_deadline_exceeded i now) = true.
Proof. unfold is_ended, lifecycle. simpl. by destruct (completed_at i). Qed.

Lemma state_exceeded_ended i now : is_ended (apply_state_deadline_exceeded i now) = true.
Proof. unfold is_ended, lifecycle. simpl. by destruct (completed_at i). Qed.

Section deadlines.
Context {Hsha : Sha256} {Hclk : Clock} {Hser : EvidenceSerde}.
Context (d : CeremonyDefinition).

(** ** Renewing a lease *)

(** A lease renewal is the same claim for longer.  It changes nothing but
    the expiry of the one claim it names, whose fence it keeps; the new expiry
    is in the future, not before the one it replaces, and not past the deadline
    of the step, of the state or of the ceremony.  A replayed request changes
    nothing at all. *)
Theorem lease_renewal_extends_the_claim i c i' :
  execute i (CmdRenewStepLease c) d = Ok i' →
  i' = i ∨
  ∃ r expiry, step_records i !! cmd_renew_step_id c = Some r ∧
    work i' = (work i) <| w_records ::= <[cmd_renew_step_id c :=
                 record_renew_lease_until r (cmd_renew_expires_at c)]> |> ∧
    step_claim_fence i' (cmd_renew_step_id c) = step_claim_fence i (cmd_renew_step_id c) ∧
    record_effective_lease_expires_at r = Some expiry ∧
    expiry ≤ cmd_renew_expires_at c ∧ cmd_renew_now c < cmd_renew_expires_at c ∧
    ∀ at_, sd_at <$> step_deadlines i !! cmd_renew_step_id c = Some at_ ∨
           std_at <$> state_deadline i = Some at_ ∨ ceremony_deadline i = Some at_ →
      cmd_renew_expires_at c ≤ at_.
Proof.
  intros Hx. unfold execute in Hx. apply bind_Ok in Hx as (es & Hd & Ha). simpl in Hd.
  assert (es = [] ∨ decide_new_renewal i d c = Ok es) as [->|Hn].
  { unfold decide_renew_step_lease in Hd. apply bind_Ok in Hd as ([] & _ & Hd).
    destruct (cmd_renew_request c); [|by right].
    destruct (lease_renewals i !! _); [|by right]. invert_ok Hd. by left. }
  { left. by injection Ha. }
  apply new_renewal_cases in Hn as (r & [] & [->| ->]); [left; by injection Ha|]. right.
  exists r, (cmd_renew_expected_expires_at c).
  pose proof (apply_all_work _ _ _ Ha) as Hw. simpl in Hw. rewrite renewed_record in Hw.
  split_and!; [done|done| |done|lia|lia|].
  - unfold step_claim_fence.
    pose proof (f_equal w_records Hw) as Hrec. simpl in Hrec.
    apply apply_all_identity in Ha as [= Hid]; [|done].
    by rewrite Hrec, Hid, lookup_insert_eq, renewed_record.
  - intros at_ Hat. unfold absolute_deadline in renewed_within.
    destruct (sd_at <$> step_deadlines i !! cmd_renew_step_id c),
      (std_at <$> state_deadline i), (ceremony_deadline i); simpl in *;
      (destruct (renewed_within _ eq_refl)) || idtac; naive_solver lia.
Qed.

(** ** Enforcing deadlines *)

(** The deadline of the state or the ceremony that passed first, if one did. *)
Definition passed_deadline (i : CeremonyInstance) (now : Instant) : option Instant :=
  earliest (option_keep (λ at_, at_ <=? now) (ceremony_deadline i))
    (std_at <$> option_keep (λ deadline, std_at deadline <=? now) (state_deadline i)).

Lemma elem_of_due i now at_ dl :
  deadlines_keyed (work i) →
  dl ∈ due_step_deadlines i now at_ ↔
  step_deadlines i !! sd_step_id dl = Some dl ∧ sd_at dl ≤ now ∧
  ∀ a, at_ = Some a → sd_at dl < a.
Proof using.
  intros Hk. unfold due_step_deadlines. rewrite merge_sort_Permutation, list_elem_of_In, filter_In,
    <-list_elem_of_In, elem_of_btree_values, andb_true_iff. split.
  - intros [[id Hid] [Hle Hat]]. rewrite (Hk _ _ Hid). split_and!; [done|lia|].
    intros a ->. simpl in Hat. lia.
  - intros (Hl & Hle & Hat). split_and!; [by eexists|lia|].
    destruct at_; [simpl; specialize (Hat _ eq_refl); lia|done].
Qed.

(** Which deadline passed first, the ceremony's on a tie. *)
Lemma passed_deadline_cases i now :
  let ceremony := option_keep (λ at_, at_ <=? now) (ceremony_deadline i) in
  let state := option_keep (λ deadline, std_at deadline <=? now) (state_deadline i) in
  (ceremony = None ∧ state = None ∧ passed_deadline i now = None) ∨
  (∃ a, ceremony = Some a ∧ passed_deadline i now = Some a ∧ a ≤ now ∧
        ∀ b, state = Some b → a ≤ std_at b) ∨
  (∃ b, state = Some b ∧ passed_deadline i now = Some (std_at b) ∧ std_at b ≤ now ∧
        ∀ a, ceremony = Some a → std_at b < a).
Proof using.
  unfold passed_deadline. simpl.
  destruct (option_keep _ (ceremony_deadline i)) as [a|] eqn:Ha;
    destruct (option_keep _ (state_deadline i)) as [b|] eqn:Hb; simpl;
    repeat match goal with H : option_keep _ _ = Some _ |- _ => apply option_keep_Some in H as [_ ?] end.
  - destruct (Z.le_gt_cases a (std_at b)).
    + right. left. exists a. rewrite Z.min_l by done. split_and!; [done|done|lia|naive_solver].
    + right. right. exists b. rewrite Z.min_r by lia. split_and!; [done|done|lia|naive_solver lia].
  - right. left. exists a. split_and!; [done|done|lia|done].
  - right. right. exists b. split_and!; [done|done|lia|done].
  - by left.
Qed.

(** The session after its deadlines were enforced. *)
Lemma enforce_effect i now i' :
  execute i (CmdEnforceCeremonyDeadlines now) d = Ok i' → is_ended i = false →
  ∃ result, StepResult_timed_out = Ok result ∧ res_status result = Failed ∧
  let settled := foldl (expire result now) i (due_step_deadlines i now (passed_deadline i now)) in
  (passed_deadline i now = None ∧ i' = settled) ∨
  (∃ at_, passed_deadline i now = Some at_ ∧ at_ ≤ now ∧
   i' = if ceremony_deadline i == Some at_ then apply_ceremony_deadline_exceeded settled now
        else apply_state_deadline_exceeded settled now).
Proof.
  intros Hx He. unfold execute in Hx. apply bind_Ok in Hx as (es & Hd & Ha). simpl in Hd.
  apply enforce_cases in Hd as [[? _]|(_ & result & terminal & Hres & Hf & -> & Ht)]; [congruence|].
  exists result. split_and!; [done..|].
  rewrite apply_all_app, apply_all_expire in Ha. simpl in Ha.
  fold (passed_deadline i now) in Ha.
  destruct (passed_deadline_cases i now) as
    [(Hc & Hst & Hp)|[(a & Hc & Hp & Hle & Hst)|(b & Hst & Hp & Hle & Hc)]]; simpl in Ht.
  - left. rewrite Hc, Hst in Ht. subst terminal. by injection Ha as <-.
  - right. exists a. split_and!; [done|done|]. rewrite Hc in Ht.
    apply option_keep_Some in Hc as [-> _]. rewrite eqb_refl.
    destruct (option_keep _ (state_deadline i)) as [b|]; [|subst terminal; by injection Ha as <-].
    specialize (Hst b eq_refl). apply Z.leb_le in Hst. rewrite Hst in Ht. subst terminal.
    by injection Ha as <-.
  - right. exists (std_at b). split_and!; [done|done|].
    assert (ceremony_deadline i == Some (std_at b) = false) as ->.
    { apply eqb_false. intros Heq. assert (std_at b < std_at b); [|lia]. apply Hc.
      apply option_keep_Some. rewrite Heq. split; [done|lia]. }
    rewrite Hst in Ht.
    destruct (option_keep _ (ceremony_deadline i)) as [a|]; [|subst terminal; by injection Ha as <-].
    specialize (Hc a eq_refl). apply Z.leb_gt in Hc. rewrite Hc in Ht. subst terminal.
    by injection Ha as <-.
Qed.

(** A claim whose deadline passed while its session was still on time is
    failed by the enforcement, its lease is released and its fence retired; a
    result filed for that step afterwards changes no work, unless the step is
    claimed again. *)
Theorem overdue_claim_is_failed es i now i' id dl r :
  session d es i → is_ended i = false →
  step_deadlines i !! id = Some dl → sd_at dl ≤ now →
  (∀ at_, passed_deadline i now = Some at_ → sd_at dl < at_) →
  step_records i !! id = Some r →
  execute i (CmdEnforceCeremonyDeadlines now) d = Ok i' →
  (∃ r', step_records i' !! id = Some r' ∧ rec_status r' = Failed ∧ rec_lease r' = None) ∧
  step_deadlines i' !! id = None ∧
  is_Some (retired_deadline_claims i' !! sd_claim_fence dl) ∧
  (∀ c i'', cmd_result_step_id c = id → execute i' (CmdApplyStepResult c) d = Ok i'' →
     work i'' = work i').
Proof.
  intros Hs He Hdl Hle Hat Hr Hx. destruct (session_runs _ _ _ Hs) as [Hk _].
  destruct (enforce_effect _ _ _ Hx He) as (result & _ & Hf & Hi').
  pose proof (Hk _ _ Hdl) as Hid. simpl in Hid.
  set (due := due_step_deadlines i now (passed_deadline i now)) in *.
  set (settled := foldl (expire result now) i due) in *.
  assert (dl ∈ due) as Hdue by (apply elem_of_due; [done|]; by rewrite Hid).
  assert (step_records i' = step_records settled ∧ step_deadlines i' = step_deadlines settled ∧
          retired_deadline_claims i' = retired_deadline_claims settled) as (Hrec & Hdls & Hret)
    by (by destruct Hi' as [[_ ->]|(? & _ & _ & ->)]; [|destruct (_ == _)]).
  assert (id ∈ sd_step_id <$> due) as Hin
    by (rewrite <-Hid; by apply list_elem_of_fmap_2).
  assert (∃ r', step_records i' !! id = Some r' ∧ rec_status r' = Failed ∧ rec_lease r' = None)
    as (r' & Hr' & Hst & Hlease).
  { destruct (expire_all_record result now i due id r Hr) as (r' & Hr' & _ & Hfail).
    exists r'. rewrite Hrec. destruct (Hfail Hin) as [-> ->]. done. }
  split_and!.
  - eauto.
  - rewrite Hdls. unfold settled. by rewrite expire_all_deadlines, bool_decide_eq_true_2.
  - rewrite Hret. apply expire_all_retired. by apply list_elem_of_fmap_2.
  - intros c i'' Hc Hx'. unfold execute in Hx'. apply bind_Ok in Hx' as (es' & Hd & Ha).
    apply result_cases in Hd as [->|[(late & -> & _)|(? & ? & [] & _)]];
      [by simplify_eq/=|by simplify_eq/=|]. congruence.
Qed.

(** Enforcement ends a session exactly when a deadline of the ceremony or
    of its state has passed, and then for the one that passed first, the
    ceremony's on a tie. *)
Theorem passed_deadline_ends_the_session i now i' :
  is_ended i = false → execute i (CmdEnforceCeremonyDeadlines now) d = Ok i' →
  is_ended i' = is_some (passed_deadline i now) ∧
  (∀ at_, passed_deadline i now = Some at_ → at_ ≤ now ∧
    lc_end_reason (lifecycle i') =
      Some (if ceremony_deadline i == Some at_ then EndCeremonyDeadline else EndStateDeadline)).
Proof.
  intros He Hx. destruct (enforce_effect _ _ _ Hx He) as (result & _ & _ & Hi').
  destruct Hi' as [[Hp ->]|(at_ & Hp & Hle & ->)]; rewrite Hp.
  - by rewrite expire_all_ended.
  - split; [destruct (_ == _); [apply ceremony_exceeded_ended|apply state_exceeded_ended]|].
    intros at' [= <-]. split; [done|].
    unfold lifecycle; destruct (_ == _); simpl; by destruct (completed_at _).
Qed.

(** Nothing a sweep at [now] looked at is due any more. *)
Lemma expired_none_due result i now now' :
  deadlines_keyed (work i) → now' ≤ now →
  due_step_deadlines (foldl (expire result now) i (due_step_deadlines i now None)) now' None = [].
Proof using.
  intros Hk Hle. set (due := due_step_deadlines i now None).
  set (i' := foldl (expire result now) i due).
  assert (deadlines_keyed (work i')) as Hk'.
  { intros id dl. simpl. unfold i'. rewrite expire_all_deadlines.
    case_bool_decide; [done|]. apply Hk. }
  destruct (due_step_deadlines i' now' None) as [|dl l] eqn:Hdue; [done|exfalso].
  assert (dl ∈ due_step_deadlines i' now' None) as Hin by (rewrite Hdue; by left).
  apply elem_of_due in Hin as (Hl & Hat & _); [|done].
  unfold i' in Hl. rewrite expire_all_deadlines in Hl.
  case_bool_decide as Hin; [done|]. apply Hin, list_elem_of_fmap_2, elem_of_due; [done|].
  split_and!; [done|lia|done].
Qed.

(** Enforcement settles: right after the deadlines were enforced at an
    instant, nothing that is due at that or any earlier instant is left to
    enforce, so a repeated or delayed sweep decides nothing. *)
Theorem enforcement_settles es i now i' now' :
  session d es i → execute i (CmdEnforceCeremonyDeadlines now) d = Ok i' → now' ≤ now →
  decide i' (CmdEnforceCeremonyDeadlines now') d = Ok [].
Proof.
  intros Hs Hx Hnow. destruct (session_runs _ _ _ Hs) as [Hk _].
  pose proof (session_matches _ _ _ Hs) as Hm. simpl.
  unfold decide_enforce_deadlines, require_definition.
  destruct (is_ended i) eqn:He.
  { unfold execute in Hx. simpl in Hx. unfold decide_enforce_deadlines, require_definition in Hx.
    rewrite Hm, He in Hx. injection Hx as <-. by rewrite Hm, He. }
  assert (matches_definition i' d = true) as ->.
  { unfold execute in Hx. apply bind_Ok in Hx as (es' & Hd & Ha). unfold matches_definition in *.
    apply apply_all_identity in Ha as [= _ -> -> _ _ _ _ _ _]; [done|]. by eapply decide_no_import. }
  simpl. destruct (enforce_effect _ _ _ Hx He) as (result & Hres & _ & [[Hp ->]|(at_ & Hp & _ & ->)]).
  - rewrite Hp, expire_all_ended, He.
    destruct (expire_all_frame result now i (due_step_deadlines i now None))
      as ([= _ _ _ _ _ _ _ Hcd _] & _ & _ & Hsd & _).
    destruct (passed_deadline_cases i now) as [(Hc & Hst & _)|[(? & _ & ? & _)|(? & _ & ? & _)]];
      try congruence.
    rewrite Hsd, Hcd.
    rewrite (option_keep_narrow _ (λ at_, at_ <=? now') _ Hc) by (intros; lia).
    rewrite (option_keep_narrow _ (λ dl, std_at dl <=? now') _ Hst) by (intros; lia). simpl.
    by rewrite (expired_none_due result i now now' Hk Hnow).
  - destruct (_ == _); [rewrite ceremony_exceeded_ended|rewrite state_exceeded_ended]; done.
Qed.
End deadlines.

(** ** The properties on the demonstration ceremony *)

Definition renewal : RenewStepLease := {|
  cmd_renew_request := None;
  cmd_renew_step_id := "check";
  cmd_renew_claim_fence := fence_of checking "check";
  cmd_renew_lease_owner_id := "worker";
  cmd_renew_expected_expires_at := 2 * minute;
  cmd_renew_expires_at := 3 * minute;
  cmd_renew_now := minute + 1;
|}.

Definition renewed_check := after checking (CmdRenewStepLease renewal).

Lemma lease_renewal_extends_the_claim_witness :
  renewed_check = checking ∨
  ∃ r expiry, step_records checking !! cmd_renew_step_id renewal = Some r ∧
    work renewed_check = (work checking) <| w_records ::= <[cmd_renew_step_id renewal :=
                 record_renew_lease_until r (cmd_renew_expires_at renewal)]> |> ∧
    step_claim_fence renewed_check (cmd_renew_step_id renewal)
      = step_claim_fence checking (cmd_renew_step_id renewal) ∧
    record_effective_lease_expires_at r = Some expiry ∧
    expiry ≤ cmd_renew_expires_at renewal ∧ cmd_renew_now renewal < cmd_renew_expires_at renewal ∧
    ∀ at_, sd_at <$> step_deadlines checking !! cmd_renew_step_id renewal = Some at_ ∨
           std_at <$> state_deadline checking = Some at_ ∨ ceremony_deadline checking = Some at_ →
      cmd_renew_expires_at renewal ≤ at_.
Proof.
  refine (lease_renewal_extends_the_claim demo checking renewal renewed_check _).
  vm_compute. reflexivity.
Defined.

(** The first claim of the demonstration is due after a minute. *)
Definition plan_deadline : StepDeadline :=
  MkStepDeadline "plan" 1 1 1 1 (fence_of planning "plan") "lead" minute.
Definition timed_out := after planning (CmdEnforceCeremonyDeadlines (2 * minute)).

Lemma overdue_claim_is_failed_witness :
  (∃ r', step_records timed_out !! "plan" = Some r' ∧ rec_status r' = Failed ∧
     rec_lease r' = None) ∧
  step_deadlines timed_out !! "plan" = None ∧
  is_Some (retired_deadline_claims timed_out !! sd_claim_fence plan_deadline) ∧
  (∀ c i'', cmd_result_step_id c = "plan" →
     execute timed_out (CmdApplyStepResult c) demo = Ok i'' → work i'' = work timed_out).
Proof.
  refine (overdue_claim_is_failed demo _ planning (2 * minute) timed_out "plan" plan_deadline
    (record_of planning "plan") planning_session _ _ _ _ _ _).
  - vm_compute. reflexivity.
  - vm_compute. reflexivity.
  - vm_compute. discriminate.
  - intros at_ Hat. exfalso. revert Hat. vm_compute. discriminate.
  - vm_compute. reflexivity.
  - vm_compute. reflexivity.
Defined.

Definition due_ceremony := planning <| ceremony_deadline := Some minute |>.
Definition expired_ceremony := after due_ceremony (CmdEnforceCeremonyDeadlines minute).

Lemma passed_deadline_ends_the_session_witness :
  passed_deadline due_ceremony minute = Some minute ∧
  is_ended expired_ceremony = is_some (passed_deadline due_ceremony minute) ∧
  (∀ at_, passed_deadline due_ceremony minute = Some at_ → at_ ≤ minute ∧
    lc_end_reason (lifecycle expired_ceremony) =
      Some (if ceremony_deadline due_ceremony == Some at_ then EndCeremonyDeadline
            else EndStateDeadline)).
Proof.
  split; [vm_compute; reflexivity|].
  refine (passed_deadline_ends_the_session demo due_ceremony minute expired_ceremony _ _);
    vm_compute; reflexivity.
Defined.

Lemma enforcement_settles_witness :
  is_ok (decide planning (CmdEnforceCeremonyDeadlines (2 * minute)) demo) = true ∧
  decide timed_out (CmdEnforceCeremonyDeadlines minute) demo = Ok [].
Proof.
  split; [vm_compute; reflexivity|].
  refine (enforcement_settles demo _ planning (2 * minute) timed_out minute planning_session _ _);
    vm_compute; [reflexivity|discriminate].
Defined.
