(* ===== verification/Conversation.v ===== *)
(** * The table of a session

    Agenda items, the answers they receive and the reasons asserted about
    them: every item keeps an orderly record of who answered and to whom it
    was delivered, only its requester closes it, and no reason of the session
    points at a record that does not exist. *)

From S2P Require Import Prelude Errors Text Values Steps Definitions Interventions Instance.
From S2P Require Import Fold Rules Decide DecideTable DecideLineage Engine Sessions Machine.
From S2P Require Import Invariants Moves Scenario.

Section conversation.
Context {Hsha : Sha256} {Hclk : Clock} {Hser : EvidenceSerde}.
Context (d : CeremonyDefinition).

(** ** One item *)

(** How one agenda item changes. *)
Inductive item_step (x : CeremonyIntervention) : CeremonyIntervention → Prop :=
| item_answered r :
    iv_is_open x = true →
    target_accepts (iv_target x) (resp_role_id r) = true →
    role_allows d (resp_role_id r) ActRespondToIntervention = true →
    resp_role_id r ∉ resp_role_id <$> iv_responses x →
    item_step x (x <| iv_updated_at := resp_responded_at r |> <| iv_responses ::= λ l, l ++ [r] |>)
| item_closed now :
    iv_is_open x = true →
    role_allows d (iv_requested_by x) ActRequestIntervention = true →
    item_step x (x <| iv_status := Closed |> <| iv_updated_at := now |>
                   <| iv_closed_at := Some now |>)
| item_delivered ack :
    target_admits_recipient (iv_target x) (ack_recipient ack) = true →
    delivery_ack x (ack_delivery_id ack) = None →
    item_step x (x <| iv_updated_at := ack_acknowledged_at ack |>
                   <| iv_deliveries ::= λ l, l ++ [ack] |>).

(** An item as its own history could have left it. *)
Record item_ok (x : CeremonyIntervention) : Prop := {
  item_roles : NoDup (resp_role_id <$> iv_responses x);
  item_answers : ∀ r, r ∈ iv_responses x →
    target_accepts (iv_target x) (resp_role_id r) = true ∧
    role_allows d (resp_role_id r) ActRespondToIntervention = true;
  item_deliveries : NoDup (ack_delivery_id <$> iv_deliveries x);
  item_recipients : ∀ a, a ∈ iv_deliveries x →
    target_admits_recipient (iv_target x) (ack_recipient a) = true;
  item_closing : iv_is_open x = negb (is_some (iv_closed_at x));
}.

Lemma item_step_ok x y : item_ok x → item_step x y → item_ok y.
Proof.
  intros [Hroles Hans Hdel Hrec Hcl] Hstep. destruct Hstep; constructor; simpl; try done.
  - rewrite fmap_app. apply NoDup_app. split_and!; [done| |apply NoDup_singleton].
    intros role Hin ->%list_elem_of_singleton. done.
  - intros r' [?| ->%list_elem_of_singleton]%elem_of_app; [by apply Hans|done].
  - rewrite fmap_app. apply NoDup_app. split_and!; [done| |apply NoDup_singleton].
    intros id (a & -> & Ha)%list_elem_of_fmap Heq%list_elem_of_singleton.
    unfold delivery_ack in H0. apply list_elem_of_In, (find_none _ _ H0) in Ha. simpl in Ha.
    by rewrite Heq, eqb_refl in Ha.
  - intros a [?| ->%list_elem_of_singleton]%elem_of_app; [by apply Hrec|done].
Qed.

(** What an item keeps whatever happens to it. *)
Lemma item_step_keeps x y : item_step x y →
  iv_id y = iv_id x ∧ iv_requested_by y = iv_requested_by x ∧ iv_target y = iv_target x ∧
  (length (iv_responses x) ≤ length (iv_responses y))%nat.
Proof using. intros []; split_and!; try done; simpl; rewrite ?length_app; lia. Qed.

Lemma item_step_answers x y : item_step x y →
  iv_responses x `prefix_of` iv_responses y ∧
  (iv_is_open x = false → iv_is_open y = false ∧ iv_responses y = iv_responses x).
Proof using.
  intros []; simpl; (split; [first [done|by eexists]|]); intros Hcl; try congruence; done.
Qed.

Lemma item_step_open x y : item_step x y →
  iv_is_open x = true → role_allows d (iv_requested_by x) ActRequestIntervention = false →
  iv_is_open y = true.
Proof using. intros [] Hopen Hno; try done. congruence. Qed.

(** ** The table *)

Lemma update_intervention_map id f l x :
  List.find (λ x, iv_id x == id) l = Some x →
  ∃ l1 l2, l = l1 ++ x :: l2 ∧ update_intervention id f l = l1 ++ f x :: l2 ∧ iv_id x = id.
Proof using.
  induction l as [|y l IH]; [done|]. simpl. destruct (iv_id y == id) eqn:Hid.
  - intros [= ->]. exists [], l. by apply eqb_true_1 in Hid.
  - intros (l1 & l2 & -> & Hu & Hx)%IH. exists (y :: l1), l2. by rewrite Hu.
Qed.

(** How the table changes: an item is asked, or one item steps. *)
Inductive table_step (l : list CeremonyIntervention) : list CeremonyIntervention → Prop :=
| table_asked x :
    iv_id x ∉ iv_id <$> l → iv_responses x = [] → iv_deliveries x = [] →
    iv_status x = Open → iv_closed_at x = None →
    table_step l (l ++ [x])
| table_item l1 x y l2 :
    l = l1 ++ x :: l2 → item_step x y → table_step l (l1 ++ y :: l2).

Lemma item_table_step i id x y f :
  intervention i id = Some x → item_step x y → f x = y →
  table_step (interventions i) (update_intervention id f (interventions i)).
Proof using.
  intros Hx Hstep <-. destruct (update_intervention_map id f _ _ Hx) as (l1 & l2 & Hl & -> & _).
  by eapply table_item.
Qed.

(** The table after one answer. *)
Lemma answered_table i id x r :
  intervention i id = Some x → ensure_can_respond x (resp_role_id r) = Ok tt →
  role_allows d (resp_role_id r) ActRespondToIntervention = true →
  table_step (interventions i) (interventions (apply_intervention_responded i id r)).
Proof.
  intros Hx Hcan Hrole. pose proof Hcan as Hc. unfold ensure_can_respond in Hc. invert_ok Hc.
  assert (interventions (apply_intervention_responded i id r)
    = update_intervention id (unless_refused (λ y, accept_response y r)) (interventions i)) as ->.
  { unfold apply_intervention_responded. rewrite Hx. simpl.
    destruct (is_ok _); [|done]. unfold record_that_it_answers. by repeat destruct_match. }
  eapply item_table_step; [exact Hx| |].
  - apply (item_answered x r); try done.
    match goal with H : negb (any _ _) = true |- _ => apply negb_true_iff in H; rename H into Hany end.
    rewrite any_false in Hany. intros (r' & Heq & Hin)%list_elem_of_fmap.
    specialize (Hany _ Hin). rewrite Heq, eqb_refl in Hany. done.
  - unfold unless_refused, accept_response. by rewrite Hcan.
Qed.

(** An answer that passed the decision's checks steps the table. *)
Lemma decided_answer_table i id role x r :
  require_role i d role ActRespondToIntervention = Ok tt →
  require_open_intervention i id = Ok x → ensure_can_respond x role = Ok tt →
  resp_role_id r = role →
  table_step (interventions i) (interventions (apply_intervention_responded i id r)).
Proof.
  intros Hrole Hx%ok_or_Ok Hcan <-. unfold require_role in Hrole. invert_ok Hrole.
  by eapply answered_table.
Qed.

Lemma asked_table i c es i' :
  decide_request_intervention i d c = Ok es → apply_all i es = Ok i' →
  table_step (interventions i) (interventions i').
Proof.
  intros Hd Ha. unfold decide_request_intervention in Hd.
  repeat (apply bind_Ok in Hd as (? & ? & Hd)). injection Hd as <-. injection Ha as <-.
  apply table_asked; try done. simpl.
  match goal with H : ensure (negb (is_some (intervention _ _))) _ = Ok _ |- _ =>
    apply ensure_Ok, negb_true_iff in H; rename H into Hfresh end.
  unfold intervention in Hfresh. destruct (List.find _ _) eqn:Hf in Hfresh; [done|].
  intros (y & Heq & Hin)%list_elem_of_fmap.
  apply list_elem_of_In, (find_none _ _ Hf) in Hin. simpl in Hin.
  by rewrite Heq, eqb_refl in Hin.
Qed.

Lemma closed_table i id role now es i' :
  decide_close_intervention i d id role now = Ok es → apply_all i es = Ok i' →
  table_step (interventions i) (interventions i').
Proof.
  intros Hd Ha. unfold decide_close_intervention in Hd.
  apply bind_Ok in Hd as ([] & _ & Hd). apply bind_Ok in Hd as ([] & Hrole & Hd).
  apply bind_Ok in Hd as (x & Hx%ok_or_Ok & Hd). apply bind_Ok in Hd as (y & Hcl & Hd).
  injection Hd as <-. injection Ha as <-.
  eapply item_table_step; [exact Hx| |unfold unless_refused; rewrite Hcl; reflexivity].
  unfold close in Hcl. apply bind_Ok in Hcl as ([] & Hopen%ensure_Ok & Hcl).
  apply bind_Ok in Hcl as ([] & ->%ensure_Ok%eqb_true_1 & Hcl). injection Hcl as <-.
  unfold require_role in Hrole. invert_ok Hrole. by apply item_closed.
Qed.

(** Every accepted command leaves the table as it was or steps it. *)
Lemma table_cases i c es i' :
  decide i c d = Ok es → apply_all i es = Ok i' →
  interventions i' = interventions i ∨ table_step (interventions i) (interventions i').
Proof.
  intros Hd Ha. destruct (table_command c) eqn:Hc.
  2: { left. refine (apply_all_frame interventions table_event i es i' apply_table_frame Ha _).
       eapply decide_any; [exact Hd|]. intros e. by destruct c, e. }
  destruct c; try done; simpl in Hd.
  - right. by eapply asked_table.
  - right. unfold decide_respond_to_intervention in Hd.
    apply bind_Ok in Hd as ([] & _ & Hd). apply bind_Ok in Hd as ([] & Hrole & Hd).
    apply bind_Ok in Hd as (x & Hx & Hd). apply bind_Ok in Hd as ([] & Hcan & Hd).
    apply bind_Ok in Hd as (r & Hr & Hd). injection Hd as <-. injection Ha as <-.
    eapply decided_answer_table; [done..|]. destruct (cmd_respond_executor c); by invert_ok Hr.
  - right. unfold decide_respond_to_intervention_with_evidence in Hd.
    apply bind_Ok in Hd as ([] & _ & Hd). apply bind_Ok in Hd as ([] & Hrole & Hd).
    apply bind_Ok in Hd as (x & Hx & Hd). apply bind_Ok in Hd as ([] & Hcan & Hd).
    apply bind_Ok in Hd as (r & Hr & Hd). injection Hd as <-. injection Ha as <-.
    change (interventions i) with (interventions (i <| updated_at := now |>)).
    eapply (decided_answer_table (i <| updated_at := now |>)); [exact Hrole|exact Hx|done|].
    unfold response_from_evidence in Hr. by invert_ok Hr.
  - unfold decide_acknowledge_intervention_delivery in Hd.
    apply bind_Ok in Hd as ([] & _ & Hd). apply bind_Ok in Hd as (x & Hx%ok_or_Ok & Hd).
    apply bind_Ok in Hd as ([] & Hadm%ensure_Ok & Hd).
    destruct (delivery_ack x (ack_delivery_id ack)) eqn:Hack.
    { invert_ok Hd. left. by injection Ha as <-. }
    right. injection Hd as <-. injection Ha as <-.
    eapply item_table_step; [exact Hx|by apply item_delivered|].
    unfold unless_refused, acknowledge_delivery. by rewrite Hack.
  - right. by eapply closed_table.
Qed.

Lemma execute_table i c i' :
  execute i c d = Ok i' →
  interventions i' = interventions i ∨ table_step (interventions i) (interventions i').
Proof.
  unfold execute. intros Hx. apply bind_Ok in Hx as (es & Hd & Ha). by eapply table_cases.
Qed.

(** Every item of the table is still there, at most one of them stepped. *)
Lemma table_step_item l l' x :
  table_step l l' → x ∈ l → ∃ y, y ∈ l' ∧ (y = x ∨ item_step x y).
Proof using.
  intros [y ? ? ? ? ?|l1 y z l2 -> Hs] Hin; [exists x; set_solver|].
  apply elem_of_app in Hin as [?|[->|?]%elem_of_cons].
  - exists x. set_solver.
  - exists z. set_solver.
  - exists x. set_solver.
Qed.

Definition table_ok (l : list CeremonyIntervention) : Prop :=
  NoDup (iv_id <$> l) ∧ ∀ x, x ∈ l → item_ok x.

Lemma table_step_ok l l' : table_ok l → table_step l l' → table_ok l'.
Proof.
  intros [Hnd Hok] Hs. destruct Hs as [x Hfresh Hr Hdl Hop Hcl|l1 x y l2 -> Hs].
  - split.
    + rewrite fmap_app. apply NoDup_app. split_and!; [done| |apply NoDup_singleton].
      by intros id Hin ->%list_elem_of_singleton.
    + intros y [?| ->%list_elem_of_singleton]%elem_of_app; [by apply Hok|].
      constructor; rewrite ?Hr, ?Hdl; simpl; try apply NoDup_nil_2;
        try (by intros ? ?%elem_of_nil).
      unfold iv_is_open. by rewrite Hop, Hcl.
  - split.
    + destruct (item_step_keeps _ _ Hs) as (Hid & _). by rewrite fmap_app, fmap_cons, Hid,
        <-fmap_cons, <-fmap_app.
    + intros z [?|[->|?]%elem_of_cons]%elem_of_app; [|eapply item_step_ok; [|done]|];
        apply Hok; set_solver.
Qed.

Lemma session_table_ok es i : session d es i → table_ok (interventions i).
Proof.
  induction 1 as [id ctx bound lin account rcl now started i Ho Ha
    |id pub ctx succ plan now es started i Hpub Hs Hh Ha
    |es i command es' i' _ IH _ Hd Ha].
  - rewrite (apply_all_frame interventions table_event _ _ _ apply_table_frame Ha).
    + split; [constructor|by intros ? ?%elem_of_nil].
    + unfold opening_batch. simpl. by destruct (option_keep _ _).
  - unfold decide_start_successor in Hs. apply bind_Ok in Hs as (started' & Ho & Hs).
    injection Hs as <-. rewrite (apply_all_frame interventions table_event _ _ _ apply_table_frame Ha).
    + split; [constructor|by intros ? ?%elem_of_nil].
    + simpl. by destruct (_ =? _)%nat.
  - destruct (table_cases _ _ _ _ Hd Ha) as [->|?]; [done|by eapply table_step_ok].
Qed.

(** The table of every session is orderly.  No two items share an
    identifier; on every item each role answered at most once, was among those
    the item was put to and may answer at all; each delivery was acknowledged
    once, by a recipient the item was put to; an item is closed exactly when
    it has a closing time. *)
Theorem table_is_orderly es i :
  session d es i →
  NoDup (iv_id <$> interventions i) ∧ ∀ x, x ∈ interventions i → item_ok x.
Proof. exact (session_table_ok es i). Qed.

(** Answers are append-only.  Whatever command a session accepts, every
    item stays on its table with its requester and its target, keeps the
    answers it had in their order, and once closed gains no other. *)
Theorem answers_are_append_only i c i' x :
  execute i c d = Ok i' → x ∈ interventions i →
  ∃ y, y ∈ interventions i' ∧ iv_id y = iv_id x ∧ iv_requested_by y = iv_requested_by x ∧
    iv_target y = iv_target x ∧ iv_responses x `prefix_of` iv_responses y ∧
    (iv_is_open x = false → iv_is_open y = false ∧ iv_responses y = iv_responses x).
Proof.
  intros [->|Hs]%execute_table Hin; [exists x; by split_and!|].
  destruct (table_step_item _ _ _ Hs Hin) as (y & Hy & [->|Hstep]);
    [exists x; by split_and!|exists y].
  destruct (item_step_keeps _ _ Hstep) as (? & ? & ? & _).
  destruct (item_step_answers _ _ Hstep). by split_and!.
Qed.

(** ** An item nobody can close *)

(** An open item whose requester does not hold the capability to ask. *)
Definition unclosable (i : CeremonyInstance) (id : string) : Prop :=
  ∃ x, x ∈ interventions i ∧ iv_id x = id ∧ iv_is_open x = true ∧
       role_allows d (iv_requested_by x) ActRequestIntervention = false.

Lemma unclosable_step i c i' id :
  unclosable i id → is_terminal_state d (current_state i) = false → execute i c d = Ok i' →
  unclosable i' id ∧ is_terminal_state d (current_state i') = false.
Proof.
  intros (x & Hin & Hid & Hopen & Hno) Hterm Hx. split.
  - unfold unclosable. pose proof (execute_table _ _ _ Hx) as [->|Hs]; [by exists x|].
    destruct (table_step_item _ _ _ Hs Hin) as (y & Hy & [->|Hstep]); [by exists x|].
    destruct (item_step_keeps _ _ Hstep) as (Hid' & Hreq & _). exists y.
    pose proof (item_step_open _ _ Hstep Hopen Hno). by rewrite Hid', Hreq.
  - unfold execute in Hx. apply bind_Ok in Hx as (es & Hd & Ha).
    destruct (base.decide (is_Some (match c with CmdApplyTransition t => Some t | _ => None end)))
      as [[t Ht]|Hnot].
    + destruct c; simplify_eq/=. apply move_cases in Hd as (t' & e & v & [] & ->).
      destruct moved_record as (_ & Hto & _).
      assert (is_terminal_state d (tr_to t') = false) as Hnt.
      { unfold transition_is_enabled_at, transition_is_enabled, transition_requirements_are_satisfied,
          require_interventions_resolved_before_entering in moved_enabled.
        rewrite !andb_true_iff in moved_enabled. destruct moved_enabled as (_ & _ & _ & Hok).
        destruct (is_terminal_state d (tr_to t')); [|done]. exfalso.
        assert (any iv_is_open (interventions i) = true) as Hany.
        { apply existsb_exists. exists x. split; [by apply list_elem_of_In|done]. }
        by rewrite Hany in Hok. }
      rewrite Hnt in Ha. injection Ha as <-. simpl. by rewrite Hto.
    + rewrite (apply_all_frame current_state move_event i es i' apply_state_frame Ha); [done|].
      eapply decide_any; [exact Hd|]. intros e. destruct c, e; try done. by destruct Hnot.
Qed.

(** An open item whose requester does not hold the capability to request
    interventions stays open through every later command, and keeps the
    session out of every terminal state.  Such an item is what a supervisor
    outside the table asks: its derived seat is declared by no definition. *)
Theorem unclosable_item_blocks_completion i commands i' x :
  is_terminal_state d (current_state i) = false →
  x ∈ interventions i → iv_is_open x = true →
  role_allows d (iv_requested_by x) ActRequestIntervention = false →
  execute_all i commands d = Ok i' →
  is_terminal i' d = false ∧
  ∃ y, y ∈ interventions i' ∧ iv_id y = iv_id x ∧ iv_is_open y = true.
Proof.
  intros Hterm Hin Hopen Hno Hx.
  assert (unclosable i (iv_id x)) as Hun by (by exists x).
  clear Hin. revert i Hterm Hun Hx. induction commands as [|c cs IH]; intros i Hterm Hun Hx.
  - injection Hx as <-. split; [unfold is_terminal; by rewrite Hterm, andb_false_r|].
    destruct Hun as (y & ? & ? & ? & _). eauto.
  - simpl in Hx. apply bind_Ok in Hx as (j & Hj & Hx).
    destruct (unclosable_step _ _ _ _ Hun Hterm Hj). by apply (IH j).
Qed.
End conversation.

(** ** The properties on the demonstration ceremony *)

Definition ask_cmd (id : string) (role : RoleId) (supervisor : option SupervisorPrincipal)
    (now : Instant) : CeremonyCommand :=
  CmdRequestIntervention (MkRequestIntervention id role Opinion TargetTable
    (MkCeremonyInterventionContent "is the plan sound" ∅) None None None supervisor now).

Definition answer_cmd (id : string) (role : RoleId) (now : Instant) : CeremonyCommand :=
  CmdRespondToIntervention (MkRespondToIntervention id role
    (MkCeremonyInterventionContent "it is" ∅) None None now).

Definition asked := after planning (ask_cmd "item-1" "lead" None 1).
Definition answered := after asked (answer_cmd "item-1" "peer" 2).
Definition closed_item := after answered (CmdCloseIntervention "item-1" "lead" 3).

Definition answered_stream : list CeremonyEvent :=
  demo_opening ++ events_of demo_start (claim_cmd "plan" "key-1" 0)
    ++ events_of planning (ask_cmd "item-1" "lead" None 1)
    ++ events_of asked (answer_cmd "item-1" "peer" 2).

Lemma answered_session : session demo answered_stream answered.
Proof.
  unfold answered_stream. rewrite !app_assoc.
  do 2 (apply session_after; [|vm_compute; reflexivity]). apply planning_session.
Qed.

Definition item_of (i : CeremonyInstance) : CeremonyIntervention :=
  default (open_with_provenance "" Opinion "" TargetTable (MkCeremonyInterventionContent "" ∅) None 0)
    (head (interventions i)).

Lemma table_is_orderly_witness :
  iv_responses (item_of answered) ≠ [] ∧
  NoDup (iv_id <$> interventions answered) ∧
  ∀ x, x ∈ interventions answered → item_ok demo x.
Proof.
  split; [vm_compute; discriminate|].
  exact (table_is_orderly demo answered_stream answered answered_session).
Defined.

Lemma elem_of_item (x : CeremonyIntervention) l : head l = Some x → x ∈ l.
Proof. destruct l; [done|]. intros [= <-]. by left. Qed.

Lemma answers_are_append_only_witness :
  ∃ y, y ∈ interventions answered ∧ iv_id y = iv_id (item_of asked) ∧
    iv_requested_by y = iv_requested_by (item_of asked) ∧
    iv_target y = iv_target (item_of asked) ∧
    iv_responses (item_of asked) `prefix_of` iv_responses y ∧
    (iv_is_open (item_of asked) = false →
       iv_is_open y = false ∧ iv_responses y = iv_responses (item_of asked)).
Proof.
  refine (answers_are_append_only demo asked (answer_cmd "item-1" "peer" 2) answered
    (item_of asked) _ _).
  - vm_compute. reflexivity.
  - apply elem_of_item. vm_compute. reflexivity.
Defined.

(** A supervisor outside the table asks under the seat derived from its
    principal; closing the item under that seat is refused. *)
Definition overseer : SupervisorPrincipal := MkSupervisorPrincipal "ops" "Release manager".
Definition supervised := after planning (ask_cmd "item-1" "supervisor:ops" (Some overseer) 1).
Definition supervised_later :=
  after supervised (finish_cmd supervised "plan" 2).

Lemma unclosable_item_blocks_completion_witness :
  is_ok (decide supervised (CmdCloseIntervention "item-1" "supervisor:ops" 2) demo) = false ∧
  is_terminal supervised_later demo = false ∧
  ∃ y, y ∈ interventions supervised_later ∧ iv_id y = iv_id (item_of supervised) ∧
       iv_is_open y = true.
Proof.
  split; [vm_compute; reflexivity|].
  refine (unclosable_item_blocks_completion demo supervised [finish_cmd supervised "plan" 2]
    supervised_later (item_of supervised) _ _ _ _ _); try (vm_compute; reflexivity).
  apply elem_of_item. vm_compute. reflexivity.
Defined.
