(* ===== verification/Reasons.v ===== *)
(** * The reasons of a session

    A reason links two records of the session that holds it.  Records are
    never withdrawn, so a reason that named two records when it was asserted
    names two records for as long as the session lives; the reasons the engine
    records by itself do too. *)

From S2P Require Import Prelude Errors Text Values Steps Definitions Interventions Instance.
From S2P Require Import Fold Rules Decide DecideTable DecideLineage Engine Sessions Machine.
From S2P Require Import Scenario Conversation.

(** ** Records are never withdrawn *)

Lemma w_apply_records w e id :
  is_import e = false → is_Some (w_records w !! id) → is_Some (w_records (w_apply w e) !! id).
Proof.
  intros He Hs. destruct e; try done; simpl.
  - rewrite lookup_insert_is_Some'. by right.
  - destruct (w_records w !! slr_step_id e); [|done]. simpl. rewrite lookup_insert_is_Some'. by right.
  - destruct (sc_next_iteration e); simpl; rewrite lookup_insert_is_Some'; by right.
  - rewrite lookup_insert_is_Some'. by right.
  - rewrite w_reopen_all_records. by case_bool_decide.
  - destruct (ta_destination e) as [entry|]; [|done]. simpl. rewrite w_enter_all_records.
    by case_bool_decide.
  - destruct (w_records w !! sd_step_id _); [|done]. simpl. rewrite lookup_insert_is_Some'. by right.
  - generalize (w_pass w), (w_visit w). intros pass visit. revert w Hs.
    induction carried as [|x l IH]; intros w Hs; [done|]. simpl. apply IH; [done|].
    destruct (is_some (w_records w !! carried_successor_step_id x)); simpl; [|done]. rewrite lookup_insert_is_Some'. by right.
Qed.

Lemma w_apply_moves w e :
  is_import e = false → w_moves w `prefix_of` w_moves (w_apply w e).
Proof.
  intros He. destruct e; try done; simpl.
  - by destruct (w_records w !! _).
  - by destruct (sc_next_iteration e).
  - pose proof (w_reopen_all_frame (sis_state_iteration e) (default StateVisit_FIRST (sis_state_visit e))
      (w <| w_pass := sis_state_iteration e |>) (sis_step_ids e)) as Hf.
    injection Hf as _ _ _ Hm _ _. by rewrite Hm.
  - destruct (ta_destination e) as [entry|]; simpl; [|by eexists].
    pose proof (w_enter_all_frame (sve_state_visit entry)
      (w <| w_visit := sve_state_visit entry |>) (sve_step_ids entry)) as Hf.
    injection Hf as _ _ _ Hm _ _. rewrite Hm. by eexists.
  - by destruct (w_records w !! _).
  - generalize (w_pass w), (w_visit w). intros pass visit. clear He.
    assert (∀ w', w_moves w `prefix_of` w_moves w' → w_moves w `prefix_of` w_moves (foldl
      (λ w' evidence, if negb (is_some (w_records w' !! carried_successor_step_id evidence)) then w'
        else w' <| w_records ::= <[carried_successor_step_id evidence := record_carried
          (carried_output evidence) (carried_source evidence) pass visit]> |>) w' carried)) as Hl;
      [|by apply Hl].
    induction carried as [|x l IH]; intros w' Hw; [done|]. simpl. apply IH.
    by destruct (is_some (w_records w' !! carried_successor_step_id x)).
Qed.

(** The guard decisions a session keeps. *)
Definition guard_decisions (i : CeremonyInstance) := (guard_approvals i, guard_deferrals i).

Lemma apply_decisions i e i' :
  apply i e = Ok i' → is_import e = false →
  guard_approvals i `prefix_of` guard_approvals i' ∧
  guard_deferrals i `prefix_of` guard_deferrals i'.
Proof.
  intros He Hi.
  destruct (apply_ok_cases _ _ _ He) as [(w & p & -> & _ & ->)|Hw]; [done|].
  assert (guard_decisions i' = guard_decisions i ∨
    (∃ a, e = EvHumanApprovalRecorded a) ∨ (∃ x, e = EvHumanDeferralRecorded x))
    as [Heq|[[a ->]|[x ->]]].
  { destruct e; try done; try (by destruct (Hw e)); eauto;
      left; injection He as <-; clear Hw Hi; frame_event. }
  - injection Heq as -> ->. done.
  - injection He as <-. simpl. unfold apply_human_approval_recorded.
    destruct (with_guard_approval _ _); simpl; (split; [by eexists|done]).
  - injection He as <-. simpl. split; [done|by eexists].
Qed.

(** An item found on the table is found again, with at least its answers. *)
Lemma find_update_intervention id id' f l x :
  (∀ x, iv_id (f x) = iv_id x ∧ (length (iv_responses x) ≤ length (iv_responses (f x)))%nat) →
  List.find (λ x, iv_id x == id) l = Some x →
  ∃ y, List.find (λ x, iv_id x == id) (update_intervention id' f l) = Some y ∧
       (length (iv_responses x) ≤ length (iv_responses y))%nat.
Proof.
  intros Hf. induction l as [|z l IH]; [done|]. simpl. destruct (Hf z) as [Hid Hlen].
  destruct (iv_id z == id) eqn:Hz; destruct (iv_id z == id') eqn:Hz'; simpl;
    rewrite ?Hid, ?Hz; [intros [= <-]..| |]; eauto.
Qed.

Lemma unless_refused_keeps g :
  (∀ x y, g x = Ok y → iv_id y = iv_id x ∧ (length (iv_responses x) ≤ length (iv_responses y))%nat) →
  ∀ x, iv_id (unless_refused g x) = iv_id x ∧
       (length (iv_responses x) ≤ length (iv_responses (unless_refused g x)))%nat.
Proof. intros Hg x. unfold unless_refused. destruct (g x) eqn:Hx; [by apply Hg|done..]. Qed.

Lemma accept_response_keeps r x y :
  accept_response x r = Ok y →
  iv_id y = iv_id x ∧ (length (iv_responses x) ≤ length (iv_responses y))%nat.
Proof. unfold accept_response. intros H. invert_ok H. simpl. rewrite length_app. split; [done|lia]. Qed.

Lemma find_snoc {A} (f : A → bool) l z x :
  List.find f l = Some x → List.find f (l ++ [z]) = Some x.
Proof. induction l as [|y l IH]; [done|]. simpl. by destruct (f y). Qed.

Lemma apply_item i e i' id x :
  apply i e = Ok i' → is_import e = false → intervention i id = Some x →
  ∃ y, intervention i' id = Some y ∧ (length (iv_responses x) ≤ length (iv_responses y))%nat.
Proof.
  intros He Hi Hx. destruct (table_event e) eqn:Ht.
  2: { exists x. unfold intervention. rewrite (apply_table_frame _ _ _ He Ht). done. }
  unfold intervention in *. destruct e; try done; injection He as <-.
  - simpl. exists x. by rewrite (find_snoc _ _ _ _ Hx).
  - destruct (intervention i intervention_id) eqn:Hq.
    2: { unfold apply_intervention_responded. rewrite Hq. eauto. }
    assert (interventions (apply_intervention_responded i intervention_id response)
      = update_intervention intervention_id (unless_refused (λ y, accept_response y response))
          (interventions i)) as ->.
    { unfold apply_intervention_responded. rewrite Hq. simpl. destruct (is_ok _); [|done].
      unfold record_that_it_answers. by repeat destruct_match. }
    apply find_update_intervention; [|done]. apply unless_refused_keeps.
    apply accept_response_keeps.
  - simpl. apply find_update_intervention; [|done]. apply unless_refused_keeps. intros z y Hz.
    unfold close in Hz. by invert_ok Hz.
  - simpl. apply find_update_intervention; [|done]. apply unless_refused_keeps. intros z y Hz.
    unfold acknowledge_delivery in Hz. repeat destruct_match; by simplify_eq.
Qed.

Lemma apply_record_exists i e i' r :
  apply i e = Ok i' → is_import e = false → record_exists i r = true → record_exists i' r = true.
Proof.
  intros He Hi. pose proof (apply_work _ _ _ He) as Hw.
  destruct r as [id|item|item n|name|n]; simpl; intros Hr.
  - assert (is_Some (w_records (w_apply (work i) e) !! id)) as [r' Hr'].
    { apply w_apply_records; [done|]. simpl. destruct (step_records i !! id); [by eexists|done]. }
    rewrite <-Hw in Hr'. simpl in Hr'. by rewrite Hr'.
  - destruct (intervention i item) as [x|] eqn:Hx; [|done].
    by destruct (apply_item _ _ _ _ _ He Hi Hx) as (y & -> & _).
  - destruct (intervention i item) as [x|] eqn:Hx; [|done]. simpl in Hr.
    destruct (apply_item _ _ _ _ _ He Hi Hx) as (y & -> & Hle). simpl. lia.
  - destruct (apply_decisions _ _ _ He Hi) as [[l1 ->] [l2 ->]].
    unfold any in *. rewrite !existsb_app. apply orb_true_iff in Hr as [-> | ->]; simpl;
      rewrite ?orb_true_r; done.
  - pose proof (w_apply_moves (work i) e Hi) as [l Hl]. rewrite <-Hw in Hl. simpl in Hl.
    rewrite Hl, length_app, Nat2Z.inj_add. apply andb_true_iff in Hr as [Hr1 Hr2].
    apply andb_true_iff. split; [done|]. apply Z.leb_le in Hr2. apply Z.leb_le.
    etrans; [exact Hr2|]. pose proof (Nat2Z.is_nonneg (length l)). lia.
Qed.

(** ** Reasons *)

Definition reason_grounded (i : CeremonyInstance) (reason : CeremonyReason) : Prop :=
  record_exists i (reason_from reason) = true ∧ record_exists i (reason_to reason) = true.

Definition reasons_grounded (i : CeremonyInstance) : Prop :=
  ∀ reason, reason ∈ reasons i → reason_grounded i reason.

(** Only an assertion and an answer add a reason. *)
Lemma apply_reasons_frame i e i' :
  apply i e = Ok i' →
  match e with EvReasonAsserted _ | EvInterventionResponded _ _ | EvInstanceImported _ => true
  | _ => false end = false →
  reasons i' = reasons i.
Proof.
  intros He Hi. destruct (apply_ok_cases _ _ _ He) as [(w & p & -> & _ & ->)|Hw]; [done|].
  destruct e; try done; try (by destruct (Hw e)); injection He as <-; clear Hw Hi; frame_event.
Qed.

(** The reason the engine records for an answer names two records. *)
Lemma answer_grounded i item now reason :
  reason ∈ reasons (record_that_it_answers i item now) →
  reason ∈ reasons i ∨ reason_grounded (record_that_it_answers i item now) reason.
Proof.
  unfold record_that_it_answers. destruct (intervention i item) as [x|] eqn:Hx; [|by left].
  destruct ((Z.of_nat (length (iv_responses x)) =? 0) || _) eqn:Hz; [by left|].
  destruct (CeremonyReason_new _ _ _ _ _ _ _) as [r| |] eqn:Hr; [|by left..].
  simpl. intros [?| ->%list_elem_of_singleton]%elem_of_app; [by left|]. right.
  unfold CeremonyReason_new in Hr. invert_ok Hr. unfold reason_grounded. simpl.
  unfold intervention in *. simpl. rewrite Hx. simpl. split; [|done].
  apply orb_false_iff in Hz as [Hz _]. lia.
Qed.

Lemma apply_grounded i e i' :
  apply i e = Ok i' → is_import e = false → reasons_grounded i →
  (∀ reason, e = EvReasonAsserted reason → reason_grounded i reason) → reasons_grounded i'.
Proof.
  intros He Hi Hok Hnew reason Hin.
  assert (∀ r, reason_grounded i r → reason_grounded i' r) as Hmono.
  { intros r [Hf Ht]. split; by eapply apply_record_exists. }
  destruct (match e with EvReasonAsserted _ | EvInterventionResponded _ _ | EvInstanceImported _ => true
    | _ => false end) eqn:Hk.
  2: { rewrite (apply_reasons_frame _ _ _ He Hk) in Hin. by apply Hmono, Hok. }
  destruct e; try done; injection He as <-.
  - unfold apply_intervention_responded in Hin, Hmono |- *.
    destruct (intervention i intervention_id) as [x|] eqn:Hx; [|by apply Hok].
    simpl in Hin. destruct (is_ok _); [|by apply Hmono, Hok].
    apply answer_grounded in Hin as [Hin|Hg]; [|exact Hg]. apply Hmono. by apply Hok.
  - apply Hmono. simpl in Hin. apply elem_of_app in Hin as [?| ->%list_elem_of_singleton];
      [by apply Hok|by apply Hnew].
Qed.

Section grounded.
Context {Hsha : Sha256} {Hclk : Clock} {Hser : EvidenceSerde}.
Context (d : CeremonyDefinition).

Definition asserts (e : CeremonyEvent) : bool :=
  match e with EvReasonAsserted _ => true | _ => false end.

Lemma apply_all_grounded i es i' :
  apply_all i es = Ok i' → any is_import es = false → any asserts es = false →
  reasons_grounded i → reasons_grounded i'.
Proof using.
  revert i. induction es as [|e es IH]; intros i Ha Hi Hn Hg; simpl in *; [by simplify_eq|].
  apply bind_Ok in Ha as (j & Hj & Ha). apply orb_false_iff in Hi as [Hi Hi'], Hn as [Hn Hn'].
  apply (IH j Ha Hi' Hn'). eapply apply_grounded; [exact Hj|done|done|].
  intros reason ->. done.
Qed.

Lemma decide_grounded i c es i' :
  reasons_grounded i → decide i c d = Ok es → apply_all i es = Ok i' → reasons_grounded i'.
Proof.
  intros Hg Hd Ha. pose proof (decide_no_import _ _ _ _ Hd) as Hi.
  destruct c as [| | | | | | | | | | | | |reason| | | | | | | | |];
    try (eapply apply_all_grounded; [exact Ha|done| |done];
         eapply decide_any; [exact Hd|by intros []]).
  simpl in Hd. unfold decide_assert_reason, require_record in Hd.
  apply bind_Ok in Hd as (role & _ & Hd). apply bind_Ok in Hd as ([] & _ & Hd).
  apply bind_Ok in Hd as ([] & Hf%ensure_Ok & Hd). apply bind_Ok in Hd as ([] & Ht%ensure_Ok & Hd).
  apply bind_Ok in Hd as ([] & _ & Hd). injection Hd as <-. simpl in Ha.
  apply (apply_grounded i (EvReasonAsserted reason)); [exact Ha|done|done|].
  by intros r [= <-].
Qed.

(** No reason of a session dangles: every reason it holds, asserted by a
    seat or recorded by the engine, links two records the session has. *)
Theorem reasons_never_dangle es i reason :
  session d es i → reason ∈ reasons i →
  record_exists i (reason_from reason) = true ∧ record_exists i (reason_to reason) = true.
Proof.
  intros Hs Hin. assert (reasons_grounded i) as Hg; [|by apply Hg]. clear Hin.
  induction Hs as [id ctx bound lin account rcl now started i Ho Ha
    |id pub ctx succ plan now es started i Hpub Hs Hh Ha
    |es i command es' i' _ IH _ Hd Ha]; [| |by eapply decide_grounded].
  - eapply apply_all_grounded; [exact Ha|..].
    1,2: unfold opening_batch; simpl; by destruct (option_keep _ _).
    by intros ? ?%elem_of_nil.
  - unfold decide_start_successor in Hs. apply bind_Ok in Hs as (started' & _ & Hs).
    injection Hs as <-. eapply apply_all_grounded; [exact Ha|..].
    1,2: simpl; by destruct (_ =? _)%nat.
    by intros ? ?%elem_of_nil.
Qed.
End grounded.

(** ** The property on the demonstration ceremony *)

(** The reason the engine recorded for the answer of the demonstration. *)
Definition answer_reason : CeremonyReason :=
  MkCeremonyReason (RefContribution "item-1" 0) (RefAgendaItem "item-1") Answers
    "a contribution made against this agenda item" ConfidenceHigh None 2.

Lemma reasons_never_dangle_witness :
  record_exists answered (reason_from answer_reason) = true ∧
  record_exists answered (reason_to answer_reason) = true.
Proof.
  refine (reasons_never_dangle demo answered_stream answered answer_reason answered_session _).
  assert (reasons answered = [answer_reason]) as -> by (vm_compute; reflexivity). by left.
Defined.
