(* ===== verification/Retries.v ===== *)
(** * Delivering a command twice

    Hosts retry.  The commands that name what they do with an identity of
    their own (a handoff, a renewal request, a receipt, a child plan, a
    completion, an acknowledgement, a successor plan) and the lifecycle
    commands are absorbed when they are delivered again. *)

From S2P Require Import Prelude Errors Text Values Steps Definitions Interventions Instance.
From S2P Require Import Fold Rules Decide DecideTable DecideLineage Engine Sessions Machine.
From S2P Require Import Scenario.

(** The commands a host may deliver again. *)
Definition retryable (c : CeremonyCommand) : bool :=
  match c with
  | CmdRecordHostHandoff _ _ | CmdApplyExecutionReceiptResult _
  | CmdAcknowledgeInterventionDelivery _ _ _ | CmdPlanCeremonyChildren _ _ | CmdPlanSuccessor _
  | CmdAdoptChildSpawnPlan _ _ _ | CmdAcceptChildCompletion _ _ | CmdPauseCeremony _ _
  | CmdResumeCeremony _ | CmdCancelCeremony _ _ => true
  | CmdRenewStepLease c => is_some (cmd_renew_request c)
  | _ => false
  end.

(** Receipts are written by their own event only. *)
Definition receipts (i : CeremonyInstance) :=
  (execution_receipt_links i, execution_receipt_adoptions i).

Lemma apply_receipts_frame i e i' :
  apply i e = Ok i' →
  match e with EvExecutionReceiptLinked _ _ _ | EvInstanceImported _ => true | _ => false end = false →
  receipts i' = receipts i.
Proof.
  intros He Hi. destruct (apply_ok_cases _ _ _ He) as [(w & p & -> & _ & ->)|Hw]; [done|].
  destruct e; try done; try (by destruct (Hw e)); injection He as <-; clear Hw Hi; frame_event.
Qed.

(** An updated item is found under its identifier. *)
Lemma find_update id f l x :
  List.find (λ x, iv_id x == id) l = Some x → (∀ x, iv_id (f x) = iv_id x) →
  iv_id x = id ∧ List.find (λ x, iv_id x == id) (update_intervention id f l) = Some (f x).
Proof.
  intros Hx Hf. induction l as [|y l IH]; [done|]. simpl in *. destruct (iv_id y == id) eqn:Hy.
  - injection Hx as <-. simpl. rewrite Hf, Hy. by apply eqb_true_1 in Hy.
  - simpl. rewrite Hy. by apply IH.
Qed.

Section retries.
Context {Hsha : Sha256} {Hclk : Clock} {Hser : EvidenceSerde}.
Context (d : CeremonyDefinition).

(** What an accepted receipt was checked against. *)
Lemma receipt_new_cases i c es :
  decide_apply_execution_receipt_result i d c = Ok es → es ≠ [] →
  let link := cmd_receipt_link c in
  let original := execution_receipt_links i !! link_operation_id link in
  link_validate link = Ok tt ∧ link_applied_claim_fence link = cmd_receipt_claim_fence c ∧
  original ≠ Some link ∧
  (link_kind link = LinkDirect → original = None) ∧
  (link_kind link = LinkAdopted →
     execution_receipt_adoption i (link_operation_id link) (link_applied_claim_fence link) = None) ∧
  ∃ es', es = EvExecutionReceiptLinked (cmd_receipt_step_id c) link (cmd_receipt_now c) :: es' ∧
    decide_apply_step_result i d
      (MkApplyStepResult (cmd_receipt_step_id c) (cmd_receipt_claim_fence c)
         (cmd_receipt_result c) (cmd_receipt_now c)) = Ok es'.
Proof.
  unfold decide_apply_execution_receipt_result. intros Hd Hne.
  apply bind_Ok in Hd as ([] & Hval & Hd).
  apply bind_Ok in Hd as ([] & Hfence%ensure_Ok%eqb_true_1 & Hd).
  destruct (_ == Some _) eqn:Hsame in Hd; [by simplify_eq|]. apply eqb_false in Hsame.
  apply bind_Ok in Hd as ([] & Hdir%ensure_Ok%negb_true_iff & Hd).
  apply bind_Ok in Hd as (replayed & Hrep & Hd). destruct replayed; [by simplify_eq|].
  apply bind_Ok in Hd as (record & _ & Hd). apply bind_Ok in Hd as ([] & _ & Hd).
  apply bind_Ok in Hd as (es' & Hres & Hd). injection Hd as <-. simpl.
  split_and!; [done|done|done| | |eauto].
  - intros Hk. rewrite Hk, eqb_refl in Hdir. simpl in Hdir.
    by destruct (execution_receipt_links i !! _).
  - intros Hk. rewrite Hk, eqb_refl in Hrep. unfold check_adoption in Hrep.
    destruct (execution_receipt_adoption i _ _) as [stored|]; [|done]. by invert_ok Hrep.
Qed.

Lemma receipt_retried i c es i' :
  decide_apply_execution_receipt_result i d c = Ok es → apply_all i es = Ok i' →
  decide_apply_execution_receipt_result i' d c = Ok [].
Proof.
  intros Hd Ha. destruct (base.decide (length es = 0%nat)) as [Hz|Hnz].
  { destruct es; [|done]. by injection Ha as <-. }
  destruct (receipt_new_cases _ _ _ Hd) as (Hval & Hfence & Hsame & Hdir & Had & es' & -> & Hres);
    [by intros -> |].
  simpl in Ha. set (link := cmd_receipt_link c) in *.
  assert (receipts i' = receipts (apply_execution_receipt_linked i link (cmd_receipt_now c)))
    as [= Hlinks Hadopt].
  { refine (apply_all_frame receipts _ _ _ _ apply_receipts_frame Ha _).
    eapply (decide_any _ (CmdApplyStepResult _)); [exact Hres|by intros []]. }
  unfold decide_apply_execution_receipt_result. fold link. rewrite Hval, Hfence, eqb_refl, Hlinks.
  simpl. unfold apply_execution_receipt_linked in *.
  destruct (execution_receipt_links i !! link_operation_id link) as [original|] eqn:Ho.
  - assert (link_kind link = LinkAdopted) as Hk.
    { destruct (link_kind link); [|done]. by specialize (Hdir eq_refl). }
    rewrite Hk in *. simpl in *. rewrite Ho.
    assert (Some original == Some link = false) as -> by (by apply eqb_false). simpl.
    unfold check_adoption, execution_receipt_adoption. rewrite Hadopt, lookup_insert_eq. simpl.
    specialize (Had eq_refl). unfold execution_receipt_adoption in Had. rewrite Hfence in *.
    destruct (execution_receipt_adoptions i !! link_operation_id link) as [a|]; simpl in *.
    + rewrite Had, lookup_insert_eq, eqb_refl. done.
    + rewrite lookup_empty, lookup_insert_eq, eqb_refl. done.
  - simpl in *. rewrite lookup_insert_eq, eqb_refl. done.
Qed.

(** An acknowledged delivery is found again. *)
Lemma acknowledgement_found x ack :
  delivery_ack x (ack_delivery_id ack) = None →
  delivery_ack (unless_refused (λ x, acknowledge_delivery x ack) x) (ack_delivery_id ack) = Some ack.
Proof using.
  intros Hnone. unfold unless_refused, acknowledge_delivery. rewrite Hnone.
  unfold delivery_ack in *. simpl. revert Hnone. generalize (iv_deliveries x). intros l.
  induction l as [|a l IH]; simpl; [by rewrite eqb_refl|]. by destruct (_ == _).
Qed.

Lemma acknowledgement_retried i id ack now es i' :
  decide i (CmdAcknowledgeInterventionDelivery id ack now) d = Ok es → apply_all i es = Ok i' →
  decide i' (CmdAcknowledgeInterventionDelivery id ack now) d = Ok [].
Proof.
  simpl. intros Hd Ha. pose proof Hd as Hd0.
  unfold decide_acknowledge_intervention_delivery in Hd.
  apply bind_Ok in Hd as ([] & Hact & Hd). apply bind_Ok in Hd as (x & Hx%ok_or_Ok & Hd).
  apply bind_Ok in Hd as ([] & Hadm & Hd).
  destruct (delivery_ack x (ack_delivery_id ack)) eqn:Hack.
  { invert_ok Hd. by injection Ha as <-. }
  injection Hd as <-. injection Ha as <-.
  unfold decide_acknowledge_intervention_delivery.
  assert (require_active (apply_intervention_delivery_acknowledged i id ack) d
    "terminal ceremony instances cannot record intervention deliveries" = Ok tt) as -> by exact Hact.
  simpl. set (f := unless_refused (λ x, acknowledge_delivery x ack)).
  assert (intervention (apply_intervention_delivery_acknowledged i id ack) id = Some (f x)) as Hfx.
  { unfold intervention in *. simpl. destruct (find_update id f _ _ Hx) as [? Hu]; [|exact Hu].
    intros z. unfold f, unless_refused, acknowledge_delivery.
    destruct (delivery_ack z _) as [e|]; [destruct (ack_agrees_with e ack)|]; done. }
  unfold require_open_intervention. rewrite Hfx. simpl.
  assert (iv_target (f x) = iv_target x) as ->.
  { unfold f, unless_refused, acknowledge_delivery. by rewrite Hack. }
  rewrite Hadm. simpl. unfold f. rewrite acknowledgement_found by done.
  unfold ack_agrees_with. by rewrite !eqb_refl.
Qed.

Lemma lifecycle_retried i c es i' :
  match c with CmdPauseCeremony _ _ | CmdResumeCeremony _ | CmdCancelCeremony _ _ => true
  | _ => false end = true →
  decide i c d = Ok es → apply_all i es = Ok i' → decide i' c d = Ok [].
Proof.
  intros Hc Hd Ha. destruct (base.decide (length es = 0%nat)) as [Hz|Hnz].
  { destruct es; [|done]. by injection Ha as <-. }
  destruct c; try done; simpl in Hd |- *; pose proof Hd as Hd0.
  - unfold decide_pause, require_definition in *. invert_ok Hd. injection Ha as <-.
    unfold is_ended, lifecycle, matches_definition in *. simpl.
    by destruct (completed_at i); rewrite H.
  - unfold decide_resume, require_definition in *. invert_ok Hd. injection Ha as <-.
    unfold is_ended, lifecycle, is_superseded, matches_definition in *. simpl.
    by destruct (completed_at i), (successor_plan i); rewrite H.
  - unfold decide_cancel, require_definition in *. invert_ok Hd. injection Ha as <-.
    unfold matches_definition in *. simpl. by rewrite H.
Qed.

Lemma children_retried i c es i' :
  match c with CmdPlanCeremonyChildren _ _ | CmdAdoptChildSpawnPlan _ _ _
  | CmdAcceptChildCompletion _ _ => true | _ => false end = true →
  decide i c d = Ok es → apply_all i es = Ok i' → decide i' c d = Ok [].
Proof.
  intros Hc Hd Ha. destruct (base.decide (length es = 0%nat)) as [Hz|Hnz].
  { destruct es; [|done]. by injection Ha as <-. }
  destruct c; try done; simpl in Hd |- *.
  - unfold decide_plan_children in *. apply bind_Ok in Hd as ([] & Hdef & Hd).
    destruct (child_groups i !! plan_group_id plan) eqn:Hg; [by invert_ok Hd|].
    unfold decide_new_child_plan in Hd. repeat (apply bind_Ok in Hd as (? & _ & Hd)).
    injection Hd as <-. injection Ha as <-.
    assert (require_definition (apply_child_spawn_planned i plan now) d = Ok tt) as ->.
    { unfold apply_child_spawn_planned. by rewrite Hg. }
    unfold apply_child_spawn_planned. rewrite Hg. simpl. rewrite lookup_insert_eq. simpl.
    by rewrite eqb_refl.
  - unfold decide_adopt_child_plan in *. apply bind_Ok in Hd as ([] & Hdef & Hd).
    apply bind_Ok in Hd as (group & Hg%ok_or_Ok & Hd). destruct (_ == _); [by simplify_eq|].
    repeat (apply bind_Ok in Hd as (? & _ & Hd)). injection Hd as <-. injection Ha as <-.
    unfold apply_child_spawn_plan_adopted. rewrite Hg.
    unfold require_definition, matches_definition in *. simpl. rewrite Hdef. simpl.
    by rewrite lookup_insert_eq; simpl; rewrite eqb_refl.
  - unfold decide_accept_child_completion in *. apply bind_Ok in Hd as ([] & Hdef & Hd).
    apply bind_Ok in Hd as (group & Hg%ok_or_Ok & Hd). apply bind_Ok in Hd as ([] & Hin & Hd).
    destruct (cg_completions group !! _) eqn:Hcomp; [by invert_ok Hd|].
    injection Hd as <-. injection Ha as <-.
    unfold apply_child_completion_accepted. rewrite Hg.
    unfold require_definition, matches_definition in *. simpl. rewrite Hdef. simpl.
    rewrite lookup_insert_eq. simpl. rewrite Hin. simpl. by rewrite lookup_insert_eq, eqb_refl.
Qed.

Lemma named_retried i c es i' :
  match c with CmdRecordHostHandoff _ _ | CmdPlanSuccessor _ => true
  | CmdRenewStepLease c => is_some (cmd_renew_request c) | _ => false end = true →
  decide i c d = Ok es → apply_all i es = Ok i' → decide i' c d = Ok [].
Proof.
  intros Hc Hd Ha. destruct (base.decide (length es = 0%nat)) as [Hz|Hnz].
  { destruct es; [|done]. by injection Ha as <-. }
  destruct c; try done; simpl in Hd |- *.
  - unfold decide_record_host_handoff in *. apply bind_Ok in Hd as ([] & Hdef & Hd).
    apply bind_Ok in Hd as ([] & Hval & Hd).
    destruct (host_handoffs i !! _) eqn:Hh; [by invert_ok Hd|].
    repeat (apply bind_Ok in Hd as (? & _ & Hd)). injection Hd as <-. injection Ha as <-.
    unfold require_definition, matches_definition in *. simpl. rewrite Hdef, Hval. simpl.
    by rewrite lookup_insert_eq; simpl; rewrite eqb_refl.
  - unfold decide_renew_step_lease in *. apply bind_Ok in Hd as ([] & Hdef & Hd).
    destruct (cmd_renew_request c) as [request|] eqn:Hreq; [|done].
    destruct (lease_renewals i !! renewal_id request) eqn:Hr; [by invert_ok Hd|].
    apply new_renewal_cases in Hd as (record & Hren & [-> | ->]); [done|]. injection Ha as <-.
    unfold apply_step_lease_renewed. rewrite Hreq. simpl. rewrite (renewed_record _ _ _ _ Hren).
    unfold require_definition, matches_definition in *. simpl. rewrite Hdef. simpl.
    rewrite lookup_insert_eq. unfold renewal_is_replay. simpl. by rewrite !eqb_refl.
  - unfold decide_plan_successor in *. apply bind_Ok in Hd as ([] & Hdef & Hd).
    destruct (successor_plan i) eqn:Hp; [by invert_ok Hd|].
    repeat (apply bind_Ok in Hd as (? & _ & Hd)). injection Hd as <-. injection Ha as <-.
    unfold require_definition, matches_definition in *. simpl. rewrite Hdef. simpl.
    by rewrite eqb_refl.
Qed.

(** A retried command changes nothing.  Delivering a handoff, a renewal
    request, a receipt, an acknowledgement, a child plan, its adoption, a
    child's completion, a successor plan, a pause, a resume or a cancellation
    a second time, right after it was accepted, is accepted again and decides
    no event. *)
Theorem retried_command_changes_nothing i c i' :
  retryable c = true → execute i c d = Ok i' → decide i' c d = Ok [].
Proof.
  intros Hc Hx. unfold execute in Hx. apply bind_Ok in Hx as (es & Hd & Ha).
  destruct c; try done.
  all: try (by eapply named_retried). all: try (by eapply children_retried).
  all: try (by eapply lifecycle_retried). all: try (by eapply acknowledgement_retried).
  by eapply receipt_retried.
Qed.
End retries.

(** ** The property on the demonstration ceremony *)

(** The first worker files its result as the receipt of its operation. *)
Definition plan_operation : string := operation_for_step (instance_id planning) "plan" 1 1 1.

Definition plan_receipt : ApplyExecutionReceiptResult := {|
  cmd_receipt_step_id := "plan";
  cmd_receipt_claim_fence := fence_of planning "plan";
  cmd_receipt_link := {|
    link_kind := LinkDirect;
    link_operation_id := plan_operation;
    link_receipt_id := receipt_for_operation plan_operation;
    link_producer_claim_fence := fence_of planning "plan";
    link_applied_claim_fence := fence_of planning "plan" |};
  cmd_receipt_result := demo_success;
  cmd_receipt_now := 1;
|}.

Definition receipted := after planning (CmdApplyExecutionReceiptResult plan_receipt).

Lemma retried_command_changes_nothing_witness :
  rec_status (record_of receipted "plan") = Completed ∧
  decide receipted (CmdApplyExecutionReceiptResult plan_receipt) demo = Ok [].
Proof.
  split; [vm_compute; reflexivity|].
  refine (retried_command_changes_nothing demo planning _ receipted _ _); vm_compute; reflexivity.
Defined.
