(* ===== verification/Families.v ===== *)
(** * Children and successors

    A family of ceremonies nests at most as deep as the server allows, the
    joins of a parent count exactly the children it planned, and a session
    hands over to a successor only once every open claim was disposed of and
    every piece of evidence it carries is one it sealed. *)

From S2P Require Import Prelude Errors Text Values Steps Definitions Interventions Instance.
From S2P Require Import Fold Rules Decide DecideTable DecideLineage Engine Sessions Machine.
From S2P Require Import Lifecycle Scenario.

(** ** Depth *)

Definition family_depth (i : CeremonyInstance) : Z :=
  match lineage i with Some l => lin_depth l | None => 0 end.
Definition remaining_depth (i : CeremonyInstance) : Z :=
  match lineage i with Some l => lin_remaining_depth l | None => MaxChildDepth_SERVER_MAX end.
Definition family_root_id (i : CeremonyInstance) : CeremonyId :=
  match lineage i with Some l => lin_root_id l | None => instance_id i end.

Section depth.
Context {Hsha : Sha256} {Hclk : Clock} {Hser : EvidenceSerde}.

Lemma elem_of_zip_left {A B} (l : list A) (k : list B) x :
  length l = length k → x ∈ l → ∃ y, (x, y) ∈ zip l k.
Proof using.
  revert k. induction l as [|a l IH]; intros [|b k]; simpl; intros Hlen Hx; try done.
  - by apply elem_of_nil in Hx.
  - apply elem_of_cons in Hx as [->|Hx]; [exists b; by left|].
    destruct (IH k) as [y Hy]; [lia|done|]. exists y. by right.
Qed.

(** What a child of a plan was checked against. *)
Record planned_under (d : CeremonyDefinition) (i : CeremonyInstance) (plan : ChildSpawnPlan)
    (l : CeremonyLineage) : Prop := {
  pu_parent : lin_parent_id l = instance_id i;
  pu_group : lin_group_id l = plan_group_id plan;
  pu_root : lin_root_id l = family_root_id i;
  pu_depth : lin_depth l = family_depth i + 1;
  pu_remaining : ∃ step spawn, def_step d (coord_step_id (plan_coordinates plan)) = Some step ∧
    step_spawn step = Some spawn ∧
    ChildDepthBudget_for_child (remaining_depth i) (spawn_max_depth spawn) = Ok (lin_remaining_depth l);
}.

(** The lineage of every child a new plan names. *)
Lemma planned_child_checked i d plan now es child :
  decide i (CmdPlanCeremonyChildren plan now) d = Ok es → es ≠ [] →
  child ∈ plan_children plan → planned_under d i plan (pc_lineage child).
Proof.
  simpl. unfold decide_plan_children. intros Hd Hne Hin.
  apply bind_Ok in Hd as ([] & _ & Hd).
  destruct (child_groups i !! _); [by invert_ok Hd|]. unfold decide_new_child_plan in Hd.
  apply bind_Ok in Hd as ([] & _ & Hd). apply bind_Ok in Hd as ([] & _ & Hd).
  apply bind_Ok in Hd as (step & Hstep%ok_or_Ok & Hd). apply bind_Ok in Hd as ([] & _ & Hd).
  apply bind_Ok in Hd as (spawn & Hspawn%ok_or_Ok & Hd). apply bind_Ok in Hd as (record & _ & Hd).
  apply bind_Ok in Hd as ([] & _ & Hd). apply bind_Ok in Hd as ([] & _ & Hd).
  apply bind_Ok in Hd as ([] & Hshape%ensure_Ok & Hd).
  apply bind_Ok in Hd as (remaining & Hrem & Hd). apply bind_Ok in Hd as (depth & Hdepth & Hd).
  apply bind_Ok in Hd as ([] & Hall & Hd).
  rewrite try_for_each_Ok in Hall. apply andb_true_iff in Hshape as [[Hlen _]%andb_true_iff _].
  apply Nat.eqb_eq in Hlen.
  destruct (elem_of_zip_left (plan_children plan) (spawn_children spawn) child) as [spec Hspec];
    [done|done|].
  specialize (Hall _ Hspec). unfold require_planned_child in Hall. simpl in Hall.
  apply bind_Ok in Hall as ([] & _ & Hall). apply ensure_Ok in Hall.
  rewrite !andb_true_iff, !eqb_true, !Z.eqb_eq in Hall.
  destruct Hall as [[[[[Hparent Hgroup] _] Hroot] Hde] Hre].
  split; [done|done|done| |].
  - unfold family_depth. rewrite Hde. destruct (lineage i) as [l|]; [|by injection Hdepth as <-].
    unfold ChildDepth_next in Hdepth. destruct (_ <=? _); by simplify_eq.
  - exists step, spawn. by rewrite Hre.
Qed.

Lemma planned_under_less d i plan l : planned_under d i plan l → lin_remaining_depth l < remaining_depth i.
Proof.
  intros [_ _ _ _ (step & spawn & _ & _ & Hrem)].
  unfold ChildDepthBudget_for_child, ChildDepthBudget_new in Hrem. invert_ok Hrem. lia.
Qed.

(** A family: a session started on its own, and the sessions started from the
    plans of its members.  Budgets are unsigned. *)
Inductive family : nat → CeremonyInstance → Prop :=
| family_starts i : lineage i = None → family 0 i
| family_grows n i d plan now es child j :
    family n i →
    decide i (CmdPlanCeremonyChildren plan now) d = Ok es → es ≠ [] →
    child ∈ plan_children plan → 0 ≤ lin_remaining_depth (pc_lineage child) →
    lineage j = Some (pc_lineage child) →
    family (S n) j.

(** A family of ceremonies is at most sixteen generations deep.  The depth
    a member records is its generation, and every generation has strictly less
    depth left to spend than the one before it. *)
Theorem family_depth_is_bounded n i :
  family n i →
  family_depth i = Z.of_nat n ∧ 0 ≤ remaining_depth i ≤ MaxChildDepth_SERVER_MAX - Z.of_nat n ∧
  (n ≤ 16)%nat.
Proof.
  induction 1 as [i Hl|n i d plan now es child j _ (IHd & IHr & IHn) Hd Hne Hin Hpos Hl].
  - unfold family_depth, remaining_depth, MaxChildDepth_SERVER_MAX. rewrite Hl. lia.
  - pose proof (planned_child_checked _ _ _ _ _ _ Hd Hne Hin) as Hp.
    pose proof (pu_depth _ _ _ _ Hp) as Hde. pose proof (planned_under_less _ _ _ _ Hp) as Hre.
    unfold MaxChildDepth_SERVER_MAX in *.
    assert (family_depth j = lin_depth (pc_lineage child) ∧
            remaining_depth j = lin_remaining_depth (pc_lineage child)) as [-> ->]
      by (unfold family_depth, remaining_depth; by rewrite Hl).
    lia.
Qed.
End depth.

(** ** Joins *)

(** A group as its sealed plan allows it to be. *)
Record group_sealed (id : string) (g : ChildGroupState) : Prop := {
  sealed_id : plan_group_id (cg_plan g) = id;
  sealed_completions : ∀ child c, cg_completions g !! child = Some c →
    cc_child_id c = child ∧ cc_group_id c = id ∧
    child ∈ pc_child_id <$> plan_children (cg_plan g);
}.

Definition groups_sealed (i : CeremonyInstance) : Prop := map_Forall group_sealed (child_groups i).

Lemma apply_children_frame i e i' :
  apply i e = Ok i' → child_event e = false → child_groups i' = child_groups i.
Proof.
  intros He Hi. destruct (apply_ok_cases _ _ _ He) as [(w & p & -> & _ & ->)|Hw]; [done|].
  destruct e; try done; try (by destruct (Hw e)); injection He as <-; clear Hw Hi; frame_event.
Qed.

Section joins.
Context {Hsha : Sha256} {Hclk : Clock} {Hser : EvidenceSerde}.
Context (d : CeremonyDefinition).

Definition child_command (c : CeremonyCommand) : bool :=
  match c with
  | CmdPlanCeremonyChildren _ _ | CmdAdoptChildSpawnPlan _ _ _ | CmdAcceptChildCompletion _ _ => true
  | _ => false
  end.

Lemma groups_sealed_step i c es i' :
  groups_sealed i → decide i c d = Ok es → apply_all i es = Ok i' → groups_sealed i'.
Proof.
  unfold groups_sealed. intros Hg Hd Ha. destruct (child_command c) eqn:Hc.
  2: { rewrite (apply_all_frame child_groups child_event i es i' apply_children_frame Ha); [done|].
       eapply decide_any; [exact Hd|]. intros e. by destruct c, e. }
  destruct (base.decide (length es = 0%nat)) as [Hz|Hnz].
  { destruct es; [|done]. by injection Ha as <-. }
  destruct c; try done; simpl in Hd.
  - unfold decide_plan_children in Hd. apply bind_Ok in Hd as ([] & _ & Hd).
    destruct (child_groups i !! plan_group_id plan) eqn:Hp; [by invert_ok Hd|].
    unfold decide_new_child_plan in Hd. repeat (apply bind_Ok in Hd as (? & _ & Hd)).
    injection Hd as <-. injection Ha as <-. unfold apply_child_spawn_planned. rewrite Hp. simpl.
    apply map_Forall_insert_2; [|done]. constructor; [done|]. by intros child c Hl.
  - unfold decide_adopt_child_plan in Hd. apply bind_Ok in Hd as ([] & _ & Hd).
    apply bind_Ok in Hd as (group & Hgr%ok_or_Ok & Hd). destruct (_ == _); [by simplify_eq|].
    repeat (apply bind_Ok in Hd as (? & _ & Hd)). injection Hd as <-. injection Ha as <-.
    unfold apply_child_spawn_plan_adopted. rewrite Hgr. simpl.
    apply map_Forall_insert_2; [|done]. destruct (Hg _ _ Hgr). by constructor.
  - unfold decide_accept_child_completion in Hd. apply bind_Ok in Hd as ([] & _ & Hd).
    apply bind_Ok in Hd as (group & Hgr%ok_or_Ok & Hd).
    apply bind_Ok in Hd as ([] & Hin%ensure_Ok & Hd).
    destruct (cg_completions group !! _); [by invert_ok Hd|]. injection Hd as <-. injection Ha as <-.
    unfold apply_child_completion_accepted. rewrite Hgr. simpl.
    apply map_Forall_insert_2; [|done]. destruct (Hg _ _ Hgr) as [Hid Hcs]. constructor; [done|].
    simpl. intros child c [[<- <-]|[_ Hl]]%lookup_insert_Some; [|by apply Hcs].
    split_and!; [done|done|]. apply any_true in Hin as (pc & Hpc & Heq%eqb_true_1). simpl.
    rewrite <-Heq. by apply list_elem_of_fmap_2.
Qed.

Lemma session_groups_sealed es i : session d es i → groups_sealed i.
Proof.
  induction 1 as [id ctx bound lin account rcl now started i Ho Ha
    |id pub ctx succ plan now es started i Hpub Hs Hh Ha
    |es i command es' i' _ IH _ Hd Ha]; [| |by eapply groups_sealed_step].
  - unfold groups_sealed.
    rewrite (apply_all_frame child_groups child_event _ _ _ apply_children_frame Ha); [done|].
    unfold opening_batch. simpl. by destruct (option_keep _ _).
  - unfold decide_start_successor in Hs. apply bind_Ok in Hs as (started' & _ & Hs).
    injection Hs as <-. unfold groups_sealed.
    rewrite (apply_all_frame child_groups child_event _ _ _ apply_children_frame Ha); [done|].
    simpl. by destruct (_ =? _)%nat.
Qed.

(** Completions are accepted from planned children only, so their number says
    which children are missing. *)
Lemma all_completed g id :
  group_sealed id g → NoDup (pc_child_id <$> plan_children (cg_plan g)) →
  size (cg_completions g) = length (plan_children (cg_plan g)) ↔
  ∀ child, child ∈ plan_children (cg_plan g) → is_Some (cg_completions g !! pc_child_id child).
Proof using.
  intros [_ Hc] Hnd. set (ids := pc_child_id <$> plan_children (cg_plan g)) in *.
  assert (dom (cg_completions g) ⊆ list_to_set ids) as Hsub.
  { intros k [c Hk]%elem_of_dom. destruct (Hc _ _ Hk) as (_ & _ & ?). by apply elem_of_list_to_set. }
  assert (length (plan_children (cg_plan g)) = size (list_to_set ids : gset string)) as ->.
  { rewrite size_list_to_set by done. unfold ids. by rewrite length_fmap. }
  rewrite <-size_dom. split.
  - intros Hsz child Hin. apply elem_of_dom.
    assert (dom (cg_completions g) = list_to_set ids) as ->.
    { apply set_eq, set_subseteq_antisymm; [done|]. 
      apply set_subseteq_size_eq in Hsub; [set_solver|lia]. }
    apply elem_of_list_to_set. by apply list_elem_of_fmap_2.
  - intros Hall. f_equal. apply set_eq. intros k. split; [apply Hsub|].
    intros (child & -> & Hin)%elem_of_list_to_set%list_elem_of_fmap. by apply elem_of_dom, Hall.
Qed.

(** A join over all children waits for all of them.  When the identifiers
    of the planned children are distinct, the join of a group that plans any
    child is satisfied exactly when the completion of every planned child was
    accepted; completions of anything else are never counted. *)
Theorem join_all_waits_for_every_child es i id g :
  session d es i → child_groups i !! id = Some g →
  NoDup (pc_child_id <$> plan_children (cg_plan g)) → plan_children (cg_plan g) ≠ [] →
  child_join_is_satisfied JoinAll (size (cg_completions g)) (length (plan_children (cg_plan g)))
    = true ↔
  ∀ child, child ∈ plan_children (cg_plan g) → is_Some (cg_completions g !! pc_child_id child).
Proof.
  intros Hs Hg Hnd Hne. rewrite <-(all_completed g id (session_groups_sealed _ _ Hs _ _ Hg) Hnd).
  simpl. rewrite andb_true_iff, Nat.eqb_eq, Nat.ltb_lt.
  destruct (plan_children (cg_plan g)); [done|]. simpl. split; [by intros [_ ?]|].
  intros ->. split; [lia|done].
Qed.
End joins.

(** ** Succession *)

Section succession.
Context {Hsha : Sha256} {Hclk : Clock} {Hser : EvidenceSerde}.
Context (d : CeremonyDefinition).

(** What a new successor plan was checked against. *)
Record handed_over (i : CeremonyInstance) (c : PlanSuccessor) : Prop := {
  handed_paused : lc_phase (lifecycle_field i) = Paused;
  handed_disposed : ∀ id r, step_records i !! id = Some r → rec_status r = InProgress →
    ∃ disp, disposition_for (cmd_succ_plan c) id = Some disp ∧
            step_claim_fence i id = Ok (disp_claim_fence disp);
  handed_outstanding : ∀ disp, disp ∈ sp_dispositions (cmd_succ_plan c) →
    ∃ r, step_records i !! disp_step_id disp = Some r ∧ rec_status r = InProgress;
  handed_evidence : ∀ ev, ev ∈ sp_carried (cmd_succ_plan c) →
    is_Some (def_step (pub_definition (cmd_succ_successor c)) (carried_successor_step_id ev)) ∧
    ∃ r, step_records i !! src_step_id (carried_source ev) = Some r ∧
         rec_status r = Completed ∧ rec_output r = carried_output ev;
}.

Lemma outstanding_in_progress now r :
  has_outstanding_claim now r = true ↔ rec_status r = InProgress.
Proof using.
  unfold has_outstanding_claim, claim_phase. destruct (rec_status r); try done.
  by destruct (record_has_live_lease_at r now).
Qed.

Lemma successor_cases i c es :
  decide i (CmdPlanSuccessor c) d = Ok es → es ≠ [] →
  handed_over i c ∧ es = [EvSuccessorPlanned (cmd_succ_plan c)].
Proof.
  simpl. unfold decide_plan_successor. intros Hd Hne. apply bind_Ok in Hd as ([] & _ & Hd).
  destruct (successor_plan i); [by invert_ok Hd|].
  apply bind_Ok in Hd as ([] & Hp%ensure_Ok%eqb_true_1 & Hd). apply bind_Ok in Hd as ([] & _ & Hd).
  apply bind_Ok in Hd as ([] & _ & Hd). apply bind_Ok in Hd as ([] & _ & Hd).
  apply bind_Ok in Hd as ([] & Hall & Hd). apply bind_Ok in Hd as ([] & Hev & Hd).
  injection Hd as <-. split; [|done].
  unfold require_every_outstanding_claim_is_disposed in Hall.
  apply bind_Ok in Hall as ([] & Hdis & Hout). rewrite try_for_each_Ok in Hdis.
  rewrite try_for_each_Ok in Hout. rewrite try_for_each_Ok in Hev.
  constructor; [done| | |].
  - intros id r Hr Hst. specialize (Hdis (id, r)). rewrite elem_of_btree_entries in Hdis.
    specialize (Hdis Hr). unfold require_disposed in Hdis. simpl in Hdis.
    rewrite (proj2 (outstanding_in_progress (cmd_succ_now c) r) Hst) in Hdis. simpl in Hdis.
    apply bind_Ok in Hdis as (disp & Hdisp%ok_or_Ok & Hf). exists disp. split; [done|].
    unfold require_step_claim_fence in Hf. by apply bind_Ok in Hf as (f & Hf & ->%ensure_Ok%eqb_true_1).
  - intros disp Hin. specialize (Hout _ Hin). unfold require_disposition_is_outstanding in Hout.
    apply ensure_Ok in Hout. destruct (step_records i !! _) as [r|]; [|done]. exists r.
    split; [done|]. by apply outstanding_in_progress in Hout.
  - intros ev Hin. specialize (Hev _ Hin). unfold require_carried_evidence_is_sound in Hev.
    apply bind_Ok in Hev as ([] & _ & Hev). apply bind_Ok in Hev as (r & Hr%ok_or_Ok & Hev).
    apply bind_Ok in Hev as ([] & Hst%ensure_Ok%eqb_true_1 & Hev).
    apply bind_Ok in Hev as ([] & _ & Hev).
    apply bind_Ok in Hev as ([] & Ho%ensure_Ok%eqb_true_1 & Hev).
    apply bind_Ok in Hev as ([] & Hdec%ensure_Ok & _). split; [|eauto].
    by destruct (def_step _ _); [eexists|].
Qed.

(** A session hands over only what it can account for.  When a successor
    plan is accepted, the session is paused; every claim still in progress is
    disposed of under its own fence, and nothing else is; and every piece of
    evidence the plan carries is the output of a step this session completed,
    landing on a step the successor declares. *)
Theorem successor_plan_accounts_for_every_claim i c es :
  decide i (CmdPlanSuccessor c) d = Ok es → es ≠ [] → handed_over i c.
Proof. intros Hd Hne. by destruct (successor_cases _ _ _ Hd Hne). Qed.

(** The record a piece of evidence opens the successor with. *)
Lemma carried_record carried pass visit w ev :
  NoDup (carried_successor_step_id <$> carried) → ev ∈ carried →
  is_Some (w_records w !! carried_successor_step_id ev) →
  w_records (foldl (λ w' evidence,
    if negb (is_some (w_records w' !! carried_successor_step_id evidence)) then w'
    else w' <| w_records ::= <[carried_successor_step_id evidence :=
           record_carried (carried_output evidence) (carried_source evidence) pass visit]> |>)
    w carried) !! carried_successor_step_id ev
  = Some (record_carried (carried_output ev) (carried_source ev) pass visit).
Proof using.
  revert w. induction carried as [|x l IH]; intros w Hnd Hin Hs; [by apply elem_of_nil in Hin|].
  simpl in Hnd. apply NoDup_cons in Hnd as [Hx Hnd]. simpl.
  apply elem_of_cons in Hin as [->|Hin].
  - destruct Hs as [r Hr]. rewrite Hr. simpl. clear IH.
    set (w1 := w <| w_records ::= _ |>).
    assert (w_records w1 !! carried_successor_step_id x
      = Some (record_carried (carried_output x) (carried_source x) pass visit)) as Hw1
      by (simpl; by rewrite lookup_insert_eq).
    revert Hw1. generalize w1. clear w1 Hr. induction l as [|y l IH]; intros w1 Hw1; [done|].
    simpl in Hx, Hnd |- *. apply not_elem_of_cons in Hx as [Hne Hx].
    apply NoDup_cons in Hnd as [_ Hnd]. apply IH; [done|done|].
    destruct (negb _); [done|]. simpl. by rewrite lookup_insert_ne.
  - apply IH; [done|done|]. destruct (negb _); [done|]. simpl.
    rewrite lookup_insert_is_Some'. by right.
Qed.

(** Carried evidence survives the handover.  The successor started from an
    accepted plan opens with the step each piece of evidence lands on already
    completed, with exactly the output the predecessor sealed for the step it
    was carried from, and says where it came from. *)
Theorem carried_evidence_survives_the_handover i c es id ctx succ now es' j ev :
  decide i (CmdPlanSuccessor c) d = Ok es → es ≠ [] →
  NoDup (carried_successor_step_id <$> sp_carried (cmd_succ_plan c)) →
  decide_start_successor id (cmd_succ_successor c) ctx succ (cmd_succ_plan c) now = Ok es' →
  rehydrate es' = Ok j → ev ∈ sp_carried (cmd_succ_plan c) →
  ∃ r r', step_records i !! src_step_id (carried_source ev) = Some r ∧
    rec_status r = Completed ∧
    step_records j !! carried_successor_step_id ev = Some r' ∧
    rec_status r' = Completed ∧ rec_output r' = rec_output r ∧
    rec_carried_from r' = Some (carried_source ev).
Proof.
  intros Hd Hne Hnd Hstart Hj Hin.
  destruct (successor_cases _ _ _ Hd Hne) as [[_ _ _ Hev] _].
  destruct (Hev _ Hin) as (Hdecl & r & Hr & Hst & Hout).
  unfold decide_start_successor in Hstart. apply bind_Ok in Hstart as (started & Ho & Hs).
  apply opening_initial in Ho as (_ & Hids & _). injection Hs as <-.
  assert ((length (sp_carried (cmd_succ_plan c)) =? 0)%nat = false) as Hlen.
  { apply Nat.eqb_neq. by destruct (sp_carried (cmd_succ_plan c)); [apply elem_of_nil in Hin|]. }
  rewrite Hlen in Hj. cbn [rehydrate fold_tail] in Hj.
  apply bind_Ok in Hj as ([] & _ & Hj). apply bind_Ok in Hj as (j' & Hj' & Hj).
  injection Hj as <-. apply apply_work in Hj'. simpl in Hj'.
  pose proof (carried_record _ StateIteration_FIRST StateVisit_FIRST
    (work (from_started (started <| cis_succession := Some succ |>))) ev Hnd Hin) as Hrec.
  simpl in Hrec. rewrite <-Hj' in Hrec.
  exists r. eexists. split_and!; [done|done|apply Hrec|done|done|done].
  simpl. apply elem_of_dom. rewrite dom_gset_to_gmap, Hids. by apply elem_of_dom.
Qed.
End succession.

(** ** The properties on the demonstration ceremony *)

(** The child the demonstration plans, started on its own definition. *)
Definition child_session := demo_start <| lineage := Some (pc_lineage demo_child) |>.

Lemma family_depth_is_bounded_witness :
  family_depth child_session = Z.of_nat 1 ∧
  0 ≤ remaining_depth child_session ≤ MaxChildDepth_SERVER_MAX - Z.of_nat 1 ∧ (1 ≤ 16)%nat.
Proof.
  refine (family_depth_is_bounded 1 child_session _).
  refine (family_grows 0 parent parent_demo child_plan 1 [EvChildSpawnPlanned child_plan 1]
    demo_child child_session _ _ _ _ _ _).
  - apply family_starts. vm_compute. reflexivity.
  - vm_compute. reflexivity.
  - discriminate.
  - by left.
  - vm_compute. discriminate.
  - reflexivity.
Defined.

Definition joined_group : ChildGroupState :=
  default (child_group_new child_plan) (child_groups joined !! child_group).

Lemma join_all_waits_for_every_child_witness :
  child_join_is_satisfied JoinAll (size (cg_completions joined_group)) 1 = true ∧
  (child_join_is_satisfied JoinAll (size (cg_completions joined_group))
     (length (plan_children (cg_plan joined_group))) = true ↔
   ∀ child, child ∈ plan_children (cg_plan joined_group) →
     is_Some (cg_completions joined_group !! pc_child_id child)).
Proof.
  split; [vm_compute; reflexivity|].
  refine (join_all_waits_for_every_child parent_demo joined_stream joined child_group joined_group
    joined_session _ _ _).
  - vm_compute. reflexivity.
  - apply (bool_decide_eq_true_1 _). vm_compute. reflexivity.
  - vm_compute. discriminate.
Defined.

Lemma successor_plan_accounts_for_every_claim_witness : handed_over paused handover.
Proof.
  refine (successor_plan_accounts_for_every_claim demo paused handover
    [EvSuccessorPlanned demo_succession] _ _); [vm_compute; reflexivity|discriminate].
Defined.

(** A handover once the plan was drafted: its output is carried. *)
Definition drafted := after planned (CmdPauseCeremony "handover" minute).

Definition drafted_evidence : CarriedEvidence :=
  MkCarriedEvidence "plan" (MkSourceRecordRef (instance_id drafted) "plan" "event-2" "hash-2" 1 1)
    (rec_output (record_of drafted "plan")).

Definition drafted_handover : PlanSuccessor :=
  MkPlanSuccessor {|
    sp_plan_id := "plan-1"; sp_successor_id := sp_successor_id demo_succession;
    sp_successor_definition := sp_successor_definition demo_succession;
    sp_carried := [drafted_evidence]; sp_dispositions := []; sp_budget := BudgetFresh;
    sp_planned_by := "operator"; sp_planned_at := minute;
  |} demo_published [] minute.

Definition demo_origin : CeremonySuccession :=
  MkCeremonySuccession (instance_id drafted) "head-3" 3 (MkDefinitionPin "planning" "1.0" "digest-1")
    (sp_successor_definition demo_succession) "plan-1".

Definition successor_opening : list CeremonyEvent :=
  match decide_start_successor (sp_successor_id demo_succession) demo_published ∅ demo_origin
          (cmd_succ_plan drafted_handover) minute with Ok es => es | _ => [] end.

Definition successor : CeremonyInstance :=
  match rehydrate successor_opening with Ok j => j | _ => demo_start end.

Lemma carried_evidence_survives_the_handover_witness :
  ∃ r r', step_records drafted !! src_step_id (carried_source drafted_evidence) = Some r ∧
    rec_status r = Completed ∧
    step_records successor !! carried_successor_step_id drafted_evidence = Some r' ∧
    rec_status r' = Completed ∧ rec_output r' = rec_output r ∧
    rec_carried_from r' = Some (carried_source drafted_evidence).
Proof.
  refine (carried_evidence_survives_the_handover demo drafted drafted_handover
    [EvSuccessorPlanned (cmd_succ_plan drafted_handover)] (sp_successor_id demo_succession)
    ∅ demo_origin minute successor_opening successor drafted_evidence _ _ _ _ _ _).
  - vm_compute. reflexivity.
  - discriminate.
  - apply (bool_decide_eq_true_1 _). vm_compute. reflexivity.
  - vm_compute. reflexivity.
  - vm_compute. reflexivity.
  - by left.
Defined.
