(* ===== verification/Dispatch.v ===== *)
(** * Offering work

    [claimable_step_ids_at] is what a session tells its workers they may
    claim.  It is exact up to what is not a matter of the step: a claim is accepted
    if and only if its step is offered, at that instant and under that ceiling,
    and the session runs, the key is fresh, the budget reservation is the right one
    and the deadline can be expressed. *)

From S2P Require Import Prelude Errors Text Values Steps Definitions Interventions Instance.
From S2P Require Import Fold Rules Decide DecideTable DecideLineage Engine Sessions Machine.
From S2P Require Import Scenario.

Section dispatch.
Context {Hsha : Sha256} {Hclk : Clock} {Hser : EvidenceSerde}.
Context (d : CeremonyDefinition).

(** A step that is ready whoever runs it. *)
Record ready (i : CeremonyInstance) (id : StepId) (now : Instant) (step : CeremonyStep)
    (record : StepExecutionRecord) (attempt : Z) : Prop := {
  ready_step : def_step d id = Some step;
  ready_record : step_records i !! id = Some record;
  ready_free : record_can_be_started_at record now = true;
  ready_attempt : record_next_start_attempt record = Ok attempt;
  ready_retry : retry_allows_attempt (step_retry_policy step) attempt = true;
}.

Lemma ready_iff i id now :
  step_is_ready_without_role_at i d id now = Ok true ↔
  ∃ step record attempt, ready i id now step record attempt.
Proof using.
  unfold step_is_ready_without_role_at. split.
  - intros Hr. apply bind_Ok in Hr as (step & Hs%ok_or_Ok & Hr).
    apply bind_Ok in Hr as (record & Hrec%ok_or_Ok & Hr).
    destruct (negb _) eqn:Hfree in Hr; [done|]. apply negb_false_iff in Hfree.
    apply bind_Ok in Hr as (attempt & Hatt & Hr). injection Hr as Hr. do 3 eexists. by constructor.
  - intros (step & record & attempt & []). rewrite ready_step0, ready_record0. simpl.
    rewrite ready_free0, ready_attempt0. simpl. by rewrite ready_retry0.
Qed.

(** Whether a step is offered, once its turn has come. *)
Lemma claimable_at_iff i id now :
  step_is_claimable_at i d id now = Ok true ↔
  (∃ role, resolve_step_role i d id None = Ok role) ∧ step_is_ready_without_role_at i d id now = Ok true.
Proof using.
  unfold step_is_claimable_at. destruct (resolve_step_role i d id None) as [role| |]; naive_solver.
Qed.

Lemma elem_of_claimable_among i steps now ids id :
  claimable_among i d steps now = Ok ids →
  id ∈ ids ↔ ∃ s, s ∈ steps ∧ step_id s = id ∧ step_is_claimable_at i d id now = Ok true.
Proof using.
  revert ids. induction steps as [|s steps IH]; simpl; intros ids Hc.
  - simplify_eq. split; [by intros ?%elem_of_nil|]. by intros (s & ?%elem_of_nil & _).
  - apply bind_Ok in Hc as (claimable & Hs & Hc). apply bind_Ok in Hc as (rest & Hrest & Hc).
    injection Hc as <-. specialize (IH _ Hrest). setoid_rewrite elem_of_cons.
    assert (id ∈ (if claimable then step_id s :: rest else rest) ↔
            (step_id s = id ∧ claimable = true) ∨ id ∈ rest) as ->
      by (destruct claimable; [rewrite elem_of_cons|]; naive_solver).
    rewrite IH. split.
    + intros [[<- ->]|(s' & ? & ? & ?)]; eauto 10.
    + intros (s' & [->|?] & <- & Hcl); [left|right; eauto]. rewrite Hs in Hcl. by injection Hcl.
Qed.

(** The list offered, element by element: a step of the current state whose
    turn it is, whose role resolves and which is ready. *)
Lemma elem_of_claimable i now ceiling ids id :
  steps_indexed d → claimable_step_ids_at i d now ceiling = Ok ids →
  id ∈ ids ↔
  (∃ s, def_step d id = Some s ∧ step_state_id s = current_state i) ∧
  resolved_step_is_claimable_at i d id now ceiling = Ok true ∧
  ∃ role, resolve_step_role i d id None = Ok role.
Proof using.
  intros Hidx. unfold claimable_step_ids_at, resolved_step_is_claimable_at. intros Hc.
  apply bind_Ok in Hc as ([] & Hdef & Hc). rewrite Hdef. simpl.
  apply bind_Ok in Hc as (state & Hstate%ok_or_Ok & Hc). rewrite Hstate. simpl.
  set (steps := steps_for_state d (current_state i)) in *.
  assert (∀ s, s ∈ steps → def_step d (step_id s) = Some s ∧ step_state_id s = current_state i)
    as Hsteps by (intros s; by apply steps_for_state_lookup).
  assert (∀ s, def_step d id = Some s → step_state_id s = current_state i → s ∈ steps ∧ step_id s = id)
    as Hback.
  { intros s Hs Hst. pose proof (proj1 Hidx _ _ Hs) as Hid. split; [|done].
    unfold steps. rewrite <-Hst. apply steps_for_state_step; [done|]. by rewrite Hid. }
  destruct (state_execution state == Sequential).
  - destruct (List.find _ steps) as [first|] eqn:Hf.
    + apply find_some in Hf as [Hin%list_elem_of_In _]. apply Hsteps in Hin as [Hdecl Hst].
      apply bind_Ok in Hc as (claimable & Hcl & Hc). injection Hc as <-.
      assert (id ∈ (if claimable then [step_id first] else []) ↔
              step_id first = id ∧ claimable = true) as ->
        by (destruct claimable; [rewrite list_elem_of_singleton|rewrite elem_of_nil]; naive_solver).
      destruct (step_id first == id) eqn:Heq.
      * apply eqb_true_1 in Heq as <-. simpl. split.
        -- intros [_ ->]. apply claimable_at_iff in Hcl as [Hrole Hready]. eauto.
        -- intros (_ & Hready & Hrole). split; [done|].
           assert (step_is_claimable_at i d (step_id first) now = Ok true) as Ht
             by (by apply claimable_at_iff). congruence.
      * apply eqb_false in Heq. simpl. split; [by intros [? _]|]. by intros (_ & ? & _).
    + injection Hc as <-. split; [by intros ?%elem_of_nil|]. by intros (_ & ? & _).
  - destruct (_ <=? _).
    + injection Hc as <-. split; [by intros ?%elem_of_nil|]. by intros (_ & ? & _).
    + rewrite (elem_of_claimable_among _ _ _ _ id Hc). split.
      * intros (s & Hin & <- & [Hrole Hready]%claimable_at_iff). split_and!; eauto.
      * intros ((s & Hs & Hst) & Hready & Hrole). destruct (Hback _ Hs Hst). exists s.
        split_and!; [done|done|]. by apply claimable_at_iff.
Qed.

(** A claim whose turn has come, whose role resolves and which is ready. *)
Lemma ready_when_claimable i id now ceiling :
  resolved_step_is_claimable_at i d id now ceiling = Ok true →
  step_is_ready_without_role_at i d id now = Ok true.
Proof using.
  unfold resolved_step_is_claimable_at. intros Hc. apply bind_Ok in Hc as ([] & _ & Hc).
  apply bind_Ok in Hc as (state & _ & Hc). destruct (_ == Sequential).
  - destruct (List.find _ _); [|done]. by destruct (_ != _).
  - by destruct (_ <=? _).
Qed.

(** The role a static step resolves to without a request is its canonical one. *)
Lemma static_role_canonical i id role :
  resolve_step_role i d id None = Ok (role, false) → role_id_for_step d id = Ok role.
Proof using.
  unfold resolve_step_role. intros Hr. apply bind_Ok in Hr as (step & _ & Hr).
  destruct (step_dynamic_role_binding step).
  - by repeat (apply bind_Ok in Hr as (? & _ & Hr)).
  - apply bind_Ok in Hr as (role' & Hrole & Hr).
    repeat (apply bind_Ok in Hr as (? & _ & Hr)). by injection Hr as ->.
Qed.

Lemma dynamic_role_bound i id role step :
  resolve_step_role i d id None = Ok (role, true) → def_step d id = Some step →
  is_Some (step_dynamic_role_binding step).
Proof using.
  unfold resolve_step_role. intros Hr Hs. rewrite Hs in Hr. simpl in Hr.
  destruct (step_dynamic_role_binding step); [by eexists|].
  by repeat (apply bind_Ok in Hr as (? & _ & Hr)).
Qed.

(** What a claim needs besides the step being on offer. *)
Record claim_in_order (i : CeremonyInstance) (c : StartStep) : Prop := {
  in_order_running : admits_new_work i = true;
  in_order_not_terminal : is_terminal i d = false;
  in_order_key : lease_idempotency_key (cmd_start_lease c) ∉ idempotency_keys i;
  in_order_budget : ∀ record, step_records i !! cmd_start_step_id c = Some record →
    require_budget_reservation i (cmd_start_step_id c) record c = Ok tt;
  in_order_deadline : ∀ s, def_step d (cmd_start_step_id c) = Some s →
    is_ok (try_option (λ t, checked_deadline (cmd_start_now c) t "step_deadline") (step_timeout s)) = true;
}.

(** C34: the work a session offers is the work it accepts.  For a definition whose
    steps are indexed, as every published one's are, a claim on a step that asks
    for no particular role is accepted, at an instant and under a ceiling, if and only
    if the step is in the list of claimable steps of that instant and
    ceiling, and besides the session is running (neither paused nor ended) and not in
    a terminal state, the key is fresh, the claim names the budget reservation of
    exactly this execution or, without a budget account, none, and the clock can
    express the step's deadline. *)
Theorem offered_iff_accepted i c ids :
  steps_indexed d → cmd_start_role_id c = None →
  claimable_step_ids_at i d (cmd_start_now c) (cmd_start_max_parallel_ceiling c) = Ok ids →
  is_ok (decide i (CmdStartStep c) d) = true ↔ cmd_start_step_id c ∈ ids ∧ claim_in_order i c.
Proof.
  intros Hidx Hrole Hids.
  assert (matches_definition i d = true) as Hdef.
  { unfold claimable_step_ids_at in Hids. by apply bind_Ok in Hids as ([] & Hdef%ensure_Ok & _). }
  rewrite (elem_of_claimable _ _ _ _ _ Hidx Hids). split.
  - destruct (decide i _ d) as [es| |] eqn:Hd; try done. intros _.
    apply start_cases in Hd as (step & record & e & -> & []). split.
    + split_and!; [eauto|done|]. destruct claimed_role as (dynamic & Hr & _). rewrite Hrole in Hr. eauto.
    + split; [done|done|done| |].
      * intros record' Hr. by simplify_eq.
      * intros s Hs. simplify_eq. destruct claimed_fence as (fence & _ & Hdead). unfold step_deadline in Hdead.
        by destruct (try_option _ _).
  - intros [((s & Hs & Hst) & Hturn & [role dynamic] & Hresolve) [Hrun Hterm Hkey Hbudget Hclock]].
    pose proof (ready_when_claimable _ _ _ _ Hturn) as Hready.
    apply ready_iff in Hready as (step & record & attempt & []). simplify_eq.
    specialize (Hbudget _ ready_record0). simpl.
    unfold decide_start_step, require_definition, require_admits_new_work, require_new_step_idempotency_key.
    assert (is_ended i = false) as Hend.
    { unfold admits_new_work in Hrun. by apply andb_true_iff in Hrun as [?%negb_true_iff _]. }
    rewrite Hdef, Hrun, Hterm, Hend, Hs. simpl.
    rewrite Hst, eqb_refl, ready_record0. simpl. rewrite ready_free0, ready_attempt0. simpl.
    rewrite ready_retry0, Hrole, Hresolve. simpl.
    assert (∃ alternate, (if negb dynamic && state_is_concurrent i d
       then canonical ← role_id_for_step d (cmd_start_step_id c); Ok (canonical != role)
       else Ok false) = Ok alternate) as [alternate ->].
    { destruct dynamic; [by eexists|]. destruct (state_is_concurrent i d); [|by eexists].
      rewrite (static_role_canonical _ _ _ Hresolve). by eexists. }
    simpl. rewrite Hturn, bool_decide_eq_false_2 by done. simpl. rewrite Hbudget. simpl.
    specialize (Hclock _ Hs). unfold step_deadline. destruct (try_option _ _); [|done..]. simpl.
    destruct dynamic; [|done]. by destruct (dynamic_role_bound _ _ _ _ Hresolve Hs) as [b ->].
Qed.
End dispatch.

(** ** The property on the demonstration ceremony *)

Definition third_claim : StartStep :=
  MkStartStep None "third" (lease_of "worker" "key-5" (2 * minute) (3 * minute)) (2 * minute)
    MaxParallel_SERVER_MAX None.

Lemma offered_iff_accepted_witness :
  is_ok (decide left_taken (CmdStartStep third_claim) demo) = true ∧
  (is_ok (decide left_taken (CmdStartStep third_claim) demo) = true ↔
   cmd_start_step_id third_claim ∈ ["right"; "third"] ∧ claim_in_order demo left_taken third_claim).
Proof.
  split; [vm_compute; reflexivity|].
  refine (offered_iff_accepted demo left_taken third_claim ["right"; "third"] demo_indexed _ _);
    vm_compute; reflexivity.
Defined.

(** A paused session goes on offering the steps whose claims it refuses. *)
Example paused_session_offers_work :
  let paused := after left_taken (CmdPauseCeremony "lunch" (2 * minute)) in
  claimable_step_ids_at paused demo (2 * minute) MaxParallel_SERVER_MAX = Ok ["right"; "third"] ∧
  is_ok (decide paused (CmdStartStep third_claim) demo) = false.
Proof. vm_compute. done. Qed.
