(* ===== verification/Ledger.v ===== *)
(** * What the budget ledger guarantees

    The balance is the sum of what every reservation is charged; a reservation
    is admitted only within the limits and charged once, whatever is retried;
    every decided event folds. *)

From S2P Require Import Prelude Errors Text Values Steps Definitions Interventions Instance Budget.
From S2P Require Import Scenario.

(** ** Sums over the four dimensions *)

(** The dimensions by position, and a row of amounts given by position. *)
Definition row (f : nat → Z) : Amounts := [f 0%nat; f 1%nat; f 2%nat; f 3%nat].

Definition dim_index (k : BudgetDimension) : nat :=
  match k with DimDuration => 0 | DimTokens => 1 | DimCost => 2 | DimToolCalls => 3 end.

Definition fits (f : nat → Z) : Prop := ∀ k, (k < 4)%nat → f k ≤ u64_max.

Definition quantity (k : nat) (q : BudgetQuantities) : Z := nth k (values q) 0.
Definition measurement (k : nat) (m : MeasuredBudgetQuantities) : BudgetMeasurement :=
  nth k (measurements m) Unknown.

Lemma nth_row f k : (k < 4)%nat → nth k (row f) 0 = f k.
Proof. intros. by do 4 (destruct k as [|k]; [done|]); lia. Qed.

Lemma values_row q : values q = row (λ k, quantity k q).
Proof. done. Qed.

(** The row after [v] was added at position [k]. *)
Definition bump (k : nat) (v : Z) (f : nat → Z) (j : nat) : Z :=
  if (j =? k)%nat then f j + v else f j.

Lemma add_at_row f k v :
  (k < 4)%nat →
  add_at (row f) k v =
  if f k + v <=? u64_max then Ok (row (bump k v f)) else Err budget_overflow.
Proof.
  intros Hk. unfold add_at. rewrite nth_row by done. unfold u64_checked_add.
  destruct (f k + v <=? u64_max); simpl; [|done].
  by do 4 (destruct k as [|k]; [done|]); lia.
Qed.

Lemma add_row f g :
  add (row f) (row g) =
  if all (λ k, f k + g k <=? u64_max) (seq 0 4) then Ok (row (λ k, f k + g k))
  else Err budget_overflow.
Proof.
  unfold add. rewrite !nth_row by lia.
  repeat (rewrite add_at_row by lia; unfold bump; simpl;
    destruct (f _ + g _ <=? u64_max); simpl; [|done]).
  done.
Qed.

(** ** What a reservation is charged *)

(** The four columns of a balance. *)
Inductive ChargeKind := KReserved | KObserved | KEstimated | KUnknown.

#[export] Instance ChargeKind_eq_dec : EqDecision ChargeKind.
Proof. solve_decision. Defined.

Definition charge_kinds : list ChargeKind := [KReserved; KObserved; KEstimated; KUnknown].

Definition measured_kind (m : BudgetMeasurement) : ChargeKind :=
  match m with Observed _ => KObserved | Estimated _ => KEstimated | Unknown => KUnknown end.
Definition measured_charge (requested : Z) (m : BudgetMeasurement) : Z :=
  match m with Observed v | Estimated v => v | Unknown => requested end.

Definition kind_of (k : nat) (r : BudgetReservation) : ChargeKind :=
  match br_reconciliation r with
  | None => KReserved
  | Some (_, m) => measured_kind (measurement k m)
  end.

(** The charge of a reservation in a dimension: what was measured, and what was
    reserved as long as nothing was. *)
Definition charge (k : nat) (r : BudgetReservation) : Z :=
  match br_reconciliation r with
  | None => quantity k (br_quantities r)
  | Some (_, m) => measured_charge (quantity k (br_quantities r)) (measurement k m)
  end.

Definition part (kd : ChargeKind) (k : nat) (r : BudgetReservation) : Z :=
  if kind_of k r == kd then charge k r else 0.

Definition sum_of {A} (f : A → Z) (l : list A) : Z := foldr (λ x acc, f x + acc) 0 l.

(** Columns given by kind and dimension. *)
Definition charges (F : ChargeKind → nat → Z) : Charges :=
  MkCharges (row (F KReserved)) (row (F KObserved)) (row (F KEstimated)) (row (F KUnknown)).

Definition all_fit (F : ChargeKind → nat → Z) : bool :=
  all (λ kd, all (λ k, F kd k <=? u64_max) (seq 0 4)) charge_kinds.

Definition raise (kd : ChargeKind) (k : nat) (v : Z) (F : ChargeKind → nat → Z)
    (kd' : ChargeKind) (k' : nat) : Z :=
  if (k' =? k)%nat then (if kd == kd' then F kd' k' + v else F kd' k') else F kd' k'.

Lemma all_fit_true F : all_fit F = true ↔ ∀ kd k, (k < 4)%nat → F kd k ≤ u64_max.
Proof.
  unfold all_fit. rewrite all_true. split.
  - intros H kd k Hk. assert (kd ∈ charge_kinds) as Hkd by (destruct kd; unfold charge_kinds; set_solver).
    specialize (H kd Hkd). rewrite all_true in H. apply Z.leb_le, H, elem_of_seq. lia.
  - intros H kd _. apply all_true. intros k Hk%elem_of_seq. apply Z.leb_le, H. lia.
Qed.

Lemma charges_ext F G :
  (∀ kd k, (k < 4)%nat → F kd k = G kd k) → charges F = charges G.
Proof. intros H. unfold charges, row. repeat f_equal; apply H; lia. Qed.

Lemma classify_one_row F k requested m :
  (k < 4)%nat →
  classify_one (charges F) k requested m =
  if F (measured_kind m) k + measured_charge requested m <=? u64_max
  then Ok (charges (raise (measured_kind m) k (measured_charge requested m) F))
  else Err budget_overflow.
Proof.
  intros Hk. destruct m; unfold classify_one, charges; cbn [ch_observed ch_estimated ch_unknown];
    rewrite add_at_row by done; cbn [measured_kind measured_charge];
    destruct (_ <=? u64_max); cbn; [|done| |done| |done];
    by do 4 (destruct k as [|k]; [done|]); lia.
Qed.

Lemma all_fit_if {A} (x y : A) F kd k :
  (k < 4)%nat → u64_max < F kd k → y = if all_fit F then x else y.
Proof.
  intros Hk HF. destruct (all_fit F) eqn:E; [|done].
  rewrite all_fit_true in E. specialize (E kd k Hk). lia.
Qed.

Lemma add_reserved_row F q :
  all_fit F = true →
  (reserved ← add (row (F KReserved)) (values q);
   Ok (MkCharges reserved (row (F KObserved)) (row (F KEstimated)) (row (F KUnknown)))) =
  let F' := λ kd k, F kd k + (if KReserved == kd then quantity k q else 0) in
  if all_fit F' then Ok (charges F') else Err budget_overflow.
Proof.
  intros Hfit. rewrite all_fit_true in Hfit. cbn zeta. rewrite values_row, add_row.
  destruct (all _ _) eqn:E.
  - rewrite all_true in E.
    match goal with |- _ = if all_fit ?G then _ else _ => assert (all_fit G = true) as -> end.
    + apply all_fit_true. intros kd k Hk. specialize (Hfit kd k Hk).
      destruct (KReserved == kd) eqn:Ekd; [|lia]. apply eqb_true_1 in Ekd as <-.
      apply Z.leb_le, E, elem_of_seq. lia.
    + cbn [mbind result_bind]. f_equal. unfold charges. f_equal; unfold row; by rewrite !Z.add_0_r.
  - apply not_true_iff_false in E. rewrite all_true in E.
    match goal with |- _ = if all_fit ?G then _ else _ => destruct (all_fit G) eqn:E' end; [|done].
    rewrite all_fit_true in E'. destruct E. intros k Hk%elem_of_seq.
    apply Z.leb_le, (E' KReserved k). lia.
Qed.

Lemma classify_row F q m :
  all_fit F = true →
  classify (charges F) (values q) m =
  let F' := λ kd k, F kd k + (if measured_kind (measurement k m) == kd
                              then measured_charge (quantity k q) (measurement k m) else 0) in
  if all_fit F' then Ok (charges F') else Err budget_overflow.
Proof.
  intros Hfit. rewrite all_fit_true in Hfit. cbn zeta.
  unfold classify. rewrite !values_row, !nth_row by lia.
  change (mq_duration m) with (measurement 0 m). change (mq_tokens m) with (measurement 1 m).
  change (mq_cost m) with (measurement 2 m). change (mq_tool_calls m) with (measurement 3 m).
  set (kd := λ k, measured_kind (measurement k m)).
  set (v := λ k, measured_charge (quantity k q) (measurement k m)).
  match goal with |- _ = if all_fit ?G then _ else _ => set (F' := G) end.
  assert (∀ kd' k, F' kd' k = F kd' k + (if kd k == kd' then v k else 0)) as HF' by done.
  do 4 (rewrite classify_one_row by lia;
    match goal with |- context [raise (measured_kind (measurement ?k m)) _ _ ?G] =>
      change (measured_kind (measurement k m)) with (kd k);
      change (measured_charge (quantity k q) (measurement k m)) with (v k);
      change (G (kd k) k) with (F (kd k) k);
      destruct (Z.leb_spec (F (kd k) k + v k) u64_max); cbn [mbind result_bind];
      [|apply (all_fit_if _ _ F' (kd k) k); [lia|]; rewrite HF', eqb_refl; lia]
    end).
  assert (all_fit F' = true) as ->.
  - apply all_fit_true. intros kd' k Hk. rewrite HF'. specialize (Hfit kd' k Hk).
    destruct (kd k == kd') eqn:E; [|lia]. apply eqb_true_1 in E as <-.
    by do 4 (destruct k as [|k]; [done|]); lia.
  - f_equal. apply charges_ext. intros kd' k Hk. rewrite HF'. unfold raise.
    do 4 (destruct k as [|k]; [cbn; destruct (kd _ == kd'); lia|]). lia.
Qed.

(** One reservation: its charge goes to its column, or a column overflows. *)
Lemma charge_reservation_row F r :
  all_fit F = true →
  charge_reservation (charges F) r =
  let F' := λ kd k, F kd k + part kd k r in
  if all_fit F' then Ok (charges F') else Err budget_overflow.
Proof.
  intros Hfit. unfold charge_reservation, part, kind_of, charge.
  destruct (br_reconciliation r) as [[id m]|]; [by apply classify_row|by apply add_reserved_row].
Qed.

(** All of them, when no charge is negative. *)
Lemma charge_all_row F rs :
  all_fit F = true → (∀ r k, r ∈ rs → (k < 4)%nat → 0 ≤ charge k r) →
  charge_all (charges F) rs =
  let F' := λ kd k, F kd k + sum_of (part kd k) rs in
  if all_fit F' then Ok (charges F') else Err budget_overflow.
Proof.
  revert F. induction rs as [|r rs IH]; intros F Hfit Hpos; cbn zeta; cbn [charge_all sum_of foldr].
  { erewrite (charges_ext (λ kd k, F kd k + 0) F) by (intros; lia).
    replace (all_fit (λ kd k, F kd k + 0)) with true; [done|]. symmetry.
    rewrite all_fit_true in *. intros kd k Hk. specialize (Hfit kd k Hk). lia. }
  rewrite charge_reservation_row by done. cbn zeta.
  assert (∀ kd k, (k < 4)%nat → 0 ≤ sum_of (part kd k) rs) as Hrest.
  { intros kd k Hk. clear IH. induction rs as [|x rs IH]; cbn; [lia|].
    assert (0 ≤ part kd k x) by (unfold part; destruct (_ == _); [|lia]; apply Hpos; set_solver).
    assert (0 ≤ sum_of (part kd k) rs) by (apply IH; intros; apply Hpos; set_solver).
    unfold sum_of in *. lia. }
  destruct (all_fit (λ kd k, F kd k + part kd k r)) eqn:E; cbn [mbind result_bind].
  - rewrite (IH _ E) by (intros; apply Hpos; set_solver). cbn zeta.
    assert (∀ kd k, F kd k + part kd k r + sum_of (part kd k) rs
      = F kd k + (part kd k r + sum_of (part kd k) rs)) as Hassoc by (intros; lia).
    unfold sum_of in *. erewrite (charges_ext (λ kd k, F kd k + part kd k r + _)) by (intros; apply Hassoc).
    replace (all_fit (λ kd k, F kd k + part kd k r + foldr (λ x acc, part kd k x + acc) 0 rs))
      with (all_fit (λ kd k, F kd k + (part kd k r + foldr (λ x acc, part kd k x + acc) 0 rs))); [done|].
    apply eq_iff_eq_true. rewrite !all_fit_true. by setoid_rewrite Hassoc.
  - match goal with |- _ = if all_fit ?G then _ else _ => destruct (all_fit G) eqn:E' end; [|done].
    apply not_true_iff_false in E. destruct E. rewrite all_fit_true in *. intros kd k Hk.
    specialize (E' kd k Hk). specialize (Hrest kd k Hk). unfold sum_of in *. lia.
Qed.

(** ** The balance *)

Definition column (l : BudgetLedger) (kd : ChargeKind) (k : nat) : Z :=
  sum_of (part kd k) (btree_values (ledger_reservations l)).

(** Everything charged to an account in a dimension. *)
Definition charged (l : BudgetLedger) (k : nat) : Z :=
  sum_of (charge k) (btree_values (ledger_reservations l)).

Definition limit_of (limits : BudgetLimits) (k : nat) : Z := nth k (limit_values limits) 0.

(** What a balance should say. *)
Definition expected_balance (l : BudgetLedger) (limits : BudgetLimits) : BudgetBalance :=
  MkBalance limits
    (quantities (row (column l KReserved))) (quantities (row (column l KObserved)))
    (quantities (row (column l KEstimated))) (quantities (row (column l KUnknown)))
    (quantities (row (λ k, Z.max 0 (charged l k - limit_of limits k))))
    (quantities (row (λ k, Z.max 0 (limit_of limits k - charged l k)))).

(** Every amount is a [u64]; the deserialised types hold nothing else. *)
Definition charges_are_amounts (l : BudgetLedger) : Prop :=
  ∀ id r k, ledger_reservations l !! id = Some r → (k < 4)%nat →
    0 ≤ quantity k (br_quantities r) ∧ 0 ≤ charge k r.

Lemma part_split k r :
  charge k r = part KReserved k r + part KObserved k r + part KEstimated k r + part KUnknown k r.
Proof.
  unfold part. destruct (kind_of k r); repeat match goal with |- context [?a == ?b] =>
    let x := eval vm_compute in (a == b) in change (a == b) with x end; cbn match; lia.
Qed.

Lemma sum_of_add {A} (f g : A → Z) l : sum_of (λ x, f x + g x) l = sum_of f l + sum_of g l.
Proof. induction l as [|x l IH]; cbn in *; [done|]. unfold sum_of in *. lia. Qed.

Lemma sum_of_ext {A} (f g : A → Z) l : (∀ x, f x = g x) → sum_of f l = sum_of g l.
Proof. intros H. induction l as [|x l IH]; cbn; [done|]. rewrite H. unfold sum_of in *. lia. Qed.

Lemma sum_of_nonneg {A} (f : A → Z) l : (∀ x, x ∈ l → 0 ≤ f x) → 0 ≤ sum_of f l.
Proof.
  intros H. induction l as [|x l IH]; cbn; [done|].
  assert (0 ≤ f x) by (apply H; set_solver).
  assert (0 ≤ sum_of f l) by (apply IH; set_solver). unfold sum_of in *. lia.
Qed.

Lemma charged_split l k :
  charged l k = column l KReserved k + column l KObserved k + column l KEstimated k + column l KUnknown k.
Proof.
  unfold charged, column. rewrite (sum_of_ext _ _ _ (part_split k)). by rewrite !sum_of_add.
Qed.

Lemma column_nonneg l kd k : charges_are_amounts l → (k < 4)%nat → 0 ≤ column l kd k.
Proof.
  intros Ha Hk. apply sum_of_nonneg. intros r (id & Hr)%elem_of_btree_values.
  unfold part. destruct (_ == _); [|lia]. by eapply Ha.
Qed.

Definition row_fits (f : nat → Z) : bool := all (λ k, f k <=? u64_max) (seq 0 4).

Lemma row_fits_true f : row_fits f = true ↔ ∀ k, (k < 4)%nat → f k ≤ u64_max.
Proof.
  unfold row_fits. rewrite all_true. setoid_rewrite elem_of_seq. setoid_rewrite Z.leb_le.
  split; intros H k Hk; apply H; lia.
Qed.

Lemma row_fits_ext f g : (∀ k, f k = g k) → row_fits f = row_fits g.
Proof. intros H. apply eq_iff_eq_true. rewrite !row_fits_true. by setoid_rewrite H. Qed.

Lemma if_row_ext f g : (∀ k, f k = g k) →
  (if row_fits f then Ok (row f) else Err budget_overflow) =
  (if row_fits g then Ok (row g) else Err budget_overflow).
Proof. intros H. rewrite (row_fits_ext f g H). unfold row. by rewrite !H. Qed.

Lemma sums_rows (fs : list (nat → Z)) f0 :
  (∀ k f, (k < 4)%nat → f ∈ fs → 0 ≤ f k) →
  row_fits f0 = true →
  sums_from (row f0) (row <$> fs) =
  if row_fits (λ k, f0 k + sum_of (λ f, f k) fs)
  then Ok (row (λ k, f0 k + sum_of (λ f, f k) fs)) else Err budget_overflow.
Proof.
  revert f0. induction fs as [|f fs IH]; intros f0 Hpos Hf0; cbn [fmap list_fmap sums_from].
  { rewrite (if_row_ext _ f0), Hf0; [done|]. intros. cbn. lia. }
  rewrite add_row. fold (row_fits (λ k, f0 k + f k)).
  assert (∀ k, (k < 4)%nat → 0 ≤ sum_of (λ f, f k) fs) as Hrest
    by (intros; apply sum_of_nonneg; intros; apply Hpos; set_solver).
  assert (∀ k, f0 k + sum_of (λ g, g k) (f :: fs) = f0 k + f k + sum_of (λ g, g k) fs) as Hassoc
    by (intros; cbn; unfold sum_of; lia).
  destruct (row_fits (λ k, f0 k + f k)) eqn:E; cbn [mbind result_bind].
  - etrans; [apply (IH (λ k, f0 k + f k)); [set_solver|done]|].
    apply if_row_ext. intros. by rewrite Hassoc.
  - destruct (row_fits (λ k, f0 k + sum_of _ (f :: fs))) eqn:E'; [|done].
    apply not_true_iff_false in E. destruct E. rewrite row_fits_true in *.
    intros k Hk. specialize (E' k Hk). specialize (Hrest k Hk). rewrite Hassoc in E'. lia.
Qed.

(** The balance is the sum of the charges, and it exists exactly when no sum
    overflows. *)
Lemma ledger_balance_row l limits :
  ledger_limits l = Some limits → charges_are_amounts l →
  ledger_balance l =
  if row_fits (charged l) then Ok (expected_balance l limits) else Err budget_overflow.
Proof.
  intros Hl Ha. unfold ledger_balance. rewrite Hl. cbn [ok_or mbind result_bind].
  change (MkCharges zeros zeros zeros zeros) with (charges (λ _ _, 0)).
  rewrite charge_all_row.
  2:{ apply all_fit_true. intros. unfold u64_max. lia. }
  2:{ intros r k (id & Hr)%elem_of_btree_values Hk. by eapply Ha. }
  cbn zeta. change (all_fit (λ kd k, 0 + sum_of (part kd k) _)) with (all_fit (column l)).
  change (charges (λ kd k, 0 + sum_of (part kd k) _)) with (charges (column l)).
  assert (∀ kd k, (k < 4)%nat → column l kd k ≤ charged l k) as Hle.
  { intros kd k Hk. rewrite charged_split.
    pose proof (column_nonneg l KReserved k Ha Hk). pose proof (column_nonneg l KObserved k Ha Hk).
    pose proof (column_nonneg l KEstimated k Ha Hk). pose proof (column_nonneg l KUnknown k Ha Hk).
    destruct kd; lia. }
  destruct (all_fit (column l)) eqn:Efit; cbn [mbind result_bind].
  2:{ destruct (row_fits (charged l)) eqn:E; [|done]. apply not_true_iff_false in Efit. destruct Efit.
      rewrite row_fits_true in E. apply all_fit_true. intros kd k Hk.
      specialize (E k Hk). specialize (Hle kd k Hk). lia. }
  unfold sums.
  change [ch_reserved (charges (column l)); ch_observed _; ch_estimated _; ch_unknown _]
    with (row <$> [column l KReserved; column l KObserved; column l KEstimated; column l KUnknown]).
  change zeros with (row (λ _, 0)). rewrite sums_rows.
  2:{ intros k f Hk Hf. repeat (apply elem_of_cons in Hf as [->|Hf]; [by apply column_nonneg|]).
      by apply elem_of_nil in Hf. }
  2:{ apply row_fits_true. intros. unfold u64_max. lia. }
  assert (∀ k, 0 + sum_of (λ f, f k) [column l KReserved; column l KObserved; column l KEstimated;
    column l KUnknown] = charged l k) as Hsum by (intros k; rewrite charged_split; cbn; lia).
  rewrite (if_row_ext _ (charged l) Hsum). by destruct (row_fits (charged l)).
Qed.

(** ** Capacity *)

(** The values the constructors and the wire format allow: [u64] amounts. *)
Definition is_amount (v : Z) : bool := (0 <=? v) && (v <=? u64_max).
Definition measurement_valid (m : BudgetMeasurement) : bool :=
  match m with Observed v | Estimated v => is_amount v | Unknown => true end.
Definition measured_valid (m : MeasuredBudgetQuantities) : bool := all measurement_valid (measurements m).
Definition limits_valid (limits : BudgetLimits) : bool := all is_amount (limit_values limits).
Definition quantities_valid (q : BudgetQuantities) : bool := all is_amount (values q).

Definition ledger_event_valid (e : BudgetLedgerEvent) : bool :=
  match e with
  | LedgerOpened _ limits _ => limits_valid limits
  | LedgerReserved _ _ _ q estimate _ => quantities_valid q && measured_valid estimate
  | LedgerReconciled _ _ _ measured _ => measured_valid measured
  end.

Lemma is_amount_true v : is_amount v = true ↔ 0 ≤ v ≤ u64_max.
Proof. unfold is_amount. rewrite andb_true_iff, !Z.leb_le. done. Qed.

Lemma row_all (P : Z → bool) f k : all P (row f) = true → (k < 4)%nat → P (f k) = true.
Proof.
  rewrite all_true. intros H Hk. apply H. unfold row.
  by do 4 (destruct k as [|k]; [set_solver|]); lia.
Qed.

Lemma quantity_amount q k : quantities_valid q = true → (k < 4)%nat → 0 ≤ quantity k q ≤ u64_max.
Proof. intros H Hk. apply is_amount_true. by apply (row_all _ (λ k, quantity k q)). Qed.

Lemma limit_amount limits k :
  limits_valid limits = true → (k < 4)%nat → 0 ≤ limit_of limits k ≤ u64_max.
Proof. intros H Hk. apply is_amount_true. by apply (row_all _ (λ k, limit_of limits k)). Qed.

Lemma measurement_amount m k requested :
  measured_valid m = true → 0 ≤ requested → (k < 4)%nat →
  0 ≤ measured_charge requested (measurement k m).
Proof.
  unfold measured_valid. rewrite all_true. intros H Hr Hk.
  assert (measurement_valid (measurement k m) = true) as Hm.
  { apply H. unfold measurement, measurements. by do 4 (destruct k as [|k]; [set_solver|]); lia. }
  unfold measured_charge. destruct (measurement k m); cbn in Hm; [..|done];
    by apply is_amount_true in Hm as [? _].
Qed.

Lemma zip_row_find (f : nat → Z) :
  List.find (λ e, 0 <? e.2) (zip budget_dimensions (row f)) = None ↔ ∀ k, (k < 4)%nat → f k ≤ 0.
Proof.
  unfold row. cbn.
  destruct (Z.ltb_spec 0 (f 0%nat)); [split; [done|intros H'; specialize (H' 0%nat); lia]|].
  destruct (Z.ltb_spec 0 (f 1%nat)); [split; [done|intros H'; specialize (H' 1%nat); lia]|].
  destruct (Z.ltb_spec 0 (f 2%nat)); [split; [done|intros H'; specialize (H' 2%nat); lia]|].
  destruct (Z.ltb_spec 0 (f 3%nat)); [split; [done|intros H'; specialize (H' 3%nat); lia]|].
  split; [|done]. intros _ k Hk. by do 4 (destruct k as [|k]; [lia|]); lia.
Qed.

(** Capacity is granted exactly when the request still fits every limit. *)
Lemma ensure_capacity_Ok l account limits q :
  ledger_account l = Some account → ledger_limits l = Some limits → limits_valid limits = true →
  charges_are_amounts l → quantities_valid q = true →
  ensure_capacity l q = Ok tt ↔
  ∀ k, (k < 4)%nat → charged l k + quantity k q ≤ limit_of limits k.
Proof.
  intros Hacc Hl Hlim Ha Hq. unfold ensure_capacity. rewrite Hacc. cbn [ok_or mbind result_bind].
  rewrite (ledger_balance_row _ _ Hl Ha).
  assert (∀ k, (k < 4)%nat → 0 ≤ quantity k q) as Hpos by (intros k Hk; by apply quantity_amount).
  destruct (row_fits (charged l)) eqn:Efit; cbn [mbind result_bind].
  2:{ split; [done|]. intros H. apply not_true_iff_false in Efit. destruct Efit. apply row_fits_true.
      intros k Hk. specialize (H k Hk). specialize (Hpos k Hk).
      pose proof (limit_amount limits k Hlim Hk). lia. }
  change (values (bal_overrun (expected_balance l limits)))
    with (row (λ k, Z.max 0 (charged l k - limit_of limits k))).
  change (values (bal_available (expected_balance l limits)))
    with (row (λ k, Z.max 0 (limit_of limits k - charged l k))).
  rewrite (values_row q).
  destruct (List.find _ _) as [[dim v]|] eqn:Ef.
  - split; [done|]. intros H. assert (Hn : Some (dim, v) = None); [|done]. rewrite <-Ef.
    apply zip_row_find. intros k Hk. specialize (H k Hk). specialize (Hpos k Hk). lia.
  - rewrite zip_row_find in Ef. rewrite try_for_each_Ok. split.
    + intros H k Hk. specialize (Ef k Hk).
      assert (∃ dim, (dim, quantity k q, Z.max 0 (limit_of limits k - charged l k)) ∈
        zip (zip budget_dimensions (row (λ k, quantity k q)))
          (row (λ k, Z.max 0 (limit_of limits k - charged l k)))) as [dim Hin].
      { exists (nth k budget_dimensions DimCost). apply (list_elem_of_lookup_2 _ k).
        by do 4 (destruct k as [|k]; [done|]); lia. }
      specialize (H _ Hin). cbv beta iota in H. apply ensure_Ok, negb_true_iff, Z.ltb_ge in H. lia.
    + intros H [[dim wanted] available] Hin. apply ensure_Ok, negb_true_iff, Z.ltb_ge.
      pose proof (H 0%nat ltac:(lia)). pose proof (H 1%nat ltac:(lia)).
      pose proof (H 2%nat ltac:(lia)). pose proof (H 3%nat ltac:(lia)).
      unfold row, budget_dimensions in Hin. cbn [zip_with] in Hin. repeat (apply elem_of_cons in Hin as [[= -> -> ->]|Hin]; [lia|]).
      by apply elem_of_nil in Hin.
Qed.

(** ** Accepted streams *)

Section streams.
Context {Hsha : Sha256}.

(** What every ledger folded from an accepted stream satisfies. *)
Record ledger_ok (l : BudgetLedger) : Prop := {
  ok_open : is_some (ledger_account l) = is_some (ledger_limits l);
  ok_limits : ∀ limits, ledger_limits l = Some limits → limits_valid limits = true;
  ok_amounts : charges_are_amounts l;
  ok_reservations : ∀ id r, ledger_reservations l !! id = Some r →
    ∃ account limits, ledger_account l = Some account ∧ ledger_limits l = Some limits ∧
      id = reservation_for_operation account (br_operation_id r) ∧
      estimate_quantities (br_estimate r) limits = Ok (br_quantities r);
}.

Lemma ledger_empty_ok : ledger_ok ledger_empty.
Proof. by constructor. Qed.

(** An accepted reservation, case by case. *)
Lemma ledger_apply_reserved_Ok l id operation q estimate at_ l' :
  ledger_apply_reserved l id operation q estimate at_ = Ok l' →
  ∃ account limits, ledger_account l = Some account ∧ ledger_limits l = Some limits ∧
    id = reservation_for_operation account operation ∧ ledger_reservations l !! id = None ∧
    ensure_capacity l q = Ok tt ∧ estimate_quantities estimate limits = Ok q ∧
    l' = l <| ledger_reservations := <[id := reservation_new id operation q estimate at_]>
                                       (ledger_reservations l) |>.
Proof using.
  unfold ledger_apply_reserved. intros H.
  apply bind_Ok in H as (account & Hacc%ok_or_Ok & H).
  apply bind_Ok in H as (? & Hid%ensure_Ok%eqb_true_1 & H).
  apply bind_Ok in H as (? & Hnew%ensure_Ok%negb_true_iff%is_some_false & H).
  apply bind_Ok in H as ([] & Hcap & H).
  apply bind_Ok in H as (limits & Hl%ok_or_Ok & H).
  apply bind_Ok in H as (expected & He & H).
  apply bind_Ok in H as (? & ->%ensure_Ok%eqb_true_1 & [= <-]).
  exists account, limits. done.
Qed.

Lemma ledger_apply_reconciled_Ok l id reconciliation measured l' :
  ledger_apply_reconciled l id reconciliation measured = Ok l' →
  ∃ r, ledger_reservations l !! id = Some r ∧
    (∀ stored_id stored, br_reconciliation r = Some (stored_id, stored) →
       stored_id = reconciliation ∧ advances measured stored = true) ∧
    l' = l <| ledger_reservations := <[id := reservation_reconcile r reconciliation measured]>
                                       (ledger_reservations l) |>.
Proof using.
  unfold ledger_apply_reconciled. intros H.
  apply bind_Ok in H as (r & Hr%ok_or_Ok & H).
  apply bind_Ok in H as (? & Hc%ensure_Ok & [= <-]).
  exists r. split_and!; [done| |done]. intros stored_id stored Hs. rewrite Hs in Hc.
  by apply andb_true_iff in Hc as [->%eqb_true_1 ?].
Qed.

(** One accepted event. *)
Inductive ledger_step (l : BudgetLedger) : BudgetLedgerEvent → BudgetLedger → Prop :=
| step_opened account limits at_ :
    ledger_account l = None →
    ledger_step l (LedgerOpened account limits at_)
      (l <| ledger_account := Some account |> <| ledger_limits := Some limits |>)
| step_reserved account limits operation q estimate at_ :
    ledger_account l = Some account → ledger_limits l = Some limits →
    ledger_reservations l !! reservation_for_operation account operation = None →
    ensure_capacity l q = Ok tt → estimate_quantities estimate limits = Ok q →
    let id := reservation_for_operation account operation in
    ledger_step l (LedgerReserved account id operation q estimate at_)
      (l <| ledger_reservations := <[id := reservation_new id operation q estimate at_]>
                                     (ledger_reservations l) |>)
| step_reconciled account id reconciliation measured at_ r :
    ledger_reservations l !! id = Some r →
    (∀ stored_id stored, br_reconciliation r = Some (stored_id, stored) →
       stored_id = reconciliation ∧ advances measured stored = true) →
    ledger_step l (LedgerReconciled account id reconciliation measured at_)
      (l <| ledger_reservations := <[id := reservation_reconcile r reconciliation measured]>
                                     (ledger_reservations l) |>).

Lemma ledger_apply_step l e l' :
  ledger_apply l e = Ok l' →
  ∃ l1, ledger_step l e l1 ∧ l' = l1 <| ledger_version := ledger_version_next (ledger_version l1) |>.
Proof using.
  unfold ledger_apply. intros H.
  apply bind_Ok in H as (? & Hacc%ensure_Ok & H). apply bind_Ok in H as (l1 & H & [= <-]).
  exists l1. split; [|done]. destruct e as [account limits at_|account id op q est at_|account id rid m at_].
  - apply bind_Ok in H as (? & Hn%ensure_Ok%negb_true_iff%is_some_false & [= <-]).
    by constructor.
  - apply ledger_apply_reserved_Ok in H as (account' & limits & Ha & Hl & -> & Hn & Hc & He & ->).
    rewrite Ha in Hacc. cbn in Hacc. apply eqb_true_1 in Hacc as ->. by eapply step_reserved.
  - apply ledger_apply_reconciled_Ok in H as (r & Hr & Hs & ->). by constructor.
Qed.

Lemma ledger_fold_app l es1 es2 :
  ledger_fold l (es1 ++ es2) = l1 ← ledger_fold l es1; ledger_fold l1 es2.
Proof using.
  revert l. induction es1 as [|e es1 IH]; intros l; cbn [app ledger_fold]; [done|].
  destruct (ledger_apply l e); cbn; [apply IH|done..].
Qed.

Lemma ledger_fold_snoc l es e l' :
  ledger_fold l (es ++ [e]) = Ok l' ↔ ∃ l1, ledger_fold l es = Ok l1 ∧ ledger_apply l1 e = Ok l'.
Proof using.
  rewrite ledger_fold_app, bind_Ok. split.
  - intros (l1 & Hf & (l2 & Ha & [= <-])%bind_Ok). by exists l1.
  - intros (l1 & Hf & Ha). exists l1. split; [done|]. apply bind_Ok. by exists l'.
Qed.

(** An invariant of accepted events holds of every folded ledger. *)
Lemma ledger_fold_ind (P : BudgetLedger → Prop) es l l' :
  P l → (∀ l e l', P l → ledger_event_valid e = true → ledger_apply l e = Ok l' → P l') →
  all ledger_event_valid es = true → ledger_fold l es = Ok l' → P l'.
Proof using.
  intros Hl Hstep Hv. revert l Hl. induction es as [|e es IH]; intros l Hl; cbn; [by intros [= <-]|].
  cbn in Hv. apply andb_true_iff in Hv as [He Hv].
  intros (l1 & Ha & Hf)%bind_Ok. eapply (IH Hv); [|done]. by eapply Hstep.
Qed.

(** ** The invariant *)

Lemma reserved_charge id operation q estimate at_ k :
  charge k (reservation_new id operation q estimate at_) = quantity k q.
Proof using. done. Qed.

Lemma ledger_ok_step l e l' :
  ledger_ok l → ledger_event_valid e = true → ledger_step l e l' → ledger_ok l'.
Proof using.
  intros [Hopen Hlim Ham Hres] Hv Hs. destruct Hs as [account limits at_ Hnone
    |account limits op q est at_ Ha Hl Hnew Hcap Hest id|account id rid m at_ r Hr Hadv]; cbn in Hv.
  - constructor; cbn; [done|by intros ? [= <-]|done|].
    intros id r Hr. destruct (Hres _ _ Hr) as (? & ? & ? & _). congruence.
  - apply andb_true_iff in Hv as [Hq _]. constructor; cbn; [done|done| |].
    + unfold charges_are_amounts. cbn.
      intros id' r' k [[<- <-]|[Hne Hr']]%lookup_insert_Some Hk; [|by eapply Ham].
      rewrite reserved_charge. split; by apply quantity_amount.
    + intros id' r' [[<- <-]|[Hne Hr']]%lookup_insert_Some; [|by apply Hres].
      exists account, limits. done.
  - constructor; cbn; [done|done| |].
    + unfold charges_are_amounts. cbn.
      intros id' r' k [[<- <-]|[Hne Hr']]%lookup_insert_Some Hk; [|by eapply Ham].
      destruct (Ham _ _ _ Hr Hk) as [Hq _]. split; [done|]. cbn. by apply measurement_amount.
    + intros id' r' [[<- <-]|[Hne Hr']]%lookup_insert_Some; [|by apply Hres].
      by apply (Hres _ _ Hr).
Qed.

Lemma ledger_ok_apply l e l' :
  ledger_ok l → ledger_event_valid e = true → ledger_apply l e = Ok l' → ledger_ok l'.
Proof using.
  intros Hl Hv (l1 & Hs & ->)%ledger_apply_step.
  destruct (ledger_ok_step _ _ _ Hl Hv Hs). by constructor.
Qed.

Lemma rehydrated_ok es l :
  all ledger_event_valid es = true → ledger_rehydrate es = Ok l → ledger_ok l.
Proof using.
  intros Hv. apply (ledger_fold_ind ledger_ok es ledger_empty l ledger_empty_ok); [|done].
  intros. by eapply ledger_ok_apply.
Qed.

(** ** Charges, event by event *)

#[local] Arguments limit_of : simpl never.
#[local] Arguments charge : simpl never.
#[local] Arguments quantity : simpl never.

Lemma sum_of_perm {A} (f : A → Z) l1 l2 : l1 ≡ₚ l2 → sum_of f l1 = sum_of f l2.
Proof using. induction 1; cbn in *; unfold sum_of in *; lia. Qed.

Lemma sum_values_insert (f : BudgetReservation → Z) m id r :
  m !! id = None →
  sum_of f (btree_values (<[id := r]> m)) = f r + sum_of f (btree_values m).
Proof using.
  intros Hid. unfold btree_values. change (f r + sum_of f ?l) with (sum_of f (r :: l)).
  apply sum_of_perm. rewrite !btree_entries_perm, map_to_list_insert by done. done.
Qed.

Lemma sum_values_update (f : BudgetReservation → Z) m id r0 r :
  m !! id = Some r0 →
  sum_of f (btree_values (<[id := r]> m)) = sum_of f (btree_values m) - f r0 + f r.
Proof using.
  intros Hid. rewrite <-(insert_delete_eq m id r).
  rewrite sum_values_insert by apply lookup_delete_eq.
  rewrite <-(insert_delete_id m id r0 Hid) at 2.
  rewrite sum_values_insert by apply lookup_delete_eq. lia.
Qed.

(** By how much an event raises what was charged before: only measuring a
    reservation can. *)
Definition raise_by (k : nat) (l : BudgetLedger) (e : BudgetLedgerEvent) : Z :=
  match e with
  | LedgerReconciled _ id rid m _ =>
      match ledger_reservations l !! id with
      | Some r => Z.max 0 (charge k (reservation_reconcile r rid m) - charge k r)
      | None => 0
      end
  | _ => 0
  end.

Lemma raise_by_nonneg k l e : 0 ≤ raise_by k l e.
Proof using.
  destruct e as [| |? id ? m ?]; cbn [raise_by]; try lia.
  destruct (ledger_reservations l !! id); lia.
Qed.

Fixpoint raised (k : nat) (l : BudgetLedger) (es : list BudgetLedgerEvent) : Z :=
  match es with
  | [] => 0
  | e :: es =>
      raise_by k l e + match ledger_apply l e with Ok l' => raised k l' es | _ => 0 end
  end.

(** The charges stay within the limit plus [slack]. *)
Definition within (k : nat) (slack : Z) (l : BudgetLedger) : Prop :=
  ∀ limits, ledger_limits l = Some limits → charged l k ≤ limit_of limits k + slack.

Lemma unopened_charges l k : ledger_ok l → ledger_account l = None → charged l k = 0.
Proof using.
  intros [_ _ _ Hres] Hn. unfold charged.
  assert (ledger_reservations l = ∅) as ->; [|done].
  apply map_empty. intros id. destruct (ledger_reservations l !! id) as [r|] eqn:Hr; [|done].
  destruct (Hres _ _ Hr) as (? & ? & ? & _). congruence.
Qed.

Lemma within_step l e l' k slack :
  ledger_ok l → ledger_event_valid e = true → ledger_step l e l' → (k < 4)%nat →
  0 ≤ slack → within k slack l → within k (slack + raise_by k l e) l'.
Proof using.
  intros Hok Hv Hs Hk Hsl Hin. pose proof Hok as [Hopen Hlim Ham Hres]. unfold within in *.
  destruct Hs as [account limits at_ Hnone
    |account limits op q est at_ Ha Hl Hnew Hcap Hest id|account id rid m at_ r Hr Hadv];
    unfold charged in *; cbn in *.
  - intros limits' [= <-]. rewrite (unopened_charges l k Hok Hnone : sum_of _ _ = 0).
    pose proof (limit_amount limits k Hv Hk). lia.
  - apply andb_true_iff in Hv as [Hq _]. intros limits' Hl'. assert (limits' = limits) as -> by congruence.
    rewrite sum_values_insert by done. rewrite reserved_charge.
    pose proof (proj1 (ensure_capacity_Ok l account limits q Ha Hl (Hlim _ Hl) Ham Hq) Hcap k Hk).
    unfold charged in *. lia.
  - intros limits' Hl'. specialize (Hin _ Hl'). rewrite (sum_values_update _ _ _ r) by done.
    rewrite Hr. lia.
Qed.

Lemma within_fold k es l l' slack :
  (k < 4)%nat → ledger_ok l → all ledger_event_valid es = true → 0 ≤ slack → within k slack l →
  ledger_fold l es = Ok l' → within k (slack + raised k l es) l'.
Proof using.
  intros Hk. revert l slack. induction es as [|e es IH]; intros l slack Hok Hv Hsl Hin; cbn [ledger_fold].
  { intros [= <-]. cbn. by rewrite Z.add_0_r. }
  cbn in Hv. apply andb_true_iff in Hv as [He Hv]. intros (l1 & Ha & Hf)%bind_Ok.
  cbn [raised]. rewrite Ha, Z.add_assoc.
  apply IH; [by eapply ledger_ok_apply|done| | |done].
  - pose proof (raise_by_nonneg k l e). lia.
  - apply ledger_apply_step in Ha as (l2 & Hs & ->). by apply (within_step l e l2).
Qed.

(** C29: an accepted stream never sells more than the limit, apart from what later
    measurements added to earlier charges, and a reservation is accepted only
    where everything charged, itself included, is within the limit. *)
Theorem budget_is_never_oversold es l limits dim :
  all ledger_event_valid es = true → ledger_rehydrate es = Ok l → ledger_limits l = Some limits →
  charged l (dim_index dim) ≤ limit_of limits (dim_index dim) + raised (dim_index dim) ledger_empty es ∧
  ∀ account id operation q estimate at_ l',
    ledger_event_valid (LedgerReserved account id operation q estimate at_) = true →
    ledger_apply l (LedgerReserved account id operation q estimate at_) = Ok l' →
    charged l' (dim_index dim) = charged l (dim_index dim) + quantity (dim_index dim) q ∧
    charged l' (dim_index dim) ≤ limit_of limits (dim_index dim).
Proof using.
  intros Hv Hf Hl. assert (dim_index dim < 4)%nat as Hk by (destruct dim; cbn; lia).
  pose proof (rehydrated_ok _ _ Hv Hf) as Hok. split.
  - refine (within_fold (dim_index dim) es ledger_empty l 0 Hk ledger_empty_ok Hv _ _ Hf limits Hl); [lia|].
    by intros ?.
  - intros account id op q est at_ l' Hve (l1 & Hs & ->)%ledger_apply_step.
    apply andb_true_iff in Hve as [Hq _]. inversion Hs; subst. unfold charged. cbn.
    rewrite sum_values_insert by done. rewrite reserved_charge.
    pose proof Hok as [_ Hlim Ham _].
    pose proof (proj1 (ensure_capacity_Ok l account limits q ltac:(done) Hl (Hlim _ Hl) Ham Hq)
      ltac:(done) _ Hk). unfold charged in *. lia.
Qed.

(** The balance of an account is the sum of what its reservations are charged,
    column by column, with what is left and what is overrun; it fails, with an
    overflow, exactly when a total does not fit 64 bits. *)
Theorem balance_is_the_sum_of_charges es l limits :
  all ledger_event_valid es = true → ledger_rehydrate es = Ok l → ledger_limits l = Some limits →
  ledger_balance l =
  if row_fits (charged l) then Ok (expected_balance l limits) else Err budget_overflow.
Proof using. intros Hv Hf Hl. apply ledger_balance_row; [done|]. by apply (rehydrated_ok _ _ Hv Hf). Qed.

(** ** Decisions *)

(** The events a ledger decides on. *)
Inductive ledger_decides (l : BudgetLedger) (e : BudgetLedgerEvent) : Prop :=
| decides_open account limits at_ :
    ledger_decide_open l account limits at_ = Ok (Some e) → ledger_decides l e
| decides_reserve operation estimate at_ :
    ledger_decide_reserve l operation estimate at_ = Ok (Some e) → ledger_decides l e
| decides_reconcile id reconciliation measured at_ :
    ledger_decide_reconcile l id reconciliation measured at_ = Ok (Some e) → ledger_decides l e.

Lemma reserve_Some l operation estimate at_ e :
  ledger_decide_reserve l operation estimate at_ = Ok (Some e) →
  ∃ account limits q, ledger_account l = Some account ∧ ledger_limits l = Some limits ∧
    estimate_quantities estimate limits = Ok q ∧ ensure_capacity l q = Ok tt ∧
    ledger_reservations l !! reservation_for_operation account operation = None ∧
    e = LedgerReserved account (reservation_for_operation account operation) operation q estimate at_.
Proof using.
  unfold ledger_decide_reserve. intros H.
  apply bind_Ok in H as (account & Ha%ok_or_Ok & H). apply bind_Ok in H as (limits & Hl%ok_or_Ok & H).
  apply bind_Ok in H as (q & Hq & H). exists account, limits, q.
  destruct (ledger_reservations l !! _) as [r|] eqn:Hr; [by destruct (_ && _)|].
  apply bind_Ok in H as ([] & Hc & [= <-]). done.
Qed.

(** Every event a ledger decides on is one it accepts. *)
Theorem decided_budget_events_fold l e :
  ledger_decides l e → is_ok (ledger_apply l e) = true.
Proof using.
  intros [account limits at_ H|operation estimate at_ H|id rid m at_ H]; unfold ledger_apply.
  - unfold ledger_decide_open in H.
    destruct (ledger_account l) eqn:Ha, (ledger_limits l) eqn:Hl; try done; [by destruct (_ && _)|].
    by injection H as <-.
  - apply reserve_Some in H as (account & limits & q & Ha & Hl & Hq & Hc & Hn & ->). cbn.
    rewrite Ha. cbn. rewrite eqb_refl. cbn. unfold ledger_apply_reserved.
    rewrite Ha, Hl. cbn. rewrite eqb_refl, Hn, Hc. cbn. rewrite Hq. cbn. by rewrite eqb_refl.
  - unfold ledger_decide_reconcile in H.
    apply bind_Ok in H as (account & Ha%ok_or_Ok & H). apply bind_Ok in H as (r & Hr%ok_or_Ok & H).
    assert (e = LedgerReconciled account id rid m at_ ∧
      match br_reconciliation r with
      | Some (stored_id, stored) => (stored_id == rid) && advances m stored | None => true end = true)
      as [-> Hadv].
    { destruct (br_reconciliation r) as [[stored_id stored]|]; [|by injection H as <-].
      destruct (stored_id == rid) eqn:E; [|done]. cbn in H. destruct (stored == m); [done|].
      destruct (advances m stored); [|done]. by injection H as <-. }
    cbn. rewrite Ha. cbn. rewrite eqb_refl. cbn. unfold ledger_apply_reconciled.
    rewrite Hr. cbn. by rewrite Hadv.
Qed.

(** ** Retried reservations *)

(** What a ledger knows of a reservation it has accepted. *)
Definition holds (account id operation : string) (q : BudgetQuantities)
    (estimate : BudgetReservationEstimate) (l : BudgetLedger) : Prop :=
  ledger_account l = Some account ∧ id = reservation_for_operation account operation ∧
  ∃ limits r, ledger_limits l = Some limits ∧ ledger_reservations l !! id = Some r ∧
    br_operation_id r = operation ∧ br_quantities r = q ∧ br_estimate r = estimate ∧
    estimate_quantities estimate limits = Ok q.

Lemma holds_apply account id operation q estimate l e l' :
  holds account id operation q estimate l → ledger_apply l e = Ok l' →
  holds account id operation q estimate l'.
Proof using.
  intros (Ha & Hid & limits & r & Hl & Hr & Hop & Hq & Hest & Hqs) (l1 & Hs & ->)%ledger_apply_step.
  destruct Hs as [? ? ? Hnone|? ? op' q' est' at' ? ? Hnew ? ? id'|? id' rid m ? r' Hr' _]; [congruence|..];
    (split; [done|split; [done|]]); cbn; exists limits.
  - exists r. split_and!; try done. rewrite lookup_insert_ne; [done|]. intros <-. unfold id' in Hr. congruence.
  - destruct (base.decide (id' = id)) as [->|Hne].
    + exists (reservation_reconcile r rid m). assert (r' = r) as -> by congruence.
      split_and!; try done. apply lookup_insert_eq.
    + exists r. split_and!; try done. by rewrite lookup_insert_ne.
Qed.

Lemma holds_fold account id operation q estimate l es l' :
  holds account id operation q estimate l → ledger_fold l es = Ok l' →
  holds account id operation q estimate l'.
Proof using.
  revert l. induction es as [|e es IH]; intros l Hh; cbn [ledger_fold]; [by intros [= <-]|].
  intros (l1 & Ha & Hf)%bind_Ok. eapply IH; [|done]. by eapply holds_apply.
Qed.

Lemma reserved_holds l account id operation q estimate at_ l' :
  ledger_apply l (LedgerReserved account id operation q estimate at_) = Ok l' →
  ledger_reservations l !! id = None ∧ holds account id operation q estimate l'.
Proof using.
  intros (l1 & Hs & ->)%ledger_apply_step. inversion Hs; subst. split; [done|].
  split; [done|split; [done|]]. cbn. eexists _, _.
  split_and!; [done|apply lookup_insert_eq|done..].
Qed.

(** The reservations of an identifier in a stream. *)
Definition reserves (id : string) (e : BudgetLedgerEvent) : bool :=
  match e with LedgerReserved _ id' _ _ _ _ => id' == id | _ => false end.

Lemma held_not_reserved_again account id operation q estimate l es l' :
  holds account id operation q estimate l → ledger_fold l es = Ok l' → count (reserves id) es = 0%nat.
Proof using.
  revert l. induction es as [|e es IH]; intros l Hh; cbn [ledger_fold]; [done|].
  intros (l1 & Ha & Hf)%bind_Ok. unfold count. cbn.
  destruct (reserves id e) eqn:He.
  - destruct e as [|a id' op q' est at_|]; try done. apply eqb_true_1 in He as ->.
    apply reserved_holds in Ha as [Hn _]. destruct Hh as (_ & _ & _ & r & _ & Hr & _). congruence.
  - eapply IH; [|done]. by eapply holds_apply.
Qed.

Lemma reserved_once es account id operation q estimate at_ l :
  ledger_fold ledger_empty (es ++ [LedgerReserved account id operation q estimate at_]) = Ok l →
  count (reserves id) es = 0%nat.
Proof using.
  intros (l1 & Hf & [Hn _]%reserved_holds)%ledger_fold_snoc. revert Hf Hn.
  generalize ledger_empty as l0. induction es as [|e es IH]; intros l0; [done|]. cbn [ledger_fold].
  intros (l2 & Ha & Hf)%bind_Ok Hn. unfold count. cbn. destruct (reserves id e) eqn:He.
  - destruct e as [|a id' op q' est at'|]; try done. apply eqb_true_1 in He as ->.
    apply reserved_holds in Ha as [_ Hh]. apply (holds_fold _ _ _ _ _ _ _ _ Hh) in Hf.
    destruct Hf as (_ & _ & _ & r & _ & Hr & _). congruence.
  - by eapply IH.
Qed.

(** An operation is charged once: after its reservation was accepted, asking for
    it again decides nothing, however much later, asking for a different amount
    is refused, and the stream holds that reservation a single time. *)
Theorem operation_is_charged_once es1 es2 account id operation q estimate at_ l :
  ledger_rehydrate (es1 ++ LedgerReserved account id operation q estimate at_ :: es2) = Ok l →
  (∀ now, ledger_decide_reserve l operation estimate now = Ok None) ∧
  (∀ estimate' now, estimate' ≠ estimate →
     ∃ e, ledger_decide_reserve l operation estimate' now = Err e) ∧
  count (reserves id) (es1 ++ LedgerReserved account id operation q estimate at_ :: es2) = 1%nat.
Proof using.
  unfold ledger_rehydrate. intros Hall. pose proof Hall as Hsplit.
  rewrite cons_middle, app_assoc, ledger_fold_app in Hsplit.
  apply bind_Ok in Hsplit as (l1 & Hf1 & Hf2). pose proof Hf1 as Honce%reserved_once.
  apply ledger_fold_snoc in Hf1 as (l0 & _ & [_ Hh]%reserved_holds).
  pose proof (held_not_reserved_again _ _ _ _ _ _ _ _ Hh Hf2) as Hnone.
  apply (holds_fold _ _ _ _ _ _ _ _ Hh) in Hf2 as (Ha & Hid & limits & r & Hl & Hr & Hop & Hq & Hest & Hqs).
  split_and!.
  - intros now. unfold ledger_decide_reserve. rewrite Ha, Hl. cbn. rewrite Hqs, <-Hid, Hr. cbn.
    by rewrite Hop, Hq, Hest, !eqb_refl.
  - intros estimate' now Hne. unfold ledger_decide_reserve. rewrite Ha, Hl. cbn.
    destruct (estimate_quantities estimate' limits) as [q'|e|] eqn:E; cbn; [|eauto|].
    + rewrite <-Hid, Hr, Hest. rewrite (proj2 (eqb_false estimate estimate')) by done.
      rewrite andb_false_r. eauto.
    + exfalso. revert E. clear. unfold estimate_quantities, estimate_amount.
      repeat (case_match; try done).
  - unfold count in *. rewrite List.filter_app, length_app. cbn. rewrite eqb_refl. cbn. lia.
Qed.
End streams.

(** ** An account, opened, sold and measured *)

Definition demo_limits : BudgetLimits := MkLimits None (Some 100) None (Some 5) None.
Definition demo_estimate (tokens : Z) : BudgetReservationEstimate :=
  MkMeasured Unknown (Estimated tokens) Unknown (Estimated 1).

Definition ledger_after (es : list BudgetLedgerEvent) : BudgetLedger :=
  match ledger_rehydrate es with Ok l => l | _ => ledger_empty end.

Definition decided_event (r : budget_outcome (option BudgetLedgerEvent)) : list BudgetLedgerEvent :=
  match r with Ok (Some e) => [e] | _ => [] end.

Definition opened_account := decided_event (ledger_decide_open ledger_empty "ceremony-1" demo_limits 0).
Definition first_sale := decided_event
  (ledger_decide_reserve (ledger_after opened_account) "operation-1" (demo_estimate 60) 1).
Definition sold := opened_account ++ first_sale.
Definition first_bill := decided_event
  (ledger_decide_reconcile (ledger_after sold) (reservation_for_operation "ceremony-1" "operation-1")
     "receipt-1" (MkMeasured (Observed 7) (Observed 75) Unknown Unknown) 2).
Definition billed := sold ++ first_bill.

(** The second operation asks for more than the first left over. *)
Example sold_out :
  ledger_decide_reserve (ledger_after billed) "operation-2" (demo_estimate 40) 3
  = Err (Exhausted "ceremony-1" DimTokens).
Proof. vm_compute. reflexivity. Qed.

Lemma budget_is_never_oversold_witness :
  charged (ledger_after billed) (dim_index DimTokens) = 75 ∧
  charged (ledger_after billed) (dim_index DimTokens)
    ≤ limit_of demo_limits (dim_index DimTokens) + raised (dim_index DimTokens) ledger_empty billed.
Proof.
  split; [vm_compute; reflexivity|].
  refine (proj1 (budget_is_never_oversold billed (ledger_after billed) demo_limits DimTokens _ _ _));
    vm_compute; reflexivity.
Defined.

Lemma balance_is_the_sum_of_charges_witness :
  ledger_balance (ledger_after billed) =
  if row_fits (charged (ledger_after billed))
  then Ok (expected_balance (ledger_after billed) demo_limits) else Err budget_overflow.
Proof.
  refine (balance_is_the_sum_of_charges billed (ledger_after billed) demo_limits _ _ _);
    vm_compute; reflexivity.
Defined.

Lemma decided_budget_events_fold_witness :
  ∃ e, first_bill = [e] ∧ is_ok (ledger_apply (ledger_after sold) e) = true.
Proof.
  eexists. split; [vm_compute; reflexivity|].
  refine (decided_budget_events_fold (ledger_after sold) _ _).
  apply (decides_reconcile _ _ (reservation_for_operation "ceremony-1" "operation-1") "receipt-1"
    (MkMeasured (Observed 7) (Observed 75) Unknown Unknown) 2). vm_compute. reflexivity.
Defined.

Definition sale_of (tokens : Z) : BudgetLedgerEvent :=
  LedgerReserved "ceremony-1" (reservation_for_operation "ceremony-1" "operation-1") "operation-1"
    (MkQuantities 0 tokens 0 1) (demo_estimate tokens) 1.

Lemma operation_is_charged_once_witness :
  let l := ledger_after (opened_account ++ sale_of 60 :: first_bill) in
  (∀ now, ledger_decide_reserve l "operation-1" (demo_estimate 60) now = Ok None) ∧
  (∀ estimate' now, estimate' ≠ demo_estimate 60 →
     ∃ e, ledger_decide_reserve l "operation-1" estimate' now = Err e) ∧
  count (reserves (reservation_for_operation "ceremony-1" "operation-1"))
    (opened_account ++ sale_of 60 :: first_bill) = 1%nat.
Proof.
  cbv zeta.
  refine (operation_is_charged_once opened_account first_bill "ceremony-1"
    (reservation_for_operation "ceremony-1" "operation-1") "operation-1" (MkQuantities 0 60 0 1)
    (demo_estimate 60) 1 (ledger_after (opened_account ++ sale_of 60 :: first_bill)) _).
  vm_compute. reflexivity.
Defined.
