(* ===== verification/Delegation.v ===== *)
(** * What the authorization policy guarantees

    Grants form chains that start at the owner and only narrow; a permission is
    a live chain; a revocation is final and reaches everything issued under the
    revoked grant; every recorded admission is backed by a grant and, where a
    rule asks for it, by somebody else's approval; every decided event folds. *)

From S2P Require Import Prelude Errors Text Values Steps Authorization Scenario.

(** ** Chains of grants *)

(** [issued_under p g h]: [h] is the grant [g] was delegated from. *)
Definition issued_under (p : AuthorizationPolicy) (g h : AuthorizationGrant) : Prop :=
  ∃ id, grant_parent_id g = Some id ∧ policy_grants p !! id = Some h.

Definition chain (p : AuthorizationPolicy) : relation AuthorizationGrant := rtc (issued_under p).

(** What the code checks of a grant when it is delegated. *)
Record narrows (parent g : AuthorizationGrant) : Prop := {
  narrows_issuer : grant_grantee parent = principal_id (grant_issued_by g);
  narrows_may_issue : AA_IssueAuthorizationGrant ∈ grant_actions parent;
  narrows_actions : grant_actions g ⊆ grant_actions parent;
  narrows_scope : scope_covers (grant_scope parent) (grant_scope g) = true;
  narrows_from : grant_valid_from parent ≤ grant_valid_from g;
  narrows_until : validity_contains (grant_valid_until parent) (grant_valid_until g) = true;
  narrows_depth : grant_delegation_depth g < grant_delegation_depth parent;
}.

(** A grant nobody delegated is the owner's; any other narrows its parent. *)
Definition well_issued (p : AuthorizationPolicy) (g : AuthorizationGrant) : Prop :=
  match grant_parent_id g with
  | None => policy_owner p = Some (grant_issued_by g)
  | Some id => ∃ parent, policy_grants p !! id = Some parent ∧ narrows parent g
  end.

Record grant_ok (p : AuthorizationPolicy) (id : string) (g : AuthorizationGrant) : Prop := {
  grant_keyed : grant_id g = id;
  grant_depth_u8 : 0 ≤ grant_delegation_depth g ≤ u8_max;
  grant_scope_grantable : is_resolved_request_scope (grant_scope g) = false;
  grant_well_issued : well_issued p g;
}.

Definition grants_ok (p : AuthorizationPolicy) : Prop :=
  ∀ id g, policy_grants p !! id = Some g → grant_ok p id g.

(** The depth of a grant is a [u8]. *)
Definition event_typed (e : AuthorizationPolicyEvent) : Prop :=
  match e with
  | PolicyGrantIssued _ g _ => 0 ≤ grant_delegation_depth g ≤ u8_max
  | _ => True
  end.

(** Live at [now]: nothing between the grant and the owner is revoked or
    outside its validity. *)
Definition live_chain (p : AuthorizationPolicy) (g : AuthorizationGrant) (now : Instant) : Prop :=
  ∀ h, chain p g h → grant_id h ∉ policy_revoked p ∧ grant_is_active_at h now = true.

Section chains.
Context (p : AuthorizationPolicy) (Hok : grants_ok p).

Definition stored (g : AuthorizationGrant) : Prop := policy_grants p !! grant_id g = Some g.

Lemma stored_intro id g : policy_grants p !! id = Some g → stored g.
Proof using Hok. intros H. unfold stored. by rewrite (grant_keyed _ _ _ (Hok _ _ H)). Qed.

Lemma stored_ok g : stored g → grant_ok p (grant_id g) g.
Proof using Hok. apply Hok. Qed.

Lemma issued_under_narrows g h : stored g → issued_under p g h → stored h ∧ narrows h g.
Proof using Hok.
  intros Hg (id & Hid & Hh). split; [by apply (stored_intro id)|].
  pose proof (grant_well_issued _ _ _ (stored_ok g Hg)) as Hw. unfold well_issued in Hw.
  rewrite Hid in Hw. destruct Hw as (h' & Hh' & Hn). by assert (h = h') as -> by congruence.
Qed.

Lemma chain_stored g h : stored g → chain p g h → stored h.
Proof using Hok.
  intros Hg Hc. revert Hg. induction Hc as [|g i h Hi _ IH]; [done|].
  intros Hg. apply IH. by apply (issued_under_narrows g i).
Qed.

(** The grant a grant was issued under, if it was delegated. *)
Lemma parent_of g :
  stored g →
  match grant_parent_id g with
  | None => policy_owner p = Some (grant_issued_by g) ∧ ∀ h, ¬ issued_under p g h
  | Some id => ∃ h, policy_grants p !! id = Some h ∧ narrows h g ∧ issued_under p g h ∧ stored h
  end.
Proof using Hok.
  intros Hg. pose proof (grant_well_issued _ _ _ (stored_ok g Hg)) as Hw. unfold well_issued in Hw.
  destruct (grant_parent_id g) as [id|] eqn:Hid.
  - destruct Hw as (h & Hh & Hn). exists h. split_and!; [done|done| |by apply (stored_intro id)].
    by exists id.
  - split; [done|]. intros h (id & Hid' & _). congruence.
Qed.

Lemma live_chain_step g now :
  stored g →
  live_chain p g now ↔
  grant_id g ∉ policy_revoked p ∧ grant_is_active_at g now = true ∧
  ∀ h, issued_under p g h → live_chain p h now.
Proof using Hok.
  intros Hg. split.
  - intros Hl. destruct (Hl g (rtc_refl _ _)) as [??]. split_and!; [done|done|].
    intros h Hh i Hi. apply Hl. by apply rtc_l with h.
  - intros (Hr & Ha & Hp) h Hh. apply rtc_inv in Hh as [<-|(i & Hi & Hh)]; [done|].
    by apply (Hp i).
Qed.

Lemma chain_is_live_spec fuel g now :
  stored g → u8_max - grant_delegation_depth g < Z.of_nat fuel →
  chain_is_live p fuel g now = true ↔ live_chain p g now.
Proof using Hok.
  revert g. induction fuel as [|fuel IH]; intros g Hg Hfuel.
  { pose proof (grant_depth_u8 _ _ _ (stored_ok g Hg)). lia. }
  rewrite live_chain_step by done. cbn [chain_is_live].
  destruct (bool_decide_reflect (grant_id g ∈ policy_revoked p)) as [Hr|Hr]; cbn [orb].
  { split; [done|]. by intros [? _]. }
  destruct (grant_is_active_at g now); cbn [negb]; [|split; [done|]; by intros (_ & ? & _)].
  pose proof (parent_of g Hg) as Hpar. destruct (grant_parent_id g) as [id|] eqn:Hid.
  - destruct Hpar as (h & Hh & Hn & Hi & Hs). rewrite Hh. cbn [is_some_and].
    rewrite (narrows_issuer _ _ Hn), eqb_refl. cbn [andb].
    rewrite IH; [|done|pose proof (narrows_depth _ _ Hn); lia].
    split; [|naive_solver]. intros Hl. split_and!; [done|done|].
    intros h' (id' & Hid' & Hh'). by assert (h' = h) as -> by congruence.
  - destruct Hpar as [Ho Hnone]. unfold is_owner. rewrite Ho, eqb_refl.
    split; [|done]. intros _. split_and!; [done|done|]. intros h Hh. by destruct (Hnone h).
Qed.

Lemma grant_chain_is_live_spec g now :
  stored g → grant_chain_is_live p g now = true ↔ live_chain p g now.
Proof using Hok.
  intros Hg. apply chain_is_live_spec; [done|].
  pose proof (grant_depth_u8 _ _ _ (stored_ok g Hg)). unfold grant_chain_fuel, u8_max. lia.
Qed.

(** ** Confinement along a chain *)

Lemma scope_covers_trans a b c :
  is_resolved_request_scope c = false →
  scope_covers a b = true → scope_covers b c = true → scope_covers a c = true.
Proof using.
  destruct a, b, c; cbn; try done; intros _; rewrite ?andb_true_iff, ?orb_true_iff, ?eqb_true;
    try congruence.
  intros [-> [Hn|Hv]] [-> Hn']; split; [done|by left|done|].
  destruct Hn' as [Hn'|Hn']; [|right; congruence]. left. by rewrite Hv.
Qed.

Lemma scope_covers_refl a : is_resolved_request_scope a = false → scope_covers a a = true.
Proof using.
  destruct a; cbn; try done; intros _; rewrite ?andb_true_iff, ?orb_true_iff, ?eqb_true; auto.
Qed.

Lemma validity_contains_trans a b c :
  validity_contains a b = true → validity_contains b c = true → validity_contains a c = true.
Proof using. destruct a, b, c; cbn; rewrite ?Z.leb_le; try done; lia. Qed.

Lemma validity_contains_refl a : validity_contains a a = true.
Proof using. destruct a; cbn; [apply Z.leb_refl|done]. Qed.

(** What a grant has of every grant it descends from. *)
Record confined (h g : AuthorizationGrant) : Prop := {
  confined_actions : grant_actions g ⊆ grant_actions h;
  confined_scope : scope_covers (grant_scope h) (grant_scope g) = true;
  confined_from : grant_valid_from h ≤ grant_valid_from g;
  confined_until : validity_contains (grant_valid_until h) (grant_valid_until g) = true;
  confined_depth : grant_delegation_depth g ≤ grant_delegation_depth h;
}.

Lemma chain_confined g h : stored g → chain p g h → confined h g.
Proof using Hok.
  intros Hg Hc. revert Hg. induction Hc as [g|g i h Hi Hc IH]; intros Hg.
  - constructor; [done| |done| |done].
    + apply scope_covers_refl, (grant_scope_grantable _ _ _ (stored_ok g Hg)).
    + apply validity_contains_refl.
  - destruct (issued_under_narrows g i Hg Hi) as [Hs Hn]. destruct (IH Hs) as [Ha Hsc Hf Hu Hd].
    destruct Hn as [_ _ Ha' Hsc' Hf' Hu' Hd']. constructor; [set_solver| |lia| |lia].
    + apply scope_covers_trans with (grant_scope i); [|done|done].
      apply (grant_scope_grantable _ _ _ (stored_ok g Hg)).
    + by apply validity_contains_trans with (grant_valid_until i).
Qed.

(** Every chain ends at a grant the owner issued. *)
Lemma chain_root g :
  stored g →
  ∃ root, chain p g root ∧ grant_parent_id root = None ∧ policy_owner p = Some (grant_issued_by root).
Proof using Hok.
  remember (Z.to_nat (u8_max - grant_delegation_depth g)) as n eqn:Hn. revert g Hn.
  induction (lt_wf n) as [n _ IH]. intros g Hn Hg. pose proof (parent_of g Hg) as Hpar.
  destruct (grant_parent_id g) as [id|] eqn:Hid; [|exists g; split; [apply rtc_refl|tauto]].
  destruct Hpar as (h & _ & Hnr & Hi & Hs). pose proof (narrows_depth _ _ Hnr).
  pose proof (grant_depth_u8 _ _ _ (stored_ok h Hs)).
  destruct (IH (Z.to_nat (u8_max - grant_delegation_depth h)) ltac:(lia) h eq_refl Hs)
    as (root & Hc & ?). exists root. split; [by apply rtc_l with h|done].
Qed.

End chains.

(** ** The invariant of the fold *)

Section fold.
Context {Hsha : Sha256} {Hclk : Clock} {Hdec : DecisionSerde}.

(** Nothing is stored before the policy is opened. *)
Definition unopened_is_empty (p : AuthorizationPolicy) : Prop :=
  policy_id p = None → policy_owner p = None ∧ policy_grants p = ∅ ∧ policy_separation_rules p = ∅.

(** What no event takes back. *)
Record extends (p q : AuthorizationPolicy) : Prop := {
  extends_id : ∀ id, policy_id p = Some id → policy_id q = Some id;
  extends_owner : ∀ o, policy_owner p = Some o → policy_owner q = Some o;
  extends_rules : policy_id p ≠ None → policy_separation_rules q = policy_separation_rules p;
  extends_grants : policy_grants p ⊆ policy_grants q;
  extends_revoked : policy_revoked p ⊆ policy_revoked q;
  extends_decisions : policy_decisions_by_id p ⊆ policy_decisions_by_id q;
}.

#[export] Instance extends_refl : Reflexive extends.
Proof using. intros p. by constructor. Qed.

#[export] Instance extends_trans : Transitive extends.
Proof using.
  intros p q r [I1 O1 R1 G1 V1 D1] [I2 O2 R2 G2 V2 D2]. constructor; [naive_solver|naive_solver| | | |].
  - intros Hp. rewrite R2, R1; [done|done|]. destruct (policy_id p) as [id|]; [|done].
    by rewrite (I1 id).
  - by transitivity (policy_grants q).
  - by transitivity (policy_revoked q).
  - by transitivity (policy_decisions_by_id q).
Qed.

(** An accepted event, by its kind. *)
Inductive applied (p : AuthorizationPolicy) : AuthorizationPolicyEvent → AuthorizationPolicy → Prop :=
| applied_opened id owner rules at_ mapped :
    policy_id p = None → principal_kind owner = TrustedHost →
    separation_rule_map rules = Ok mapped →
    applied p (PolicyOpened id owner rules at_)
      (p <| policy_id := Some id |> <| policy_owner := Some owner |>
         <| policy_separation_rules := mapped |>
         <| policy_version := policy_version_next (policy_version p) |>)
| applied_grant id g at_ :
    policy_id p = Some id → policy_grants p !! grant_id g = None → grant_validate g = Ok tt →
    grant_authority_is_valid p (grant_issued_by g) g at_ = true →
    applied p (PolicyGrantIssued id g at_)
      (p <| policy_grants := <[grant_id g := g]> (policy_grants p) |>
         <| policy_version := policy_version_next (policy_version p) |>)
| applied_revocation id r g :
    policy_grants p !! revocation_grant_id r = Some g →
    revocation_grant_id r ∉ policy_revoked p →
    revocation_is_allowed p (revocation_by r) g (revocation_at r) = true →
    applied p (PolicyGrantRevoked id r)
      (p <| policy_revoked := {[revocation_grant_id r]} ∪ policy_revoked p |>
         <| policy_version := policy_version_next (policy_version p) |>)
| applied_decision id d :
    decision_validate d = Ok tt →
    decision_policy_version d = policy_version_next (policy_version p) →
    policy_decisions_by_request p !! request_id (decision_request d) = None →
    policy_decisions_by_id p !! decision_id d = None →
    decision_authority_is_valid p d = true →
    applied p (PolicyDecisionRecorded id d)
      (p <| policy_decisions_by_request :=
              <[request_id (decision_request d) := d]> (policy_decisions_by_request p) |>
         <| policy_decisions_by_id := <[decision_id d := d]> (policy_decisions_by_id p) |>
         <| policy_version := policy_version_next (policy_version p) |>).

Lemma policy_apply_applied p e q : policy_apply p e = Ok q → applied p e q.
Proof using.
  unfold policy_apply. intros H. apply bind_Ok in H as ([] & Hid & H). apply ensure_Ok in Hid.
  apply bind_Ok in H as (next & Hnext & [= <-]).
  destruct e as [id owner rules at_|id g at_|id r|id d].
  - unfold apply_opened in Hnext. apply bind_Ok in Hnext as ([] & Hnone%ensure_Ok & Hnext).
    apply bind_Ok in Hnext as ([] & _ & Hnext).
    apply bind_Ok in Hnext as ([] & Hk%ensure_Ok%eqb_true_1 & Hnext).
    apply bind_Ok in Hnext as (mapped & Hm & [= <-]).
    refine (applied_opened p id owner rules at_ mapped _ Hk Hm). by destruct (policy_id p).
  - unfold apply_grant in Hnext. apply bind_Ok in Hnext as ([] & Hsome%ensure_Ok & Hnext).
    apply bind_Ok in Hnext as ([] & Hnew%ensure_Ok & Hnext).
    apply bind_Ok in Hnext as ([] & Hv & Hnext).
    apply bind_Ok in Hnext as ([] & Ha%ensure_Ok & [= <-]).
    refine (applied_grant p id g at_ _ (proj1 (is_some_false _) _) Hv Ha);
      [|by apply negb_true_iff].
    destruct (policy_id p) as [id'|]; [|done]. cbn [is_none_or policy_event_id] in Hid.
    apply eqb_true_1 in Hid. by subst.
  - unfold apply_revocation in Hnext. apply bind_Ok in Hnext as ([] & _ & Hnext).
    apply bind_Ok in Hnext as (g & Hg%ok_or_Ok & Hnext).
    apply bind_Ok in Hnext as ([] & Hnew%ensure_Ok & Hnext).
    apply bind_Ok in Hnext as ([] & Ha%ensure_Ok & [= <-]).
    refine (applied_revocation p id r g Hg _ Ha).
    by apply negb_true_iff, bool_decide_eq_false in Hnew.
  - unfold apply_decision in Hnext. apply bind_Ok in Hnext as ([] & Hv & Hnext).
    apply bind_Ok in Hnext as ([] & Hver%ensure_Ok%eqb_true_1 & Hnext).
    apply bind_Ok in Hnext as ([] & Hnew%ensure_Ok & Hnext).
    apply bind_Ok in Hnext as ([] & Ha%ensure_Ok & [= <-]).
    apply negb_true_iff, orb_false_iff in Hnew as [H1%is_some_false H2%is_some_false].
    exact (applied_decision p id d Hv Hver H1 H2 Ha).
Qed.

Lemma policy_apply_extends p e q :
  unopened_is_empty p → policy_apply p e = Ok q → extends p q.
Proof using.
  intros Hun Hap%policy_apply_applied.
  destruct Hap as [id owner rules at_ mapped Hnone| | |]; constructor; cbn; try done.
  - congruence.
  - destruct (Hun Hnone) as (Ho & _). congruence.
  - by apply insert_subseteq.
  - set_solver.
  - by apply insert_subseteq.
Qed.

Lemma policy_apply_opened p e q :
  unopened_is_empty p → policy_apply p e = Ok q → unopened_is_empty q.
Proof using.
  intros Hun Hap%policy_apply_applied. unfold unopened_is_empty in *.
  destruct Hap; cbn; try done; naive_solver.
Qed.

Lemma well_issued_extends p q g : extends p q → well_issued p g → well_issued q g.
Proof using.
  intros Hx. unfold well_issued. destruct (grant_parent_id g) as [id|].
  - intros (h & Hh & Hn). exists h. split; [|done].
    by apply (lookup_weaken _ _ _ _ Hh), (extends_grants _ _ Hx).
  - apply (extends_owner _ _ Hx).
Qed.

Lemma grant_ok_extends p q id g : extends p q → grant_ok p id g → grant_ok q id g.
Proof using. intros Hx [??? Hw]. constructor; [done|done|done|]. by apply (well_issued_extends p). Qed.

Lemma may_delegate_narrows p g now :
  may_delegate p (grant_issued_by g) g now = true →
  ∃ id parent, grant_parent_id g = Some id ∧ policy_grants p !! id = Some parent ∧
    narrows parent g ∧ grant_chain_is_live p parent now = true.
Proof using.
  unfold may_delegate. destruct (grant_parent_id g) as [id|]; [|done].
  intros (parent & Hp & H)%is_some_and_true. exists id, parent.
  rewrite !andb_true_iff in H. destruct H as [[[[[[[H1 H2] H3] H4] H5] H6] H7] H8].
  split_and!; [done|done| |done]. constructor.
  - by apply eqb_true_1.
  - by apply bool_decide_eq_true in H3.
  - by apply bool_decide_eq_true in H4.
  - done.
  - by apply Z.leb_le.
  - done.
  - by apply Z.ltb_lt.
Qed.

Lemma grant_authority_well_issued p g now :
  grant_authority_is_valid p (grant_issued_by g) g now = true → well_issued p g.
Proof using.
  unfold grant_authority_is_valid, well_issued.
  destruct (is_owner p (grant_issued_by g)) eqn:Ho.
  - intros H%negb_true_iff%is_some_false. rewrite H. by apply eqb_true_1.
  - intros (id & parent & -> & Hp & Hn & _)%may_delegate_narrows. eauto.
Qed.

Lemma grants_ok_apply p e q :
  unopened_is_empty p → grants_ok p → event_typed e → policy_apply p e = Ok q → grants_ok q.
Proof using.
  intros Hun Hok Ht Hap. pose proof (policy_apply_extends p e q Hun Hap) as Hx.
  apply policy_apply_applied in Hap.
  assert (∀ id g, policy_grants p !! id = Some g → grant_ok q id g) as Hold.
  { intros id g Hg. apply (grant_ok_extends p); [done|]. by apply Hok. }
  intros k g' Hg'. destruct Hap as [|id g at_ _ _ Hv Ha| |]; cbn in Hg'; [by apply Hold| |by apply Hold..].
  apply lookup_insert_Some in Hg' as [[<- <-]|[_ Hg']]; [|by apply Hold].
  constructor; [done|done| |].
  - unfold grant_validate in Hv. apply bind_Ok in Hv as (_ & _ & Hv).
    by apply bind_Ok in Hv as (_ & Hs%ensure_Ok%negb_true_iff & _).
  - eapply well_issued_extends; [done|]. by apply (grant_authority_well_issued p g at_).
Qed.

Definition policy_wf (p : AuthorizationPolicy) : Prop := unopened_is_empty p ∧ grants_ok p.

Lemma policy_wf_empty : policy_wf policy_empty.
Proof using. split; [done|]. intros id g Hg. cbn in Hg. by rewrite lookup_empty in Hg. Qed.

Lemma policy_wf_fold p es q :
  policy_wf p → Forall event_typed es → policy_fold p es = Ok q → policy_wf q ∧ extends p q.
Proof using.
  revert p. induction es as [|e es IH]; cbn; intros p Hwf Hes Hf.
  { injection Hf as <-. by split. }
  apply bind_Ok in Hf as (r & Hr & Hf). apply Forall_cons in Hes as [He Hes].
  pose proof Hwf as [Hun Hok].
  assert (policy_wf r) as Hwr.
  { split; [by apply (policy_apply_opened p e)|]. by apply (grants_ok_apply p e). }
  destruct (IH r Hwr Hes Hf) as [Hwq Hx]. split; [done|].
  transitivity r; [|done]. by apply (policy_apply_extends p e).
Qed.

Lemma policy_wf_rehydrate es p :
  Forall event_typed es → policy_rehydrate es = Ok p → policy_wf p.
Proof using. intros He Hf. by apply (policy_wf_fold policy_empty es p policy_wf_empty He Hf). Qed.

Lemma policy_fold_app p es fs q :
  policy_fold p (es ++ fs) = Ok q ↔ ∃ r, policy_fold p es = Ok r ∧ policy_fold r fs = Ok q.
Proof using.
  revert p. induction es as [|e es IH]; cbn; intros p; [naive_solver|].
  rewrite bind_Ok. split.
  - intros (a & Ha & (r & ? & ?)%IH). exists r. split; [|done]. apply bind_Ok. eauto.
  - intros (r & (a & Ha & Hr)%bind_Ok & Hq). exists a. split; [done|]. apply IH. eauto.
Qed.

End fold.

(** ** Admissions *)

Section admissions.
Context {Hsha : Sha256} {Hclk : Clock} {Hdec : DecisionSerde}.

(** Either the owner administers, or a grant of the principal covers the request
    and goes back to a grant of the owner, every grant on the way is unrevoked and
    was active when the decision was made, and the decision outlives none of them.
    Taken of the policy [p] the decision was recorded against. *)
Definition backed (p : AuthorizationPolicy) (d : AuthorizationDecision) : Prop :=
  let request := decision_request d in
  (policy_owner p = Some (request_principal request) ∧ owner_permits (request_action request) = true
   ∧ decision_grant_id d = None) ∨
  ∃ g, decision_grant_id d = Some (grant_id g) ∧ policy_grants p !! grant_id g = Some g ∧
    grant_grantee g = principal_id (request_principal request) ∧
    scope_covers (grant_scope g) (request_scope request) = true ∧
    (∃ root, chain p g root ∧ grant_parent_id root = None ∧ policy_owner p = Some (grant_issued_by root)) ∧
    ∀ h, chain p g h →
      grant_id h ∉ policy_revoked p ∧ grant_is_active_at h (decision_decided_at d) = true ∧
      request_action request ∈ grant_actions h ∧
      scope_covers (grant_scope h) (grant_scope g) = true ∧
      validity_contains (grant_valid_until h) (Some (decision_valid_until d)) = true.

(** Where a rule separates the action, somebody else approved this very target. *)
Definition separated (p : AuthorizationPolicy) (d : AuthorizationDecision) : Prop :=
  ∀ rule, policy_separation_rules p !! request_action (decision_request d) = Some rule →
  ∃ a, policy_decisions_by_id p !! decision_id a = Some a ∧
    request_approval_decision_id (decision_request d) = Some (decision_id a) ∧
    decision_kind a = Allow ∧
    request_action (decision_request a) = rule_approval_action rule ∧
    request_approved_action (decision_request a) = Some (request_action (decision_request d)) ∧
    principal_id (request_principal (decision_request a))
      ≠ principal_id (request_principal (decision_request d)) ∧
    scope_covers (request_scope (decision_request a)) (request_scope (decision_request d)) = true ∧
    request_target_digest (decision_request a) = request_target_digest (decision_request d) ∧
    decision_decided_at d < decision_valid_until a.

(** How an operation came to be admitted in the course of [es]: by the policy as it
    was just before the decision was recorded, or as the continuation of work
    that was admitted earlier. *)
Inductive admitted (es : list AuthorizationPolicyEvent) : AuthorizationDecision → Prop :=
| admitted_directly earlier pid d later p :
    es = earlier ++ PolicyDecisionRecorded pid d :: later → policy_rehydrate earlier = Ok p →
    backed p d → separated p d → admitted es d
| admitted_as_continuation earlier pid d later a :
    es = earlier ++ PolicyDecisionRecorded pid d :: later →
    authority_is_valid (decision_request d) a = true → admitted earlier a → admitted es d.

Lemma admitted_later es fs d : admitted es d → admitted (es ++ fs) d.
Proof using.
  intros [earlier pid d' later p -> Hp Hb Hs|earlier pid d' later a -> Hv Ha]; rewrite <-app_assoc; cbn.
  - by eapply admitted_directly.
  - by eapply admitted_as_continuation.
Qed.

Lemma chain_extends p q g h : extends p q → chain p g h → chain q g h.
Proof using.
  intros Hx. apply rtc_subrel. intros a b (id & Hid & Hb). exists id. split; [done|].
  by apply (lookup_weaken _ _ _ _ Hb), (extends_grants _ _ Hx).
Qed.

(** The chain of a stored grant does not change. *)
Lemma chain_back p q g h :
  grants_ok p → extends p q → policy_grants p !! grant_id g = Some g → chain q g h → chain p g h.
Proof using.
  intros Hok Hx Hg Hc. revert Hg. induction Hc as [|g i h (id & Hid & Hi) _ IH]; intros Hg.
  { apply rtc_refl. }
  pose proof (parent_of p Hok g Hg) as Hpar. rewrite Hid in Hpar.
  destruct Hpar as (i' & Hi' & _ & Hu & Hs).
  pose proof (lookup_weaken _ _ _ _ Hi' (extends_grants _ _ Hx)).
  assert (i' = i) as -> by congruence. apply rtc_l with i; [done|by apply IH].
Qed.

Definition decisions_keyed (p : AuthorizationPolicy) : Prop :=
  ∀ id d, policy_decisions_by_id p !! id = Some d → decision_id d = id.

Lemma granted_backed p d :
  grants_ok p → decision_is_granted p d = true → backed p d.
Proof using.
  intros Hok. unfold decision_is_granted. rewrite orb_true_iff, andb_true_iff, andb_true_iff.
  intros [[[Ho%eqb_true_1 Hp] Hn%negb_true_iff%is_some_false]|H]; [by left|].
  apply is_some_and_true in H as (g & (id & Hid & Hg)%bind_Some & H).
  pose proof (grant_keyed _ _ _ (Hok _ _ Hg)) as <-.
  rewrite !andb_true_iff in H. destruct H as [[[Hgr%eqb_true_1 Hper] Hlive] Huntil].
  unfold grant_permits in Hper. rewrite !andb_true_iff in Hper.
  destruct Hper as [[_ Hact%bool_decide_eq_true] Hsc].
  apply grant_chain_is_live_spec in Hlive; [|done|done].
  destruct (chain_root p Hok g Hg) as (root & Hroot).
  right. exists g. split_and!; [done|done|done|done|by exists root|]. intros h Hh.
  destruct (chain_confined p Hok g h Hg Hh) as [Ha Hs _ Hu _].
  split_and!; [by apply Hlive|by apply Hlive|set_solver|done|].
  apply validity_contains_trans with (grant_valid_until g); [done|].
  by destruct (grant_valid_until g).
Qed.

Lemma granted_live p d id :
  decision_is_granted p d = true → decision_grant_id d = Some id →
  ∃ g, policy_grants p !! id = Some g ∧ grant_chain_is_live p g (decision_decided_at d) = true.
Proof using.
  unfold decision_is_granted. intros H Hid. rewrite Hid in H. cbn [is_some negb mbind option_bind] in H.
  rewrite andb_false_r in H. cbn [orb] in H. apply is_some_and_true in H as (g & Hg & H).
  rewrite !andb_true_iff in H. destruct H as [[_ Hl] _]. by exists g.
Qed.

Lemma approved_separated p d :
  decisions_keyed p →
  request_denial p (decision_request d)
    (request_approval_decision_id (decision_request d) ≫= λ id, policy_decisions_by_id p !! id)
    (decision_decided_at d) = None →
  separated p d.
Proof using.
  intros Hk. unfold request_denial. destruct (approval_intent_denial _ _); [done|].
  unfold separation_denial. intros H rule Hr. rewrite Hr in H.
  destruct (request_approval_decision_id (decision_request d)) as [id|] eqn:Hid; [|done].
  cbn [mbind option_bind] in H.
  destruct (is_some_and _ _) eqn:Hv in H; [|done]. clear H.
  apply is_some_and_true in Hv as (a & (Ha & Hai%eqb_true_1)%option_keep_Some & Hv). subst id.
  unfold approval_is_valid in Hv. rewrite !andb_true_iff in Hv.
  destruct Hv as [[[[[[[H1%eqb_true_1 H2%Z.ltb_lt] _] H4%eqb_true_1] H5%eqb_true_1] H6%negb_true_iff]
    H7] H8%eqb_true_1].
  exists a. split_and!; try done. by apply eqb_false.
Qed.

(** What lets an allowing decision be recorded. *)
Lemma allow_inv p d :
  decision_authority_is_valid p d = true → decision_kind d = Allow →
  decision_valid_until d - decision_decided_at d ≤ 300 * 1000000000 ∧
  ((∃ a, policy_decisions_by_id p !! decision_id a = Some a ∧
         authority_is_valid (decision_request d) a = true) ∨
   decision_is_granted p d = true ∧
   request_denial p (decision_request d)
     (request_approval_decision_id (decision_request d) ≫= λ id, policy_decisions_by_id p !! id)
     (decision_decided_at d) = None).
Proof using.
  unfold decision_authority_is_valid, decision_authority_is_valid_with_authorities.
  destruct (300 * 1000000000 <? _) eqn:Hlt; [done|]. apply Z.ltb_ge in Hlt.
  intros H Hk. rewrite Hk in H. split; [done|].
  apply orb_true_iff in H as [H|[H1 H2%negb_true_iff%is_some_false]%andb_true_iff]; [|by right].
  left. apply is_some_and_true in H as (a & (id & Hid & Ha)%bind_Some & Hv). exists a.
  split; [|done]. unfold authority_is_valid in Hv. rewrite !andb_true_iff in Hv.
  destruct Hv as [[[[Hid'%eqb_true_1 _] _] _] _]. congruence.
Qed.

(** Every stored decision that allows was admitted, and for five minutes at most. *)
Definition decisions_ok (es : list AuthorizationPolicyEvent) (p : AuthorizationPolicy) : Prop :=
  decisions_keyed p ∧
  ∀ id d, policy_decisions_by_id p !! id = Some d → decision_kind d = Allow →
    admitted es d ∧
    decision_decided_at d < decision_valid_until d ≤ decision_decided_at d + 300 * 1000000000.

Lemma decision_validate_live d :
  decision_validate d = Ok tt → decision_decided_at d < decision_valid_until d.
Proof using.
  unfold decision_validate, decision_build. intros (_ & _ & (r & H & _)%bind_Ok)%bind_Ok.
  apply bind_Ok in H as (_ & _ & H).
  apply bind_Ok in H as (_ & Hl%ensure_Ok%negb_true_iff%Z.leb_gt & _). done.
Qed.

Lemma decisions_ok_apply es p e q :
  policy_rehydrate es = Ok p → policy_wf p → decisions_ok es p → policy_apply p e = Ok q →
  decisions_ok (es ++ [e]) q.
Proof using.
  intros Hp [_ Hok] [Hk Hd] Hap%policy_apply_applied.
  assert (∀ id d, policy_decisions_by_id p !! id = Some d → decision_kind d = Allow →
    admitted (es ++ [e]) d ∧
    decision_decided_at d < decision_valid_until d ≤ decision_decided_at d + 300 * 1000000000)
    as Hold.
  { intros id d Hi Ha. destruct (Hd id d Hi Ha). split; [|done]. by apply admitted_later. }
  destruct Hap as [| | |id d Hval _ _ Hnew Hauth]; [by split..|]. split.
  - intros k d' Hd'. cbn in Hd'.
    apply lookup_insert_Some in Hd' as [[<- <-]|[_ ?]]; [done|by apply Hk].
  - intros k d' Hd' Hallow. cbn in Hd'.
    apply lookup_insert_Some in Hd' as [[<- <-]|[_ ?]]; [|by apply (Hold k)].
    pose proof (decision_validate_live d Hval). destruct (allow_inv p d Hauth Hallow) as [Httl Hj].
    split; [|lia]. destruct Hj as [(a & Ha & Hv)|[Hg Hden]].
    + refine (admitted_as_continuation _ es id d [] a eq_refl Hv _). apply (Hd (decision_id a)); [done|].
      unfold authority_is_valid in Hv. rewrite !andb_true_iff in Hv.
      by destruct Hv as [[[[_ Hal%eqb_true_1] _] _] _].
    + refine (admitted_directly _ es id d [] p eq_refl Hp _ _); [by apply granted_backed|by apply approved_separated].
Qed.

Lemma decisions_ok_rehydrate es p :
  Forall event_typed es → policy_rehydrate es = Ok p → decisions_ok es p.
Proof using.
  revert p. induction es as [|e es IH] using rev_ind; intros p Hes Hp.
  { injection Hp as <-. split; intros id d Hd; cbn in Hd; by rewrite lookup_empty in Hd. }
  apply Forall_app in Hes as [Hes He]. apply policy_fold_app in Hp as (r & Hr & Hp).
  cbn in Hp. apply bind_Ok in Hp as (q & Hq & [= <-]).
  apply (decisions_ok_apply es r e q Hr); [by apply (policy_wf_rehydrate es)|by apply IH|done].
Qed.

(** The policy an event of a fold was applied to. *)
Lemma policy_fold_elem p es e q :
  policy_wf p → Forall event_typed es → policy_fold p es = Ok q → e ∈ es →
  ∃ r s, policy_wf r ∧ extends p r ∧ extends r q ∧ applied r e s.
Proof using.
  intros Hwf Hes Hq He. apply list_elem_of_split in He as (es1 & es2 & ->).
  apply Forall_app in Hes as [He1 He2]. apply policy_fold_app in Hq as (r & Hr & Hq).
  destruct (policy_wf_fold p es1 r Hwf He1 Hr) as [Hwr Hxr].
  destruct (policy_wf_fold r _ q Hwr He2 Hq) as [_ Hxq].
  cbn in Hq. apply bind_Ok in Hq as (s & Hs%policy_apply_applied & _). by exists r, s.
Qed.

(** A decision that continues the work of a recorded admission. *)
Definition continues (p : AuthorizationPolicy) (d : AuthorizationDecision) : Prop :=
  ∃ a, policy_decisions_by_id p !! decision_id a = Some a ∧ authority_is_valid (decision_request d) a = true.

(** A chain that is live later has no grant that was revoked before. *)
Lemma live_chain_unrevoked p r q g h now :
  policy_wf r → extends p r → extends r q → policy_grants r !! grant_id g = Some g →
  grant_chain_is_live r g now = true → chain q g h → grant_id h ∉ policy_revoked p.
Proof using.
  intros [_ Hok] Hxr Hxq Hg Hl Hc Hin. apply (grant_chain_is_live_spec r Hok g now Hg) in Hl.
  destruct (Hl h (chain_back r q g h Hok Hxq Hg Hc)) as [Hn _].
  by apply Hn, (extends_revoked _ _ Hxr).
Qed.

End admissions.

(** ** Theorems *)

Section theorems.
Context {Hsha : Sha256} {Hclk : Clock} {Hdec : DecisionSerde}.

(** C26: a principal may do what it asks exactly when it is the owner
    administering the policy, or when one of its grants covers the request and
    the whole chain of that grant, which ends at a grant the owner issued
    himself, is unrevoked, active, includes the action and covers the scope of
    that grant (not always that of the request: see
    [delegation_can_exceed_the_delegator]).  The recursion that decides it needs no more than the levels it
    is given. *)
Theorem permission_is_a_live_chain es p who action scope now :
  Forall event_typed es → policy_rehydrate es = Ok p →
  policy_permits p who action scope now = true ↔
  (policy_owner p = Some who ∧ owner_permits action = true) ∨
  ∃ g root, policy_grants p !! grant_id g = Some g ∧ grant_grantee g = principal_id who ∧
    scope_covers (grant_scope g) scope = true ∧
    chain p g root ∧ grant_parent_id root = None ∧ policy_owner p = Some (grant_issued_by root) ∧
    ∀ h, chain p g h →
      grant_id h ∉ policy_revoked p ∧ grant_is_active_at h now = true ∧
      action ∈ grant_actions h ∧ scope_covers (grant_scope h) (grant_scope g) = true.
Proof using.
  intros Hes Hp. destruct (policy_wf_rehydrate es p Hes Hp) as [_ Hok].
  unfold policy_permits, is_owner. rewrite orb_true_iff, andb_true_iff, eqb_true, any_true.
  f_equiv. split.
  - intros (g & (id & Hg)%elem_of_btree_values & H). apply (stored_intro p Hok) in Hg.
    unfold grant_permits in H. rewrite !andb_true_iff, bool_decide_eq_true in H.
    destruct H as [[Hw%eqb_true_1 [[_ Hact] Hsc]] Hl].
    apply (grant_chain_is_live_spec p Hok g now Hg) in Hl.
    destruct (chain_root p Hok g Hg) as (root & Hc & Hn & Ho). exists g, root.
    split_and!; [done..|]. intros h Hh. destruct (Hl h Hh).
    destruct (chain_confined p Hok g h Hg Hh) as [Ha Hs _ _ _]. split_and!; [done|done| |done].
    by apply Ha.
  - intros (g & root & Hg & Hw & Hsc & _ & _ & _ & Hl). exists g.
    split; [apply elem_of_btree_values; eauto|].
    destruct (Hl g (rtc_refl _ _)) as (_ & Hact & Hin & _).
    unfold grant_permits. rewrite Hw, eqb_refl, Hact, Hsc, (bool_decide_eq_true_2 _ Hin). cbn [andb].
    apply (grant_chain_is_live_spec p Hok g now Hg). intros h Hh. destruct (Hl h Hh). tauto.
Qed.

(** C28: a revocation is final and reaches everything below the revoked grant:
    whatever happens afterwards, no grant that descends from it is live again, no
    later grant is issued under one, and no later admission rests on one, save that
    work accepted before may be continued: an admission that names a grant below
    the revoked one continues a recorded admission of the same work. *)
Theorem revocation_is_final es p id fs q :
  Forall event_typed (es ++ fs) → policy_rehydrate es = Ok p → id ∈ policy_revoked p →
  policy_fold p fs = Ok q →
  (∀ g h now, policy_grants q !! grant_id g = Some g → chain q g h → grant_id h = id →
     grant_chain_is_live q g now = false) ∧
  (∀ pid d, PolicyDecisionRecorded pid d ∈ fs → decision_kind d = Allow →
     continues q d ∨
     ∀ g h, decision_grant_id d = Some (grant_id g) → policy_grants q !! grant_id g = Some g →
       chain q g h → grant_id h ≠ id) ∧
  (∀ pid g at_ parent h, PolicyGrantIssued pid g at_ ∈ fs → issued_under q g parent →
     chain q parent h → grant_id h ≠ id).
Proof using.
  intros [Hes Hfs]%Forall_app Hp Hrev Hq. pose proof (policy_wf_rehydrate es p Hes Hp) as Hwf.
  destruct (policy_wf_fold p fs q Hwf Hfs Hq) as [Hwq Hx]. split_and!.
  - intros g h now Hg Hc <-. apply not_true_iff_false. intros Hl.
    by apply (live_chain_unrevoked p q q g h now).
  - intros pid d Hd Hal.
    destruct (policy_fold_elem p fs _ q Hwf Hfs Hq Hd) as (r & s & Hwr & Hxr & Hxq & Hs).
    inversion Hs as [| | |? ? _ _ _ _ Hauth]; subst.
    destruct (allow_inv r d Hauth Hal) as [_ [(a & Ha & Hv)|[Hgr _]]]; [left|right].
    { exists a. split; [|done]. by apply (lookup_weaken _ _ _ _ Ha), (extends_decisions _ _ Hxq). }
    intros g h Hgid Hg Hc <-. destruct (granted_live r d (grant_id g) Hgr Hgid) as (g' & Hg' & Hl).
    pose proof (lookup_weaken _ _ _ _ Hg' (extends_grants _ _ Hxq)).
    assert (g' = g) as -> by congruence. 
    by apply (live_chain_unrevoked p r q g h (decision_decided_at d)).
  - intros pid g at_ parent h Hg (pid' & Hpid & Hpar) Hc <-.
    destruct (policy_fold_elem p fs _ q Hwf Hfs Hq Hg) as (r & s & Hwr & Hxr & Hxq & Hs).
    inversion Hs as [|? ? ? _ _ _ Hauth| |]; subst.
    unfold grant_authority_is_valid in Hauth. rewrite Hpid in Hauth.
    destruct (is_owner _ _); [done|].
    apply may_delegate_narrows in Hauth as (pid2 & parent' & Hpid2 & Hpar' & _ & Hl).
    pose proof (lookup_weaken _ _ _ _ Hpar' (extends_grants _ _ Hxq)).
    assert (pid2 = pid') as -> by congruence. assert (parent' = parent) as -> by congruence.
    apply (stored_intro r (proj2 Hwr)) in Hpar'. by apply (live_chain_unrevoked p r q parent h at_).
Qed.

(** C27: every recorded admission goes back to the policy as it was when it was
    recorded: it is, or continues work that was admitted earlier and in the end was,
    backed by the owner administering or by a grant whose whole chain up to the
    owner was then unrevoked and active, and includes the action; it outlives none
    of those grants and lasts five minutes at most; and where a rule separates its
    action it was approved by a different principal for this very target. *)
Theorem every_admission_is_backed es p id d :
  Forall event_typed es → policy_rehydrate es = Ok p →
  policy_decisions_by_id p !! id = Some d → decision_kind d = Allow →
  decision_id d = id ∧ admitted es d ∧
  decision_decided_at d < decision_valid_until d ≤ decision_decided_at d + 300 * 1000000000.
Proof using.
  intros Hes Hp Hd Hal.
  destruct (decisions_ok_rehydrate es p Hes Hp) as [Hk H].
  split; [by apply Hk|by apply (H id)].
Qed.

(** [decides p e repeated]: an operation of [p] decided [e]; [repeated q] says
    that the same operation on [q] decides nothing more. *)
Inductive decides (p : AuthorizationPolicy)
    : AuthorizationPolicyEvent → (AuthorizationPolicy → Prop) → Prop :=
| decides_open id owner rules at_ e :
    policy_decide_open p id owner rules at_ = Ok (Some e) →
    decides p e (λ q, ∀ now, policy_decide_open q id owner rules now = Ok None)
| decides_issue issuer g now e :
    decide_issue p issuer g now = Ok (Some e) →
    decides p e (λ q, ∀ now, decide_issue q issuer g now = Ok None)
| decides_revoke issuer id reason now e :
    decide_revoke p issuer id reason now = Ok (Some e) →
    decides p e (λ q, ∀ issuer reason now, decide_revoke q issuer id reason now = Ok None)
| decides_authorize request now ttl d e :
    principal_validate (request_principal request) = Ok tt → 1 ≤ ttl ≤ 300 →
    decide_authorize p request now ttl = Ok (d, Some e) →
    policy_decisions_by_id p !! decision_id d = None →
    decides p e (λ q, ∀ now ttl, decide_authorize q request now ttl = Ok (d, None))
| decides_accepted_work request accepted now ttl d e :
    principal_validate (request_principal request) = Ok tt → 1 ≤ ttl ≤ 300 →
    policy_decisions_by_id p !! decision_id accepted = Some accepted →
    decide_accepted_work p request (policy_decisions_by_request p !! request_id request)
      accepted now ttl = Ok (d, Some e) →
    policy_decisions_by_id p !! decision_id d = None →
    decides p e (λ q, ∀ now ttl, decide_accepted_work q request
      (policy_decisions_by_request q !! request_id request) accepted now ttl = Ok (d, None)).

Definition folds_and_settles (p : AuthorizationPolicy) (e : AuthorizationPolicyEvent)
    (repeated : AuthorizationPolicy → Prop) : Prop :=
  ∃ q, policy_apply p e = Ok q ∧ repeated q.

Lemma policy_apply_own p id e next :
  policy_id p = Some id → policy_event_id e = id →
  match e with
  | PolicyOpened id owner rules _ => apply_opened p id owner rules
  | PolicyGrantIssued _ g issued_at => apply_grant p g issued_at
  | PolicyGrantRevoked _ r => apply_revocation p r
  | PolicyDecisionRecorded _ d => apply_decision p d
  end = Ok next →
  policy_apply p e = Ok (next <| policy_version := policy_version_next (policy_version next) |>).
Proof using.
  intros Hid He Hn. unfold policy_apply. rewrite Hid. cbn [is_none_or].
  rewrite He, eqb_refl. cbn [ensure mbind result_bind]. rewrite Hn. done.
Qed.

Lemma open_folds p id owner rules at_ e :
  policy_decide_open p id owner rules at_ = Ok (Some e) →
  folds_and_settles p e (λ q, ∀ now, policy_decide_open q id owner rules now = Ok None).
Proof using.
  unfold policy_decide_open. intros H. apply bind_Ok in H as ([] & Hv & H).
  apply bind_Ok in H as ([] & Hk & H). apply bind_Ok in H as (mapped & Hm & H).
  destruct (policy_id p) as [i|] eqn:Hi, (policy_owner p) as [o|]; try done;
    [by destruct ((_ && _) && _)|]. injection H as <-.
  eexists. split.
  - unfold policy_apply, apply_opened. rewrite Hi. cbn [is_none_or is_some negb ensure mbind result_bind].
    rewrite Hv. cbn [mbind result_bind]. rewrite Hk. cbn [mbind result_bind]. rewrite Hm. reflexivity.
  - intros now. unfold policy_decide_open. rewrite Hv. cbn [mbind result_bind].
    rewrite Hk. cbn [mbind result_bind]. rewrite Hm.
    cbn [mbind result_bind policy_id policy_owner policy_separation_rules set_field].
    by rewrite !eqb_refl, bool_decide_eq_true_2.
Qed.

Lemma issue_folds p issuer g now e :
  decide_issue p issuer g now = Ok (Some e) →
  folds_and_settles p e (λ q, ∀ now, decide_issue q issuer g now = Ok None).
Proof using.
  unfold decide_issue. intros H. apply bind_Ok in H as ([] & Hv & H).
  apply bind_Ok in H as (id & Hid%ok_or_Ok & H). apply bind_Ok in H as ([] & Hp & H).
  apply bind_Ok in H as ([] & Hby%ensure_Ok%eqb_true_1 & H).
  destruct (policy_grants p !! grant_id g) as [g'|] eqn:Hg; [by destruct (g' == g)|].
  apply bind_Ok in H as ([] & Ha%ensure_Ok & [= <-]). eexists. split.
  - apply (policy_apply_own p id); [done|done|]. unfold apply_grant. rewrite Hid, Hg, Hby, Ha.
    cbn [is_some negb ensure mbind result_bind]. by rewrite Hv.
  - intros now'. cbn [policy_grants policy_id set_field]. rewrite Hv, Hid, Hp, Hby, eqb_refl.
    cbn [ok_or ensure mbind result_bind]. by rewrite lookup_insert_eq, eqb_refl.
Qed.

Lemma revoke_folds p issuer id_ reason now e :
  decide_revoke p issuer id_ reason now = Ok (Some e) →
  folds_and_settles p e (λ q, ∀ issuer reason now, decide_revoke q issuer id_ reason now = Ok None).
Proof using.
  unfold decide_revoke. intros H. apply bind_Ok in H as (id & Hid%ok_or_Ok & H).
  apply bind_Ok in H as (g & Hg%ok_or_Ok & H).
  destruct (bool_decide_reflect (id_ ∈ policy_revoked p)) as [|Hr]; [done|].
  apply bind_Ok in H as ([] & Hp & H). apply bind_Ok in H as ([] & Ha%ensure_Ok & [= <-]).
  eexists. split.
  - apply (policy_apply_own p id); [done|done|]. unfold apply_revocation.
    cbn [revocation_by revocation_grant_id revocation_at]. rewrite Hp, Hg.
    cbn [ok_or mbind result_bind]. by rewrite (bool_decide_eq_false_2 _ Hr), Ha.
  - intros issuer' reason' now'. cbn [policy_grants policy_id policy_revoked set_field].
    rewrite Hid, Hg. cbn [ok_or mbind result_bind revocation_grant_id].
    by rewrite bool_decide_eq_true_2 by set_solver.
Qed.

(** A decision just built is sealed, and its fields are the ones given. *)
Lemma decision_build_inv request version kind grant denial at_ until d :
  principal_validate (request_principal request) = Ok tt →
  decision_build request version kind grant denial at_ until = Ok d →
  decision_validate d = Ok tt ∧ decision_request d = request ∧ decision_policy_version d = version ∧
  decision_kind d = kind ∧ decision_grant_id d = grant ∧ decision_denial_reason d = denial ∧
  decision_decided_at d = at_ ∧ decision_valid_until d = until.
Proof using.
  intros Hp Hb. pose proof Hb as Hb'. unfold decision_build in Hb.
  apply bind_Ok in Hb as ([] & _ & Hb). apply bind_Ok in Hb as ([] & _ & Hb).
  apply bind_Ok in Hb as (c & _ & [= <-]).
  split_and!; try done. unfold decision_validate.
  cbn [decision_request decision_policy_version decision_kind decision_grant_id
    decision_denial_reason decision_decided_at decision_valid_until].
  rewrite Hp. cbn [mbind result_bind]. rewrite Hb'. cbn [mbind result_bind]. by rewrite eqb_refl.
Qed.

(** A new, valid decision folds, and is what its request is answered with. *)
Lemma decision_folds p id d :
  policy_id p = Some id → decision_validate d = Ok tt →
  decision_policy_version d = policy_version_next (policy_version p) →
  policy_decisions_by_request p !! request_id (decision_request d) = None →
  policy_decisions_by_id p !! decision_id d = None →
  decision_authority_is_valid p d = true →
  folds_and_settles p (PolicyDecisionRecorded id d) (λ q,
    policy_id q = Some id ∧ policy_decisions_by_request q !! request_id (decision_request d) = Some d).
Proof using.
  intros Hid Hv Hver Hreq Hnew Ha. eexists. split.
  - apply (policy_apply_own p id); [done|done|]. unfold apply_decision.
    rewrite Hv, Hver, eqb_refl, Hreq, Hnew, Ha. reflexivity.
  - cbn [policy_id policy_decisions_by_request set_field]. split; [done|]. apply lookup_insert_eq.
Qed.

(** [checked_add_ms] adds, when it does not overflow. *)
Definition clock_adds : Prop := ∀ at_ ms t, checked_add_ms at_ ms = Some t → t = at_ + ms * 1000000.

Lemma matching_grant_inv p request now g :
  grants_ok p → matching_grant p request now = Some g →
  policy_grants p !! grant_id g = Some g ∧
  grant_grantee g = principal_id (request_principal request) ∧
  grant_permits g (request_action request) (request_scope request) now = true ∧
  grant_chain_is_live p g now = true.
Proof using.
  intros Hok [Hin H]%find_some. rewrite !andb_true_iff in H. destruct H as [[Hw%eqb_true_1 Hp] Hl].
  apply list_elem_of_In, elem_of_btree_values in Hin as (id & Hg).
  split_and!; [by apply (stored_intro p Hok id)|done|done|done].
Qed.

(** What the policy denies a request for, if anything. *)
Definition expected_denial (p : AuthorizationPolicy) (request : AuthorizationRequest) (now : Instant)
    : option AuthorizationDenialReason :=
  if negb (is_owner p (request_principal request) && owner_permits (request_action request))
     && negb (is_some (matching_grant p request now))
  then Some NoMatchingGrant
  else request_denial p request
         (request_approval_decision_id request ≫= λ id, policy_decisions_by_id p !! id) now.

Lemma deny_authority p request version reason now until d :
  principal_validate (request_principal request) = Ok tt →
  until - now ≤ 300 * 1000000000 → expected_denial p request now = Some reason →
  decision_deny request version reason now until = Ok d → decision_authority_is_valid p d = true.
Proof using.
  intros Hpr Httl Hden Hd. apply decision_build_inv in Hd as (_ & Hrq & _ & Hk & Hg & Hr & Hat & Hu);
    [|done]. unfold decision_authority_is_valid, decision_authority_is_valid_with_authorities.
  rewrite Hrq, Hk, Hg, Hr, Hat, Hu. destruct (300 * 1000000000 <? until - now) eqn:E.
  { apply Z.ltb_lt in E. lia. }
  unfold expected_denial in Hden. rewrite Hden. by rewrite eqb_refl.
Qed.

Lemma allow_authority p request version now until d :
  let grant := matching_grant p request now in
  grants_ok p → principal_validate (request_principal request) = Ok tt →
  until - now ≤ 300 * 1000000000 → expected_denial p request now = None →
  decision_allow request version (grant_id <$> grant) now
    match grant ≫= grant_valid_until with Some u => Z.min u until | None => until end = Ok d →
  decision_authority_is_valid p d = true.
Proof using.
  intros grant Hok Hpr Httl Hden Hd.
  apply decision_build_inv in Hd as (_ & Hrq & _ & Hk & Hg & Hr & Hat & Hu); [|done].
  assert (decision_valid_until d ≤ until) as Hle.
  { rewrite Hu. destruct (grant ≫= grant_valid_until); lia. }
  unfold decision_authority_is_valid, decision_authority_is_valid_with_authorities.
  destruct (300 * 1000000000 <? _) eqn:E; [apply Z.ltb_lt in E; lia|]. clear E.
  rewrite Hk. apply orb_true_iff. right. rewrite Hrq, Hat.
  unfold expected_denial in Hden. fold grant in Hden.
  assert (decision_is_granted p d = true) as ->.
  { unfold decision_is_granted. rewrite Hrq, Hg, Hat. apply orb_true_iff.
    destruct grant as [g|] eqn:Hgr.
    - right. destruct (matching_grant_inv p request now g Hok Hgr) as (Hs & Hw & Hp & Hl).
      cbn [fmap option_fmap option_map mbind option_bind]. rewrite Hs. cbn [is_some_and].
      rewrite Hw, eqb_refl, Hp, Hl. cbn [andb]. rewrite Hu. cbn [mbind option_bind].
      destruct (grant_valid_until g); [|done]. cbn [is_none_or]. apply Z.leb_le. lia.
    - left. cbn [fmap option_fmap option_map is_some negb] in Hden |- *.
      destruct (is_owner _ _ && owner_permits _); [done|done]. }
  destruct (negb _ && negb _); [done|]. by rewrite Hden.
Qed.

Lemma authorize_folds p request now ttl d e :
  clock_adds → grants_ok p →
  principal_validate (request_principal request) = Ok tt → 1 ≤ ttl ≤ 300 →
  decide_authorize p request now ttl = Ok (d, Some e) →
  policy_decisions_by_id p !! decision_id d = None →
  folds_and_settles p e (λ q, ∀ now ttl, decide_authorize q request now ttl = Ok (d, None)).
Proof using.
  intros Hclock Hok Hpr Httl H Hnew. unfold decide_authorize, decide_authorize_with_decisions in H.
  apply bind_Ok in H as (id & Hid%ok_or_Ok & H).
  destruct (policy_decisions_by_request p !! request_id request) as [d'|] eqn:Hreq.
  { by destruct (decision_request d' == request). }
  apply bind_Ok in H as (until & Huntil%ok_or_Ok%Hclock & H).
  apply bind_Ok in H as (d' & Hd & [= -> <-]).
  fold (expected_denial p request now) in Hd. assert (until - now ≤ 300 * 1000000000) by lia.
  assert (decision_request d = request ∧ decision_policy_version d = policy_version_next (policy_version p)
    ∧ decision_validate d = Ok tt ∧ decision_authority_is_valid p d = true) as (Hrq & Hver & Hval & Ha).
  { destruct (expected_denial p request now) as [reason|] eqn:Hden.
    - pose proof (deny_authority p request _ reason now until d Hpr ltac:(done) Hden Hd).
      apply decision_build_inv in Hd; tauto.
    - pose proof (allow_authority p request _ now until d Hok Hpr ltac:(done) Hden Hd).
      apply decision_build_inv in Hd; tauto. }
  destruct (decision_folds p id d Hid Hval Hver) as (q & Hq & Hqid & Hqd);
    [by rewrite Hrq|done|done|].
  exists q. split; [done|]. intros now' ttl'. unfold decide_authorize, decide_authorize_with_decisions.
  rewrite Hqid. rewrite Hrq in Hqd. rewrite Hqd. cbn [ok_or mbind result_bind]. by rewrite Hrq, eqb_refl.
Qed.

Lemma accepted_work_folds p request accepted now ttl d e :
  clock_adds →
  principal_validate (request_principal request) = Ok tt → 1 ≤ ttl ≤ 300 →
  policy_decisions_by_id p !! decision_id accepted = Some accepted →
  decide_accepted_work p request (policy_decisions_by_request p !! request_id request)
    accepted now ttl = Ok (d, Some e) →
  policy_decisions_by_id p !! decision_id d = None →
  folds_and_settles p e (λ q, ∀ now ttl, decide_accepted_work q request
    (policy_decisions_by_request q !! request_id request) accepted now ttl = Ok (d, None)).
Proof using.
  intros Hclock Hpr Httl Hacc H Hnew. unfold decide_accepted_work in H.
  apply bind_Ok in H as (id & Hid%ok_or_Ok & H).
  destruct (policy_decisions_by_request p !! request_id request) as [d'|] eqn:Hreq.
  { by destruct (decision_request d' == request). }
  apply bind_Ok in H as ([] & Hv%ensure_Ok & H).
  apply bind_Ok in H as (until & Huntil%ok_or_Ok%Hclock & H).
  apply bind_Ok in H as (d' & Hd & [= -> <-]).
  apply decision_build_inv in Hd as (Hval & Hrq & Hver & Hk & _ & _ & Hat & Hu); [|done].
  assert (decision_authority_is_valid p d = true) as Ha.
  { unfold decision_authority_is_valid, decision_authority_is_valid_with_authorities.
    rewrite Hrq, Hk, Hat, Hu. destruct (300 * 1000000000 <? _) eqn:E; [apply Z.ltb_lt in E; lia|].
    apply orb_true_iff. left. pose proof Hv as Hv'. unfold authority_is_valid in Hv'.
    rewrite !andb_true_iff in Hv'. destruct Hv' as [[[[->%eqb_true_1 _] _] _] _].
    cbn [mbind option_bind]. by rewrite Hacc. }
  destruct (decision_folds p id d Hid Hval Hver) as (q & Hq & Hqid & Hqd); [by rewrite Hrq|done|done|].
  exists q. split; [done|]. intros now' ttl'. unfold decide_accepted_work.
  rewrite Hqid. rewrite Hrq in Hqd. rewrite Hqd. cbn [ok_or mbind result_bind]. by rewrite Hrq, eqb_refl.
Qed.

(** Every event the policy decides is accepted by its own fold, and deciding
    the same again on the result changes nothing: an opening, a grant, a
    revocation and both kinds of authorization. *)
Theorem decided_policy_events_fold es p e repeated :
  clock_adds → Forall event_typed es → policy_rehydrate es = Ok p → decides p e repeated →
  ∃ q, policy_apply p e = Ok q ∧ repeated q.
Proof using.
  intros Hclock Hes Hp Hd. destruct (policy_wf_rehydrate es p Hes Hp) as [_ Hok].
  destruct Hd.
  - by apply (open_folds p id owner rules at_).
  - by apply (issue_folds p issuer g now).
  - by apply (revoke_folds p issuer id reason now).
  - by apply (authorize_folds p request now ttl).
  - by apply (accepted_work_folds p request accepted now ttl).
Qed.

End theorems.

(** ** A policy in use *)

#[export] Instance demo_serde : DecisionSerde := λ request _ _ _ _ _ _, Some (request_id request).

Definition host : AuthenticatedPrincipal := MkPrincipal "host" TrustedHost LocalHostPolicy.
Definition lead : AuthenticatedPrincipal := MkPrincipal "lead" Human MutualTls.
Definition hand : AuthenticatedPrincipal := MkPrincipal "hand" Worker MutualTls.

Definition lead_grant : AuthorizationGrant :=
  MkGrant "g-lead" "lead"
    {[AA_IssueAuthorizationGrant; AA_ApproveCeremonyGuard; AA_ApplyCeremonyTransition]}
    (ScopeCeremonyTree "c-1") 0 None 2 (MkGrantIssuer host None).
Definition hand_grant : AuthorizationGrant :=
  MkGrant "g-hand" "hand" {[AA_ApplyCeremonyTransition]}
    (ScopeCeremony "c-1") 0 (Some 9000000000) 1 (MkGrantIssuer lead (Some "g-lead")).

Definition approval_request : AuthorizationRequest :=
  MkRequest "r-1" lead AA_ApproveCeremonyGuard (ScopeCeremony "c-1") "digest" None None
    (Some AA_ApplyCeremonyTransition).
Definition execution_request (id : string) (approval : option string) : AuthorizationRequest :=
  MkRequest id hand AA_ApplyCeremonyTransition (ScopeCeremony "c-1") "digest" approval None None.

Definition policy_after (es : list AuthorizationPolicyEvent) : AuthorizationPolicy :=
  match policy_rehydrate es with Ok p => p | _ => policy_empty end.

Definition decided_events {A} (r : outcome A) (f : A → option AuthorizationPolicyEvent)
    : list AuthorizationPolicyEvent :=
  match r with Ok a => option_list (f a) | _ => [] end.

Definition opened_policy := decided_events (policy_decide_open policy_empty "policy" host
  [MkSeparationRule AA_ApproveCeremonyGuard AA_ApplyCeremonyTransition] 0) id.
Definition staffed := opened_policy ++ [PolicyGrantIssued "policy" lead_grant 1]
  ++ [PolicyGrantIssued "policy" hand_grant 2].
Definition approving := staffed ++
  decided_events (decide_authorize (policy_after staffed) approval_request 3 60) snd.
Definition executing := approving ++ decided_events
  (decide_authorize (policy_after approving) (execution_request "r-2" (Some "r-1")) 4 60) snd.
Definition revoking := executing ++
  decided_events (decide_revoke (policy_after executing) host "g-lead" "left" 5) id.
Definition refusing := decided_events
  (decide_authorize (policy_after revoking) (execution_request "r-3" (Some "r-1")) 6 60) snd.

Definition typed (e : AuthorizationPolicyEvent) : bool :=
  match e with
  | PolicyGrantIssued _ g _ =>
      (0 <=? grant_delegation_depth g) && (grant_delegation_depth g <=? u8_max)
  | _ => true
  end.

Lemma all_typed es : all typed es = true → Forall event_typed es.
Proof.
  rewrite all_true, Forall_forall. intros H e He. specialize (H e He).
  destruct e; cbn in *; [done| |done..]. apply andb_true_iff in H as [?%Z.leb_le ?%Z.leb_le]. lia.
Qed.

Definition outcome_of (es : list AuthorizationPolicyEvent) (id : string)
    : option (AuthorizationDecisionKind * option AuthorizationDenialReason * Instant) :=
  (λ d, (decision_kind d, decision_denial_reason d, decision_valid_until d))
    <$> policy_decisions_by_id (policy_after es) !! id.

(** The worker executes what the lead approved, until its grant expires; once
    the lead's grant is revoked, the same request finds no grant. *)
Example policy_in_use :
  outcome_of (revoking ++ refusing) "r-2" = Some (Allow, None, 9000000000) ∧
  outcome_of (revoking ++ refusing) "r-3" = Some (Deny, Some NoMatchingGrant, 60000000006).
Proof. vm_compute. split; reflexivity. Qed.

Lemma chain_via (p : AuthorizationPolicy) g id h :
  grant_parent_id g = Some id → policy_grants p !! id = Some h → chain p g h.
Proof. intros ??. apply rtc_once. by exists id. Qed.

Lemma permission_is_a_live_chain_witness :
  policy_permits (policy_after executing) hand AA_ApplyCeremonyTransition (ScopeCeremony "c-1") 5 = true
  ∧ ((policy_owner (policy_after executing) = Some hand
        ∧ owner_permits AA_ApplyCeremonyTransition = true) ∨
     ∃ g root, policy_grants (policy_after executing) !! grant_id g = Some g ∧
       grant_grantee g = principal_id hand ∧
       scope_covers (grant_scope g) (ScopeCeremony "c-1") = true ∧
       chain (policy_after executing) g root ∧ grant_parent_id root = None ∧
       policy_owner (policy_after executing) = Some (grant_issued_by root) ∧
       ∀ h, chain (policy_after executing) g h →
         grant_id h ∉ policy_revoked (policy_after executing) ∧ grant_is_active_at h 5 = true ∧
         AA_ApplyCeremonyTransition ∈ grant_actions h ∧
         scope_covers (grant_scope h) (grant_scope g) = true).
Proof.
  split; [vm_compute; reflexivity|].
  refine (proj1 (permission_is_a_live_chain executing (policy_after executing) hand
    AA_ApplyCeremonyTransition (ScopeCeremony "c-1") 5 _ _) _); [|vm_compute; reflexivity..].
  apply all_typed. vm_compute. reflexivity.
Defined.

Lemma revocation_is_final_witness :
  grant_chain_is_live (policy_after (revoking ++ refusing)) hand_grant 7 = false.
Proof.
  refine (proj1 (revocation_is_final revoking (policy_after revoking) "g-lead" refusing
    (policy_after (revoking ++ refusing)) _ _ _ _) hand_grant lead_grant 7 _ _ _).
  - apply all_typed. vm_compute. reflexivity.
  - vm_compute. reflexivity.
  - apply (bool_decide_eq_true_1 _). vm_compute. reflexivity.
  - vm_compute. reflexivity.
  - vm_compute. reflexivity.
  - apply (chain_via _ _ "g-lead"); vm_compute; reflexivity.
  - reflexivity.
Defined.

Lemma every_admission_is_backed_witness :
  ∃ d, policy_decisions_by_id (policy_after executing) !! "r-2" = Some d ∧
    admitted executing d.
Proof.
  eexists. split; [vm_compute; reflexivity|].
  refine (proj1 (proj2 (every_admission_is_backed executing (policy_after executing) "r-2" _ _ _ _ _)));
    try (vm_compute; reflexivity).
  apply all_typed. vm_compute. reflexivity.
Defined.

Lemma decided_policy_events_fold_witness :
  ∃ e q, refusing = [e] ∧ policy_apply (policy_after revoking) e = Ok q ∧
    ∀ now ttl, is_ok (decide_authorize q (execution_request "r-3" (Some "r-1")) now ttl) = true.
Proof.
  eexists.
  edestruct (decided_policy_events_fold revoking (policy_after revoking)) as (q & Hq & Hr).
  - by intros at_ ms t [= <-].
  - apply all_typed. vm_compute. reflexivity.
  - vm_compute; reflexivity.
  - refine (decides_authorize (policy_after revoking) (execution_request "r-3" (Some "r-1")) 6 60
      _ _ _ _ _ _); [vm_compute; reflexivity|lia|vm_compute; reflexivity..].
  - exists q. split; [vm_compute; reflexivity|]. split; [exact Hq|]. intros now ttl. by rewrite Hr.
Defined.

(** [covers] is not transitive through a resolved lineage: the holder of the
    tree of a child ceremony may not act on that ceremony, but whom he delegates
    the ceremony to may. *)
Definition child_tree_grant : AuthorizationGrant :=
  MkGrant "g-lead" "lead" {[AA_IssueAuthorizationGrant; AA_ApplyCeremonyTransition]}
    (ScopeCeremonyTree "c-2") 0 None 2 (MkGrantIssuer host None).
Definition child_ceremony_grant : AuthorizationGrant :=
  MkGrant "g-hand" "hand" {[AA_ApplyCeremonyTransition]}
    (ScopeCeremony "c-2") 0 None 1 (MkGrantIssuer lead (Some "g-lead")).

Theorem delegation_can_exceed_the_delegator :
  ∃ p, policy_rehydrate (opened_policy ++ [PolicyGrantIssued "policy" child_tree_grant 1;
                                     PolicyGrantIssued "policy" child_ceremony_grant 2]) = Ok p ∧
    let child_of_c1 := ScopeResolvedCeremony "c-2" "c-1" in
    policy_permits p lead AA_ApplyCeremonyTransition child_of_c1 3 = false ∧
    policy_permits p hand AA_ApplyCeremonyTransition child_of_c1 3 = true.
Proof. eexists. split; [vm_compute; reflexivity|]. vm_compute. split; reflexivity. Qed.
