(* ===== verification/Tamper.v ===== *)
(** * What the audit journal guarantees

    A journal sealed record by record verifies; and the digest of the last
    record determines the whole journal: two journals that verify and end in the
    same digest are the same, record for record, or they exhibit two byte
    strings with one SHA-256 digest. *)

From S2P Require Import Prelude Errors Text Values Steps Definitions Interventions Instance.
From S2P Require Import Equality Authorization AuditLog Scenario.

(** ** Reading the framing back *)

Definition opt_frameable (o : option string) : Prop := ∀ s, o = Some s → frameable s.

Lemma string_cons_app_inj c1 c2 s1 s2 t1 t2 :
  String c1 s1 +:+ t1 = String c2 s2 +:+ t2 → c1 = c2 ∧ s1 +:+ t1 = s2 +:+ t2.
Proof. by intros [= -> ->]. Qed.

Lemma write_optional_inj a b t1 t2 :
  opt_frameable a → opt_frameable b →
  write_optional a +:+ t1 = write_optional b +:+ t2 → a = b ∧ t1 = t2.
Proof.
  intros Ha Hb. destruct a as [a|], b as [b|]; unfold write_optional;
    intros [Hc H]%string_cons_app_inj; try discriminate Hc; [|done].
  apply frame_inj in H as [-> ->]; [done|by apply Ha|by apply Hb].
Qed.

Lemma be_bytes_app_inj k n m t1 t2 :
  0 ≤ n < 256 ^ Z.of_nat k → 0 ≤ m < 256 ^ Z.of_nat k →
  be_bytes k (Z.to_N n) +:+ t1 = be_bytes k (Z.to_N m) +:+ t2 → n = m ∧ t1 = t2.
Proof.
  intros Hn Hm H. apply string_app_inj_length in H as [H ->]; [|by rewrite !be_bytes_length].
  split; [|done]. apply be_bytes_inj in H; lia.
Qed.

Lemma AuditEventType_as_str_inj t1 t2 : AuditEventType_as_str t1 = AuditEventType_as_str t2 → t1 = t2.
Proof. destruct t1, t2; first [reflexivity|discriminate]. Qed.

Lemma AuditActorKind_as_str_inj k1 k2 : AuditActorKind_as_str k1 = AuditActorKind_as_str k2 → k1 = k2.
Proof. destruct k1, k2; first [reflexivity|discriminate]. Qed.

(** ** A digest determines what it seals *)

(** What the code relies on of the renderings it calls: different values have
    different texts, and what they produce fits in memory.  That a text is read
    back as the value it renders is not among it: JSON numbers need not be. *)
Class AuditSerdeLaws (Haud : AuditSerde) : Prop := {
  rfc3339_inj : ∀ t1 t2 s, rfc3339 t1 = Some s → rfc3339 t2 = Some s → t1 = t2;
  rfc3339_frameable : ∀ t s, rfc3339 t = Some s → frameable s;
  event_json_inj : ∀ e1 e2 s, event_json e1 = Some s → event_json e2 = Some s → e1 = e2;
  event_frameable : ∀ e s, event_json e = Some s → frameable s;
  authorization_inj : ∀ a1 a2 s,
    authorization_json a1 = Some s → authorization_json a2 = Some s → a1 = a2;
  authorization_frameable : ∀ a s, authorization_json a = Some s → frameable s;
}.

(** The machine types of a record's fields. *)
Record record_typed (r : AuditRecord) : Prop := {
  typed_event_id : frameable (ar_event_id r);
  typed_ceremony_id : frameable (ar_ceremony_id r);
  typed_definition_name : frameable (ar_definition_name r);
  typed_definition_version : frameable (ar_definition_version r);
  typed_sequence : 0 ≤ ar_sequence r ≤ u64_max;
  typed_actor_id : frameable (actor_id (ar_actor r));
  typed_role_id : opt_frameable (actor_role_id (ar_actor r));
  typed_correlation_id : opt_frameable (ar_correlation_id r);
  typed_causation_id : opt_frameable (ar_causation_id r);
  typed_trace_id : opt_frameable (ar_trace_id r);
  typed_event_version : ∀ v, ar_event_schema_version r = Some v → 0 ≤ v ≤ u32_max;
  typed_previous : opt_frameable (ar_previous_record_hash r);
}.

Section digests.
Context {Haud : AuditSerde} {Hlaws : AuditSerdeLaws Haud}.

Definition digest_ok (r : AuditRecord) : Prop := digest_is_intact r = Ok true.

Lemma digest_ok_preimage r :
  digest_ok r → has_canonical_shape r = true ∧
    ∃ c, preimage r = Ok c ∧ ar_record_hash r = sha256_digest c.
Proof using.
  unfold digest_ok, digest_is_intact, compute_hash. destruct (has_canonical_shape r); [|done].
  cbn [negb]. intros (h & (c & Hc & [= <-])%bind_Ok & [= H%eqb_true_1])%bind_Ok. split; [done|].
  by exists c.
Qed.

(** The fields a preimage covers: all but the digest itself. *)
Definition content (r : AuditRecord) : AuditRecord := r <| ar_record_hash := "" |>.

Lemma content_ext r1 r2 :
  ar_event_id r1 = ar_event_id r2 → ar_event_type r1 = ar_event_type r2 →
  ar_schema_version r1 = ar_schema_version r2 → ar_ceremony_id r1 = ar_ceremony_id r2 →
  ar_definition_name r1 = ar_definition_name r2 →
  ar_definition_version r1 = ar_definition_version r2 → ar_sequence r1 = ar_sequence r2 →
  ar_occurred_at r1 = ar_occurred_at r2 → actor_id (ar_actor r1) = actor_id (ar_actor r2) →
  actor_kind (ar_actor r1) = actor_kind (ar_actor r2) →
  actor_role_id (ar_actor r1) = actor_role_id (ar_actor r2) →
  ar_correlation_id r1 = ar_correlation_id r2 → ar_causation_id r1 = ar_causation_id r2 →
  ar_trace_id r1 = ar_trace_id r2 → ar_event_schema_version r1 = ar_event_schema_version r2 →
  ar_event r1 = ar_event r2 → ar_authorization_evidence r1 = ar_authorization_evidence r2 →
  ar_previous_record_hash r1 = ar_previous_record_hash r2 → content r1 = content r2.
Proof using.
  destruct r1 as [? ? ? ? ? ? ? ? [? ? ?]], r2 as [? ? ? ? ? ? ? ? [? ? ?]]; cbn.
  by intros <- <- <- <- <- <- <- <- <- <- <- <- <- <- <- <- <- <-.
Qed.

(** The three shapes a record may have. *)
Inductive shape (r : AuditRecord) : Prop :=
| shape_legacy : ar_schema_version r = 1 → ar_event_schema_version r = None → ar_event r = None →
    ar_authorization_evidence r = None → shape r
| shape_event v e : ar_schema_version r = 2 → ar_event_schema_version r = Some v →
    ar_event r = Some e → ar_authorization_evidence r = None → shape r
| shape_authorized v e a : ar_schema_version r = 3 → ar_event_schema_version r = Some v →
    ar_event r = Some e → ar_authorization_evidence r = Some a → shape r.

Lemma canonical_shape r : has_canonical_shape r = true → shape r.
Proof using.
  unfold has_canonical_shape, LEGACY_SCHEMA_VERSION, EVENT_BEARING_SCHEMA_VERSION,
    AUTHORIZED_SCHEMA_VERSION.
  destruct (Z.eqb_spec (ar_schema_version r) 1); [|destruct (Z.eqb_spec (ar_schema_version r) 2);
    [|destruct (Z.eqb_spec (ar_schema_version r) 3); [|done]]];
    destruct (ar_event_schema_version r) eqn:?, (ar_event r) eqn:?,
      (ar_authorization_evidence r) eqn:?; try done; intros _.
  - by apply shape_legacy.
  - by eapply shape_event.
  - by eapply shape_authorized.
Qed.

Lemma string_app_nil_r s : s +:+ "" = s.
Proof using. induction s as [|c s IH]; [done|]. by apply (f_equal (String c)) in IH. Qed.

Lemma event_version_inj r1 r2 v1 v2 t1 t2 :
  record_typed r1 → record_typed r2 →
  ar_event_schema_version r1 = Some v1 → ar_event_schema_version r2 = Some v2 →
  u32_bytes v1 +:+ t1 = u32_bytes v2 +:+ t2 → v1 = v2 ∧ t1 = t2.
Proof using.
  intros Ht1 Ht2 H1%(typed_event_version _ Ht1) H2%(typed_event_version _ Ht2).
  unfold u32_max in *. apply (be_bytes_app_inj 4); lia.
Qed.

(** The part of a preimage that depends on the schema version. *)
Lemma payload_inj r1 r2 p1 p2 a1 a2 :
  record_typed r1 → record_typed r2 →
  has_canonical_shape r1 = true → has_canonical_shape r2 = true →
  ar_schema_version r1 = ar_schema_version r2 →
  canonical_payload r1 = Ok p1 → canonical_payload r2 = Ok p2 →
  canonical_authorization r1 = Ok a1 → canonical_authorization r2 = Ok a2 →
  p1 +:+ a1 = p2 +:+ a2 →
  ar_event_schema_version r1 = ar_event_schema_version r2 ∧ ar_event r1 = ar_event r2 ∧
  ar_authorization_evidence r1 = ar_authorization_evidence r2.
Proof using Hlaws.
  intros Ht1 Ht2 Hs1%canonical_shape Hs2%canonical_shape Hv.
  unfold canonical_payload, canonical_authorization.
  destruct Hs1 as [V1 E1 J1 A1|v1 e1 V1 E1 J1 A1|v1 e1 b1 V1 E1 J1 A1],
    Hs2 as [V2 E2 J2 A2|v2 e2 V2 E2 J2 A2|v2 e2 b2 V2 E2 J2 A2]; try congruence;
    rewrite V1, V2, E1, E2, J1, J2, A1, A2; [done|..].
  - intros (q1 & Hq1%ok_or_Ok & [= <-])%bind_Ok (q2 & Hq2%ok_or_Ok & [= <-])%bind_Ok [= <-] [= <-] H.
    rewrite !string_app_assoc in H. destruct (event_version_inj r1 r2 v1 v2 _ _ Ht1 Ht2 E1 E2 H) as [-> H'].
    apply frame_inj in H' as [-> _]; [|by eapply event_frameable..].
    rewrite (event_json_inj e1 e2 q2) by done. done.
  - intros (q1 & Hq1%ok_or_Ok & [= <-])%bind_Ok (q2 & Hq2%ok_or_Ok & [= <-])%bind_Ok
      (? & [= <-] & (c1 & Hc1%ok_or_Ok & [= <-])%bind_Ok)%bind_Ok
      (? & [= <-] & (c2 & Hc2%ok_or_Ok & [= <-])%bind_Ok)%bind_Ok H.
    rewrite !string_app_assoc in H. destruct (event_version_inj r1 r2 v1 v2 _ _ Ht1 Ht2 E1 E2 H) as [-> H'].
    apply frame_inj in H' as [-> H']; [|by eapply event_frameable..].
    rewrite <-(string_app_nil_r (frame c1)), <-(string_app_nil_r (frame c2)) in H'.
    apply frame_inj in H' as [-> _]; [|by eapply authorization_frameable..].
    rewrite (event_json_inj e1 e2 q2), (authorization_inj b1 b2 c2) by done. done.
Qed.

Lemma scheme_inj r1 r2 sch1 sch2 t1 t2 :
  has_canonical_shape r1 = true → has_canonical_shape r2 = true →
  canonical_scheme (ar_schema_version r1) = Some sch1 →
  canonical_scheme (ar_schema_version r2) = Some sch2 →
  sch1 +:+ u32_bytes (ar_schema_version r1) +:+ t1 = sch2 +:+ u32_bytes (ar_schema_version r2) +:+ t2 →
  ar_schema_version r1 = ar_schema_version r2 ∧ t1 = t2.
Proof using.
  intros Hs1%canonical_shape Hs2%canonical_shape H1 H2 H.
  assert (ar_schema_version r1 = 1 ∨ ar_schema_version r1 = 2 ∨ ar_schema_version r1 = 3) as Hv1
    by (destruct Hs1; tauto).
  assert (ar_schema_version r2 = 1 ∨ ar_schema_version r2 = 2 ∨ ar_schema_version r2 = 3) as Hv2
    by (destruct Hs2; tauto). clear Hs1 Hs2.
  destruct Hv1 as [V1|[V1|V1]], Hv2 as [V2|[V2|V2]]; rewrite V1 in *; rewrite V2 in *;
    cbv in H1, H2; injection H1 as <-; injection H2 as <-;
    apply string_app_inj_length in H as [Hsch H]; try reflexivity; try discriminate Hsch;
    (split; [done|by apply string_app_inv_head in H]).
Qed.

Lemma sequence_inj r1 r2 t1 t2 :
  record_typed r1 → record_typed r2 →
  u64_bytes (ar_sequence r1) +:+ t1 = u64_bytes (ar_sequence r2) +:+ t2 →
  ar_sequence r1 = ar_sequence r2 ∧ t1 = t2.
Proof using.
  intros H1%typed_sequence H2%typed_sequence. unfold u64_max in *. apply (be_bytes_app_inj 8); lia.
Qed.

Lemma as_str_frameable t : frameable (AuditEventType_as_str t).
Proof using. by destruct t. Qed.

Lemma kind_frameable k : frameable (AuditActorKind_as_str k).
Proof using. by destruct k. Qed.

(** The preimage of a digest determines every field it covers. *)
Lemma preimage_inj r1 r2 c :
  record_typed r1 → record_typed r2 →
  has_canonical_shape r1 = true → has_canonical_shape r2 = true →
  preimage r1 = Ok c → preimage r2 = Ok c → content r1 = content r2.
Proof using Hlaws.
  intros Ht1 Ht2 Hs1 Hs2 H1 H2. unfold preimage in H1, H2.
  apply bind_Ok in H1 as (at1 & Hat1%ok_or_Ok & H1). apply bind_Ok in H2 as (at2 & Hat2%ok_or_Ok & H2).
  apply bind_Ok in H1 as (sch1 & Hsch1%ok_or_Ok & H1). apply bind_Ok in H2 as (sch2 & Hsch2%ok_or_Ok & H2).
  apply bind_Ok in H1 as (p1 & Hp1 & H1). apply bind_Ok in H2 as (p2 & Hp2 & H2).
  apply bind_Ok in H1 as (a1 & Ha1 & H1). apply bind_Ok in H2 as (a2 & Ha2 & H2).
  injection H1 as H1. injection H2 as H2. rewrite <-H2 in H1. clear H2 c.
  apply scheme_inj in H1 as [Hv H]; [|done..].
  apply frame_inj in H as [Heid H]; [|by apply typed_event_id..].
  apply frame_inj in H as [Het%AuditEventType_as_str_inj H]; [|apply as_str_frameable..].
  apply frame_inj in H as [Hcid H]; [|by apply typed_ceremony_id..].
  apply frame_inj in H as [Hdn H]; [|by apply typed_definition_name..].
  apply frame_inj in H as [Hdv H]; [|by apply typed_definition_version..].
  apply sequence_inj in H as [Hseq H]; [|done..].
  apply frame_inj in H as [Hat H]; [|by eapply rfc3339_frameable..].
  apply frame_inj in H as [Haid H]; [|by apply typed_actor_id..].
  apply frame_inj in H as [Hak%AuditActorKind_as_str_inj H]; [|apply kind_frameable..].
  apply write_optional_inj in H as [Hrole H]; [|by apply typed_role_id..].
  apply write_optional_inj in H as [Hcor H]; [|by apply typed_correlation_id..].
  apply write_optional_inj in H as [Hcau H]; [|by apply typed_causation_id..].
  apply write_optional_inj in H as [Htr H]; [|by apply typed_trace_id..].
  apply write_optional_inj in H as [Hprev H]; [|by apply typed_previous..].
  destruct (payload_inj r1 r2 p1 p2 a1 a2) as (Hev & Hevt & Haz); try done.
  subst at2. pose proof (rfc3339_inj _ _ _ Hat1 Hat2) as Htime.
  by apply content_ext.
Qed.

(** ** Journals *)

(** A record that legitimately follows another. *)
Definition follows_on (r previous : AuditRecord) : Prop :=
  record_continues r previous = true ∧ digest_ok r.

Definition opens_journal (r : AuditRecord) : Prop :=
  ar_sequence r = AuditSequence_FIRST ∧ ar_previous_record_hash r = None ∧ digest_ok r.

Lemma digest_defect_None r : digest_defect r = None ↔ digest_ok r.
Proof using.
  unfold digest_defect, digest_ok. destruct (digest_is_intact r) as [[]| |]; split; congruence.
Qed.

Lemma digest_defect_Broken r v : digest_defect r = Some v → v ≠ Intact.
Proof using.
  unfold digest_defect. destruct (digest_is_intact r) as [[]| |]; congruence.
Qed.

Lemma verify_rest_cons previous r rest :
  verify_rest previous (r :: rest) = Intact ↔ follows_on r previous ∧ verify_rest r rest = Intact.
Proof using.
  cbn [verify_rest]. unfold follows_on, record_continues. rewrite !andb_true_iff.
  destruct (ar_ceremony_id r == ar_ceremony_id previous); cbn [negb]; [|naive_solver].
  destruct (sequence_follows _ _); cbn [negb]; [|naive_solver].
  destruct (ar_previous_record_hash r) as [h|]; [|split; [done|]; by intros [[[_ ?%eqb_true_1] _] _]].
  destruct (h == ar_record_hash previous) eqn:Hh; cbn [negb].
  - apply eqb_true_1 in Hh as ->. rewrite eqb_refl.
    destruct (digest_defect r) as [v|] eqn:Hd.
    + split; [intros Hv; by destruct (digest_defect_Broken r v Hd)|].
      intros [[_ Hok%digest_defect_None] _]. congruence.
    + apply digest_defect_None in Hd. naive_solver.
  - split; [done|]. intros [[[_ H%eqb_true_1] _] _]. apply eqb_false in Hh. congruence.
Qed.

Lemma verify_cons r rest :
  verify (r :: rest) = Intact ↔ opens_journal r ∧ verify_rest r rest = Intact.
Proof using.
  cbn [verify]. unfold opens_journal, sequence_is_first.
  destruct (Z.eqb_spec (ar_sequence r) AuditSequence_FIRST); cbn [negb]; [|naive_solver].
  destruct (ar_previous_record_hash r); cbn [is_some]; [naive_solver|].
  destruct (digest_defect r) as [v|] eqn:Hd.
  - split; [intros Hv; by destruct (digest_defect_Broken r v Hd)|].
    intros [(_ & _ & Hok%digest_defect_None) _]. congruence.
  - apply digest_defect_None in Hd. naive_solver.
Qed.

Lemma verify_rest_snoc previous rest r :
  verify_rest previous (rest ++ [r]) = Intact ↔
  verify_rest previous rest = Intact ∧ follows_on r (default previous (last rest)).
Proof using.
  revert previous. induction rest as [|q rest IH]; intros previous.
  - cbn [app]. rewrite verify_rest_cons. cbn. naive_solver.
  - cbn [app]. rewrite !verify_rest_cons, IH. rewrite last_cons. destruct (last rest); cbn; naive_solver.
Qed.

(** A journal verifies record by record, from the back. *)
Lemma verify_snoc l r :
  verify (l ++ [r]) = Intact ↔
  verify l = Intact ∧ match last l with None => opens_journal r | Some q => follows_on r q end.
Proof using.
  destruct l as [|q l].
  - cbn [app]. rewrite verify_cons. cbn. naive_solver.
  - cbn [app]. rewrite !verify_cons, verify_rest_snoc, last_cons.
    destruct (last l); cbn; naive_solver.
Qed.

(** Two records under one digest are one record, or a collision. *)
Definition collision : Prop := ∃ c1 c2, c1 ≠ c2 ∧ sha256_digest c1 = sha256_digest c2.

Lemma digest_determines r1 r2 :
  record_typed r1 → record_typed r2 → digest_ok r1 → digest_ok r2 →
  ar_record_hash r1 = ar_record_hash r2 → r1 = r2 ∨ collision.
Proof using Hlaws.
  intros Ht1 Ht2 (Hs1 & c1 & Hc1 & H1)%digest_ok_preimage (Hs2 & c2 & Hc2 & H2)%digest_ok_preimage Hh.
  destruct (base.decide (c1 = c2)) as [->|Hne]; [|right; exists c1, c2; split; [done|congruence]].
  left. pose proof (preimage_inj r1 r2 c2 Ht1 Ht2 Hs1 Hs2 Hc1 Hc2) as Hc.
  destruct r1, r2. unfold content in Hc. cbn in Hc, Hh. injection Hc as. by subst.
Qed.

Lemma journals_agree l1 l2 :
  Forall record_typed l1 → Forall record_typed l2 →
  verify l1 = Intact → verify l2 = Intact →
  ar_record_hash <$> last l1 = ar_record_hash <$> last l2 → l1 = l2 ∨ collision.
Proof using Hlaws.
  revert l2. induction l1 as [|r1 l1 IH] using rev_ind; intros l2 Ht1 Ht2 Hv1 Hv2 Hlast.
  { left. destruct l2 as [|r2 l2 _] using rev_ind; [done|]. by rewrite last_snoc in Hlast. }
  rewrite last_snoc in Hlast.
  destruct l2 as [|r2 l2 _] using rev_ind; [done|]. rewrite last_snoc in Hlast.
  injection Hlast as Hlast. apply Forall_app in Ht1 as [Ht1 [Hr1 _]%Forall_cons].
  apply Forall_app in Ht2 as [Ht2 [Hr2 _]%Forall_cons].
  apply verify_snoc in Hv1 as [Hv1 Hj1]. apply verify_snoc in Hv2 as [Hv2 Hj2].
  assert (digest_ok r1) as Hd1 by (destruct (last l1); [apply Hj1|apply Hj1]).
  assert (digest_ok r2) as Hd2 by (destruct (last l2); [apply Hj2|apply Hj2]).
  destruct (digest_determines r1 r2 Hr1 Hr2 Hd1 Hd2 Hlast) as [->|]; [|by right].
  destruct (IH l2 Ht1 Ht2 Hv1 Hv2) as [->|]; [|by left|by right].
  destruct (last l1) as [q1|], (last l2) as [q2|]; cbn; [|..|done].
  - destruct Hj1 as [(_ & H1%eqb_true_1)%andb_true_iff _], Hj2 as [(_ & H2%eqb_true_1)%andb_true_iff _].
    congruence.
  - destruct Hj1 as [(_ & H1%eqb_true_1)%andb_true_iff _], Hj2 as (_ & H2 & _). congruence.
  - destruct Hj2 as [(_ & H2%eqb_true_1)%andb_true_iff _], Hj1 as (_ & H1 & _). congruence.
Qed.

(** ** Sealing *)

Lemma preimage_hash r h : preimage (r <| ar_record_hash := h |>) = preimage r.
Proof using. done. Qed.

Lemma seal_inv fact evidence version sequence previous r :
  seal fact evidence version sequence previous = Ok r →
  ∃ h, r = (unsealed fact evidence version sequence previous) <| ar_record_hash := h |> ∧
    compute_hash r = Ok h ∧
    (∀ a, evidence = Some a → validate_authorization_evidence a (fact_occurred_at fact) = Ok tt).
Proof using.
  unfold seal. intros H. apply bind_Ok in H as ([] & He & H). apply bind_Ok in H as (h & Hh & [= <-]).
  exists h. split_and!; [done| |]; [|by destruct evidence; intros ? [= <-]].
  unfold compute_hash in *. by rewrite preimage_hash.
Qed.

(** A sealed record is intact: version 2 without evidence, version 3 with. *)
Lemma seal_intact fact evidence sequence previous r :
  seal fact evidence (if is_some evidence then AUTHORIZED_SCHEMA_VERSION else EVENT_BEARING_SCHEMA_VERSION)
    sequence previous = Ok r →
  digest_ok r ∧ ar_sequence r = sequence ∧ ar_previous_record_hash r = previous ∧
  ar_ceremony_id r = fact_ceremony_id fact ∧ ar_event r = Some (fact_event fact).
Proof using.
  intros (h & -> & Hh & _)%seal_inv. split_and!; try done.
  unfold digest_ok, digest_is_intact. rewrite Hh.
  assert (has_canonical_shape ((unsealed fact evidence
    (if is_some evidence then AUTHORIZED_SCHEMA_VERSION else EVENT_BEARING_SCHEMA_VERSION)
    sequence previous) <| ar_record_hash := h |>) = true) as -> by (by destruct evidence).
  cbn [negb mbind result_bind ar_record_hash set_field]. by rewrite eqb_refl.
Qed.

(** [sealed_journal es l]: [l] is the journal in which the events [es] were
    sealed one after the other, each with or without authorization. *)
Inductive sealed_journal : list CeremonyEvent → list AuditRecord → Prop :=
| sealed_first fact r : record_first fact = Ok r → sealed_journal [fact_event fact] [r]
| sealed_first_authorized fact r :
    record_first_authorized fact = Ok r → sealed_journal [fact_event fact.1] [r]
| sealed_following es l p fact r :
    sealed_journal es l → last l = Some p → record_following fact p = Ok r →
    sealed_journal (es ++ [fact_event fact]) (l ++ [r])
| sealed_following_authorized es l p fact r :
    sealed_journal es l → last l = Some p → record_following_authorized fact p = Ok r →
    sealed_journal (es ++ [fact_event fact.1]) (l ++ [r]).

Lemma first_opens fact evidence r :
  seal fact evidence (if is_some evidence then AUTHORIZED_SCHEMA_VERSION else EVENT_BEARING_SCHEMA_VERSION)
    AuditSequence_FIRST None = Ok r →
  verify [r] = Intact ∧ ar_event <$> [r] = [Some (fact_event fact)].
Proof using.
  intros (Hd & Hs & Hp & _ & He)%seal_intact. rewrite verify_cons. cbn. rewrite He.
  split_and!; done.
Qed.

Lemma following_continues fact evidence l p r :
  verify l = Intact → last l = Some p →
  ensure (fact_ceremony_id fact == ar_ceremony_id p) (InvariantViolated
    "an audit record must belong to the same ceremony as its predecessor") = Ok tt →
  seal fact evidence (if is_some evidence then AUTHORIZED_SCHEMA_VERSION else EVENT_BEARING_SCHEMA_VERSION)
    (sequence_next (ar_sequence p)) (Some (ar_record_hash p)) = Ok r →
  verify (l ++ [r]) = Intact ∧ ar_event r = Some (fact_event fact).
Proof using.
  intros Hv Hl Hc%ensure_Ok%eqb_true_1 (Hd & Hs & Hp & Hid & He)%seal_intact.
  split; [|done]. apply verify_snoc. rewrite Hl. split; [done|]. split; [|done].
  unfold record_continues. rewrite Hid, Hc, Hs, Hp, !eqb_refl.
  unfold sequence_follows, sequence_next. by rewrite Z.eqb_refl.
Qed.

Lemma sealed_verifies es l :
  sealed_journal es l → verify l = Intact ∧ ar_event <$> l = Some <$> es.
Proof using.
  induction 1 as [fact r H|fact r H|es l p fact r _ [Hv He] Hl H|es l p fact r _ [Hv He] Hl H].
  - by apply (first_opens fact None).
  - by apply (first_opens fact.1 (Some fact.2)).
  - unfold record_following in H. apply bind_Ok in H as (_ & _ & H). apply bind_Ok in H as ([] & Hc & H).
    destruct (following_continues fact None l p r Hv Hl Hc H) as [Hv' Her].
    by rewrite !fmap_app, He, !fmap_cons, Her.
  - unfold record_following_authorized in H. apply bind_Ok in H as (_ & _ & H).
    apply bind_Ok in H as ([] & Hc & H).
    destruct (following_continues fact.1 (Some fact.2) l p r Hv Hl Hc H) as [Hv' Her].
    by rewrite !fmap_app, He, !fmap_cons, Her.
Qed.

(** Positions of a journal that verifies: contiguous from 1. *)
Lemma verified_positions l k r :
  verify l = Intact → l !! k = Some r → ar_sequence r = Z.min u64_max (Z.of_nat k + 1).
Proof using.
  revert k r. induction l as [|q l IH] using rev_ind; intros k r Hv Hk; [done|].
  apply verify_snoc in Hv as [Hv Hj]. apply lookup_app_Some in Hk as [Hk|[Hlen Hk]].
  { by apply IH. }
  apply list_lookup_singleton_Some in Hk as [Hk <-].
  destruct l as [|p l _] using rev_ind.
  - cbn in Hj. destruct Hj as [-> _]. cbn in Hk, Hlen. replace k with 0%nat by lia. done.
  - rewrite last_snoc in Hj. destruct Hj as [Hc _]. unfold record_continues in Hc.
    rewrite !andb_true_iff in Hc. destruct Hc as [[_ Hs%Z.eqb_eq] _].
    rewrite length_app in Hk, Hlen. cbn in Hk, Hlen.
    pose proof (IH (length l) p Hv ltac:(by apply list_lookup_middle)) as Hp. lia.
Qed.

End digests.

(** ** Digests in hexadecimal *)

Definition hex_char (c : ascii) : Prop := 48 ≤ byte_code c ≤ 102.

Lemma hex_not_white l : Forall hex_char l → strip_front l = None ∧ strip_back l = None.
Proof.
  unfold hex_char. intros H. unfold strip_front, strip_back, whitespace1, whitespace2, whitespace3.
  destruct H as [|a l Ha H]; [done|].
  destruct H as [|b l Hb H]; [|destruct H as [|c l Hc H]];
    split; repeat (case_match; [exfalso; rewrite ?orb_true_iff, ?andb_true_iff in *; lia|]); done.
Qed.

Lemma hex_digit_pair c :
  from_str_radix_2 (hex_digit (byte_code c / 16)) (hex_digit (byte_code c mod 16)) = Some (byte_code c) ∧
  ascii_of_N (Z.to_N (byte_code c)) = c ∧
  hex_char (hex_digit (byte_code c / 16)) ∧ hex_char (hex_digit (byte_code c mod 16)).
Proof.
  unfold hex_char. destruct c as [[] [] [] [] [] [] [] []]; vm_compute; split_and!; congruence.
Qed.

Lemma hex_not_continuation c : hex_char c → continuation_byte c = false.
Proof. unfold hex_char, continuation_byte. intros. apply andb_false_iff. left. lia. Qed.

Lemma hash_to_hex_chars bytes : Forall hex_char (String.list_ascii_of_string (hash_to_hex bytes)).
Proof.
  induction bytes as [|c bytes IH]; [constructor|]. cbn [hash_to_hex String.list_ascii_of_string].
  destruct (hex_digit_pair c) as (_ & _ & H1 & H2). by do 2 (constructor; [done|]).
Qed.

Lemma hash_to_hex_length bytes : String.length (hash_to_hex bytes) = (2 * String.length bytes)%nat.
Proof. induction bytes as [|c bytes IH]; [done|]. cbn. rewrite IH. lia. Qed.

Lemma parse_hex_pairs_reads_back bytes : parse_hex_pairs (hash_to_hex bytes) = Ok bytes.
Proof.
  induction bytes as [|c bytes IH]; [done|]. destruct (hex_digit_pair c) as (Hp & Hc & H1 & _).
  cbn [hash_to_hex parse_hex_pairs]. rewrite (hex_not_continuation _ H1). cbn [orb].
  assert (match hash_to_hex bytes with String c _ => continuation_byte c | _ => false end = false) as ->.
  { destruct bytes as [|c' bytes]; [done|]. cbn. apply hex_not_continuation.
    by destruct (hex_digit_pair c') as (_ & _ & ? & _). }
  cbn [mbind result_bind]. rewrite Hp. cbn [ok_or mbind result_bind]. rewrite IH.
  cbn [mbind result_bind]. by rewrite Hc.
Qed.

(** A digest printed in hexadecimal is read back. *)
Lemma parse_hex_reads_back bytes :
  String.length bytes = 32%nat → parse_hex (hash_to_hex bytes) = Ok bytes.
Proof.
  intros Hlen. unfold parse_hex.
  assert (str_trim (hash_to_hex bytes) = hash_to_hex bytes) as ->.
  { unfold str_trim. rewrite trim_fixed; [apply String.string_of_list_ascii_of_string| |].
    - apply hex_not_white, hash_to_hex_chars.
    - apply hex_not_white, Forall_rev, hash_to_hex_chars. }
  rewrite hash_to_hex_length, Hlen. apply parse_hex_pairs_reads_back.
Qed.

(** ** Theorems *)

Section theorems.
Context {Haud : AuditSerde} {Hlaws : AuditSerdeLaws Haud}.

(** A journal in which events were sealed one after the other, each with or
    without authorization evidence, verifies as intact, holds exactly those
    events in that order, numbers them contiguously from 1, and is continued at
    the next position. *)
Theorem sealed_journal_verifies es l :
  sealed_journal es l →
  verify l = Intact ∧ ar_event <$> l = Some <$> es ∧
  (∀ k r, l !! k = Some r → ar_sequence r = Z.min u64_max (Z.of_nat k + 1)) ∧
  next_sequence l = Z.min u64_max (Z.of_nat (length es) + 1).
Proof using.
  intros [Hv He]%sealed_verifies. pose proof (verified_positions l) as Hp. split_and!; [done|done|eauto|].
  assert (length l = length es) as Hlen by (apply (f_equal length) in He; by rewrite !length_fmap in He).
  unfold next_sequence. destruct l as [|r l _] using rev_ind.
  - destruct es; [done|done].
  - rewrite last_snoc, <-Hlen, length_app. cbn [length].
    rewrite (Hp (length l) r Hv) by (by apply list_lookup_middle). unfold sequence_next. lia.
Qed.

(** C24: the digest of the last record determines the journal: two journals that
    verify and end in the same digest are equal record for record, payloads and
    authorization included, or they give two byte strings that collide. *)
Theorem last_digest_determines_the_journal l1 l2 :
  Forall record_typed l1 → Forall record_typed l2 →
  verify l1 = Intact → verify l2 = Intact →
  ar_record_hash <$> last l1 = ar_record_hash <$> last l2 →
  l1 = l2 ∨ ∃ c1 c2, c1 ≠ c2 ∧ sha256_digest c1 = sha256_digest c2.
Proof using Hlaws. apply journals_agree. Qed.

End theorems.

(** ** A journal in use *)

(** Renderings by table: enough events to write a journal with. *)

Definition event_eqb (e1 e2 : CeremonyEvent) : bool :=
  match e1, e2 with
  | EvCeremonyInstanceStarted e1, EvCeremonyInstanceStarted e2 => e1 == e2
  | EvStepStarted e1, EvStepStarted e2 => e1 == e2
  | EvStepCompleted e1, EvStepCompleted e2 => e1 == e2
  | EvTransitionApplied e1, EvTransitionApplied e2 => e1 == e2
  | EvCeremonyPaused r1 t1, EvCeremonyPaused r2 t2 => (r1 == r2) && (t1 == t2)
  | EvCeremonyResumed t1, EvCeremonyResumed t2 => t1 == t2
  | _, _ => false
  end.

Lemma event_eqb_true e1 e2 : event_eqb e1 e2 = true → e1 = e2.
Proof.
  destruct e1, e2; cbn [event_eqb]; try done; try (by intros ->%eqb_true_1).
  by intros [->%eqb_true_1 ->%eqb_true_1]%andb_true_iff.
Qed.

Definition fits_frame (s : string) : bool := (N.of_nat (String.length s) <? 256 ^ 8)%N.
Definition framed (o : option string) : option string := option_keep fits_frame o.

Lemma framed_frameable o s : framed o = Some s → o = Some s ∧ frameable s.
Proof. intros [? ?%N.ltb_lt]%option_keep_Some. by split. Qed.

Definition demo_evidence : AuthorizationEvidence :=
  MkEvidence "decision-1" "request-1" "lead" AA_PauseCeremony (ScopeCeremony "ceremony-1") "digest"
    7 0 300.

Definition table_serde (table : list CeremonyEvent) : AuditSerde := {|
  sha256_digest s := s;
  rfc3339 t := framed (Some (pretty t));
  event_json e := framed ((λ p, pretty (p.1 : nat)) <$>
                          list_find (λ e', event_eqb e' e = true) table);
  event_of_json s := snd <$> List.find (λ p, pretty (p.1 : nat) == s) (imap pair table);
  authorization_json a := if a == demo_evidence then Some "evidence" else None;
|}.

Lemma table_lookup (table : list CeremonyEvent) k e :
  table !! k = Some e →
  List.find (λ p, pretty (p.1 : nat) == pretty k) (imap pair table) = Some (k, e).
Proof.
  intros Hk. assert (∀ p, p ∈ imap pair table → table !! p.1 = Some p.2) as Himap.
  { intros p (j & Hj)%list_elem_of_lookup_1. rewrite list_lookup_imap in Hj.
    destruct (table !! j) as [x|] eqn:Hx; [|done]. by injection Hj as <-. }
  destruct (List.find _ _) as [p|] eqn:Hf.
  - apply find_some in Hf as [Hin Heq%eqb_true_1]. apply (inj pretty) in Heq.
    apply list_elem_of_In, Himap in Hin. destruct p as [j x]. cbn in *. congruence.
  - pose proof (find_none _ _ Hf (k, e)) as Hn. cbn beta in Hn. rewrite eqb_refl in Hn.
    discriminate Hn. apply list_elem_of_In, (list_elem_of_lookup_2 _ k).
    by rewrite list_lookup_imap, Hk.
Qed.

Lemma table_reads_back table e s :
  event_json (AuditSerde := table_serde table) e = Some s →
  event_of_json (AuditSerde := table_serde table) s = Some e.
Proof.
  cbn [event_json event_of_json table_serde]. intros [Hf _]%framed_frameable.
  apply fmap_Some in Hf as ([k e'] & Hf & ->). apply list_find_Some in Hf as (Hk & Heq%event_eqb_true & _).
  subst e'. cbn. by rewrite (table_lookup table k e Hk).
Qed.

#[export] Instance table_laws table : AuditSerdeLaws (table_serde table).
Proof.
  constructor; cbn [rfc3339 event_json event_of_json authorization_json table_serde].
  - intros t1 t2 s [[= <-] _]%framed_frameable [[= H] _]%framed_frameable. by apply (inj pretty).
  - by intros t s [_ ?]%framed_frameable.
  - intros e1 e2 s H1%(table_reads_back table) H2%(table_reads_back table). congruence.
  - by intros e s [_ ?]%framed_frameable.
  - intros a1 a2 s. destruct (a1 == demo_evidence) eqn:H1, (a2 == demo_evidence) eqn:H2; try done.
    by rewrite (eqb_true_1 _ _ H1), (eqb_true_1 _ _ H2).
  - intros a s. by destruct (a == demo_evidence); intros [= <-].
Qed.

Definition demo_events : list CeremonyEvent := [EvCeremonyPaused "lunch" 1; EvCeremonyResumed 2].
#[local] Instance demo_audit : AuditSerde := table_serde demo_events.

Definition demo_fact (id : string) (e : CeremonyEvent) : AuditFact :=
  MkAuditFact id e "ceremony-1" "planning" "1.0" 1 (MkAuditActor "lead" ActorHuman None) None None None.

Definition sealed_or {A} (r : outcome A) (d : A) : A := match r with Ok a => a | _ => d end.
Definition blank : AuditRecord := unsealed (demo_fact "" (EvCeremonyResumed 0)) None 0 0 None.

Definition first_record : AuditRecord :=
  sealed_or (record_first_authorized
    (fact_authorized (demo_fact "e-1" (EvCeremonyPaused "lunch" 1)) demo_evidence)) blank.
Definition second_record : AuditRecord :=
  sealed_or (record_following (demo_fact "e-2" (EvCeremonyResumed 2)) first_record) blank.
Definition demo_journal : list AuditRecord := [first_record; second_record].

(** A record with another actor than the sealed one is found. *)
Example tampered_actor :
  verify [first_record <| ar_actor := MkAuditActor "hand" ActorAgent None |>; second_record]
  = Broken (DigestAltered 1).
Proof. vm_compute. reflexivity. Qed.

Lemma demo_journal_sealed : sealed_journal demo_events demo_journal.
Proof.
  refine (sealed_following [_] [_] first_record (demo_fact "e-2" (EvCeremonyResumed 2)) second_record
    (sealed_first_authorized (demo_fact "e-1" (EvCeremonyPaused "lunch" 1), demo_evidence) first_record _)
    _ _); vm_compute; reflexivity.
Defined.

Lemma sealed_journal_verifies_witness :
  verify demo_journal = Intact ∧ next_sequence demo_journal = 3.
Proof.
  destruct (sealed_journal_verifies demo_events demo_journal demo_journal_sealed) as (Hv & _ & _ & Hn).
  split; [exact Hv|exact Hn].
Defined.

Definition check_typed (r : AuditRecord) : bool :=
  let opt o := is_none_or o fits_frame in
  fits_frame (ar_event_id r) && fits_frame (ar_ceremony_id r) && fits_frame (ar_definition_name r)
  && fits_frame (ar_definition_version r) && (0 <=? ar_sequence r) && (ar_sequence r <=? u64_max)
  && fits_frame (actor_id (ar_actor r)) && opt (actor_role_id (ar_actor r))
  && opt (ar_correlation_id r) && opt (ar_causation_id r) && opt (ar_trace_id r)
  && is_none_or (ar_event_schema_version r) (λ v, (0 <=? v) && (v <=? u32_max))
  && opt (ar_previous_record_hash r).

Lemma fits_frameable s : fits_frame s = true → frameable s.
Proof. apply N.ltb_lt. Qed.

Lemma opt_fits o : is_none_or o fits_frame = true → opt_frameable o.
Proof. intros H s ->. by apply fits_frameable. Qed.

Lemma check_typed_ok l : all check_typed l = true → Forall record_typed l.
Proof.
  rewrite all_true, Forall_forall. intros H r Hr. specialize (H r Hr).
  unfold check_typed in H. rewrite !andb_true_iff in H.
  destruct H as [[[[[[[[[[[[H1 H2] H3] H4] H5%Z.leb_le] H6%Z.leb_le] H7] H8] H9] H10] H11] H12] H13].
  constructor; try (by apply fits_frameable); try (by apply opt_fits); [lia|].
  intros v Hv. rewrite Hv in H12. cbn in H12.
  apply andb_true_iff in H12 as [?%Z.leb_le ?%Z.leb_le]. lia.
Qed.

Lemma last_digest_determines_the_journal_witness :
  ar_record_hash <$> last demo_journal = Some (ar_record_hash second_record) ∧
  (demo_journal = [first_record; second_record]
   ∨ ∃ c1 c2, c1 ≠ c2 ∧ sha256_digest c1 = sha256_digest c2).
Proof.
  split; [reflexivity|].
  refine (last_digest_determines_the_journal demo_journal [first_record; second_record] _ _ _ _ _);
    [apply check_typed_ok; vm_compute; reflexivity|apply check_typed_ok; vm_compute; reflexivity
    |vm_compute; reflexivity..].
Defined.
