(* ===== verification/ReadBack.v ===== *)
(** * Reading the journal of a session back

    The events a session decides are sealed, stored and read again before they
    are folded.  What the reader asks of a stored event is what the aggregate
    puts into it, with one exception: a move into a state with a time limit is
    written in a payload version the reader does not know.  Whether the JSON of an
    event is parsed back as that event is up to serde_json, which does not promise
    it for the floats a context may hold: it is no law here but part of the answer. *)

From S2P Require Import Prelude Errors Text Values Steps Definitions Interventions Instance.
From S2P Require Import Fold Rules Decide DecideTable DecideLineage Engine Scenario Sessions Journal.
From S2P Require Import Authorization AuditLog Tamper.

(** A move into a state whose visit has a deadline. *)
Definition timed_transition (e : CeremonyEvent) : bool :=
  match e with
  | EvTransitionApplied e => is_some_and (ta_destination e) (λ to, is_some (sve_deadline to))
  | _ => false
  end.

Section reading.
Context {Hsha : Sha256} {Hclk : Clock} {Hser : EvidenceSerde}.

(** What the reader checks of an event once it is deserialized. *)
Definition readable (e : CeremonyEvent) : Prop :=
  version_supported (event_type e) (schema_version e) = true ∧
  validate_seals e (event_type e) (schema_version e) = Ok tt ∧ coordinates_valid e = true.

(** The kinds of event the reader looks into. *)
Definition inspected (e : CeremonyEvent) : bool :=
  match e with
  | EvStepStarted _ | EvStepCompleted _ | EvStepFailed _ | EvTransitionApplied _
  | EvExecutionReceiptLinked _ _ _ => true
  | _ => false
  end.

Lemma readable_uninspected e : inspected e = false → readable e.
Proof using.
  unfold readable. destruct e; try done; intros _; split_and!; try done; cbn;
    repeat (destruct (is_some _)); done.
Qed.

Lemma readable_started i d c step record e : claimed i d c step record e → readable (EvStepStarted e).
Proof using.
  intros []. destruct claimed_seals as [Hboth Hsealed]. split_and!.
  - cbn. by repeat (destruct (is_some _)).
  - unfold validate_seals. rewrite Hboth. cbn [negb ensure mbind result_bind].
    destruct (ss_sealed_role e) as [r|]; [|done]. cbn [is_some_and].
    by rewrite (Hsealed r), eqb_refl.
  - destruct claimed_event as (_ & _ & _ & _ & _ & Hp & _). cbn. rewrite Hp. apply orb_true_r.
Qed.

Lemma valid_kind r :
  StepResult_valid r = true → is_some (res_failure_kind r) = true → res_status r = Failed.
Proof using.
  intros [_ H]%andb_true_iff Hk. rewrite Hk in H. cbn [negb orb] in H. by apply eqb_true_1.
Qed.

Lemma readable_completed i d c step record e written :
  StepResult_valid (cmd_result_result c) = true →
  completed_with i d c step record e written → readable (EvStepCompleted e).
Proof using.
  intros Hv []. assert (is_some (res_failure_kind (sc_result e)) = false) as Hk.
  { apply not_true_iff_false. rewrite cwith_result. intros Hf%(valid_kind _ Hv).
    unfold result_is_success in cwith_success. by rewrite Hf in cwith_success. }
  split_and!.
  - cbn. by repeat (destruct (is_some _)).
  - cbn. by rewrite Hk.
  - cbn. rewrite cwith_pass. apply orb_true_r.
Qed.

Lemma readable_failed e :
  StepResult_valid (sf_result e) = true → is_some (sf_state_iteration e) = true →
  readable (EvStepFailed e).
Proof using.
  intros Hv Hp. split_and!.
  - cbn. by repeat (destruct (is_some _)).
  - unfold validate_seals. destruct (is_some (res_failure_kind (sf_result e))) eqn:Hk; [|done].
    rewrite (valid_kind _ Hv Hk), eqb_refl. done.
  - cbn. rewrite Hp. apply orb_true_r.
Qed.

Lemma size_list_to_set_NoDup (l : list string) :
  NoDup l → size (list_to_set l : gset string) = length l.
Proof using. apply size_list_to_set. Qed.

Lemma readable_moved i d c t e visit :
  steps_indexed d → moved i d c t e visit → timed_transition (EvTransitionApplied e) = false →
  readable (EvTransitionApplied e).
Proof using.
  intros Hd []. destruct moved_destination as (deadline & Hto). destruct moved_record as (_ & _ & _ & _ & Hv).
  cbn [timed_transition]. rewrite Hto. cbn [is_some_and sve_deadline]. intros Hdl. split_and!.
  - cbn. rewrite Hto. cbn. by rewrite Hdl.
  - done.
  - unfold coordinates_valid. rewrite Hto, Hv, moved_pass. cbn [is_some andb].
    change (default StateVisit_FIRST (Some (current_state_visit i))) with (current_state_visit i).
    rewrite moved_visit. cbn [sve_state_visit sve_step_ids]. rewrite Z.eqb_refl. cbn [andb].
    rewrite size_list_to_set_NoDup; [apply Nat.eqb_refl|]. by apply steps_for_state_NoDup.
Qed.

Lemma readable_result i d c es :
  StepResult_valid (cmd_result_result c) = true → decide_apply_step_result i d c = Ok es →
  ∀ e, e ∈ es → readable e.
Proof using.
  intros Hv [->|[(late & -> & _)|(step & record & _ & [(f & -> & _ & Hr & Hp & _)|
    (comp & written & proj & more & -> & Hw & _ & Hm)])]]%result_cases e He.
  - by apply not_elem_of_nil in He.
  - apply list_elem_of_singleton in He as ->. by apply readable_uninspected.
  - apply list_elem_of_singleton in He as ->. apply readable_failed; [by rewrite Hr|done].
  - apply elem_of_app in He as [[->|He]%elem_of_cons|He].
    + by apply (readable_completed i d c step record comp written).
    + destruct (cwith_written _ _ _ _ _ _ _ Hw) as [->|(w & -> & _)]; [by apply not_elem_of_nil in He|].
      apply list_elem_of_singleton in He as ->. by apply readable_uninspected.
    + apply decide_state_iteration_shape in Hm as [->|(n & -> & _)]; [by apply not_elem_of_nil in He|].
      apply list_elem_of_singleton in He as ->. by apply readable_uninspected.
Qed.

(** A command decides events the reader accepts, but for timed moves. *)
Lemma decide_readable i c d es :
  steps_indexed d → command_valid c = true → decide i c d = Ok es →
  ∀ e, e ∈ es → readable e ∨ timed_transition e = true.
Proof using.
  intros Hd Hc Hdec e He.
  assert (inspected e = false → readable e ∨ timed_transition e = true) as Hplain.
  { intros ?. left. by apply readable_uninspected. }
  pose proof (decide_emits i c d es Hdec) as Hem. rewrite all_true in Hem. specialize (Hem e He).
  destruct c; try (by apply Hplain; destruct e).
  - apply start_cases in Hdec as (step & record & started & -> & Hcl).
    apply list_elem_of_singleton in He as ->. left. by eapply readable_started.
  - left. by apply (readable_result i d _ es Hc Hdec).
  - apply receipt_cases in Hdec as [->|(link & es' & -> & Hl & Hr)]; [by apply not_elem_of_nil in He|].
    left. apply elem_of_cons in He as [->|He]; [|by refine (readable_result i d _ es' _ Hr e He)].
    split_and!; [done| |done]. cbn. by rewrite Hl.
  - apply move_cases in Hdec as (t & m & visit & Hm & ->).
    apply elem_of_cons in He as [->|He].
    2: { apply Hplain. destruct (is_terminal_state d (tr_to t)); [|by apply not_elem_of_nil in He].
         by apply list_elem_of_singleton in He as ->. }
    destruct (timed_transition (EvTransitionApplied m)) eqn:Ht; [by right|].
    left. by apply (readable_moved i d c t m visit).
Qed.

Lemma session_readable d es i :
  steps_indexed d → session d es i → ∀ e, e ∈ es → readable e ∨ timed_transition e = true.
Proof using.
  intros Hd Hs. induction Hs as [id context bound lin account rcl now started i Ho Ht
    |id pub context succ plan now es started i -> Hs Hh Ht
    |es i command es' i' Hsess IH Hc Hdec Ha]; intros e He.
  - left. apply readable_uninspected. unfold opening_batch in He.
    apply elem_of_cons in He as [->|He]; [done|].
    destruct (option_keep _ _); [|by apply not_elem_of_nil in He].
    by apply list_elem_of_singleton in He as ->.
  - left. apply readable_uninspected. unfold decide_start_successor in Hs. invert_ok Hs.
    apply elem_of_cons in He as [->|He]; [done|].
    destruct (_ =? _)%nat; [by apply not_elem_of_nil in He|]. by apply list_elem_of_singleton in He as ->.
  - apply elem_of_app in He as [He|He]; [by apply IH|]. by apply (decide_readable i command d es').
Qed.

End reading.

(** ** Stored records *)

Section stored.
Context {Hsha : Sha256} {Hclk : Clock} {Hser : EvidenceSerde}.
Context {Haud : AuditSerde}.

(** [sealed_as e r]: [r] is [e] sealed at some position. *)
Definition sealed_as (e : CeremonyEvent) (r : AuditRecord) : Prop :=
  ∃ fact evidence sequence previous,
    seal fact evidence (if is_some evidence then AUTHORIZED_SCHEMA_VERSION
                        else EVENT_BEARING_SCHEMA_VERSION) sequence previous = Ok r ∧
    e = fact_event fact.

Lemma sealed_journal_sealed es l : sealed_journal es l → Forall2 sealed_as es l.
Proof using.
  induction 1 as [fact r H|fact r H|es l p fact r _ IH _ H|es l p fact r _ IH _ H].
  - repeat constructor. by exists fact, None, AuditSequence_FIRST, None.
  - repeat constructor. by exists fact.1, (Some fact.2), AuditSequence_FIRST, None.
  - apply Forall2_app; [done|]. repeat constructor. unfold record_following in H.
    apply bind_Ok in H as (_ & _ & H). apply bind_Ok in H as (_ & _ & H).
    by exists fact, None, (sequence_next (ar_sequence p)), (Some (ar_record_hash p)).
  - apply Forall2_app; [done|]. repeat constructor. unfold record_following_authorized in H.
    apply bind_Ok in H as (_ & _ & H). apply bind_Ok in H as (_ & _ & H).
    by exists fact.1, (Some fact.2), (sequence_next (ar_sequence p)), (Some (ar_record_hash p)).
Qed.

(** A stored record reads back with the event its reader finds. *)
Lemma sealed_reads e r w :
  sealed_as e r → record_serialize r = Some w →
  ∃ s, event_json e = Some s ∧ ar_event r = Some e ∧
    record_try_from w = (e' ← reader_read (event_type e) (schema_version e) s; Ok (r <| ar_event := Some e' |>)).
Proof using.
  intros (fact & evidence & sequence & previous & Hs & ->) Hw.
  apply seal_inv in Hs as (h & -> & _ & Hev). destruct evidence as [a|].
  - specialize (Hev a eq_refl). unfold record_serialize in Hw. cbn in Hw.
    apply bind_Some in Hw as (s & Hs & [= <-]). exists s. split_and!; [done|done|].
    cbn. rewrite Hev. cbn. by destruct (reader_read _ _ s).
  - unfold record_serialize in Hw. cbn in Hw.
    apply bind_Some in Hw as (raw & (s & Hs & [= <-])%bind_Some & [= <-]). exists s. split_and!; [done|done|].
    cbn. by destruct (reader_read _ _ s).
Qed.

(** The JSON of an event is parsed back as that event. *)
Definition json_returns (e : CeremonyEvent) : Prop := ∃ s, event_json e = Some s ∧ event_of_json s = Some e.

Lemma reader_reads e s :
  readable e → event_json e = Some s →
  reader_read (event_type e) (schema_version e) s = Ok e ↔ json_returns e.
Proof using.
  intros (Hv & Hs & Hc) Hj. unfold json_returns, reader_read. rewrite Hv, Hj. cbn [ensure mbind result_bind]. split.
  - intros (e' & He%ok_or_Ok & H)%bind_Ok. do 4 apply bind_Ok in H as (? & _ & H). injection H as ->. eauto.
  - intros (s' & [= <-] & ->). cbn [ok_or mbind result_bind]. rewrite eqb_refl. cbn [ensure mbind result_bind].
    rewrite Hs, Hc, Z.eqb_refl. done.
Qed.

(** What the reader answers to a timed move. *)
Definition no_reader : DomainError :=
  UnreadableCeremonyEvent "transition_applied" 4 "no reader exists for this schema version".

Lemma reader_refuses e s :
  timed_transition e = true → reader_read (event_type e) (schema_version e) s = Err no_reader.
Proof using.
  destruct e; try done. cbn [timed_transition]. intros H. unfold reader_read.
  cbn [schema_version event_type]. by rewrite H.
Qed.

Section journals.
Context (es : list CeremonyEvent) (Hread : ∀ e, e ∈ es → readable e ∨ timed_transition e = true).

(** One record of the journal. *)
Lemma record_reads e r w :
  e ∈ es → sealed_as e r → record_serialize r = Some w →
  (record_try_from w = Ok r ↔ timed_transition e = false ∧ json_returns e) ∧
  (timed_transition e = true → record_try_from w = Err no_reader).
Proof using Hread.
  intros He Hr Hw. destruct (sealed_reads e r w Hr Hw) as (s & Hj & Hev & ->).
  destruct (timed_transition e) eqn:Ht; [rewrite reader_refuses by done; split; [split; [done|by intros [? _]]|done]|].
  destruct (Hread e He) as [Hrd|]; [|congruence]. split; [|done].
  rewrite <-(reader_reads e s Hrd Hj). destruct (reader_read _ _ s) as [e'| |]; cbn; [|naive_solver..].
  split; [|by intros [_ [= ->]]; destruct r; cbn in *; subst]. intros [= H]. split; [done|].
  apply (f_equal ar_event) in H. cbn in H. congruence.
Qed.

Lemma stored_reads l ws :
  Forall2 sealed_as es l → mapM record_serialize l = Some ws →
  (try_map record_try_from ws = Ok l ↔ any timed_transition es = false ∧ Forall json_returns es) ∧
  (any timed_transition es = true → is_ok (try_map record_try_from ws) = false ∧
     (Forall json_returns es → try_map record_try_from ws = Err no_reader)).
Proof using Hread.
  pose proof record_reads as Hone. clear Hread. revert Hone. intros Hone HF. revert ws Hone.
  induction HF as [|e r es' l Her HF IH]; intros ws Hone Hws.
  { injection Hws as <-. by split. }
  apply bind_Some in Hws as (w & Hw & (ws' & Hws & [= <-])%bind_Some).
  destruct (Hone e r w ltac:(left) Her Hw) as [Hok Hno].
  destruct (IH ws' (λ e r w He, Hone e r w (list_elem_of_further _ _ _ He)) Hws) as [IHok IHno].
  unfold any in *. cbn [existsb try_map]. rewrite orb_false_iff, orb_true_iff, Forall_cons. split.
  - transitivity (record_try_from w = Ok r ∧ try_map record_try_from ws' = Ok l); [|by rewrite Hok, IHok; tauto].
    destruct (record_try_from w) as [r'| |]; cbn; [|naive_solver..].
    destruct (try_map record_try_from ws') as [l'| |]; cbn; naive_solver.
  - intros [Ht|Ht]; [by rewrite (Hno Ht)|]. destruct (IHno Ht) as [IHno1 IHno2].
    destruct (timed_transition e) eqn:Hte; [by rewrite (Hno eq_refl)|]. split.
    + destruct (record_try_from w); cbn; [|done..]. by destruct (try_map record_try_from ws').
    + intros [He Hes]. rewrite (proj2 Hok) by done. cbn. by rewrite IHno2.
Qed.
End journals.

End stored.

(** ** Theorems *)

Section theorems.
Context {Hsha : Sha256} {Hclk : Clock} {Hser : EvidenceSerde}.
Context {Haud : AuditSerde}.

(** C25: the journal of a session, stored and read back: the records come back as
    they were sealed exactly when the session never moved into a state with a time
    limit and the JSON of each of its events is parsed back as that event; the
    events in them fold to the very state the live session holds.  With a timed move
    the journal cannot be read at all, and where the JSON is parsed back the error
    is that the payload version has no reader.  So of everything the reader checks of
    an event nothing stands in the way of a session's own events but the version of
    a timed move. *)
Theorem stored_journal_reads_back d es i l ws :
  steps_indexed d → session d es i → sealed_journal es l → mapM record_serialize l = Some ws →
  (try_map record_try_from ws = Ok l ↔ any timed_transition es = false ∧ Forall json_returns es) ∧
  rehydrate (omap ar_event l) = Ok i ∧
  (any timed_transition es = true → is_ok (try_map record_try_from ws) = false ∧
     (Forall json_returns es → try_map record_try_from ws = Err no_reader)).
Proof using.
  intros Hd Hs Hl Hws.
  destruct (stored_reads es (session_readable d es i Hd Hs) l ws (sealed_journal_sealed es l Hl) Hws) as [Hok Hno].
  split_and!; [done| |done]. apply sealed_verifies in Hl as [_ He].
  assert (omap ar_event l = es) as ->; [|by apply (session_replays d)].
  clear -He. revert es He. induction l as [|r l IH]; intros [|e es] He; try done.
  cbn in He. injection He as Hr He. cbn. rewrite Hr. by rewrite (IH es He).
Qed.

End theorems.

(** ** A stored session *)

Section sealing_streams.
Context {Haud : AuditSerde}.

Fixpoint seal_rest (p : AuditRecord) (es : list CeremonyEvent) : outcome (list AuditRecord) :=
  match es with
  | [] => Ok []
  | e :: es => r ← record_following (demo_fact "event" e) p; rs ← seal_rest r es; Ok (r :: rs)
  end.

Definition seal_all (es : list CeremonyEvent) : outcome (list AuditRecord) :=
  match es with
  | [] => Ok []
  | e :: es => r ← record_first (demo_fact "event" e); rs ← seal_rest r es; Ok (r :: rs)
  end.

Lemma seal_rest_sealed es0 l0 p es rs :
  sealed_journal es0 l0 → last l0 = Some p → seal_rest p es = Ok rs →
  sealed_journal (es0 ++ es) (l0 ++ rs).
Proof using.
  revert es0 l0 p rs. induction es as [|e es IH]; intros es0 l0 p rs Hs Hl H.
  { injection H as <-. by rewrite !app_nil_r. }
  cbn in H. apply bind_Ok in H as (r & Hr & (rs' & Hrs & [= <-])%bind_Ok).
  pose proof (sealed_following es0 l0 p _ r Hs Hl Hr) as Hs'. cbn in Hs'.
  specialize (IH _ _ r rs' Hs' (last_snoc _ _) Hrs). by rewrite <-!app_assoc in IH.
Qed.

Lemma seal_all_sealed e es l : seal_all (e :: es) = Ok l → sealed_journal (e :: es) l.
Proof using.
  cbn. intros (r & Hr & (rs & Hrs & [= <-])%bind_Ok)%bind_Ok.
  by apply (seal_rest_sealed [e] [r] r); [apply (sealed_first (demo_fact "event" e))|..].
Qed.

End sealing_streams.

#[local] Instance stream_audit : AuditSerde := table_serde demo_stream.

Definition stored_demo : list AuditRecord := sealed_or (seal_all demo_stream) [].
Definition stored_wires : list AuditRecordWire := default [] (mapM record_serialize stored_demo).

Example stored_demo_length : length stored_wires = 8%nat.
Proof. vm_compute. reflexivity. Qed.

Lemma stored_journal_reads_back_witness :
  try_map record_try_from stored_wires = Ok stored_demo ∧
  rehydrate (omap ar_event stored_demo) = Ok both_taken.
Proof.
  assert (Forall json_returns demo_stream) as Hjson.
  { assert (all (λ e, is_some (event_json e)) demo_stream = true) as H by (vm_compute; reflexivity).
    apply Forall_forall. intros e He. pose proof (proj1 (all_true _ _) H e He) as [s Hs]%is_some_true.
    exists s. split; [exact Hs|]. exact (table_reads_back demo_stream e s Hs). }
  destruct (stored_journal_reads_back demo demo_stream both_taken stored_demo stored_wires demo_indexed demo_session)
    as (Hread & Hfold & _).
  - apply seal_all_sealed. vm_compute. reflexivity.
  - vm_compute. reflexivity.
  - split; [|exact Hfold]. apply Hread. split; [vm_compute; reflexivity|exact Hjson].
Defined.
