(* ===== verification/Streams.v ===== *)
(** * Streams that are sessions

    The event store holds what the services rely on: every stream is the sealed
    journal of a session, a snapshot is the session at one of its cuts, and the
    global log lists every record once.  Here is what one call of the store does
    to these facts; Interleaving has what programs do. *)

From S2P Require Import Prelude Errors Text Values Steps Definitions Interventions Instance.
From S2P Require Import Authorization AuditLog Fold Rules Decide DecideTable DecideLineage Engine.
From S2P Require Import EventStore SessionStream UseCases.
From S2P Require Import Sessions Machine Journal Tamper.

(** ** Sealing a batch *)

Section sealing.
Context {Haud : AuditSerde}.

Lemma seal_facts_sealed es l p fs auth rs :
  sealed_journal es l → last l = Some p → seal_facts (Some p) fs auth = Ok rs →
  sealed_journal (es ++ (fact_event <$> fs)) (l ++ rs) ∧
  ar_event_id <$> rs = fact_event_id <$> fs ∧ ar_ceremony_id <$> rs = fact_ceremony_id <$> fs.
Proof using.
  revert es l p rs. induction fs as [|f fs IH]; intros es l p rs Hs Hl H.
  { injection H as <-. by rewrite !app_nil_r. }
  cbn [seal_facts] in H. apply bind_Ok in H as (r & Hr & (rs' & Hrs & [= <-])%bind_Ok).
  assert (sealed_journal (es ++ [fact_event f]) (l ++ [r]) ∧ ar_event_id r = fact_event_id f ∧
    ar_ceremony_id r = fact_ceremony_id f) as (Hs' & Hid & Hcid).
  { destruct auth as [a|].
    - split; [by apply (sealed_following_authorized es l p (fact_authorized f a) r)|].
      unfold record_following_authorized in Hr.
      apply bind_Ok in Hr as (_ & _ & (_ & _ & Hr)%bind_Ok). by apply seal_inv in Hr as (h & -> & _).
    - split; [by apply (sealed_following es l p f r)|]. unfold record_following in Hr.
      apply bind_Ok in Hr as (_ & _ & (_ & _ & Hr)%bind_Ok). by apply seal_inv in Hr as (h & -> & _). }
  destruct (IH _ _ r rs' Hs' (last_snoc _ _) Hrs) as (IHs & IHid & IHcid).
  rewrite <-!app_assoc in IHs. cbn. by rewrite Hid, IHid, Hcid, IHcid.
Qed.

Lemma seal_facts_opens fs auth rs :
  fs ≠ [] → seal_facts None fs auth = Ok rs →
  sealed_journal (fact_event <$> fs) rs ∧ ar_event_id <$> rs = fact_event_id <$> fs ∧
  ar_ceremony_id <$> rs = fact_ceremony_id <$> fs.
Proof using.
  destruct fs as [|f fs]; [done|]. intros _ H. cbn [seal_facts] in H.
  apply bind_Ok in H as (r & Hr & (rs' & Hrs & [= <-])%bind_Ok).
  assert (sealed_journal [fact_event f] [r] ∧ ar_event_id r = fact_event_id f ∧
    ar_ceremony_id r = fact_ceremony_id f) as (Hs' & Hid & Hcid).
  { destruct auth as [a|].
    - split; [by apply (sealed_first_authorized (fact_authorized f a) r)|].
      unfold record_first_authorized in Hr. by apply seal_inv in Hr as (h & -> & _).
    - split; [by apply (sealed_first f r)|]. unfold record_first in Hr. by apply seal_inv in Hr as (h & -> & _). }
  destruct (seal_facts_sealed _ [r] r fs auth rs' Hs' eq_refl Hrs) as (IHs & IHid & IHcid).
  cbn. by rewrite Hid, IHid, Hcid, IHcid.
Qed.

Lemma repeats_an_id_false seen fs :
  repeats_an_id seen fs = false →
  NoDup (fact_event_id <$> fs) ∧ ∀ f, f ∈ fs → fact_event_id f ∉ seen.
Proof using.
  revert seen. induction fs as [|f fs IH]; intros seen H.
  { split; [constructor|]. by intros f ?%not_elem_of_nil. }
  cbn [repeats_an_id] in H. destruct (bool_decide_reflect (fact_event_id f ∈ seen)) as [|Hf]; [done|].
  apply IH in H as [Hnd Hnew]. split.
  - rewrite fmap_cons. constructor; [|done].
    intros (g & Hg & Hin)%list_elem_of_fmap. apply (Hnew g Hin). set_solver.
  - intros g [->|Hg]%elem_of_cons; [done|]. specialize (Hnew g Hg). set_solver.
Qed.

(** What the store accepts as the continuation of a stream. *)
Lemma seal_continuation_Ok stream l fs auth rs :
  seal_continuation stream l fs auth = Ok rs →
  fs ≠ [] ∧ Forall (λ f, fact_ceremony_id f = stream) fs ∧
  seal_facts (last l) fs auth = Ok rs ∧
  NoDup (fact_event_id <$> fs) ∧ ∀ f, f ∈ fs → fact_event_id f ∉ ar_event_id <$> l.
Proof using.
  unfold seal_continuation. intros H.
  apply bind_Ok in H as (_ & Hne%ensure_Ok & H). apply bind_Ok in H as (_ & Hid%ensure_Ok & H).
  apply bind_Ok in H as (_ & Hrep%ensure_Ok & H).
  apply negb_true_iff, repeats_an_id_false in Hrep as [Hnd Hnew].
  split_and!; [by intros ->| |done|done|].
  - apply Forall_forall. intros f Hf. apply negb_true_iff, (proj1 (any_false _ _)) with (x := f) in Hid;
      [|done]. by apply negb_false_iff, eqb_true_1 in Hid.
  - intros f Hf Hin. apply (Hnew f Hf), elem_of_list_to_set. exact Hin.
Qed.

(** All records of a batch belong to its stream. *)
Lemma batch_ceremony (rs : list AuditRecord) fs stream :
  ar_ceremony_id <$> rs = fact_ceremony_id <$> fs → Forall (λ f, fact_ceremony_id f = stream) fs →
  Forall (λ r, ar_ceremony_id r = stream) rs.
Proof using.
  intros He Hf. assert (Forall (.= stream) (ar_ceremony_id <$> rs)) as H.
  { rewrite He. by apply Forall_fmap. }
  by apply Forall_fmap in H.
Qed.

Lemma sealed_ne es l : sealed_journal es l → l ≠ [].
Proof using. by intros []; [..|intros []%app_nil|intros []%app_nil]. Qed.

Lemma sealed_length es l : sealed_journal es l → length l = length es.
Proof using.
  intros [_ H]%sealed_verifies. apply (f_equal length) in H. by rewrite !length_fmap in H.
Qed.

Lemma sealed_last_sequence es l p :
  sealed_journal es l → last l = Some p → Z.of_nat (length l) ≤ u64_max →
  ar_sequence p = Z.of_nat (length l).
Proof using.
  intros [Hv _]%sealed_verifies Hl Hb. destruct l as [|q l _] using rev_ind; [done|].
  rewrite last_snoc in Hl. injection Hl as ->.
  rewrite (verified_positions (l ++ [p]) (length l) p Hv) by (by apply list_lookup_middle).
  rewrite length_app in *. cbn in *. lia.
Qed.

Lemma sealed_version es l :
  sealed_journal es l → Z.of_nat (length l) ≤ u64_max → version_of l = Z.of_nat (length l).
Proof using.
  intros Hs Hb. unfold version_of. destruct (last l) as [p|] eqn:Hl.
  - by eapply sealed_last_sequence.
  - apply last_None in Hl as ->. done.
Qed.
End sealing.

(** ** Streams and cuts *)

Section streams.
Context {Hsha : Sha256} {Hclk : Clock} {Hser : EvidenceSerde} {Haud : AuditSerde}.
Context (ports : Ports).

(** The events a journal holds. *)
Definition journal_events (l : list AuditRecord) : list CeremonyEvent := omap ar_event l.

(** [recorded d id l i]: [l] is the journal of a session of [d], the definition
    the session resolves to, and [i] is the session. *)
Record recorded (d : CeremonyDefinition) (id : CeremonyId) (l : list AuditRecord)
    (i : CeremonyInstance) : Prop := MkRecorded {
  recorded_session : session d (journal_events l) i;
  recorded_sealed : sealed_journal (journal_events l) l;
  recorded_id : instance_id i = id;
  recorded_definition : resolve_definition ports i = Ok d;
  recorded_distinct : NoDup (ar_event_id <$> l);
  recorded_ceremony : Forall (λ r, ar_ceremony_id r = id) l;
}.

Lemma sealed_events es l : sealed_journal es l → journal_events l = es.
Proof using.
  intros [_ He]%sealed_verifies. unfold journal_events. revert es He.
  induction l as [|r l IH]; intros [|e es] He; try done. rewrite !fmap_cons in He.
  injection He as Hr He. cbn. rewrite Hr. by rewrite (IH es He).
Qed.

(** What a session resolves to follows from its identity. *)
Lemma resolve_identity i j : identity i = identity j → resolve_definition ports i = resolve_definition ports j.
Proof using.
  unfold identity, resolve_definition, resolve_definition_pinned. intros [= _ -> -> _ -> _ _ _ _]. done.
Qed.

Lemma session_identity d es i :
  session d es i → ∃ started rest, es = EvCeremonyInstanceStarted started :: rest ∧
    identity i = identity (from_started started).
Proof using.
  induction 1 as [id ctx bound lin account rcl now started i Ho Ht
    |id pub ctx succ plan now es started i Hpub Hs Hh Ht
    |es i command es' i' Hsess (started & rest & -> & IH) Hv Hd Ha].
  - unfold opening_batch in *. do 2 eexists. split; [done|].
    apply apply_all_identity in Ht; [done|]. cbn. by destruct_match.
  - unfold decide_start_successor in Hs. apply bind_Ok in Hs as (started' & Ho & [= <-]).
    injection Hh as <-. do 2 eexists. split; [done|].
    apply apply_all_identity in Ht; [done|]. cbn. by destruct_match.
  - exists started. eexists. split; [done|]. rewrite <-IH.
    apply apply_all_identity in Ha; [done|]. by eapply decide_no_import.
Qed.

(** Two cuts of one stream are one session under one definition. *)
Lemma recorded_same d d' id id' l l' i i' :
  l `prefix_of` l' → recorded d id l i → recorded d' id' l' i' →
  d = d' ∧ id = id' ∧ identity i = identity i'.
Proof using.
  intros [k ->] Hl Hl'.
  assert (identity i = identity i') as Hi.
  { destruct (session_identity _ _ _ (recorded_session _ _ _ _ Hl)) as (st & rest & He & ->).
    destruct (session_identity _ _ _ (recorded_session _ _ _ _ Hl')) as (st' & rest' & He' & ->).
    unfold journal_events in *. rewrite omap_app, He in He'. by injection He' as <- _. }
  split_and!; [| |done].
  - pose proof (recorded_definition _ _ _ _ Hl) as H1. rewrite (resolve_identity _ _ Hi) in H1.
    pose proof (recorded_definition _ _ _ _ Hl') as H2. congruence.
  - rewrite <-(recorded_id _ _ _ _ Hl), <-(recorded_id _ _ _ _ Hl'). by injection Hi as ->.
Qed.

Lemma recorded_unique d d' id id' l i i' : recorded d id l i → recorded d' id' l i' → i = i'.
Proof using.
  intros H1 H2. pose proof (session_replays _ _ _ (recorded_session _ _ _ _ H1)) as R1.
  pose proof (session_replays _ _ _ (recorded_session _ _ _ _ H2)) as R2. congruence.
Qed.

(** What a decision may hand to the store: facts whose events continue the
    session. *)
Definition continues (d : CeremonyDefinition) (i : CeremonyInstance) (es : list CeremonyEvent)
    (i' : CeremonyInstance) : Prop :=
  apply_all i es = Ok i' ∧ identity i' = identity i ∧
  ∀ es0, session d es0 i → session d (es0 ++ es) i'.

Lemma recorded_continues d id l i fs auth rs i' :
  recorded d id l i → continues d i (fact_event <$> fs) i' →
  seal_continuation id l fs auth = Ok rs →
  recorded d id (l ++ rs) i' ∧ journal_events rs = fact_event <$> fs.
Proof using.
  intros Hr (Ha & Hid & Hc) (Hne & Hown & Hs & Hnd & Hnew)%seal_continuation_Ok.
  pose proof (recorded_sealed _ _ _ _ Hr) as Hsealed.
  destruct (last l) as [p|] eqn:Hl; [|apply last_None in Hl as ->; by destruct (sealed_ne _ _ Hsealed)].
  destruct (seal_facts_sealed _ _ _ _ _ _ Hsealed Hl Hs) as (Hs' & Hids & Hcids).
  assert (journal_events (l ++ rs) = journal_events l ++ (fact_event <$> fs)) as He
    by (by apply sealed_events in Hs').
  split; [|unfold journal_events in *; rewrite omap_app in He; by apply app_inv_head in He].
  constructor.
  - rewrite He. by apply Hc, Hr.
  - by rewrite He.
  - pose proof (recorded_id _ _ _ _ Hr). injection Hid as ->. done.
  - rewrite (resolve_identity _ _ Hid). apply Hr.
  - rewrite fmap_app, Hids. apply NoDup_app. split_and!; [apply Hr| |done].
    intros x Hx (f & -> & Hf)%list_elem_of_fmap. by apply (Hnew f).
  - apply Forall_app. split; [apply Hr|by eapply batch_ceremony].
Qed.

Lemma recorded_opens d id fs auth rs i :
  session d (fact_event <$> fs) i → instance_id i = id → resolve_definition ports i = Ok d →
  seal_continuation id [] fs auth = Ok rs →
  recorded d id rs i ∧ journal_events rs = fact_event <$> fs.
Proof using.
  intros Hsess Hid Hres (Hne & Hown & Hs & Hnd & _)%seal_continuation_Ok.
  destruct (seal_facts_opens _ _ _ Hne Hs) as (Hs' & Hids & Hcids).
  pose proof (sealed_events _ _ Hs') as He. split; [|done].
  constructor; rewrite ?He; [done..| |by eapply batch_ceremony]. by rewrite Hids.
Qed.

(** ** What holds of the world *)

Definition stream (w : World) (id : CeremonyId) : list AuditRecord := store_stream (w_store w) id.

(** The world only grows: streams and the log are appended to. *)
Record grows (w w' : World) : Prop := MkGrows {
  grows_streams : ∀ id, stream w id `prefix_of` stream w' id;
  grows_log : es_log (w_store w) `prefix_of` es_log (w_store w');
}.

#[export] Instance grows_preorder : PreOrder grows.
Proof using.
  split; [intros w; constructor; reflexivity|]. intros w1 w2 w3 [Hs1 Hl1] [Hs2 Hl2].
  constructor; [intros id; by trans (stream w2 id)|by trans (es_log (w_store w2))].
Qed.

(** A cut of the stream [id], where the session was [i]. *)
Definition cut (w : World) (d : CeremonyDefinition) (id : CeremonyId) (l : list AuditRecord)
    (i : CeremonyInstance) : Prop :=
  l `prefix_of` stream w id ∧ recorded d id l i.

Lemma cut_grows w w' d id l i : grows w w' → cut w d id l i → cut w' d id l i.
Proof using. intros [Hs _] [Hp Hr]. split; [|done]. by trans (stream w id). Qed.

(** A record at its place in the global log. *)
Definition durable (w : World) (pr : PositionedRecord) : Prop :=
  ∃ k id q, es_log (w_store w) !! k = Some (pr_position pr, id, q) ∧
    stream w id !! Z.to_nat (q - 1) = Some (pr_record pr).

Lemma durable_grows w w' pr : grows w w' → durable w pr → durable w' pr.
Proof using.
  intros [Hs Hl] (k & id & q & Hk & Hr). exists k, id, q.
  split; by eapply prefix_lookup_Some.
Qed.

(** The log numbers its entries from 1, and holds for every stream exactly the
    sequences of its records, in order. *)
Record log_covers (s : EventStoreState) : Prop := MkLogCovers {
  log_positions : ∀ k p id q, es_log s !! k = Some (p, id, q) → p = Z.of_nat k + 1;
  log_sequences : ∀ id,
    (filter (λ entry, entry.1.2 = id) (es_log s)).*2 = ar_sequence <$> store_stream s id;
}.

(** What the opening of a successor carries over. *)
Definition carried_opening (plan : SuccessionPlan) : list CeremonyEvent :=
  if (length (sp_carried plan) =? 0)%nat then []
  else [EvSuccessionCarried (sp_carried plan) (sp_planned_at plan)].

(** [planned_in w s id rest]: the ceremony [id], which says that it succeeds as
    [s] and went on with [rest], was planned: the record [s] names is in the
    predecessor's stream and seals a plan for it, and it went on with the
    evidence that plan carries. *)
Definition planned_in (w : World) (s : CeremonySuccession) (id : CeremonyId) (rest : list CeremonyEvent)
    : Prop :=
  ∃ k r plan rest', stream w (succ_predecessor_id s) !! k = Some r ∧
    ar_event r = Some (EvSuccessorPlanned plan) ∧ ar_record_hash r = succ_predecessor_head s ∧
    succ_predecessor_version s = Z.of_nat k + 1 ∧ sp_plan_id plan = succ_plan_id s ∧
    sp_successor_id plan = id ∧ rest = carried_opening plan ++ rest'.

(** [spawned_in w l started]: the ceremony that opened with [started] and says
    that it descends as [l] was planned: its parent's stream seals a plan for the
    group [l] names, and the opening is the one planned for this child. *)
Definition spawned_in (w : World) (l : CeremonyLineage) (started : CeremonyInstanceStarted) : Prop :=
  ∃ k r plan at_ child, stream w (lin_parent_id l) !! k = Some r ∧
    ar_event r = Some (EvChildSpawnPlanned plan at_) ∧ plan_group_id plan = lin_group_id l ∧
    child ∈ plan_children plan ∧ pc_lineage child = l ∧ pc_child_id child = cis_ceremony_id started ∧
    pc_context child = cis_context started ∧ Some (pc_digest child) = cis_bound_definition started ∧
    pc_budget_account_id child = cis_budget_account_id started.

(** The completion a ceremony accepted happened: the record it names is in the
    stream of the child and is its completion, and the child descends from that
    ceremony in the group of the completion. *)
Definition completed_in (w : World) (parent : CeremonyId) (c : ChildCompletionRef) : Prop :=
  (∃ k r final at_, stream w (cc_child_id c) !! k = Some r ∧ ar_event_id r = cc_terminal_event_id c ∧
     ar_record_hash r = cc_terminal_record_hash c ∧ ar_event r = Some (EvCeremonyCompleted final at_)) ∧
  ∃ started rest l, journal_events (stream w (cc_child_id c)) = EvCeremonyInstanceStarted started :: rest ∧
    cis_lineage started = Some l ∧ lin_parent_id l = parent ∧ lin_group_id l = cc_group_id c.

Definition event_backed (w : World) (id : CeremonyId) (e : CeremonyEvent) : Prop :=
  match e with EvChildCompletionAccepted c _ => completed_in w id c | _ => True end.

(** What a journal says of other streams is true of them. *)
Definition backed (w : World) (es : list CeremonyEvent) : Prop :=
  match es with
  | EvCeremonyInstanceStarted started :: rest =>
      (∀ s, cis_succession started = Some s → planned_in w s (cis_ceremony_id started) rest) ∧
      (∀ l, cis_lineage started = Some l → spawned_in w l started) ∧
      Forall (event_backed w (cis_ceremony_id started)) rest
  | _ => True
  end.

Lemma planned_grows w w' s id rest more :
  grows w w' → planned_in w s id rest → planned_in w' s id (rest ++ more).
Proof using.
  intros [Hs _] (k & r & plan & rest' & Hk & He & Hh & Hv & Hp & Hi & ->).
  exists k, r, plan, (rest' ++ more). split_and!; [by eapply prefix_lookup_Some|done..|by rewrite app_assoc].
Qed.

Lemma spawned_grows w w' l started : grows w w' → spawned_in w l started → spawned_in w' l started.
Proof using.
  intros [Hs _] (k & r & plan & at_ & child & Hk & Hrest). exists k, r, plan, at_, child.
  split; [by eapply prefix_lookup_Some|done].
Qed.

Lemma journal_events_app l k : journal_events (l ++ k) = journal_events l ++ journal_events k.
Proof using. apply omap_app. Qed.

Lemma journal_events_prefix l l' : l `prefix_of` l' → journal_events l `prefix_of` journal_events l'.
Proof using. intros [k ->]. rewrite journal_events_app. by apply prefix_app_r. Qed.

Lemma event_backed_grows w w' id e : grows w w' → event_backed w id e → event_backed w' id e.
Proof using.
  intros Hg. destruct e; try done. cbn. intros [(k & r & fin & at_ & Hk & Hrest) (started & rest & l & He & Hl)].
  split.
  - exists k, r, fin, at_. split; [by eapply prefix_lookup_Some; [|apply Hg]|done].
  - destruct (journal_events_prefix _ _ (grows_streams _ _ Hg (cc_child_id completion))) as [more Hm].
    exists started, (rest ++ more), l. by rewrite Hm, He.
Qed.

Lemma backed_grows w w' es : grows w w' → backed w es → backed w' es.
Proof using.
  intros Hg. unfold backed. destruct es as [|[] es]; try done. intros (Hp & Hs & He). split_and!.
  - intros s Hs'. rewrite <-(app_nil_r es). eapply planned_grows; [done|by apply Hp].
  - intros l Hl. eapply spawned_grows; [done|by apply Hs].
  - eapply Forall_impl; [exact He|]. intros e'. by apply event_backed_grows.
Qed.

(** A journal that grows by events that are true stays true. *)
Lemma backed_app w started rest more :
  Forall (event_backed w (cis_ceremony_id started)) more →
  backed w (EvCeremonyInstanceStarted started :: rest) →
  backed w (EvCeremonyInstanceStarted started :: rest ++ more).
Proof using.
  intros Hm (Hp & Hs & He). split_and!; [|done|by apply Forall_app].
  intros s Hs'. eapply planned_grows; [reflexivity|by apply Hp].
Qed.

Record world_ok (w : World) : Prop := MkWorldOk {
  ok_streams : ∀ id l, es_streams (w_store w) !! id = Some l → ∃ d i, recorded d id l i;
  ok_snapshots : ∀ id m v i, es_snapshots (w_store w) !! id = Some m → m !! v = Some i →
    ∃ d l, cut w d id l i ∧ v = Z.of_nat (length l);
  ok_log : log_covers (w_store w);
  ok_observed : Forall (durable w) (w_observed w);
  ok_backed : ∀ id, backed w (journal_events (stream w id));
}.

(** The log is a vector in memory, far from [u64::MAX] entries. *)
Definition fits (w : World) : Prop := Z.of_nat (length (es_log (w_store w))) < u64_max.

Lemma stream_recorded w id :
  world_ok w → stream w id ≠ [] → ∃ d i, recorded d id (stream w id) i.
Proof using.
  intros Hw. unfold stream, store_stream. destruct (es_streams (w_store w) !! id) as [l|] eqn:Hl; [|done].
  intros _. by eapply ok_streams.
Qed.

Lemma stream_fits w id : world_ok w → fits w → Z.of_nat (length (stream w id)) < u64_max.
Proof using.
  intros Hw Hf. pose proof (log_sequences _ (ok_log _ Hw) id) as H. apply (f_equal length) in H.
  rewrite !length_fmap in H. unfold stream. rewrite <-H.
  pose proof (length_filter (λ entry, entry.1.2 = id) (es_log (w_store w))). unfold fits in Hf. lia.
Qed.

(** The head of a stream is its length. *)
Lemma version_stream w id :
  world_ok w → fits w → version_of (stream w id) = Z.of_nat (length (stream w id)).
Proof using.
  intros Hw Hf. pose proof (stream_fits w id Hw Hf) as Hb.
  destruct (base.decide (stream w id = [])) as [->|Hne]; [done|].
  destruct (stream_recorded w id Hw Hne) as (d & i & Hr).
  apply (sealed_version _ _ (recorded_sealed _ _ _ _ Hr)). lia.
Qed.

Lemma world_default_ok : world_ok World_default.
Proof using.
  constructor; [done|done| |constructor|done].
  constructor; [by intros [] ????|]. intros id. done.
Qed.
End streams.

(** ** What an append does to the log *)

Lemma length_log_entries id p rs : length (log_entries id p rs) = length rs.
Proof. revert p. induction rs as [|r rs IH]; intros p; [done|]. cbn. by rewrite IH. Qed.

Lemma GlobalPosition_next_below p : p < u64_max → GlobalPosition_next p = p + 1.
Proof. unfold GlobalPosition_next. lia. Qed.

Lemma log_entries_lookup id p rs k entry :
  p + Z.of_nat (length rs) ≤ u64_max + 1 → log_entries id p rs !! k = Some entry →
  ∃ r, rs !! k = Some r ∧ entry = (p + Z.of_nat k, id, ar_sequence r).
Proof.
  revert p k. induction rs as [|r rs IH]; intros p k Hb Hk; [done|].
  cbn [length] in Hb. destruct k as [|k]; cbn in Hk.
  - injection Hk as <-. exists r. split; [done|]. by rewrite Z.add_0_r.
  - assert (rs ≠ []) as Hne by (by intros ->). assert (length rs ≠ 0%nat) by (by destruct rs).
    rewrite GlobalPosition_next_below in Hk by lia.
    apply IH in Hk as (r' & Hr & ->); [|lia]. exists r'. split; [done|]. do 2 f_equal. lia.
Qed.

Lemma log_entries_own id p rs :
  (filter (λ entry, entry.1.2 = id) (log_entries id p rs)).*2 = ar_sequence <$> rs.
Proof.
  revert p. induction rs as [|r rs IH]; intros p; [done|]. cbn [log_entries].
  rewrite filter_cons_True by done. by rewrite !fmap_cons, IH.
Qed.

Lemma log_entries_other id id' p rs :
  id' ≠ id → filter (λ entry, entry.1.2 = id') (log_entries id p rs) = [].
Proof.
  intros Hne. revert p. induction rs as [|r rs IH]; intros p; [done|]. cbn [log_entries].
  rewrite filter_cons_False by (cbn; congruence). apply IH.
Qed.

Lemma next_position_log s :
  log_covers s → Z.of_nat (length (es_log s)) < u64_max →
  next_position s = Z.of_nat (length (es_log s)) + 1.
Proof.
  intros Hc Hb. unfold next_position. destruct (last (es_log s)) as [[[p id] q]|] eqn:Hl.
  - rewrite last_lookup in Hl. pose proof (log_positions _ Hc _ _ _ _ Hl) as ->.
    assert (length (es_log s) ≠ 0%nat) by (destruct (es_log s); [done|cbn; lia]).
    rewrite GlobalPosition_next_below by lia. lia.
  - apply last_None in Hl as ->. done.
Qed.

Lemma position_from_lookup p rs k pr :
  p + Z.of_nat (length rs) ≤ u64_max + 1 → position_from p rs !! k = Some pr →
  rs !! k = Some (pr_record pr) ∧ pr_position pr = p + Z.of_nat k.
Proof.
  revert p k. induction rs as [|r rs IH]; intros p k Hb Hk; [done|].
  cbn [length] in Hb. destruct k as [|k]; cbn in Hk.
  - injection Hk as <-. split; [done|]. cbn. lia.
  - assert (length rs ≠ 0%nat) by (by destruct rs).
    rewrite GlobalPosition_next_below in Hk by lia.
    apply IH in Hk as [Hr Hp]; [|lia]. split; [done|]. lia.
Qed.

(** The store after a batch landed. *)
Definition landed (s : EventStoreState) (id : CeremonyId) (rs : list AuditRecord) : EventStoreState :=
  s <| es_log := es_log s ++ log_entries id (next_position s) rs |>
    <| es_streams := <[id := store_stream s id ++ rs]> (es_streams s) |>.

Lemma landed_stream s id rs : store_stream (landed s id rs) id = store_stream s id ++ rs.
Proof. unfold landed, store_stream. cbn. by rewrite lookup_insert, decide_True by done. Qed.

Lemma landed_stream_ne s id id' rs : id' ≠ id → store_stream (landed s id rs) id' = store_stream s id'.
Proof. intros Hne. unfold landed, store_stream. cbn. by rewrite lookup_insert_ne by done. Qed.

Lemma landed_log_covers s id rs :
  log_covers s → Z.of_nat (length (es_log (landed s id rs))) < u64_max → log_covers (landed s id rs).
Proof.
  intros Hc Hb. cbn in Hb. rewrite length_app, length_log_entries in Hb. constructor.
  - intros k p id' q Hk. cbn in Hk. apply lookup_app_Some in Hk as [Hk|[Hlen Hk]].
    { by eapply log_positions. }
    apply log_entries_lookup in Hk as (r & _ & [= -> _ _]); rewrite (next_position_log _ Hc); lia.
  - intros id'. change (es_log (landed s id rs)) with (es_log s ++ log_entries id (next_position s) rs).
    rewrite filter_app, fmap_app, (log_sequences _ Hc).
    destruct (base.decide (id' = id)) as [->|Hne].
    + by rewrite log_entries_own, landed_stream, fmap_app.
    + by rewrite log_entries_other, landed_stream_ne, app_nil_r by done.
Qed.

Section calls.
Context {Hsha : Sha256} {Hclk : Clock} {Hser : EvidenceSerde} {Haud : AuditSerde}.
Context (ports : Ports).

Lemma landed_grows w id rs : grows w (w <| w_store := landed (w_store w) id rs |>).
Proof using.
  constructor.
  - intros id'. unfold stream. cbn [w_store set_field].
    destruct (base.decide (id' = id)) as [->|Hne].
    + rewrite landed_stream. by apply prefix_app_r.
    + by rewrite landed_stream_ne.
  - cbn. by apply prefix_app_r.
Qed.

Lemma world_ok_landed w id rs d i :
  world_ok ports w → recorded ports d id (stream w id ++ rs) i →
  backed w (journal_events (stream w id ++ rs)) →
  fits (w <| w_store := landed (w_store w) id rs |>) →
  world_ok ports (w <| w_store := landed (w_store w) id rs |>).
Proof using.
  intros Hw Hr Hb Hf. pose proof (landed_grows w id rs) as Hg. constructor.
  - intros id' l Hl. cbn in Hl. destruct (base.decide (id' = id)) as [->|Hne].
    + rewrite lookup_insert, decide_True in Hl by done. injection Hl as <-. eauto.
    + rewrite lookup_insert_ne in Hl by done. by eapply ok_streams.
  - intros id' m v i' Hm Hv. destruct (ok_snapshots _ _ Hw id' m v i' Hm Hv) as (d' & l & Hc & ->).
    exists d', l. split; [|done]. by eapply cut_grows.
  - apply landed_log_covers; [apply Hw|exact Hf].
  - eapply Forall_impl; [apply (ok_observed _ _ Hw)|]. intros pr. by apply durable_grows.
  - intros id'. apply (backed_grows w); [done|]. unfold stream. cbn [w_store set_field].
    destruct (base.decide (id' = id)) as [->|Hne].
    + by rewrite landed_stream.
    + rewrite landed_stream_ne by done. apply (ok_backed _ _ Hw id').
Qed.

(** The batch is told of as it landed. *)
Lemma landed_durable w id rs d i :
  world_ok ports w → recorded ports d id (stream w id ++ rs) i →
  backed w (journal_events (stream w id ++ rs)) →
  fits (w <| w_store := landed (w_store w) id rs |>) →
  Forall (durable (w <| w_store := landed (w_store w) id rs |>))
    (position_from (next_position (w_store w)) rs).
Proof using.
  intros Hw Hr Hback Hf.
  pose proof (stream_fits ports _ id (world_ok_landed w id rs d i Hw Hr Hback Hf) Hf) as Hb.
  unfold fits in Hf. cbn in Hf. rewrite length_app, length_log_entries in Hf.
  apply Forall_lookup. intros k pr Hk.
  pose proof (next_position_log _ (ok_log _ _ Hw)) as Hn.
  apply position_from_lookup in Hk as [Hrec Hpos]; [|lia].
  exists (length (es_log (w_store w)) + k)%nat, id, (ar_sequence (pr_record pr)).
  assert (k < length rs)%nat as Hkl by (by apply lookup_lt_Some in Hrec).
  unfold stream. cbn [w_store set_field]. rewrite landed_stream. split.
  - cbn. rewrite lookup_app_r by lia. replace (_ + k - _)%nat with k by lia.
    destruct (log_entries id (next_position (w_store w)) rs !! k) as [entry|] eqn:He.
    + apply log_entries_lookup in He as (r & Hr' & ->); [|lia]. rewrite Hpos. congruence.
    + apply lookup_ge_None in He. rewrite length_log_entries in He. lia.
  - unfold stream in *. cbn [w_store set_field] in Hb. rewrite landed_stream, length_app in Hb.
    destruct (sealed_verifies _ _ (recorded_sealed _ _ _ _ _ Hr)) as [Hv _].
    assert ((store_stream (w_store w) id ++ rs) !! (length (store_stream (w_store w) id) + k)%nat
            = Some (pr_record pr)) as Hl.
    { rewrite lookup_app_r by lia. rewrite <-Hrec. f_equal. lia. }
    rewrite (verified_positions _ _ _ Hv Hl). rewrite <-Hl. f_equal. lia.
Qed.

(** An append refuses, or finds the stream at the expected version and lands the
    batch behind it. *)
Lemma append_cases s id expected fs auth answer s' :
  append_with_authorization s id expected fs auth = (answer, s') →
  (s' = s ∧ ((∃ e, answer = Err e) ∨ answer = Panic ∨
             ∃ actual, answer = Ok (AppendConflict expected actual) ∧ actual ≠ expected ∧
                       actual = version_of (store_stream s id))) ∨
  ∃ rs, answer = Ok (Appended (version_of (store_stream s id ++ rs)) rs (next_position s)) ∧
    s' = landed s id rs ∧ version_of (store_stream s id) = expected ∧
    seal_continuation id (store_stream s id) fs auth = Ok rs.
Proof using.
  unfold append_with_authorization.
  destruct (version_of (store_stream s id) == expected) eqn:Hv; cbn [negb].
  - apply eqb_true_1 in Hv.
    destruct (seal_continuation id (store_stream s id) fs auth) as [rs|e|] eqn:Hs; intros [= <- <-].
    + right. by exists rs.
    + left. split; [done|]. left. by exists e.
    + left. split; [done|]. by right; left.
  - intros [= <- <-]. apply eqb_false in Hv. left. split; [done|]. right. right. eauto.
Qed.

(** Sealing refuses or succeeds: it never panics. *)
Lemma bind_no_panic {E A B} (x : result E A) (f : A → result E B) :
  x ≠ Panic → (∀ a, f a ≠ Panic) → x ≫= f ≠ Panic.
Proof using. destruct x; cbn; auto. Qed.

Lemma ok_or_no_panic {E A} (o : option A) (e : E) : ok_or o e ≠ Panic.
Proof using. by destruct o. Qed.

Lemma ensure_no_panic {E} b (e : E) : ensure b e ≠ Panic.
Proof using. by destruct b. Qed.

Lemma compute_hash_no_panic r : compute_hash r ≠ Panic.
Proof using.
  unfold compute_hash, preimage, canonical_payload, canonical_authorization.
  repeat first [apply bind_no_panic; [|intros ?]|apply ok_or_no_panic|discriminate
    |progress destruct_match].
Qed.

Lemma seal_no_panic f evidence version sequence previous :
  seal f evidence version sequence previous ≠ Panic.
Proof using.
  unfold seal, validate_authorization_evidence.
  repeat first [apply compute_hash_no_panic|apply ensure_no_panic|apply bind_no_panic; [|intros ?]
    |discriminate|progress destruct_match].
Qed.

Lemma validate_predecessor_no_panic r : validate_predecessor r ≠ Panic.
Proof using.
  unfold validate_predecessor, digest_is_intact.
  repeat first [apply compute_hash_no_panic|apply ensure_no_panic|apply bind_no_panic; [|intros ?]
    |discriminate|progress destruct_match].
Qed.

Lemma seal_facts_no_panic head fs auth : seal_facts head fs auth ≠ Panic.
Proof using.
  revert head. induction fs as [|f fs IH]; intros head; [done|]. cbn [seal_facts].
  apply bind_no_panic; [|intros r; apply bind_no_panic; [apply IH|done]].
  unfold record_following_authorized, record_first_authorized, record_following, record_first.
  destruct head, auth;
    repeat first [apply seal_no_panic|apply validate_predecessor_no_panic|apply ensure_no_panic
      |apply bind_no_panic; [|intros ?]].
Qed.

Lemma append_no_panic s id expected fs auth :
  (append_with_authorization s id expected fs auth).1 ≠ Panic.
Proof using.
  unfold append_with_authorization. destruct (_ == _); cbn [negb]; [|done].
  assert (seal_continuation id (store_stream s id) fs auth ≠ Panic) as Hp.
  { unfold seal_continuation.
    repeat first [apply bind_no_panic; [apply ensure_no_panic|intros ?]|apply seal_facts_no_panic]. }
  by destruct (seal_continuation id (store_stream s id) fs auth).
Qed.

(** ** Snapshots *)

Lemma last_key_value_Some {A} (m : gmap Z A) v a :
  last_key_value m = Some (v, a) → m !! v = Some a ∧ ∀ v' a', m !! v' = Some a' → v' ≤ v.
Proof using.
  unfold last_key_value. intros H.
  assert ((v, a) ∈ map_to_list m ∧ ∀ e, e ∈ map_to_list m → e.1 ≤ v) as [Hin Hmax].
  { revert v a H. induction (map_to_list m) as [|e l IH]; intros v a H; [done|]. cbn in H.
    destruct (foldr _ _ _) as [other|] eqn:Hf.
    - destruct other as [v' a']. destruct (IH v' a' eq_refl) as [Hin Hmax].
      destruct (Z.ltb_spec (v', a').1 e.1) as [Hlt|Hge]; cbn in *.
      + injection H as ->. split; [by left|]. cbn in *.
        intros x [->|Hx]%elem_of_cons; [cbn; lia|]. specialize (Hmax x Hx). lia.
      + injection H as -> ->. split; [by right|].
        intros x [->|Hx]%elem_of_cons; [lia|]. by apply Hmax.
    - injection H as ->. destruct l as [|e' l].
      + split; [by left|]. by intros x ->%list_elem_of_singleton.
      + cbn in Hf. by repeat case_match. }
  split; [by apply elem_of_map_to_list|]. intros v' a' Hv. by apply (Hmax (v', a')), elem_of_map_to_list.
Qed.

Lemma world_ok_saved w d l i :
  world_ok ports w → cut ports w d (instance_id i) l i →
  world_ok ports (w <| w_store :=
    (store_save (w_store w) (MkCeremonySnapshot (Z.of_nat (length l)) i)).2 |>).
Proof using.
  intros [Hs Hsn [Hp Hq] Ho Hb] Hc. constructor; [exact Hs| |by constructor|exact Ho|exact Hb].
  intros id m v i' Hm Hv. cbn in Hm. destruct (base.decide (id = instance_id i)) as [->|Hne].
  - rewrite lookup_insert, decide_True in Hm by done. injection Hm as <-.
    destruct (base.decide (v = Z.of_nat (length l))) as [->|Hne].
    + rewrite lookup_insert, decide_True in Hv by done. injection Hv as <-. by exists d, l.
    + rewrite lookup_insert_ne in Hv by done.
      destruct (es_snapshots (w_store w) !! instance_id i) as [m|] eqn:Hm; [|done].
      by apply (Hsn _ m v i').
  - rewrite lookup_insert_ne in Hm by done. by apply (Hsn _ m v i').
Qed.

Lemma world_ok_forgot w id :
  world_ok ports w → world_ok ports (w <| w_store := (store_forget (w_store w) id).2 |>).
Proof using.
  intros [Hs Hsn [Hp Hq] Ho Hb]. constructor; [exact Hs| |by constructor|exact Ho|exact Hb].
  intros id' m v i' Hm Hv. cbn in Hm. apply lookup_delete_Some in Hm as [_ Hm]. by apply (Hsn _ m v i').
Qed.

Lemma world_ok_told w records :
  world_ok ports w → Forall (durable w) records →
  world_ok ports (w <| w_observed := w_observed w ++ records |>).
Proof using.
  intros [Hs Hsn Hl Ho Hb] Hr. constructor; [exact Hs|exact Hsn|exact Hl| |exact Hb]. by apply Forall_app.
Qed.

(** The latest snapshot is a cut of the stream. *)
Lemma latest_cut w id v i :
  world_ok ports w → store_latest (w_store w) id = Ok (Some (MkCeremonySnapshot v i)) →
  ∃ d l, cut ports w d id l i ∧ v = Z.of_nat (length l).
Proof using.
  intros Hw [= Hl]. apply bind_Some in Hl as (m & Hm & ([v' i'] & Hv & [= -> ->])%bind_Some).
  apply last_key_value_Some in Hv as [Hv _]. by apply (ok_snapshots _ _ Hw id m).
Qed.
End calls.
