(* ===== verification/Interleaving.v ===== *)
(** * Services sharing one store

    A small program logic for the services of SessionStream and UseCases.  A
    program is verified under interference: between any two of its calls other
    programs may have used the store, and all that is known is that the world has
    grown and is in order ([world_ok]); in return each of its own calls leaves the
    world in order.  [system] runs any number of programs, one call at a time in
    any order, and the logic is sound for it. *)

From S2P Require Import Prelude Errors Text Values Steps Definitions Interventions Instance.
From S2P Require Import Authorization AuditLog Fold Rules Decide DecideTable DecideLineage Engine.
From S2P Require Import EventStore SessionStream UseCases.
From S2P Require Import Sessions Machine Journal Tamper Streams.

(** What a program that may fail gives: a result, or an error ([Some]) or a
    panic ([None]). *)
Definition gives {A} (Q : A → World → Prop) (E : option DomainError → Prop)
    (r : outcome A) (w : World) : Prop :=
  match r with Ok a => Q a w | Err e => E (Some e) | Panic => E None end.

Section logic.
Context {Hsha : Sha256} {Hclk : Clock} {Hser : EvidenceSerde} {Haud : AuditSerde}.
Context (ports : Ports).

Fixpoint wp {A} (p : prog A) (w : World) (Q : A → World → Prop) : Prop :=
  match p with
  | Ret a => Q a w
  | Vis op k =>
      ∀ w1, grows w w1 → world_ok ports w1 → fits w1 → fits (run_op op w1).2 →
        world_ok ports (run_op op w1).2 ∧ grows w1 (run_op op w1).2 ∧
        wp (k (run_op op w1).1) (run_op op w1).2 Q
  end.

Lemma wp_conseq {A} (p : prog A) w (Q Q' : A → World → Prop) :
  (∀ a w', grows w w' → Q a w' → Q' a w') → wp p w Q → wp p w Q'.
Proof using.
  revert w. induction p as [a|B op k IH]; intros w HQ Hp; cbn in *.
  { apply HQ; [reflexivity|done]. }
  intros w1 Hg Hw Hf Hf2. destruct (Hp w1 Hg Hw Hf Hf2) as (Hw2 & Hg2 & Hk). split_and!; [done|done|].
  apply IH; [|done]. intros a w' Hg'. apply HQ. by trans w1; [|trans (run_op op w1).2].
Qed.

Lemma wp_bind {A B} (p : prog A) (f : A → prog B) w Q :
  wp p w (λ a w', wp (f a) w' Q) → wp (prog_bind p f) w Q.
Proof using.
  revert w. induction p as [a|C op k IH]; intros w Hp; [done|]. cbn in *.
  intros w1 Hg Hw Hf Hf2. destruct (Hp w1 Hg Hw Hf Hf2) as (Hw2 & Hg2 & Hk). split_and!; [done|done|].
  by apply IH.
Qed.

Lemma wp_io_bind {A B} (p : io A) (f : A → io B) w Q E :
  wp p w (gives (λ a w', wp (f a) w' (gives Q E)) E) → wp (p ≫= f) w (gives Q E).
Proof using.
  intros Hp. apply wp_bind. eapply wp_conseq; [|exact Hp]. intros [a|e|] w' _ H; exact H.
Qed.

Lemma wp_lift {A} (r : outcome A) w Q E : gives Q E r w → wp (lift r) w (gives Q E).
Proof using. done. Qed.

Lemma wp_lift_bind {A B} (r : outcome A) (f : A → io B) w Q E :
  gives (λ a w', wp (f a) w' (gives Q E)) E r w → wp (lift r ≫= f) w (gives Q E).
Proof using. intros H. by apply wp_io_bind. Qed.

Lemma wp_mret {A} (a : A) w Q E : Q a w → wp (mret (M := io) a) w (gives Q E).
Proof using. done. Qed.

(** A call that only reads. *)
Lemma wp_read {A B} (op : StoreOp A) (k : A → prog B) w Q :
  (∀ w1, (run_op op w1).2 = w1) →
  (∀ w1, grows w w1 → world_ok ports w1 → fits w1 → wp (k (run_op op w1).1) w1 Q) →
  wp (Vis op k) w Q.
Proof using.
  intros Hr Hk w1 Hg Hw Hf Hf2. rewrite Hr. split_and!; [done|reflexivity|]. by apply Hk.
Qed.

(** A program whose result stays true may be started in a world that has grown. *)
Lemma wp_grows {A} (p : prog A) w w' Q :
  (∀ a w w', grows w w' → Q a w → Q a w') → grows w w' → wp p w Q → wp p w' Q.
Proof using.
  intros HQ Hg. destruct p as [a|B op k]; cbn; [by apply HQ|].
  intros Hp w1 Hg1. apply Hp. by trans w'.
Qed.

(** ** Reading *)

Lemma prefix_read (l s : list AuditRecord) (from n : nat) :
  l `prefix_of` s → (from + n ≤ length l)%nat → take n (drop from s) = take n (drop from l).
Proof using.
  intros [k ->] Hn. rewrite drop_app_le by lia. rewrite take_app_le; [done|]. rewrite length_drop. lia.
Qed.

Lemma last_read_sequence w id from n r :
  world_ok ports w → fits w → (0 < n)%nat → (from + n ≤ length (stream w id))%nat →
  last (take n (drop from (stream w id))) = Some r → ar_sequence r = Z.of_nat (from + n).
Proof using.
  intros Hw Hf Hn Hlen Hl. pose proof (stream_fits ports w id Hw Hf) as Hb.
  destruct (stream_recorded ports w id Hw) as (d & i & Hr); [intros Heq; rewrite Heq in Hlen; cbn in Hlen; lia|].
  rewrite last_lookup, length_take, length_drop in Hl.
  replace (pred (n `min` (length (stream w id) - from)))%nat with (pred n) in Hl by lia.
  rewrite lookup_take, lookup_drop in Hl. destruct (base.decide _) as [_|Hne]; [|lia].
  destruct (sealed_verifies _ _ (recorded_sealed _ _ _ _ _ Hr)) as [Hv _].
  rewrite (verified_positions _ _ _ Hv Hl). lia.
Qed.

Lemma wp_read_to_head fuel id (l : list AuditRecord) w from :
  l `prefix_of` stream w id → (from ≤ length l)%nat → (length l - from ≤ fuel)%nat →
  wp (read_to_head fuel id (Z.of_nat (length l)) (Z.of_nat from)) w
    (gives (λ rs _, rs = drop from l) (λ _, False)).
Proof using.
  revert w from. induction fuel as [|fuel IH]; intros w from Hp Hfrom Hfuel; cbn [read_to_head].
  all: destruct (Z.ltb_spec (Z.of_nat from) (Z.of_nat (length l))) as [Hlt|Hge]; cbn [negb];
    [|cbn; rewrite drop_ge by lia; done].
  { lia. }
  set (n := Z.to_nat (Z.min (Z.of_nat (length l) - Z.of_nat from) CeremonyEventPageLimit_DEFAULT)).
  assert (Z.min (Z.of_nat (length l) - Z.of_nat from) CeremonyEventPageLimit_DEFAULT = Z.of_nat n)
    as Hn by (unfold n, CeremonyEventPageLimit_DEFAULT; lia).
  assert (0 < n ≤ 200 ∧ from + n ≤ length l)%nat as [Hn1 Hn2]
    by (unfold n, CeremonyEventPageLimit_DEFAULT; lia).
  rewrite Hn. apply wp_lift_bind. unfold CeremonyEventPageLimit_new, CeremonyEventPageLimit_MAX.
  rewrite (proj2 (Z.eqb_neq (Z.of_nat n) 0)), (proj2 (Z.ltb_ge 1000 (Z.of_nat n))) by lia. cbn [gives orb negb ensure mbind result_bind].
  apply wp_io_bind. unfold read_ceremony_events. apply wp_io_bind.
  apply wp_read; [done|]. intros w1 Hg1 Hw1 Hf1. cbn [wp run_op store_read fst gives].
  apply wp_io_bind. apply wp_read; [done|]. intros w2 Hg2 Hw2 Hf2.
  cbn [wp run_op store_head fst gives].
  assert (l `prefix_of` stream w1 id) as Hp1 by (by trans (stream w id); [|apply Hg1]).
  assert (l `prefix_of` stream w2 id) as Hp2 by (by trans (stream w1 id); [|apply Hg2]).
  pose proof (prefix_length _ _ Hp1) as Hl1. pose proof (prefix_length _ _ Hp2) as Hl2.
  change (store_stream (w_store w2) id) with (stream w2 id).
  change (store_stream (w_store w1) id) with (stream w1 id).
  rewrite (version_stream ports w2 id Hw2 Hf2). unfold StreamVersion_is_empty, StreamVersion_EMPTY.
  rewrite (proj2 (Z.eqb_neq _ 0)) by lia. rewrite !Nat2Z.id.
  rewrite (prefix_read l (stream w1 id) from n Hp1 Hn2).
  assert (length (take n (drop from l)) = n) as Hlen by (rewrite length_take, length_drop; lia).
  destruct (last (take n (drop from l))) as [r|] eqn:Hlast;
    [|apply last_None in Hlast; rewrite Hlast in Hlen; cbn in Hlen; lia].
  assert (ar_sequence r = Z.of_nat (from + n)) as Hseq.
  { apply (last_read_sequence w1 id from n r); [done|done|lia|lia|].
    by rewrite (prefix_read l (stream w1 id) from n Hp1 Hn2). }
  apply wp_mret. cbn [page_records page_next_version]. unfold StreamVersion_from_sequence.
  rewrite Hseq, Hlen, (proj2 (Nat.eqb_neq n 0)) by lia.
  rewrite (proj2 (Z.leb_gt (Z.of_nat (from + n)) (Z.of_nat from))) by lia. cbn [orb].
  apply wp_io_bind. eapply wp_conseq; [|apply (IH w2 (from + n)%nat); [done|lia|lia]].
  intros [rs|e|] w' _ H; cbn in H; [|done|done]. subst rs. cbn.
  rewrite <-drop_drop. apply take_drop.
Qed.

(** The records of a stream from a version on, up to a head that is at least the
    one at the call. *)
Lemma wp_read_whole_from id w from :
  (from ≤ length (stream w id))%nat →
  wp (read_whole_from id (Z.of_nat from)) w
    (gives (λ rs w', ∃ d l i, cut ports w' d id l i ∧ stream w id `prefix_of` l ∧
               Z.of_nat (length l) ≤ u64_max ∧ rs = drop from l)
       (λ e, e = Some (NotFound "ceremony_instance") ∧ stream w id = [])).
Proof using.
  intros Hfrom. unfold read_whole_from. apply wp_io_bind, wp_read; [done|].
  intros w1 Hg1 Hw1 Hf1. cbn [wp run_op store_head fst gives].
  change (store_stream (w_store w1) id) with (stream w1 id).
  rewrite (version_stream ports w1 id Hw1 Hf1). unfold StreamVersion_is_empty, StreamVersion_EMPTY.
  pose proof (grows_streams _ _ Hg1 id) as Hp. pose proof (prefix_length _ _ Hp) as Hlen.
  destruct (Z.eqb_spec (Z.of_nat (length (stream w1 id))) 0) as [Hz|Hnz].
  { apply wp_lift. cbn. split; [done|]. apply length_zero_iff_nil. lia. }
  destruct (stream_recorded ports w1 id Hw1) as (d & i & Hr); [intros Heq; by rewrite Heq in Hnz|].
  eapply wp_conseq; [|apply (wp_read_to_head _ id (stream w1 id) w1 from); [done|lia|lia]].
  intros [rs|e|] w' Hg' H; cbn in H; [|done|done]. subst rs. cbn.
  exists d, (stream w1 id), i. pose proof (stream_fits ports w1 id Hw1 Hf1).
  split_and!; [|done|lia|done]. split; [apply Hg'|done].
Qed.

(** ** Folding what was read *)

Lemma foldable_sealed r e : ar_event r = Some e → foldable_event r = Ok e.
Proof using. intros H. unfold foldable_event. by rewrite H. Qed.

(** The identifier of the last record, which the next fact names as its cause. *)
Definition head_of (l : list AuditRecord) : option string := ar_event_id <$> last l.

Lemma fold_after_applies l es v h i i' :
  ar_event <$> l = Some <$> es → (∀ k r, l !! k = Some r → ar_sequence r = v + Z.of_nat k + 1) →
  apply_all i es = Ok i' →
  fold_after (Some i) v h l
    = Ok (Some i', v + Z.of_nat (length l), match head_of l with Some h => Some h | None => h end).
Proof using.
  revert es v h i. induction l as [|r l IH]; intros [|e es] v h i He Hs Ha; try done.
  { injection Ha as <-. cbn. by rewrite Z.add_0_r. }
  rewrite !fmap_cons in He. injection He as Hr He. cbn [fold_after].
  rewrite (foldable_sealed _ _ Hr). cbn [mbind result_bind].
  pose proof (Hs 0%nat r eq_refl) as Hseq. unfold StreamVersion_from_sequence. rewrite Hseq.
  rewrite (proj2 (Z.ltb_lt v (v + Z.of_nat 0 + 1))) by lia. cbn [apply_all] in Ha.
  apply bind_Ok in Ha as (i1 & Hi1 & Ha). cbn [fold_event]. rewrite Hi1. cbn [mbind result_bind].
  replace (v + Z.of_nat 0 + 1) with (v + 1) by lia.
  rewrite (IH es (v + 1) (Some (ar_event_id r)) i1 He); [| |done].
  - do 2 f_equal; [f_equal; cbn [length]; lia|]. unfold head_of. rewrite last_cons.
    by destruct (last l).
  - intros k r' Hk. rewrite (Hs (S k) r' Hk). lia.
Qed.

Lemma fold_tail_applies i es i' : fold_tail i es = Ok i' → apply_all i es = Ok i'.
Proof using.
  revert i. induction es as [|e es IH]; intros i; [done|]. cbn [fold_tail apply_all].
  destruct (is_import e); [done|]. cbn. intros (i1 & -> & H)%bind_Ok. cbn. by apply IH.
Qed.

Lemma fold_tail_no_import i es i' : fold_tail i es = Ok i' → any is_import es = false.
Proof using.
  revert i. induction es as [|e es IH]; intros i; [done|]. cbn [fold_tail any existsb].
  destruct (is_import e); [done|]. cbn. intros (i1 & _ & H)%bind_Ok. by eapply IH.
Qed.

(** The opening of a stream names it. *)
Lemma stream_opening d id l i started rest :
  recorded ports d id l i → journal_events l = EvCeremonyInstanceStarted started :: rest →
  cis_ceremony_id started = id.
Proof using.
  intros Hr He. pose proof (session_replays _ _ _ (recorded_session _ _ _ _ _ Hr)) as R. rewrite He in R.
  cbn in R. apply fold_tail_no_import in R as Hn. apply fold_tail_applies in R.
  apply apply_all_identity in R; [|done]. rewrite <-(recorded_id _ _ _ _ _ Hr). by injection R.
Qed.

(** From a cut on, the rest of the stream applies. *)
Lemma cut_applies d id l i d' id' l' i' k :
  l' = l ++ k → recorded ports d id l i → recorded ports d' id' l' i' →
  apply_all i (journal_events k) = Ok i'.
Proof using.
  intros -> Hl Hl'. pose proof (session_replays _ _ _ (recorded_session _ _ _ _ _ Hl)) as R.
  pose proof (session_replays _ _ _ (recorded_session _ _ _ _ _ Hl')) as R'.
  destruct (session_opens _ _ _ (recorded_session _ _ _ _ _ Hl)) as (st & rest & He).
  unfold journal_events in *. rewrite omap_app, He, rehydrate_app, <-He, R in R'. cbn in R'.
  by apply fold_tail_applies.
Qed.

Lemma sealed_drop es l k :
  sealed_journal es l → ar_event <$> drop k l = Some <$> journal_events (drop k l).
Proof using.
  intros Hs. pose proof (sealed_events es l Hs) as He. apply sealed_verifies in Hs as [_ Hs].
  assert (ar_event <$> drop k l = Some <$> drop k es) as H.
  { by rewrite !fmap_drop, Hs. }
  rewrite H. f_equal. unfold journal_events. clear He Hs. revert H. generalize (drop k es), (drop k l).
  intros es' l'. revert es'. induction l' as [|r l' IH]; intros [|e es'] H; try done.
  rewrite !fmap_cons in H. injection H as Hr H. cbn. rewrite Hr. by rewrite <-(IH es' H).
Qed.

Lemma sealed_drop_sequences es l k j r :
  sealed_journal es l → Z.of_nat (length l) ≤ u64_max → drop k l !! j = Some r →
  ar_sequence r = Z.of_nat k + Z.of_nat j + 1.
Proof using.
  intros [Hv _]%sealed_verifies Hb Hj. rewrite lookup_drop in Hj.
  rewrite (verified_positions _ _ _ Hv Hj). apply lookup_lt_Some in Hj. lia.
Qed.

(** Folding a whole journal, and folding it from a snapshot. *)
Lemma fold_whole d id l i :
  recorded ports d id l i → Z.of_nat (length l) ≤ u64_max →
  fold_after None StreamVersion_EMPTY None l = Ok (Some i, Z.of_nat (length l), head_of l).
Proof using.
  intros Hr Hb. pose proof (recorded_sealed _ _ _ _ _ Hr) as Hs.
  pose proof (session_replays _ _ _ (recorded_session _ _ _ _ _ Hr)) as R.
  destruct (session_opens _ _ _ (recorded_session _ _ _ _ _ Hr)) as (st & rest & He).
  pose proof (sealed_drop _ _ 0 Hs) as Hev.
  pose proof (λ j r, sealed_drop_sequences _ _ 1 j r Hs Hb) as Hseq1.
  pose proof (λ j r, sealed_drop_sequences _ _ 0 j r Hs Hb) as Hseq0.
  rewrite drop_0 in Hev, Hseq0. rewrite He in *.
  destruct l as [|r l]; [done|]. rewrite !fmap_cons in Hev. injection Hev as Hr0 Hev.
  cbn [fold_after]. rewrite (foldable_sealed _ _ Hr0). cbn [mbind result_bind].
  unfold StreamVersion_from_sequence, StreamVersion_EMPTY.
  rewrite (Hseq0 0%nat _ eq_refl). cbn [fold_event].
  change (Z.of_nat 0 + Z.of_nat 0 + 1) with 1. change (0 <? 1) with true. cbn [mbind result_bind].
  cbn in R. apply fold_tail_applies in R.
  rewrite (fold_after_applies l rest 1 _ _ i Hev); [|intros k r' Hk; by rewrite (Hseq1 k r' Hk)|done].
  do 2 f_equal; [f_equal; cbn [length]; lia|]. unfold head_of. rewrite last_cons. by destruct (last l).
Qed.

Lemma fold_from_snapshot d id l i d' id' l' i' :
  l `prefix_of` l' → recorded ports d id l i → recorded ports d' id' l' i' →
  Z.of_nat (length l') ≤ u64_max →
  fold_after (Some i) (Z.of_nat (length l)) None (drop (length l - 1) l')
    = Ok (Some i', Z.of_nat (length l'), head_of l').
Proof using.
  intros [k ->] Hl Hl' Hb. pose proof (cut_applies _ _ l i _ _ _ i' k eq_refl Hl Hl') as Ha.
  pose proof (recorded_sealed _ _ _ _ _ Hl) as Hs. pose proof (recorded_sealed _ _ _ _ _ Hl') as Hs'.
  pose proof (sealed_drop _ _ (length l) Hs') as Hev.
  pose proof (λ j r, sealed_drop_sequences _ _ (length l) j r Hs' Hb) as Hseq.
  rewrite drop_app_length in Hev, Hseq.
  rewrite length_app in *. destruct l as [|r l _] using rev_ind; [by destruct (sealed_ne _ _ Hs)|].
  rewrite length_app in *. cbn [length] in *. replace (length l + 1 - 1)%nat with (length l) by lia.
  rewrite <-app_assoc. rewrite drop_app_length. cbn [app fold_after].
  destruct (sealed_verifies _ _ Hs) as [_ Her]. destruct (ar_event r) as [e|] eqn:Hre.
  2: { assert (ar_event r ∈ ar_event <$> l ++ [r]) as Hin by (rewrite fmap_app; set_solver).
       rewrite Her, Hre in Hin. apply list_elem_of_fmap in Hin as (? & ? & _). done. }
  rewrite (foldable_sealed _ _ Hre). cbn [mbind result_bind]. unfold StreamVersion_from_sequence.
  rewrite (sealed_last_sequence _ _ r Hs (last_snoc _ _)) by (rewrite length_app; cbn; lia).
  rewrite length_app. cbn [length]. rewrite Z.ltb_irrefl. cbn [mbind result_bind].
  rewrite (fold_after_applies k _ _ _ _ i' Hev); [| |done].
  - do 2 f_equal; [f_equal; lia|]. unfold head_of. rewrite last_app.
    cbn [app]. rewrite last_cons. by destruct (last k).
  - intros j r' Hj. by rewrite (Hseq j r' Hj).
Qed.
(** ** Loading *)

(** [session_at w d s l]: [s] is the session at the cut [l] of its stream. *)
Record session_at (w : World) (d : CeremonyDefinition) (s : LoadedSession) (l : list AuditRecord)
    : Prop := MkSessionAt {
  at_cut : cut ports w d (instance_id (ls_instance s)) l (ls_instance s);
  at_version : ls_version s = Z.of_nat (length l);
  at_head : ls_head s = head_of l;
}.

Lemma session_at_grows w w' d s l : grows w w' → session_at w d s l → session_at w' d s l.
Proof using. intros Hg [Hc Hv Hh]. constructor; [|done|done]. by eapply cut_grows. Qed.

Lemma cut_ne w d id l i : cut ports w d id l i → l ≠ [].
Proof using. intros [_ Hr]. apply (sealed_ne _ _ (recorded_sealed _ _ _ _ _ Hr)). Qed.

Lemma wp_load id w :
  wp (load id) w
    (gives (λ s w', ∃ d l, session_at w' d s l ∧ instance_id (ls_instance s) = id ∧
                           stream w id `prefix_of` l)
       (λ e, e = Some (NotFound "ceremony_instance") ∧ stream w id = [])).
Proof using.
  unfold load. apply wp_io_bind, wp_read; [done|]. intros w1 Hg1 Hw1 Hf1.
  assert (stream w id `prefix_of` stream w1 id) as Hp1 by apply Hg1.
  cbn [wp run_op fst]. destruct (store_latest (w_store w1) id) as [[[v i0]|]|e|] eqn:Hl;
    [| |done|done]; cbn [gives fmap option_fmap option_map default from_option
      Datatypes.id snapshot_version snapshot_instance].
  - destruct (latest_cut ports w1 id v i0 Hw1 Hl) as (d0 & l0 & Hc0 & ->).
    pose proof (cut_ne _ _ _ _ _ Hc0) as Hne. destruct Hc0 as [Hp0 Hr0].
    assert (length l0 ≠ 0%nat) by (by destruct l0).
    replace (Z.max 0 (Z.of_nat (length l0) - 1)) with (Z.of_nat (length l0 - 1)) by lia.
    apply wp_io_bind. pose proof (prefix_length _ _ Hp0).
    eapply wp_conseq; [|apply (wp_read_whole_from id w1 (length l0 - 1)); lia].
    intros [rs|e|] w' Hg'; cbn [gives]; [|intros [-> He]; split; [done|]..].
    2,3: rewrite He in Hp1; by apply prefix_nil_inv in Hp1.
    intros (d & l & i & [Hp Hr] & Hpl & Hb & ->). apply wp_lift.
    assert (l0 `prefix_of` l) as Hpl0 by (by trans (stream w1 id)).
    rewrite (fold_from_snapshot _ _ l0 i0 _ _ l i Hpl0 Hr0 Hr Hb). cbn.
    exists d, l. pose proof (recorded_id _ _ _ _ _ Hr) as Hid. split_and!; [|done|by trans (stream w1 id)].
    constructor; cbn; [by rewrite Hid|done|done].
  - change (Z.max 0 (StreamVersion_EMPTY - 1)) with (Z.of_nat 0). apply wp_io_bind.
    eapply wp_conseq; [|apply (wp_read_whole_from id w1 0); lia].
    intros [rs|e|] w' Hg'; cbn [gives]; [|intros [-> He]; split; [done|]..].
    2,3: rewrite He in Hp1; by apply prefix_nil_inv in Hp1.
    intros (d & l & i & [Hp Hr] & Hpl & Hb & ->). apply wp_lift. rewrite drop_0.
    rewrite (fold_whole _ _ l i Hr Hb). cbn.
    exists d, l. pose proof (recorded_id _ _ _ _ _ Hr) as Hid. split_and!; [|done|by trans (stream w1 id)].
    constructor; cbn; [by rewrite Hid|done|done].
Qed.

(** ** Appending *)

(** The loop over the facts succeeds when their events apply, and keeps what the
    store and the fold look at. *)
Lemma complete_facts_applies fs corr trace caus i i' :
  apply_all i (fact_event <$> fs) = Ok i' →
  ∃ fs', complete_facts corr trace caus i fs
           = Ok (fs', i', match fact_event_id <$> last fs with Some h => Some h | None => caus end) ∧
    fact_event <$> fs' = fact_event <$> fs ∧ fact_event_id <$> fs' = fact_event_id <$> fs ∧
    fact_ceremony_id <$> fs' = fact_ceremony_id <$> fs.
Proof using.
  revert corr caus i. induction fs as [|f fs IH]; intros corr caus i Ha.
  { injection Ha as <-. by exists []. }
  rewrite fmap_cons in Ha. cbn [apply_all] in Ha. apply bind_Ok in Ha as (i1 & Hi1 & Ha).
  destruct (IH (Some (default (fact_event_id f) corr)) (Some (fact_event_id f)) i1 Ha)
    as (fs' & Hc & He & Hid & Hcid).
  cbn [complete_facts]. rewrite Hi1. cbn [mbind result_bind]. rewrite Hc. cbn [mbind result_bind].
  eexists. split_and!.
  - do 2 f_equal. rewrite last_cons. by destruct (last fs).
  - by rewrite !fmap_cons, He.
  - by rewrite !fmap_cons, Hid.
  - by rewrite !fmap_cons, Hcid.
Qed.

(** The installed service of the stream may read but is in order otherwise. *)
Definition authorizer_ok (st : SessionStream) : Prop :=
  ∀ authorize, append_authorization st = Some authorize →
  ∀ id v fs op w, wp (authorize id v fs op) w (gives (λ _ _, True) (λ _, True)).

Lemma wp_stream_append st t id v fs w (Q : AppendOutcome → World → Prop) :
  authorizer_ok st →
  (∀ fs' auth w1, fact_event <$> fs' = fact_event <$> fs → fact_event_id <$> fs' = fact_event_id <$> fs →
     grows w w1 → wp (call (OpAppend id v fs' auth)) w1 (gives Q (λ _, True))) →
  wp (stream_append st t id v fs) w (gives Q (λ _, True)).
Proof using.
  intros Hst HQ. unfold stream_append. apply wp_lift_bind.
  destruct (active_authorization _ _) as [[op|]|e|]; cbn [gives]; [| |done|done].
  - apply wp_io_bind.
    assert (wp (match append_authorization st with
                | Some authorize => authorize id v fs op
                | None => mret (M := io) op
                end) w (gives (λ _ _, True) (λ _, True))) as Hop.
    { destruct (append_authorization st) as [authorize|] eqn:Ha; [by apply (Hst _ Ha)|done]. }
    eapply wp_conseq; [|exact Hop]. intros [op'|e|] w1 Hg _; cbn [gives]; [|done|done].
    apply HQ; [| |done]; (rewrite <-list_fmap_compose; by apply list_fmap_ext).
  - apply HQ; [done|done|reflexivity].
Qed.
(** An append that lands only behind [l] and continues it. *)
Lemma wp_append id v fs auth w d l i (P : list AuditRecord → Prop) :
  (∀ w1 rs, grows w w1 → world_ok ports w1 → fits w1 → version_of (stream w1 id) = v →
     seal_continuation id (stream w1 id) fs auth = Ok rs →
     stream w1 id = l ∧ recorded ports d id (l ++ rs) i ∧ backed w1 (journal_events (l ++ rs)) ∧ P rs) →
  wp (call (OpAppend id v fs auth)) w
    (gives (λ o w', (∃ e a, o = AppendConflict e a) ∨
              ∃ rs p, o = Appended (Z.of_nat (length (l ++ rs))) rs p ∧ P rs ∧
                cut ports w' d id (l ++ rs) i ∧ Forall (durable w') (positioned o)) (λ _, True)).
Proof using.
  intros H w1 Hg Hw Hf. cbn [run_op].
  destruct (append_with_authorization (w_store w1) id v fs auth) as [answer s'] eqn:Ha.
  apply append_cases in Ha as [[-> Ha]|(rs & -> & -> & Hv & Hs)]; cbn [fst snd]; intros Hf2.
  - assert (w1 <| w_store := w_store w1 |> = w1) as -> by (by destruct w1).
    split_and!; [done|reflexivity|]. destruct Ha as [[e ->]|[->|(a & -> & _)]]; cbn; [done|done|].
    left. eauto.
  - destruct (H w1 rs Hg Hw Hf Hv Hs) as (Hl & Hr & Hk & HP). rewrite <-Hl in Hr, Hk.
    pose proof (world_ok_landed ports w1 id rs d i Hw Hr Hk Hf2) as Hw2.
    pose proof (landed_durable ports w1 id rs d i Hw Hr Hk Hf2) as Hd.
    pose proof (stream_fits ports _ id Hw2 Hf2) as Hb. unfold stream in Hb, Hr, Hl.
    cbn [w_store set_field] in Hb. rewrite landed_stream in Hb.
    split_and!; [done|apply landed_grows|]. cbn. right. exists rs, (next_position (w_store w1)).
    rewrite Hl in *. split_and!; [|done| |exact Hd].
    + rewrite (sealed_version _ _ (recorded_sealed _ _ _ _ _ Hr)); [done|lia].
    + split; [|done]. unfold stream. cbn [w_store set_field]. by rewrite landed_stream, Hl.
Qed.

(** What follows an append: the snapshot, and the subscriber is told. *)
Lemma wp_after_append {A} w d id l i o (k : io A) Q E :
  instance_id i = id → cut ports w d id l i → Forall (durable w) (positioned o) →
  (∀ w', grows w w' → wp k w' (gives Q E)) →
  wp (_ ← stream_snapshot i (Z.of_nat (length l)); _ ← stream_observe o; k) w (gives Q E).
Proof using.
  intros <- Hc Ho Hk. apply wp_io_bind. intros w1 Hg1 Hw1 Hf1 Hf1'.
  pose proof (world_ok_saved ports w1 d l i Hw1 (cut_grows _ _ _ _ _ _ _ Hg1 Hc)) as Hw2.
  set (w2 := w1 <| w_store := (store_save (w_store w1) (MkCeremonySnapshot (Z.of_nat (length l)) i)).2 |>) in *.
  assert (grows w1 w2) as Hg2 by (constructor; reflexivity).
  split_and!; [exact Hw2|exact Hg2|]. cbn [wp mret io_ret gives]. change (run_op _ w1).2 with w2.
  apply wp_io_bind. unfold stream_observe, tell. intros w3 Hg3 Hw3 Hf3 Hf3'. cbn [run_op fst snd].
  assert (grows w w3) as Hg by (trans w1; [done|by trans w2]).
  set (w4 := w3 <| w_observed := w_observed w3 ++ positioned o |>).
  assert (grows w3 w4) as Hg4 by (constructor; reflexivity).
  split_and!; [|exact Hg4|].
  - apply world_ok_told; [done|]. eapply Forall_impl; [exact Ho|]. intros pr. by apply durable_grows.
  - cbn [wp gives]. apply Hk. by trans w3.
Qed.

Lemma head_of_app l rs (fs : list AuditFact) :
  fs ≠ [] → ar_event_id <$> rs = fact_event_id <$> fs → head_of (l ++ rs) = fact_event_id <$> last fs.
Proof using.
  intros Hne Hid. destruct fs as [|f fs _] using rev_ind; [done|].
  destruct rs as [|r rs _] using rev_ind.
  { apply (f_equal length) in Hid. rewrite !length_fmap, length_app in Hid. cbn in Hid. lia. }
  rewrite !fmap_app in Hid. cbn in Hid. apply app_inj_2 in Hid as [_ [= Hid]]; [|done].
  unfold head_of. rewrite app_assoc, !last_snoc. cbn. by rewrite Hid.
Qed.

(** ** Committing *)

Lemma wp_commit st t trace w d s l fs i' :
  authorizer_ok st → session_at w d s l → fs ≠ [] →
  continues d (ls_instance s) (fact_event <$> fs) i' →
  Forall (event_backed w (instance_id (ls_instance s))) (fact_event <$> fs) →
  wp (commit st t trace s fs) w
    (gives (λ s' w', ls_instance s' = i' ∧
              ∃ rs, session_at w' d s' (l ++ rs) ∧ journal_events rs = fact_event <$> fs) (λ _, True)).
Proof using.
  intros Hst Hs Hne Hc Hback. pose proof Hs as [Hcut Hver Hhead]. unfold commit. apply wp_lift_bind.
  destruct (opening_event_id _) as [corr|e|]; cbn [gives]; [|done|done]. apply wp_lift_bind.
  destruct (complete_facts_applies fs (Some corr) trace (ls_head s) _ _ (proj1 Hc))
    as (fs' & -> & He & Hid & _). cbn [gives].
  assert (instance_id i' = instance_id (ls_instance s)) as Hi
    by (destruct Hc as (_ & [= -> _ _ _ _ _ _ _ _] & _); done).
  rewrite Hi, Hver. apply wp_io_bind. apply wp_stream_append; [done|].
  intros fs2 auth w1 He2 Hid2 Hg1. eapply wp_conseq; cycle 1.
  { apply (wp_append _ _ _ _ _ d l i' (λ rs, journal_events rs = fact_event <$> fs ∧
        ar_event_id <$> rs = fact_event_id <$> fs)).
    intros w2 rs Hg2 Hw2 Hf2 Hv Hseal. destruct Hcut as [Hp Hr].
    assert (stream w2 (instance_id (ls_instance s)) = l) as Heq.
    { rewrite (version_stream ports _ _ Hw2 Hf2) in Hv. symmetry.
      apply prefix_length_eq; [|lia]. trans (stream w1 (instance_id (ls_instance s))); [|apply Hg2].
      by trans (stream w (instance_id (ls_instance s))); [|apply Hg1]. }
    rewrite Heq in Hseal. assert (continues d (ls_instance s) (fact_event <$> fs2) i') as Hc2
      by (by rewrite He2, He).
    destruct (recorded_continues ports _ _ _ _ _ _ _ _ Hr Hc2 Hseal) as [Hr' Hje].
    split_and!; [done|done| |by rewrite Hje, He2, He|].
    { pose proof (ok_backed _ _ Hw2 (instance_id (ls_instance s))) as Hb. rewrite Heq in Hb.
      destruct (session_opens _ _ _ (recorded_session _ _ _ _ _ Hr)) as (started & rest & He').
      rewrite journal_events_app, He' in *. apply backed_app; [|done].
      rewrite (stream_opening _ _ _ _ _ _ Hr He'), Hje, He2, He. eapply Forall_impl; [exact Hback|].
      intros e. apply event_backed_grows. by trans w1. }
    apply seal_continuation_Ok in Hseal as (_ & _ & Hseal & _).
    destruct (last l) as [p|] eqn:Hl;
      [|apply last_None in Hl as ->; by destruct (sealed_ne _ _ (recorded_sealed _ _ _ _ _ Hr))].
    destruct (seal_facts_sealed _ _ _ _ _ _ (recorded_sealed _ _ _ _ _ Hr) Hl Hseal) as (_ & -> & _).
    by rewrite Hid2, Hid. }
  intros [o|e|] w2 Hg2; cbn [gives]; [|done|done].
  intros [(e & a & ->)|(rs & p & -> & (Hje & Hids) & Hcut' & Hd)]; [done|].
  cbn [appended_version default from_option Datatypes.id].
  apply (wp_after_append _ d (instance_id (ls_instance s)) (l ++ rs)); [done|done|done|].
  intros w3 Hg3. apply wp_mret. cbn [ls_instance]. split; [done|]. exists rs. split; [|done].
  constructor; cbn; [rewrite Hi; by eapply cut_grows|done|].
  rewrite (head_of_app l rs fs Hne Hids). by destruct fs as [|f fs0 _] using rev_ind; [|rewrite last_snoc].
Qed.
(** ** Opening *)

Lemma facts_events i es actor at_ fs :
  facts i es actor at_ = Ok fs → fact_event <$> fs = es.
Proof using.
  revert fs. unfold facts. induction es as [|e es IH]; intros fs H; [by injection H as <-|].
  cbn [try_map] in H. apply bind_Ok in H as (f & Hf & (fs' & Hfs & [= <-])%bind_Ok).
  unfold fact in Hf. apply bind_Ok in Hf as (id & _ & [= <-]). by rewrite fmap_cons, (IH _ Hfs).
Qed.

Lemma wp_open st t w d es i actor at_ :
  authorizer_ok st → session d es i → resolve_definition ports i = Ok d → backed w es →
  wp (open st t es actor at_) w
    (gives (λ s w', ls_instance s = i ∧ ∃ l, session_at w' d s l ∧ journal_events l = es) (λ _, True)).
Proof using.
  intros Hst Hsess Hres Hback. destruct (session_opens _ _ _ Hsess) as (started & rest & Hes).
  pose proof (session_replays _ _ _ Hsess) as R. rewrite Hes in R. cbn in R.
  apply fold_tail_applies in R. unfold open. rewrite Hes. apply wp_lift_bind.
  destruct (facts _ _ _ _) as [fs|e|] eqn:Hfs; cbn [gives]; [|done|done].
  apply facts_events in Hfs. rewrite <-Hes in Hfs. apply wp_lift_bind.
  assert (apply_all (from_started started) (fact_event <$> fs) = Ok i) as Ha by (by rewrite Hfs, Hes).
  destruct (complete_facts_applies fs None (task_trace t 0) None _ _ Ha) as (fs' & -> & He & Hid & _).
  cbn [gives]. apply wp_io_bind. apply wp_stream_append; [done|].
  intros fs2 auth w1 He2 Hid2 Hg1. eapply wp_conseq; cycle 1.
  { apply (wp_append _ _ _ _ _ d [] i (λ rs, journal_events rs = es ∧
        ar_event_id <$> rs = fact_event_id <$> fs)).
    intros w2 rs Hg2 Hw2 Hf2 Hv Hseal. rewrite (version_stream ports _ _ Hw2 Hf2) in Hv.
    assert (stream w2 (instance_id i) = []) as Heq
      by (apply length_zero_iff_nil; unfold StreamVersion_EMPTY in Hv; lia).
    rewrite Heq in Hseal. split; [done|]. cbn [app].
    destruct (recorded_opens ports d (instance_id i) fs2 auth rs i) as [Hr Hje]; try done.
    { by rewrite He2, He, Hfs. }
    apply seal_continuation_Ok in Hseal as (Hne & _ & Hseal & _).
    destruct (seal_facts_opens _ _ _ Hne Hseal) as (_ & Hids & _).
    split_and!; [done| |by rewrite Hje, He2, He, Hfs|by rewrite Hids, Hid2, Hid].
    rewrite Hje, He2, He, Hfs. apply (backed_grows w); [by trans w1|done]. }
  intros [o|e|] w2 Hg2; cbn [gives]; [|done|done].
  intros [(e & a & ->)|(rs & p & -> & (Hje & Hids) & Hcut' & Hd)]; [done|].
  cbn [appended_version default from_option Datatypes.id].
  apply (wp_after_append _ d (instance_id i) ([] ++ rs)); [done|done|done|].
  intros w3 Hg3. apply wp_mret. cbn [ls_instance]. split; [done|]. exists rs. split; [|congruence].
  assert (fs ≠ []) as Hne by (intros ->; by rewrite Hes in Hfs).
  constructor; cbn; [by eapply cut_grows|done|].
  rewrite <-(app_nil_l rs), (head_of_app [] rs fs Hne Hids).
  by destruct fs as [|f fs0 _] using rev_ind; [|rewrite last_snoc].
Qed.

(** ** Deciding and committing *)

(** A closure that decides for the ceremony [id], whose definition is [d]: what it
    hands over continues the session, and what it says of other streams is true of
    them in [w]. *)
Definition decides (w : World) (id : CeremonyId) (d : CeremonyDefinition)
    (D : LoadedSession → outcome (list AuditFact)) : Prop :=
  ∀ s fs, instance_id (ls_instance s) = id → D s = Ok fs →
    (∃ i', continues d (ls_instance s) (fact_event <$> fs) i') ∧
    Forall (event_backed w id) (fact_event <$> fs).

Lemma decides_grows w w' id d D : grows w w' → decides w id d D → decides w' id d D.
Proof using.
  intros Hg HD s fs Hid Hfs. destruct (HD s fs Hid Hfs) as [Hc Hb]. split; [done|].
  eapply Forall_impl; [exact Hb|]. intros e. by apply event_backed_grows.
Qed.

(** [settled w d D s l]: [s], at the cut [l], is what deciding [D] against the
    session at some cut came to: the facts of the decision are the records that
    follow that cut, and when there are none the session is the one decided
    against. *)
Definition settled (w : World) (d : CeremonyDefinition) (D : LoadedSession → outcome (list AuditFact))
    (s : LoadedSession) : Prop :=
  ∃ s0 l0 fs, D s0 = Ok fs ∧ session_at w d s0 l0 ∧
    instance_id (ls_instance s) = instance_id (ls_instance s0) ∧
    apply_all (ls_instance s0) (fact_event <$> fs) = Ok (ls_instance s) ∧
    ∃ rs, session_at w d s (l0 ++ rs) ∧ journal_events rs = fact_event <$> fs.

Lemma settled_grows w w' d D s : grows w w' → settled w d D s → settled w' d D s.
Proof using.
  intros Hg (s0 & l0 & fs & HD & Hs0 & Hid & Ha & rs & Hs & Hje).
  exists s0, l0, fs. split_and!; [done|by eapply session_at_grows|done|done|].
  exists rs. split; [by eapply session_at_grows|done].
Qed.

Lemma session_at_same w d d' s s' l l' :
  session_at w d s l → session_at w d' s' l' →
  instance_id (ls_instance s) = instance_id (ls_instance s') → d = d'.
Proof using.
  intros [[Hp Hr] _ _] [[Hp' Hr'] _ _] Hid. rewrite <-Hid in Hp'.
  destruct (prefix_weak_total l l' _ Hp Hp') as [H|H].
  - by destruct (recorded_same ports _ _ _ _ _ _ _ _ H Hr Hr') as (-> & _).
  - by destruct (recorded_same ports _ _ _ _ _ _ _ _ H Hr' Hr) as (-> & _).
Qed.

Lemma wp_execute_loop st t retries id D w d s l :
  authorizer_ok st → decides w id d D → session_at w d s l → instance_id (ls_instance s) = id →
  wp (execute_loop st t retries id D s) w
    (gives (λ s' w', instance_id (ls_instance s') = id ∧ settled w' d D s') (λ _, True)).
Proof using.
  intros Hst. revert w s l. induction retries as [|retries IH]; intros w s l HD Hs Hid;
    cbn [execute_loop]; apply wp_lift_bind;
    (destruct (D s) as [fs|e|] eqn:Hfs; cbn [gives]; [|done|done]);
    destruct (HD s fs Hid Hfs) as [[i' Hc] Hback].
  all: destruct (Nat.eqb_spec (length fs) 0) as [Hz|Hnz];
    [apply length_zero_iff_nil in Hz as ->; apply wp_mret; split; [done|]; exists s, l, [];
     split_and!; [done|done|done|done|]; exists []; rewrite app_nil_r; done|].
  all: assert (fs ≠ []) as Hne by (by intros ->).
  all: apply wp_bind; eapply wp_conseq; [|apply (wp_commit st t _ w d s l fs i'); [done..|by rewrite Hid]].
  all: assert (∀ s' w', grows w w' → (ls_instance s' = i' ∧ ∃ rs, session_at w' d s' (l ++ rs) ∧
      journal_events rs = fact_event <$> fs) →
      instance_id (ls_instance s') = id ∧ settled w' d D s') as Hdone
    by (intros s' w' Hg [<- (rs & Hs' & Hje)];
        pose proof Hc as (Ha & [= Hi _ _ _ _ _ _ _ _] & _);
        split; [congruence|]; exists s, l, fs;
        split_and!; [done|by eapply session_at_grows|done|done|eauto]).
  - intros [s'|[]|] w' Hg H; cbn; try done; by apply Hdone.
  - intros [s'|e|] w' Hg H; [by apply Hdone| |done].
    destruct e; try done. apply wp_io_bind. eapply wp_conseq; [|apply wp_load].
    intros [s2|e|] w2 Hg2; cbn [gives]; [|done|done]. intros (d2 & l2 & Hs2 & Hid2 & _).
    assert (d = d2) as <-.
    { eapply (session_at_same w2 d d2 s s2 l l2); [|done|congruence].
      eapply session_at_grows; [|done]. by trans w'. }
    apply (IH w2 s2 l2); [|done|done]. eapply decides_grows; [|exact HD]. by trans w'.
Qed.

Lemma wp_stream_execute st t policy D w d s l :
  authorizer_ok st → decides w (instance_id (ls_instance s)) d D → session_at w d s l →
  wp (stream_execute st t s policy D) w
    (gives (λ s' w', instance_id (ls_instance s') = instance_id (ls_instance s) ∧ settled w' d D s')
       (λ _, True)).
Proof using. intros. by eapply wp_execute_loop. Qed.
End logic.
