(* ===== verification/Concurrency.v ===== *)
(** * Any number of callers, one store

    The guarantees of the services as their callers have them: whatever use cases
    run at the same time, in whatever order their calls reach the store, every
    stream is the journal of one session and every answer is that session at a
    cut of its stream; no decision is lost or lands on a session it was not made
    against; and loading a session that exists succeeds and is up to date. *)

From S2P Require Import Prelude Errors Text Values Steps Definitions Interventions Instance.
From S2P Require Import Authorization AuditLog Fold Rules Decide DecideTable DecideLineage Engine.
From S2P Require Import EventStore SessionStream UseCases.
From S2P Require Import Scenario Sessions Machine Journal Tamper Streams Interleaving.

(** What the services rely on of the ports: a definition is found again under its
    own name and version, as a publication is, and has a digest. *)
Class PortsLaws (ports : Ports) : Prop := {
  get_keyed : ∀ name version d, definitions_get ports name version = Ok d →
    definitions_get ports (def_name d) (def_version d) = Ok d;
  get_digest : ∀ name version d, definitions_get ports name version = Ok d →
    ∃ digest, definition_digest ports d = Ok digest;
  published_keyed : ∀ name version p, publications_published ports name version = Ok (Some p) →
    publications_published ports (def_name (pub_definition p)) (def_version (pub_definition p))
      = Ok (Some p);
}.

(** Callers: the world and what each of them has left to do. *)
Record System (A : Type) := MkSystem { sys_world : World; sys_clients : list (prog A) }.
Arguments MkSystem {A} _ _.
Arguments sys_world {A} _.
Arguments sys_clients {A} _.

Section system.
Context {Hsha : Sha256} {Hclk : Clock} {Hser : EvidenceSerde} {Haud : AuditSerde}.

(** One caller makes its next call; the log stays a vector in memory. *)
Inductive sys_step {A} : System A → System A → Prop :=
| client_calls {B} w clients n (op : StoreOp B) (k : B → prog A) :
    clients !! n = Some (Vis op k) → fits (run_op op w).2 →
    sys_step (MkSystem w clients)
      (MkSystem (run_op op w).2 (<[n := k (run_op op w).1]> clients)).

Context (ports : Ports).

(** Every caller is in order and on its way to its answer. *)
Record sys_ok {A} (Q : nat → A → World → Prop) (S : System A) : Prop := MkSysOk {
  sys_world_ok : world_ok ports (sys_world S);
  sys_fits : fits (sys_world S);
  sys_clients_ok : ∀ n p, sys_clients S !! n = Some p → wp ports p (sys_world S) (Q n);
}.

Definition stable {A} (Q : nat → A → World → Prop) : Prop :=
  ∀ n a w w', grows w w' → Q n a w → Q n a w'.

Lemma sys_step_ok {A} (Q : nat → A → World → Prop) S S' :
  stable Q → sys_step S S' → sys_ok Q S → sys_ok Q S' ∧ grows (sys_world S) (sys_world S').
Proof using.
  intros HQ [B w clients n op k Hn Hf2] [Hw Hf Hc]. cbn in *.
  destruct (Hc n _ Hn w ltac:(reflexivity) Hw Hf Hf2) as (Hw2 & Hg & Hk). split; [|done].
  constructor; cbn; [done|done|]. intros m p Hm.
  apply list_lookup_insert_Some in Hm as [(-> & <- & _)|(_ & Hm)]; [done|].
  eapply wp_grows; [intros a w1 w2; apply HQ|done|]. by apply Hc.
Qed.

Lemma sys_steps_ok {A} (Q : nat → A → World → Prop) S S' :
  stable Q → rtc sys_step S S' → sys_ok Q S → sys_ok Q S' ∧ grows (sys_world S) (sys_world S').
Proof using.
  intros HQ Hr. induction Hr as [S|S1 S2 S3 H12 _ IH]; intros HS; [split; [done|reflexivity]|].
  destruct (sys_step_ok Q S1 S2 HQ H12 HS) as [HS2 Hg]. destruct (IH HS2) as [HS3 Hg'].
  split; [done|]. by trans (sys_world S2).
Qed.

(** ** What use cases decide *)

Lemma decide_continues d i command es :
  command_valid command = true → decide i command d = Ok es → ∃ i', continues d i es i'.
Proof using.
  intros Hv Hd. destruct (decide_applies _ _ _ _ Hd) as [i' Ha]. exists i'. split_and!; [done| |].
  - apply apply_all_identity in Ha; [done|]. by eapply decide_no_import.
  - intros es0 Hs. by eapply session_decides.
Qed.

Lemma continues_app d i es i1 es' i2 :
  continues d i es i1 → continues d i1 es' i2 → continues d i (es ++ es') i2.
Proof using.
  intros (Ha & Hi & Hs) (Ha' & Hi' & Hs'). split_and!.
  - rewrite apply_all_app, Ha. done.
  - congruence.
  - intros es0 H0. rewrite app_assoc. by apply Hs', Hs.
Qed.

(** A command that reports on another stream reports what is there. *)
Definition command_backed (w : World) (id : CeremonyId) (c : CeremonyCommand) : Prop :=
  match c with CmdAcceptChildCompletion completion _ => completed_in w id completion | _ => True end.

Lemma decide_backed w id i c d es :
  decide i c d = Ok es → command_backed w id c → Forall (event_backed w id) es.
Proof using.
  intros Hd Hc. apply Forall_forall. intros e He. destruct e; try done. cbn.
  pose proof (proj1 (all_true _ _) (decide_emits _ _ _ _ Hd) _ He) as Hem.
  destruct c; try done. cbn [decide] in Hd. unfold decide_accept_child_completion in Hd.
  apply bind_Ok in Hd as (_ & _ & Hd). apply bind_Ok in Hd as (group & _ & Hd).
  apply bind_Ok in Hd as (_ & _ & Hd). destruct (cg_completions group !! _) as [existing|].
  - destruct (_ == _); [|done]. injection Hd as <-. by apply not_elem_of_nil in He.
  - injection Hd as <-. apply list_elem_of_singleton in He. injection He as -> ->. exact Hc.
Qed.

(** A decided batch is what a closure may hand over. *)
Lemma decided_facts w id d s command es fs actor now :
  decide (ls_instance s) command d = Ok es → facts (ls_instance s) es actor now = Ok fs →
  command_valid command = true → command_backed w id command →
  (∃ i', continues d (ls_instance s) (fact_event <$> fs) i') ∧ Forall (event_backed w id) (fact_event <$> fs).
Proof using.
  intros Hd Hf%facts_events Hv Hb. rewrite Hf. split; [by eapply decide_continues|by eapply decide_backed].
Qed.

Lemma no_facts w id d s :
  (∃ i', continues d (ls_instance s) (fact_event <$> []) i') ∧ Forall (event_backed w id) (fact_event <$> []).
Proof using.
  split; [|constructor]. exists (ls_instance s). split_and!; [done|done|]. intros es0. by rewrite app_nil_r.
Qed.

Lemma decides_decided w id d command actor now :
  command_valid command = true → command_backed w id command →
  decides w id d (decided d command actor now).
Proof using. intros Hv Hb s fs _ (es & Hd & Hf)%bind_Ok. by eapply decided_facts. Qed.

Lemma decides_started w id d command kind now :
  command_valid command = true → command_backed w id command →
  decides w id d (λ s, events ← decide (ls_instance s) command d;
                       actor ← step_started_seat events kind; facts (ls_instance s) events actor now).
Proof using. intros Hv Hb s fs _ (es & Hd & (actor & _ & Hf)%bind_Ok)%bind_Ok. by eapply decided_facts. Qed.

Lemma decides_result w id d command kind now :
  command_valid command = true → command_backed w id command →
  decides w id d (λ s, events ← decide (ls_instance s) command d;
                       if Nat.eqb (length events) 0 then Ok [] else
                       actor ← step_result_seat events kind; facts (ls_instance s) events actor now).
Proof using.
  intros Hv Hb s fs _ (es & Hd & Hf)%bind_Ok. destruct (Nat.eqb _ _).
  - injection Hf as <-. apply no_facts.
  - apply bind_Ok in Hf as (actor & _ & Hf). by eapply decided_facts.
Qed.

Lemma decide_seats_continues w id d i commands es :
  Forall (λ c, command_valid c = true ∧ command_backed w id c) commands →
  decide_seats d i commands = Ok es →
  (∃ i', continues d i es i') ∧ Forall (event_backed w id) es.
Proof using.
  intros Hv. revert i es. induction Hv as [|c cs [Hc Hb] _ IH]; intros i es H.
  { injection H as <-. apply (no_facts w id d (MkLoadedSession i 0 None)). }
  cbn [decide_seats] in H. apply bind_Ok in H as (es1 & Hd & (i1 & Ha & (es2 & H2 & [= <-])%bind_Ok)%bind_Ok).
  destruct (decide_continues d i c es1 Hc Hd) as [i1' H1].
  assert (i1' = i1) as -> by (destruct H1; congruence).
  destruct (IH i1 es2 H2) as [[i2 Hi2] Hbs]. split; [exists i2; by eapply continues_app|].
  apply Forall_app. split; [by eapply decide_backed|done].
Qed.

Lemma decides_seats w id d commands actor now :
  Forall (λ c, command_valid c = true ∧ command_backed w id c) commands →
  decides w id d (λ s, events ← decide_seats d (ls_instance s) commands;
                       facts (ls_instance s) events actor now).
Proof using.
  intros Hv s fs _ (es & Hd & Hf%facts_events)%bind_Ok. rewrite Hf. by eapply decide_seats_continues.
Qed.
(** ** What use cases answer *)

(** The answer is the fold of the stream up to some record. *)
Definition answered (w : World) (id : CeremonyId) (i : CeremonyInstance) : Prop :=
  ∃ n s, (n ≤ length (stream w id))%nat ∧ fold_records (take n (stream w id)) = Ok s ∧ ls_instance s = i.

Definition answers (id : CeremonyId) : outcome CeremonyInstance → World → Prop :=
  gives (λ i w, answered w id i) (λ _, True).

Lemma answered_prefix w id l n s :
  l `prefix_of` stream w id → fold_records (take n l) = Ok s → answered w id (ls_instance s).
Proof using.
  intros [k Hk] Hs. exists (n `min` length l)%nat, s. rewrite Hk, length_app.
  split_and!; [lia| |done]. rewrite take_app_le by lia.
  by rewrite <-firstn_firstn, firstn_all.
Qed.

Lemma answered_grows w w' id i : grows w w' → answered w id i → answered w' id i.
Proof using.
  intros Hg (n & s & _ & Hs & <-). by eapply answered_prefix; [apply Hg|].
Qed.

Lemma fold_each_applies l es v h i i' :
  ar_event <$> l = Some <$> es → apply_all i es = Ok i' →
  ∃ v' h', fold_each (Some i) v h l = Ok (Some i', v', h').
Proof using.
  revert es v h i. induction l as [|r l IH]; intros [|e es] v h i He Ha; try done.
  { injection Ha as <-. by exists v, h. }
  rewrite !fmap_cons in He. injection He as Hr He. cbn [fold_each apply_all] in *.
  apply bind_Ok in Ha as (i1 & Hi1 & Ha). rewrite (foldable_sealed _ _ Hr).
  cbn [mbind result_bind fold_event]. rewrite Hi1. cbn [mbind result_bind]. by eapply IH.
Qed.

Lemma recorded_folds d id l i :
  recorded ports d id l i → ∃ s, fold_records l = Ok s ∧ ls_instance s = i.
Proof using.
  intros Hr. pose proof (sealed_drop _ _ 0 (recorded_sealed _ _ _ _ _ Hr)) as Hev. rewrite drop_0 in Hev.
  pose proof (session_replays _ _ _ (recorded_session _ _ _ _ _ Hr)) as R.
  destruct (session_opens _ _ _ (recorded_session _ _ _ _ _ Hr)) as (st & rest & He). rewrite He in *.
  destruct l as [|r l]; [done|]. rewrite !fmap_cons in Hev. injection Hev as Hr0 Hev.
  cbn in R. apply fold_tail_applies in R.
  unfold fold_records. cbn [fold_each]. rewrite (foldable_sealed _ _ Hr0). cbn [mbind result_bind fold_event].
  edestruct (fold_each_applies l rest) as (v' & h' & ->); [done|done|]. cbn. by eexists.
Qed.

Lemma cut_answered w d id l i : cut ports w d id l i → answered w id i.
Proof using.
  intros [Hp Hr]. destruct (recorded_folds _ _ _ _ Hr) as (s & Hs & <-).
  apply (answered_prefix w id l (length l) s Hp). by rewrite firstn_all.
Qed.

Lemma wp_lift_any {A B} (r : outcome A) (f : A → io B) w Q :
  (∀ a, r = Ok a → wp ports (f a) w (gives Q (λ _, True))) →
  wp ports (lift r ≫= f) w (gives Q (λ _, True)).
Proof using. intros H. apply wp_lift_bind. destruct r; [by apply H|done|done]. Qed.

(** Loading a session and resolving its definition. *)
Lemma wp_load_resolve {A} id w (k : LoadedSession → CeremonyDefinition → io A) Q :
  (∀ w' d s l, grows w w' → session_at ports w' d s l → instance_id (ls_instance s) = id →
     wp ports (k s d) w' (gives Q (λ _, True))) →
  wp ports (session ← load id; d ← lift (resolve_definition ports (ls_instance session)); k session d) w
    (gives Q (λ _, True)).
Proof using.
  intros Hk. apply wp_io_bind. eapply wp_conseq; [|apply wp_load].
  intros [s|e|] w' Hg; cbn [gives]; [|done|done]. intros (d & l & Hs & Hid & _).
  apply wp_lift_any. intros d' Hd. pose proof (at_cut _ _ _ _ _ Hs) as [_ Hr].
  rewrite (recorded_definition _ _ _ _ _ Hr) in Hd. injection Hd as <-. by eapply Hk.
Qed.

Lemma settled_answered w d D s :
  settled ports w d D s → answered w (instance_id (ls_instance s)) (ls_instance s).
Proof using. intros (s0 & l0 & fs & _ & _ & _ & _ & rs & Hs & _). by eapply cut_answered, at_cut. Qed.

Context (st : SessionStream) (Hst : authorizer_ok ports st).

Lemma wp_execute_then {A} t policy D w d s l (k : LoadedSession → io A) Q :
  decides w (instance_id (ls_instance s)) d D → session_at ports w d s l →
  (∀ s' w', grows w w' → instance_id (ls_instance s') = instance_id (ls_instance s) →
     settled ports w' d D s' → wp ports (k s') w' (gives Q (λ _, True))) →
  wp ports (session ← stream_execute st t s policy D; k session) w (gives Q (λ _, True)).
Proof using Hst.
  intros HD Hs Hk. apply wp_io_bind. eapply wp_conseq; [|by eapply wp_stream_execute].
  intros [s'|e|] w' Hg; cbn [gives]; [|done|done]. intros [Hid Hset]. by apply Hk.
Qed.

Lemma wp_execute_answers t policy D w d s l :
  decides w (instance_id (ls_instance s)) d D → session_at ports w d s l →
  wp ports (session ← stream_execute st t s policy D; mret (M := io) (ls_instance session)) w
    (answers (instance_id (ls_instance s))).
Proof using Hst.
  intros HD Hs. eapply wp_execute_then; [done|done|]. intros s' w' Hg <- Hset. apply wp_mret.
  by eapply settled_answered.
Qed.

(** A completion replayed from the records. *)
Lemma replay_from_folds t records step fence result kind d index rest i :
  replay_from t records step fence result kind d index rest = Ok (Some i) →
  ∃ n s, fold_records (take n records) = Ok s ∧ ls_instance s = i.
Proof using.
  revert index. induction rest as [|r rest IH]; intros index H; [done|]. cbn [replay_from] in H.
  apply bind_Ok in H as ([i'|] & Hat & H); [|by eapply IH]. injection H as ->.
  unfold replay_at in Hat. destruct (completion_of r) as [[[ended res] fin]|]; [|done].
  destruct (ended == step); cbn [negb] in Hat; [|done].
  apply bind_Ok in Hat as (before & _ & Hat). destruct (has_claim_fence _ _ _); cbn [negb] in Hat; [|done].
  apply bind_Ok in Hat as (_ & _ & Hat). apply bind_Ok in Hat as (_ & _ & Hat).
  apply bind_Ok in Hat as (expected & _ & Hat). apply bind_Ok in Hat as (_ & _ & Hat).
  apply bind_Ok in Hat as (s & Hs & [= <-]). eauto.
Qed.

Lemma wp_replay t id step fence result kind d w :
  wp ports (replay_step_completion t id step fence result kind d) w
    (gives (λ o w', ∀ i, o = Some i → answered w' id i) (λ _, True)).
Proof using.
  unfold replay_step_completion, stream_records. apply wp_io_bind.
  change StreamVersion_EMPTY with (Z.of_nat 0). eapply wp_conseq; [|apply wp_read_whole_from; lia].
  intros [records|e|] w' Hg; cbn [gives]; [|done|done].
  intros (d' & l & i & [Hp _] & _ & _ & ->). rewrite drop_0. apply wp_lift.
  destruct (replay_from _ _ _ _ _ _ _ _) as [o|e|] eqn:Ho; cbn; [|done|done]. intros j ->.
  apply replay_from_folds in Ho as (n & s & Hs & <-). by eapply answered_prefix.
Qed.
(** ** The use cases *)

(** [usecase id p]: [p] is a use case called for the session [id].  Step results
    are built by their constructors. *)
Inductive usecase : CeremonyId → io CeremonyInstance → Prop :=
| uc_start t id name version context actor kind now :
    usecase id (start_ceremony ports st t id name version context actor kind now)
| uc_start_published t id name version context actor kind now :
    usecase id (start_published_ceremony ports st t id name version context actor kind now)
| uc_start_step t id role kind step owner key ttl profile resolution ceiling now :
    usecase id (out ← start_ceremony_step ports st t id role kind step owner key ttl profile resolution
                        ceiling now; mret (sso_instance out))
| uc_complete_step t id step fence result kind now :
    StepResult_valid result = true →
    usecase id (complete_ceremony_step ports st t id step fence result kind now)
| uc_transition t id role kind trigger now :
    usecase id (apply_ceremony_transition ports st t id role kind trigger now)
| uc_approve t id guard role kind now :
    usecase id (approve_ceremony_guard ports st t id guard role kind now)
| uc_defer t id guard content role kind now :
    usecase id (defer_ceremony_guard ports st t id guard content role kind now)
| uc_bind t id seating actor kind now :
    usecase id (bind_ceremony_participants ports st t id seating actor kind now)
| uc_request t id intervention role role_kind kind target content provenance intent delivery
    supervisor now :
    usecase id (request_ceremony_intervention ports st t id intervention role role_kind kind target
                  content provenance intent delivery supervisor now)
| uc_close t id intervention role kind now :
    usecase id (close_ceremony_intervention ports st t id intervention role kind now)
| uc_reason t id role role_kind from to kind why confidence now :
    usecase id (assert_ceremony_reason ports st t id role role_kind from to kind why confidence now)
| uc_pause t id actor kind reason now : usecase id (pause_ceremony ports st t id actor kind reason now)
| uc_resume t id actor kind now : usecase id (resume_ceremony ports st t id actor kind now)
| uc_cancel t id actor kind reason now : usecase id (cancel_ceremony ports st t id actor kind reason now)
| uc_enforce t id now : usecase id (enforce_ceremony_deadlines ports st t id now).

Context {Hports : PortsLaws ports}.

Lemma opening_session id d context now bound lin account started rcl :
  opening id d context now bound lin account = Ok started →
  ∃ i, session d (opening_batch started rcl now) i ∧ identity i = identity (from_started started) ∧
    cis_ceremony_id started = id ∧ cis_definition_name started = def_name d ∧
    cis_definition_version started = def_version d ∧ cis_bound_definition started = bound ∧
    cis_lineage started = lin ∧ cis_context started = context ∧ cis_budget_account_id started = account ∧
    cis_succession started = None.
Proof using.
  intros Ho. destruct (apply_all_total (from_started started) (tail (opening_batch started rcl now)))
    as [i Hi].
  { intros e He. unfold opening_batch in He. cbn in He. destruct (option_keep _ _); [|by apply not_elem_of_nil in He].
    by apply list_elem_of_singleton in He as ->. }
  exists i. split; [by eapply session_started|]. split.
  - apply apply_all_identity in Hi; [done|]. unfold opening_batch. cbn. by destruct (option_keep _ _).
  - unfold opening in Ho. apply bind_Ok in Ho as (_ & _ & Ho). apply bind_Ok in Ho as (? & _ & Ho).
    apply bind_Ok in Ho as (? & _ & Ho). apply bind_Ok in Ho as (? & _ & [= <-]). done.
Qed.

(** An opening that descends from no other ceremony needs no plan. *)
Lemma opening_backed w id d context now bound budget started rcl :
  opening id d context now bound None budget = Ok started → backed w (opening_batch started rcl now).
Proof using.
  intros Ho. unfold opening in Ho. apply bind_Ok in Ho as (_ & _ & Ho). apply bind_Ok in Ho as (? & _ & Ho).
  apply bind_Ok in Ho as (? & _ & Ho). apply bind_Ok in Ho as (? & _ & [= <-]).
  split_and!; [done|done|]. unfold opening_batch. cbn. destruct (option_keep _ _); by repeat constructor.
Qed.

Lemma wp_open_answers t w d id es actor now i :
  session d es i → resolve_definition ports i = Ok d → instance_id i = id → backed w es →
  wp ports (session ← open st t es actor now; mret (M := io) (ls_instance session)) w (answers id).
Proof using Hst.
  intros Hs Hr <- Hb. apply wp_io_bind. eapply wp_conseq; [|by apply (wp_open ports st t w d es i)].
  intros [s|e|] w' Hg; cbn [gives]; [|done|done]. intros (<- & l & Hat & _). apply wp_mret.
  by eapply cut_answered, at_cut.
Qed.

Lemma wp_start t id name version context actor kind now w :
  wp ports (start_ceremony ports st t id name version context actor kind now) w (answers id).
Proof using Hst Hports.
  unfold start_ceremony. apply wp_lift_any. intros d Hd. apply wp_lift_any. intros a _.
  apply wp_lift_any. intros rcl _. apply wp_lift_any. intros es Hes. unfold decide_start in Hes.
  apply bind_Ok in Hes as (started & Ho & [= <-]).
  destruct (opening_session id d context now None None None started rcl Ho)
    as (i & Hs & [= Hid Hn Hv _ Hb _ _ _ _] & Hcid & Hcn & Hcv & Hcb & _). cbn in *.
  apply (wp_open_answers t w d id _ a now i Hs);
    [|congruence|by eapply opening_backed].
  unfold resolve_definition, resolve_definition_pinned. rewrite Hb, Hcb, Hn, Hv, Hcn, Hcv.
  rewrite (get_keyed _ _ _ Hd). cbn [mbind result_bind].
  destruct (get_digest _ _ _ Hd) as [digest ->]. done.
Qed.

Lemma wp_start_published t id name version context actor kind now w :
  wp ports (start_published_ceremony ports st t id name version context actor kind now) w (answers id).
Proof using Hst Hports.
  unfold start_published_ceremony. apply wp_lift_any. intros o Ho. apply wp_lift_any.
  intros p ->%ok_or_Ok. apply wp_lift_any. intros a _. apply wp_lift_any. intros rcl _.
  apply wp_lift_any. intros es Hes. unfold decide_start_bound in Hes.
  apply bind_Ok in Hes as (started & Hop & [= <-]).
  destruct (opening_session id (pub_definition p) context now (Some (pub_digest p)) None None started rcl Hop)
    as (i & Hs & [= Hid Hn Hv _ Hb _ _ _ _] & Hcid & Hcn & Hcv & Hcb & _). cbn in *.
  apply (wp_open_answers t w (pub_definition p) id _ a now i Hs);
    [|congruence|by eapply opening_backed].
  unfold resolve_definition, resolve_definition_pinned. rewrite Hb, Hcb, Hn, Hv, Hcn, Hcv.
  rewrite (published_keyed _ _ _ Ho). cbn [mbind result_bind ok_or]. by rewrite eqb_refl.
Qed.

Lemma wp_complete t id step fence result kind now w :
  StepResult_valid result = true →
  wp ports (complete_ceremony_step ports st t id step fence result kind now) w (answers id).
Proof using Hst.
  intros Hv. unfold complete_ceremony_step. apply wp_load_resolve. intros w1 d s l Hg1 Hs <-.
  set (id := instance_id (ls_instance s)). apply wp_io_bind. eapply (wp_conseq _ _ _
    (gives (λ o w', ∀ i, o = Some i → answered w' id i) (λ _, True))).
  2: { destruct (negb _); [apply wp_replay|]. cbn. done. }
  intros [[i|]|e|] w2 Hg2; cbn [gives]; [|intros _|done|done].
  { intros H. apply wp_mret. by apply H. }
  apply wp_bind. eapply wp_conseq; cycle 1.
  { eapply (wp_stream_execute ports st t ConflictPolicy_retry _ w2 d s l); [done| |].
    - by apply decides_result.
    - by eapply session_at_grows. }
  intros [s'|e|] w3 Hg3; cbn [gives]; [| |done].
  - intros [Hid Hset]. apply wp_lift. cbn. unfold id. rewrite <-Hid. by eapply settled_answered.
  - intros _. apply wp_io_bind. eapply wp_conseq; [|apply wp_replay].
    intros [o|e'|] w4 Hg4; cbn [gives]; [|done|done]. intros Ho. apply wp_lift.
    destruct o as [i|]; cbn; [by apply Ho|done].
Qed.

Lemma bind_commands_valid w id (entries : list (string * string)) now :
  Forall (λ c, command_valid c = true ∧ command_backed w id c)
    (List.map (λ '(role, specialty), CmdBindParticipant role specialty now) entries).
Proof using. induction entries as [|[r sp] l IH]; cbn; by constructor. Qed.

(** Every use case keeps the world in order and answers the session at a record
    of its stream, whatever else uses the store. *)
Lemma wp_usecase id p w : usecase id p → wp ports p w (answers id).
Proof using Hst Hports.
  intros []; [by apply wp_start|by apply wp_start_published| |by apply wp_complete|..].
  1: { apply wp_io_bind. eapply wp_conseq; cycle 1.
       { unfold start_ceremony_step. apply wp_load_resolve. intros w1 d s l Hg1 Hs Hid.
         apply wp_lift_any. intros lease _. eapply wp_execute_then; [by apply decides_started|done|].
         intros s' w2 Hg2 Hid' Hset. apply wp_lift_any. intros record _. apply wp_lift_any. intros fence _.
         apply (wp_mret _ _ _ (λ out w', answered w' id0 (sso_instance out))). cbn.
         rewrite <-Hid, <-Hid'. by eapply settled_answered. }
       intros [out|e|] w' Hg; cbn [gives]; done. }
  all: apply wp_load_resolve; intros w1 d s l Hg1 Hs <-;
    repeat (apply wp_lift_any; intros ? ?);
    (eapply wp_execute_answers;
      [first [by apply decides_decided|apply decides_seats, bind_commands_valid]|done]).
Qed.
Lemma use_cases_ok ids clients S :
  Forall2 usecase ids clients → rtc sys_step (MkSystem World_default clients) S →
  sys_ok (λ n r w, match ids !! n with Some id => answers id r w | None => True end) S.
Proof using Hst Hports.
  intros Hu Hrun. set (Q := λ n r w, match ids !! n with Some id => answers id r w | None => True end).
  assert (sys_ok Q (MkSystem World_default clients)) as Hok.
  { constructor; [apply world_default_ok|done|]. cbn. intros n p Hn. unfold Q.
    destruct (Forall2_lookup_r _ _ _ _ _ Hu Hn) as (id & -> & Huc). by eapply wp_usecase. }
  assert (stable Q) as HQ.
  { intros n r w1 w2 Hg. unfold Q. destruct (ids !! n); [|done]. unfold answers.
    destruct r; cbn; [by apply answered_grows|done|done]. }
  by destruct (sys_steps_ok Q _ _ HQ Hrun Hok) as [HS _].
Qed.

(** ** The programs that share a stream *)

(** What use cases do with a session: load it, resolve its definition, decide and
    append. *)
Definition drive (t : TaskScope) (id : CeremonyId) (policy : ConflictPolicy)
    (F : CeremonyDefinition → LoadedSession → outcome (list AuditFact)) : io LoadedSession :=
  session ← load id;
  d ← lift (resolve_definition ports (ls_instance session));
  stream_execute st t session policy (F d).

Definition reports_child (e : CeremonyEvent) : bool :=
  match e with EvChildCompletionAccepted _ _ => true | _ => false end.

(** An opening that says nothing of other ceremonies. *)
Definition opens_afresh (es : list CeremonyEvent) : Prop :=
  match es with
  | EvCeremonyInstanceStarted started :: rest =>
      cis_succession started = None ∧ cis_lineage started = None ∧ any reports_child rest = false
  | _ => True
  end.

Lemma afresh_backed w es : opens_afresh es → backed w es.
Proof using.
  destruct es as [|[] es]; try done. cbn. intros (-> & -> & Hno). split_and!; [done|done|].
  apply Forall_forall. intros e' He. rewrite any_false in Hno. specialize (Hno _ He). by destruct e'.
Qed.

(** The programs of the callers: loading, opening, deciding. *)
Inductive session_program (w : World) : io LoadedSession → Prop :=
| sp_load id : session_program w (load id)
| sp_open t d es i actor now :
    session d es i → resolve_definition ports i = Ok d → opens_afresh es →
    session_program w (open st t es actor now)
| sp_drive t id policy F : (∀ d, decides w id d (F d)) → session_program w (drive t id policy F).

Lemma wp_drive t id policy F w :
  (∀ d, decides w id d (F d)) →
  wp ports (drive t id policy F) w
    (gives (λ s w', instance_id (ls_instance s) = id ∧ ∃ d, settled ports w' d (F d) s) (λ _, True)).
Proof using Hst.
  intros HF. apply wp_load_resolve. intros w1 d s l Hg1 Hs <-.
  eapply wp_conseq; [|eapply (wp_stream_execute ports st t policy (F d) w1 d s l);
    [done|by eapply decides_grows|done]].
  intros [s'|e|] w2 Hg2; cbn [gives]; [|done|done]. intros [Hid Hset]. eauto.
Qed.

Lemma wp_session_program p w : session_program w p → wp ports p w (λ _ _, True).
Proof using Hst.
  intros [id|t d es i actor now Hs Hr Ha%(afresh_backed w)|t id policy F HF].
  - eapply wp_conseq; [|apply wp_load]. done.
  - eapply wp_conseq; [|by apply (wp_open ports st t w d es i)]. done.
  - eapply wp_conseq; [|by apply wp_drive]. done.
Qed.

(** One caller among others: what is proved of it alone holds of its answer. *)
Lemma one_of_many clients w S n p r (Q : outcome LoadedSession → World → Prop) :
  world_ok ports w → fits w → Forall (session_program w) clients → clients !! n = Some p →
  (∀ r w1 w2, grows w1 w2 → Q r w1 → Q r w2) → wp ports p w Q →
  rtc sys_step (MkSystem w clients) S → sys_clients S !! n = Some (Ret r) → Q r (sys_world S).
Proof using Hst.
  intros Hw Hf Hp Hn HQ Hwp Hrun Hr.
  set (Qs := λ m r w, if base.decide (m = n) then Q r w else True).
  assert (sys_ok Qs (MkSystem w clients)) as Hok.
  { constructor; [done|done|]. cbn. intros m p' Hm. unfold Qs.
    destruct (base.decide (m = n)) as [->|Hne]; [pose proof (eq_trans (eq_sym Hm) Hn) as [= ->]; exact Hwp|].
    apply wp_session_program. rewrite Forall_lookup in Hp. by eapply Hp. }
  apply (sys_steps_ok Qs) in Hrun as [HS _]; [| |done].
  - pose proof (sys_clients_ok _ _ HS n _ Hr) as H. cbn in H. unfold Qs in H.
    by destruct (base.decide (n = n)).
  - intros m a w1 w2 Hg. unfold Qs. destruct (base.decide (m = n)); [by apply HQ|done].
Qed.
End system.

(** ** Theorems *)

Section theorems.
Context {Hsha : Sha256} {Hclk : Clock} {Hser : EvidenceSerde} {Haud : AuditSerde}.
Context (ports : Ports) {Hports : PortsLaws ports} (st : SessionStream).

(** C5: whichever of the fifteen use cases of [usecase] run at the same time, from an
    empty store, in any number and any interleaving of their calls, and while the
    repository overwrites no definition, every stream verifies, its event identifiers
    are distinct, and its events are those of one session of the definition that
    session resolves to; and every session a use case answers with is the fold of
    its stream up to some record. *)
Theorem concurrent_use_cases_keep_sessions ids clients S :
  authorizer_ok ports st → Forall2 (usecase ports st) ids clients →
  rtc sys_step (MkSystem World_default clients) S →
  (∀ id l, es_streams (w_store (sys_world S)) !! id = Some l →
     verify l = Intact ∧ NoDup (ar_event_id <$> l) ∧
     ∃ d i, session d (journal_events l) i ∧ instance_id i = id ∧ resolve_definition ports i = Ok d) ∧
  (∀ n id i, ids !! n = Some id → sys_clients S !! n = Some (Ret (Ok i)) →
     answered (sys_world S) id i).
Proof using Hports.
  intros Hst Hu Hrun. pose proof (use_cases_ok ports st Hst ids clients S Hu Hrun) as HS. split.
  - intros id l Hl. destruct (ok_streams _ _ (sys_world_ok _ _ _ HS) id l Hl) as (d & i & Hr).
    split_and!; [by apply (sealed_verifies _ _ (recorded_sealed _ _ _ _ _ Hr))|apply Hr|].
    exists d, i. split_and!; apply Hr.
  - intros n id i Hid Hn. pose proof (sys_clients_ok _ _ _ HS n _ Hn) as H. cbn in H. by rewrite Hid in H.
Qed.

(** C6: no update is lost.  When a caller's command settles, among any number of
    others, the facts of its decision are in the stream directly behind the
    session they were decided against, and the session it is answered with is
    that session with their events applied. *)
Theorem no_update_is_lost w clients S n t id policy F s :
  authorizer_ok ports st → world_ok ports w → fits w →
  Forall (session_program ports st w) clients → clients !! n = Some (drive ports st t id policy F) →
  (∀ d, decides w id d (F d)) →
  rtc sys_step (MkSystem w clients) S → sys_clients S !! n = Some (Ret (Ok s)) →
  instance_id (ls_instance s) = id ∧
  ∃ d s0 l0 fs rs, F d s0 = Ok fs ∧ journal_events rs = fact_event <$> fs ∧
    (l0 ++ rs) `prefix_of` stream (sys_world S) id ∧
    session d (journal_events l0) (ls_instance s0) ∧
    ls_version s0 = Z.of_nat (length l0) ∧ ls_version s = Z.of_nat (length (l0 ++ rs)) ∧
    apply_all (ls_instance s0) (fact_event <$> fs) = Ok (ls_instance s).
Proof using.
  intros Hst Hw Hf Hp Hn HF Hrun Hs.
  unshelve epose proof (one_of_many ports st Hst clients w S n _ _ _ Hw Hf Hp Hn _
    (wp_drive ports st Hst t id policy F w HF) Hrun Hs) as H; cycle 1.
  - clear Hs. destruct H as (Hid & d & s0 & l0 & fs & HD & Hs0 & Hid0 & Ha & rs & Hs & Hje).
    split; [done|]. exists d, s0, l0, fs, rs. pose proof (at_cut _ _ _ _ _ Hs) as [Hpre _].
    split_and!; [done|done|by rewrite <-Hid| | | |done].
    + apply (at_cut _ _ _ _ _ Hs0).
    + apply Hs0.
    + apply Hs.
  - intros [s'|e|] w1 w2 Hg; cbn; [|done|done]. intros (? & d & Hset). split; [done|].
    exists d. by eapply settled_grows.
Qed.

(** C7: loading is up to date and never fails on a session that exists: whatever
    other callers do meanwhile, a caller that asks for a session whose stream is
    not empty gets the session at a cut that includes every record there was when
    it asked, and otherwise it is told the session does not exist. *)
Theorem load_is_up_to_date w clients S n id r :
  authorizer_ok ports st → world_ok ports w → fits w →
  Forall (session_program ports st w) clients → clients !! n = Some (load id) →
  rtc sys_step (MkSystem w clients) S → sys_clients S !! n = Some (Ret r) →
  (∃ s d l, r = Ok s ∧ instance_id (ls_instance s) = id ∧
     stream w id `prefix_of` l ∧ l `prefix_of` stream (sys_world S) id ∧
     session d (journal_events l) (ls_instance s) ∧ ls_version s = Z.of_nat (length l)) ∨
  (r = Err (NotFound "ceremony_instance") ∧ stream w id = []).
Proof using.
  intros Hst Hw Hf Hp Hn Hrun Hr.
  unshelve epose proof (one_of_many ports st Hst clients w S n _ _ _ Hw Hf Hp Hn _
    (wp_load ports id w) Hrun Hr) as H; cycle 1.
  - clear Hr. rename H into Hr. destruct r as [s|e|]; cbn in Hr.
    + left. destruct Hr as (d & l & Hs & Hid & Hpre). exists s, d, l.
      pose proof (at_cut _ _ _ _ _ Hs) as [Hpre' Hrec]. rewrite Hid in Hpre'.
      split_and!; [done|done|done|done|apply Hrec|apply Hs].
    + right. destruct Hr as [[= ->] H]. done.
    + destruct Hr as [[=] _].
  - intros [s'|e|] w1 w2 Hg; cbn; [|done|done]. intros (d & l & Hs & Hrest). exists d, l.
    split; [by eapply session_at_grows|done].
Qed.
End theorems.

(** ** A store in use *)

(** Playing a schedule: the callers that make the next calls, in order. *)
Definition next_call {Haud : AuditSerde} {A} (n : nat) (S : System A) : option (System A) :=
  match sys_clients S !! n with
  | Some (Vis op k) =>
      let answer := run_op op (sys_world S) in
      if Z.of_nat (length (es_log (w_store answer.2))) <? u64_max
      then Some (MkSystem answer.2 (<[n := k answer.1]> (sys_clients S))) else None
  | _ => None
  end.

Fixpoint play {Haud : AuditSerde} {A} (schedule : list nat) (S : System A) : option (System A) :=
  match schedule with
  | [] => Some S
  | n :: schedule => S' ← next_call n S; play schedule S'
  end.

Lemma play_steps {Haud : AuditSerde} {A} schedule (S S' : System A) :
  play schedule S = Some S' → rtc sys_step S S'.
Proof.
  revert S. induction schedule as [|n schedule IH]; intros S H; [by injection H as <-|].
  cbn [play] in H. apply bind_Some in H as (S1 & H1 & H). eapply rtc_l; [|by apply IH].
  unfold next_call in H1. destruct S as [w clients]. cbn in H1.
  destruct (clients !! n) as [[a|B op k]|] eqn:Hn; [done| |done].
  destruct (Z.ltb_spec (Z.of_nat (length (es_log (w_store (run_op op w).2)))) u64_max); [|done].
  injection H1 as <-. by eapply client_calls.
Qed.

Definition played {Haud : AuditSerde} {A} (schedule : list nat) (S : System A) : System A :=
  default S (play schedule S).

Lemma played_steps {Haud : AuditSerde} {A} schedule (S : System A) :
  is_some (play schedule S) = true → rtc sys_step S (played schedule S).
Proof.
  unfold played. destruct (play schedule S) as [S'|] eqn:H; [|done]. intros _. by apply (play_steps schedule).
Qed.

(** Renderings for the examples: what is written does not matter to the store. *)
#[local] Instance plain_audit : AuditSerde := {|
  sha256_digest s := s;
  rfc3339 t := Some (pretty t);
  event_json e := Some (AuditEventType_as_str (event_type e));
  event_of_json _ := None;
  authorization_json _ := Some "evidence";
|}.

Definition demo_ports : Ports := {|
  definitions_get name version :=
    if (name == "planning") && (version == "1.0") then Ok demo else Err (NotFound "ceremony_definition");
  publications_published _ _ := Ok None;
  definition_digest _ := Ok "digest";
  recall_for _ _ := Ok None;
|}.

#[local] Instance demo_ports_laws : PortsLaws demo_ports.
Proof.
  split; cbn; intros name version d; [|by eexists|done].
  destruct (_ && _); [|done]. by intros [= <-].
Qed.

Definition open_stream : SessionStream := MkSessionStream false None.

Lemma open_stream_ok : authorizer_ok demo_ports open_stream.
Proof. by intros authorize [=]. Qed.

Definition demo_task : TaskScope := MkTaskScope None (λ _, MkTraceContext "trace" "span" "00").

(** One caller starts a ceremony; another claims its first step while a third
    seats the table, so that the claim is decided a second time. *)
Definition demo_callers : list (io CeremonyInstance) :=
  [ start_ceremony demo_ports open_stream demo_task "ceremony-1" "planning" "1.0" ∅ "lead" ActorHuman 0;
    (out ← start_ceremony_step demo_ports open_stream demo_task "ceremony-1" "lead" ActorAgent "plan"
             "worker" "key-1" 60000 None Explicit MaxParallel_SERVER_MAX 0;
     mret (sso_instance out));
    bind_ceremony_participants demo_ports open_stream demo_task "ceremony-1"
      {[ "lead" := "architect" ]} "lead" ActorHuman 0 ].

Definition demo_schedule : list nat :=
  replicate 3 0%nat ++ replicate 4 1%nat ++ replicate 7 2%nat ++ replicate 8 1%nat.

Definition demo_system : System (outcome CeremonyInstance) :=
  played demo_schedule (MkSystem World_default demo_callers).

Definition answer_of {A} (p : option (prog (outcome A))) : option A :=
  match p with Some (Ret (Ok a)) => Some a | _ => None end.

Lemma demo_callers_ok : Forall2 (usecase demo_ports open_stream) ["ceremony-1"; "ceremony-1"; "ceremony-1"]
  demo_callers.
Proof.
  unfold demo_callers. constructor; [apply uc_start|]. constructor; [apply uc_start_step|].
  constructor; [apply uc_bind|constructor].
Qed.

Lemma demo_run : rtc sys_step (MkSystem World_default demo_callers) demo_system.
Proof. apply played_steps. vm_compute. reflexivity. Qed.

Example demo_answers :
  List.map (λ n, is_some (answer_of (sys_clients demo_system !! n))) [0; 1; 2]%nat = [true; true; true] ∧
  ar_event_type <$> stream (sys_world demo_system) "ceremony-1"
    = [AT_CeremonyInstanceStarted; AT_ParticipantsBound; AT_StepStarted].
Proof. vm_compute. split; reflexivity. Qed.

Lemma concurrent_use_cases_keep_sessions_witness :
  let w := sys_world demo_system in
  length (stream w "ceremony-1") = 3%nat ∧
  (verify (stream w "ceremony-1") = Intact ∧ NoDup (ar_event_id <$> stream w "ceremony-1") ∧
   ∃ d i, session d (journal_events (stream w "ceremony-1")) i ∧ instance_id i = "ceremony-1" ∧
     resolve_definition demo_ports i = Ok d) ∧
  answered w "ceremony-1" (default demo_start (answer_of (sys_clients demo_system !! 1%nat))).
Proof.
  cbn zeta. split; [vm_compute; reflexivity|].
  pose proof (concurrent_use_cases_keep_sessions demo_ports open_stream _ demo_callers demo_system
    open_stream_ok demo_callers_ok demo_run) as [Hstreams Hanswers]. split.
  - apply Hstreams. vm_compute. reflexivity.
  - apply (Hanswers 1%nat); vm_compute; reflexivity.
Defined.

(** The store the callers leave behind, used by three others: one pauses the
    ceremony while another seats the table and a third loads it. *)
Definition demo_world : World := sys_world demo_system.

Lemma demo_world_ok : world_ok demo_ports demo_world ∧ fits demo_world.
Proof.
  pose proof (use_cases_ok demo_ports open_stream open_stream_ok _ demo_callers demo_system
    demo_callers_ok demo_run) as HS.
  split; [exact (sys_world_ok _ _ _ HS)|exact (sys_fits _ _ _ HS)].
Qed.

Definition decide_as (command : CeremonyCommand) (d : CeremonyDefinition)
    : LoadedSession → outcome (list AuditFact) :=
  decided d command (MkAuditActor "lead" ActorHuman None) minute.

Definition demo_drivers : list (io LoadedSession) :=
  [ drive demo_ports open_stream demo_task "ceremony-1" ConflictPolicy_retry
      (decide_as (CmdPauseCeremony "lunch" minute));
    drive demo_ports open_stream demo_task "ceremony-1" FailFast
      (decide_as (CmdBindParticipant "peer" "critic" minute));
    load "ceremony-1" ].

Lemma demo_drivers_ok : Forall (session_program demo_ports open_stream demo_world) demo_drivers.
Proof.
  unfold demo_drivers. constructor; [|constructor; [|constructor; [apply sp_load|constructor]]];
    apply sp_drive; intros d; by apply decides_decided.
Qed.

Definition driven_system : System (outcome LoadedSession) :=
  played (replicate 4 0%nat ++ [2%nat] ++ replicate 7 1%nat ++ replicate 8 0%nat ++ replicate 3 2%nat)
    (MkSystem demo_world demo_drivers).

Lemma driven_run : rtc sys_step (MkSystem demo_world demo_drivers) driven_system.
Proof. apply played_steps. vm_compute. reflexivity. Qed.

Definition driven_answer (n : nat) : LoadedSession :=
  default (MkLoadedSession demo_start 0 None) (answer_of (sys_clients driven_system !! n)).

Lemma no_update_is_lost_witness :
  let s := driven_answer 0 in
  ar_event_type <$> stream (sys_world driven_system) "ceremony-1"
    = [AT_CeremonyInstanceStarted; AT_ParticipantsBound; AT_StepStarted; AT_ParticipantsBound;
       AT_CeremonyPaused] ∧
  instance_id (ls_instance s) = "ceremony-1" ∧
  ∃ d s0 l0 fs rs, decide_as (CmdPauseCeremony "lunch" minute) d s0 = Ok fs ∧
    journal_events rs = fact_event <$> fs ∧
    (l0 ++ rs) `prefix_of` stream (sys_world driven_system) "ceremony-1" ∧
    session d (journal_events l0) (ls_instance s0) ∧
    ls_version s0 = Z.of_nat (length l0) ∧ ls_version s = Z.of_nat (length (l0 ++ rs)) ∧
    apply_all (ls_instance s0) (fact_event <$> fs) = Ok (ls_instance s).
Proof.
  cbn zeta. split; [vm_compute; reflexivity|].
  refine (no_update_is_lost demo_ports open_stream demo_world demo_drivers driven_system 0 demo_task
    "ceremony-1" ConflictPolicy_retry (decide_as (CmdPauseCeremony "lunch" minute)) _ open_stream_ok
    (proj1 demo_world_ok) (proj2 demo_world_ok) demo_drivers_ok eq_refl _ driven_run _).
  - intros d. by apply decides_decided.
  - vm_compute. reflexivity.
Defined.

Lemma load_is_up_to_date_witness :
  let r := Ok (driven_answer 2) in
  ls_version (driven_answer 2) = 5 ∧
  ((∃ s d l, r = Ok s ∧ instance_id (ls_instance s) = "ceremony-1" ∧
     stream demo_world "ceremony-1" `prefix_of` l ∧
     l `prefix_of` stream (sys_world driven_system) "ceremony-1" ∧
     session d (journal_events l) (ls_instance s) ∧ ls_version s = Z.of_nat (length l)) ∨
   (r = Err (NotFound "ceremony_instance") ∧ stream demo_world "ceremony-1" = [])).
Proof.
  cbn zeta. split; [vm_compute; reflexivity|].
  refine (load_is_up_to_date demo_ports open_stream demo_world demo_drivers driven_system 2 "ceremony-1"
    _ open_stream_ok (proj1 demo_world_ok) (proj2 demo_world_ok) demo_drivers_ok eq_refl driven_run _).
  vm_compute. reflexivity.
Defined.

(** ** The repository of definitions

    made-adapters/src/memory/ceremony_definition_repository.rs: a map from the name
    and version of a definition to the definition, in which saving overwrites.  The
    use cases are modelled over the answers of a repository that does not change
    while they run ([Ports]); here is what that takes of the one in the sources. *)

Module Repository.

Definition InMemoryCeremonyDefinitionRepository : Type := gmap (string * string) CeremonyDefinition.

Definition repository_save (r : InMemoryCeremonyDefinitionRepository) (d : CeremonyDefinition)
    : InMemoryCeremonyDefinitionRepository :=
  <[(def_name d, def_version d) := d]> r.

Definition repository_get (r : InMemoryCeremonyDefinitionRepository) (name version : string)
    : outcome CeremonyDefinition :=
  ok_or (r !! (name, version)) (NotFound "ceremony_definition").

(** The ports of a service that uses this repository. *)
Definition with_repository (r : InMemoryCeremonyDefinitionRepository) (ports : Ports) : Ports :=
  MkPorts (repository_get r) (publications_published ports) (definition_digest ports) (recall_for ports).

(** A repository filled by saving. *)
Definition saved (ds : list CeremonyDefinition) : InMemoryCeremonyDefinitionRepository :=
  foldl repository_save ∅ ds.

(** Saving [d] replaces no other definition. *)
Definition replaces_nothing (r : InMemoryCeremonyDefinitionRepository) (d : CeremonyDefinition) : Prop :=
  ∀ d', r !! (def_name d, def_version d) = Some d' → d' = d.

Lemma saved_keyed ds name version d :
  saved ds !! (name, version) = Some d → def_name d = name ∧ def_version d = version.
Proof.
  unfold saved. induction ds as [|d0 ds IH] using rev_ind; [done|].
  rewrite foldl_app. cbn. unfold repository_save at 1. intros [[[= <- <-] <-]|[_ H]]%lookup_insert_Some; [done|by apply IH].
Qed.

(** What the use cases ask of their repository, this one does. *)
Lemma repository_keeps_the_laws ports ds :
  PortsLaws ports → (∀ d, d ∈ ds → is_ok (definition_digest ports d) = true) →
  PortsLaws (with_repository (saved ds) ports).
Proof.
  intros [_ _ Hpub] Hdig. split; cbn; [| |done].
  - intros name version d Hd%ok_or_Ok. pose proof (saved_keyed _ _ _ _ Hd) as [-> ->].
    unfold repository_get. by rewrite Hd.
  - intros name version d Hd%ok_or_Ok. assert (d ∈ ds) as Hin.
    { clear Hdig. unfold saved in Hd. induction ds as [|d0 ds IH] using rev_ind; [done|].
      rewrite foldl_app in Hd. cbn in Hd. unfold repository_save at 1 in Hd. apply elem_of_app.
      apply lookup_insert_Some in Hd as [[_ <-]|[_ Hd]]; [right; by left|left; by apply IH]. }
    specialize (Hdig d Hin). destruct (definition_digest ports d) as [digest| |]; [by exists digest|done..].
Qed.

Lemma save_lookup r d k :
  repository_save r d !! k = if base.decide ((def_name d, def_version d) = k) then Some d else r !! k.
Proof. unfold repository_save. case_decide; [subst; apply lookup_insert_eq|by apply lookup_insert_ne]. Qed.

(** A session keeps the definition it resolves to through every save that replaces
    nothing, and a session bound to a published definition through any save. *)
Lemma save_keeps_resolution ports r d i def :
  replaces_nothing r d ∨ bound_definition i ≠ None →
  resolve_definition (with_repository r ports) i = Ok def →
  resolve_definition (with_repository (repository_save r d) ports) i = Ok def.
Proof.
  unfold resolve_definition, resolve_definition_pinned. destruct (bound_definition i) as [digest|]; [done|].
  intros [Hd|]; [|done]. cbn. unfold repository_get. rewrite save_lookup. case_decide as Heq; [|done].
  rewrite <-Heq. destruct (r !! _) as [d'|] eqn:Hr; [|done]. by rewrite (Hd d' Hr).
Qed.

(** Saving a definition again under its name and version replaces it under the
    sessions that were started from it: they resolve to the new one. *)
Definition demo_replaced : CeremonyDefinition :=
  MkCeremonyDefinition (def_name demo) (def_version demo) (Some "another one") (def_inputs demo)
    (def_outputs demo) (def_states demo) (def_transitions demo) (def_steps demo) (def_step_order demo)
    (def_guards demo) (def_roles demo) (def_max_parallel demo) (def_max_transitions demo)
    (def_max_bounces demo) (def_ceremony_timeout demo) (def_state_timeout demo).

Example save_replaces_under_a_session :
  let before := with_repository (saved [demo]) demo_ports in
  let after := with_repository (saved [demo; demo_replaced]) demo_ports in
  resolve_definition before demo_start = Ok demo ∧ resolve_definition after demo_start = Ok demo_replaced ∧
  demo_replaced ≠ demo.
Proof.
  split_and!; [vm_compute; reflexivity..|]. intros H. apply (f_equal def_description) in H.
  vm_compute in H. discriminate H.
Qed.

End Repository.
