(* ===== verification/GlobalOrder.v ===== *)
(** * The order all streams share

    What a consumer of every ceremony relies on: reading the global log returns
    every record of every stream exactly once, at contiguous positions from 1,
    each stream in its own order; and a page is exactly the part of it asked for,
    so that a consumer that keeps its position misses and repeats nothing. *)

From S2P Require Import Prelude Errors Text Values Steps Definitions Interventions Instance.
From S2P Require Import Authorization AuditLog Fold Rules Decide DecideTable DecideLineage Engine.
From S2P Require Import EventStore SessionStream UseCases.
From S2P Require Import Sessions Machine Journal Tamper Streams Interleaving Concurrency.

Lemma try_map_relates {E A B} (f : A → result E B) (P : A → B → Prop) l :
  (∀ x, x ∈ l → ∃ y, f x = Ok y ∧ P x y) → ∃ ys, try_map f l = Ok ys ∧ Forall2 P l ys.
Proof.
  induction l as [|x l IH]; intros H; [by exists []|].
  destruct (H x) as (y & Hy & HP); [by left|]. destruct IH as (ys & Hys & HPs).
  { intros z Hz. apply H. by right. }
  exists (y :: ys). cbn. rewrite Hy. cbn. rewrite Hys. by split; [|constructor].
Qed.

Lemma try_map_drop {E A B} (f : A → result E B) l ys k :
  try_map f l = Ok ys → try_map f (drop k l) = Ok (drop k ys).
Proof.
  revert l ys. induction k as [|k IH]; intros l ys H; [by rewrite !drop_0|].
  destruct l as [|x l]; [by injection H as <-|].
  cbn [try_map] in H. apply bind_Ok in H as (y & _ & (ys' & Hys & [= <-])%bind_Ok). by apply IH.
Qed.

Lemma try_map_take {E A B} (f : A → result E B) l ys n :
  try_map f l = Ok ys → try_map f (take n l) = Ok (take n ys).
Proof.
  revert l ys. induction n as [|n IH]; intros l ys H; [done|].
  destruct l as [|x l]; [by injection H as <-|].
  cbn [try_map] in H. apply bind_Ok in H as (y & Hy & (ys' & Hys & [= <-])%bind_Ok).
  cbn. rewrite Hy. cbn. by rewrite (IH l ys' Hys).
Qed.

Section order.
Context {Hsha : Sha256} {Hclk : Clock} {Hser : EvidenceSerde} {Haud : AuditSerde}.
Context (ports : Ports).

(** [pr] is the record the log entry stands for. *)
Definition stands_for (w : World) (entry : Z * CeremonyId * Z) (pr : PositionedRecord) : Prop :=
  pr_position pr = entry.1.1 ∧ stream w entry.1.2 !! Z.to_nat (Z.max 0 (entry.2 - 1)) = Some (pr_record pr).

Lemma stream_sequence w id k r :
  world_ok ports w → fits w → stream w id !! k = Some r → ar_sequence r = Z.of_nat k + 1.
Proof using.
  intros Hw Hf Hk. pose proof (stream_fits ports w id Hw Hf). pose proof (lookup_lt_Some _ _ _ Hk).
  destruct (stream_recorded ports w id Hw) as (d & i & Hr); [by intros Heq; rewrite Heq in Hk|].
  destruct (sealed_verifies _ _ (recorded_sealed _ _ _ _ _ Hr)) as [Hv _].
  rewrite (verified_positions _ _ _ Hv Hk). lia.
Qed.

Lemma stream_ceremony w id k r :
  world_ok ports w → stream w id !! k = Some r → ar_ceremony_id r = id.
Proof using.
  intros Hw Hk. destruct (stream_recorded ports w id Hw) as (d & i & Hr); [by intros Heq; rewrite Heq in Hk|].
  pose proof (recorded_ceremony _ _ _ _ _ Hr) as Hc. rewrite Forall_lookup in Hc. by eapply Hc.
Qed.

Lemma entry_resolves w entry :
  world_ok ports w → fits w → entry ∈ es_log (w_store w) →
  ∃ pr, record_at (w_store w) entry = Ok pr ∧ stands_for w entry pr.
Proof using.
  intros Hw Hf Hin. destruct entry as [[p id] q].
  assert (q ∈ ar_sequence <$> stream w id) as Hq.
  { unfold stream. rewrite <-(log_sequences _ (ok_log _ _ Hw) id). apply list_elem_of_fmap.
    exists (p, id, q). split; [done|]. by apply list_elem_of_filter. }
  apply list_elem_of_fmap in Hq as (r & -> & (k & Hk)%list_elem_of_lookup_1).
  pose proof (stream_sequence w id k r Hw Hf Hk) as Hs.
  assert (Z.to_nat (Z.max 0 (ar_sequence r - 1)) = k) as Hidx by lia.
  exists (MkPositionedRecord p r). unfold record_at, stands_for. cbn. unfold stream in Hk.
  rewrite Hidx, Hk. done.
Qed.

Lemma filter_stands_for w log prs id :
  world_ok ports w → Forall2 (stands_for w) log prs →
  Forall2 (stands_for w) (filter (λ entry, entry.1.2 = id) log)
    (filter (λ pr, ar_ceremony_id (pr_record pr) = id) prs).
Proof using.
  intros Hw. induction 1 as [|entry pr log prs He _ IH]; [done|].
  assert (ar_ceremony_id (pr_record pr) = entry.1.2) as Hc by (eapply stream_ceremony; [done|apply He]).
  destruct (base.decide (entry.1.2 = id)) as [Heq|Hne].
  - rewrite !filter_cons_True by congruence. by constructor.
  - by rewrite !filter_cons_False by congruence.
Qed.

Lemma filter_records (prs : list PositionedRecord) id :
  filter (λ r, ar_ceremony_id r = id) (pr_record <$> prs)
    = pr_record <$> filter (λ pr, ar_ceremony_id (pr_record pr) = id) prs.
Proof using.
  induction prs as [|pr prs IH]; [done|]. rewrite fmap_cons.
  destruct (base.decide (ar_ceremony_id (pr_record pr) = id)).
  - rewrite !filter_cons_True by done. by rewrite fmap_cons, IH.
  - by rewrite !filter_cons_False by done.
Qed.

Lemma records_of_stream w id entries prs :
  world_ok ports w → fits w → Forall2 (stands_for w) entries prs →
  Forall (λ entry, entry.1.2 = id) entries → entries.*2 = ar_sequence <$> stream w id →
  pr_record <$> prs = stream w id.
Proof using.
  intros Hw Hf HP Hid Hseq. apply list_eq. intros k. rewrite list_lookup_fmap.
  pose proof (f_equal (.!! k) Hseq) as Hk. cbn in Hk. rewrite !list_lookup_fmap in Hk.
  destruct (entries !! k) as [entry|] eqn:He.
  - destruct (Forall2_lookup_l _ _ _ _ _ HP He) as (pr & Hpr & _ & Hs). rewrite Hpr. cbn in *.
    destruct (stream w id !! k) as [r|] eqn:Hr; [|done]. injection Hk as Hk.
    rewrite Forall_lookup in Hid. rewrite (Hid _ _ He) in Hs.
    rewrite Hk, (stream_sequence w id k r Hw Hf Hr) in Hs.
    replace (Z.to_nat (Z.max 0 (Z.of_nat k + 1 - 1))) with k in Hs by lia. congruence.
  - cbn in Hk. destruct (stream w id !! k); [done|].
    destruct (prs !! k) as [pr|] eqn:Hpr; [|done].
    destruct (Forall2_lookup_r _ _ _ _ _ HP Hpr) as (? & Hx & _). congruence.
Qed.

(** C13: reading the global log from its first position gives every record of
    every stream exactly once, at the positions 1, 2, 3 and so on, each stream's
    records in the order of the stream; every page is the part of it the caller
    asked for, and reading never fails. *)
Theorem global_log_lists_every_record_once w :
  world_ok ports w → fits w →
  ∃ prs, store_read_all (w_store w) GlobalPosition_FIRST (Z.of_nat (length (es_log (w_store w)))) = Ok prs ∧
    pr_position <$> prs = seqZ 1 (Z.of_nat (length (es_log (w_store w)))) ∧
    (∀ id, filter (λ r, ar_ceremony_id r = id) (pr_record <$> prs) = stream w id) ∧
    ∀ from limit, 1 ≤ from →
      store_read_all (w_store w) from limit = Ok (take (Z.to_nat limit) (drop (Z.to_nat (from - 1)) prs)).
Proof using.
  intros Hw Hf.
  destruct (try_map_relates (record_at (w_store w)) (stands_for w) (es_log (w_store w))) as (prs & Hprs & HP).
  { intros entry. by apply entry_resolves. }
  pose proof (Forall2_length _ _ _ HP) as Hlen. exists prs. split_and!.
  - unfold store_read_all, GlobalPosition_FIRST. cbn [Z.sub Z.opp Z.add Z.pos_sub Z.max Z.compare Z.to_nat].
    rewrite drop_0, Nat2Z.id, firstn_all. exact Hprs.
  - apply list_eq. intros k. rewrite list_lookup_fmap.
    destruct (prs !! k) as [pr|] eqn:Hk.
    + destruct (Forall2_lookup_r _ _ _ _ _ HP Hk) as ([[p id] q] & Hlog & Hpos & _). cbn in Hpos.
      rewrite lookup_seqZ_lt by (apply lookup_lt_Some in Hk; lia).
      cbn. rewrite Hpos, (log_positions _ (ok_log _ _ Hw) _ _ _ _ Hlog). f_equal. lia.
    + apply lookup_ge_None in Hk. by rewrite lookup_seqZ_ge by lia.
  - intros id. rewrite filter_records. eapply (records_of_stream w id); [done|done| | |].
    + by apply filter_stands_for.
    + apply Forall_forall. by intros entry [? _]%list_elem_of_filter.
    + apply (log_sequences _ (ok_log _ _ Hw)).
  - intros from limit Hfrom. unfold store_read_all.
    replace (Z.max 0 (from - 1)) with (from - 1) by lia. by apply try_map_take, try_map_drop.
Qed.
End order.

#[local] Existing Instance plain_audit.

Lemma global_log_lists_every_record_once_witness :
  ∃ prs, store_read_all (w_store demo_world) GlobalPosition_FIRST
           (Z.of_nat (length (es_log (w_store demo_world)))) = Ok prs ∧
    pr_position <$> prs = seqZ 1 (Z.of_nat (length (es_log (w_store demo_world)))) ∧
    (∀ id, filter (λ r, ar_ceremony_id r = id) (pr_record <$> prs) = stream demo_world id) ∧
    ∀ from limit, 1 ≤ from →
      store_read_all (w_store demo_world) from limit
        = Ok (take (Z.to_nat limit) (drop (Z.to_nat (from - 1)) prs)).
Proof.
  exact (global_log_lists_every_record_once demo_ports demo_world (proj1 demo_world_ok)
    (proj2 demo_world_ok)).
Defined.
