(* ===== verification/Progress.v ===== *)
(** * A caller that is not disturbed

    With nobody else using the store, a command the aggregate accepts is appended
    on its first attempt: the service answers, with the session the aggregate
    itself would reach, and its facts are the next records of the stream.  That
    takes more than being undisturbed: no authorization stands in between, the
    identifiers derived for the facts are new to the stream, the one of the opening
    fits, and the facts can be rendered.  StreamDefects has accepted commands of
    undisturbed callers that fail for want of the second and the third. *)

From S2P Require Import Prelude Errors Text Values Steps Definitions Interventions Instance.
From S2P Require Import Authorization AuditLog Fold Rules Decide DecideTable DecideLineage Engine.
From S2P Require Import EventStore SessionStream UseCases.
From S2P Require Import Scenario Sessions Machine Journal Tamper Streams Interleaving Concurrency.

Section runs.
Context {Hsha : Sha256} {Hclk : Clock} {Hser : EvidenceSerde} {Haud : AuditSerde}.
Context (ports : Ports).

Lemma run_bind {A B} (p : prog A) (f : A → prog B) w :
  run (prog_bind p f) w = run (f (run p w).1) (run p w).2.
Proof using.
  revert w. induction p as [a|C op k IH]; intros w; [done|]. cbn.
  destruct (run_op op w) as [b w']. apply IH.
Qed.

Lemma run_io_bind {A B} (p : io A) (f : A → io B) w a w' :
  run p w = (Ok a, w') → run (p ≫= f) w = run (f a) w'.
Proof using. intros H. unfold mbind, io_bind. rewrite run_bind, H. done. Qed.

Lemma run_op_log {A} (op : StoreOp A) w : es_log (w_store w) `prefix_of` es_log (w_store (run_op op w).2).
Proof using.
  destruct op; cbn; try done.
  destruct (append_with_authorization _ _ _ _ _) as [answer s'] eqn:Ha.
  apply append_cases in Ha as [[-> _]|(rs & _ & -> & _)]; cbn; [done|by apply prefix_app_r].
Qed.

Lemma fits_prefix w w' : es_log (w_store w) `prefix_of` es_log (w_store w') → fits w' → fits w.
Proof using. unfold fits. intros ?%prefix_length ?. lia. Qed.

Lemma run_log {A} (p : prog A) w : es_log (w_store w) `prefix_of` es_log (w_store (run p w).2).
Proof using.
  revert w. induction p as [a|C op k IH]; intros w; [done|]. cbn.
  pose proof (run_op_log op w) as H. destruct (run_op op w) as [b w']. cbn in H.
  trans (es_log (w_store w')); [done|apply IH].
Qed.

(** What is proved under interference holds without. *)
Lemma wp_run {A} (p : prog A) w Q :
  world_ok ports w → wp ports p w Q → fits (run p w).2 → Q (run p w).1 (run p w).2.
Proof using.
  revert w. induction p as [a|C op k IH]; intros w Hw Hp Hf; [done|]. cbn in *.
  pose proof (run_op_log op w) as Hl. specialize (Hp w ltac:(reflexivity) Hw).
  destruct (run_op op w) as [b w1] eqn:Hop. cbn in *.
  pose proof (fits_prefix _ _ (run_log (k b) w1) Hf) as Hf1.
  destruct Hp as (Hw1 & Hg & Hp); [by eapply fits_prefix|done|]. by apply IH.
Qed.

(** Loading does not write. *)
Inductive reads_only {A} : prog A → Prop :=
| ro_ret a : reads_only (Ret a)
| ro_read {B} (op : StoreOp B) k :
    (∀ w, (run_op op w).2 = w) → (∀ b, reads_only (k b)) → reads_only (Vis op k).

Lemma reads_only_run {A} (p : prog A) w : reads_only p → (run p w).2 = w.
Proof using.
  intros H. revert w. induction H as [a|B op k Hop _ IH]; intros w; [done|]. cbn.
  specialize (Hop w). destruct (run_op op w) as [b w']. cbn in Hop. subst w'. apply IH.
Qed.

Lemma reads_only_bind {A B} (p : prog A) (f : A → prog B) :
  reads_only p → (∀ a, reads_only (f a)) → reads_only (prog_bind p f).
Proof using. intros H Hf. induction H as [a|C op k Hop _ IH]; cbn; [apply Hf|by constructor]. Qed.

Lemma reads_only_io_bind {A B} (p : io A) (f : A → io B) :
  reads_only p → (∀ a, reads_only (f a)) → reads_only (p ≫= f).
Proof using. intros H Hf. apply reads_only_bind; [done|]. intros [a|e|]; [apply Hf|constructor..]. Qed.

Lemma reads_only_call {A} (op : StoreOp (outcome A)) :
  (∀ w, (run_op op w).2 = w) → reads_only (call op).
Proof using. intros H. constructor; [done|]. intros b. constructor. Qed.

Lemma reads_only_read_to_head fuel id through from : reads_only (read_to_head fuel id through from).
Proof using.
  revert from. induction fuel as [|fuel IH]; intros from; cbn [read_to_head];
    destruct (negb _); try constructor.
  apply reads_only_io_bind; [constructor|]. intros limit. apply reads_only_io_bind.
  - unfold read_ceremony_events. repeat (apply reads_only_io_bind; [by apply reads_only_call|intros ?]).
    destruct (StreamVersion_is_empty _); constructor.
  - intros page. destruct (_ || _); [constructor|]. apply reads_only_io_bind; [apply IH|]. constructor.
Qed.

Lemma reads_only_load id : reads_only (load id).
Proof using.
  unfold load, read_whole_from. apply reads_only_io_bind; [by apply reads_only_call|]. intros snapshot.
  apply reads_only_io_bind; [|constructor]. apply reads_only_io_bind; [by apply reads_only_call|].
  intros through. destruct (StreamVersion_is_empty _); [constructor|apply reads_only_read_to_head].
Qed.

(** Alone, loading gives the session at the head. *)
Lemma run_load w d id i :
  world_ok ports w → fits w → recorded ports d id (stream w id) i →
  run (load id) w = (Ok (MkLoadedSession i (Z.of_nat (length (stream w id))) (head_of (stream w id))), w).
Proof using.
  intros Hw Hf Hr. pose proof (reads_only_run (load id) w (reads_only_load id)) as Hro.
  pose proof (wp_run (load id) w _ Hw (wp_load ports id w)) as Hq. rewrite Hro in Hq. specialize (Hq Hf).
  destruct (run (load id) w) as [r w'] eqn:Hrun. cbn in *. subst w'. f_equal.
  destruct r as [s|e|]; cbn in Hq; [| |by destruct Hq].
  - destruct Hq as (d' & l & Hs & Hid & Hpre). pose proof (at_cut _ _ _ _ _ Hs) as [Hpre' Hr'].
    rewrite Hid in Hpre', Hr'. assert (l = stream w id) as ->.
    { apply prefix_length_eq; [done|]. by apply prefix_length. }
    destruct s as [i' v h]. destruct Hs as [_ Hv Hh]. cbn in *. subst v h. do 2 f_equal.
    by eapply recorded_unique.
  - destruct Hq as [_ Hq]. by destruct (sealed_ne _ _ (recorded_sealed _ _ _ _ _ Hr)).
Qed.
End runs.

Section progress.
Context {Hsha : Sha256} {Hclk : Clock} {Hser : EvidenceSerde} {Haud : AuditSerde}.
Context (ports : Ports).

(** The timestamp and the event of a fact can be rendered. *)
Definition renders (f : AuditFact) : Prop :=
  is_Some (rfc3339 (fact_occurred_at f)) ∧ is_Some (event_json (fact_event f)).

(** Completing facts leaves what is rendered of them. *)
Lemma complete_facts_renders fs corr trace caus i fs' i' head :
  complete_facts corr trace caus i fs = Ok (fs', i', head) → Forall renders fs → Forall renders fs'.
Proof using.
  revert corr caus i fs'. induction fs as [|f fs IH]; intros corr caus i fs' H Hr; [by injection H as <- _ _|].
  cbn [complete_facts] in H. apply bind_Ok in H as (i1 & _ & H). apply bind_Ok in H as ([[rest i2] h] & Hc & H).
  injection H as <- -> ->. apply Forall_cons in Hr as [Hf Hr]. constructor; [exact Hf|by eapply IH].
Qed.

Lemma seal_total f sequence previous :
  renders f → ∃ r, seal f None EVENT_BEARING_SCHEMA_VERSION sequence previous = Ok r.
Proof using.
  intros [Ht He]. unfold seal, compute_hash, preimage, canonical_payload, canonical_authorization. cbn.
  destruct Ht as [at_ ->]. cbn. destruct He as [json ->].
  cbn. by eexists.
Qed.

Lemma seal_facts_total p fs :
  Forall renders fs → digest_ok p → Forall (λ f, fact_ceremony_id f = ar_ceremony_id p) fs →
  ∃ rs, seal_facts (Some p) fs None = Ok rs.
Proof using.
  revert p. induction fs as [|f fs IH]; intros p Hren Hp Hf; [by exists []|].
  apply Forall_cons in Hf as [Hf Hfs]. apply Forall_cons in Hren as [Hren Hrens].
  destruct (seal_total f (sequence_next (ar_sequence p)) (Some (ar_record_hash p)) Hren) as [r Hr].
  destruct (seal_intact f None _ _ r Hr) as (Hd & _ & _ & Hc & _).
  destruct (IH r Hrens Hd) as [rs Hrs]; [by rewrite Hc, Hf|].
  exists (r :: rs). cbn [seal_facts]. unfold record_following, validate_predecessor.
  unfold digest_ok in Hp. rewrite Hp. cbn [mbind result_bind ensure].
  rewrite Hf, eqb_refl. cbn [ensure mbind result_bind]. rewrite Hr. cbn [mbind result_bind].
  by rewrite Hrs.
Qed.

Lemma repeats_an_id_fresh (fs : list AuditFact) (seen : gset string) :
  NoDup (fact_event_id <$> fs) → (∀ f, f ∈ fs → fact_event_id f ∉ seen) → repeats_an_id seen fs = false.
Proof using.
  revert seen. induction fs as [|f fs IH]; intros seen Hnd Hnew; [done|].
  rewrite fmap_cons in Hnd. apply NoDup_cons in Hnd as [Hf Hnd]. cbn [repeats_an_id].
  rewrite bool_decide_false by (apply Hnew; by left). apply IH; [done|].
  intros g Hg. apply not_elem_of_union. split; [|apply Hnew; by right].
  apply not_elem_of_singleton. intros Heq. apply Hf. rewrite <-Heq. by apply list_elem_of_fmap_2.
Qed.

(** The store takes facts of the stream whose identifiers are new to it. *)
Lemma seal_continuation_total d id l i fs :
  Forall renders fs → recorded ports d id l i → fs ≠ [] → Forall (λ f, fact_ceremony_id f = id) fs →
  NoDup ((ar_event_id <$> l) ++ (fact_event_id <$> fs)) →
  ∃ rs, seal_continuation id l fs None = Ok rs.
Proof using.
  intros Hren Hr Hne Hid Hnd. apply NoDup_app in Hnd as (_ & Hnew & Hnd).
  pose proof (recorded_sealed _ _ _ _ _ Hr) as Hs. destruct (sealed_verifies _ _ Hs) as [Hv _].
  destruct l as [|p l _] using rev_ind; [by destruct (sealed_ne _ _ Hs)|].
  apply verify_snoc in Hv as [_ Hj].
  assert (digest_ok p) as Hp by (destruct (last l); [apply Hj|apply Hj]).
  pose proof (recorded_ceremony _ _ _ _ _ Hr) as Hc. apply Forall_app in Hc as [_ [Hpc _]%Forall_cons].
  destruct (seal_facts_total p fs Hren Hp) as [rs Hrs]; [by rewrite Hpc|].
  exists rs. unfold seal_continuation. rewrite last_snoc.
  rewrite (proj2 (Nat.eqb_neq (length fs) 0)) by (by destruct fs). cbn [negb ensure mbind result_bind].
  assert (any (λ f, fact_ceremony_id f != id) fs = false) as ->.
  { apply any_false. intros f Hf. rewrite Forall_forall in Hid. rewrite (Hid f Hf), eqb_refl. done. }
  cbn [negb ensure mbind result_bind]. rewrite repeats_an_id_fresh; [exact Hrs|done|].
  intros f Hf Hin%elem_of_list_to_set. apply (Hnew (fact_event_id f) Hin). by apply list_elem_of_fmap_2.
Qed.

Context (st : SessionStream) (t : TaskScope).
Hypothesis Hopen : authorization_required st = false.
Hypothesis Htask : task_operation t = None.

Lemma run_stream_append id v fs w :
  run (stream_append st t id v fs) w = run_op (OpAppend id v fs None) w.
Proof using Hopen Htask.
  unfold stream_append. rewrite Hopen, Htask. cbn.
  by destruct (append_with_authorization (w_store w) id v fs None).
Qed.

(** Committing at the head lands. *)
Lemma run_commit w d id i i' fs corr trace :
  Forall renders fs → world_ok ports w → fits w → recorded ports d id (stream w id) i →
  continues d i (fact_event <$> fs) i' → fs ≠ [] → Forall (λ f, fact_ceremony_id f = id) fs →
  NoDup ((ar_event_id <$> stream w id) ++ (fact_event_id <$> fs)) → opening_event_id id = Ok corr →
  let s := MkLoadedSession i (Z.of_nat (length (stream w id))) (head_of (stream w id)) in
  ∃ s' w' rs, run (commit st t trace s fs) w = (Ok s', w') ∧ ls_instance s' = i' ∧
    stream w' id = stream w id ++ rs ∧ journal_events rs = fact_event <$> fs ∧
    ∀ id', id' ≠ id → stream w' id' = stream w id'.
Proof using Hopen Htask.
  intros Hren Hw Hf Hr Hc Hne Hid Hnd Hcorr. cbn zeta. unfold commit. cbn [ls_instance ls_version ls_head].
  rewrite (recorded_id _ _ _ _ _ Hr), Hcorr.
  destruct (complete_facts_applies fs (Some corr) trace (head_of (stream w id)) i i' (proj1 Hc))
    as (fs' & Hcf & He' & Hid' & Hcid').
  pose proof (complete_facts_renders _ _ _ _ _ _ _ _ Hcf Hren) as Hren'.
  erewrite run_io_bind by reflexivity. cbn [lift]. rewrite Hcf. erewrite run_io_bind by reflexivity.
  assert (instance_id i' = id) as Hi.
  { destruct Hc as (_ & [= -> _ _ _ _ _ _ _ _] & _). apply Hr. }
  assert (fs' ≠ []) as Hne' by (intros ->; by destruct fs).
  destruct (seal_continuation_total d id (stream w id) i fs' Hren' Hr Hne') as [rs Hrs].
  { assert (Forall (.= id) (fact_ceremony_id <$> fs')) as H by (rewrite Hcid'; by apply Forall_fmap).
    by apply Forall_fmap in H. }
  { by rewrite Hid'. }
  assert (run (stream_append st t (instance_id i') (Z.of_nat (length (stream w id))) fs') w
    = (Ok (Appended (version_of (stream w id ++ rs)) rs (next_position (w_store w))),
       w <| w_store := landed (w_store w) id rs |>)) as Happ.
  { rewrite run_stream_append, Hi. cbn. unfold append_with_authorization.
    change (store_stream (w_store w) id) with (stream w id).
    rewrite (version_stream ports w id Hw Hf), eqb_refl. cbn [negb]. by rewrite Hrs. }
  erewrite run_io_bind by exact Happ. cbn.
  eexists _, _, rs. split; [reflexivity|]. split; [done|]. unfold stream. cbn.
  assert (continues d i (fact_event <$> fs') i') as Hc' by (by rewrite He').
  destruct (recorded_continues ports d id _ i fs' None rs i' Hr Hc' Hrs) as [_ Hje].
  split_and!; [apply (landed_stream (w_store w))|by rewrite Hje|].
  intros id' Hne2. by apply (landed_stream_ne (w_store w)).
Qed.

(** C8: a command of a caller nobody disturbs lands.  Where appending needs no
    authorization, when the closure decides facts of the session whose timestamps and
    events can be rendered and whose identifiers are new to its stream, and the
    identifier of the session's opening fits, the service answers with the session the
    aggregate reaches by their events, the stream of the session grows by exactly
    them, and no other stream changes. *)
Theorem undisturbed_command_lands w d id i F fs policy corr :
  world_ok ports w → fits w → recorded ports d id (stream w id) i →
  (∀ d, decides w id d (F d)) →
  F d (MkLoadedSession i (Z.of_nat (length (stream w id))) (head_of (stream w id))) = Ok fs →
  Forall renders fs → Forall (λ f, fact_ceremony_id f = id) fs →
  NoDup ((ar_event_id <$> stream w id) ++ (fact_event_id <$> fs)) → opening_event_id id = Ok corr →
  ∃ s' w' rs, run (drive ports st t id policy F) w = (Ok s', w') ∧
    apply_all i (fact_event <$> fs) = Ok (ls_instance s') ∧
    stream w' id = stream w id ++ rs ∧ journal_events rs = fact_event <$> fs ∧
    ∀ id', id' ≠ id → stream w' id' = stream w id'.
Proof using Hopen Htask.
  intros Hw Hf Hr HF Hfs Hren Hid Hnd Hcorr. destruct (HF d _ fs (recorded_id _ _ _ _ _ Hr : instance_id (ls_instance (MkLoadedSession i _ _)) = id) Hfs)
    as [[i' Hc] _].
  unfold drive.
  erewrite run_io_bind by (by eapply (run_load ports w d id i)). cbn [ls_instance].
  rewrite (recorded_definition _ _ _ _ _ Hr). erewrite run_io_bind by reflexivity.
  unfold stream_execute. cbn [ls_instance]. rewrite (recorded_id _ _ _ _ _ Hr).
  set (s := MkLoadedSession i (Z.of_nat (length (stream w id))) (head_of (stream w id))) in *.
  destruct (base.decide (fs = [])) as [->|Hne].
  { exists s, w, []. rewrite app_nil_r. split_and!; [|done|done|done|done].
    destruct (Z.to_nat _); cbn [execute_loop]; rewrite Hfs; by erewrite run_io_bind by reflexivity. }
  destruct (run_commit w d id i i' fs corr
      (task_trace t (Z.to_nat (policy_attempts policy - 1))) Hren Hw Hf Hr Hc Hne Hid Hnd Hcorr)
    as (s' & w' & rs & Hrun & <- & Hs & Hje & Hother). fold s in Hrun.
  exists s', w', rs. split_and!; [|apply Hc|done|done|done].
  destruct (Z.to_nat (policy_attempts policy - 1)) as [|k]; cbn [execute_loop]; rewrite Hfs;
    erewrite run_io_bind by reflexivity; rewrite (proj2 (Nat.eqb_neq (length fs) 0)) by (by destruct fs);
    rewrite run_bind, Hrun; done.
Qed.
End progress.

(** ** The pause of the running ceremony *)

#[local] Existing Instance plain_audit.

Definition demo_now : CeremonyInstance :=
  match rehydrate (journal_events (stream demo_world "ceremony-1")) with Ok i => i | _ => demo_start end.

Lemma demo_recorded : recorded demo_ports demo "ceremony-1" (stream demo_world "ceremony-1") demo_now.
Proof.
  destruct (stream_recorded demo_ports demo_world "ceremony-1" (proj1 demo_world_ok)) as (d & i & Hr).
  { vm_compute. discriminate. }
  assert (i = demo_now) as ->.
  { pose proof (session_replays _ _ _ (recorded_session _ _ _ _ _ Hr)) as H. unfold demo_now.
    by rewrite H. }
  assert (resolve_definition demo_ports demo_now = Ok demo) as H by (vm_compute; reflexivity).
  pose proof (recorded_definition _ _ _ _ _ Hr) as Hd. rewrite H in Hd. by injection Hd as <-.
Qed.

Definition pause_facts : list AuditFact :=
  match decide_as (CmdPauseCeremony "lunch" minute) demo
          (MkLoadedSession demo_now (Z.of_nat (length (stream demo_world "ceremony-1")))
             (head_of (stream demo_world "ceremony-1"))) with
  | Ok fs => fs
  | _ => []
  end.

Lemma undisturbed_command_lands_witness :
  length pause_facts = 1%nat ∧
  ∃ s' w' rs, run (drive demo_ports open_stream demo_task "ceremony-1" FailFast
                     (decide_as (CmdPauseCeremony "lunch" minute))) demo_world = (Ok s', w') ∧
    apply_all demo_now (fact_event <$> pause_facts) = Ok (ls_instance s') ∧
    stream w' "ceremony-1" = stream demo_world "ceremony-1" ++ rs ∧
    journal_events rs = fact_event <$> pause_facts ∧
    ∀ id', id' ≠ "ceremony-1" → stream w' id' = stream demo_world id'.
Proof.
  split; [vm_compute; reflexivity|].
  refine (undisturbed_command_lands demo_ports open_stream demo_task eq_refl eq_refl demo_world demo
    "ceremony-1" demo_now (decide_as (CmdPauseCeremony "lunch" minute)) pause_facts FailFast
    "ceremony-1:ceremony_instance_started:session" (proj1 demo_world_ok) (proj2 demo_world_ok)
    demo_recorded _ _ _ _ _ _).
  - intros d. by apply decides_decided.
  - vm_compute. reflexivity.
  - apply Forall_forall. intros f _. split; by eexists.
  - assert (List.map fact_ceremony_id pause_facts = ["ceremony-1"]) as H by (vm_compute; reflexivity).
    destruct pause_facts as [|f [|]]; [done| |done]. injection H as H. by constructor.
  - apply (bool_decide_unpack _). vm_compute. exact I.
  - vm_compute. reflexivity.
Defined.
