(* ===== verification/Openings.v ===== *)
(** * Reading a journal and opening one from a plan

    The services that open a ceremony from what another one sealed read whole
    journals, and compare the opening of a stream that exists with the one they
    meant to make. *)

From S2P Require Import Prelude Errors Text Values Steps Definitions Interventions Instance.
From S2P Require Import Authorization AuditLog Fold Rules Decide DecideTable DecideLineage Engine.
From S2P Require Import Equality EventStore SessionStream UseCases Differences Succession.
From S2P Require Import Scenario Sessions Machine Journal Tamper Streams Interleaving Concurrency.

Lemma find_Some_lookup {A} (f : A → bool) l x : List.find f l = Some x → ∃ k, l !! k = Some x ∧ f x = true.
Proof. intros (k & Hk & Hf & _)%find_lookup. eauto. Qed.

Lemma fold_each_after o v h l :
  (∀ k r, l !! k = Some r → ar_sequence r = v + Z.of_nat k + 1) → fold_each o v h l = fold_after o v h l.
Proof.
  revert o v h. induction l as [|r l IH]; intros o v h Hs; [done|]. cbn [fold_each fold_after].
  pose proof (Hs 0%nat r eq_refl) as Hr. destruct (foldable_event r) as [e|e|]; [|done|done].
  cbn [mbind result_bind]. unfold StreamVersion_from_sequence. rewrite Hr.
  rewrite (proj2 (Z.ltb_lt v _)) by lia. destruct (fold_event o e) as [i|e'|]; [|done|done].
  cbn [mbind result_bind]. apply IH. intros k r' Hk. rewrite (Hs (S k) r' Hk). lia.
Qed.

Section openings.
Context {Hsha : Sha256} {Hclk : Clock} {Hser : EvidenceSerde} {Haud : AuditSerde}.
Context (ports : Ports).

Lemma fold_records_at d id l i :
  recorded ports d id l i → Z.of_nat (length l) ≤ u64_max →
  fold_records l = Ok (MkLoadedSession i (Z.of_nat (length l)) (head_of l)).
Proof using.
  intros Hr Hb. unfold fold_records. rewrite fold_each_after, (fold_whole ports d id l i Hr Hb); [done|].
  intros k r Hk. destruct (sealed_verifies _ _ (recorded_sealed _ _ _ _ _ Hr)) as [Hv _].
  rewrite (verified_positions _ _ _ Hv Hk). apply lookup_lt_Some in Hk. unfold StreamVersion_EMPTY. lia.
Qed.

Lemma wp_stream_records id w :
  wp ports (stream_records id) w
    (gives (λ l w', ∃ d i, cut ports w' d id l i ∧ stream w id `prefix_of` l ∧ Z.of_nat (length l) ≤ u64_max)
       (λ _, True)).
Proof using.
  unfold stream_records. change StreamVersion_EMPTY with (Z.of_nat 0).
  eapply wp_conseq; [|apply wp_read_whole_from; lia].
  intros [rs|e|] w' Hg; cbn [gives]; [|done|done]. intros (d & l & i & Hc & Hp & Hb & ->).
  rewrite drop_0. eauto.
Qed.

Lemma opens_with_events records expected :
  (length expected ≤ length records)%nat → opens_with records expected = true →
  ar_event <$> take (length expected) records = Some <$> expected.
Proof using.
  revert expected. induction records as [|r records IH]; intros [|e expected] Hl Ho; try done.
  { cbn in Hl. lia. }
  cbn in *. rewrite andb_true_iff in Ho. destruct Ho as [He%eqb_true_1 Ho]. rewrite He.
  f_equal. apply IH; [lia|done].
Qed.

(** A journal that opens as expected starts with the expected events. *)
Lemma opens_with_prefix d id l i expected :
  recorded ports d id l i →
  negb ((length l <? length expected)%nat || negb (opens_with l expected)) = true →
  expected `prefix_of` journal_events l.
Proof using.
  intros Hr [Hlen%Nat.ltb_ge Hw%negb_false_iff]%negb_true_iff%orb_false_iff.
  pose proof (opens_with_events _ _ Hlen Hw) as He.
  pose proof (sealed_drop _ _ 0 (recorded_sealed _ _ _ _ _ Hr)) as Hje. rewrite drop_0 in Hje.
  assert (take (length expected) (journal_events l) = expected) as <-; [|apply prefix_take].
  apply (list_fmap_eq_inj Some); [by intros ?? [=]|]. by rewrite fmap_take, <-Hje, <-fmap_take.
Qed.
End openings.
