(* ===== verification/Spawning.v ===== *)
(** * Opening the children of a ceremony

    What the services of Children do to the store while others use it: a child is
    opened only from a plan its parent sealed, the plan a service answers with is
    sealed and all its children are open, and a completion is reported to the
    parent only when the child's journal holds it. *)

From S2P Require Import Prelude Errors Text Values Steps Definitions Interventions Instance.
From S2P Require Import Authorization AuditLog Fold Rules Decide DecideTable DecideLineage Engine.
From S2P Require Import Equality EventStore SessionStream UseCases Differences Succession Children.
From S2P Require Import Scenario Sessions Machine Journal Lifecycle Families Tamper.
From S2P Require Import Streams Interleaving Concurrency Openings.

(** ** Groups and the journal *)

Section groups.
Context {Hsha : Sha256} {Hclk : Clock} {Hser : EvidenceSerde}.
Context (d : CeremonyDefinition).

(** The groups of a session are the plans its journal seals, and the completions
    of a group are accepted in it. *)
Record children_sealed (es : list CeremonyEvent) (i : CeremonyInstance) : Prop := {
  cs_group : ∀ gid g, child_groups i !! gid = Some g →
    plan_group_id (cg_plan g) = gid ∧ ∃ at_, EvChildSpawnPlanned (cg_plan g) at_ ∈ es;
  cs_plan : ∀ plan at_, EvChildSpawnPlanned plan at_ ∈ es →
    cg_plan <$> child_groups i !! plan_group_id plan = Some plan;
  cs_completion : ∀ gid g id c, child_groups i !! gid = Some g → cg_completions g !! id = Some c →
    ∃ at_, EvChildCompletionAccepted c at_ ∈ es;
  cs_lineage : ∀ plan at_ child, EvChildSpawnPlanned plan at_ ∈ es → child ∈ plan_children plan →
    planned_under d i plan (pc_lineage child);
}.

Lemma planned_under_identity i i' plan l :
  identity i = identity i' → planned_under d i plan l → planned_under d i' plan l.
Proof using.
  intros [= Hi _ _ _ _ Hl _ _ _] [Hp Hg Hr Hd Hrem].
  assert (family_root_id i' = family_root_id i ∧ family_depth i' = family_depth i ∧
    remaining_depth i' = remaining_depth i) as (E1 & E2 & E3)
    by (unfold family_root_id, family_depth, remaining_depth; by rewrite Hl, Hi).
  split; by rewrite ?E1, ?E2, ?E3, <-?Hi.
Qed.

(** Events that leave the groups alone. *)
Lemma children_sealed_frame es i es' i' :
  any child_event es' = false → child_groups i' = child_groups i → identity i = identity i' →
  children_sealed es i → children_sealed (es ++ es') i'.
Proof using.
  intros Hno Hg Hi [H1 H2 H3 H4]. rewrite any_false in Hno. split; rewrite ?Hg.
  - intros gid g Hl. destruct (H1 gid g Hl) as (? & at_ & ?). split; [done|]. exists at_. set_solver.
  - intros plan at_ [Hin|Hin]%elem_of_app; [by eapply H2|by specialize (Hno _ Hin)].
  - intros gid g id c Hl Hc. destruct (H3 gid g id c Hl Hc) as [at_ ?]. exists at_. set_solver.
  - intros plan at_ child [Hin|Hin]%elem_of_app Hch; [|by specialize (Hno _ Hin)].
    eapply planned_under_identity; [done|by eapply H4].
Qed.

(** A group whose plan stays as it was. *)
Lemma children_sealed_update es i e i' gid g g' :
  children_sealed es i → child_groups i !! gid = Some g → cg_plan g' = cg_plan g →
  child_groups i' = <[gid := g']> (child_groups i) → identity i = identity i' →
  (∀ plan at_, e ≠ EvChildSpawnPlanned plan at_) →
  (∀ id c, cg_completions g' !! id = Some c →
     cg_completions g !! id = Some c ∨ ∃ at_, e = EvChildCompletionAccepted c at_) →
  children_sealed (es ++ [e]) i'.
Proof using.
  intros [H1 H2 H3 H4] Hg Hp Hgs Hi He Hc. split; rewrite ?Hgs.
  - intros gid' g1 [[<- <-]|[_ Hl]]%lookup_insert_Some.
    + rewrite Hp. destruct (H1 _ _ Hg) as (? & at_ & ?). split; [done|]. exists at_. set_solver.
    + destruct (H1 _ _ Hl) as (? & at_ & ?). split; [done|]. exists at_. set_solver.
  - intros plan at_ [Hin|Hin%list_elem_of_singleton]%elem_of_app; [|by destruct (He plan at_)].
    specialize (H2 _ _ Hin). destruct (base.decide (gid = plan_group_id plan)) as [->|Hne].
    + rewrite lookup_insert_eq. cbn. rewrite Hg in H2. cbn in H2. by rewrite Hp.
    + by rewrite lookup_insert_ne.
  - intros gid' g1 id c [[<- <-]|[_ Hl]]%lookup_insert_Some Hl'.
    + destruct (Hc _ _ Hl') as [Hold|[at_ ->]]; [|exists at_; set_solver].
      destruct (H3 _ _ _ _ Hg Hold) as [at_ ?]. exists at_. set_solver.
    + destruct (H3 _ _ _ _ Hl Hl') as [at_ ?]. exists at_. set_solver.
  - intros plan at_ child [Hin|Hin%list_elem_of_singleton]%elem_of_app Hch; [|by destruct (He plan at_)].
    eapply planned_under_identity; [done|by eapply H4].
Qed.

(** A new plan. *)
Lemma children_sealed_planned es i plan now i' :
  children_sealed es i → decide i (CmdPlanCeremonyChildren plan now) d = Ok [EvChildSpawnPlanned plan now] →
  child_groups i !! plan_group_id plan = None →
  child_groups i' = <[plan_group_id plan := child_group_new plan]> (child_groups i) →
  identity i = identity i' → children_sealed (es ++ [EvChildSpawnPlanned plan now]) i'.
Proof using.
  intros [H1 H2 H3 H4] Hd Hnone Hgs Hi. split; rewrite ?Hgs.
  - intros gid g [[<- <-]|[_ Hl]]%lookup_insert_Some; [split; [done|]; exists now; set_solver|].
    destruct (H1 _ _ Hl) as (? & at_ & ?). split; [done|]. exists at_. set_solver.
  - intros plan' at_ [Hin|Hin%list_elem_of_singleton]%elem_of_app.
    + specialize (H2 _ _ Hin). destruct (base.decide (plan_group_id plan = plan_group_id plan')) as [E|Hne].
      * by rewrite <-E, Hnone in H2.
      * by rewrite lookup_insert_ne.
    + injection Hin as -> ->. by rewrite lookup_insert_eq.
  - intros gid g id c [[<- <-]|[_ Hl]]%lookup_insert_Some Hc; [done|].
    destruct (H3 _ _ _ _ Hl Hc) as [at_ ?]. exists at_. set_solver.
  - intros plan' at_ child [Hin|Hin%list_elem_of_singleton]%elem_of_app Hch;
      (eapply planned_under_identity; [done|]); [by eapply H4|].
    injection Hin as -> ->. by eapply planned_child_checked.
Qed.

Lemma children_sealed_step es i c es' i' :
  children_sealed es i → decide i c d = Ok es' → apply_all i es' = Ok i' → children_sealed (es ++ es') i'.
Proof using.
  intros Hs Hd Ha. assert (identity i = identity i') as Hi.
  { symmetry. apply apply_all_identity in Ha; [done|]. by eapply decide_no_import. }
  destruct (child_command c) eqn:Hc.
  2: { assert (any child_event es' = false) as Hno
         by (eapply decide_any; [exact Hd|]; intros e; by destruct c, e).
       apply (children_sealed_frame es i); [done| |done|done].
       exact (apply_all_frame child_groups child_event i es' i' apply_children_frame Ha Hno). }
  destruct (base.decide (es' = [])) as [->|Hne].
  { injection Ha as <-. apply (children_sealed_frame es i); done. }
  destruct c; try done; pose proof Hd as Hd'; cbn [decide] in Hd'.
  - unfold decide_plan_children in Hd'. apply bind_Ok in Hd' as ([] & _ & Hd').
    destruct (child_groups i !! plan_group_id plan) eqn:Hp; [by invert_ok Hd'|].
    unfold decide_new_child_plan in Hd'. repeat (apply bind_Ok in Hd' as (? & _ & Hd')).
    injection Hd' as <-. apply (children_sealed_planned es i); [done|done|done| |done].
    injection Ha as <-. unfold apply_child_spawn_planned. by rewrite Hp.
  - unfold decide_adopt_child_plan in Hd'. apply bind_Ok in Hd' as ([] & _ & Hd').
    apply bind_Ok in Hd' as (group & Hgr%ok_or_Ok & Hd'). destruct (_ == _); [by simplify_eq|].
    repeat (apply bind_Ok in Hd' as (? & _ & Hd')). injection Hd' as <-.
    apply (children_sealed_update es i _ _ group_id group (child_group_adopt group claim_fence));
      [done|done|done| |done|done|by left].
    injection Ha as <-. unfold apply_child_spawn_plan_adopted. by rewrite Hgr.
  - unfold decide_accept_child_completion in Hd'. apply bind_Ok in Hd' as ([] & _ & Hd').
    apply bind_Ok in Hd' as (group & Hgr%ok_or_Ok & Hd'). apply bind_Ok in Hd' as ([] & _ & Hd').
    destruct (cg_completions group !! _); [by invert_ok Hd'|]. injection Hd' as <-.
    apply (children_sealed_update es i _ _ (cc_group_id completion) group
      (child_group_accept group completion)); [done|done|done| |done|done|].
    + injection Ha as <-. unfold apply_child_completion_accepted. by rewrite Hgr.
    + cbn. intros id c [[_ <-]|[_ Hl]]%lookup_insert_Some; [right; eauto|by left].
Qed.

Lemma session_children es i : session d es i → children_sealed es i.
Proof using.
  assert (∀ started rest i0, any child_event rest = false → apply_all (from_started started) rest = Ok i0 →
    any is_import rest = false → children_sealed (EvCeremonyInstanceStarted started :: rest) i0) as Hopen.
  { intros started rest i0 Hno Ha Hni.
    apply (children_sealed_frame [EvCeremonyInstanceStarted started] (from_started started)); [done| | |].
    - exact (apply_all_frame child_groups child_event _ _ _ apply_children_frame Ha Hno).
    - symmetry. by apply apply_all_identity in Ha.
    - split; try done.
      + by intros plan at_ Hin%list_elem_of_singleton.
      + by intros plan at_ child Hin%list_elem_of_singleton. }
  induction 1 as [id ctx bound lin account rcl now started i Ho Ha
    |id pub ctx succ plan now es started i Hpub Hs Hh Ha
    |es i command es' i' _ IH _ Hd Ha]; [| |by eapply children_sealed_step].
  - unfold opening_batch in *. apply Hopen; [|done|]; cbn; by destruct (option_keep _ _).
  - unfold decide_start_successor in Hs. apply bind_Ok in Hs as (started' & Ho & [= <-]).
    injection Hh as <-. apply Hopen; [|done|]; by destruct (_ =? _)%nat.
Qed.
End groups.

(** ** Opening a child *)

Section opening.
Context {Hsha : Sha256} {Hclk : Clock} {Hser : EvidenceSerde} {Haud : AuditSerde}.
Context (ports : Ports) {Hports : PortsLaws ports} (st : SessionStream) (Hst : authorizer_ok ports st).

(** The opening planned for a child is that of a session. *)
Lemma planned_session child opening :
  planned_opening ports child = Ok opening →
  ∃ d i started rcl, session d opening i ∧ resolve_definition ports i = Ok d ∧
    instance_id i = pc_child_id child ∧ opening = opening_batch started rcl (pc_opened_at child) ∧
    cis_ceremony_id started = pc_child_id child ∧ cis_lineage started = Some (pc_lineage child) ∧
    cis_context started = pc_context child ∧ cis_bound_definition started = Some (pc_digest child) ∧
    cis_budget_account_id started = pc_budget_account_id child ∧ cis_succession started = None.
Proof using Hports.
  unfold planned_opening, child_publication. intros Ho.
  apply bind_Ok in Ho as (p & (o & Hpub & ->%ok_or_Ok)%bind_Ok & Ho).
  apply bind_Ok in Ho as (_ & Hdig%ensure_Ok%eqb_true_1 & Ho).
  assert (∃ started, Decide.opening (pc_child_id child) (pub_definition p) (pc_context child)
      (pc_opened_at child) (Some (pub_digest p)) (Some (pc_lineage child)) (pc_budget_account_id child)
        = Ok started ∧ opening = opening_batch started (pc_recollection child) (pc_opened_at child))
    as (started & Hop & ->).
  { unfold child_opening, decide_start_bound_budgeted_child, decide_start_bound_child in Ho.
    destruct (pc_budget_account_id child); apply bind_Ok in Ho as (started & Hop & [= <-]); eauto. }
  destruct (opening_session _ _ _ _ _ _ _ started (pc_recollection child) Hop)
    as (i & Hs & [= Hid Hn Hv _ Hb _ _ _ _] & Hcid & Hcn & Hcv & Hcb & Hcl & Hcx & Hca & Hcs).
  exists (pub_definition p), i, started, (pc_recollection child). rewrite Hdig in Hcb.
  split_and!; try done; [|by rewrite Hid].
  unfold resolve_definition, resolve_definition_pinned. cbn in Hb, Hn, Hv. rewrite Hb, Hcb, Hn, Hv, Hcn, Hcv.
  rewrite (published_keyed _ _ _ Hpub). cbn [mbind result_bind ok_or]. by rewrite Hdig, eqb_refl.
Qed.

(** [plan_sealed w parent plan]: the parent's journal seals the plan, whose children
    descend from it. *)
Definition plan_sealed (w : World) (parent : CeremonyId) (plan : ChildSpawnPlan) : Prop :=
  (∃ at_, EvChildSpawnPlanned plan at_ ∈ journal_events (stream w parent)) ∧
  ∀ child, child ∈ plan_children plan →
    lin_parent_id (pc_lineage child) = parent ∧ lin_group_id (pc_lineage child) = plan_group_id plan.

Lemma plan_sealed_grows w w' parent plan : grows w w' → plan_sealed w parent plan → plan_sealed w' parent plan.
Proof using.
  intros Hg [[at_ Hin] Hl]. split; [|done]. exists at_. eapply elem_of_prefix; [done|].
  apply journal_events_prefix, Hg.
Qed.

(** The group of a session was planned. *)
Lemma group_planned w d id l i gid g :
  cut ports w d id l i → child_groups i !! gid = Some g →
  plan_sealed w id (cg_plan g) ∧ plan_group_id (cg_plan g) = gid.
Proof using.
  intros [Hp Hr] Hg. pose proof (session_children _ _ _ (recorded_session _ _ _ _ _ Hr)) as Hc.
  destruct (cs_group _ _ _ Hc _ _ Hg) as (Hid & at_ & Hin). split; [|done]. split.
  - exists at_. eapply elem_of_prefix; [done|]. by apply journal_events_prefix.
  - intros child Hch. destruct (cs_lineage _ _ _ Hc _ _ _ Hin Hch) as [Hpar Hgrp _ _ _].
    by rewrite Hpar, (recorded_id _ _ _ _ _ Hr).
Qed.

(** A child that was opened from its plan. *)
Definition opened_from (w : World) (child : PlannedChild) : Prop :=
  ∃ opening, planned_opening ports child = Ok opening ∧
    opening `prefix_of` journal_events (stream w (pc_child_id child)).

Lemma opened_from_grows w w' child : grows w w' → opened_from w child → opened_from w' child.
Proof using.
  intros Hg (opening & Ho & Hp). exists opening. split; [done|].
  trans (journal_events (stream w (pc_child_id child))); [done|]. apply journal_events_prefix, Hg.
Qed.

Lemma planned_backed w parent plan child started rcl now :
  plan_sealed w parent plan → child ∈ plan_children plan →
  cis_ceremony_id started = pc_child_id child → cis_lineage started = Some (pc_lineage child) →
  cis_context started = pc_context child → cis_bound_definition started = Some (pc_digest child) →
  cis_budget_account_id started = pc_budget_account_id child → cis_succession started = None →
  backed w (opening_batch started rcl now).
Proof using.
  intros [[at_ Hin] Hl] Hch Hid Hlin Hctx Hb Ha Hs. destruct (Hl child Hch) as [Hpar Hgrp]. split_and!.
  - by rewrite Hs.
  - rewrite Hlin. intros l [= <-]. unfold journal_events in Hin.
    apply list_elem_of_omap in Hin as (r & [k Hk]%list_elem_of_lookup & He).
    exists k, r, plan, at_, child. rewrite Hpar. by split_and!.
  - unfold opening_batch. cbn. destruct (option_keep _ _); by repeat constructor.
Qed.

Context (t : TaskScope) (clock : nat → Instant) (traces : nat → nat → TraceContext).

Lemma wp_open_child n parent plan child w :
  plan_sealed w parent plan → child ∈ plan_children plan →
  wp ports (open_or_verify_child ports st t traces n child) w
    (gives (λ _ w', opened_from w' child) (λ _, True)).
Proof using Hst Hports.
  intros Hpl Hch. unfold open_or_verify_child. apply wp_lift_any. intros opening Ho.
  destruct (planned_session _ _ Ho)
    as (d & i & started & rcl & Hs & Hres & Hid & Hop & Hcid & Hcl & Hcx & Hcb & Hca & Hcs).
  apply wp_lift_any. intros actor _. apply wp_bind.
  eapply wp_conseq; [|apply (wp_open ports st _ w d opening i); [done|done|done|]].
  2: { rewrite Hop. by eapply planned_backed. }
  intros [s|e|] w1 Hg1; cbn [gives]; [| |done].
  - intros (<- & l & Hat & He). apply wp_lift. cbn. exists opening. split; [done|].
    pose proof (at_cut _ _ _ _ _ Hat) as [Hp _]. rewrite Hid in Hp. rewrite <-He.
    by apply journal_events_prefix.
  - intros _. destruct e; try done. apply wp_io_bind. eapply wp_conseq; [|apply wp_stream_records].
    intros [l|e|] w2 Hg2; cbn [gives]; [|done|done]. intros (d' & i' & Hc & _ & _).
    apply wp_lift_any. intros _ _. apply wp_lift.
    destruct (ensure _ _) as [u|e|] eqn:Hv; [|done|done]. apply ensure_Ok in Hv. cbn.
    exists opening. split; [done|]. trans (journal_events l).
    + eapply opens_with_prefix; [|done]. apply Hc.
    + apply journal_events_prefix, Hc.
Qed.

Lemma wp_open_children n parent plan children w :
  plan_sealed w parent plan → children ⊆ plan_children plan →
  wp ports (open_children ports st t traces n children) w
    (gives (λ _ w', Forall (opened_from w') children) (λ _, True)).
Proof using Hst Hports.
  revert n w. induction children as [|child children IH]; intros n w Hpl Hsub; [by apply wp_mret|].
  cbn [open_children]. apply wp_io_bind.
  eapply wp_conseq; [|eapply (wp_open_child n parent plan); [done|apply Hsub; by left]].
  intros [u|e|] w1 Hg1; cbn [gives]; [|done|done]. intros Ho.
  eapply wp_conseq; [|apply (IH (S n) w1); [by eapply plan_sealed_grows|intros x Hx; apply Hsub; by right]].
  intros [v|e|] w2 Hg2; cbn [gives]; [|done|done]. intros Hr. constructor; [|done].
  by eapply opened_from_grows.
Qed.

(** ** Preparing the children of a step *)

Lemma decides_unless_completed w id plan step result d command actor now :
  command_valid command = true → command_backed w id command →
  decides w id d (unless_completed plan step result d command actor now).
Proof using.
  intros Hv Hb s fs Hid (same & _ & Hf)%bind_Ok. destruct same; [injection Hf as <-; apply no_facts|].
  by apply (decides_decided w id d command actor now Hv Hb s).
Qed.

Lemma spawn_result_valid group ids result : spawn_result group ids = Ok result → StepResult_valid result = true.
Proof using.
  unfold spawn_result, StepResult_completed, StepResult_valid. intros (output & _ & Hr)%bind_Ok.
  unfold StepResult_new in Hr. invert_ok Hr. done.
Qed.

(** What is true of an answer about a group of children: its plan is sealed in
    the parent's journal and all its children are open as planned. *)
Record spawned (w : World) (parent : CeremonyId) (out : PrepareCeremonyChildrenOutput) : Prop := {
  so_plan : ∃ plan, plan_sealed w parent plan ∧ plan_group_id plan = pco_group_id out ∧
    child_ids_of plan = pco_child_ids out ∧ Forall (opened_from w) (plan_children plan);
  so_answer : answered w parent (pco_instance out);
}.

Lemma outcome_grows w w' parent out : grows w w' → spawned w parent out → spawned w' parent out.
Proof using.
  intros Hg [(plan & Hp & Hid & Hc & Ho) Ha]. split; [|by eapply answered_grows].
  exists plan. split_and!; [by eapply plan_sealed_grows|done|done|].
  eapply Forall_impl; [exact Ho|]. intros child. by apply opened_from_grows.
Qed.

Lemma spawned_intro w parent plan i gid result :
  plan_sealed w parent plan → plan_group_id plan = gid → Forall (opened_from w) (plan_children plan) →
  answered w parent i →
  spawned w parent (MkPrepareCeremonyChildrenOutput i gid (child_ids_of plan) result).
Proof using. intros Hp Hid Ho Ha. split; [|done]. by exists plan. Qed.

Lemma wp_verify_completed i plan parent step w :
  plan_sealed w parent plan → answered w parent i →
  wp ports (verify_completed_spawn ports st t traces i plan step) w
    (gives (λ out w', spawned w' parent out) (λ _, True)).
Proof using Hst Hports.
  intros Hp Ha. unfold verify_completed_spawn. apply wp_io_bind.
  eapply wp_conseq; [|by apply (wp_open_children 3 parent plan)].
  intros [u|e|] w1 Hg1; cbn [gives]; [|done|done]. intros Ho. apply wp_lift_any. intros result _.
  apply wp_lift_any. intros same _. apply wp_lift_any. intros _ _. apply wp_mret.
  apply spawned_intro; [by eapply plan_sealed_grows|done|done|by eapply answered_grows].
Qed.

Lemma wp_seal_plan loaded d input actor at_ l w :
  session_at ports w d loaded l → instance_id (ls_instance loaded) = pci_instance_id input →
  wp ports (seal_plan ports st t clock traces loaded d input actor at_) w
    (gives (λ p w', plan_sealed w' (pci_instance_id input) p.2 ∧
              ∃ l', session_at ports w' d p.1 l' ∧ instance_id (ls_instance p.1) = pci_instance_id input)
       (λ _, True)).
Proof using Hst.
  intros Hs Hid. unfold seal_plan. apply wp_lift_any. intros candidate _.
  eapply wp_execute_then; [done| |exact Hs|].
  { intros s fs _ (sealed & _ & Hf)%bind_Ok. destruct sealed; [injection Hf as <-; apply no_facts|].
    apply bind_Ok in Hf as (es & Hd & Hf). by eapply decided_facts. }
  intros s' w1 Hg1 Hid' (s0 & l0 & fs & _ & _ & _ & _ & rs & Hat & _).
  apply wp_lift_any. intros group Hgr%ok_or_Ok. apply wp_mret. cbn [fst snd].
  pose proof (at_cut _ _ _ _ _ Hat) as Hc. rewrite Hid', Hid in Hc.
  split; [exact (proj1 (group_planned _ _ _ _ _ _ _ Hc Hgr))|]. exists (l0 ++ rs). split; [done|congruence].
Qed.

Lemma wp_adopt session d input plan actor l w :
  session_at ports w d session l → instance_id (ls_instance session) = pci_instance_id input →
  wp ports (adopt_if_needed st t clock traces session d input plan actor) w
    (gives (λ s w', ∃ l', session_at ports w' d s l' ∧ instance_id (ls_instance s) = pci_instance_id input)
       (λ _, True)).
Proof using Hst.
  intros Hs Hid. unfold adopt_if_needed. apply wp_lift_any. intros record _.
  eapply wp_conseq; [|eapply (wp_stream_execute ports st _ _ _ w d session l); [done| |done]].
  - intros [s'|e|] w1 Hg1; cbn [gives]; [|done|done].
    intros [Hid' (s0 & l0 & fs & _ & _ & _ & _ & rs & Hat & _)]. exists (l0 ++ rs). split; [done|congruence].
  - intros s fs Hids (result & _ & Hf)%bind_Ok.
    by refine (decides_unless_completed w _ plan _ result d _ actor _ _ _ s fs Hids Hf).
Qed.

Lemma wp_complete_spawn d input plan l session w :
  plan_sealed w (pci_instance_id input) plan → Forall (opened_from w) (plan_children plan) →
  session_at ports w d session l → instance_id (ls_instance session) = pci_instance_id input →
  wp ports (complete_spawn_step st t clock traces d input plan) w
    (gives (λ out w', spawned w' (pci_instance_id input) out) (λ _, True)).
Proof using Hst.
  intros Hp Ho Hs Hid. unfold complete_spawn_step. apply wp_lift_any. intros result Hres.
  apply wp_io_bind. eapply wp_conseq; [|apply wp_load].
  intros [s|e|] w1 Hg1; cbn [gives]; [|done|done]. intros (d' & l' & Hs' & Hid' & _).
  assert (∀ w' i, grows w1 w' → answered w' (pci_instance_id input) i →
    spawned w' (pci_instance_id input)
      (MkPrepareCeremonyChildrenOutput i (plan_group_id plan) (child_ids_of plan) result)) as Hout.
  { intros w' i Hg Ha. assert (grows w w') as Hgw by (by trans w1).
    apply spawned_intro; [by eapply plan_sealed_grows|done| |done].
    eapply Forall_impl; [exact Ho|]. intros child. by apply opened_from_grows. }
  apply wp_lift_any. intros same _. destruct same.
  { apply wp_mret. apply Hout; [reflexivity|]. rewrite <-Hid'. by eapply cut_answered, at_cut. }
  apply wp_lift_any. intros actor _.
  assert (d = d') as <-.
  { eapply (session_at_same ports w1 d d' session s l l'); [by eapply session_at_grows|done|congruence]. }
  eapply wp_execute_then; [done| |exact Hs'|].
  { apply decides_unless_completed; [|done]. by eapply spawn_result_valid. }
  intros s' w2 Hg2 Hid2 Hset. apply wp_mret. apply Hout; [done|]. rewrite <-Hid', <-Hid2.
  by eapply settled_answered.
Qed.

(** Whatever others do meanwhile, a preparation that answers happened. *)
Lemma wp_prepare input w :
  wp ports (prepare_ceremony_children ports st t clock traces input) w
    (gives (λ out w', spawned w' (pci_instance_id input) out) (λ _, True)).
Proof using Hst Hports.
  unfold prepare_ceremony_children. apply wp_load_resolve. intros w1 d s l Hg1 Hs Hid.
  pose proof (at_cut _ _ _ _ _ Hs) as Hc. rewrite Hid in Hc.
  assert (∀ plan, current_plan (ls_instance s) (pci_step_id input) = Some plan →
    plan_sealed w1 (pci_instance_id input) plan) as Hcur.
  { unfold current_plan. intros plan (record & _ & Hg)%bind_Some.
    apply fmap_Some in Hg as (g & Hg & ->). exact (proj1 (group_planned _ _ _ _ _ _ _ Hc Hg)). }
  set (completed := is_some_and _ _). clearbody completed.
  destruct (current_plan (ls_instance s) (pci_step_id input)) as [plan|] eqn:Hplan;
    [destruct completed; [by apply wp_verify_completed; [apply Hcur|eapply cut_answered]|]|].
  all: apply wp_lift_any; intros actor _; apply wp_io_bind;
    (eapply (wp_conseq _ _ _ (gives (λ p w', plan_sealed w' (pci_instance_id input) p.2 ∧
       ∃ l', session_at ports w' d p.1 l' ∧ instance_id (ls_instance p.1) = pci_instance_id input)
       (λ _, True)));
     [|first [by eapply wp_seal_plan|apply wp_mret; cbn; split; [by apply Hcur|eauto]]]).
  all: intros [[s1 plan1]|e|] w2 Hg2; cbn [gives fst snd]; [|done|done];
    intros [Hp1 (l1 & Hs1 & Hid1)]; apply wp_io_bind;
    (eapply wp_conseq; [|by eapply (wp_adopt s1 d input plan1 actor l1)]);
    intros [s2|e|] w3 Hg3; cbn [gives]; [|done|done]; intros (l2 & Hs2 & Hid2);
    apply wp_lift_any; intros group Hgr%ok_or_Ok;
    pose proof (at_cut _ _ _ _ _ Hs2) as Hc2; rewrite Hid2 in Hc2;
    destruct (group_planned _ _ _ _ _ _ _ Hc2 Hgr) as [Hp2 _]; apply wp_io_bind;
    (eapply wp_conseq; [|by eapply (wp_open_children 3 (pci_instance_id input) (cg_plan group))]);
    intros [u|e|] w4 Hg4; cbn [gives]; [|done|done]; intros Ho;
    (eapply wp_complete_spawn; [by eapply plan_sealed_grows|done|by eapply session_at_grows|done]).
Qed.

(** The children of a group are open, as the plan its parent sealed says. *)
Definition group_open (w : World) (parent : CeremonyId) (group : string) : Prop :=
  ∃ plan, plan_sealed w parent plan ∧ plan_group_id plan = group ∧
    Forall (opened_from w) (plan_children plan).

Lemma group_open_grows w w' parent group : grows w w' → group_open w parent group → group_open w' parent group.
Proof using.
  intros Hg (plan & Hp & Hid & Ho). exists plan. split_and!; [by eapply plan_sealed_grows|done|].
  eapply Forall_impl; [exact Ho|]. intros child. by apply opened_from_grows.
Qed.

(** A recovered group is open, whether or not its step is completed. *)
Lemma wp_recover parent gid w :
  wp ports (recover_group ports st t clock traces parent gid) w
    (gives (λ o w', group_open w' parent gid ∧ ∀ out, o = Some out → spawned w' parent out) (λ _, True)).
Proof using Hst Hports.
  unfold recover_group. apply wp_load_resolve. intros w1 d s l Hg1 Hs Hid.
  pose proof (at_cut _ _ _ _ _ Hs) as Hc. rewrite Hid in Hc.
  apply wp_lift_any. intros group Hgr%ok_or_Ok.
  destruct (group_planned _ _ _ _ _ _ _ Hc Hgr) as [Hp Hgid]. apply wp_io_bind.
  eapply wp_conseq; [|by apply (wp_open_children 3 parent (cg_plan group))].
  intros [u|e|] w2 Hg2; cbn [gives]; [|done|done]. intros Ho. apply wp_io_bind.
  eapply wp_conseq; [|apply wp_load]. intros [s'|e|] w3 Hg3; cbn [gives]; [|done|done].
  intros (d' & l' & Hs' & Hid' & _). apply wp_lift_any. intros group' Hgr'%ok_or_Ok.
  assert (d = d') as <-.
  { eapply (session_at_same ports w3 d d' s s' l l'); [|done|congruence].
    eapply session_at_grows; [|done]. by trans w2. }
  assert (plan_sealed w3 parent (cg_plan group)) as Hp3 by (eapply plan_sealed_grows; [|done]; by trans w2).
  assert (answered w3 parent (ls_instance s')) as Ha by (rewrite <-Hid'; by eapply cut_answered, at_cut).
  assert (group_open w3 parent gid) as Hopen.
  { exists (cg_plan group). split_and!; [done|done|]. eapply Forall_impl; [exact Ho|].
    intros child. by apply opened_from_grows. }
  destruct (step_records (ls_instance s') !! _) as [record|]; [|by apply wp_mret].
  destruct (_ != gid); [by apply wp_mret|]. destruct (rec_status record == Completed).
  { apply wp_io_bind. eapply wp_conseq; [|by apply (wp_verify_completed (ls_instance s') (cg_plan group) parent)].
    intros [out|e|] w4 Hg4; cbn [gives]; [|done|done]. intros Hsp. apply wp_mret.
    split; [by eapply group_open_grows|]. by intros ? [= <-]. }
  destruct (rec_status record != InProgress); [by apply wp_mret|]. apply wp_lift_any. intros fence _.
  destruct (_ != fence); [by apply wp_mret|]. apply wp_lift_any. intros actor _.
  apply wp_lift_any. intros result Hres. eapply wp_execute_then; [done| |exact Hs'|].
  { apply decides_unless_completed; [|done]. by eapply spawn_result_valid. }
  intros s2 w4 Hg4 Hid2 Hset. apply wp_mret. split; [by eapply group_open_grows|]. intros out [= <-].
  apply spawned_intro; [by eapply plan_sealed_grows|done| |].
  - eapply Forall_impl; [exact Ho|]. intros child. apply opened_from_grows. by trans w3.
  - rewrite <-Hid', <-Hid2. by eapply settled_answered.
Qed.

(** ** Reporting a child that ended *)

Lemma resolved_lineage d id l i started rest :
  recorded ports d id l i → journal_events l = EvCeremonyInstanceStarted started :: rest →
  lineage i = cis_lineage started.
Proof using.
  intros Hr He. destruct (session_identity _ _ _ (recorded_session _ _ _ _ _ Hr)) as (st' & rest' & He' & Hi).
  rewrite He in He'. injection He' as <- _. by injection Hi.
Qed.

(** The report of a child that ended is in its parent's journal. *)
Definition reported (w : World) (input : AcceptChildCompletionInput) (out : AcceptChildCompletionOutput)
    : Prop :=
  cc_child_id (aco_completion out) = aci_child_id input ∧
  cc_terminal_event_id (aco_completion out) = aci_terminal_event_id input ∧
  ∃ parent at_, answered w parent (aco_parent out) ∧ completed_in w parent (aco_completion out) ∧
    EvChildCompletionAccepted (aco_completion out) at_ ∈ journal_events (stream w parent).

Lemma reported_grows w w' input out : grows w w' → reported w input out → reported w' input out.
Proof using.
  intros Hg (Hc & Ht & parent & at_ & Ha & Hin & He). split_and!; [done|done|]. exists parent, at_.
  split_and!; [by eapply answered_grows| |].
  - by apply (event_backed_grows w w' parent (EvChildCompletionAccepted (aco_completion out) at_)).
  - eapply elem_of_prefix; [done|]. apply journal_events_prefix, Hg.
Qed.

(** A decision to accept a completion leaves it accepted. *)
Lemma decide_accepts i d c now es i' :
  decide i (CmdAcceptChildCompletion c now) d = Ok es → apply_all i es = Ok i' →
  ∃ g, child_groups i' !! cc_group_id c = Some g ∧ cg_completions g !! cc_child_id c = Some c.
Proof using.
  cbn [decide]. unfold decide_accept_child_completion. intros Hd Ha. apply bind_Ok in Hd as (_ & _ & Hd).
  apply bind_Ok in Hd as (group & Hgr%ok_or_Ok & Hd). apply bind_Ok in Hd as (_ & _ & Hd).
  destruct (cg_completions group !! cc_child_id c) as [existing|] eqn:Hc.
  - destruct (existing == c) eqn:He; [|done]. apply eqb_true_1 in He as ->. injection Hd as <-.
    injection Ha as <-. eauto.
  - injection Hd as <-. injection Ha as <-. unfold apply_child_completion_accepted. rewrite Hgr. cbn.
    rewrite lookup_insert_eq. eexists. split; [done|]. cbn. by rewrite lookup_insert_eq.
Qed.

Lemma wp_accept input w :
  wp ports (accept_child_completion ports st t clock traces input) w
    (gives (λ out w', reported w' input out) (λ _, True)).
Proof using Hst.
  unfold accept_child_completion. apply wp_io_bind. eapply wp_conseq; [|apply wp_stream_records].
  intros [l|e|] w1 Hg1; cbn [gives]; [|done|done]. intros (d & i & Hc & _ & Hb).
  pose proof (proj2 Hc) as Hr. apply wp_lift_any. intros _ _. apply wp_lift_any.
  intros terminal (k & Hk & Heq%eqb_true_1)%ok_or_Ok%find_Some_lookup.
  apply wp_lift_any. intros _ Hcomp%ensure_Ok. rewrite (fold_records_at ports _ _ _ _ Hr Hb).
  apply wp_lift_any. intros s [= <-]. cbn [ls_instance]. apply wp_lift_any. intros d' _.
  apply wp_lift_any. intros _ _. apply wp_lift_any. intros lin Hlin%ok_or_Ok. apply wp_lift_any. intros _ _.
  apply wp_load_resolve. intros w2 dp p lp Hg2 Hp Hidp. apply wp_lift_any. intros group _.
  apply wp_lift_any. intros child _. apply wp_lift_any. intros _ _. apply wp_lift_any. intros actor _.
  set (completion := MkChildCompletionRef _ _ _ _).
  assert (completed_in w2 (lin_parent_id lin) completion) as Hin.
  { assert (l `prefix_of` stream w2 (aci_child_id input)) as Hpre
      by (trans (stream w1 (aci_child_id input)); [apply Hc|apply Hg2]).
    split.
    - unfold is_completion in Hcomp. destruct (ar_event terminal) as [[]|] eqn:He; try done.
      exists k, terminal. do 2 eexists. split_and!; [by eapply prefix_lookup_Some|done|done|exact He].
    - destruct (session_opens _ _ _ (recorded_session _ _ _ _ _ Hr)) as (started & rest & He).
      destruct (journal_events_prefix _ _ Hpre) as [more Hm].
      exists started, (rest ++ more), lin. cbn [cc_child_id completion]. rewrite Hm, He. split_and!; try done.
      by rewrite <-(resolved_lineage _ _ _ _ _ _ Hr He). }
  eapply wp_execute_then; [done| |exact Hp|].
  { apply decides_decided; [done|]. by rewrite Hidp. }
  intros s' w3 Hg3 Hid' Hset. apply wp_mret. pose proof (settled_answered _ _ _ _ _ Hset) as Ha.
  destruct Hset as (s0 & l0 & fs & HD & _ & _ & Happ & rs & Hat & _).
  apply bind_Ok in HD as (es & Hdec & Hfs%facts_events). rewrite Hfs in Happ.
  destruct (decide_accepts _ _ _ _ _ _ Hdec Happ) as (g & Hg & Hgc).
  pose proof (at_cut _ _ _ _ _ Hat) as [Hpre Hrec]. rewrite Hid', Hidp in *.
  destruct (cs_completion _ _ _ (session_children _ _ _ (recorded_session _ _ _ _ _ Hrec)) _ _ _ _ Hg Hgc)
    as [at_ Hev].
  split_and!; [done|done|]. exists (lin_parent_id lin), at_. split_and!; [done| |].
  - by apply (event_backed_grows w2 w3 _ (EvChildCompletionAccepted completion at_)).
  - eapply elem_of_prefix; [exact Hev|]. by apply journal_events_prefix.
Qed.
End opening.
