(* ===== verification/Handover.v ===== *)
(** * The handover of a ceremony

    Whatever runs at the same time, crashes or is retried, every successor was
    planned by the ceremony it succeeds and opens with the evidence that plan
    carries, and a ceremony has one successor. *)

From S2P Require Import Prelude Errors Text Values Steps Definitions Interventions Instance.
From S2P Require Import Authorization AuditLog Fold Rules Decide DecideTable DecideLineage Engine.
From S2P Require Import Equality EventStore SessionStream UseCases Differences Succession Children.
From S2P Require Import Scenario Sessions Machine Journal Tamper Streams Interleaving Concurrency Openings Spawning Adoption.

Section plans.
Context {Hsha : Sha256} {Hclk : Clock} {Hser : EvidenceSerde}.

(** What a decision does to the plan: it is sealed where there was none, and
    nothing else touches it. *)
Lemma decide_plan_cases i c d es i' :
  decide i c d = Ok es → apply_all i es = Ok i' →
  (any succession_event es = false ∧ successor_plan i' = successor_plan i) ∨
  ∃ plan, es = [EvSuccessorPlanned plan] ∧ successor_plan i = None ∧ successor_plan i' = Some plan ∧
    successor_derive (instance_id i) (sp_plan_id plan) = Ok (sp_successor_id plan).
Proof using.
  intros Hd Ha. destruct (any succession_event es) eqn:Hs.
  - right. assert (∃ p, c = CmdPlanSuccessor p) as [p ->].
    { apply existsb_exists in Hs as (e & Hin%list_elem_of_In & He).
      pose proof (decide_emits _ _ _ _ Hd) as Hem.
      apply (proj1 (all_true _ _)) with (x := e) in Hem; [|done]. destruct c, e; try done; eauto. }
    cbn in Hd. unfold decide_plan_successor in Hd. apply bind_Ok in Hd as ([] & _ & Hd).
    destruct (successor_plan i) as [existing|] eqn:Hp; [destruct (_ == _); [by injection Hd as <-|done]|].
    invert_ok Hd. injection Ha as <-. eexists. split_and!; [done|done|done|].
    match goal with H : require_derived_successor_id _ _ = Ok _ |- _ => rename H into Hder end.
    unfold require_derived_successor_id in Hder. apply bind_Ok in Hder as (derived & Hder & He).
    apply ensure_Ok in He. apply eqb_true_1 in He. by rewrite Hder, He.
  - left. split; [done|]. by eapply apply_all_frame; [apply apply_succession_frame|..].
Qed.

(** The plan a session holds is the one plan its journal seals, and is sealed
    under the identifier derived from it. *)
Lemma session_plan d es i :
  session d es i →
  (∀ plan, EvSuccessorPlanned plan ∈ es ↔ successor_plan i = Some plan) ∧
  ∀ plan, successor_plan i = Some plan →
    successor_derive (instance_id i) (sp_plan_id plan) = Ok (sp_successor_id plan).
Proof using.
  assert (∀ es i0 i plan, any succession_event es = false → apply_all i0 es = Ok i →
    successor_plan i0 = None → EvSuccessorPlanned plan ∉ es ∧ successor_plan i = None) as Hno.
  { intros es0 i0 i1 plan Hs Ha Hi. split.
    - intros Hin. rewrite any_false in Hs. by specialize (Hs _ Hin).
    - rewrite <-Hi. by eapply apply_all_frame; [apply apply_succession_frame|..]. }
  assert (∀ started rest i0, any succession_event rest = false → apply_all (from_started started) rest = Ok i0 →
    (∀ plan, EvSuccessorPlanned plan ∈ EvCeremonyInstanceStarted started :: rest ↔ successor_plan i0 = Some plan) ∧
    ∀ plan, successor_plan i0 = Some plan →
      successor_derive (instance_id i0) (sp_plan_id plan) = Ok (sp_successor_id plan)) as Hopen.
  { intros started rest i0 Hs Ha. split; intros plan;
      destruct (Hno rest (from_started started) i0 plan Hs Ha eq_refl) as [Hni Hnone]; rewrite Hnone; [|done].
    rewrite elem_of_cons. split; [|done]. by intros [|]. }
  induction 1 as [id ctx bound lin account rcl now started i Ho Ha
    |id pub ctx succ plan' now es started i Hpub Hs Hh Ha|es i command es' i' Hsess IH Hv Hd Ha].
  - unfold opening_batch in *. apply Hopen; [|done]. cbn. by destruct (option_keep _ _).
  - unfold decide_start_successor in Hs. apply bind_Ok in Hs as (started' & Ho & [= <-]).
    injection Hh as <-. apply Hopen; [|done]. by destruct (_ =? _)%nat.
  - destruct IH as [IH1 IH2].
    assert (instance_id i' = instance_id i) as Hid.
    { apply apply_all_identity in Ha; [by injection Ha|]. by eapply decide_no_import. }
    destruct (decide_plan_cases _ _ _ _ _ Hd Ha) as [[Hs Hp]|(plan & -> & Hn & Hp & Hder)].
    + rewrite Hp, Hid. split; [|done]. intros plan. rewrite elem_of_app, IH1. split; [|by left].
      intros [?|Hin]; [done|]. rewrite any_false in Hs. by specialize (Hs _ Hin).
    + rewrite Hp, Hid. split; [|by intros ? [= <-]]. intros plan'. rewrite elem_of_app, IH1, Hn, list_elem_of_singleton.
      naive_solver.
Qed.
End plans.

Section handover.
Context {Hsha : Sha256} {Hclk : Clock} {Hser : EvidenceSerde} {Haud : AuditSerde}.
Context (ports : Ports) {Hports : PortsLaws ports} (st : SessionStream).

(** ** The plan is in the journal *)

Lemma planned_lookup d id l i plan :
  recorded ports d id l i → successor_plan i = Some plan →
  ∃ k r, l !! k = Some r ∧ ar_event r = Some (EvSuccessorPlanned plan).
Proof using.
  intros Hr Hp. apply (proj1 (session_plan _ _ _ (recorded_session _ _ _ _ _ Hr))) in Hp.
  unfold journal_events in Hp. apply list_elem_of_omap in Hp as (r & Hin & He).
  apply list_elem_of_lookup in Hin as [k Hk]. eauto.
Qed.

Lemma lookup_planned d id l i k r plan :
  recorded ports d id l i → l !! k = Some r → ar_event r = Some (EvSuccessorPlanned plan) →
  successor_plan i = Some plan.
Proof using.
  intros Hr Hk He. apply (proj1 (session_plan _ _ _ (recorded_session _ _ _ _ _ Hr))).
  unfold journal_events. apply list_elem_of_omap. exists r. split; [|done].
  by eapply list_elem_of_lookup_2.
Qed.

(** The record the handover points at seals the plan. *)
Lemma predecessor_cut_spec d id l i plan :
  recorded ports d id l i → Z.of_nat (length l) ≤ u64_max → successor_plan i = Some plan →
  ∃ k r, l !! k = Some r ∧ ar_event r = Some (EvSuccessorPlanned plan) ∧
    predecessor_cut l (sp_plan_id plan) = Ok (ar_record_hash r, Z.of_nat k + 1).
Proof using.
  intros Hr Hb Hp. destruct (planned_lookup _ _ _ _ _ Hr Hp) as (k0 & r0 & Hk0 & He0).
  unfold predecessor_cut. destruct (List.find (seals (sp_plan_id plan)) l) as [r|] eqn:Hf.
  - apply find_Some_lookup in Hf as (k & Hk & Hs). exists k, r. unfold seals in Hs.
    destruct (ar_event r) as [[]|] eqn:He; try done.
    pose proof (lookup_planned _ _ _ _ _ _ _ Hr Hk He) as Hp'. rewrite Hp in Hp'. injection Hp' as <-.
    split_and!; [done|done|]. cbn. unfold StreamVersion_from_sequence. do 2 f_equal.
    destruct (sealed_verifies _ _ (recorded_sealed _ _ _ _ _ Hr)) as [Hv _].
    rewrite (verified_positions _ _ _ Hv Hk). apply lookup_lt_Some in Hk. lia.
  - exfalso. apply list_elem_of_lookup_2 in Hk0 as Hin. apply list_elem_of_In in Hin.
    pose proof (find_none _ _ Hf _ Hin) as Hs. unfold seals in Hs. rewrite He0 in Hs.
    by rewrite eqb_refl in Hs.
Qed.

(** ** Opening the successor *)

Lemma decide_plan_plans i c d es i' :
  decide i (CmdPlanSuccessor c) d = Ok es → apply_all i es = Ok i' →
  successor_plan i' = Some (cmd_succ_plan c).
Proof using.
  cbn [decide]. unfold decide_plan_successor. intros (u & _ & Hd)%bind_Ok Ha.
  destruct (successor_plan i) as [existing|] eqn:Hp.
  - destruct (existing == _) eqn:He; [|done]. apply eqb_true_1 in He as <-. injection Hd as <-.
    by injection Ha as <-.
  - invert_ok Hd. by injection Ha as <-.
Qed.

Lemma successor_session id successor context succession plan now es :
  decide_start_successor id successor context succession plan now = Ok es →
  now = sp_planned_at plan →
  ∃ i started, session (pub_definition successor) es i ∧ instance_id i = id ∧
    bound_definition i = Some (pub_digest successor) ∧
    definition_name i = def_name (pub_definition successor) ∧
    definition_version i = def_version (pub_definition successor) ∧
    es = EvCeremonyInstanceStarted started :: carried_opening plan ∧
    cis_ceremony_id started = id ∧ cis_succession started = Some succession ∧ cis_lineage started = None.
Proof using.
  intros Hd ->. pose proof Hd as Hd'. unfold decide_start_successor in Hd'.
  apply bind_Ok in Hd' as (started & Ho & [= <-]).
  set (started' := started <| cis_succession := Some succession |>) in *.
  destruct (apply_all_total (from_started started') (carried_opening plan)) as [i Hi].
  { intros e He. unfold carried_opening in He. destruct (_ =? _)%nat; [by apply not_elem_of_nil in He|].
    by apply list_elem_of_singleton in He as ->. }
  exists i, started'. split; [by eapply session_succeeds|].
  apply apply_all_identity in Hi; [|unfold carried_opening; by destruct (_ =? _)%nat].
  unfold opening in Ho. apply bind_Ok in Ho as (_ & _ & Ho). apply bind_Ok in Ho as (? & _ & Ho).
  apply bind_Ok in Ho as (? & _ & Ho). apply bind_Ok in Ho as (? & _ & [= <-]).
  injection Hi as -> -> -> _ -> _ _ _ _. done.
Qed.

(** The service that admits the successor's definition may read but is in order
    otherwise. *)
Definition gate_ok (reauthorize : option (AuthorizationRequest → io AuthorizationGateOutcome)) : Prop :=
  ∀ authorize, reauthorize = Some authorize →
  ∀ request w, wp ports (authorize request) w (gives (λ _ _, True) (λ _, True)).

(** The handover happened: the plan is sealed in the predecessor's stream, and
    the successor's stream starts from it. *)
Record handed_over (w : World) (input : StartCeremonySuccessorInput) (out : CeremonySuccessorOutcome)
    : Prop := {
  ho_plan_id : sp_plan_id (cso_plan out) = sci_plan_id input;
  ho_sealed : EvSuccessorPlanned (cso_plan out) ∈ journal_events (stream w (sci_instance_id input));
  ho_opened : ∃ started s rest,
    journal_events (stream w (sp_successor_id (cso_plan out))) =
      EvCeremonyInstanceStarted started :: carried_opening (cso_plan out) ++ rest ∧
    cis_succession started = Some s ∧ succ_predecessor_id s = sci_instance_id input ∧
    succ_plan_id s = sci_plan_id input;
  ho_answer : answered w (sp_successor_id (cso_plan out)) (cso_successor out);
}.

Lemma handed_over_grows w w' input out : grows w w' → handed_over w input out → handed_over w' input out.
Proof using.
  intros Hg [Hi Hs (started & s & rest & He & Hrest) Ha]. split; [done| | |by eapply answered_grows].
  - eapply elem_of_prefix; [done|]. apply journal_events_prefix, Hg.
  - destruct (journal_events_prefix _ _ (grows_streams _ _ Hg (sp_successor_id (cso_plan out)))) as [k Hk].
    exists started, s, (rest ++ k). by rewrite Hk, He, <-app_comm_cons, app_assoc.
Qed.

Context (Hst : authorizer_ok ports st).
Context (reauthorize : option (AuthorizationRequest → io AuthorizationGateOutcome)) (Hgate : gate_ok reauthorize).

Lemma wp_admitted t name version w :
  wp ports (require_definition_admitted t reauthorize name version) w (gives (λ _ _, True) (λ _, True)).
Proof using Hgate.
  unfold require_definition_admitted. destruct reauthorize as [authorize|] eqn:Ha; [|done].
  destruct (task_operation t) as [operation|]; [|done]. apply wp_lift_any. intros id _. apply wp_io_bind.
  eapply wp_conseq; [|by apply Hgate]. by intros [[]| |] w' _ _.
Qed.

(** The opening that names the record of its plan. *)
Lemma succeeding_backed w started s plan k r :
  cis_succession started = Some s → cis_lineage started = None →
  stream w (succ_predecessor_id s) !! k = Some r → ar_event r = Some (EvSuccessorPlanned plan) →
  succ_predecessor_head s = ar_record_hash r ∧ succ_predecessor_version s = Z.of_nat k + 1 ∧
    succ_plan_id s = sp_plan_id plan ∧ cis_ceremony_id started = sp_successor_id plan →
  backed w (EvCeremonyInstanceStarted started :: carried_opening plan).
Proof using.
  intros Hs Hl Hk He (Hh & Hv & Hp & Hi). split_and!.
  - rewrite Hs. intros s' [= <-]. exists k, r, plan, []. rewrite app_nil_r. by split_and!.
  - by rewrite Hl.
  - unfold carried_opening. destruct (_ =? _)%nat; by repeat constructor.
Qed.

(** Opening a stream from its plan, or verifying that it was. *)
Lemma wp_open_or_verify t trace plan opening i started w d :
  session d opening i → resolve_definition ports i = Ok d → backed w opening →
  instance_id i = sp_successor_id plan → opening = EvCeremonyInstanceStarted started :: carried_opening plan →
  wp ports (open_or_verify st t trace (sp_successor_id plan) plan opening) w
    (gives (λ j w', answered w' (sp_successor_id plan) j ∧
       opening `prefix_of` journal_events (stream w' (sp_successor_id plan))) (λ _, True)).
Proof using Hst.
  intros Hs Hres Hb Hid Hop. unfold open_or_verify. apply wp_lift_any. intros actor _. apply wp_bind.
  eapply wp_conseq; [|by apply (wp_open ports st _ w d opening i)].
  intros [s|e|] w1 Hg1; cbn [gives]; [| |done].
  - intros (<- & l & Hat & He). cbn [wp gives]. pose proof (at_cut _ _ _ _ _ Hat) as Hc. rewrite Hid in Hc.
    split; [by eapply cut_answered|]. rewrite <-He. apply journal_events_prefix, Hc.
  - intros _. destruct e; try done. apply wp_io_bind. eapply wp_conseq; [|apply wp_stream_records].
    intros [l|e|] w2 Hg2; cbn [gives]; [|done|done]. intros (d' & i' & Hc & _ & Hbd).
    apply wp_lift_any. intros u Hv. unfold verify_existing_opening in Hv.
    apply bind_Ok in Hv as (_ & _ & Hv). apply ensure_Ok in Hv.
    pose proof (proj2 Hc) as Hr. rewrite (fold_records_at ports _ _ _ _ Hr Hbd).
    apply wp_lift_any. intros s [= <-]. apply wp_mret. cbn [ls_instance].
    split; [by eapply cut_answered|].
    trans (journal_events l); [by eapply opens_with_prefix|apply journal_events_prefix, Hc].
Qed.

(** Whatever others do meanwhile, a handover that answers happened. *)
Lemma wp_start_successor t trace input now w :
  wp ports (start_ceremony_successor ports st t reauthorize trace input now) w
    (gives (λ out w', handed_over w' input out) (λ _, True)).
Proof using Hst Hgate Hports.
  unfold start_ceremony_successor. apply wp_io_bind. eapply wp_conseq; [|apply wp_stream_records].
  intros [l|e|] w1 Hg1; cbn [gives]; [|done|done]. intros (d & i & Hc & _ & Hb).
  pose proof (proj2 Hc) as Hr. rewrite (fold_records_at ports _ _ _ _ Hr Hb).
  apply wp_lift_any. intros s [= <-]. cbn [ls_instance]. apply wp_lift_any. intros [d' pred] Hres.
  assert (d' = d) as ->.
  { pose proof (recorded_definition _ _ _ _ _ Hr) as H. unfold resolve_definition in H. rewrite Hres in H.
    by injection H. }
  apply wp_io_bind. eapply wp_conseq; [|apply wp_admitted]. intros [u|e|] w2 Hg2; cbn [gives]; [|done|done].
  intros _. apply wp_lift_any. intros successor Hpub. apply wp_lift_any. intros plan Hplan.
  apply wp_lift_any. intros actor _.
  assert (instance_id i = sci_instance_id input) as Hid by apply Hr.
  assert (sp_plan_id plan = sci_plan_id input ∧ sp_planned_at plan = sp_planned_at plan) as [Hpid _].
  { unfold successor_plan_of in Hplan. apply bind_Ok in Hplan as (? & _ & (? & _ & [= <-])%bind_Ok). done. }
  eapply wp_execute_then; [done|by apply decides_decided| |].
  { constructor; cbn; [rewrite Hid; by eapply cut_grows|done|done]. }
  cbn [ls_instance]. intros s' w3 Hg3 Hid' (s0 & l0 & fs & HD & _ & _ & Ha & rs & Hat & _).
  apply bind_Ok in HD as (es & Hdec & Hfs%facts_events). rewrite Hfs in Ha.
  pose proof (decide_plan_plans _ _ _ _ _ Hdec Ha) as Hsp. cbn in Hsp.
  pose proof (at_cut _ _ _ _ _ Hat) as [Hpre Hrec]. rewrite Hid', Hid in Hpre, Hrec.
  unfold succession_of. apply wp_io_bind, wp_io_bind. eapply wp_conseq; [|apply wp_stream_records].
  intros [l2|e|] w4 Hg4; cbn [gives]; [|done|done]. intros (d2 & i2 & Hc2 & Hpre2 & Hb2).
  destruct (planned_lookup _ _ _ _ _ Hrec Hsp) as (k0 & r0 & Hk0 & He0).
  assert (l2 !! k0 = Some r0) as Hk2 by (eapply prefix_lookup_Some; [|exact Hpre2]; by eapply prefix_lookup_Some).
  pose proof (lookup_planned _ _ _ _ _ _ _ (proj2 Hc2) Hk2 He0) as Hsp2.
  destruct (predecessor_cut_spec _ _ _ _ _ (proj2 Hc2) Hb2 Hsp2) as (k & r & Hk & He & Hcut).
  rewrite Hcut. apply wp_lift_any. intros [head version] [= <- <-]. apply wp_mret.
  apply wp_lift_any. intros opening Hop.
  destruct (successor_session _ _ _ _ _ _ _ Hop eq_refl)
    as (i3 & started & Hs3 & Hid3 & Hbd3 & Hn3 & Hv3 & Hes & Hcid & Hsucc & Hlin).
  assert (stream w4 (sci_instance_id input) !! k = Some r) as Hkw
    by (eapply prefix_lookup_Some; [done|apply Hc2]).
  apply wp_io_bind. eapply wp_conseq; [|apply (wp_open_or_verify t trace plan opening i3 started w4
    (pub_definition successor)); [exact Hs3| | |exact Hid3|exact Hes]].
  - intros [j|e|] w5 Hg5; cbn [gives]; [|done|done]. intros [Hans [rest Hst3]]. apply wp_mret.
    split; cbn [cso_plan cso_successor]; [done| | |done].
    + eapply elem_of_prefix; [|apply journal_events_prefix, Hg5].
      unfold journal_events. apply list_elem_of_omap. exists r. split; [|done]. by eapply list_elem_of_lookup_2.
    + rewrite Hes in Hst3. exists started. eexists _, rest. rewrite Hst3. split_and!; [done|exact Hsucc|done|exact Hpid].
  - unfold resolve_definition, resolve_definition_pinned. rewrite Hbd3, Hn3, Hv3.
    unfold successor_publication in Hpub. apply bind_Ok in Hpub as ([p|] & Hpub & [= <-]).
    rewrite (published_keyed _ _ _ Hpub). cbn [mbind result_bind ok_or]. by rewrite eqb_refl.
  - rewrite Hes. by eapply (succeeding_backed w4 started); [exact Hsucc|done|done|done|].
Qed.
End handover.

(** ** Any number of callers *)

Section callers.
Context {Hsha : Sha256} {Hclk : Clock} {Hser : EvidenceSerde} {Haud : AuditSerde}.
Context (ports : Ports) {Hports : PortsLaws ports} (st : SessionStream).
Context (reauthorize : option (AuthorizationRequest → io AuthorizationGateOutcome)).

(** A caller drives a session, hands one over, prepares the children of a step,
    recovers a group of children or reports a child that ended. *)
Inductive errand :=
| Drives (id : CeremonyId)
| HandsOver (input : StartCeremonySuccessorInput)
| Prepares (input : PrepareCeremonyChildrenInput)
| Recovers (parent : CeremonyId) (group : string)
| Reports (input : AcceptChildCompletionInput).

Inductive answer :=
| Driven (i : CeremonyInstance)
| HandedOver (out : CeremonySuccessorOutcome)
| Prepared (out : PrepareCeremonyChildrenOutput)
| Recovered (out : option PrepareCeremonyChildrenOutput)
| Reported (out : AcceptChildCompletionOutput).

Inductive caller : errand → io answer → Prop :=
| caller_drives id p : usecase ports st id p → caller (Drives id) (i ← p; mret (Driven i))
| caller_hands_over t trace input now :
    caller (HandsOver input)
      (out ← start_ceremony_successor ports st t reauthorize trace input now; mret (HandedOver out))
| caller_prepares t clock traces input :
    caller (Prepares input)
      (out ← prepare_ceremony_children ports st t clock traces input; mret (Prepared out))
| caller_recovers t clock traces parent group :
    caller (Recovers parent group)
      (out ← recover_group ports st t clock traces parent group; mret (Recovered out))
| caller_reports t clock traces input :
    caller (Reports input)
      (out ← accept_child_completion ports st t clock traces input; mret (Reported out)).

(** What is true of the answer to an errand. *)
Definition errand_done (e : errand) (a : answer) (w : World) : Prop :=
  match e, a with
  | Drives id, Driven i => answered w id i
  | HandsOver input, HandedOver out => handed_over w input out
  | Prepares input, Prepared out => spawned ports w (pci_instance_id input) out
  | Recovers parent group, Recovered o => ∀ out, o = Some out → spawned ports w parent out
  | Reports input, Reported out => reported w input out
  | _, _ => False
  end.

Lemma errand_done_grows e a w w' : grows w w' → errand_done e a w → errand_done e a w'.
Proof using.
  intros Hg. destruct e, a; cbn; try done.
  - by apply answered_grows.
  - by apply handed_over_grows.
  - by apply outcome_grows.
  - intros H o Ho. eapply outcome_grows; [done|by apply H].
  - by apply reported_grows.
Qed.

Lemma wp_errand {A} (p : io A) (f : A → answer) e (Q : A → World → Prop) w :
  wp ports p w (gives Q (λ _, True)) → (∀ a w', Q a w' → errand_done e (f a) w') →
  wp ports (a ← p; mret (f a)) w (gives (errand_done e) (λ _, True)).
Proof using.
  intros Hp Hf. apply wp_io_bind. eapply wp_conseq; [|exact Hp].
  intros [a|e'|] w' _ H; cbn; [by apply Hf|done|done].
Qed.

Lemma wp_caller e p w :
  authorizer_ok ports st → gate_ok ports reauthorize → caller e p →
  wp ports p w (gives (errand_done e) (λ _, True)).
Proof using Hports.
  intros Hst Hgate [].
  - eapply wp_errand; [by apply (wp_usecase ports st Hst)|done].
  - eapply wp_errand; [by apply wp_start_successor|done].
  - eapply wp_errand; [by apply wp_prepare|done].
  - eapply wp_errand; [by apply wp_recover|]. intros a w' Ha. exact (proj2 Ha).
  - eapply wp_errand; [by apply wp_accept|done].
Qed.

Lemma callers_ok errands clients S :
  authorizer_ok ports st → gate_ok ports reauthorize → Forall2 caller errands clients →
  rtc sys_step (MkSystem World_default clients) S →
  sys_ok ports (λ n r w, ∀ e, errands !! n = Some e → gives (errand_done e) (λ _, True) r w) S.
Proof using Hports.
  intros Hst Hgate Hc Hrun.
  set (Q := λ n r w, ∀ e, errands !! n = Some e → gives (errand_done e) (λ _, True) r w).
  assert (sys_ok ports Q (MkSystem World_default clients)) as Hok.
  { constructor; [apply world_default_ok|done|]. cbn. intros n p Hn.
    destruct (Forall2_lookup_r _ _ _ _ _ Hc Hn) as (e & He & Hp). unfold Q.
    eapply wp_conseq; [|by apply (wp_caller e p)]. intros r w' _ H e' He'. congruence. }
  assert (stable Q) as HQ.
  { intros n r w1 w2 Hg H e He. specialize (H e He). destruct r; cbn in *; [by eapply errand_done_grows|done|done]. }
  by destruct (sys_steps_ok ports Q _ _ HQ Hrun Hok) as [HS _].
Qed.

(** C9: whatever ceremonies are driven, handed over and given children at the same time, in any
    interleaving and with any of the callers stopping at any point, every
    ceremony that says it succeeds another was planned: the record it names is in
    the predecessor's journal and seals a plan for exactly this ceremony, and it
    went on with the evidence that plan carries; and no ceremony has two
    successors. *)
Theorem successors_are_planned_and_unique errands clients S :
  authorizer_ok ports st → gate_ok ports reauthorize → Forall2 caller errands clients →
  rtc sys_step (MkSystem World_default clients) S →
  (∀ id started rest s, journal_events (stream (sys_world S) id) = EvCeremonyInstanceStarted started :: rest →
     cis_succession started = Some s → planned_in (sys_world S) s id rest) ∧
  (∀ id1 id2 started1 started2 rest1 rest2 s1 s2,
     journal_events (stream (sys_world S) id1) = EvCeremonyInstanceStarted started1 :: rest1 →
     journal_events (stream (sys_world S) id2) = EvCeremonyInstanceStarted started2 :: rest2 →
     cis_succession started1 = Some s1 → cis_succession started2 = Some s2 →
     succ_predecessor_id s1 = succ_predecessor_id s2 → id1 = id2).
Proof using Hports.
  intros Hst Hgate Hc Hrun. pose proof (sys_world_ok _ _ _ (callers_ok _ _ _ Hst Hgate Hc Hrun)) as Hw.
  set (w := sys_world S) in *.
  assert (∀ id started rest s, journal_events (stream w id) = EvCeremonyInstanceStarted started :: rest →
     cis_succession started = Some s → planned_in w s id rest) as Hplanned.
  { intros id started rest s He Hs. pose proof (ok_backed _ _ Hw id) as Hb. rewrite He in Hb.
    destruct (stream_recorded ports w id Hw) as (d & i & Hr); [intros Hn; by rewrite Hn in He|].
    rewrite <-(stream_opening ports _ _ _ _ _ _ Hr He). by apply (proj1 Hb). }
  split; [exact Hplanned|]. intros id1 id2 started1 started2 rest1 rest2 s1 s2 He1 He2 Hs1 Hs2 Hp.
  destruct (Hplanned _ _ _ _ He1 Hs1) as (k1 & r1 & plan1 & _ & Hk1 & Hr1 & _ & _ & _ & <- & _).
  destruct (Hplanned _ _ _ _ He2 Hs2) as (k2 & r2 & plan2 & _ & Hk2 & Hr2 & _ & _ & _ & <- & _).
  rewrite Hp in Hk1.
  destruct (stream_recorded ports w (succ_predecessor_id s2) Hw) as (d & i & Hr); [intros Hn; by rewrite Hn in Hk1|].
  pose proof (lookup_planned ports _ _ _ _ _ _ _ Hr Hk1 Hr1). pose proof (lookup_planned ports _ _ _ _ _ _ _ Hr Hk2 Hr2).
  congruence.
Qed.

(** C10: a handover that answers happened, whatever others do meanwhile: the plan
    it answers with is sealed in the predecessor's journal, the stream of the
    successor starts with the opening that plan makes and names it, and the
    session answered with is the fold of that stream up to some record. *)
Theorem answered_handover_happened errands clients S n input out :
  authorizer_ok ports st → gate_ok ports reauthorize → Forall2 caller errands clients →
  rtc sys_step (MkSystem World_default clients) S →
  errands !! n = Some (HandsOver input) → sys_clients S !! n = Some (Ret (Ok (HandedOver out))) →
  handed_over (sys_world S) input out.
Proof using Hports.
  intros Hst Hgate Hc Hrun He Hn.
  exact (sys_clients_ok _ _ _ (callers_ok _ _ _ Hst Hgate Hc Hrun) n _ Hn _ He).
Qed.
End callers.

(** ** A handover and its retry *)

#[local] Existing Instance plain_audit.

(** The demonstration is in the repository; a later version is published. *)
Definition handover_ports : Ports := {|
  definitions_get name version :=
    if (name == "planning") && (version == "1.0") then Ok demo else Err (NotFound "ceremony_definition");
  publications_published name version :=
    Ok (if (name == "planning") && (version == "1.1")
        then Some (MkPublishedCeremonyDefinition lighter "digest-1.1" MadeV1) else None);
  definition_digest _ := Ok "digest";
  recall_for _ _ := Ok None;
|}.

#[local] Instance handover_ports_laws : PortsLaws handover_ports.
Proof.
  split; cbn [handover_ports definitions_get definition_digest publications_published]; intros name version d.
  - destruct (_ && _); [|done]. intros [= <-]. reflexivity.
  - by eexists.
  - destruct (_ && _); [|done]. intros [= <-]. vm_compute. reflexivity.
Qed.

Lemma handover_stream_ok : authorizer_ok handover_ports open_stream.
Proof. by intros authorize [=]. Qed.

Lemma no_gate_ok : gate_ok handover_ports None.
Proof. by intros authorize [=]. Qed.

Definition handover_input : StartCeremonySuccessorInput := {|
  sci_instance_id := "ceremony-1"; sci_plan_id := "plan-1"; sci_definition_name := "planning";
  sci_definition_version := "1.1"; sci_carried := ["plan"]; sci_dispositions := [];
  sci_budget := BudgetFresh; sci_context_overrides := None; sci_actor_id := "lead";
  sci_actor_kind := ActorHuman;
|}.

Definition hand_over (now : Instant) : io CeremonySuccessorOutcome :=
  start_ceremony_successor handover_ports open_stream demo_task None (MkTraceContext "trace" "opening" "00")
    handover_input now.

(** A ceremony is started, its first step claimed and completed, and it is
    paused; then two callers hand it over at the same time. *)
Definition handover_errands : list errand :=
  replicate 4 (Drives "ceremony-1") ++ replicate 2 (HandsOver handover_input).

Definition handover_callers : list (io answer) :=
  [ (i ← start_ceremony handover_ports open_stream demo_task "ceremony-1" "planning" "1.0" ∅ "lead"
           ActorHuman 0; mret (Driven i));
    (i ← (out ← start_ceremony_step handover_ports open_stream demo_task "ceremony-1" "lead" ActorAgent
                  "plan" "worker" "key-1" 60000 None Explicit MaxParallel_SERVER_MAX 0;
          mret (sso_instance out)); mret (Driven i));
    (i ← complete_ceremony_step handover_ports open_stream demo_task "ceremony-1" "plan"
           (fence_of planning "plan") demo_success ActorAgent 5; mret (Driven i));
    (i ← pause_ceremony handover_ports open_stream demo_task "ceremony-1" "lead" ActorHuman "changed" 6;
     mret (Driven i));
    (out ← hand_over 7; mret (HandedOver out)); (out ← hand_over 8; mret (HandedOver out)) ].

Lemma handover_callers_ok :
  Forall2 (caller handover_ports open_stream None) handover_errands handover_callers.
Proof.
  constructor; [apply caller_drives, uc_start|]. constructor; [apply caller_drives, uc_start_step|].
  constructor; [apply caller_drives, uc_complete_step; reflexivity|].
  constructor; [apply caller_drives, uc_pause|].
  constructor; [apply caller_hands_over|]. constructor; [apply caller_hands_over|constructor].
Qed.

Definition handover_schedule : list nat :=
  replicate 3 0%nat ++ replicate 7 1%nat ++ replicate 7 2%nat ++ replicate 7 3%nat
  ++ replicate 7 4%nat ++ replicate 9 5%nat ++ replicate 6 4%nat.

Definition handover_system : System (outcome answer) :=
  played handover_schedule (MkSystem World_default handover_callers).

Lemma handover_run : rtc sys_step (MkSystem World_default handover_callers) handover_system.
Proof. apply played_steps. vm_compute. reflexivity. Qed.

(** The identifier the plan derives, with the stand-in for the digest. *)
Definition successor_id : CeremonyId := "ceremony-1.s.made.ceremony-su".

Definition handover_answer (n : nat) : CeremonySuccessorOutcome :=
  match sys_clients handover_system !! n with
  | Some (Ret (Ok (HandedOver out))) => out
  | _ => MkCeremonySuccessorOutcome demo_start
           (MkSuccessionPlan "" "" (MkDefinitionPin "" "" "") [] [] BudgetFresh "" 0)
  end.

Definition opening_of (w : World) (id : CeremonyId) : CeremonyInstanceStarted :=
  match journal_events (stream w id) with EvCeremonyInstanceStarted started :: _ => started | _ => demo_started end.

Definition succession_named (w : World) (id : CeremonyId) : CeremonySuccession :=
  default (MkCeremonySuccession "" "" 0 (MkDefinitionPin "" "" "") (MkDefinitionPin "" "" "") "")
    (cis_succession (opening_of w id)).

Lemma successors_are_planned_and_unique_witness :
  let w := sys_world handover_system in
  ar_event_type <$> stream w successor_id = [AT_CeremonyInstanceStarted; AT_SuccessionCarried] ∧
  planned_in w (succession_named w successor_id) successor_id (tail (journal_events (stream w successor_id))).
Proof.
  cbn zeta. split; [vm_compute; reflexivity|].
  apply (proj1 (successors_are_planned_and_unique handover_ports open_stream None handover_errands
    handover_callers handover_system handover_stream_ok no_gate_ok handover_callers_ok handover_run)
    successor_id (opening_of (sys_world handover_system) successor_id)); vm_compute; reflexivity.
Defined.

Lemma answered_handover_happened_witness :
  sp_successor_id (cso_plan (handover_answer 5)) = successor_id ∧
  handed_over (sys_world handover_system) handover_input (handover_answer 5).
Proof.
  split; [vm_compute; reflexivity|].
  refine (answered_handover_happened handover_ports open_stream None handover_errands handover_callers
    handover_system 5 handover_input _ handover_stream_ok no_gate_ok handover_callers_ok handover_run _ _);
    vm_compute; reflexivity.
Defined.

(** ** A handover that cannot be retried *)

(** The store once the handover is done, and once a guard of the predecessor was
    approved after it. *)
Definition handed_over_world : World := sys_world handover_system.
Definition approved_world : World :=
  (run (approve_ceremony_guard handover_ports open_stream demo_task "ceremony-1" "sign_off" "lead"
          ActorHuman 9) handed_over_world).2.

(** A retry of the request is answered as before; but the opening takes the
    context the predecessor has now, so that once a guard of the superseded
    ceremony is approved the retry takes the successor for a foreign ceremony. *)
Example approval_breaks_the_retry :
  is_ok (run (hand_over 10) handed_over_world).1 = true ∧
  (run (hand_over 10) approved_world).1 = Err (AlreadyExists "foreign_successor_ceremony").
Proof. vm_compute. split; reflexivity. Qed.
