(* ===== verification/Kinship.v ===== *)
(** * Ceremonies and their children

    Whatever ceremonies are driven, handed over, given children and reported at the
    same time: every child was planned by its parent and descends from a root in
    as many generations as it says, the guard that joins children counts children
    that ended, and a preparation that answers opened what was planned. *)

From S2P Require Import Prelude Errors Text Values Steps Definitions Interventions Instance.
From S2P Require Import Authorization AuditLog Fold Rules Decide DecideTable DecideLineage Engine.
From S2P Require Import Equality EventStore SessionStream UseCases Differences Succession Children.
From S2P Require Import Scenario Sessions Machine Journal Lifecycle Families Tamper.
From S2P Require Import Streams Interleaving Concurrency Openings Spawning Handover.

Lemma size_list_to_set_le (l : list string) : (size (list_to_set l : gset string) ≤ length l)%nat.
Proof.
  induction l as [|x l IH]; [done|]. cbn [list_to_set length].
  rewrite size_union_alt, size_singleton. trans (S (size (list_to_set l : gset string))); [|lia].
  apply le_n_S, subseteq_size. set_solver.
Qed.

Section kinship.
Context {Hsha : Sha256} {Hclk : Clock} {Hser : EvidenceSerde} {Haud : AuditSerde}.
Context (ports : Ports) {Hports : PortsLaws ports} (st : SessionStream).
Context (reauthorize : option (AuthorizationRequest → io AuthorizationGateOutcome)).

(** The opening of a stream. *)
Definition opened (w : World) (id : CeremonyId) (started : CeremonyInstanceStarted) : Prop :=
  ∃ rest, journal_events (stream w id) = EvCeremonyInstanceStarted started :: rest.

(** [descends w n id root]: following parents from [id], the [n]-th is [root],
    which was started on its own. *)
Inductive descends (w : World) : nat → CeremonyId → CeremonyId → Prop :=
| descends_root id started :
    opened w id started → cis_lineage started = None → descends w 0 id id
| descends_child n id started l root :
    opened w id started → cis_lineage started = Some l → descends w n (lin_parent_id l) root →
    descends w (S n) id root.

Lemma opened_backed w id started :
  world_ok ports w → opened w id started →
  cis_ceremony_id started = id ∧ ∀ l, cis_lineage started = Some l → spawned_in w l started.
Proof using.
  intros Hw [rest He]. pose proof (ok_backed _ _ Hw id) as Hb. rewrite He in Hb. split; [|apply Hb].
  destruct (stream_recorded ports w id Hw) as (d & i & Hr); [intros Hn; by rewrite Hn in He|].
  by eapply stream_opening.
Qed.

(** The parent of a child, and what the plan of the child was checked against. *)
Lemma parent_of_child w id started l :
  world_ok ports w → opened w id started → cis_lineage started = Some l →
  ∃ d i parent plan, recorded ports d (lin_parent_id l) (stream w (lin_parent_id l)) i ∧
    opened w (lin_parent_id l) parent ∧ lineage i = cis_lineage parent ∧ planned_under d i plan l.
Proof using.
  intros Hw Ho Hl. destruct (opened_backed w id started Hw Ho) as [_ Hs].
  destruct (Hs l Hl) as (k & r & plan & at_ & child & Hk & He & Hg & Hch & Hlin & _).
  destruct (stream_recorded ports w (lin_parent_id l) Hw) as (d & i & Hr); [intros Hn; by rewrite Hn in Hk|].
  destruct (session_opens _ _ _ (recorded_session _ _ _ _ _ Hr)) as (parent & rest & Hes).
  exists d, i, parent, plan. split_and!; [done|by exists rest|by eapply resolved_lineage|].
  rewrite <-Hlin. apply (cs_lineage _ _ _ (session_children _ _ _ (recorded_session _ _ _ _ _ Hr)) plan at_); [|done].
  unfold journal_events. apply list_elem_of_omap. exists r. split; [by eapply list_elem_of_lookup_2|done].
Qed.

Lemma planned_under_most d i plan l :
  planned_under d i plan l → lin_remaining_depth l ≤ MaxChildDepth_SERVER_MAX.
Proof using.
  intros [_ _ _ _ (step & spawn & _ & _ & Hrem)].
  unfold ChildDepthBudget_for_child, ChildDepthBudget_new in Hrem. invert_ok Hrem. lia.
Qed.

Lemma family_descends w : world_ok ports w → ∀ n id started l,
  opened w id started → cis_lineage started = Some l →
  (Z.to_nat (MaxChildDepth_SERVER_MAX - lin_remaining_depth l) < n)%nat →
  descends w (Z.to_nat (lin_depth l)) id (lin_root_id l) ∧ 1 ≤ lin_depth l ∧
  lin_depth l + lin_remaining_depth l ≤ MaxChildDepth_SERVER_MAX.
Proof using.
  intros Hw. induction n as [|n IH]; intros id started l Ho Hl Hn; [lia|].
  destruct (parent_of_child w id started l Hw Ho Hl) as (d & i & parent & plan & Hr & Hop & Hlin & Hp).
  pose proof (planned_under_less _ _ _ _ Hp) as Hless. pose proof (recorded_id _ _ _ _ _ Hr) as Hid.
  destruct Hp as [_ _ Hroot Hdepth _].
  unfold family_root_id, family_depth, remaining_depth in *. rewrite Hlin in *.
  destruct (cis_lineage parent) as [lp|] eqn:Hlp.
  - assert (lin_remaining_depth l < MaxChildDepth_SERVER_MAX) as Hmax.
    { destruct (parent_of_child w _ parent lp Hw Hop Hlp) as (d' & i' & _ & plan' & _ & _ & _ & Hp).
      pose proof (planned_under_most _ _ _ _ Hp). lia. }
    destruct (IH (lin_parent_id l) parent lp Hop Hlp) as (IHd & IH1 & IHb); [lia|].
    rewrite Hdepth, Hroot. split_and!; [|lia|lia].
    replace (Z.to_nat (lin_depth lp + 1)) with (S (Z.to_nat (lin_depth lp))) by lia.
    by eapply descends_child.
  - rewrite Hdepth, Hroot, Hid. split_and!; [|lia|unfold MaxChildDepth_SERVER_MAX in *; lia].
    eapply (descends_child w 0); [done|done|]. by eapply descends_root.
Qed.

(** ** Joining children *)

(** [ended w parent plan id]: the child [id] of the plan was opened as planned and
    its journal holds its completion. *)
Definition ended (w : World) (parent : CeremonyId) (plan : ChildSpawnPlan) (id : CeremonyId) : Prop :=
  ∃ child started c, child ∈ plan_children plan ∧ pc_child_id child = id ∧ opened w id started ∧
    cis_lineage started = Some (pc_lineage child) ∧ cis_context started = pc_context child ∧
    cis_bound_definition started = Some (pc_digest child) ∧ cc_child_id c = id ∧ completed_in w parent c.

Lemma completions_ended w id l d i gid g :
  world_ok ports w → l `prefix_of` stream w id → session d (journal_events l) i →
  child_groups i !! gid = Some g →
  ∀ child c, cg_completions g !! child = Some c → ended w id (cg_plan g) child.
Proof using.
  intros Hw Hpre Hs Hg child c Hc. pose proof (session_children _ _ _ Hs) as Hcs.
  destruct (sealed_completions _ _ (session_groups_sealed _ _ _ Hs _ _ Hg) _ _ Hc) as (<- & Hgid & _).
  destruct (cs_group _ _ _ Hcs _ _ Hg) as (Hpid & at_ & Hplan).
  destruct (cs_completion _ _ _ Hcs _ _ _ _ Hg Hc) as [at_' Hacc].
  pose proof (journal_events_prefix _ _ Hpre) as Hjp.
  apply (elem_of_prefix _ _ _ Hacc) in Hjp as Hacc'. apply (elem_of_prefix _ _ _ Hplan) in Hjp as Hplan'.
  destruct (stream_recorded ports w id Hw) as (df & i_f & Hr).
  { intros Hn. rewrite Hn in Hacc'. by apply not_elem_of_nil in Hacc'. }
  pose proof (session_children _ _ _ (recorded_session _ _ _ _ _ Hr)) as Hcf.
  destruct (session_opens _ _ _ (recorded_session _ _ _ _ _ Hr)) as (parent & rest & Hes).
  pose proof (ok_backed _ _ Hw id) as Hb. rewrite Hes in Hb, Hacc'.
  assert (completed_in w id c) as Hin.
  { apply elem_of_cons in Hacc' as [|Hacc']; [done|]. destruct Hb as (_ & _ & Hb).
    rewrite Forall_forall in Hb. specialize (Hb _ Hacc'). cbn in Hb.
    by rewrite (stream_opening ports _ _ _ _ _ _ Hr Hes) in Hb. }
  pose proof Hin as [_ (started & crest & lin & Hce & Hlin & Hlp & Hlg)].
  assert (opened w (cc_child_id c) started) as Ho by (by exists crest).
  destruct (opened_backed w _ started Hw Ho) as [Hid Hsp].
  destruct (Hsp lin Hlin) as (k & r & plan & at2 & ch & Hk & He & Hpg & Hch & Hcl & Hcid & Hctx & Hdig & _).
  rewrite Hlp in Hk. assert (EvChildSpawnPlanned plan at2 ∈ journal_events (stream w id)) as Hplan2.
  { unfold journal_events. apply list_elem_of_omap. exists r. split; [by eapply list_elem_of_lookup_2|done]. }
  apply (cs_plan _ _ _ Hcf) in Hplan2, Hplan'. rewrite Hpg, Hlg, Hgid in Hplan2. rewrite Hpid in Hplan'.
  assert (plan = cg_plan g) as -> by congruence.
  exists ch, started, c. split_and!; try done; congruence.
Qed.

Lemma group_sealed_planned w id l d i gid g :
  world_ok ports w → l `prefix_of` stream w id → session d (journal_events l) i →
  child_groups i !! gid = Some g → plan_sealed w id (cg_plan g).
Proof using.
  intros Hw Hpre Hs Hg. destruct (cs_group _ _ _ (session_children _ _ _ Hs) _ _ Hg) as (_ & at_ & Hplan).
  pose proof (elem_of_prefix _ _ _ Hplan (journal_events_prefix _ _ Hpre)) as Hin.
  destruct (stream_recorded ports w id Hw) as (df & i_f & Hr).
  { intros Hn. rewrite Hn in Hin. by apply not_elem_of_nil in Hin. }
  split; [by exists at_|]. intros child Hch.
  destruct (cs_lineage _ _ _ (session_children _ _ _ (recorded_session _ _ _ _ _ Hr)) _ _ _ Hin Hch) as [Hp Hgr _ _ _].
  by rewrite Hp, (recorded_id _ _ _ _ _ Hr).
Qed.

(** The guard of a group that is satisfied, by what its children did. *)
Lemma join_counts w id l d i gid g join :
  world_ok ports w → l `prefix_of` stream w id → session d (journal_events l) i →
  child_groups i !! gid = Some g →
  child_join_is_satisfied join (size (cg_completions g)) (length (plan_children (cg_plan g))) = true →
  ∃ done : gset CeremonyId,
    (∀ child, child ∈ done → ended w id (cg_plan g) child) ∧
    child_join_is_satisfied join (size done) (length (plan_children (cg_plan g))) = true ∧
    (join = JoinAll → ∀ child, child ∈ plan_children (cg_plan g) → pc_child_id child ∈ done).
Proof using.
  intros Hw Hpre Hs Hg Hj. exists (dom (cg_completions g)). split_and!.
  - intros child [c Hc]%elem_of_dom. by eapply completions_ended.
  - by rewrite size_dom.
  - intros -> child Hch. apply andb_true_iff in Hj as [_ Hj%Nat.eqb_eq].
    set (ids := pc_child_id <$> plan_children (cg_plan g)).
    assert (dom (cg_completions g) ⊆ list_to_set ids) as Hsub.
    { intros k [c Hk]%elem_of_dom.
      destruct (sealed_completions _ _ (session_groups_sealed _ _ _ Hs _ _ Hg) _ _ Hk) as (_ & _ & ?).
      by apply elem_of_list_to_set. }
    assert (size (list_to_set ids : gset string) ≤ length (plan_children (cg_plan g)))%nat as Hle.
    { rewrite <-(length_fmap pc_child_id). apply size_list_to_set_le. }
    rewrite <-size_dom in Hj. apply set_subseteq_size_eq in Hsub; [|lia].
    rewrite Hsub. apply elem_of_list_to_set. by apply list_elem_of_fmap_2.
Qed.

(** ** Theorems *)

(** C12: whatever ceremonies are driven, handed over and given children at the same
    time, in any interleaving and with any of the callers stopping at any point,
    every ceremony that says it has a parent was planned: its parent's journal
    seals the plan of the group it names, with this child and the opening it has;
    and following parents leads, in as many generations as the ceremony says, to
    the root it names, which was started on its own.  A generation and the depth
    it has left to spend make up at most sixteen. *)
Theorem every_child_was_planned errands clients S id started l :
  authorizer_ok ports st → gate_ok ports reauthorize →
  Forall2 (caller ports st reauthorize) errands clients →
  rtc sys_step (MkSystem World_default clients) S →
  opened (sys_world S) id started → cis_lineage started = Some l →
  cis_ceremony_id started = id ∧ spawned_in (sys_world S) l started ∧
  descends (sys_world S) (Z.to_nat (lin_depth l)) id (lin_root_id l) ∧
  1 ≤ lin_depth l ∧ lin_depth l + lin_remaining_depth l ≤ 16.
Proof using Hports.
  intros Hst Hgate Hc Hrun Ho Hl.
  pose proof (sys_world_ok _ _ _ (callers_ok _ _ _ _ _ _ Hst Hgate Hc Hrun)) as Hw.
  destruct (opened_backed _ _ _ Hw Ho) as [Hid Hs]. split_and!; [done|by apply Hs|..];
    destruct (family_descends _ Hw _ id started l Ho Hl (Nat.lt_succ_diag_r _)) as (? & ? & ?); done.
Qed.

(** C11: a guard that joins children counts children that ended.  When the guard of
    a step is satisfied for a session, at any point of its stream, there is a set
    of children, as large as the guard asks for and all of them where it asks for
    all, each of which was opened as the step planned it and completed: its own
    journal holds the completion. *)
Theorem joins_count_ended_children errands clients S id l d i step join :
  authorizer_ok ports st → gate_ok ports reauthorize →
  Forall2 (caller ports st reauthorize) errands clients →
  rtc sys_step (MkSystem World_default clients) S →
  l `prefix_of` stream (sys_world S) id → session d (journal_events l) i →
  children_completed_guard_is_satisfied i step join = true →
  ∃ plan (done : gset CeremonyId),
    plan_sealed (sys_world S) id plan ∧ coord_step_id (plan_coordinates plan) = step ∧
    (∀ child, child ∈ done → ended (sys_world S) id plan child) ∧
    child_join_is_satisfied join (size done) (length (plan_children plan)) = true ∧
    (join = JoinAll → ∀ child, child ∈ plan_children plan → pc_child_id child ∈ done).
Proof using Hports.
  intros Hst Hgate Hc Hrun Hpre Hs Hj.
  pose proof (sys_world_ok _ _ _ (callers_ok _ _ _ _ _ _ Hst Hgate Hc Hrun)) as Hw.
  unfold children_completed_guard_is_satisfied in Hj. destruct (step_records i !! step) as [record|]; [|done].
  apply is_some_and_true in Hj as (g & Hg & [Hco%eqb_true_1 Hj]%andb_true_iff).
  destruct (join_counts _ _ _ _ _ _ _ _ Hw Hpre Hs Hg Hj) as (done & Hdone).
  exists (cg_plan g), done. split_and!; try apply Hdone; [|by rewrite Hco].
  by eapply group_sealed_planned.
Qed.

(** A preparation of the children of a step that answers happened, whatever
    others do meanwhile: the plan of the group it answers with is sealed in the
    journal of the ceremony, every child of the plan is open and its journal starts
    with the opening planned for it, and the session answered with is the fold of
    the ceremony's stream up to some record. *)
Theorem answered_preparation_happened errands clients S n input out :
  authorizer_ok ports st → gate_ok ports reauthorize →
  Forall2 (caller ports st reauthorize) errands clients →
  rtc sys_step (MkSystem World_default clients) S →
  errands !! n = Some (Prepares input) → sys_clients S !! n = Some (Ret (Ok (Prepared out))) →
  spawned ports (sys_world S) (pci_instance_id input) out.
Proof using Hports.
  intros Hst Hgate Hc Hrun He Hn.
  exact (sys_clients_ok _ _ _ (callers_ok _ _ _ _ _ _ Hst Hgate Hc Hrun) n _ Hn _ He).
Qed.
End kinship.

(** ** A ceremony with two children *)

#[local] Existing Instance plain_audit.

(** A short printable stand-in for the digest. *)
Definition checksum (s : string) : string :=
  decimal (foldl (λ acc c, (acc * 257 + Z.of_N (Ascii.N_of_ascii c)) mod 1000000007) 7
             (String.list_ascii_of_string s)).
#[local] Instance checksum_sha : Sha256 := checksum.

Definition kin_step (id : StepId) (state : StateId) : CeremonyStep := demo_step id state None.

Definition kin_states (open_ closed : StateId) : gmap string CeremonyState :=
  {[ open_ := demo_state open_ Initial Sequential; closed := demo_state closed Terminal Sequential ]}.

(** The child looks at something and closes. *)
Definition look_definition : CeremonyDefinition := {|
  def_name := "look"; def_version := "1.0"; def_description := None;
  def_inputs := ∅; def_outputs := ∅;
  def_states := kin_states "looking" "closed";
  def_transitions := [MkCeremonyTransition "looking" "closed" "close" {["looked"]}];
  def_steps := {[ "look" := kin_step "look" "looking" ]}; def_step_order := ["look"];
  def_guards := {[ "looked" := MkCeremonyGuard "looked" (StepStatusIs "look" Completed) ]};
  def_roles := {[ "looker" := MkCeremonyRole "looker" {[ ActStep "look"; ActTransition "close" ]} ]};
  def_max_parallel := 1; def_max_transitions := None; def_max_bounces := None;
  def_ceremony_timeout := None; def_state_timeout := None;
|}.

Definition look_spec : CeremonyChildSpec := MkCeremonyChildSpec "look" "1.0" ∅.

Definition spawn_step : CeremonyStep :=
  (kin_step "spawn" "spawning") <| step_spawn := Some (MkCeremonyChildSpawn [look_spec; look_spec] 2 3) |>.

(** The parent spawns two of them and ends when both did. *)
Definition spawn_definition : CeremonyDefinition := {|
  def_name := "spawn"; def_version := "1.0"; def_description := None;
  def_inputs := ∅; def_outputs := ∅;
  def_states := kin_states "spawning" "joined";
  def_transitions := [MkCeremonyTransition "spawning" "joined" "join" {["all_done"]}];
  def_steps := {[ "spawn" := spawn_step ]};
  def_step_order := ["spawn"];
  def_guards := {[ "all_done" := MkCeremonyGuard "all_done" (ChildrenCompleted "spawn" JoinAll) ]};
  def_roles := {[ "spawner" := MkCeremonyRole "spawner" {[ ActStep "spawn"; ActTransition "join" ]} ]};
  def_max_parallel := 1; def_max_transitions := None; def_max_bounces := None;
  def_ceremony_timeout := None; def_state_timeout := None;
|}.

Definition kin_ports : Ports := {|
  definitions_get name version :=
    if (name == "spawn") && (version == "1.0") then Ok spawn_definition
    else Err (NotFound "ceremony_definition");
  publications_published name version :=
    Ok (if (name == "look") && (version == "1.0")
        then Some (MkPublishedCeremonyDefinition look_definition "digest-look" MadeV1) else None);
  definition_digest _ := Ok "digest";
  recall_for _ _ := Ok None;
|}.

#[local] Instance kin_ports_laws : PortsLaws kin_ports.
Proof.
  split; cbn [kin_ports definitions_get definition_digest publications_published]; intros name version d.
  - destruct (_ && _); [|done]. intros [= <-]. reflexivity.
  - by eexists.
  - destruct (_ && _); [|done]. intros [= <-]. vm_compute. reflexivity.
Qed.

Lemma kin_stream_ok : authorizer_ok kin_ports open_stream.
Proof. by intros authorize [=]. Qed.

Lemma kin_gate_ok : gate_ok kin_ports None.
Proof. by intros authorize [=]. Qed.

(** Driving one of the ceremonies. *)
Definition kin_claim (id : CeremonyId) (role : RoleId) (step : StepId) : io answer :=
  i ← (out ← start_ceremony_step kin_ports open_stream demo_task id role ActorAgent step "worker"
               ("key-" +:+ step) 60000 None Explicit MaxParallel_SERVER_MAX 1;
       mret (sso_instance out)); mret (Driven i).

Definition kin_prepare (fence : StepClaimFence) : io answer :=
  out ← prepare_ceremony_children kin_ports open_stream demo_task (λ _, 2)
          (λ n _, MkTraceContext "trace" (decimal (Z.of_nat n)) "00")
          (MkPrepareCeremonyChildrenInput "parent" "spawn" fence ActorAgent); mret (Prepared out).

Definition kin_finish (id : CeremonyId) (fence : StepClaimFence) : io answer :=
  i ← complete_ceremony_step kin_ports open_stream demo_task id "look" fence demo_success ActorAgent 3;
  mret (Driven i).

Definition kin_close (id : CeremonyId) : io answer :=
  i ← apply_ceremony_transition kin_ports open_stream demo_task id "looker" ActorAgent "close" 4;
  mret (Driven i).

Definition kin_report (id : CeremonyId) (terminal : string) : io answer :=
  out ← accept_child_completion kin_ports open_stream demo_task (λ _, 5)
          (λ n _, MkTraceContext "trace" (decimal (Z.of_nat n)) "00")
          (MkAcceptChildCompletionInput id terminal); mret (Reported out).

Definition kin_open : list (io answer) :=
  [ (i ← start_ceremony kin_ports open_stream demo_task "parent" "spawn" "1.0" ∅ "spawner" ActorHuman 0;
     mret (Driven i));
    kin_claim "parent" "spawner" "spawn" ].

Definition left_child : CeremonyId := "child-239505633".
Definition right_child : CeremonyId := "child-239505634".
Definition kin_terminal (id : CeremonyId) : string := id +:+ ":ceremony_completed:transition:1".

(** The parent is started and its step claimed; two workers prepare its children
    at the same time; the children are worked to their end and reported. *)
Definition kin_callers : list (io answer) :=
  kin_open ++ replicate 2 (kin_prepare "692950932")
  ++ [kin_claim left_child "looker" "look"; kin_claim right_child "looker" "look";
      kin_finish left_child "631030069"; kin_finish right_child "523579384";
      kin_close left_child; kin_close right_child;
      kin_report left_child (kin_terminal left_child); kin_report right_child (kin_terminal right_child)].

Definition kin_errands : list errand :=
  replicate 2 (Drives "parent")
  ++ replicate 2 (Prepares (MkPrepareCeremonyChildrenInput "parent" "spawn" "692950932" ActorAgent))
  ++ [Drives left_child; Drives right_child; Drives left_child; Drives right_child;
      Drives left_child; Drives right_child;
      Reports (MkAcceptChildCompletionInput left_child (kin_terminal left_child));
      Reports (MkAcceptChildCompletionInput right_child (kin_terminal right_child))].

Lemma kin_callers_ok : Forall2 (caller kin_ports open_stream None) kin_errands kin_callers.
Proof.
  constructor; [apply caller_drives, uc_start|]. constructor; [apply caller_drives, uc_start_step|].
  do 2 (constructor; [apply caller_prepares|]). do 2 (constructor; [apply caller_drives, uc_start_step|]).
  do 2 (constructor; [apply caller_drives, uc_complete_step; reflexivity|]).
  do 2 (constructor; [apply caller_drives, uc_transition|]).
  do 2 (constructor; [apply caller_reports|]). constructor.
Qed.

Definition kin_schedule : list nat :=
  replicate 3 0%nat ++ replicate 7 1%nat ++ replicate 8 2%nat ++ replicate 18 3%nat ++ replicate 10 2%nat
  ++ replicate 7 4%nat ++ replicate 7 5%nat ++ replicate 7 6%nat ++ replicate 7 7%nat
  ++ replicate 7 8%nat ++ replicate 7 9%nat ++ replicate 10 10%nat ++ replicate 10 11%nat.

Definition kin_system : System (outcome answer) :=
  played kin_schedule (MkSystem World_default kin_callers).

Lemma kin_run : rtc sys_step (MkSystem World_default kin_callers) kin_system.
Proof. apply played_steps. vm_compute. reflexivity. Qed.

Definition kin_world : World := sys_world kin_system.

Definition kin_started (id : CeremonyId) : CeremonyInstanceStarted :=
  match journal_events (stream kin_world id) with
  | EvCeremonyInstanceStarted started :: _ => started
  | _ => demo_started
  end.

Lemma kin_opened id : stream kin_world id ≠ [] → opened kin_world id (kin_started id).
Proof.
  intros Hne. pose proof (sys_world_ok _ _ _ (callers_ok _ _ _ _ _ _ kin_stream_ok kin_gate_ok
    kin_callers_ok kin_run)) as Hw.
  destruct (stream_recorded kin_ports kin_world id Hw Hne) as (d & i & Hr).
  destruct (session_opens _ _ _ (recorded_session _ _ _ _ _ Hr)) as (started & rest & He).
  exists rest. unfold kin_started. by rewrite He.
Qed.

Definition kin_lineage : CeremonyLineage :=
  default (MkCeremonyLineage "" "" "" 0 0 0) (cis_lineage (kin_started right_child)).

Lemma every_child_was_planned_witness :
  lin_parent_id kin_lineage = "parent" ∧ lin_position kin_lineage = 1 ∧ lin_remaining_depth kin_lineage = 2 ∧
  (cis_ceremony_id (kin_started right_child) = right_child ∧
   spawned_in kin_world kin_lineage (kin_started right_child) ∧
   descends kin_world (Z.to_nat (lin_depth kin_lineage)) right_child (lin_root_id kin_lineage) ∧
   1 ≤ lin_depth kin_lineage ∧ lin_depth kin_lineage + lin_remaining_depth kin_lineage ≤ 16).
Proof.
  do 3 (split; [vm_compute; reflexivity|]).
  refine (every_child_was_planned kin_ports open_stream None kin_errands kin_callers kin_system right_child
    (kin_started right_child) kin_lineage kin_stream_ok kin_gate_ok kin_callers_ok kin_run _ _).
  - apply kin_opened. vm_compute. discriminate.
  - vm_compute. reflexivity.
Defined.

Definition kin_session (id : CeremonyId) : CeremonyInstance :=
  match rehydrate (journal_events (stream kin_world id)) with Ok i => i | _ => demo_start end.

Lemma kin_parent_session :
  session spawn_definition (journal_events (stream kin_world "parent")) (kin_session "parent").
Proof.
  pose proof (sys_world_ok _ _ _ (callers_ok _ _ _ _ _ _ kin_stream_ok kin_gate_ok kin_callers_ok kin_run)) as Hw.
  destruct (stream_recorded kin_ports kin_world "parent" Hw) as (d & i & Hr); [vm_compute; discriminate|].
  assert (i = kin_session "parent") as ->
    by (unfold kin_session; by rewrite (session_replays _ _ _ (recorded_session _ _ _ _ _ Hr))).
  assert (resolve_definition kin_ports (kin_session "parent") = Ok spawn_definition) as Hd
    by (vm_compute; reflexivity).
  pose proof (recorded_definition _ _ _ _ _ Hr) as Hd'. rewrite Hd in Hd'. injection Hd' as <-. apply Hr.
Qed.

Lemma joins_count_ended_children_witness :
  ∃ plan (done : gset CeremonyId),
    plan_sealed kin_world "parent" plan ∧ coord_step_id (plan_coordinates plan) = "spawn" ∧
    (∀ child, child ∈ done → ended kin_world "parent" plan child) ∧
    child_join_is_satisfied JoinAll (size done) (length (plan_children plan)) = true ∧
    (JoinAll = JoinAll → ∀ child, child ∈ plan_children plan → pc_child_id child ∈ done).
Proof.
  refine (joins_count_ended_children kin_ports open_stream None kin_errands kin_callers kin_system "parent"
    (stream kin_world "parent") spawn_definition (kin_session "parent") "spawn" JoinAll
    kin_stream_ok kin_gate_ok kin_callers_ok kin_run _ kin_parent_session _).
  - reflexivity.
  - vm_compute. reflexivity.
Defined.

Definition kin_prepared : PrepareCeremonyChildrenOutput :=
  match sys_clients kin_system !! 2%nat with
  | Some (Ret (Ok (Prepared out))) => out
  | _ => MkPrepareCeremonyChildrenOutput demo_start "" [] demo_success
  end.

Lemma answered_preparation_happened_witness :
  pco_child_ids kin_prepared = [left_child; right_child] ∧ spawned kin_ports kin_world "parent" kin_prepared.
Proof.
  split; [vm_compute; reflexivity|].
  refine (answered_preparation_happened kin_ports open_stream None kin_errands kin_callers kin_system 2
    (MkPrepareCeremonyChildrenInput "parent" "spawn" "692950932" ActorAgent) kin_prepared
    kin_stream_ok kin_gate_ok kin_callers_ok kin_run _ _); vm_compute; reflexivity.
Defined.
