(* ===== verification/Feed.v ===== *)
(** * Consumers of one feed

    The programs of Cursors sharing the event store and the cursors with each
    other and with the services of the sessions.  [FeedWorld] adds to the stores
    what happened so far: the leases handed out, the deliveries the transports
    accepted and refused, the recoveries acknowledged, the failures recorded with
    the error of the recovery that failed, and the positions acknowledged by a pull.
    Every consumer name may be used by publishers, pulls and recoveries alike.  As in Interleaving a program is verified under interference: between
    two of its calls all that is known is that this record and the stores have
    grown ([fgrows]) and are in order ([feed_ok]). *)

From S2P Require Import Prelude Errors Text Values Steps Definitions Interventions Instance.
From S2P Require Import Authorization AuditLog Fold Rules Decide DecideTable DecideLineage Engine.
From S2P Require Import Equality EventStore SessionStream UseCases Differences Succession Children Cursors.
From S2P Require Import Scenario Sessions Machine Journal Lifecycle Families Tamper.
From S2P Require Import Streams Interleaving Concurrency GlobalOrder Openings Spawning.

(** What the outside answers to one call. *)
Record Env := MkEnv {
  env_now : Instant;
  env_uuid : string;
  env_accepts : outcome unit;
}.

Record FeedWorld := MkFeedWorld {
  fw_world : World;
  fw_cursors : Cursors;
  fw_leases : list CeremonyEventCursorLease;
  fw_delivered : list (CeremonyEventCursorLease * PositionedRecord);
  fw_refused : list (CeremonyEventCursorLease * PositionedRecord);
  fw_recovered : list (CeremonyEventCursorLease * PositionedRecord);
  fw_failed : list (CeremonyEventCursorLease * option DomainError);
  fw_pulled : list (string * Z);
}.

#[export] Instance FeedWorld_eta : Eta FeedWorld := λ fw,
  MkFeedWorld (fw_world fw) (fw_cursors fw) (fw_leases fw) (fw_delivered fw) (fw_refused fw)
    (fw_recovered fw) (fw_failed fw) (fw_pulled fw).

Definition FeedWorld_default : FeedWorld := MkFeedWorld World_default ∅ [] [] [] [] [] [].

(** The cursor of a consumer and the last position it acknowledged. *)
Definition cursor (fw : FeedWorld) (c : string) : CursorState := cursor_of (fw_cursors fw) c.
Definition acknowledged (s : CursorState) : Z := default 0 (cs_acknowledged_through s).

Section running.
Context {Hclk : Clock} {Haud : AuditSerde}.

Definition run_fop (env : Env) {A} (op : FeedOp A) (fw : FeedWorld) : A * FeedWorld :=
  let cs := fw_cursors fw in
  match op with
  | FeedStore op => let '(a, w) := run_op op (fw_world fw) in (a, fw <| fw_world := w |>)
  | FeedNow => (env_now env, fw)
  | FeedUuid => (env_uuid env, fw)
  | FeedSleep _ => (tt, fw)
  | FeedDeliver lease record =>
      (env_accepts env,
       match env_accepts env with
       | Ok _ => fw <| fw_delivered := fw_delivered fw ++ [(lease, record)] |>
       | Err _ => fw <| fw_refused := fw_refused fw ++ [(lease, record)] |>
       | Panic => fw
       end)
  | CurPosition consumer => (cursor_position cs consumer, fw)
  | CurLease consumer lease_id now duration =>
      let '(a, cs) := cursor_lease cs consumer lease_id now duration in
      (a, fw <| fw_cursors := cs |>
             <| fw_leases := fw_leases fw ++ match a with Ok (Some lease) => [lease] | _ => [] end |>)
  | CurAcknowledge consumer through =>
      let '(a, cs) := cursor_acknowledge cs consumer through in
      (a, fw <| fw_cursors := cs |>
             <| fw_pulled := fw_pulled fw ++ match a with Ok _ => [(consumer, through)] | _ => [] end |>)
  | CurAcknowledgeLease lease through work =>
      let '(a, cs) := cursor_acknowledge_lease cs lease through in
      (a, fw <| fw_cursors := cs |>
             <| fw_recovered := fw_recovered fw ++
                  match a, work with Ok _, Some record => [(lease, record)] | _, _ => [] end |>)
  | CurMarkFailed lease position cause =>
      let '(a, cs) := cursor_mark_failed cs lease position in
      (a, fw <| fw_cursors := cs |>
             <| fw_failed := fw_failed fw ++ match a with Ok _ => [(lease, cause)] | _ => [] end |>)
  | CurQuarantine lease position reason now =>
      let '(a, cs) := cursor_quarantine cs lease position reason now in (a, fw <| fw_cursors := cs |>)
  | CurRelease lease => let '(a, cs) := cursor_release cs lease in (a, fw <| fw_cursors := cs |>)
  | CurQuarantined consumer => (cursor_quarantined cs consumer, fw)
  end.

(** A call that can happen: the log stays a vector in memory, and no identifier
    is generated twice. *)
Definition possible {A} (op : FeedOp A) (fw fw' : FeedWorld) : Prop :=
  fits (fw_world fw') ∧
  match op with CurLease _ id _ _ => id ∉ cl_lease_id <$> fw_leases fw | _ => True end.

Record FeedSystem (A : Type) := MkFeedSystem { fs_world : FeedWorld; fs_clients : list (fprog A) }.
Arguments MkFeedSystem {A} _ _.
Arguments fs_world {A} _.
Arguments fs_clients {A} _.

Inductive feed_step {A} : FeedSystem A → FeedSystem A → Prop :=
| feed_calls {B} env fw clients n (op : FeedOp B) (k : B → fprog A) :
    clients !! n = Some (FVis op k) → possible op fw (run_fop env op fw).2 →
    feed_step (MkFeedSystem fw clients)
      (MkFeedSystem (run_fop env op fw).2 (<[n := k (run_fop env op fw).1]> clients)).
End running.

Arguments MkFeedSystem {A} _ _.
Arguments fs_world {A} _.
Arguments fs_clients {A} _.

(** ** What holds of the feed *)

Section feed.
Context {Hsha : Sha256} {Hclk : Clock} {Hser : EvidenceSerde} {Haud : AuditSerde}.
Context (ports : Ports).

(** The stores and what happened so far only grow. *)
Record seen (fw fw' : FeedWorld) : Prop := MkSeen {
  seen_world : grows (fw_world fw) (fw_world fw');
  seen_leases : fw_leases fw `prefix_of` fw_leases fw';
  seen_delivered : fw_delivered fw `prefix_of` fw_delivered fw';
  seen_refused : fw_refused fw `prefix_of` fw_refused fw';
  seen_recovered : fw_recovered fw `prefix_of` fw_recovered fw';
  seen_failed : fw_failed fw `prefix_of` fw_failed fw';
  seen_pulled : fw_pulled fw `prefix_of` fw_pulled fw';
}.

#[export] Instance seen_preorder : PreOrder seen.
Proof using.
  split; [intros fw; constructor; reflexivity|].
  intros fw1 fw2 fw3 [? ? ? ? ? ? ?] [? ? ? ? ? ? ?]. constructor; (etrans; [eassumption|assumption]).
Qed.

(** A cursor moves forward and keeps what it gave up on. *)
Definition moves_on (s s' : CursorState) : Prop :=
  acknowledged s ≤ acknowledged s' ∧ cs_quarantined s `prefix_of` cs_quarantined s'.

Record fgrows (fw fw' : FeedWorld) : Prop := MkFgrows {
  fg_seen : seen fw fw';
  fg_cursors : ∀ c, moves_on (cursor fw c) (cursor fw' c);
}.

#[export] Instance fgrows_preorder : PreOrder fgrows.
Proof using.
  split.
  - intros fw. constructor; [reflexivity|]. intros c. split; [lia|done].
  - intros fw1 fw2 fw3 [H1 C1] [H2 C2]. constructor; [by trans fw2|]. intros c.
    destruct (C1 c), (C2 c). split; [lia|by trans (cs_quarantined (cursor fw2 c))].
Qed.

(** What recovery owes to a record: the children planned in it are open, and a
    child that ended was accepted by its parent. *)
Definition recovered (w : World) (record : AuditRecord) : Prop :=
  match ar_event record with
  | Some (EvChildSpawnPlanned plan _) => group_open ports w (ar_ceremony_id record) (plan_group_id plan)
  | Some (EvChildSpawnPlanAdopted group _ _) => group_open ports w (ar_ceremony_id record) group
  | Some (EvCeremonyCompleted _ _) =>
      ∃ started rest, journal_events (stream w (ar_ceremony_id record)) = EvCeremonyInstanceStarted started :: rest ∧
        ∀ l, cis_lineage started = Some l → ∃ completion at_,
          cc_child_id completion = ar_ceremony_id record ∧
          cc_terminal_event_id completion = ar_event_id record ∧
          EvChildCompletionAccepted completion at_ ∈ journal_events (stream w (lin_parent_id l))
  | _ => True
  end.

(** Why a consumer is past a position. *)
Definition handled (fw : FeedWorld) (c : string) (quarantined : list QuarantinedCeremonyEvent) (p : Z) : Prop :=
  (∃ l pr, (l, pr) ∈ fw_delivered fw ∧ cl_consumer l = c ∧ pr_position pr = p) ∨
  (∃ l pr, (l, pr) ∈ fw_recovered fw ∧ cl_consumer l = c ∧ pr_position pr = p) ∨
  (∃ q, q ∈ quarantined ∧ qe_position q = p) ∨
  (∃ through, (c, through) ∈ fw_pulled fw ∧ p ≤ through).

(** The failures recorded for a consumer at a position. *)
Definition failures_at (fw : FeedWorld) (c : string) (p : Z) : list CeremonyEventCursorLease :=
  filter (λ l, cl_consumer l = c ∧ lease_next_position l = p) (fw_failed fw).*1.

Definition quarantine_ok (fw : FeedWorld) (c : string) (s : CursorState) (q : QuarantinedCeremonyEvent) : Prop :=
  qe_consumer q = c ∧ 1 ≤ qe_position q ≤ acknowledged s ∧ MAX_ATTEMPTS ≤ qe_attempts q ∧
  (Z.to_nat (qe_attempts q) ≤ length (failures_at fw c (qe_position q)))%nat.

Record cursor_ok (fw : FeedWorld) (c : string) (s : CursorState) : Prop := MkCursorOk {
  co_acknowledged : ∀ p, cs_acknowledged_through s = Some p →
    1 ≤ p ≤ Z.of_nat (length (es_log (w_store (fw_world fw))));
  co_lease : ∀ l, cs_lease s = Some l → l ∈ fw_leases fw ∧ cl_consumer l = c ∧
    cl_acknowledged_through l = cs_acknowledged_through s ∧ cl_attempt l = cs_attempt s ∧ l ∉ (fw_failed fw).*1;
  co_handled : ∀ p, 1 ≤ p ≤ acknowledged s → handled fw c (cs_quarantined s) p;
  co_attempt : 0 ≤ cs_attempt s;
  co_failures : (Z.to_nat (cs_attempt s) ≤ length (failures_at fw c (following (cs_acknowledged_through s))))%nat;
  co_quarantined : Forall (quarantine_ok fw c s) (cs_quarantined s);
  co_sorted : StronglySorted Z.lt (qe_position <$> cs_quarantined s);
}.

(** A delivery was made of the record at the position of its lease. *)
Definition tried (fw : FeedWorld) (attempt : CeremonyEventCursorLease * PositionedRecord) : Prop :=
  attempt.1 ∈ fw_leases fw ∧ durable (fw_world fw) attempt.2 ∧
  pr_position attempt.2 = lease_next_position attempt.1.

Record feed_ok (fw : FeedWorld) : Prop := MkFeedOk {
  fo_world : world_ok ports (fw_world fw);
  fo_fits : fits (fw_world fw);
  fo_leases : NoDup (cl_lease_id <$> fw_leases fw);
  fo_delivered : Forall (tried fw) (fw_delivered fw);
  fo_refused : Forall (tried fw) (fw_refused fw);
  fo_recovered : Forall (λ work, tried fw work ∧ recovered (fw_world fw) (pr_record work.2)) (fw_recovered fw);
  fo_failed : NoDup (fw_failed fw).*1;
  fo_reasons : ∀ l cause, (l, cause) ∈ fw_failed fw → l ∈ fw_leases fw ∧
    (cause = None → ∃ pr, (l, pr) ∈ fw_refused fw);
  fo_cursors : ∀ c, cursor_ok fw c (cursor fw c);
}.

Lemma feed_default_ok : feed_ok FeedWorld_default.
Proof using.
  constructor; [apply world_default_ok|done|by constructor..| |].
  - intros l cause Hl. by apply not_elem_of_nil in Hl.
  - intros c. change (cursor FeedWorld_default c) with CursorState_default.
    constructor; [done|done| |done|apply Nat.le_0_l|constructor..].
    intros p. unfold acknowledged. cbn. lia.
Qed.

(** ** Monotonicity *)

Lemma recovered_grows w w' record : grows w w' → recovered w record → recovered w' record.
Proof using.
  intros Hg. unfold recovered. destruct (ar_event record) as [e|]; [|done].
  destruct e; try done; try (by apply group_open_grows).
  intros (started & rest & Hj & Hl).
  destruct (journal_events_prefix _ _ (grows_streams _ _ Hg (ar_ceremony_id record))) as [more Hm].
  exists started, (rest ++ more). rewrite Hm, Hj. split; [done|]. intros l Hlin.
  destruct (Hl l Hlin) as (c & at_ & Hc & Ht & Hin). exists c, at_. split_and!; [done|done|].
  eapply elem_of_prefix; [done|]. apply journal_events_prefix, Hg.
Qed.

Lemma handled_mono fw fw' c qs qs' p :
  seen fw fw' → qs `prefix_of` qs' → handled fw c qs p → handled fw' c qs' p.
Proof using.
  intros [_ _ Hd _ Hr _ Hp] Hq.
  intros [(l & pr & Hin & ?)|[(l & pr & Hin & ?)|[(q & Hin & ?)|(t & Hin & ?)]]].
  - left. exists l, pr. split; [by eapply elem_of_prefix|done].
  - right. left. exists l, pr. split; [by eapply elem_of_prefix|done].
  - right. right. left. exists q. split; [by eapply elem_of_prefix|done].
  - right. right. right. exists t. split; [by eapply elem_of_prefix|done].
Qed.

Lemma failures_mono fw fw' c p :
  seen fw fw' → (length (failures_at fw c p) ≤ length (failures_at fw' c p))%nat.
Proof using.
  intros [_ _ _ _ _ [more Hf] _]. unfold failures_at. rewrite Hf, fmap_app, filter_app, length_app. lia.
Qed.

Lemma tried_mono fw fw' attempt : seen fw fw' → tried fw attempt → tried fw' attempt.
Proof using.
  intros Hs (Hl & Hd & Hp). split_and!; [|by eapply durable_grows, Hd; apply Hs|done].
  eapply elem_of_prefix; [done|apply Hs].
Qed.

Lemma quarantine_mono fw fw' c s s' q :
  seen fw fw' → acknowledged s ≤ acknowledged s' → quarantine_ok fw c s q → quarantine_ok fw' c s' q.
Proof using.
  intros Hs Ha (Hc & Hp & Hm & Hf). pose proof (failures_mono fw fw' c (qe_position q) Hs).
  split_and!; [done|lia|lia|done|lia].
Qed.

(** A cursor nobody touched. *)
Lemma cursor_ok_mono fw fw' c s :
  seen fw fw' → (∀ l, l ∈ (fw_failed fw').*1 → cl_consumer l = c → l ∈ (fw_failed fw).*1) →
  cursor_ok fw c s → cursor_ok fw' c s.
Proof using.
  intros Hs Hn [Ha Hl Hh H0 Hf Hq Hsort]. constructor; [| | |done| | |done].
  - intros p Hp. specialize (Ha p Hp). pose proof (prefix_length _ _ (grows_log _ _ (seen_world _ _ Hs))). lia.
  - intros l Hll. destruct (Hl l Hll) as (Hin & Hc & ? & ? & Hno). split_and!; [|done..|].
    + eapply elem_of_prefix; [done|apply Hs].
    + intros Hin'. by apply Hno, Hn.
  - intros p Hp. eapply handled_mono; [done|reflexivity|by apply Hh].
  - pose proof (failures_mono fw fw' c (following (cs_acknowledged_through s)) Hs). lia.
  - eapply Forall_impl; [exact Hq|]. intros q. apply quarantine_mono; [done|lia].
Qed.

(** ** What calls do *)

(** What a call left alone stays in order. *)
Lemma feed_kept fw fw' :
  feed_ok fw → seen fw fw' → fw_cursors fw' = fw_cursors fw → fw_failed fw' = fw_failed fw →
  world_ok ports (fw_world fw') → fits (fw_world fw') → NoDup (cl_lease_id <$> fw_leases fw') →
  Forall (tried fw') (drop (length (fw_delivered fw)) (fw_delivered fw')) →
  Forall (tried fw') (drop (length (fw_refused fw)) (fw_refused fw')) →
  Forall (λ work, tried fw' work ∧ recovered (fw_world fw') (pr_record work.2))
    (drop (length (fw_recovered fw)) (fw_recovered fw')) → feed_ok fw' ∧ fgrows fw fw'.
Proof using.
  intros Hok Hs Hc Hf Hw Hfits Hn Hd Hr Hv. pose proof Hs as [Hgw Hl [d Hd'] [r Hr'] [v Hv'] _ _].
  assert (∀ l, Forall (tried fw) l → Forall (tried fw') l) as Ht
    by (intros l H; eapply Forall_impl; [exact H|]; intros a; by apply tried_mono).
  rewrite Hd', drop_app_length in Hd. rewrite Hr', drop_app_length in Hr. rewrite Hv', drop_app_length in Hv. split; [constructor|constructor].
  - done.
  - done.
  - done.
  - rewrite Hd'. apply Forall_app. split; [|done]. apply Ht, (fo_delivered _ Hok).
  - rewrite Hr'. apply Forall_app. split; [|done]. apply Ht, (fo_refused _ Hok).
  - rewrite Hv'. apply Forall_app. split; [|done]. eapply Forall_impl; [apply (fo_recovered _ Hok)|].
    intros work [? ?]. split; [by apply (tried_mono fw)|by apply (recovered_grows (fw_world fw))].
  - rewrite Hf. apply (fo_failed _ Hok).
  - rewrite Hf. intros l cause Hin. destruct (fo_reasons _ Hok l cause Hin) as [Hil Href]. split; [by eapply elem_of_prefix|].
    intros Hrec. destruct (Href Hrec) as [pr Hpr]. exists pr. rewrite Hr'. set_solver.
  - intros c. unfold cursor. rewrite Hc. apply (cursor_ok_mono fw); [done| |apply (fo_cursors _ Hok)].
    intros l. by rewrite Hf.
  - done.
  - intros c. unfold cursor. rewrite Hc. split; [lia|done].
Qed.

Lemma cursor_insert fw c s c' :
  cursor (fw <| fw_cursors := <[c := s]> (fw_cursors fw) |>) c' = if base.decide (c' = c) then s else cursor fw c'.
Proof using.
  unfold cursor, cursor_of. change (fw_cursors (fw <| fw_cursors := <[c := s]> (fw_cursors fw) |>)) with (<[c := s]> (fw_cursors fw)).
  case_decide as Heq; [subst; by rewrite lookup_insert_eq|by rewrite lookup_insert_ne].
Qed.

(** A cursor that was changed. *)
Lemma cursor_set fw c s :
  feed_ok fw → cursor_ok fw c s → moves_on (cursor fw c) s →
  let fw' := fw <| fw_cursors := <[c := s]> (fw_cursors fw) |> in feed_ok fw' ∧ fgrows fw fw'.
Proof using.
  intros Hok Hs Ha fw'. assert (seen fw fw') as Hseen by (constructor; reflexivity).
  pose proof (cursor_insert fw c s) as Hc. fold fw' in Hc.
  destruct Hok as [Hw Hf Hl Hd Hr Hv Hfd Hre Hcs]. split; constructor; try done.
  - intros c'. rewrite Hc. apply (cursor_ok_mono fw); [done|done|].
    case_decide; [by subst|apply Hcs].
  - intros c'. rewrite Hc. case_decide; [by subst|]. split; [lia|done].
Qed.

(** Looking at a cursor creates it. *)
Lemma cursor_touched fw c :
  feed_ok fw →
  let fw' := fw <| fw_cursors := <[c := cursor fw c]> (fw_cursors fw) |> in feed_ok fw' ∧ fgrows fw fw'.
Proof using.
  intros Hok. apply cursor_set; [done|apply (fo_cursors _ Hok)|]. split; [lia|done].
Qed.

Lemma acknowledged_following fw c s :
  feed_ok fw → cursor_ok fw c s →
  0 ≤ acknowledged s ≤ Z.of_nat (length (es_log (w_store (fw_world fw)))) ∧
  following (cs_acknowledged_through s) = acknowledged s + 1.
Proof using.
  intros Hok Hc. pose proof (fo_fits _ Hok) as Hf. unfold fits in Hf. unfold acknowledged, following.
  destruct (cs_acknowledged_through s) as [p|] eqn:Hp; cbn; [|unfold GlobalPosition_FIRST; lia].
  pose proof (co_acknowledged _ _ _ Hc p Hp). rewrite GlobalPosition_next_below by lia. lia.
Qed.

(** The lease a cursor holds is the one its holder has. *)
Lemma lease_is_held fw c l :
  feed_ok fw → l ∈ fw_leases fw → holds_lease (cursor fw c) l = true → cs_lease (cursor fw c) = Some l.
Proof using.
  intros Hok Hl Hh. unfold holds_lease in Hh. destruct (cs_lease (cursor fw c)) as [l'|] eqn:Hl'; [|done].
  cbn in Hh. apply eqb_true_1 in Hh. f_equal.
  destruct (co_lease _ _ _ (fo_cursors _ Hok c) l' Hl') as (Hin & _).
  apply list_elem_of_lookup in Hl as [i Hi], Hin as [j Hj].
  assert (i = j) as <-.
  { eapply (NoDup_lookup _ i j (cl_lease_id l) (fo_leases _ Hok)); rewrite list_lookup_fmap.
    - by rewrite Hi.
    - rewrite Hj. cbn. by rewrite Hh. }
  congruence.
Qed.

(** What the holder knows of its cursor. *)
Lemma lease_held fw l :
  feed_ok fw → l ∈ fw_leases fw → holds_lease (cursor fw (cl_consumer l)) l = true →
  let s := cursor fw (cl_consumer l) in
  cs_lease s = Some l ∧ cl_attempt l = cs_attempt s ∧ l ∉ (fw_failed fw).*1 ∧
  lease_next_position l = acknowledged s + 1 ∧ following (cs_acknowledged_through s) = acknowledged s + 1.
Proof using.
  intros Hok Hl Hh s. pose proof (fo_cursors _ Hok (cl_consumer l)) as Hc.
  pose proof (lease_is_held _ _ _ Hok Hl Hh) as Hs.
  destruct (co_lease _ _ _ Hc l Hs) as (_ & _ & Ha & Hat & Hno).
  destruct (acknowledged_following _ _ _ Hok Hc) as [_ Hf].
  split_and!; [done|done|done| |done]. unfold lease_next_position. by rewrite Ha.
Qed.

(** A cursor moved forward to [t]. *)
Lemma moved_forward fw c s t qs :
  cursor_ok fw c s → acknowledged s < t ≤ Z.of_nat (length (es_log (w_store (fw_world fw)))) →
  0 ≤ acknowledged s → cs_quarantined s `prefix_of` qs →
  (∀ p, acknowledged s < p ≤ t → handled fw c qs p) →
  Forall (quarantine_ok fw c (MkCursorState (Some t) CursorAttempt_NONE None qs)) qs →
  StronglySorted Z.lt (qe_position <$> qs) →
  let s' := MkCursorState (Some t) CursorAttempt_NONE None qs in cursor_ok fw c s' ∧ moves_on s s'.
Proof using.
  intros Hc Ht H0 Hqs Hh Hq Hsort s'. split; [constructor|split]; cbn; [| | |done| |done|done| |done].
  - intros p [= <-]. lia.
  - done.
  - intros p [Hp1 Hp2]. unfold acknowledged in Hp2. cbn in Hp2.
    destruct (Z.le_gt_cases p (acknowledged s)) as [Hle|Hgt]; [|by apply Hh].
    eapply handled_mono; [reflexivity|done|]. by apply (co_handled _ _ _ Hc).
  - apply Nat.le_0_l.
  - lia.
Qed.

Lemma quarantined_kept fw c s t qs :
  acknowledged s ≤ t → Forall (quarantine_ok fw c s) qs →
  Forall (quarantine_ok fw c (MkCursorState (Some t) CursorAttempt_NONE None (cs_quarantined s))) qs.
Proof using.
  intros Ht H. eapply Forall_impl; [exact H|]. intros q. apply quarantine_mono; [reflexivity|done].
Qed.

Lemma durable_position w pr :
  world_ok ports w → durable w pr → 1 ≤ pr_position pr ≤ Z.of_nat (length (es_log (w_store w))).
Proof using.
  intros Hw (k & id & q & Hk & _). rewrite (log_positions _ (ok_log _ _ Hw) _ _ _ _ Hk).
  apply lookup_lt_Some in Hk. lia.
Qed.

(** [keeps env op fw]: the call leaves the feed in order. *)
Definition keeps (env : Env) {A} (op : FeedOp A) (fw : FeedWorld) : Prop :=
  feed_ok (run_fop env op fw).2 ∧ fgrows fw (run_fop env op fw).2.

Lemma keeps_store env {A} (op : StoreOp A) fw :
  feed_ok fw → world_ok ports (run_op op (fw_world fw)).2 → grows (fw_world fw) (run_op op (fw_world fw)).2 →
  fits (run_op op (fw_world fw)).2 → keeps env (FeedStore op) fw.
Proof using.
  intros Hok Hw Hg Hf. unfold keeps. cbn [run_fop].
  destruct (run_op op (fw_world fw)) as [a w]; cbn [snd] in *.
  apply feed_kept; try done; cbn; rewrite ?drop_all; try done. apply Hok.
Qed.

Lemma keeps_deliver env lease pr fw :
  feed_ok fw → tried fw (lease, pr) → keeps env (FeedDeliver lease pr) fw.
Proof using.
  intros Hok Ht. unfold keeps. cbn [run_fop snd]. destruct (env_accepts env) as [u|e|]; [| |by split].
  all: match goal with |- feed_ok ?x ∧ _ => set (fw' := x) end.
  all: assert (seen fw fw') as Hs by (constructor; cbn; try reflexivity; by eexists).
  all: apply feed_kept; try done; try (apply Hok); cbn; rewrite ?drop_all, ?drop_app_length; try done.
  all: constructor; [|done]; by eapply tried_mono.
Qed.

Lemma lease_cases fw c id now duration :
  let s := cursor fw c in
  (∃ a, (∀ l, a ≠ Ok (Some l)) ∧ cursor_lease (fw_cursors fw) c id now duration = (a, <[c := s]> (fw_cursors fw))) ∨
  ∃ until, let l := MkCeremonyEventCursorLease c id (cs_acknowledged_through s) (cs_attempt s) until in
    cursor_lease (fw_cursors fw) c id now duration
      = (Ok (Some l), <[c := s <| cs_lease := Some l |>]> (fw_cursors fw)).
Proof using.
  unfold cursor_lease, cursor. destruct (is_some_and _ _); [left; by exists (Ok None)|].
  destruct (checked_add_ms now duration); [right; by eexists|left; by exists Panic].
Qed.

Lemma keeps_lease env c id now duration fw :
  feed_ok fw → id ∉ cl_lease_id <$> fw_leases fw → keeps env (CurLease c id now duration) fw.
Proof using.
  intros Hok Hid. unfold keeps. cbn [run_fop].
  destruct (lease_cases fw c id now duration) as [(a & Ha & ->)|[until ->]]; cbn [snd].
  - assert (match a with Ok (Some l) => [l] | _ => [] end = []) as -> by (destruct a as [[]| |]; try done; by edestruct Ha).
    rewrite app_nil_r. exact (cursor_touched fw c Hok).
  - set (l := MkCeremonyEventCursorLease _ _ _ _ _).
    set (fw1 := fw <| fw_leases := fw_leases fw ++ [l] |>).
    assert (seen fw fw1) as Hs by (constructor; cbn; try reflexivity; by eexists).
    destruct (feed_kept fw fw1) as [Hok1 Hg1]; try done; try (apply Hok); cbn; rewrite ?drop_all; try done.
    { rewrite fmap_app. apply NoDup_app. split_and!; [apply Hok| |apply NoDup_singleton].
      intros x Hx ->%list_elem_of_singleton. done. }
    destruct (cursor_set fw1 c ((cursor fw c) <| cs_lease := Some l |>)) as [Hok2 Hg2]; [done| | |].
    + destruct (fo_cursors _ Hok1 c) as [H1 H2 H3 H4 H5 H6 H7]. change (cursor fw1 c) with (cursor fw c) in *.
      constructor; try done. cbn. intros l' [= <-]. split_and!; [set_solver|done..|].
      intros ([l' cause] & Heq & Hin)%list_elem_of_fmap. cbn in Heq. subst l'.
      apply Hid, list_elem_of_fmap. exists l. split; [done|]. by apply (fo_reasons _ Hok l cause).
    + split; reflexivity.
    + split; [exact Hok2|by trans fw1].
Qed.

Lemma with_lease_cases fw l p change :
  let c := cl_consumer l in
  (holds_lease (cursor fw c) l = true ∧ p = lease_next_position l ∧
   with_lease (fw_cursors fw) l p change = (Ok tt, <[c := change (cursor fw c)]> (fw_cursors fw))) ∨
  with_lease (fw_cursors fw) l p change = (Err cursor_conflict, <[c := cursor fw c]> (fw_cursors fw)).
Proof using.
  unfold with_lease, require_lease, cursor. destruct (holds_lease _ l); [|by right]. cbn [negb orb].
  destruct (Z.eqb_spec p (lease_next_position l)) as [->|]; [by left|by right].
Qed.

Lemma evidence_position fw l pr :
  feed_ok fw → durable (fw_world fw) pr → pr_position pr = lease_next_position l →
  lease_next_position l ≤ Z.of_nat (length (es_log (w_store (fw_world fw)))).
Proof using. intros Hok Hd <-. by apply durable_position, Hd; apply Hok. Qed.

Lemma acknowledged_lease l pr fw :
  feed_ok fw → l ∈ fw_leases fw → durable (fw_world fw) pr → pr_position pr = lease_next_position l →
  handled fw (cl_consumer l) [] (pr_position pr) →
  let cs := (cursor_acknowledge_lease (fw_cursors fw) l (pr_position pr)).2 in
  feed_ok (fw <| fw_cursors := cs |>) ∧ fgrows fw (fw <| fw_cursors := cs |>).
Proof using.
  intros Hok Hl Hd Hpos Hh. unfold cursor_acknowledge_lease.
  destruct (with_lease_cases fw l (pr_position pr) (acknowledge_state (pr_position pr))) as [(Hheld & _ & ->)| ->];
    cbn [snd]; [|exact (cursor_touched fw _ Hok)].
  destruct (lease_held _ _ Hok Hl Hheld) as (_ & _ & _ & Hnext & _).
  pose proof (evidence_position _ _ _ Hok Hd Hpos). set (s := cursor fw (cl_consumer l)) in *.
  pose proof (fo_cursors _ Hok (cl_consumer l)) as Hc. destruct (acknowledged_following _ _ _ Hok Hc) as [Hb _].
  fold s in Hc, Hb. destruct (moved_forward fw (cl_consumer l) s (pr_position pr) (cs_quarantined s)) as [H1 H2].
  - done.
  - lia.
  - lia.
  - done.
  - intros p Hp. replace p with (pr_position pr) by lia.
    eapply handled_mono; [reflexivity|apply prefix_nil|done].
  - apply quarantined_kept; [lia|apply (co_quarantined _ _ _ Hc)].
  - apply (co_sorted _ _ _ Hc).
  - exact (cursor_set fw _ _ Hok H1 H2).
Qed.

(** What the transport accepted. *)
Lemma keeps_delivered env l pr fw :
  feed_ok fw → (l, pr) ∈ fw_delivered fw → keeps env (CurAcknowledgeLease l (pr_position pr) None) fw.
Proof using.
  intros Hok Hin. destruct (proj1 (Forall_forall _ _) (fo_delivered _ Hok) _ Hin) as (Hl & Hd & Hp). cbn in Hl, Hd, Hp.
  destruct (acknowledged_lease l pr fw Hok Hl Hd Hp) as [H1 H2]; [left; by exists l, pr|].
  unfold keeps. cbn [run_fop]. destruct (cursor_acknowledge_lease _ l _) as [a cs]. cbn [snd] in *.
  assert (match a with Ok _ => [] | _ => [] end = @nil (CeremonyEventCursorLease * PositionedRecord)) as ->
    by (by destruct a). rewrite app_nil_r. by split.
Qed.

(** What was recovered. *)
Lemma keeps_recovered env l pr fw :
  feed_ok fw → l ∈ fw_leases fw → durable (fw_world fw) pr → pr_position pr = lease_next_position l →
  recovered (fw_world fw) (pr_record pr) → keeps env (CurAcknowledgeLease l (pr_position pr) (Some pr)) fw.
Proof using.
  intros Hok Hl Hd Hp Hr. set (fw1 := fw <| fw_recovered := fw_recovered fw ++ [(l, pr)] |>).
  assert (seen fw fw1) as Hs by (constructor; cbn; try reflexivity; by eexists).
  destruct (feed_kept fw fw1) as [Hok1 Hg1]; try done; try (apply Hok); cbn; rewrite ?drop_all, ?drop_app_length; try done.
  { constructor; [|done]. split; [by apply (tried_mono fw)|done]. }
  unfold keeps. cbn [run_fop]. destruct (with_lease_cases fw l (pr_position pr) (acknowledge_state (pr_position pr)))
    as [(_ & _ & Hw)|Hw]; unfold cursor_acknowledge_lease; rewrite Hw; cbn [snd].
  - destruct (acknowledged_lease l pr fw1 Hok1 Hl Hd Hp) as [H1 H2].
    { right. left. exists l, pr. split_and!; [cbn; set_solver|done..]. }
    change (fw_cursors fw1) with (fw_cursors fw) in H1, H2. unfold cursor_acknowledge_lease in H1, H2.
    rewrite Hw in H1, H2. split; [exact H1|trans fw1; [done|exact H2]].
  - rewrite app_nil_r. exact (cursor_touched fw _ Hok).
Qed.

Lemma keeps_acknowledge env c t pr fw :
  feed_ok fw → durable (fw_world fw) pr → pr_position pr = t → keeps env (CurAcknowledge c t) fw.
Proof using.
  intros Hok Hd <-. pose proof (durable_position _ _ (fo_world _ Hok) Hd) as Hp. set (t := pr_position pr) in *.
  unfold keeps. cbn [run_fop]. unfold cursor_acknowledge. change (cursor_of (fw_cursors fw) c) with (cursor fw c).
  pose proof (fo_cursors _ Hok c) as Hc. destruct (acknowledged_following _ _ _ Hok Hc) as [Hb _].
  set (fw1 := fw <| fw_pulled := fw_pulled fw ++ [(c, t)] |>).
  assert (seen fw fw1) as Hs by (constructor; cbn; try reflexivity; by eexists).
  assert (feed_ok fw1 ∧ fgrows fw fw1) as [Hok1 Hg1].
  { apply feed_kept; try done; try (apply Hok); cbn; by rewrite drop_all. }
  pose proof (fo_cursors _ Hok1 c) as Hc1. change (cursor fw1 c) with (cursor fw c) in Hc1.
  destruct (is_some_and (cs_acknowledged_through (cursor fw c)) _) eqn:Hold; cbn [snd].
  { destruct (cursor_touched fw1 c Hok1) as [H1 H2]. split; [exact H1|by trans fw1]. }
  destruct (cs_lease (cursor fw c)) as [l|] eqn:Hfree; cbn [is_some snd].
  { rewrite app_nil_r. exact (cursor_touched fw c Hok). }
  assert (acknowledged (cursor fw c) < t) as Hlt.
  { unfold acknowledged. destruct (cs_acknowledged_through (cursor fw c)) as [p|]; cbn in *; lia. }
  destruct (moved_forward fw1 c (cursor fw c) t (cs_quarantined (cursor fw c))) as [H1 H2].
  - done.
  - split; [done|]. apply Hp.
  - lia.
  - done.
  - intros p Hpt. right. right. right. exists t. split; [cbn; set_solver|lia].
  - apply quarantined_kept; [lia|apply (co_quarantined _ _ _ Hc1)].
  - apply (co_sorted _ _ _ Hc1).
  - destruct (cursor_set fw1 c (MkCursorState (Some t) CursorAttempt_NONE None
      (cs_quarantined (cursor fw c))) Hok1 H1 H2) as [H3 H4].
    rewrite <-Hfree in H3, H4. split; [exact H3|trans fw1; [done|exact H4]].
Qed.

Lemma failed_cursor fw l :
  feed_ok fw → l ∈ fw_leases fw → holds_lease (cursor fw (cl_consumer l)) l = true →
  let fw1 := fw <| fw_cursors := <[cl_consumer l := (cursor fw (cl_consumer l)) <| cs_lease := None |>]> (fw_cursors fw) |> in
  feed_ok fw1 ∧ fgrows fw fw1 ∧ l ∉ (fw_failed fw).*1 ∧ ∀ c l', cs_lease (cursor fw1 c) = Some l' → l' ≠ l.
Proof using.
  intros Hok Hl Hheld fw1. destruct (lease_held _ _ Hok Hl Hheld) as (_ & _ & Hno & _ & _).
  destruct (cursor_set fw (cl_consumer l) ((cursor fw (cl_consumer l)) <| cs_lease := None |>)) as [H1 H2]; [done| | |].
  - destruct (fo_cursors _ Hok (cl_consumer l)). by constructor.
  - split; reflexivity.
  - split_and!; [exact H1|exact H2|done|]. intros c l' Hc ->.
    pose proof (co_lease _ _ _ (fo_cursors _ H1 c) l Hc) as (_ & <- & _). revert Hc.
    unfold fw1. rewrite cursor_insert, decide_True by done. done.
Qed.

(** Recording a failure of a lease that is no longer held. *)
Lemma failure_recorded fw l cause :
  feed_ok fw → l ∈ fw_leases fw → l ∉ (fw_failed fw).*1 → (∀ c l', cs_lease (cursor fw c) = Some l' → l' ≠ l) →
  (cause = None → ∃ pr, (l, pr) ∈ fw_refused fw) →
  let fw' := fw <| fw_failed := fw_failed fw ++ [(l, cause)] |> in feed_ok fw' ∧ fgrows fw fw'.
Proof using.
  intros Hok Hl Hno Hfree Href fw'. pose proof Hok as [Hw Hf Hn Hd Hr Hv Hfd Hre Hcs].
  assert (seen fw fw') as Hs by (constructor; cbn; try reflexivity; by eexists).
  split; constructor; try done.
  - cbn. rewrite fmap_app. apply NoDup_app. split_and!; [done| |apply NoDup_singleton].
    intros x Hx ->%list_elem_of_singleton. done.
  - cbn. intros l' cause' [Hin|[= -> ->]%list_elem_of_singleton]%elem_of_app; [by apply (Hre l' cause')|done].
  - intros c. change (cursor fw' c) with (cursor fw c). destruct (Hcs c) as [Ha Hle Hh H0 Hfl Hq Hsort].
    pose proof (λ p, failures_mono fw fw' c p Hs) as Hm. constructor; [done| |done|done| | |done].
    + intros l' Hl'. destruct (Hle l' Hl') as (? & ? & ? & ? & Hno'). split_and!; [done..|]. cbn. rewrite fmap_app.
      intros [?| ->%list_elem_of_singleton]%elem_of_app; [done|by eapply Hfree].
    + specialize (Hm (following (cs_acknowledged_through (cursor fw c)))). lia.
    + eapply Forall_impl; [exact Hq|]. intros q. apply quarantine_mono; [done|lia].
Qed.

Lemma failures_snoc fw l cause :
  failures_at (fw <| fw_failed := fw_failed fw ++ [(l, cause)] |>) (cl_consumer l) (lease_next_position l)
    = failures_at fw (cl_consumer l) (lease_next_position l) ++ [l].
Proof using. unfold failures_at. cbn [fw_failed set_field]. rewrite fmap_app, filter_app. cbn [fmap list_fmap fst]. by rewrite filter_cons_True by done. Qed.

Lemma keeps_mark_failed env l p cause fw :
  feed_ok fw → l ∈ fw_leases fw → (cause = None → ∃ pr, (l, pr) ∈ fw_refused fw) →
  keeps env (CurMarkFailed l p cause) fw.
Proof using.
  intros Hok Hl Href. unfold keeps. cbn [run_fop]. unfold cursor_mark_failed. set (c := cl_consumer l).
  destruct (with_lease_cases fw l p fail_state) as [(Hheld & _ & ->)| ->]; cbn [snd];
    [|rewrite app_nil_r; exact (cursor_touched fw c Hok)].
  destruct (lease_held _ _ Hok Hl Hheld) as (_ & _ & _ & Hnext & Hfol).
  destruct (failed_cursor fw l Hok Hl Hheld) as (Hok1 & Hg1 & Hno & Hfree).
  set (fw1 := fw <| fw_cursors := <[c := (cursor fw c) <| cs_lease := None |>]> (fw_cursors fw) |>) in *.
  destruct (failure_recorded fw1 l cause Hok1 Hl Hno Hfree Href) as [Hok2 Hg2].
  set (fw2 := fw1 <| fw_failed := fw_failed fw1 ++ [(l, cause)] |>) in *.
  assert (cursor fw1 c = (cursor fw c) <| cs_lease := None |>) as Hc1
    by (unfold fw1; rewrite cursor_insert; by rewrite decide_True).
  destruct (cursor_set fw2 c (fail_state (cursor fw c))) as [H3 H4].
  - done.
  - pose proof (fo_cursors fw1 Hok1 c) as Hk1. pose proof (fo_cursors fw2 Hok2 c) as Hk2.
    change (cursor fw2 c) with (cursor fw1 c) in Hk2. rewrite Hc1 in Hk1, Hk2.
    destruct Hk1 as [_ _ _ _ Hn1 _ _]. destruct Hk2 as [Ha _ Hh H0 _ Hq Hsort]. 
    change (0 ≤ cs_attempt (cursor fw c)) in H0.
    change (Z.to_nat (cs_attempt (cursor fw c)) ≤
      length (failures_at fw1 c (following (cs_acknowledged_through (cursor fw c)))))%nat in Hn1.
    constructor; [exact Ha|done|exact Hh| | |exact Hq|exact Hsort].
    + change (0 ≤ CursorAttempt_next (cs_attempt (cursor fw c))). unfold CursorAttempt_next, u32_saturating_add, u32_max. lia.
    + change (Z.to_nat (CursorAttempt_next (cs_attempt (cursor fw c))) ≤
        length (failures_at fw2 c (following (cs_acknowledged_through (cursor fw c)))))%nat.
      fold c in Hnext, Hfol. rewrite Hfol, <-Hnext in *.
      rewrite (failures_snoc fw1 l cause : failures_at fw2 c (lease_next_position l) = _), length_app. cbn [length].
      fold c.
      unfold CursorAttempt_next, u32_saturating_add, u32_max. lia.
  - change (cursor fw2 c) with (cursor fw1 c). rewrite Hc1. split; reflexivity.
  - assert (fw2 <| fw_cursors := <[c := fail_state (cursor fw c)]> (fw_cursors fw2) |>
      = fw <| fw_cursors := <[c := fail_state (cursor fw c)]> (fw_cursors fw) |>
           <| fw_failed := fw_failed fw ++ [(l, cause)] |>) as Heq.
    { change (fw_cursors fw2) with (<[c := (cursor fw c) <| cs_lease := None |>]> (fw_cursors fw)).
      by rewrite insert_insert_eq. }
    rewrite Heq in H3, H4. split; [exact H3|]. by trans fw1; [|trans fw2].
Qed.

Lemma keeps_quarantine env l pr reason now fw :
  feed_ok fw → l ∈ fw_leases fw → durable (fw_world fw) pr →
  pr_position pr = lease_next_position l → MAX_ATTEMPTS ≤ cl_attempt l →
  keeps env (CurQuarantine l (pr_position pr) reason now) fw.
Proof using.
  intros Hok Hl Hd Hpos Hatt. unfold keeps. cbn [run_fop]. unfold cursor_quarantine. set (c := cl_consumer l) in *.
  destruct (with_lease_cases fw l (pr_position pr) (quarantine_state c (pr_position pr) reason now))
    as [(Hheld & _ & Hwl)|Hwl]; fold c in Hwl; rewrite Hwl; cbn [snd]; [|exact (cursor_touched fw _ Hok)].
  destruct (lease_held _ _ Hok Hl Hheld) as (_ & Hla & _ & Hnext & Hfol). fold c in Hla, Hnext, Hfol.
  pose proof (evidence_position _ _ _ Hok Hd Hpos). pose proof (fo_cursors _ Hok c) as Hc.
  destruct (acknowledged_following _ _ _ Hok Hc) as [Hb _].
  set (s := cursor fw c) in *. set (p := pr_position pr) in *.
  set (q := MkQuarantinedCeremonyEvent c p (cs_attempt s) reason now).
  destruct (moved_forward fw c s p (cs_quarantined s ++ [q])) as [H1 H2].
  - done.
  - lia.
  - lia.
  - by eexists.
  - intros x Hx. right. right. left. exists q. split; [set_solver|cbn; lia].
  - apply Forall_app. split.
    + eapply Forall_impl; [apply (co_quarantined _ _ _ Hc)|]. intros x. apply quarantine_mono; [reflexivity|].
      unfold acknowledged at 2. cbn. lia.
    + constructor; [|done]. pose proof (co_failures _ _ _ Hc) as Hf. rewrite Hfol in Hf.
      replace (acknowledged s + 1) with p in Hf by lia.
      split_and!; [done|change (1 ≤ p); lia|done|cbn [qe_attempts q]; lia|done].
  - rewrite fmap_app. apply StronglySorted_app_2; [|apply Hc|by constructor; constructor].
    intros x y (qx & -> & Hqx)%list_elem_of_fmap ->%list_elem_of_singleton. cbn.
    pose proof (proj1 (Forall_forall _ _) (co_quarantined _ _ _ Hc) qx Hqx) as (_ & ? & _). lia.
  - exact (cursor_set fw _ _ Hok H1 H2).
Qed.

Lemma keeps_release env l fw : feed_ok fw → l ∈ fw_leases fw → keeps env (CurRelease l) fw.
Proof using.
  intros Hok Hl. unfold keeps. cbn [run_fop]. unfold cursor_release.
  change (cursor_of (fw_cursors fw) (cl_consumer l)) with (cursor fw (cl_consumer l)).
  destruct (holds_lease _ l) eqn:Hheld; cbn [snd]; [|exact (cursor_touched fw _ Hok)].
  by destruct (failed_cursor fw l Hok Hl Hheld) as (H1 & H2 & _).
Qed.

(** ** Programs *)

Fixpoint wpf {A} (p : fprog A) (fw : FeedWorld) (Q : A → FeedWorld → Prop) : Prop :=
  match p with
  | FRet a => Q a fw
  | FVis op k =>
      ∀ env fw1, fgrows fw fw1 → feed_ok fw1 → possible op fw1 (run_fop env op fw1).2 →
        keeps env op fw1 ∧ wpf (k (run_fop env op fw1).1) (run_fop env op fw1).2 Q
  end.

Lemma wpf_conseq {A} (p : fprog A) fw (Q Q' : A → FeedWorld → Prop) :
  (∀ a fw', fgrows fw fw' → Q a fw' → Q' a fw') → wpf p fw Q → wpf p fw Q'.
Proof using.
  revert fw. induction p as [a|B op k IH]; intros fw HQ Hp; cbn in *; [by apply HQ|].
  intros env fw1 Hg Hok Hpos. destruct (Hp env fw1 Hg Hok Hpos) as [Hk Hw]. split; [done|].
  apply IH; [|done]. intros a fw' Hg'. apply HQ. trans fw1; [done|]. etrans; [apply Hk|done].
Qed.

Lemma wpf_bind {A B} (p : fprog A) (f : A → fprog B) fw Q :
  wpf p fw (λ a fw', wpf (f a) fw' Q) → wpf (fprog_bind p f) fw Q.
Proof using.
  revert fw. induction p as [a|C op k IH]; intros fw Hp; [done|]. cbn in *.
  intros env fw1 Hg Hok Hpos. destruct (Hp env fw1 Hg Hok Hpos) as [Hk Hw]. split; [done|by apply IH].
Qed.

Lemma wpf_grows {A} (p : fprog A) fw fw' Q :
  (∀ a fw fw', fgrows fw fw' → Q a fw → Q a fw') → fgrows fw fw' → wpf p fw Q → wpf p fw' Q.
Proof using.
  intros HQ Hg. destruct p as [a|B op k]; cbn; [by apply HQ|]. intros Hp env fw1 Hg1. apply Hp. by trans fw'.
Qed.

(** A session service among the consumers is in order as it is on its own. *)
Lemma wpf_embed {A} (p : prog A) fw Q :
  wp ports p (fw_world fw) Q → wpf (embed p) fw (λ a fw', Q a (fw_world fw')).
Proof using.
  revert fw. induction p as [a|B op k IH]; intros fw Hp; [done|]. intros env fw1 Hg Hok [Hf _].
  cbn in Hp. cbn [run_fop] in Hf |- *. unfold keeps.
  specialize (Hp (fw_world fw1) (seen_world _ _ (fg_seen _ _ Hg)) (fo_world _ Hok) (fo_fits _ Hok)).
  pose proof (keeps_store env op fw1 Hok) as Hkeep. unfold keeps in Hkeep. cbn [run_fop] in Hkeep |- *.
  destruct (run_op op (fw_world fw1)) as [b w]. cbn [fst snd fw_world] in *.
  destruct (Hp Hf) as (Hw & Hgw & Hk). split; [by apply Hkeep|]. by apply IH.
Qed.

(** What a program that may fail gives. *)
Definition fgives {A} (Q : A → FeedWorld → Prop) (r : outcome A) (fw : FeedWorld) : Prop :=
  match r with Ok a => Q a fw | _ => True end.

Lemma wpf_io {A B} (p : fio A) (f : A → fio B) fw Q :
  wpf p fw (fgives (λ a fw', wpf (f a) fw' (fgives Q))) → wpf (p ≫= f) fw (fgives Q).
Proof using.
  intros Hp. apply wpf_bind. eapply wpf_conseq; [|exact Hp]. intros [a|e|] fw' _ H; [exact H|done..].
Qed.

Lemma wpf_lift {A B} (r : outcome A) (f : A → fio B) fw Q :
  (∀ a, r = Ok a → wpf (f a) fw (fgives Q)) → wpf (flift r ≫= f) fw (fgives Q).
Proof using. intros H. apply wpf_io. destruct r; [by apply H|done..]. Qed.

(** A call that leaves everything as it is. *)
Lemma wpf_quiet {A B} (op : FeedOp A) (f : A → fprog B) fw Q :
  (∀ env fw1, (run_fop env op fw1).2 = fw1) →
  (∀ env fw1, fgrows fw fw1 → feed_ok fw1 → wpf (f (run_fop env op fw1).1) fw1 Q) → wpf (FVis op f) fw Q.
Proof using.
  intros Hq H env fw1 Hg Hok _. unfold keeps. rewrite Hq. split; [by split|by apply H].
Qed.

(** The page of one record at a position. *)
Lemma read_one w from :
  world_ok ports w → fits w →
  ∃ page, store_read_all (w_store w) from 1 = Ok page ∧
    match head page with
    | Some pr => durable w pr ∧ pr_position pr = Z.max 1 from
    | None => Z.of_nat (length (es_log (w_store w))) < Z.max 1 from
    end.
Proof using.
  intros Hw Hf. unfold store_read_all. set (k := Z.to_nat (Z.max 0 (from - 1))).
  change (Z.to_nat 1) with 1%nat. destruct (es_log (w_store w) !! k) as [[[p id] q]|] eqn:Hk.
  - rewrite (drop_S _ _ _ Hk). cbn [take try_map]. rewrite take_0. cbn [try_map].
    destruct (entry_resolves ports w (p, id, q) Hw Hf) as (pr & Hpr & Hpos & Hs);
      [by eapply list_elem_of_lookup_2|].
    rewrite Hpr. exists [pr]. split; [done|]. cbn in Hpos, Hs |- *.
    pose proof (log_positions _ (ok_log _ _ Hw) _ _ _ _ Hk). split; [|lia].
    exists k, id, q. rewrite Hpos. split; [done|]. replace (q - 1) with (Z.max 0 (q - 1)); [done|].
    assert (q ∈ ar_sequence <$> stream w id) as Hq.
    { unfold stream. rewrite <-(log_sequences _ (ok_log _ _ Hw) id). apply list_elem_of_fmap.
      exists (p, id, q). split; [done|]. apply list_elem_of_filter. split; [done|by eapply list_elem_of_lookup_2]. }
    apply list_elem_of_fmap in Hq as (r & -> & (j & Hj)%list_elem_of_lookup_1).
    rewrite (stream_sequence ports w id j r Hw Hf Hj). lia.
  - apply lookup_ge_None in Hk. rewrite drop_ge by done. exists []. split; [done|]. cbn. lia.
Qed.

Lemma wpf_read_one {B} from (f : outcome (list PositionedRecord) → fprog B) fw Q :
  (∀ fw1 page, fgrows fw fw1 → feed_ok fw1 →
     (∀ pr, head page = Some pr → durable (fw_world fw1) pr ∧ pr_position pr = Z.max 1 from) → wpf (f (Ok page)) fw1 Q) →
  wpf (FVis (FeedStore (OpReadAll from 1)) f) fw Q.
Proof using.
  intros H. apply wpf_quiet; [by intros env []|]. intros env fw1 Hg Hok.
  destruct (read_one (fw_world fw1) from (fo_world _ Hok) (fo_fits _ Hok)) as (page & Hp & Hd). cbn. rewrite Hp.
  apply H; [done..|]. intros pr Hpr. by rewrite Hpr in Hd.
Qed.
End feed.
