(* ===== verification/Consumers.v ===== *)
(** * What the consumers of the feed guarantee

    Any number of publishers, pulls and recoveries share the feed with the services
    of the sessions, under whatever consumer names: no position is passed over in
    silence, a position is given up only after three failed attempts, and what
    recovery acknowledged is recovered. *)

From S2P Require Import Prelude Errors Text Values Steps Definitions Interventions Instance.
From S2P Require Import Authorization AuditLog Fold Rules Decide DecideTable DecideLineage Engine.
From S2P Require Import Equality EventStore SessionStream UseCases Differences Succession Children Cursors.
From S2P Require Import Scenario Sessions Machine Journal Lifecycle Families Tamper.
From S2P Require Import Streams Interleaving Concurrency GlobalOrder Openings Spawning Handover Kinship Feed.

Section consumers.
Context {Hsha : Sha256} {Hclk : Clock} {Hser : EvidenceSerde} {Haud : AuditSerde}.
Context (ports : Ports).

Notation wpf := (wpf ports).
Notation feed_ok := (feed_ok ports).

(** A program all of whose calls are in order. *)
Definition orderly {A} (p : fio A) (fw : FeedWorld) : Prop := wpf p fw (fgives (λ _ _, True)).

Lemma orderly_ask {A B} (op : FeedOp A) (f : A → fio B) fw :
  (∀ env fw1, (run_fop env op fw1).2 = fw1) →
  (∀ a fw1, fgrows fw fw1 → orderly (f a) fw1) → orderly (fask op ≫= f) fw.
Proof using. intros Hq H. apply wpf_quiet; [done|]. intros env fw1 Hg _. by apply H. Qed.

Lemma orderly_lift {A B} (r : outcome A) (f : A → fio B) fw :
  (∀ a, r = Ok a → orderly (f a) fw) → orderly (flift r ≫= f) fw.
Proof using. apply wpf_lift. Qed.

(** A call that is in order and whose answer only tells success. *)
Lemma orderly_then {A B} (op : FeedOp (outcome A)) (f : outcome A → fio B) fw :
  (∀ env fw1, fgrows fw fw1 → feed_ok fw1 → keeps ports env op fw1) →
  (∀ r fw1, fgrows fw fw1 → orderly (f r) fw1) → orderly (FVis op f) fw.
Proof using.
  intros Hk Hf env fw1 Hg Hok Hp. split; [by apply Hk|]. apply Hf. etrans; [done|by apply Hk].
Qed.

Lemma orderly_call {A B} (op : FeedOp (outcome A)) (f : A → fio B) fw :
  (∀ env fw1, fgrows fw fw1 → feed_ok fw1 → keeps ports env op fw1) →
  (∀ a fw1, fgrows fw fw1 → orderly (f a) fw1) → orderly (fcall op ≫= f) fw.
Proof using. intros Hk Hf. apply orderly_then; [done|]. intros [a|e|] fw1 Hg; [by apply Hf|done..]. Qed.

Lemma leases_kept fw fw' l : fgrows fw fw' → l ∈ fw_leases fw → l ∈ fw_leases fw'.
Proof using. intros [[_ H _ _ _ _ _] _] Hl. by eapply elem_of_prefix. Qed.

Lemma durable_kept fw fw' pr : fgrows fw fw' → durable (fw_world fw) pr → durable (fw_world fw') pr.
Proof using. intros [[H _ _ _ _ _ _] _]. by apply durable_grows. Qed.

Lemma lease_answer env c id now duration fw :
  let r := run_fop env (CurLease c id now duration) fw in
  (∀ l, r.1 ≠ Ok (Some l)) ∨
  ∃ l, r.1 = Ok (Some l) ∧ l ∈ fw_leases r.2 ∧ cl_consumer l = c ∧
    lease_next_position l = following (cs_acknowledged_through (cursor fw c)).
Proof using.
  cbn [run_fop]. destruct (lease_cases fw c id now duration) as [(a & Ha & ->)|[until ->]]; [by left|right].
  eexists. split_and!; [done| |done|done]. apply elem_of_app. right. by left.
Qed.

(** Taking a lease, as publishing and recovering do. *)
Lemma orderly_lease {B} c (f : option CeremonyEventCursorLease → fio B) fw :
  (∀ fw1, fgrows fw fw1 → orderly (f None) fw1) →
  (∀ l fw1, fgrows fw fw1 → l ∈ fw_leases fw1 → cl_consumer l = c → 1 ≤ lease_next_position l →
     orderly (f (Some l)) fw1) →
  orderly (uuid ← fask FeedUuid; lease_id ← flift (CeremonyEventCursorLeaseId_new uuid);
           now ← fask FeedNow; taken ← fcall (CurLease c lease_id now LEASE_DURATION); f taken) fw.
Proof using.
  intros Hno Hyes. apply orderly_ask; [done|]. intros uuid fw1 Hg1. apply orderly_lift. intros id _.
  apply orderly_ask; [done|]. intros now fw2 Hg2 env fw3 Hg3 Hok [_ Hid].
  pose proof (keeps_lease ports env c id now LEASE_DURATION fw3 Hok Hid) as Hk. split; [done|].
  pose proof (acknowledged_following _ _ _ _ Hok (fo_cursors _ _ Hok c)) as [Hb Hfol].
  destruct Hk as [_ Hg4]. pose proof (lease_answer env c id now LEASE_DURATION fw3) as Hans. cbn zeta in Hans.
  set (r := run_fop env (CurLease c id now LEASE_DURATION) fw3) in *.
  assert (fgrows fw r.2) as Hg by (trans fw1; [done|]; trans fw2; [done|]; by trans fw3).
  destruct Hans as [Hans|(l & -> & Hl & Hc & Hn)].
  - destruct r.1 as [[l|]|e|]; [by edestruct Hans|by apply Hno|done..].
  - cbn. apply Hyes; [done..|]. lia.
Qed.

(** ** Publishing and pulling *)

Lemma orderly_deliver {B} l pr (f : outcome unit → fio B) fw :
  tried fw (l, pr) →
  (∀ u fw1, fgrows fw fw1 → (l, pr) ∈ fw_delivered fw1 → orderly (f (Ok u)) fw1) →
  (∀ e fw1, fgrows fw fw1 → (l, pr) ∈ fw_refused fw1 → orderly (f (Err e)) fw1) →
  (∀ fw1, orderly (f Panic) fw1) → orderly (FVis (FeedDeliver l pr) f) fw.
Proof using.
  intros Ht Hyes Hno Hpanic env fw1 Hg Hok _.
  destruct (keeps_deliver ports env l pr fw1 Hok) as [Hok2 Hg2]; [eapply tried_mono, Ht; apply Hg|].
  split; [by split|]. assert (fgrows fw (run_fop env (FeedDeliver l pr) fw1).2) as Hg3 by (by trans fw1).
  revert Hg3. cbn [run_fop fst snd]. destruct (env_accepts env) as [u|e|]; intros Hg3; [apply Hyes|apply Hno|apply Hpanic].
  all: try done. all: apply elem_of_app; right; by left.
Qed.

Lemma orderly_publish_loop n c round fw : orderly (publish_loop n c 1 round) fw.
Proof using.
  revert fw round. induction n as [|n IH]; intros fw round; [done|]. cbn [publish_loop].
  apply orderly_lease; [done|]. intros l fw1 Hg1 Hl Hc Hn. apply wpf_read_one.
  intros fw2 page Hg2 _ Hp. pose proof (leases_kept _ _ _ Hg2 Hl) as Hl2.
  destruct (head page) as [pr|] eqn:Hpage; cbn [fprog_bind mbind].
  2: { apply orderly_call; [|done]. intros env fw3 Hg3 Hok. apply keeps_release; [done|by eapply leases_kept]. }
  destruct (Hp pr eq_refl) as [Hd Hpos]. rewrite Z.max_r in Hpos by done. destruct (CursorAttempt_is_exhausted _ _) eqn:Hex.
  { apply orderly_lift. intros reason _. apply orderly_ask; [done|]. intros at_ fw3 Hg3.
    apply orderly_call; [|intros; apply IH]. intros env fw4 Hg4 Hok. assert (fgrows fw2 fw4) as Hg by (by trans fw3).
    apply keeps_quarantine; [done|by eapply leases_kept|by eapply durable_kept|done|by apply Z.leb_le]. }
  apply orderly_deliver; [done| | |done].
  - intros u fw3 Hg3 Hin. apply orderly_call; [|intros; apply IH]. intros env fw4 Hg4 Hok.
    apply keeps_delivered; [done|]. eapply elem_of_prefix; [done|apply Hg4].
  - intros e fw3 Hg3 Hin. apply orderly_call; [|done]. intros env fw4 Hg4 Hok.
    apply keeps_mark_failed; [done|eapply leases_kept, Hl2; by trans fw3|].
    intros _. exists pr. eapply elem_of_prefix; [done|apply Hg4].
Qed.

Lemma orderly_publish c limit fw : orderly (publish_ceremony_events c limit) fw.
Proof using. exact (orderly_publish_loop (Z.to_nat limit) c _ fw). Qed.

Lemma orderly_automatic c limit fw : orderly (execute_automatically c limit) fw.
Proof using.
  unfold execute_automatically, orderly. apply wpf_bind.
  apply (wpf_conseq _ _ _ (λ _ _, True)); [intros [[| |]|]; done|].
  generalize (automatic_turns limit), PublishCeremonyEventsRound_default, 0. intros fuel. revert fw.
  induction fuel as [|fuel IH]; intros fw summary failures; cbn [publish_automatically];
    destruct (negb _); try done.
  destruct (CeremonyEventPageLimit_new _) as [remaining|e|]; [|done..]. apply wpf_bind.
  eapply wpf_conseq; [|by apply (orderly_publish c remaining)]. intros [round|e|] fw1 _ _; [|done..].
  destruct (0 <? pub_failed round).
  - destruct (MAX_ATTEMPTS <? _); [done|]. apply wpf_quiet; [done|]. intros env fw2 _ _. apply IH.
  - destruct (_ || _); [done|apply IH].
Qed.

Lemma wpf_existing t fw :
  wpf (require_existing_position t) fw
    (fgives (λ _ fw', ∃ pr, durable (fw_world fw') pr ∧ pr_position pr = t)).
Proof using.
  unfold require_existing_position. apply wpf_lift. intros one [= <-]. apply wpf_read_one.
  intros fw1 page Hg _ Hp. cbn. destruct (head page) as [pr|]; [|done]. cbn.
  destruct (Z.eqb_spec (pr_position pr) t) as [<-|]; [|done]. cbn. exists pr. split; [|done]. by apply Hp.
Qed.

Lemma orderly_pull input fw : orderly (pull_ceremony_events input) fw.
Proof using.
  unfold pull_ceremony_events. apply wpf_io.
  apply (wpf_conseq _ _ _ (fgives (λ _ _, True))).
  - intros [u|e|] fw1 _ _; [|done..]. cbn [fgives]. apply orderly_call.
    { intros env fw2 _ Hok. by split. }
    intros a fw2 _. apply wpf_quiet; [by intros env []|]. intros env fw3 _ _.
    by destruct (run_fop env _ fw3).1.
  - destruct (pull_acknowledge_through input) as [t|]; [|done]. apply wpf_io.
    eapply wpf_conseq; [|apply wpf_existing]. intros [u|e|] fw1 _; [|done..]. intros (pr & Hd & Hpos).
    apply orderly_then; [|by intros []]. intros env fw2 Hg Hok.
    eapply keeps_acknowledge; [done|by eapply durable_kept|done].
Qed.

(** ** Recovering *)

Context {Hports : PortsLaws ports} (st : SessionStream) (Hst : authorizer_ok ports st).

(** The service that mints the evidence leaves the streams to the others. *)
Definition continuation_ok (rv : Recovery) : Prop :=
  ∀ continuation, rv_continuation rv = Some continuation →
  ∀ record request w, wp ports (continuation record request) w (gives (λ _ _, True) (λ _, True)).

(** What a loaded session says of its lineage is in its opening. *)
Lemma loaded_lineage w d s l :
  session_at ports w d s l →
  ∃ started rest, journal_events (stream w (instance_id (ls_instance s))) = EvCeremonyInstanceStarted started :: rest ∧
    lineage (ls_instance s) = cis_lineage started.
Proof using.
  intros [[Hp Hr] _ _]. destruct (session_opens _ _ _ (recorded_session _ _ _ _ _ Hr)) as (started & rest & He).
  destruct (journal_events_prefix _ _ Hp) as [more Hm]. exists started, (rest ++ more). rewrite Hm, He.
  split; [done|]. by eapply resolved_lineage.
Qed.

(** A ceremony nobody spawned owes nothing to a parent. *)
Lemma root_recovered w d s l record final at_ :
  session_at ports w d s l → instance_id (ls_instance s) = ar_ceremony_id record →
  ar_event record = Some (EvCeremonyCompleted final at_) → lineage (ls_instance s) = None → recovered ports w record.
Proof using.
  intros Hs Hid He Hn. unfold recovered. rewrite He. destruct (loaded_lineage _ _ _ _ Hs) as (started & rest & Hj & Hl).
  rewrite Hid in Hj. exists started, rest. split; [done|]. intros lin Hlin. congruence.
Qed.

Lemma reported_recovered w record final at_ out :
  ar_event record = Some (EvCeremonyCompleted final at_) →
  reported w (MkAcceptChildCompletionInput (ar_ceremony_id record) (ar_event_id record)) out →
  recovered ports w record.
Proof using.
  intros He (Hc & Ht & parent & at' & _ & [_ (started & rest & l & Hj & Hl & Hp & _)] & Hin).
  cbn in Hc, Ht. unfold recovered. rewrite He. rewrite Hc in Hj. exists started, rest. split; [done|].
  intros l' Hl'. rewrite Hl in Hl'. injection Hl' as <-. exists (aco_completion out), at'. by rewrite Hp.
Qed.

Lemma wp_process_authorized rv t n record w :
  wp ports (process_authorized ports st rv t n record) w (gives (λ _ w', recovered ports w' record) (λ _, True)).
Proof using Hst Hports.
  destruct (ar_event record) as [e|] eqn:He; [|by unfold process_authorized, recovered; rewrite He].
  destruct e; try (by unfold process_authorized, recovered; rewrite He).
  all: unfold process_authorized; rewrite He.
  2, 3: apply wp_io_bind; (eapply wp_conseq; [|by apply wp_recover]);
    intros [o|e|] w1 Hg; cbn [gives]; [|done..]; intros [Ho _]; unfold recovered; cbn; by rewrite He.
  apply wp_io_bind. eapply wp_conseq; [|apply wp_load]. intros [s|e|] w1 Hg; cbn [gives]; [|done..].
  intros (d & l & Hs & Hid & _). destruct (lineage (ls_instance s)) as [lin|] eqn:Hlin; cbn [is_some negb].
  - apply wp_io_bind. eapply wp_conseq; [|by apply wp_accept]. intros [out|e|] w2 Hg2; cbn [gives]; [|done..].
    intros Hrep. apply wp_mret. by eapply reported_recovered.
  - apply wp_mret. by eapply root_recovered.
Qed.

Lemma wp_completed_root record w :
  wp ports (completed_root record) w (gives (λ b w', b = true → recovered ports w' record) (λ _, True)).
Proof using.
  unfold completed_root. destruct (ar_event record) as [e|] eqn:He; [|by apply wp_mret].
  destruct e; try (by apply wp_mret). apply wp_io_bind. eapply wp_conseq; [|apply wp_load].
  intros [s|e|] w1 Hg; cbn [gives]; [|done..]. intros (d & l & Hs & Hid & _). apply wp_mret.
  destruct (lineage (ls_instance s)) eqn:Hl; [done|]. intros _. by eapply root_recovered.
Qed.

Lemma wp_process_record rv n record id w :
  continuation_ok rv →
  wp ports (process_record ports st rv n record id) w (gives (λ _ w', recovered ports w' record) (λ _, True)).
Proof using Hst Hports.
  intros Hcon. unfold process_record. apply wp_io_bind. eapply wp_conseq; [|apply wp_completed_root].
  intros [root|e|] w1 Hg1; cbn [gives]; [|done..]. intros Hroot. destruct root; [by apply Hroot|].
  destruct (rv_continuation rv) as [continuation|] eqn:Hc; [|apply wp_process_authorized].
  destruct (_ && _); [|apply wp_process_authorized]. apply wp_lift_any. intros request _.
  apply wp_io_bind. eapply wp_conseq; [|by apply (Hcon _ Hc)]. intros [op|e|] w2 Hg2; cbn [gives]; [|done..].
  intros _. apply wp_process_authorized.
Qed.

Lemma orderly_release_after l answer fw :
  l ∈ fw_leases fw → orderly (release_after_error l answer) fw.
Proof using.
  intros Hl. apply orderly_then.
  - intros env fw1 Hg Hok. apply keeps_release; [done|by eapply leases_kept].
  - intros r fw1 _. destruct r; [| |done]; by destruct answer.
Qed.
Lemma orderly_recover_loop rv n round fw :
  continuation_ok rv → orderly (recover_loop ports st rv n 1 round) fw.
Proof using Hst Hports.
  intros Hcon. revert fw round. induction n as [|n IH]; intros fw round; [done|]. cbn [recover_loop].
  apply orderly_lease; [done|]. intros l fw1 Hg1 Hl Hc Hn. apply wpf_read_one.
  intros fw2 page Hg2 _ Hp. pose proof (leases_kept _ _ _ Hg2 Hl) as Hl2. cbn [fprog_bind].
  destruct (head page) as [pr|] eqn:Hpage.
  2: { apply orderly_call; [|done]. intros env fw3 Hg3 Hok. apply keeps_release; [done|by eapply leases_kept]. }
  destruct (Hp pr eq_refl) as [Hd Hpos]. rewrite Z.max_r in Hpos by done. apply wpf_bind.
  eapply wpf_conseq; [|apply wpf_embed, (wp_process_record rv n (pr_record pr) (cl_lease_id l)), Hcon].
  intros [effect|e|] fw3 Hg3; cbn [gives]; [intros Hrec| |done].
  all: pose proof (leases_kept _ _ _ Hg3 Hl2) as Hl3.
  - apply orderly_then.
    + intros env fw4 Hg4 Hok. pose proof (durable_kept fw2 fw4 pr (transitivity Hg3 Hg4) Hd) as Hd4.
      apply keeps_recovered; [done|by eapply leases_kept|done|done|].
      eapply recovered_grows, Hrec. apply Hg4.
    + intros [u|e|] fw4 Hg4; [apply IH|by eapply orderly_release_after, leases_kept|done].
  - intros _. apply orderly_then.
    + intros env fw4 Hg4 Hok. apply keeps_mark_failed; [done|by eapply leases_kept|]. done.
    + intros [u|e'|] fw4 Hg4; [done|by eapply orderly_release_after, leases_kept|done].
Qed.

Lemma orderly_recover rv limit fw :
  continuation_ok rv → orderly (recover_ceremony_children ports st rv limit) fw.
Proof using Hst Hports. intros. by apply orderly_recover_loop. Qed.

(** ** The callers *)

Context (reauthorize : option (AuthorizationRequest → io AuthorizationGateOutcome)).
Context (Hgate : gate_ok ports reauthorize).

Inductive feed_answer :=
| Errand (a : answer)
| Published (round : PublishCeremonyEventsRound)
| Pulled (out : PullCeremonyEventsOutput)
| RecoveredRound (round : RecoverCeremonyChildrenRound).

(** A caller runs an errand of the sessions, publishes, pulls or recovers, under any
    consumer name: nothing reserves a name, also not the one recovery uses. *)
Inductive feed_caller : fio feed_answer → Prop :=
| errands e p : caller ports st reauthorize e p → feed_caller (a ← embed p; mret (Errand a))
| publishes c limit : feed_caller (round ← publish_ceremony_events c limit; mret (Published round))
| publishes_on c limit : feed_caller (round ← execute_automatically c limit; mret (Published round))
| pulls input : feed_caller (out ← pull_ceremony_events input; mret (Pulled out))
| recovering rv limit :
    continuation_ok rv → feed_caller (round ← recover_ceremony_children ports st rv limit; mret (RecoveredRound round)).

Lemma orderly_caller p fw : feed_caller p → orderly p fw.
Proof using Hst Hports Hgate.
  intros Hc. assert (∀ A (q : fio A) (f : A → feed_answer), orderly q fw → orderly (a ← q; mret (f a)) fw) as Hthen.
  { intros A q f Hq. apply wpf_io. eapply wpf_conseq; [|exact Hq]. by intros []. }
  destruct Hc as [e p Hp| | | |]; apply Hthen.
  - eapply wpf_conseq; [|eapply wpf_embed, (wp_caller ports st reauthorize e p); done]. by intros [].
  - by apply orderly_publish.
  - by apply orderly_automatic.
  - by apply orderly_pull.
  - by apply orderly_recover.
Qed.

Lemma feed_steps_ok {A} (S S' : FeedSystem (outcome A)) :
  rtc feed_step S S' → feed_ok (fs_world S) → Forall (λ p, orderly p (fs_world S)) (fs_clients S) →
  feed_ok (fs_world S') ∧ Forall (λ p, orderly p (fs_world S')) (fs_clients S') ∧ fgrows (fs_world S) (fs_world S').
Proof using.
  induction 1 as [S|S1 S2 S3 H12 _ IH]; intros Hok Hc; [done|].
  destruct H12 as [B env fw clients n op k Hn Hpos]. cbn [fs_world fs_clients] in *.
  pose proof (proj1 (Forall_lookup _ _) Hc n _ Hn env fw ltac:(reflexivity) Hok Hpos) as [[Hok2 Hg2] Hk].
  destruct IH as (H1 & H2 & H3); [done| |].
  - apply Forall_insert; [|done]. eapply Forall_impl; [exact Hc|]. intros p. apply wpf_grows; [|done].
    by intros [].
  - split_and!; [done|done|by etrans].
Qed.

Lemma feed_run_ok clients S :
  Forall feed_caller clients → rtc feed_step (MkFeedSystem FeedWorld_default clients) S →
  feed_ok (fs_world S) ∧ ∀ S', rtc feed_step S S' → fgrows (fs_world S) (fs_world S').
Proof using Hst Hports Hgate.
  intros Hc Hr. destruct (feed_steps_ok _ _ Hr) as (Hok & Hcl & _).
  - apply feed_default_ok.
  - eapply Forall_impl; [exact Hc|]. intros p. by apply orderly_caller.
  - split; [done|]. intros S' HS'. by destruct (feed_steps_ok _ _ HS' Hok Hcl) as (_ & _ & ?).
Qed.

(** The attempts at a position that failed under different leases: deliveries of its
    record that the transport refused, and recoveries of it that ended in an error. *)
Definition failed_thrice (fw : FeedWorld) (q : QuarantinedCeremonyEvent) : Prop :=
  ∃ ls, NoDup ls ∧ MAX_ATTEMPTS ≤ qe_attempts q ≤ Z.of_nat (length ls) ∧
    ∀ l, l ∈ ls → cl_consumer l = qe_consumer q ∧ lease_next_position l = qe_position q ∧
      ((∃ pr, (l, pr) ∈ fw_refused fw ∧ durable (fw_world fw) pr ∧ pr_position pr = qe_position q) ∨
       ∃ e, (l, Some e) ∈ fw_failed fw).

Lemma quarantine_failed fw c q :
  feed_ok fw → q ∈ cs_quarantined (cursor fw c) → qe_consumer q = c ∧ failed_thrice fw q.
Proof using.
  intros Hok Hq. pose proof (proj1 (Forall_forall _ _) (co_quarantined _ _ _ (fo_cursors _ _ Hok c)) q Hq)
    as (Hc & _ & Hm & Hf). split; [done|]. exists (failures_at fw c (qe_position q)). split_and!.
  - apply NoDup_filter, Hok.
  - done.
  - unfold MAX_ATTEMPTS in Hm. lia.
  - intros l ([Hlc Hlp] & ([l' cause] & Heq & Hin)%list_elem_of_fmap)%list_elem_of_filter. cbn in Heq. subst l'.
    split_and!; [congruence|done|]. destruct (fo_reasons _ _ Hok l cause Hin) as [_ Href].
    destruct cause as [e|]; [right; by exists e|left]. destruct Href as [pr Hpr]; [done|].
    pose proof (proj1 (Forall_forall _ _) (fo_refused _ _ Hok) _ Hpr) as (_ & Hd & Hp). cbn in Hd, Hp.
    exists pr. split_and!; [done|done|congruence].
Qed.

(** How a consumer came past a position. *)
Definition was_delivered (fw : FeedWorld) (c : string) (p : Z) : Prop :=
  ∃ l pr, (l, pr) ∈ fw_delivered fw ∧ cl_consumer l = c ∧ durable (fw_world fw) pr ∧ pr_position pr = p.
Definition was_recovered (fw : FeedWorld) (c : string) (p : Z) : Prop :=
  ∃ l pr, (l, pr) ∈ fw_recovered fw ∧ cl_consumer l = c ∧ durable (fw_world fw) pr ∧ pr_position pr = p.
Definition was_quarantined (fw : FeedWorld) (c : string) (p : Z) : Prop :=
  ∃ q, q ∈ cs_quarantined (cursor fw c) ∧ qe_position q = p ∧ qe_consumer q = c ∧ failed_thrice fw q.
Definition was_pulled (fw : FeedWorld) (c : string) (p : Z) : Prop :=
  ∃ through, (c, through) ∈ fw_pulled fw ∧ p ≤ through.

Lemma passed_over fw c p :
  feed_ok fw → 1 ≤ p ≤ acknowledged (cursor fw c) →
  was_delivered fw c p ∨ was_recovered fw c p ∨ was_quarantined fw c p ∨ was_pulled fw c p.
Proof using.
  intros Hok Hp. destruct (co_handled _ _ _ (fo_cursors _ _ Hok c) p Hp)
    as [(l & pr & Hin & Hl & Hpos)|[(l & pr & Hin & Hl & Hpos)|[(q & Hq & Hpos)|Hpull]]].
  - pose proof (proj1 (Forall_forall _ _) (fo_delivered _ _ Hok) _ Hin) as (_ & Hd & _). left. by exists l, pr.
  - pose proof (proj1 (Forall_forall _ _) (fo_recovered _ _ Hok) _ Hin) as [(_ & Hd & _) _]. right. left. by exists l, pr.
  - destruct (quarantine_failed _ _ _ Hok Hq). right. right. left. by exists q.
  - by right; right; right.
Qed.

(** C14: whatever publishers, pulls, recoveries of children and session services run
    at the same time, under whatever consumer names, in any interleaving, with leases
    that expire under a slow worker and workers that stop at any point, a consumer is
    past a position only if the record at that position was accepted by its
    transport, or a recovery under its name finished with it, or it is listed as
    quarantined after at least three attempts under different leases failed (each a
    delivery of that record that was refused or a recovery that ended in an error),
    or a pull of that consumer acknowledged it; what is quarantined is in global
    order, and an acknowledged position is never given back. *)
Theorem feed_skips_nothing clients S c :
  Forall feed_caller clients → rtc feed_step (MkFeedSystem FeedWorld_default clients) S →
  let fw := fs_world S in
  (∀ p, 1 ≤ p ≤ acknowledged (cursor fw c) →
     was_delivered fw c p ∨ was_recovered fw c p ∨ was_quarantined fw c p ∨ was_pulled fw c p) ∧
  StronglySorted Z.lt (qe_position <$> cs_quarantined (cursor fw c)) ∧
  ∀ S', rtc feed_step S S' → moves_on (cursor fw c) (cursor (fs_world S') c).
Proof using Hst Hports Hgate.
  intros Hc Hrun fw. destruct (feed_run_ok _ _ Hc Hrun) as [Hok Hlater]. split_and!.
  - intros p. by apply passed_over.
  - apply (co_sorted _ _ _ (fo_cursors _ _ Hok c)).
  - intros S' HS'. apply (fg_cursors _ _ (Hlater S' HS')).
Qed.

(** C15: what recovery acknowledged is recovered, whatever publishers, pulls, other
    recoveries and session services run: the record a recovery finished with is in
    the log, and if it plans or adopts a group of children then that group is sealed
    in its parent's journal and all its children are open as planned, and if it
    completes a child then the parent's journal accepted exactly that completion.
    So a position a consumer is past is recovered in this sense unless a publisher
    of the same name delivered or quarantined it or a pull of that name
    acknowledged it, which nothing in the code prevents. *)
Theorem recovery_leaves_nothing_behind clients S c :
  Forall feed_caller clients → rtc feed_step (MkFeedSystem FeedWorld_default clients) S →
  let fw := fs_world S in
  (∀ l pr, (l, pr) ∈ fw_recovered fw → durable (fw_world fw) pr ∧ recovered ports (fw_world fw) (pr_record pr)) ∧
  ∀ p, 1 ≤ p ≤ acknowledged (cursor fw c) →
    ¬ was_delivered fw c p → ¬ was_quarantined fw c p → ¬ was_pulled fw c p →
    ∃ pr, durable (fw_world fw) pr ∧ pr_position pr = p ∧ recovered ports (fw_world fw) (pr_record pr).
Proof using Hst Hports Hgate.
  intros Hc Hrun fw. destruct (feed_run_ok _ _ Hc Hrun) as [Hok _]. fold fw in Hok.
  assert (∀ l pr, (l, pr) ∈ fw_recovered fw →
    durable (fw_world fw) pr ∧ recovered ports (fw_world fw) (pr_record pr)) as Hrec.
  { intros l pr Hin. by destruct (proj1 (Forall_forall _ _) (fo_recovered _ _ Hok) _ Hin) as [(_ & Hd & _) ?]. }
  split; [exact Hrec|]. intros p Hp Hd Hq Hpull.
  destruct (passed_over fw c p Hok Hp) as [?|[(l & pr & Hin & _ & _ & Hpos)|[?|?]]]; [done| |done..].
  exists pr. destruct (Hrec l pr Hin). by split_and!.
Qed.
End consumers.

(** ** A run *)

(** Playing a schedule: who calls next and what the outside answers. *)
Definition next_feed_call {Hclk : Clock} {Haud : AuditSerde} {A} (n : nat) (env : Env) (S : FeedSystem A)
    : option (FeedSystem A) :=
  match fs_clients S !! n with
  | Some (FVis op k) =>
      let answer := run_fop env op (fs_world S) in
      let fresh := match op with
                   | CurLease _ id _ _ => negb (bool_decide (id ∈ cl_lease_id <$> fw_leases (fs_world S)))
                   | _ => true
                   end in
      if (Z.of_nat (length (es_log (w_store (fw_world answer.2)))) <? u64_max) && fresh
      then Some (MkFeedSystem answer.2 (<[n := k answer.1]> (fs_clients S))) else None
  | _ => None
  end.

Fixpoint play_feed {Hclk : Clock} {Haud : AuditSerde} {A} (schedule : list (nat * Env)) (S : FeedSystem A)
    : option (FeedSystem A) :=
  match schedule with
  | [] => Some S
  | (n, env) :: schedule => S' ← next_feed_call n env S; play_feed schedule S'
  end.

Definition played_feed {Hclk : Clock} {Haud : AuditSerde} {A} (schedule : list (nat * Env)) (S : FeedSystem A)
    : FeedSystem A := default S (play_feed schedule S).

Lemma played_feed_steps {Hclk : Clock} {Haud : AuditSerde} {A} schedule (S : FeedSystem A) :
  is_some (play_feed schedule S) = true → rtc feed_step S (played_feed schedule S).
Proof.
  unfold played_feed. destruct (play_feed schedule S) as [S'|] eqn:H; [|done]. intros _. cbn.
  revert S H. induction schedule as [|[n env] schedule IH]; intros S H; [by injection H as <-|].
  cbn [play_feed] in H. apply bind_Some in H as (S1 & H1 & H). eapply rtc_l; [|by apply IH].
  unfold next_feed_call in H1. destruct S as [fw clients]. cbn in H1.
  destruct (clients !! n) as [[a|B op k]|] eqn:Hn; [done| |done].
  destruct (Z.ltb_spec (Z.of_nat (length (es_log (w_store (fw_world (run_fop env op fw).2))))) u64_max) as [Hf|];
    [|done]. cbn [andb] in H1.
  destruct (match op with CurLease _ id _ _ => _ | _ => _ end) eqn:Hfresh; [|done].
  injection H1 as <-. apply feed_calls; [done|]. split; [exact Hf|]. destruct op; try done.
  apply negb_true_iff, bool_decide_eq_false in Hfresh. exact Hfresh.
Qed.

#[local] Existing Instance plain_audit.
#[local] Existing Instance checksum_sha.
#[local] Existing Instance kin_ports_laws.

Definition kin_recovery : Recovery := {|
  rv_consumer := "children"; rv_task := demo_task; rv_clock _ _ := 6;
  rv_traces _ n _ := MkTraceContext "trace" (decimal (Z.of_nat n)) "00"; rv_continuation := None;
|}.

(** A parent is opened, its step claimed, and the worker that prepares its children
    stops once the plan is sealed; a publisher whose transport refuses the first
    record, a pull, and recovery follow the log. *)
Definition feed_clients : list (fio feed_answer) :=
  ((λ p : io answer, a ← embed p; mret (Errand a)) <$> kin_open ++ [kin_prepare "692950932"])
  ++ [ (round ← execute_automatically "sink" 3; mret (Published round));
       (out ← pull_ceremony_events (MkPullCeremonyEventsInput "audit" 10 (Some 2)); mret (Pulled out));
       (round ← recover_ceremony_children kin_ports open_stream kin_recovery 10; mret (RecoveredRound round)) ].

Lemma feed_clients_ok : Forall (feed_caller kin_ports open_stream None) feed_clients.
Proof.
  repeat (apply Forall_cons; split); [| | | | | |by constructor].
  - eapply errands, caller_drives, uc_start.
  - eapply errands, caller_drives, uc_start_step.
  - eapply errands, caller_prepares.
  - apply publishes_on.
  - apply pulls.
  - apply recovering. by intros continuation [=].
Qed.

Definition feed_schedule (calls : list nat) : list (nat * Env) :=
  imap (λ k n, (n, MkEnv (Z.of_nat k) ("lease-" +:+ decimal (Z.of_nat k))
                     (if (k <? 48)%nat then Err (InvariantViolated "sink is down") else Ok tt))) calls.

(** The publisher is refused three times and gives up on the first record, a pull
    comes in between, and recovery goes to the end of the log. *)
Definition feed_order : list nat :=
  replicate 3 0%nat ++ replicate 7 1%nat ++ replicate 8 2%nat ++ replicate 20 3%nat ++ replicate 4 4%nat
  ++ replicate 18 3%nat ++ replicate 50 5%nat.

Definition feed_system : FeedSystem (outcome feed_answer) :=
  played_feed (feed_schedule feed_order) (MkFeedSystem FeedWorld_default feed_clients).

Lemma feed_run : rtc feed_step (MkFeedSystem FeedWorld_default feed_clients) feed_system.
Proof. apply played_feed_steps. vm_compute. reflexivity. Qed.

Lemma feed_skips_nothing_witness :
  let fw := fs_world feed_system in
  (cs_acknowledged_through (cursor fw "sink") = Some 2 ∧ length (fw_delivered fw) = 2%nat ∧
   qe_position <$> cs_quarantined (cursor fw "sink") = [1]) ∧
  (∀ p, 1 ≤ p ≤ acknowledged (cursor fw "sink") →
     was_delivered fw "sink" p ∨ was_recovered fw "sink" p ∨ was_quarantined fw "sink" p ∨ was_pulled fw "sink" p) ∧
  StronglySorted Z.lt (qe_position <$> cs_quarantined (cursor fw "sink")) ∧
  ∀ S', rtc feed_step feed_system S' → moves_on (cursor fw "sink") (cursor (fs_world S') "sink").
Proof.
  intros fw. split; [split_and!; vm_compute; reflexivity|].
  exact (feed_skips_nothing kin_ports open_stream kin_stream_ok None kin_gate_ok feed_clients
    feed_system "sink" feed_clients_ok feed_run).
Defined.

Lemma recovery_leaves_nothing_behind_witness :
  let fw := fs_world feed_system in
  (cs_acknowledged_through (cursor fw "children") = Some 6 ∧ pr_position ∘ snd <$> fw_recovered fw = [1; 2; 3; 4; 5; 6]) ∧
  (∀ l pr, (l, pr) ∈ fw_recovered fw →
     durable (fw_world fw) pr ∧ recovered kin_ports (fw_world fw) (pr_record pr)) ∧
  ∃ pr, durable (fw_world fw) pr ∧ pr_position pr = 3 ∧ recovered kin_ports (fw_world fw) (pr_record pr).
Proof.
  intros fw. split; [split; vm_compute; reflexivity|].
  destruct (recovery_leaves_nothing_behind kin_ports open_stream kin_stream_ok None kin_gate_ok feed_clients
    feed_system "children" feed_clients_ok feed_run) as [Hall Hone]. split; [exact Hall|].
  assert (∀ l pr, (l, pr) ∈ fw_delivered fw → cl_consumer l = "sink") as Hd.
  { assert (all (λ d, cl_consumer d.1 == "sink") (fw_delivered fw) = true) as H by (vm_compute; reflexivity).
    intros l pr Hin. apply eqb_true_1. exact (proj1 (all_true _ _) H _ Hin). }
  apply Hone; [vm_compute; split; discriminate| | |].
  - intros (l & pr & Hin & Hc & _). pose proof (Hd l pr Hin). congruence.
  - intros (q & Hq & _). assert (cs_quarantined (cursor (fs_world feed_system) "children") = []) as Hn by (vm_compute; reflexivity).
    rewrite Hn in Hq. exact (not_elem_of_nil q Hq).
  - intros (t & Hin & _). assert (fw_pulled (fs_world feed_system) = [("audit", 2)]) as Hp by (vm_compute; reflexivity).
    rewrite Hp in Hin. apply list_elem_of_singleton in Hin. discriminate Hin.
Defined.

(** Nothing reserves the name recovery follows the log under: a pull under it moves
    its cursor past a plan whose worker stopped after the first child, recovery goes
    on behind it, and the second child is never opened. *)
Definition skipping_clients : list (fio feed_answer) :=
  take 3 feed_clients
  ++ [ (out ← pull_ceremony_events (MkPullCeremonyEventsInput "children" 10 (Some 4)); mret (Pulled out));
       (round ← recover_ceremony_children kin_ports open_stream kin_recovery 10; mret (RecoveredRound round)) ].

Definition skipping_system : FeedSystem (outcome feed_answer) :=
  played_feed (feed_schedule (replicate 3 0%nat ++ replicate 7 1%nat ++ replicate 8 2%nat ++ replicate 4 3%nat
    ++ replicate 5 4%nat)) (MkFeedSystem FeedWorld_default skipping_clients).

Example pull_skips_recovery :
  Forall (feed_caller kin_ports open_stream None) skipping_clients ∧
  rtc feed_step (MkFeedSystem FeedWorld_default skipping_clients) skipping_system ∧
  let fw := fs_world skipping_system in
  match fs_clients skipping_system !! 4%nat with
  | Some (FRet (Ok (RecoveredRound round))) => round = RecoverCeremonyChildrenRound_default
  | _ => False
  end ∧
  acknowledged (cursor fw "children") = Z.of_nat (length (es_log (w_store (fw_world fw)))) ∧
  match last (journal_events (stream (fw_world fw) "parent")) with
  | Some (EvChildSpawnPlanned plan _) =>
      Exists (λ id, stream (fw_world fw) id = []) (child_ids_of plan)
  | _ => False
  end.
Proof.
  split; [|split; [apply played_feed_steps; vm_compute; reflexivity|]].
  - repeat (apply Forall_cons; split); [eapply errands, caller_drives, uc_start
      |eapply errands, caller_drives, uc_start_step|eapply errands, caller_prepares|apply pulls| |by constructor].
    apply recovering. by intros continuation [=].
  - vm_compute. split_and!; [reflexivity..|]. apply Exists_cons_tl, Exists_cons_hd. reflexivity.
Qed.
