(* ===== verification/Draining.v ===== *)
(** * A publisher on its own drains its feed

    The automatic path of publishing, run while nobody else uses the consumer: the
    limit, or everything there is, is confirmed however the transport answers, and
    the failure the loop guards against does not occur.  Its loop ends in any case,
    whatever others do meanwhile. *)

From S2P Require Import Prelude Errors Text Values Steps Definitions Interventions Instance.
From S2P Require Import Authorization AuditLog Fold Rules Decide DecideTable DecideLineage Engine.
From S2P Require Import EventStore SessionStream UseCases Cursors.
From S2P Require Import Scenario Sessions Machine Journal Tamper Streams Interleaving Concurrency GlobalOrder Handover Kinship Feed Consumers.

(** ** The loop ends *)

(** [every p P]: whatever its calls answer, [p] ends with a result in [P]. *)
Fixpoint every {A} (p : fprog A) (P : A → Prop) : Prop :=
  match p with
  | FRet a => P a
  | FVis op k => ∀ b, every (k b) P
  end.

Lemma every_mono {A} (p : fprog A) (P Q : A → Prop) : (∀ a, P a → Q a) → every p P → every p Q.
Proof. intros H. induction p as [a|B op k IH]; cbn; [apply H|]. intros Hk b. by apply IH. Qed.

Lemma every_bind {A B} (p : fprog A) (f : A → fprog B) P :
  every p (λ a, every (f a) P) → every (fprog_bind p f) P.
Proof. induction p as [a|C op k IH]; cbn; [done|]. intros H b. by apply IH. Qed.

Lemma every_io {A B} (p : fio A) (f : A → fio B) (P : outcome B → Prop) :
  (∀ e, P (Err e)) → P Panic → every p (λ r, ∀ a, r = Ok a → every (f a) P) → every (p ≫= f) P.
Proof.
  intros He Hp H. apply every_bind. eapply every_mono; [|exact H]. intros [a|e|] Ha; [by apply Ha|apply He|done].
Qed.

(** A round adds to what it was given: at most the positions it had, and one
    failure. *)
Definition within (n : nat) (before : PublishCeremonyEventsRound) (r : outcome PublishCeremonyEventsRound) : Prop :=
  ∀ after, r = Ok after → pub_confirmed before ≤ pub_confirmed after ≤ pub_confirmed before + Z.of_nat n ∧
    pub_failed before ≤ pub_failed after.

Lemma every_publish_loop n c one round : every (publish_loop n c one round) (within n round).
Proof.
  revert round. induction n as [|n IH]; intros round; cbn [publish_loop]; [intros after [= <-]; lia|].
  assert (∀ round', pub_confirmed round ≤ pub_confirmed round' ≤ pub_confirmed round + 1 →
    pub_failed round ≤ pub_failed round' → every (publish_loop n c one round') (within (S n) round)) as Hstep.
  { intros round' Hc Hf. eapply every_mono; [|apply IH]. intros r Hr after ->. destruct (Hr after eq_refl). lia. }
  assert (∀ round', pub_confirmed round = pub_confirmed round' → pub_failed round ≤ pub_failed round' →
    within (S n) round (Ok round')) as Hstop by (intros round' Hc Hf after [= <-]; lia).
  assert (∀ e, within (S n) round (Err e)) as He by done. assert (within (S n) round Panic) as Hp by done.
  apply every_io; [done|done|]. intros uuid ? _. apply every_io; [done|done|]. intros id _.
  apply every_io; [done|done|]. intros now ? _. apply every_io; [done|done|]. intros taken lease _.
  destruct lease as [lease|]; [|by apply Hstop].
  apply every_io; [done|done|]. intros answer page _. destruct (head page) as [pr|].
  2: { apply every_io; [done|done|]. intros r u _. by apply Hstop. }
  destruct (CursorAttempt_is_exhausted _ _).
  - apply every_io; [done|done|]. intros reason _. apply every_io; [done|done|]. intros at_ ? _.
    apply every_io; [done|done|]. intros r u _. apply Hstep; unfold pub_confirmed; cbn; lia.
  - intros [u|e|]; [| |done]; (apply every_io; [done|done|]); intros r x _.
    + apply Hstep; unfold pub_confirmed; cbn; lia.
    + apply Hstop; unfold pub_confirmed; cbn; lia.
Qed.

Lemma every_automatic fuel c limit summary failures :
  0 ≤ failures ≤ 3 → 0 ≤ pub_confirmed summary → 4 * (limit - pub_confirmed summary) + 3 - failures ≤ Z.of_nat fuel →
  every (publish_automatically fuel c limit summary failures) (λ r, r ≠ None).
Proof.
  revert summary failures. induction fuel as [|fuel IH]; intros summary failures Hf Hc Hfuel;
    cbn [publish_automatically]; destruct (Z.ltb_spec (pub_confirmed summary) limit) as [Hlt|]; cbn [negb]; try done.
  { lia. }
  destruct (CeremonyEventPageLimit_new _) as [remaining|e|] eqn:Hrem; [|done..].
  assert (0 < remaining) as Hpos.
  { unfold CeremonyEventPageLimit_new in Hrem. invert_ok Hrem. lia. }
  apply every_bind. unfold publish_ceremony_events. cbn [mbind fio_bind fprog_bind flift].
  eapply every_mono; [|apply every_publish_loop]. intros [round|e|] Hr; [|done..].
  destruct (Hr round eq_refl) as [Hx Hfail]. change (pub_confirmed PublishCeremonyEventsRound_default) with 0 in Hx.
  set (f := if 0 <? pub_confirmed round then 0 else failures).
  assert (0 ≤ f ≤ 3 ∧ (pub_confirmed round = 0 → f = failures)) as [Hf' Hsame].
  { unfold f. destruct (Z.ltb_spec 0 (pub_confirmed round)); lia. }
  assert (∀ s f', pub_confirmed s = pub_confirmed summary + pub_confirmed round → 0 ≤ f' ≤ 3 →
    pub_confirmed round > 0 ∨ f' = failures + 1 →
    every (publish_automatically fuel c limit s f') (λ r, r ≠ None)) as Hnext
    by (intros s f' Hs Hr' Hd; apply IH; lia).
  destruct (Z.ltb_spec 0 (pub_failed round)) as [Hf1|Hf0].
  - assert (u32_saturating_add f 1 = f + 1) as -> by (unfold u32_saturating_add, u32_max; lia).
    destruct (Z.ltb_spec MAX_ATTEMPTS (f + 1)) as [|Hm]; [done|]. unfold MAX_ATTEMPTS in Hm. intros u.
    apply Hnext; [unfold pub_confirmed; cbn; lia|lia|lia].
  - destruct (Z.ltb_spec (pub_confirmed round) remaining); [by rewrite orb_true_r|]. rewrite orb_false_r.
    destruct (pub_busy round); [done|]. apply Hnext; [unfold pub_confirmed; cbn; lia|lia|lia].
Qed.

(** ** On its own *)

(** Running a program with nobody else about; [envs k] is what the outside
    answers to the [k]-th call. *)
Fixpoint frun {Hclk : Clock} {Haud : AuditSerde} (envs : nat → Env) (k : nat) {A} (p : fprog A) (fw : FeedWorld)
    : A * FeedWorld * nat :=
  match p with
  | FRet a => (a, fw, k)
  | FVis op f => let '(b, fw) := run_fop (envs k) op fw in frun envs (S k) (f b) fw
  end.

Lemma frun_bind {Hclk : Clock} {Haud : AuditSerde} envs k {A B} (p : fprog A) (f : A → fprog B) fw :
  frun envs k (fprog_bind p f) fw = let '(a, fw, k) := frun envs k p fw in frun envs k (f a) fw.
Proof.
  revert k fw. induction p as [a|C op g IH]; intros k fw; [done|]. cbn [fprog_bind frun].
  destruct (run_fop (envs k) op fw) as [b fw']. apply IH.
Qed.

(** What the outside answers is in order: identifiers are well formed, times can
    be leased for, and a transport answers. *)
Record env_ok {Hclk : Clock} (env : Env) : Prop := {
  eo_uuid : is_ok (CeremonyEventCursorLeaseId_new (env_uuid env)) = true;
  eo_now : is_some (checked_add_ms (env_now env) LEASE_DURATION) = true;
  eo_answers : env_accepts env ≠ Panic;
}.

Section alone.
Context {Hsha : Sha256} {Hclk : Clock} {Hser : EvidenceSerde} {Haud : AuditSerde}.
Context (ports : Ports) (envs : nat → Env) (Henvs : ∀ k, env_ok (envs k)).
Context (w : World) (Hw : world_ok ports w) (Hfits : fits w) (c : string).

Notation size := (Z.of_nat (length (es_log (w_store w)))).

(** Nobody works at the cursor: no lease, or one that has expired. *)
Definition free (s : CursorState) : Prop :=
  ∀ l, cs_lease s = Some l → ∀ k, cl_leased_until l ≤ env_now (envs k).

(** Between rounds: [a] positions acknowledged, [t] failures at the next. *)
Record resting (fw : FeedWorld) (a t : Z) : Prop := {
  rs_world : fw_world fw = w;
  rs_acknowledged : acknowledged (cursor fw c) = a;
  rs_following : following (cs_acknowledged_through (cursor fw c)) = a + 1;
  rs_attempt : cs_attempt (cursor fw c) = t;
  rs_free : free (cursor fw c);
  rs_range : 0 ≤ a ≤ size ∧ 0 ≤ t;
}.

(** What follows when the cursor was changed. *)
Lemma cursor_now fw s : cursor (fw <| fw_cursors := <[c := s]> (fw_cursors fw) |>) c = s.
Proof using. rewrite cursor_insert. by rewrite decide_True. Qed.

Lemma resting_set fw s a t :
  fw_world fw = w → fw_cursors fw !! c = Some s → cs_lease s = None → cs_attempt s = t → 0 ≤ t →
  acknowledged s = a → following (cs_acknowledged_through s) = a + 1 → 0 ≤ a ≤ size → resting fw a t.
Proof using.
  intros Hfw Hs Hl Ht Ht0 Ha Hfol Hsize.
  assert (cursor fw c = s) as Hc by (unfold cursor, cursor_of; by rewrite Hs).
  constructor; rewrite ?Hc; try done. intros l Hl'. congruence.
Qed.

Lemma resting_confirmed fw s a :
  fw_world fw = w → fw_cursors fw !! c = Some s → cs_lease s = None → cs_attempt s = 0 →
  cs_acknowledged_through s = Some (a + 1) → 0 ≤ a < size → resting fw (a + 1) 0.
Proof using Hfits.
  intros Hfw Hs Hl Ht Ha Hsize. unfold fits in Hfits.
  eapply resting_set; [done|done|done|done|done|..]; unfold acknowledged; rewrite ?Ha; cbn; [done| |lia].
  rewrite GlobalPosition_next_below; lia.
Qed.

(** [leased fw l s a t]: the lease [l] was taken at a resting cursor, which is now [s]. *)
Record leased (fw : FeedWorld) (l : CeremonyEventCursorLease) (s : CursorState) (a t : Z) : Prop := {
  le_world : fw_world fw = w;
  le_consumer : cl_consumer l = c;
  le_attempt : cl_attempt l = t;
  le_next : lease_next_position l = a + 1;
  le_cursor : fw_cursors fw !! c = Some s;
  le_held : cs_lease s = Some l;
  le_state : cs_attempt s = t ∧ acknowledged s = a ∧ following (cs_acknowledged_through s) = a + 1;
}.

Lemma alone_lease {B} k (f : option CeremonyEventCursorLease → fio B) fw a t
    (P : outcome B * FeedWorld * nat → Prop) :
  resting fw a t →
  (∀ l fw1 s, leased fw1 l s a t → P (frun envs (3 + k) (f (Some l)) fw1)) →
  P (frun envs k (uuid ← fask FeedUuid; lease_id ← flift (CeremonyEventCursorLeaseId_new uuid);
       now ← fask FeedNow; taken ← fcall (CurLease c lease_id now LEASE_DURATION); f taken) fw).
Proof using Henvs.
  intros [Hfw Ha Hfol Ht Hfree _] HP. set (s := cursor fw c) in *.
  pose proof (eo_uuid _ (Henvs k)) as Hid. cbn. destruct (CeremonyEventCursorLeaseId_new _) as [id|e|]; [|done..].
  cbn. unfold cursor_lease. change (cursor_of (fw_cursors fw) c) with s.
  assert (is_some_and (cs_lease s) (λ lease, env_now (envs (S k)) <? cl_leased_until lease) = false) as ->.
  { destruct (cs_lease s) as [l|] eqn:Hl; [|done]. cbn. apply Z.ltb_ge. by apply Hfree. }
  pose proof (eo_now _ (Henvs (S k))) as Hadd. destruct (checked_add_ms _ _) as [until|] eqn:Hu; [|done].
  set (l := MkCeremonyEventCursorLease c id (cs_acknowledged_through s) (cs_attempt s) until).
  apply (HP l _ (s <| cs_lease := Some l |>)). constructor; try done.
  - apply lookup_insert_eq.
Qed.

(** The holder of the lease acts on its cursor. *)
Lemma lease_works fw l s a t change :
  leased fw l s a t →
  with_lease (fw_cursors fw) l (a + 1) change = (Ok tt, <[c := change s]> (fw_cursors fw)).
Proof using.
  intros [_ Hc _ <- Hs Hl _]. unfold with_lease, require_lease, cursor_of, holds_lease. rewrite Hc, Hs. cbn.
  rewrite Hl. cbn. by rewrite eqb_refl, Z.eqb_refl.
Qed.

Lemma frun_call k {A B} (op : FeedOp (outcome A)) (f : A → fio B) fw a fw' :
  run_fop (envs k) op fw = (Ok a, fw') → frun envs k (fcall op ≫= f) fw = frun envs (S k) (f a) fw'.
Proof using. intros H. cbn. by rewrite H. Qed.

(** The outcome of a round with [n] positions left: [x] of them confirmed, and
    either nothing was left to do or a delivery was refused. *)
Definition round_done (n : nat) (round : PublishCeremonyEventsRound) (a t : Z)
    (r : outcome PublishCeremonyEventsRound * FeedWorld * nat) : Prop :=
  ∃ round' x t', r.1.1 = Ok round' ∧ resting r.1.2 (a + x) t' ∧ 0 ≤ x ∧
    pub_confirmed round' = pub_confirmed round + x ∧ pub_busy round' = pub_busy round ∧
    ((pub_failed round' = pub_failed round ∧ x = Z.min (Z.of_nat n) (size - a)) ∨
     (pub_failed round' = pub_failed round + 1 ∧ x < Z.of_nat n ∧ 1 ≤ t' ≤ MAX_ATTEMPTS ∧ (x = 0 → t' = t + 1))).

(** One more position confirmed before the rest. *)
Lemma round_done_more n round round1 a t r :
  round_done n round1 (a + 1) 0 r → a < size →
  pub_confirmed round1 = pub_confirmed round + 1 → pub_busy round1 = pub_busy round →
  pub_failed round1 = pub_failed round → round_done (S n) round a t r.
Proof using.
  intros (round' & x & t' & Hr & Hrest & Hx & Hc & Hb & Hcase) Hlt Hc1 Hb1 Hf1.
  exists round', (x + 1), t'. replace (a + (x + 1)) with (a + 1 + x) by lia.
  split_and!; [done|done|lia|lia|congruence|]. destruct Hcase as [[Hf Hmin]|(Hf & Hn & Ht & _)]; [left|right].
  - split; [congruence|lia].
  - split_and!; [congruence|lia|lia|lia|lia].
Qed.

Lemma round_of n k round fw a t :
  resting fw a t → round_done n round a t (frun envs k (publish_loop n c 1 round) fw).
Proof using Henvs Hw Hfits.
  revert k round fw a t. induction n as [|n IH]; intros k round fw a t Hrest.
  { exists round, 0, t. rewrite Z.add_0_r. destruct Hrest. cbn. split_and!; [done|by constructor|lia|lia|done|].
    left. split; [done|lia]. }
  cbn [publish_loop]. apply (alone_lease k _ fw a t); [done|]. intros l fw1 s Hle. generalize (3 + k)%nat. intros j.
  destruct Hrest as [_ _ _ _ _ [Hrange Ht0]]. pose proof Hle as [Hw1 Hc Hat Hnext Hs Hl (Hst & Hsa & Hfol)].
  destruct (read_one ports w (a + 1) Hw Hfits) as (page & Hpage & Hp).
  rewrite (frun_call _ _ _ fw1 page fw1); [|by cbn; rewrite Hnext, Hw1, Hpage; destruct fw1; cbn in *; subst].
  destruct (head page) as [pr|]; [destruct Hp as [Hd Hpos]; rewrite Z.max_r in Hpos by lia|].
  - pose proof (durable_position ports w pr Hw Hd) as Hsize.
    rewrite Hpos. destruct (CursorAttempt_is_exhausted (cl_attempt l) MAX_ATTEMPTS) eqn:Hex.
    + change (frun _ _ _ _) with (frun envs (S (S j)) (
        _ ← fcall (CurQuarantine l (a + 1) "delivery failed three times" (env_now (envs (S j))));
        publish_loop n c 1 (round <| pub_quarantined := pub_quarantined round + 1 |>)) fw1).
      rewrite (frun_call _ _ _ fw1 tt (fw1 <| fw_cursors := <[c := quarantine_state c (a + 1)
        "delivery failed three times" (env_now (envs (S j))) s]> (fw_cursors fw1) |>)).
      2: { cbn [run_fop]. unfold cursor_quarantine. rewrite (lease_works _ _ _ _ _ _ Hle). by rewrite Hc. }
      eapply round_done_more; [apply IH|lia|..]; [|unfold pub_confirmed; cbn; lia|done|done].
      eapply resting_confirmed; [done|apply lookup_insert_eq|done..|lia].
    + cbn [frun]. pose proof (eo_answers _ (Henvs (S j))) as Hans.
      destruct (run_fop (envs (S j)) (FeedDeliver l pr) fw1) as [answer fw2] eqn:Hdel.
      cbn [run_fop] in Hdel. injection Hdel as Hanswer Hfw2.
      assert (fw_world fw2 = w ∧ fw_cursors fw2 = fw_cursors fw1) as [Hw2 Hcs2].
      { rewrite <-Hfw2. by destruct (env_accepts _). }
      rewrite <-Hanswer. destruct (env_accepts (envs (S j))) as [u|e|]; [| |done].
      * rewrite (frun_call _ _ _ fw2 tt (fw2 <| fw_cursors := <[c := acknowledge_state (a + 1) s]> (fw_cursors fw1) |>
                                            <| fw_recovered := fw_recovered fw2 ++ [] |>)).
        2: { cbn [run_fop]. unfold cursor_acknowledge_lease. by rewrite Hcs2, (lease_works _ _ _ _ _ _ Hle). }
        eapply round_done_more; [apply IH|lia|..]; [|unfold pub_confirmed; cbn; lia|done|done].
        eapply resting_confirmed; [done|apply lookup_insert_eq|done..|lia].
      * rewrite (frun_call _ _ _ fw2 tt (fw2 <| fw_cursors := <[c := fail_state s]> (fw_cursors fw1) |>
                                            <| fw_failed := fw_failed fw2 ++ [(l, None)] |>)).
        2: { cbn [run_fop]. unfold cursor_mark_failed. by rewrite Hcs2, (lease_works _ _ _ _ _ _ Hle). }
        apply Z.leb_gt in Hex. unfold MAX_ATTEMPTS in Hex.
        assert (CursorAttempt_next t = t + 1) as Hnx by (unfold CursorAttempt_next, u32_saturating_add, u32_max; lia).
        exists (round <| pub_failed := pub_failed round + 1 |>), 0, (t + 1).
        cbn [frun mret fio_ret fst snd]. rewrite Z.add_0_r.
        split_and!; [done| |lia|unfold pub_confirmed; cbn; lia|done|].
        -- eapply resting_set; [done|apply lookup_insert_eq|done|..]; cbn; [by rewrite Hst| | | |]; try done; lia.
        -- right. unfold MAX_ATTEMPTS. cbn. lia.
  - assert (a = size) as -> by lia.
    rewrite (frun_call _ _ _ fw1 tt (fw1 <| fw_cursors := <[c := s <| cs_lease := None |>]> (fw_cursors fw1) |>)).
    2: { cbn. unfold cursor_release, cursor_of, holds_lease. rewrite Hc, Hs. cbn. rewrite Hl. cbn. by rewrite eqb_refl. }
    exists round, 0, t. cbn [frun mret fio_ret fst snd]. rewrite Z.add_0_r. split_and!; [done| |lia|lia|done|left; lia].
    eapply resting_set; [done|apply lookup_insert_eq|done|..]; cbn; try done; lia.
Qed.
Lemma page_limit_ok v : 1 ≤ v ≤ 1000 → CeremonyEventPageLimit_new v = Ok v.
Proof using.
  intros Hv. unfold CeremonyEventPageLimit_new, CeremonyEventPageLimit_MAX.
  by rewrite (proj2 (Z.eqb_neq v 0)), (proj2 (Z.ltb_ge 1000 v)) by lia.
Qed.

(** The loop ended well: from [a] on it confirmed what the limit allows or the log has. *)
Definition drained (limit : Z) (summary : PublishCeremonyEventsRound) (a : Z)
    (r : option (outcome PublishCeremonyEventsRound) * FeedWorld * nat) : Prop :=
  ∃ summary' t', r.1.1 = Some (Ok summary') ∧
    pub_confirmed summary' = Z.min limit (pub_confirmed summary + (size - a)) ∧
    pub_busy summary' = pub_busy summary ∧ pub_failed summary' = pub_failed summary ∧
    resting r.1.2 (a + (pub_confirmed summary' - pub_confirmed summary)) t'.

(** What a round confirmed belongs to the whole. *)
Lemma drained_after limit summary s x a r :
  drained limit s (a + x) r → pub_confirmed s = pub_confirmed summary + x → pub_busy s = pub_busy summary →
  pub_failed s = pub_failed summary → drained limit summary a r.
Proof using.
  intros (summary' & t' & H1 & H2 & H3 & H4 & H5) Hs Hb Hf. exists summary', t'.
  split_and!; [exact H1|lia|congruence|congruence|].
  by replace (a + (pub_confirmed summary' - pub_confirmed summary))
    with (a + x + (pub_confirmed summary' - pub_confirmed s)) by lia.
Qed.

(** The failures counted without progress are failures of the next position, so
    the fourth in a row does not come. *)
Lemma automatic_of fuel limit k summary f fw a t :
  resting fw a t → limit ≤ 1000 → 0 ≤ f ≤ t → f ≤ 3 → 0 ≤ pub_confirmed summary ≤ limit →
  4 * (limit - pub_confirmed summary) + 3 - f ≤ Z.of_nat fuel →
  drained limit summary a (frun envs k (publish_automatically fuel c limit summary f) fw).
Proof using Henvs Hw Hfits.
  revert k summary f fw a t. induction fuel as [|fuel IH]; intros k summary f fw a t Hrest Hlim Hf Hf3 Hc Hfuel;
    pose proof (rs_range _ _ _ Hrest) as [Hrange Ht0];
    cbn [publish_automatically]; destruct (Z.ltb_spec (pub_confirmed summary) limit) as [Hlt|Hge]; cbn [negb].
  1, 3: lia || idtac.
  all: try (exists summary, t; cbn [frun fst snd]; split_and!; [done|lia|done|done|];
    replace (a + _) with a by lia; done).
  rewrite page_limit_ok by lia. set (remaining := limit - pub_confirmed summary) in *. rewrite frun_bind.
  destruct (round_of (Z.to_nat remaining) k PublishCeremonyEventsRound_default fw a t Hrest)
    as (round & x & t' & Hr & Hrest' & Hx & Hcx & Hb & Hcase).
  unfold publish_ceremony_events.
  change (frun envs k (flift _ ≫= _) fw) with (frun envs k (publish_loop (Z.to_nat remaining) c 1
    PublishCeremonyEventsRound_default) fw).
  destruct (frun envs k (publish_loop _ _ _ _) fw) as [[answer fw'] k']. cbn [fst snd] in Hr, Hrest'. subst answer.
  change (pub_confirmed PublishCeremonyEventsRound_default) with 0 in Hcx.
  change (pub_failed PublishCeremonyEventsRound_default) with 0 in Hcase.
  change (pub_busy PublishCeremonyEventsRound_default) with false in Hb. rewrite Z.add_0_l in Hcx.
  rewrite Hb, Hcx. pose proof (rs_range _ _ _ Hrest') as [Hrange' Ht0'].
  assert (∀ k s f', pub_confirmed s = pub_confirmed summary + x → pub_busy s = pub_busy summary →
    pub_failed s = pub_failed summary → 0 ≤ f' ≤ t' → f' ≤ 3 → x ≤ remaining → x > 0 ∨ f' = f + 1 →
    drained limit summary a (frun envs k (publish_automatically fuel c limit s f') fw')) as Hnext.
  { intros k0 s f' Hs Hsb Hsf Hf' Hf3' Hxr Hd. eapply drained_after; [apply (IH k0 s f' fw' (a + x) t' Hrest'); lia|done..]. }
  destruct Hcase as [[Hfail Hmin]|(Hfail & Hxn & Ht' & Hz)]; rewrite Hfail; cbn [Z.ltb Z.compare Z.add].
  - destruct (Z.ltb_spec x remaining) as [Hless|Hfull]; cbn [orb].
    + eexists _, t'. cbn [frun fst snd]. split; [reflexivity|].
      split_and!; [unfold pub_confirmed in *; cbn; lia|cbn; by rewrite orb_false_r|done|].
      match goal with |- resting _ ?y _ => replace y with (a + x); [done|] end.
      unfold pub_confirmed in *. cbn. lia.
    + apply Hnext; [unfold pub_confirmed in *; cbn; lia|cbn; by rewrite orb_false_r|done| | | |];
        destruct (Z.ltb_spec 0 x); lia.
  - unfold MAX_ATTEMPTS in *. set (f1 := if 0 <? x then 0 else f).
    assert (0 ≤ f1 ∧ f1 + 1 ≤ t' ∧ (x = 0 → f1 = f)) as (H0 & H1 & H2).
    { unfold f1. destruct (Z.ltb_spec 0 x) as [|Hx0]; [lia|]. rewrite Hz by lia. lia. }
    assert (u32_saturating_add f1 1 = f1 + 1) as -> by (unfold u32_saturating_add, u32_max; lia).
    rewrite (proj2 (Z.ltb_ge 3 (f1 + 1))) by lia. cbn [frun run_fop].
    apply Hnext; [unfold pub_confirmed in *; cbn; lia|cbn; by rewrite orb_false_r|done|lia..].
Qed.
End alone.

(** C16: a publisher on its own drains its feed, however the transport answers.
    From any state of the feed in which nobody else works at its cursor, automatic
    publication succeeds, has confirmed exactly as many positions as the limit
    allows or the log has, leaves the cursor at the last of them, and never fails with its error of no
    retry progress; and even when others interfere its loop ends within four turns
    for each position of the limit and three more. *)
Theorem automatic_publication_drains {Hsha : Sha256} {Hclk : Clock} {Hser : EvidenceSerde} {Haud : AuditSerde}
    ports envs fw c limit :
  feed_ok ports fw → (∀ k, env_ok (envs k)) → free envs (cursor fw c) → 1 ≤ limit ≤ 1000 →
  let size := Z.of_nat (length (es_log (w_store (fw_world fw)))) in
  let confirmed := Z.min limit (size - acknowledged (cursor fw c)) in
  let r := frun envs 0 (execute_automatically c limit) fw in
  (∃ summary, r.1.1 = Ok summary ∧ pub_confirmed summary = confirmed ∧ pub_busy summary = false ∧
     pub_failed summary = 0 ∧ acknowledged (cursor r.1.2 c) = acknowledged (cursor fw c) + confirmed ∧
     fw_world r.1.2 = fw_world fw) ∧
  every (publish_automatically (automatic_turns limit) c limit PublishCeremonyEventsRound_default 0) (λ o, o ≠ None).
Proof.
  intros Hok Henvs Hfree Hlim size confirmed r. pose proof (fo_cursors _ _ Hok c) as Hc.
  destruct (acknowledged_following _ _ _ _ Hok Hc) as [Hb Hfol].
  assert (resting envs (fw_world fw) c fw (acknowledged (cursor fw c)) (cs_attempt (cursor fw c))) as Hrest.
  { constructor; try done. split; [done|apply (co_attempt _ _ _ Hc)]. }
  assert (Z.of_nat (automatic_turns limit) = 4 * limit + 3) as Hturns by (unfold automatic_turns; lia).
  split; [|apply every_automatic; [lia|done|]; change (pub_confirmed _) with 0; lia].
  destruct (automatic_of ports envs Henvs (fw_world fw) (fo_world _ _ Hok) (fo_fits _ _ Hok) c (automatic_turns limit)
    limit 0 PublishCeremonyEventsRound_default 0 fw _ _ Hrest) as (summary & t' & Hr & Hs & Hbusy & Hf & Hrest').
  1-5: try (change (pub_confirmed PublishCeremonyEventsRound_default) with 0); pose proof (co_attempt _ _ _ Hc); lia.
  change (pub_confirmed PublishCeremonyEventsRound_default) with 0 in Hs, Hrest'.
  rewrite Z.sub_0_r in Hrest'. rewrite Z.add_0_l in Hs. unfold r, execute_automatically. rewrite frun_bind.
  destruct (frun envs 0 (publish_automatically _ _ _ _ _) fw) as [[answer fw'] k']. cbn [fst snd] in Hr, Hrest'.
  subst answer. cbn [frun fst snd default]. exists summary. destruct Hrest' as [Hw' Ha' _ _ _ _].
  split_and!; [done|done|done|done| |done]. rewrite Ha'. lia.
Qed.

#[local] Existing Instance plain_audit.
#[local] Existing Instance checksum_sha.
#[local] Existing Instance kin_ports_laws.

(** The publisher of the run is gone and its lease has expired; another takes over
    while the transport is still down for a while. *)
Definition later_envs (k : nat) : Env :=
  MkEnv (40000000000 + Z.of_nat k) ("late-" +:+ decimal (Z.of_nat (k `min` 99)))
    (if (k <? 20)%nat then Err (InvariantViolated "sink is down") else Ok tt).

Lemma later_envs_ok k : env_ok (later_envs k).
Proof.
  constructor; [|done|unfold later_envs; cbn [env_accepts]; destruct (k <? 20)%nat; discriminate]. unfold later_envs. cbn [env_uuid].
  assert (all (λ k, is_ok (CeremonyEventCursorLeaseId_new ("late-" +:+ decimal (Z.of_nat k)))) (seq 0 100) = true) as H
    by (vm_compute; reflexivity).
  apply (proj1 (all_true _ _) H). apply elem_of_seq. lia.
Qed.

Lemma automatic_publication_drains_witness :
  let fw := fs_world feed_system in
  let r := frun later_envs 0 (execute_automatically "sink" 10) fw in
  (Z.of_nat (length (es_log (w_store (fw_world fw)))) = 6 ∧ acknowledged (cursor fw "sink") = 2) ∧
  (∃ summary, r.1.1 = Ok summary ∧ pub_confirmed summary = 4 ∧ pub_busy summary = false ∧
     pub_failed summary = 0 ∧ acknowledged (cursor r.1.2 "sink") = 6 ∧ fw_world r.1.2 = fw_world fw) ∧
  every (publish_automatically (automatic_turns 10) "sink" 10 PublishCeremonyEventsRound_default 0) (λ o, o ≠ None).
Proof.
  intros fw r.
  assert (Z.of_nat (length (es_log (w_store (fw_world fw)))) = 6) as Hsize by (vm_compute; reflexivity).
  assert (acknowledged (cursor fw "sink") = 2) as Hack by (vm_compute; reflexivity). split; [exact (conj Hsize Hack)|].
  assert (feed_ok kin_ports fw) as Hok.
  { exact (proj1 (feed_run_ok kin_ports open_stream kin_stream_ok None kin_gate_ok feed_clients feed_system
      feed_clients_ok feed_run)). }
  assert (free later_envs (cursor fw "sink")) as Hfree.
  { intros l Hl k. assert (cl_leased_until l = 30000000056) as ->.
    { assert (cl_leased_until <$> cs_lease (cursor fw "sink") = Some 30000000056) as H by (vm_compute; reflexivity).
      rewrite Hl in H. by injection H. }
    unfold later_envs. cbn [env_now]. lia. }
  pose proof (automatic_publication_drains kin_ports later_envs fw "sink" 10 Hok later_envs_ok Hfree
    ltac:(lia)) as H. cbn zeta in H. rewrite Hsize, Hack in H. exact H.
Defined.

(** The lease of a publisher that died blocks the pulls of its consumer for as long
    as nobody takes the cursor over, expired or not: an acknowledgement is refused
    whenever a lease is there, and is told no time. *)
Example expired_lease_blocks_the_pull :
  let cs := fw_cursors (fs_world feed_system) in
  (cl_leased_until <$> cs_lease (cursor_of cs "sink")) = Some 30000000056 ∧
  (cursor_acknowledge cs "sink" 3).1 = Err cursor_conflict ∧
  is_ok (cursor_lease cs "sink" "late" 40000000000 LEASE_DURATION).1 = true.
Proof. vm_compute. done. Qed.
