(* ===== verification/Ranking.v ===== *)
(** * What a deliberation guarantees

    The order on scores and the ranking it induces, and the invariant of every
    deliberation its operations can build. *)

From Stdlib Require Import SpecFloat.
From S2P Require Import Prelude Errors Text Values Steps Deliberation.

(** ** Scores are totally ordered *)

(** A score is zero or a positive number, which [SFcompare] compares by exponent
    and then by mantissa. *)
Definition score_key (s : Score) : option (Z * Z) :=
  match score_get s with S754_finite _ m e => Some (e, Z.pos m) | _ => None end.

Definition key_cmp (a b : option (Z * Z)) : comparison :=
  match a, b with
  | None, None => Eq
  | None, Some _ => Lt
  | Some _, None => Gt
  | Some (e, m), Some (e', m') => match e ?= e' with Eq => m ?= m' | c => c end
  end.

Lemma Score_cmp_key a b : Score_cmp a b = key_cmp (score_key a) (score_key b).
Proof.
  destruct a as [[?|?| |[] m e] H], b as [[?|?| |[] m' e'] H']; try discriminate H; try discriminate H';
    reflexivity.
Qed.

Lemma key_cmp_opp a b : key_cmp b a = CompOpp (key_cmp a b).
Proof.
  destruct a as [[e m]|], b as [[e' m']|]; cbn; [|done..].
  rewrite (Z.compare_antisym e e'). destruct (e ?= e'); cbn; [apply Z.compare_antisym|done|done].
Qed.

Lemma key_cmp_trans a b c : key_cmp a b ≠ Gt → key_cmp b c ≠ Gt →
  key_cmp a c ≠ Gt ∧ (key_cmp a c = Eq → key_cmp a b = Eq ∧ key_cmp b c = Eq).
Proof.
  destruct a as [[e m]|], b as [[e' m']|], c as [[e'' m'']|]; cbn; try done.
  destruct (Z.compare_spec e e'), (Z.compare_spec e' e''), (Z.compare_spec e e''); subst; try lia; try done.
  destruct (Z.compare_spec m m'), (Z.compare_spec m' m''), (Z.compare_spec m m''); subst; try lia; try done.
Qed.

(** ** The ranking order *)

Lemma string_le_spec a b : String.le a b ↔ String.compare a b ≠ Gt.
Proof.
  unfold String.le, String.leb. destruct (String.compare a b); naive_solver.
Qed.

#[export] Instance rank_le_total : Total rank_le.
Proof.
  intros a b. unfold rank_le, rank_cmp. rewrite !Score_cmp_key, (key_cmp_opp (score_key (vo_score a.2))).
  destruct (key_cmp (score_key (vo_score a.2)) (score_key (vo_score b.2))); cbn;
    [rewrite <-!string_le_spec; apply (total String.le)|by right|by left].
Qed.

#[export] Instance rank_le_trans : Transitive rank_le.
Proof.
  intros a b c. unfold rank_le, rank_cmp. rewrite !Score_cmp_key.
  set (ka := score_key (vo_score a.2)). set (kb := score_key (vo_score b.2)).
  set (kc := score_key (vo_score c.2)). intros Hab Hbc.
  assert (key_cmp kc kb ≠ Gt) as H1 by (by destruct (key_cmp kc kb)).
  assert (key_cmp kb ka ≠ Gt) as H2 by (by destruct (key_cmp kb ka)).
  destruct (key_cmp_trans _ _ _ H1 H2) as [Hle Heq].
  destruct (key_cmp kc ka); [|done|done]. destruct Heq as [H3 H4]; [done|]. rewrite H3 in Hbc. rewrite H4 in Hab.
  rewrite <-!string_le_spec in *. by etransitivity.
Qed.

(** Distinct proposals never tie. *)
Lemma rank_le_antisym a b : rank_le a b → rank_le b a → a.1.1 = b.1.1.
Proof.
  unfold rank_le, rank_cmp. rewrite !Score_cmp_key, (key_cmp_opp (score_key (vo_score a.2))).
  destruct (key_cmp (score_key (vo_score a.2)) (score_key (vo_score b.2))); cbn; [|done|done].
  rewrite <-!string_le_spec. apply (anti_symm String.le).
Qed.

(** The first entry of a ranking is beaten by none of the others. *)
Lemma sorted_head (x y : RankedTuple) l : StronglySorted rank_le (x :: l) → y ∈ x :: l → rank_le x y.
Proof.
  intros H [->|Hy]%elem_of_cons; [by destruct (total rank_le x x)|].
  apply StronglySorted_inv in H as [_ H]. by eapply Forall_forall.
Qed.

(** ** Materialising a ranking *)

Definition entry (d : Deliberation) (t : RankedTuple) : Prop :=
  dl_proposals d !! t.1.1 = Some t.1.2 ∧ dl_outcomes d !! t.1.1 = Some t.2.

Lemma materialize_ok d ids l : materialize_ranked_tuples d ids = Ok l →
  l.*1.*1 = ids ∧ Forall (entry d) l.
Proof.
  unfold materialize_ranked_tuples. revert l. induction ids as [|id ids IH]; intros l; cbn.
  { intros [= <-]. done. }
  destruct (dl_proposals d !! id) as [p|] eqn:Hp; cbn; [|done].
  destruct (dl_outcomes d !! id) as [o|] eqn:Ho; cbn; [|done].
  destruct (try_map _ ids) as [l'| |]; cbn; [|done|done].
  intros [= <-]. destruct (IH l') as [H1 H2]; [done|]. cbn. rewrite H1. split; [done|].
  by constructor.
Qed.

Lemma materialize_total d ids : (∀ id, id ∈ ids → is_Some (dl_proposals d !! id)) →
  (∀ id, id ∈ ids → is_Some (dl_outcomes d !! id)) → ∃ l, materialize_ranked_tuples d ids = Ok l.
Proof.
  unfold materialize_ranked_tuples. induction ids as [|id ids IH]; intros Hp Ho; cbn; [by eexists|].
  destruct (Hp id) as [p ->]; [by left|]. destruct (Ho id) as [o ->]; [by left|]. cbn.
  destruct IH as [l ->]; [by (intros; apply Hp; right)|by (intros; apply Ho; right)|].
  cbn. by eexists.
Qed.

Lemma entries_by_id d l : Forall (entry d) l → NoDup l.*1.*1 → NoDup l.
Proof. intros _ H. by apply NoDup_fmap_1, NoDup_fmap_1 in H. Qed.

Lemma ranked_from_lookup i l k : ranked_from i l !! k =
  (λ t : RankedTuple, MkRankedOutcome t.1.2 t.2 (Z.min u32_max (i + Z.of_nat k))) <$> l !! k.
Proof.
  revert i k. induction l as [|[[id p] o] l IH]; intros i [|k]; cbn; [done|done| |].
  - by rewrite Z.add_0_r.
  - rewrite IH. destruct (l !! k) as [t|]; cbn; [|done]. do 2 f_equal. lia.
Qed.

Lemma ranked_from_length i l : length (ranked_from i l) = length l.
Proof. revert i. induction l as [|[[id p] o] l IH]; intros i; cbn; [done|by rewrite IH]. Qed.

(** ** Every deliberation *)

(** The deliberations the operations build from a started one. *)
Inductive deliberation_step : Deliberation → Deliberation → Prop :=
| step_add d p d' : add_proposal d p = Ok d' → deliberation_step d d'
| step_revise d id content now d' :
    revise_proposal d id content now = Ok d' → deliberation_step d d'
| step_attach d id o d' : attach_outcome d id o = Ok d' → deliberation_step d d'
| step_advance d d' : advance d = Ok d' → deliberation_step d d'
| step_complete d now ranked d' : complete d now = Ok (ranked, d') → deliberation_step d d'
| step_reprioritize d ids ranked d' :
    reprioritize d ids = Ok (ranked, d') → deliberation_step d d'.

Definition started (d : Deliberation) : Prop :=
  ∃ task specialty rounds now, d = Deliberation_start task specialty rounds now.

Record deliberation_ok (d : Deliberation) : Prop := {
  ok_keyed : ∀ id p, dl_proposals d !! id = Some p → proposal_id p = id;
  ok_outcomes : dom (dl_outcomes d) ⊆ dom (dl_proposals d);
  ok_proposing : dl_phase d ≠ Proposing → dl_proposals d ≠ ∅;
  ok_validated : dl_phase d = Scoring ∨ dl_phase d = Completed →
    dom (dl_outcomes d) = dom (dl_proposals d);
  ok_unranked : dl_completed_at d = None → dl_ranking d = [];
  ok_ranked : is_Some (dl_completed_at d) →
    dl_phase d = Completed ∧ dl_ranking d ≡ₚ btree_keys (dl_proposals d);
}.

Lemma require_phase_ok d p : require_phase d p = Ok tt → dl_phase d = p.
Proof. unfold require_phase. intros H%ensure_Ok. apply eqb_true_1 in H. exact H. Qed.

Lemma add_proposal_ok d p d' : add_proposal d p = Ok d' →
  dl_phase d = Proposing ∧ dl_proposals d !! proposal_id p = None ∧
  d' = d <| dl_proposals := <[proposal_id p := p]> (dl_proposals d) |>.
Proof.
  unfold add_proposal. intros H. apply bind_Ok in H as ([] & Hp%require_phase_ok & H).
  apply bind_Ok in H as ([] & Hnew%ensure_Ok & [= <-]). apply negb_true_iff, is_some_false in Hnew. done.
Qed.

Lemma revise_proposal_ok d id content now d' : revise_proposal d id content now = Ok d' →
  dl_phase d = Revising ∧ ∃ p p', dl_proposals d !! id = Some p ∧ proposal_revise p content now = Ok p' ∧
  d' = d <| dl_proposals := <[id := p']> (dl_proposals d) |>.
Proof.
  unfold revise_proposal. intros H. apply bind_Ok in H as ([] & Hp%require_phase_ok & H).
  apply bind_Ok in H as (p & Hl%ok_or_Ok & H). apply bind_Ok in H as (p' & Hr & [= <-]). eauto 10.
Qed.

Lemma proposal_revise_ok p content now p' : proposal_revise p content now = Ok p' →
  proposal_id p' = proposal_id p ∧ proposal_author p' = proposal_author p ∧ proposal_content p' = content ∧
  proposal_revision_count p' = u32_saturating_add (proposal_revision_count p) 1.
Proof. unfold proposal_revise. intros H. by invert_ok H. Qed.

Lemma attach_outcome_ok d id o d' : attach_outcome d id o = Ok d' →
  dl_phase d = Validating ∧ is_Some (dl_proposals d !! id) ∧ dl_outcomes d !! id = None ∧
  d' = d <| dl_outcomes := <[id := o]> (dl_outcomes d) |>.
Proof.
  unfold attach_outcome. intros H. apply bind_Ok in H as ([] & Hp%require_phase_ok & H).
  apply bind_Ok in H as ([] & Hid%ensure_Ok & H). apply bind_Ok in H as ([] & Hno%ensure_Ok & [= <-]).
  apply is_some_true in Hid. apply negb_true_iff, is_some_false in Hno. done.
Qed.

(** Outcomes of proposals only, as many as there are proposals: one for each. *)
Lemma outcomes_complete d : dom (dl_outcomes d) ⊆ dom (dl_proposals d) →
  size (dl_outcomes d) = size (dl_proposals d) → dom (dl_outcomes d) = dom (dl_proposals d).
Proof.
  intros Hsub Hsize. apply set_subseteq_size_eq; [done|].
  rewrite !size_dom. lia.
Qed.

Lemma advance_ok d d' : advance d = Ok d' → ∃ next, phase_next (dl_phase d) = Some next ∧
  d' = d <| dl_phase := next |> ∧ (dl_phase d = Proposing → dl_proposals d ≠ ∅) ∧
  (dl_phase d = Validating → size (dl_outcomes d) = size (dl_proposals d)).
Proof.
  unfold advance. intros H. apply bind_Ok in H as (next & Hn & H). apply ok_or_Ok in Hn.
  apply bind_Ok in H as ([] & Hg & [= <-]). exists next. split_and!; [done|done| |].
  - intros Hp. rewrite Hp in Hg, Hn. injection Hn as <-. apply ensure_Ok, negb_true_iff, Nat.eqb_neq in Hg.
    intros He. rewrite He, map_size_empty in Hg. done.
  - intros Hp. rewrite Hp in Hg, Hn. injection Hn as <-. by apply ensure_Ok, Nat.eqb_eq in Hg.
Qed.

Lemma complete_ok d now ranked d' : complete d now = Ok (ranked, d') → dl_phase d = Scoring ∧
  ∃ l, l.*1.*1 ≡ₚ btree_keys (dl_proposals d) ∧ Forall (entry d) l ∧ StronglySorted rank_le l ∧
    ranked = ranked_from 0 l ∧
    d' = d <| dl_ranking := l.*1.*1 |> <| dl_phase := Completed |> <| dl_completed_at := Some now |>.
Proof.
  unfold complete. intros H. apply bind_Ok in H as ([] & Hp%require_phase_ok & H).
  apply bind_Ok in H as (l & [Hids Hl]%materialize_ok & [= <- <-]).
  pose proof (merge_sort_Permutation rank_le l) as HP. split; [done|].
  exists (merge_sort rank_le l). split_and!; [by rewrite <-Hids, HP|by rewrite HP| |done|done].
  apply (StronglySorted_merge_sort rank_le).
Qed.

Lemma reprioritize_ok d ids ranked d' : reprioritize d ids = Ok (ranked, d') → dl_phase d = Completed ∧
  length ids = length (dl_ranking d) ∧ list_to_set (dl_ranking d) = (list_to_set ids : gset string) ∧
  ∃ l, l.*1.*1 = ids ∧ Forall (entry d) l ∧ ranked = ranked_from 0 l ∧ d' = d <| dl_ranking := ids |>.
Proof.
  unfold reprioritize. intros H. apply bind_Ok in H as ([] & Hp%require_phase_ok & H).
  apply bind_Ok in H as ([] & Hg%ensure_Ok & H). apply andb_true_iff in Hg as [Hlen Hset].
  apply Nat.eqb_eq in Hlen. apply bool_decide_eq_true in Hset.
  apply bind_Ok in H as (l & [Hids Hl]%materialize_ok & [= <- <-]). eauto 10.
Qed.

(** As many identifiers as the ranking has and the same ones: a permutation. *)
Lemma same_ids_perm (l l' : list string) : NoDup l → length l' = length l →
  list_to_set l = (list_to_set l' : gset string) → l' ≡ₚ l.
Proof.
  intros Hl Hlen Hset.
  assert (∀ x, x ∈ l' ↔ x ∈ l) as Hx.
  { intros x. rewrite <-!(elem_of_list_to_set (C:=gset string)). by rewrite Hset. }
  assert (NoDup l') as Hl'.
  { rewrite NoDup_ListNoDup in *. apply (NoDup_incl_NoDup Hl); [lia|].
    intros x. rewrite <-!list_elem_of_In, Hx. done. }
  by apply NoDup_Permutation.
Qed.

Lemma deliberation_step_ok d d' : deliberation_ok d → deliberation_step d d' → deliberation_ok d'.
Proof.
  intros [Hkey Hout Hprop Hval Hun Hrk] Hstep.
  destruct Hstep as [d p d' H|d id content now d' H|d id o d' H|d d' H|d now ranked d' H|d ids ranked d' H].
  - apply add_proposal_ok in H as (Hp & Hnew & ->). split; cbn; try done.
    + intros id q [[<- <-]|[_ Hq]]%lookup_insert_Some; [done|by apply Hkey].
    + rewrite dom_insert. set_solver.
    + rewrite Hp. intros [?|?]; discriminate.
    + intros Hc. destruct (Hrk Hc). congruence.
  - apply revise_proposal_ok in H as (Hp & q & q' & Hq & Hrev & ->).
    pose proof (proposal_revise_ok _ _ _ _ Hrev) as (Hid & _).
    assert (dom (<[id := q']> (dl_proposals d)) = dom (dl_proposals d)) as Hdom.
    { by apply dom_insert_lookup_L. }
    split; cbn; try done.
    + intros id' r [[<- <-]|[_ Hr]]%lookup_insert_Some; [rewrite Hid; by apply Hkey|by apply Hkey].
    + by rewrite Hdom.
    + intros _. apply insert_non_empty.
    + rewrite Hp. intros [?|?]; discriminate.
    + intros Hc. destruct (Hrk Hc). congruence.
  - apply attach_outcome_ok in H as (Hp & Hid & Hno & ->). split; cbn; try done.
    + rewrite dom_insert. apply elem_of_dom in Hid. set_solver.
    + rewrite Hp. intros [?|?]; discriminate.
  - apply advance_ok in H as (next & Hn & -> & Hne & Hsz). split; cbn; try done.
    + intros Hx. destruct (dl_phase d) eqn:E; try (by apply Hprop); by apply Hne.
    + intros Hnx. destruct (dl_phase d) eqn:E; cbn in Hn; simplify_eq; destruct Hnx; try discriminate;
        first [by apply Hval; left|apply outcomes_complete; auto].
    + intros Hc. destruct (Hrk Hc) as [E _]. rewrite E in Hn. discriminate.
  - apply complete_ok in H as (Hp & l & Hids & Hl & _ & _ & ->). split; cbn; try done.
    + rewrite Hp in Hprop. intros _. by apply Hprop.
    + intros _. apply Hval. by left.
  - apply reprioritize_ok in H as (Hp & Hlen & Hset & l & Hids & _ & _ & ->). split; cbn; try done.
    + intros Hn. rewrite (Hun Hn) in Hlen. by apply nil_length_inv.
    + intros Hc. destruct (Hrk Hc) as [_ HP]. split; [done|].
      assert (NoDup (dl_ranking d)) as Hnd by (rewrite HP; apply btree_keys_NoDup).
      by rewrite (same_ids_perm _ _ Hnd Hlen Hset).
Qed.

Lemma started_ok d : started d → deliberation_ok d.
Proof.
  intros (? & ? & ? & ? & ->). split; cbn; [done|done|done|by intros [[=]|[=]]|done|by intros [? [=]]].
Qed.

Lemma reachable_deliberation_ok d0 d : started d0 → rtc deliberation_step d0 d → deliberation_ok d.
Proof.
  intros H%started_ok Hr. induction Hr; [done|]. eauto using deliberation_step_ok.
Qed.
