(* ===== verification/Consensus.v ===== *)
(** * What a deliberation decides

    However agents, validators and scoring answer: who proposes, how often every
    proposal is reviewed, which proposal wins, when none does, and what an
    orchestration does with the winner. *)

From S2P Require Import Prelude Errors Text Values Steps Authorization Deliberation Deliberate Ranking.

(** ** Reasoning about conversations *)

(** [Q] holds of the calls and the result, whatever the answers are. *)
Fixpoint after {A} (p : talk A) (Q : list Call → A → Prop) : Prop :=
  match p with
  | Done a => Q [] a
  | Ask q k => ∀ b, after (k b) (λ calls a, Q (MkCall q b :: calls) a)
  end.

Lemma after_mono {A} (p : talk A) (Q Q' : list Call → A → Prop) :
  after p Q → (∀ calls a, Q calls a → Q' calls a) → after p Q'.
Proof.
  revert Q Q'. induction p as [a|B q k IH]; cbn; intros Q Q' H HQ; [by apply HQ|].
  intros b. eapply IH; [apply H|]. cbn. intros calls a. apply HQ.
Qed.

Lemma after_bind {A B} (p : talk A) (f : A → talk B) Q :
  after p (λ calls a, after (f a) (λ calls' b, Q (calls ++ calls') b)) → after (talk_bind p f) Q.
Proof.
  revert Q. induction p as [a|C q k IH]; cbn; intros Q H; [done|].
  intros b. apply IH, H.
Qed.

Lemma after_talks {A} (p : talk A) Q calls a : after p Q → talks p calls a → Q calls a.
Proof. intros H Ht. revert Q H. induction Ht; cbn; intros Q H; [done|]. by apply (IHHt _ (H b)). Qed.

(** What a conversation tells the outside world. *)
Inductive Effect :=
| Seated (agents : list AgentId)
| Observed (phase : DeliberationPhase)
| Saved (d : Deliberation)
| Published (e : DeliberationCompletedEvent)
| Dispatched (e : TaskDispatchedEvent)
| Executed (p : Proposal)
| CompletedTask (e : TaskCompletedEvent)
| FailedTask (e : TaskFailedEvent).

Definition effect_of (c : Call) : option Effect :=
  match c with
  | MkCall q answer =>
      match q in Question B return B → option Effect with
      | ResolveAll _ => λ answer, match answer with Ok agents => Some (Seated agents) | _ => None end
      | PhaseChanged _ phase _ => λ _, Some (Observed phase)
      | SaveDeliberation d _ => λ _, Some (Saved d)
      | PublishDeliberationCompleted e => λ _, Some (Published e)
      | PublishTaskDispatched e => λ _, Some (Dispatched e)
      | ExecuteProposal p _ => λ _, Some (Executed p)
      | PublishTaskCompleted e => λ _, Some (CompletedTask e)
      | PublishTaskFailed e => λ _, Some (FailedTask e)
      | _ => λ _, None
      end answer
  end.

Definition effects (calls : list Call) : list Effect := omap effect_of calls.

Lemma effects_app l l' : effects (l ++ l') = effects l ++ effects l'.
Proof. apply omap_app. Qed.

(** What is told to the world, and the result. *)
Definition tells {A} (p : talk A) (Q : list Effect → A → Prop) : Prop :=
  after p (λ calls a, Q (effects calls) a).

(** A conversation that tells nothing and, when it succeeds, gives an [R]. *)
Definition gives {A} (p : chat A) (R : A → Prop) : Prop :=
  tells p (λ es r, es = [] ∧ ∀ a, r = Ok a → R a).

Lemma tells_mono {A} (p : talk A) (Q Q' : list Effect → A → Prop) :
  tells p Q → (∀ es a, Q es a → Q' es a) → tells p Q'.
Proof. intros H HQ. eapply after_mono; [exact H|]. intros. by apply HQ. Qed.

Lemma tells_bind {A B} (p : talk A) (f : A → talk B) Q :
  tells p (λ es a, tells (f a) (λ es' b, Q (es ++ es') b)) → tells (talk_bind p f) Q.
Proof.
  intros H. apply after_bind. eapply after_mono; [exact H|]. cbn. intros calls a Ha.
  eapply after_mono; [exact Ha|]. cbn. intros calls' b. by rewrite effects_app.
Qed.

Lemma tells_ask {A B} (q : Question B) (k : B → talk A) Q :
  (∀ b, tells (k b) (λ es a, Q (option_list (effect_of (MkCall q b)) ++ es) a)) → tells (Ask q k) Q.
Proof.
  intros H b. eapply after_mono; [apply H|]. cbn. intros calls a.
  unfold effects. cbn. destruct q; cbn; try done. by destruct b.
Qed.

(** A quiet first part of a conversation. *)
Lemma gives_then {A B} (p : chat A) (f : A → chat B) R Q :
  gives p R → (∀ e, Q [] (Err e)) → Q [] Panic → (∀ a, R a → tells (f a) Q) → tells (p ≫= f) Q.
Proof.
  intros Hp He HP Hf. apply tells_bind. eapply tells_mono; [exact Hp|].
  intros es r [-> Hr]. cbn. destruct r as [a|e|]; [by apply Hf, Hr|apply He|apply HP].
Qed.

Lemma gives_bind {A B} (p : chat A) (f : A → chat B) R R' :
  gives p R → (∀ a, R a → gives (f a) R') → gives (p ≫= f) R'.
Proof. intros Hp Hf. by eapply gives_then; [exact Hp|..|exact Hf]. Qed.

Lemma gives_reply {A} (r : outcome A) R : (∀ a, r = Ok a → R a) → gives (reply r) R.
Proof. intros H. by split. Qed.

Lemma gives_ret {A} (a : A) (R : A → Prop) : R a → gives (mret a) R.
Proof. intros H. split; [done|]. by intros ? [= <-]. Qed.

Lemma gives_mono {A} (p : chat A) (R R' : A → Prop) : gives p R → (∀ a, R a → R' a) → gives p R'.
Proof. intros H HR. eapply tells_mono; [exact H|]. naive_solver. Qed.

(** Questions that tell nothing. *)
Lemma gives_ask {A} (q : Question (outcome A)) :
  (∀ b, effect_of (MkCall q b) = None) → gives (ask q) (λ _, True).
Proof. intros H. apply tells_ask. intros b. by rewrite H. Qed.

Lemma gives_query {A} (q : Question A) :
  (∀ b, effect_of (MkCall q b) = None) → gives (query q) (λ _, True).
Proof. intros H. apply tells_ask. intros b. by rewrite H. Qed.

(** [quietly] steps over a quiet question whose answer does not matter. *)
Ltac quietly := eapply gives_bind; [first [by apply gives_ask|by apply gives_query]|intros ? _].

#[local] Arguments mbind {_ _ _ _} _ _ : simpl never.
#[local] Arguments mret {_ _ _} _ : simpl never.
#[local] Arguments reply : simpl never.
#[local] Arguments ask : simpl never.
#[local] Arguments query : simpl never.

(** ** The proposals of a deliberation *)

Lemma proposal_id_quiet : gives new_proposal_id (λ _, True).
Proof. unfold new_proposal_id. quietly. by apply gives_reply. Qed.

Lemma event_id_quiet : gives new_event_id (λ _, True).
Proof. unfold new_event_id. quietly. by apply gives_reply. Qed.

Lemma next_draft_quiet drafts agent t : gives (next_draft drafts agent t) (λ _, True).
Proof.
  destruct drafts as [[|draft drafts]|]; cbn.
  - by apply gives_reply.
  - eapply gives_bind; [by apply (gives_reply _ (λ _, True))|]. intros ? _. by apply gives_ret.
  - quietly. by apply gives_ret.
Qed.

(** What seeding made of [d]: one new proposal per agent, in their order. *)
Record seeded (agents : list AgentId) (d : Deliberation) (ids : list ProposalId) (d' : Deliberation)
    : Prop := {
  seeded_steps : rtc deliberation_step d d';
  seeded_same : d' = d <| dl_proposals := dl_proposals d' |>;
  seeded_new : ∀ id, id ∈ ids → dl_proposals d !! id = None;
  seeded_nodup : NoDup ids;
  seeded_by : Forall2 (λ agent id, ∃ p, dl_proposals d' !! id = Some p ∧ proposal_author p = agent ∧
    proposal_revision_count p = 0) agents ids;
  seeded_others : ∀ id, id ∉ ids → dl_proposals d' !! id = dl_proposals d !! id;
}.

Lemma seed_each_gives now t drafts agents d :
  gives (seed_each now t drafts agents d) (λ r, seeded agents d r.1 r.2).
Proof.
  revert drafts d. induction agents as [|agent agents IH]; intros drafts d; cbn.
  { apply gives_ret. split; cbn; try done; [by destruct d|set_solver|constructor]. }
  eapply gives_bind; [apply next_draft_quiet|]. intros [content drafts'] _.
  eapply gives_bind; [apply proposal_id_quiet|]. intros id _.
  eapply gives_bind; [apply gives_reply; intros p Hp; exact Hp|]. intros p Hp.
  eapply gives_bind; [apply gives_reply; intros d1 Hd; exact Hd|]. intros d1 Hd.
  eapply gives_bind; [apply IH|]. intros [ids d2] H. apply gives_ret. cbn in *.
  unfold Proposal_new in Hp. apply bind_Ok in Hp as ([] & _ & [= <-]).
  pose proof (add_proposal_ok _ _ _ Hd) as (Hph & Hnew & Hd1). cbn in Hnew, Hd1.
  destruct H as [Hst Hsame Hnews Hnd Hby Hoth].
  assert (id ∉ ids) as Hid.
  { intros Hi. apply Hnews in Hi. rewrite Hd1 in Hi. cbn in Hi. by rewrite lookup_insert_eq in Hi. }
  split.
  - eapply rtc_l; [by eapply step_add|done].
  - rewrite Hsame, Hd1. done.
  - intros id' [->|Hi]%elem_of_cons; [done|]. apply Hnews in Hi. rewrite Hd1 in Hi. cbn in Hi.
    by apply lookup_insert_None in Hi as [? _].
  - by constructor.
  - constructor; [|done]. rewrite Hoth by done. rewrite Hd1. cbn. rewrite lookup_insert_eq. eauto.
  - intros id' Hi. apply not_elem_of_cons in Hi as [Hne Hi]. rewrite Hoth by done.
    rewrite Hd1. cbn. by rewrite lookup_insert_ne.
Qed.

(** ** Peer review *)

(** [d'] is [d] after the proposals at [peers] were revised, in turn. *)
Record revised (ids : list ProposalId) (peers : list nat) (d d' : Deliberation) : Prop := {
  revised_steps : rtc deliberation_step d d';
  revised_same : d' = d <| dl_proposals := dl_proposals d' |>;
  revised_dom : ∀ id, dl_proposals d !! id = None → dl_proposals d' !! id = None;
  revised_by : ∀ id p, dl_proposals d !! id = Some p → ∃ p', dl_proposals d' !! id = Some p' ∧
    proposal_author p' = proposal_author p ∧
    proposal_revision_count p' = Nat.iter (count (λ k, bool_decide (ids !! k = Some id)) peers)
      (λ c, u32_saturating_add c 1) (proposal_revision_count p);
}.

Lemma revised_refl ids d : revised ids [] d d.
Proof. split; [done|by destruct d|done|]. eauto. Qed.

Lemma revised_trans ids peers peers' d d1 d2 :
  revised ids peers d d1 → revised ids peers' d1 d2 → revised ids (peers ++ peers') d d2.
Proof.
  intros [S1 E1 D1 R1] [S2 E2 D2 R2]. split.
  - by etransitivity.
  - rewrite E2, E1. done.
  - eauto.
  - intros id p Hp. apply R1 in Hp as (p1 & Hp1 & A1 & C1). apply R2 in Hp1 as (p2 & Hp2 & A2 & C2).
    exists p2. split_and!; [done|congruence|]. rewrite C2, C1. unfold count.
    by rewrite List.filter_app, length_app, Nat.add_comm, Nat.iter_add.
Qed.

Lemma revised_one ids k id d content now d' : ids !! k = Some id → NoDup ids →
  revise_proposal d id content now = Ok d' → revised ids [k] d d'.
Proof.
  intros Hk Hnd H. pose proof (revise_proposal_ok _ _ _ _ _ H) as (Hph & p & p' & Hp & Hrev & ->).
  apply proposal_revise_ok in Hrev as (_ & Ha & _ & Hc). split; cbn.
  - by apply rtc_once, (step_revise _ _ _ _ _ H).
  - done.
  - intros id' Hn. apply lookup_insert_None. split; [done|]. intros <-. congruence.
  - intros id' q Hq. destruct (base.decide (id = id')) as [<-|Hne].
    + exists p'. rewrite lookup_insert_eq. rewrite Hp in Hq. injection Hq as <-. split_and!; [done|done|].
      rewrite bool_decide_true by done. done.
    + exists q. rewrite lookup_insert_ne by done. split_and!; [done|done|].
      by rewrite bool_decide_false by congruence.
Qed.

Lemma review_round_gives n ids constraints i agents d : NoDup ids →
  gives (review_round n ids constraints i agents d)
    (revised ids (List.map (λ j, ((j + 1) mod n)%nat) (seq i (length agents))) d).
Proof.
  intros Hnd. revert i d. induction agents as [|agent agents IH]; intros i d; cbn [review_round length seq List.map].
  { apply gives_ret, revised_refl. }
  eapply gives_bind; [apply gives_reply; intros peer Hp; exact Hp|]. intros peer Hpeer.
  eapply gives_bind; [by apply (gives_reply _ (λ _, True))|]. intros content _.
  quietly. quietly. quietly.
  eapply gives_bind; [apply gives_reply; intros d1 Hd; exact Hd|]. intros d1 Hd.
  eapply gives_mono; [apply IH|]. cbn. intros d2 H.
  destruct (ids !! _) as [peer'|] eqn:Hk in Hpeer; [|done]. cbn in Hpeer. injection Hpeer as ->.
  apply (revised_trans _ [_]  _ _ _ _ (revised_one _ _ _ _ _ _ _ Hk Hnd Hd) H).
Qed.

(** The peers of one round. *)
Definition round_peers (n : nat) : list nat := List.map (λ j, ((j + 1) mod n)%nat) (seq 0 n).

Lemma round_peers_perm n : round_peers (S n) ≡ₚ seq 0 (S n).
Proof.
  unfold round_peers. rewrite seq_S at 1. rewrite List.map_app. cbn [List.map].
  rewrite Nat.add_0_l, Nat.add_1_r, Nat.Div0.mod_same.
  rewrite (List.map_ext_in _ S).
  - rewrite seq_shift. rewrite <-Permutation_cons_append. done.
  - intros j Hj%in_seq. rewrite Nat.mod_small by lia. lia.
Qed.

Lemma review_rounds_gives rounds agents ids constraints d : NoDup ids →
  gives (review_rounds rounds agents ids constraints d)
    (revised ids (List.concat (replicate rounds (round_peers (length agents)))) d).
Proof.
  intros Hnd. revert d. induction rounds as [|rounds IH]; intros d; cbn.
  { apply gives_ret, revised_refl. }
  eapply gives_bind; [by apply review_round_gives|]. intros d1 H1.
  eapply gives_mono; [apply IH|]. intros d2. by apply revised_trans.
Qed.

(** How often the proposal at a place is revised in so many rounds. *)
Lemma times_revised (ids : list ProposalId) k id n rounds : NoDup ids → ids !! k = Some id →
  length ids = S n →
  count (λ j, bool_decide (ids !! j = Some id)) (List.concat (replicate rounds (round_peers (S n)))) = rounds.
Proof.
  intros Hnd Hk Hlen.
  assert (count (λ j, bool_decide (ids !! j = Some id)) (round_peers (S n)) = 1)%nat as H1.
  { unfold count. apply (Permutation_length (l' := [k])), NoDup_Permutation.
    - apply NoDup_ListNoDup, List.NoDup_filter, NoDup_ListNoDup. rewrite round_peers_perm. apply NoDup_seq.
    - apply NoDup_singleton.
    - intros j. rewrite list_elem_of_In, filter_In, <-list_elem_of_In, round_peers_perm, elem_of_seq,
        bool_decide_eq_true, list_elem_of_singleton. split.
      + intros [_ Hj]. by eapply NoDup_lookup.
      + intros ->. apply lookup_lt_Some in Hk as ?. split; [lia|done]. }
  induction rounds as [|rounds IH]; [done|]. cbn [replicate List.concat]. unfold count in *.
  rewrite List.filter_app, length_app. lia.
Qed.

(** ** Validation *)

Lemma run_validators_quiet todo content constraints :
  gives (run_validators todo content constraints) (λ _, True).
Proof.
  induction todo as [|k todo IH]; cbn; [by apply gives_ret|].
  quietly. eapply gives_bind; [exact IH|]. intros ? _. by apply gives_ret.
Qed.

Lemma attach_each_gives validators ids constraints d :
  gives (attach_each validators ids constraints d) (λ d',
    rtc deliberation_step d d' ∧ d' = d <| dl_outcomes := dl_outcomes d' |>).
Proof.
  revert d. induction ids as [|id ids IH]; intros d; cbn.
  { apply gives_ret. split; [done|by destruct d]. }
  eapply gives_bind; [by apply (gives_reply _ (λ _, True))|]. intros content _.
  eapply gives_bind; [apply run_validators_quiet|]. intros reports _. quietly.
  eapply gives_bind; [apply gives_reply; intros d1 Hd; exact Hd|]. intros d1 Hd.
  eapply gives_mono; [apply IH|]. intros d2 [Hst Hsame].
  pose proof (attach_outcome_ok _ _ _ _ Hd) as (_ & _ & _ & Hd1). split.
  - eapply rtc_l; [exact (step_attach _ _ _ _ Hd)|done].
  - rewrite Hsame, Hd1. done.
Qed.

(** ** The winner *)

(** Under an output contract only a proposal that passed every validator may win. *)
Definition eligible (t : Task) (o : ValidationOutcome) : Prop :=
  match tc_output_contract (task_constraints t) with Some _ => all_passed o = true | None => True end.

(** A higher score, or the same score and an earlier identifier. *)
Definition outranks (id : ProposalId) (o : ValidationOutcome) (id' : ProposalId) (o' : ValidationOutcome)
    : Prop :=
  Score_cmp (vo_score o) (vo_score o') = Gt ∨
  Score_cmp (vo_score o) (vo_score o') = Eq ∧ String.le id id'.

Lemma rank_le_outranks id p o id' p' o' : rank_le (id, p, o) (id', p', o') → outranks id o id' o'.
Proof.
  unfold rank_le, rank_cmp, outranks. cbn. rewrite !Score_cmp_key.
  rewrite (key_cmp_opp (score_key (vo_score o))), string_le_spec.
  destruct (key_cmp (score_key (vo_score o)) (score_key (vo_score o'))); cbn; naive_solver.
Qed.

(** [w] wins [d]. *)
Definition winner (t : Task) (d : Deliberation) (w : ProposalId) : Prop :=
  ∃ p o, dl_proposals d !! w = Some p ∧ dl_outcomes d !! w = Some o ∧ eligible t o ∧
    ∀ id' o', dl_outcomes d !! id' = Some o' → eligible t o' → outranks w o id' o'.

(** The ranked outcomes [complete] and [prioritize_valid_outputs] answer with. *)
Definition ranking_of (t : Task) (d : Deliberation) (ranked : list RankedOutcome) : Prop :=
  ∃ l, ranked = ranked_from 0 l ∧ Forall (entry d) l ∧ l.*1.*1 = dl_ranking d ∧
    ∃ l0, StronglySorted rank_le l0 ∧
      match tc_output_contract (task_constraints t) with
      | None => l = l0
      | Some _ => l = List.filter (λ x : RankedTuple, all_passed x.2) l0
                    ++ List.filter (λ x : RankedTuple, negb (all_passed x.2)) l0
      end.

Lemma ranked_from_filter f i l :
  List.map (λ c, proposal_id (ro_proposal c)) (List.filter (λ c, f (ro_outcome c)) (ranked_from i l)) =
  List.map (λ x : RankedTuple, proposal_id x.1.2) (List.filter (λ x, f x.2) l).
Proof.
  revert i. induction l as [|[[id p] o] l IH]; intros i; cbn; [done|].
  destruct (f o); cbn; by rewrite IH.
Qed.

(** Entries are determined by their identifiers. *)
Lemma entries_eq d l l' : Forall (entry d) l → Forall (entry d) l' → l.*1.*1 = l'.*1.*1 → l = l'.
Proof.
  revert l'. induction l as [|[[id p] o] l IH]; intros [|[[id' p'] o'] l']; cbn; try done.
  intros [[Hp Ho] Hl]%Forall_cons [[Hp' Ho'] Hl']%Forall_cons [= -> Hids]. cbn in *.
  rewrite (IH l' Hl Hl' Hids). congruence.
Qed.

Lemma filter_entries d (f : RankedTuple → bool) l : Forall (entry d) l → Forall (entry d) (List.filter f l).
Proof.
  rewrite !Forall_forall. intros H x. rewrite list_elem_of_In, filter_In, <-list_elem_of_In. naive_solver.
Qed.

Lemma keyed_ids d l : deliberation_ok d → Forall (entry d) l →
  List.map (λ x : RankedTuple, proposal_id x.1.2) l = l.*1.*1.
Proof.
  intros Hok Hl. induction Hl as [|[[id p] o] l [Hp _] _ IH]; cbn; [done|].
  rewrite IH. f_equal. by apply (ok_keyed _ Hok).
Qed.

Lemma complete_ranking d now ranked d' t : complete d now = Ok (ranked, d') →
  tc_output_contract (task_constraints t) = None → ranking_of t d' ranked.
Proof.
  intros H Ht. apply complete_ok in H as (_ & l & _ & Hl & Hsort & -> & ->).
  exists l. split_and!; [done|done|done|]. exists l. by rewrite Ht.
Qed.

Lemma prioritized_ranking d now ranked d1 ranked' d' t ct : deliberation_ok d →
  complete d now = Ok (ranked, d1) → prioritize_valid_outputs d1 ranked = Ok (ranked', d') →
  tc_output_contract (task_constraints t) = Some ct → ranking_of t d' ranked'.
Proof.
  intros Hok H H' Ht.
  assert (deliberation_ok d1) as Hok1 by (eapply deliberation_step_ok; [done|by eapply step_complete]).
  apply complete_ok in H as (_ & l & _ & Hl & Hsort & -> & Hd1).
  assert (Forall (entry d1) l) as Hl1 by (by rewrite Hd1).
  unfold prioritize_valid_outputs in H'. rewrite List.map_app in H'.
  rewrite (ranked_from_filter all_passed), (ranked_from_filter (λ o, negb (all_passed o))) in H'.
  rewrite !(keyed_ids d1) in H' by (done || by apply filter_entries).
  apply reprioritize_ok in H' as (_ & _ & _ & l' & Hids & Hl' & -> & ->).
  rewrite <-!fmap_app in Hids. exists l'. split_and!; [done|done|by rewrite Hids, !fmap_app|].
  exists l. rewrite Ht. split; [done|]. apply (entries_eq d1); [done| |done].
  apply Forall_app. split; by apply filter_entries.
Qed.

Lemma filter_head (f : RankedTuple → bool) l x l' y : StronglySorted rank_le l →
  List.filter f l = x :: l' → y ∈ l → f y = true → rank_le x y.
Proof.
  induction l as [|z l IH]; cbn; [done|]. intros Hs. destruct (f z) eqn:Hz.
  - intros [= -> _] Hy _. by eapply sorted_head.
  - intros Hf [->|Hy]%elem_of_cons Hfy; [congruence|]. apply StronglySorted_inv in Hs as [Hs _]. auto.
Qed.

Lemma find_ranked_head f i l c : List.find (λ c, f (ro_outcome c)) (ranked_from i l) = Some c →
  ∃ x l', List.filter (λ x : RankedTuple, f x.2) l = x :: l' ∧ x.1.2 = ro_proposal c ∧ x.2 = ro_outcome c.
Proof.
  revert i. induction l as [|[[id p] o] l IH]; intros i; cbn; [done|].
  destruct (f o) eqn:Ho; cbn; [|apply IH]. intros [= <-]. by eexists _, _.
Qed.

(** Filtering valid entries first and picking the first valid one is picking the
    first valid one. *)
Lemma filter_valid_first (f : RankedTuple → bool) l :
  List.filter f (List.filter f l ++ List.filter (λ x, negb (f x)) l) = List.filter f l.
Proof.
  rewrite List.filter_app. transitivity (List.filter f l ++ []); [f_equal|by rewrite app_nil_r].
  - induction l as [|x l IH]; cbn; [done|]. destruct (f x) eqn:E; cbn; [rewrite E; by f_equal|done].
  - induction l as [|x l IH]; cbn; [done|]. destruct (f x) eqn:E; cbn; [done|by rewrite E].
Qed.

Lemma picked_is_best t l l0 c : StronglySorted rank_le l0 →
  match tc_output_contract (task_constraints t) with
  | None => l = l0
  | Some _ => l = List.filter (λ x : RankedTuple, all_passed x.2) l0
                    ++ List.filter (λ x : RankedTuple, negb (all_passed x.2)) l0
  end →
  pick_winner (ranked_from 0 l) (task_constraints t) = Ok c →
  ∃ id, (id, ro_proposal c, ro_outcome c) ∈ l ∧ eligible t (ro_outcome c) ∧
    ∀ x, x ∈ l → eligible t x.2 → rank_le (id, ro_proposal c, ro_outcome c) x.
Proof.
  unfold pick_winner, eligible. intros Hs Hl Hc.
  destruct (tc_output_contract _) as [ct|].
  - apply ok_or_Ok, (find_ranked_head all_passed) in Hc as ([[id p] o] & l' & Hf & Hp & Ho). cbn in Hp, Ho. subst p o.
    exists id. rewrite Hl, filter_valid_first in Hf.
    assert ((id, ro_proposal c, ro_outcome c) ∈ List.filter (λ x : RankedTuple, all_passed x.2) l0) as Hin
      by (rewrite Hf; by left).
    rewrite list_elem_of_In, filter_In in Hin. destruct Hin as [Hin Hall]. cbn in Hall. split_and!; [|done|].
    + rewrite Hl. apply elem_of_app. left. rewrite Hf. by left.
    + intros x Hx Hxe. eapply (filter_head _ _ _ _ x Hs Hf); [|done].
      rewrite Hl, elem_of_app, !list_elem_of_In, !filter_In, <-list_elem_of_In in Hx. naive_solver.
  - apply ok_or_Ok in Hc. subst l. destruct l0 as [|[[id p] o] l0]; [done|]. cbn in Hc. injection Hc as <-.
    exists id. cbn. split_and!; [by left|done|]. intros x Hx _. by eapply sorted_head.
Qed.

Lemma winner_of_ranking t d ranked c : deliberation_ok d → is_Some (dl_completed_at d) →
  ranking_of t d ranked → pick_winner ranked (task_constraints t) = Ok c →
  winner t d (proposal_id (ro_proposal c)) ∧
  dl_outcomes d !! proposal_id (ro_proposal c) = Some (ro_outcome c).
Proof.
  intros Hok Hc (l & -> & Hl & Hids & l0 & Hsort & Hlo) Hw.
  destruct (ok_ranked _ Hok Hc) as [Hph Hrk].
  destruct (picked_is_best _ _ _ _ Hsort Hlo Hw) as (id & Hin & Hel & Hbest).
  rewrite Forall_forall in Hl. destruct (Hl _ Hin) as [Hp Ho]. cbn in Hp, Ho.
  rewrite (ok_keyed _ Hok _ _ Hp). split; [|done]. exists (ro_proposal c), (ro_outcome c). split_and!; try done.
  intros id' o' Ho' Hel'.
  assert (id' ∈ l.*1.*1) as Hi.
  { rewrite Hids, Hrk, elem_of_btree_keys, <-elem_of_dom, <-(ok_validated _ Hok), elem_of_dom by auto. eauto. }
  rewrite !list_elem_of_fmap in Hi. setoid_rewrite list_elem_of_fmap in Hi.
  destruct Hi as ([id1 p1] & -> & [[id2 p2] o2] & [= -> ->] & Hi). cbn in *.
  pose proof (Hl _ Hi) as [_ Ho2]. cbn in Ho2. rewrite Ho' in Ho2. injection Ho2 as <-.
  eapply rank_le_outranks, (Hbest _ Hi Hel').
Qed.

(** ** The whole deliberation *)

Lemma tells_say {A B} (q : Question (outcome A)) E (f : A → chat B) Q :
  (∀ b, effect_of (MkCall q b) = Some E) → (∀ e, Q [E] (Err e)) → Q [E] Panic →
  (∀ a, tells (f a) (λ es, Q (E :: es))) → tells (ask q ≫= f) Q.
Proof.
  intros HE He HP Hf. apply tells_bind, tells_ask. intros b. rewrite HE. cbn.
  destruct b as [a|e|]; [apply Hf|apply He|apply HP].
Qed.

Lemma tells_seat {B} ids (f : list AgentId → chat B) Q : (∀ e, Q [] (Err e)) → Q [] Panic →
  (∀ agents, tells (f agents) (λ es, Q (Seated agents :: es))) → tells (ask (ResolveAll ids) ≫= f) Q.
Proof.
  intros He HP Hf. apply tells_bind, tells_ask. intros [a|e|]; cbn; [apply Hf|apply He|apply HP].
Qed.

Lemma tells_observe {B} task phase at_ (f : unit → chat B) Q :
  tells (f tt) (λ es, Q (Observed phase :: es)) → tells (query (PhaseChanged task phase at_) ≫= f) Q.
Proof. intros Hf. apply tells_bind, tells_ask. intros []. exact Hf. Qed.

Lemma tells_advance {B} d (f : Deliberation → chat B) Q : (∀ e, Q [] (Err e)) → Q [] Panic →
  (∀ d', advance d = Ok d' → tells (f d') (λ es, Q (Observed (dl_phase d') :: es))) →
  tells (advance_with_observer d ≫= f) Q.
Proof.
  intros He HP Hf. unfold advance_with_observer. apply tells_bind.
  eapply gives_then; [apply gives_reply; intros d' Hd; exact Hd|intros e; apply He|apply HP|].
  intros d' Hd. eapply gives_then; [by apply gives_query|intros e; apply He|apply HP|].
  intros now _. apply tells_observe. apply (Hf d' Hd).
Qed.

(** How often every proposal is reviewed. *)
Definition reviews (t : Task) (agents : list AgentId) : Z :=
  if (length agents <? 2)%nat then 0 else tc_rounds (task_constraints t).

(** What a deliberation of [t] by [agents] is when it ended with winner [w]. *)
Record verdict (t : Task) (agents : list AgentId) (d : Deliberation) (w : ProposalId) : Prop := {
  verdict_sound : deliberation_ok d;
  verdict_phase : dl_phase d = Completed;
  verdict_proposals : ∃ ids, NoDup ids ∧ (∀ id, is_Some (dl_proposals d !! id) ↔ id ∈ ids) ∧
    Forall2 (λ agent id, ∃ p, dl_proposals d !! id = Some p ∧ proposal_author p = agent ∧
      proposal_revision_count p = reviews t agents) agents ids;
  verdict_validated : dom (dl_outcomes d) = dom (dl_proposals d);
  verdict_ranking : dl_ranking d ≡ₚ btree_keys (dl_proposals d);
  verdict_winner : winner t d w;
}.

(** What is told before a task is dispatched. *)
Definition deliberating (e : Effect) : Prop :=
  match e with Seated _ | Observed _ | Saved _ | Published _ => True | _ => False end.

Definition told_verdict (t : Task) (es : list Effect) (r : outcome DeliberateOutput) : Prop :=
  match r with
  | Ok out => ∃ agents e, agents ≠ [] ∧
      es = [Seated agents; Observed Proposing; Observed Revising; Observed Validating; Observed Scoring;
            Observed Completed; Saved (out_deliberation out); Published e] ∧
      dc_winner_proposal_id e = out_winner_proposal_id out ∧
      verdict t agents (out_deliberation out) (out_winner_proposal_id out)
  | _ => Forall deliberating es
  end.

Lemma saturating_iter n c : 0 ≤ c → c + Z.of_nat n ≤ u32_max →
  Nat.iter n (λ c, u32_saturating_add c 1) c = c + Z.of_nat n.
Proof.
  intros Hc. induction n as [|n IH]; intros Hn; [cbn; lia|].
  rewrite Nat.iter_succ, IH by lia. unfold u32_saturating_add. lia.
Qed.

(** Seeding and review together. *)
Lemma reviewed_proposals t agents ids d d1 d1' d2 : dl_proposals d1' = dl_proposals d1 → 0 ≤ tc_rounds (task_constraints t) ≤ MAX_ROUNDS →
  dl_proposals d = ∅ → seeded agents d ids d1 →
  revised ids (if (tc_rounds (task_constraints t) =? 0) || (length agents <? 2)%nat then []
               else List.concat (replicate (Z.to_nat (tc_rounds (task_constraints t)))
                                   (round_peers (length agents)))) d1' d2 →
  NoDup ids ∧ (∀ id, is_Some (dl_proposals d2 !! id) ↔ id ∈ ids) ∧
  Forall2 (λ agent id, ∃ p, dl_proposals d2 !! id = Some p ∧ proposal_author p = agent ∧
    proposal_revision_count p = reviews t agents) agents ids.
Proof.
  intros Heq Hr Hempty [_ _ _ Hnd Hby Hoth] [_ _ Hdom Hrev]. rewrite Heq in Hdom, Hrev.
  pose proof (Forall2_length _ _ _ Hby) as Hlen. split_and!; [done| |].
  - intros id. destruct (base.decide (id ∈ ids)) as [Hi|Hi].
    + split; [done|]. intros _. apply list_elem_of_lookup in Hi as [k Hk].
      destruct (Forall2_lookup_r _ _ _ _ _ Hby Hk) as (agent & _ & p & Hp & _).
      destruct (Hrev _ _ Hp) as (p' & -> & _). eauto.
    + split; [|done]. rewrite Hdom; [intros [? H]; discriminate H|].
      rewrite Hoth by done. by rewrite Hempty, lookup_empty.
  - apply Forall2_same_length_lookup_2; [done|]. intros k agent id Ha Hk.
    destruct (Forall2_lookup_lr _ _ _ _ _ _ Hby Ha Hk) as (p & Hp & Hau & Hc).
    destruct (Hrev _ _ Hp) as (p' & Hp' & Hau' & Hc'). exists p'. split_and!; [done|congruence|].
    rewrite Hc', Hc. unfold reviews. unfold MAX_ROUNDS in Hr.
    destruct (tc_rounds _ =? 0) eqn:E0; cbn [orb].
    { apply Z.eqb_eq in E0. rewrite E0. by destruct (_ <? _)%nat. }
    destruct (length agents <? 2)%nat; [done|].
    destruct (length agents) as [|n] eqn:En; [destruct agents; [done|discriminate]|].
    rewrite (times_revised _ k) by (done || lia). rewrite saturating_iter; unfold u32_max; lia.
Qed.

Lemma seed_proposals_gives parallel d agents t :
  gives (seed_proposals parallel d agents t) (λ r, seeded agents d r.1 r.2).
Proof.
  unfold seed_proposals. quietly. eapply (gives_bind _ _ (λ _, True)).
  - destruct parallel; [|by apply gives_ret]. apply tells_bind.
    assert (∀ l, tells (generate_all l t) (λ es _, es = [])) as H.
    { intros l. induction l as [|agent l IH]; cbn [generate_all]; [done|]. apply tells_ask. intros draft.
      apply tells_bind. eapply tells_mono; [exact IH|]. by intros ? ? ->. }
    eapply tells_mono; [apply H|]. by intros ? ? ->.
  - intros drafts _. apply seed_each_gives.
Qed.

Lemma peer_review_gives d agents ids constraints : NoDup ids → length ids = length agents →
  gives (run_peer_review_rounds d agents ids constraints)
    (revised ids (if (tc_rounds constraints =? 0) || (length agents <? 2)%nat then []
                  else List.concat (replicate (Z.to_nat (tc_rounds constraints))
                                      (round_peers (length agents)))) d).
Proof.
  intros Hnd Hlen. unfold run_peer_review_rounds. destruct (_ || _); [apply gives_ret, revised_refl|].
  rewrite Hlen, Nat.eqb_refl. by apply review_rounds_gives.
Qed.

Lemma finalize_tells source authorization t d ranked completed_at :
  deliberation_ok d → is_Some (dl_completed_at d) → ranking_of t d ranked →
  tells (finalize source authorization d ranked t completed_at) (λ es r,
    match r with
    | Ok out => out_deliberation out = d ∧ winner t d (out_winner_proposal_id out) ∧
        ∃ e, es = [Saved d; Published e] ∧ dc_winner_proposal_id e = out_winner_proposal_id out
    | _ => Forall deliberating es
    end).
Proof.
  intros Hok Hc Hrk. unfold finalize.
  apply (tells_say _ (Saved d)); [done|by repeat constructor|by repeat constructor|]. intros _.
  eapply gives_then; [by apply gives_ask|by repeat constructor|by repeat constructor|]. intros _ _.
  eapply gives_then; [apply gives_reply; intros c Hw; exact Hw|by repeat constructor|by repeat constructor|].
  intros c Hw. destruct (winner_of_ranking _ _ _ _ Hok Hc Hrk Hw) as [Hwin _].
  eapply gives_then; [|by repeat constructor|by repeat constructor|].
  { unfold deliberate_envelope. eapply gives_bind; [apply event_id_quiet|]. intros ? _.
    by apply (gives_reply _ (λ _, True)). }
  intros envelope _. eapply tells_say; [done|by repeat constructor|by repeat constructor|]. intros _.
  split_and!; [done|done|]. by eexists.
Qed.

(** The steps of a deliberation that went through every phase. *)
Lemma phases_run t ids agents peers d0 d1 d2 d3 d4 d5 d6 d7 d8 now ranked ranked' :
  started d0 → seeded agents d0 ids d1 → advance d1 = Ok d2 → revised ids peers d2 d3 →
  advance d3 = Ok d4 → rtc deliberation_step d4 d5 → d5 = d4 <| dl_outcomes := dl_outcomes d5 |> →
  advance d5 = Ok d6 → complete d6 now = Ok (ranked, d7) →
  match tc_output_contract (task_constraints t) with
  | Some _ => prioritize_valid_outputs d7 ranked
  | None => Ok (ranked, d7)
  end = Ok (ranked', d8) →
  (dl_phase d0 = Proposing ∧ dl_phase d2 = Revising ∧ dl_phase d4 = Validating ∧ dl_phase d6 = Scoring ∧
   dl_phase d7 = Completed) ∧
  deliberation_ok d8 ∧ is_Some (dl_completed_at d8) ∧ ranking_of t d8 ranked' ∧
  dl_proposals d2 = dl_proposals d1 ∧ dl_proposals d8 = dl_proposals d3.
Proof.
  intros H0 H1 H2 H3 H4 H5 H5' H6 H7 H8.
  assert (dl_phase d1 = dl_phase d0) as P1 by (by rewrite (seeded_same _ _ _ _ H1)).
  assert (dl_phase d3 = dl_phase d2) as P3 by (by rewrite (revised_same _ _ _ _ H3)).
  assert (dl_phase d5 = dl_phase d4) as P5 by (by rewrite H5').
  assert (dl_phase d0 = Proposing) as P0 by (by destruct H0 as (? & ? & ? & ? & ->)).
  assert (deliberation_ok d6) as Hok6.
  { eapply reachable_deliberation_ok; [exact H0|]. etransitivity; [apply H1|].
    eapply rtc_l; [by eapply step_advance|]. etransitivity; [apply H3|].
    eapply rtc_l; [by eapply step_advance|]. etransitivity; [apply H5|].
    apply rtc_once. by eapply step_advance. }
  apply advance_ok in H2 as (n2 & N2 & -> & _). rewrite P1, P0 in N2. injection N2 as <-.
  apply advance_ok in H4 as (n4 & N4 & -> & _). rewrite P3 in N4. injection N4 as <-.
  apply advance_ok in H6 as (n6 & N6 & Hd6 & _). rewrite P5 in N6. injection N6 as <-.
  assert (deliberation_ok d7) as Hok7.
  { eapply deliberation_step_ok; [exact Hok6|]. by eapply step_complete. }
  pose proof (complete_ok _ _ _ _ H7) as (_ & l7 & _ & _ & _ & _ & Hd7).
  assert (dl_proposals d7 = dl_proposals d3) as Q7 by (by rewrite Hd7, Hd6, H5').
  split; [by rewrite Hd7, Hd6|].
  destruct (tc_output_contract (task_constraints t)) as [ct|] eqn:Ht.
  - pose proof (prioritized_ranking _ _ _ _ _ _ t ct Hok6 H7 H8 Ht) as Hrk.
    assert (deliberation_ok d8) as Hok8.
    { eapply deliberation_step_ok; [exact Hok7|]. eapply step_reprioritize. exact H8. }
    apply reprioritize_ok in H8 as (_ & _ & _ & _ & _ & _ & _ & Hd8).
    split_and!; [done| |done|done|by rewrite Hd8]. rewrite Hd8, Hd7. cbn. eauto.
  - injection H8 as <- <-. split_and!; [done| |by eapply complete_ranking|done|done]. rewrite Hd7. cbn. eauto.
Qed.

Lemma deliberate_tells validators parallel source authorization t :
  0 ≤ tc_rounds (task_constraints t) ≤ MAX_ROUNDS →
  tells (deliberate validators parallel source authorization t) (told_verdict t).
Proof.
  intros Hr. unfold deliberate.
  eapply gives_then; [by apply gives_query|by repeat constructor|by repeat constructor|]. intros started_at _.
  eapply gives_then; [by apply gives_ask|by repeat constructor|by repeat constructor|]. intros council _.
  unfold resolve_agents. apply tells_seat; [by repeat constructor|by repeat constructor|]. intros agents.
  eapply (gives_then _ _ (λ _, agents ≠ [])); [|by repeat constructor|by repeat constructor|].
  { apply gives_reply. intros [] H%ensure_Ok. by destruct agents. }
  intros _ Hne. cbv zeta.
  set (d0 := Deliberation_start _ _ _ _). apply tells_observe.
  eapply gives_then; [apply seed_proposals_gives|by repeat constructor|by repeat constructor|].
  intros [ids d1] Hseed. cbn [fst snd] in Hseed.
  apply tells_advance; [by repeat constructor|by repeat constructor|]. intros d2 H2.
  eapply gives_then; [apply peer_review_gives|by repeat constructor|by repeat constructor|].
  { apply Hseed. } { symmetry. apply (Forall2_length _ _ _ (seeded_by _ _ _ _ Hseed)). }
  intros d3 H3. apply tells_advance; [by repeat constructor|by repeat constructor|]. intros d4 H4.
  eapply gives_then; [apply attach_each_gives|by repeat constructor|by repeat constructor|].
  intros d5 [H5 H5']. apply tells_advance; [by repeat constructor|by repeat constructor|]. intros d6 H6.
  eapply gives_then; [by apply gives_query|by repeat constructor|by repeat constructor|]. intros now _.
  eapply gives_then; [apply gives_reply; intros x Hx; exact Hx|by repeat constructor|by repeat constructor|].
  intros [ranked d7] H7. apply tells_observe.
  eapply gives_then; [apply gives_reply; intros x Hx; exact Hx|by repeat constructor|by repeat constructor|].
  intros [ranked' d8] H8.
  assert (started d0) as H0 by (by repeat eexists).
  destruct (phases_run _ _ _ _ _ _ _ _ _ _ _ _ _ _ _ _ H0 Hseed H2 H3 H4 H5 H5' H6 H7 H8)
    as ((-> & -> & -> & -> & ->) & Hok & Hc & Hrk & HQ2 & HQ8).
  eapply tells_mono; [by apply finalize_tells|]. intros es [out|e|]; cbn; [|by repeat constructor|by repeat constructor].
  intros (<- & Hw & e & -> & He). exists agents, e. split_and!; [done|done|done|].
  destruct (ok_ranked _ Hok Hc) as [Hph Hp]. split; [done|done| |apply (ok_validated _ Hok); auto|done|done].
  exists ids. rewrite HQ8. by apply (reviewed_proposals t agents ids d0 d1 d2).
Qed.

(** C20: however the agents, the validators and the scoring answer, a deliberation
    that succeeds has one proposal of every agent that was seated, each reviewed
    in every round, validates all of them and ranks each once; it went through
    its phases in order and was saved, and the winner it announces has the best
    score (the first identifier on a tie) of all proposals, or under an output
    contract of all that passed every validator. *)
Theorem deliberation_elects_the_best validators parallel source authorization t calls out :
  0 ≤ tc_rounds (task_constraints t) ≤ MAX_ROUNDS →
  talks (deliberate validators parallel source authorization t) calls (Ok out) →
  ∃ agents e, agents ≠ [] ∧
    effects calls =
      [Seated agents; Observed Proposing; Observed Revising; Observed Validating; Observed Scoring;
       Observed Completed; Saved (out_deliberation out); Published e] ∧
    dc_winner_proposal_id e = out_winner_proposal_id out ∧
    verdict t agents (out_deliberation out) (out_winner_proposal_id out).
Proof. intros Hr Ht. exact (after_talks _ _ _ _ (deliberate_tells _ _ _ _ _ Hr) Ht). Qed.

(** ** Executing the winner *)

Section orchestrate.
Context {Hdisp : ErrorDisplay}.

Lemma envelope_quiet source m : gives (orchestrate_envelope source m) (λ _, True).
Proof.
  unfold orchestrate_envelope. quietly. eapply gives_bind; [apply event_id_quiet|]. intros ? _.
  by apply gives_reply.
Qed.

(** Reporting a failure: nothing, or the one event. *)
Definition at_most_failed (es : list Effect) : Prop := es = [] ∨ ∃ e, es = [FailedTask e].

Lemma publish_failed_tells source t kind reason : tells (publish_task_failed source t kind reason) (λ es r,
  at_most_failed es ∧ (r = Ok tt → ∃ e, es = [FailedTask e])).
Proof.
  unfold publish_task_failed.
  eapply gives_then; [apply envelope_quiet|by split; [left|]|by split; [left|]|]. intros env _.
  eapply gives_then; [by apply (gives_reply _ (λ _, True))|by split; [left|]|by split; [left|]|]. intros e _.
  apply tells_ask. intros b. cbn. split; [right|intros _]; eauto.
Qed.

(** What follows the execution of a winner. *)
Definition concluded (es : list Effect) : Prop :=
  es = [] ∨ (∃ e, es = [CompletedTask e]) ∨ ∃ e, es = [FailedTask e].

Definition reports (x : ExecutionOutcome) (e : Effect) : Prop :=
  match e with
  | CompletedTask _ => execution_is_success (xo_status x) = true
  | FailedTask _ => execution_is_success (xo_status x) = false
  | _ => False
  end.

Lemma conclude_tells source authorization t p x :
  tells (conclude_execution source authorization t p x) (λ es r,
    concluded es ∧ (r = Ok tt → ∃ e, es = [e] ∧ reports x e)).
Proof.
  unfold conclude_execution, reports.
  eapply gives_then; [by apply gives_ask|by split; [left|]|by split; [left|]|]. intros [] _.
  destruct (execution_is_success _).
  - eapply gives_then; [apply envelope_quiet|by split; [left|]|by split; [left|]|]. intros env _.
    apply tells_ask. intros b. cbn. split; [right; left; eauto|]. intros _. by eexists.
  - eapply tells_mono; [apply publish_failed_tells|]. intros es r [Hf Hr]. split.
    + destruct Hf as [->|[e ->]]; [by left|right; right; eauto].
    + intros H. destruct (Hr H) as [e ->]. by eexists.
Qed.

Definition told_execution (t : Task) (es : list Effect) (r : outcome OrchestrateOutput) : Prop :=
  (∀ p, Executed p ∈ es → ∃ es0 agents d w x rest,
    es = es0 ++ [Dispatched x; Executed p] ++ rest ∧ Forall deliberating es0 ∧ Saved d ∈ es0 ∧
    verdict t agents d w ∧ dl_proposals d !! w = Some p ∧ concluded rest) ∧
  (∀ out, r = Ok out → ∃ es0 x e, es = es0 ++ [Dispatched x; Executed (orch_winner out); e] ∧
    reports (orch_execution out) e).

(** Nothing was executed. *)
Lemma unexecuted t es r : Forall deliberating es → (∀ out, r ≠ Ok out) → told_execution t es r.
Proof.
  intros H Hr. split; [|by intros out ?%Hr]. intros p Hp. rewrite Forall_forall in H. by apply H in Hp.
Qed.

Lemma unexecuted_failed t es es' r : Forall deliberating es → at_most_failed es' → (∀ out, r ≠ Ok out) →
  told_execution t (es ++ es') r.
Proof.
  intros H H' Hr. split; [|by intros out ?%Hr]. intros p. rewrite elem_of_app. rewrite Forall_forall in H.
  intros [Hp|Hp]; [by apply H in Hp|]. destruct H' as [->|[e ->]]; [by apply elem_of_nil in Hp|].
  by apply list_elem_of_singleton in Hp.
Qed.

Lemma executed t agents d w p x es rest r : Forall deliberating es → Saved d ∈ es → verdict t agents d w →
  dl_proposals d !! w = Some p → concluded rest →
  (∀ out, r = Ok out → orch_winner out = p ∧ ∃ e, rest = [e] ∧ reports (orch_execution out) e) →
  told_execution t (es ++ Dispatched x :: Executed p :: rest) r.
Proof.
  intros Hes Hs Hv Hp Hrest Hr. split.
  - intros q Hq. assert (q = p) as ->.
    { rewrite !elem_of_app, !elem_of_cons in Hq. rewrite Forall_forall in Hes.
      destruct Hq as [Hq|[Hq|[Hq|Hq]]]; [by apply Hes in Hq|done|by injection Hq|].
      destruct Hrest as [->|[[e ->]|[e ->]]]; set_solver. }
    by exists es, agents, d, w, x, rest.
  - intros out Ho. destruct (Hr out Ho) as [-> (e & -> & He)]. by exists es, x, e.
Qed.

Lemma tells_done {A} (a : A) Q : Q [] a → tells (Done a) Q.
Proof. done. Qed.

(** Dispatched, but not executed. *)
Lemma dispatched t es x r : Forall deliberating es → (∀ out, r ≠ Ok out) →
  told_execution t (es ++ [Dispatched x]) r.
Proof.
  intros Hd Hr. split; [|by intros out ?%Hr]. intros q Hq. rewrite Forall_forall in Hd.
  rewrite elem_of_app, list_elem_of_singleton in Hq. destruct Hq as [Hq|Hq]; [by apply Hd in Hq|done].
Qed.

Lemma orchestrate_tells validators parallel source authorization t options :
  0 ≤ tc_rounds (task_constraints t) ≤ MAX_ROUNDS →
  tells (orchestrate validators parallel source authorization t options) (told_execution t).
Proof.
  intros Hr. unfold orchestrate. apply tells_bind.
  eapply tells_mono; [by apply deliberate_tells|]. intros es [out|e|]; cbn -[told_execution].
  - intros (agents & e & _ & Hes & _ & Hv).
    assert (Forall deliberating es) as Hd by (rewrite Hes; by repeat constructor).
    assert (Saved (out_deliberation out) ∈ es) as Hs by (rewrite Hes; set_solver).
    assert (∀ r : outcome OrchestrateOutput, (∀ out, r ≠ Ok out) → told_execution t (es ++ []) r) as Hnone.
    { intros r H. rewrite app_nil_r. by apply unexecuted. }
    eapply gives_then; [apply gives_reply; intros p Hp; exact Hp|by intros; apply Hnone|by apply Hnone|].
    intros p Hp%ok_or_Ok.
    eapply gives_then; [apply envelope_quiet|by intros; apply Hnone|by apply Hnone|]. intros env _.
    eapply tells_say; [done|by intros; apply dispatched|by apply dispatched|]. intros _.
    eapply gives_then; [by apply (gives_reply _ (λ _, True))|by intros; apply dispatched|by apply dispatched|].
    intros opts _. apply tells_bind, tells_ask. intros x. apply tells_done. cbn [effect_of option_list app].
    destruct x as [x|e'|].
    + apply tells_bind. eapply tells_mono; [apply conclude_tells|]. intros rest r [Hc Hok].
      destruct r as [[]|e'|]; apply tells_done; rewrite app_nil_r; eapply executed; try done.
      intros ? [= <-]. split; [done|by apply Hok].
    + apply tells_bind. eapply tells_mono; [apply publish_failed_tells|]. intros rest r [Hf _].
      assert (concluded rest) as Hc by (destruct Hf as [->|[? ->]]; [by left|right; right; eauto]).
      destruct r as [[]|e''|]; apply tells_done; rewrite app_nil_r; by eapply executed.
    + apply tells_done. eapply executed; try done. by left.
  - intros Hd. apply tells_bind. eapply tells_mono; [apply publish_failed_tells|].
    intros es' r [Hf _]. destruct r; apply tells_done; rewrite app_nil_r; by apply unexecuted_failed.
  - intros Hd. apply tells_done. rewrite app_nil_r. by apply unexecuted.
Qed.

(** C21: an orchestration executes at most one proposal, and only the winner of a
    deliberation that was saved, right after the task was dispatched; after it
    at most one more event is published, and a successful call has published
    exactly the one that fits the status the executor reported. *)
Theorem orchestration_executes_the_winner validators parallel source authorization t options calls r :
  0 ≤ tc_rounds (task_constraints t) ≤ MAX_ROUNDS →
  talks (orchestrate validators parallel source authorization t options) calls r →
  (∀ p, Executed p ∈ effects calls → ∃ es agents d w x rest,
    effects calls = es ++ [Dispatched x; Executed p] ++ rest ∧ Forall deliberating es ∧ Saved d ∈ es ∧
    verdict t agents d w ∧ dl_proposals d !! w = Some p ∧ concluded rest) ∧
  (∀ out, r = Ok out → ∃ es x e, effects calls = es ++ [Dispatched x; Executed (orch_winner out); e] ∧
    reports (orch_execution out) e).
Proof. intros Hr Ht. exact (after_talks _ _ _ _ (orchestrate_tells _ _ _ _ _ _ Hr) Ht). Qed.
End orchestrate.

(** ** A validated decision *)

Definition decision_ok (mode : ValidationMode) (out : RunCouncilDecisionOutput) : Prop :=
  rco_winner out ∈ rco_candidates out ∧
  (rco_passed out = true → all_passed (ro_outcome (rco_winner out)) = true) ∧
  (rco_passed out = false → mode = Warn ∧ head (rco_candidates out) = Some (rco_winner out)).

(** A candidate of the ranking of a deliberation with the identifier of its
    winner is the winner. *)
Lemma candidate_passed t d w candidates c ct : tc_output_contract (task_constraints t) = Some ct →
  deliberation_ok d → winner t d w → ranked_outcomes d = Ok candidates →
  List.find (λ c, proposal_id (ro_proposal c) == w) candidates = Some c → all_passed (ro_outcome c) = true.
Proof.
  intros Ht Hok (p & o & Hp & Ho & Hel & _) Hr Hf.
  unfold ranked_outcomes in Hr. apply bind_Ok in Hr as ([] & _ & Hr).
  apply bind_Ok in Hr as (l & [_ Hl]%materialize_ok & [= <-]).
  apply find_lookup in Hf as (k & Hk & Hw%eqb_true_1 & _). rewrite ranked_from_lookup in Hk.
  destruct (l !! k) as [x|] eqn:Hx; [|done]. injection Hk as <-. cbn in Hw |- *.
  rewrite Forall_lookup in Hl. destruct (Hl _ _ Hx) as [Hxp Hxo].
  pose proof (ok_keyed _ Hok _ _ Hxp) as Hkey. rewrite <-Hkey, Hw, Ho in Hxo. injection Hxo as <-.
  unfold eligible in Hel. by rewrite Ht in Hel.
Qed.

Lemma tells_free {A B} (p : chat A) (f : A → chat B) (Q : outcome B → Prop) :
  (∀ e, Q (Err e)) → Q Panic → (∀ a, tells (f a) (λ _, Q)) → tells (p ≫= f) (λ _, Q).
Proof.
  intros He HP Hf. apply tells_bind. induction p as [r|C q k IH]; [|intros b; apply IH].
  apply tells_done. destruct r; [apply Hf|apply He|apply HP].
Qed.

(** A council decision that reports a pass gives a winner that satisfied its
    contract; one that reports no pass was asked to warn only and gives the
    candidate its ranking puts first. *)
Theorem council_decision_is_honest validators parallel source authorization input calls out :
  talks (run_council_decision validators parallel source authorization input) calls (Ok out) →
  rco_winner out ∈ rco_candidates out ∧
  (rco_passed out = true → all_passed (ro_outcome (rco_winner out)) = true) ∧
  (rco_passed out = false →
   rci_validation_mode input = Warn ∧ head (rco_candidates out) = Some (rco_winner out)).
Proof.
  intros Ht. refine (after_talks _ (λ _ r, match r with Ok out => decision_ok _ out | _ => True end) _ _ _ Ht).
  change (tells (run_council_decision validators parallel source authorization input)
    (λ _ r, match r with Ok out => decision_ok (rci_validation_mode input) out | _ => True end)).
  clear. unfold run_council_decision. do 4 (apply tells_free; [done|done|intros ?]). cbv zeta.
  set (t := MkTask _ _ _ _ _ _ _). apply tells_bind.
  eapply tells_mono; [apply (deliberate_tells _ _ _ _ t); done|]. intros es [o|e|] Hv.
  - destruct Hv as (agents & e & _ & _ & _ & Hv).
    apply (gives_then _ _ (λ l, ranked_outcomes (out_deliberation o) = Ok l)); [by apply gives_reply|done|done|].
    intros candidates Hc. eapply gives_then; [apply gives_reply; intros c Hf; exact Hf|done|done|].
    intros c Hf%ok_or_Ok. apply tells_done. split_and!; [|intros _|done]; cbn.
    + by apply find_some in Hf as [Hf%list_elem_of_In _].
    + by eapply candidate_passed; [|apply Hv|apply Hv|..].
  - destruct e; try done. case_match eqn:Hm; [|done].
    do 2 (apply tells_free; [done|done|intros ?]).
    eapply gives_then; [apply gives_reply; intros c Hf; exact Hf|done|done|].
    intros c Hf%ok_or_Ok. apply tells_done. split_and!; [|done|intros _]; cbn.
    + destruct a4; [done|]. injection Hf as ->. by left.
    + split; [by apply eqb_true_1|done].
  - done.
Qed.

(** ** A council at work *)

(** Ports that cooperate: two agents draft, critique and revise, a validator
    wants an exclamation mark in the text, and the executor succeeds. *)
Definition demo_answer (n : nat) {B} (q : Question B) : B :=
  match q in Question B return B with
  | Now => Z.of_nat n
  | NewUuid => "id-" +:+ pretty (Z.of_nat n)
  | GetCouncil specialty => Ok (MkCouncil "council" specialty {[ "ada"; "bob" ]} 0)
  | ListCouncils => Ok [MkCouncil "council" "reviewers" {[ "ada"; "bob" ]} 0]
  | RegisterCouncil _ _ => Ok tt
  | ResolveAll ids => Ok ids
  | Generate agent _ => Ok ("draft of " +:+ agent)
  | Critique _ _ _ => Ok "say it louder"
  | Revise agent content _ => Ok (if agent == "ada" then content +:+ "!" else content)
  | Validate _ content _ => Ok (MkValidatorReport "loud" (is_some (String.index 0 "!" content)) "" ∅)
  | ScoreReports reports => uniform_score reports
  | PhaseChanged _ _ _ => tt
  | SaveDeliberation _ _ => Ok tt
  | GetDeliberation task => Ok (Deliberation_start task "reviewers" 1 0)
  | RecordDeliberation _ _ _ => Ok tt
  | RecordOrchestration _ _ => Ok tt
  | PublishDeliberationCompleted _ => Ok tt
  | PublishTaskDispatched _ => Ok tt
  | PublishTaskCompleted _ => Ok tt
  | PublishTaskFailed _ => Ok tt
  | GetContract id => Ok (MkOutputContract id JsonObject ∅ "" None)
  | ExecuteProposal _ _ => Ok (MkExecutionOutcome "run" ExecutionSucceeded 5 ∅)
  end.

Fixpoint converse {A} (n : nat) (p : talk A) : list Call * A :=
  match p with
  | Done a => ([], a)
  | Ask q k =>
      let b := demo_answer n q in
      let r := converse (S n) (k b) in (MkCall q b :: r.1, r.2)
  end.

Lemma converse_talks {A} (p : talk A) n : talks p (converse n p).1 (converse n p).2.
Proof. revert n. induction p as [a|B q k IH]; intros n; cbn; constructor. apply IH. Qed.

Definition demo_metadata : TaskMetadata := MkTaskMetadata None None None None None ∅.

Definition demo_council_task : Task :=
  MkTask "task-1" "reviewers" "write it down"
    (MkTaskConstraints ∅ 2 None None (Some (MkOutputContract "loud" JsonObject ∅ "" None)))
    ∅ None demo_metadata.

Lemma deliberation_elects_the_best_witness : ∃ calls out,
  talks (deliberate 1 true "demo" None demo_council_task) calls (Ok out) ∧
  ∃ agents e, agents ≠ [] ∧ dc_winner_proposal_id e = out_winner_proposal_id out ∧
    verdict demo_council_task agents (out_deliberation out) (out_winner_proposal_id out).
Proof.
  pose proof (converse_talks (deliberate 1 true "demo" None demo_council_task) 0) as H.
  destruct (converse 0 _) as [calls r] eqn:E. assert (is_ok r = true) as Hr.
  { change r with (calls, r).2. rewrite <-E. vm_compute. reflexivity. }
  destruct r as [out|e|]; [|discriminate Hr|discriminate Hr]. cbn [fst snd] in H. exists calls, out. split; [exact H|].
  destruct (deliberation_elects_the_best 1 true "demo" None demo_council_task calls out) as
    (agents & e & Ha & _ & He & Hv); [vm_compute; split; discriminate|exact H|]. exists agents, e. exact (conj Ha (conj He Hv)).
Defined.

#[local] Instance demo_display : ErrorDisplay := λ _, "error".

Lemma orchestration_executes_the_winner_witness : ∃ calls out,
  talks (orchestrate 1 false "demo" None demo_council_task ∅) calls (Ok out) ∧
  ∃ es x e, effects calls = es ++ [Dispatched x; Executed (orch_winner out); e] ∧
    reports (orch_execution out) e.
Proof.
  pose proof (converse_talks (orchestrate 1 false "demo" None demo_council_task ∅) 0) as H.
  destruct (converse 0 _) as [calls r] eqn:E. assert (is_ok r = true) as Hr.
  { change r with (calls, r).2. rewrite <-E. vm_compute. reflexivity. }
  destruct r as [out|e|]; [|discriminate Hr|discriminate Hr]. cbn [fst snd] in H. exists calls, out. split; [exact H|].
  apply (orchestration_executes_the_winner 1 false "demo" None demo_council_task ∅ calls (Ok out));
    [vm_compute; split; discriminate|exact H|reflexivity].
Defined.

Definition demo_decision : RunCouncilDecisionInput :=
  MkRunCouncilDecisionInput (ById "council") "loud" "write it down" None Strict demo_metadata.

Lemma council_decision_is_honest_witness : ∃ calls out,
  talks (run_council_decision 1 false "demo" None demo_decision) calls (Ok out) ∧
  rco_winner out ∈ rco_candidates out.
Proof.
  pose proof (converse_talks (run_council_decision 1 false "demo" None demo_decision) 0) as H.
  destruct (converse 0 _) as [calls r] eqn:E. assert (is_ok r = true) as Hr.
  { change r with (calls, r).2. rewrite <-E. vm_compute. reflexivity. }
  destruct r as [out|e|]; [|discriminate Hr|discriminate Hr]. cbn [fst snd] in H. exists calls, out. split; [exact H|].
  apply (council_decision_is_honest 1 false "demo" None demo_decision calls out H).
Defined.

(** ** A deliberation that ends without a result *)

(** [advance] also leads from scoring to the end: such a deliberation counts as
    completed, but has no ranking and no time of completion, although every
    proposal was validated. *)
Definition skipped : outcome Deliberation :=
  let d := Deliberation_start "task-1" "reviewers" 0 0 in
  p ← Proposal_new "p" "ada" "reviewers" "draft" ∅ 0;
  d ← add_proposal d p; d ← advance d; d ← advance d;
  d ← attach_outcome d "p" (MkValidationOutcome Score_MAX []);
  d ← advance d; advance d.

Theorem advance_skips_the_ranking : ∃ d, skipped = Ok d ∧ dl_phase d = Completed ∧
  size (dl_proposals d) = 1%nat ∧ ranked_outcomes d = Ok [] ∧ deliberation_duration d = None.
Proof. eexists. split; [vm_compute; reflexivity|]. by vm_compute. Qed.
