(* ===== verification/Batches.v ===== *)
(** * The batches of the worker scheduler

    The loop of [dispatch] as a relation, the invariant of every scheduler the
    operations build, and from them: a batch is found, is within its bounds and
    leaves nothing idle, and no request is lost or made up. *)

From S2P Require Import Prelude Errors Text Values Steps Definitions Scheduler.

(** ** Serving a root *)

Lemma take_affordable_Some deficit remaining l p rest :
  take_affordable deficit remaining l = Some (p, rest) →
  ∃ l1 l2, l = l1 ++ p :: l2 ∧ rest = l1 ++ l2 ∧ rq_cost p.2 ≤ deficit ∧ fits_capacity remaining p = true.
Proof.
  revert rest. induction l as [|x l IH]; intros rest; cbn; [done|].
  destruct (rq_cost x.2 <=? deficit) eqn:Hc; destruct (fits_capacity remaining x) eqn:Hf; cbn.
  1: { intros [= -> ->]. exists [], rest. split_and!; [done|done|lia|done]. }
  all: destruct (take_affordable deficit remaining l) as [[y r]|]; cbn; [|done]; intros [= <- <-];
    destruct (IH _ eq_refl) as (l1 & l2 & -> & -> & ? & ?); by exists (x :: l1), l2.
Qed.

Lemma take_affordable_None deficit remaining l : take_affordable deficit remaining l = None →
  Forall (λ p, fits_capacity remaining p = true → deficit < rq_cost p.2) l.
Proof.
  induction l as [|x l IH]; cbn; [constructor|].
  destruct (rq_cost x.2 <=? deficit) eqn:Hc; destruct (fits_capacity remaining x) eqn:Hf; cbn; [done|..];
    (destruct (take_affordable deficit remaining l) as [[y r]|]; [done|]; intros _;
     constructor; [intros; first [lia|congruence]|by apply IH]).
Qed.

(** What the queue of a root becomes when it gives up a request. *)
Definition without (q : CeremonyWorkerRootQueue) (p : PendingRequest) (rest : list PendingRequest)
    : CeremonyWorkerRootQueue :=
  q <| q_pending := rest |> <| q_deficit := Z.max 0 (q_deficit q - rq_cost p.2) |>.

(** The policy and the counters of the scheduler, which serving leaves alone. *)
Definition same_setting (s s' : CeremonyWorkerScheduler) : Prop :=
  sc_policy s' = sc_policy s ∧ sc_draining s' = sc_draining s ∧ sc_ordinal s' = sc_ordinal s ∧
  sc_decision_sequence s' = sc_decision_sequence s.

#[export] Instance same_setting_refl : Reflexive same_setting.
Proof. by intros s. Qed.

#[export] Instance same_setting_trans : Transitive same_setting.
Proof. intros s1 s2 s3 (? & ? & ? & ?) (? & ? & ? & ?). repeat split; congruence. Qed.

(** Whether a root has had its turn: its deficit pays for nothing that fits. *)
Inductive served (s : CeremonyWorkerScheduler) (root : CeremonyId) (q : CeremonyWorkerRootQueue)
    (remaining : Z) : option PendingRequest → CeremonyWorkerScheduler → Prop :=
| served_nothing s' :
    same_setting s s' → sc_roots s' = sc_roots s → sc_active_root s' = None →
    Forall (λ p, fits_capacity remaining p = true → q_deficit q < rq_cost p.2) (q_pending q) →
    served s root q remaining None s'
| served_last p s' :
    same_setting s s' → q_pending q = [p] → rq_cost p.2 ≤ q_deficit q → fits_capacity remaining p = true →
    sc_roots s' = delete root (sc_roots s) → sc_active_root s' = None →
    served s root q remaining (Some p) s'
| served_one p l1 l2 s' :
    same_setting s s' → q_pending q = l1 ++ p :: l2 → l1 ++ l2 ≠ [] →
    rq_cost p.2 ≤ q_deficit q → fits_capacity remaining p = true →
    sc_roots s' = <[root := without q p (l1 ++ l2)]> (sc_roots s) →
    sc_active_root s' = sc_active_root s ∨
    sc_active_root s' = None ∧
      Forall (λ r, Z.max 0 (q_deficit q - rq_cost p.2) < rq_cost r.2) (l1 ++ l2) →
    served s root q remaining (Some p) s'.

Lemma dispatch_root_served s root keys remaining q : sc_roots s !! root = Some q →
  ∃ out s', dispatch_root s root keys remaining = Ok (out, s') ∧ served s root q remaining out s'.
Proof.
  intros Hq. unfold dispatch_root. rewrite Hq. cbn [expect mbind result_bind].
  destruct (take_affordable _ _ _) as [[p rest]|] eqn:Ht.
  - apply take_affordable_Some in Ht as (l1 & l2 & Hl & -> & Hc & Hf).
    do 2 eexists. split; [reflexivity|].
    destruct (l1 ++ l2) as [|x l] eqn:He.
    + destruct l1, l2; try done. cbn [length Nat.eqb]. apply served_last; [done|done|done|done| |done].
      cbn. apply delete_insert_eq.
    + cbn [length Nat.eqb]. destruct (any _ _) eqn:Hany; cbn [negb].
      * eapply (served_one _ _ _ _ p l1 l2); [done|done|by rewrite He|done|done|by rewrite He|by left].
      * eapply (served_one _ _ _ _ p l1 l2); [done|done|by rewrite He|done|done|by rewrite He|right].
        split; [done|]. rewrite He. apply Forall_forall. intros r Hr.
        apply (proj1 (any_false _ _) Hany) in Hr. apply Z.leb_gt in Hr. exact Hr.
  - apply take_affordable_None in Ht. do 2 eexists. split; [reflexivity|]. by constructor.
Qed.

(** ** Giving a turn *)

Section Choose.
Context (s : CeremonyWorkerScheduler) (remaining : Z).

(** A root that has something that fits, with its effective priority. *)
Definition candidate (c : CeremonyId * Z) : Prop :=
  ∃ q, sc_roots s !! c.1 = Some q ∧ queue_fits remaining q = true ∧ c.2 = effective_priority q.

Lemma choose_spec order chosen : (∀ key, key ∈ order → is_Some (sc_roots s !! key)) →
  ∃ best, choose s remaining chosen order = Some best ∧
    (∀ c, best = Some c → chosen = Some c ∨ candidate c) ∧
    (∀ c, chosen = Some c ∨ c.1 ∈ order ∧ candidate c → ∃ b, best = Some b ∧ c.2 ≤ b.2).
Proof.
  revert chosen. induction order as [|key order IH]; intros chosen Hin; cbn.
  { exists chosen. split_and!; [done|by left|]. intros c [->|[[]%not_elem_of_nil _]]. by eexists. }
  destruct (Hin key) as [q Hq]; [by left|]. rewrite Hq. cbn.
  edestruct (IH (if queue_fits remaining q && is_none_or chosen (λ c, c.2 <? effective_priority q)
                 then Some (key, effective_priority q) else chosen)) as (best & -> & H1 & H2);
    [intros; apply Hin; by right|].
  exists best. split; [done|].
  assert (∀ c, c.1 ∈ key :: order → candidate c →
    c.1 ∈ order ∨ queue_fits remaining q = true ∧ c.2 = effective_priority q) as Hc0.
  { intros c [Hc|Hc]%elem_of_cons (q' & Hq' & Hf' & He); [|by left]. rewrite Hc in Hq'. simplify_eq. by right. }
  destruct (queue_fits remaining q) eqn:Hf; cbn in H1, H2.
  2: { split; [done|]. intros c [Hc|[Hc Hcand]]; [apply H2; by left|].
       destruct (Hc0 c Hc Hcand) as [?|[? _]]; [apply H2; by right|done]. }
  assert (candidate (key, effective_priority q)) as Hkey by (by exists q).
  destruct (is_none_or chosen _) eqn:Hb; cbn in H1, H2.
  - split; [intros c Hc; destruct (H1 c Hc) as [[= <-]|?]; by right|].
    destruct (H2 (key, effective_priority q)) as (b & Hb' & Hle); [by left|]. cbn in Hle.
    intros c [->|[Hc Hcand]]; [exists b; split; [done|]; cbn in Hb; lia|].
    destruct (Hc0 c Hc Hcand) as [?|[_ ->]]; [apply H2; by right|eauto].
  - split; [done|]. destruct chosen as [c0|]; [|done]. cbn in Hb.
    destruct (H2 c0) as (b & Hb' & Hle); [by left|].
    intros c [Hc|[Hc Hcand]]; [apply H2; by left|].
    destruct (Hc0 c Hc Hcand) as [?|[_ ->]]; [apply H2; by right|]. exists b. split; [done|]. lia.
Qed.
End Choose.

Lemma turn_order_perm start keys : turn_order start keys ≡ₚ keys.
Proof. unfold turn_order. rewrite Permutation_app_comm. by rewrite take_drop. Qed.

(** The queues after a turn was given to [root]. *)
Definition turn_given (root : CeremonyId) (q : CeremonyWorkerRootQueue)
    (roots : gmap string CeremonyWorkerRootQueue) : gmap string CeremonyWorkerRootQueue :=
  map_imap (λ key q, Some (wait_a_turn root key q))
    (<[root := q <| q_deficit := u64_saturating_add (q_deficit q) (q_weight q) |>
                 <| q_waiting_turns := 0 |>]> roots).

Lemma turn_given_lookup root q roots k : turn_given root q roots !! k =
  if bool_decide (k = root)
  then Some (q <| q_deficit := u64_saturating_add (q_deficit q) (q_weight q) |> <| q_waiting_turns := 0 |>)
  else wait_a_turn root k <$> roots !! k.
Proof.
  unfold turn_given. rewrite map_lookup_imap. case_bool_decide as Hk.
  - subst k. rewrite lookup_insert_eq. cbn. unfold wait_a_turn. by rewrite eqb_refl.
  - rewrite lookup_insert_ne by done. by destruct (roots !! k).
Qed.

(** The root with the turn: the one that has it, or else the first of those with
    the highest effective priority among the roots with something that fits. *)
Inductive turn (s : CeremonyWorkerScheduler) (remaining : Z)
    : CeremonyId → CeremonyWorkerScheduler → Prop :=
| turn_goes_on root : sc_active_root s = Some root → turn s remaining root s
| turn_starts root q :
    sc_active_root s = None → sc_roots s !! root = Some q → queue_fits remaining q = true →
    (∀ k q', sc_roots s !! k = Some q' → queue_fits remaining q' = true →
       effective_priority q' ≤ effective_priority q) →
    turn s remaining root
      (s <| sc_roots := turn_given root q (sc_roots s) |> <| sc_active_root := Some root |>).

Lemma any_fits_spec s remaining : any_fits_capacity s remaining = true ↔
  ∃ k q, sc_roots s !! k = Some q ∧ queue_fits remaining q = true.
Proof.
  unfold any_fits_capacity. rewrite any_true. split.
  - intros (q & [k Hk]%elem_of_btree_values & Hf). eauto.
  - intros (k & q & Hk & Hf). exists q. split; [apply elem_of_btree_values; eauto|done].
Qed.

Lemma start_turn_gives s remaining : sc_active_root s = None → any_fits_capacity s remaining = true →
  ∃ root s', start_turn s (btree_keys (sc_roots s)) remaining = Some (root, s') ∧
    turn s remaining root (s' <| sc_active_root := Some root |>).
Proof.
  intros Ha (k & q & Hk & Hf)%any_fits_spec. unfold start_turn.
  match goal with |- context [turn_order ?n ?l] => set (order := turn_order n l) end.
  assert (∀ key, key ∈ order ↔ is_Some (sc_roots s !! key)) as Horder.
  { intros key. unfold order. rewrite turn_order_perm, elem_of_btree_keys. done. }
  destruct (choose_spec s remaining order None) as (best & -> & H1 & H2); [by intros; apply Horder|].
  destruct (H2 (k, effective_priority q)) as ([root e] & -> & _).
  { right. split; [by apply Horder|by exists q]. }
  destruct (H1 _ eq_refl) as [[=]|(q0 & Hq0 & Hf0 & He)]. cbn in Hq0, He. cbn. rewrite Hq0. cbn.
  do 2 eexists. split; [reflexivity|]. apply (turn_starts s remaining root q0); [done|done|done|].
  intros k' q' Hk' Hf'. destruct (H2 (k', effective_priority q')) as (b & [= <-] & Hle).
  { right. split; [by apply Horder|by exists q']. } cbn in Hle. lia.
Qed.

(** ** The invariant *)

Record request_ok (capacity : Z) (root : CeremonyId) (q : CeremonyWorkerRootQueue)
    (r : CeremonyWorkerScheduleRequest) : Prop := {
  rok_root : rq_root_id r = root;
  rok_priority : rq_priority r = q_priority q;
  rok_weight : rq_weight r = q_weight q;
  rok_cost : 1 ≤ rq_cost r ≤ capacity;
  rok_capacity : 1 ≤ rq_requested_capacity r ≤ capacity;
  rok_ready : rq_eligibility r = Ready;
}.

Record queue_ok (capacity : Z) (root : CeremonyId) (q : CeremonyWorkerRootQueue) : Prop := {
  qok_weight : 1 ≤ q_weight q ≤ CeremonyWorkerWeight_MAX;
  qok_priority : 0 ≤ q_priority q ≤ CeremonyWorkerPriority_MAX;
  qok_deficit : 0 ≤ q_deficit q;
  qok_waiting : 0 ≤ q_waiting_turns q;
  qok_pending : Forall (λ p : PendingRequest, request_ok capacity root q p.2) (q_pending q);
}.

Record policy_ok (policy : CeremonyWorkerSchedulerPolicy) : Prop := {
  pok_parallel : 1 ≤ sp_max_parallel policy ≤ MaxParallel_SERVER_MAX;
  pok_capacity : 1 ≤ sp_capacity policy ≤ CeremonyWorkerCapacity_MAX;
}.

Record scheduler_ok (s : CeremonyWorkerScheduler) : Prop := {
  sok_policy : policy_ok (sc_policy s);
  sok_queues : map_Forall (queue_ok (sp_capacity (sc_policy s))) (sc_roots s);
  sok_active : ∀ root, sc_active_root s = Some root → is_Some (sc_roots s !! root);
}.

(** A queue of the same root with some of the same requests. *)
Lemma queue_ok_less capacity root q q' : queue_ok capacity root q →
  q_weight q' = q_weight q → q_priority q' = q_priority q → 0 ≤ q_deficit q' → 0 ≤ q_waiting_turns q' →
  q_pending q' ⊆ q_pending q → queue_ok capacity root q'.
Proof.
  intros [? ? ? ? Hp] Hw Hpr ? ? Hsub. split; rewrite ?Hw, ?Hpr; [done..|].
  rewrite Forall_forall in *. intros p Hin. destruct (Hp p (Hsub p Hin)). split; congruence.
Qed.

Lemma wait_a_turn_pending root key q : q_pending (wait_a_turn root key q) = q_pending q.
Proof. unfold wait_a_turn. by destruct (_ && _). Qed.

Lemma wait_a_turn_deficit root key q : q_deficit (wait_a_turn root key q) = q_deficit q.
Proof. unfold wait_a_turn. by destruct (_ && _). Qed.

Lemma wait_a_turn_ok capacity root key k q : queue_ok capacity k q → queue_ok capacity k (wait_a_turn root key q).
Proof.
  intros H. pose proof (qok_deficit _ _ _ H). pose proof (qok_waiting _ _ _ H).
  unfold wait_a_turn. destruct (_ && _); [|done].
  apply (queue_ok_less _ _ q); cbn; try done. unfold u64_saturating_add, u64_max. lia.
Qed.

Lemma turn_ok s remaining root s' : scheduler_ok s → turn s remaining root s' →
  scheduler_ok s' ∧ same_setting s s' ∧ sc_active_root s' = Some root ∧ is_Some (sc_roots s' !! root).
Proof.
  intros [Hp Hq Ha] Ht. destruct Ht as [root Hr|root q Hr Hl Hf Hmax].
  { split_and!; [done|done|done|by apply Ha]. }
  assert (is_Some (turn_given root q (sc_roots s) !! root)).
  { rewrite turn_given_lookup, bool_decide_eq_true_2 by done. by eexists. }
  split_and!; [split; cbn; [done| |by intros ? [= <-]]|done|done|done].
  intros k q' Hk. rewrite turn_given_lookup in Hk. case_bool_decide as Hkr.
  - subst k. simplify_eq. pose proof (Hq _ _ Hl) as Hok. destruct Hok.
    apply (queue_ok_less _ _ q); cbn; try done; unfold u64_saturating_add, u64_max; lia.
  - destruct (sc_roots s !! k) as [q0|] eqn:Hk0; [|done]. injection Hk as <-. by apply wait_a_turn_ok, Hq.
Qed.

Lemma served_ok s root q remaining out s' : scheduler_ok s → sc_active_root s = Some root →
  sc_roots s !! root = Some q → served s root q remaining out s' → scheduler_ok s' ∧ same_setting s s'.
Proof.
  intros [Hp Hq Ha] Hact Hl Hs. pose proof (Hq _ _ Hl) as Hok.
  destruct Hs as [s' Hsame Hroots Hnone _|p s' Hsame _ _ _ Hroots Hnone
                 |p l1 l2 s' Hsame Hpend _ _ _ Hroots Hact'].
  all: split; [|done]; pose proof Hsame as (Hpol & _); split; rewrite ?Hpol, ?Hroots; [done| |].
  all: try (by rewrite Hnone). all: try done.
  - intros k q' [_ Hk]%lookup_delete_Some. by apply Hq.
  - intros k q' [[<- <-]|[_ Hk]]%lookup_insert_Some; [|by apply Hq].
    apply (queue_ok_less _ _ q); cbn; try done; [lia|by destruct Hok|].
    rewrite Hpend. set_solver.
  - intros root' Hr'. destruct Hact' as [Hact'|[Hact' _]]; [|congruence].
    rewrite Hact', Hact in Hr'. injection Hr' as <-. rewrite lookup_insert_eq. by eexists.
Qed.

(** ** The loop as a relation *)

Inductive rounds : nat → Z → CeremonyWorkerScheduler → list PendingRequest → CeremonyWorkerScheduler → Prop :=
| rounds_full used s : rounds 0 used s [] s
| rounds_idle slots used s :
    any_fits_capacity s (Z.max 0 (sp_capacity (sc_policy s) - used)) = false → rounds slots used s [] s
| rounds_pass slots used s root s1 q s2 l s3 :
    turn s (Z.max 0 (sp_capacity (sc_policy s) - used)) root s1 → sc_roots s1 !! root = Some q →
    served s1 root q (Z.max 0 (sp_capacity (sc_policy s) - used)) None s2 →
    rounds (S slots) used s2 l s3 → rounds (S slots) used s l s3
| rounds_take slots used s root s1 q p s2 l s3 :
    turn s (Z.max 0 (sp_capacity (sc_policy s) - used)) root s1 → sc_roots s1 !! root = Some q →
    served s1 root q (Z.max 0 (sp_capacity (sc_policy s) - used)) (Some p) s2 →
    rounds slots (u32_saturating_add used (rq_requested_capacity p.2)) s2 l s3 →
    rounds (S slots) used s (p :: l) s3.

(** The turns a root may be given before it can pay for any request. *)
Definition debt (q : CeremonyWorkerRootQueue) : nat := Z.to_nat (CeremonyWorkerCost_MAX - q_deficit q).

Definition total_debt (roots : gmap string CeremonyWorkerRootQueue) : nat :=
  map_fold (λ _ d n, d + n)%nat 0%nat (debt <$> roots).

Lemma total_debt_at roots k q : roots !! k = Some q →
  total_debt roots = (debt q + total_debt (delete k roots))%nat.
Proof.
  intros Hk. unfold total_debt. rewrite (map_fold_delete_L _ _ k (debt q)), fmap_delete; [done|lia|].
  by rewrite lookup_fmap, Hk.
Qed.

Lemma total_debt_ext roots roots' : debt <$> roots = debt <$> roots' → total_debt roots = total_debt roots'.
Proof. unfold total_debt. by intros ->. Qed.

Lemma total_debt_bound capacity roots : map_Forall (queue_ok capacity) roots →
  (total_debt roots ≤ size roots * Z.to_nat CeremonyWorkerCost_MAX)%nat.
Proof.
  induction roots as [|k q roots Hk IH] using map_ind; [done|].
  intros [Hq Hr]%map_Forall_insert; [|done]. rewrite (total_debt_at _ k q) by apply lookup_insert_eq.
  rewrite delete_insert_id, map_size_insert_None by done. specialize (IH Hr). destruct Hq.
  assert (debt q ≤ Z.to_nat CeremonyWorkerCost_MAX)%nat by (unfold debt; lia). lia.
Qed.

(** The debt a turn pays off, and the roots it leaves. *)
Lemma turn_given_debt root q roots : roots !! root = Some q →
  total_debt (turn_given root q roots) =
  (Z.to_nat (CeremonyWorkerCost_MAX - u64_saturating_add (q_deficit q) (q_weight q))
   + total_debt (delete root roots))%nat.
Proof.
  intros Hl. rewrite (total_debt_at _ root
    (q <| q_deficit := u64_saturating_add (q_deficit q) (q_weight q) |> <| q_waiting_turns := 0 |>))
    by (rewrite turn_given_lookup, bool_decide_eq_true_2; done).
  f_equal. apply total_debt_ext, map_eq. intros k. rewrite !lookup_fmap.
  destruct (base.decide (k = root)) as [->|Hk]; [by rewrite !lookup_delete_eq|].
  rewrite !lookup_delete_ne, turn_given_lookup, bool_decide_eq_false_2 by done.
  destruct (roots !! k) as [q'|]; cbn; [|done]. unfold debt. by rewrite wait_a_turn_deficit.
Qed.

Lemma turn_given_size root q roots : is_Some (roots !! root) → size (turn_given root q roots) = size roots.
Proof.
  intros Hl. rewrite <-!(size_dom (D:=gset string)). f_equal. apply set_eq. intros k.
  rewrite !elem_of_dom, turn_given_lookup. case_bool_decide; [naive_solver|]. by rewrite fmap_is_Some.
Qed.

Lemma turn_size s remaining root s' : turn s remaining root s' → size (sc_roots s') = size (sc_roots s).
Proof. intros [? ?|? q ? ? ? ?]; [done|]. cbn. by apply turn_given_size. Qed.

Lemma served_size s root q remaining out s' : sc_roots s !! root = Some q →
  served s root q remaining out s' → (size (sc_roots s') ≤ size (sc_roots s))%nat.
Proof.
  intros Hl []; repeat match goal with H : sc_roots _ = _ |- _ => rewrite H end; [done| |].
  - rewrite (map_size_delete_Some _ _ (mk_is_Some _ _ Hl)). lia.
  - by rewrite (map_size_insert_Some _ _ _ (mk_is_Some _ _ Hl)).
Qed.

(** A turn that admits nothing pays off some debt, or was a turn left over. *)
Definition left_over (s : CeremonyWorkerScheduler) : nat := if sc_active_root s then 1 else 0.

Lemma pass_decreases s remaining root s1 q s2 : scheduler_ok s → turn s remaining root s1 →
  sc_roots s1 !! root = Some q → served s1 root q remaining None s2 →
  (left_over s2 + total_debt (sc_roots s2) < left_over s + total_debt (sc_roots s))%nat.
Proof.
  intros [[? Hcap] Hq _] Ht Hl Hs. inversion Hs as [s' _ Hroots Hnone Hbroke| |]; subst s'.
  rewrite Hroots. unfold left_over. rewrite Hnone.
  destruct Ht as [root Ha|root q0 Ha Hl0 Hf _]; rewrite Ha; [lia|]. cbn in *.
  rewrite turn_given_debt, (total_debt_at (sc_roots s) root q0) by done.
  rewrite turn_given_lookup, bool_decide_eq_true_2 in Hl by done. injection Hl as <-. cbn in Hbroke.
  apply any_true in Hf as (p & Hp & Hf). rewrite Forall_forall in Hbroke. specialize (Hbroke p Hp Hf).
  destruct (Hq _ _ Hl0) as [Hw _ _ _ Hpend]. rewrite Forall_forall in Hpend. destruct (Hpend p Hp).
  unfold debt, u64_saturating_add, CeremonyWorkerCost_MAX, CeremonyWorkerCapacity_MAX, u64_max in *. lia.
Qed.

(** The loop with enough fuel. *)
Lemma dispatch_loop_rounds K fuel : ∀ s slots used, scheduler_ok s →
  (size (sc_roots s) * Z.to_nat CeremonyWorkerCost_MAX ≤ K)%nat →
  slots = 0%nat ∨ (pred slots * (K + 2) + left_over s + total_debt (sc_roots s) + 1 ≤ fuel)%nat →
  ∃ l s', dispatch_loop fuel s slots used = Ok (l, s') ∧ rounds slots used s l s'.
Proof.
  induction fuel as [|fuel IH]; intros s [|slots] used Hok HK Hfuel.
  1, 3: do 2 eexists; split; [done|constructor].
  { exfalso. destruct Hfuel as [[=]|Hfuel]. lia. }
  destruct Hfuel as [[=]|Hfuel]. cbn [dispatch_loop pred] in *.
  set (remaining := Z.max 0 (sp_capacity (sc_policy s) - used)).
  destruct (any_fits_capacity s remaining) eqn:Hany.
  2: { rewrite orb_true_r. do 2 eexists. split; [done|by apply rounds_idle]. }
  assert (Nat.eqb (length (btree_keys (sc_roots s))) 0 = false) as ->.
  { apply any_fits_spec in Hany as (k & q & Hk & _). apply Nat.eqb_neq. intros Hlen%nil_length_inv.
    assert (k ∈ btree_keys (sc_roots s)) as Hin by (apply elem_of_btree_keys; eauto).
    rewrite Hlen in Hin. by apply not_elem_of_nil in Hin. }
  cbn [orb negb].
  assert (∃ root s1, match sc_active_root s with
            | Some root => Some (root, s)
            | None => '(root, s1) ← start_turn s (btree_keys (sc_roots s)) remaining;
                      Some (root, s1 <| sc_active_root := Some root |>)
            end = Some (root, s1) ∧ turn s remaining root s1) as (root & s1 & Heq & Ht).
  { destruct (sc_active_root s) as [root|] eqn:Ha; [exists root, s; split; [done|by constructor]|].
    destruct (start_turn_gives s remaining Ha Hany) as (root & s1 & -> & Ht). eauto. }
  rewrite Heq. destruct (turn_ok _ _ _ _ Hok Ht) as (Hok1 & _ & Hact & [q Hl]).
  destruct (dispatch_root_served s1 root (btree_keys (sc_roots s)) remaining q Hl) as (out & s2 & -> & Hs).
  destruct (served_ok _ _ _ _ _ _ Hok1 Hact Hl Hs) as [Hok2 _].
  pose proof (served_size _ _ _ _ _ _ Hl Hs) as Hsz. rewrite (turn_size _ _ _ _ Ht) in Hsz.
  assert (size (sc_roots s2) * Z.to_nat CeremonyWorkerCost_MAX ≤ K)%nat as HK2 by nia.
  cbn [mbind result_bind]. destruct out as [p|].
  - destruct (IH s2 slots (u32_saturating_add used (rq_requested_capacity p.2)) Hok2 HK2)
      as (l & s3 & -> & Hr).
    { destruct slots as [|slots]; [by left|right]. cbn [pred].
      pose proof (total_debt_bound _ _ (sok_queues _ Hok2)).
      assert (left_over s2 ≤ 1)%nat by (unfold left_over; destruct (sc_active_root s2); lia). nia. }
    do 2 eexists. split; [done|]. by eapply rounds_take.
  - pose proof (pass_decreases _ _ _ _ _ _ Hok Ht Hl Hs).
    destruct (IH s2 (S slots) used Hok2 HK2) as (l & s3 & -> & Hr); [right; cbn [pred]; lia|].
    do 2 eexists. split; [done|]. by eapply rounds_pass.
Qed.

Lemma dispatch_rounds s : scheduler_ok s → ∃ l s', dispatch s = Ok (l, s') ∧
  rounds (Z.to_nat (sp_max_parallel (sc_policy s))) 0 s l s'.
Proof.
  intros Hok. unfold dispatch, dispatch_fuel.
  apply (dispatch_loop_rounds (size (sc_roots s) * Z.to_nat CeremonyWorkerCost_MAX)); [done|done|right].
  pose proof (total_debt_bound _ _ (sok_queues _ Hok)).
  assert (left_over s ≤ 1)%nat by (unfold left_over; destruct (sc_active_root s); lia). nia.
Qed.

(** ** The work that waits *)

(** Everything pending, over all roots. *)
Definition work (roots : gmap string CeremonyWorkerRootQueue) : list PendingRequest :=
  map_fold (λ _ l rest, l ++ rest) [] (q_pending <$> roots).

Lemma work_at roots k q : roots !! k = Some q → work roots ≡ₚ q_pending q ++ work (delete k roots).
Proof.
  intros Hk. unfold work. rewrite fmap_delete. apply (map_fold_delete (≡ₚ) _ [] k (q_pending q)).
  - intros j l l1 l2 H. by rewrite H.
  - intros. rewrite !app_assoc. f_equiv. by rewrite Permutation_app_comm.
  - by rewrite lookup_fmap, Hk.
Qed.

Lemma work_ext roots roots' : q_pending <$> roots = q_pending <$> roots' → work roots = work roots'.
Proof. unfold work. by intros ->. Qed.

Lemma work_insert roots k q : work (<[k := q]> roots) ≡ₚ q_pending q ++ work (delete k roots).
Proof. rewrite (work_at _ k q), delete_insert_eq; [done|apply lookup_insert_eq]. Qed.

Lemma elem_of_work roots p : p ∈ work roots ↔ ∃ k q, roots !! k = Some q ∧ p ∈ q_pending q.
Proof.
  induction roots as [|k q roots Hk IH] using map_ind.
  { split; [by intros H%not_elem_of_nil|]. intros (k & q & Hk & _). by rewrite lookup_empty in Hk. }
  rewrite work_insert, delete_id, elem_of_app, IH by done. split.
  - intros [Hp|(k' & q' & Hk' & Hp)]; [exists k, q; by rewrite lookup_insert_eq|].
    exists k', q'. rewrite lookup_insert_ne; [done|congruence].
  - intros (k' & q' & [[<- <-]|[_ Hk']]%lookup_insert_Some & Hp); eauto.
Qed.

Lemma turn_work s remaining root s' : turn s remaining root s' → work (sc_roots s') = work (sc_roots s).
Proof.
  intros [? ?|root' q _ Hl _ _]; [done|]. cbn. apply work_ext, map_eq. intros k.
  rewrite !lookup_fmap, turn_given_lookup. case_bool_decide as Hk; [by rewrite Hk, Hl|].
  destruct (sc_roots s !! k); cbn; [|done]. by rewrite wait_a_turn_pending.
Qed.

Lemma served_work s root q remaining out s' : sc_roots s !! root = Some q → served s root q remaining out s' →
  work (sc_roots s) ≡ₚ option_list out ++ work (sc_roots s').
Proof.
  intros Hl []; repeat match goal with H : sc_roots _ = _ |- _ => rewrite H end; cbn.
  - done.
  - rewrite (work_at _ _ _ Hl). by match goal with H : q_pending q = _ |- _ => rewrite H end.
  - rewrite work_insert, (work_at _ _ _ Hl). cbn. match goal with H : q_pending q = _ |- _ => rewrite H end.
    by rewrite <-Permutation_middle.
Qed.

(** ** A batch *)

Definition capacity_of (l : list PendingRequest) : Z :=
  fold_right (λ p n, rq_requested_capacity p.2 + n) 0 l.

Lemma rounds_ok slots used s l s' : rounds slots used s l s' → scheduler_ok s →
  scheduler_ok s' ∧ same_setting s s' ∧ work (sc_roots s) ≡ₚ l ++ work (sc_roots s').
Proof.
  induction 1 as [| |slots used s root s1 q s2 l s3 Ht Hl Hs _ IH|slots used s root s1 q p s2 l s3 Ht Hl Hs _ IH];
    intros Hok; [done|done|..].
  all: destruct (turn_ok _ _ _ _ Hok Ht) as (Hok1 & Hsame1 & Hact & _);
    destruct (served_ok _ _ _ _ _ _ Hok1 Hact Hl Hs) as [Hok2 Hsame2];
    destruct (IH Hok2) as (Hok3 & Hsame3 & Hw);
    rewrite <-(turn_work _ _ _ _ Ht), (served_work _ _ _ _ _ _ Hl Hs), Hw;
    split_and!; [done|by etrans; [|etrans]|done].
Qed.

Lemma fits_capacity_le remaining p : fits_capacity remaining p = true ↔ rq_requested_capacity p.2 ≤ remaining.
Proof. unfold fits_capacity. apply Z.leb_le. Qed.

(** A batch takes what fits, and stops short only when nothing that waits does. *)
Lemma rounds_bounds slots used s l s' : rounds slots used s l s' → scheduler_ok s →
  0 ≤ used ≤ sp_capacity (sc_policy s) →
  (length l ≤ slots)%nat ∧ used + capacity_of l ≤ sp_capacity (sc_policy s) ∧
  ((length l < slots)%nat → ∀ p, p ∈ work (sc_roots s') →
     sp_capacity (sc_policy s) - used - capacity_of l < rq_requested_capacity p.2).
Proof.
  induction 1 as [used s|slots used s Hidle|slots used s root s1 q s2 l s3 Ht Hl Hs _ IH
                 |slots used s root s1 q p s2 l s3 Ht Hl Hs _ IH]; intros Hok Hused; cbn.
  { split_and!; [done|lia|lia]. }
  { split_and!; [lia|lia|]. intros _ p (k & q & Hk & Hp)%elem_of_work.
    destruct (fits_capacity (Z.max 0 (sp_capacity (sc_policy s) - used)) p) eqn:Hf.
    - assert (any_fits_capacity s (Z.max 0 (sp_capacity (sc_policy s) - used)) = true) as Hc; [|congruence].
      apply any_fits_spec. exists k, q. split; [done|]. apply any_true. eauto.
    - unfold fits_capacity in Hf. lia. }
  all: destruct (turn_ok _ _ _ _ Hok Ht) as (Hok1 & (Hpol1 & _) & Hact & _);
    destruct (served_ok _ _ _ _ _ _ Hok1 Hact Hl Hs) as [Hok2 (Hpol2 & _)];
    rewrite Hpol2, Hpol1 in IH.
  { by apply IH. }
  assert (p ∈ q_pending q ∧ fits_capacity (Z.max 0 (sp_capacity (sc_policy s) - used)) p = true) as [Hp Hf].
  { inversion Hs as [|? ? ? Hpend|? l1 l2 ? ? Hpend]; subst; rewrite Hpend; split; try done; set_solver. }
  apply fits_capacity_le in Hf. destruct (sok_queues _ Hok1 _ _ Hl) as [_ _ _ _ Hpend].
  rewrite Forall_forall in Hpend. destruct (Hpend p Hp) as [_ _ _ _ Hcap _]. rewrite Hpol1 in Hcap.
  pose proof (pok_capacity _ (sok_policy _ Hok)).
  assert (u32_saturating_add used (rq_requested_capacity p.2) = used + rq_requested_capacity p.2) as Hadd
    by (unfold u32_saturating_add, u32_max, CeremonyWorkerCapacity_MAX in *; lia).
  rewrite Hadd in IH. destruct IH as (H1 & H2 & H3); [done|lia|]. fold (capacity_of l). split_and!; [lia|lia|].
  intros Hlen p' Hp'. specialize (H3 ltac:(lia) p' Hp'). lia.
Qed.

(** ** Submitting *)

(** What the types of the code say of a request. *)
Record request_valid (r : CeremonyWorkerScheduleRequest) : Prop := {
  rv_weight : 1 ≤ rq_weight r ≤ CeremonyWorkerWeight_MAX;
  rv_priority : 0 ≤ rq_priority r ≤ CeremonyWorkerPriority_MAX;
  rv_cost : 1 ≤ rq_cost r ≤ CeremonyWorkerCost_MAX;
  rv_capacity : 1 ≤ rq_requested_capacity r ≤ CeremonyWorkerCapacity_MAX;
}.

(** A request that the scheduler takes. *)
Definition acceptable (s : CeremonyWorkerScheduler) (r : CeremonyWorkerScheduleRequest) : Prop :=
  sc_draining s = false ∧ rq_eligibility r = Ready ∧
  rq_cost r ≤ sp_capacity (sc_policy s) ∧ rq_requested_capacity r ≤ sp_capacity (sc_policy s).

Definition other_terms (weight priority : Z) (r : CeremonyWorkerScheduleRequest) : Prop :=
  weight ≠ rq_weight r ∨ priority ≠ rq_priority r.

(** Why a request is turned away, given those taken. *)
Definition justified (s : CeremonyWorkerScheduler) (queued : list CeremonyWorkerScheduleRequest)
    (d : CeremonyWorkerAdmissionDecision) : Prop :=
  let r := ad_request d in
  match ad_reason d with
  | Draining => sc_draining s = true
  | Budget => rq_eligibility r = BudgetUnavailable
  | Permission => rq_eligibility r = PermissionDenied
  | Backpressure =>
      sp_capacity (sc_policy s) < rq_cost r ∨ sp_capacity (sc_policy s) < rq_requested_capacity r ∨
      (∃ q, sc_roots s !! rq_root_id r = Some q ∧ other_terms (q_weight q) (q_priority q) r) ∨
      (∃ r', r' ∈ queued ∧ rq_root_id r' = rq_root_id r ∧ other_terms (rq_weight r') (rq_priority r') r)
  | _ => False
  end.

(** The queue a request joins. *)
Definition queue_for (s : CeremonyWorkerScheduler) (r : CeremonyWorkerScheduleRequest)
    : CeremonyWorkerRootQueue :=
  default (RootQueue_new (rq_weight r) (rq_priority r)) (sc_roots s !! rq_root_id r).

Inductive submitted (s : CeremonyWorkerScheduler) (r : CeremonyWorkerScheduleRequest)
    : option CeremonyWorkerAdmissionDecision → CeremonyWorkerScheduler → Prop :=
| submitted_refused d :
    ad_request d = r → justified s [] d →
    submitted s r (Some d) (s <| sc_decision_sequence := ad_sequence d |>)
| submitted_queued n :
    acceptable s r → q_weight (queue_for s r) = rq_weight r → q_priority (queue_for s r) = rq_priority r →
    submitted s r None
      (s <| sc_ordinal := n |>
         <| sc_roots := <[rq_root_id r := (queue_for s r)
                            <| q_pending := q_pending (queue_for s r) ++ [(n, r)] |>]> (sc_roots s) |>).

Lemma submit_submitted s r : submitted s r (submit_request s r).1 (submit_request s r).2.
Proof.
  unfold submit_request, refusal. destruct (sc_draining s) eqn:Hd; [by constructor|].
  destruct (rq_eligibility r) eqn:He; [|by constructor..].
  destruct (_ || _) eqn:Hbig.
  { constructor; [done|]. apply orb_true_iff in Hbig as [?|?]; cbn; lia. }
  apply orb_false_iff in Hbig as [? ?]. fold (queue_for s r).
  destruct (_ || _) eqn:Hterms.
  - constructor; [done|]. cbn. right. right. left. unfold queue_for in Hterms.
    destruct (sc_roots s !! rq_root_id r) as [q|]; cbn in Hterms; [|lia].
    exists q. split; [done|]. unfold other_terms. lia.
  - constructor; [split_and!; [done|done|lia|lia]|lia|lia].
Qed.

Lemma submitted_ok s r out s' : scheduler_ok s → request_valid r → submitted s r out s' →
  scheduler_ok s' ∧ sc_policy s' = sc_policy s ∧ sc_draining s' = sc_draining s ∧
  sc_active_root s' = sc_active_root s.
Proof.
  intros [Hp Hq Ha] [? ? ? ?] Hsub.
  destruct Hsub as [d _ _|n (_ & Hready & Hcost & Hcap) Hw Hpr]; (split; [|done]); split; cbn; try done.
  - intros k q [[<- <-]|[_ Hk]]%lookup_insert_Some; [|by apply Hq].
    assert (queue_ok (sp_capacity (sc_policy s)) (rq_root_id r) (queue_for s r)) as [].
    { unfold queue_for. destruct (sc_roots s !! rq_root_id r) as [q|] eqn:Hl; cbn; [by apply Hq|].
      split; cbn; [done|done|lia|lia|constructor]. }
    split; cbn; [done..|]. apply Forall_app. split; [|constructor; [|constructor]].
    + eapply Forall_impl; [done|]. intros p []. by split.
    + split; cbn; [done|done|done|lia|lia|done].
  - intros root Hr. apply lookup_insert_is_Some'. right. by apply Ha.
Qed.

Lemma submitted_work s r out s' : submitted s r out s' →
  (work (sc_roots s')).*2 ≡ₚ (work (sc_roots s)).*2 ++ (if out then [] else [r]).
Proof.
  intros [d _ _|n _ _ _]; cbn; [by rewrite app_nil_r|].
  rewrite work_insert. cbn. unfold queue_for.
  destruct (sc_roots s !! rq_root_id r) as [q|] eqn:Hl; cbn.
  - rewrite (work_at _ _ _ Hl), !fmap_app. cbn. by rewrite <-!app_assoc, (Permutation_app_comm [r]).
  - by rewrite delete_id, (Permutation_app_comm _ [r]).
Qed.

(** A refusal in the state a batch has reached is one in the state it started from. *)
Lemma justified_before s r out s' queued d : submitted s r out s' → justified s' queued d →
  justified s (if out then queued else r :: queued) d.
Proof.
  intros Hsub. destruct Hsub as [d0 _ _|n _ Hw Hpr]; unfold justified; [by destruct (ad_reason d)|].
  destruct (ad_reason d); cbn; try done.
  intros [?|[?|[(q & Hq & Hterms)|(r' & Hr' & Hroot & Hterms)]]]; [by left|by right; left| |].
  - apply lookup_insert_Some in Hq as [[Hroot <-]|[_ Hq]]; [|by right; right; left; exists q].
    cbn in Hterms. rewrite Hw, Hpr in Hterms. right; right; right. exists r. split; [by left|done].
  - right; right; right. exists r'. split; [by right|done].
Qed.

Lemma submit_all_ok requests : ∀ s deferred queued s', scheduler_ok s → Forall request_valid requests →
  submit_all s requests = (deferred, queued, s') →
  scheduler_ok s' ∧ sc_policy s' = sc_policy s ∧ sc_draining s' = sc_draining s ∧
  requests ≡ₚ queued ++ (ad_request <$> deferred) ∧
  (work (sc_roots s')).*2 ≡ₚ (work (sc_roots s)).*2 ++ queued ∧
  Forall (acceptable s) queued ∧ Forall (justified s queued) deferred.
Proof.
  induction requests as [|r requests IH]; intros s deferred queued s' Hok Hv; cbn.
  { intros [= <- <- <-]. split_and!; [done|done|done|done|by rewrite app_nil_r|done|done]. }
  inversion Hv as [|? ? Hr Hv']; subst. pose proof (submit_submitted s r) as Hsub.
  destruct (submit_request s r) as [out s1]. cbn in Hsub.
  destruct (submitted_ok _ _ _ _ Hok Hr Hsub) as (Hok1 & Hpol & Hdr & _).
  pose proof (submitted_work _ _ _ _ Hsub) as Hwork.
  destruct (submit_all s1 requests) as [[deferred1 queued1] s2] eqn:Hall.
  destruct (IH _ _ _ _ Hok1 Hv' Hall) as (Hok2 & Hpol2 & Hdr2 & Hreq & Hwork2 & Hacc & Hjust).
  assert (Forall (acceptable s) queued1) as Hacc'.
  { eapply Forall_impl; [done|]. unfold acceptable. by rewrite Hpol, Hdr. }
  assert (Forall (justified s (if out then queued1 else r :: queued1)) deferred1) as Hjust'.
  { eapply Forall_impl; [done|]. intros d. by apply justified_before. }
  destruct out as [d|]; intros [= <- <- <-]; (split; [done|]); (split; [congruence|]); (split; [congruence|]).
  - inversion Hsub as [d' Hd Hj|]; subst d'. split_and!.
    + cbn. by rewrite Hreq, Hd, Permutation_middle.
    + by rewrite Hwork2, Hwork, app_nil_r.
    + done.
    + constructor; [|done]. unfold justified in *. destruct (ad_reason d); try done.
      destruct Hj as [?|[?|[?|(r' & []%not_elem_of_nil & _)]]]; auto.
  - inversion Hsub. split_and!; [by rewrite Hreq| |by constructor|done].
    by rewrite Hwork2, Hwork, <-app_assoc.
Qed.

(** ** Scheduling *)

Lemma work_sorted roots :
  work ((λ q, q <| q_pending := merge_sort pending_le (q_pending q) |>) <$> roots) ≡ₚ work roots.
Proof.
  induction roots as [|k q roots Hk IH] using map_ind; [done|].
  rewrite fmap_insert, !work_insert, !delete_id, IH by (by rewrite ?lookup_fmap, Hk). cbn.
  by rewrite merge_sort_Permutation.
Qed.

Lemma sort_queues_lookup s k q : sc_roots (sort_queues s) !! k = Some q →
  ∃ q0, sc_roots s !! k = Some q0 ∧ q = q0 <| q_pending := merge_sort pending_le (q_pending q0) |>.
Proof. cbn. rewrite lookup_fmap. destruct (sc_roots s !! k) as [q0|]; cbn; [|done]. intros [= <-]. eauto. Qed.

Lemma sort_queues_ok s : scheduler_ok s → scheduler_ok (sort_queues s).
Proof.
  intros [Hp Hq Ha]. split; [done| |].
  - intros k q (q0 & Hk & ->)%sort_queues_lookup. pose proof (Hq _ _ Hk) as Hok. destruct Hok.
    apply (queue_ok_less _ _ q0); cbn; try done; by rewrite merge_sort_Permutation.
  - intros root Hr. cbn. rewrite lookup_fmap, fmap_is_Some. by apply Ha.
Qed.

(** What a decision is about, and that it changes nothing but the sequence. *)
Lemma decide_each_ok requests reason : ∀ s ds s', decide_each s requests reason = (ds, s') →
  ad_request <$> ds = requests ∧ Forall (λ d, ad_reason d = reason) ds ∧
  s' = s <| sc_decision_sequence := sc_decision_sequence s' |>.
Proof.
  induction requests as [|r requests IH]; intros s ds s'; cbn.
  { intros [= <- <-]. split_and!; [done|done|by destruct s]. }
  destruct (decide_each _ requests reason) as [ds1 s1] eqn:E. intros [= <- <-].
  destruct (IH _ _ _ E) as (H1 & H2 & H3). split_and!; [cbn; by rewrite H1|by constructor|].
  rewrite H3. by destruct s.
Qed.

(** What a call of [schedule] does: the queues are filled and sorted, and a batch
    is dispatched unless the scheduler drains. *)
Inductive scheduled (s : CeremonyWorkerScheduler) (requests : list CeremonyWorkerScheduleRequest)
    : list CeremonyWorkerAdmissionDecision → list CeremonyWorkerScheduleRequest →
      list PendingRequest → CeremonyWorkerScheduler → Prop :=
| scheduled_batch refused queued s1 l s2 n :
    submit_all s requests = (refused, queued, s1) →
    (if sc_draining s then l = [] ∧ s2 = sort_queues s1
     else rounds (Z.to_nat (sp_max_parallel (sc_policy s))) 0 (sort_queues s1) l s2) →
    scheduled s requests refused queued l (s2 <| sc_decision_sequence := n |>).

Lemma schedule_runs s requests : scheduler_ok s → Forall request_valid requests →
  ∃ sch s' refused queued l delayed,
    schedule s requests = Ok (sch, s') ∧ scheduled s requests refused queued l s' ∧
    ad_request <$> sch_admitted sch = l.*2 ∧ Forall (λ d, ad_reason d = AdmittedNow) (sch_admitted sch) ∧
    sch_deferred sch = refused ++ delayed ∧
    Forall (λ d, ad_reason d = Backpressure ∧ ad_request d ∈ queued) delayed.
Proof.
  intros Hok Hv. unfold schedule.
  destruct (submit_all s requests) as [[refused queued] s1] eqn:Hall.
  destruct (submit_all_ok _ _ _ _ _ Hok Hv Hall) as (Hok1%sort_queues_ok & Hpol & Hdr & _).
  assert (∃ l s2, (if sc_draining (sort_queues s1) then Ok ([], sort_queues s1) else dispatch (sort_queues s1))
                  = Ok (l, s2) ∧
    (if sc_draining s then l = [] ∧ s2 = sort_queues s1
     else rounds (Z.to_nat (sp_max_parallel (sc_policy s))) 0 (sort_queues s1) l s2))
    as (l & s2 & -> & Hrun).
  { cbn [sort_queues]. change (sc_draining (sort_queues s1)) with (sc_draining s1). rewrite Hdr.
    destruct (sc_draining s); [by do 2 eexists|].
    destruct (dispatch_rounds _ Hok1) as (l & s2 & -> & Hr). cbn in Hr. rewrite Hpol in Hr. eauto. }
  cbn [mbind result_bind].
  destruct (decide_each s2 _ AdmittedNow) as [admitted s3] eqn:Hadm.
  destruct (decide_each s3 _ Backpressure) as [delayed s4] eqn:Hdel.
  apply decide_each_ok in Hadm as (Ha1 & Ha2 & Ha3). apply decide_each_ok in Hdel as (Hd1 & Hd2 & Hd3).
  assert (s4 = s2 <| sc_decision_sequence := sc_decision_sequence s4 |>) as -> by (rewrite Hd3, Ha3; by destruct s2).
  do 6 eexists. split; [reflexivity|]. split; [by econstructor|]. cbn. split_and!; [done|done|done|].
  rewrite Forall_forall in *. intros d Hd. split; [by apply Hd2|].
  assert (ad_request d ∈ ad_request <$> delayed) as Hin by (by apply list_elem_of_fmap_2).
  rewrite Hd1 in Hin. apply list_elem_of_In, filter_In in Hin as [Hin _]. by apply list_elem_of_In.
Qed.

Lemma scheduler_ok_sequence s n : scheduler_ok s → scheduler_ok (s <| sc_decision_sequence := n |>).
Proof. by intros []. Qed.

(** The capacity a batch takes. *)
Definition batch_capacity (sch : CeremonyWorkerSchedule) : Z :=
  fold_right (λ d n, rq_requested_capacity (ad_request d) + n) 0 (sch_admitted sch).

Lemma batch_capacity_of sch l : ad_request <$> sch_admitted sch = l.*2 → batch_capacity sch = capacity_of l.
Proof.
  unfold batch_capacity, capacity_of. generalize (sch_admitted sch) as ds.
  induction l as [|p l IH]; intros [|d ds]; cbn; try done. intros [= Hd Hds]. by rewrite Hd, (IH ds Hds).
Qed.

Lemma scheduled_ok s requests refused queued l s' : scheduler_ok s → Forall request_valid requests →
  scheduled s requests refused queued l s' →
  scheduler_ok s' ∧ sc_policy s' = sc_policy s ∧ sc_draining s' = sc_draining s ∧
  requests ≡ₚ queued ++ (ad_request <$> refused) ∧ Forall (acceptable s) queued ∧
  Forall (justified s queued) refused ∧
  (work (sc_roots s)).*2 ++ queued ≡ₚ l.*2 ++ (work (sc_roots s')).*2.
Proof.
  intros Hok Hv [refused' queued' s1 l' s2 n Hall Hrun].
  destruct (submit_all_ok _ _ _ _ _ Hok Hv Hall) as (Hok1 & Hpol & Hdr & Hreq & Hwork & Hacc & Hjust).
  assert (scheduler_ok s2 ∧ same_setting (sort_queues s1) s2 ∧
          work (sc_roots (sort_queues s1)) ≡ₚ l' ++ work (sc_roots s2)) as (Hok2 & (Hpol2 & Hdr2 & _) & Hw2).
  { apply sort_queues_ok in Hok1. destruct (sc_draining s); [destruct Hrun as [-> ->]; done|].
    by apply rounds_ok in Hrun. }
  cbn in Hpol2, Hdr2. split_and!; [by apply scheduler_ok_sequence|cbn; congruence|cbn; congruence|done..|].
  cbn. rewrite <-Hwork, <-fmap_app, <-Hw2. cbn. by rewrite work_sorted.
Qed.

(** C22: a call of [schedule] ends and loses no request.  What waited and what was
    taken of the batch is either admitted or still waits, each as often as
    before; the rest is turned away for a reason that holds.  The batch has at
    most [max_parallel] requests whose capacities fit the policy together, it is
    empty while the scheduler drains, and otherwise it stops short of
    [max_parallel] only when nothing that waits fits in the capacity left. *)
Theorem schedule_admits_what_fits s requests :
  scheduler_ok s → Forall request_valid requests →
  ∃ sch s' queued refused delayed,
    schedule s requests = Ok (sch, s') ∧ scheduler_ok s' ∧
    requests ≡ₚ queued ++ (ad_request <$> refused) ∧
    Forall (acceptable s) queued ∧ Forall (justified s queued) refused ∧
    sch_deferred sch = refused ++ delayed ∧
    Forall (λ d, ad_reason d = Backpressure ∧ ad_request d ∈ queued) delayed ∧
    Forall (λ d, ad_reason d = AdmittedNow) (sch_admitted sch) ∧
    (work (sc_roots s)).*2 ++ queued ≡ₚ (ad_request <$> sch_admitted sch) ++ (work (sc_roots s')).*2 ∧
    Z.of_nat (length (sch_admitted sch)) ≤ sp_max_parallel (sc_policy s) ∧
    batch_capacity sch ≤ sp_capacity (sc_policy s) ∧
    if sc_draining s then sch_admitted sch = []
    else Z.of_nat (length (sch_admitted sch)) < sp_max_parallel (sc_policy s) → ∀ r,
      r ∈ (work (sc_roots s')).*2 → sp_capacity (sc_policy s) - batch_capacity sch < rq_requested_capacity r.
Proof.
  intros Hok Hv. pose proof (pok_capacity _ (sok_policy _ Hok)) as Hcap.
  pose proof (pok_parallel _ (sok_policy _ Hok)) as Hpar.
  destruct (schedule_runs _ _ Hok Hv) as (sch & s' & refused & queued & l & delayed & -> & Hs & Ha & Har & Hd & Hdr).
  destruct (scheduled_ok _ _ _ _ _ _ Hok Hv Hs) as (Hok' & _ & _ & Hreq & Hacc & Hjust & Hw).
  assert (length (sch_admitted sch) = length l) as Hlen.
  { rewrite <-(length_fmap snd l), <-Ha. by rewrite length_fmap. }
  exists sch, s', queued, refused, delayed. rewrite Ha, Hlen, (batch_capacity_of _ _ Ha).
  do 9 (split; [done|]).
  destruct Hs as [refused queued s1 l s2 n Hall Hrun].
  destruct (submit_all_ok _ _ _ _ _ Hok Hv Hall) as (Hok1%sort_queues_ok & Hpol & _).
  destruct (sc_draining s); [destruct Hrun as [-> _]; cbn; split_and!; [lia|lia|]; by apply nil_length_inv|].
  destruct (rounds_bounds _ _ _ _ _ Hrun Hok1) as (H1 & H2 & H3); cbn in *; rewrite Hpol in *; [lia|].
  split_and!; [lia|lia|]. intros Hlt r (p & -> & Hp)%list_elem_of_fmap.
  specialize (H3 ltac:(lia) p Hp). lia.
Qed.

(** Two requests for two roots of which one fits. *)
Definition small_policy : CeremonyWorkerSchedulerPolicy := MkSchedulerPolicy 2 11 1.
Definition small_request (root : CeremonyId) (operation : string) (weight capacity : Z)
    : CeremonyWorkerScheduleRequest :=
  MkRequest root operation 0 weight 1 capacity Ready.

Lemma small_scheduler_ok : scheduler_ok (Scheduler_new small_policy).
Proof. split; [split; done|done|done]. Qed.

Lemma schedule_admits_what_fits_witness :
  let requests := [small_request "a" "a1" 1 10; small_request "b" "b1" 1 2] in
  ∃ sch s', schedule (Scheduler_new small_policy) requests = Ok (sch, s') ∧
    List.map ad_request (sch_admitted sch) = [small_request "a" "a1" 1 10] ∧ batch_capacity sch ≤ 11.
Proof.
  intros requests.
  destruct (schedule_admits_what_fits (Scheduler_new small_policy) requests)
    as (sch & s' & _ & _ & _ & Hs & _ & _ & _ & _ & _ & _ & _ & _ & _ & Hcap & _).
  - exact small_scheduler_ok.
  - repeat constructor; cbn; done.
  - exists sch, s'. split; [exact Hs|]. split; [|exact Hcap].
    vm_compute in Hs. by injection Hs as <- _.
Defined.
