(* ===== verification/Fairness.v ===== *)
(** * The worker scheduler is fair

    Where no request asks for more than its share of the capacity, every root is
    given a turn within a bounded number of turns and no root hoards deficit.  The
    turns are those an observer of the loop sees ([dispatch_turns]); that the
    scheduler's own counter agrees with them is a lemma ([tracks_history]). *)

From S2P Require Import Prelude Errors Text Values Steps Definitions Scheduler Batches.

(** ** Effective priorities *)

(** A root gains a turn of effective priority while another root that is at least
    as high falls back to its own priority, so the roots that climbed by [m]
    above the highest priority are at most the number of roots less [m]. *)

Definition high (roots : gmap string CeremonyWorkerRootQueue) (e : Z) : gset string :=
  dom (filter (λ x, e ≤ effective_priority x.2) roots).

Lemma elem_of_high roots e k : k ∈ high roots e ↔ ∃ q, roots !! k = Some q ∧ e ≤ effective_priority q.
Proof.
  unfold high. rewrite elem_of_dom. split.
  - intros [q [Hq He]%map_lookup_filter_Some]. eauto.
  - intros (q & Hq & He). exists q. by apply map_lookup_filter_Some.
Qed.

Section Fair.
Context (R : gset string).

Definition climbers (roots : gmap string CeremonyWorkerRootQueue) (m : nat) : gset string :=
  high roots (CeremonyWorkerPriority_MAX + Z.of_nat m).

Record fair (s : CeremonyWorkerScheduler) : Prop := {
  fair_roots : dom (sc_roots s) ⊆ R;
  fair_climbers : ∀ m, (size (climbers (sc_roots s) m) ≤ size R - m)%nat;
}.

(** Nobody need look at the roots that have not climbed. *)
Lemma fair_intro s : dom (sc_roots s) ⊆ R →
  (∀ m, (size (climbers (sc_roots s) (S m)) ≤ size R - S m)%nat) → fair s.
Proof.
  intros Hdom H. split; [done|]. intros [|m]; [|apply H]. rewrite Nat.sub_0_r. apply subseteq_size.
  intros k (q & Hq & _)%elem_of_high. apply Hdom, elem_of_dom. eauto.
Qed.

(** Roots may go, and lose effective priority, and new ones come in at their own. *)
Lemma fair_less s s' : fair s → dom (sc_roots s') ⊆ R →
  (∀ k q', sc_roots s' !! k = Some q' → CeremonyWorkerPriority_MAX < effective_priority q' →
     ∃ q, sc_roots s !! k = Some q ∧ effective_priority q' ≤ effective_priority q) → fair s'.
Proof.
  intros [_ H] Hdom Hless. apply fair_intro; [done|]. intros m. etrans; [|apply H]. apply subseteq_size.
  intros k (q' & Hq' & He)%elem_of_high. destruct (Hless k q' Hq') as (q & Hq & Hle); [lia|].
  apply elem_of_high. exists q. split; [done|lia].
Qed.

(** What a root can ask for so that it never stands in the way of another. *)
Definition share (policy : CeremonyWorkerSchedulerPolicy) : Z := sp_capacity policy / sp_max_parallel policy.

Definition light (s : CeremonyWorkerScheduler) : Prop :=
  ∀ p, p ∈ work (sc_roots s) → rq_requested_capacity p.2 ≤ share (sc_policy s).

Lemma light_fits s remaining k q : light s → share (sc_policy s) ≤ remaining → sc_roots s !! k = Some q →
  ∀ p, p ∈ q_pending q → fits_capacity remaining p = true.
Proof.
  intros Hlight Hrem Hk p Hp. apply fits_capacity_le. etrans; [|done]. apply Hlight, elem_of_work. eauto.
Qed.

Lemma wait_a_turn_priority root key q : effective_priority (wait_a_turn root key q) ≤ effective_priority q + 1 ∧
  (q_pending q = [] → wait_a_turn root key q = q).
Proof.
  unfold wait_a_turn. split.
  - destruct (_ && _); [|lia]. unfold effective_priority, u64_saturating_add. cbn. lia.
  - intros ->. by rewrite andb_false_r.
Qed.

Lemma turn_given_climbers s remaining root q m :
  scheduler_ok s → light s → share (sc_policy s) ≤ remaining → sc_roots s !! root = Some q →
  (∀ k q', sc_roots s !! k = Some q' → queue_fits remaining q' = true →
     effective_priority q' ≤ effective_priority q) →
  climbers (turn_given root q (sc_roots s)) (S m) ⊆ climbers (sc_roots s) (S m) ∨
  climbers (turn_given root q (sc_roots s)) (S m) ⊂ climbers (sc_roots s) m.
Proof.
  intros Hok Hlight Hrem Hl Hmax. pose proof (qok_priority _ _ _ (sok_queues _ Hok _ _ Hl)) as Hpr.
  assert (∀ k q', turn_given root q (sc_roots s) !! k = Some q' →
    CeremonyWorkerPriority_MAX < effective_priority q' → k ≠ root ∧
    ∃ q0, sc_roots s !! k = Some q0 ∧
      (q' = q0 ∨ effective_priority q0 ≤ effective_priority q ∧ effective_priority q' ≤ effective_priority q0 + 1))
    as Hcl.
  { intros k q'. rewrite turn_given_lookup. case_bool_decide as Hk; [intros [= <-]|].
    { unfold effective_priority, u64_saturating_add. cbn. lia. }
    destruct (sc_roots s !! k) as [q0|] eqn:Hq0; cbn; [|done]. intros [= <-] _. split; [done|].
    exists q0. split; [done|]. destruct (wait_a_turn_priority root k q0) as [Hle Hidle].
    destruct (q_pending q0) as [|p l] eqn:Hp; [left; by apply Hidle|right]. split; [|done].
    apply (Hmax k q0); [done|]. apply any_true. exists p. rewrite Hp. split; [by left|].
    apply (light_fits s remaining k q0); [done..|]. rewrite Hp. by left. }
  destruct (Z_le_gt_dec (CeremonyWorkerPriority_MAX + Z.of_nat m) (effective_priority q)) as [He|He].
  - right. split.
    + intros k (q' & Hq' & Hk)%elem_of_high. destruct (Hcl k q' Hq' ltac:(lia)) as (_ & q0 & Hq0 & Hcase).
      apply elem_of_high. exists q0. split; [done|]. destruct Hcase as [->|[_ ?]]; lia.
    + intros Hsub. assert (root ∈ climbers (sc_roots s) m) as Hin by (apply elem_of_high; eauto).
      apply Hsub, elem_of_high in Hin as (q' & Hq' & Hk). by destruct (Hcl root q' Hq' ltac:(lia)) as [? _].
  - left. intros k (q' & Hq' & Hk)%elem_of_high. destruct (Hcl k q' Hq' ltac:(lia)) as (_ & q0 & Hq0 & Hcase).
    apply elem_of_high. exists q0. split; [done|]. destruct Hcase as [->|[? ?]]; lia.
Qed.

Lemma turn_fair s remaining root s' : scheduler_ok s → light s → share (sc_policy s) ≤ remaining →
  fair s → turn s remaining root s' → fair s'.
Proof.
  intros Hok Hlight Hrem Hfair [? _|root' q _ Hl _ Hmax]; [done|]. apply fair_intro; cbn.
  - intros k [q' Hq']%elem_of_dom. apply (fair_roots _ Hfair), elem_of_dom.
    rewrite turn_given_lookup in Hq'. case_bool_decide as Hk; [subst; eauto|].
    destruct (sc_roots s !! k); [by eexists|done].
  - intros m. destruct (turn_given_climbers s remaining root' q m) as [H|H]; [done..| |].
    + etrans; [by apply subseteq_size|apply (fair_climbers _ Hfair)].
    + apply subset_size in H. pose proof (fair_climbers _ Hfair m). lia.
Qed.

Lemma served_fair s root q remaining out s' : sc_roots s !! root = Some q → fair s →
  served s root q remaining out s' → fair s'.
Proof.
  intros Hl Hfair Hs. pose proof (fair_roots _ Hfair) as Hdom.
  apply (fair_less s); [done|..]; destruct Hs; repeat match goal with H : sc_roots _ = _ |- _ => rewrite H end.
  - done.
  - rewrite dom_delete. set_solver.
  - by rewrite dom_insert_lookup by eauto.
  - intros k q' Hk _. by exists q'.
  - intros k q' [_ Hk]%lookup_delete_Some _. by exists q'.
  - intros k q' [[<- <-]|[_ Hk]]%lookup_insert_Some _; [by exists q|by exists q'].
Qed.

Lemma light_same s s' : sc_policy s' = sc_policy s → work (sc_roots s') ⊆ work (sc_roots s) →
  light s → light s'.
Proof. intros Hpol Hw Hlight p Hp. rewrite Hpol. by apply Hlight, Hw. Qed.
End Fair.

(** ** Deficits *)

(** Every root has work, and no more deficit than a request costs, save the one
    that has the turn. *)
Definition solvent (s : CeremonyWorkerScheduler) : Prop := ∀ k q, sc_roots s !! k = Some q →
  q_pending q ≠ [] ∧
  q_deficit q < sp_capacity (sc_policy s) + (if sc_active_root s == Some k then q_weight q else 0).

Lemma no_turn (k : CeremonyId) : (None == Some k) = false.
Proof. by apply eqb_false. Qed.

Lemma turn_solvent s remaining root s' : scheduler_ok s → solvent s → turn s remaining root s' → solvent s'.
Proof.
  intros Hok Hsol [? _|root' q Hnone Hl _ _]; [done|]. intros k q'. cbn. rewrite turn_given_lookup.
  case_bool_decide as Hk; [intros [= <-]; subst k; cbn|].
  - rewrite eqb_refl. destruct (Hsol _ _ Hl) as [Hp Hd]. rewrite Hnone, no_turn in Hd. split; [done|].
    unfold u64_saturating_add. lia.
  - destruct (sc_roots s !! k) as [q0|] eqn:Hq0; cbn; [|done]. intros [= <-].
    destruct (Hsol _ _ Hq0) as [Hp Hd]. rewrite Hnone, no_turn in Hd. rewrite wait_a_turn_pending, wait_a_turn_deficit.
    split; [done|]. destruct (Some root' == Some k) eqn:E; [|done].
    apply eqb_true_1 in E. congruence.
Qed.

Lemma served_solvent s root q remaining out s' : scheduler_ok s → light s → share (sc_policy s) ≤ remaining →
  sc_active_root s = Some root → sc_roots s !! root = Some q → solvent s →
  served s root q remaining out s' → solvent s'.
Proof.
  intros Hok Hlight Hrem Hact Hl Hsol Hs.
  assert (∀ k q', sc_roots s !! k = Some q' → k ≠ root →
    q_pending q' ≠ [] ∧ q_deficit q' < sp_capacity (sc_policy s)) as Hother.
  { intros k q' Hk Hne. destruct (Hsol _ _ Hk) as [Hp Hd]. rewrite Hact in Hd. split; [done|].
    destruct (Some root == Some k) eqn:E; [apply eqb_true_1 in E; congruence|lia]. }
  destruct (Hsol _ _ Hl) as [Hp Hd]. rewrite Hact, eqb_refl in Hd.
  destruct (sok_queues _ Hok _ _ Hl) as [_ _ _ _ Hpend]. rewrite Forall_forall in Hpend.
  assert (∀ l d, l ⊆ q_pending q → l ≠ [] → Forall (λ p : PendingRequest, d < rq_cost p.2) l →
    d < sp_capacity (sc_policy s)) as Hbroke.
  { intros [|p l] d Hsub Hne Hall; [done|]. apply Forall_cons in Hall as [Hall _].
    assert (p ∈ q_pending q) as Hin by (apply Hsub; by left). destruct (Hpend p Hin). lia. }
  destruct Hs as [s' (Hpol & _) Hroots Hnone Hb|p s' (Hpol & _) _ _ _ Hroots Hnone
                 |p l1 l2 s' (Hpol & _) Hq Hne Hcost _ Hroots Hact'];
    intros k q'; rewrite Hroots, Hpol.
  - intros Hk. rewrite Hnone, no_turn. destruct (base.decide (k = root)) as [->|Hkr].
    + simplify_eq. split; [done|]. rewrite Z.add_0_r. apply (Hbroke (q_pending q)); [done..|].
      rewrite Forall_forall in *. intros p Hin. apply (Hb p Hin).
      by apply (light_fits s remaining root q).
    + rewrite Z.add_0_r. by apply (Hother k).
  - intros [Hkr Hk]%lookup_delete_Some. rewrite Hnone, no_turn. rewrite Z.add_0_r. by apply (Hother k).
  - intros [[<- <-]|[Hkr Hk]]%lookup_insert_Some.
    + split; [done|]. cbn. destruct Hact' as [->|[-> Hb]].
      * rewrite Hact, eqb_refl. pose proof (qok_deficit _ _ _ (sok_queues _ Hok _ _ Hl)).
        assert (p ∈ q_pending q) as Hin by (rewrite Hq; set_solver).
        destruct (Hpend p Hin). lia.
      * rewrite no_turn, Z.add_0_r. apply (Hbroke (l1 ++ l2)); [rewrite Hq; set_solver|done|done].
    + destruct (Hother k q' Hk) as [? ?]; [done|]. split; [done|].
      destruct (sc_active_root s' == Some k) eqn:E; [|lia]. apply eqb_true_1 in E.
      destruct Hact' as [Ha|[Ha _]]; congruence.
Qed.

(** ** The turns given *)

(** What an observer of the scheduler sees: a root is given a turn while the roots
    [waiting] have work, and a refreshed page names the roots it has seen. *)
Inductive sched_event :=
| TurnGiven (root : CeremonyId) (waiting : gset string)
| PageObserved (roots : gset string).

(** The roots that have work. *)
Definition with_work (roots : gmap string CeremonyWorkerRootQueue) : gset string :=
  dom (filter (λ x, q_pending x.2 ≠ []) roots).

Lemma elem_of_with_work roots k : k ∈ with_work roots ↔ ∃ q, roots !! k = Some q ∧ q_pending q ≠ [].
Proof.
  unfold with_work. rewrite elem_of_dom. split.
  - intros [q [Hq Hp]%map_lookup_filter_Some]. eauto.
  - intros (q & Hq & Hp). exists q. by apply map_lookup_filter_Some.
Qed.

(** The turns the loop of [dispatch] gives, step for step. *)
Fixpoint dispatch_turns (fuel : nat) (s : CeremonyWorkerScheduler) (slots : nat) (used : Z) : list sched_event :=
  match slots, fuel with
  | O, _ | _, O => []
  | S slots', S fuel =>
      let remaining := Z.max 0 (sp_capacity (sc_policy s) - used) in
      let keys := btree_keys (sc_roots s) in
      if Nat.eqb (length keys) 0 || negb (any_fits_capacity s remaining) then [] else
      match match sc_active_root s with
            | Some root => Some ([], root, s)
            | None => '(root, s1) ← start_turn s keys remaining;
                      Some ([TurnGiven root (with_work (sc_roots s))], root, s1 <| sc_active_root := Some root |>)
            end with
      | None => []
      | Some (given, root, s) =>
          match dispatch_root s root keys remaining with
          | Ok (None, s) => given ++ dispatch_turns fuel s slots used
          | Ok (Some p, s) =>
              given ++ dispatch_turns fuel s slots' (u32_saturating_add used (rq_requested_capacity p.2))
          | _ => given
          end
      end
  end.

Definition schedule_turns (s : CeremonyWorkerScheduler) (requests : list CeremonyWorkerScheduleRequest)
    : list sched_event :=
  let s := sort_queues (submit_all s requests).2 in
  if sc_draining s then []
  else dispatch_turns (dispatch_fuel s) s (Z.to_nat (sp_max_parallel (sc_policy s))) 0.

(** The scheduler [refresh] hands to [schedule]. *)
Definition observed (requests : list CeremonyWorkerScheduleRequest) : gset string :=
  list_to_set (List.map rq_root_id requests).

Definition cleared (s : CeremonyWorkerScheduler) (requests : list CeremonyWorkerScheduleRequest)
    : CeremonyWorkerScheduler :=
  let roots := filter (λ e, e.1 ∈ observed requests) ((λ q, q <| q_pending := [] |>) <$> sc_roots s) in
  s <| sc_roots := roots |>
    <| sc_active_root := option_keep (λ root, is_some (roots !! root)) (sc_active_root s) |>.

Lemma refresh_cleared s requests : refresh s requests = schedule (cleared s requests) requests.
Proof. done. Qed.

(** How many turns a root with work was passed over in a row: since it was last
    given a turn, or was missing from a refreshed page. *)
Definition pass (k : CeremonyId) (n : Z) (e : sched_event) : Z :=
  match e with
  | TurnGiven root waiting => if bool_decide (k = root) then 0 else if bool_decide (k ∈ waiting) then n + 1 else n
  | PageObserved roots => if bool_decide (k ∈ roots) then n else 0
  end.

Definition passed_over (k : CeremonyId) (log : list sched_event) : Z := foldl (pass k) 0 log.

(** The scheduler knows how often it passed over a root. *)
Record tracks (k : CeremonyId) (s : CeremonyWorkerScheduler) (n : Z) : Prop := {
  trk_waiting : ∀ q, sc_roots s !! k = Some q → q_waiting_turns q = Z.min u64_max n;
  trk_gone : sc_roots s !! k = None → n = 0;
  trk_active : sc_active_root s = Some k → n = 0;
  trk_pos : 0 ≤ n;
}.

Lemma tracks_turn k s keys remaining root s' n : sc_active_root s = None →
  start_turn s keys remaining = Some (root, s') → tracks k s n →
  tracks k (s' <| sc_active_root := Some root |>) (pass k n (TurnGiven root (with_work (sc_roots s)))).
Proof.
  intros Ha Hs [Hw Hg _ Hn]. unfold start_turn in Hs. apply bind_Some in Hs as (chosen & _ & Hs).
  apply bind_Some in Hs as ([root' e] & _ & Hs). apply bind_Some in Hs as (q & Hq & [= -> <-]).
  fold (turn_given root q (sc_roots s)). cbn [pass]. split; cbn.
  - intros q'. rewrite turn_given_lookup. case_bool_decide as Hk; [by intros [= <-]|].
    destruct (sc_roots s !! k) as [q0|] eqn:Hq0; cbn; [|done]. intros [= <-]. specialize (Hw _ eq_refl).
    unfold wait_a_turn. rewrite (proj2 (eqb_false k root) Hk). cbn [negb andb].
    destruct (q_pending q0) as [|p l] eqn:Hp; cbn [length Nat.eqb negb].
    + rewrite bool_decide_eq_false_2; [done|]. intros (q1 & Hq1 & Hne)%elem_of_with_work. congruence.
    + rewrite bool_decide_eq_true_2; [cbn; rewrite Hw; unfold u64_saturating_add, u64_max; lia|].
      apply elem_of_with_work. exists q0. by rewrite Hp.
  - rewrite turn_given_lookup. case_bool_decide as Hk; [done|]. intros Hnone%fmap_None.
    rewrite bool_decide_eq_false_2; [by apply Hg|]. intros (q1 & Hq1 & _)%elem_of_with_work. congruence.
  - intros [= ->]. by rewrite bool_decide_eq_true_2.
  - repeat case_bool_decide; lia.
Qed.

Lemma tracks_served k s root keys remaining out s' n : sc_active_root s = Some root →
  dispatch_root s root keys remaining = Ok (out, s') → tracks k s n → tracks k s' n.
Proof.
  intros Ha Hd [Hw Hg Hact Hn]. destruct (sc_roots s !! root) as [q|] eqn:Hq.
  2: { unfold dispatch_root in Hd. by rewrite Hq in Hd. }
  destruct (dispatch_root_served s root keys remaining q Hq) as (out' & s1 & Hd' & Hs).
  rewrite Hd in Hd'. injection Hd' as <- <-.
  destruct Hs as [s' _ Hr Hnone _|p s' _ _ _ _ Hr Hnone|p l1 l2 s' _ _ _ _ _ Hr Hact']; split; try done; rewrite ?Hr.
  - done.
  - done.
  - by rewrite Hnone.
  - intros q' [_ Hk]%lookup_delete_Some. by apply Hw.
  - intros [->|Hk]%lookup_delete_None; [by apply Hact|by apply Hg].
  - by rewrite Hnone.
  - intros q' [[<- <-]|[_ Hk]]%lookup_insert_Some; [by apply (Hw q)|by apply Hw].
  - intros [Hk _]%lookup_insert_None. by apply Hg.
  - destruct Hact' as [->|[-> _]]; [done|by intros].
Qed.

Lemma tracks_loop k fuel : ∀ s slots used l s' n, dispatch_loop fuel s slots used = Ok (l, s') →
  tracks k s n → tracks k s' (foldl (pass k) n (dispatch_turns fuel s slots used)).
Proof.
  induction fuel as [|fuel IH]; intros s [|slots] used l s' n Hd Ht; cbn [dispatch_loop dispatch_turns] in *;
    [by injection Hd as <- <-|done|by injection Hd as <- <-|].
  destruct (_ || _); [by injection Hd as <- <-|].
  set (remaining := Z.max 0 _) in *. set (keys := btree_keys _) in *.
  assert (∀ given root s1, sc_active_root s1 = Some root → tracks k s1 (foldl (pass k) n given) →
    ('(selected, s) ← dispatch_root s1 root keys remaining;
     match selected with
     | None => dispatch_loop fuel s (S slots) used
     | Some p => '(rest, s) ← dispatch_loop fuel s slots (u32_saturating_add used (rq_requested_capacity p.2));
                 Ok (p :: rest, s)
     end) = Ok (l, s') →
    tracks k s' (foldl (pass k) n (match dispatch_root s1 root keys remaining with
      | Ok (None, s) => given ++ dispatch_turns fuel s (S slots) used
      | Ok (Some p, s) =>
          given ++ dispatch_turns fuel s slots (u32_saturating_add used (rq_requested_capacity p.2))
      | _ => given
      end))) as Hgo.
  { intros given root s1 Ha Ht1 Hd1. destruct (dispatch_root s1 root keys remaining) as [[out s2]|e|] eqn:Hr; [|done..].
    pose proof (tracks_served _ _ _ _ _ _ _ _ Ha Hr Ht1) as Ht2. cbn [mbind result_bind] in Hd1.
    destruct out as [p|]; rewrite foldl_app; [|by eapply IH].
    destruct (dispatch_loop fuel s2 slots _) as [[rest s3]|e|] eqn:Hl; [|done..]. injection Hd1 as _ <-. by eapply IH. }
  destruct (sc_active_root s) as [root|] eqn:Ha; [by apply (Hgo [] root s)|].
  destruct (start_turn s keys remaining) as [[root s1]|] eqn:Hs; cbn [mbind option_bind] in Hd |- *.
  - apply Hgo; [done| |done]. by eapply tracks_turn.
  - by injection Hd as <- <-.
Qed.

Lemma tracks_submit k requests : ∀ s n, tracks k s n → tracks k (submit_all s requests).2 n.
Proof.
  induction requests as [|r requests IH]; intros s n Ht; cbn; [done|].
  pose proof (submit_submitted s r) as Hsub. destruct (submit_request s r) as [out s1]. cbn [fst snd] in Hsub.
  assert (tracks k s1 n) as Ht1.
  { destruct Ht as [Hw Hg Ha Hn], Hsub as [d _ _|m _ _ _]; split; cbn; try done.
    - intros q [[Hk <-]|[_ Hk]]%lookup_insert_Some; [|by apply Hw]. unfold queue_for. cbn. rewrite Hk.
      destruct (sc_roots s !! k) as [q|] eqn:Hq; cbn; [by apply Hw|]. by rewrite (Hg eq_refl).
    - intros [Hk _]%lookup_insert_None. by apply Hg. }
  specialize (IH s1 n Ht1). destruct (submit_all s1 requests) as [[? ?] s2]. by destruct out.
Qed.

Lemma tracks_schedule k s requests sch s' n : schedule s requests = Ok (sch, s') → tracks k s n →
  tracks k s' (foldl (pass k) n (schedule_turns s requests)).
Proof.
  unfold schedule, schedule_turns. intros Hs Ht. apply (tracks_submit k requests) in Ht.
  destruct (submit_all s requests) as [[deferred queued] s1]. cbn [snd] in *.
  assert (tracks k (sort_queues s1) n) as Ht1.
  { destruct Ht as [Hw Hg Ha Hn]. split; [|cbn; rewrite lookup_fmap, fmap_None; exact Hg|done|done].
    intros q (q0 & Hq0 & ->)%sort_queues_lookup. exact (Hw q0 Hq0). }
  set (m := foldl _ _ _).
  assert (∀ l s2, (if sc_draining (sort_queues s1) then Ok ([], sort_queues s1) else dispatch (sort_queues s1)) = Ok (l, s2) →
    tracks k s2 m) as Hrun.
  { unfold m. intros l s2. destruct (sc_draining _); [by intros [= _ <-]|]. intros Hd. by eapply tracks_loop. }
  destruct (if sc_draining _ then _ else _) as [[l s2]|e|]; [|done..]. cbn [mbind result_bind] in Hs.
  destruct (Hrun l s2 eq_refl) as [Hw Hg Ha Hn].
  destruct (decide_each s2 _ AdmittedNow) as [admitted s3] eqn:Hadm.
  destruct (decide_each s3 _ Backpressure) as [delayed s4] eqn:Hdel. injection Hs as _ <-.
  apply decide_each_ok in Hadm as (_ & _ & Hs3). apply decide_each_ok in Hdel as (_ & _ & ->).
  rewrite Hs3. by split.
Qed.

Lemma tracks_cleared k s requests n : tracks k s n →
  tracks k (cleared s requests) (pass k n (PageObserved (observed requests))).
Proof.
  intros [Hw Hg Ha Hn]. cbn [pass]. split; cbn.
  - intros q [Hk Ho]%map_lookup_filter_Some. cbn in Ho. rewrite bool_decide_eq_true_2 by done.
    rewrite lookup_fmap in Hk. destruct (sc_roots s !! k) as [q0|]; [|done]. injection Hk as <-. exact (Hw q0 eq_refl).
  - intros Hk. case_bool_decide as Ho; [|done]. apply Hg. apply map_lookup_filter_None in Hk as [Hk|Hk].
    + by rewrite lookup_fmap, fmap_None in Hk.
    + destruct (sc_roots s !! k) as [q0|] eqn:Hq; [|done]. exfalso.
      apply (Hk (q0 <| q_pending := [] |>)); [by rewrite lookup_fmap, Hq|done].
  - intros [Hact _]%option_keep_Some. rewrite (Ha Hact). by case_bool_decide.
  - case_bool_decide; lia.
Qed.

(** ** Histories *)

Section History.
Context (policy : CeremonyWorkerSchedulerPolicy) (R : gset string).

(** A request of a known root that asks for no more than its share. *)
Definition modest (r : CeremonyWorkerScheduleRequest) : Prop :=
  request_valid r ∧ rq_root_id r ∈ R ∧
  rq_requested_capacity r * sp_max_parallel policy ≤ sp_capacity policy.

(** The schedulers built by calls with such requests, with the turns they gave;
    [refreshes] tells whether pages were refreshed in between. *)
Inductive history (refreshes : bool) : CeremonyWorkerScheduler → list sched_event → Prop :=
| history_new : history refreshes (Scheduler_new policy) []
| history_schedule s log requests sch s' :
    history refreshes s log → Forall modest requests → schedule s requests = Ok (sch, s') →
    history refreshes s' (log ++ schedule_turns s requests)
| history_refresh s log requests sch s' :
    refreshes = true → history refreshes s log → Forall modest requests → refresh s requests = Ok (sch, s') →
    history refreshes s' (log ++ PageObserved (observed requests) :: schedule_turns (cleared s requests) requests)
| history_drain s log draining : history refreshes s log → history refreshes (set_draining s draining) log.

(** What is true of all of them, and of the deficits where no page was refreshed. *)
Record orderly (refreshes : bool) (s : CeremonyWorkerScheduler) : Prop := {
  ord_policy : sc_policy s = policy;
  ord_ok : scheduler_ok s;
  ord_light : light s;
  ord_fair : fair R s;
  ord_solvent : refreshes = false → solvent s;
}.

Lemma orderly_turn refreshes s remaining root s1 q out s2 : orderly refreshes s →
  share policy ≤ remaining → turn s remaining root s1 → sc_roots s1 !! root = Some q →
  served s1 root q remaining out s2 → orderly refreshes s2.
Proof.
  intros [Hpol Hok Hlight Hfair Hsol] Hrem Ht Hl Hs. rewrite <-Hpol in Hrem.
  destruct (turn_ok _ _ _ _ Hok Ht) as (Hok1 & (Hpol1 & _) & Hact & _).
  destruct (served_ok _ _ _ _ _ _ Hok1 Hact Hl Hs) as [Hok2 (Hpol2 & _)].
  pose proof (served_work _ _ _ _ _ _ Hl Hs) as Hw.
  assert (light s1) as Hlight1 by (apply (light_same s); [done|by rewrite (turn_work _ _ _ _ Ht)|done]).
  split; [congruence|done| | |].
  - apply (light_same s1); [done| |done]. rewrite Hw. set_solver.
  - eapply served_fair; [done| |done]. by apply (turn_fair R s remaining root).
  - intros Hr. assert (solvent s1) by (eapply turn_solvent; [exact Hok|by apply Hsol|done]).
    eapply (served_solvent s1 root q remaining); [done|done| |done|done|done|done]. by rewrite Hpol1.
Qed.

Lemma orderly_rounds refreshes slots used s l s' : rounds slots used s l s' → orderly refreshes s →
  0 ≤ used → used + Z.of_nat slots * share policy ≤ sp_capacity policy → orderly refreshes s'.
Proof.
  induction 1 as [| |slots used s root s1 q s2 l s3 Ht Hl Hs _ IH|slots used s root s1 q p s2 l s3 Ht Hl Hs _ IH];
    intros Ho Hu Hroom; [done|done|..].
  all: pose proof Ho as [Hpol Hok Hlight _ _]; rewrite Hpol in Ht, Hs;
    assert (0 ≤ share policy) as Hshare0
      by (rewrite <-Hpol; destruct (sok_policy _ Hok); apply Z.div_pos; lia);
    assert (share policy ≤ Z.max 0 (sp_capacity policy - used)) as Hshare by nia;
    pose proof (orderly_turn _ _ _ _ _ _ _ _ Ho Hshare Ht Hl Hs) as Ho2.
  - by apply IH.
  - assert (p ∈ work (sc_roots s)) as Hp.
    { rewrite <-(turn_work _ _ _ _ Ht), (served_work _ _ _ _ _ _ Hl Hs). by left. }
    pose proof (Hlight p Hp) as Hle. rewrite Hpol in Hle.
    assert (1 ≤ rq_requested_capacity p.2) as Hone.
    { apply elem_of_work in Hp as (k & q' & Hk & Hp). destruct (sok_queues _ Hok _ _ Hk) as [_ _ _ _ Hall].
      rewrite Forall_forall in Hall. destruct (Hall p Hp). lia. }
    apply IH; [done|unfold u32_saturating_add, u32_max; lia|]. unfold u32_saturating_add. nia.
Qed.

Lemma share_spec n : 1 ≤ sp_max_parallel policy → n * sp_max_parallel policy ≤ sp_capacity policy →
  n ≤ share policy.
Proof. intros ? ?. unfold share. apply Z.div_le_lower_bound; lia. Qed.

Lemma orderly_submitted refreshes s r out s' : orderly refreshes s → modest r → submitted s r out s' →
  orderly refreshes s'.
Proof.
  intros [Hpol Hok Hlight Hfair Hsol] (Hv & HR & Hmod) Hsub.
  destruct (submitted_ok _ _ _ _ Hok Hv Hsub) as (Hok' & Hpol' & _).
  pose proof (submitted_work _ _ _ _ Hsub) as Hw. destruct (sok_policy _ Hok) as [Hpar Hcap].
  rewrite Hpol in Hpar, Hcap. pose proof (fair_roots _ _ Hfair) as Hdom.
  split; [congruence|done| | |].
  - intros p Hp. rewrite Hpol', Hpol. apply (list_elem_of_fmap_2 snd) in Hp. rewrite Hw in Hp.
    apply elem_of_app in Hp as [(p' & -> & Hp')%list_elem_of_fmap|Hp].
    + rewrite <-Hpol. by apply Hlight.
    + destruct out; [by apply not_elem_of_nil in Hp|]. apply list_elem_of_singleton in Hp as ->.
      apply share_spec; lia.
  - apply (fair_less R s); [done|..]; destruct Hsub as [d _ _|n _ _ _]; cbn.
    + done.
    + rewrite dom_insert. set_solver.
    + intros k q' Hk _. by exists q'.
    + intros k q' [[<- <-]|[_ Hk]]%lookup_insert_Some Hhigh; [|by exists q'].
      unfold queue_for in *. destruct (sc_roots s !! rq_root_id r) as [q|]; [by exists q|].
      exfalso. destruct Hv. unfold effective_priority, u64_saturating_add in Hhigh. cbn in Hhigh. lia.
  - intros Hr. specialize (Hsol Hr). destruct Hsub as [d _ _|n _ _ _]; [done|].
    intros k q'; cbn; intros [[<- <-]|[_ Hk]]%lookup_insert_Some; [|by apply Hsol]. cbn. split; [by destruct (q_pending _)|].
    unfold queue_for. destruct (sc_roots s !! rq_root_id r) as [q|] eqn:Hl; [by apply Hsol|]. cbn.
    destruct Hv. rewrite Hpol. destruct (_ == _); lia.
Qed.

Lemma orderly_submit_all refreshes requests : ∀ s, orderly refreshes s → Forall modest requests →
  orderly refreshes (submit_all s requests).2.
Proof.
  induction requests as [|r requests IH]; intros s Ho Hm; cbn; [done|].
  apply Forall_cons in Hm as [Hr Hm]. pose proof (submit_submitted s r) as Hsub.
  destruct (submit_request s r) as [out s1]. pose proof (IH s1 (orderly_submitted _ _ _ _ _ Ho Hr Hsub) Hm) as Ho2.
  destruct (submit_all s1 requests) as [[? ?] s2]. by destruct out.
Qed.

Lemma orderly_sort refreshes s : orderly refreshes s → orderly refreshes (sort_queues s).
Proof.
  intros [Hpol Hok Hlight Hfair Hsol]. split; [done|by apply sort_queues_ok| | |].
  - apply (light_same s); [done|cbn; by rewrite work_sorted|done].
  - apply (fair_less R s); [done|cbn; rewrite dom_fmap; apply (fair_roots _ _ Hfair)|].
    intros k q' (q & Hq & ->)%sort_queues_lookup _. by exists q.
  - intros Hr k q' (q & Hq & ->)%sort_queues_lookup. destruct (Hsol Hr k q Hq) as [Hp Hd]. cbn. split; [|done].
    intros Hnil. apply Hp, Permutation_nil. by rewrite <-Hnil, merge_sort_Permutation.
Qed.

Lemma orderly_schedule refreshes s requests sch s' : orderly refreshes s → Forall modest requests →
  schedule s requests = Ok (sch, s') → orderly refreshes s'.
Proof.
  intros Ho Hm Hs. pose proof Ho as [Hpol Hok _ _ _].
  assert (Forall request_valid requests) as Hv by (eapply Forall_impl; [done|]; by intros r []).
  destruct (schedule_runs _ _ Hok Hv) as (sch' & s1 & refused & queued & l & delayed & Hs' & Hsch & _).
  rewrite Hs in Hs'. injection Hs' as <- <-. destruct Hsch as [refused queued s1 l s2 n Hall Hrun].
  pose proof (orderly_submit_all _ _ _ Ho Hm) as Ho1. rewrite Hall in Ho1. apply orderly_sort in Ho1.
  assert (orderly refreshes s2) as [H1 H2 H3 H4 H5].
  { destruct (sc_draining s); [by destruct Hrun as [_ ->]|].
    eapply orderly_rounds; [done|done|done|]. destruct (sok_policy _ Hok) as [Hpar Hcap].
    rewrite Hpol in *. unfold share. rewrite Z2Nat.id, Z.add_0_l by lia. apply Z.mul_div_le. lia. }
  split; [done|by apply scheduler_ok_sequence|exact H3|by destruct H4|exact H5].
Qed.

(** The page is cleared: nothing waits, and the roots seen again keep their place. *)
Lemma orderly_cleared s (observed : gset string) active : orderly true s →
  let roots := filter (λ e, e.1 ∈ observed) ((λ q, q <| q_pending := [] |>) <$> sc_roots s) in
  (∀ root, active = Some root → is_Some (roots !! root)) →
  orderly true (s <| sc_roots := roots |> <| sc_active_root := active |>).
Proof.
  intros [Hpol [Hp Hq _] Hlight Hfair _] roots Hactive.
  assert (∀ k q', roots !! k = Some q' → ∃ q, sc_roots s !! k = Some q ∧ q' = q <| q_pending := [] |>) as Hk.
  { intros k q' [Hk _]%map_lookup_filter_Some. rewrite lookup_fmap in Hk.
    destruct (sc_roots s !! k) as [q|]; [|done]. injection Hk as <-. eauto. }
  split; [done| | | |done].
  - split; cbn; [done| |done]. intros k q' (q & Hl & ->)%Hk. pose proof (Hq _ _ Hl) as Hok. destruct Hok.
    apply (queue_ok_less _ _ q); cbn; try done; set_solver.
  - intros p (k & q' & (q & _ & ->)%Hk & Hin)%elem_of_work. by apply not_elem_of_nil in Hin.
  - apply (fair_less R s); [done|cbn|].
    + intros k [q' (q & Hl & _)%Hk]%elem_of_dom. apply (fair_roots _ _ Hfair), elem_of_dom. eauto.
    + intros k q' (q & Hl & ->)%Hk _. by exists q.
Qed.

Lemma orderly_history refreshes s log : policy_ok policy → history refreshes s log → orderly refreshes s.
Proof.
  intros Hp H. induction H as [|s log requests sch s' _ IH Hm Hs|s log requests sch s' -> _ IH Hm Hs|s log draining _ IH].
  - split; [done|by split| | |done].
    + intros p (k & q & Hk & _)%elem_of_work. cbn in Hk. by rewrite lookup_empty in Hk.
    + apply fair_intro; [set_solver|]. intros m. unfold climbers, high. cbn.
      rewrite map_filter_empty, dom_empty_L, size_empty. lia.
  - by eapply orderly_schedule.
  - unfold refresh in Hs. eapply orderly_schedule; [|done|exact Hs]. apply orderly_cleared; [done|].
    intros root [_ Hr]%option_keep_Some. by apply is_some_true in Hr.
  - destruct IH as [H1 [] H3 [] H5]. by split.
Qed.

Lemma tracks_history refreshes s log k : history refreshes s log → tracks k s (passed_over k log).
Proof.
  unfold passed_over.
  induction 1 as [|s log requests sch s' _ IH _ Hs|s log requests sch s' _ _ IH _ Hs|s log draining _ [] ].
  - split; cbn; [|done..]. intros q. by rewrite lookup_empty.
  - rewrite foldl_app. by eapply tracks_schedule.
  - rewrite foldl_app. cbn [foldl]. eapply tracks_schedule; [by rewrite <-refresh_cleared|]. by apply tracks_cleared.
  - by split.
Qed.

(** The counter of a root never comes near the end of its range. *)
Lemma waiting_bounded refreshes s root q : Z.of_nat (size R) ≤ u32_max → orderly refreshes s →
  sc_roots s !! root = Some q → q_waiting_turns q < CeremonyWorkerPriority_MAX + Z.of_nat (size R).
Proof.
  intros HR [_ Hok _ [_ Hfair] _] Hl.
  destruct (sok_queues _ Hok _ _ Hl) as [_ Hpr _ Hw _]. specialize (Hfair (size R)).
  rewrite Nat.sub_diag in Hfair. apply Nat.le_0_r, size_empty_iff in Hfair.
  destruct (Z_lt_le_dec (effective_priority q) (CeremonyWorkerPriority_MAX + Z.of_nat (size R))) as [He|He].
  - unfold effective_priority, u64_saturating_add, u64_max, u32_max, CeremonyWorkerPriority_MAX in *. lia.
  - assert (root ∈ climbers (sc_roots s) (size R)) as Hin by (apply elem_of_high; eauto). set_solver.
Qed.
End History.

(** C23: where no request asks for more than its share of the capacity, a root that
    has work is given a turn in time: over any sequence of batches, refreshed pages
    and drainings, the number of turns in a row that went to other roots while it
    had work, counted from its last turn (or from the last refreshed page it was
    missing from, which discards it), is below the highest priority and the number
    of roots together, as long as there are fewer than 2^32 roots. *)
Theorem no_root_waits_for_ever policy R refreshes s log root :
  policy_ok policy → Z.of_nat (size R) ≤ u32_max → history policy R refreshes s log →
  passed_over root log < CeremonyWorkerPriority_MAX + Z.of_nat (size R).
Proof.
  intros Hp HR H. destruct (tracks_history _ _ _ _ _ root H) as [Hw Hg _ Hn].
  destruct (sc_roots s !! root) as [q|] eqn:Hl.
  - pose proof (waiting_bounded _ _ _ _ _ _ HR (orderly_history _ _ _ _ _ Hp H) Hl) as Hb.
    rewrite (Hw q eq_refl) in Hb. unfold u32_max, u64_max, CeremonyWorkerPriority_MAX in *. lia.
  - rewrite (Hg eq_refl). unfold CeremonyWorkerPriority_MAX. lia.
Qed.

(** And as long as no page is refreshed, no root hoards deficit: every root
    has work, and its deficit is below the capacity of the policy, which bounds
    the cost of a request, raised by its weight while it has the turn. *)
Theorem no_root_hoards_deficit policy R s log root q :
  policy_ok policy → history policy R false s log → sc_roots s !! root = Some q →
  q_pending q ≠ [] ∧
  0 ≤ q_deficit q < sp_capacity policy + (if sc_active_root s == Some root then q_weight q else 0).
Proof.
  intros Hp H Hl. destruct (orderly_history _ _ _ _ _ Hp H) as [Hpol Hok _ _ Hsol].
  pose proof (qok_deficit _ _ _ (sok_queues _ Hok _ _ Hl)).
  destruct (Hsol eq_refl _ _ Hl) as [? Hd]. rewrite Hpol in Hd. done.
Qed.

(** Three roots and room for two of their requests: the third one waits. *)
Definition three_requests : list CeremonyWorkerScheduleRequest :=
  [small_request "a" "a1" 1 3; small_request "b" "b1" 1 3; small_request "c" "c1" 1 3].

Lemma three_requests_modest : Forall (modest small_policy {["a"; "b"; "c"]}) three_requests.
Proof.
  repeat constructor; cbn; try done; set_solver.
Qed.

Lemma no_root_waits_for_ever_witness :
  ∃ sch s, schedule (Scheduler_new small_policy) three_requests = Ok (sch, s) ∧
    passed_over "c" (schedule_turns (Scheduler_new small_policy) three_requests) = 2 ∧
    passed_over "c" (schedule_turns (Scheduler_new small_policy) three_requests) < 1000 + 3.
Proof.
  do 2 eexists. split; [vm_compute; reflexivity|]. split; [vm_compute; reflexivity|].
  refine (no_root_waits_for_ever small_policy {["a"; "b"; "c"]} false _ _ "c" _ _ _).
  - split; done.
  - done.
  - refine (history_schedule _ _ _ (Scheduler_new small_policy) [] three_requests _ _ _ _ _);
      [apply history_new|exact three_requests_modest|vm_compute; reflexivity].
Defined.

Lemma no_root_hoards_deficit_witness :
  ∃ sch s q, schedule (Scheduler_new small_policy) three_requests = Ok (sch, s) ∧
    sc_roots s !! "c" = Some q ∧ q_pending q ≠ [] ∧ q_deficit q < 11.
Proof.
  do 3 eexists. split; [vm_compute; reflexivity|]. split; [vm_compute; reflexivity|].
  destruct (no_root_hoards_deficit small_policy {["a"; "b"; "c"]}
              (match schedule (Scheduler_new small_policy) three_requests with
               | Ok (_, s) => s | _ => Scheduler_new small_policy end)
              ([] ++ schedule_turns (Scheduler_new small_policy) three_requests) "c"
              (MkQueue 1 0 0 2 [(3, small_request "c" "c1" 1 3)])) as [H1 H2].
  - split; done.
  - eapply history_schedule; [apply history_new|exact three_requests_modest|vm_compute; reflexivity].
  - vm_compute. reflexivity.
  - split; [exact H1|]. vm_compute in H2. vm_compute. by destruct H2.
Defined.

(** Where requests contend for capacity the bound fails: a root that cannot spend
    its deficit because nothing of it fits any more is still given its whole
    weight at the next turn. *)
Definition contending_requests : list CeremonyWorkerScheduleRequest :=
  [small_request "a" "a1" 1000 10; small_request "a" "a2" 1000 10; small_request "a" "a3" 1000 10;
   small_request "b" "b1" 1 1; small_request "b" "b2" 1 1; small_request "b" "b3" 1 1].

Theorem contention_hoards_deficit :
  ∃ sch1 s1 sch2 s2 q, schedule (Scheduler_new small_policy) contending_requests = Ok (sch1, s1) ∧
    schedule s1 [] = Ok (sch2, s2) ∧ sc_roots s2 !! "a" = Some q ∧
    q_deficit q = 1998 ∧ sp_capacity small_policy + q_weight q < q_deficit q.
Proof. do 5 eexists. do 3 (split; [vm_compute; reflexivity|]). done. Qed.
