(* ===== verification/Executions.v ===== *)
(** * What the execution of operations guarantees

    A logic for the routines of Execution under interference, and a site on which
    any number of workers run them at once, crash, and lose the answers of their
    calls.  From them: an operation that cannot be asked about is executed at most
    once, no work starts before its intent is durable, and every worker reports
    the one receipt of an operation. *)

From S2P Require Import Prelude Errors Text Values Steps Definitions Interventions Instance.
From S2P Require Import Budget Authorization Execution.

Create HintDb quiet.

Section store.
Context {Hsha : Sha256}.

(** ** The store *)

Record store_ok (s : ExecutionReceiptStoreState) : Prop := {
  ok_intents : ∀ id fence i, rs_intents s !! (id, fence) = Some i →
    ei_operation_id i = id ∧ ei_claim_fence i = fence ∧ rs_operations s !! id = Some (ei_operation i) ∧
    intent_validate i = Ok tt;
  ok_operations : ∀ id operation, rs_operations s !! id = Some operation →
    eo_operation_id operation = id ∧ ∃ fence, is_Some (rs_intents s !! (id, fence));
  ok_requirements : ∀ id fence q, rs_requirements s !! (id, fence) = Some q →
    ∃ i, rs_intents s !! (id, fence) = Some i ∧ q = requirement_from_intent i;
  ok_receipts : ∀ id r, rs_receipts s !! id = Some r →
    xr_operation_id r = id ∧ receipt_validate r = Ok tt ∧
    ∃ i, rs_intents s !! (id, xr_producer_claim_fence r) = Some i ∧
      xr_request_digest r = eo_request_digest (ei_operation i) ∧
      xr_connector_id r = ei_connector_id i ∧ xr_recovery_capability r = ei_recovery_capability i ∧
      xr_source_kind r = ei_source_kind i;
}.

(** Rows are added and never changed. *)
Record store_grows (s s' : ExecutionReceiptStoreState) : Prop := {
  grows_operations : rs_operations s ⊆ rs_operations s';
  grows_intents : rs_intents s ⊆ rs_intents s';
  grows_requirements : rs_requirements s ⊆ rs_requirements s';
  grows_receipts : rs_receipts s ⊆ rs_receipts s';
}.

#[export] Instance store_grows_refl : Reflexive store_grows.
Proof. intros s. by split. Qed.

#[export] Instance store_grows_trans : Transitive store_grows.
Proof. intros s1 s2 s3 [] []. split; by etrans. Qed.

Lemma store_ok_empty : store_ok receipt_store_empty.
Proof. split; intros *; cbn; by rewrite lookup_empty. Qed.

(** What recording an intent does. *)
Lemma record_intent_spec s i : store_ok s →
  match record_intent s i with
  | (Ok RecordedFirst, s') => rs_operations s !! ei_operation_id i = None ∧
      is_Some (rs_operations s' !! ei_operation_id i)
  | (Ok _, s') => rs_operations s' = rs_operations s
  | (_, s') => s' = s
  end ∧
  store_ok (record_intent s i).2 ∧ store_grows s (record_intent s i).2 ∧
  (is_ok (record_intent s i).1 = true →
     rs_intents (record_intent s i).2 !! (ei_operation_id i, ei_claim_fence i) = Some i).
Proof.
  intros Hok. unfold record_intent.
  destruct (intent_validate i) as [[]| |] eqn:Hv; cbn; [|by split_and!|by split_and!].
  destruct (rs_intents s !! _) as [stored|] eqn:Hi; cbn.
  { destruct (stored == i) eqn:E; cbn; [|by split_and!]. apply eqb_true_1 in E as ->. by split_and!. }
  set (key := (ei_operation_id i, ei_claim_fence i)) in *.
  assert (∀ ops, rs_operations s ⊆ ops → ops !! ei_operation_id i = Some (ei_operation i) →
    (∀ id operation, ops !! id = Some operation → rs_operations s !! id = Some operation ∨
       id = ei_operation_id i ∧ operation = ei_operation i) →
    store_ok (MkReceiptStore ops (<[key := i]> (rs_intents s)) (rs_requirements s) (rs_receipts s)))
    as Hput.
  { intros ops Hsub Hop Hnew. destruct Hok as [H1 H2 H3 H4].
    assert (rs_intents s ⊆ <[key := i]> (rs_intents s)) as Hmore by (by apply insert_subseteq).
    split; cbn.
    - intros id fence i' [[[= <- <-] <-]|[_ Hl]]%lookup_insert_Some; [done|].
      destruct (H1 _ _ _ Hl) as (? & ? & ? & ?). split_and!; [done..| |done]. by eapply lookup_weaken.
    - intros id operation Hl. destruct (Hnew _ _ Hl) as [Hl'|[-> ->]].
      + destruct (H2 _ _ Hl') as (? & fence & i' & Hi'). split; [done|]. exists fence, i'.
        by eapply lookup_weaken.
      + split; [done|]. exists (ei_claim_fence i), i. apply lookup_insert_eq.
    - intros id fence q Hq. destruct (H3 _ _ _ Hq) as (i' & Hi' & ->). exists i'. split; [|done].
      by eapply lookup_weaken.
    - intros id r Hr. destruct (H4 _ _ Hr) as (? & ? & i' & Hi' & Hrest). split_and!; [done|done|].
      exists i'. split; [|done]. by eapply lookup_weaken. }
  destruct (rs_operations s !! ei_operation_id i) as [stored|] eqn:Ho; cbn.
  - destruct (stored == ei_operation i) eqn:E; cbn; [|by split_and!]. apply eqb_true_1 in E as ->.
    split_and!; [done| | |intros _; apply lookup_insert_eq].
    + apply Hput; [done|done|]. by left.
    + split; cbn; [done|by apply insert_subseteq|done|done].
  - split_and!; [done|by rewrite lookup_insert_eq| | |intros _; apply lookup_insert_eq].
    + apply Hput; [by apply insert_subseteq|apply lookup_insert_eq|].
      intros id operation; cbn; intros [[<- <-]|[_ Hl]]%lookup_insert_Some; [by right|by left].
    + split; cbn; [by apply insert_subseteq|by apply insert_subseteq|done|done].
Qed.

Lemma record_requirement_spec s r : store_ok s →
  store_ok (record_requirement s r).2 ∧ store_grows s (record_requirement s r).2 ∧
  (is_ok (record_requirement s r).1 = true →
     rs_requirements (record_requirement s r).2 !! (er_operation_id r, er_producer_claim_fence r) = Some r).
Proof.
  intros Hok. unfold record_requirement. destruct (rs_intents s !! _) as [i|] eqn:Hi; cbn; [|done].
  destruct (matches_intent r i) eqn:Hm; cbn; [|done]. apply eqb_true_1 in Hm.
  destruct (rs_requirements s !! _) as [stored|] eqn:Hr; cbn.
  { destruct (stored == r) eqn:E; cbn; [|done]. by apply eqb_true_1 in E as ->. }
  split_and!; [|split; cbn; [done|done|by apply insert_subseteq|done]|intros _; apply lookup_insert_eq].
  destruct Hok as [H1 H2 H3 H4]. split; cbn; try done.
  intros id fence q [[[= <- <-] <-]|[_ Hl]]%lookup_insert_Some; [by exists i|by apply H3].
Qed.

Lemma record_receipt_spec s r : store_ok s →
  store_ok (record_receipt s r).2 ∧ store_grows s (record_receipt s r).2 ∧
  (is_ok (record_receipt s r).1 = true → rs_receipts (record_receipt s r).2 !! xr_operation_id r = Some r).
Proof.
  intros Hok. unfold record_receipt. destruct (receipt_validate r) as [[]| |] eqn:Hv; cbn; [|done|done].
  destruct (rs_operations s !! xr_operation_id r) as [operation|] eqn:Ho; cbn; [|done].
  destruct (rs_intents s !! _) as [i|] eqn:Hi; cbn; [|done].
  destruct (_ && _) eqn:Hc; cbn; [|done]. rewrite !andb_true_iff in Hc. destruct Hc as [[[Hd Hcn] Hcap] Hsrc].
  apply eqb_true_1 in Hd, Hcn, Hcap, Hsrc.
  destruct (rs_receipts s !! xr_operation_id r) as [stored|] eqn:Hr; cbn.
  { destruct (stored == r) eqn:E; cbn; [|done]. by apply eqb_true_1 in E as ->. }
  split_and!; [|split; cbn; [done|done|done|by apply insert_subseteq]|intros _; apply lookup_insert_eq].
  destruct Hok as [H1 H2 H3 H4]. split; cbn; try done.
  intros id r' [[<- <-]|[_ Hl]]%lookup_insert_Some; [|by apply H4]. split_and!; [done|done|].
  destruct (H1 _ _ _ Hi) as (_ & _ & Hop & _). exists i. split; [done|]. split_and!; congruence.
Qed.

Lemma store_action_ok {X} (a : Action X) s ans s' : store_ok s → store_action a s = Some (ans, s') →
  store_ok s' ∧ store_grows s s'.
Proof.
  intros Hok. destruct a as [| | | | |i|q|r| | | | | | |]; cbn; intros Heq; try discriminate Heq;
    try (injection Heq as <- <-; done).
  - destruct (record_intent_spec s i Hok) as (_ & ? & ? & _). injection Heq as Hr. by rewrite Hr in *.
  - destruct (record_requirement_spec s q Hok) as (? & ? & _). injection Heq as Hr. by rewrite Hr in *.
  - assert (record_receipt s r = (ans, s')) as Hr by congruence.
    destruct (record_receipt_spec s r Hok) as (? & ? & _). by rewrite Hr in *.
Qed.
End store.

(** ** The logic *)

(** What is wanted of an operation [o]: only the worker that recorded its first
    intent may have a connector that cannot be asked execute it. *)
Section logic.
Context {Hsha : Sha256} {Hreq : RequestSerde}.
Context (o : string).

(** The call of a connector that executes [o] and cannot be asked about it. *)
Definition spends {X} (a : Action X) : bool :=
  match a with
  | Execute c r => (ei_operation_id (xq_intent r) == o) && (cn_recovery_capability c == ReconciliationRequired)
  | _ => false
  end.

(** The answer that licenses it. *)
Definition licenses {X} (a : Action X) : outcome X → bool :=
  match a with
  | PutIntent i => λ r, (ei_operation_id i == o) && match r with Ok RecordedFirst => true | _ => false end
  | _ => λ _, false
  end.

(** What must hold when an action is taken. *)
Definition permitted (s : ExecutionReceiptStoreState) (licence : bool) {X} (a : Action X) : Prop :=
  match a with
  | Execute c r =>
      rs_intents s !! (ei_operation_id (xq_intent r), ei_claim_fence (xq_intent r)) = Some (xq_intent r) ∧
      (spends a = true → licence = true)
  | _ => True
  end.

(** Between two actions other workers may have used the store; the answer of a
    store action may be lost, before or after it took effect. *)
Fixpoint wpj {A} (p : job A) (s : ExecutionReceiptStoreState) (licence : bool)
    (Q : A → ExecutionReceiptStoreState → bool → Prop) : Prop :=
  match p with
  | Finish a => Q a s licence
  | Do a k =>
      ∀ s1, store_grows s s1 → store_ok s1 → permitted s1 licence a ∧
        match store_action a s1 with
        | Some (r, s2) =>
            wpj (k r) s2 (licence || licenses a r) Q ∧
            (∀ e, wpj (k (Err e)) s1 licence Q) ∧ (∀ e, wpj (k (Err e)) s2 licence Q)
        | None => ∀ r, wpj (k r) s1 (licence && negb (spends a)) Q
        end
  end.

Lemma wpj_conseq {A} (p : job A) s licence (Q Q' : A → ExecutionReceiptStoreState → bool → Prop) :
  (∀ a s' l, Q a s' l → Q' a s' l) → wpj p s licence Q → wpj p s licence Q'.
Proof using.
  intros HQ. revert s licence. induction p as [a|X a k IH]; intros s licence Hp; cbn in *; [by apply HQ|].
  intros s1 Hg Hok. destruct (Hp s1 Hg Hok) as [Hperm Hk]. split; [done|].
  destruct (store_action a s1) as [[r s2]|]; [|by intros r; apply IH].
  destruct Hk as (H1 & H2 & H3). split_and!; [by apply IH|by intros; apply IH|by intros; apply IH].
Qed.

Lemma wpj_bind {A B} (p : job A) (f : A → job B) s licence Q :
  wpj p s licence (λ a s' l, wpj (f a) s' l Q) → wpj (job_bind p f) s licence Q.
Proof using.
  revert s licence. induction p as [a|X a k IH]; intros s licence Hp; cbn in *; [done|].
  intros s1 Hg Hok. destruct (Hp s1 Hg Hok) as [Hperm Hk]. split; [done|].
  destruct (store_action a s1) as [[r s2]|]; [|by intros r; apply IH].
  destruct Hk as (H1 & H2 & H3). split_and!; [by apply IH|by intros; apply IH|by intros; apply IH].
Qed.

Lemma wpj_grows {A} (p : job A) s s' licence (Q : A → ExecutionReceiptStoreState → bool → Prop) :
  (∀ a s s' l, store_grows s s' → Q a s l → Q a s' l) → store_grows s s' → wpj p s licence Q → wpj p s' licence Q.
Proof using.
  intros HQ Hg. destruct p as [a|X a k]; cbn; [by apply HQ|].
  intros Hp s1 Hg1. apply Hp. by trans s'.
Qed.

(** A routine, of which only the results matter. *)
Definition wpr {A} (p : routine A) s licence (Q : A → ExecutionReceiptStoreState → bool → Prop) : Prop :=
  wpj p s licence (λ r s' l, match r with Ok a => Q a s' l | _ => True end).

Lemma wpr_bind {A B} (p : routine A) (f : A → routine B) s licence Q :
  wpr p s licence (λ a s' l, wpr (f a) s' l Q) → wpr (p ≫= f) s licence Q.
Proof using.
  intros Hp. apply wpj_bind. eapply wpj_conseq; [|exact Hp]. by intros [a|e|] s' l.
Qed.

Lemma wpr_conseq {A} (p : routine A) s licence (Q Q' : A → ExecutionReceiptStoreState → bool → Prop) :
  wpr p s licence Q → (∀ a s' l, Q a s' l → Q' a s' l) → wpr p s licence Q'.
Proof using. intros Hp HQ. eapply wpj_conseq; [|exact Hp]. intros [a|e|]; eauto. Qed.

Lemma wpr_ret {A} (a : A) s licence (Q : A → ExecutionReceiptStoreState → bool → Prop) :
  Q a s licence → wpr (mret (M := routine) a) s licence Q.
Proof using. done. Qed.

Lemma wpr_settle {A} (r : outcome A) s licence (Q : A → ExecutionReceiptStoreState → bool → Prop) :
  (∀ a, r = Ok a → Q a s licence) → wpr (settle r) s licence Q.
Proof using. intros HQ. destruct r; cbn; auto. Qed.

Lemma wpr_store {X} (a : Action X) s licence (Q : X → ExecutionReceiptStoreState → bool → Prop) :
  is_some (store_action a receipt_store_empty) = true →
  (∀ s1 x s2, store_grows s s1 → store_ok s1 → store_action a s1 = Some (Ok x, s2) → store_ok s2 → store_grows s s2 →
     Q x s2 (licence || licenses a (Ok x))) →
  wpr (perform a) s licence Q.
Proof using.
  intros Hstore HQ s1 Hg Hok. split; [by destruct a|].
  destruct (store_action a s1) as [[r s2]|] eqn:Ha; [|by destruct a].
  destruct (store_action_ok _ _ _ _ Hok Ha) as [Hok2 Hg2]. split; [|done].
  destruct r as [x|e|]; cbn; [|done|done]. apply (HQ s1); [done|done|done|done|by trans s1].
Qed.

Lemma wpr_outside {X} (a : Action X) s licence (Q : X → ExecutionReceiptStoreState → bool → Prop) :
  is_some (store_action a receipt_store_empty) = false →
  (∀ s1, store_grows s s1 → store_ok s1 → permitted s1 licence a) →
  (∀ s1 x, store_grows s s1 → store_ok s1 → Q x s1 (licence && negb (spends a))) →
  wpr (perform a) s licence Q.
Proof using.
  intros Hstore Hperm HQ s1 Hg Hok. split; [by apply Hperm|].
  destruct (store_action a s1) as [[r s2]|] eqn:Ha; [by destruct a|]. intros [x|e|]; cbn; auto.
Qed.
(** ** The routines *)

(** A routine that leaves the licence alone. *)
Definition quiet {A} (p : routine A) : Prop :=
  ∀ s licence, wpr p s licence (λ _ s' l, store_grows s s' ∧ l = licence).

Lemma quiet_then {A B} (p : routine A) (f : A → routine B) s licence Q :
  quiet p → (∀ a s', store_grows s s' → wpr (f a) s' licence Q) → wpr (p ≫= f) s licence Q.
Proof using.
  intros Hp Hf. apply wpr_bind. eapply wpr_conseq; [apply Hp|]. intros a s' l [Hg ->]. by apply Hf.
Qed.

Lemma quiet_bind {A B} (p : routine A) (f : A → routine B) :
  quiet p → (∀ a, quiet (f a)) → quiet (p ≫= f).
Proof using.
  intros Hp Hf s licence. apply quiet_then; [done|]. intros a s' Hg.
  eapply wpr_conseq; [apply Hf|]. intros b s2 l [Hg2 ->]. split; [by trans s'|done].
Qed.

Lemma quiet_ret {A} (a : A) : quiet (mret (M := routine) a).
Proof using. intros s licence. by apply wpr_ret. Qed.

Lemma quiet_settle {A} (r : outcome A) : quiet (settle r).
Proof using. intros s licence. by apply wpr_settle. Qed.

Lemma quiet_store {X} (a : Action X) : is_some (store_action a receipt_store_empty) = true →
  (∀ x, licenses a (Ok x) = false) → quiet (perform a).
Proof using.
  intros Ha Hl s licence. apply wpr_store; [done|]. intros s1 x s2 _ _ _ _ Hg. rewrite Hl, orb_false_r. done.
Qed.

Lemma quiet_outside {X} (a : Action X) : is_some (store_action a receipt_store_empty) = false →
  spends a = false → (∀ s licence, permitted s licence a) → quiet (perform a).
Proof using.
  intros Ha Hs Hp s licence. apply wpr_outside; [done|auto|]. intros s1 x Hg _. rewrite Hs, andb_true_r. done.
Qed.
Hint Resolve quiet_bind quiet_ret quiet_settle quiet_store quiet_outside : quiet.
Hint Extern 0 (_ = _) => reflexivity : quiet.
Hint Extern 0 (permitted _ _ _) => exact I : quiet.

Lemma quiet_verify artifacts r : quiet (verify_receipt_artifacts artifacts r).
Proof using. unfold verify_receipt_artifacts. destruct (Nat.eqb _ _); auto with quiet. Qed.
Hint Resolve quiet_verify : quiet.

Lemma quiet_existing artifacts id : quiet (existing_receipt artifacts id).
Proof using. apply quiet_bind; [auto with quiet|]. intros [r|]; auto with quiet. Qed.

Lemma quiet_required i : quiet (reconciliation_required i).
Proof using. apply quiet_bind; [auto with quiet|]. intros [r|]; auto with quiet. Qed.

Lemma quiet_record i id : quiet (record_reconciliation_required i id).
Proof using. unfold record_reconciliation_required. auto with quiet. Qed.
Hint Resolve quiet_existing quiet_required quiet_record : quiet.

Lemma quiet_ambiguous connector id l : quiet (record_ambiguous connector id l).
Proof using. induction l as [|i l IH]; cbn [record_ambiguous]; auto with quiet. Qed.
Hint Resolve quiet_ambiguous : quiet.

Lemma quiet_prior connector id : quiet (record_prior_non_queryable_ambiguity connector id).
Proof using. unfold record_prior_non_queryable_ambiguity. destruct (negb _); auto 6 with quiet. Qed.

Lemma quiet_retry connector i recorded : quiet (record_retry_ambiguity connector i recorded).
Proof using. unfold record_retry_ambiguity. destruct (_ == _); auto 8 with quiet. Qed.

Lemma quiet_authority : quiet ensure_authority.
Proof using. unfold ensure_authority. auto with quiet. Qed.

Lemma quiet_operation input : quiet (operation_of input).
Proof using. unfold operation_of. auto with quiet. Qed.

Lemma quiet_from_observation connector i ob : quiet (execution_receipt_from_observation connector i ob).
Proof using. unfold execution_receipt_from_observation. auto 10 with quiet. Qed.
Hint Resolve quiet_prior quiet_retry quiet_authority quiet_operation quiet_from_observation : quiet.

(** A receipt a worker reports is the one that is stored. *)
Definition stored_receipt (s : ExecutionReceiptStoreState) (r : ExecutionReceipt) : Prop :=
  rs_receipts s !! xr_operation_id r = Some r.

Lemma stored_receipt_grows s s' r : store_grows s s' → stored_receipt s r → stored_receipt s' r.
Proof using. intros [_ _ _ Hg] H. by eapply lookup_weaken. Qed.

Definition reports_stored (x : ExecuteCeremonyOperationOutcome) (s : ExecutionReceiptStoreState) : Prop :=
  match x with OutcomeReceipt r => stored_receipt s r | OutcomeReconciliation _ => True end.

Lemma existing_stored artifacts id s licence :
  wpr (existing_receipt artifacts id) s licence
    (λ found s' l, store_grows s s' ∧ l = licence ∧ ∀ r, found = Some r → stored_receipt s' r).
Proof using.
  apply wpr_bind. apply wpr_store; [done|]. intros s1 found s2 _ Hok [= <- <-] _ Hg. cbn [licenses].
  rewrite orb_false_r. destruct (rs_receipts s1 !! id) as [r|] eqn:Hr; [|by apply wpr_ret].
  apply quiet_then; [auto with quiet|]. intros _ s' Hg'. apply wpr_ret. split_and!; [by trans s1|done|].
  intros r' [= <-]. apply (stored_receipt_grows s1); [done|]. unfold stored_receipt.
  destruct (ok_receipts _ Hok _ _ Hr) as [-> _]. done.
Qed.

Lemma conclude_stored connector artifacts i observed s licence :
  wpr (conclude_observation connector artifacts i observed) s licence (λ x s' _, reports_stored x s').
Proof using.
  destruct observed as [ob|id]; cbn [conclude_observation].
  - apply quiet_then; [auto with quiet|]. intros r s1 _.
    apply quiet_then; [auto with quiet|]. intros _ s2 _.
    apply wpr_bind, wpr_store; [done|]. intros s3 x s4 _ Hok Ha _ _. apply wpr_ret. cbn.
    destruct (record_receipt_spec s3 r Hok) as (_ & _ & Hst). cbn [store_action] in Ha.
    assert (record_receipt s3 r = (Ok x, s4)) as Hrec by congruence. rewrite Hrec in Hst. by apply Hst.
  - apply quiet_then; [auto with quiet|]. intros _ s1 _. by apply wpr_ret.
Qed.

(** The intent is durable and, when it was the first, the licence is held. *)
Definition intended (i : ExecutionIntent) (recorded : RecordExecutionIntentOutcome)
    (s : ExecutionReceiptStoreState) (licence : bool) : Prop :=
  rs_intents s !! (ei_operation_id i, ei_claim_fence i) = Some i ∧
  (recorded = RecordedFirst → ei_operation_id i = o → licence = true).

Lemma intend_intended connector input operation existing s licence :
  (∀ i, existing = Some i → rs_intents s !! (ei_operation_id i, ei_claim_fence i) = Some i) →
  wpr (intend connector input operation existing) s licence (λ x s' l, intended x.1 x.2 s' l).
Proof using.
  intros Hex. destruct existing as [i|]; cbn [intend].
  - apply quiet_then; [auto with quiet|]. intros _ s' Hg. apply wpr_ret. split; [|done]. cbn.
    eapply lookup_weaken; [by apply Hex|by destruct Hg].
  - apply quiet_then; [auto with quiet|]. intros now s1 _.
    apply wpr_bind, wpr_settle. intros i _.
    apply wpr_bind, wpr_store; [done|]. intros s2 x s3 _ Hok Ha _ _. apply wpr_ret. cbn [fst snd].
    destruct (record_intent_spec s2 i Hok) as (_ & _ & _ & Hst). cbn [store_action] in Ha.
    assert (record_intent s2 i = (Ok x, s3)) as Hrec by congruence. rewrite Hrec in Hst.
    split; [by apply Hst|]. intros -> Ho. cbn [licenses]. rewrite (proj2 (eqb_true _ _) Ho). apply orb_true_r.
Qed.

Lemma attempt_ok connector artifacts input i recorded s licence : intended i recorded s licence →
  wpr (attempt connector artifacts input i recorded) s licence (λ x s' _, reports_stored x s').
Proof using.
  intros [Hi Hfirst]. apply wpr_bind. eapply wpr_conseq; [apply existing_stored|].
  intros [r|] s1 l (Hg & -> & Hr); [by apply wpr_ret, Hr|].
  apply quiet_then; [auto with quiet|]. intros [] s2 Hg2; [by apply wpr_ret|].
  destruct (_ && _) eqn:Hlate.
  { apply quiet_then; [auto with quiet|]. intros _ s3 _. by apply wpr_ret. }
  apply wpr_bind, wpr_settle. intros request Hrequest.
  assert (xq_intent request = i) as Hxi.
  { unfold sealed_request in Hrequest. by invert_ok Hrequest. }
  apply wpr_bind. apply wpr_outside; [done| |].
  - intros s3 Hg3 _. cbn. rewrite Hxi. split.
    + eapply lookup_weaken; [exact Hi|]. destruct Hg, Hg2, Hg3. by do 2 (etrans; [done|]).
    + intros [Ho%eqb_true_1 Hcap]%andb_true_iff. rewrite Hcap, andb_true_r in Hlate.
      apply negb_false_iff, eqb_true_1 in Hlate. by apply Hfirst.
  - intros s3 x _ _. apply conclude_stored.
Qed.

Lemma execute_ok connector artifacts input s licence :
  wpr (execute_operation connector artifacts input) s licence (λ x s' _, reports_stored x s').
Proof using.
  apply quiet_then; [auto with quiet|]. intros _ s1 _.
  apply quiet_then; [auto with quiet|]. intros operation s2 _. cbv zeta.
  apply wpr_bind. eapply wpr_conseq; [apply existing_stored|].
  intros [r|] s3 l (_ & -> & Hr); [by apply wpr_ret, Hr|].
  apply wpr_bind, wpr_store; [done|]. intros s4 existing s5 _ Hok [= <- <-] _ _. cbn [licenses].
  rewrite orb_false_r.
  assert (∀ i, rs_intents s4 !! (eo_operation_id operation, xi_claim_fence input) = Some i →
    rs_intents s4 !! (ei_operation_id i, ei_claim_fence i) = Some i) as Hkey.
  { intros i Hi. destruct (ok_intents _ Hok _ _ _ Hi) as (-> & -> & _). done. }
  revert Hkey. generalize (rs_intents s4 !! (eo_operation_id operation, xi_claim_fence input)) as existing.
  intros existing Hkey. apply quiet_then; [destruct existing; cbn [is_some]; auto with quiet|].
  intros [] s5 Hg5.
  - apply wpr_bind. eapply wpr_conseq; [apply existing_stored|].
    intros [r|] s6 l (_ & -> & Hr'); [by apply wpr_ret, Hr'|by apply wpr_ret].
  - apply wpr_bind. eapply wpr_conseq; [apply intend_intended|].
    + intros i ->. eapply lookup_weaken; [by apply Hkey|by destruct Hg5].
    + intros [i recorded] s6 l Hint. by apply attempt_ok.
Qed.

Lemma recover_ok connector artifacts i s licence :
  wpr (recover_intent connector artifacts i) s licence (λ x s' _, reports_stored x s').
Proof using.
  apply wpr_bind. eapply wpr_conseq; [apply existing_stored|].
  intros [r|] s1 l (_ & -> & Hr); [by apply wpr_ret, Hr|].
  apply quiet_then; [auto with quiet|]. intros _ s2 _.
  apply quiet_then; [auto with quiet|]. intros [] s3 _; [by apply wpr_ret|].
  destruct (_ == _).
  - apply quiet_then; [auto with quiet|]. intros _ s4 _. by apply wpr_ret.
  - apply quiet_then; [auto with quiet|]. intros x s4 _. apply conclude_stored.
Qed.

Definition reconciled_receipt (x : ReconcileExecutionOperationOutcome) : ExecutionReceipt :=
  match x with Reconciled r _ | AlreadyReconciled r _ => r end.

Lemma reconcile_ok by_ r s licence :
  wpr (reconcile_operation by_ r) s licence (λ x s' _, stored_receipt s' (reconciled_receipt x)).
Proof using.
  unfold reconcile_operation. do 3 (apply quiet_then; [auto with quiet|]; intros ? ? _).
  do 8 (apply quiet_then; [auto with quiet|]; intros ? ? _).
  apply wpr_bind, wpr_store; [done|]. intros s1 existing s2 _ Hok [= <- <-] _ _. cbn [licenses].
  destruct (rs_receipts s1 !! xr_operation_id r) as [stored|] eqn:Hr.
  - apply wpr_bind, wpr_settle. intros _ ->%ensure_Ok%eqb_true_1.
    apply quiet_then; [auto with quiet|]. intros _ s2 Hg. apply wpr_ret. cbn.
    by apply (stored_receipt_grows s1).
  - apply quiet_then; [auto with quiet|]. intros _ s2 _.
    apply wpr_bind, wpr_store; [done|]. intros s3 x s4 _ Hok3 Ha _ _. cbn [store_action] in Ha.
    destruct (record_receipt_spec s3 r Hok3) as (_ & _ & Hst).
    assert (record_receipt s3 r = (Ok x, s4)) as Hrec by congruence. rewrite Hrec in Hst.
    destruct x; [by apply wpr_ret, Hst|].
    apply quiet_then; [auto with quiet|]. intros found s5 Hg5.
    apply wpr_bind, wpr_settle. intros stored _.
    apply wpr_bind, wpr_settle. intros _ ->%ensure_Ok%eqb_true_1. apply wpr_ret. cbn.
    by apply (stored_receipt_grows s4), Hst.
Qed.
End logic.

(** ** A site *)

Section site.
Context {Hsha : Sha256} {Hreq : RequestSerde}.

(** A worker ends with the receipt it reports, if it reports one. *)
Definition worker : Type := job (option ExecutionReceipt).

Definition reported (r : outcome ExecuteCeremonyOperationOutcome) : option ExecutionReceipt :=
  match r with Ok (OutcomeReceipt r) => Some r | _ => None end.

Definition reported_reconciliation (r : outcome ReconcileExecutionOperationOutcome)
    : option ExecutionReceipt :=
  match r with Ok x => Some (reconciled_receipt x) | _ => None end.

(** What a worker can be started with. *)
Inductive started_worker : worker → Prop :=
| started_execute connector artifacts input :
    started_worker (job_bind (execute_operation connector artifacts input) (λ r, Finish (reported r)))
| started_recover connector artifacts i :
    started_worker (job_bind (recover_intent connector artifacts i) (λ r, Finish (reported r)))
| started_reconcile by_ r :
    started_worker (job_bind (reconcile_operation by_ r) (λ r, Finish (reported_reconciliation r))).

Record Site := MkSite {
  site_store : ExecutionReceiptStoreState;
  site_workers : list worker;
  site_executed : list (Connector * CeremonyExecutionRequest);
}.

(** The call a connector is given, for the record of the site. *)
Definition executed_by {X} (a : Action X) : list (Connector * CeremonyExecutionRequest) :=
  match a with Execute c r => [(c, r)] | _ => [] end.

(** Workers are started and crash at any time; one action is taken at a time, in
    any order; the answers of the outside are anything; the answer of the store
    may be lost before or after the action took effect. *)
Inductive site_step : Site → Site → Prop :=
| step_start s ws es w : started_worker w → site_step (MkSite s ws es) (MkSite s (ws ++ [w]) es)
| step_crash s ws1 w ws2 es : site_step (MkSite s (ws1 ++ w :: ws2) es) (MkSite s (ws1 ++ ws2) es)
| step_store s ws1 X (a : Action X) k ws2 es r s' :
    store_action a s = Some (r, s') →
    site_step (MkSite s (ws1 ++ Do a k :: ws2) es) (MkSite s' (ws1 ++ k r :: ws2) es)
| step_lost s ws1 X (a : Action X) k ws2 es r s' e :
    store_action a s = Some (r, s') →
    site_step (MkSite s (ws1 ++ Do a k :: ws2) es) (MkSite s' (ws1 ++ k (Err e) :: ws2) es)
| step_failed s ws1 X (a : Action X) k ws2 es r s' e :
    store_action a s = Some (r, s') →
    site_step (MkSite s (ws1 ++ Do a k :: ws2) es) (MkSite s (ws1 ++ k (Err e) :: ws2) es)
| step_outside s ws1 X (a : Action X) k ws2 es r :
    store_action a s = None →
    site_step (MkSite s (ws1 ++ Do a k :: ws2) es) (MkSite s (ws1 ++ k r :: ws2) (es ++ executed_by a)).

Definition site_empty : Site := MkSite receipt_store_empty [] [].

(** The executions of an operation by connectors that cannot be asked. *)
Definition blind (o : string) (e : Connector * CeremonyExecutionRequest) : bool :=
  (ei_operation_id (xq_intent e.2) == o) && (cn_recovery_capability e.1 == ReconciliationRequired).

Definition intent_is_stored (s : ExecutionReceiptStoreState) (e : Connector * CeremonyExecutionRequest)
    : Prop :=
  rs_intents s !! (ei_operation_id (xq_intent e.2), ei_claim_fence (xq_intent e.2)) = Some (xq_intent e.2).

Definition tells_stored (x : option ExecutionReceipt) (s : ExecutionReceiptStoreState) (_ : bool) : Prop :=
  ∀ r, x = Some r → stored_receipt s r.

Lemma tells_stored_grows x s s' l : store_grows s s' → tells_stored x s l → tells_stored x s' l.
Proof using. intros Hg H r Hr. eapply stored_receipt_grows; [done|by apply H]. Qed.

Lemma started_worker_ok o w s : started_worker w → wpj o w s false tells_stored.
Proof using.
  intros [connector artifacts input|connector artifacts i|by_ r]; apply wpj_bind.
  1: pose proof (execute_ok o connector artifacts input s false) as H.
  2: pose proof (recover_ok o connector artifacts i s false) as H.
  3: pose proof (reconcile_ok o by_ r s false) as H.
  all: eapply wpj_conseq; [|exact H]; intros [x|e|] s' l Hx; cbn; try done.
  1-2: destruct x; cbn; [by intros r' [= <-]|done].
  by intros r' [= <-].
Qed.

(** A licence is held by at most one worker, before its one blind execution. *)
Definition licensed (o : string) (site : Site) (licences : list bool) : Prop :=
  Forall2 (λ w l, wpj o w (site_store site) l tells_stored) (site_workers site) licences ∧
  (count id licences + count (blind o) (site_executed site)
   ≤ if rs_operations (site_store site) !! o then 1 else 0)%nat.

Record site_ok (o : string) (site : Site) : Prop := {
  site_ok_store : store_ok (site_store site);
  site_ok_licences : ∃ licences, licensed o site licences;
  site_ok_executed : Forall (intent_is_stored (site_store site)) (site_executed site);
}.

Lemma count_app {A} (f : A → bool) l1 l2 : count f (l1 ++ l2) = (count f l1 + count f l2)%nat.
Proof using. unfold count. by rewrite List.filter_app, length_app. Qed.

Lemma licences_grow o s s' ws licences : store_grows s s' →
  Forall2 (λ w l, wpj o w s l tells_stored) ws licences → Forall2 (λ w l, wpj o w s' l tells_stored) ws licences.
Proof using.
  intros Hg Hf. eapply Forall2_impl; [exact Hf|]. intros w l. apply wpj_grows; [|done].
  intros x s1 s2 l'. apply tells_stored_grows.
Qed.

Lemma intents_grow s s' es : store_grows s s' → Forall (intent_is_stored s) es → Forall (intent_is_stored s') es.
Proof using.
  intros Hg Hf. eapply Forall_impl; [exact Hf|]. intros e He. eapply lookup_weaken; [exact He|by destruct Hg].
Qed.

Lemma operations_grow o s s' : store_grows s s' →
  ((if rs_operations s !! o then 1 else 0) ≤ if rs_operations s' !! o then 1 else 0)%nat.
Proof using.
  intros [Hg _ _ _]. destruct (rs_operations s !! o) as [x|] eqn:H; [|lia].
  rewrite (lookup_weaken _ _ _ _ H Hg). lia.
Qed.

(** Licensing an operation creates it. *)
Lemma licenses_first o {X} (a : Action X) s r s' : store_ok s → store_action a s = Some (r, s') →
  licenses o a r = true → rs_operations s !! o = None ∧ is_Some (rs_operations s' !! o).
Proof using.
  intros Hok. destruct a as [| | | | |i|q|r'| | | | | | |]; cbn; try done; intros Ha.
  intros [Ho%eqb_true_1 Hr]%andb_true_iff. destruct r as [[| |]| |]; try done.
  assert (record_intent s i = (Ok RecordedFirst, s')) as Hrec by congruence.
  destruct (record_intent_spec s i Hok) as [Hspec _]. rewrite Hrec, Ho in Hspec. done.
Qed.

Lemma blind_executed o {X} (a : Action X) : count (blind o) (executed_by a) = Nat.b2n (spends o a).
Proof using.
  destruct a as [| | | | | | | | | |c r| | | |]; try reflexivity. unfold count. cbn [executed_by List.filter].
  change (blind o (c, r)) with (spends o (Execute c r)). by destruct (spends o (Execute c r)).
Qed.

Lemma permitted_spends o s l {X} (a : Action X) : permitted o s l a → spends o a = true → l = true.
Proof using. destruct a; try done. intros [_ H]. exact H. Qed.

(** A worker in the middle takes an action: the licences afterwards. *)
Lemma licensed_replace o s s' ws1 w w' ws2 es es' licences l' :
  licensed o (MkSite s (ws1 ++ w :: ws2) es) licences → store_grows s s' →
  (∀ l, wpj o w s l tells_stored → wpj o w' s' (l' l) tells_stored ∧
     (count id [l' l] + count (blind o) es' + (if rs_operations s !! o then 1 else 0)
      ≤ count id [l] + count (blind o) es + (if rs_operations s' !! o then 1 else 0))%nat) →
  ∃ licences', licensed o (MkSite s' (ws1 ++ w' :: ws2) es') licences'.
Proof using.
  intros [Hf Hc] Hg Hw. cbn [site_store site_workers site_executed] in *.
  apply Forall2_app_inv_l in Hf as (ls1 & ls & Hf1 & Hf2 & ->). inversion Hf2 as [|? l ? ls2 Hwl Hf3]; subst. destruct (Hw l Hwl) as [Hw' Hcount].
  exists (ls1 ++ l' l :: ls2). split; cbn [site_store site_workers site_executed].
  - apply Forall2_app; [by eapply licences_grow|]. constructor; [done|by eapply licences_grow].
  - change (l :: ls2) with ([l] ++ ls2) in Hc. change (l' l :: ls2) with ([l' l] ++ ls2).
    rewrite !count_app in *. lia.
Qed.

Lemma site_step_ok o site site' : site_ok o site → site_step site site' → site_ok o site'.
Proof using.
  intros [Hok [licences Hlic] Hex] Hstep.
  destruct Hstep as [s ws es w Hst|s ws1 w ws2 es|s ws1 X a k ws2 es r s' Ha|s ws1 X a k ws2 es r s' e Ha
                    |s ws1 X a k ws2 es r s' e Ha|s ws1 X a k ws2 es r Ha]; cbn in *.
  - split; cbn; [done| |done]. destruct Hlic as [Hf Hc]. exists (licences ++ [false]).
    split; cbn [site_store site_workers site_executed] in *.
    + apply Forall2_app; [done|]. constructor; [by apply started_worker_ok|constructor].
    + rewrite count_app. change (count id [false]) with 0%nat. lia.
  - split; cbn; [done| |done]. destruct Hlic as [Hf Hc].
    cbn [site_store site_workers site_executed] in *. apply Forall2_app_inv_l in Hf as (ls1 & ls & Hf1 & Hf2 & ->).
    inversion Hf2 as [|? l ? ls2 Hwl Hf3]; subst. exists (ls1 ++ ls2).
    split; cbn [site_store site_workers site_executed]; [by apply Forall2_app|].
    change (l :: ls2) with ([l] ++ ls2) in Hc. rewrite !count_app in *. lia.
  - destruct (store_action_ok _ _ _ _ Hok Ha) as [Hok' Hg]. split; cbn; [done| |by eapply intents_grow].
    eapply (licensed_replace o s s' _ _ _ _ _ _ _ (λ l, l || licenses o a r)); [done|done|].
    intros l Hw. destruct (Hw s) as [_ Hk]; [done|done|]. rewrite Ha in Hk. destruct Hk as (Hk & _).
    split; [done|]. destruct (licenses o a r) eqn:Hl.
    + destruct (licenses_first _ _ _ _ _ Hok Ha Hl) as [-> [x ->]]. destruct l; cbn; lia.
    + rewrite orb_false_r. pose proof (operations_grow o _ _ Hg). lia.
  - destruct (store_action_ok _ _ _ _ Hok Ha) as [Hok' Hg]. split; cbn; [done| |by eapply intents_grow].
    eapply (licensed_replace o s s' _ _ _ _ _ _ _ (λ l, l)); [done|done|].
    intros l Hw. destruct (Hw s) as [_ Hk]; [done|done|]. rewrite Ha in Hk. destruct Hk as (_ & _ & Hk).
    split; [apply Hk|]. pose proof (operations_grow o _ _ Hg). lia.
  - split; cbn; [done| |done].
    eapply (licensed_replace o s s _ _ _ _ _ _ _ (λ l, l)); [done|done|].
    intros l Hw. destruct (Hw s) as [_ Hk]; [done|done|]. rewrite Ha in Hk. destruct Hk as (_ & Hk & _).
    split; [apply Hk|lia].
  - assert (∃ l, wpj o (Do a k) s l tells_stored) as [l0 Hw0].
    { destruct Hlic as [Hf _]. cbn in Hf. apply Forall2_app_inv_l in Hf as (ls1 & ls & _ & Hf2 & ->).
      inversion Hf2; subst. eauto. }
    destruct (Hw0 s) as [Hperm0 _]; [done|done|].
    split; cbn; [done| |].
    + eapply (licensed_replace o s s _ _ _ _ _ _ _ (λ l, l && negb (spends o a))); [done|done|].
      intros l Hw. destruct (Hw s) as [Hperm Hk]; [done|done|]. rewrite Ha in Hk. split; [apply Hk|].
      rewrite count_app, blind_executed. destruct (spends o a) eqn:Hs; cbn [Nat.b2n].
      * rewrite (permitted_spends _ _ _ _ Hperm Hs). cbn. lia.
      * rewrite andb_true_r. lia.
    + apply Forall_app. split; [done|]. destruct a; try constructor; [|constructor].
      by destruct Hperm0.
Qed.

Lemma site_reachable_ok o site : rtc site_step site_empty site → site_ok o site.
Proof using.
  intros Hr. assert (site_ok o site_empty) as H0.
  { split; cbn; [apply store_ok_empty| |done]. exists []. by split; cbn. }
  revert H0. induction Hr; [done|]. eauto using site_step_ok.
Qed.
End site.
