(* ===== verification/Settlement.v ===== *)
(** * Executing once and settling what is unknown

    The properties of the execution of operations: at any site ([Executions]) and
    for a single worker that nothing disturbs, which is run here. *)

From S2P Require Import Prelude Errors Text Values Steps Definitions Interventions Instance.
From S2P Require Import Budget Authorization Execution Executions.

(** ** Running a worker alone *)

Section run.
Context {Hsha : Sha256} {Hreq : RequestSerde}.
(** The answers of the outside. *)
Context (answer : ∀ X, Action X → outcome X).

Fixpoint run_job {A} (p : job A) (s : ExecutionReceiptStoreState)
    : A * ExecutionReceiptStoreState * list (Connector * CeremonyExecutionRequest) :=
  match p with
  | Finish a => (a, s, [])
  | Do a k =>
      match store_action a s with
      | Some (r, s) => run_job (k r) s
      | None => let '(x, s, l) := run_job (k (answer _ a)) s in (x, s, executed_by a ++ l)
      end
  end.

(** A worker that runs alone is a run of the site. *)
Lemma run_job_steps (w : worker) : ∀ s ws es a s' l, run_job w s = (a, s', l) →
  rtc site_step (MkSite s (ws ++ [w]) es) (MkSite s' (ws ++ [Finish a]) (es ++ l)).
Proof using.
  induction w as [x|X a k IH]; intros s ws es y s' l; cbn.
  { intros [= <- <- <-]. rewrite app_nil_r. reflexivity. }
  destruct (store_action a s) as [[r s1]|] eqn:Ha.
  - intros Hrun. eapply rtc_l; [by eapply (step_store s ws X a k [])|]. by apply IH.
  - destruct (run_job (k (answer X a)) s) as [[x s1] l1] eqn:Hrun. intros [= <- <- <-].
    eapply rtc_l; [by eapply (step_outside s ws X a k [])|]. rewrite app_assoc. by apply IH.
Qed.

Lemma run_job_bind {A B} (p : job A) (f : A → job B) s :
  run_job (job_bind p f) s =
  let '(a, s1, l1) := run_job p s in
  let '(b, s2, l2) := run_job (f a) s1 in (b, s2, l1 ++ l2).
Proof using.
  revert s. induction p as [a|X a k IH]; intros s; cbn.
  { by destruct (run_job (f a) s) as [[? ?] ?]. }
  destruct (store_action a s) as [[r s1]|]; [apply IH|]. rewrite IH.
  destruct (run_job (k (answer X a)) s) as [[x s1] l1]. destruct (run_job (f x) s1) as [[y s2] l2].
  by rewrite app_assoc.
Qed.

(** A routine that gives [r] and calls no connector. *)
Definition runs_alone {A} (p : routine A) (s : ExecutionReceiptStoreState) (r : outcome A)
    (s' : ExecutionReceiptStoreState) : Prop := run_job p s = (r, s', []).

Lemma runs_bind {A B} (p : routine A) (f : A → routine B) s a s1 r s2 :
  runs_alone p s (Ok a) s1 → runs_alone (f a) s1 r s2 → runs_alone (p ≫= f) s r s2.
Proof using.
  unfold runs_alone, mbind, routine_bind. intros Hp Hf. rewrite run_job_bind, Hp, Hf. done.
Qed.

Lemma runs_ret {A} (a : A) s : runs_alone (mret (M := routine) a) s (Ok a) s.
Proof using. done. Qed.

Lemma runs_settle {A} (r : outcome A) s : runs_alone (settle r) s r s.
Proof using. done. Qed.

Lemma runs_ensure b e s : b = true → runs_alone (settle (ensure b e)) s (Ok tt) s.
Proof using. by intros ->. Qed.

Lemma runs_store {X} (a : Action X) s r s' : store_action a s = Some (r, s') → runs_alone (perform a) s r s'.
Proof using. intros Ha. unfold runs_alone, perform. cbn. by rewrite Ha. Qed.

Lemma runs_outside {X} (a : Action X) s r : store_action a s = None → executed_by a = [] →
  answer X a = r → runs_alone (perform a) s r s.
Proof using. intros Ha He Hr. unfold runs_alone, perform. cbn. by rewrite Ha, Hr, He. Qed.
End run.

(** ** One operation, one execution, one receipt *)

Section properties.
Context {Hsha : Sha256} {Hreq : RequestSerde}.

(** C17: whatever the workers do, in whatever order they do it, whenever they
    crash, and whichever answers are lost, a connector that cannot be asked what
    became of an operation is called to execute it at most once; and no connector is
    called to execute before the intent of the claim is durable. *)
Theorem unaskable_work_runs_once site :
  rtc site_step site_empty site →
  (∀ operation_id, (count (blind operation_id) (site_executed site) ≤ 1)%nat) ∧
  Forall (intent_is_stored (site_store site)) (site_executed site).
Proof using.
  intros Hr. split; [|apply (site_ok_executed "" _ (site_reachable_ok "" _ Hr))].
  intros o. destruct (site_reachable_ok o _ Hr) as [_ [licences [_ Hc]] _].
  destruct (rs_operations _ !! o); lia.
Qed.

Lemma site_grows site site' : store_ok (site_store site) → site_step site site' →
  store_ok (site_store site') ∧ store_grows (site_store site) (site_store site').
Proof using.
  intros Hok Hstep. destruct Hstep; cbn [site_store] in *; try (split; [done|reflexivity]).
  all: match goal with H : store_action _ _ = Some _ |- _ => exact (store_action_ok _ _ _ _ Hok H) end.
Qed.

Lemma reported_is_stored site r : rtc site_step site_empty site → Finish (Some r) ∈ site_workers site →
  stored_receipt (site_store site) r.
Proof using.
  intros Hr Hin. destruct (site_reachable_ok "" _ Hr) as [_ [licences [Hf _]] _].
  apply list_elem_of_lookup in Hin as [n Hn]. destruct (Forall2_lookup_l _ _ _ _ _ Hf Hn) as (l & _ & Hw).
  cbn in Hw. by apply Hw.
Qed.

(** C18: a receipt is final.  What is stored is never changed, whatever happens
    afterwards; it matches the durable intent of the claim that produced it; and
    every worker that ever reports a receipt for an operation reports that one. *)
Theorem receipts_are_final site site' operation_id r :
  rtc site_step site_empty site → rtc site_step site site' →
  rs_receipts (site_store site) !! operation_id = Some r →
  rs_receipts (site_store site') !! operation_id = Some r ∧
  (∃ i, rs_intents (site_store site') !! (operation_id, xr_producer_claim_fence r) = Some i ∧
     ei_operation_id i = operation_id ∧
     xr_request_digest r = eo_request_digest (ei_operation i) ∧ xr_connector_id r = ei_connector_id i) ∧
  (∀ r', Finish (Some r') ∈ site_workers site' → xr_operation_id r' = operation_id → r' = r).
Proof using.
  intros Hr Hr' Hstored. assert (rtc site_step site_empty site') as Hall by (by trans site).
  assert (store_grows (site_store site) (site_store site')) as [_ _ _ Hg].
  { destruct (site_reachable_ok "" _ Hr) as [Hok _ _]. clear Hr Hall Hstored. revert Hok.
    induction Hr' as [|s1 s2 s3 Hs _ IH]; [done|]. intros Hok.
    destruct (site_grows _ _ Hok Hs) as [Hok2 Hg2]. trans (site_store s2); [done|by apply IH]. }
  assert (rs_receipts (site_store site') !! operation_id = Some r) as Hlater by (by eapply lookup_weaken).
  destruct (site_reachable_ok "" _ Hall) as [Hok _ _].
  destruct (ok_receipts _ Hok _ _ Hlater) as (_ & _ & i & Hi & Hd & Hc & _).
  destruct (ok_intents _ Hok _ _ _ Hi) as (Hid & _). split_and!; [done|by exists i|].
  intros r' Hin <-. pose proof (reported_is_stored _ _ Hall Hin) as Hst. unfold stored_receipt in Hst. congruence.
Qed.
End properties.

(** ** Settling an unknown effect *)

Section settle.
Context {Hsha : Sha256} {Hreq : RequestSerde}.
Context (answer : ∀ X, Action X → outcome X).

(** Nothing is cancelled and the artifact service and the audit do their work. *)
Record calm : Prop := {
  calm_cancelled : answer _ IsCancelled = Ok false;
  calm_protect : ∀ r, answer _ (ProtectReceipt r) = Ok tt;
  calm_attempt : ∀ by_ r, ∃ a, answer _ (RecordAttempt by_ r) = Ok a;
  calm_protect_attempt : ∀ a, answer _ (ProtectAttempt a) = Ok tt;
}.

(** The operation a claim asks for. *)
Definition asks_for (input : ExecuteCeremonyOperationInput) (operation : ExecutionOperation) : Prop :=
  ∃ bytes, semantic_request_bytes (xi_handler_request input) = Ok bytes ∧
    operation = ExecutionOperation_new (sr_instance_id (hr_semantic (xi_handler_request input)))
                  (sr_step_id (hr_semantic (xi_handler_request input))) (xi_state_visit input)
                  (xi_state_iteration input) (xi_step_iteration input) bytes.

Definition required (s : ExecutionReceiptStoreState) (i : ExecutionIntent) : Prop :=
  rs_requirements s !! (ei_operation_id i, ei_claim_fence i) = Some (requirement_from_intent i).

(** Only requirements are added. *)
Definition marks (s s' : ExecutionReceiptStoreState) : Prop :=
  store_ok s' ∧ store_grows s s' ∧ rs_operations s' = rs_operations s ∧ rs_intents s' = rs_intents s ∧
  rs_receipts s' = rs_receipts s.

Lemma marks_trans s1 s2 s3 : marks s1 s2 → marks s2 s3 → marks s1 s3.
Proof using. intros (? & ? & ? & ? & ?) (? & ? & ? & ? & ?). split_and!; [done|by trans s2|congruence..]. Qed.

Lemma put_requirement_runs s i : store_ok s → rs_intents s !! (ei_operation_id i, ei_claim_fence i) = Some i →
  ∃ s', runs_alone answer (perform (PutRequirement (requirement_from_intent i))) s (Ok tt) s' ∧
    marks s s' ∧ required s' i.
Proof using.
  intros Hok Hi. destruct (record_requirement_spec s (requirement_from_intent i) Hok) as (Hok' & Hg & Hst).
  assert (∃ s', record_requirement s (requirement_from_intent i) = (Ok tt, s') ∧
    rs_operations s' = rs_operations s ∧ rs_intents s' = rs_intents s ∧ rs_receipts s' = rs_receipts s)
    as (s' & Hrec & Hsame).
  { unfold record_requirement. cbn [er_operation_id er_producer_claim_fence requirement_from_intent].
    rewrite Hi. unfold matches_intent. rewrite eqb_refl. cbn [negb].
    destruct (rs_requirements s !! _) as [q|] eqn:Hq; [|by eexists].
    destruct (ok_requirements _ Hok _ _ _ Hq) as (i' & Hi' & ->). simplify_eq. rewrite eqb_refl. by eexists. }
  rewrite Hrec in *. cbn in Hok', Hg, Hst. exists s'. split; [apply runs_store; cbn; by rewrite Hrec|].
  split; [unfold marks; by destruct Hsame as (? & ? & ?)|].
  by apply Hst.
Qed.

Lemma record_required_runs s i id : id = ei_operation_id i → store_ok s →
  rs_intents s !! (ei_operation_id i, ei_claim_fence i) = Some i →
  ∃ s', runs_alone answer (record_reconciliation_required i id) s (Ok tt) s' ∧ marks s s' ∧ required s' i.
Proof using.
  intros -> Hok Hi. destruct (put_requirement_runs s i Hok Hi) as (s' & Hrun & Hrest). exists s'.
  split; [|done]. eapply runs_bind; [by apply runs_ensure, eqb_refl|done].
Qed.

Lemma required_grows s s' i : store_grows s s' → required s i → required s' i.
Proof using. intros [_ _ Hg _] H. by eapply lookup_weaken. Qed.

Lemma record_ambiguous_runs connector id l : ∀ s, store_ok s →
  (∀ i, i ∈ l → id i = ei_operation_id i ∧ same_contract connector i = true ∧
     rs_intents s !! (ei_operation_id i, ei_claim_fence i) = Some i) →
  ∃ s', runs_alone answer (record_ambiguous connector id l) s (Ok tt) s' ∧ marks s s' ∧
    ∀ i, i ∈ l → required s' i.
Proof using.
  induction l as [|i l IH]; intros s Hok Hl; cbn [record_ambiguous].
  { exists s. split_and!; [done|done|]. by intros i Hi%not_elem_of_nil. }
  destruct (Hl i) as (Hid & Hc & Hi); [by left|].
  destruct (record_required_runs s i (id i) Hid Hok Hi) as (s1 & Hrun1 & Hm1 & Hreq1).
  destruct (IH s1) as (s2 & Hrun2 & Hm2 & Hreq2).
  { apply Hm1. } { intros i' Hi'. destruct Hm1 as (_ & _ & _ & -> & _). apply Hl. by right. }
  exists s2. split_and!; [|by eapply marks_trans|].
  - eapply runs_bind; [apply runs_ensure, Hc|]. by eapply runs_bind.
  - intros i' [->|Hi']%elem_of_cons; [|by apply Hreq2]. destruct Hm2 as (_ & Hg & _).
    by eapply required_grows.
Qed.

Lemma elem_of_intents_of s id i : store_ok s → i ∈ intents_of s id ↔
  ei_operation_id i = id ∧ rs_intents s !! (id, ei_claim_fence i) = Some i.
Proof using.
  intros Hok. unfold intents_of. rewrite elem_of_btree_values.
  assert (∀ fence, default ∅ (map_curry (M1 := gmap string) (M2 := gmap string) (rs_intents s) !! id) !! fence
    = rs_intents s !! (id, fence)) as Hl.
  { intros fence. rewrite <-(lookup_map_curry (M1 := gmap string) (M2 := gmap string) (rs_intents s) id fence).
    destruct (map_curry _ !! id); cbn; [done|]. by rewrite lookup_empty. }
  split.
  - intros [fence Hf]. rewrite Hl in Hf. destruct (ok_intents _ Hok _ _ _ Hf) as (? & <- & _). done.
  - intros [_ Hi]. exists (ei_claim_fence i). by rewrite Hl.
Qed.

Context (Hcalm : calm).

Lemma existing_none_runs artifacts id s : rs_receipts s !! id = None →
  runs_alone answer (existing_receipt artifacts id) s (Ok None) s.
Proof using.
  intros Hr. eapply runs_bind; [by apply runs_store|]. rewrite Hr. apply runs_ret.
Qed.

Lemma existing_some_runs id s r : rs_receipts s !! id = Some r →
  runs_alone answer (existing_receipt true id) s (Ok (Some r)) s.
Proof using Hcalm.
  intros Hr. eapply runs_bind; [by apply runs_store|]. rewrite Hr. eapply runs_bind; [|apply runs_ret].
  unfold verify_receipt_artifacts. destruct (Nat.eqb _ _); [apply runs_ret|].
  eapply runs_bind; [by apply runs_ensure|]. apply runs_outside; [done|done|]. apply Hcalm.
Qed.

(** The start of an attempt, up to the look for a receipt. *)
Lemma execute_starts connector input operation s r s' :
  asks_for input operation → rs_operations s !! eo_operation_id operation = Some operation →
  runs_alone answer (
    receipt ← existing_receipt true (eo_operation_id operation);
    match receipt with
    | Some r => mret (OutcomeReceipt r)
    | None =>
        existing ← perform (GetIntent (eo_operation_id operation) (xi_claim_fence input));
        ambiguous ← (if is_some existing then mret false
                     else record_prior_non_queryable_ambiguity connector (eo_operation_id operation));
        if ambiguous : bool then
          receipt ← existing_receipt true (eo_operation_id operation);
          match receipt with
          | Some r => mret (OutcomeReceipt r)
          | None => mret (OutcomeReconciliation (eo_operation_id operation))
          end
        else
          '(i, recorded) ← intend connector input operation existing;
          attempt connector true input i recorded
    end) s r s' →
  runs_alone answer (execute_operation connector true input) s r s'.
Proof using Hcalm.
  intros (bytes & Hbytes & Hop) Hstored Hrest. eapply runs_bind.
  { eapply runs_bind; [by apply runs_outside; [..|apply Hcalm]|]. by apply runs_ensure. }
  eapply runs_bind; [|exact Hrest]. eapply runs_bind; [rewrite Hbytes; apply runs_settle|]. cbv zeta.
  rewrite <-Hop. eapply runs_bind; [by apply runs_store|]. rewrite Hstored. unfold runs_alone. cbn.
  by rewrite eqb_refl.
Qed.
(** A later claim of an operation of unknown effect executes nothing and marks it
    for reconciliation. *)
Lemma later_claim_marks connector input operation s : store_ok s → asks_for input operation →
  rs_operations s !! eo_operation_id operation = Some operation →
  rs_receipts s !! eo_operation_id operation = None →
  cn_recovery_capability connector = ReconciliationRequired →
  (∀ i, i ∈ intents_of s (eo_operation_id operation) →
     same_contract connector i = true ∧ ei_actor_kind i = xi_actor_kind input) →
  ∃ s1 i, runs_alone answer (execute_operation connector true input) s
            (Ok (OutcomeReconciliation (eo_operation_id operation))) s1 ∧
    marks s s1 ∧ i ∈ intents_of s (eo_operation_id operation) ∧ required s1 i.
Proof using Hcalm.
  intros Hok Hasks Hop Hnone Hcap Hall. set (id := eo_operation_id operation) in *.
  destruct (rs_intents s !! (id, xi_claim_fence input)) as [i|] eqn:Hi.
  - destruct (ok_intents _ Hok _ _ _ Hi) as (Hid & Hfence & Hopi & _).
    assert (i ∈ intents_of s id) as Hin by (apply elem_of_intents_of; [done|by rewrite Hfence]).
    destruct (Hall i Hin) as [Hc Hactor].
    assert (∃ s1, runs_alone answer (attempt connector true input i IntentAlreadyRecorded) s
      (Ok (OutcomeReconciliation id)) s1 ∧ marks s s1 ∧ required s1 i) as (s1 & Hrun & Hm & Hr).
    { assert (rs_intents s !! (ei_operation_id i, ei_claim_fence i) = Some i) as Hi' by (by rewrite Hid, Hfence).
      unfold attempt. rewrite Hid, Hcap, eqb_refl. cbn [negb andb].
      destruct (rs_requirements s !! (id, xi_claim_fence input)) as [q|] eqn:Hq.
      - destruct (ok_requirements _ Hok _ _ _ Hq) as (i' & Hi2 & ->). assert (i' = i) as -> by congruence.
        exists s. split_and!; [|done|unfold required; by rewrite Hid, Hfence].
        eapply runs_bind; [by apply existing_none_runs|].
        eapply (runs_bind answer _ _ _ true); [|apply runs_ret].
        eapply runs_bind; [by apply runs_store|]. rewrite Hid, Hfence, Hq.
        eapply runs_bind; [apply runs_ensure; unfold matches_intent; apply eqb_refl|apply runs_ret].
      - destruct (record_required_runs s i (ei_operation_id i) eq_refl Hok Hi') as (s1 & Hrun1 & Hm & Hr).
        exists s1. split_and!; [|done|done].
        eapply runs_bind; [by apply existing_none_runs|].
        eapply runs_bind; [eapply runs_bind; [by apply runs_store|]; rewrite Hid, Hfence, Hq; apply runs_ret|].
        eapply runs_bind; [exact Hrun1|apply runs_ret]. }
    exists s1, i. split_and!; [|done|done|done].
    apply (execute_starts connector input operation); [done|done|]. fold id.
    eapply runs_bind; [by apply existing_none_runs|]. eapply runs_bind; [by apply runs_store|]. rewrite Hi.
    eapply runs_bind; [apply runs_ret|]. eapply (runs_bind answer _ _ _ (i, IntentAlreadyRecorded)); [|exact Hrun].
    eapply runs_bind; [apply runs_ensure|apply runs_ret].
    assert (ei_operation i = operation) as -> by congruence. by rewrite Hc, Hactor, !eqb_refl.
  - destruct (ok_operations _ Hok _ _ Hop) as (_ & fence & i & Hif).
    destruct (ok_intents _ Hok _ _ _ Hif) as (Hid & Hfence & _).
    assert (i ∈ intents_of s id) as Hin by (apply elem_of_intents_of; [done|by rewrite Hfence]).
    destruct (record_ambiguous_runs connector (λ _, id) (intents_of s id) s Hok) as (s1 & Hrun & Hm & Hr).
    { intros i' Hi'. destruct (Hall i' Hi') as [Hc _].
      apply elem_of_intents_of in Hi' as [Hid' Hl]; [|done]. by rewrite Hid'. }
    exists s1, i. split_and!; [|done|done|by apply Hr].
    apply (execute_starts connector input operation); [done|done|]. fold id.
    eapply runs_bind; [by apply existing_none_runs|]. eapply runs_bind; [by apply runs_store|]. rewrite Hi.
    eapply runs_bind.
    { unfold record_prior_non_queryable_ambiguity. rewrite Hcap, eqb_refl. cbn [negb].
      eapply runs_bind; [by apply runs_store|]. eapply runs_bind; [exact Hrun|apply runs_ret]. }
    destruct (intents_of s id) as [|? ?]; [by apply not_elem_of_nil in Hin|]. cbn [length Nat.eqb negb].
    eapply (runs_bind answer _ _ _ None); [|apply runs_ret]. apply existing_none_runs.
    by destruct Hm as (_ & _ & _ & _ & ->).
Qed.

(** The evidence of an operator for a marked intent becomes the receipt. *)
Lemma reconcile_runs by_ s i r : store_ok s → i ∈ intents_of s (ei_operation_id i) → required s i →
  rs_receipts s !! ei_operation_id i = None →
  evidence_action by_.2 = AA_ReconcileExecutionOperation → receipt_validate r = Ok tt →
  xr_artifacts r ≠ [] → evidence_matches i r = true →
  ∃ audit, runs_alone answer (reconcile_operation by_ r) s (Ok (Reconciled r audit))
    (s <| rs_receipts := <[ei_operation_id i := r]> (rs_receipts s) |>).
Proof using Hcalm.
  intros Hok Hin Hreq' Hnone Hact Hv Hart Hm. apply elem_of_intents_of in Hin as [_ Hi]; [|done].
  pose proof Hm as Hm'. unfold evidence_matches in Hm'. rewrite !andb_true_iff in Hm'.
  destruct Hm' as [[[[[[Hid Hd] Hf] Hc] Hs] Hcap] _]. apply eqb_true_1 in Hid, Hd, Hf, Hc, Hs, Hcap.
  destruct (calm_attempt Hcalm by_ r) as [audit Haudit]. exists (ra_artifact audit).
  eapply runs_bind; [apply runs_ensure; rewrite Hact; apply eqb_refl|].
  eapply runs_bind; [rewrite Hv; apply runs_settle|].
  eapply runs_bind; [apply runs_ensure; by destruct (xr_artifacts r)|].
  eapply runs_bind; [by apply runs_store|]. rewrite <-Hid, <-Hf, Hi.
  eapply runs_bind; [apply runs_settle|].
  eapply runs_bind; [by apply runs_ensure|].
  eapply runs_bind; [by apply runs_store|]. rewrite Hreq'.
  eapply runs_bind; [apply runs_settle|].
  eapply runs_bind; [apply runs_ensure|].
  { unfold requirement_matches, matches_intent. cbn. by rewrite Hid, Hd, Hf, Hc, !eqb_refl. }
  eapply runs_bind; [by apply runs_outside|].
  eapply runs_bind; [by apply runs_outside; [..|apply Hcalm]|].
  eapply runs_bind; [by apply runs_store|]. rewrite Hnone.
  eapply runs_bind; [by apply runs_outside; [..|apply Hcalm]|].
  eapply (runs_bind answer _ _ _ Recorded); [|apply runs_ret].
  apply runs_store. cbn [store_action]. unfold record_receipt.
  destruct (ok_intents _ Hok _ _ _ Hi) as (_ & _ & Hop & _).
  rewrite Hv, <-Hid, <-Hf, Hi, Hop. cbn [ok_or mbind result_bind].
  rewrite Hd, Hc, Hcap, Hs, !eqb_refl, Hnone. done.
Qed.

Lemma settled_runs connector input operation s r : asks_for input operation →
  rs_operations s !! eo_operation_id operation = Some operation →
  rs_receipts s !! eo_operation_id operation = Some r →
  runs_alone answer (execute_operation connector true input) s (Ok (OutcomeReceipt r)) s.
Proof using Hcalm.
  intros Hasks Hop Hr. apply (execute_starts connector input operation); [done|done|].
  eapply runs_bind; [by apply existing_some_runs|apply runs_ret].
Qed.
End settle.

(** C19: an operation whose connector cannot be asked, that was intended and has no
    receipt, is settled without being executed again.  A later claim of it calls
    no connector and marks an intent for reconciliation; evidence of an operator
    that matches the intent becomes the receipt; and from then on every claim of
    the operation, by whatever connector, is answered with that receipt and calls
    none. *)
Theorem unknown_effect_is_settled {Hsha : Sha256} {Hreq : RequestSerde} answer connector input operation s :
  calm answer → store_ok s → asks_for input operation →
  rs_operations s !! eo_operation_id operation = Some operation →
  rs_receipts s !! eo_operation_id operation = None →
  cn_recovery_capability connector = ReconciliationRequired →
  (∀ i, i ∈ intents_of s (eo_operation_id operation) →
     same_contract connector i = true ∧ ei_actor_kind i = xi_actor_kind input) →
  ∃ s1 i, runs_alone answer (execute_operation connector true input) s
            (Ok (OutcomeReconciliation (eo_operation_id operation))) s1 ∧
    i ∈ intents_of s1 (eo_operation_id operation) ∧ required s1 i ∧
    ∀ by_ r, evidence_action by_.2 = AA_ReconcileExecutionOperation → receipt_validate r = Ok tt →
      xr_artifacts r ≠ [] → evidence_matches i r = true →
      ∃ audit s2, runs_alone answer (reconcile_operation by_ r) s1 (Ok (Reconciled r audit)) s2 ∧
        ∀ connector' input', asks_for input' operation →
          runs_alone answer (execute_operation connector' true input') s2 (Ok (OutcomeReceipt r)) s2.
Proof.
  intros Hcalm Hok Hasks Hop Hnone Hcap Hall.
  destruct (later_claim_marks answer Hcalm connector input operation s) as (s1 & i & Hrun & Hm & Hin & Hr);
    [done..|]. destruct Hm as (Hok1 & _ & Hops & Hints & Hrcpt).
  apply elem_of_intents_of in Hin as [Hid Hi]; [|done].
  assert (i ∈ intents_of s1 (eo_operation_id operation)) as Hin.
  { apply elem_of_intents_of; [done|]. by rewrite Hints. }
  exists s1, i. split_and!; [done|done|done|]. intros by_ r Hact Hv Hart Hmatch.
  destruct (reconcile_runs answer Hcalm by_ s1 i r) as [audit Hrec]; [done|by rewrite Hid|done| |done..|].
  { by rewrite Hid, Hrcpt. }
  exists audit. eexists. split; [exact Hrec|]. intros connector' input' Hasks'.
  apply (settled_runs answer Hcalm connector' input' operation); [done|cbn; by rewrite Hops|].
  cbn. rewrite Hid. apply lookup_insert_eq.
Qed.

(** ** A site at work *)

#[local] Instance plain_sha : Sha256 := λ s, s.
#[local] Instance plain_request : RequestSerde := λ _, Some "request".

(** One more worker is started and runs alone. *)
Definition launch (answer : ∀ X, Action X → outcome X) (site : Site) (w : worker) : Site :=
  let '(a, s, l) := run_job answer w (site_store site) in
  MkSite s (site_workers site ++ [Finish a]) (site_executed site ++ l).

Lemma launch_steps answer site w : started_worker w → rtc site_step site (launch answer site w).
Proof.
  intros Hw. destruct site as [s ws es]. unfold launch. cbn [site_store site_workers site_executed].
  destruct (run_job answer w s) as [[a s'] l] eqn:Hrun. eapply rtc_l; [by apply step_start|].
  by apply (run_job_steps answer).
Qed.

Definition demo_request : CeremonyStepHandlerRequest :=
  MkHandlerRequest (MkSemanticRequest "ceremony-1" "review" "1.0" "OPEN" "work" "tool" ∅ ∅ [] [] None None) 1.

Definition demo_claim (fence : StepClaimFence) : ExecuteCeremonyOperationInput :=
  MkExecuteInput demo_request 1 1 1 fence ActorAgent.

Definition demo_operation : ExecutionOperation :=
  ExecutionOperation_new "ceremony-1" "work" 1 1 1 "request".

Definition deaf_connector : Connector := MkConnector "tool" ReconciliationRequired ExternalExecution.
Definition plain_connector : Connector := MkConnector "tool" QueryableByOperationId ExternalExecution.

Definition demo_artifact (fence : StepClaimFence) : ArtifactRef :=
  MkArtifactRef "evidence" "digest" 1 "text/plain"
    (MkArtifactProvenance ExternalExecution (Some (receipt_for_operation (eo_operation_id demo_operation)))
       (Some (eo_operation_id demo_operation)) (Some fence) 0 None).

Definition demo_observation (fence : StepClaimFence) : CeremonyExecutionObservation :=
  MkObservation fence None (MkStepResult Completed ∅ None None) [] unmeasured 5.

(** A connector that is not heard from again, and one that answers. *)
Definition demo_outside (observed : outcome CeremonyExecutionConnectorOutcome) (X : Type) (a : Action X)
    : outcome X :=
  match a with
  | ClockNow => Ok 0
  | IsCancelled => Ok false
  | Execute _ _ => observed
  | ProtectReceipt _ => Ok tt
  | RecordAttempt _ _ => Ok (MkReconciliationAudit (demo_artifact "audit") "key")
  | ProtectAttempt _ => Ok tt
  | _ => Err (NotFound "nothing")
  end.

Definition demo_worker (c : Connector) (fence : StepClaimFence) : worker :=
  job_bind (execute_operation c true (demo_claim fence)) (λ r, Finish (reported r)).

Lemma demo_worker_started c fence : started_worker (demo_worker c fence).
Proof. apply started_execute. Qed.

(** The connector is called, fails, and a second claim does not call it again. *)
Definition silent : ∀ X, Action X → outcome X := demo_outside (Err (NotFound "connector")).
Definition deaf_site : Site :=
  launch silent (launch silent site_empty (demo_worker deaf_connector "fence-1"))
    (demo_worker deaf_connector "fence-2").

Lemma deaf_site_reachable : rtc site_step site_empty deaf_site.
Proof. etrans; apply launch_steps, demo_worker_started. Qed.

Lemma unaskable_work_runs_once_witness :
  rtc site_step site_empty deaf_site ∧ length (site_executed deaf_site) = 1%nat ∧
  (count (blind (eo_operation_id demo_operation)) (site_executed deaf_site) ≤ 1)%nat ∧
  Forall (intent_is_stored (site_store deaf_site)) (site_executed deaf_site).
Proof.
  split; [exact deaf_site_reachable|]. split; [vm_compute; reflexivity|].
  destruct (unaskable_work_runs_once deaf_site deaf_site_reachable) as [H1 H2]. split; [apply H1|exact H2].
Defined.

Definition answering : ∀ X, Action X → outcome X :=
  demo_outside (Ok (ConnectorObserved (demo_observation "fence-1"))).
Definition one_worker : Site := launch answering site_empty (demo_worker plain_connector "fence-1").
Definition two_workers : Site := launch answering one_worker (demo_worker plain_connector "fence-2").
Definition demo_receipt : ExecutionReceipt :=
  MkExecutionReceipt (receipt_for_operation (eo_operation_id demo_operation)) (eo_operation_id demo_operation)
    (eo_request_digest demo_operation) "fence-1" "tool" None QueryableByOperationId ExternalExecution
    (MkStepResult Completed ∅ None None) [] unmeasured 5.

Lemma receipts_are_final_witness :
  site_workers two_workers = [Finish (Some demo_receipt); Finish (Some demo_receipt)] ∧
  ∀ r, Finish (Some r) ∈ site_workers two_workers →
    xr_operation_id r = eo_operation_id demo_operation → r = demo_receipt.
Proof.
  split; [vm_compute; reflexivity|].
  destruct (receipts_are_final one_worker two_workers (eo_operation_id demo_operation) demo_receipt)
    as (_ & _ & H).
  - apply launch_steps, demo_worker_started.
  - apply launch_steps, demo_worker_started.
  - vm_compute. reflexivity.
  - exact H.
Defined.

(** The store after a connector was called and never heard from. *)
Definition deaf_store : ExecutionReceiptStoreState :=
  site_store (launch silent site_empty (demo_worker deaf_connector "fence-1")).

Lemma deaf_store_ok : store_ok deaf_store.
Proof.
  apply (site_ok_store ""), site_reachable_ok, launch_steps, demo_worker_started.
Qed.

Definition demo_intent : ExecutionIntent :=
  MkExecutionIntent demo_operation "fence-1" "tool" ReconciliationRequired ExternalExecution ActorAgent 0.

(** What an operator found out about it. *)
Definition demo_settlement : ExecutionReceipt :=
  MkExecutionReceipt (receipt_for_operation (eo_operation_id demo_operation)) (eo_operation_id demo_operation)
    (eo_request_digest demo_operation) "fence-1" "tool" None ReconciliationRequired ExternalExecution
    (MkStepResult Completed ∅ None None) [demo_artifact "fence-1"] unmeasured 9.

Definition demo_operator : AuthenticatedPrincipal * AuthorizationEvidence :=
  (MkPrincipal "lead" Human MutualTls,
   MkEvidence "decision-1" "request-1" "lead" AA_ReconcileExecutionOperation (ScopeCeremony "ceremony-1")
     "digest" 7 0 300).

Lemma unknown_effect_is_settled_witness :
  ∃ s1 audit s2, runs_alone silent (execute_operation deaf_connector true (demo_claim "fence-2")) deaf_store
            (Ok (OutcomeReconciliation (eo_operation_id demo_operation))) s1 ∧
    runs_alone silent (reconcile_operation demo_operator demo_settlement) s1 (Ok (Reconciled demo_settlement audit)) s2 ∧
    runs_alone silent (execute_operation plain_connector true (demo_claim "fence-3")) s2
      (Ok (OutcomeReceipt demo_settlement)) s2.
Proof.
  destruct (unknown_effect_is_settled silent deaf_connector (demo_claim "fence-2") demo_operation deaf_store)
    as (s1 & i & Hrun & Hin & _ & Hrest).
  - split; [reflexivity|done|by eexists|done].
  - exact deaf_store_ok.
  - exists "request". split; reflexivity.
  - vm_compute. reflexivity.
  - vm_compute. reflexivity.
  - reflexivity.
  - intros i Hi. replace (intents_of deaf_store (eo_operation_id demo_operation)) with [demo_intent] in Hi
      by (vm_compute; reflexivity).
    apply list_elem_of_singleton in Hi as ->. split; vm_compute; reflexivity.
  - assert (i = demo_intent) as ->.
    { clear Hrest. unfold runs_alone in Hrun. vm_compute in Hrun. injection Hrun as <-.
      match type of Hin with i ∈ ?l => replace l with [demo_intent] in Hin by (vm_compute; reflexivity) end.
      by apply list_elem_of_singleton in Hin. }
    destruct (Hrest demo_operator demo_settlement) as (audit & s2 & Hrec & Hlater);
      [reflexivity|reflexivity|discriminate|reflexivity|].
    exists s1, audit, s2. split; [exact Hrun|]. split; [exact Hrec|]. apply Hlater. exists "request".
    split; reflexivity.
Defined.
