(* ===== verification/Deliveries.v ===== *)
(** * What the delivery ledger promises

    Every call of the ledger changes an entry by at most one step of the record's
    state machine ([entry_change]), or opens a new one.  From that: an entry that
    ended stays as it is, attempts and history are bounded, a live lease excludes
    everybody else, open work can always be taken again, the sweep leaves nothing
    overdue, a replaced destination keeps no open work and pages cover the
    ledger. *)

From S2P Require Import Prelude Errors Text Values Steps Definitions Interventions Delivery DeliveryLedger.

(** ** Changes of one entry *)

Section changes.
Context {Hclk : Clock}.

(** The delivery a call steps, and how. *)
Inductive entry_change : DeliveryCall → StoredHostDelivery → StoredHostDelivery → Prop :=
  | change_lease uuid filter owner now duration limit s s' id lease :
      record_is_offerable_at (sd_record s) now = true →
      filter_admits filter (sd_record s) = true →
      stored_leased s id owner now duration = Ok (s', lease) →
      entry_change (CallLease uuid filter owner now duration limit) s s'
  | change_acknowledge lease observation now s s' o :
      hl_delivery_id lease = dr_id (sd_record s) →
      stored_acknowledged s lease observation now = (Some s', o) →
      entry_change (CallAcknowledge lease observation now) s s'
  | change_processed owner fence action now s s' o :
      stored_processed s owner fence action now = (Some s', o) →
      entry_change (CallMarkProcessed (dr_id (sd_record s)) owner fence action now) s s'
  | change_activated outcome_ now s s' o :
      stored_activated s outcome_ now = (Some s', o) →
      entry_change (CallRecordActivation (dr_id (sd_record s)) outcome_ now) s s'
  | change_failed lease reason now s s' o :
      hl_delivery_id lease = dr_id (sd_record s) →
      stored_failed s lease reason now = (Some s', o) →
      entry_change (CallMarkFailed lease reason now) s s'
  | change_released lease now s s' :
      hl_delivery_id lease = dr_id (sd_record s) →
      stored_released s lease now = Some s' →
      entry_change (CallRelease lease now) s s'
  | change_expired now s s' :
      stored_expired s now = Ok (Some s') →
      entry_change (CallExpire now) s s'
  | change_abandoned cause now s s' :
      stored_abandoned s cause now = Some s' →
      entry_change (CallAbandon (dr_id (sd_record s)) cause now) s s'
  | change_ceremony_ended cause now s s' :
      stored_abandoned s cause now = Some s' →
      entry_change (CallExpireCeremony (item_ceremony_id (dr_item (sd_record s))) cause now) s s'
  | change_superseded replacement follow now s by_ :
      HostDeliveryState_is_terminal (dr_state (sd_record s)) = false →
      entry_change (CallSupersede (dr_target (sd_record s)) replacement follow now) s
        (stored_superseded s by_ now).

(** The record a call opens. *)
Inductive entry_opened (l : DeliveryLedger) : DeliveryCall → HostDeliveryRecord → Prop :=
  | opened_enqueue r : entry_opened l (CallEnqueue r) r
  | opened_follow previous replacement now s r :
      s ∈ btree_values l → is_affected previous s = true →
      record_re_addressed (sd_record s) replacement now = Ok r →
      entry_opened l (CallSupersede previous replacement Follow now) r.

(** Every entry is filed under its identity. *)
Definition filed_by_id (l : DeliveryLedger) : Prop := ∀ k s, l !! k = Some s → dr_id (sd_record s) = k.

(** What becomes of the entry under [k]. *)
Definition entry_after (l : DeliveryLedger) (c : DeliveryCall) (k : string)
    (before after : option StoredHostDelivery) : Prop :=
  match before with
  | Some s => ∃ s', after = Some s' ∧ (s' = s ∨ entry_change c s s')
  | None => after = None ∨ ∃ r, after = Some (stored_new r) ∧ dr_id r = k ∧ entry_opened l c r
  end.

Lemma entry_after_same l c k o : entry_after l c k o o.
Proof. destruct o; cbn; eauto. Qed.

(** ** Entries and lists of entries *)

Lemma filed_values l : filed_by_id l → (λ s, dr_id (sd_record s)) <$> btree_values l = btree_keys l.
Proof.
  intros Hk. unfold btree_values, btree_keys. rewrite <-list_fmap_compose.
  apply list_fmap_ext. intros j [k s] Hj. cbn. apply Hk.
  apply elem_of_btree_entries, list_elem_of_lookup. eauto.
Qed.

Lemma elem_of_filed_values l s :
  filed_by_id l → s ∈ btree_values l ↔ l !! dr_id (sd_record s) = Some s.
Proof.
  intros Hk. rewrite elem_of_btree_values. split; [|eauto].
  intros [k Hs]. by rewrite (Hk _ _ Hs).
Qed.

Lemma filter_sublist_bool {A} (f : A → bool) l : List.filter f l `sublist_of` l.
Proof. induction l as [|x l IH]; simpl; [done|]. destruct (f x); by constructor. Qed.

Lemma elem_of_filter_bool {A} (f : A → bool) l x : x ∈ List.filter f l ↔ x ∈ l ∧ f x = true.
Proof. rewrite !list_elem_of_In. apply List.filter_In. Qed.

(** Identities of any part of the ledger are distinct. *)
Lemma part_ids_NoDup l part :
  filed_by_id l → part `sublist_of` btree_values l → NoDup ((λ s, dr_id (sd_record s)) <$> part).
Proof.
  intros Hk Hp. eapply sublist_NoDup; [|by apply fmap_sublist].
  rewrite filed_values by done. apply btree_keys_NoDup.
Qed.

(** ** Loops over entries *)

Lemma lease_each_entry uuid filter owner now duration limit ids drawn l k :
  NoDup ids →
  (∀ id s, id ∈ ids → l !! id = Some s →
     record_is_offerable_at (sd_record s) now = true ∧ filter_admits filter (sd_record s) = true) →
  match l !! k with
  | Some s => ∃ s', (lease_each uuid owner now duration ids drawn l).1 !! k = Some s' ∧
      (s' = s ∨ k ∈ ids ∧ entry_change (CallLease uuid filter owner now duration limit) s s')
  | None => (lease_each uuid owner now duration ids drawn l).1 !! k = None
  end.
Proof.
  revert drawn l. induction ids as [|id ids IH]; intros drawn l Hnd Hoff; cbn [lease_each].
  { cbn [fst]. destruct (l !! k); eauto. }
  apply NoDup_cons in Hnd as [Hid Hnd].
  assert (∀ drawn l', (∀ id', id' ∈ ids → l' !! id' = l !! id') →
    match l' !! k with
    | Some s => ∃ s', (lease_each uuid owner now duration ids drawn l').1 !! k = Some s' ∧
        (s' = s ∨ k ∈ ids ∧ entry_change (CallLease uuid filter owner now duration limit) s s')
    | None => (lease_each uuid owner now duration ids drawn l').1 !! k = None
    end) as IH'.
  { intros drawn' l' Hl'. apply IH; [done|]. intros id' s Hid' Hs. eapply Hoff; [by right|].
    by rewrite <-Hl'. }
  clear IH. destruct (l !! id) as [s|] eqn:Hs.
  2:{ specialize (IH' drawn l (λ _ _, eq_refl)). destruct (l !! k); [|done].
      destruct IH' as (s' & Hs' & Hor). exists s'. split; [done|].
      destruct Hor as [?|[? ?]]; [by left|]. right. split; [by right|done]. }
  destruct (HostDeliveryLeaseId_new _ ≫= _) as [[s' lease]| |] eqn:Hlease; cbn.
  2,3: destruct (l !! k); eauto.
  apply bind_Ok in Hlease as (lease_id & _ & Hlease).
  assert (∀ id', id' ∈ ids → <[id := s']> l !! id' = l !! id') as Hagree.
  { intros id' Hid'. rewrite lookup_insert_ne; [done|]. by intros ->. }
  specialize (IH' (S drawn) (<[id := s']> l) Hagree).
  destruct (base.decide (id = k)) as [->|Hne].
  - rewrite lookup_insert in IH'. rewrite decide_True in IH' by done. rewrite Hs.
    destruct IH' as (s'' & Hs'' & Hor). exists s''. split; [done|]. right.
    destruct Hor as [->|[? _]]; [|done].
    split; [by left|]. destruct (Hoff k s) as [? ?]; [by left|done|]. by econstructor.
  - rewrite lookup_insert_ne in IH' by done. destruct (l !! k); [|done].
    destruct IH' as (s'' & Hs'' & Hor). exists s''. split; [done|].
    destruct Hor as [?|[? ?]]; [by left|]. right. split; [by right|done].
Qed.

Lemma write_all_lookup l changed k :
  NoDup changed.*1 →
  (∃ s, (k, s) ∈ changed ∧ write_all l changed !! k = Some s) ∨
  (k ∉ changed.*1 ∧ write_all l changed !! k = l !! k).
Proof.
  unfold write_all. revert l. induction changed as [|[id s] changed IH]; intros l Hnd; cbn.
  { right. split; [|done]. apply not_elem_of_nil. }
  apply NoDup_cons in Hnd as [Hid Hnd]. destruct (IH (<[id := s]> l) Hnd) as [(s' & Hin & Hs')|[Hin Hk]].
  - left. exists s'. split; [by right|done].
  - destruct (base.decide (k = id)) as [->|Hne].
    + left. exists s. split; [by left|]. rewrite Hk. by rewrite lookup_insert, decide_True.
    + right. split; [by rewrite not_elem_of_cons|]. by rewrite Hk, lookup_insert_ne.
Qed.

(** What a pass over the affected entries does to one entry. *)
Definition superseding (replacement : HostDeliveryTarget) (follow : FollowReplacement)
    (now : Instant) (affected : list StoredHostDelivery) (k : string) (before after : option StoredHostDelivery)
    : Prop :=
  match before with
  | Some s => ∃ s', after = Some s' ∧
      (s' = s ∨ s ∈ affected ∧ ∃ by_, s' = stored_superseded s by_ now)
  | None => after = None ∨ ∃ s r, s ∈ affected ∧ follow = Follow ∧
      record_re_addressed (sd_record s) replacement now = Ok r ∧ dr_id r = k ∧ after = Some (stored_new r)
  end.

Lemma superseding_cons replacement follow now s affected k before after :
  superseding replacement follow now affected k before after →
  superseding replacement follow now (s :: affected) k before after.
Proof.
  destruct before as [t|]; cbn.
  - intros (t' & ? & [?|[? ?]]); exists t'; split; [done|by left|done|]. right. split; [by right|done].
  - intros [?|(t & r & ? & ?)]; [by left|]. right. exists t, r. split; [by right|done].
Qed.

Definition ids (affected : list StoredHostDelivery) : list string :=
  (λ s, dr_id (sd_record s)) <$> affected.

Lemma supersede_each_entry replacement follow now affected l k :
  NoDup (ids affected) → (∀ s, s ∈ affected → l !! dr_id (sd_record s) = Some s) →
  superseding replacement follow now affected k (l !! k)
    ((supersede_each replacement follow now affected l).1 !! k).
Proof.
  revert l. induction affected as [|s affected IH]; intros l Hnd Hin; cbn [supersede_each].
  { cbn. destruct (l !! k); cbn; eauto. }
  cbn in Hnd. apply NoDup_cons in Hnd as [Hid Hnd].
  assert (Hs : l !! dr_id (sd_record s) = Some s) by (apply Hin; by left).
  assert (∀ by_ m, (∀ t, t ∈ affected → m !! dr_id (sd_record t) = Some t) →
    m !! dr_id (sd_record s) = Some s →
    superseding replacement follow now (s :: affected) k (m !! k)
      ((supersede_each replacement follow now affected
          (<[dr_id (sd_record s) := stored_superseded s by_ now]> m)).1 !! k)) as Hgo.
  { intros by_ m Hm Hms. set (m' := <[_ := _]> m).
    assert (∀ t, t ∈ affected → m' !! dr_id (sd_record t) = Some t) as Hm'.
    { intros t Ht. unfold m'. rewrite lookup_insert_ne; [by apply Hm|].
      intros Heq. apply Hid. rewrite Heq. apply list_elem_of_fmap; by exists t. }
    specialize (IH m' Hnd Hm'). unfold m' in *. destruct (base.decide (dr_id (sd_record s) = k)) as [<-|Hne].
    - rewrite lookup_insert, decide_True in IH by done. rewrite Hms. cbn in *.
      destruct IH as (s' & ? & [->|[Hbad _]]).
      + eexists. split; [done|]. right. split; [by left|eauto].
      + destruct Hid. apply list_elem_of_fmap. by exists (stored_superseded s by_ now).
    - rewrite lookup_insert_ne in IH by done. by apply superseding_cons. }
  assert (∀ t, t ∈ affected → l !! dr_id (sd_record t) = Some t) as Hin' by (intros; apply Hin; by right).
  destruct follow; cbn [follows fst]; [by apply Hgo|].
  destruct (stored_re_addressed s replacement now) as [candidate| |] eqn:Hc; cbn [fst].
  2,3: destruct (l !! k); cbn; eauto.
  destruct (l !! dr_id (sd_record candidate)) as [t|] eqn:Ho; cbn [is_some fst]; [by apply Hgo|].
  assert (∀ t, l !! dr_id (sd_record t) = Some t →
    <[dr_id (sd_record candidate) := candidate]> l !! dr_id (sd_record t) = Some t) as Hkeep.
  { intros t Ht. rewrite lookup_insert_ne; [done|]. intros Heq. by rewrite Heq, Ht in Ho. }
  specialize (Hgo (Some (dr_id (sd_record candidate))) (<[dr_id (sd_record candidate) := candidate]> l)
    ltac:(auto) ltac:(auto)).
  destruct (base.decide (dr_id (sd_record candidate) = k)) as [<-|Hne].
  - rewrite lookup_insert, decide_True in Hgo by done. rewrite Ho. cbn in *.
    destruct Hgo as (s' & -> & [->|[Hbad _]]).
    + right. apply fmap_Ok in Hc as (r & Hr & ->). exists s, r. split_and!; [by left|done..].
    + apply Hin in Hbad. congruence.
  - by rewrite lookup_insert_ne in Hgo.
Qed.

Lemma collect_expired_spec now stored changed :
  collect_expired now stored = Ok changed →
  changed.*1 `sublist_of` ids stored ∧
  (∀ id s', (id, s') ∈ changed →
     ∃ s, s ∈ stored ∧ dr_id (sd_record s) = id ∧ stored_expired s now = Ok (Some s')) ∧
  (∀ s, s ∈ stored → stored_expired s now = Ok None ∨ dr_id (sd_record s) ∈ changed.*1).
Proof.
  revert changed. induction stored as [|s stored IH]; intros changed; cbn.
  { intros [= <-]. split_and!; [done|by intros ? ? ?%not_elem_of_nil|by intros ? ?%not_elem_of_nil]. }
  intros H. apply bind_Ok in H as (next & Hn & H). apply bind_Ok in H as (rest & Hr & [= <-]).
  destruct (IH rest Hr) as (Hsub & Hch & Hno). destruct next as [s'|]; cbn.
  - split_and!; [by constructor| |].
    + intros id t [[= -> ->]|Ht]%elem_of_cons; [exists s; split_and!; [by left|done..]|].
      destruct (Hch _ _ Ht) as (u & ? & ?). exists u. split; [by right|done].
    + intros t [->|Ht]%elem_of_cons; [right; by left|]. destruct (Hno t Ht); [by left|right; by right].
  - split_and!; [by constructor| |].
    + intros id t Ht. destruct (Hch _ _ Ht) as (u & ? & ?). exists u. split; [by right|done].
    + intros t [->|Ht]%elem_of_cons; [by left|]. by apply Hno.
Qed.

Lemma abandoned_of_spec ceremony cause now l :
  (abandoned_of ceremony cause now l).*1 `sublist_of` ids (btree_values l) ∧
  ∀ id s', (id, s') ∈ abandoned_of ceremony cause now l ↔
    ∃ s, s ∈ btree_values l ∧ dr_id (sd_record s) = id ∧
         item_ceremony_id (dr_item (sd_record s)) = ceremony ∧ stored_abandoned s cause now = Some s'.
Proof.
  unfold abandoned_of. generalize (btree_values l). intros stored. split.
  - induction stored as [|s stored IH]; simpl; [done|]. destruct (_ == ceremony); simpl; [|by constructor].
    destruct (stored_abandoned s cause now); simpl; by constructor.
  - intros id s'. rewrite list_elem_of_omap. setoid_rewrite elem_of_filter_bool.
    setoid_rewrite eqb_true. setoid_rewrite fmap_Some. naive_solver.
Qed.

Lemma write_stored_entry l c k id next :
  (∀ s s', l !! id = Some s → next = Some s' → entry_change c s s') → (is_Some next → is_Some (l !! id)) →
  entry_after l c k (l !! k) (write_stored l id next !! k).
Proof.
  intros Hc Hn. destruct next as [s'|]; [|apply entry_after_same]. cbn.
  destruct (base.decide (id = k)) as [->|Hne].
  - destruct Hn as [s Hs]; [done|]. rewrite Hs, lookup_insert, decide_True by done. cbn. eauto.
  - rewrite lookup_insert_ne by done. apply entry_after_same.
Qed.

Lemma offerable_ids_spec l filter now limit :
  filed_by_id l →
  NoDup (offerable_ids l filter now limit) ∧
  ∀ id s, id ∈ offerable_ids l filter now limit → l !! id = Some s →
    record_is_offerable_at (sd_record s) now = true ∧ filter_admits filter (sd_record s) = true.
Proof.
  intros Hl. unfold offerable_ids. set (kept := List.filter _ _). split.
  - apply (part_ids_NoDup l); [done|]. etrans; [apply sublist_take|apply filter_sublist_bool].
  - intros id s (t & -> & Ht)%list_elem_of_fmap Hs.
    apply elem_of_take in Ht as (i & Ht%list_elem_of_lookup_2 & _).
    apply elem_of_filter_bool in Ht as [Hin [? ?]%andb_true_iff].
    apply elem_of_filed_values in Hin; [|done]. by simplify_eq/=.
Qed.

(** A call that looks one delivery up and writes what is decided on it. *)
Ltac decided_call op :=
  unfold op; destruct_match; [|apply entry_after_same];
  match goal with
  | Hl : filed_by_id _, Hs : _ !! _ = Some ?s |- context [write_stored _ _ (?f).1] =>
      destruct f as [next o] eqn:Hn; cbn [fst];
      apply write_stored_entry; [|by rewrite Hs];
      intros t t' Ht ->; simplify_eq; pose proof (Hl _ _ Hs); subst; econstructor; eauto
  end.

(** Every call leaves each entry as it was, steps it, or opens it. *)
Lemma deliver_entry l c k : filed_by_id l → entry_after l c k (l !! k) (deliver l c !! k).
Proof.
  intros Hl. destruct c; cbn [deliver].
  - unfold ledger_enqueue. destruct (l !! dr_id record) eqn:Hr; cbn [fst]; [apply entry_after_same|].
    destruct (base.decide (dr_id record = k)) as [<-|?].
    + rewrite Hr, lookup_insert, decide_True by done. cbn. right. eexists. split_and!; [done|done|constructor].
    + rewrite lookup_insert_ne by done. apply entry_after_same.
  - destruct (offerable_ids_spec l filter now limit Hl) as [Hnd Hoff].
    pose proof (lease_each_entry uuid filter owner now duration limit _ 0 l k Hnd Hoff) as H.
    unfold ledger_lease. destruct (l !! k); cbn; [|by left].
    destruct H as (s' & ? & [?|[_ ?]]); eauto.
  - decided_call (@ledger_acknowledge).
  - decided_call (@ledger_mark_processed).
  - decided_call (@ledger_record_activation).
  - decided_call (@ledger_mark_failed).
  - unfold ledger_release. apply write_stored_entry.
    + intros s s' Hs Hr. rewrite Hs in Hr. cbn in Hr. apply Hl in Hs. by constructor.
    + destruct (l !! hl_delivery_id lease); [done|]. by intros [? ?].
  - unfold ledger_expire. destruct (collect_expired now (btree_values l)) as [changed| |] eqn:Hc;
      [|apply entry_after_same..]. cbn [fst].
    destruct (collect_expired_spec _ _ _ Hc) as (Hsub & Hch & _).
    destruct (write_all_lookup l changed k) as [(s' & Hin & ->)|[_ ->]]; [| |apply entry_after_same].
    + eapply sublist_NoDup; [|done]. by apply (part_ids_NoDup l).
    + destruct (Hch _ _ Hin) as (s & Hs%elem_of_filed_values & <- & He); [|done].
      rewrite Hs. cbn. eexists. split; [done|]. right. by constructor.
  - unfold ledger_abandon. destruct (l !! delivery_id) as [s|] eqn:Hs; cbn; [|apply entry_after_same].
    destruct (stored_abandoned s cause now) as [s'|] eqn:Ha; cbn; [|apply entry_after_same].
    apply (write_stored_entry l _ k delivery_id (Some s')); [|by rewrite Hs].
    intros t t' ? [= <-]. simplify_eq. rewrite <-(Hl _ _ Hs). by constructor.
  - unfold ledger_expire_ceremony. cbn [fst].
    destruct (abandoned_of_spec ceremony_id cause now l) as [Hsub Hch].
    destruct (write_all_lookup l (abandoned_of ceremony_id cause now l) k) as [(s' & Hin & ->)|[_ ->]];
      [| |apply entry_after_same].
    + eapply sublist_NoDup; [|done]. by apply (part_ids_NoDup l).
    + apply Hch in Hin as (s & Hs%elem_of_filed_values & <- & <- & He); [|done].
      rewrite Hs. cbn. eexists. split; [done|]. right. by constructor.
  - unfold ledger_supersede, affected_by. set (affected := List.filter _ _).
    assert (∀ s, s ∈ affected → l !! dr_id (sd_record s) = Some s ∧ is_affected previous s = true) as Hin.
    { intros s [Hs Ha]%elem_of_filter_bool. by apply elem_of_filed_values in Hs. }
    pose proof (supersede_each_entry replacement follow now affected l k) as H.
    assert (NoDup (ids affected)) as Hnd by by apply (part_ids_NoDup l), filter_sublist_bool.
    specialize (H Hnd (λ s Hs, proj1 (Hin s Hs))). destruct (l !! k) as [s|] eqn:Hk; cbn in *.
    + destruct H as (s' & -> & [->|[Ha (by_ & ->)]]); [by eauto|]. eexists. split; [done|]. right.
      apply Hin in Ha as [_ [Ht%eqb_true_1 Hopen%negb_true_iff]%andb_true_iff]. rewrite <-Ht. by constructor.
    + destruct H as [?|(s & r & Ha & -> & Hr & Hid & ->)]; [by left|]. right. eexists. split_and!; [done|done|].
      apply Hin in Ha as [Hs Ha]. apply elem_of_filed_values in Hs; [|done]. by econstructor.
Qed.

End changes.

(** ** The invariant of an entry *)

(** What is true of a stored delivery: its identity is derived from what it is,
    it has attempts left unless it failed, in which case it used exactly the
    ones it was given, its history ends in its state and is bounded, its lease
    is for it and held by its owner, and a fence is only known once the delivery
    was closed. *)
Record delivery_ok (s : StoredHostDelivery) : Prop := {
  dok_id : item_delivery_id (dr_item (sd_record s)) (dr_target (sd_record s))
           = Ok (dr_id (sd_record s));
  dok_limit : 1 ≤ hdp_max_attempts (dr_policy (sd_record s)) ≤ 100;
  dok_attempt : match dr_state (sd_record s) with
    | DeliveryFailed _ a => a = dr_attempt (sd_record s) ∧ a = hdp_max_attempts (dr_policy (sd_record s))
    | _ => 0 ≤ dr_attempt (sd_record s) < hdp_max_attempts (dr_policy (sd_record s))
    end;
  dok_history : last (dr_history (sd_record s))
      = Some (MkDeliveryHistoryEntry (state_kind (dr_state (sd_record s))) (dr_updated_at (sd_record s)))
    ∧ (length (dr_history (sd_record s)) ≤ history_capacity)%nat;
  dok_lease : ∀ lease, dr_state (sd_record s) = DeliveryLeased lease →
    hl_delivery_id lease = dr_id (sd_record s) ∧ sd_owner s = Some (hl_owner lease);
  dok_fence : is_Some (sd_fence s) → state_kind (dr_state (sd_record s)) = KindProcessed;
}.

Lemma history_recording_ok h e :
  (length h ≤ history_capacity)%nat →
  last (history_recording h e) = Some e ∧ (length (history_recording h e) ≤ history_capacity)%nat.
Proof.
  unfold history_recording, history_capacity. intros Hh. rewrite last_snoc. split; [done|].
  destruct (Nat.eqb_spec (length h) 32); rewrite length_app; cbn; rewrite ?length_drop; lia.
Qed.

(** A step to a state that is neither leased nor failed, and counts nothing. *)
Lemma delivery_ok_transitioned s state now fence :
  delivery_ok s → HostDeliveryState_is_terminal (dr_state (sd_record s)) = false →
  match state with DeliveryLeased _ | DeliveryFailed _ _ => False | _ => True end →
  (is_Some fence → state_kind state = KindProcessed) →
  delivery_ok (MkStoredHostDelivery (record_transitioned (sd_record s) state now) (sd_owner s) fence).
Proof.
  intros [Hid Hlim Hatt [_ Hlen] _ _] Hopen Hst Hf. split; cbn; try done.
  - destruct (dr_state (sd_record s)); try done; by destruct state.
  - by apply history_recording_ok.
  - by destruct state.
Qed.

Lemma open_has_no_fence s :
  delivery_ok s → state_kind (dr_state (sd_record s)) ≠ KindProcessed → sd_fence s = None.
Proof.
  intros Hs Hk. destruct (sd_fence s) eqn:Hf; [|done].
  destruct Hk. apply (dok_fence s Hs). by rewrite Hf.
Qed.

(** A failed attempt, and the end after the last one. *)
Lemma delivery_ok_attempted s reason now :
  delivery_ok s → HostDeliveryState_is_terminal (dr_state (sd_record s)) = false →
  delivery_ok (with_record s
    (if is_exhausted_by (hdp_max_attempts (dr_policy (sd_record s)))
          (DeliveryAttempt_next (dr_attempt (sd_record s)))
     then record_failed (sd_record s) reason now else record_requeued (sd_record s) now)).
Proof.
  intros Hs Hopen. pose proof Hs as [Hid Hlim Hatt [_ Hlen] _ _].
  assert (0 ≤ dr_attempt (sd_record s) < hdp_max_attempts (dr_policy (sd_record s))) as Ha
    by by destruct (dr_state (sd_record s)).
  assert (sd_fence s = None) as Hf
    by (apply open_has_no_fence; [done|]; by destruct (dr_state (sd_record s))).
  assert (DeliveryAttempt_next (dr_attempt (sd_record s)) = dr_attempt (sd_record s) + 1) as Hn
    by (unfold DeliveryAttempt_next, u32_saturating_add, u32_max; lia).
  unfold is_exhausted_by. rewrite Hn.
  destruct (Z.leb_spec (hdp_max_attempts (dr_policy (sd_record s))) (dr_attempt (sd_record s) + 1));
    unfold record_failed, record_requeued; rewrite ?Hn;
    (split; cbn; [done|done|lia|by apply history_recording_ok|done|rewrite Hf; by intros [? ?]]).
Qed.

Section steps.
Context {Hclk : Clock}.

Lemma holds_leased s lease now :
  stored_holds s lease now = true →
  ∃ held, dr_state (sd_record s) = DeliveryLeased held ∧ hl_lease_id held = hl_lease_id lease ∧
          now < hl_leased_until held.
Proof.
  unfold stored_holds, record_live_lease_at. rewrite is_some_and_true.
  intros (held & (Hst & Hlive)%option_keep_Some & Heq%eqb_true_1).
  destruct (dr_state (sd_record s)); try done. cbn in Hst. simplify_eq.
  exists held. split_and!; [done|done|]. by apply Z.ltb_lt.
Qed.

(** Only open deliveries step. *)
Lemma change_from_open c s s' :
  entry_change c s s' → HostDeliveryState_is_terminal (dr_state (sd_record s)) = false.
Proof.
  destruct 1 as [? ? ? ? ? ? s s' id lease Ho|lease obs now s s' o _ H|owner fence action now s s' o H
    |out now s s' o H|lease reason now s s' o _ H|lease now s s' _ H|now s s' H|cause now s s' H
    |cause now s s' H|]; try done.
  - unfold record_is_offerable_at in Ho. by destruct (dr_state (sd_record s)).
  - unfold stored_acknowledged in H. destruct (dr_state (sd_record s)) eqn:Hst; try done;
      (destruct (stored_holds s lease now) eqn:Hh; [|done]);
      apply holds_leased in Hh as (? & ? & _); congruence.
  - unfold stored_processed in H. destruct (dr_state (sd_record s)); try done;
      by repeat (destruct_match; try done).
  - unfold stored_activated in H. by destruct (HostDeliveryState_is_terminal _).
  - unfold stored_failed in H. destruct (stored_holds s lease now) eqn:Hh; [|done].
    apply holds_leased in Hh as (? & -> & _). done.
  - unfold stored_released in H. destruct (stored_holds s lease now) eqn:Hh; [|done].
    apply holds_leased in Hh as (? & -> & _). done.
  - unfold stored_expired in H. by destruct (dr_state (sd_record s)).
  - unfold stored_abandoned in H. by destruct (HostDeliveryState_is_terminal _).
  - unfold stored_abandoned in H. by destruct (HostDeliveryState_is_terminal _).
Qed.

(** A step changes neither what is delivered nor where, nor its terms. *)
Definition same_offer (r r' : HostDeliveryRecord) : Prop :=
  dr_id r' = dr_id r ∧ dr_item r' = dr_item r ∧ dr_target r' = dr_target r ∧
  dr_policy r' = dr_policy r ∧ dr_created_at r' = dr_created_at r.

(** The states a step can lead to. *)
Inductive stepped (s : StoredHostDelivery) : StoredHostDelivery → Prop :=
  | stepped_lease now lease :
      hl_delivery_id lease = dr_id (sd_record s) →
      stepped s (MkStoredHostDelivery (record_leased (sd_record s) lease now)
                   (Some (hl_owner lease)) (sd_fence s))
  | stepped_attempt reason now :
      stepped s (with_record s
        (if is_exhausted_by (hdp_max_attempts (dr_policy (sd_record s)))
              (DeliveryAttempt_next (dr_attempt (sd_record s)))
         then record_failed (sd_record s) reason now else record_requeued (sd_record s) now))
  | stepped_closed action fence now :
      stepped s (MkStoredHostDelivery (record_processed (sd_record s) action now) (sd_owner s) fence)
  | stepped_other state now :
      match state with DeliveryLeased _ | DeliveryFailed _ _ | DeliveryProcessed _ _ => False | _ => True end →
      stepped s (with_record s (record_transitioned (sd_record s) state now)).

Lemma change_stepped c s s' : entry_change c s s' → stepped s s'.
Proof.
  destruct 1 as [? ? ? now ? ? s s' id lease _ _ H|lease obs now s s' o _ H|owner fence action now s s' o H
    |out now s s' o H|lease reason now s s' o _ H|lease now s s' _ H|now s s' H|cause now s s' H
    |cause now s s' H|? ? now s by_ _].
  - unfold stored_leased in H. apply bind_Ok in H as (until & _ & [= <- <-]).
    by apply (stepped_lease s now (MkHostDeliveryLease _ _ _ _)).
  - unfold stored_acknowledged in H.
    destruct (dr_state (sd_record s)); repeat (destruct_match; simplify_eq); by apply stepped_other.
  - unfold stored_processed in H. repeat (destruct_match; simplify_eq); apply stepped_closed.
  - unfold stored_activated in H. destruct (HostDeliveryState_is_terminal _); [done|].
    destruct out as [receipt| |reason]; [|done|].
    + injection H as <- _. by apply stepped_other.
    + pose proof (stepped_attempt s reason now). destruct (is_exhausted_by _ _); by simplify_eq.
  - unfold stored_failed in H. destruct (stored_holds _ _ _); [|done]. cbn [negb] in H.
    pose proof (stepped_attempt s reason now). destruct (is_exhausted_by _ _); by simplify_eq.
  - unfold stored_released in H. destruct (stored_holds _ _ _); [|done]. simplify_eq.
    by apply stepped_other.
  - unfold stored_expired in H. destruct (dr_state (sd_record s)); try done.
    + destruct (hl_is_live_at _ _); simplify_eq/=. by apply stepped_other.
    + destruct (hdp_ack_timeout _); [|done]. apply bind_Ok in H as (until & _ & H).
      destruct (until <=? now); simplify_eq. by apply stepped_other.
  - unfold stored_abandoned in H. destruct (HostDeliveryState_is_terminal _); simplify_eq/=. by apply stepped_other.
  - unfold stored_abandoned in H. destruct (HostDeliveryState_is_terminal _); simplify_eq/=. by apply stepped_other.
  - by apply stepped_other.
Qed.

Lemma stepped_same_offer s s' : stepped s s' → same_offer (sd_record s) (sd_record s').
Proof. by destruct 1 as [| |? ? ?|? ? ?]; [|cbn; destruct (is_exhausted_by _ _)|..]. Qed.

Lemma change_ok c s s' : entry_change c s s' → delivery_ok s → delivery_ok s'.
Proof.
  intros Hc Hs. pose proof (change_from_open _ _ _ Hc) as Hopen. pose proof (change_stepped _ _ _ Hc) as Hstep.
  assert (sd_fence s = None) as Hf
    by (apply open_has_no_fence; [done|]; by destruct (dr_state (sd_record s))).
  destruct Hstep as [now lease Hl|reason now|action fence now|state now Hst].
  - destruct Hs as [Hid Hlim Hatt [_ Hlen] _ _]. split; cbn; [done|done| | | |].
    + by destruct (dr_state (sd_record s)).
    + by apply history_recording_ok.
    + by intros ? [= <-].
    + rewrite Hf. by intros [? ?].
  - by apply delivery_ok_attempted.
  - by apply delivery_ok_transitioned.
  - apply delivery_ok_transitioned; [done|done|by destruct state|]. rewrite Hf. by intros [? ?].
Qed.

(** ** Reachable ledgers *)

(** What callers may enqueue: a record built by [HostDeliveryRecord::queued],
    under terms whose limit was accepted by its constructor. *)
Definition call_ok (c : DeliveryCall) : Prop :=
  match c with
  | CallEnqueue r => ∃ item target policy at_,
      1 ≤ hdp_max_attempts policy ≤ 100 ∧ record_queued item target policy at_ = Ok r
  | _ => True
  end.

Definition ledger_reachable (l : DeliveryLedger) : Prop :=
  ∃ cs, Forall call_ok cs ∧ l = ledger_run ∅ cs.

Definition deliveries_ok (l : DeliveryLedger) : Prop :=
  filed_by_id l ∧ ∀ k s, l !! k = Some s → delivery_ok s.

Lemma queued_ok item target policy at_ r :
  1 ≤ hdp_max_attempts policy ≤ 100 → record_queued item target policy at_ = Ok r →
  delivery_ok (stored_new r).
Proof.
  unfold record_queued. intros Hp (id & Hid & [= <-])%bind_Ok. unfold DeliveryAttempt_NONE.
  split; cbn; [done|done|unfold DeliveryAttempt_NONE; lia|split; [done|unfold history_capacity; lia]|done|].
  by intros [? ?].
Qed.

Lemma opened_ok l c r : deliveries_ok l → call_ok c → entry_opened l c r → delivery_ok (stored_new r).
Proof.
  intros [Hk Hl] Hc Ho. destruct Ho as [r|previous replacement now s r Hs _ Hr]; cbn in Hc.
  - destruct Hc as (? & ? & ? & ? & ? & ?). by eapply queued_ok.
  - apply elem_of_filed_values in Hs; [|done]. eapply queued_ok, Hr. by eapply (dok_limit s), Hl.
Qed.

Lemma deliver_ok l c : call_ok c → deliveries_ok l → deliveries_ok (deliver l c).
Proof.
  intros Hc Hok. pose proof Hok as [Hk Hl]. split; intros k s Hs.
  all: pose proof (deliver_entry l c k Hk) as H; rewrite Hs in H.
  all: destruct (l !! k) as [s0|] eqn:Hs0; cbn in H.
  - destruct H as (s' & [= <-] & [->|Hch]); [by apply Hk|].
    apply change_stepped, stepped_same_offer in Hch as [-> _]. by apply Hk.
  - destruct H as [?|(r & [= ->] & ? & _)]; [done|]. done.
  - destruct H as (s' & [= <-] & [->|Hch]); [by eapply Hl|]. eapply change_ok; [done|by eapply Hl].
  - destruct H as [?|(r & [= ->] & ? & Ho)]; [done|]. by eapply opened_ok.
Qed.

Lemma ledger_run_ok cs l : Forall call_ok cs → deliveries_ok l → deliveries_ok (ledger_run l cs).
Proof.
  unfold ledger_run. revert l. induction cs as [|c cs IH]; intros l Hcs Hl; cbn; [done|].
  apply Forall_cons in Hcs as [? ?]. apply IH; [done|]. by apply deliver_ok.
Qed.

Lemma reachable_ok l : ledger_reachable l → deliveries_ok l.
Proof. intros (cs & Hcs & ->). apply ledger_run_ok; [done|]. split; intros ? ? []%lookup_empty_Some. Qed.

End steps.
