(* ===== verification/Offers.v ===== *)
(** * Theorems on the delivery ledger

    The promises of [HostDeliveryLedgerPort], for every ledger reachable by any
    calls in any order, and a run of the ledger that uses them. *)

From S2P Require Import Prelude Errors Text Values Steps Definitions Interventions Delivery DeliveryLedger Deliveries.

Section theorems.
Context {Hclk : Clock}.

(** Entries are never dropped, and a step keeps what is offered. *)
Lemma entry_persists l cs k s :
  deliveries_ok l → Forall call_ok cs → l !! k = Some s →
  ∃ s', ledger_run l cs !! k = Some s' ∧ same_offer (sd_record s) (sd_record s') ∧
        (HostDeliveryState_is_terminal (dr_state (sd_record s)) = true → s' = s).
Proof.
  unfold ledger_run. revert l s. induction cs as [|c cs IH]; intros l s Hl Hcs Hs; cbn.
  { exists s. by split_and!. }
  apply Forall_cons in Hcs as [Hc Hcs]. pose proof (deliver_entry l c k (proj1 Hl)) as H.
  rewrite Hs in H. destruct H as (s1 & Hs1 & Hor).
  destruct (IH (deliver l c) s1) as (s' & Hs' & Hsame & Hend); [by apply deliver_ok|done|done|].
  exists s'. split; [done|]. destruct Hor as [->|Hch]; [done|]. split.
  - apply change_stepped, stepped_same_offer in Hch as (E1 & E2 & E3 & E4 & E5).
    destruct Hsame as (? & ? & ? & ? & ?). by split_and!; etrans.
  - apply change_from_open in Hch. congruence.
Qed.

(** Every stored delivery is filed under the identity derived from its item and
    destination, has attempts left unless it failed, in which case it used
    exactly the attempts its terms allow, remembers its last states with the
    current one at the end, and is leased to the owner the store fences by. *)
Theorem delivery_ledger_is_sound l k s :
  ledger_reachable l → l !! k = Some s → dr_id (sd_record s) = k ∧ delivery_ok s.
Proof. intros [Hk Hl]%reachable_ok Hs. split; [by apply Hk|by eapply Hl]. Qed.

(** Whatever calls follow, a delivery stays in the ledger with its item,
    destination and terms, and one that ended is not touched again. *)
Theorem ended_delivery_is_final l cs k s :
  ledger_reachable l → Forall call_ok cs → l !! k = Some s →
  ∃ s', ledger_run l cs !! k = Some s' ∧ same_offer (sd_record s) (sd_record s') ∧
        (HostDeliveryState_is_terminal (dr_state (sd_record s)) = true → s' = s).
Proof. intros Hl%reachable_ok. by apply entry_persists. Qed.

(** ** Exclusion *)

(** A call that neither comes after the lease ran out, nor presents the lease,
    nor is one of the calls that take a delivery back without it: an activation,
    an abandonment, the end of the ceremony or a replaced destination. *)
Definition leaves_lease (r : HostDeliveryRecord) (lease : HostDeliveryLease) (c : DeliveryCall) : Prop :=
  match c with
  | CallEnqueue _ | CallMarkProcessed _ _ _ _ _ => True
  | CallLease _ _ _ now _ _ | CallExpire now => now < hl_leased_until lease
  | CallAcknowledge other _ _ | CallMarkFailed other _ _ | CallRelease other _ =>
      hl_delivery_id other = dr_id r → hl_lease_id other ≠ hl_lease_id lease
  | CallRecordActivation id _ _ | CallAbandon id _ _ => id ≠ dr_id r
  | CallExpireCeremony ceremony _ _ => ceremony ≠ item_ceremony_id (dr_item r)
  | CallSupersede previous _ _ _ => previous ≠ dr_target r
  end.

Lemma lease_not_changed c s s' lease :
  dr_state (sd_record s) = DeliveryLeased lease → leaves_lease (sd_record s) lease c →
  ¬ entry_change c s s'.
Proof.
  assert (∀ other now, dr_state (sd_record s) = DeliveryLeased lease →
    hl_lease_id other ≠ hl_lease_id lease → stored_holds s other now = false) as Hno.
  { intros other now Hst Hne. destruct (stored_holds s other now) eqn:Hh; [|done].
    apply holds_leased in Hh as (? & ? & ? & _). congruence. }
  intros Hst Hc Hch. destruct Hch as [? ? ? ? ? ? s s' ? ? Ho|other ? ? s s' ? Hid H|? ? ? ? s s' ? H| | ? ? ? s s' ? Hid H
    |? ? s s' Hid H|? s s' H| | |]; cbn in Hc; try done.
  - unfold record_is_offerable_at, hl_is_live_at in Ho. rewrite Hst in Ho.
    apply negb_true_iff, Z.ltb_ge in Ho. lia.
  - unfold stored_acknowledged in H. rewrite Hst, Hno in H by auto. done.
  - unfold stored_processed in H. rewrite Hst in H. cbn in H. by repeat case_match.
  - unfold stored_failed in H. by rewrite Hno in H by auto.
  - unfold stored_released in H. by rewrite Hno in H by auto.
  - unfold stored_expired, hl_is_live_at in H. rewrite Hst in H.
    by rewrite (proj2 (Z.ltb_lt _ _) Hc) in H.
Qed.

Lemma lease_kept l cs k s lease :
  deliveries_ok l → Forall call_ok cs → l !! k = Some s →
  dr_state (sd_record s) = DeliveryLeased lease → Forall (leaves_lease (sd_record s) lease) cs →
  ledger_run l cs !! k = Some s.
Proof.
  unfold ledger_run. revert l. induction cs as [|c cs IH]; intros l Hl Hcs Hs Hst Hleave; cbn; [done|].
  apply Forall_cons in Hcs as [Hc Hcs], Hleave as [Hlc Hleave].
  apply IH; [by apply deliver_ok|done| |done|done].
  pose proof (deliver_entry l c k (proj1 Hl)) as H. rewrite Hs in H.
  destruct H as (s' & ? & [->|Hch]); [done|]. by apply lease_not_changed with (lease := lease) in Hch.
Qed.

(** ** What [lease] hands out *)

Lemma lease_each_outside uuid owner now duration ids drawn l k :
  k ∉ ids → (lease_each uuid owner now duration ids drawn l).1 !! k = l !! k.
Proof.
  revert drawn l. induction ids as [|id ids IH]; intros drawn l Hk; cbn [lease_each]; [done|].
  apply not_elem_of_cons in Hk as [Hne Hk]. destruct (l !! id) as [s|] eqn:Hs; [|by apply IH].
  destruct (HostDeliveryLeaseId_new _ ≫= _) as [[s' lease]| |]; cbn; [|done|done].
  rewrite IH by done. by rewrite lookup_insert_ne.
Qed.

Definition leased_id (d : LeasedDelivery) : string := hl_delivery_id (ld_lease d).

Lemma lease_each_hands_out uuid owner now duration ids drawn l leased :
  NoDup ids → (∀ id, id ∈ ids → ∃ s, l !! id = Some s ∧ dr_id (sd_record s) = id) →
  (lease_each uuid owner now duration ids drawn l).2 = Ok leased →
  leased_id <$> leased = ids ∧
  ∀ d, d ∈ leased →
    hl_owner (ld_lease d) = owner ∧ add_millis now duration = Ok (hl_leased_until (ld_lease d)) ∧
    ledger_get (lease_each uuid owner now duration ids drawn l).1 (leased_id d) = Some (ld_record d) ∧
    dr_state (ld_record d) = DeliveryLeased (ld_lease d).
Proof.
  revert drawn l leased. induction ids as [|id ids IH]; intros drawn l leased Hnd Hin; cbn [lease_each].
  { intros [= <-]. split; [done|]. by intros ? ?%not_elem_of_nil. }
  apply NoDup_cons in Hnd as [Hid Hnd]. destruct (Hin id) as (s & Hs & <-); [by left|]. rewrite Hs.
  destruct (HostDeliveryLeaseId_new _ ≫= _) as [[s' lease]| |] eqn:Hlease; [|done|done]. cbn.
  intros (rest & Hrest & ->)%fmap_Ok. apply bind_Ok in Hlease as (lease_id & _ & Hlease).
  unfold stored_leased in Hlease. apply bind_Ok in Hlease as (until & Hu & [= <- <-]).
  match goal with |- context [<[dr_id (sd_record s) := ?x]> l] => set (s' := x) in * end.
  destruct (IH (S drawn) (<[dr_id (sd_record s) := s']> l) rest Hnd) as [Hids Hd]; [|done|].
  { intros id' Hid'. rewrite lookup_insert_ne by (intros Heq; by rewrite Heq in Hid). apply Hin. by right. }
  split; [cbn; by rewrite Hids|]. intros d [->|?]%elem_of_cons; [|by apply Hd]. cbn.
  split_and!; [done|done| |done]. unfold ledger_get.
  change (leased_id _) with (dr_id (sd_record s)).
  by rewrite lease_each_outside, lookup_insert, decide_True by done.
Qed.

Lemma offerable_ids_present l filter now limit id :
  filed_by_id l → id ∈ offerable_ids l filter now limit → ∃ s, l !! id = Some s ∧ dr_id (sd_record s) = id.
Proof.
  intros Hl. unfold offerable_ids. intros (s & -> & Hs)%list_elem_of_fmap.
  apply elem_of_take in Hs as (i & Hs%list_elem_of_lookup_2 & _).
  apply elem_of_filter_bool in Hs as [Hs _]. apply elem_of_filed_values in Hs; [|done]. eauto.
Qed.

(** C30: a live lease excludes everybody else.  Through any calls that come before
    it runs out and do not present it, other than recording an activation of the
    delivery (which puts it back on offer under the live lease), abandoning it,
    ending its ceremony or replacing its destination, the delivery stays as it was
    leased: no host is handed it, and nobody can acknowledge,
    fail or return it under another lease. *)
Theorem live_lease_excludes_others l cs k s lease :
  ledger_reachable l → Forall call_ok cs → l !! k = Some s →
  dr_state (sd_record s) = DeliveryLeased lease → Forall (leaves_lease (sd_record s) lease) cs →
  ledger_run l cs !! k = Some s ∧
  (∀ uuid filter owner now duration limit leased, now < hl_leased_until lease →
     (ledger_lease uuid (ledger_run l cs) filter owner now duration limit).2 = Ok leased →
     k ∉ leased_id <$> leased) ∧
  (∀ other observation now, hl_delivery_id other = k → hl_lease_id other ≠ hl_lease_id lease →
     (ledger_acknowledge (ledger_run l cs) other observation now).2 = Ok AckLeaseNotOwned).
Proof.
  intros Hl%reachable_ok Hcs Hs Hst Hleave.
  pose proof (lease_kept l cs k s lease Hl Hcs Hs Hst Hleave) as Hkept.
  destruct (ledger_run_ok cs l Hcs Hl) as [Hkey _]. split_and!; [done| |].
  - intros uuid filter owner now duration limit leased Hnow Hok.
    destruct (offerable_ids_spec (ledger_run l cs) filter now limit Hkey) as [Hnd Hoff].
    apply lease_each_hands_out in Hok as [-> _]; [|done|by intros; eapply offerable_ids_present].
    intros Hin. destruct (Hoff k s Hin Hkept) as [Ho _].
    unfold record_is_offerable_at, hl_is_live_at in Ho. rewrite Hst in Ho.
    apply negb_true_iff, Z.ltb_ge in Ho. lia.
  - intros other observation now <- Hne. unfold ledger_acknowledge, stored_acknowledged.
    rewrite Hkept, Hst. destruct (stored_holds s other now) eqn:Hh; [|done].
    apply holds_leased in Hh as (? & ? & ? & _). congruence.
Qed.

(** ** The sweep *)

Lemma expired_settled s s' now : stored_expired s now = Ok (Some s') → stored_expired s' now = Ok None.
Proof.
  unfold stored_expired. destruct (dr_state (sd_record s)); try done.
  - destruct (hl_is_live_at _ _); intros; by simplify_eq/=.
  - destruct (hdp_ack_timeout _); [|done]. intros (until & _ & H)%bind_Ok.
    destruct (until <=? now); by simplify_eq/=.
Qed.

Lemma collect_none now stored :
  (∀ s, s ∈ stored → stored_expired s now = Ok None) → collect_expired now stored = Ok [].
Proof.
  induction stored as [|s stored IH]; intros H; cbn; [done|]. rewrite H by by left. cbn.
  rewrite IH; [done|]. intros t Ht. apply H. by right.
Qed.

(** A sweep that completes leaves nothing overdue: no lease that ran out, no
    acknowledgement past its timeout.  It reports exactly the deliveries it
    changed, and a second sweep at the same time finds nothing. *)
Theorem sweep_leaves_nothing_overdue l now changed :
  ledger_reachable l → (ledger_expire l now).2 = Ok changed →
  (∀ k s, (ledger_expire l now).1 !! k = Some s → stored_expired s now = Ok None) ∧
  (∀ k, k ∈ changed ↔ (ledger_expire l now).1 !! k ≠ l !! k) ∧
  ledger_expire (ledger_expire l now).1 now = ((ledger_expire l now).1, Ok []).
Proof.
  intros [Hkey Hl]%reachable_ok. unfold ledger_expire at 1 2 3 5 6.
  destruct (collect_expired now (btree_values l)) as [out| |] eqn:Hc; [|done|done]. intros [= <-]. cbn [fst].
  destruct (collect_expired_spec _ _ _ Hc) as (Hsub & Hch & Hno).
  assert (NoDup out.*1) as Hnd.
  { eapply sublist_NoDup; [|done]. by apply (part_ids_NoDup l). }
  assert (∀ k s, write_all l out !! k = Some s → stored_expired s now = Ok None) as Hset.
  { intros k s Hs. destruct (write_all_lookup l out k Hnd) as [(s' & Hin & Hs')|[Hin Hs']].
    - destruct (Hch _ _ Hin) as (t & _ & _ & Ht). simplify_eq. by eapply expired_settled.
    - rewrite Hs' in Hs. destruct (Hno s) as [?|Hbad]; [|done|].
      + apply elem_of_filed_values; [done|]. by rewrite (Hkey _ _ Hs).
      + by rewrite (Hkey _ _ Hs) in Hbad. }
  split_and!; [done| |].
  - intros k. destruct (write_all_lookup l out k Hnd) as [(s' & Hin & Hs')|[Hin Hs']].
    + split; [|intros _; apply list_elem_of_fmap; by exists (k, s')]. intros _ Heq.
      destruct (Hch _ _ Hin) as (t & Ht%elem_of_filed_values & <- & Hexp); [|done].
      pose proof (Hset _ _ Hs'). rewrite Hs', Ht in Heq. congruence.
    + split; [done|]. intros Hne. by destruct Hne.
  - unfold ledger_expire. rewrite collect_none; [done|]. intros s [k Hs]%elem_of_btree_values. by eapply Hset.
Qed.

(** ** Replaced destinations *)

Lemma supersede_each_keeps replacement follow now affected l k :
  NoDup (ids affected) → (∀ s, s ∈ affected → l !! dr_id (sd_record s) = Some s) →
  is_Some (l !! k) → is_Some ((supersede_each replacement follow now affected l).1 !! k).
Proof.
  intros Hnd Hin [s Hs]. pose proof (supersede_each_entry replacement follow now affected l k Hnd Hin) as H.
  rewrite Hs in H. destruct H as (s' & -> & _). done.
Qed.

Lemma supersede_each_outside replacement follow now affected l s :
  NoDup (ids affected) → (∀ t, t ∈ affected → l !! dr_id (sd_record t) = Some t) →
  l !! dr_id (sd_record s) = Some s → dr_id (sd_record s) ∉ ids affected →
  (supersede_each replacement follow now affected l).1 !! dr_id (sd_record s) = Some s.
Proof.
  intros Hnd Hin Hs Hout.
  pose proof (supersede_each_entry replacement follow now affected l (dr_id (sd_record s)) Hnd Hin) as H.
  rewrite Hs in H. destruct H as (s' & -> & [->|[Hbad _]]); [done|].
  destruct Hout. apply list_elem_of_fmap. by exists s.
Qed.

(** How an entry is named as superseded. *)
Definition superseded_in (replacement : HostDeliveryTarget) (follow : FollowReplacement)
    (now : Instant) (l : DeliveryLedger) (s : StoredHostDelivery) : Prop :=
  match follow with
  | Stay => l !! dr_id (sd_record s) = Some (stored_superseded s None now)
  | Follow => ∃ id, item_delivery_id (dr_item (sd_record s)) replacement = Ok id ∧
      l !! dr_id (sd_record s) = Some (stored_superseded s (Some id) now) ∧ is_Some (l !! id)
  end.

Lemma supersede_each_done replacement follow now affected l o :
  NoDup (ids affected) → (∀ s, s ∈ affected → l !! dr_id (sd_record s) = Some s) →
  (supersede_each replacement follow now affected l).2 = Ok o →
  so_superseded o = ids affected ∧
  ∀ s, s ∈ affected →
    superseded_in replacement follow now (supersede_each replacement follow now affected l).1 s.
Proof.
  revert l o. induction affected as [|s affected IH]; intros l o Hnd Hin; cbn [supersede_each].
  { intros [= <-]. split; [done|]. by intros ? ?%not_elem_of_nil. }
  cbn in Hnd. apply NoDup_cons in Hnd as [Hid Hnd].
  assert (∀ opened m, (∀ t, t ∈ s :: affected → m !! dr_id (sd_record t) = Some t) →
    let m' := <[dr_id (sd_record s) := stored_superseded s opened now]> m in
    (∀ t, t ∈ affected → m' !! dr_id (sd_record t) = Some t) ∧
    (supersede_each replacement follow now affected m').1 !! dr_id (sd_record s)
      = Some (stored_superseded s opened now)) as Hgo.
  { intros opened m Hm m'. assert (∀ t, t ∈ affected → m' !! dr_id (sd_record t) = Some t) as Hm'.
    { intros t Ht. unfold m'. rewrite lookup_insert_ne; [apply Hm; by right|].
      intros Heq. apply Hid. rewrite Heq. apply list_elem_of_fmap. by exists t. }
    split; [done|]. apply (supersede_each_outside _ _ _ _ m' (stored_superseded s opened now)); [done|done| |done].
    unfold m'. cbn. by rewrite lookup_insert, decide_True. }
  destruct follow; cbn [follows].
  - destruct (Hgo None l Hin) as [Hm Hs]. intros (o' & Ho' & ->)%fmap_Ok.
    destruct (IH _ _ Hnd Hm Ho') as [Hids Hall]. split; [cbn; by rewrite Hids|].
    intros t [->|Ht]%elem_of_cons; [done|by apply Hall].
  - destruct (stored_re_addressed s replacement now) as [candidate| |] eqn:Hc; [|done|done].
    apply fmap_Ok in Hc as (r & Hr & ->). unfold record_re_addressed, record_queued in Hr.
    apply bind_Ok in Hr as (id & Hitem & [= <-]). cbn [stored_new sd_record dr_id].
    match goal with |- context [<[id := ?c]> l] => set (candidate := c) end.
    destruct (is_some (l !! id)) eqn:Hold; cbn [snd fst].
    + destruct (Hgo (Some id) l Hin) as [Hm Hs]. intros (o' & Ho' & ->)%fmap_Ok.
      destruct (IH _ _ Hnd Hm Ho') as [Hids Hall]. split; [cbn; by rewrite Hids|].
      intros t [->|Ht]%elem_of_cons; [|by apply Hall]. exists id. split_and!; [done|done|].
      apply supersede_each_keeps; [done|done|]. apply is_some_true in Hold.
      destruct (base.decide (dr_id (sd_record s) = id)) as [<-|?];
        [by rewrite lookup_insert, decide_True|by rewrite lookup_insert_ne].
    + apply is_some_false in Hold.
      assert (∀ t, t ∈ s :: affected → <[id := candidate]> l !! dr_id (sd_record t) = Some t) as Hin'.
      { intros t Ht%Hin. rewrite lookup_insert_ne; [done|]. intros Heq. by rewrite Heq, Ht in Hold. }
      destruct (Hgo (Some id) _ Hin') as [Hm Hs]. intros (o' & Ho' & ->)%fmap_Ok.
      destruct (IH _ _ Hnd Hm Ho') as [Hids Hall]. split; [cbn; by rewrite Hids|].
      intros t [->|Ht]%elem_of_cons; [|by apply Hall]. exists id. split_and!; [done|done|].
      apply supersede_each_keeps; [done|done|].
      destruct (base.decide (dr_id (sd_record s) = id)) as [<-|?];
        [by rewrite lookup_insert, decide_True|by rewrite lookup_insert_ne, lookup_insert, decide_True].
Qed.

(** What a completed supersession does, for ledgers that satisfy the invariant. *)
Lemma supersession_spec l previous replacement follow now o :
  deliveries_ok l → previous ≠ replacement →
  (ledger_supersede l previous replacement follow now).2 = Ok o →
  (∀ k s, (ledger_supersede l previous replacement follow now).1 !! k = Some s →
     is_affected previous s = false) ∧
  (∀ k s, l !! k = Some s → is_affected previous s = true →
     k ∈ so_superseded o ∧
     superseded_in replacement follow now (ledger_supersede l previous replacement follow now).1 s) ∧
  (∀ k s, l !! k = Some s → is_affected previous s = false →
     (ledger_supersede l previous replacement follow now).1 !! k = Some s).
Proof.
  intros [Hkey Hl] Hne Ho. unfold ledger_supersede in *. set (affected := affected_by l previous) in *.
  assert (∀ s, s ∈ affected ↔ l !! dr_id (sd_record s) = Some s ∧ is_affected previous s = true) as Haff.
  { intros s. unfold affected, affected_by. by rewrite elem_of_filter_bool, elem_of_filed_values. }
  assert (NoDup (ids affected)) as Hnd by by apply (part_ids_NoDup l), filter_sublist_bool.
  assert (∀ s, s ∈ affected → l !! dr_id (sd_record s) = Some s) as Hin by by intros s [? _]%Haff.
  pose proof (λ k, supersede_each_entry replacement follow now affected l k Hnd Hin) as Hentry.
  destruct (supersede_each_done _ _ _ _ _ _ Hnd Hin Ho) as [Hids Hdone]. split_and!.
  - intros k s Hs. specialize (Hentry k). rewrite Hs in Hentry. destruct (l !! k) as [t|] eqn:Ht; cbn in Hentry.
    + destruct Hentry as (s' & [= <-] & [->|[_ (by_ & ->)]]); [|unfold is_affected; cbn; by rewrite andb_false_r].
      destruct (is_affected previous t) eqn:Ha; [|done].
      assert (t ∈ affected) as Hta by (apply Haff; by rewrite (Hkey _ _ Ht)).
      specialize (Hdone t Hta). rewrite <-(Hkey _ _ Ht) in Hs.
      assert (∃ by_, t = stored_superseded t by_ now) as [by_ Heq].
      { destruct follow; cbn in Hdone; [exists None|destruct Hdone as (id & _ & Hdone & _); exists (Some id)];
          congruence. }
      rewrite Heq in Ha. unfold is_affected in Ha. cbn in Ha. by rewrite andb_false_r in Ha.
    + destruct Hentry as [?|(t & r & _ & _ & Hr & _ & [= ->])]; [done|].
      unfold record_re_addressed, record_queued in Hr. apply bind_Ok in Hr as (id & _ & [= <-]).
      unfold is_affected. cbn. destruct (replacement == previous) eqn:He; [|done].
      by apply eqb_true_1 in He.
  - intros k s Hs Ha. assert (s ∈ affected) as Hsa by (apply Haff; by rewrite (Hkey _ _ Hs)).
    split; [|by apply Hdone]. rewrite Hids, <-(Hkey _ _ Hs). apply list_elem_of_fmap. by exists s.
  - intros k s Hs Ha. specialize (Hentry k). rewrite Hs in Hentry.
    destruct Hentry as (s' & -> & [->|[Hsa _]]); [done|]. apply Haff in Hsa as [_ ?]. congruence.
Qed.

(** When a destination is replaced and the call completes, no open delivery is
    left at the old destination.  Each of those that were open is closed as
    superseded and reported; when the work follows, it names a delivery of the
    ledger whose identity is that of the same item at the new destination.  All
    other deliveries stay as they are. *)
Theorem replaced_destination_keeps_no_open_work l previous replacement follow now o :
  ledger_reachable l → previous ≠ replacement →
  (ledger_supersede l previous replacement follow now).2 = Ok o →
  (∀ k s, (ledger_supersede l previous replacement follow now).1 !! k = Some s →
     is_affected previous s = false) ∧
  (∀ k s, l !! k = Some s → is_affected previous s = true →
     k ∈ so_superseded o ∧
     superseded_in replacement follow now (ledger_supersede l previous replacement follow now).1 s) ∧
  (∀ k s, l !! k = Some s → is_affected previous s = false →
     (ledger_supersede l previous replacement follow now).1 !! k = Some s).
Proof. intros Hl%reachable_ok. by apply supersession_spec. Qed.

(** ** Paging *)

Definition id_lt (r1 r2 : HostDeliveryRecord) : Prop := str_ltb (dr_id r1) (dr_id r2) = true.

Lemma str_ltb_spec a b : str_ltb a b = true ↔ String.le a b ∧ a ≠ b.
Proof. unfold str_ltb. by rewrite andb_true_iff, bool_decide_eq_true, negb_true_iff, eqb_false. Qed.

Lemma id_lt_trans : Transitive id_lt.
Proof.
  intros r1 r2 r3. unfold id_lt. rewrite !str_ltb_spec. intros [H12 Hne] [H23 _].
  split; [by etrans|]. intros Heq. rewrite Heq in *. apply Hne. by apply (anti_symm String.le).
Qed.

Lemma admitted_sorted l (keep : StoredHostDelivery → bool) :
  filed_by_id l → StronglySorted id_lt (sd_record <$> List.filter keep (btree_values l)).
Proof.
  intros Hkey. unfold btree_values. pose proof (btree_entries_sorted l) as Hs.
  pose proof (btree_keys_NoDup l) as Hnd. unfold btree_keys in Hnd.
  assert (∀ e, e ∈ btree_entries l → dr_id (sd_record e.2) = e.1) as Hid.
  { intros [k s] He%elem_of_btree_entries. by apply Hkey. }
  induction (btree_entries l) as [|[k s] es IH]; [constructor|].
  apply StronglySorted_inv in Hs as [Hs Hall]. cbn in Hnd. apply NoDup_cons in Hnd as [Hk Hnd].
  specialize (IH Hs Hnd (λ e He, Hid e (list_elem_of_further _ _ _ He))). simpl.
  destruct (keep s); [|done]. simpl. constructor; [done|].
  rewrite Forall_fmap. apply Forall_forall. intros t [Ht _]%elem_of_filter_bool.
  apply list_elem_of_fmap in Ht as ([k' t'] & -> & He). unfold id_lt. cbn.
  assert (dr_id (sd_record s) = k) as -> by (apply (Hid (k, s)); by left).
  assert (dr_id (sd_record t') = k') as -> by (apply (Hid (k', t')); by right).
  apply str_ltb_spec. split.
  - rewrite Forall_forall in Hall. apply (Hall _ He).
  - intros ->. apply Hk. apply list_elem_of_fmap. by exists (k', t').
Qed.

(** Filtering a sorted list by a cursor among its elements drops the elements
    up to it. *)
Lemma filter_after_cursor m j r :
  StronglySorted id_lt m → m !! j = Some r →
  List.filter (λ r', str_ltb (dr_id r) (dr_id r')) m = drop (S j) m.
Proof.
  intros Hs. revert j. induction Hs as [|x m Hs IH Hall]; intros j Hj; [done|]. simpl.
  destruct j as [|j]; simpl in Hj.
  - simplify_eq. assert (str_ltb (dr_id r) (dr_id r) = false) as ->.
    { apply not_true_iff_false. rewrite str_ltb_spec. naive_solver. }
    rewrite drop_0. apply List.forallb_filter_id, forallb_forall.
    intros y Hy. rewrite Forall_forall in Hall. by apply Hall, list_elem_of_In.
  - assert (id_lt x r) as Hxr.
    { rewrite Forall_forall in Hall. apply Hall. by eapply list_elem_of_lookup_2. }
    assert (str_ltb (dr_id r) (dr_id x) = false) as ->; [|by apply IH].
    apply not_true_iff_false. rewrite str_ltb_spec. intros [Hle Hne].
    apply str_ltb_spec in Hxr as [Hle' _]. apply Hne. by apply (anti_symm String.le).
Qed.

Lemma matching_records_fmap l q :
  matching_records l q =
  List.filter (λ r, is_none_or (qry_cursor q) (λ after, str_ltb after (dr_id r)))
    (sd_record <$> List.filter (λ s, query_admits q (sd_record s)) (btree_values l)).
Proof.
  unfold matching_records. generalize (List.filter (λ s, query_admits q (sd_record s)) (btree_values l)).
  intros m. induction m as [|s m IH]; simpl; [done|].
  destruct (is_none_or _ _); [|exact IH]. simpl. f_equal. exact IH.
Qed.

Lemma sorted_filter m f : StronglySorted id_lt m → StronglySorted id_lt (List.filter f m).
Proof.
  induction 1 as [|x m Hs IH Hall]; simpl; [constructor|]. destruct (f x); [|done].
  constructor; [done|]. rewrite Forall_forall in *. intros y [Hy _]%elem_of_filter_bool. by apply Hall.
Qed.

Lemma matching_after_cursor l q j r :
  filed_by_id l → matching_records l q !! j = Some r →
  matching_records l (query_after q (dr_id r)) = drop (S j) (matching_records l q).
Proof.
  intros Hkey Hj. assert (StronglySorted id_lt (matching_records l q)) as Hs.
  { rewrite matching_records_fmap. by apply sorted_filter, admitted_sorted. }
  rewrite <-(filter_after_cursor _ j r Hs Hj). rewrite !matching_records_fmap. cbn [query_after].
  change (query_admits (query_after q (dr_id r))) with (query_admits q).
  change (qry_cursor (query_after q (dr_id r))) with (Some (dr_id r)). cbn [is_none_or].
  rewrite matching_records_fmap in Hj. apply list_elem_of_lookup_2, elem_of_filter_bool in Hj as [_ Hafter].
  induction (sd_record <$> _) as [|x m IH]; simpl; [done|].
  destruct (str_ltb (dr_id r) (dr_id x)) eqn:Hx.
  - assert (is_none_or (qry_cursor q) (λ after, str_ltb after (dr_id x)) = true) as ->.
    { destruct (qry_cursor q) as [after|]; [|done]. cbn in *. rewrite str_ltb_spec in *.
      destruct Hafter as [? Hne], Hx as [? ?]. split; [by etrans|]. intros ->. apply Hne.
      by apply (anti_symm String.le). }
    cbn [List.filter]. by rewrite Hx, IH.
  - destruct (is_none_or (qry_cursor q) (λ after, str_ltb after (dr_id x))); [|done].
    cbn [List.filter]. by rewrite Hx.
Qed.

Lemma read_pages_all l q pages :
  filed_by_id l → 1 ≤ qry_limit q →
  Z.of_nat (length (matching_records l q)) ≤ Z.of_nat pages * qry_limit q →
  read_pages pages l q = matching_records l q.
Proof.
  intros Hkey. revert q. induction pages as [|pages IH]; intros q Hlimit Hlen; cbn [read_pages].
  { destruct (matching_records l q); cbn in *; [done|lia]. }
  unfold ledger_list. set (m := matching_records l q) in *. set (n := Z.to_nat (qry_limit q)).
  cbn [page_records page_next_cursor]. destruct (head (drop n m)) as [x|] eqn:Hmore; cbn [is_some].
  - assert (n < length m)%nat as Hn.
    { destruct (base.decide (n < length m)%nat); [done|]. by rewrite drop_ge in Hmore by lia. }
    destruct (lookup_lt_is_Some_2 m (n - 1)) as [r Hr]; [lia|].
    assert (last (take n m) = Some r) as ->.
    { rewrite last_lookup, length_take, lookup_take_lt; [|lia].
      by replace (Init.Nat.pred (n `min` length m)) with (n - 1)%nat by lia. }
    pose proof (matching_after_cursor l q (n - 1) r Hkey Hr) as Hrest.
    replace (S (n - 1)) with n in Hrest by lia.
    cbn. rewrite IH; rewrite ?Hrest; [apply take_drop|done|]. fold m. rewrite length_drop. cbn. lia.
  - rewrite app_nil_r. apply take_ge. destruct (drop n m) as [|y k] eqn:Hd; [|done].
    apply (f_equal length) in Hd. rewrite length_drop in Hd. cbn in Hd. lia.
Qed.

Lemma elem_of_matching l q r :
  filed_by_id l → qry_cursor q = None →
  r ∈ matching_records l q ↔ query_admits q r = true ∧ ledger_get l (dr_id r) = Some r.
Proof.
  intros Hkey Hcur. rewrite matching_records_fmap, Hcur, elem_of_filter_bool. cbn [is_none_or].
  rewrite list_elem_of_fmap. setoid_rewrite elem_of_filter_bool.
  setoid_rewrite (λ s, elem_of_filed_values l s Hkey). unfold ledger_get. split.
  - intros [(s & -> & Hs & Ha) _]. by rewrite Hs.
  - intros [Ha (s & Hs & ->)%fmap_Some]. split; [|done]. exists s. by split_and!.
Qed.

(** Pages cover the ledger.  Following the cursors for enough pages yields
    every record the query admits, once and in the order of identities, in
    pages no longer than the limit; so the walk over the deliveries of a
    destination finds them all while there are no more than two thousand. *)
Theorem pages_cover_the_ledger l q pages :
  ledger_reachable l → 1 ≤ qry_limit q → qry_cursor q = None →
  Z.of_nat (length (matching_records l q)) ≤ Z.of_nat pages * qry_limit q →
  Z.of_nat (length (page_records (ledger_list l q))) ≤ qry_limit q ∧
  StronglySorted id_lt (read_pages pages l q) ∧
  ∀ r, r ∈ read_pages pages l q ↔ query_admits q r = true ∧ ledger_get l (dr_id r) = Some r.
Proof.
  intros [Hkey Hl]%reachable_ok Hlimit Hcur Hlen. rewrite read_pages_all by done. split_and!.
  - unfold ledger_list. cbn. rewrite length_take. lia.
  - rewrite matching_records_fmap. by apply sorted_filter, admitted_sorted.
  - intros r. by apply elem_of_matching.
Qed.

(** The whole ledger of a destination. *)
Lemma binding_deliveries_complete l target :
  ledger_reachable l →
  Z.of_nat (length (matching_records l (MkHostDeliveryQuery None None (AnyOf [target]) 100 None))) ≤ 2000 →
  ∃ held, binding_deliveries l target = Ok held ∧
    ∀ r, r ∈ held ↔ dr_target r = target ∧ ledger_get l (dr_id r) = Some r.
Proof.
  intros [Hkey Hl]%reachable_ok Hlen. unfold binding_deliveries.
  cbn [target_filter_any_of mbind result_bind]. eexists. split; [done|].
  intros r. rewrite read_pages_all; [|done|cbn; lia|unfold MAX_PAGES; cbn [qry_limit]; lia]. rewrite elem_of_matching by done.
  unfold query_admits. cbn. rewrite orb_false_r, eqb_true. naive_solver.
Qed.

(** ** Open work can be taken *)

Lemma lease_each_total uuid owner now duration until ids drawn l :
  add_millis now duration = Ok until → (∀ n, is_ok (HostDeliveryLeaseId_new (uuid n)) = true) →
  ∃ leased, (lease_each uuid owner now duration ids drawn l).2 = Ok leased.
Proof.
  intros Hu Hid. revert drawn l. induction ids as [|id ids IH]; intros drawn l; cbn [lease_each]; [by eauto|].
  destruct (l !! id) as [s|]; [|apply IH]. specialize (Hid drawn).
  destruct (HostDeliveryLeaseId_new (uuid drawn)) as [lease_id| |]; [|done|done].
  cbn. unfold stored_leased. rewrite Hu. cbn.
  match goal with |- context [lease_each _ _ _ _ _ _ ?l'] => destruct (IH (S drawn) l') as [leased ->] end.
  eexists. done.
Qed.

(** How many deliveries [lease] would hand out before [k]: those that are offerable,
    pass the filter and come first in the order of identities. *)
Definition ahead (l : DeliveryLedger) (filter : HostDeliveryFilter) (now : Instant) (k : string) : nat :=
  count (λ s, record_is_offerable_at (sd_record s) now && filter_admits filter (sd_record s)
              && str_ltb (dr_id (sd_record s)) k) (btree_values l).

(** In a list sorted by identity a record stands behind those with smaller ones. *)
Lemma place_in_order m j r :
  StronglySorted id_lt m → m !! j = Some r → count (λ r', str_ltb (dr_id r') (dr_id r)) m = j.
Proof.
  intros Hs. revert j. unfold count. induction Hs as [|x m Hs IH Hall]; intros j Hj; [done|]. simpl.
  rewrite Forall_forall in Hall. destruct j as [|j]; simpl in Hj.
  - simplify_eq. assert (∀ y, y ∈ r :: m → str_ltb (dr_id y) (dr_id r) = false) as Hno.
    { intros y [->|Hy]%elem_of_cons; apply not_true_iff_false; rewrite str_ltb_spec; [naive_solver|].
      intros [Hle Hne]. specialize (Hall y Hy). apply str_ltb_spec in Hall as [? _]. apply Hne.
      by apply (anti_symm String.le). }
    rewrite Hno by by left. rewrite (List.filter_ext_in _ (λ _, false)), List.filter_false; [done|].
    intros y Hy%list_elem_of_In. apply Hno. by right.
  - assert (id_lt x r) as -> by (apply Hall; by eapply list_elem_of_lookup_2). simpl. f_equal. by apply IH.
Qed.

Lemma offerable_iff l filter now limit k s :
  filed_by_id l → l !! k = Some s → record_is_offerable_at (sd_record s) now = true →
  filter_admits filter (sd_record s) = true → 0 ≤ limit →
  k ∈ offerable_ids l filter now limit ↔ Z.of_nat (ahead l filter now k) < limit.
Proof.
  intros Hkey Hs Hoff Hadm Hlimit. unfold offerable_ids.
  set (f := λ s, record_is_offerable_at (sd_record s) now && filter_admits filter (sd_record s)).
  pose proof (admitted_sorted l f Hkey) as Hsort.
  assert (s ∈ List.filter f (btree_values l)) as Hin.
  { apply elem_of_filter_bool. unfold f. rewrite Hoff, Hadm. split; [|done].
    apply elem_of_filed_values; [done|]. by rewrite (Hkey k s Hs). }
  assert (∀ j t, List.filter f (btree_values l) !! j = Some t → dr_id (sd_record t) = k →
    ahead l filter now k = j) as Hplace.
  { intros j t Hj <-. rewrite <-(place_in_order _ j (sd_record t) Hsort) by (by rewrite list_lookup_fmap, Hj).
    unfold ahead, count. clear. induction (btree_values l) as [|x v IH]; simpl; [done|]. fold (f x).
    destruct (f x); simpl; [|done]. destruct (str_ltb _ _); simpl; [by f_equal|done]. }
  split.
  - intros (t & Ht & (j & Hj & Hlt)%elem_of_take)%list_elem_of_fmap. rewrite (Hplace j t Hj (eq_sym Ht)). lia.
  - intros Hlt. apply list_elem_of_lookup_1 in Hin as [j Hj]. pose proof (Hkey k s Hs) as Hk.
    rewrite (Hplace j s Hj Hk) in Hlt. apply list_elem_of_fmap. exists s. split; [done|].
    apply elem_of_take. exists j. split; [done|lia].
Qed.

(** C31: no open delivery is stranded by itself: unless the host acknowledged it,
    there is a time from which every host whose filter admits it and who asks for up
    to [limit] deliveries (one to a hundred) is handed it under a new lease of its
    own exactly when fewer than [limit] offerable deliveries that the filter admits
    have smaller identities; provided the clock can express the end of the lease and
    the generator gives valid lease identifiers. *)
Theorem unanswered_delivery_can_be_taken l k s :
  ledger_reachable l → l !! k = Some s →
  HostDeliveryState_is_terminal (dr_state (sd_record s)) = false →
  state_kind (dr_state (sd_record s)) ≠ KindAcknowledged →
  ∃ from, ∀ now, from ≤ now → ∀ uuid filter owner duration until limit,
    filter_admits filter (sd_record s) = true → 1 ≤ limit ≤ 100 →
    add_millis now duration = Ok until → (∀ n, is_ok (HostDeliveryLeaseId_new (uuid n)) = true) →
    ∃ leased, (ledger_lease uuid l filter owner now duration limit).2 = Ok leased ∧
      (k ∈ leased_id <$> leased ↔ Z.of_nat (ahead l filter now k) < limit) ∧
      ∀ d, d ∈ leased → leased_id d = k →
        hl_owner (ld_lease d) = owner ∧ hl_leased_until (ld_lease d) = until ∧
        ledger_get (ledger_lease uuid l filter owner now duration limit).1 k = Some (ld_record d) ∧
        dr_state (ld_record d) = DeliveryLeased (ld_lease d).
Proof.
  intros [Hkey Hl]%reachable_ok Hs Hopen Hack.
  exists (match dr_state (sd_record s) with DeliveryLeased lease => hl_leased_until lease | _ => 0 end).
  intros now Hnow uuid filter owner duration until limit Hadm Hlimit Hu Hid.
  assert (record_is_offerable_at (sd_record s) now = true) as Hoff.
  { unfold record_is_offerable_at, hl_is_live_at. destruct (dr_state (sd_record s)); try done.
    apply negb_true_iff, Z.ltb_ge. lia. }
  destruct (lease_each_total uuid owner now duration until (offerable_ids l filter now limit) 0 l Hu Hid)
    as [leased Hok].
  destruct (offerable_ids_spec l filter now limit Hkey) as [Hnd _].
  destruct (lease_each_hands_out _ _ _ _ _ _ _ _ Hnd (λ id, offerable_ids_present _ _ _ _ _ Hkey) Hok)
    as [Hids Hd].
  exists leased. split_and!; [done| |].
  - rewrite Hids. apply (offerable_iff l filter now limit k s); [done..|lia].
  - intros d Hin <-. destruct (Hd d Hin) as (? & Hud & ? & ?). split_and!; [done|congruence|done|done].
Qed.

End theorems.

(** ** A ledger in use *)

(** The calendar of the [time] crate, in nanoseconds: years -9999 to 9999. *)
Definition calendar : Clock := λ at_ ms,
  let sum := at_ + ms * 1000000 in
  if (-377705116800000000000 <=? sum) && (sum <=? 253402300799999999999) then Some sum else None.

#[local] Existing Instance calendar.

Definition second : Z := 1000000000.

Definition desk_terms : HostDeliveryPolicy := MkHostDeliveryPolicy PullLease 60000 (Some 60000) 3 Stay.

Definition opened_at (item : HostDeliveryItem) (target : HostDeliveryTarget) (id : string) (at_ : Instant)
    : HostDeliveryRecord :=
  MkHostDeliveryRecord id item target desk_terms DeliveryQueued 0 at_ at_
    [MkDeliveryHistoryEntry KindQueued at_].

Definition question : HostDeliveryItem := DeliverIntervention "c-1" "i-1".
Definition news : HostDeliveryItem := DeliverAttention "c-1" "c-1:7:e-9:step_failed".
Definition reviewer : HostDeliveryTarget := TargetRole "reviewer".
Definition driver : HostDeliveryTarget := TargetIntegratorBinding "b-1".

Definition question_id : string := "c-1:intervention:i-1:role:reviewer".
Definition news_id : string := "c-1:attention:c-1:7:e-9:step_failed:binding:b-1".

Definition lease_uuid (n : nat) : string := "lease-" +:+ decimal (Z.of_nat n).
Definition everything : HostDeliveryFilter := MkHostDeliveryFilter None AnyTarget None.
Definition reviewers_work : HostDeliveryFilter := MkHostDeliveryFilter None (AnyOf [reviewer]) None.

Definition desk_calls : list DeliveryCall :=
  [CallEnqueue (opened_at question reviewer question_id 0);
   CallEnqueue (opened_at news driver news_id second);
   CallLease lease_uuid reviewers_work "run-7" (2 * second) 60000 10].

Definition desk : DeliveryLedger := ledger_run ∅ desk_calls.

Definition entry (l : DeliveryLedger) (k : string) : StoredHostDelivery :=
  default (stored_new (opened_at question reviewer question_id 0)) (l !! k).

Definition question_lease : HostDeliveryLease :=
  MkHostDeliveryLease question_id "lease-0" "run-7" (62 * second).

Lemma desk_calls_ok : Forall call_ok desk_calls.
Proof.
  apply Forall_cons. split.
  { exists question, reviewer, desk_terms, 0. split; [cbn; lia|]. vm_compute. reflexivity. }
  apply Forall_cons. split.
  { exists news, driver, desk_terms, second. split; [cbn; lia|]. vm_compute. reflexivity. }
  apply Forall_singleton. exact I.
Defined.

Lemma desk_reachable : ledger_reachable desk.
Proof. exists desk_calls. split; [exact desk_calls_ok|reflexivity]. Defined.

Lemma delivery_ledger_is_sound_witness :
  dr_id (sd_record (entry desk question_id)) = question_id ∧ delivery_ok (entry desk question_id).
Proof.
  refine (delivery_ledger_is_sound desk question_id (entry desk question_id) desk_reachable _).
  vm_compute. reflexivity.
Defined.

(** The reviewer answers late, so its lease is swept and another run of it takes
    the question, answers and closes it. *)
Definition answer : HostDeliveryObservation := MkHostDeliveryObservation ObsReceived (80 * second) None "on it".
Definition closing : list DeliveryCall :=
  [CallExpire (70 * second);
   CallLease (λ n, "again-" +:+ lease_uuid n) reviewers_work "run-8" (75 * second) 60000 10;
   CallAcknowledge (MkHostDeliveryLease question_id "again-lease-0" "run-8" (135 * second)) answer
     (80 * second);
   CallMarkProcessed question_id "run-8" None (MkProcessedActionRef Responded None) (90 * second)].

(** Calls other than an enqueue are always allowed. *)
Ltac calls_ok := repeat (apply Forall_cons; split; [exact I|]); apply Forall_nil; exact I.

Lemma closing_ok : Forall call_ok closing.
Proof. calls_ok. Defined.

Definition closed_desk : DeliveryLedger := ledger_run desk closing.

Lemma closed_desk_reachable : ledger_reachable closed_desk.
Proof.
  exists (desk_calls ++ closing). split; [|vm_compute; reflexivity].
  apply Forall_app. split; [exact desk_calls_ok|exact closing_ok].
Defined.

(** After the question was closed nobody can take or reopen it. *)
Definition too_late : list DeliveryCall :=
  [CallLease lease_uuid everything "run-9" (100 * second) 60000 10;
   CallRecordActivation question_id (ActivationFailed "no route") (101 * second);
   CallExpireCeremony "c-1" CauseCeremonyEnded (102 * second)].

Lemma ended_delivery_is_final_witness :
  state_kind (dr_state (sd_record (entry closed_desk question_id))) = KindProcessed ∧
  ∃ s', ledger_run closed_desk too_late !! question_id = Some s' ∧
    same_offer (sd_record (entry closed_desk question_id)) (sd_record s') ∧
    (HostDeliveryState_is_terminal (dr_state (sd_record (entry closed_desk question_id))) = true →
     s' = entry closed_desk question_id).
Proof.
  split; [vm_compute; reflexivity|].
  refine (ended_delivery_is_final closed_desk too_late question_id (entry closed_desk question_id)
            closed_desk_reachable _ _); [calls_ok|vm_compute; reflexivity].
Defined.

(** Another host asks, the sweep runs and a stale lease is returned, all while
    the reviewer holds the question. *)
Definition meanwhile : list DeliveryCall :=
  [CallLease lease_uuid everything "run-9" (10 * second) 60000 10;
   CallExpire (20 * second);
   CallRelease (MkHostDeliveryLease question_id "lease-old" "run-6" (5 * second)) (30 * second)].

Lemma live_lease_excludes_others_witness :
  ledger_run desk meanwhile !! question_id = Some (entry desk question_id).
Proof.
  refine (proj1 (live_lease_excludes_others desk meanwhile question_id (entry desk question_id)
                   question_lease desk_reachable _ _ _ _)).
  - calls_ok.
  - vm_compute. reflexivity.
  - vm_compute. reflexivity.
  - apply Forall_cons. split; [cbn; unfold second; lia|].
    apply Forall_cons. split; [cbn; unfold second; lia|].
    apply Forall_singleton. intros _. cbn. discriminate.
Defined.

(** The question stands behind the news for whoever takes everything. *)
Lemma unanswered_delivery_can_be_taken_witness :
  ahead desk everything (62 * second) question_id = 1%nat ∧
  ∃ from, ∀ now, from ≤ now → ∀ uuid filter owner duration until limit,
    filter_admits filter (sd_record (entry desk question_id)) = true → 1 ≤ limit ≤ 100 →
    add_millis now duration = Ok until → (∀ n, is_ok (HostDeliveryLeaseId_new (uuid n)) = true) →
    ∃ leased, (ledger_lease uuid desk filter owner now duration limit).2 = Ok leased ∧
      (question_id ∈ leased_id <$> leased ↔ Z.of_nat (ahead desk filter now question_id) < limit) ∧
      ∀ d, d ∈ leased → leased_id d = question_id →
        hl_owner (ld_lease d) = owner ∧ hl_leased_until (ld_lease d) = until ∧
        ledger_get (ledger_lease uuid desk filter owner now duration limit).1 question_id
          = Some (ld_record d) ∧
        dr_state (ld_record d) = DeliveryLeased (ld_lease d).
Proof.
  split; [vm_compute; reflexivity|].
  refine (unanswered_delivery_can_be_taken desk question_id (entry desk question_id) desk_reachable _ _ _).
  - vm_compute. reflexivity.
  - vm_compute. reflexivity.
  - vm_compute. discriminate.
Defined.

Lemma sweep_leaves_nothing_overdue_witness :
  (∀ k, k ∈ [question_id] ↔ (ledger_expire desk (62 * second)).1 !! k ≠ desk !! k) ∧
  ledger_expire (ledger_expire desk (62 * second)).1 (62 * second)
    = ((ledger_expire desk (62 * second)).1, Ok []).
Proof.
  refine (proj2 (sweep_leaves_nothing_overdue desk (62 * second) [question_id] desk_reachable _)).
  vm_compute. reflexivity.
Defined.

Definition new_driver : HostDeliveryTarget := TargetIntegratorBinding "b-2".
Definition moved_news_id : string := "c-1:attention:c-1:7:e-9:step_failed:binding:b-2".

Definition handover_report : SupersessionOutcome :=
  MkSupersessionOutcome [news_id] [opened_at news new_driver moved_news_id (5 * second)].

Lemma replaced_destination_keeps_no_open_work_witness :
  is_affected driver (entry desk news_id) = true ∧
  ∀ k s, (ledger_supersede desk driver new_driver Follow (5 * second)).1 !! k = Some s →
    is_affected driver s = false.
Proof.
  split; [vm_compute; reflexivity|].
  refine (proj1 (replaced_destination_keeps_no_open_work desk driver new_driver Follow (5 * second)
                   handover_report desk_reachable _ _)).
  - discriminate.
  - vm_compute. reflexivity.
Defined.

(** The whole ledger, one record a page. *)
Definition one_by_one : HostDeliveryQuery := MkHostDeliveryQuery None None AnyTarget 1 None.

Lemma pages_cover_the_ledger_witness :
  dr_id <$> read_pages 2 desk one_by_one = [news_id; question_id] ∧
  ∀ r, r ∈ read_pages 2 desk one_by_one ↔
    query_admits one_by_one r = true ∧ ledger_get desk (dr_id r) = Some r.
Proof.
  split; [vm_compute; reflexivity|].
  refine (proj2 (proj2 (pages_cover_the_ledger desk one_by_one 2 desk_reachable _ _ _))).
  - vm_compute. discriminate.
  - reflexivity.
  - vm_compute. discriminate.
Defined.
