(* ===== verification/Seats.v ===== *)
(** * What a binding promises

    At most one host drives a scope, replacing it raises the fence, and the host
    that was replaced is shut out of the work it had. *)

From S2P Require Import Prelude Errors Text Values Steps Definitions Interventions Delivery DeliveryLedger Deliveries Offers.
From S2P Require Import Integrators.

(** ** Rows *)

(** Every binding of a row belongs to its scope, and only the last can be in
    force. *)
Definition row_ok (key : string) (row : list IntegratorBinding) : Prop :=
  Forall (λ b, scope_key (ib_scope b) = key) row ∧
  ∀ l1 b l2, row = l1 ++ b :: l2 → ib_is_live b = true → l2 = [].

Lemma update_first_Some {A} (f : A → bool) g (l l' : list A) y :
  update_first f g l = Some (l', y) →
  ∃ l1 x l2, l = l1 ++ x :: l2 ∧ f x = true ∧ y = g x ∧ l' = l1 ++ g x :: l2.
Proof.
  revert l'. induction l as [|x l IH]; intros l'; simpl; [done|]. destruct (f x) eqn:Hx.
  - intros [= <- <-]. by exists [], x, l.
  - destruct (update_first f g l) as [[k z]|]; [|done]. intros [= <- <-].
    destruct (IH k eq_refl) as (l1 & x' & l2 & -> & ? & -> & ->). by exists (x :: l1), x', l2.
Qed.

(** Changing the binding in force of a row, which stays in its scope. *)
Lemma row_ok_update key l1 x l2 y :
  row_ok key (l1 ++ x :: l2) → ib_is_live x = true → ib_scope y = ib_scope x →
  row_ok key (l1 ++ y :: l2).
Proof.
  intros [Hscope Hlast] Hx Hy. pose proof (Hlast l1 x l2 eq_refl Hx) as ->. split.
  - rewrite !Forall_app, !Forall_cons in *. rewrite Hy. naive_solver.
  - intros k1 b k2 Heq Hb. destruct k2 as [|z k2 _] using rev_ind; [done|].
    rewrite app_comm_cons, app_assoc in Heq. apply app_inj_tail in Heq as [-> _].
    rewrite <-!app_assoc in Hlast. cbn in Hlast.
    by apply (Hlast k1 b (k2 ++ [x])) in Hb; [destruct k2|].
Qed.

Lemma row_current_spec key row b :
  row_ok key row → row_current row = Some b ↔ b ∈ row ∧ ib_is_live b = true.
Proof.
  intros [_ Hlast]. unfold row_current. split.
  - intros [Hin Hl]%List.find_some. by rewrite <-List.in_rev, <-list_elem_of_In in Hin.
  - intros [(l1 & l2 & ->)%list_elem_of_split Hl]. pose proof (Hlast l1 b l2 eq_refl Hl) as ->.
    rewrite rev_app_distr. simpl. by rewrite Hl.
Qed.

Lemma row_retire_dead row b at_ :
  row_ok (scope_key (ib_scope b)) row → row_current row = Some b →
  Forall (λ b', ib_is_live b' = false) (row_retire row (ib_id b) at_).
Proof.
  intros Hok [Hb Hl]%(row_current_spec _ _ _ Hok). apply Forall_fmap, Forall_forall. intros b' Hb'. cbn.
  destruct (ib_is_live b') eqn:Hl'; [|by rewrite andb_false_r].
  assert (Some b' = Some b) as [= ->].
  { rewrite <-(proj2 (row_current_spec _ _ b Hok) (conj Hb Hl)). symmetry. by apply (row_current_spec _ _ _ Hok). }
  by rewrite eqb_refl.
Qed.

Lemma row_ok_snoc key row b :
  Forall (λ b, scope_key (ib_scope b) = key) row → scope_key (ib_scope b) = key →
  Forall (λ b, ib_is_live b = false) row → row_ok key (row ++ [b]).
Proof.
  intros Hscope Hb Hdead. split; [by rewrite Forall_app, Forall_singleton|].
  intros l1 x l2 Heq Hx. destruct l2 as [|z l2 _] using rev_ind; [done|].
  rewrite app_comm_cons, app_assoc in Heq. apply app_inj_tail in Heq as [-> _].
  rewrite Forall_app, Forall_cons in Hdead. destruct Hdead as (_ & Hbad & _). congruence.
Qed.

Lemma row_bind_ok key row offered replacement next o :
  row_ok key row → scope_key (ib_scope offered) = key →
  row_bind row offered replacement = (Some next, o) → row_ok key next.
Proof.
  intros Hok Hkey. unfold row_bind. destruct (row_current row) as [b|] eqn:Hc.
  - destruct (_ && _); [done|]. destruct (replaces replacement); [|done]. intros [= <- <-].
    pose proof Hok as [Hscope _].
    assert (scope_key (ib_scope b) = key) as Hb.
    { apply (row_current_spec _ _ _ Hok) in Hc as [Hb _]. rewrite Forall_forall in Hscope. by apply Hscope. }
    apply row_ok_snoc; [|done|apply row_retire_dead; by rewrite ?Hb].
    unfold row_retire. rewrite Forall_fmap. eapply Forall_impl; [done|]. intros x Hx. cbn.
    by destruct (_ && _).
  - intros [= <- <-]. apply row_ok_snoc; [apply Hok|done|]. apply Forall_forall. intros b Hb.
    apply not_true_iff_false. intros Hl. assert (row_current row = Some b); [|congruence].
    by apply (row_current_spec _ _ _ Hok).
Qed.

(** ** Reachable stores *)

(** One call of the binding port; bindings are offered as [IntegratorBinding::new]
    makes them. *)
Inductive BindingCall :=
  | CallBind (id : string) (scope : IntegratorScope) (role_id : RoleId) (destination : HostDestination)
      (incarnation : string) (bound_at : Instant) (replacement : BindReplacement)
  | CallRevoke (id : string) (now : Instant)
  | CallRecordProgress (binding : IntegratorBinding) (progress : LoopProgressMark).

Definition bindings_after (s : Bindings) (c : BindingCall) : Bindings :=
  match c with
  | CallBind id scope role_id destination incarnation bound_at replacement =>
      (bindings_bind s (IntegratorBinding_new id scope role_id destination incarnation bound_at)
         replacement).1
  | CallRevoke id now => (bindings_revoke s id now).1
  | CallRecordProgress binding progress => (bindings_record_progress s binding progress).1
  end.

Definition bindings_reachable (s : Bindings) : Prop := ∃ cs, s = foldl bindings_after ∅ cs.

Definition bindings_ok (s : Bindings) : Prop := ∀ key row, s !! key = Some row → row_ok key row.

Lemma row_ok_nil key : row_ok key [].
Proof. split; [done|]. by intros [|] ? ?. Qed.

Lemma write_row_ok s key next :
  bindings_ok s → (∀ row, next = Some row → row_ok key row) → bindings_ok (write_row s key next).
Proof.
  intros Hs Hn. destruct next as [row|]; [|done]. intros k r. cbn. rewrite lookup_insert.
  case_decide; [|by apply Hs]. intros [= <-]. subst. by apply Hn.
Qed.

Lemma bindings_ok_default s key : bindings_ok s → row_ok key (default [] (s !! key)).
Proof. intros Hs. destruct (s !! key) eqn:Hk; [by apply Hs|apply row_ok_nil]. Qed.

Lemma bindings_after_ok s c : bindings_ok s → bindings_ok (bindings_after s c).
Proof.
  intros Hs. destruct c as [id scope role_id dest inc at_ rep|id now|binding progress]; cbn [bindings_after].
  - unfold bindings_bind. destruct (row_bind _ _ _) as [next o] eqn:Hb. cbn. apply write_row_ok; [done|].
    intros row ->. refine (row_bind_ok _ _ _ _ _ _ _ _ Hb); [by apply bindings_ok_default|done].
  - unfold bindings_revoke. destruct (List.find _ _) as [[key row]|] eqn:Hf; [|done]. cbn.
    apply write_row_ok; [done|]. unfold row_revoke. intros row'.
    destruct (update_first _ _ _) as [[next x]|] eqn:Hu; [|done]. intros [= <-].
    apply List.find_some in Hf as [Hin _]. apply list_elem_of_In, elem_of_btree_entries in Hin.
    apply update_first_Some in Hu as (l1 & b & l2 & -> & [_ Hlive]%andb_true_iff & -> & ->).
    by eapply row_ok_update; [apply Hs|..].
  - unfold bindings_record_progress. destruct (s !! _) as [row|] eqn:Hr; [|done]. cbn.
    apply write_row_ok; [done|]. unfold row_observing. intros row'.
    destruct (update_first _ _ _) as [[next x]|] eqn:Hu; [|done]. intros [= <-].
    apply update_first_Some in Hu as (l1 & b & l2 & -> & [_ Hlive]%andb_true_iff & -> & ->).
    by eapply row_ok_update; [apply Hs|..].
Qed.

Lemma bindings_reachable_ok s : bindings_reachable s → bindings_ok s.
Proof.
  intros [cs ->]. assert (∀ s, bindings_ok s → bindings_ok (foldl bindings_after s cs)) as H.
  { induction cs as [|c cs IH]; intros s Hs; cbn; [done|]. by apply IH, bindings_after_ok. }
  apply H. intros ? ? []%lookup_empty_Some.
Qed.

(** ** One integrator per scope *)

Lemma scope_key_inj s1 s2 : scope_key s1 = scope_key s2 → s1 = s2.
Proof.
  destruct s1, s2; unfold scope_key; intros H; [|done|done|]; f_equal.
  - by apply (inj (String.app "ceremony:")).
  - by apply (inj (String.app "system_execution:")).
Qed.

Lemma bindings_current_spec s scope b :
  bindings_ok s →
  bindings_current s scope = Some b ↔ b ∈ bindings_list s (Some scope) ∧ ib_is_live b = true.
Proof.
  intros Hs. unfold bindings_current, bindings_list. destruct (s !! scope_key scope) as [row|] eqn:Hr; cbn.
  - apply (row_current_spec (scope_key scope)). by apply Hs.
  - split; [done|]. by intros [[]%not_elem_of_nil _].
Qed.

Lemma bindings_list_scope s scope b :
  bindings_ok s → b ∈ bindings_list s (Some scope) → ib_scope b = scope.
Proof.
  intros Hs. unfold bindings_list. destruct (s !! scope_key scope) as [row|] eqn:Hr; cbn.
  - intros Hb. destruct (Hs _ _ Hr) as [Hscope _]. rewrite Forall_forall in Hscope.
    by apply scope_key_inj, Hscope.
  - by intros []%not_elem_of_nil.
Qed.

(** In every reachable store a scope has at most one binding in force, it is the
    last of its row, [current] finds exactly it, and the bindings listed for a
    scope are its own. *)
Theorem one_integrator_per_scope s scope :
  bindings_reachable s →
  (∀ b, b ∈ bindings_list s (Some scope) → ib_scope b = scope) ∧
  (∀ j b, bindings_list s (Some scope) !! j = Some b → ib_is_live b = true →
     S j = length (bindings_list s (Some scope))) ∧
  (∀ b, bindings_current s scope = Some b ↔
     b ∈ bindings_list s (Some scope) ∧ ib_is_live b = true).
Proof.
  intros Hs%bindings_reachable_ok. split_and!.
  - intros b. by apply bindings_list_scope.
  - intros j b Hj Hl. destruct (bindings_ok_default s (scope_key scope) Hs) as [_ Hlast].
    unfold bindings_list in *. pose proof (lookup_lt_Some _ _ _ Hj) as Hlt.
    specialize (Hlast _ _ _ (eq_sym (take_drop_middle _ _ _ Hj)) Hl).
    apply (f_equal length) in Hlast. rewrite length_drop in Hlast. cbn in Hlast. lia.
  - intros b. by apply bindings_current_spec.
Qed.

(** ** The replaced host *)

Lemma elem_of_bindings_list s b :
  bindings_ok s → b ∈ bindings_list s None ↔ b ∈ bindings_list s (Some (ib_scope b)).
Proof.
  intros Hs. cbn. rewrite list_elem_of_In, in_concat. setoid_rewrite <-list_elem_of_In.
  setoid_rewrite elem_of_btree_values. split.
  - intros (row & [key Hr] & Hb). destruct (Hs _ _ Hr) as [Hscope _]. rewrite Forall_forall in Hscope.
    by rewrite (Hscope b Hb), Hr.
  - destruct (s !! scope_key (ib_scope b)) as [row|] eqn:Hr; [|by intros []%not_elem_of_nil]. eauto.
Qed.

Lemma find_by_id l b :
  NoDup (ib_id <$> l) → b ∈ l → List.find (λ b', ib_id b' == ib_id b) l = Some b.
Proof.
  induction l as [|x l IH]; cbn; [by intros _ []%not_elem_of_nil|].
  intros [Hx Hnd]%NoDup_cons [->|Hb]%elem_of_cons; [by rewrite eqb_refl|].
  destruct (ib_id x == ib_id b) eqn:He; [|by apply IH]. apply eqb_true_1 in He.
  destruct Hx. rewrite He. by apply list_elem_of_fmap_2.
Qed.

Lemma still_this_host_spec s id incarnation fence :
  bindings_ok s → NoDup (ib_id <$> bindings_list s None) →
  still_this_host s id incarnation fence = Ok tt ↔
  ∃ scope b, bindings_current s scope = Some b ∧ ib_id b = id ∧ ib_incarnation b = incarnation ∧
             ib_fence b = fence.
Proof.
  intros Hs Hnd. unfold still_this_host. rewrite bind_Ok. setoid_rewrite ok_or_Ok.
  setoid_rewrite ensure_Ok. unfold ib_admits. split.
  - intros (b & [Hin Hid%eqb_true_1]%List.find_some & Hok). apply list_elem_of_In in Hin.
    apply elem_of_bindings_list in Hin; [|done]. exists (ib_scope b), b.
    destruct (ib_is_live b) eqn:Hl; [|done]. cbn in Hok.
    rewrite negb_involutive, andb_true_iff, Z.eqb_eq, eqb_true in Hok.
    split_and!; [|naive_solver..]. by apply bindings_current_spec.
  - intros (scope & b & Hc & <- & <- & <-). apply bindings_current_spec in Hc as [Hb Hl]; [|done].
    pose proof (bindings_list_scope _ _ _ Hs Hb) as <-. apply elem_of_bindings_list in Hb; [|done].
    exists b. rewrite find_by_id by done. split; [done|]. by rewrite Hl, eqb_refl, Z.eqb_refl.
Qed.

(** While binding identifiers are used once, a host's acknowledgement is looked
    at exactly when the host is the one that drives a scope now, under the
    identifier, incarnation and fence it presents; otherwise it is refused and
    the ledger is left alone. *)
Theorem only_the_bound_host_acts s l input now :
  bindings_reachable s → NoDup (ib_id <$> bindings_list s None) →
  let refused := is_ok (still_this_host s (aia_binding_id input) (aia_incarnation input)
                          (aia_fence input)) = false in
  (refused ↔ ¬ ∃ scope b, bindings_current s scope = Some b ∧ ib_id b = aia_binding_id input ∧
      ib_incarnation b = aia_incarnation input ∧ ib_fence b = aia_fence input) ∧
  (refused → ∃ e, acknowledge_integrator_attention s l input now = (l, Err e)).
Proof.
  intros Hs%bindings_reachable_ok Hnd refused. unfold refused, acknowledge_integrator_attention.
  rewrite <-still_this_host_spec by done. unfold still_this_host.
  destruct (List.find _ _) as [b|]; cbn; [|split; [|eauto]; naive_solver].
  unfold ensure. destruct (negb _); cbn; split; naive_solver.
Qed.

Lemma bind_replaced s offered replacement s' previous current :
  bindings_ok s → bindings_bind s offered replacement = (s', Replaced previous current) →
  bindings_current s (ib_scope offered) = Some previous ∧
  bindings_current s' (ib_scope offered) = Some current ∧
  current = ib_replacing previous offered ∧ bindings_ok s' ∧
  ib_revoked previous (ib_bound_at offered) ∈ bindings_list s' (Some (ib_scope offered)).
Proof.
  intros Hs Hb. assert (bindings_ok s') as Hs'.
  { unfold bindings_bind in Hb. destruct (row_bind _ _ _) as [next o] eqn:Hr. injection Hb as <- ->.
    apply write_row_ok; [done|]. intros row ->.
    refine (row_bind_ok _ _ _ _ _ _ _ _ Hr); [by apply bindings_ok_default|done]. }
  unfold bindings_bind, row_bind in Hb. cbn [fst snd] in Hb.
  destruct (row_current (default [] (s !! scope_key (ib_scope offered)))) as [b|] eqn:Hc; [|done].
  destruct (_ && _); [done|]. destruct (replaces replacement); [|done]. cbn in Hb.
  injection Hb as <- -> <-. split_and!; [| |done|done|].
  - unfold bindings_current. by destruct (s !! scope_key (ib_scope offered)).
  - unfold bindings_current. rewrite lookup_insert, decide_True by done. cbn. unfold row_current.
    rewrite rev_app_distr. done.
  - unfold bindings_list. rewrite lookup_insert, decide_True by done. cbn. apply elem_of_app. left.
    apply (row_current_spec (scope_key (ib_scope offered))) in Hc as [Hin Hl]; [|by apply bindings_ok_default].
    apply list_elem_of_fmap. exists previous. split; [|done]. by rewrite eqb_refl, Hl.
Qed.

Section replacement.
Context {Hclk : Clock}.

(** A host that takes over a scope drives it with a higher fence.  The host it
    replaced is refused whatever it presents, and, when its work could be moved,
    no open delivery is left with it. *)
Theorem replaced_host_is_shut_out s l input bound_at moved_at s' l' previous current :
  bindings_reachable s → ledger_reachable l → NoDup (ib_id <$> bindings_list s' None) →
  bind_ceremony_integrator s l input bound_at moved_at = (s', l', Ok (Replaced previous current)) →
  bindings_current s (bind_scope input) = Some previous ∧
  bindings_current s' (bind_scope input) = Some current ∧
  ib_fence current = IntegratorFence_next (ib_fence previous) ∧
  (∀ ack now, aia_binding_id ack = ib_id previous →
     acknowledge_integrator_attention s' l' ack now = (l', Err (Conflict "integrator_fence"))) ∧
  (is_ok (ledger_supersede l (ib_delivery_target previous) (ib_delivery_target current)
            (bind_follow input) moved_at).2 = true →
   ∀ k d, l' !! k = Some d → is_affected (ib_delivery_target previous) d = false).
Proof.
  intros Hs%bindings_reachable_ok Hl%reachable_ok Hnd Hbind. unfold bind_ceremony_integrator in Hbind.
  set (offered := IntegratorBinding_new _ _ _ _ _ _) in Hbind.
  destruct (bindings_bind s offered (bind_replacement input)) as [s1 o] eqn:Hb. cbn [fst snd] in Hbind.
  destruct o as [| |p c|]; cbn in Hbind; try done. injection Hbind as -> <- Ho.
  destruct (ledger_supersede _ _ _ _ _) as [l1 moved] eqn:Hm in Ho |- *; cbn [fst snd] in *.
  assert (p = previous ∧ c = current) as [-> ->] by by destruct moved; simplify_eq.
  destruct (bind_replaced _ _ _ _ _ _ Hs Hb) as (Hprev & Hcur & Hrep & Hs' & Hold).
  pose proof (bindings_list_scope _ _ _ Hs' Hold) as Hscope. cbn in Hscope.
  assert (ib_revoked previous (ib_bound_at offered) ∈ bindings_list s' None) as Hold'.
  { apply elem_of_bindings_list; [done|]. cbn. by rewrite Hscope. }
  assert (current ∈ bindings_list s' None) as Hcur'.
  { apply bindings_current_spec in Hcur as [Hin _]; [|done].
    apply elem_of_bindings_list; [done|]. by rewrite (bindings_list_scope _ _ _ Hs' Hin). }
  pose proof (find_by_id _ _ Hnd Hold') as Hfind.
  change (ib_id (ib_revoked _ _)) with (ib_id previous) in Hfind.
  split_and!; [done|done|by rewrite Hrep| |].
  - intros ack now Hid. unfold acknowledge_integrator_attention, still_this_host.
    by rewrite Hid, Hfind.
  - rewrite ?Hm. intros Hok k d. destruct moved as [out| |]; [|done|done].
    assert (ib_delivery_target previous ≠ ib_delivery_target current) as Hne.
    { intros [= Heq]. pose proof (find_by_id _ _ Hnd Hcur') as Hfind'. rewrite <-Heq, Hfind in Hfind'.
      injection Hfind' as Hbad. rewrite Hrep in Hbad. by apply (f_equal ib_revoked_at) in Hbad. }
    pose proof (supersession_spec l _ _ (bind_follow input) moved_at out Hl Hne) as Hspec.
    rewrite Hm in Hspec. destruct (Hspec eq_refl) as [Hnone _]. apply Hnone.
Qed.

End replacement.

(** ** A seat that changes hands *)

#[local] Existing Instance calendar.

Definition c1 : IntegratorScope := ScopeCeremony "c-1".
Definition console : HostDestination := MkHostDestination "console" "host-a" HostModeNone.

Definition seated : Bindings :=
  foldl bindings_after ∅ [CallBind "b-1" c1 "integrator" console "run-1" 0 Refuse].

Lemma seated_reachable : bindings_reachable seated.
Proof. eexists. reflexivity. Defined.

Definition takeover : BindCeremonyIntegratorInput :=
  MkBindCeremonyIntegratorInput "b-2" c1 "integrator" console "run-2" Replace Follow.

Definition first_driver : IntegratorBinding :=
  IntegratorBinding_new "b-1" c1 "integrator" console "run-1" 0.
Definition second_driver : IntegratorBinding :=
  ib_replacing first_driver (IntegratorBinding_new "b-2" c1 "integrator" console "run-2" (5 * second)).

Definition taken_over : Bindings * DeliveryLedger * outcome BindOutcome :=
  bind_ceremony_integrator seated desk takeover (5 * second) (5 * second).

Lemma one_integrator_per_scope_witness :
  bindings_current seated c1 = Some first_driver ∧
  ∀ b, bindings_current seated c1 = Some b ↔ b ∈ bindings_list seated (Some c1) ∧ ib_is_live b = true.
Proof.
  split; [vm_compute; reflexivity|].
  refine (proj2 (proj2 (one_integrator_per_scope seated c1 seated_reachable))).
Defined.

(** The host that is not there any more. *)
Definition ghost : AcknowledgeIntegratorAttentionInput :=
  MkAcknowledgeIntegratorAttentionInput "b-1" "run-0" 0 news_id question_lease
    (SaysProcessed (MkProcessedActionRef Integrated None)).

Lemma only_the_bound_host_acts_witness :
  is_ok (still_this_host seated "b-1" "run-1" 0) = true ∧
  ∃ e, acknowledge_integrator_attention seated desk ghost (6 * second) = (desk, Err e).
Proof.
  split; [vm_compute; reflexivity|].
  refine (proj2 (only_the_bound_host_acts seated desk ghost (6 * second) seated_reachable _) _).
  - vm_compute. apply NoDup_singleton.
  - vm_compute. reflexivity.
Defined.

Lemma replaced_host_is_shut_out_witness :
  bindings_current taken_over.1.1 c1 = Some second_driver ∧
  ∀ ack now, aia_binding_id ack = "b-1" →
    acknowledge_integrator_attention taken_over.1.1 taken_over.1.2 ack now
      = (taken_over.1.2, Err (Conflict "integrator_fence")).
Proof.
  assert (taken_over = (taken_over.1.1, taken_over.1.2, Ok (Replaced first_driver second_driver))) as H
    by (vm_compute; reflexivity).
  assert (NoDup (ib_id <$> bindings_list taken_over.1.1 None)) as Hnd.
  { vm_compute. apply NoDup_cons. split; [|apply NoDup_singleton].
    intros Hbad%list_elem_of_singleton. discriminate Hbad. }
  destruct (replaced_host_is_shut_out seated desk takeover (5 * second) (5 * second) _ _ _ _
              seated_reachable desk_reachable Hnd H) as (_ & Hcur & _ & Hack & _).
  split; [exact Hcur|exact Hack].
Defined.
