(* ===== verification/DeliveryDefects.v ===== *)
(** * Runs of the delivery ledger the code does not mean to allow *)

From S2P Require Import Prelude Errors Text Values Steps Definitions Interventions Delivery DeliveryLedger Deliveries Offers.
From S2P Require Import Integrators Seats.

#[local] Existing Instance calendar.

(** A live lease is not exclusive against an activation: when the engine records
    that it reached the host, a delivery another host holds is put back on
    offer.  Here a second host is handed the question long before the first
    host's lease runs out, and the first host's answer is refused. *)
Theorem activation_breaks_a_live_lease :
  let l := deliver desk (CallRecordActivation question_id
             (ActivationAccepted (MkHostActivationReceipt AdapterCommand (10 * second) None))
             (10 * second)) in
  record_live_lease_at (sd_record (entry desk question_id)) (12 * second) = Some question_lease ∧
  (∃ d, (ledger_lease lease_uuid l reviewers_work "run-9" (11 * second) 60000 10).2 = Ok [d] ∧
        leased_id d = question_id ∧ hl_owner (ld_lease d) = "run-9") ∧
  (ledger_acknowledge l question_lease answer (12 * second)).2 = Ok AckLeaseNotOwned.
Proof.
  split; [vm_compute; reflexivity|]. split; [|vm_compute; reflexivity].
  eexists. split; [vm_compute; reflexivity|]. split; reflexivity.
Qed.

(** The host of binding b-1 restarts and binds its seat again under the same
    identifier with a new incarnation, asking that its work follow. *)
Definition restart : BindCeremonyIntegratorInput :=
  MkBindCeremonyIntegratorInput "b-1" c1 "integrator" console "run-2" Replace Follow.

Definition restarted : Bindings * DeliveryLedger * outcome BindOutcome :=
  bind_ceremony_integrator seated desk restart (5 * second) (5 * second).

(** A restarted host loses its seat and its work.  It is bound, one fence higher,
    but every delivery that was open for it is closed as superseded by itself,
    and every acknowledgement it makes is refused, because the use case compares
    the first binding ever made under the identifier. *)
Theorem restarted_host_loses_its_work :
  (∃ b, bindings_current restarted.1.1 c1 = Some b ∧ ib_admits b "run-2" 1 = true) ∧
  is_affected driver (entry desk news_id) = true ∧
  dr_state (sd_record (entry restarted.1.2 news_id)) = DeliverySuperseded (Some news_id) ∧
  affected_by restarted.1.2 driver = [] ∧
  still_this_host restarted.1.1 "b-1" "run-2" 1 = Err (Conflict "integrator_fence").
Proof.
  split; [eexists; split; [vm_compute; reflexivity|reflexivity]|].
  split_and!; vm_compute; reflexivity.
Qed.

Definition agent_one : HostDeliveryTarget := TargetAgentExecution "worker:a" "run".
Definition agent_two : HostDeliveryTarget := TargetAgentExecution "worker" "a:run".
Definition shared_id : string := "c-1:intervention:i-1:agent:worker:a:run".

(** Two deliveries can have one identity: identifiers may contain the colon that
    separates the parts.  The second delivery is taken for the first and never
    made. *)
Theorem two_deliveries_share_an_identity :
  agent_one ≠ agent_two ∧
  CeremonyAgentExecutionId_new "worker:a" = Ok "worker:a" ∧ HostAgentIncarnation_new "a:run" = Ok "a:run" ∧
  record_queued question agent_one desk_terms 0 = Ok (opened_at question agent_one shared_id 0) ∧
  record_queued question agent_two desk_terms 0 = Ok (opened_at question agent_two shared_id 0) ∧
  let l := deliver ∅ (CallEnqueue (opened_at question agent_one shared_id 0)) in
  ledger_enqueue l (opened_at question agent_two shared_id 0)
    = (l, Ok (AlreadyQueued (opened_at question agent_one shared_id 0))).
Proof. split; [discriminate|]. split_and!; vm_compute; reflexivity. Qed.

Definition patient_terms : HostDeliveryPolicy := MkHostDeliveryPolicy PullLease 60000 (Some u64_max) 3 Stay.

Definition patient_calls : list DeliveryCall :=
  [CallEnqueue ((opened_at question reviewer question_id 0) <| dr_policy := patient_terms |>);
   CallLease lease_uuid everything "run-7" 0 60000 10;
   CallAcknowledge question_lease answer second].

(** The sweep can panic: terms with an acknowledgement timeout beyond the
    calendar are accepted, and once such a delivery is acknowledged every sweep
    of the ledger panics. *)
Theorem long_timeout_panics_the_sweep :
  HostDeliveryPolicy_new PullLease 60000 (Some u64_max) 3 Stay = Ok patient_terms ∧
  Forall call_ok patient_calls ∧
  ledger_expire (ledger_run ∅ patient_calls) (70 * second) = (ledger_run ∅ patient_calls, Panic).
Proof.
  split; [vm_compute; reflexivity|]. split.
  - apply Forall_cons. split; [|calls_ok].
    exists question, reviewer, patient_terms, 0. split; [cbn; lia|]. vm_compute. reflexivity.
  - vm_compute. reflexivity.
Qed.

Definition rebound : list BindingCall :=
  [CallBind "b-1" c1 "integrator" console "run-1" 0 Refuse;
   CallBind "b-2" c1 "integrator" console "run-2" second Replace;
   CallRevoke "b-2" (2 * second);
   CallBind "b-3" c1 "integrator" console "run-3" (3 * second) Refuse].

(** The fence of a scope is not monotonic: after a revocation the next binding
    starts again at the first fence. *)
Theorem fence_restarts_after_revocation :
  ib_fence <$> bindings_list (foldl bindings_after ∅ rebound) (Some c1) = [0; 1; 0].
Proof. vm_compute. reflexivity. Qed.
