(* ===== verification/Defects.v ===== *)
(** * Runs the code does not mean to allow

    Concrete sessions, each reached by opening a ceremony and deciding
    commands, in which the aggregate does something its documentation rules
    out.  Each is a session of a definition the constructor accepts. *)

From S2P Require Import Prelude Errors Text Values Steps Definitions Analysis.
From S2P Require Import Interventions Instance.
From S2P Require Import Fold Rules Decide DecideTable DecideLineage Engine Sessions Scenario Moves.
From S2P Require Import Authorization AuditLog Tamper ReadBack.

(** ** A context that is full *)

(** The drafting step writes the draft it produced into the context. *)
Definition writing_demo : CeremonyDefinition := {|
  def_name := def_name demo; def_version := def_version demo;
  def_description := def_description demo; def_inputs := def_inputs demo;
  def_outputs := def_outputs demo; def_states := def_states demo;
  def_transitions := def_transitions demo;
  def_steps := <["plan" := demo_plan <| step_context_writes := {[ "draft" := "draft" ]} |>]>
                 (def_steps demo);
  def_step_order := def_step_order demo; def_guards := def_guards demo;
  def_roles := def_roles demo; def_max_parallel := def_max_parallel demo;
  def_max_transitions := def_max_transitions demo; def_max_bounces := def_max_bounces demo;
  def_ceremony_timeout := None; def_state_timeout := None;
|}.

(** As many keys as a context may have. *)
Definition full_context : CeremonyContext :=
  list_to_map ((λ n, (decimal (Z.of_nat n), VBool false)) <$> seq 0 1024).

Definition full_started : CeremonyInstanceStarted :=
  match opening "ceremony-1" writing_demo full_context 0 None None None with
  | Ok e => e | _ => demo_started end.

Definition full_start : CeremonyInstance := from_started full_started.
Definition full_planning := after_in writing_demo full_start (claim_cmd "plan" "key-1" 0).

Definition drafted_result : CeremonyCommand :=
  CmdApplyStepResult (MkApplyStepResult "plan" (fence_of full_planning "plan")
    (MkStepResult Completed {[ "draft" := VString "text" ]} None None) 1).

Lemma full_opened :
  opening "ceremony-1" writing_demo full_context 0 None None None = Ok full_started.
Proof.
  assert (is_ok (opening "ceremony-1" writing_demo full_context 0 None None None) = true) as Hok
    by (vm_compute; reflexivity).
  unfold full_started. by destruct (opening _ _ _ _ _ _ _).
Qed.

Lemma full_session :
  session writing_demo (opening_batch full_started None 0
    ++ events_in writing_demo full_start (claim_cmd "plan" "key-1" 0)) full_planning.
Proof.
  apply session_after_in; [|vm_compute; reflexivity].
  exact (session_started writing_demo _ _ _ _ _ None 0 _ full_start full_opened eq_refl).
Qed.

(** Filing a result can panic.  A worker files a valid result for its live
    claim in a session whose context already holds as many keys as a context
    may; the step declares that it writes one more, and deciding the command
    panics instead of refusing it, because the decision folds the context
    patch it has not checked. *)
Theorem full_context_panics_the_decision :
  validate writing_demo = Ok tt ∧
  ∃ es i command, session writing_demo es i ∧ command_valid command = true ∧
    decide i command writing_demo = Panic.
Proof.
  split; [vm_compute; reflexivity|].
  eexists _, full_planning, drafted_result. split; [apply full_session|].
  split; vm_compute; reflexivity.
Qed.

(** ** Approval without an approver *)

(** The context the ceremony is opened with names the human guard. *)
Definition preset_context : CeremonyContext := {[ "sign_off" := VBool true ]}.

Definition preset_started : CeremonyInstanceStarted :=
  match opening "ceremony-1" demo preset_context 0 None None None with
  | Ok e => e | _ => demo_started end.

(** The session and the stream after a list of commands, each of which may
    look at the session it is decided against. *)
Fixpoint replayed (d : CeremonyDefinition) (i : CeremonyInstance) (es : list CeremonyEvent)
    (cs : list (CeremonyInstance → CeremonyCommand)) : CeremonyInstance * list CeremonyEvent :=
  match cs with
  | [] => (i, es)
  | c :: cs => replayed d (after_in d i (c i)) (es ++ events_in d i (c i)) cs
  end.

Fixpoint all_accepted (d : CeremonyDefinition) (i : CeremonyInstance)
    (cs : list (CeremonyInstance → CeremonyCommand)) : bool :=
  match cs with
  | [] => true
  | c :: cs => is_ok (execute i (c i) d) && command_valid (c i) &&
               all_accepted d (after_in d i (c i)) cs
  end.

Lemma replayed_session d i es cs :
  session d es i → all_accepted d i cs = true →
  session d (replayed d i es cs).2 (replayed d i es cs).1.
Proof.
  revert i es. induction cs as [|c cs IH]; intros i es Hs Hall; [done|]. simpl in *.
  apply andb_true_iff in Hall as [Hc Hall]. apply IH; [|done]. by apply session_after_in.
Qed.

(** Work the demonstration to the end without asking anybody. *)
Definition unattended : list (CeremonyInstance → CeremonyCommand) :=
  [ λ _, claim_cmd "plan" "key-1" 0; λ i, finish_cmd i "plan" 1;
    λ _, claim_cmd "check" "key-2" 1; λ i, finish_cmd i "check" 2;
    λ _, move_cmd "submit" 3;
    λ _, claim_cmd "left" "key-3" 3; λ i, finish_cmd i "left" 4;
    λ _, claim_cmd "right" "key-4" 4; λ i, finish_cmd i "right" 5;
    λ _, move_cmd "approve" 6 ].

(** A human guard can pass without a human.  The decision of a guard is
    read from the context the steps and the opener write to, so a session
    opened with a context entry of the guard's name goes through the guard and
    completes although no approval was ever recorded. *)
Theorem human_guard_passes_without_approval :
  validate demo = Ok tt ∧
  ∃ es i, session demo es i ∧ is_completed i demo = true ∧ guard_approvals i = [] ∧
    (∃ g, def_guards demo !! "sign_off" = Some g ∧ guard_condition g = HumanApproval) ∧
    any (λ t, bool_decide ("sign_off" ∈ tr_required_guards t) && any (is_exact_edge t) (transitions i))
      (def_transitions demo) = true.
Proof.
  split; [vm_compute; reflexivity|]. set (i := from_started preset_started).
  exists (replayed demo i (opening_batch preset_started None 0) unattended).2.
  exists (replayed demo i (opening_batch preset_started None 0) unattended).1.
  split.
  { apply replayed_session; [|vm_compute; reflexivity].
    apply (session_started demo "ceremony-1" preset_context None None None None 0 preset_started i);
      vm_compute; reflexivity. }
  split_and!; try (vm_compute; reflexivity).
  eexists. split; vm_compute; reflexivity.
Qed.

(** ** A completed session that is not over *)

Definition interrupted : list (CeremonyInstance → CeremonyCommand) :=
  [ λ _, CmdPauseCeremony "lunch" (2 * minute); λ _, CmdResumeCeremony (2 * minute);
    λ _, move_cmd "approve" (3 * minute) ].

(** A session that was once paused and resumed is not ended by its
    completion.  It stands in its terminal state, completed, and still admits a
    pause, a cancellation and new deadlines, because the explicit lifecycle the
    resume left hides the completion. *)
Theorem completed_session_can_be_cancelled :
  validate demo = Ok tt ∧
  ∃ es i i', session demo es i ∧ is_completed i demo = true ∧ is_ended i = false ∧
    execute i (CmdCancelCeremony "too late" (4 * minute)) demo = Ok i' ∧
    is_completed i' demo = true ∧ lc_end_reason (lifecycle i') = Some EndCancelled.
Proof.
  split; [vm_compute; reflexivity|]. set (stream := demo_stream ++ events_of both_taken (finish_cmd both_taken "left" (2 * minute))
    ++ events_of left_done (finish_cmd left_done "right" (2 * minute))
    ++ events_of right_done approval).
  assert (session demo stream approved) as Hs.
  { unfold stream. rewrite !app_assoc. do 3 (apply session_after; [|vm_compute; reflexivity]).
    apply demo_session. }
  exists (replayed demo approved stream interrupted).2.
  exists (replayed demo approved stream interrupted).1.
  exists (after (replayed demo approved stream interrupted).1
            (CmdCancelCeremony "too late" (4 * minute))).
  split; [apply replayed_session; [exact Hs|vm_compute; reflexivity]|].
  split_and!; vm_compute; reflexivity.
Qed.

(** ** A deadline that outlives its claim *)

(** One step that may be tried once, in a state the session leaves and enters
    again. *)
Definition brief_step : CeremonyStep :=
  CeremonyStep_new "work" "busy" "multiagent_round" ∅ (MkRetryPolicy 1 0) (Some 60000).

Definition brief_demo : CeremonyDefinition := {|
  def_name := "brief"; def_version := "1.0"; def_description := None;
  def_inputs := ∅; def_outputs := ∅;
  def_states := {[ "busy" := demo_state "busy" Initial Sequential;
                   "idle" := demo_state "idle" Intermediate Sequential;
                   "done" := demo_state "done" Terminal Sequential ]};
  def_transitions :=
    [ MkCeremonyTransition "busy" "idle" "leave" ∅; MkCeremonyTransition "idle" "busy" "return" ∅;
      MkCeremonyTransition "idle" "done" "stop" ∅ ];
  def_steps := {[ "work" := brief_step ]};
  def_step_order := ["work"];
  def_guards := ∅;
  def_roles := {[ "lead" := MkCeremonyRole "lead" {[ ActStep "work"; ActTransition "leave" ]} ]};
  def_max_parallel := 1; def_max_transitions := Some 9; def_max_bounces := None;
  def_ceremony_timeout := None; def_state_timeout := None;
|}.

Definition brief_started : CeremonyInstanceStarted :=
  match opening "ceremony-2" brief_demo ∅ 0 None None None with Ok e => e | _ => demo_started end.

(** The claim's lease runs out before its deadline; the session moves on and
    comes back. *)
Definition left_and_returned : list (CeremonyInstance → CeremonyCommand) :=
  [ λ _, CmdStartStep (MkStartStep None "work" (lease_of "worker" "key-1" 0 1) 0
           MaxParallel_SERVER_MAX None);
    λ _, move_cmd "leave" 2; λ _, move_cmd "return" 3 ].

(** The deadline of an abandoned claim fails the next visit's work.  A
    session leaves a state while the deadline of an expired claim is still
    pending and enters it again; the step is pending, unclaimed and offered,
    yet enforcing the old deadline marks it failed, and a step that may be
    tried once is never offered again. *)
Theorem stale_deadline_fails_unclaimed_step :
  validate brief_demo = Ok tt ∧
  ∃ es i i' r r', session brief_demo es i ∧
    step_records i !! "work" = Some r ∧ rec_status r = Pending ∧
    claimable_step_ids_at i brief_demo (2 * minute) MaxParallel_SERVER_MAX = Ok ["work"] ∧
    execute i (CmdEnforceCeremonyDeadlines (2 * minute)) brief_demo = Ok i' ∧
    step_records i' !! "work" = Some r' ∧ rec_status r' = Failed ∧
    claimable_step_ids_at i' brief_demo (2 * minute) MaxParallel_SERVER_MAX = Ok [].
Proof.
  split; [vm_compute; reflexivity|]. set (start := from_started brief_started). set (opening := opening_batch brief_started None 0).
  set (i := (replayed brief_demo start opening left_and_returned).1).
  set (i' := after_in brief_demo i (CmdEnforceCeremonyDeadlines (2 * minute))).
  exists (replayed brief_demo start opening left_and_returned).2, i, i',
    (record_of i "work"), (record_of i' "work").
  split.
  { apply replayed_session; [|vm_compute; reflexivity].
    apply (session_started brief_demo "ceremony-2" ∅ None None None None 0 brief_started start);
      vm_compute; reflexivity. }
  split_and!; vm_compute; reflexivity.
Qed.

(** ** A state with a time limit *)

(** The demo with an hour for every visit of a state. *)
Definition timed_demo : CeremonyDefinition := {|
  def_name := def_name demo; def_version := def_version demo;
  def_description := def_description demo; def_inputs := def_inputs demo;
  def_outputs := def_outputs demo; def_states := def_states demo;
  def_transitions := def_transitions demo; def_steps := def_steps demo;
  def_step_order := def_step_order demo; def_guards := def_guards demo;
  def_roles := def_roles demo; def_max_parallel := def_max_parallel demo;
  def_max_transitions := def_max_transitions demo; def_max_bounces := def_max_bounces demo;
  def_ceremony_timeout := None; def_state_timeout := Some 3600000;
|}.

Definition timed_started : CeremonyInstanceStarted :=
  match opening "ceremony-1" timed_demo ∅ 0 None None None with Ok e => e | _ => demo_started end.
Definition timed_start := from_started timed_started.

(** Both drafting steps are done and the draft is submitted. *)
Definition timed_1 := after_in timed_demo timed_start (claim_cmd "plan" "key-1" 0).
Definition timed_2 := after_in timed_demo timed_1 (finish_cmd timed_1 "plan" minute).
Definition timed_3 := after_in timed_demo timed_2 (claim_cmd "check" "key-2" minute).
Definition timed_4 := after_in timed_demo timed_3 (finish_cmd timed_3 "check" (2 * minute)).
Definition timed_5 := after_in timed_demo timed_4 (move_cmd "submit" (2 * minute)).

Definition timed_stream : list CeremonyEvent :=
  opening_batch timed_started None 0
    ++ events_in timed_demo timed_start (claim_cmd "plan" "key-1" 0)
    ++ events_in timed_demo timed_1 (finish_cmd timed_1 "plan" minute)
    ++ events_in timed_demo timed_2 (claim_cmd "check" "key-2" minute)
    ++ events_in timed_demo timed_3 (finish_cmd timed_3 "check" (2 * minute))
    ++ events_in timed_demo timed_4 (move_cmd "submit" (2 * minute)).

Lemma timed_session : session timed_demo timed_stream timed_5.
Proof.
  unfold timed_stream. rewrite !app_assoc.
  repeat (apply session_after_in; [|vm_compute; reflexivity]).
  refine (session_started timed_demo "ceremony-1" ∅ None None None None 0 timed_started timed_start _ _);
    vm_compute; reflexivity.
Qed.

#[local] Instance timed_audit : AuditSerde := table_serde timed_stream.

(** A ceremony whose states have a time limit moves once, and its journal, which
    verifies, can no longer be read: the move is sealed in payload version 4,
    for which the reader has no case. *)
Theorem timed_move_makes_the_journal_unreadable :
  validate timed_demo = Ok tt ∧
  ∃ l ws, session timed_demo timed_stream timed_5 ∧ sealed_journal timed_stream l ∧
    verify l = Intact ∧ mapM record_serialize l = Some ws ∧
    try_map record_try_from ws = Err (UnreadableCeremonyEvent "transition_applied" 4
      "no reader exists for this schema version").
Proof.
  split; [vm_compute; reflexivity|].
  exists (sealed_or (seal_all timed_stream) []),
    (default [] (mapM record_serialize (sealed_or (seal_all timed_stream) []))).
  split; [apply timed_session|]. split; [apply seal_all_sealed; vm_compute; reflexivity|].
  split_and!; vm_compute; reflexivity.
Qed.

(** ** A digest that is not ASCII *)

(** Sixty-four bytes of which the second and third are one character. *)
Definition accented_digest : string :=
  String "a" (String (ascii_of_N 195) (String (ascii_of_N 169)
    (String.string_of_list_ascii (replicate 61 "a"%char)))).

(** Parsing a digest slices the text by bytes, and panics on text that is not
    cut at character boundaries there; a sign is taken for a digit. *)
Theorem parse_hex_panics_inside_a_character :
  parse_hex accented_digest = Panic ∧
  parse_hex (String.string_of_list_ascii (concat (replicate 32 ["+"; "f"]%char)))
    = Ok (String.string_of_list_ascii (replicate 32 (ascii_of_N 15))).
Proof. split; vm_compute; reflexivity. Qed.
