(* ===== verification/AdoptionDefects.v ===== *)
(** * Changes that strand a session although they are reported to carry

    Runs of the demonstration under definitions that publish. *)

From S2P Require Import Prelude Errors Text Values Steps Definitions Graph Analysis Interventions Instance.
From S2P Require Import Fold Rules Decide DecideTable DecideLineage Engine Scenario Publication Differences Adoption.

(** Whether the session can leave by a trigger under a definition. *)
Definition can_leave_by (d : CeremonyDefinition) (i : CeremonyInstance) (trigger : string) (now : Instant)
    : bool :=
  is_some_and (transition_for_trigger d (current_state i) trigger)
    (λ t, transition_is_enabled_at i d t now).

(** ** A guard replaced by another *)

Definition swapped_draft : CeremonyDefinitionDraft :=
  demo_draft <| draft_transitions :=
    [ MkCeremonyTransition "drafting" "review" "submit" {["sign_off"]};
      MkCeremonyTransition "review" "drafting" "rework" ∅;
      MkCeremonyTransition "review" "done" "approve" {["reviewed"; "sign_off"]} ] |>.

(** A transition that gains a guard and loses another is reported to carry,
    and blocks a session that was about to move. *)
Example replaced_guard_is_reported_to_carry :
  publish swapped_draft = Ok (published swapped_draft) ∧
  strands_running_sessions (between demo (published swapped_draft)) = false ∧
  can_leave_by demo checked "submit" (2 * minute) = true ∧
  can_leave_by (published swapped_draft) checked "submit" (2 * minute) = false.
Proof. split_and!; vm_compute; reflexivity. Qed.

(** ** A repetition added to work that is done *)

Definition until_ok (limit : Z) : StepRepeatPolicy :=
  MkStepRepeatPolicy (OutputFieldEquals "ok" (VBool true)) limit.
Definition repeated_draft : CeremonyDefinitionDraft :=
  demo_draft <| draft_steps := [demo_plan; demo_check <| step_repeat_policy := Some (until_ok 2) |>;
                                demo_left; demo_right; demo_third] |>.

(** A repetition added to a step that is completed is reported to carry; the
    session can then neither move nor work: the step is not offered again. *)
Example added_repetition_is_reported_to_carry :
  publish repeated_draft = Ok (published repeated_draft) ∧
  strands_running_sessions (between demo (published repeated_draft)) = false ∧
  can_leave_by demo checked "submit" (2 * minute) = true ∧
  can_leave_by (published repeated_draft) checked "submit" (2 * minute) = false ∧
  claimable_step_ids_at checked (published repeated_draft) (2 * minute) MaxParallel_SERVER_MAX = Ok [].
Proof. split_and!; vm_compute; reflexivity. Qed.

(** ** A guard that led out of an exhausted repetition *)

Definition weary_draft : CeremonyDefinitionDraft :=
  demo_draft
    <| draft_steps := [demo_plan; demo_check <| step_repeat_policy := Some (until_ok 1) |>;
                       demo_left; demo_right; demo_third] |>
    <| draft_transitions := def_transitions demo
         ++ [MkCeremonyTransition "drafting" "review" "give_up" {["worn_out"]}] |>
    <| draft_guards := draft_guards demo_draft
         ++ [MkCeremonyGuard "worn_out" (StepRepeatExhausted "check")] |>
    <| draft_roles :=
         [MkCeremonyRole "lead" {[ ActStep "plan"; ActStep "check"; ActStep "left"; ActTransition "submit";
                                   ActTransition "give_up"; ActTransition "rework"; ActTransition "approve" ]};
          MkCeremonyRole "peer" {[ ActStep "right" ]}; MkCeremonyRole "third" {[ ActStep "third" ]}] |>.

Definition unguarded_draft : CeremonyDefinitionDraft :=
  weary_draft <| draft_transitions := def_transitions demo
                   ++ [MkCeremonyTransition "drafting" "review" "give_up" ∅] |>.

Definition weary_start : CeremonyInstance :=
  match decide_start "ceremony-1" (published weary_draft) ∅ None 0 with
  | Ok (EvCeremonyInstanceStarted e :: _) => from_started e
  | _ => demo_start
  end.
Definition weary_after := after_in (published weary_draft).
Definition weary_planned : CeremonyInstance :=
  let i := weary_after weary_start (claim_cmd "plan" "key-1" 0) in
  weary_after i (finish_cmd i "plan" minute).
Definition weary : CeremonyInstance :=
  let i := weary_after weary_planned (claim_cmd "check" "key-2" minute) in
  weary_after i (finish_cmd i "check" (2 * minute)).

(** Dropping the guard is reported to carry, and closes the only way out of
    the repetition that is exhausted. *)
Example dropped_guard_closes_the_way_out :
  publish weary_draft = Ok (published weary_draft) ∧
  publish unguarded_draft = Ok (published unguarded_draft) ∧
  strands_running_sessions (between (published weary_draft) (published unguarded_draft)) = false ∧
  can_leave_by (published weary_draft) weary "give_up" (2 * minute) = true ∧
  can_leave_by (published unguarded_draft) weary "give_up" (2 * minute) = false ∧
  can_leave_by (published unguarded_draft) weary "submit" (2 * minute) = false ∧
  claimable_step_ids_at weary (published unguarded_draft) (2 * minute) MaxParallel_SERVER_MAX = Ok [].
Proof. split_and!; vm_compute; reflexivity. Qed.

(** ** What the comparison does not look at *)

Definition hurried_draft : CeremonyDefinitionDraft :=
  demo_draft <| draft_steps := [demo_check; demo_plan; demo_left; demo_right; demo_third] |>
             <| draft_ceremony_timeout := Some 1000 |> <| draft_state_timeout := Some 1000 |>.

(** Two definitions that offer different work and end at different times are
    reported identical. *)
Example order_and_timeouts_are_not_compared :
  publish hurried_draft = Ok (published hurried_draft) ∧
  is_identical (between demo (published hurried_draft)) = true ∧
  def_ceremony_timeout demo = None ∧ def_ceremony_timeout (published hurried_draft) = Some 1000 ∧
  claimable_step_ids_at demo_start demo 0 MaxParallel_SERVER_MAX = Ok ["plan"] ∧
  claimable_step_ids_at demo_start (published hurried_draft) 0 MaxParallel_SERVER_MAX = Ok ["check"].
Proof. split_and!; vm_compute; reflexivity. Qed.
