(* ===== verification/StreamDefects.v ===== *)
(** * What deriving event identifiers costs

    The identifier of a fact is derived from what it is about, and a stream takes
    an identifier once.  Three runs of the use cases in which a command the
    aggregate accepts cannot be recorded: a role seated back where it was before,
    a guard deferred a second time, and any work on a ceremony whose own
    identifier leaves no room for the derived one. *)

From S2P Require Import Prelude Errors Text Values Steps Definitions Interventions Instance.
From S2P Require Import Authorization AuditLog Fold Rules Decide DecideTable DecideLineage Engine.
From S2P Require Import EventStore SessionStream UseCases Scenario Concurrency.

#[local] Existing Instance plain_audit.

(** The world after a use case, and its answer. *)
Definition after_call (p : io CeremonyInstance) (w : World) : World := (run p w).2.
Definition answer (p : io CeremonyInstance) (w : World) : outcome CeremonyInstance := (run p w).1.

Definition session_of (w : World) (id : CeremonyId) : CeremonyInstance :=
  match run (load id) w with (Ok s, _) => ls_instance s | _ => demo_start end.

Definition starting (id : CeremonyId) : io CeremonyInstance :=
  start_ceremony demo_ports open_stream demo_task id "planning" "1.0" ∅ "lead" ActorHuman 0.

Definition seating (specialty : string) : io CeremonyInstance :=
  bind_ceremony_participants demo_ports open_stream demo_task "ceremony-1" {[ "lead" := specialty ]}
    "lead" ActorHuman minute.

(** ** Seating a role back *)

Definition reseated_world : World :=
  after_call (seating "critic") (after_call (seating "architect")
    (after_call (starting "ceremony-1") World_default)).

(** A role that was seated as one specialty and then as another cannot be seated
    as the first again: the aggregate accepts the seating and the store refuses
    its fact as one it already holds. *)
Theorem role_cannot_be_seated_back :
  let i := session_of reseated_world "ceremony-1" in
  pb_specialty <$> participant_bindings i !! "lead" = Some "critic" ∧
  is_ok (bind_participant i demo "lead" "architect" minute) = true ∧
  answer (seating "architect") reseated_world = Err (AlreadyExists "ceremony_event").
Proof. vm_compute. split_and!; reflexivity. Qed.

(** ** Deferring a guard again *)

Definition claiming (step key : string) (now : Instant) : io CeremonyInstance :=
  out ← start_ceremony_step demo_ports open_stream demo_task "ceremony-1" "lead" ActorAgent step "worker"
          key 60000 None Explicit MaxParallel_SERVER_MAX now;
  mret (sso_instance out).

Definition finishing (w : World) (step : string) (now : Instant) : io CeremonyInstance :=
  complete_ceremony_step demo_ports open_stream demo_task "ceremony-1" step
    (fence_of (session_of w "ceremony-1") step) demo_success ActorAgent now.

Definition do_step (step key : string) (now : Instant) (w : World) : World :=
  let w := after_call (claiming step key now) w in after_call (finishing w step (now + minute)) w.

Definition review_world : World :=
  after_call (apply_ceremony_transition demo_ports open_stream demo_task "ceremony-1" "lead" ActorHuman
                "submit" (4 * minute))
    (do_step "check" "key-2" (2 * minute) (do_step "plan" "key-1" 0
       (after_call (starting "ceremony-1") World_default))).

Definition deferring (reason : string) (now : Instant) : io CeremonyInstance :=
  defer_ceremony_guard demo_ports open_stream demo_task "ceremony-1" "sign_off"
    (MkCeremonyGuardDeferralContent "not now" reason ["budget"]) "lead" ActorHuman now.

Definition deferred_world : World := after_call (deferring "no budget yet" (5 * minute)) review_world.

(** The aggregate keeps a list of deferrals and accepts a second one of the same
    guard, for a new reason and at a later time; the store refuses it. *)
Theorem guard_cannot_be_deferred_again :
  let i := session_of deferred_world "ceremony-1" in
  length (guard_deferrals i) = 1%nat ∧
  is_ok (defer_guard i demo "sign_off" (MkCeremonyGuardDeferralContent "not now" "new facts" ["budget"])
           "lead" ActorHuman (60 * minute)) = true ∧
  answer (deferring "new facts" (60 * minute)) deferred_world = Err (AlreadyExists "ceremony_event").
Proof. vm_compute. split_and!; reflexivity. Qed.

(** ** A ceremony whose name is too long to work on *)

Definition long_id : CeremonyId := String.string_of_list_ascii (replicate 200 "c"%char).

Definition long_world : World := after_call (starting long_id) World_default.

Definition claiming_long : io CeremonyInstance :=
  out ← start_ceremony_step demo_ports open_stream demo_task long_id "lead" ActorAgent "plan" "worker"
          "key-1" 60000 None Explicit MaxParallel_SERVER_MAX 0;
  mret (sso_instance out).

(** A ceremony identifier of 200 bytes is valid and its session opens, but the
    identifier of a step start on it exceeds the bound of an event identifier:
    the claim the aggregate accepts is refused. *)
Theorem long_ceremony_cannot_be_worked :
  CeremonyId_new long_id = Ok long_id ∧
  is_ok (answer (starting long_id) World_default) = true ∧
  is_ok (execute (session_of long_world long_id) (claim_cmd "plan" "key-1" 0) demo) = true ∧
  answer claiming_long long_world = Err (FieldTooLong "event_id" 271 256).
Proof. vm_compute. split_and!; reflexivity. Qed.
